(* ===== verification/_CoqProject ===== *)
-Q . S2P
Prelude.v
JsBase.v
JsText.v
Float64.v
Values.v
ValuesJson.v
Validators.v
KeyCodec.v
KeyRanges.v
IntervalIndex.v
IdCodec.v
Sharding.v
JumpHash.v
DocStore.v
SqliteDocStore.v
PostgresStore.v
ObjectStore.v
ObjectDocStore.v
ObjectHistory.v
ObjectWp.v
ObjectMethods.v
ObjectShard.v
Query.v
QueryRuntime.v
StateRes.v
Catalog.v
Policy.v
PolicyProperties.v
AsyncMutex.v
Transactor.v
Kernel.v
KernelWrites.v
IndexIntegrity.v
QueryResults.v
Guest.v
Executor.v
DiffableRanges.v
ExecutorScenarios.v
SingleWriter.v
GroupCommit.v
GroupInvariant.v
GroupProperties.v
ShardedTransactor.v
RowDiff.v
ReadIndex.v
Subscriptions.v
ResumeRegistry.v
SessionControllers.v
SyncProtocol.v
SyncHandler.v
SyncFanout.v
SyncProperties.v
SyncDelivery.v
SyncGates.v
ClientState.v
Reconciler.v
ClientSession.v
ClientInvariant.v
ClientRun.v
ClientProperties.v
ClientSettle.v
OutboxDrain.v
DrainProperties.v
ClientScenarios.v
Scheduler.v
SchedulerRuns.v
Crons.v
SchedulerDriver.v
SchedulerWakes.v
Workflow.v
WorkflowReplay.v
WorkflowLedger.v
WorkflowTxns.v
WorkflowRuns.v
WorkflowWakes.v
TriggerLog.v
Triggers.v
Authz.v
FleetLease.v
FleetFrontier.v
