(* ===== verification/Prelude.v ===== *)
(** * Concile: a verification library of the engine core

    Concile is a reactive database engine in TypeScript. A mutation runs as an
    optimistic transaction (packages/transactor) that reads a snapshot of a
    multi-version store (packages/docstore, docstore-sqlite, docstore-postgres) and stages writes
    and index-key changes; the commit validates what was read against newer
    commits, lands the rows at one new timestamp and publishes the ranges it
    wrote. A query (packages/query-engine) plans an interval of index keys
    (packages/index-key-codec), scans it and records the range it depended on;
    a later write that falls in that range invalidates the query. Values,
    their JSON form and validators are in packages/values, identifiers and
    shard routing in packages/id-codec.

    Layers, in the order of _CoqProject (a file uses earlier files only):

    - Prelude: errors and results ([res]), comparison functions with their
      laws ([CmpLaws], [CmpExact]), stable sorting, insertion-ordered maps
      ([jm_*], the JavaScript Map).
    - JsBase, JsText, Float64: the parts of the language the sources
      use. Strings are lists of UTF-16 units, byte arrays lists of bounded
      integers, numbers [spec_float] at binary64, objects association lists
      in property order with the special case of [__proto__].
    - Values, ValuesJson: values/src/value.ts and json.ts. [convexToJson] and
      [jsonToConvex] invert each other; decoding gives well-formed values.
    - Validators: validator.ts, validator-from-json.ts, schema.ts. [isValid]
      accepts exactly the described values; [toJSON] and [validatorFromJson]
      invert each other up to acceptance.
    - KeyCodec: index-key-codec/src/encode.ts. Bytewise order of encoded keys
      is the order of the values; a prefix range holds exactly the keys that
      extend the prefix.
    - KeyRanges: range.ts, keyspace.ts, serialize.ts, and storage-id.ts and
      point-range.ts of id-codec. A [RangeSet] intersects another one exactly
      when some added ranges overlap.
    - IntervalIndex: interval-index.ts. The treap is a search tree, a heap and
      has exact maxima after every operation; the index answers like a plain
      list of entries ([spec_insert], [spec_remove], [spec_run]).
    - IdCodec, Sharding, JumpHash: base32, varint, checksum, document ids; the
      table registry, shard keys and shard names; jump-hash.ts with its
      binary64 arithmetic, whose jump points are shown to increase whatever
      the rounding.
    - DocStore: docstore/src/types.ts and timestamp-oracle.ts. The interface
      of a store is the class [DocStore]; what the engine relies on is
      [DocStoreLaws], with a validity predicate: a commit keeps validity,
      allocates increasing timestamps above all others, leaves every older
      snapshot and every other document alone, and scans are sorted and
      restricted to their interval.
    - SqliteDocStore: sqlite-docstore.ts, with an instance of both classes.
      The tables are row lists, a SELECT a filter and a stable sort.
    - PostgresStore: postgres-docstore.ts, on the same tables, with the other
      instance. Its commits draw from a sequence, its scans are [DISTINCT ON] and a
      lateral join; over the same tables it reads like the SQLite store.
    - ObjectStore, ObjectDocStore: segment.ts and snapshot.ts,
      the contract of packages/objectstore and manifest.ts, and
      object-doc-store.ts with apply-snapshot.ts and consumers.ts of
      ee/packages/objectstore-substrate. A method is the tree of its requests
      to the bucket and of the steps it takes on its object ([oprog]).
      ObjectHistory: the events of the manifest, the durable log they make
      ([log_of]), and what any history with one writer per epoch satisfies.
      ObjectWp: what a writer may do ([move]), the invariant of the bucket
      ([Inv]), what interference leaves alone, and a program logic for methods
      under interference ([wp]); ObjectMethods: every method is proved in it.
      ObjectShard: any number of objects whose steps interleave ([shard_run]),
      the theorems and concrete runs.
    - Query, QueryRuntime: filter.ts, index-manager.ts, plan.ts and
      query-runtime.ts, over any store with the laws.
    - StateRes: the state and error monad of the kernel, the sync tier and the
      client: a throw keeps the state it leaves behind ([keeps], [keeps_ok]).
    - Catalog, Policy, Kernel, Guest, Executor: packages/executor.
      catalog.ts, profile.ts, seeded-random.ts and global-txn.ts; policy.ts;
      the handlers of kernel.ts, one per call, on the state [kst] that the
      contexts of an attempt share; guest.ts, where a user function is the
      tree of its calls on the channels it was given ([guest], [run_guest]);
      one [attempt] of executor.ts with its facades, policies and memoized
      rule context, what the run reports, and actions.
      KernelWrites classifies what each step of a handler does to the
      transaction ([quiet], [Absorbs]) and what it may write; Executor lifts
      such relations from calls to runs. IndexIntegrity: staged index updates match staged documents
      ([exact]). QueryResults: what a query answers. DiffableRanges: what a
      trace promises the differ, and the handler that returns the array unchanged. PolicyProperties: what relation clauses
      select. ExecutorScenarios: a small application and its runs.
    - AsyncMutex: async-mutex.ts, every interleaving of calls.
    - Transactor, SingleWriter: headroom.ts, uncommitted-writes.ts,
      types.ts, shard-writer.ts (single-commit path) and
      single-writer-transactor.ts, over any store with the laws. A transaction
      function is a tree of context calls ([prog]) that sees every answer,
      errors included. [system] is a writer, its transactions and the commit
      that holds the mutex; [sys_step] is one step of the event loop,
      [reachable] any schedule. What both commit paths share is in Transactor.
    - GroupCommit, GroupInvariant, GroupProperties: group commit of
      shard-writer.ts. Staging, batches, the committer loop, splitting of a
      batch the store refuses; [gsys_step] interleaves them.
    - ShardedTransactor: sharded-transactor.ts, the creation of shard writers
      by concurrent callers and the fan-out of the clock.
    - RowDiff: sync/src/change.ts, classify.ts, commit-differ.ts.
    - ReadIndex, Subscriptions, ResumeRegistry, SessionControllers: the
      interval indexes with their read sets, subscription-manager.ts,
      resume-registry.ts, session-controllers.ts.
    - SyncProtocol, SyncHandler, SyncFanout: protocol.ts, client-reducer.ts
      and handler.ts. [h_step] is one unit of the handler's work, each run to
      its end, except that the reactive fan-out of a commit may park on the
      gate of the response it must not overtake ([notify_resume]).
      SyncProperties, SyncDelivery, SyncGates have the theorems and
      concrete sessions.
    - ClientState, Reconciler, ClientSession: layered-store.ts,
      optimistic-store.ts; mutation-log.ts, delivery-policy.ts, reconcile.ts;
      client.ts and connect-handshake.ts. A subscription is an object in a
      heap that the maps by hash and by query id share; an updater is a tree
      of its calls on the optimistic store. [client_step] is one entry point
      of the client. ClientInvariant, ClientRun, ClientSettle and
      ClientProperties have the invariant, its preservation by every
      entry point, the account of promises and the theorems.
    - OutboxDrain, DrainProperties: outbox-drain.ts on top of the
      client. Its asynchronous steps are events that may come in any order
      ([d_step]). ClientScenarios has concrete runs.
    - Scheduler, SchedulerRuns, Crons: components/scheduler. The job table is
      one list of rows, a payload is opaque; SchedulerRuns interleaves claims,
      executions, completions, crashes, sweeps and transactions ([srun_step])
      and says what an operation leaves of a job and which callbacks it
      enqueues ([evolves]). Crons has the
      recurring jobs, their catch-up and their reconciliation at boot.
    - SchedulerDriver, SchedulerWakes: the timers that
      runtime-embedded/src/runtime.ts gives a driver, in process and by a host
      alarm; driver.ts as a machine whose calls settle in any order ([dstep]);
      when it wakes.
    - Workflow, WorkflowReplay, WorkflowLedger, WorkflowTxns, WorkflowRuns,
      WorkflowWakes: components/workflow, over the job table. A handler is the
      tree of the steps it awaits ([whandler]); a poll replays it. [follows]
      says that a journal is that of its handler, [direct] is a run of the
      handler that never stops; [wstep] interleaves the transactions of the
      workflow's functions with everything the scheduler does.
    - TriggerLog, Triggers: components/triggers. TriggerLog has readLog of
      runtime-embedded/src/runtime.ts over any store with a sorted log
      ([LogLaws], met by the SQLite store) and the cut to the byte budget;
      Triggers has the cursor row, the driver of one trigger, and the steps of
      any number of its instances ([tstep]).
    - Authz: components/authz, its tables as maps from ids to rows, its calls
      as functions on them ([run_call]), deployments as boots and their calls.
    - FleetLease, FleetFrontier: lease.ts, the commit guard, relinquishing and the
      frontier beat of node.ts, and readFrontier of replica-tailer.ts in
      ee/packages/fleet, around the commit transaction of PostgresStore. A step is one SQL
      statement of one session of one node ([fstep]); an uncommitted guard holds
      its row, a statement that would touch it waits. FleetFrontier has the
      invariant ([fleet_inv]) and concrete runs of a failover.

    What the theorems show. Storage: a commit is all or nothing, its documents appear at
    one timestamp, and it never changes what an older snapshot reads, in the SQLite and in
    the Postgres store. Fleet: the least frontier of the shards is a stable prefix
    of the log: while nodes fail, are evicted and take shards over, no commit lands at or
    below it. Object storage: in a prudent run, whatever the interleaving of writers
    and the other failures of requests,
    an acknowledged commit stays in the log with exactly its rows, the manifest
    refers only to objects that are there, the log has one writer per epoch and
    is ordered, and a claimed epoch fences the ones before. Queries:
    pages put end to end are the unpaginated result; the recorded read set
    covers everything the result depended on; planning keeps exactly the rows
    that satisfy the constraints. Functions: a run stages only writes its contexts
    allow (table, namespace, schema, shard, policy), unless they are privileged; after every call the
    staged index updates match the staged documents; a query answers exactly
    the visible documents its range, filters and policy select, and with a limit
    the first of them; a relation
    clause selects what it says over the related rows; a query classified as
    diffable is a single recorded range without policy or limit, and where its handler
    returns the array it was given, the answer is the rows of that range.
    Transactions: whatever the interleaving, a commit that
    lands is a serial execution at the moment it lands, a read-only
    transaction sees one snapshot, deltas are published in order and after the
    clock, and the mutex is always given back; the same for staged batches,
    whatever the store refuses. Sync tier: subscriptions are matched exactly,
    diffs applied by the client give the rows that the query selects from the
    stored documents, where their JSON form is the documents themselves; a client that
    lost a frame of a commit detects it, and no client sees the effect of its mutation
    before the answer. Client: while no server message makes a handler throw, the value composed
    is the server's under the updates still on the log, and a layer is held only while it is ahead of what
    was adopted; promises settle once, and the outbox survives a close.
    Scheduler: the retry budget (one for an action, four for a mutation, unless
    given) bounds how often a job runs; the job table is the jobs that were
    created and one callback for each of them that ended; an idle driver has a timer for the
    next due job; every tick of an interval fires once under fireAll, and no policy moves
    the grid. Workflows:
    one that completed is a direct run of its handler on what its steps really
    returned, a running one has a job or an event that takes it on when its cap is
    positive, and a step
    that counts as undone was undone with its own arguments and result.
    Triggers, with a positive batch size: whatever fails, restarts or runs twice, no change of the watched
    table before the cursor was left undelivered, the cursor never moves back,
    and a quiet pass delivers each change once, in order, and ends.
    Authorization: a permission holds exactly when an assigned role grants it,
    whatever was deployed and called before (ids without NUL, no two configurations with
    one hash), and only those who may manage a scope change it.
    Codecs: order preservation and round trips. Some theorems record a
    behaviour that departs from the comments of the source; the manifest lists
    them.

    Bounds. [removeAt] of the treap runs with the size of the tree as fuel,
    which its descent cannot exceed; varint coding and digit printing use the
    bit length of the number; [page_through] uses one page more than there
    are rows. In each case the theorem states the total result, not one
    conditional on the fuel.

    How asynchronous code is modelled. A scan is the list its generator
    yields, so a row that cannot be read fails the whole scan. A read of a
    transaction is one atomic step on the store as it then is. A commit is two
    steps with the mutex held in between: up to the store's answer, and what
    follows it. The mutex hands out turns to any waiting commit in the model
    of transactions, which includes the first-come order that AsyncMutex
    proves.

    In the sync tier and the client a timestamp is an integer ([Z]) below
    2^53. A query or mutation function of the application is a parameter
    ([executor]); so are JSON.stringify, SHA-256 and error texts ([JsHost]).
    A client's listeners do not call back into the client, and results are
    not mutated in place. The writes of the outbox to its storage are
    recorded as outputs.

    A request to object storage is carried out, fails before that, or is
    carried out with its answer lost. An etag is the content it was derived
    from, so a conditional write compares contents; deletions take effect at
    once. The theorems about a shard ask three things of a run ([prudent]): an
    immutable write that fails was not carried out, a lease is taken by an object
    that holds none, and a direct snapshot by one that holds one. For the first
    two ObjectShard shows what goes wrong without them.

    A run of the executor reads one snapshot, which does not change while it
    runs; the global store is an interface ([GlobalStore]); the parts of an
    AND or OR policy are resolved one after the other. Not modelled of the
    executor: the log sink, the draining of reads left in flight, forwarding
    to another node beyond the decision, HTTP entry points.

    A transaction of the scheduler or of a workflow is atomic: the engine below
    makes it so. A driver may die between any two of them. Jobs created in the
    same millisecond come in the order of creation. A workflow handler is
    deterministic, as its authoring rules ask; where it runs steps in parallel
    the theorem about completed workflows asks that it does not look at which
    error it got ([steady]), and WorkflowRuns shows what happens otherwise.
    A store read by triggers only grows above the bound that a scan may see
    ([grows]); for the SQLite store every commit is shown to be such a step.
    Ids of users and scopes without NUL and configurations whose hashes do not
    collide are assumed where an index is rebuilt ([clean_call],
    [no_collision]); Authz has an example of a collision.

    Postgres runs at READ COMMITTED. A statement is one step and sees what is
    committed when it starts; a row that an open transaction has updated blocks the
    statements that would update it; a sequence is not rolled back. The theorem about a fleet
    asks that a node gets an epoch on a shard while it has no commit of its own on its
    way there ([calm]), which the shard mutex does not ensure: FleetFrontier shows
    the commit that slips below the frontier otherwise.

    Not modelled: the content of a snapshot against the log it replaces;
    replicas of a shard, and of the fleet the choice of owners, boot, promotion and the pull of the
    tailer; the cron expression parser
    (a parameter). Of the client: the mirror between browser tabs, retry and dismiss,
    the lock manager, the delay of the backoff, pruning of dead meta rows,
    and the storage back ends. Not planned: the D1 and Durable Object
    stores, process wiring, code
    generation, command line and user interfaces. Cyclic JavaScript objects,
    stack overflow, and getters with side effects are outside the model. *)
From Stdlib Require Import ZArith Lia Sorted.
From stdpp Require Import base list gmap strings.

#[global] Open Scope Z_scope.

(** * Errors and results

    The engine signals failure by throwing.  Every error class the modelled code
    throws is a constructor; the payload is what callers inspect. *)
Inductive js_error :=
  | RangeError
  | TypeError
  | DOMException
  | PlainError (tag : string)
  | VarintError (reason : string)
  | Base32Error (reason : string)
  | DocumentIdError (reason : string)
  | HeadroomExceededError (kind : string) (limit : Z)
  | OccConflictError
  | CommitGuardRejection (unitIndex : Z)
  | UserError (payload : Z).

#[global] Instance js_error_eq_dec : EqDecision js_error.
Proof. solve_decision. Defined.

(** The outcome of code that may throw. *)
Inductive res (A : Type) :=
  | Ok (a : A)
  | Throw (e : js_error).
Arguments Ok {A} a.
Arguments Throw {A} e.

#[global] Instance res_ret : MRet res := @Ok.
#[global] Instance res_bind : MBind res := fun A B f r =>
  match r with Ok a => f a | Throw e => Throw e end.
#[global] Instance res_fmap : FMap res := fun A B f r =>
  match r with Ok a => Ok (f a) | Throw e => Throw e end.

Definition is_ok {A} (r : res A) : bool :=
  match r with Ok _ => true | Throw _ => false end.

Lemma bind_Ok {A B} (x : A) (f : A -> res B) : (Ok x ≫= f) = f x.
Proof. done. Qed.

(** * Automation *)

Create HintDb concile.

(** Case analysis on the scrutinee of a [match]/[if] in the goal, keeping the
    equation. *)
Ltac case_goal :=
  match goal with
  | |- context [match ?x with _ => _ end] => destruct x eqn:?
  end.

(** The same in a hypothesis. *)
Ltac case_hyp H :=
  match type of H with
  | context [match ?x with _ => _ end] => destruct x eqn:?
  end.

(** Booleans and comparisons on [Z] back to propositions. *)
Ltac zbool :=
  repeat match goal with
  | H : (_ <? _) = true |- _ => apply Z.ltb_lt in H
  | H : (_ <? _) = false |- _ => apply Z.ltb_ge in H
  | H : (_ <=? _) = true |- _ => apply Z.leb_le in H
  | H : (_ <=? _) = false |- _ => apply Z.leb_gt in H
  | H : (_ =? _) = true |- _ => apply Z.eqb_eq in H
  | H : (_ =? _) = false |- _ => apply Z.eqb_neq in H
  | H : (_ ?= _) = Eq |- _ => rewrite Z.compare_eq_iff in H
  | H : (_ ?= _) = Lt |- _ => rewrite Z.compare_lt_iff in H
  | H : (_ ?= _) = Gt |- _ => rewrite Z.compare_gt_iff in H
  | H : (_ && _)%bool = true |- _ => apply andb_true_iff in H; destruct H
  | H : (_ || _)%bool = false |- _ => apply orb_false_iff in H; destruct H
  | H : negb _ = true |- _ => apply negb_true_iff in H
  | H : negb _ = false |- _ => apply negb_false_iff in H
  end.

(** * Three-way comparisons

    Comparators return [-1 | 0 | 1]; the model uses [comparison]. *)

(** What two comparisons say about their composition. *)
Definition cmp_step (r1 r2 r3 : comparison) : Prop :=
  match r1, r2 with
  | Eq, r | r, Eq => r3 = r
  | Lt, Lt => r3 = Lt
  | Gt, Gt => r3 = Gt
  | _, _ => True
  end.

Definition cmp_trans_at {A} (c : A -> A -> comparison) (x y z : A) : Prop :=
  cmp_step (c x y) (c y z) (c x z).

(** A comparator that is a total preorder. *)
Class CmpLaws {A} (c : A -> A -> comparison) : Prop := {
  cmp_refl : forall x, c x x = Eq;
  cmp_opp : forall x y, c y x = CompOpp (c x y);
  cmp_trans : forall x y z, cmp_trans_at c x y z
}.

(** A comparator that moreover separates distinct elements. *)
Class CmpExact {A} (c : A -> A -> comparison) : Prop := {
  cmp_exact_laws :: CmpLaws c;
  cmp_eq : forall x y, c x y = Eq -> x = y
}.

#[global] Instance Zcompare_exact : CmpExact Z.compare.
Proof.
  split; [split|].
  - apply Z.compare_refl.
  - intros x y. apply Z.compare_antisym.
  - intros x y z. unfold cmp_trans_at, cmp_step.
    destruct (Z.compare_spec x y), (Z.compare_spec y z); subst;
      try rewrite Z.compare_refl; auto;
      try (apply Z.compare_lt_iff; lia); try (apply Z.compare_gt_iff; lia).
  - intros x y. apply Z.compare_eq.
Qed.

(** Lexicographic comparison, the shorter list first on a common prefix. *)
Fixpoint lex_compare {A B} (c : A -> B -> comparison) (l1 : list A) (l2 : list B) : comparison :=
  match l1, l2 with
  | [], [] => Eq
  | [], _ :: _ => Lt
  | _ :: _, [] => Gt
  | x :: l1', y :: l2' =>
      match c x y with Eq => lex_compare c l1' l2' | r => r end
  end.

Lemma lex_refl_on {A} (c : A -> A -> comparison) l :
  Forall (fun x => c x x = Eq) l -> lex_compare c l l = Eq.
Proof. induction 1 as [|x l Hx _ IH]; simpl; [done|]. by rewrite Hx. Qed.

Lemma lex_opp_on {A} (c : A -> A -> comparison) l1 l2 :
  Forall (fun x => forall y, c y x = CompOpp (c x y)) l1 ->
  lex_compare c l2 l1 = CompOpp (lex_compare c l1 l2).
Proof.
  intros Hl. revert l2. induction Hl as [|x l1 Hx _ IH]; intros [|y l2]; simpl; try done.
  rewrite Hx. destruct (c x y); simpl; auto.
Qed.

Lemma lex_trans_on {A} (c : A -> A -> comparison) l1 l2 l3 :
  Forall (fun x => forall y z, cmp_trans_at c x y z) l1 ->
  cmp_trans_at (lex_compare c) l1 l2 l3.
Proof.
  intros Hl. revert l2 l3.
  induction Hl as [|x l1 Hx _ IH]; intros [|y l2] [|z l3]; try done.
  - unfold cmp_trans_at; simpl. by destruct (c y z); try destruct (lex_compare c l2 l3).
  - unfold cmp_trans_at; simpl. by destruct (c x y); try destruct (lex_compare c l1 l2).
  - specialize (Hx y z). specialize (IH l2 l3).
    unfold cmp_trans_at in *; simpl.
    destruct (c x y), (c y z); simpl in *; rewrite ?Hx; try done;
      by destruct (lex_compare c l1 l2), (lex_compare c l2 l3).
Qed.

#[global] Instance lex_laws {A} (c : A -> A -> comparison) :
  CmpLaws c -> CmpLaws (lex_compare c).
Proof.
  intros Hc. split.
  - intros l. apply lex_refl_on, Forall_true. apply cmp_refl.
  - intros l1 l2. apply lex_opp_on, Forall_true. intros x y. apply cmp_opp.
  - intros l1 l2 l3. apply lex_trans_on, Forall_true. intros x y z. apply cmp_trans.
Qed.

#[global] Instance lex_exact {A} (c : A -> A -> comparison) :
  CmpExact c -> CmpExact (lex_compare c).
Proof.
  intros Hc. split; [apply _|].
  intros l1. induction l1 as [|x l1 IH]; intros [|y l2]; simpl; try done.
  destruct (c x y) eqn:E; try done. intros H.
  by rewrite (cmp_eq _ _ E), (IH _ H).
Qed.

(** Lexicographic combination of two comparisons. *)
Definition then_cmp (r1 r2 : comparison) : comparison :=
  match r1 with Eq => r2 | Lt => Lt | Gt => Gt end.

#[global] Instance cmp_on_laws {A B} (f : A -> B) (c : B -> B -> comparison) :
  CmpLaws c -> CmpLaws (fun x y => c (f x) (f y)).
Proof.
  intros Hc. split.
  - intros x. apply cmp_refl.
  - intros x y. apply cmp_opp.
  - intros x y z. apply (cmp_trans (f x) (f y) (f z)).
Qed.

Lemma cmp_flip_laws {A} (c : A -> A -> comparison) :
  CmpLaws c -> CmpLaws (fun x y => c y x).
Proof.
  intros Hc. split.
  - intros x. apply cmp_refl.
  - intros x y. apply cmp_opp.
  - intros x y z. pose proof (cmp_trans (c := c) z y x) as H. unfold cmp_trans_at, cmp_step in *.
    by destruct (c z y), (c y x).
Qed.

#[global] Instance then_cmp_laws {A} (c1 c2 : A -> A -> comparison) :
  CmpLaws c1 -> CmpLaws c2 -> CmpLaws (fun x y => then_cmp (c1 x y) (c2 x y)).
Proof.
  intros H1 H2. split.
  - intros x. by rewrite !cmp_refl.
  - intros x y. rewrite (cmp_opp (c := c1) x y), (cmp_opp (c := c2) x y). by destruct (c1 x y).
  - intros x y z. pose proof (cmp_trans (c := c1) x y z) as T1.
    pose proof (cmp_trans (c := c2) x y z) as T2. unfold cmp_trans_at, cmp_step in *.
    destruct (c1 x y), (c1 y z); simpl; try rewrite T1; simpl; auto;
      destruct (c2 x y); auto; destruct (c2 y z); auto.
Qed.

Lemma lex_app_then {A B} (c : A -> B -> comparison) l1 l2 r1 r2 :
  length l1 = length l2 ->
  lex_compare c (l1 ++ r1) (l2 ++ r2) =
  then_cmp (lex_compare c l1 l2) (lex_compare c r1 r2).
Proof.
  revert l2. induction l1 as [|x l1 IH]; intros [|y l2] Hl; simpl in *; try lia; [done|].
  destruct (c x y); auto.
Qed.

Lemma cmp_lt_trans {A} (c : A -> A -> comparison) `{!CmpLaws c} x y z :
  c x y = Lt -> c y z <> Gt -> c x z = Lt.
Proof.
  intros H1 H2. pose proof (cmp_trans (c:=c) x y z) as H. unfold cmp_trans_at in H.
  rewrite H1 in H. by destruct (c y z).
Qed.

Lemma cmp_le_lt_trans {A} (c : A -> A -> comparison) `{!CmpLaws c} x y z :
  c x y <> Gt -> c y z = Lt -> c x z = Lt.
Proof.
  intros H1 H2. pose proof (cmp_trans (c:=c) x y z) as H. unfold cmp_trans_at in H.
  rewrite H2 in H. by destruct (c x y).
Qed.

Lemma cmp_le_trans {A} (c : A -> A -> comparison) `{!CmpLaws c} x y z :
  c x y <> Gt -> c y z <> Gt -> c x z <> Gt.
Proof.
  intros H1 H2. pose proof (cmp_trans (c:=c) x y z) as H. unfold cmp_trans_at in H.
  destruct (c x y), (c y z); simpl in H; congruence.
Qed.

Lemma cmp_gt_lt {A} (c : A -> A -> comparison) `{!CmpLaws c} x y :
  c x y = Gt <-> c y x = Lt.
Proof. rewrite (cmp_opp (c:=c) x y). by destruct (c x y). Qed.

Lemma cmp_eq_sym {A} (c : A -> A -> comparison) `{!CmpLaws c} x y :
  c x y = Eq <-> c y x = Eq.
Proof. rewrite (cmp_opp (c:=c) x y). by destruct (c x y). Qed.

(** [cmp < 0], [cmp <= 0] and [cmp === 0] of the code. *)
Definition cmp_ltb (r : comparison) : bool := match r with Lt => true | _ => false end.
Definition cmp_leb (r : comparison) : bool := match r with Gt => false | _ => true end.
Definition cmp_eqb (r : comparison) : bool := match r with Eq => true | _ => false end.

(** * Stable sort: [Array.prototype.sort] with a comparator *)
Section sorting.
Context {A : Type} (c : A -> A -> comparison).

Fixpoint sort_insert (x : A) (l : list A) : list A :=
  match l with
  | [] => [x]
  | y :: l' => if cmp_leb (c x y) then x :: l else y :: sort_insert x l'
  end.

Fixpoint js_sort (l : list A) : list A :=
  match l with
  | [] => []
  | x :: l' => sort_insert x (js_sort l')
  end.

Lemma sort_insert_perm x l : sort_insert x l ≡ₚ x :: l.
Proof.
  induction l as [|y l IH]; simpl; [done|]. case_match; [done|].
  rewrite IH. by constructor.
Qed.

Lemma js_sort_perm l : js_sort l ≡ₚ l.
Proof. induction l as [|x l IH]; simpl; [done|]. by rewrite sort_insert_perm, IH. Qed.

Lemma sort_insert_sorted x l :
  CmpLaws c ->
  StronglySorted (fun a b => c a b <> Gt) l ->
  StronglySorted (fun a b => c a b <> Gt) (sort_insert x l).
Proof.
  intros Hc. induction 1 as [|y l Hl IH Hy]; simpl; [repeat constructor|].
  destruct (c x y) eqn:E; simpl.
  1, 2: constructor; [by constructor|]; constructor; [congruence|];
    eapply Forall_impl; [exact Hy|]; intros z Hz;
    apply (cmp_le_trans c x y z); congruence.
  constructor; [done|]. rewrite sort_insert_perm. constructor; [|done].
  apply cmp_gt_lt in E; [|done]. congruence.
Qed.

Lemma js_sort_sorted l :
  CmpLaws c -> StronglySorted (fun a b => c a b <> Gt) (js_sort l).
Proof. intros Hc. induction l; simpl; [constructor|]. by apply sort_insert_sorted. Qed.
End sorting.

(** Sorting splits along a cut of the order. *)
Lemma js_sort_split {A} (c : A -> A -> comparison) (p : A -> bool) l :
  (forall x y, p x = true -> p y = false -> c x y = Lt /\ c y x = Gt) ->
  js_sort c l = js_sort c (base.filter (fun x => p x = true) l) ++
                js_sort c (base.filter (fun x => p x = false) l).
Proof.
  intros Hp.
  assert (Hin : forall x A B, Forall (fun y => p y = true) A -> Forall (fun y => p y = false) B ->
            sort_insert c x (A ++ B) = if p x then sort_insert c x A ++ B else A ++ sort_insert c x B).
  { intros x A' B HA HB. destruct (p x) eqn:Ex; induction HA as [|y A' Hy _ IH]; simpl.
    - destruct HB as [|z B Hz _]; simpl; [done|]. by destruct (Hp x z Ex Hz) as [-> _].
    - destruct (cmp_leb (c x y)); [done|]. by rewrite IH.
    - done.
    - destruct (Hp y x Hy Ex) as [_ ->]. simpl. by rewrite IH. }
  assert (Hsort : forall (b : bool) l, Forall (fun y => p y = b)
            (js_sort c (base.filter (fun x => p x = b) l))).
  { intros b l'. rewrite js_sort_perm. apply Forall_forall. by intros x [? _]%list_elem_of_filter. }
  induction l as [|x l IH]; [done|]. rewrite !filter_cons. simpl. rewrite IH, Hin by apply Hsort.
  by destruct (p x) eqn:E; repeat destruct (decide _); try congruence.
Qed.

Lemma sort_insert_filter {A} (c : A -> A -> comparison) (P : A -> Prop) `{!forall x, Decision (P x)} x l :
  CmpLaws c -> StronglySorted (fun a b => c a b <> Gt) l ->
  base.filter P (sort_insert c x l) =
    if decide (P x) then sort_insert c x (base.filter P l) else base.filter P l.
Proof.
  intros Hc. induction 1 as [|y l Hl IH Hy]; simpl; [rewrite filter_cons; by destruct (decide _)|].
  destruct (cmp_leb (c x y)) eqn:E.
  - rewrite (filter_cons _ x). destruct (decide (P x)); [|done].
    assert (Hall : Forall (fun z => cmp_leb (c x z) = true) (base.filter P (y :: l))).
    { apply Forall_forall. intros z [_ Hz]%list_elem_of_filter.
      apply elem_of_cons in Hz as [->|Hz]; [done|]. rewrite Forall_forall in Hy. specialize (Hy z Hz).
      pose proof (cmp_le_trans c x y z) as Ht. destruct (c x y), (c x z); simpl in *; try done;
        exfalso; apply Ht; done. }
    destruct (base.filter P (y :: l)) as [|z l']; [done|].
    apply Forall_cons in Hall as [Hz _]. simpl. by rewrite Hz.
  - rewrite !(filter_cons _ y), IH. destruct (decide (P y)), (decide (P x)); try done. simpl. by rewrite E.
Qed.

(** Sorting commutes with filtering. *)
Lemma js_sort_filter {A} (c : A -> A -> comparison) (P : A -> Prop) `{!forall x, Decision (P x)} l :
  CmpLaws c -> js_sort c (base.filter P l) = base.filter P (js_sort c l).
Proof.
  intros Hc. induction l as [|x l IH]; [done|]. simpl. rewrite filter_cons, sort_insert_filter by
    (done || by apply js_sort_sorted).
  destruct (decide (P x)); simpl; by rewrite IH.
Qed.

(** * Insertion-ordered maps: the JavaScript [Map] and plain objects

    [set] keeps the position of a known key and appends a new one; [delete]
    removes the entry.  Iteration follows the list. *)
Section jsmap.
Context {K V : Type} `{EqDecision K}.

Fixpoint jm_get (m : list (K * V)) (k : K) : option V :=
  match m with
  | [] => None
  | (k', v) :: m' => if decide (k = k') then Some v else jm_get m' k
  end.

Fixpoint jm_set (m : list (K * V)) (k : K) (v : V) : list (K * V) :=
  match m with
  | [] => [(k, v)]
  | (k', v') :: m' => if decide (k = k') then (k, v) :: m' else (k', v') :: jm_set m' k v
  end.

Definition jm_delete (m : list (K * V)) (k : K) : list (K * V) :=
  filter (fun kv => kv.1 <> k) m.

Definition jm_has (m : list (K * V)) (k : K) : bool :=
  match jm_get m k with Some _ => true | None => false end.

Definition jm_keys (m : list (K * V)) : list K := m.*1.
Definition jm_values (m : list (K * V)) : list V := m.*2.

Lemma jm_get_set m k k' v :
  jm_get (jm_set m k v) k' = if decide (k' = k) then Some v else jm_get m k'.
Proof.
  induction m as [|[k0 v0] m IH]; simpl; [done|].
  repeat (case_decide; subst; simpl); congruence.
Qed.

Lemma jm_get_delete m k k' :
  jm_get (jm_delete m k) k' = if decide (k' = k) then None else jm_get m k'.
Proof.
  unfold jm_delete. induction m as [|[k0 v0] m IH]; simpl; [by case_decide|].
  rewrite filter_cons; simpl. repeat (case_decide; subst; simpl); congruence.
Qed.

Lemma jm_get_Some_in m k v : jm_get m k = Some v -> (k, v) ∈ m.
Proof.
  induction m as [|[k0 v0] m IH]; simpl; [done|]. case_decide; intros; simplify_eq.
  - left.
  - right. auto.
Qed.

Lemma jm_get_None m k : jm_get m k = None <-> k ∉ jm_keys m.
Proof.
  unfold jm_keys. induction m as [|[k0 v0] m IH]; csimpl; [set_solver|].
  case_decide; subst; [set_solver|]. rewrite IH. set_solver.
Qed.

Lemma jm_in_get m k v : NoDup (jm_keys m) -> (k, v) ∈ m -> jm_get m k = Some v.
Proof.
  unfold jm_keys. induction m as [|[k0 v0] m IH]; csimpl; [set_solver|].
  intros [Hk Hm]%NoDup_cons [Heq|Hin]%elem_of_cons; simplify_eq.
  - by rewrite decide_True.
  - rewrite decide_False; [auto|]. intros ->. apply Hk.
    apply list_elem_of_fmap. by exists (k0, v).
Qed.

Lemma jm_set_fresh m k v : k ∉ jm_keys m -> jm_set m k v = m ++ [(k, v)].
Proof.
  unfold jm_keys. induction m as [|[k0 v0] m IH]; csimpl; [done|]. intros Hk.
  rewrite decide_False by set_solver. rewrite IH by set_solver. done.
Qed.

Lemma jm_keys_set m k v :
  jm_keys (jm_set m k v) = if decide (k ∈ jm_keys m) then jm_keys m else jm_keys m ++ [k].
Proof.
  unfold jm_keys. induction m as [|[k0 v0] m IH]; csimpl; [done|].
  destruct (decide (k = k0)) as [->|]; csimpl.
  - rewrite decide_True by set_solver. done.
  - rewrite IH. destruct (decide (k ∈ m.*1)), (decide (k ∈ k0 :: m.*1)); set_solver.
Qed.

Lemma jm_nodup_set m k v : NoDup (jm_keys m) -> NoDup (jm_keys (jm_set m k v)).
Proof.
  intros Hm. rewrite jm_keys_set. case_decide; [done|].
  apply NoDup_app. split_and!; [done| |apply NoDup_singleton].
  intros x Hx ->%list_elem_of_singleton. done.
Qed.

Lemma jm_nodup_delete m k : NoDup (jm_keys m) -> NoDup (jm_keys (jm_delete m k)).
Proof.
  unfold jm_keys, jm_delete. induction m as [|[k0 v0] m IH]; csimpl; [done|].
  intros [Hk Hm]%NoDup_cons. rewrite filter_cons; csimpl.
  case_decide; csimpl; [|auto]. constructor; [|auto].
  intros Hin. apply Hk. apply list_elem_of_fmap in Hin as [[k' v'] [-> Hin]].
  apply list_elem_of_filter in Hin as [_ Hin]. apply list_elem_of_fmap. by exists (k', v').
Qed.
End jsmap.

#[export] Hint Resolve jm_nodup_set jm_nodup_delete : concile.
#[export] Hint Rewrite @jm_get_set @jm_get_delete : concile.

(** * Lists *)

Lemma filter_all {A} (P : A -> Prop) `{!forall x, Decision (P x)} l :
  Forall P l -> base.filter P l = l.
Proof.
  induction 1 as [|x l Hx _ IH]; [done|]. rewrite filter_cons_True by done. by rewrite IH.
Qed.

Lemma filter_none {A} (P : A -> Prop) `{!forall x, Decision (P x)} l :
  Forall (fun x => ~ P x) l -> base.filter P l = [].
Proof. induction 1 as [|x l Hx _ IH]; [done|]. by rewrite filter_cons_False. Qed.

Lemma NoDup_fmap_inj {A B} (f : A -> B) (l : list A) x y :
  NoDup (f <$> l) -> x ∈ l -> y ∈ l -> f x = f y -> x = y.
Proof.
  induction l as [|z l IH]; csimpl; [set_solver|]. intros [Hz Hn]%NoDup_cons Hx Hy Hf.
  apply elem_of_cons in Hx as [->|Hx], Hy as [->|Hy]; [done|..|by apply IH].
  - destruct Hz. rewrite Hf. by apply list_elem_of_fmap_2.
  - destruct Hz. rewrite <- Hf. by apply list_elem_of_fmap_2.
Qed.

Lemma sublist_sorted {A} (R : A -> A -> Prop) (l1 l2 : list A) :
  l1 `sublist_of` l2 -> StronglySorted R l2 -> StronglySorted R l1.
Proof.
  induction 1 as [|x l1 l2 Hs IH|x l1 l2 Hs IH]; intros H; [constructor|..];
    apply StronglySorted_inv in H as [H1 H2]; [|auto].
  constructor; [auto|]. rewrite Forall_forall in *. intros y Hy. apply H2.
  by apply (elem_of_sublist _ _ _ Hy).
Qed.

(** Sorting on distinct keys gives a strict order. *)
Lemma js_sort_strict {A K} (f : A -> K) (c : K -> K -> comparison) (l : list A) :
  CmpExact c -> NoDup (f <$> l) ->
  StronglySorted (fun a b => c (f a) (f b) = Lt) (js_sort (fun a b => c (f a) (f b)) l).
Proof.
  intros Hc Hn. assert (Hl : CmpLaws (fun a b : A => c (f a) (f b))) by (apply (cmp_on_laws f c), _).
  pose proof (js_sort_sorted _ l Hl) as Hs.
  assert (Hn' : NoDup (f <$> js_sort (fun a b => c (f a) (f b)) l)) by by rewrite js_sort_perm.
  induction Hs as [|x l' Hs IH Hx]; csimpl in *; [constructor|].
  apply NoDup_cons in Hn' as [Hx' Hn']. constructor; [by apply IH|].
  rewrite Forall_forall in *. intros y Hy. specialize (Hx y Hy). cbv beta in Hx.
  destruct (c (f x) (f y)) eqn:E; [|done|done]. apply cmp_eq in E. destruct Hx'.
  rewrite E. by apply list_elem_of_fmap_2.
Qed.

Lemma StronglySorted_fmap {A B} (f : A -> B) (R : B -> B -> Prop) (l : list A) :
  StronglySorted (fun a b => R (f a) (f b)) l <-> StronglySorted R (f <$> l).
Proof.
  induction l as [|x l IH]; csimpl; [split; constructor|]. split.
  - intros [H1 H2]%StronglySorted_inv. constructor; [by apply IH|by apply Forall_fmap].
  - intros [H1 H2]%StronglySorted_inv. rewrite Forall_fmap in H2. constructor; [by apply IH|done].
Qed.

Lemma list_filter_iff_strong {A} (P Q : A -> Prop) `{!forall x, Decision (P x), !forall x, Decision (Q x)} (l : list A) :
  (forall x, x ∈ l -> P x <-> Q x) -> base.filter P l = base.filter Q l.
Proof.
  induction l as [|x l IH]; intros Hpq; [done|]. rewrite !filter_cons, IH by (intros y Hy; apply Hpq; by right).
  specialize (Hpq x ltac:(left)). repeat destruct (decide _); naive_solver.
Qed.
