(* ===== verification/JsBase.v ===== *)
(** The parts of the JavaScript language and its standard library the engine
    relies on: bytes and big/little-endian words, UTF-16 strings and
    [TextEncoder], [btoa]/[atob], and 32-bit integer operators. *)
From stdpp Require Import base list strings.
From Stdlib Require Import ZArith Lia.
From S2P Require Import Prelude.

(** A JavaScript string is a list of UTF-16 code units; a [Uint8Array] or
    [ArrayBuffer] is a list of bytes. *)
Abbreviation jsstr := (list Z).
Abbreviation bytes := (list Z).

Definition is_byte (b : Z) : Prop := 0 <= b < 256.
Definition is_unit (u : Z) : Prop := 0 <= u < 65536.
Definition wf_bytes (bs : bytes) : Prop := Forall is_byte bs.
Definition wf_str (s : jsstr) : Prop := Forall is_unit s.

#[global] Instance is_byte_dec b : Decision (is_byte b).
Proof. unfold is_byte. apply _. Defined.
#[global] Instance is_unit_dec b : Decision (is_unit b).
Proof. unfold is_unit. apply _. Defined.

Lemma wf_bytes_app b1 b2 : wf_bytes b1 -> wf_bytes b2 -> wf_bytes (b1 ++ b2).
Proof. unfold wf_bytes. rewrite Forall_app. auto. Qed.

#[export] Hint Resolve wf_bytes_app : concile.

(** An ASCII literal. *)
Definition js (s : string) : jsstr :=
  (fun a => Z.of_nat (Ascii.nat_of_ascii a)) <$> String.list_ascii_of_string s.

(** Traversal of a list with a function that may throw. *)
Section traverse.
Context {A B : Type} (f : A -> res B).
Fixpoint traverse (l : list A) : res (list B) :=
  match l with
  | [] => Ok []
  | x :: l' => y ← f x; ys ← traverse l'; Ok (y :: ys)
  end.
End traverse.

Lemma traverse_Forall2 {A B} (f : A -> res B) l ys :
  traverse f l = Ok ys <-> Forall2 (fun x y => f x = Ok y) l ys.
Proof.
  revert ys. induction l as [|x l IH]; intros ys; simpl.
  - split; [intros [= <-]; constructor|by intros ->%Forall2_nil_inv_l].
  - destruct (f x) as [y|] eqn:E; simpl.
    + destruct (traverse f l) as [ys'|] eqn:E'; simpl.
      * split; [intros [= <-]; constructor; [done|by apply IH]|].
        intros (y' & ys'' & Hy & H & ->)%Forall2_cons_inv_l.
        apply IH in H. congruence.
      * split; [done|]. intros (y' & ys'' & Hy & H & ->)%Forall2_cons_inv_l.
        apply IH in H. congruence.
    + split; [done|]. intros (y' & ys'' & Hy & H & ->)%Forall2_cons_inv_l. congruence.
Qed.

Lemma traverse_app {A B} (f : A -> res B) l1 l2 :
  traverse f (l1 ++ l2) = (ys1 ← traverse f l1; ys2 ← traverse f l2; Ok (ys1 ++ ys2)).
Proof.
  induction l1 as [|x l1 IH]; simpl; [by destruct (traverse f l2)|].
  destruct (f x); simpl; [|done]. rewrite IH. destruct (traverse f l1); simpl; [|done].
  by destruct (traverse f l2).
Qed.

Lemma traverse_ok {A B} (f : A -> res B) (g : B -> A) ys :
  Forall (fun y => f (g y) = Ok y) ys -> traverse f (g <$> ys) = Ok ys.
Proof. induction 1 as [|y ys Hy _ IH]; csimpl; [done|]. rewrite Hy; simpl. by rewrite IH. Qed.

(** * Words as byte strings *)

(** [n] bytes, most significant first. *)
Fixpoint be_bytes (n : nat) (z : Z) : bytes :=
  match n with
  | O => []
  | S n' => (z / 256 ^ Z.of_nat n') mod 256 :: be_bytes n' z
  end.

(** [n] bytes, least significant first. *)
Fixpoint le_bytes (n : nat) (z : Z) : bytes :=
  match n with
  | O => []
  | S n' => z mod 256 :: le_bytes n' (z / 256)
  end.

Fixpoint le_value (bs : bytes) : Z :=
  match bs with
  | [] => 0
  | b :: bs' => b + 256 * le_value bs'
  end.

Lemma be_bytes_length n z : length (be_bytes n z) = n.
Proof. induction n; simpl; auto. Qed.

Lemma le_bytes_length n z : length (le_bytes n z) = n.
Proof. revert z. induction n; simpl; auto. Qed.

Lemma be_bytes_wf n z : wf_bytes (be_bytes n z).
Proof.
  unfold wf_bytes, is_byte. induction n; simpl; constructor; auto.
  apply Z.mod_pos_bound. lia.
Qed.

Lemma le_bytes_wf n z : wf_bytes (le_bytes n z).
Proof.
  unfold wf_bytes, is_byte. revert z. induction n; simpl; constructor; auto.
  apply Z.mod_pos_bound. lia.
Qed.

Lemma le_value_bytes n z : 0 <= z < 256 ^ Z.of_nat n -> le_value (le_bytes n z) = z.
Proof.
  revert z. induction n as [|n IH]; intros z Hz; simpl.
  - change (256 ^ Z.of_nat 0) with 1 in Hz. lia.
  - rewrite IH; [pose proof (Z.div_mod z 256); lia|].
    rewrite Nat2Z.inj_succ, Z.pow_succ_r in Hz by lia.
    split; [apply Z.div_pos; lia|]. apply Z.div_lt_upper_bound; lia.
Qed.

(** Byte order of big-endian words is numeric order. *)
Lemma be_bytes_mod n z : be_bytes n (z mod 256 ^ Z.of_nat n) = be_bytes n z.
Proof.
  enough (H : forall m, (n <= m)%nat -> be_bytes n (z mod 256 ^ Z.of_nat m) = be_bytes n z) by auto.
  induction n as [|n IH]; intros m Hm; simpl; [done|]. f_equal; [|apply IH; lia].
  replace (Z.of_nat m) with (Z.of_nat n + (1 + (Z.of_nat m - Z.of_nat n - 1))) by lia.
  rewrite Z.pow_add_r by lia. rewrite Z.rem_mul_r by (try apply Z.pow_nonzero; try apply Z.pow_pos_nonneg; lia).
  rewrite Z.mul_comm, Z.div_add by (apply Z.pow_nonzero; lia).
  rewrite Z.div_small by (apply Z.mod_pos_bound, Z.pow_pos_nonneg; lia). rewrite Z.add_0_l.
  rewrite Z.pow_add_r by lia. rewrite Z.pow_1_r.
  rewrite Z.rem_mul_r by (try apply Z.pow_pos_nonneg; lia).
  rewrite Z.mul_comm, Z.mod_add by lia. apply Z.mod_mod. lia.
Qed.

Lemma be_bytes_compare n x y :
  0 <= x < 256 ^ Z.of_nat n -> 0 <= y < 256 ^ Z.of_nat n ->
  lex_compare Z.compare (be_bytes n x) (be_bytes n y) = (x ?= y).
Proof.
  revert x y. induction n as [|n IH]; intros x y Hx Hy.
  - change (256 ^ Z.of_nat 0) with 1 in *. replace x with y by lia. by rewrite Z.compare_refl.
  - rewrite Nat2Z.inj_succ, Z.pow_succ_r in Hx, Hy by lia. simpl.
    set (P := 256 ^ Z.of_nat n) in *. assert (0 < P) by (apply Z.pow_pos_nonneg; lia).
    assert (Hb : forall z, 0 <= z < 256 * P -> (z / P) mod 256 = z / P).
    { intros z Hz. apply Z.mod_small. split; [apply Z.div_pos; lia|].
      apply Z.div_lt_upper_bound; lia. }
    rewrite (Hb x Hx), (Hb y Hy).
    rewrite <- (be_bytes_mod n x), <- (be_bytes_mod n y). fold P.
    rewrite IH by (apply Z.mod_pos_bound; lia).
    pose proof (Z.div_mod x P). pose proof (Z.div_mod y P).
    pose proof (Z.mod_pos_bound x P). pose proof (Z.mod_pos_bound y P).
    destruct (Z.compare_spec (x / P) (y / P)) as [E|E|E].
    + destruct (Z.compare_spec (x mod P) (y mod P)) as [E'|E'|E']; symmetry;
        [apply Z.compare_eq_iff|apply Z.compare_lt_iff|apply Z.compare_gt_iff]; nia.
    + symmetry. apply Z.compare_lt_iff. nia.
    + symmetry. apply Z.compare_gt_iff. nia.
Qed.

Lemma be_bytes_map n (f : Z -> Z) x y :
  (forall k, (k < n)%nat ->
     f ((x / 256 ^ Z.of_nat k) mod 256) = (y / 256 ^ Z.of_nat k) mod 256) ->
  f <$> be_bytes n x = be_bytes n y.
Proof.
  induction n as [|n IH]; intros H; simpl; [done|]. f_equal; [apply H; lia|]. apply IH.
  intros k Hk. apply H. lia.
Qed.

(** * 32-bit integer operators *)

Definition to_uint32 (x : Z) : Z := x mod 2 ^ 32.
Definition to_int32 (x : Z) : Z :=
  let m := x mod 2 ^ 32 in if m <? 2 ^ 31 then m else m - 2 ^ 32.
(** [a << n], [a | b], [a >>> n], [a & b] for [0 <= n < 32]. *)
Definition shl32 (a n : Z) : Z := to_int32 (Z.shiftl (to_int32 a) n).
Definition or32 (a b : Z) : Z := to_int32 (Z.lor (to_int32 a) (to_int32 b)).
Definition shru32 (a n : Z) : Z := Z.shiftr (to_uint32 a) n.
Definition and32 (a b : Z) : Z := to_int32 (Z.land (to_int32 a) (to_int32 b)).

Lemma byte_check (P : Z -> bool) :
  forallb P (Z.of_nat <$> seq 0 256) = true -> forall b, is_byte b -> P b = true.
Proof.
  intros H b Hb. rewrite forallb_forall in H. apply H.
  apply in_map_iff. exists (Z.to_nat b). unfold is_byte in Hb.
  split; [lia|]. apply in_seq. lia.
Qed.

Lemma lor_byte x b : is_byte b -> Z.lor (Z.shiftl x 8) b = 256 * x + b.
Proof.
  intros Hb. unfold is_byte in Hb.
  assert (H0 : Z.land (Z.shiftl x 8) b = 0).
  { apply Z.bits_inj'. intros i Hi. rewrite Z.land_spec, Z.bits_0.
    destruct (Z.ltb_spec i 8).
    - rewrite Z.shiftl_spec_low by lia. done.
    - destruct (Z.eq_dec b 0) as [->|]; [rewrite Z.bits_0; apply andb_false_r|].
      assert (Z.log2 b < 8) by (apply Z.log2_lt_pow2; lia).
      rewrite (Z.bits_above_log2 b) by lia. apply andb_false_r. }
  pose proof (Z.add_lor_land (Z.shiftl x 8) b) as Hadd.
  rewrite H0, Z.shiftl_mul_pow2 in * by lia. lia.
Qed.

Lemma to_int32_small x : 0 <= x < 2 ^ 31 -> to_int32 x = x.
Proof.
  intros Hx. unfold to_int32. rewrite Z.mod_small by lia. by rewrite (proj2 (Z.ltb_lt _ _)) by lia.
Qed.

Lemma or32_shl_byte a b : is_byte a -> is_byte b -> or32 (shl32 a 8) b = 256 * a + b.
Proof.
  intros Ha Hb. unfold or32, shl32. pose proof Ha as Ha'. pose proof Hb as Hb'. unfold is_byte in *.
  rewrite (to_int32_small a), (to_int32_small b), Z.shiftl_mul_pow2 by lia.
  rewrite !(to_int32_small (a * 2 ^ 8)) by lia.
  rewrite <- Z.shiftl_mul_pow2, lor_byte by (lia || done). apply to_int32_small. lia.
Qed.

Lemma to_int32_mod x : to_int32 x mod 2 ^ 32 = x mod 2 ^ 32.
Proof.
  unfold to_int32. case_match; [apply Z.mod_mod; lia|].
  replace (x mod 2 ^ 32 - 2 ^ 32) with (x mod 2 ^ 32 + (-1) * 2 ^ 32) by lia.
  rewrite Z.mod_add by lia. apply Z.mod_mod. lia.
Qed.

Lemma mod_pow2_weaken x y k n :
  0 <= k <= n -> x mod 2 ^ n = y mod 2 ^ n -> x mod 2 ^ k = y mod 2 ^ k.
Proof.
  intros Hk H.
  assert (Hd : (2 ^ k | 2 ^ n)).
  { exists (2 ^ (n - k)). rewrite <- Z.pow_add_r by lia. f_equal. lia. }
  rewrite <- (Z.mod_mod_divide x _ _ Hd), <- (Z.mod_mod_divide y _ _ Hd). by rewrite H.
Qed.

Lemma to_int32_mod_le x k : 0 <= k <= 32 -> to_int32 x mod 2 ^ k = x mod 2 ^ k.
Proof. intros Hk. apply (mod_pow2_weaken _ _ k 32); [lia|]. apply to_int32_mod. Qed.

(** * UTF-8: [TextEncoder.encode] (lone surrogates become U+FFFD) *)

Definition utf8_scalar (c : Z) : bytes :=
  if c <? 128 then [c]
  else if c <? 2048 then [192 + c / 64; 128 + c mod 64]
  else if c <? 65536 then [224 + c / 4096; 128 + (c / 64) mod 64; 128 + c mod 64]
  else [240 + c / 262144; 128 + (c / 4096) mod 64; 128 + (c / 64) mod 64; 128 + c mod 64].

#[global] Arguments utf8_scalar : simpl never.

Definition is_high_surrogate (u : Z) : bool := (55296 <=? u) && (u <? 56320).
Definition is_low_surrogate (u : Z) : bool := (56320 <=? u) && (u <? 57344).
Definition surrogate_pair (h l : Z) : Z := 65536 + (h - 55296) * 1024 + (l - 56320).

Fixpoint utf8_encode (s : jsstr) : bytes :=
  match s with
  | [] => []
  | u :: s' =>
      if is_high_surrogate u then
        match s' with
        | l :: s'' =>
            if is_low_surrogate l then utf8_scalar (surrogate_pair u l) ++ utf8_encode s''
            else utf8_scalar 65533 ++ utf8_encode s'
        | [] => utf8_scalar 65533
        end
      else if is_low_surrogate u then utf8_scalar 65533 ++ utf8_encode s'
      else utf8_scalar u ++ utf8_encode s'
  end.

Lemma utf8_scalar_wf c : 0 <= c < 1114112 -> wf_bytes (utf8_scalar c).
Proof.
  intros Hc. unfold utf8_scalar, wf_bytes, is_byte.
  repeat case_match; zbool; repeat (constructor; [Z.div_mod_to_equations; lia|]); constructor.
Qed.

Lemma utf8_encode_wf s : wf_str s -> wf_bytes (utf8_encode s).
Proof.
  unfold wf_str. remember (length s) as n eqn:Hn. revert s Hn.
  induction (lt_wf n) as [n _ IH]; intros [|u s] Hn Hs; cbn [utf8_encode]; [constructor|].
  apply Forall_cons in Hs as [Hu Hs]. simpl in Hn. unfold is_unit in Hu.
  assert (Hr : wf_bytes (utf8_encode s)) by (apply (IH (length s)); auto; lia).
  assert (Hf : wf_bytes (utf8_scalar 65533)) by (apply utf8_scalar_wf; lia).
  case_match; [|case_match; apply wf_bytes_app; auto; apply utf8_scalar_wf; lia].
  destruct s as [|l s]; [done|]. apply Forall_cons in Hs as [Hl Hs]. unfold is_unit in Hl.
  case_match; apply wf_bytes_app; auto.
  - unfold is_high_surrogate, is_low_surrogate in *. zbool.
    apply utf8_scalar_wf. unfold surrogate_pair. lia.
  - apply (IH (length s)); auto. simpl in Hn. lia.
Qed.

(** * Base64: [btoa] and [atob] *)

Definition b64_char (v : Z) : Z :=
  if v <? 26 then 65 + v else if v <? 52 then 71 + v else if v <? 62 then v - 4
  else if v =? 62 then 43 else 47.

Definition b64_digit (c : Z) : option Z :=
  if (65 <=? c) && (c <=? 90) then Some (c - 65)
  else if (97 <=? c) && (c <=? 122) then Some (c - 71)
  else if (48 <=? c) && (c <=? 57) then Some (c + 4)
  else if c =? 43 then Some 62
  else if c =? 47 then Some 63
  else None.

Definition b64_pad : Z := 61.

(** The sextets of a byte string. *)
Fixpoint b64_sextets (bs : bytes) : list Z :=
  match bs with
  | a :: b :: c :: bs' =>
      a / 4 :: a mod 4 * 16 + b / 16 :: b mod 16 * 4 + c / 64 :: c mod 64 :: b64_sextets bs'
  | [a; b] => [a / 4; a mod 4 * 16 + b / 16; b mod 16 * 4]
  | [a] => [a / 4; a mod 4 * 16]
  | [] => []
  end.

Definition b64_padding (n : nat) : jsstr :=
  match Nat.modulo n 3 with
  | 1%nat => [b64_pad; b64_pad]
  | 2%nat => [b64_pad]
  | _ => []
  end.

Definition btoa (bs : bytes) : jsstr :=
  (b64_char <$> b64_sextets bs) ++ b64_padding (length bs).

Definition is_ascii_whitespace (c : Z) : bool :=
  (c =? 9) || (c =? 10) || (c =? 12) || (c =? 13) || (c =? 32).

(** Drop one or two trailing [=]. *)
Definition b64_strip (s : jsstr) : jsstr :=
  match reverse s with
  | 61 :: 61 :: r => reverse r
  | 61 :: r => reverse r
  | _ => s
  end.

Fixpoint b64_unsextets (vs : list Z) : bytes :=
  match vs with
  | a :: b :: c :: d :: vs' =>
      a * 4 + b / 16 :: b mod 16 * 16 + c / 4 :: c mod 4 * 64 + d :: b64_unsextets vs'
  | [a; b; c] => [a * 4 + b / 16; b mod 16 * 16 + c / 4]
  | [a; b] => [a * 4 + b / 16]
  | _ => []
  end.

(** [atob]: whitespace is dropped, padding is optional, any other character
    outside the alphabet raises. *)
Definition atob (s : jsstr) : res bytes :=
  let s1 := base.filter (fun c => is_ascii_whitespace c = false) s in
  let s2 := if (Nat.modulo (length s1) 4 =? 0)%nat then b64_strip s1 else s1 in
  if (Nat.modulo (length s2) 4 =? 1)%nat then Throw DOMException
  else
    vs ← traverse (fun c => match b64_digit c with Some v => Ok v | None => Throw DOMException end) s2;
    Ok (b64_unsextets vs).

Lemma b64_digit_char v : 0 <= v < 64 -> b64_digit (b64_char v) = Some v.
Proof.
  intros Hv. unfold b64_char.
  repeat (case_match; zbool); unfold b64_digit;
    repeat (match goal with |- context [if ?b then _ else _] => destruct b eqn:? end; zbool);
    simpl in *; try (f_equal; lia); exfalso;
    repeat match goal with H : (_ && _)%bool = false |- _ => apply andb_false_iff in H; destruct H end;
    zbool; lia.
Qed.

Lemma b64_char_plain v : 0 <= v < 64 ->
  is_ascii_whitespace (b64_char v) = false /\ b64_char v <> b64_pad.
Proof.
  intros Hv. unfold b64_char, is_ascii_whitespace, b64_pad.
  repeat (case_match; zbool);
    (split; [|lia]); repeat (apply orb_false_iff; split); apply Z.eqb_neq; lia.
Qed.

(** Induction three bytes at a time. *)
Lemma list_ind3 {A} (P : list A -> Prop) :
  P [] -> (forall a, P [a]) -> (forall a b, P [a; b]) ->
  (forall a b c l, P l -> P (a :: b :: c :: l)) -> forall l, P l.
Proof.
  intros H0 H1 H2 H3. fix IH 1. intros [|a [|b [|c l]]];
    [exact H0|exact (H1 a)|exact (H2 a b)|exact (H3 a b c l (IH l))].
Qed.

(** Membership in ranges, element by element of a known list. *)
Ltac solve_range :=
  unfold wf_bytes, wf_str, is_byte, is_unit in *; decompose_Forall_hyps;
  cbv beta in *; first [assumption | Z.div_mod_to_equations; lia].

Lemma cons_congr {A} (x y : A) l k : x = y -> l = k -> x :: l = y :: k.
Proof. congruence. Qed.

Lemma b64_sextets_range bs : wf_bytes bs -> Forall (fun v => 0 <= v < 64) (b64_sextets bs).
Proof.
  induction bs as [|a|a b|a b c bs IH] using list_ind3; simpl; intros H; [constructor|..];
    decompose_Forall; try solve_range.
  apply IH. solve_range.
Qed.

Lemma b64_unsextets_sextets bs : wf_bytes bs -> b64_unsextets (b64_sextets bs) = bs.
Proof.
  induction bs as [|a|a b|a b c bs IH] using list_ind3; simpl; intros H; [done|..];
    repeat (apply cons_congr; [solve_range|]); try done.
  apply IH. solve_range.
Qed.

Lemma b64_sextets_length bs :
  (length (b64_sextets bs) mod 4 =
   match length bs mod 3 with 0 => 0 | 1 => 2 | _ => 3 end)%nat.
Proof.
  induction bs as [|a|a b|a b c bs IH] using list_ind3; try done.
  cbn [b64_sextets length].
  replace (S (S (S (S (length (b64_sextets bs))))))
    with (length (b64_sextets bs) + 1 * 4)%nat by lia.
  replace (S (S (S (length bs)))) with (length bs + 1 * 3)%nat by lia.
  by rewrite !Nat.Div0.mod_add.
Qed.

Lemma b64_strip_btoa bs :
  wf_bytes bs ->
  b64_strip (btoa bs) = b64_char <$> b64_sextets bs.
Proof.
  intros Hbs. unfold b64_strip, btoa, b64_padding. pose proof (b64_sextets_range bs Hbs) as Hr.
  assert (Hlast : forall c r, reverse (b64_char <$> b64_sextets bs) = c :: r -> c <> 61).
  { intros c r Heq. assert (Hin : c ∈ b64_char <$> b64_sextets bs).
    { apply elem_of_reverse. rewrite Heq. left. }
    apply list_elem_of_fmap in Hin as [v [-> Hv]]. rewrite Forall_forall in Hr.
    apply b64_char_plain. auto. }
  rewrite reverse_app.
  destruct (length bs mod 3)%nat as [|[|[|]]]; simpl;
    (destruct (reverse (b64_char <$> b64_sextets bs)) as [|c r] eqn:E; simpl;
     [apply (f_equal reverse) in E; rewrite reverse_involutive in E; rewrite E; done|]);
    pose proof (Hlast c r eq_refl) as Hc; rewrite ?app_nil_r;
    try (apply (f_equal reverse) in E; rewrite reverse_involutive in E; rewrite E);
    unfold b64_pad; repeat case_match; congruence || done.
Qed.

Theorem atob_btoa bs : wf_bytes bs -> atob (btoa bs) = Ok bs.
Proof.
  intros Hbs. unfold atob. pose proof (b64_sextets_range bs Hbs) as Hr.
  assert (Hf : base.filter (fun c => is_ascii_whitespace c = false) (btoa bs) = btoa bs).
  { apply filter_all. unfold btoa, b64_padding. apply Forall_app. split.
    - apply Forall_fmap. eapply Forall_impl; [exact Hr|]. intros v Hv. simpl.
      by apply b64_char_plain.
    - repeat case_match; repeat constructor. }
  rewrite Hf.
  assert (Hl : (length (btoa bs) mod 4 = 0)%nat).
  { unfold btoa. rewrite length_app, length_fmap. rewrite Nat.Div0.add_mod, b64_sextets_length.
    unfold b64_padding. pose proof (Nat.mod_upper_bound (length bs) 3 ltac:(lia)).
    destruct (length bs mod 3)%nat as [|[|[|]]]; try done; lia. }
  rewrite Hl, Nat.eqb_refl. rewrite b64_strip_btoa by done. rewrite length_fmap.
  assert (H1 : ((length (b64_sextets bs) mod 4 =? 1) = false)%nat).
  { apply Nat.eqb_neq. rewrite b64_sextets_length. repeat case_match; lia. }
  rewrite H1. rewrite traverse_ok; simpl; [by rewrite b64_unsextets_sextets|].
  eapply Forall_impl; [exact Hr|]. intros v Hv. simpl. by rewrite b64_digit_char.
Qed.

Lemma b64_char_unit v : 0 <= v < 64 -> is_unit (b64_char v).
Proof. unfold b64_char, is_unit. intros. repeat case_match; zbool; subst; lia. Qed.

Lemma btoa_inj b1 b2 : wf_bytes b1 -> wf_bytes b2 -> btoa b1 = btoa b2 -> b1 = b2.
Proof.
  intros H1 H2 H. apply atob_btoa in H1, H2. rewrite H in H1. congruence.
Qed.
