(* ===== verification/JsText.v ===== *)
(** JavaScript text helpers: printing of integers ([String(n)],
    [toString(16)]), [parseInt], [indexOf], [slice], [startsWith], [split].

    Plain JavaScript objects used as maps: the order of own properties, plain
    assignment and [Object.defineProperty]. *)
From Stdlib Require Import ZArith Lia.
From stdpp Require Import base list strings.
From S2P Require Import Prelude JsBase.

(** * Digits *)

(** Digits of [n >= 0] in base [base], least significant first. *)
Fixpoint digits_rev (fuel : nat) (radix n : Z) : list Z :=
  match fuel with
  | O => []
  | S fuel' => if n <? radix then [n] else n mod radix :: digits_rev fuel' radix (n / radix)
  end.

Definition digits (radix n : Z) : list Z :=
  reverse (digits_rev (S (Z.to_nat (Z.log2 n))) radix n).

Definition digit_char (d : Z) : Z := if d <? 10 then 48 + d else 87 + d.

(** [n.toString(radix)] on integers; [String(n)] is [radix = 10]. *)
Definition num_to_string (radix n : Z) : jsstr :=
  if n <? 0 then 45 :: (digit_char <$> digits radix (- n))
  else digit_char <$> digits radix n.

Definition js_string_of (n : Z) : jsstr := num_to_string 10 n.

(** [s.padStart(2, "0")]. *)
Definition pad_start2 (s : jsstr) : jsstr :=
  replicate (2 - length s) 48 ++ s.

Fixpoint rev_value (radix : Z) (ds : list Z) : Z :=
  match ds with
  | [] => 0
  | d :: ds' => d + radix * rev_value radix ds'
  end.

Definition digits_value (radix : Z) (ds : list Z) : Z :=
  fold_left (fun acc d => acc * radix + d) ds 0.

Lemma digits_value_rev radix ds : digits_value radix (reverse ds) = rev_value radix ds.
Proof.
  unfold digits_value. induction ds as [|d ds IH]; [done|].
  rewrite reverse_cons, fold_left_app, IH; simpl. lia.
Qed.

Lemma log2_div radix n : 2 <= radix -> radix <= n -> Z.log2 (n / radix) < Z.log2 n.
Proof.
  intros Hr Hn.
  assert (0 < n / radix) by (apply Z.div_str_pos; lia).
  apply Z.log2_lt_pow2; [done|].
  apply Z.div_lt_upper_bound; [lia|].
  pose proof (Z.log2_spec n ltac:(lia)) as [_ Hl].
  rewrite Z.pow_succ_r in Hl by apply Z.log2_nonneg.
  pose proof (Z.pow_pos_nonneg 2 (Z.log2 n) ltac:(lia) (Z.log2_nonneg n)). nia.
Qed.

Lemma digits_rev_spec radix fuel n :
  2 <= radix -> 0 <= n -> (Z.to_nat (Z.log2 n) < fuel)%nat ->
  rev_value radix (digits_rev fuel radix n) = n /\
  Forall (fun d => 0 <= d < radix) (digits_rev fuel radix n) /\
  digits_rev fuel radix n <> [].
Proof.
  intros Hr. revert n. induction fuel as [|fuel IH]; intros n Hn Hf; [lia|]. simpl.
  destruct (n <? radix) eqn:E; zbool.
  - split_and!; [simpl; lia| |done]. repeat constructor; lia.
  - pose proof (log2_div radix n Hr E). pose proof (Z.log2_nonneg (n / radix)).
    destruct (IH (n / radix)) as (IH1 & IH2 & _); [apply Z.div_pos; lia|lia|].
    split_and!; [|constructor; [apply Z.mod_pos_bound; lia|done]|done].
    simpl. rewrite IH1. pose proof (Z.div_mod n radix). lia.
Qed.

Lemma digits_spec radix n :
  2 <= radix -> 0 <= n ->
  digits_value radix (digits radix n) = n /\
  Forall (fun d => 0 <= d < radix) (digits radix n) /\ digits radix n <> [].
Proof.
  intros Hr Hn. unfold digits. rewrite digits_value_rev.
  destruct (digits_rev_spec radix (S (Z.to_nat (Z.log2 n))) n Hr Hn) as (H1 & H2 & H3); [lia|].
  split_and!; [done|by apply Forall_reverse|].
  intros H. apply (f_equal reverse) in H. rewrite reverse_involutive in H. done.
Qed.

(** * [parseInt(s, radix)]: leading whitespace, a sign, [0x] for radix 16,
    then the longest run of digits; [None] is [NaN] *)

Definition digit_of_char (radix c : Z) : option Z :=
  let d := if (48 <=? c) && (c <=? 57) then c - 48
           else if (97 <=? c) && (c <=? 122) then c - 87
           else if (65 <=? c) && (c <=? 90) then c - 55
           else 36 in
  if d <? radix then Some d else None.

Fixpoint take_digits (radix : Z) (s : jsstr) : list Z :=
  match s with
  | c :: s' =>
      match digit_of_char radix c with
      | Some d => d :: take_digits radix s'
      | None => []
      end
  | [] => []
  end.

(** StrWhiteSpaceChar. *)
Definition is_js_whitespace (c : Z) : bool :=
  ((9 <=? c) && (c <=? 13)) || (c =? 32) || (c =? 160) || (c =? 5760)
  || ((8192 <=? c) && (c <=? 8202)) || (c =? 8232) || (c =? 8233) || (c =? 8239)
  || (c =? 8287) || (c =? 12288) || (c =? 65279).

Fixpoint trim_start (s : jsstr) : jsstr :=
  match s with
  | c :: s' => if is_js_whitespace c then trim_start s' else s
  | [] => []
  end.

Definition parse_sign (s : jsstr) : Z * jsstr :=
  match s with
  | 45 :: s' => (-1, s')
  | 43 :: s' => (1, s')
  | _ => (1, s)
  end.

Definition strip_hex_prefix (radix : Z) (s : jsstr) : jsstr :=
  match s with
  | 48 :: x :: s' => if (radix =? 16) && ((x =? 120) || (x =? 88)) then s' else s
  | _ => s
  end.

Definition parse_int (radix : Z) (s : jsstr) : option Z :=
  let '(sg, s1) := parse_sign (trim_start s) in
  match take_digits radix (strip_hex_prefix radix s1) with
  | [] => None
  | ds => Some (sg * digits_value radix ds)
  end.

Lemma digit_of_digit_char radix d :
  radix <= 36 -> 0 <= d < radix -> digit_of_char radix (digit_char d) = Some d.
Proof.
  intros Hr Hd. unfold digit_char, digit_of_char.
  destruct (d <? 10) eqn:E; zbool.
  - rewrite (proj2 (Z.leb_le 48 (48 + d))), (proj2 (Z.leb_le (48 + d) 57)) by lia; simpl.
    replace (48 + d - 48) with d by lia. by rewrite (proj2 (Z.ltb_lt _ _)) by lia.
  - rewrite (proj2 (Z.leb_gt (87 + d) 57)) by lia. rewrite andb_false_r.
    rewrite (proj2 (Z.leb_le 97 (87 + d))), (proj2 (Z.leb_le (87 + d) 122)) by lia; simpl.
    replace (87 + d - 87) with d by lia. by rewrite (proj2 (Z.ltb_lt _ _)) by lia.
Qed.

Lemma take_digits_chars radix ds s :
  radix <= 36 -> Forall (fun d => 0 <= d < radix) ds ->
  (match s with [] => True | c :: _ => digit_of_char radix c = None end) ->
  take_digits radix ((digit_char <$> ds) ++ s) = ds.
Proof.
  intros Hr Hds Hs. induction Hds as [|d ds Hd _ IH]; csimpl.
  - destruct s; [done|]. simpl. by rewrite Hs.
  - rewrite digit_of_digit_char by done. by rewrite IH.
Qed.

Lemma digit_char_range d : 0 <= d < 36 -> 48 <= digit_char d <= 57 \/ 97 <= digit_char d <= 122.
Proof. unfold digit_char. intros. case_match; zbool; lia. Qed.

Lemma trim_start_digit c s : 48 <= c <= 57 \/ 97 <= c <= 122 -> trim_start (c :: s) = c :: s.
Proof.
  intros Hc. simpl. assert (is_js_whitespace c = false) as ->; [|done].
  unfold is_js_whitespace. repeat (apply orb_false_iff; split);
    try (apply Z.eqb_neq; lia); apply andb_false_iff;
    destruct Hc; ((left; apply Z.leb_gt; lia) || (right; apply Z.leb_gt; lia)).
Qed.

Lemma parse_sign_digit c s : 48 <= c -> parse_sign (c :: s) = (1, c :: s).
Proof.
  intros Hc. unfold parse_sign.
  repeat match goal with |- context [match ?x with _ => _ end] => destruct x eqn:?; try lia; try done end.
Qed.

(** [parseInt(String(n), 10)] reads back the integer, also when followed by a
    non-digit. *)
Lemma parse_int_of_string n s :
  0 <= n -> (match s with [] => True | c :: _ => digit_of_char 10 c = None end) ->
  parse_int 10 (js_string_of n ++ s) = Some n.
Proof.
  intros Hn Hs. unfold js_string_of, num_to_string.
  rewrite (proj2 (Z.ltb_ge n 0)) by lia.
  destruct (digits_spec 10 n) as (H1 & H2 & H3); [lia..|].
  unfold parse_int. destruct (digits 10 n) as [|d ds] eqn:E; [done|].
  assert (Hd : 0 <= d < 10) by (by apply Forall_cons in H2 as [? _]).
  rewrite fmap_cons, <- app_comm_cons. rewrite trim_start_digit by (apply digit_char_range; lia).
  rewrite parse_sign_digit by (pose proof (digit_char_range d); lia).
  assert (Hh : forall t : jsstr, strip_hex_prefix 10 t = t).
  { intros t. unfold strip_hex_prefix.
    repeat match goal with |- context [match ?x with _ => _ end] => destruct x eqn:?; try done end. }
  rewrite Hh. change (digit_char d :: (digit_char <$> ds) ++ s)
    with ((digit_char <$> (d :: ds)) ++ s).
  rewrite take_digits_chars by (done || lia). rewrite H1. f_equal. lia.
Qed.

Lemma js_string_of_inj m n : 0 <= m -> 0 <= n -> js_string_of m = js_string_of n -> m = n.
Proof.
  intros Hm Hn H.
  pose proof (parse_int_of_string m [] Hm I) as H1. pose proof (parse_int_of_string n [] Hn I) as H2.
  rewrite H in H1. congruence.
Qed.

(** The characters of a printed non-negative integer. *)
Lemma js_string_of_chars n : 0 <= n -> Forall (fun c => 48 <= c <= 57) (js_string_of n).
Proof.
  intros Hn. unfold js_string_of, num_to_string. rewrite (proj2 (Z.ltb_ge n 0)) by lia.
  destruct (digits_spec 10 n) as (_ & H2 & _); [lia..|].
  apply Forall_fmap. eapply Forall_impl; [exact H2|]. intros d Hd. simpl.
  cbv beta in Hd. unfold digit_char. case_match; zbool; lia.
Qed.

(** * Searching and splitting *)

(** [s.indexOf(c)] for a one-character pattern, as the split of [s] at its
    first occurrence. *)
Fixpoint split_first (c : Z) (s : jsstr) : option (jsstr * jsstr) :=
  match s with
  | [] => None
  | x :: s' =>
      if x =? c then Some ([], s')
      else '(a, b) ← split_first c s'; Some (x :: a, b)
  end.

(** [s.lastIndexOf(c)] likewise. *)
Definition split_last (c : Z) (s : jsstr) : option (jsstr * jsstr) :=
  '(a, b) ← split_first c (reverse s); Some (reverse b, reverse a).

(** [s.split(c)]. *)
Fixpoint js_split (c : Z) (s : jsstr) : list jsstr :=
  match s with
  | [] => [[]]
  | x :: s' =>
      if x =? c then [] :: js_split c s'
      else match js_split c s' with
           | p :: ps => (x :: p) :: ps
           | [] => [[x]]
           end
  end.

(** [parts.join(c)]. *)
Fixpoint js_join (c : Z) (ps : list jsstr) : jsstr :=
  match ps with
  | [] => []
  | [p] => p
  | p :: ps' => p ++ c :: js_join c ps'
  end.

(** [s.startsWith(p)]. *)
Fixpoint starts_with (p s : jsstr) : bool :=
  match p, s with
  | [], _ => true
  | x :: p', y :: s' => (x =? y) && starts_with p' s'
  | _, [] => false
  end.

Lemma split_first_app c a b : Forall (fun x => x <> c) a -> split_first c (a ++ c :: b) = Some (a, b).
Proof.
  induction 1 as [|x a Hx _ IH]; simpl; [by rewrite Z.eqb_refl|].
  rewrite (proj2 (Z.eqb_neq x c)) by done. by rewrite IH.
Qed.

Lemma split_first_Some c s a b :
  split_first c s = Some (a, b) -> s = a ++ c :: b /\ Forall (fun x => x <> c) a.
Proof.
  revert a b. induction s as [|x s IH]; simpl; [done|]. intros a b.
  destruct (x =? c) eqn:E; zbool.
  - intros [= <- <-]. subst. split; [done|constructor].
  - destruct (split_first c s) as [[a' b']|]; simpl; [|done]. intros [= <- <-].
    destruct (IH a' b' eq_refl) as [-> H]. split; [done|]. by constructor.
Qed.

Lemma js_split_nonempty c s : js_split c s <> [].
Proof. destruct s; simpl; [done|]. case_match; [done|]. by case_match. Qed.

Lemma js_split_app c a b : Forall (fun x => x <> c) a -> js_split c (a ++ c :: b) = a :: js_split c b.
Proof.
  induction 1 as [|x a Hx _ IH]; simpl; [by rewrite Z.eqb_refl|].
  rewrite (proj2 (Z.eqb_neq x c)) by done. by rewrite IH.
Qed.

Lemma js_split_plain c a : Forall (fun x => x <> c) a -> js_split c a = [a].
Proof.
  induction 1 as [|x a Hx _ IH]; simpl; [done|].
  rewrite (proj2 (Z.eqb_neq x c)) by done. by rewrite IH.
Qed.

Lemma js_join_split c s : js_join c (js_split c s) = s.
Proof.
  induction s as [|x s IH]; simpl; [done|]. destruct (x =? c) eqn:E; zbool.
  - subst. pose proof (js_split_nonempty c s). destruct (js_split c s) eqn:Es; [done|].
    by rewrite <- IH.
  - pose proof (js_split_nonempty c s). destruct (js_split c s) as [|p ps] eqn:Es; [done|].
    rewrite <- IH. destruct ps; done.
Qed.

Lemma starts_with_app p s : starts_with p (p ++ s) = true.
Proof. induction p; simpl; [done|]. by rewrite Z.eqb_refl. Qed.

Lemma starts_with_spec p s : starts_with p s = true <-> exists t, s = p ++ t.
Proof.
  revert s. induction p as [|x p IH]; intros s; simpl; [naive_solver|].
  destruct s as [|y s]; [naive_solver|]. split.
  - intros H. zbool. subst. apply IH in H0 as [t ->]. by exists t.
  - intros [t [= -> ->]]. rewrite Z.eqb_refl. simpl. apply IH. by exists t.
Qed.

(** The property name ["__proto__"], whose plain assignment reaches the
    prototype setter. *)
Definition proto_key : jsstr := [95; 95; 112; 114; 111; 116; 111; 95; 95].

(** A canonical decimal below [2^32 - 1]: an array index. *)
Definition array_index (k : jsstr) : option Z :=
  match k with
  | [] => None
  | _ =>
      if forallb (fun c => (48 <=? c) && (c <=? 57)) k then
        let i := digits_value 10 ((fun c => c - 48) <$> k) in
        if bool_decide (js_string_of i = k) && (i <? 2 ^ 32 - 1) then Some i else None
      else None
  end.

(** Own properties are enumerated array indices first, ascending, then the
    other names in the order they were created. *)
Definition key_before (k1 k2 : jsstr) : bool :=
  match array_index k1, array_index k2 with
  | Some i, Some j => i <? j
  | None, Some _ => false
  | _, None => true
  end.

Fixpoint own_ordered (ks : list jsstr) : bool :=
  match ks with
  | [] => true
  | k :: ks' => forallb (key_before k) ks' && own_ordered ks'
  end.

Section objects.
Context {V : Type}.
Notation obj := (list (jsstr * V)).

Fixpoint obj_insert_index (o : obj) (i : Z) (k : jsstr) (v : V) : obj :=
  match o with
  | [] => [(k, v)]
  | (k', v') :: o' =>
      match array_index k' with
      | Some j => if i <? j then (k, v) :: o else (k', v') :: obj_insert_index o' i k v
      | None => (k, v) :: o
      end
  end.

(** [Object.defineProperty] of an enumerable data property. *)
Definition obj_define (o : obj) (k : jsstr) (v : V) : obj :=
  if jm_has o k then jm_set o k v
  else match array_index k with
       | None => o ++ [(k, v)]
       | Some i => obj_insert_index o i k v
       end.

(** [o[k] = v]. *)
Definition obj_assign (o : obj) (k : jsstr) (v : V) : obj :=
  if bool_decide (k = proto_key) && negb (jm_has o k) then o else obj_define o k v.

Definition obj_of (fs : list (jsstr * V)) : obj :=
  fold_left (fun o kv => obj_define o kv.1 kv.2) fs [].

Lemma obj_assign_define o k v : k <> proto_key -> obj_assign o k v = obj_define o k v.
Proof. intros H. unfold obj_assign. by rewrite bool_decide_false. Qed.

Lemma own_ordered_app ks1 ks2 :
  own_ordered (ks1 ++ ks2) = true <->
  own_ordered ks1 = true /\ own_ordered ks2 = true /\
  Forall (fun k1 => Forall (fun k2 => key_before k1 k2 = true) ks2) ks1.
Proof.
  induction ks1 as [|k ks1 IH]; simpl.
  - naive_solver.
  - rewrite forallb_app, !andb_true_iff, Forall_cons, IH, !(forallb_forall (key_before k)).
    rewrite (Forall_forall _ ks2). setoid_rewrite list_elem_of_In. tauto.
Qed.

Lemma obj_insert_index_last o i k v :
  array_index k = Some i -> Forall (fun k' => key_before k' k = true) o.*1 ->
  obj_insert_index o i k v = o ++ [(k, v)].
Proof.
  intros Hk. induction o as [|[k' v'] o IH]; csimpl; [done|].
  intros [Hb Ho]%Forall_cons. unfold key_before in Hb. rewrite Hk in Hb.
  destruct (array_index k') as [j|]; [|done]. zbool.
  rewrite (proj2 (Z.ltb_ge i j)) by lia. by rewrite IH.
Qed.

Lemma obj_define_last o k v :
  k ∉ o.*1 -> Forall (fun k' => key_before k' k = true) o.*1 ->
  obj_define o k v = o ++ [(k, v)].
Proof.
  intros Hk Ho. unfold obj_define, jm_has. rewrite (proj2 (jm_get_None o k)) by done.
  destruct (array_index k) eqn:E; [|done]. by apply obj_insert_index_last.
Qed.

(** Re-creating the properties of an object in their own order rebuilds it. *)
Lemma fold_define_app acc fs :
  NoDup (acc ++ fs).*1 -> own_ordered (acc ++ fs).*1 = true ->
  fold_left (fun o kv => obj_define o kv.1 kv.2) fs acc = acc ++ fs.
Proof.
  revert acc. induction fs as [|[k v] fs IH]; intros acc Hn Ho; simpl; [by rewrite app_nil_r|].
  rewrite obj_define_last.
  - rewrite IH; rewrite <- app_assoc; done.
  - rewrite fmap_app in Hn. apply NoDup_app in Hn as (_ & Hn & _). intros Hin.
    apply (Hn k Hin). csimpl. left.
  - rewrite fmap_app, own_ordered_app in Ho. destruct Ho as (_ & _ & Ho).
    eapply Forall_impl; [exact Ho|]. intros k' Hk'. cbv beta in *.
    csimpl in Hk'. by apply Forall_cons in Hk' as [? _].
Qed.

Lemma obj_of_id fs : NoDup fs.*1 -> own_ordered fs.*1 = true -> obj_of fs = fs.
Proof. apply (fold_define_app []). Qed.

Lemma jm_get_insert_index o i k v k' :
  jm_get o k = None ->
  jm_get (obj_insert_index o i k v) k' = if decide (k' = k) then Some v else jm_get o k'.
Proof.
  induction o as [|[k0 v0] o IH]; simpl; intros Hk; [done|].
  destruct (decide (k = k0)); [done|].
  destruct (array_index k0) as [j|]; [destruct (i <? j)|]; simpl; [done| |done].
  rewrite IH by done. destruct (decide (k' = k0)) as [->|]; [|done].
  by rewrite decide_False.
Qed.

Lemma jm_get_app (o1 o2 : obj) k :
  jm_get (o1 ++ o2) k = match jm_get o1 k with Some v => Some v | None => jm_get o2 k end.
Proof. induction o1 as [|[k0 v0] o1 IH]; simpl; [done|]. by destruct (decide _). Qed.

Lemma jm_get_define o k v k' :
  jm_get (obj_define o k v) k' = if decide (k' = k) then Some v else jm_get o k'.
Proof.
  unfold obj_define, jm_has. destruct (jm_get o k) as [w|] eqn:E; [apply jm_get_set|].
  destruct (array_index k) as [i|]; [by apply jm_get_insert_index|].
  rewrite jm_get_app; simpl. destruct (decide (k' = k)) as [->|]; [by rewrite E|].
  by destruct (jm_get o k').
Qed.
End objects.

Lemma array_index_dollar s : array_index (36 :: s) = None.
Proof. done. Qed.

#[export] Hint Rewrite @jm_get_define : concile.
