(* ===== verification/Float64.v ===== *)
(** JavaScript numbers: IEEE-754 binary64 as [spec_float], the bit layout that
    [DataView.setFloat64]/[getFloat64] reads and writes, subtraction, and the
    numeric order. *)
From Stdlib Require Import ZArith Lia SpecFloat.
From stdpp Require Import base list.
From S2P Require Import Prelude JsBase.

Abbreviation float64 := spec_float.

Definition f64_prec : Z := 53.
Definition f64_emax : Z := 1024.

Definition wf_f64 (f : float64) : Prop := valid_binary f64_prec f64_emax f = true.

#[global] Instance float64_eq_dec : EqDecision float64.
Proof. solve_decision. Defined.

Definition f64_zero : float64 := S754_zero false.
Definition f64_nan : float64 := S754_nan.
Definition f64_is_nan (f : float64) : bool := match f with S754_nan => true | _ => false end.
Definition f64_is_finite (f : float64) : bool :=
  match f with S754_nan | S754_infinity _ => false | _ => true end.

(** [a - b]. *)
Definition f64_sub (a b : float64) : float64 := SFsub f64_prec f64_emax a b.

(** The number of an integer, [Number(n)] (correctly rounded). *)
Definition f64_of_Z (n : Z) : float64 := binary_normalize f64_prec f64_emax n 0 false.

(** * Bit layout *)

Definition f64_sign_bit (s : bool) : Z := if s then 2 ^ 63 else 0.

(** The canonical NaN is [0x7ff8000000000000]. *)
Definition f64_bits (f : float64) : Z :=
  match f with
  | S754_zero s => f64_sign_bit s
  | S754_infinity s => f64_sign_bit s + 2047 * 2 ^ 52
  | S754_nan => 2047 * 2 ^ 52 + 2 ^ 51
  | S754_finite s m e =>
      if Zpos m <? 2 ^ 52 then f64_sign_bit s + Zpos m
      else f64_sign_bit s + (e + 1075) * 2 ^ 52 + (Zpos m - 2 ^ 52)
  end.

Definition f64_of_bits (z : Z) : float64 :=
  let s := 2 ^ 63 <=? z in
  let ex := (z / 2 ^ 52) mod 2048 in
  let man := z mod 2 ^ 52 in
  if ex =? 2047 then (if man =? 0 then S754_infinity s else S754_nan)
  else if ex =? 0 then
    match man with Zpos m => S754_finite s m (-1074) | _ => S754_zero s end
  else
    match man + 2 ^ 52 with Zpos m => S754_finite s m (ex - 1075) | _ => S754_nan end.

(** * Canonical mantissas *)

Lemma digits2_pos_bounds m :
  2 ^ (Zpos (digits2_pos m) - 1) <= Zpos m < 2 ^ Zpos (digits2_pos m).
Proof.
  induction m as [m IH|m IH|]; cbn [digits2_pos]; [| |lia];
    rewrite Pos2Z.inj_succ;
    replace (Z.succ (Zpos (digits2_pos m)) - 1) with (Z.succ (Zpos (digits2_pos m) - 1)) by lia;
    rewrite !Z.pow_succ_r by lia; lia.
Qed.

Lemma wf_finite s m e :
  wf_f64 (S754_finite s m e) ->
  -1074 <= e <= 971 /\ Zpos m < 2 ^ 53 /\ (e = -1074 \/ 2 ^ 52 <= Zpos m).
Proof.
  unfold wf_f64, valid_binary, bounded, canonical_mantissa, fexp, emin, f64_prec, f64_emax.
  intros H. zbool. pose proof (digits2_pos_bounds m) as [Hl Hu].
  assert (Hd : Zpos (digits2_pos m) <= 53) by lia.
  split_and!; [lia|lia| |].
  - eapply Z.lt_le_trans; [exact Hu|]. apply Z.pow_le_mono_r; lia.
  - destruct (Z.eq_dec e (-1074)); [by left|right].
    replace (Zpos (digits2_pos m) - 1) with 52 in Hl by lia. done.
Qed.

(** * Exact values, in units of 2^-1074 *)

Definition f64_scaled (s : bool) (m : positive) (e : Z) : Z :=
  cond_Zopp s (Zpos m * 2 ^ (e + 1074)).

(** The rank of a number: its exact value, infinities outside every finite
    value, NaN last. *)
Definition f64_huge : Z := 2 ^ 2098.

Definition f64_rank (f : float64) : Z :=
  match f with
  | S754_zero _ => 0
  | S754_finite s m e => f64_scaled s m e
  | S754_infinity s => cond_Zopp s f64_huge
  | S754_nan => f64_huge + 1
  end.

Lemma f64_scaled_bound s m e :
  wf_f64 (S754_finite s m e) -> 0 < Zpos m * 2 ^ (e + 1074) < f64_huge.
Proof.
  intros (He & Hm & _)%wf_finite.
  pose proof (Z.pow_pos_nonneg 2 (e + 1074) ltac:(lia) ltac:(lia)).
  split; [lia|].
  apply Z.lt_le_trans with (2 ^ 53 * 2 ^ (e + 1074)); [apply Z.mul_lt_mono_pos_r; lia|].
  rewrite <- Z.pow_add_r by lia. apply Z.pow_le_mono_r; lia.
Qed.

(** * The sign of a difference

    [sign(a - b)] rounds the difference, but gradual underflow keeps a nonzero
    difference nonzero, so the sign is the order of the exact values. *)

Lemma shr_1_m mrs : 0 <= shr_m mrs -> shr_m (shr_1 mrs) = shr_m mrs / 2.
Proof.
  destruct mrs as [m r s]; simpl. destruct m as [|[p|p|]|]; simpl; intros; try lia; try done.
  - change (Zpos p~1) with (2 * Zpos p + 1).
    apply Z.div_unique with 1; lia.
  - change (Zpos p~0) with (2 * Zpos p). apply Z.div_unique with 0; lia.
Qed.

Lemma iter_shr_m p mrs :
  0 <= shr_m mrs -> shr_m (SpecFloat.iter_pos shr_1 p mrs) = shr_m mrs / 2 ^ Zpos p.
Proof.
  revert mrs. induction p as [p IH|p IH|]; intros mrs H; cbn [SpecFloat.iter_pos].
  - assert (0 <= shr_m mrs / 2) by (apply Z.div_pos; lia).
    assert (0 < 2 ^ Zpos p) by (apply Z.pow_pos_nonneg; lia).
    assert (0 <= shr_m mrs / 2 / 2 ^ Zpos p) by (apply Z.div_pos; lia).
    rewrite IH; rewrite IH; rewrite shr_1_m; try done.
    rewrite !Z.div_div by lia. f_equal.
    replace (Zpos p~1) with (1 + Zpos p + Zpos p) by lia. rewrite !Z.pow_add_r by lia. lia.
  - assert (0 < 2 ^ Zpos p) by (apply Z.pow_pos_nonneg; lia).
    assert (0 <= shr_m mrs / 2 ^ Zpos p) by (apply Z.div_pos; lia).
    rewrite IH; rewrite IH; try done.
    rewrite !Z.div_div by lia. f_equal.
    replace (Zpos p~0) with (Zpos p + Zpos p) by lia. by rewrite Z.pow_add_r by lia.
  - by rewrite shr_1_m.
Qed.

Lemma shr_record_of_loc_m m l : shr_m (shr_record_of_loc m l) = m.
Proof. by destruct l as [|[]]. Qed.

Lemma shr_fexp_pos m e l mrs e' :
  0 < m -> -1074 <= e -> shr_fexp f64_prec f64_emax m e l = (mrs, e') ->
  0 < shr_m mrs /\ -1074 <= e'.
Proof.
  unfold shr_fexp, fexp, emin, f64_prec, f64_emax. intros Hm He.
  destruct m as [|m|]; try lia. cbn [Zdigits2].
  set (n := _ - e). assert (Hn : n <= 0 \/ n = Zpos (digits2_pos m) - 53) by (unfold n; lia).
  unfold shr. destruct n as [|p|p] eqn:E; intros [= <- <-];
    rewrite ?shr_record_of_loc_m; try lia.
  rewrite iter_shr_m; rewrite shr_record_of_loc_m; [|lia].
  pose proof (digits2_pos_bounds m) as [Hl _].
  split; [|lia]. apply Z.div_str_pos. split; [apply Z.pow_pos_nonneg; lia|].
  etransitivity; [|exact Hl]. apply Z.pow_le_mono_r; lia.
Qed.

Lemma round_nearest_even_ge m l : m <= round_nearest_even m l.
Proof. destruct l as [|[]]; simpl; try case_match; lia. Qed.

Lemma binary_round_sign s m e :
  -1074 <= e ->
  (exists m' e', binary_round f64_prec f64_emax s m e = S754_finite s m' e') \/
  binary_round f64_prec f64_emax s m e = S754_infinity s.
Proof.
  intros He. unfold binary_round.
  assert (Hf : forall x, -1074 <= fexp f64_prec f64_emax x)
    by (unfold fexp, emin, f64_prec, f64_emax; lia).
  destruct (shl_align _ _ _) as [mz ez] eqn:E.
  assert (Hez : -1074 <= ez).
  { unfold shl_align in E. case_match; injection E as <- <-; auto. }
  unfold binary_round_aux.
  destruct (shr_fexp _ _ _ _ _) as [mrs e1] eqn:E1.
  apply shr_fexp_pos in E1 as [H1 H1']; [|lia|done].
  destruct (shr_fexp _ _ _ e1 _) as [mrs2 e2] eqn:E2.
  pose proof (round_nearest_even_ge (shr_m mrs) (loc_of_shr_record mrs)).
  apply shr_fexp_pos in E2 as [H2 H2']; [|lia|done].
  destruct (shr_m mrs2) as [|p|p]; [lia| |lia].
  case_match; eauto.
Qed.

Lemma iter_xO m p : Zpos (Pos.iter xO m p) = Zpos m * 2 ^ Zpos p.
Proof.
  induction p as [|p IH] using Pos.peano_ind; [cbn; lia|].
  rewrite Pos.iter_succ. change (Zpos (Pos.iter xO m p)~0) with (2 * Zpos (Pos.iter xO m p)).
  rewrite Pos2Z.inj_succ, Z.pow_succ_r by lia. lia.
Qed.

Lemma shl_align_fst m e e' : e' <= e -> Zpos (fst (shl_align m e e')) = Zpos m * 2 ^ (e - e').
Proof.
  intros He. unfold shl_align. destruct (e' - e) as [|p|p] eqn:E; cbn [fst]; try lia.
  - replace (e - e') with 0 by lia. lia.
  - replace (e - e') with (Zpos p) by lia. apply iter_xO.
Qed.

(** [sign(n)]. *)
Definition f64_sign (f : float64) : comparison :=
  if SFltb f f64_zero then Lt else if SFltb f64_zero f then Gt else Eq.

Lemma binary_normalize_sign z e :
  -1074 <= e -> f64_sign (binary_normalize f64_prec f64_emax z e false) = (z ?= 0).
Proof.
  intros He. unfold binary_normalize. destruct z as [|m|m]; [done|..].
  - by destruct (binary_round_sign false m e He) as [(m' & e' & ->)| ->].
  - by destruct (binary_round_sign true m e He) as [(m' & e' & ->)| ->].
Qed.

Lemma cond_Zopp_mul s a b : cond_Zopp s (a * b) = cond_Zopp s a * b.
Proof. destruct s; simpl; lia. Qed.

Lemma Zcompare_scale x y k : 0 < k -> (x * k ?= y * k) = (x ?= y).
Proof. intros. rewrite !(Z.mul_comm _ k). symmetry. by apply Zmult_compare_compat_l, Z.lt_gt. Qed.

Lemma f64_sub_finite_sign s1 m1 e1 s2 m2 e2 :
  wf_f64 (S754_finite s1 m1 e1) -> wf_f64 (S754_finite s2 m2 e2) ->
  f64_sign (f64_sub (S754_finite s1 m1 e1) (S754_finite s2 m2 e2)) =
  (f64_scaled s1 m1 e1 ?= f64_scaled s2 m2 e2).
Proof.
  intros (He1 & _)%wf_finite (He2 & _)%wf_finite. unfold f64_sub, SFsub.
  set (ez := Z.min e1 e2). rewrite binary_normalize_sign by (unfold ez; lia).
  rewrite !shl_align_fst by (unfold ez; lia).
  unfold f64_scaled.
  replace (e1 + 1074) with (e1 - ez + (ez + 1074)) by lia.
  replace (e2 + 1074) with (e2 - ez + (ez + 1074)) by lia.
  rewrite (Z.pow_add_r 2 (e1 - ez)), (Z.pow_add_r 2 (e2 - ez)) by (unfold ez; lia).
  rewrite !Z.mul_assoc, !cond_Zopp_mul.
  rewrite Zcompare_scale by (apply Z.pow_pos_nonneg; unfold ez; lia).
  match goal with |- (?a ?= 0) = (?b ?= ?c) => destruct (Z.compare_spec b c) as [H|H|H] end;
    [apply Z.compare_eq_iff|apply Z.compare_lt_iff|apply Z.compare_gt_iff]; lia.
Qed.

(** The sign of [a - b] is the order of the ranks, for all but NaN. *)
Lemma f64_sub_sign a b :
  wf_f64 a -> wf_f64 b -> f64_is_nan a = false -> f64_is_nan b = false ->
  f64_sign (f64_sub a b) = (f64_rank a ?= f64_rank b).
Proof.
  intros Ha Hb Na Nb.
  destruct a as [s1|s1| |s1 m1 e1], b as [s2|s2| |s2 m2 e2]; try done;
    try (apply f64_sub_finite_sign; done).
  all: try pose proof (f64_scaled_bound _ _ _ Ha) as HA;
    try pose proof (f64_scaled_bound _ _ _ Hb) as HB.
  all: assert (0 < f64_huge) by (apply Z.pow_pos_nonneg; lia).
  all: unfold f64_rank, f64_scaled; generalize dependent f64_huge; intros.
  all: try destruct s1; try destruct s2; cbn -[Z.compare Z.mul Z.pow Z.add]; symmetry;
    first [reflexivity|apply Z.compare_eq_iff; lia|apply Z.compare_lt_iff; lia|apply Z.compare_gt_iff; lia].
Qed.

(** * The bit layout is ordered and invertible *)

(** Magnitude bits of a finite number: exponent and mantissa fields. *)
Definition f64_mag (m : positive) (e : Z) : Z := (e + 1074) * 2 ^ 52 + Zpos m.

Lemma f64_bits_finite s m e :
  wf_f64 (S754_finite s m e) ->
  f64_bits (S754_finite s m e) = f64_sign_bit s + f64_mag m e.
Proof.
  intros (He & Hm & Hc)%wf_finite. unfold f64_bits, f64_mag. case_match; zbool; [|lia].
  destruct Hc as [->|]; lia.
Qed.

Lemma f64_mag_bound s m e :
  wf_f64 (S754_finite s m e) -> 0 < f64_mag m e < 2047 * 2 ^ 52.
Proof. intros (He & Hm & Hc)%wf_finite. unfold f64_mag. lia. Qed.

Lemma f64_mag_lt s1 m1 e1 s2 m2 e2 :
  wf_f64 (S754_finite s1 m1 e1) -> wf_f64 (S754_finite s2 m2 e2) -> e1 < e2 ->
  f64_mag m1 e1 < f64_mag m2 e2 /\
  Zpos m1 * 2 ^ (e1 + 1074) < Zpos m2 * 2 ^ (e2 + 1074).
Proof.
  intros (He1 & Hm1 & Hc1)%wf_finite (He2 & Hm2 & Hc2)%wf_finite He. unfold f64_mag.
  split; [lia|].
  apply Z.lt_le_trans with (2 ^ 53 * 2 ^ (e1 + 1074)).
  - apply Z.mul_lt_mono_pos_r; [|lia]. apply Z.pow_pos_nonneg; lia.
  - apply Z.le_trans with (2 ^ 52 * 2 ^ (e2 + 1074)).
    + rewrite <- !Z.pow_add_r by lia. apply Z.pow_le_mono_r; lia.
    + apply Z.mul_le_mono_nonneg_r; [|lia]. apply Z.pow_nonneg. lia.
Qed.

Lemma f64_mag_compare s1 m1 e1 s2 m2 e2 :
  wf_f64 (S754_finite s1 m1 e1) -> wf_f64 (S754_finite s2 m2 e2) ->
  (f64_mag m1 e1 ?= f64_mag m2 e2) =
  (Zpos m1 * 2 ^ (e1 + 1074) ?= Zpos m2 * 2 ^ (e2 + 1074)).
Proof.
  intros H1 H2. destruct (Z.compare_spec e1 e2) as [->|H|H].
  - apply wf_finite in H1 as (He & _).
    rewrite Zcompare_scale by (apply Z.pow_pos_nonneg; lia). unfold f64_mag.
    destruct (Z.compare_spec (Zpos m1) (Zpos m2));
      [apply Z.compare_eq_iff|apply Z.compare_lt_iff|apply Z.compare_gt_iff]; lia.
  - destruct (f64_mag_lt _ _ _ _ _ _ H1 H2 H) as [Ha Hb].
    apply Z.compare_lt_iff in Ha, Hb. by rewrite Ha, Hb.
  - destruct (f64_mag_lt _ _ _ _ _ _ H2 H1 H) as [Ha Hb].
    apply Z.compare_gt_iff in Ha, Hb. by rewrite Ha, Hb.
Qed.

(** The sign trick: negatives flip every bit, the others flip the sign bit. *)
Definition f64_flip (z : Z) : Z := if 2 ^ 63 <=? z then 2 ^ 64 - 1 - z else z + 2 ^ 63.

Lemma f64_bits_range f : wf_f64 f -> 0 <= f64_bits f < 2 ^ 64.
Proof.
  intros Hf. destruct f as [s|s| |s m e]; unfold f64_sign_bit; try (destruct s; simpl; lia).
  - simpl. lia.
  - rewrite f64_bits_finite by done. pose proof (f64_mag_bound _ _ _ Hf).
    destruct s; simpl; lia.
Qed.

Definition f64_is_neg_zero (f : float64) : bool :=
  match f with S754_zero true => true | _ => false end.

(** Sign, magnitude bits and absolute rank of a number. *)
Definition f64_neg (f : float64) : bool :=
  match f with S754_infinity s | S754_finite s _ _ => s | _ => false end.
Definition f64_absbits (f : float64) : Z :=
  match f with
  | S754_zero _ => 0
  | S754_infinity _ => 2047 * 2 ^ 52
  | S754_nan => 2047 * 2 ^ 52 + 2 ^ 51
  | S754_finite _ m e => f64_mag m e
  end.
Definition f64_absrank (f : float64) : Z :=
  match f with
  | S754_zero _ => 0
  | S754_infinity _ => f64_huge
  | S754_nan => f64_huge + 1
  | S754_finite _ m e => Zpos m * 2 ^ (e + 1074)
  end.

Lemma f64_huge_pos : 0 < f64_huge.
Proof. apply Z.pow_pos_nonneg; lia. Qed.

Lemma f64_rank_abs f : f64_rank f = cond_Zopp (f64_neg f) (f64_absrank f).
Proof. by destruct f as [s|s| |s m e]. Qed.

Lemma f64_abs_pos f :
  wf_f64 f -> 0 <= f64_absbits f < 2 ^ 63 /\ 0 <= f64_absrank f /\ (f64_neg f = true -> 0 < f64_absbits f /\ 0 < f64_absrank f).
Proof.
  intros Hf. pose proof f64_huge_pos. destruct f as [s|s| |s m e]; simpl; try lia.
  pose proof (f64_scaled_bound _ _ _ Hf). pose proof (f64_mag_bound _ _ _ Hf). lia.
Qed.

Lemma f64_flip_abs f :
  wf_f64 f -> f64_is_neg_zero f = false ->
  f64_flip (f64_bits f) =
  if f64_neg f then 2 ^ 63 - 1 - f64_absbits f else 2 ^ 63 + f64_absbits f.
Proof.
  intros Hf Hz. destruct f as [[]|[]| |s m e]; try done.
  rewrite f64_bits_finite by done. pose proof (f64_mag_bound _ _ _ Hf).
  unfold f64_flip, f64_sign_bit; simpl f64_neg; simpl f64_absbits.
  destruct s; case_match; zbool; lia.
Qed.

Lemma f64_abs_compare a b :
  wf_f64 a -> wf_f64 b ->
  (f64_absbits a ?= f64_absbits b) = (f64_absrank a ?= f64_absrank b).
Proof.
  intros Ha Hb. pose proof f64_huge_pos.
  destruct a as [s1|s1| |s1 m1 e1], b as [s2|s2| |s2 m2 e2];
    unfold f64_absbits, f64_absrank; try (eapply f64_mag_compare; done).
  all: try pose proof (f64_scaled_bound _ _ _ Ha);
    try pose proof (f64_mag_bound _ _ _ Ha);
    try pose proof (f64_scaled_bound _ _ _ Hb);
    try pose proof (f64_mag_bound _ _ _ Hb).
  all: match goal with |- _ = (?x ?= ?y) => destruct (Z.compare_spec x y) end;
    first [reflexivity|apply Z.compare_eq_iff; lia|apply Z.compare_lt_iff; lia
          |apply Z.compare_gt_iff; lia|exfalso; lia].
Qed.

(** Flipped bits, read as an unsigned word, are in numeric order. *)
Lemma f64_flip_order a b :
  wf_f64 a -> wf_f64 b -> f64_is_neg_zero a = false -> f64_is_neg_zero b = false ->
  (f64_flip (f64_bits a) ?= f64_flip (f64_bits b)) = (f64_rank a ?= f64_rank b).
Proof.
  intros Ha Hb Na Nb. rewrite !f64_flip_abs, !f64_rank_abs by done.
  pose proof (f64_abs_compare a b Ha Hb) as HC.
  destruct (f64_abs_pos a Ha) as (Pa & Qa & Sa), (f64_abs_pos b Hb) as (Pb & Qb & Sb).
  destruct (Z.compare_spec (f64_absbits a) (f64_absbits b)); symmetry in HC; zbool;
    destruct (f64_neg a), (f64_neg b); cbv iota in *; cbn [cond_Zopp];
    try specialize (Sa eq_refl); try specialize (Sb eq_refl);
    match goal with |- _ = (?x ?= ?y) => destruct (Z.compare_spec x y) end;
    first [reflexivity|apply Z.compare_eq_iff; lia|apply Z.compare_lt_iff; lia
          |apply Z.compare_gt_iff; lia|exfalso; lia].
Qed.

(** Reading the bits back gives the number. *)
Lemma f64_sign_bit_split (s : bool) z :
  0 <= z < 2 ^ 63 ->
  (2 ^ 63 <=? f64_sign_bit s + z) = s /\
  (f64_sign_bit s + z) / 2 ^ 52 mod 2048 = z / 2 ^ 52 /\
  (f64_sign_bit s + z) mod 2 ^ 52 = z mod 2 ^ 52.
Proof.
  intros Hz. unfold f64_sign_bit. destruct s; (split_and!; [|Z.div_mod_to_equations; lia..]).
  - apply Z.leb_le. lia.
  - apply Z.leb_gt. lia.
Qed.

Lemma f64_of_bits_bits f : wf_f64 f -> f64_of_bits (f64_bits f) = f.
Proof.
  intros Hf. destruct f as [s|s| |s m e]; try (by destruct s); [done|].
  rewrite f64_bits_finite by done.
  pose proof (f64_mag_bound _ _ _ Hf) as Hb.
  destruct (f64_sign_bit_split s (f64_mag m e)) as (H1 & H2 & H3); [lia|].
  apply wf_finite in Hf as (He & Hm & Hc).
  unfold f64_of_bits. rewrite H1, H2, H3. clear H1 H2 H3. unfold f64_mag in *.
  destruct (decide (Zpos m < 2 ^ 52)) as [Hs|Hs].
  - assert (e = -1074) as -> by lia.
    replace (-1074 + 1074) with 0 by lia. rewrite Z.mul_0_l, Z.add_0_l.
    rewrite Z.div_small, Z.mod_small by lia. done.
  - assert (Hq : ((e + 1074) * 2 ^ 52 + Zpos m) / 2 ^ 52 = e + 1075)
      by (Z.div_mod_to_equations; lia).
    assert (Hr : ((e + 1074) * 2 ^ 52 + Zpos m) mod 2 ^ 52 = Zpos m - 2 ^ 52)
      by (Z.div_mod_to_equations; lia).
    rewrite Hq, Hr. rewrite (proj2 (Z.eqb_neq _ _)) by lia.
    rewrite (proj2 (Z.eqb_neq _ _)) by lia.
    replace (Zpos m - 2 ^ 52 + 2 ^ 52) with (Zpos m) by lia. f_equal. lia.
Qed.

(** * JavaScript numbers: canonical binary64 values *)

Record number := Num { num_f : float64; num_ok : valid_binary f64_prec f64_emax num_f = true }.

Lemma number_eq (x y : number) : num_f x = num_f y -> x = y.
Proof.
  destruct x as [f p], y as [g q]; simpl. intros ->. f_equal.
  apply Eqdep_dec.UIP_dec. apply Bool.bool_dec.
Qed.

#[global] Instance number_eq_dec : EqDecision number.
Proof.
  intros x y. destruct (decide (num_f x = num_f y)) as [E|E].
  - left. by apply number_eq.
  - right. congruence.
Defined.

Definition num_zero : number := Num f64_zero eq_refl.
Definition num_neg_zero : number := Num (S754_zero true) eq_refl.
Definition num_nan : number := Num f64_nan eq_refl.
Definition num_inf (s : bool) : number := Num (S754_infinity s) eq_refl.
Definition num_one : number := Num (S754_finite false 4503599627370496 (-52)) eq_refl.

(** [Object.is(n, -0)]. *)
Definition num_is_neg_zero (n : number) : bool := f64_is_neg_zero (num_f n).

Lemma num_neg_zero_spec n : num_is_neg_zero n = true -> n = num_neg_zero.
Proof. intros H. apply number_eq. destruct n as [[[]| | |] p]; done. Qed.

(** Reading 64 bits as a number: any pattern is a number, NaNs are canonical. *)
Definition num_of_bits (z : Z) : number :=
  match Bool.bool_dec (valid_binary f64_prec f64_emax (f64_of_bits z)) true with
  | left p => Num (f64_of_bits z) p
  | right _ => num_nan
  end.

Lemma num_of_bits_bits n : num_of_bits (f64_bits (num_f n)) = n.
Proof.
  unfold num_of_bits. apply number_eq. destruct n as [f p]; simpl.
  rewrite f64_of_bits_bits by done. case_match; [done|]. congruence.
Qed.
