(* ===== verification/Values.v ===== *)
(** The value model and its canonical order: packages/values/src/value.ts. *)
From Stdlib Require Import ZArith Lia Sorted.
From stdpp Require Import base list.
From S2P Require Import Prelude JsBase JsText Float64.

(** [Value].  An object is its list of own properties in enumeration order. *)
Inductive value :=
  | VNull
  | VBool (b : bool)
  | VNumber (n : number)
  | VBigint (n : Z)
  | VString (s : jsstr)
  | VBytes (bs : bytes)
  | VArray (xs : list value)
  | VObject (fs : list (jsstr * value)).

(** Induction through arrays and objects. *)
Section value_ind.
Variable P : value -> Prop.
Hypothesis Hnull : P VNull.
Hypothesis Hbool : forall b, P (VBool b).
Hypothesis Hnumber : forall n, P (VNumber n).
Hypothesis Hbigint : forall n, P (VBigint n).
Hypothesis Hstring : forall s, P (VString s).
Hypothesis Hbytes : forall bs, P (VBytes bs).
Hypothesis Harray : forall xs, Forall P xs -> P (VArray xs).
Hypothesis Hobject : forall fs, Forall (fun kv => P kv.2) fs -> P (VObject fs).

Fixpoint value_ind' (v : value) : P v :=
  match v with
  | VNull => Hnull
  | VBool b => Hbool b
  | VNumber n => Hnumber n
  | VBigint n => Hbigint n
  | VString s => Hstring s
  | VBytes bs => Hbytes bs
  | VArray xs =>
      Harray xs ((fix go l : Forall P l :=
        match l with
        | [] => Forall_nil_2 _
        | x :: l' => Forall_cons_2 _ _ _ (value_ind' x) (go l')
        end) xs)
  | VObject fs =>
      Hobject fs ((fix go l : Forall (fun kv => P kv.2) l :=
        match l with
        | [] => Forall_nil_2 _
        | kv :: l' => Forall_cons_2 _ kv _ (value_ind' kv.2) (go l')
        end) fs)
  end.
End value_ind.

(** What every value built by JavaScript satisfies: code units and bytes in
    range, property names distinct and in own-property order. *)
Fixpoint wf_value (v : value) : Prop :=
  match v with
  | VString s => wf_str s
  | VBytes bs => wf_bytes bs
  | VArray xs => fold_right (fun x acc => wf_value x /\ acc) True xs
  | VObject fs =>
      NoDup fs.*1 /\ own_ordered fs.*1 = true /\ fold_right (fun kv acc => (wf_str kv.1 /\ wf_value kv.2) /\ acc) True fs
  | _ => True
  end.

Lemma fold_and_Forall {A} (P : A -> Prop) l :
  fold_right (fun x acc => P x /\ acc) True l <-> Forall P l.
Proof. induction l; simpl; [done|]. by rewrite Forall_cons, IHl. Qed.

Lemma wf_array xs : wf_value (VArray xs) <-> Forall wf_value xs.
Proof. apply (fold_and_Forall wf_value). Qed.

Lemma wf_object fs :
  wf_value (VObject fs) <->
  NoDup fs.*1 /\ own_ordered fs.*1 = true /\ Forall (fun kv => wf_str kv.1 /\ wf_value kv.2) fs.
Proof. cbn [wf_value]. by rewrite (fold_and_Forall (fun kv => wf_str kv.1 /\ wf_value kv.2)). Qed.

Definition typeRank (v : value) : Z :=
  match v with
  | VNull => 0
  | VBool _ => 1
  | VNumber _ => 2
  | VBigint _ => 3
  | VString _ => 4
  | VBytes _ => 5
  | VArray _ => 6
  | VObject _ => 7
  end.

(** The loops compare position by position up to the shorter length, then the
    lengths. *)
Section zip_compare.
Context {A B : Type} (c : A -> B -> comparison).
Fixpoint zip_compare (l1 : list A) (l2 : list B) : comparison :=
  match l1, l2 with
  | x :: l1', y :: l2' =>
      match c x y with Eq => zip_compare l1' l2' | r => r end
  | _, _ => Eq
  end.
Definition loop_compare (l1 : list A) (l2 : list B) : comparison :=
  match zip_compare l1 l2 with
  | Eq => Nat.compare (length l1) (length l2)
  | r => r
  end.
End zip_compare.

Lemma loop_compare_lex {A B} (c : A -> B -> comparison) l1 l2 :
  loop_compare c l1 l2 = lex_compare c l1 l2.
Proof.
  unfold loop_compare. revert l2. induction l1 as [|x l1 IH]; intros [|y l2]; simpl; try done.
  destruct (c x y); [|done|done]. rewrite <- IH. by destruct (zip_compare c l1 l2).
Qed.

Definition compareBytes (a b : bytes) : comparison := loop_compare Z.compare a b.

Definition compareNumbers (a b : number) : comparison :=
  let aNaN := f64_is_nan (num_f a) in
  let bNaN := f64_is_nan (num_f b) in
  if aNaN || bNaN then (if aNaN && bNaN then Eq else if aNaN then Gt else Lt)
  else f64_sign (f64_sub (num_f a) (num_f b)).

Definition compareKeysUtf8 (a b : jsstr) : comparison :=
  compareBytes (utf8_encode a) (utf8_encode b).

(** [Object.keys(o).sort(compareKeysUtf8)], keeping each key's payload. *)
Definition entries_by_key {A} (fs : list (jsstr * A)) : list (jsstr * A) :=
  js_sort (fun p q => compareKeysUtf8 p.1 q.1) fs.

Fixpoint compareValues (a b : value) {struct a} : comparison :=
  match typeRank a ?= typeRank b with
  | Lt => Lt
  | Gt => Gt
  | Eq =>
      match a, b with
      | VNull, VNull => Eq
      | VBool x, VBool y => Z.compare (Z.b2z x - Z.b2z y) 0
      | VNumber x, VNumber y => compareNumbers x y
      | VBigint x, VBigint y => if x <? y then Lt else if y <? x then Gt else Eq
      | VString x, VString y => compareKeysUtf8 x y
      | VBytes x, VBytes y => compareBytes x y
      | VArray xs, VArray ys => loop_compare compareValues xs ys
      | VObject xo, VObject yo =>
          loop_compare
            (fun (p : jsstr * (value -> comparison)) (q : jsstr * value) =>
               match compareKeysUtf8 p.1 q.1 with Eq => p.2 q.2 | kc => kc end)
            (entries_by_key (List.map (fun kv => (kv.1, compareValues kv.2)) xo))
            (entries_by_key yo)
      | _, _ => Eq
      end
  end.

Definition valuesEqual (a b : value) : bool := cmp_eqb (compareValues a b).

Definition isPlainObject (v : value) : bool := match v with VObject _ => true | _ => false end.

(** * The order is a total preorder *)

#[global] Instance compareBytes_exact : CmpExact compareBytes.
Proof.
  assert (H : forall a b, compareBytes a b = lex_compare Z.compare a b)
    by (intros; apply loop_compare_lex).
  assert (HL : CmpExact (lex_compare Z.compare)) by apply _.
  split; [split|].
  - intros x. rewrite H. apply cmp_refl.
  - intros x y. rewrite !H. apply cmp_opp.
  - intros x y z. unfold cmp_trans_at. rewrite !H. apply (cmp_trans (c:=lex_compare Z.compare)).
  - intros x y. rewrite H. apply cmp_eq.
Qed.

#[global] Instance compareKeysUtf8_laws : CmpLaws compareKeysUtf8.
Proof. apply (cmp_on_laws utf8_encode compareBytes). apply _. Qed.

(** [compareNumbers] is the numeric order with NaN last, although the code
    subtracts. *)
Lemma compareNumbers_rank a b : compareNumbers a b = (f64_rank (num_f a) ?= f64_rank (num_f b)).
Proof.
  unfold compareNumbers. destruct a as [a Ha], b as [b Hb]; simpl.
  assert (Hn : forall f, wf_f64 f -> f64_is_nan f = false -> f64_rank f < f64_huge + 1).
  { intros f Hf Nf. pose proof f64_huge_pos.
    destruct f as [s|s| |s m e]; simpl in *; try lia; try done.
    - destruct s; simpl; lia.
    - pose proof (f64_scaled_bound _ _ _ Hf). unfold f64_scaled. destruct s; simpl; lia. }
  destruct (f64_is_nan a) eqn:Na, (f64_is_nan b) eqn:Nb; simpl.
  - destruct a, b; try done; simpl; by rewrite Z.compare_refl.
  - destruct a; try done. symmetry. apply Z.compare_gt_iff. by apply Hn.
  - destruct b; try done. symmetry. apply Z.compare_lt_iff. by apply Hn.
  - by apply f64_sub_sign.
Qed.

#[global] Instance compareNumbers_laws : CmpLaws compareNumbers.
Proof.
  pose proof (cmp_on_laws (fun n => f64_rank (num_f n)) Z.compare _) as H.
  split; [intros x|intros x y|intros x y z; unfold cmp_trans_at]; rewrite !compareNumbers_rank; apply H.
Qed.

Lemma js_sort_fmap {A B} (f : A -> B) (c : A -> A -> comparison) (c' : B -> B -> comparison) l :
  (forall x y, c' (f x) (f y) = c x y) -> js_sort c' (f <$> l) = f <$> js_sort c l.
Proof.
  intros H. assert (Hi : forall x l, sort_insert c' (f x) (f <$> l) = f <$> sort_insert c x l).
  { intros x l'. induction l' as [|y l' IH]; csimpl; [done|]. rewrite H.
    case_match; [done|]. csimpl. by rewrite IH. }
  induction l as [|x l IH]; csimpl; [done|]. by rewrite IH, Hi.
Qed.

(** Objects compare as their key-sorted entries, arrays elementwise. *)
Definition entry_compare (p q : jsstr * value) : comparison :=
  then_cmp (compareKeysUtf8 p.1 q.1) (compareValues p.2 q.2).

Lemma lex_compare_fmap_l {A A' B} (f : A -> A') (c : A' -> B -> comparison) l1 l2 :
  lex_compare c (f <$> l1) l2 = lex_compare (fun x y => c (f x) y) l1 l2.
Proof.
  revert l2. induction l1 as [|x l1 IH]; intros [|y l2]; csimpl; try done. by rewrite IH.
Qed.

Lemma compareValues_object xo yo :
  compareValues (VObject xo) (VObject yo) =
  lex_compare entry_compare (entries_by_key xo) (entries_by_key yo).
Proof.
  cbn [compareValues typeRank]. rewrite Z.compare_refl, loop_compare_lex.
  change (List.map (fun kv => (kv.1, compareValues kv.2)) xo)
    with ((fun kv : jsstr * value => (kv.1, compareValues kv.2)) <$> xo).
  unfold entries_by_key.
  rewrite (js_sort_fmap (fun kv : jsstr * value => (kv.1, compareValues kv.2))
    (fun p q => compareKeysUtf8 p.1 q.1)) by done.
  rewrite lex_compare_fmap_l. reflexivity.
Qed.

Lemma compareValues_array xs ys :
  compareValues (VArray xs) (VArray ys) = lex_compare compareValues xs ys.
Proof. cbn [compareValues typeRank]. by rewrite Z.compare_refl, loop_compare_lex. Qed.

Lemma typeRank_compare_ne a b :
  typeRank a <> typeRank b -> compareValues a b = (typeRank a ?= typeRank b).
Proof.
  intros H. destruct a, b; cbn [compareValues]; try done;
    destruct (Z.compare_spec _ _) as [E|E|E] in |- *; try done; congruence.
Qed.

Lemma bool_compare_laws : CmpLaws (fun x y => Z.b2z x - Z.b2z y ?= 0).
Proof. split; [intros []|intros [] []|intros [] [] []]; done. Qed.

Lemma bigint_compare x y : (if x <? y then Lt else if y <? x then Gt else Eq) = (x ?= y).
Proof.
  destruct (Z.compare_spec x y); repeat case_match; zbool; try done; lia.
Qed.

Lemma sorted_entries_Forall {A} (P : jsstr * A -> Prop) fs :
  Forall P fs -> Forall P (entries_by_key fs).
Proof. unfold entries_by_key. by rewrite js_sort_perm. Qed.

(** One unfolding of [compareValues] on values of the same type. *)
Lemma compareValues_same_rank a b :
  typeRank a = typeRank b ->
  compareValues a b =
  match a, b with
  | VBool x, VBool y => Z.b2z x - Z.b2z y ?= 0
  | VNumber x, VNumber y => compareNumbers x y
  | VBigint x, VBigint y => x ?= y
  | VString x, VString y => compareKeysUtf8 x y
  | VBytes x, VBytes y => compareBytes x y
  | VArray xs, VArray ys => lex_compare compareValues xs ys
  | VObject xo, VObject yo => lex_compare entry_compare (entries_by_key xo) (entries_by_key yo)
  | _, _ => Eq
  end.
Proof.
  intros H. destruct a, b; try done;
    [apply bigint_compare|apply compareValues_array|apply compareValues_object].
Qed.

Lemma compareValues_refl v : compareValues v v = Eq.
Proof.
  induction v as [|b|n|n|s|bs|xs IH|fs IH] using value_ind';
    rewrite compareValues_same_rank by done; try apply cmp_refl; try done.
  - apply (cmp_refl (CmpLaws:=bool_compare_laws)).
  - by apply lex_refl_on.
  - apply lex_refl_on, sorted_entries_Forall. eapply Forall_impl; [exact IH|].
    intros [k v] Hv. unfold entry_compare. by rewrite cmp_refl.
Qed.

Lemma compareValues_opp v w : compareValues w v = CompOpp (compareValues v w).
Proof.
  assert (Hne : typeRank w <> typeRank v -> compareValues w v = CompOpp (compareValues v w)).
  { intros E. rewrite !typeRank_compare_ne by congruence. apply Z.compare_antisym. }
  revert w Hne.
  induction v as [|b|n|n|s|bs|xs IH|fs IH] using value_ind'; intros w Hne;
    (destruct w; try (apply Hne; discriminate)); clear Hne;
    rewrite !compareValues_same_rank by done; try done; try apply cmp_opp.
  - apply (cmp_opp (CmpLaws:=bool_compare_laws)).
  - apply lex_opp_on. eapply Forall_impl; [exact IH|]. intros x Hx y. apply Hx.
    intros E. rewrite !typeRank_compare_ne by congruence. apply Z.compare_antisym.
  - apply lex_opp_on, sorted_entries_Forall. eapply Forall_impl; [exact IH|].
    intros [k v] Hv [k' v']. unfold entry_compare, then_cmp; simpl in *.
    rewrite (cmp_opp k k'), Hv; [by destruct (compareKeysUtf8 k k')|].
    intros E. rewrite !typeRank_compare_ne by congruence. apply Z.compare_antisym.
Qed.

Lemma compareValues_trans_ne v w z :
  typeRank v <> typeRank w \/ typeRank w <> typeRank z -> cmp_trans_at compareValues v w z.
Proof.
  intros H. unfold cmp_trans_at.
  destruct (Z.eq_dec (typeRank v) (typeRank w)) as [E|E];
    [|destruct (Z.eq_dec (typeRank w) (typeRank z)) as [E'|E']].
  - rewrite (typeRank_compare_ne w z), (typeRank_compare_ne v z) by (rewrite ?E; tauto).
    rewrite E. destruct (compareValues v w), (Z.compare_spec (typeRank w) (typeRank z)); done || lia.
  - rewrite (typeRank_compare_ne v w), (typeRank_compare_ne v z) by congruence.
    rewrite E'. destruct (Z.compare_spec (typeRank v) (typeRank z)), (compareValues w z); done || lia.
  - rewrite (typeRank_compare_ne v w), (typeRank_compare_ne w z) by congruence.
    destruct (Z.eq_dec (typeRank v) (typeRank z)) as [E''|E''].
    + rewrite E''. rewrite (Z.compare_antisym (typeRank w) (typeRank z)).
      destruct (Z.compare_spec (typeRank w) (typeRank z)); done.
    + rewrite (typeRank_compare_ne v z) by done.
      apply (cmp_trans (c:=Z.compare)).
Qed.

Lemma compareValues_trans v w z : cmp_trans_at compareValues v w z.
Proof.
  revert w z. induction v as [|b|n|n|s|bs|xs IH|fs IH] using value_ind'; intros w z;
    (destruct w; try (apply compareValues_trans_ne; by left));
    (destruct z; try (apply compareValues_trans_ne; by right));
    unfold cmp_trans_at; rewrite !compareValues_same_rank by done; try done.
  - apply (cmp_trans (CmpLaws:=bool_compare_laws)).
  - apply (cmp_trans (c:=compareNumbers)).
  - apply (cmp_trans (c:=Z.compare)).
  - apply (cmp_trans (c:=compareKeysUtf8)).
  - apply (cmp_trans (c:=compareBytes)).
  - by apply lex_trans_on.
  - apply lex_trans_on, sorted_entries_Forall. eapply Forall_impl; [exact IH|].
    intros [k v] Hv [k2 v2] [k3 v3]. specialize (Hv v2 v3).
    pose proof (cmp_trans (c:=compareKeysUtf8) k k2 k3) as Hk.
    unfold cmp_trans_at, entry_compare, then_cmp in *; simpl in *.
    destruct (compareKeysUtf8 k k2), (compareKeysUtf8 k2 k3); simpl in Hk; rewrite ?Hk; try done;
      by destruct (compareValues v v2), (compareValues v2 v3).
Qed.

#[global] Instance compareValues_laws : CmpLaws compareValues.
Proof.
  split; [apply compareValues_refl|apply compareValues_opp|apply compareValues_trans].
Qed.

(** [valuesEqual] as a setoid equality. *)
Definition value_equiv (a b : value) : Prop := compareValues a b = Eq.

#[global] Instance value_equiv_equivalence : Equivalence value_equiv.
Proof.
  split.
  - intros a. apply cmp_refl.
  - intros a b. apply cmp_eq_sym. apply _.
  - intros a b c H1 H2. unfold value_equiv in *.
    pose proof (cmp_trans (c:=compareValues) a b c) as H. unfold cmp_trans_at in H.
    by rewrite H1, H2 in H.
Qed.

#[global] Instance compareValues_proper :
  Proper (value_equiv ==> value_equiv ==> eq) compareValues.
Proof.
  assert (H : forall a b c, value_equiv a b -> compareValues a c = compareValues b c).
  { intros a b c Hab. pose proof (cmp_trans (c:=compareValues) a b c) as H.
    unfold cmp_trans_at in H. by rewrite Hab in H. }
  intros a a' Ha b b' Hb. rewrite (H a a' b Ha), (cmp_opp (c:=compareValues) b a').
  rewrite (H b b' a' Hb). by rewrite <- (cmp_opp (c:=compareValues)).
Qed.
