(* ===== verification/ValuesJson.v ===== *)
(** The JSON transport form of values: packages/values/src/json.ts.

    What is read back from JSON is a value JavaScript can build: code units and
    bytes in range, property names distinct and in own-property order.  The
    operations on objects keep that. *)
From Stdlib Require Import ZArith Lia.
From stdpp Require Import base list sets.
From S2P Require Import Prelude JsBase JsText Float64 Values.

(** [JSONValue]. *)
Inductive json :=
  | JNull
  | JBool (b : bool)
  | JNumber (n : number)
  | JString (s : jsstr)
  | JArray (xs : list json)
  | JObject (fs : list (jsstr * json)).

Definition key_integer : jsstr := [36; 105; 110; 116; 101; 103; 101; 114].
Definition key_float : jsstr := [36; 102; 108; 111; 97; 116].
Definition key_bytes : jsstr := [36; 98; 121; 116; 101; 115].

(** [btoa] and [atob] work on strings of code units below 256: the bytes. *)
Definition bytesToBase64 (bs : bytes) : jsstr := btoa bs.
Definition base64ToBytes (b64 : jsstr) : res bytes := atob b64.

Fixpoint int64_bytes (n : nat) (x : Z) : bytes :=
  match n with
  | O => []
  | S n' => Z.land x 255 :: int64_bytes n' (Z.shiftr x 8)
  end.
Definition int64ToBytes (v : Z) : bytes := int64_bytes 8 (v mod 2 ^ 64).

(** [BigInt(undefined)] throws, so a short buffer does. *)
Fixpoint int64_loop (bs : bytes) (n : nat) (x : Z) : res Z :=
  match n with
  | O => Ok x
  | S i => match bs !! i with
           | None => Throw TypeError
           | Some b => int64_loop bs i (Z.lor (Z.shiftl x 8) b)
           end
  end.
Definition as_int64 (x : Z) : Z :=
  let u := x mod 2 ^ 64 in if 2 ^ 63 <=? u then u - 2 ^ 64 else u.
Definition bytesToInt64 (bs : bytes) : res Z :=
  x ← int64_loop bs 8 0; Ok (as_int64 x).

Definition float64ToBytes (n : number) : bytes := le_bytes 8 (f64_bits (num_f n)).
(** A [DataView] of eight bytes on a shorter buffer throws. *)
Definition bytesToFloat64 (bs : bytes) : res number :=
  if (length bs <? 8)%nat then Throw RangeError
  else Ok (num_of_bits (le_value (take 8 bs))).

Definition setObjectKey {T} (obj : list (jsstr * T)) (key : jsstr) (v : T) : list (jsstr * T) :=
  if bool_decide (key = proto_key) then obj_define obj key v else obj_assign obj key v.

Definition escape_key (k : jsstr) : jsstr := if starts_with [36] k then 36 :: k else k.
Definition unescape_key (k : jsstr) : jsstr := if starts_with [36; 36] k then drop 1 k else k.

Section set_entries.
Context {A B : Type} (f : A -> res B) (rename : jsstr -> jsstr).
Fixpoint set_entries (out : list (jsstr * B)) (fs : list (jsstr * A)) : res (list (jsstr * B)) :=
  match fs with
  | [] => Ok out
  | (k, v) :: fs' => v' ← f v; set_entries (setObjectKey out (rename k) v') fs'
  end.
End set_entries.

Fixpoint convexToJson (v : value) : res json :=
  match v with
  | VNull => Ok JNull
  | VBool b => Ok (JBool b)
  | VString s => Ok (JString s)
  | VNumber n =>
      Ok (if f64_is_finite (num_f n) then JNumber n
          else JObject [(key_float, JString (bytesToBase64 (float64ToBytes n)))])
  | VBigint n => Ok (JObject [(key_integer, JString (bytesToBase64 (int64ToBytes n)))])
  | VBytes bs => Ok (JObject [(key_bytes, JString (bytesToBase64 bs))])
  | VArray xs => ys ← traverse convexToJson xs; Ok (JArray ys)
  | VObject fs => out ← set_entries convexToJson escape_key [] fs; Ok (JObject out)
  end.

(** The tagged forms of a one-key object; [None] when it is not one. *)
Definition tagged_value (fs : list (jsstr * json)) : option (res value) :=
  match fs with
  | [(k, JString raw)] =>
      if bool_decide (k = key_integer) then
        Some (bs ← base64ToBytes raw; n ← bytesToInt64 bs; Ok (VBigint n))
      else if bool_decide (k = key_float) then
        Some (bs ← base64ToBytes raw; n ← bytesToFloat64 bs; Ok (VNumber n))
      else if bool_decide (k = key_bytes) then
        Some (bs ← base64ToBytes raw; Ok (VBytes bs))
      else None
  | _ => None
  end.

Fixpoint jsonToConvex (j : json) : res value :=
  match j with
  | JNull => Ok VNull
  | JBool b => Ok (VBool b)
  | JNumber n => Ok (VNumber n)
  | JString s => Ok (VString s)
  | JArray xs => ys ← traverse jsonToConvex xs; Ok (VArray ys)
  | JObject fs =>
      match tagged_value fs with
      | Some r => r
      | None => out ← set_entries jsonToConvex unescape_key [] fs; Ok (VObject out)
      end
  end.

(** * Round trip *)

Lemma int64_bytes_le n x : int64_bytes n x = le_bytes n x.
Proof.
  revert x. induction n as [|n IH]; intros x; [done|]. cbn [int64_bytes le_bytes].
  rewrite IH, Z.shiftr_div_pow2 by lia. f_equal. apply (Z.land_ones x 8). lia.
Qed.

Lemma int64_loop_le bs n x :
  wf_bytes bs -> (n <= length bs)%nat ->
  int64_loop bs n x = Ok (256 ^ Z.of_nat n * x + le_value (take n bs)).
Proof.
  intros Hbs. revert x. induction n as [|n IH]; intros x Hn.
  - cbn [int64_loop]. f_equal. change (x = 1 * x + 0). lia.
  - cbn [int64_loop]. destruct (lookup_lt_is_Some_2 bs n) as [b Hb]; [lia|]. rewrite Hb.
    pose proof (Forall_lookup_1 _ _ _ _ Hbs Hb) as Hbyte.
    rewrite IH, lor_byte by (done || lia). f_equal.
    rewrite (take_S_r _ _ _ Hb).
    assert (Happ : forall l, le_value (l ++ [b]) = le_value l + 256 ^ Z.of_nat (length l) * b).
    { clear. induction l as [|y l IHl]; [simpl; lia|].
      cbn [app le_value length]. rewrite IHl, Nat2Z.inj_succ, Z.pow_succ_r by lia. lia. }
    rewrite Happ, length_take, Nat.min_l, Nat2Z.inj_succ, Z.pow_succ_r by lia. lia.
Qed.

Lemma bytesToInt64_int64ToBytes v : bytesToInt64 (int64ToBytes v) = Ok (as_int64 v).
Proof.
  unfold bytesToInt64, int64ToBytes. rewrite int64_bytes_le.
  rewrite int64_loop_le by (apply le_bytes_wf || by rewrite le_bytes_length).
  cbn [mbind res_bind]. f_equal. unfold as_int64.
  rewrite take_ge by by rewrite le_bytes_length.
  pose proof (Z.mod_pos_bound v (2 ^ 64) ltac:(lia)).
  rewrite le_value_bytes by (change (256 ^ Z.of_nat 8) with (2 ^ 64); done).
  rewrite Z.mul_0_r, Z.add_0_l, Z.mod_mod by lia. done.
Qed.

Lemma as_int64_id v : - 2 ^ 63 <= v < 2 ^ 63 -> as_int64 v = v.
Proof.
  intros Hv. unfold as_int64. destruct (Z.leb_spec (2 ^ 63) (v mod 2 ^ 64));
    Z.div_mod_to_equations; lia.
Qed.

Lemma bytesToFloat64_float64ToBytes n : bytesToFloat64 (float64ToBytes n) = Ok n.
Proof.
  unfold bytesToFloat64, float64ToBytes. rewrite le_bytes_length; simpl Nat.ltb; cbv iota.
  rewrite take_ge by by rewrite le_bytes_length. pose proof (f64_bits_range _ (num_ok n)).
  rewrite le_value_bytes by (change (256 ^ Z.of_nat 8) with (2 ^ 64); done).
  by rewrite num_of_bits_bits.
Qed.

Lemma setObjectKey_define {T} (obj : list (jsstr * T)) k v :
  setObjectKey obj k v = obj_define obj k v.
Proof. unfold setObjectKey. case_bool_decide; [done|]. by apply obj_assign_define. Qed.

Lemma set_entries_traverse {A B} (f : A -> res B) rename out fs ws :
  Forall2 (fun kv w => w.1 = rename kv.1 /\ f kv.2 = Ok w.2) fs ws ->
  NoDup (out ++ ws).*1 -> own_ordered (out ++ ws).*1 = true ->
  set_entries f rename out fs = Ok (out ++ ws).
Proof.
  intros Hf Hn Ho. rewrite <- (fold_define_app out ws Hn Ho). clear Hn Ho.
  revert out. induction Hf as [|[k v] [k' w] fs ws [Hk Hw] _ IH]; intros out; [done|].
  simpl in *. rewrite Hw; simpl. by rewrite IH, setObjectKey_define, Hk.
Qed.

Lemma escape_key_cases k :
  (exists k', k = 36 :: k' /\ escape_key k = 36 :: k) \/
  (escape_key k = k /\ forall k', k <> 36 :: k').
Proof.
  unfold escape_key. destruct k as [|c k]; [by right|]. cbn [starts_with].
  destruct (Z.eqb_spec 36 c) as [<-|Hc]; cbn [andb].
  - left. destruct k; eauto.
  - right. split; [done|]. by intros k' [= -> _].
Qed.

Lemma escape_unescape k : unescape_key (escape_key k) = k.
Proof.
  destruct (escape_key_cases k) as [(k' & -> & ->)|[-> Hk]]; [by destruct k'|].
  unfold unescape_key. destruct k as [|c k]; [done|]. cbn [starts_with].
  destruct (Z.eqb_spec 36 c) as [<-|]; [by destruct (Hk k)|done].
Qed.

Lemma escape_key_index k : array_index (escape_key k) = array_index k.
Proof. by destruct (escape_key_cases k) as [(k' & -> & ->)|[-> _]]. Qed.

Lemma escape_own_ordered ks : own_ordered (escape_key <$> ks) = own_ordered ks.
Proof.
  induction ks as [|k ks IH]; csimpl; [done|]. rewrite IH. f_equal.
  clear IH. induction ks as [|k' ks IH]; csimpl; [done|]. rewrite IH. f_equal.
  unfold key_before. by rewrite !escape_key_index.
Qed.

Lemma escape_nodup ks : NoDup ks -> NoDup (escape_key <$> ks).
Proof.
  apply NoDup_fmap_2. intros k1 k2 H. rewrite <- (escape_unescape k1), H. apply escape_unescape.
Qed.

Lemma escape_not_tag k c : escape_key k = 36 :: c -> exists d, c = 36 :: d.
Proof.
  destruct (escape_key_cases k) as [(k' & -> & ->)|[-> Hk]].
  - intros [= <-]. eauto.
  - intros ->. by destruct (Hk c).
Qed.

(** Bigints within the [int64] the value model promises. *)
Fixpoint int64_value (v : value) : bool :=
  match v with
  | VBigint n => (- 2 ^ 63 <=? n) && (n <? 2 ^ 63)
  | VArray xs => forallb int64_value xs
  | VObject fs => forallb (fun kv => int64_value kv.2) fs
  | _ => true
  end.

Definition roundtrips (v : value) : Prop :=
  exists j, convexToJson v = Ok j /\ jsonToConvex j = Ok v.

Lemma bytes_roundtrip bs : wf_bytes bs -> base64ToBytes (bytesToBase64 bs) = Ok bs.
Proof. apply atob_btoa. Qed.

Lemma jsonToConvex_integer raw :
  jsonToConvex (JObject [(key_integer, JString raw)]) =
  (bs ← base64ToBytes raw; n ← bytesToInt64 bs; Ok (VBigint n)).
Proof. done. Qed.

Lemma jsonToConvex_float raw :
  jsonToConvex (JObject [(key_float, JString raw)]) =
  (bs ← base64ToBytes raw; n ← bytesToFloat64 bs; Ok (VNumber n)).
Proof. done. Qed.

Lemma jsonToConvex_bytes raw :
  jsonToConvex (JObject [(key_bytes, JString raw)]) =
  (bs ← base64ToBytes raw; Ok (VBytes bs)).
Proof. done. Qed.

Lemma bigint_json_decode n :
  jsonToConvex (JObject [(key_integer, JString (bytesToBase64 (int64ToBytes n)))]) =
  Ok (VBigint (as_int64 n)).
Proof.
  rewrite jsonToConvex_integer, bytes_roundtrip
    by (unfold int64ToBytes; rewrite int64_bytes_le; apply le_bytes_wf).
  by rewrite bind_Ok, bytesToInt64_int64ToBytes, bind_Ok.
Qed.

Lemma float_json_decode n :
  jsonToConvex (JObject [(key_float, JString (bytesToBase64 (float64ToBytes n)))]) = Ok (VNumber n).
Proof.
  rewrite jsonToConvex_float, bytes_roundtrip by apply le_bytes_wf.
  by rewrite bind_Ok, bytesToFloat64_float64ToBytes, bind_Ok.
Qed.

Lemma bytes_json_decode bs :
  wf_bytes bs -> jsonToConvex (JObject [(key_bytes, JString (bytesToBase64 bs))]) = Ok (VBytes bs).
Proof. intros Hbs. by rewrite jsonToConvex_bytes, bytes_roundtrip. Qed.

Lemma array_roundtrip xs : Forall roundtrips xs -> roundtrips (VArray xs).
Proof.
  intros [ys Hy]%Forall_exists_Forall2_l. exists (JArray ys). simpl. split.
  - rewrite (proj2 (traverse_Forall2 convexToJson xs ys)); [done|].
    eapply Forall2_impl; [exact Hy|]. by intros x y [? _].
  - rewrite (proj2 (traverse_Forall2 jsonToConvex ys xs)); [done|].
    apply Forall2_flip. eapply Forall2_impl; [exact Hy|]. by intros x y [_ ?].
Qed.

(** Escaped keys are never one of the type tags. *)
Lemma tagged_value_escaped fs :
  Forall (fun kv => exists k, kv.1 = escape_key k) fs -> tagged_value fs = None.
Proof.
  intros H. destruct fs as [|[k j] [|]]; [done| |by destruct j].
  apply Forall_cons in H as [[k0 Hk] _]. simpl in Hk. destruct j; try done.
  assert (Hne : forall c, hd 0 c <> 36 -> k <> 36 :: c).
  { intros c Hc ->. destruct (escape_not_tag k0 c (eq_sym Hk)) as [d ->]. done. }
  unfold tagged_value.
  rewrite !bool_decide_false; [done|by apply Hne..].
Qed.

Lemma object_roundtrip fs :
  NoDup fs.*1 -> own_ordered fs.*1 = true -> Forall (fun kv => roundtrips kv.2) fs ->
  roundtrips (VObject fs).
Proof.
  intros Hn Ho H.
  assert (Hex : Forall (fun kv : jsstr * value => exists w : jsstr * json, w.1 = escape_key kv.1 /\
            convexToJson kv.2 = Ok w.2 /\ jsonToConvex w.2 = Ok kv.2) fs).
  { eapply Forall_impl; [exact H|]. intros [k v] (j & ? & ?). by exists (escape_key k, j). }
  apply Forall_exists_Forall2_l in Hex as [ws Hw].
  assert (Hk : ws.*1 = escape_key <$> fs.*1).
  { clear -Hw. induction Hw as [|kv w fs ws (Hk & _) _ IH]; csimpl; [done|]. by rewrite Hk, IH. }
  exists (JObject ws). cbn [convexToJson jsonToConvex]. split.
  - rewrite (set_entries_traverse _ _ [] fs ws); [done| |simpl; rewrite Hk..].
    + eapply Forall2_impl; [exact Hw|]. naive_solver.
    + by apply escape_nodup.
    + by rewrite escape_own_ordered.
  - rewrite tagged_value_escaped.
    + rewrite (set_entries_traverse _ _ [] ws fs); [done| |done..].
      apply Forall2_flip. eapply Forall2_impl; [exact Hw|].
      intros [k v] [k' j] (-> & _ & ?). simpl. by rewrite escape_unescape.
    + clear -Hw. induction Hw as [|kv w fs ws (Hk & _) _ IH]; constructor; eauto.
Qed.

Lemma value_roundtrips v : wf_value v -> int64_value v = true -> roundtrips v.
Proof.
  induction v as [|b|n|n|s|bs|xs IH|fs IH] using value_ind'; intros Hw Hi.
  - by exists JNull.
  - by exists (JBool b).
  - cbn [convexToJson]. unfold roundtrips. cbn [convexToJson].
    destruct (f64_is_finite (num_f n)); eexists; (split; [done|]); [done|apply float_json_decode].
  - simpl in Hi. apply andb_true_iff in Hi as [H1 H2]. zbool. eexists. split; [done|].
    rewrite bigint_json_decode. by rewrite as_int64_id.
  - by exists (JString s).
  - eexists. split; [done|]. by apply bytes_json_decode.
  - apply wf_array in Hw. cbn [int64_value] in Hi. rewrite forallb_forall in Hi.
    apply array_roundtrip. rewrite !Forall_forall in *. intros x Hx.
    apply IH; [done|by apply Hw|]. apply Hi. by apply list_elem_of_In.
  - apply wf_object in Hw as (Hn & Ho & Hw). cbn [int64_value] in Hi.
    rewrite forallb_forall in Hi. apply object_roundtrip; [done|done|].
    rewrite !Forall_forall in *. intros kv Hkv.
    apply IH; [done|by apply Hw|]. apply Hi. by apply list_elem_of_In.
Qed.

(** C40: encoding any value with int64 bigints to JSON succeeds, and decoding
    the result gives that value back, keys starting with "$", non-finite
    floats, negative zero and ["__proto__"] fields included. *)
Theorem convexToJson_roundtrip v :
  wf_value v -> int64_value v = true ->
  exists j, convexToJson v = Ok j /\ jsonToConvex j = Ok v.
Proof. apply value_roundtrips. Qed.

Lemma convexToJson_roundtrip_witness :
  let v := VObject [(key_integer, VString [65]); (proto_key, VArray [VNumber num_nan; VBigint (-1)])] in
  exists j, convexToJson v = Ok j /\ jsonToConvex j = Ok v.
Proof.
  intros v. apply (convexToJson_roundtrip v); [|reflexivity].
  cbn [wf_value v fold_right]. split_and!; try done.
  - apply (bool_decide_unpack _). by vm_compute.
  - repeat constructor; cbv; intuition discriminate.
  - repeat constructor; cbv; intuition discriminate.
  - repeat constructor; cbv; intuition discriminate.
Defined.

(** A bigint outside the signed 64-bit range is not rejected: it comes
    back from JSON reduced modulo [2^64]. *)
Theorem convexToJson_bigint_wraps n :
  exists j, convexToJson (VBigint n) = Ok j /\ jsonToConvex j = Ok (VBigint (as_int64 n)).
Proof. eexists. split; [done|]. apply bigint_json_decode. Qed.

(** * Own-property order *)

Lemma jm_has_in {V} (o : list (jsstr * V)) k : jm_has o k = true <-> k ∈ o.*1.
Proof.
  unfold jm_has. destruct (jm_get o k) as [v|] eqn:E.
  - split; [intros _|done]. apply jm_get_Some_in in E. by apply (list_elem_of_fmap_2 fst _ (k, v)).
  - apply jm_get_None in E. by split.
Qed.
Lemma jm_has_not_in {V} (o : list (jsstr * V)) k : jm_has o k = false <-> k ∉ o.*1.
Proof. by rewrite <-jm_has_in, not_true_iff_false. Qed.

Lemma array_index_text k i : array_index k = Some i -> js_string_of i = k.
Proof.
  unfold array_index. destruct k as [|c k]; [done|]. destruct (forallb _ _); [|done]. cbv zeta.
  destruct (bool_decide _) eqn:E; [|done]. apply bool_decide_eq_true in E. cbn [andb]. case_match; [|done]. by intros [= <-].
Qed.
Lemma array_index_inj k k' i : array_index k = Some i -> array_index k' = Some i -> k = k'.
Proof. by intros <-%array_index_text <-%array_index_text. Qed.

Section objects.
Context {V : Type}.
Implicit Types o : list (jsstr * V).

Lemma key_before_plain k k' : array_index k' = None -> key_before k k' = true.
Proof. intros H. unfold key_before. rewrite H. by destruct (array_index k). Qed.

Lemma insert_index_keys o i k v x : x ∈ (obj_insert_index o i k v).*1 <-> x = k \/ x ∈ o.*1.
Proof.
  induction o as [|[k' v'] o IH]; csimpl; [set_solver|].
  repeat case_match; csimpl; rewrite ?elem_of_cons, ?IH; tauto.
Qed.

Lemma insert_index_ordered o i k v : array_index k = Some i -> k ∉ o.*1 -> own_ordered o.*1 = true ->
  own_ordered (obj_insert_index o i k v).*1 = true.
Proof.
  intros Hi. induction o as [|[k' v'] o IH]; csimpl; [done|]. intros [Hne Hk]%not_elem_of_cons [Ho1 Ho2]%andb_prop.
  assert (Hfront : forall j, array_index k' = Some j -> i < j -> forallb (key_before k) o.*1 = true).
  { intros j Hj Hij. apply forallb_forall. intros x Hx. rewrite forallb_forall in Ho1. specialize (Ho1 x Hx). revert Ho1.
    unfold key_before. rewrite Hi, Hj. destruct (array_index x); [|done]. intros. zbool. lia. }
  destruct (array_index k') as [j|] eqn:Hj.
  - destruct (i <? j) eqn:E; csimpl.
    + zbool. rewrite Ho1, Ho2, (Hfront j) by done. unfold key_before. rewrite Hi, Hj. rewrite (proj2 (Z.ltb_lt _ _)); [done|lia].
    + zbool. rewrite IH by done. rewrite andb_true_r. apply forallb_forall. intros x Hx%list_elem_of_In%insert_index_keys.
      destruct Hx as [->|Hx]; [|rewrite forallb_forall in Ho1; by apply Ho1, list_elem_of_In].
      unfold key_before. rewrite Hi, Hj. apply Z.ltb_lt. assert (i <> j) by (intros ->; by apply Hne, (array_index_inj k k' j)). lia.
  - csimpl. rewrite Ho1, Ho2. rewrite !andb_true_r. apply andb_true_intro. split.
    + unfold key_before. by rewrite Hi, Hj.
    + apply forallb_forall. intros x Hx. rewrite forallb_forall in Ho1. specialize (Ho1 x Hx). revert Ho1.
      unfold key_before. rewrite Hi, Hj. by destruct (array_index x).
Qed.

Lemma insert_index_nodup o i k v : k ∉ o.*1 -> NoDup o.*1 -> NoDup (obj_insert_index o i k v).*1.
Proof.
  induction o as [|[k' v'] o IH]; csimpl; [intros _ _; apply NoDup_singleton|].
  intros [Hne Hk]%not_elem_of_cons Hn. pose proof Hn as [H1 H2]%NoDup_cons.
  assert (Hd : NoDup (k :: k' :: o.*1)) by (apply NoDup_cons; split; [set_solver|done]).
  destruct (array_index k') as [j|]; [destruct (i <? j); [exact Hd|]|exact Hd].
  csimpl. apply NoDup_cons. split; [|by apply IH]. rewrite insert_index_keys. naive_solver.
Qed.

Definition wf_obj o : Prop := NoDup o.*1 /\ own_ordered o.*1 = true.

Lemma wf_obj_define o k v : wf_obj o -> wf_obj (obj_define o k v).
Proof.
  intros [Hn Ho]. unfold obj_define. destruct (jm_has o k) eqn:E.
  - assert (Hk : k ∈ jm_keys o) by by apply jm_has_in. split.
    + by apply jm_nodup_set.
    + change ((jm_set o k v).*1) with (jm_keys (jm_set o k v)). rewrite jm_keys_set, decide_True by done. exact Ho.
  - assert (Hk : k ∉ o.*1) by by apply jm_has_not_in.
    destruct (array_index k) as [i|] eqn:Ei; [split; [by apply insert_index_nodup|by apply insert_index_ordered]|].
    split; rewrite fmap_app; csimpl.
    + apply NoDup_app. split_and!; [done|set_solver|apply NoDup_singleton].
    + apply own_ordered_app. split_and!; [done|done|]. apply Forall_true. intros x. repeat constructor. by apply key_before_plain.
Qed.
End objects.

(** * Values *)

Lemma wf_object_iff fs : wf_value (VObject fs) <-> wf_obj fs /\ Forall (fun kv => wf_str kv.1 /\ wf_value kv.2) fs.
Proof. rewrite wf_object. unfold wf_obj. tauto. Qed.

Section entries.
Context {V : Type} (P : jsstr * V -> Prop).

Lemma Forall_define o k v : Forall P o -> P (k, v) -> Forall P (obj_define o k v).
Proof.
  intros Ho Hk. unfold obj_define. destruct (jm_has o k).
  - induction Ho as [|[k' v'] o Hx Ho IH]; cbn [jm_set]; [by repeat constructor|]. case_decide; by constructor.
  - destruct (array_index k) as [i|]; [|apply Forall_app; by split; [|repeat constructor]].
    induction Ho as [|[k' v'] o Hx Ho IH]; cbn [obj_insert_index]; [by repeat constructor|].
    repeat case_match; repeat constructor; done.
Qed.
End entries.

Lemma wf_object_define fs k v : wf_value (VObject fs) -> wf_str k -> wf_value v -> wf_value (VObject (obj_define fs k v)).
Proof.
  rewrite !wf_object_iff. intros [Ho Hf] Hk Hv. split; [by apply wf_obj_define|by apply Forall_define].
Qed.

Lemma own_ordered_filter (P : jsstr -> Prop) `{!forall x, Decision (P x)} ks : own_ordered ks = true -> own_ordered (base.filter P ks) = true.
Proof.
  induction ks as [|k ks IH]; [done|]. cbn [own_ordered]. intros [H1 H2]%andb_prop. rewrite filter_cons. case_decide; [|by apply IH].
  cbn [own_ordered]. rewrite IH by done. rewrite andb_true_r. rewrite forallb_forall in H1. apply forallb_forall.
  intros x Hx%list_elem_of_In. apply H1. apply list_elem_of_filter in Hx as [_ Hx]. by apply list_elem_of_In.
Qed.

Lemma delete_keys {V} (fs : list (jsstr * V)) k : (jm_delete fs k).*1 = base.filter (fun x => x <> k) fs.*1.
Proof.
  unfold jm_delete. induction fs as [|[k' v] fs IH]; [done|]. csimpl. rewrite !filter_cons. cbn [fst].
  repeat case_decide; csimpl; by rewrite ?IH.
Qed.

Lemma wf_object_delete fs k : wf_value (VObject fs) -> wf_value (VObject (jm_delete fs k)).
Proof.
  rewrite !wf_object_iff. unfold wf_obj. rewrite delete_keys. intros [[Hn Ho] Hf]. split_and!.
  - by apply NoDup_filter.
  - by apply own_ordered_filter.
  - rewrite Forall_forall in *. intros kv [_ Hin]%list_elem_of_filter. by apply Hf.
Qed.

(** * Reading JSON *)

Fixpoint wf_json (j : json) : Prop :=
  match j with
  | JString s => wf_str s
  | JArray xs => fold_right (fun x acc => wf_json x /\ acc) True xs
  | JObject fs => fold_right (fun kv acc => (wf_str kv.1 /\ wf_json kv.2) /\ acc) True fs
  | _ => True
  end.

Lemma b64_digit_range c v : b64_digit c = Some v -> 0 <= v < 64.
Proof.
  unfold b64_digit. repeat (match goal with |- context [if ?b then _ else _] => destruct b eqn:? end); try done; intros [= <-];
    repeat match goal with H : _ = false |- _ => clear H end; zbool; lia.
Qed.

Lemma b64_unsextets_wf vs : Forall (fun v => 0 <= v < 64) vs -> wf_bytes (b64_unsextets vs).
Proof.
  assert (H : forall n vs, (length vs <= n)%nat -> Forall (fun v => 0 <= v < 64) vs -> wf_bytes (b64_unsextets vs)); [|by eauto].
  clear vs. induction n as [|n IH]; intros vs Hn Hv; [by destruct vs; [constructor|cbn in Hn; lia]|].
  destruct vs as [|a [|b [|c [|d vs]]]]; cbn [b64_unsextets]; rewrite ?Forall_cons in Hv;
    repeat (apply Forall_cons; split; [unfold is_byte; Z.div_mod_to_equations; lia|]); try apply Forall_nil_2.
  apply IH; [cbn in Hn; lia|tauto].
Qed.

Lemma traverse_Forall {A B} (f : A -> res B) (P : B -> Prop) l l' :
  (forall x y, x ∈ l -> f x = Ok y -> P y) -> traverse f l = Ok l' -> Forall P l'.
Proof.
  revert l'. induction l as [|x l IH]; intros l' Hf; cbn [traverse]; [by intros [= <-]|].
  destruct (f x) as [y|] eqn:Ex; [|done]. rewrite bind_Ok. destruct (traverse f l) as [ys|]; [|done]. rewrite bind_Ok. intros [= <-].
  constructor; [by apply (Hf x); [apply list_elem_of_here|]|]. apply IH; [|done]. intros a b Ha. by apply Hf, list_elem_of_further.
Qed.

Lemma atob_wf s bs : atob s = Ok bs -> wf_bytes bs.
Proof.
  unfold atob. cbv zeta. destruct (Nat.eqb _ 1); [done|]. destruct (traverse _ _) as [vs|] eqn:E; [|done]. rewrite bind_Ok. intros [= <-].
  apply b64_unsextets_wf. eapply traverse_Forall; [|exact E]. intros c v _. cbv beta. destruct (b64_digit c) eqn:Ec; [|done].
  intros [= <-]. by eapply b64_digit_range.
Qed.

Lemma tagged_value_wf fs r v : tagged_value fs = Some r -> r = Ok v -> wf_value v.
Proof.
  unfold tagged_value, base64ToBytes. destruct fs as [|[k [| | |raw| |]] [|]]; try done.
  repeat case_bool_decide; intros [= <-]; destruct (atob raw) as [bs|] eqn:E; rewrite ?bind_Ok; try done.
  - by destruct (bytesToInt64 bs); rewrite ?bind_Ok; intros [= <-].
  - by destruct (bytesToFloat64 bs); rewrite ?bind_Ok; intros [= <-].
  - intros [= <-]. by eapply atob_wf.
Qed.

Lemma bind_res_ok {A B} (r : res A) (f : A -> res B) y : r ≫= f = Ok y -> exists x, r = Ok x /\ f x = Ok y.
Proof. destruct r as [x|e]; [|done]. rewrite bind_Ok. eauto. Qed.

Lemma wf_str_unescape k : wf_str k -> wf_str (unescape_key k).
Proof. intros Hk. unfold unescape_key. case_match; [by apply Forall_drop|done]. Qed.

Section json_ind.
Variable P : json -> Prop.
Hypothesis Hflat : forall j, match j with JArray _ | JObject _ => False | _ => True end -> P j.
Hypothesis Harray : forall xs, Forall P xs -> P (JArray xs).
Hypothesis Hobject : forall fs, Forall (fun kv => P kv.2) fs -> P (JObject fs).

Fixpoint json_ind' (j : json) : P j :=
  match j with
  | JArray xs => Harray xs ((fix go l : Forall P l :=
      match l with [] => Forall_nil_2 _ | x :: l' => Forall_cons_2 _ _ _ (json_ind' x) (go l') end) xs)
  | JObject fs => Hobject fs ((fix go l : Forall (fun kv => P kv.2) l :=
      match l with [] => Forall_nil_2 _ | kv :: l' => Forall_cons_2 _ kv _ (json_ind' kv.2) (go l') end) fs)
  | j => Hflat j I
  end.
End json_ind.

(** Whatever parsed JSON holds, the value read from it is well formed. *)
Lemma jsonToConvex_wf j v : wf_json j -> jsonToConvex j = Ok v -> wf_value v.
Proof.
  revert v. induction j as [j Hj|xs IH|fs IH] using json_ind'; intros v Hw.
  - destruct j; try done; intros [= <-]; exact Hw.
  - cbn [jsonToConvex wf_json] in *. rewrite (fold_and_Forall wf_json) in Hw. intros (ys & E & [= <-])%bind_res_ok.
    apply wf_array. eapply traverse_Forall; [|exact E]. intros x y Hx Hy. rewrite Forall_forall in IH, Hw. by eapply IH; [| |exact Hy]; auto.
  - cbn [jsonToConvex wf_json] in *. rewrite (fold_and_Forall (fun kv => wf_str kv.1 /\ wf_json kv.2)) in Hw.
    destruct (tagged_value fs) as [r|] eqn:Et; [by intros H; eapply tagged_value_wf|].
    intros (out & E & [= <-])%bind_res_ok. clear Et. assert (H0 : wf_value (VObject [])) by (apply wf_object; repeat constructor).
    revert E H0. generalize (@nil (jsstr * value)) as o. induction IH as [|[k j] fs Hj _ IH]; intros o; cbn [set_entries]; [by intros [= <-]|].
    apply Forall_cons in Hw as [[Hk Hjw] Hw]. intros (x & Ex & E)%bind_res_ok. intros Ho. eapply IH; [done|exact E|].
    rewrite setObjectKey_define. apply wf_object_define; [done|by apply wf_str_unescape|]. by apply Hj.
Qed.
