(* ===== verification/Validators.v ===== *)
(** Runtime validators, their JSON form and the schema builder:
    packages/values/src/validator.ts, validator-from-json.ts and schema.ts. *)
From Stdlib Require Import ZArith Lia.
From stdpp Require Import base list sets strings.
From S2P Require Import Prelude JsBase JsText Float64 Values ValuesJson.

(** One constructor per validator class. *)
Inductive validator :=
  | NullValidator
  | BooleanValidator
  | Float64Validator
  | Int64Validator
  | StringValidator
  | BytesValidator
  | AnyValidatorImpl
  | IdValidator (tableName : jsstr)
  | LiteralValidator (lit : value)
  | ArrayValidator (element : validator)
  | RecordValidator (keys values : validator)
  | UnionValidator (members : list validator)
  | OptionalValidator (inner : validator)
  | ObjectValidator (fields : list (jsstr * validator)).

(** The message templates, with what each interpolates. *)
Inductive message :=
  | ExpectedNull | ExpectedBoolean | ExpectedNumber | ExpectedBigint | ExpectedString
  | ExpectedBytes | ExpectedId (tableName : jsstr) | ExpectedLiteral (lit : value)
  | ExpectedArray | ExpectedRecord | NoUnionMember | ExpectedObject
  | MissingField | ExtraField.

Record failure := Failure { path : jsstr; msg : message }.

(** ["<root>"]. *)
Definition root_path : jsstr := [60; 114; 111; 111; 116; 62].
Definition path_or_root (p : jsstr) : jsstr := match p with [] => root_path | _ => p end.
Definition joinPath (p key : jsstr) : jsstr := match p with [] => key | _ => p ++ [46] ++ key end.
Definition indexPath (p : jsstr) (i : nat) : jsstr :=
  path_or_root p ++ [91] ++ js_string_of (Z.of_nat i) ++ [93].

Definition isOptional (va : validator) : bool :=
  match va with OptionalValidator _ => true | _ => false end.

(** [if (!ok) out.push({ path: path || "<root>", message })]. *)
Definition expect (ok : bool) (p : jsstr) (m : message) (out : list failure) : list failure :=
  if ok then out else out ++ [Failure (path_or_root p) m].

Section check_loops.
Context {A : Type} (chk : value -> jsstr -> list failure -> list failure).
Fixpoint check_elements (p : jsstr) (i : nat) (xs : list value) (out : list failure) :=
  match xs with
  | [] => out
  | x :: xs' => check_elements p (S i) xs' (chk x (indexPath p i) out)
  end.
End check_loops.

(** The body of the loop over an object validator's fields. *)
Definition check_field (chk : value -> jsstr -> list failure -> list failure) (optional : bool)
    (o : list (jsstr * value)) (p key : jsstr) (out : list failure) : list failure :=
  match jm_get o key with
  | None => if optional then out else out ++ [Failure (joinPath p key) MissingField]
  | Some x => chk x (joinPath p key) out
  end.

Fixpoint check (va : validator) (v : value) (p : jsstr) (out : list failure) {struct va}
  : list failure :=
  match va with
  | NullValidator => expect (match v with VNull => true | _ => false end) p ExpectedNull out
  | BooleanValidator => expect (match v with VBool _ => true | _ => false end) p ExpectedBoolean out
  | Float64Validator => expect (match v with VNumber _ => true | _ => false end) p ExpectedNumber out
  | Int64Validator => expect (match v with VBigint _ => true | _ => false end) p ExpectedBigint out
  | StringValidator => expect (match v with VString _ => true | _ => false end) p ExpectedString out
  | BytesValidator => expect (match v with VBytes _ => true | _ => false end) p ExpectedBytes out
  | AnyValidatorImpl => out
  | IdValidator t => expect (match v with VString _ => true | _ => false end) p (ExpectedId t) out
  | LiteralValidator lit => expect (valuesEqual v lit) p (ExpectedLiteral lit) out
  | ArrayValidator element =>
      match v with
      | VArray xs => check_elements (check element) p 0 xs out
      | _ => expect false p ExpectedArray out
      end
  | RecordValidator keys values =>
      match v with
      | VObject fs =>
          fold_left (fun out kv =>
            check values kv.2 (joinPath p kv.1)
              (check keys (VString kv.1) (joinPath p kv.1) out)) fs out
      | _ => expect false p ExpectedRecord out
      end
  | UnionValidator members =>
      if existsb (fun m => match check m v p [] with [] => true | _ => false end) members
      then out else expect false p NoUnionMember out
  | OptionalValidator inner => check inner v p out
  | ObjectValidator fields =>
      match v with
      | VObject fs =>
          let out1 := fold_left (fun out (kf : jsstr * validator) =>
            check_field (check kf.2) (isOptional kf.2) fs p kf.1 out) fields out in
          fold_left (fun out key =>
            if jm_has fields key then out else out ++ [Failure (joinPath p key) ExtraField])
            (jm_keys fs) out1
      | _ => expect false p ExpectedObject out
      end
  end.

Definition validate (va : validator) (v : value) : list failure := check va v [] [].
Definition isValid (va : validator) (v : value) : bool :=
  match validate va v with [] => true | _ => false end.

(** [ValidatorJSON]. *)
Inductive validator_json :=
  | JvNull | JvBoolean | JvNumber | JvBigint | JvString | JvBytes | JvAny
  | JvLiteral (v : json)
  | JvId (tableName : jsstr)
  | JvArray (v : validator_json)
  | JvRecord (keys values : validator_json)
  | JvUnion (vs : list validator_json)
  | JvObject (fields : list (jsstr * (validator_json * bool))).

Section assign_entries.
Context {A B : Type} (f : jsstr * A -> res B).
Fixpoint assign_entries (out : list (jsstr * B)) (fs : list (jsstr * A)) : res (list (jsstr * B)) :=
  match fs with
  | [] => Ok out
  | kv :: fs' => b ← f kv; assign_entries (obj_assign out kv.1 b) fs'
  end.
End assign_entries.

Fixpoint toJSON (va : validator) : res validator_json :=
  match va with
  | NullValidator => Ok JvNull
  | BooleanValidator => Ok JvBoolean
  | Float64Validator => Ok JvNumber
  | Int64Validator => Ok JvBigint
  | StringValidator => Ok JvString
  | BytesValidator => Ok JvBytes
  | AnyValidatorImpl => Ok JvAny
  | IdValidator t => Ok (JvId t)
  | LiteralValidator lit => j ← convexToJson lit; Ok (JvLiteral j)
  | ArrayValidator e => j ← toJSON e; Ok (JvArray j)
  | RecordValidator k v => jk ← toJSON k; jv ← toJSON v; Ok (JvRecord jk jv)
  | UnionValidator ms => js ← traverse toJSON ms; Ok (JvUnion js)
  | OptionalValidator inner => toJSON inner
  | ObjectValidator fields =>
      out ← assign_entries (fun kf : jsstr * validator => j ← toJSON kf.2; Ok (j, isOptional kf.2)) [] fields;
      Ok (JvObject out)
  end.

Fixpoint validatorFromJson (j : validator_json) : res validator :=
  match j with
  | JvNull => Ok NullValidator
  | JvBoolean => Ok BooleanValidator
  | JvNumber => Ok Float64Validator
  | JvBigint => Ok Int64Validator
  | JvString => Ok StringValidator
  | JvBytes => Ok BytesValidator
  | JvAny => Ok AnyValidatorImpl
  | JvId t => Ok (IdValidator t)
  | JvLiteral lit => v ← jsonToConvex lit; Ok (LiteralValidator v)
  | JvArray v => e ← validatorFromJson v; Ok (ArrayValidator e)
  | JvRecord k v => k' ← validatorFromJson k; v' ← validatorFromJson v; Ok (RecordValidator k' v')
  | JvUnion vs => ms ← traverse validatorFromJson vs; Ok (UnionValidator ms)
  | JvObject fields =>
      out ← assign_entries (fun kf : jsstr * (validator_json * bool) =>
               inner ← validatorFromJson kf.2.1;
               Ok (if kf.2.2 then OptionalValidator inner else inner)) [] fields;
      Ok (ObjectValidator out)
  end.

(** * Checking is typing *)

Definition is_leaf (va : validator) : bool :=
  match va with
  | ArrayValidator _ | RecordValidator _ _ | UnionValidator _ | OptionalValidator _
  | ObjectValidator _ => false
  | _ => true
  end.

Section validator_ind.
Variable P : validator -> Prop.
Hypothesis Hleaf : forall va, is_leaf va = true -> P va.
Hypothesis Harray : forall e, P e -> P (ArrayValidator e).
Hypothesis Hrecord : forall k v, P k -> P v -> P (RecordValidator k v).
Hypothesis Hunion : forall ms, Forall P ms -> P (UnionValidator ms).
Hypothesis Hoptional : forall i, P i -> P (OptionalValidator i).
Hypothesis Hobject : forall fs, Forall (fun kf => P kf.2) fs -> P (ObjectValidator fs).

Fixpoint validator_ind' (va : validator) : P va :=
  match va with
  | ArrayValidator e => Harray e (validator_ind' e)
  | RecordValidator k v => Hrecord k v (validator_ind' k) (validator_ind' v)
  | UnionValidator ms =>
      Hunion ms ((fix go l : Forall P l :=
        match l with
        | [] => Forall_nil_2 _
        | m :: l' => Forall_cons_2 _ _ _ (validator_ind' m) (go l')
        end) ms)
  | OptionalValidator i => Hoptional i (validator_ind' i)
  | ObjectValidator fs =>
      Hobject fs ((fix go l : Forall (fun kf => P kf.2) l :=
        match l with
        | [] => Forall_nil_2 _
        | kf :: l' => Forall_cons_2 _ kf _ (validator_ind' kf.2) (go l')
        end) fs)
  | IdValidator t => Hleaf (IdValidator t) eq_refl
  | LiteralValidator l => Hleaf (LiteralValidator l) eq_refl
  | NullValidator => Hleaf NullValidator eq_refl
  | BooleanValidator => Hleaf BooleanValidator eq_refl
  | Float64Validator => Hleaf Float64Validator eq_refl
  | Int64Validator => Hleaf Int64Validator eq_refl
  | StringValidator => Hleaf StringValidator eq_refl
  | BytesValidator => Hleaf BytesValidator eq_refl
  | AnyValidatorImpl => Hleaf AnyValidatorImpl eq_refl
  end.
End validator_ind.

(** What a validator accepts. *)
Inductive accepts : validator -> value -> Prop :=
  | acc_null : accepts NullValidator VNull
  | acc_boolean b : accepts BooleanValidator (VBool b)
  | acc_number n : accepts Float64Validator (VNumber n)
  | acc_bigint n : accepts Int64Validator (VBigint n)
  | acc_string s : accepts StringValidator (VString s)
  | acc_bytes bs : accepts BytesValidator (VBytes bs)
  | acc_any v : accepts AnyValidatorImpl v
  | acc_id t s : accepts (IdValidator t) (VString s)
  | acc_literal lit v : compareValues v lit = Eq -> accepts (LiteralValidator lit) v
  | acc_array e xs : Forall (accepts e) xs -> accepts (ArrayValidator e) (VArray xs)
  | acc_record k w fs :
      Forall (fun kv => accepts k (VString kv.1) /\ accepts w kv.2) fs ->
      accepts (RecordValidator k w) (VObject fs)
  | acc_union ms m v : m ∈ ms -> accepts m v -> accepts (UnionValidator ms) v
  | acc_optional i v : accepts i v -> accepts (OptionalValidator i) v
  | acc_object fields fs :
      Forall (fun kf => (jm_get fs kf.1 = None /\ isOptional kf.2 = true) \/
                        exists x, jm_get fs kf.1 = Some x /\ accepts kf.2 x) fields ->
      Forall (fun k => k ∈ jm_keys fields) (jm_keys fs) ->
      accepts (ObjectValidator fields) (VObject fs).

(** Checks only append; and whether they append does not depend on what was
    there nor on the path. *)
Definition clean (f : list failure -> list failure) (P : Prop) : Prop :=
  forall out, exists new, f out = out ++ new /\ (new = [] <-> P).

Lemma clean_id : clean (fun out => out) True.
Proof. intros out. exists []. by rewrite app_nil_r. Qed.

Lemma clean_iff f P Q : clean f P -> (P <-> Q) -> clean f Q.
Proof. intros H HPQ out. destruct (H out) as (new & ? & ?). exists new. by rewrite <- HPQ. Qed.

Lemma clean_comp f g P Q : clean f P -> clean g Q -> clean (fun out => g (f out)) (P /\ Q).
Proof.
  intros Hf Hg out. destruct (Hf out) as (n1 & H1 & E1).
  destruct (Hg (f out)) as (n2 & H2 & E2). exists (n1 ++ n2).
  rewrite H2, H1, app_assoc. split; [done|]. rewrite <- E1, <- E2. apply app_nil.
Qed.

Lemma clean_expect ok p m P : (ok = true <-> P) -> clean (expect ok p m) P.
Proof.
  intros H out. unfold expect. destruct ok.
  - exists []. rewrite app_nil_r. naive_solver.
  - exists [Failure (path_or_root p) m]. naive_solver.
Qed.

Lemma clean_push x : clean (fun out => out ++ [x]) False.
Proof. intros out. exists [x]. naive_solver. Qed.

Lemma clean_fold {A} (step : list failure -> A -> list failure) (P : A -> Prop) l :
  Forall (fun a => clean (fun out => step out a) (P a)) l ->
  clean (fun out => fold_left step l out) (Forall P l).
Proof.
  induction 1 as [|a l Ha _ IH]; simpl.
  - eapply clean_iff; [apply clean_id|]. by rewrite Forall_nil.
  - eapply clean_iff; [exact (clean_comp _ _ _ _ Ha IH)|]. by rewrite Forall_cons.
Qed.

Lemma clean_elements chk (P : value -> Prop) p i xs :
  (forall x q, clean (chk x q) (P x)) -> clean (check_elements chk p i xs) (Forall P xs).
Proof.
  intros H. revert i. induction xs as [|x xs IH]; intros i; cbn [check_elements].
  - eapply clean_iff; [apply clean_id|]. by rewrite Forall_nil.
  - eapply clean_iff; [exact (clean_comp _ _ _ _ (H x (indexPath p i)) (IH (S i)))|].
    by rewrite Forall_cons.
Qed.

Lemma clean_nil f P : clean f P -> (f [] = [] <-> P).
Proof. intros H. destruct (H []) as (new & -> & <-). done. Qed.

(** Inverting [accepts] at a leaf or at a mismatched value. *)
Ltac leaf := apply clean_expect; split; [by intros; simplify_eq; eauto using accepts|by inversion 1].

Lemma clean_field (o : list (jsstr * value)) p (kf : jsstr * validator) :
  (forall v q, clean (check kf.2 v q) (accepts kf.2 v)) ->
  clean (check_field (check kf.2) (isOptional kf.2) o p kf.1)
    ((jm_get o kf.1 = None /\ isOptional kf.2 = true) \/
     exists x, jm_get o kf.1 = Some x /\ accepts kf.2 x).
Proof.
  intros IH. unfold check_field. destruct (jm_get o kf.1) as [x|].
  - eapply clean_iff; [apply IH|]. naive_solver.
  - destruct (isOptional kf.2).
    + eapply clean_iff; [apply clean_id|]. naive_solver.
    + eapply clean_iff; [apply clean_push|]. naive_solver.
Qed.

Lemma clean_extra (fields : list (jsstr * validator)) p (key : jsstr) :
  clean (fun out =>
      if jm_has fields key then out else out ++ [Failure (joinPath p key) ExtraField])
    (key ∈ jm_keys fields).
Proof.
  pose proof (jm_get_None fields key). unfold jm_has. destruct (jm_get fields key).
  - eapply clean_iff; [apply clean_id|]. destruct (decide (key ∈ jm_keys fields)); naive_solver.
  - eapply clean_iff; [apply clean_push|]. naive_solver.
Qed.

Lemma check_clean va v p : clean (check va v p) (accepts va v).
Proof.
  revert v p. induction va as [va Hleaf|e IH|k w IHk IHw|ms IH|i IH|fs IH] using validator_ind'.
  - destruct va; try discriminate Hleaf; intros v p; cbn [check]; try (destruct v; leaf).
    + eapply clean_iff; [apply clean_id|]. split; eauto using accepts.
    + apply clean_expect. unfold valuesEqual, cmp_eqb. split.
      * destruct (compareValues v lit) eqn:E; try done. by constructor.
      * inversion 1; subst. by match goal with H : compareValues _ _ = Eq |- _ => rewrite H end.
  - intros v p; cbn [check]. destruct v; try leaf.
    eapply clean_iff; [apply clean_elements; intros; apply IH|].
    split; [by constructor|by inversion 1].
  - intros v p; cbn [check]. destruct v; try leaf.
    eapply clean_iff; [apply clean_fold; apply Forall_forall; intros kv _;
                       exact (clean_comp _ _ _ _ (IHk _ _) (IHw _ _))|].
    split; [by constructor|by inversion 1].
  - intros v p; cbn [check].
    assert (Hex : existsb (fun m => match check m v p [] with [] => true | _ => false end) ms = true
                  <-> accepts (UnionValidator ms) v).
    { rewrite existsb_exists. rewrite Forall_forall in IH. split.
      - intros (m & Hm%list_elem_of_In & Hc). econstructor; [done|].
        apply (clean_nil _ _ (IH m Hm v p)). by destruct (check m v p []).
      - inversion 1 as [| | | | | | | | | | |ms' m w Hm Hc| |]; subst.
        exists m. split; [by apply list_elem_of_In|].
        by rewrite (proj2 (clean_nil _ _ (IH m Hm v p)) Hc). }
    exact (clean_expect _ p NoUnionMember _ Hex).
  - intros v p; cbn [check]. eapply clean_iff; [apply IH|].
    split; [by constructor|by inversion 1].
  - intros v p; cbn [check]. destruct v as [| | | | | | |o]; try leaf.
    eapply clean_iff.
    + refine (clean_comp _ _ _ _ (clean_fold _ _ fs _) (clean_fold _ _ (jm_keys o) _)).
      * eapply Forall_impl; [exact IH|]. intros kf Hkf. apply (clean_field o p kf Hkf).
      * apply Forall_true. intros k. apply (clean_extra fs p k).
    + split; [intros []; by constructor|by inversion 1].
Qed.

(** * Validators survive their JSON form *)

Lemma assign_entries_ok {A B} (f : jsstr * A -> res B) out fs ws :
  Forall2 (fun kv w => w.1 = kv.1 /\ f kv = Ok w.2) fs ws ->
  proto_key ∉ fs.*1 -> NoDup (out ++ ws).*1 -> own_ordered (out ++ ws).*1 = true ->
  assign_entries f out fs = Ok (out ++ ws).
Proof.
  intros Hf Hp Hn Ho. rewrite <- (fold_define_app out ws Hn Ho). clear Hn Ho.
  revert out. induction Hf as [|[k v] [k' w] fs ws [Hk Hw] _ IH]; intros out; [done|].
  csimpl in *. rewrite Hw; simpl. rewrite IH by set_solver. f_equal. subst.
  rewrite obj_assign_define by set_solver. done.
Qed.

(** Field names survive plain assignment and literals survive JSON. *)
Fixpoint json_safe (va : validator) : Prop :=
  match va with
  | LiteralValidator lit => wf_value lit /\ int64_value lit = true
  | ArrayValidator e => json_safe e
  | RecordValidator k v => json_safe k /\ json_safe v
  | UnionValidator ms => fold_right (fun m acc => json_safe m /\ acc) True ms
  | OptionalValidator i => json_safe i
  | ObjectValidator fs =>
      proto_key ∉ fs.*1 /\ NoDup fs.*1 /\ own_ordered fs.*1 = true /\
      fold_right (fun kf acc => json_safe kf.2 /\ acc) True fs
  | _ => True
  end.

Definition same_check (va va' : validator) : Prop :=
  forall v p out, check va' v p out = check va v p out.

Definition survives (va : validator) : Prop :=
  exists j va', toJSON va = Ok j /\ validatorFromJson j = Ok va' /\
    isOptional va' = false /\ same_check va va'.

Lemma check_elements_ext c1 c2 p i xs out :
  (forall x q o, c1 x q o = c2 x q o) -> check_elements c1 p i xs out = check_elements c2 p i xs out.
Proof.
  intros H. revert i out. induction xs as [|x xs IH]; intros i out; [done|].
  cbn [check_elements]. by rewrite H, IH.
Qed.

Lemma survives_leaf va :
  is_leaf va = true -> json_safe va -> survives va.
Proof.
  intros Hl Hs. destruct va as [| | | | | | |t|lit| | | | |]; try discriminate Hl;
    try (by do 2 eexists; split_and!).
  destruct Hs as [Hw Hi]. destruct (value_roundtrips lit Hw Hi) as (j & Hj & Hb).
  exists (JvLiteral j), (LiteralValidator lit). simpl. by rewrite Hj, bind_Ok, Hb.
Qed.

Lemma survives_array e : survives e -> survives (ArrayValidator e).
Proof.
  intros (j & e' & Hj & He & _ & Hs). exists (JvArray j), (ArrayValidator e').
  simpl. rewrite Hj, bind_Ok, He. split_and!; [done..|].
  intros [] p out; cbn [check]; try done. by apply check_elements_ext.
Qed.

Lemma survives_record k w : survives k -> survives w -> survives (RecordValidator k w).
Proof.
  intros (jk & k' & Hjk & Hk & _ & Sk) (jw & w' & Hjw & Hw & _ & Sw).
  exists (JvRecord jk jw), (RecordValidator k' w').
  simpl. rewrite Hjk, Hjw, !bind_Ok, Hk, Hw. split_and!; [done..|].
  intros [] p out; cbn [check]; try done. revert out.
  induction fs as [|kv fs IH]; intros out; simpl; [done|]. by rewrite Sk, Sw, IH.
Qed.

Lemma survives_union ms : Forall survives ms -> survives (UnionValidator ms).
Proof.
  intros [js H]%Forall_exists_Forall2_l.
  assert (Hex : Forall2 (fun m j => toJSON m = Ok j) ms js)
    by (eapply Forall2_impl; [exact H|]; naive_solver).
  assert (H2 : exists ms', Forall2 (fun j m' => validatorFromJson j = Ok m') js ms' /\
                           Forall2 same_check ms ms').
  { clear Hex. induction H as [|m j ms js (m' & _ & Hm & _ & Hs) _ (ms' & IH1 & IH2)];
      [by exists []|]. exists (m' :: ms'). by split; constructor. }
  destruct H2 as (ms' & H2 & H3). exists (JvUnion js), (UnionValidator ms').
  cbn [toJSON validatorFromJson].
  rewrite (proj2 (traverse_Forall2 _ _ _) Hex), (proj2 (traverse_Forall2 _ _ _) H2).
  split_and!; [done..|]. intros v p out. cbn [check].
  assert (Heq : forall ms ms', Forall2 same_check ms ms' ->
    existsb (fun m => match check m v p [] with [] => true | _ => false end) ms' =
    existsb (fun m => match check m v p [] with [] => true | _ => false end) ms).
  { induction 1 as [|m m' l l' Hm _ IH]; simpl; [done|]. by rewrite Hm, IH. }
  by rewrite (Heq _ _ H3).
Qed.

Lemma fold_fields_ext o p fs fs' :
  Forall2 (fun kf kf' => kf'.1 = kf.1 /\ isOptional kf'.2 = isOptional kf.2 /\
                         same_check kf.2 kf'.2) fs fs' ->
  forall out,
    fold_left (fun out (kf : jsstr * validator) =>
      check_field (check kf.2) (isOptional kf.2) o p kf.1 out) fs' out =
    fold_left (fun out (kf : jsstr * validator) =>
      check_field (check kf.2) (isOptional kf.2) o p kf.1 out) fs out.
Proof.
  induction 1 as [|[k f] [k' f'] fs fs' (Hk & Hopt & Hs) _ IH]; intros out; [done|].
  simpl in *. subst. rewrite Hopt, <- IH. f_equal. unfold check_field.
  destruct (jm_get o k); [|done]. apply Hs.
Qed.

Lemma same_check_object fs fs' :
  Forall2 (fun kf kf' => kf'.1 = kf.1 /\ isOptional kf'.2 = isOptional kf.2 /\
                         same_check kf.2 kf'.2) fs fs' ->
  same_check (ObjectValidator fs) (ObjectValidator fs').
Proof.
  intros H [| | | | | | |o] p out; cbn [check]; try done.
  assert (Hhas : forall key, jm_has fs' key = jm_has fs key).
  { intros key. unfold jm_has. clear -H.
    induction H as [|[k f] [k' f'] fs fs' (Hk & _) _ IH]; simpl in *; [done|]. subst.
    by destruct (decide (key = k)). }
  rewrite (fold_fields_ext o p _ _ H). generalize (fold_left (fun out (kf : jsstr * validator) =>
    check_field (check kf.2) (isOptional kf.2) o p kf.1 out) fs out).
  induction (jm_keys o) as [|k ks IH]; intros l; simpl; [done|]. by rewrite Hhas, IH.
Qed.

Lemma survives_object fs :
  proto_key ∉ fs.*1 -> NoDup fs.*1 -> own_ordered fs.*1 = true ->
  Forall (fun kf => survives kf.2) fs -> survives (ObjectValidator fs).
Proof.
  intros Hp Hn Ho H.
  assert (Hex : exists js fs',
    Forall2 (fun (kf : jsstr * validator) w => w.1 = kf.1 /\
               (j ← toJSON kf.2; Ok (j, isOptional kf.2)) = Ok w.2) fs js /\
    Forall2 (fun (w : jsstr * (validator_json * bool)) kf' => kf'.1 = w.1 /\
               (inner ← validatorFromJson w.2.1;
                Ok (if w.2.2 then OptionalValidator inner else inner)) = Ok kf'.2) js fs' /\
    Forall2 (fun kf kf' => kf'.1 = kf.1 /\ isOptional kf'.2 = isOptional kf.2 /\
                           same_check kf.2 kf'.2) fs fs').
  { clear Hp Hn Ho. induction H as [|[k f] fs (j & f' & Hj & Hf & Hr & Hs) _ (js & fs' & H1 & H2 & H3)];
      [by exists [], []|].
    exists ((k, (j, isOptional f)) :: js),
      ((k, if isOptional f then OptionalValidator f' else f') :: fs'). simpl in *.
    split_and!; constructor; simpl; auto; [by rewrite Hj|by rewrite Hf|].
    split_and!; [done| |]; by destruct (isOptional f). }
  destruct Hex as (js & fs' & H1 & H2 & H3).
  assert (Hk1 : js.*1 = fs.*1)
    by (clear -H1; induction H1 as [|? ? ? ? [? _] _ IH]; csimpl; congruence).
  assert (Hk2 : fs'.*1 = js.*1)
    by (clear -H2; induction H2 as [|? ? ? ? [? _] _ IH]; csimpl; congruence).
  exists (JvObject js), (ObjectValidator fs'). cbn [toJSON validatorFromJson].
  rewrite (assign_entries_ok _ [] fs js), (assign_entries_ok _ [] js fs')
    by (simpl; rewrite ?Hk2, ?Hk1; done).
  split_and!; [done..|]. by apply same_check_object.
Qed.

Lemma json_safe_survives va : json_safe va -> survives va.
Proof.
  induction va as [va Hl|e IH|k w IHk IHw|ms IH|i IH|fs IH] using validator_ind'; intros Hs.
  - by apply survives_leaf.
  - by apply survives_array, IH.
  - destruct Hs. by apply survives_record; [apply IHk|apply IHw].
  - cbn [json_safe] in Hs. rewrite (fold_and_Forall json_safe) in Hs.
    apply survives_union. rewrite Forall_forall in *. intros m Hm. apply IH; [done|by apply Hs].
  - destruct (IH Hs) as (j & i' & Hj & Hi & Hr & Hc). exists j, i'. by split_and!.
  - destruct Hs as (Hp & Hn & Ho & Hs).
    apply (fold_and_Forall (fun kf : jsstr * validator => json_safe kf.2)) in Hs.
    apply survives_object; [done..|].
    rewrite Forall_forall in *. intros kf Hkf. apply IH; [done|by apply Hs].
Qed.

(** * Properties of validation *)

(** C24: [isValid] accepts a value exactly when it has the validator's type,
    by the typing rules above: required and optional fields, no extra fields,
    records, unions and literals up to value equality. *)
Theorem isValid_accepts va v : isValid va v = true <-> accepts va v.
Proof.
  unfold isValid, validate. rewrite <- (clean_nil _ _ (check_clean va v [])).
  by destruct (check va v [] []).
Qed.

(** A validator rebuilt from its stored JSON reports exactly the failures
    of the original, in the same order, provided no field is named
    ["__proto__"] and literals are int64 values. *)
Theorem validatorFromJson_toJSON va :
  json_safe va ->
  exists j va', toJSON va = Ok j /\ validatorFromJson j = Ok va' /\
    forall v, validate va' v = validate va v.
Proof.
  intros H. destruct (json_safe_survives va H) as (j & va' & Hj & Hv & _ & Hs).
  exists j, va'. split_and!; [done..|]. intros v. apply Hs.
Qed.

Lemma validatorFromJson_toJSON_witness :
  let va := ObjectValidator [([97], OptionalValidator (LiteralValidator (VBigint 3)));
                             ([98], UnionValidator [NullValidator; ArrayValidator StringValidator])] in
  exists j va', toJSON va = Ok j /\ validatorFromJson j = Ok va' /\
    forall v, validate va' v = validate va v.
Proof.
  intros va. apply (validatorFromJson_toJSON va). cbn [json_safe va fold_right fst snd].
  split_and!; try done; apply (bool_decide_unpack _); by vm_compute.
Defined.

(** The ["__proto__"] exclusion is needed: a validator with such a field
    loses it in its JSON form and accepts fewer values once reloaded. *)
Theorem toJSON_loses_proto :
  exists va va' j v, toJSON va = Ok j /\ validatorFromJson j = Ok va' /\
    isValid va v = true /\ isValid va' v = false.
Proof.
  exists (ObjectValidator [(proto_key, AnyValidatorImpl)]), (ObjectValidator []), (JvObject []),
    (VObject [(proto_key, VNull)]).
  by vm_compute.
Qed.

(** * Table and schema definitions: schema.ts *)

Record index_json := IndexJson
  { ix_descriptor : jsstr; ix_fields : list jsstr; ix_unique : bool }.
Record search_index_json := SearchIndexJson
  { si_descriptor : jsstr; si_field : jsstr; si_filters : list jsstr }.
Record vector_index_json := VectorIndexJson
  { vi_descriptor : jsstr; vi_field : jsstr; vi_dimensions : Z; vi_filters : list jsstr }.
Record relation_json := RelationJson { rel_name : jsstr; rel_table : jsstr; rel_field : jsstr }.

Record table_definition := TableDefinition
  { td_validator : validator;
    td_indexes : list index_json;
    td_search : list search_index_json;
    td_vector : list vector_index_json;
    td_shardKey : option jsstr;
    td_global : bool;
    td_relations : list relation_json }.

Definition defineTable (fields : list (jsstr * validator)) : table_definition :=
  TableDefinition (ObjectValidator fields) [] [] [] None false [].

(** The chained builder calls. *)
Inductive builder_call :=
  | CallIndex (name : jsstr) (fields : list jsstr) (unique : bool)
  | CallSearchIndex (name field : jsstr) (filters : list jsstr)
  | CallVectorIndex (name field : jsstr) (dimensions : Z) (filters : list jsstr)
  | CallShardKey (field : jsstr)
  | CallGlobal
  | CallRelation (name table field : jsstr).

Definition td_shardKey_set (field : jsstr) (t : table_definition) : res table_definition :=
  if td_global t then Throw (PlainError "shardKey on a global table")
  else Ok (TableDefinition (td_validator t) (td_indexes t) (td_search t) (td_vector t)
             (Some field) (td_global t) (td_relations t)).

Definition td_global_set (t : table_definition) : res table_definition :=
  match td_shardKey t with
  | Some _ => Throw (PlainError "global on a sharded table")
  | None => Ok (TableDefinition (td_validator t) (td_indexes t) (td_search t) (td_vector t)
                  (td_shardKey t) true (td_relations t))
  end.

Definition td_call (c : builder_call) (t : table_definition) : res table_definition :=
  match c with
  | CallIndex name fields unique =>
      Ok (TableDefinition (td_validator t) (td_indexes t ++ [IndexJson name fields unique])
            (td_search t) (td_vector t) (td_shardKey t) (td_global t) (td_relations t))
  | CallSearchIndex name field filters =>
      Ok (TableDefinition (td_validator t) (td_indexes t)
            (td_search t ++ [SearchIndexJson name field filters]) (td_vector t)
            (td_shardKey t) (td_global t) (td_relations t))
  | CallVectorIndex name field dims filters =>
      Ok (TableDefinition (td_validator t) (td_indexes t) (td_search t)
            (td_vector t ++ [VectorIndexJson name field dims filters])
            (td_shardKey t) (td_global t) (td_relations t))
  | CallShardKey field => td_shardKey_set field t
  | CallGlobal => td_global_set t
  | CallRelation name table field =>
      Ok (TableDefinition (td_validator t) (td_indexes t) (td_search t) (td_vector t)
            (td_shardKey t) (td_global t) (td_relations t ++ [RelationJson name table field]))
  end.

(** A definition script: calls in order; one that throws ends it. *)
Fixpoint td_calls (cs : list builder_call) (t : table_definition) : res table_definition :=
  match cs with
  | [] => Ok t
  | c :: cs' => t' ← td_call c t; td_calls cs' t'
  end.

Record table_definition_json := TableDefinitionJson
  { tj_documentType : validator_json;
    tj_indexes : list index_json;
    tj_search : list search_index_json;
    tj_vector : list vector_index_json;
    tj_shardKey : option jsstr;
    tj_global : bool;
    tj_relations : list relation_json }.

Definition td_export (t : table_definition) : res table_definition_json :=
  j ← toJSON (td_validator t);
  Ok (TableDefinitionJson j (td_indexes t) (td_search t) (td_vector t)
        (td_shardKey t) (td_global t) (td_relations t)).

Definition schema_export (tables : list (jsstr * table_definition)) (schemaValidation : option bool)
  : res (list (jsstr * table_definition_json) * bool) :=
  ts ← assign_entries (fun nt : jsstr * table_definition => td_export nt.2) [] tables;
  Ok (ts, default true schemaValidation).

Lemma td_call_exclusive c t t' :
  td_call c t = Ok t' -> (td_global t = true -> td_shardKey t = None) ->
  td_global t' = true -> td_shardKey t' = None.
Proof.
  destruct c; simpl; intros H Hi; try (injection H as <-; done).
  - unfold td_shardKey_set in H. destruct (td_global t) eqn:E; [done|]. injection H as <-.
    simpl. congruence.
  - unfold td_global_set in H. destruct (td_shardKey t) eqn:E; [done|]. by injection H as <-.
Qed.

(** No sequence of builder calls makes a table both sharded and global. *)
Theorem tableDefinition_exclusive fields cs t j :
  td_calls cs (defineTable fields) = Ok t -> td_export t = Ok j ->
  tj_global j = true -> tj_shardKey j = None.
Proof.
  intros Hc He. unfold td_export in He. destruct (toJSON _); simpl in He; [|done].
  injection He as <-. simpl. revert Hc.
  assert (H0 : td_global (defineTable fields) = true -> td_shardKey (defineTable fields) = None)
    by done.
  revert H0. generalize (defineTable fields) as t0.
  induction cs as [|c cs IH]; intros t0 H0; simpl; [by intros [= <-]|].
  destruct (td_call c t0) as [t1|] eqn:E; simpl; [|done].
  apply IH. by apply (td_call_exclusive c t0).
Qed.

Lemma tableDefinition_exclusive_witness :
  td_calls [CallGlobal; CallIndex [97] [[98]] true] (defineTable []) =
    Ok (TableDefinition (ObjectValidator []) [IndexJson [97] [[98]] true] [] [] None true []) /\
  @None jsstr = None.
Proof.
  split; [reflexivity|].
  exact (tableDefinition_exclusive [] [CallGlobal; CallIndex [97] [[98]] true] _
    (TableDefinitionJson (JvObject []) [IndexJson [97] [[98]] true] [] [] None true [])
    eq_refl eq_refl eq_refl).
Defined.
