(* ===== verification/KeyCodec.v ===== *)
(** Order-preserving index keys: packages/index-key-codec/src/encode.ts. *)
From Stdlib Require Import ZArith Lia.
From stdpp Require Import base list.
From S2P Require Import Prelude JsBase Float64 Values.

Definition TAG_NULL : Z := 1.
Definition TAG_FALSE : Z := 2.
Definition TAG_TRUE : Z := 3.
Definition TAG_NUMBER : Z := 4.
Definition TAG_BIGINT : Z := 5.
Definition TAG_STRING : Z := 6.
Definition TAG_BYTES : Z := 7.

Definition INT64_MIN : Z := - 2 ^ 63.
Definition INT64_MAX : Z := 2 ^ 63 - 1.

Definition normalizeValue (v : value) : value :=
  match v with
  | VNumber n => if num_is_neg_zero n then VNumber num_zero else v
  | _ => v
  end.

Definition compareKeyBytes (a b : bytes) : comparison := loop_compare Z.compare a b.

Definition compareIndexKeys : bytes -> bytes -> comparison := compareKeyBytes.

Definition indexKeysEqual (a b : bytes) : bool := cmp_eqb (compareKeyBytes a b).

Definition encodeFloat64 (n : number) : bytes :=
  let n' := if f64_is_nan (num_f n) then num_nan else n in
  match be_bytes 8 (f64_bits (num_f n')) with
  | b0 :: bs =>
      if negb (Z.land b0 128 =? 0) then (fun b => Z.lxor b 255) <$> (b0 :: bs)
      else Z.lxor b0 128 :: bs
  | [] => []
  end.

(** The loop that stores [x & 0xff] from the last byte to the first. *)
Fixpoint store_bytes (n : nat) (x : Z) (acc : bytes) : bytes :=
  match n with
  | O => acc
  | S n' => store_bytes n' (Z.shiftr x 8) (Z.land x 255 :: acc)
  end.

Definition encodeInt64 (v : Z) : res bytes :=
  if (v <? INT64_MIN) || (INT64_MAX <? v) then Throw RangeError
  else
    let bits := v mod 2 ^ 64 in
    match store_bytes 8 bits [] with
    | b0 :: bs => Ok (Z.lxor b0 128 :: bs)
    | [] => Ok []
    end.

Fixpoint escape_zeros (bs : bytes) : bytes :=
  match bs with
  | [] => []
  | b :: bs' => if b =? 0 then 0 :: 255 :: escape_zeros bs' else b :: escape_zeros bs'
  end.

Definition pushEscaped (out bs : bytes) : bytes := out ++ escape_zeros bs ++ [0].

Definition pushElement (out : bytes) (v0 : value) : res bytes :=
  match normalizeValue v0 with
  | VNull => Ok (out ++ [TAG_NULL])
  | VBool b => Ok (out ++ [if b then TAG_TRUE else TAG_FALSE])
  | VNumber n => Ok ((out ++ [TAG_NUMBER]) ++ encodeFloat64 n)
  | VBigint n => bs ← encodeInt64 n; Ok ((out ++ [TAG_BIGINT]) ++ bs)
  | VString s => Ok (pushEscaped (out ++ [TAG_STRING]) (utf8_encode s))
  | VBytes bs => Ok (pushEscaped (out ++ [TAG_BYTES]) bs)
  | VArray _ | VObject _ => Throw TypeError
  end.

Fixpoint push_elements (out : bytes) (values : list value) : res bytes :=
  match values with
  | [] => Ok out
  | v :: vs => out' ← pushElement out v; push_elements out' vs
  end.

Definition encodeIndexKey (values : list value) : res bytes := push_elements [] values.

Definition indexKeyRangeStart (prefix : list value) : res bytes := encodeIndexKey prefix.

(** [None] is the code's [null]: no upper bound. *)
Definition indexKeyRangeEnd (prefix : list value) : res (option bytes) :=
  match prefix with
  | [] => Ok None
  | _ => start ← encodeIndexKey prefix; Ok (Some (start ++ [255]))
  end.

Definition compareIndexTuples (a b : list value) : res comparison :=
  ka ← encodeIndexKey a; kb ← encodeIndexKey b; Ok (compareKeyBytes ka kb).

(** * Encoded elements *)

#[global] Instance compareKeyBytes_exact : CmpExact compareKeyBytes.
Proof. apply compareBytes_exact. Qed.

Lemma compareKeyBytes_lex a b : compareKeyBytes a b = lex_compare Z.compare a b.
Proof. apply loop_compare_lex. Qed.

Lemma lxor_255 b : is_byte b -> Z.lxor b 255 = 255 - b.
Proof.
  intros Hb. apply Z.eqb_eq. revert b Hb. apply byte_check. by vm_compute.
Qed.

Lemma lxor_128 b : is_byte b -> Z.lxor b 128 = (b + 128) mod 256.
Proof.
  intros Hb. apply Z.eqb_eq. revert b Hb. apply byte_check. by vm_compute.
Qed.

Lemma land_128 b : is_byte b -> (Z.land b 128 =? 0) = (b <? 128).
Proof.
  intros Hb. apply eqb_prop. revert b Hb. apply byte_check. by vm_compute.
Qed.

Lemma be8_flip_all x :
  0 <= x < 2 ^ 64 -> (fun b => Z.lxor b 255) <$> be_bytes 8 x = be_bytes 8 (2 ^ 64 - 1 - x).
Proof.
  intros Hx. apply be_bytes_map. intros k Hk.
  rewrite lxor_255 by (unfold is_byte; apply Z.mod_pos_bound; lia).
  do 8 (destruct k as [|k]; [simpl Z.of_nat; Z.div_mod_to_equations; lia|]). lia.
Qed.

Lemma be8_flip_head x :
  0 <= x < 2 ^ 64 ->
  match be_bytes 8 x with b0 :: bs => Z.lxor b0 128 :: bs | [] => [] end =
  be_bytes 8 ((x + 2 ^ 63) mod 2 ^ 64).
Proof.
  intros Hx. change (be_bytes 8 x) with ((x / 2 ^ 56) mod 256 :: be_bytes 7 x).
  change (be_bytes 8 ((x + 2 ^ 63) mod 2 ^ 64))
    with (((x + 2 ^ 63) mod 2 ^ 64) / 2 ^ 56 mod 256 :: be_bytes 7 ((x + 2 ^ 63) mod 2 ^ 64)).
  apply cons_congr.
  - rewrite lxor_128 by (unfold is_byte; apply Z.mod_pos_bound; lia). Z.div_mod_to_equations; lia.
  - rewrite <- (be_bytes_mod 7 x), <- (be_bytes_mod 7 ((x + 2 ^ 63) mod 2 ^ 64)). f_equal.
    change (256 ^ Z.of_nat 7) with (2 ^ 56). Z.div_mod_to_equations; lia.
Qed.

Lemma encodeFloat64_spec n :
  encodeFloat64 n = be_bytes 8 (f64_flip (f64_bits (num_f n))).
Proof.
  unfold encodeFloat64.
  assert (Hn : num_f (if f64_is_nan (num_f n) then num_nan else n) = num_f n).
  { destruct (num_f n) eqn:E; simpl; rewrite ?E; done. }
  rewrite Hn. pose proof (f64_bits_range (num_f n) (num_ok n)) as Hr.
  set (x := f64_bits (num_f n)) in *.
  change (be_bytes 8 x) with ((x / 2 ^ 56) mod 256 :: be_bytes 7 x). cbv iota.
  rewrite land_128 by (unfold is_byte; apply Z.mod_pos_bound; lia).
  assert (Hh : (x / 2 ^ 56) mod 256 = x / 2 ^ 56) by (Z.div_mod_to_equations; lia).
  unfold f64_flip. destruct (2 ^ 63 <=? x) eqn:E; zbool.
  - rewrite (proj2 (Z.ltb_ge _ _)) by (rewrite Hh; apply Z.div_le_lower_bound; lia).
    apply be8_flip_all. done.
  - rewrite (proj2 (Z.ltb_lt _ _)) by (rewrite Hh; apply Z.div_lt_upper_bound; lia). cbn [negb].
    pose proof (be8_flip_head x Hr) as Hf.
    change (be_bytes 8 x) with ((x / 2 ^ 56) mod 256 :: be_bytes 7 x) in Hf.
    cbv iota in Hf. rewrite Hf. f_equal. apply Z.mod_small. lia.
Qed.

Lemma store_bytes_spec n x acc : store_bytes n x acc = be_bytes n x ++ acc.
Proof.
  assert (Hland : forall y, Z.land y 255 = y mod 256)
    by (intros y; apply (Z.land_ones y 8); lia).
  assert (Hsnoc : forall n x, be_bytes (S n) x = be_bytes n (x / 256) ++ [x mod 256]).
  { clear. intros n. induction n as [|n IH]; intros x.
    - cbn -[Z.div Z.modulo]. by rewrite Z.div_1_r.
    - change (be_bytes (S (S n)) x) with ((x / 256 ^ Z.of_nat (S n)) mod 256 :: be_bytes (S n) x).
      rewrite IH. cbn [be_bytes app]. f_equal.
      rewrite Z.div_div by (try apply Z.pow_pos_nonneg; lia). f_equal. f_equal.
      rewrite Nat2Z.inj_succ, Z.pow_succ_r by lia. lia. }
  revert x acc. induction n as [|n IH]; intros x acc; [done|].
  cbn [store_bytes]. rewrite IH, Hland, Z.shiftr_div_pow2 by lia.
  rewrite Hsnoc, <- app_assoc. done.
Qed.

Lemma encodeInt64_spec v bs :
  encodeInt64 v = Ok bs ->
  INT64_MIN <= v <= INT64_MAX /\ bs = be_bytes 8 (v + 2 ^ 63).
Proof.
  unfold encodeInt64. destruct (_ || _) eqn:E; [done|]. zbool.
  unfold INT64_MIN, INT64_MAX in *. rewrite store_bytes_spec, app_nil_r.
  pose proof (Z.mod_pos_bound v (2 ^ 64) ltac:(lia)).
  pose proof (be8_flip_head (v mod 2 ^ 64) ltac:(lia)) as Hf.
  destruct (be_bytes 8 (v mod 2 ^ 64)) as [|b0 bs'] eqn:E; [done|].
  intros [= <-]. split; [lia|]. rewrite Hf. f_equal. Z.div_mod_to_equations; lia.
Qed.

(** * Order of encoded tuples *)

(** What may follow an encoded element: nothing, another tag, or the [0xFF]
    that closes a range. *)
Definition tail_ok (r : bytes) : Prop :=
  match r with
  | [] => True
  | h :: t => h < 255 \/ (h = 255 /\ t = [])
  end.

Lemma escape_compare a b r1 r2 :
  wf_bytes a -> wf_bytes b -> tail_ok r1 -> tail_ok r2 ->
  lex_compare Z.compare (escape_zeros a ++ 0 :: r1) (escape_zeros b ++ 0 :: r2) =
  then_cmp (lex_compare Z.compare a b) (lex_compare Z.compare r1 r2).
Proof.
  intros Ha Hb H1 H2. revert b Hb. induction Ha as [|x a Hx _ IH]; intros b Hb.
  - destruct Hb as [|y b Hy Hb]; cbn [escape_zeros app lex_compare then_cmp]; [done|]. unfold is_byte in Hy.
    destruct (y =? 0) eqn:E; zbool; cbn [escape_zeros app lex_compare then_cmp].
    + destruct r1 as [|h t]; [done|]. cbn [lex_compare]. destruct H1 as [H1|[-> ->]].
      * by rewrite (proj2 (Z.compare_lt_iff h 255)).
      * rewrite Z.compare_refl. by destruct (escape_zeros b).
    + by rewrite (proj2 (Z.compare_lt_iff 0 y)) by lia.
  - destruct Hb as [|y b Hy Hb]; cbn [escape_zeros app lex_compare then_cmp]; unfold is_byte in *.
    + destruct (x =? 0) eqn:E; zbool; cbn [escape_zeros app lex_compare then_cmp].
      * destruct r2 as [|h t]; [done|]. cbn [lex_compare]. destruct H2 as [H2|[-> ->]].
        -- by rewrite (proj2 (Z.compare_gt_iff 255 h)).
        -- rewrite Z.compare_refl. by destruct (escape_zeros a).
      * by rewrite (proj2 (Z.compare_gt_iff x 0)) by lia.
    + destruct (x =? 0) eqn:E, (y =? 0) eqn:E'; zbool; subst; cbn [app lex_compare];
        rewrite ?Z.compare_refl; auto.
      * rewrite ?Z.compare_refl. by rewrite (proj2 (Z.compare_lt_iff 0 y)) by lia.
      * by rewrite (proj2 (Z.compare_gt_iff x 0)) by lia.
      * destruct (x ?= y); auto.
Qed.

Definition element_tag (v : value) : Z :=
  match v with
  | VNull => TAG_NULL
  | VBool b => if b then TAG_TRUE else TAG_FALSE
  | VNumber _ => TAG_NUMBER
  | VBigint _ => TAG_BIGINT
  | VString _ => TAG_STRING
  | _ => TAG_BYTES
  end.

(** Every encoded element is its tag and an order-preserving payload. *)
Lemma pushElement_out out v :
  pushElement out v = (fun e => out ++ e) <$> pushElement [] v.
Proof.
  unfold pushElement, pushEscaped. destruct (normalizeValue v); simpl; try done;
    rewrite <- ?app_assoc; try done.
  destruct (encodeInt64 n); simpl; [|done]. by rewrite <- app_assoc.
Qed.

Lemma push_elements_out out vs :
  push_elements out vs = (fun e => out ++ e) <$> push_elements [] vs.
Proof.
  revert out. induction vs as [|v vs IH]; intros out; simpl; [by rewrite app_nil_r|].
  rewrite pushElement_out. destruct (pushElement [] v) as [e|]; simpl; [|done].
  rewrite (IH (out ++ e)), (IH e). destruct (push_elements [] vs); simpl; [|done].
  by rewrite app_assoc.
Qed.

Lemma encodeIndexKey_cons v vs k :
  encodeIndexKey (v :: vs) = Ok k ->
  exists e ks, pushElement [] v = Ok e /\ encodeIndexKey vs = Ok ks /\ k = e ++ ks.
Proof.
  unfold encodeIndexKey; simpl. destruct (pushElement [] v) as [e|] eqn:E; simpl; [|done].
  rewrite push_elements_out. destruct (push_elements [] vs) as [ks|]; simpl; [|done].
  intros [= <-]. eauto.
Qed.

Lemma normalize_rank v : typeRank (normalizeValue v) = typeRank v.
Proof. destruct v; simpl; try done. by case_match. Qed.

Lemma element_tag_range v : 1 <= element_tag v <= 7.
Proof. by destruct v as [|[]| | | | | |]; cbv. Qed.

Lemma pushElement_tag v e :
  pushElement [] v = Ok e -> exists e', e = element_tag v :: e' /\ 1 <= element_tag v <= 7.
Proof.
  intros H. pose proof (element_tag_range v). unfold pushElement, pushEscaped in H.
  destruct v; cbn [normalizeValue] in H; try done; try (injection H as <-; by eexists).
  - destruct (num_is_neg_zero n); injection H as <-; by eexists.
  - destruct (encodeInt64 n); simplify_eq/=. by eexists.
Qed.

Lemma encodeIndexKey_tail_ok vs k : encodeIndexKey vs = Ok k -> tail_ok k.
Proof.
  destruct vs as [|v vs]; intros H; [by injection H as <-|].
  apply encodeIndexKey_cons in H as (e & ks & He & _ & ->).
  apply pushElement_tag in He as (e' & -> & Ht). left. lia.
Qed.

Lemma element_tag_compare v w :
  (forall x, ~ v = VArray x) -> (forall x, ~ v = VObject x) ->
  (forall x, ~ w = VArray x) -> (forall x, ~ w = VObject x) ->
  typeRank v <> typeRank w -> (element_tag v ?= element_tag w) = compareValues v w.
Proof.
  intros H1 H2 H3 H4 H. rewrite typeRank_compare_ne by done.
  destruct v as [|[]| | | | | |], w as [|[]| | | | | |]; naive_solver.
Qed.

Lemma lex_cons_tag t1 t2 r1 r2 :
  lex_compare Z.compare (t1 :: r1) (t2 :: r2) =
  then_cmp (t1 ?= t2) (lex_compare Z.compare r1 r2).
Proof. by simpl; destruct (t1 ?= t2). Qed.

Lemma be8_then x y r1 r2 :
  0 <= x < 2 ^ 64 -> 0 <= y < 2 ^ 64 ->
  lex_compare Z.compare (be_bytes 8 x ++ r1) (be_bytes 8 y ++ r2) =
  then_cmp (x ?= y) (lex_compare Z.compare r1 r2).
Proof.
  intros Hx Hy. rewrite lex_app_then by by rewrite !be_bytes_length.
  by rewrite be_bytes_compare.
Qed.

Lemma f64_flip_range z : 0 <= z < 2 ^ 64 -> 0 <= f64_flip z < 2 ^ 64.
Proof. unfold f64_flip. intros. case_match; zbool; lia. Qed.

Lemma normalized_number_compare n m r1 r2 :
  let norm x := if num_is_neg_zero x then num_zero else x in
  lex_compare Z.compare (encodeFloat64 (norm n) ++ r1) (encodeFloat64 (norm m) ++ r2) =
  then_cmp (compareNumbers n m) (lex_compare Z.compare r1 r2).
Proof.
  intros norm. rewrite !encodeFloat64_spec, be8_then by
    (apply f64_flip_range, f64_bits_range, num_ok).
  assert (Hz : forall x, f64_is_neg_zero (num_f (norm x)) = false).
  { intros x. unfold norm. by destruct (num_is_neg_zero x) eqn:E. }
  assert (Hr : forall x, f64_rank (num_f (norm x)) = f64_rank (num_f x)).
  { intros x. unfold norm. destruct (num_is_neg_zero x) eqn:E; [|done].
    by apply num_neg_zero_spec in E as ->. }
  rewrite f64_flip_order, !Hr by (apply num_ok || apply Hz). by rewrite compareNumbers_rank.
Qed.

Lemma element_compare v w e1 e2 r1 r2 :
  wf_value v -> wf_value w -> pushElement [] v = Ok e1 -> pushElement [] w = Ok e2 ->
  tail_ok r1 -> tail_ok r2 ->
  lex_compare Z.compare (e1 ++ r1) (e2 ++ r2) =
  then_cmp (compareValues v w) (lex_compare Z.compare r1 r2).
Proof.
  intros Hv Hw H1 H2 T1 T2.
  destruct (Z.eq_dec (typeRank v) (typeRank w)) as [E|E].
  - rewrite compareValues_same_rank by done.
    destruct v, w; try discriminate E; try discriminate H1; unfold pushElement, pushEscaped in *;
      cbn [normalizeValue app] in *; simplify_eq.
    + done.
    + by destruct b, b0.
    + destruct (num_is_neg_zero n) eqn:En, (num_is_neg_zero n0) eqn:En0; simplify_eq;
        rewrite <- !app_comm_cons, lex_cons_tag, Z.compare_refl; cbn [then_cmp];
        pose proof (normalized_number_compare n n0 r1 r2) as Hc; cbv beta zeta in Hc; rewrite En, En0 in Hc; apply Hc.
    + destruct (encodeInt64 n) as [b1|] eqn:E1, (encodeInt64 n0) as [b2|] eqn:E2; simplify_eq/=.
      apply encodeInt64_spec in E1 as [R1 ->], E2 as [R2 ->]. unfold INT64_MIN, INT64_MAX in *.
      change (Z.pos _ ?= Z.pos _) with Eq. rewrite be8_then by lia. f_equal.
      destruct (Z.compare_spec n n0);
        [apply Z.compare_eq_iff|apply Z.compare_lt_iff|apply Z.compare_gt_iff]; lia.
    + rewrite <- !app_comm_cons, lex_cons_tag, Z.compare_refl; cbn [then_cmp].
      rewrite <- !app_assoc; cbn [app]. rewrite escape_compare by (done || by apply utf8_encode_wf).
      unfold compareKeysUtf8, compareBytes. by rewrite loop_compare_lex.
    + rewrite <- !app_comm_cons, lex_cons_tag, Z.compare_refl; cbn [then_cmp].
      rewrite <- !app_assoc; cbn [app]. rewrite escape_compare by done.
      unfold compareBytes. by rewrite loop_compare_lex.
  - rewrite <- element_tag_compare by (done || by (intros x ->; simpl in *; discriminate)).
    pose proof (pushElement_tag _ _ H1) as (e1' & -> & _).
    pose proof (pushElement_tag _ _ H2) as (e2' & -> & _).
    rewrite <- !app_comm_cons, lex_cons_tag.
    assert (Hne : (element_tag v ?= element_tag w) <> Eq); [|by destruct (_ ?= _)].
    rewrite element_tag_compare by (done || by (intros x ->; simpl in *; discriminate)).
    rewrite typeRank_compare_ne by done. intros Heq. by apply Z.compare_eq in Heq.
Qed.

Lemma encodeIndexKey_compare vs ws k1 k2 :
  Forall wf_value vs -> Forall wf_value ws ->
  encodeIndexKey vs = Ok k1 -> encodeIndexKey ws = Ok k2 ->
  compareKeyBytes k1 k2 = lex_compare compareValues vs ws.
Proof.
  intros Hv. rewrite compareKeyBytes_lex. revert ws k1 k2.
  induction Hv as [|v vs Hv Hvs IH]; intros ws k1 k2 Hw H1 H2.
  - injection H1 as <-. destruct ws as [|w ws]; [by injection H2 as <-|].
    apply encodeIndexKey_cons in H2 as (e & ks & He & _ & ->).
    by apply pushElement_tag in He as (e' & -> & _).
  - destruct Hw as [|w ws Hw Hws].
    + injection H2 as <-. apply encodeIndexKey_cons in H1 as (e & ks & He & _ & ->).
      by apply pushElement_tag in He as (e' & -> & _).
    + apply encodeIndexKey_cons in H1 as (e1 & ks1 & He1 & Hk1 & ->).
      apply encodeIndexKey_cons in H2 as (e2 & ks2 & He2 & Hk2 & ->).
      rewrite (element_compare v w) by eauto using encodeIndexKey_tail_ok.
      rewrite (IH ws) by done. cbn [lex_compare]. by destruct (compareValues v w).
Qed.

(** Comparison against the [0xFF]-closed bound of a prefix. *)
Fixpoint upper_compare (vs prefix : list value) : comparison :=
  match prefix, vs with
  | [], _ => Lt
  | _ :: _, [] => Lt
  | p :: ps, v :: vs' =>
      match compareValues v p with Eq => upper_compare vs' ps | Lt => Lt | Gt => Gt end
  end.

Lemma encodeIndexKey_upper vs ps k kp :
  Forall wf_value vs -> Forall wf_value ps ->
  encodeIndexKey vs = Ok k -> encodeIndexKey ps = Ok kp ->
  compareKeyBytes k (kp ++ [255]) = upper_compare vs ps.
Proof.
  intros Hv. rewrite compareKeyBytes_lex. revert ps k kp.
  induction Hv as [|v vs Hv Hvs IH]; intros ps k kp Hp H1 H2.
  - injection H1 as <-. destruct ps; simpl; by destruct kp.
  - pose proof (encodeIndexKey_tail_ok _ _ H1) as Ht.
    apply encodeIndexKey_cons in H1 as (e1 & ks1 & He1 & Hk1 & ->).
    destruct Hp as [|p ps Hp Hps].
    + injection H2 as <-. apply pushElement_tag in He1 as (e' & -> & Htag).
      cbn [app lex_compare upper_compare]. by rewrite (proj2 (Z.compare_lt_iff _ 255)) by lia.
    + apply encodeIndexKey_cons in H2 as (e2 & ks2 & He2 & Hk2 & ->). rewrite <- app_assoc.
      rewrite (element_compare v p); [|done..|by eapply encodeIndexKey_tail_ok|].
      * rewrite (IH ps) by done. done.
      * destruct ps as [|p' ps]; [injection Hk2 as <-; right; done|].
        apply encodeIndexKey_cons in Hk2 as (e & ks & He & _ & ->).
        apply pushElement_tag in He as (e' & -> & ?). left. lia.
Qed.

(** * Which tuples can be keys, and which keys a prefix range holds *)

Definition indexable (v : value) : bool :=
  match v with
  | VArray _ | VObject _ => false
  | VBigint n => (INT64_MIN <=? n) && (n <=? INT64_MAX)
  | _ => true
  end.

Lemma pushElement_total v : indexable v = true -> exists e, pushElement [] v = Ok e.
Proof.
  unfold pushElement. destruct v; cbn [indexable normalizeValue]; eauto; try done.
  - intros _. destruct (num_is_neg_zero n); eauto.
  - intros H. zbool. unfold encodeInt64.
    rewrite (proj2 (Z.ltb_ge _ _)), (proj2 (Z.ltb_ge _ _)) by lia. cbn [orb].
    destruct (store_bytes 8 _ []); simpl; eauto.
Qed.

Lemma pushElement_indexable v e : pushElement [] v = Ok e -> indexable v = true.
Proof.
  unfold pushElement. destruct v; cbn [indexable normalizeValue]; try done.
  destruct (encodeInt64 n) eqn:E; simpl; [|done].
  intros _. apply encodeInt64_spec in E as [? _]. apply andb_true_iff; split; apply Z.leb_le; lia.
Qed.

Lemma encodeIndexKey_app_ok v vs e ks :
  pushElement [] v = Ok e -> encodeIndexKey vs = Ok ks -> encodeIndexKey (v :: vs) = Ok (e ++ ks).
Proof.
  unfold encodeIndexKey. intros He Hk. simpl. rewrite He; simpl.
  rewrite push_elements_out, Hk. done.
Qed.

(** Keys are bytes. *)
Lemma escape_zeros_wf bs : wf_bytes bs -> wf_bytes (escape_zeros bs).
Proof.
  induction 1 as [|b bs Hb _ IH]; simpl; [constructor|].
  destruct (b =? 0); repeat (apply Forall_cons; split); done.
Qed.

Lemma pushElement_wf v e : wf_value v -> pushElement [] v = Ok e -> wf_bytes e.
Proof.
  assert (Htag : forall t bs, 0 <= t < 256 -> wf_bytes bs -> wf_bytes ([t] ++ bs)) by (intros; by constructor).
  unfold pushElement, pushEscaped. destruct v as [|b|n|n|s|bs| |]; cbn [normalizeValue]; intros Hv.
  - intros [= <-]. repeat constructor; done.
  - intros [= <-]. destruct b; repeat constructor; done.
  - destruct (num_is_neg_zero n); intros [= <-]; apply Htag; try done; rewrite encodeFloat64_spec; apply be_bytes_wf.
  - destruct (encodeInt64 n) as [bs|] eqn:E; [|done]. rewrite bind_Ok. intros [= <-].
    apply encodeInt64_spec in E as [_ ->]. apply Htag; [done|apply be_bytes_wf].
  - intros [= <-]. apply Htag; [done|].
    apply wf_bytes_app; [by apply escape_zeros_wf, utf8_encode_wf|by repeat constructor].
  - intros [= <-]. apply Htag; [done|].
    apply wf_bytes_app; [by apply escape_zeros_wf|by repeat constructor].
  - done.
  - done.
Qed.

Lemma encodeIndexKey_wf vs k : Forall wf_value vs -> encodeIndexKey vs = Ok k -> wf_bytes k.
Proof.
  intros Hv. revert k. induction Hv as [|v vs Hv _ IH]; intros k; [intros [= <-]; constructor|].
  intros H. apply encodeIndexKey_cons in H as (e & ks & He & Hk & ->).
  apply wf_bytes_app; [by eapply pushElement_wf|by apply IH].
Qed.

Lemma indexKeyRangeEnd_wf vs e :
  Forall wf_value vs -> indexKeyRangeEnd vs = Ok (Some e) -> wf_bytes e.
Proof.
  intros Hv. unfold indexKeyRangeEnd. destruct vs as [|v vs]; [done|].
  destruct (encodeIndexKey (v :: vs)) as [k|] eqn:E; [|done]. rewrite bind_Ok. intros [= <-].
  apply wf_bytes_app; [by eapply encodeIndexKey_wf|by repeat constructor].
Qed.

Definition prefix_match (ps vs : list value) : Prop :=
  lex_compare compareValues (take (length ps) vs) ps = Eq.

Lemma prefix_match_bounds ps vs :
  prefix_match ps vs <-> lex_compare compareValues vs ps <> Lt /\ upper_compare vs ps = Lt.
Proof.
  unfold prefix_match. revert vs. induction ps as [|p ps IH]; intros [|v vs]; cbn; try naive_solver.
  destruct (compareValues v p) eqn:E; [|naive_solver..]. apply IH.
Qed.

(** C11: comparing two encoded index keys byte by byte gives exactly the
    element-wise value order of the tuples they encode, for every pair of
    tuples the codec accepts. *)
Theorem encodeIndexKey_order vs ws k1 k2 :
  Forall wf_value vs -> Forall wf_value ws ->
  encodeIndexKey vs = Ok k1 -> encodeIndexKey ws = Ok k2 ->
  compareIndexKeys k1 k2 = lex_compare compareValues vs ws /\
  compareIndexTuples vs ws = Ok (lex_compare compareValues vs ws) /\
  (indexKeysEqual k1 k2 = true <-> lex_compare compareValues vs ws = Eq).
Proof.
  intros Hv Hw H1 H2. pose proof (encodeIndexKey_compare _ _ _ _ Hv Hw H1 H2) as Hc.
  unfold compareIndexKeys, compareIndexTuples, indexKeysEqual. rewrite H1, H2. simpl.
  rewrite Hc. split_and!; try done. unfold cmp_eqb.
  by destruct (lex_compare _ _ _).
Qed.

Lemma encodeIndexKey_order_witness :
  let a := [VNumber num_neg_zero; VString [97]; VBytes [0]] in
  let b := [VNumber num_zero; VString [97]; VBytes [0; 255]] in
  let k1 := [4; 128; 0; 0; 0; 0; 0; 0; 0; 6; 97; 0; 7; 0; 255; 0] in
  let k2 := [4; 128; 0; 0; 0; 0; 0; 0; 0; 6; 97; 0; 7; 0; 255; 255; 0] in
  compareIndexKeys k1 k2 = Lt.
Proof.
  intros a b k1 k2.
  assert (Hk : Forall wf_value a /\ Forall wf_value b).
  { split; repeat constructor; cbv; intuition discriminate. }
  exact (proj1 (encodeIndexKey_order a b k1 k2 (proj1 Hk) (proj2 Hk) eq_refl eq_refl)).
Defined.

(** A key lies in the byte range the codec builds for a tuple prefix
    exactly when the encoded tuple starts with values equal to that prefix;
    the empty prefix has no upper bound. *)
Theorem indexKeyRange_prefix vs ps k start end_ :
  Forall wf_value vs -> Forall wf_value ps ->
  encodeIndexKey vs = Ok k -> indexKeyRangeStart ps = Ok start -> indexKeyRangeEnd ps = Ok end_ ->
  (compareIndexKeys start k <> Gt /\
   match end_ with None => True | Some e => compareIndexKeys k e = Lt end <->
   prefix_match ps vs).
Proof.
  intros Hv Hp Hk Hs He. unfold indexKeyRangeStart, indexKeyRangeEnd, compareIndexKeys in *.
  rewrite (encodeIndexKey_compare ps vs start k) by done.
  rewrite prefix_match_bounds. rewrite (cmp_opp (c := lex_compare compareValues) ps vs).
  destruct ps as [|p ps].
  - injection He as <-. destruct vs; simpl; naive_solver.
  - rewrite Hs in He. injection He as <-. rewrite (encodeIndexKey_upper vs (p :: ps) k start) by done.
    by destruct (lex_compare compareValues (p :: ps) vs); cbn [CompOpp]; intuition congruence.
Qed.

Lemma indexKeyRange_prefix_witness :
  let ps := [VNull] in let vs := [VNull; VBool true] in
  compareIndexKeys [1] [1; 3] <> Gt /\ compareIndexKeys [1; 3] [1; 255] = Lt.
Proof.
  intros ps vs.
  exact (proj2 (indexKeyRange_prefix vs ps [1; 3] [1] (Some [1; 255])
    ltac:(repeat constructor) ltac:(repeat constructor) eq_refl eq_refl eq_refl) eq_refl).
Defined.

(** Encoding fails exactly on tuples with an array, an object or a bigint
    outside the signed 64-bit range. *)
Theorem encodeIndexKey_total vs :
  (exists k, encodeIndexKey vs = Ok k) <-> forallb indexable vs = true.
Proof.
  induction vs as [|v vs IH]; [simpl; split; eauto|]. cbn [forallb].
  rewrite andb_true_iff, <- IH. split.
  - intros [k H]. apply encodeIndexKey_cons in H as (e & ks & He & Hk & _).
    eauto using pushElement_indexable.
  - intros [Hv [ks Hk]]. destruct (pushElement_total v Hv) as [e He].
    eauto using encodeIndexKey_app_ok.
Qed.
