(* ===== verification/KeyRanges.v ===== *)
(** Keyspaces, key ranges, range sets and their wire form:
    packages/index-key-codec/src/range.ts, keyspace.ts, serialize.ts, with the
    storage names and point ranges of packages/id-codec/src/storage-id.ts and
    point-range.ts. *)
From Stdlib Require Import ZArith Lia.
From stdpp Require Import base list sets strings.
From S2P Require Import Prelude JsBase JsText KeyCodec.

(** * Keyspaces *)

Inductive keyspace :=
  | KsTable (table : jsstr)
  | KsIndex (table index : jsstr).

Definition colon : Z := 58.
Definition str_table : jsstr := [116; 97; 98; 108; 101].
Definition str_index : jsstr := [105; 110; 100; 101; 120].

Definition tableKeyspaceId (table : jsstr) : jsstr := str_table ++ [colon] ++ table.
Definition indexKeyspaceId (table index : jsstr) : jsstr :=
  str_index ++ [colon] ++ table ++ [colon] ++ index.
Definition keyspaceId (ks : keyspace) : jsstr :=
  match ks with
  | KsTable t => str_table ++ [colon] ++ t
  | KsIndex t i => str_index ++ [colon] ++ t ++ [colon] ++ i
  end.

Definition parseKeyspaceId (id : jsstr) : res keyspace :=
  match js_split colon id with
  | p0 :: rest =>
      if bool_decide (p0 = str_table) && (length (p0 :: rest) =? 2)%nat then
        Ok (KsTable (default [] (rest !! 0%nat)))
      else if bool_decide (p0 = str_index) && (3 <=? length (p0 :: rest))%nat then
        Ok (KsIndex (default [] (rest !! 0%nat)) (js_join colon (drop 1 rest)))
      else Throw (PlainError "invalid keyspace id")
  | [] => Throw (PlainError "invalid keyspace id")
  end.

Definition keyspace_table (ks : keyspace) : jsstr :=
  match ks with KsTable t => t | KsIndex t _ => t end.

Definition tableOfKeyspaceId (id : jsstr) : res jsstr :=
  ks ← parseKeyspaceId id; Ok (keyspace_table ks).

(** * Ranges *)

(** [kr_end = None] is the code's [null]: unbounded. *)
Record key_range := KeyRange { kr_keyspace : jsstr; kr_start : bytes; kr_end : option bytes }.

#[global] Instance key_range_eq_dec : EqDecision key_range.
Proof. solve_decision. Defined.

Definition keySuccessor (key : bytes) : bytes := key ++ [0].

(** [x < end], true when there is no bound. *)
Definition lt_end (x : bytes) (end_ : option bytes) : bool :=
  match end_ with None => true | Some e => cmp_ltb (compareKeyBytes x e) end.

Definition keyInRange (key : bytes) (r : key_range) : bool :=
  if cmp_ltb (compareKeyBytes key (kr_start r)) then false else lt_end key (kr_end r).

Definition rangesOverlap (a b : key_range) : bool :=
  if negb (bool_decide (kr_keyspace a = kr_keyspace b)) then false
  else lt_end (kr_start a) (kr_end b) && lt_end (kr_start b) (kr_end a).

(** [RangeSet]: the ranges of each keyspace, in the order of a JavaScript
    [Map]. *)
Definition range_set : Type := list (jsstr * list key_range).

Definition rs_empty : range_set := [].

Definition rs_add (s : range_set) (r : key_range) : range_set :=
  match jm_get s (kr_keyspace r) with
  | Some l => jm_set s (kr_keyspace r) (l ++ [r])
  | None => jm_set s (kr_keyspace r) [r]
  end.

Definition rs_addKey (s : range_set) (ks : jsstr) (key : bytes) : range_set :=
  rs_add s (KeyRange ks key (Some (keySuccessor key))).

Definition rs_addKeyspace (s : range_set) (ks : jsstr) : range_set :=
  rs_add s (KeyRange ks [] None).

Definition rs_intersectsRange (s : range_set) (r : key_range) : bool :=
  match jm_get s (kr_keyspace r) with
  | None => false
  | Some l => existsb (fun x => rangesOverlap x r) l
  end.

Definition rs_intersects (s other : range_set) : bool :=
  existsb (fun kl : jsstr * list key_range =>
    match jm_get other kl.1 with
    | None => false
    | Some l' => existsb (fun a => existsb (fun b => rangesOverlap a b) l') kl.2
    end) s.

Definition rs_toArray (s : range_set) : list key_range := concat (jm_values s).
Definition rs_keyspaces (s : range_set) : list jsstr := jm_keys s.
Definition rs_size (s : range_set) : nat := fold_left (fun n l => (n + length l)%nat) (jm_values s) 0%nat.
Definition rs_isEmpty (s : range_set) : bool := (rs_size s =? 0)%nat.

(** The distinct table names of a list of ranges, first occurrence first. *)
Definition set_add {A} `{EqDecision A} (s : list A) (x : A) : list A :=
  if bool_decide (x ∈ s) then s else s ++ [x].

Fixpoint tables_loop (tables : list jsstr) (rs : list key_range) : res (list jsstr) :=
  match rs with
  | [] => Ok tables
  | r :: rs' => t ← tableOfKeyspaceId (kr_keyspace r); tables_loop (set_add tables t) rs'
  end.
Definition writtenTablesFromRanges (rs : list key_range) : res (list jsstr) := tables_loop [] rs.

(** * Wire form *)

Record serialized_range := SerializedRange
  { sr_keyspace : jsstr; sr_start : jsstr; sr_end : option jsstr }.

Definition bytesToBase64 (bs : bytes) : jsstr := btoa bs.
Definition base64ToBytes (b64 : jsstr) : res bytes := atob b64.

Definition serializeKeyRange (r : key_range) : serialized_range :=
  SerializedRange (kr_keyspace r) (bytesToBase64 (kr_start r))
    (match kr_end r with None => None | Some e => Some (bytesToBase64 e) end).

Definition deserializeKeyRange (s : serialized_range) : res key_range :=
  start ← base64ToBytes (sr_start s);
  end_ ← match sr_end s with None => Ok None | Some e => x ← base64ToBytes e; Ok (Some x) end;
  Ok (KeyRange (sr_keyspace s) start end_).

(** * Storage names *)

Definition slash : Z := 47.

Definition encodeStorageTableId (tableNumber : Z) : jsstr := js_string_of tableNumber.

Definition decodeStorageTableId (tableId : jsstr) : res Z :=
  match parse_int 10 tableId with
  | None => Throw (PlainError "invalid storage table id")
  | Some n => if bool_decide (js_string_of n = tableId) then Ok n
              else Throw (PlainError "invalid storage table id")
  end.

Definition encodeStorageIndexId (tableNumber : Z) (indexName : jsstr) : jsstr :=
  js_string_of tableNumber ++ [slash] ++ indexName.

Definition decodeStorageIndexId (indexId : jsstr) : res (Z * jsstr) :=
  match split_first slash indexId with
  | None => Throw (PlainError "invalid storage index id")
  | Some (a, b) => n ← decodeStorageTableId a; Ok (n, b)
  end.

Definition keyToPointRange (indexId : jsstr) (key : bytes) : res serialized_range :=
  '(tableNumber, indexName) ← decodeStorageIndexId indexId;
  let ks := indexKeyspaceId (encodeStorageTableId tableNumber) indexName in
  Ok (serializeKeyRange (KeyRange ks key (Some (keySuccessor key)))).

Definition docKeyToPointRange (tableId : jsstr) (internalId : bytes) : serialized_range :=
  serializeKeyRange (KeyRange (tableKeyspaceId tableId) internalId (Some (keySuccessor internalId))).

(** * Order lemmas on keys *)

Lemma compare_successor_lt s k :
  Forall (fun b => 0 <= b) s -> cmp_ltb (compareKeyBytes s (keySuccessor k)) = cmp_leb (compareKeyBytes s k).
Proof.
  intros Hs. rewrite !compareKeyBytes_lex. unfold keySuccessor. revert k.
  induction Hs as [|x s Hx _ IH]; intros [|y k]; simpl; try done.
  - destruct (x ?= 0) eqn:E; zbool; try lia; [|done]. by destruct s.
  - destruct (x ?= y); auto.
Qed.

Lemma key_lt_successor k : compareKeyBytes k (keySuccessor k) = Lt.
Proof.
  rewrite compareKeyBytes_lex. unfold keySuccessor.
  induction k as [|x k IH]; simpl; [done|]. by rewrite Z.compare_refl.
Qed.

Lemma ltb_negb_leb (a b : bytes) :
  cmp_ltb (compareKeyBytes a b) = negb (cmp_leb (compareKeyBytes b a)).
Proof. rewrite (cmp_opp (c := compareKeyBytes) a b). by destruct (compareKeyBytes a b). Qed.

Lemma keyInRange_spec k r :
  keyInRange k r = true <-> compareKeyBytes (kr_start r) k <> Gt /\ lt_end k (kr_end r) = true.
Proof.
  unfold keyInRange. rewrite (cmp_opp (c := compareKeyBytes) k (kr_start r)).
  destruct (compareKeyBytes k (kr_start r)); simpl; intuition congruence.
Qed.

Lemma rangesOverlap_spec a b :
  rangesOverlap a b = true <->
  kr_keyspace a = kr_keyspace b /\ lt_end (kr_start a) (kr_end b) = true /\
  lt_end (kr_start b) (kr_end a) = true.
Proof.
  unfold rangesOverlap. case_bool_decide; simpl; [|naive_solver].
  rewrite andb_true_iff. naive_solver.
Qed.

Lemma rangesOverlap_sym a b : rangesOverlap a b = rangesOverlap b a.
Proof. apply eq_true_iff_eq. rewrite !rangesOverlap_spec. naive_solver. Qed.

Lemma lt_end_le x y e : compareKeyBytes x y <> Gt -> lt_end y e = true -> lt_end x e = true.
Proof.
  unfold lt_end. destruct e as [e|]; [|done]. unfold cmp_ltb. intros Hxy.
  destruct (compareKeyBytes y e) eqn:E; try done. intros _.
  by rewrite (cmp_le_lt_trans compareKeyBytes x y e).
Qed.

(** A point range overlaps a range exactly when it contains the key. *)
Lemma point_overlap ks k r :
  Forall (fun b => 0 <= b) (kr_start r) ->
  rangesOverlap (KeyRange ks k (Some (keySuccessor k))) r =
  bool_decide (ks = kr_keyspace r) && keyInRange k r.
Proof.
  intros Hr. apply eq_true_iff_eq.
  rewrite rangesOverlap_spec, andb_true_iff, bool_decide_eq_true, keyInRange_spec; simpl.
  rewrite compare_successor_lt by done.
  destruct (compareKeyBytes (kr_start r) k); simpl; intuition congruence.
Qed.

Lemma wf_bytes_nonneg s : wf_bytes s -> Forall (fun b => 0 <= b) s.
Proof. intros H. eapply Forall_impl; [exact H|]. intros b Hb. cbv beta in Hb. unfold is_byte in Hb. lia. Qed.

Definition range_nonempty (r : key_range) : Prop := lt_end (kr_start r) (kr_end r) = true.

Lemma start_in_range r : range_nonempty r -> keyInRange (kr_start r) r = true.
Proof. intros H. apply keyInRange_spec. by rewrite (cmp_refl (c := compareKeyBytes)). Qed.

Lemma overlap_common_key a b :
  range_nonempty a -> range_nonempty b ->
  rangesOverlap a b = true <->
  kr_keyspace a = kr_keyspace b /\ exists k, keyInRange k a = true /\ keyInRange k b = true.
Proof.
  intros Ha Hb. rewrite rangesOverlap_spec. unfold range_nonempty in *. split.
  - intros (Hk & H1 & H2). split; [done|].
    destruct (compareKeyBytes (kr_start a) (kr_start b)) eqn:E;
      [exists (kr_start b)|exists (kr_start b)|exists (kr_start a)];
      rewrite !keyInRange_spec, ?(cmp_refl (c := compareKeyBytes)), ?E; split_and!; try done.
    by rewrite (cmp_opp (c := compareKeyBytes) (kr_start a) (kr_start b)), E.
  - intros (Hk & k & [Ha1 Ha2]%keyInRange_spec & [Hb1 Hb2]%keyInRange_spec).
    split_and!; eauto using lt_end_le.
Qed.

(** * Range sets *)

(** Every bucket holds ranges of its own keyspace. *)
Definition rs_wf (s : range_set) : Prop :=
  NoDup (jm_keys s) /\ Forall (fun kl => Forall (fun r => kr_keyspace r = kl.1) kl.2) s.

Lemma rs_wf_empty : rs_wf rs_empty.
Proof. split; constructor. Qed.

Lemma jm_set_Forall {K V} `{EqDecision K} (P : K * V -> Prop) m k v :
  Forall P m -> P (k, v) -> Forall P (jm_set m k v).
Proof.
  intros Hm Hv. induction Hm as [|[k0 v0] m H0 Hm IH]; simpl; [by constructor|].
  case_decide; subst; by constructor.
Qed.

Lemma rs_wf_add s r : rs_wf s -> rs_wf (rs_add s r).
Proof.
  intros [Hn Hf]. unfold rs_add.
  destruct (jm_get s (kr_keyspace r)) as [l|] eqn:E; split; auto with concile;
    apply jm_set_Forall; try done; simpl.
  - apply jm_get_Some_in in E. rewrite Forall_forall in Hf.
    apply Forall_app; split; [exact (Hf _ E)|by repeat constructor].
  - by repeat constructor.
Qed.

Definition rs_of_list (rs : list key_range) : range_set := fold_left rs_add rs rs_empty.

Lemma rs_of_list_wf_from s rs : rs_wf s -> rs_wf (fold_left rs_add rs s).
Proof. revert s. induction rs as [|r rs IH]; intros s Hs; simpl; [done|]. apply IH, rs_wf_add, Hs. Qed.

Lemma rs_of_list_wf rs : rs_wf (rs_of_list rs).
Proof. apply rs_of_list_wf_from, rs_wf_empty. Qed.

Lemma elem_of_toArray s r : r ∈ rs_toArray s <-> exists k l, (k, l) ∈ s /\ r ∈ l.
Proof.
  unfold rs_toArray, jm_values. induction s as [|[k l] s IH]; csimpl; [set_solver|].
  rewrite elem_of_app, IH. set_solver.
Qed.

Lemma rs_toArray_set s k l r :
  NoDup (jm_keys s) ->
  r ∈ rs_toArray (jm_set s k l) <->
  r ∈ l \/ exists k' l', k' <> k /\ (k', l') ∈ s /\ r ∈ l'.
Proof.
  intros Hn. rewrite elem_of_toArray.
  assert (H : forall k' l', (k', l') ∈ jm_set s k l <->
                            (k' = k /\ l' = l) \/ (k' <> k /\ (k', l') ∈ s)).
  { intros k' l'. split.
    - intros Hin. apply jm_in_get in Hin; [|by apply jm_nodup_set].
      rewrite jm_get_set in Hin. case_decide; [naive_solver|].
      right. split; [done|]. by apply jm_get_Some_in.
    - intros [[-> ->]|[Hk Hin]]; apply jm_get_Some_in; rewrite jm_get_set; case_decide; try done.
      by apply jm_in_get. }
  setoid_rewrite H. naive_solver.
Qed.

Lemma rs_add_elem s r x : rs_wf s -> x ∈ rs_toArray (rs_add s r) <-> x = r \/ x ∈ rs_toArray s.
Proof.
  intros [Hn Hf]. unfold rs_add.
  destruct (jm_get s (kr_keyspace r)) as [l|] eqn:E; rewrite rs_toArray_set, elem_of_toArray by done.
  - pose proof (jm_get_Some_in _ _ _ E) as Hin. rewrite elem_of_app, list_elem_of_singleton. split.
    + naive_solver.
    + intros [->|(k & l' & Hk & Hx)]; [naive_solver|].
      destruct (decide (k = kr_keyspace r)) as [->|]; [|naive_solver].
      apply jm_in_get in Hk; [|done]. naive_solver.
  - rewrite list_elem_of_singleton. split; [naive_solver|].
    intros [->|(k & l' & Hk & Hx)]; [naive_solver|]. right. exists k, l'. split_and!; try done.
    intros ->. apply jm_in_get in Hk; [|done]. congruence.
Qed.

Lemma rs_of_list_elem_from s rs x :
  rs_wf s -> x ∈ rs_toArray (fold_left rs_add rs s) <-> x ∈ rs \/ x ∈ rs_toArray s.
Proof.
  revert s. induction rs as [|r rs IH]; intros s Hs; simpl; [set_solver|].
  rewrite IH, rs_add_elem by auto using rs_wf_add. set_solver.
Qed.

Lemma rs_of_list_elem rs x : x ∈ rs_toArray (rs_of_list rs) <-> x ∈ rs.
Proof.
  unfold rs_of_list. rewrite rs_of_list_elem_from by apply rs_wf_empty.
  unfold rs_toArray; simpl. set_solver.
Qed.

Lemma rs_intersects_spec s o :
  rs_wf s -> rs_wf o ->
  rs_intersects s o = true <->
  exists a b, a ∈ rs_toArray s /\ b ∈ rs_toArray o /\ rangesOverlap a b = true.
Proof.
  intros [Hs Fs] [Ho Fo]. unfold rs_intersects. rewrite existsb_exists. split.
  - intros ([k l] & Hin%list_elem_of_In & H). simpl in H.
    destruct (jm_get o k) as [l'|] eqn:E; [|done].
    apply existsb_exists in H as (a & Ha%list_elem_of_In & H).
    apply existsb_exists in H as (b & Hb%list_elem_of_In & H).
    exists a, b. rewrite !elem_of_toArray. apply jm_get_Some_in in E. naive_solver.
  - intros (a & b & Ha & Hb & H). rewrite elem_of_toArray in Ha, Hb.
    destruct Ha as (k & l & Hk & Ha), Hb as (k' & l' & Hk' & Hb).
    rewrite Forall_forall in Fs, Fo. specialize (Fs _ Hk). specialize (Fo _ Hk').
    rewrite Forall_forall in Fs, Fo. simpl in *. specialize (Fs _ Ha). specialize (Fo _ Hb).
    pose proof (proj1 (rangesOverlap_spec a b) H) as [Heq _].
    exists (k, l). split; [by apply list_elem_of_In|]. simpl.
    assert (k' = k) as -> by congruence. rewrite (jm_in_get _ _ _ Ho Hk').
    apply existsb_exists. exists a. split; [by apply list_elem_of_In|].
    apply existsb_exists. exists b. split; [by apply list_elem_of_In|done].
Qed.

Lemma rs_intersectsRange_spec s r :
  rs_wf s ->
  rs_intersectsRange s r = true <-> exists a, a ∈ rs_toArray s /\ rangesOverlap a r = true.
Proof.
  intros [Hs Fs]. unfold rs_intersectsRange. split.
  - destruct (jm_get s (kr_keyspace r)) as [l|] eqn:E; [|done].
    intros (a & Ha%list_elem_of_In & H)%existsb_exists. exists a.
    rewrite elem_of_toArray. apply jm_get_Some_in in E. naive_solver.
  - intros (a & (k & l & Hk & Ha)%elem_of_toArray & H).
    rewrite Forall_forall in Fs. pose proof (Fs _ Hk) as Fl. rewrite Forall_forall in Fl.
    specialize (Fl _ Ha). simpl in Fl.
    pose proof (proj1 (rangesOverlap_spec a r) H) as [Heq _].
    assert (k = kr_keyspace r) as -> by congruence. rewrite (jm_in_get _ _ _ Hs Hk).
    apply existsb_exists. exists a. split; [by apply list_elem_of_In|done].
Qed.

(** * Properties *)

(** Two non-empty ranges overlap exactly when they are in one keyspace and
    some key lies in both. *)
Theorem rangesOverlap_iff_common_key a b :
  lt_end (kr_start a) (kr_end a) = true -> lt_end (kr_start b) (kr_end b) = true ->
  rangesOverlap a b = true <->
  kr_keyspace a = kr_keyspace b /\ exists k, keyInRange k a = true /\ keyInRange k b = true.
Proof. apply overlap_common_key. Qed.

Lemma rangesOverlap_iff_common_key_witness :
  exists k, keyInRange k (KeyRange [97] [1] (Some [3])) = true /\
            keyInRange k (KeyRange [97] [2] None) = true.
Proof.
  exact (proj2 (proj1 (rangesOverlap_iff_common_key (KeyRange [97] [1] (Some [3]))
    (KeyRange [97] [2] None) eq_refl eq_refl) eq_refl)).
Defined.

(** Two range sets built by any additions intersect exactly when a range
    added to one overlaps a range added to the other. *)
Theorem rangeSet_intersects_added l1 l2 :
  rs_intersects (rs_of_list l1) (rs_of_list l2) = true <->
  exists a b, a ∈ l1 /\ b ∈ l2 /\ rangesOverlap a b = true.
Proof.
  rewrite rs_intersects_spec by apply rs_of_list_wf. setoid_rewrite rs_of_list_elem. done.
Qed.

Lemma deserialize_bounded ks start e :
  wf_bytes start -> wf_bytes e ->
  deserializeKeyRange (serializeKeyRange (KeyRange ks start (Some e))) =
  Ok (KeyRange ks start (Some e)).
Proof.
  intros Hs He. unfold deserializeKeyRange, serializeKeyRange, base64ToBytes, bytesToBase64; simpl.
  rewrite atob_btoa, bind_Ok, atob_btoa by done. done.
Qed.

Lemma deserialize_unbounded ks start :
  wf_bytes start ->
  deserializeKeyRange (serializeKeyRange (KeyRange ks start None)) = Ok (KeyRange ks start None).
Proof.
  intros Hs. unfold deserializeKeyRange, serializeKeyRange, base64ToBytes, bytesToBase64; simpl.
  by rewrite atob_btoa by done.
Qed.

(** A key range survives the wire form. *)
Theorem deserialize_serialize_range r :
  wf_bytes (kr_start r) -> (forall e, kr_end r = Some e -> wf_bytes e) ->
  deserializeKeyRange (serializeKeyRange r) = Ok r.
Proof.
  destruct r as [ks s [e|]]; simpl; intros Hs He;
    [apply deserialize_bounded; auto|by apply deserialize_unbounded].
Qed.

Lemma deserialize_serialize_range_witness :
  deserializeKeyRange (serializeKeyRange (KeyRange [97] [0; 255] (Some [1]))) =
  Ok (KeyRange [97] [0; 255] (Some [1])).
Proof.
  apply (deserialize_serialize_range (KeyRange [97] [0; 255] (Some [1]))).
  - repeat constructor; cbv; intuition discriminate.
  - intros e [= <-]. repeat constructor; cbv; intuition discriminate.
Defined.

Lemma parse_table_keyspace t :
  Forall (fun c => c <> colon) t -> parseKeyspaceId (tableKeyspaceId t) = Ok (KsTable t).
Proof.
  intros Ht. unfold parseKeyspaceId, tableKeyspaceId.
  change (str_table ++ [colon] ++ t) with (str_table ++ colon :: t). rewrite js_split_app by (repeat constructor; done). by rewrite js_split_plain.
Qed.

Lemma parse_index_keyspace t i :
  Forall (fun c => c <> colon) t -> parseKeyspaceId (indexKeyspaceId t i) = Ok (KsIndex t i).
Proof.
  intros Ht. unfold parseKeyspaceId, indexKeyspaceId.
  change (str_index ++ [colon] ++ t ++ [colon] ++ i) with (str_index ++ colon :: t ++ colon :: i).
  rewrite js_split_app by (repeat constructor; done).
  rewrite (js_split_app colon t i) by done.
  pose proof (js_join_split colon i). destruct (js_split colon i) as [|p ps] eqn:E;
    [by destruct (js_split_nonempty colon i)|].
  simpl. by rewrite <- H.
Qed.

Lemma storage_table_roundtrip n : 0 <= n -> decodeStorageTableId (encodeStorageTableId n) = Ok n.
Proof.
  intros Hn. unfold decodeStorageTableId, encodeStorageTableId.
  pose proof (parse_int_of_string n [] Hn I) as Hp. rewrite app_nil_r in Hp. rewrite Hp.
  by rewrite bool_decide_true.
Qed.

Lemma storage_index_roundtrip n name :
  0 <= n -> decodeStorageIndexId (encodeStorageIndexId n name) = Ok (n, name).
Proof.
  intros Hn. unfold decodeStorageIndexId, encodeStorageIndexId.
  change (js_string_of n ++ [slash] ++ name) with (js_string_of n ++ slash :: name).
  rewrite split_first_app.
  - change (js_string_of n) with (encodeStorageTableId n). by rewrite storage_table_roundtrip.
  - eapply Forall_impl; [by apply js_string_of_chars|]. unfold slash. intros c Hc. cbv beta in Hc. lia.
Qed.

(** The range a replica derives from a stored index row overlaps a
    subscription's range exactly when that range is over the index and holds
    the row's key; the storage id is translated to the engine's keyspace. *)
Theorem keyToPointRange_matches n name key r :
  0 <= n -> wf_bytes key -> wf_bytes (kr_start r) ->
  exists s p, keyToPointRange (encodeStorageIndexId n name) key = Ok s /\
    deserializeKeyRange s = Ok p /\
    (rangesOverlap p r = true <->
     kr_keyspace r = indexKeyspaceId (encodeStorageTableId n) name /\ keyInRange key r = true).
Proof.
  intros Hn Hk Hr. unfold keyToPointRange. rewrite storage_index_roundtrip by done.
  eexists _, (KeyRange (indexKeyspaceId (encodeStorageTableId n) name) key (Some (keySuccessor key))).
  split; [done|]. split.
  - apply deserialize_bounded; [done|]. apply wf_bytes_app; [done|by repeat constructor].
  - rewrite point_overlap by by apply wf_bytes_nonneg.
    rewrite andb_true_iff, bool_decide_eq_true. naive_solver.
Qed.

Lemma keyToPointRange_matches_witness :
  exists s p, keyToPointRange (encodeStorageIndexId 10001 [98]) [7] = Ok s /\
    deserializeKeyRange s = Ok p /\
    (rangesOverlap p (KeyRange [97] [1] None) = true <->
     [97] = indexKeyspaceId (encodeStorageTableId 10001) [98] /\
     keyInRange [7] (KeyRange [97] [1] None) = true).
Proof.
  apply (keyToPointRange_matches 10001 [98] [7] (KeyRange [97] [1] None)); [done|..];
    repeat constructor; cbv; intuition discriminate.
Defined.
