(* ===== verification/IntervalIndex.v ===== *)
(** The interval index behind subscription matching, a treap per keyspace:
    packages/index-key-codec/src/interval-index.ts. *)
From Stdlib Require Import ZArith Lia Sorted.
From stdpp Require Import base list sets strings.
From S2P Require Import Prelude JsBase JsText KeyCodec KeyRanges.

(** * The treap *)

Section treap.
Context {V : Type}.

(** A node's own fields; the priority is the hash of the first, second and
    fourth. *)
Record entry := Entry { e_start : bytes; e_end : option bytes; e_value : V; e_key : jsstr }.

Inductive treap :=
  | Leaf
  | Node (e : entry) (priority : Z) (maxEnd : option bytes) (left right : treap).

(** [h ^= byte; h = Math.imul(h, 0x01000193) >>> 0]. *)
Definition xor32 (a b : Z) : Z := to_int32 (Z.lxor (to_int32 a) (to_int32 b)).
Definition imul32 (a b : Z) : Z := to_int32 (to_int32 a * to_int32 b).
Definition mix (h byte : Z) : Z := to_uint32 (imul32 (xor32 h byte) 16777619).

Definition hashPriority (start : bytes) (end_ : option bytes) (valueKey : jsstr) : Z :=
  let h := fold_left mix start 2166136261 in
  let h := mix h 0 in
  let h := match end_ with None => mix h 255 | Some e => fold_left mix e h end in
  let h := mix h 0 in
  let h := fold_left (fun h c => mix h (and32 c 255)) valueKey h in
  to_uint32 h.

Definition maxEnd2 (a b : option bytes) : option bytes :=
  match a, b with
  | Some x, Some y => if cmp_ltb (compareKeyBytes x y) then Some y else Some x
  | _, _ => None
  end.

(** [aKey < node.valueKey] compares UTF-16 code units. *)
Definition str_compare (a b : jsstr) : comparison := lex_compare Z.compare a b.

Definition end_compare (a b : option bytes) : comparison :=
  match a, b with
  | None, None => Eq
  | None, Some _ => Gt
  | Some _, None => Lt
  | Some x, Some y => compareKeyBytes x y
  end.

Definition cmpEntry (start : bytes) (end_ : option bytes) (key : jsstr) (n : entry) : comparison :=
  match compareKeyBytes start (e_start n) with
  | Eq => match end_compare end_ (e_end n) with
          | Eq => str_compare key (e_key n)
          | ce => ce
          end
  | cs => cs
  end.

Definition node_max (e : entry) (l r : treap) : option bytes :=
  let m := e_end e in
  let m := match l with Leaf => m | Node _ _ lm _ _ => maxEnd2 m lm end in
  match r with Leaf => m | Node _ _ rm _ _ => maxEnd2 m rm end.

Definition recalcMax (n : treap) : treap :=
  match n with
  | Leaf => Leaf
  | Node e p _ l r => Node e p (node_max e l r) l r
  end.

(** The callers make sure the child is there. *)
Definition rotateRight (n : treap) : treap :=
  match n with
  | Node e p m (Node le lp lm ll lr) r =>
      recalcMax (Node le lp lm ll (recalcMax (Node e p m lr r)))
  | _ => n
  end.

Definition rotateLeft (n : treap) : treap :=
  match n with
  | Node e p m l (Node re rp rm rl rr) =>
      recalcMax (Node re rp rm (recalcMax (Node e p m l rl)) rr)
  | _ => n
  end.

Definition priority_of (t : treap) : Z := match t with Leaf => 0 | Node _ p _ _ _ => p end.

(** The tree and [this.size]. *)
Fixpoint insertAt (node : treap) (size : nat) (x : entry) : treap * nat :=
  match node with
  | Leaf =>
      (Node x (hashPriority (e_start x) (e_end x) (e_key x)) (e_end x) Leaf Leaf, S size)
  | Node e p m l r =>
      match cmpEntry (e_start x) (e_end x) (e_key x) e with
      | Eq => (node, size)
      | Lt =>
          let '(l', size') := insertAt l size x in
          let node' := Node e p m l' r in
          (recalcMax (if p <? priority_of l' then rotateRight node' else node'), size')
      | Gt =>
          let '(r', size') := insertAt r size x in
          let node' := Node e p m l r' in
          (recalcMax (if p <? priority_of r' then rotateLeft node' else node'), size')
      end
  end.

Fixpoint tree_size (t : treap) : nat :=
  match t with Leaf => 0 | Node _ _ _ l r => S (tree_size l + tree_size r) end.

(** Below a rotation the recursion is on a smaller tree, not on a subterm:
    [fuel] bounds it by the size of the tree. *)
Fixpoint removeAt_fuel (fuel : nat) (node : treap) (size : nat)
    (start : bytes) (end_ : option bytes) (key : jsstr) : treap * nat :=
  match fuel, node with
  | _, Leaf | O, _ => (node, size)
  | S fuel', Node e p m l r =>
      match cmpEntry start end_ key e with
      | Lt => let '(l', size') := removeAt_fuel fuel' l size start end_ key in
              (recalcMax (Node e p m l' r), size')
      | Gt => let '(r', size') := removeAt_fuel fuel' r size start end_ key in
              (recalcMax (Node e p m l r'), size')
      | Eq =>
          match l, r with
          | Leaf, _ => (r, pred size)
          | _, Leaf => (l, pred size)
          | _, _ =>
              if priority_of r <? priority_of l then
                match rotateRight node with
                | Node e' p' m' l' r' =>
                    let '(r'', size') := removeAt_fuel fuel' r' size start end_ key in
                    (recalcMax (Node e' p' m' l' r''), size')
                | Leaf => (Leaf, size)
                end
              else
                match rotateLeft node with
                | Node e' p' m' l' r' =>
                    let '(l'', size') := removeAt_fuel fuel' l' size start end_ key in
                    (recalcMax (Node e' p' m' l'' r'), size')
                | Leaf => (Leaf, size)
                end
          end
      end
  end.

Definition removeAt (node : treap) (size : nat) (start : bytes) (end_ : option bytes) (key : jsstr)
  : treap * nat :=
  removeAt_fuel (tree_size node) node size start end_ key.

Definition entry_range (ks : jsstr) (e : entry) : key_range := KeyRange ks (e_start e) (e_end e).

Fixpoint collectAt (node : treap) (ks : jsstr) (q : key_range) (out : list V) : list V :=
  match node with
  | Leaf => out
  | Node e _ m l r =>
      if (match m with None => false | Some x => cmp_leb (compareKeyBytes x (kr_start q)) end)
      then out
      else
        let out1 := collectAt l ks q out in
        let out2 := if rangesOverlap (entry_range ks e) q then out1 ++ [e_value e] else out1 in
        if lt_end (e_start e) (kr_end q) then collectAt r ks q out2 else out2
  end.
End treap.
Arguments entry : clear implicits.
Arguments treap : clear implicits.

(** * The index *)

Section interval_index.
Context {V : Type} (valueKey : V -> jsstr).

(** [byKeyspace]: each keyspace's tree with its [size]. *)
Definition interval_index : Type := list (jsstr * (treap V * nat)).

Definition ii_insert (ix : interval_index) (r : key_range) (v : V) : interval_index :=
  let tree := match jm_get ix (kr_keyspace r) with Some t => t | None => (Leaf, 0%nat) end in
  jm_set ix (kr_keyspace r)
    (insertAt tree.1 tree.2 (Entry (kr_start r) (kr_end r) v (valueKey v))).

Definition ii_remove (ix : interval_index) (r : key_range) (v : V) : interval_index :=
  match jm_get ix (kr_keyspace r) with
  | None => ix
  | Some tree =>
      let tree' := removeAt tree.1 tree.2 (kr_start r) (kr_end r) (valueKey v) in
      let ix' := jm_set ix (kr_keyspace r) tree' in
      if (tree'.2 =? 0)%nat then jm_delete ix' (kr_keyspace r) else ix'
  end.

Definition ii_queryOverlaps (ix : interval_index) (q : key_range) : list V :=
  match jm_get ix (kr_keyspace q) with
  | None => []
  | Some tree => collectAt tree.1 (kr_keyspace q) q []
  end.

Definition ii_size (ix : interval_index) : nat :=
  fold_left (fun n (t : treap V * nat) => (n + t.2)%nat) (jm_values ix) 0%nat.
End interval_index.

(** * The entry order *)

#[global] Instance str_compare_exact : CmpExact str_compare.
Proof. apply lex_exact. apply _. Qed.

#[global] Instance end_compare_exact : CmpExact end_compare.
Proof.
  split; [split|].
  - intros [x|]; simpl; [apply cmp_refl|done].
  - intros [x|] [y|]; simpl; try done. apply cmp_opp.
  - intros [x|] [y|] [z|]; unfold cmp_trans_at; simpl; try done.
    + apply (cmp_trans (c := compareKeyBytes)).
    + by destruct (compareKeyBytes x y).
    + by destruct (compareKeyBytes y z).
  - intros [x|] [y|]; simpl; try done. intros H. by rewrite (cmp_eq x y H).
Qed.

Section treap_proofs.
Context {V : Type}.
Notation entry := (entry V).
Notation treap := (treap V).

Definition entry_compare (x n : entry) : comparison := cmpEntry (e_start x) (e_end x) (e_key x) n.

Arguments entry_compare : simpl never.

Lemma entry_compare_then x n :
  entry_compare x n =
  then_cmp (compareKeyBytes (e_start x) (e_start n))
    (then_cmp (end_compare (e_end x) (e_end n)) (str_compare (e_key x) (e_key n))).
Proof.
  unfold entry_compare, cmpEntry.
  by destruct (compareKeyBytes _ _).
Qed.

#[global] Instance entry_compare_laws : CmpLaws entry_compare.
Proof.
  pose proof (then_cmp_laws
    (fun x n : entry => compareKeyBytes (e_start x) (e_start n))
    (fun x n : entry => then_cmp (end_compare (e_end x) (e_end n)) (str_compare (e_key x) (e_key n)))
    (cmp_on_laws e_start compareKeyBytes _)
    (then_cmp_laws _ _ (cmp_on_laws e_end end_compare _) (cmp_on_laws e_key str_compare _))) as H.
  split; [intros x|intros x y|intros x y z; unfold cmp_trans_at];
    rewrite !entry_compare_then; apply H.
Qed.

Lemma entry_compare_eq x n :
  entry_compare x n = Eq <->
  e_start x = e_start n /\ e_end x = e_end n /\ e_key x = e_key n.
Proof.
  rewrite entry_compare_then. split.
  - destruct (compareKeyBytes _ _) eqn:E1; [|done..]. destruct (end_compare _ _) eqn:E2; [|done..].
    simpl. intros E3. by rewrite (cmp_eq _ _ E1), (cmp_eq _ _ E2), (cmp_eq _ _ E3).
  - intros (-> & -> & ->). by rewrite !cmp_refl.
Qed.

(** * Contents *)

Fixpoint inorder (t : treap) : list entry :=
  match t with Leaf => [] | Node e _ _ l r => inorder l ++ e :: inorder r end.

Definition entry_lt (x y : entry) : Prop := entry_compare x y = Lt.
Definition bst (t : treap) : Prop := StronglySorted entry_lt (inorder t).

(** Insertion and removal in a sorted list. *)
Fixpoint ins (x : entry) (l : list entry) : list entry :=
  match l with
  | [] => [x]
  | y :: l' => match entry_compare x y with
               | Eq => l
               | Lt => x :: l
               | Gt => y :: ins x l'
               end
  end.

Definition del (x : entry) (l : list entry) : list entry :=
  base.filter (fun y => entry_compare x y <> Eq) l.

#[global] Instance entry_neq_dec x y : Decision (entry_compare x y <> Eq).
Proof. solve_decision. Defined.

Lemma sorted_app l1 l2 :
  StronglySorted entry_lt (l1 ++ l2) <->
  StronglySorted entry_lt l1 /\ StronglySorted entry_lt l2 /\
  Forall (fun x => Forall (entry_lt x) l2) l1.
Proof.
  induction l1 as [|x l1 IH]; simpl.
  - rewrite Forall_nil. split; [intros H; split_and!; [constructor|done|done]|by intros (_ & ? & _)].
  - rewrite Forall_cons. split.
    + intros [H1 H2]%StronglySorted_inv. apply IH in H1 as (? & ? & ?).
      apply Forall_app in H2 as [? ?]. split_and!; try done. by constructor.
    + intros ([H1 H2]%StronglySorted_inv & ? & ? & ?). constructor; [by apply IH|].
      by apply Forall_app.
Qed.

Lemma ins_before x y l1 l2 :
  entry_compare x y = Lt -> ins x (l1 ++ y :: l2) = ins x l1 ++ y :: l2.
Proof.
  intros H. induction l1 as [|z l1 IH]; simpl; [by rewrite H|].
  destruct (entry_compare x z); [done|done|]. by rewrite IH.
Qed.

Lemma ins_after x y l1 l2 :
  entry_compare x y = Gt -> Forall (fun z => entry_lt z y) l1 ->
  ins x (l1 ++ y :: l2) = l1 ++ y :: ins x l2.
Proof.
  intros H Hl. induction Hl as [|z l1 Hz _ IH]; simpl; [by rewrite H|].
  assert (entry_compare x z = Gt) as ->; [|by rewrite IH].
  apply (cmp_gt_lt entry_compare). apply (cmp_gt_lt entry_compare) in H.
  apply (cmp_lt_trans entry_compare z y x); [done|congruence].
Qed.

Lemma ins_present x y l1 l2 :
  entry_compare x y = Eq -> Forall (fun z => entry_lt z y) l1 ->
  ins x (l1 ++ y :: l2) = l1 ++ y :: l2.
Proof.
  intros H Hl. induction Hl as [|z l1 Hz _ IH]; simpl; [by rewrite H|].
  assert (entry_compare x z = Gt) as ->; [|by rewrite IH].
  apply (cmp_gt_lt entry_compare). apply (cmp_lt_trans entry_compare z y x); [done|].
  apply (cmp_eq_sym entry_compare) in H. congruence.
Qed.

Lemma bst_node e p m l r :
  bst (Node e p m l r) <->
  bst l /\ bst r /\ Forall (fun z => entry_lt z e) (inorder l) /\ Forall (entry_lt e) (inorder r) /\
  Forall (fun x => Forall (entry_lt x) (inorder r)) (inorder l).
Proof.
  unfold bst. simpl. rewrite sorted_app. split.
  - intros (? & [? ?]%StronglySorted_inv & Hlr). split_and!; try done;
      (eapply Forall_impl; [exact Hlr|]); intros x; cbv beta; by intros [? ?]%Forall_cons.
  - intros (? & ? & H1 & ? & H2). split_and!; [done|by constructor|].
    rewrite Forall_forall in *. intros x Hx. constructor; [by apply H1|by apply H2].
Qed.

Lemma inorder_recalc (t : treap) : inorder (recalcMax t) = inorder t.
Proof. by destruct t. Qed.

Lemma inorder_rotateRight t : inorder (rotateRight t) = inorder t.
Proof. destruct t as [|e p m [|le lp lm ll lr] r]; simpl; [done..|]. by rewrite <- app_assoc. Qed.

Lemma inorder_rotateLeft t : inorder (rotateLeft t) = inorder t.
Proof. destruct t as [|e p m l [|re rp rm rl rr]]; simpl; [done..|]. by rewrite <- app_assoc. Qed.

Lemma inorder_if (b : bool) (t1 t2 : treap) l :
  inorder t1 = l -> inorder t2 = l -> inorder (if b then t1 else t2) = l.
Proof. by destruct b. Qed.

Lemma insertAt_inorder t n x : bst t -> inorder (insertAt t n x).1 = ins x (inorder t).
Proof.
  revert n. induction t as [|e p m l IHl r IHr]; intros n H; [done|].
  apply bst_node in H as (Hl & Hr & Hle & Her & _). cbn [insertAt].
  change (cmpEntry (e_start x) (e_end x) (e_key x) e) with (entry_compare x e).
  specialize (IHl n Hl). specialize (IHr n Hr). cbn [inorder].
  destruct (entry_compare x e) eqn:E; cbn [fst].
  - by rewrite ins_present.
  - rewrite ins_before, <- IHl by done. destruct (insertAt l n x) as [l' n']; cbn [fst].
    rewrite inorder_recalc. by apply inorder_if; rewrite ?inorder_rotateRight.
  - rewrite ins_after, <- IHr by done. destruct (insertAt r n x) as [r' n']; cbn [fst].
    rewrite inorder_recalc. by apply inorder_if; rewrite ?inorder_rotateLeft.
Qed.

Lemma ins_elem x l y : y ∈ ins x l -> y = x \/ y ∈ l.
Proof.
  induction l as [|z l IH]; simpl; [set_solver|].
  destruct (entry_compare x z); set_solver.
Qed.

Lemma ins_sorted x l : StronglySorted entry_lt l -> StronglySorted entry_lt (ins x l).
Proof.
  induction 1 as [|y l Hl IH Hy]; simpl; [repeat constructor|].
  destruct (entry_compare x y) eqn:E; [by constructor|..].
  - constructor; [by constructor|]. constructor; [done|]. eapply Forall_impl; [exact Hy|].
    intros z Hz. cbv beta in Hz. unfold entry_lt in *.
    apply (cmp_lt_trans entry_compare x y z); [done|congruence].
  - constructor; [done|]. apply Forall_forall. intros z [->|Hz]%ins_elem.
    + by apply (cmp_gt_lt entry_compare).
    + rewrite Forall_forall in Hy. by apply Hy.
Qed.

(** * Removal *)

Lemma del_app x l1 l2 : del x (l1 ++ l2) = del x l1 ++ del x l2.
Proof. apply filter_app. Qed.

Lemma del_above x y l :
  entry_compare x y = Lt -> Forall (entry_lt y) l -> del x (y :: l) = y :: l.
Proof.
  intros H Hl. apply filter_all. constructor; [by rewrite H|].
  eapply Forall_impl; [exact Hl|]. intros z Hz. cbv beta in Hz.
  rewrite (cmp_lt_trans entry_compare x y z); [done|done|]. unfold entry_lt in Hz. congruence.
Qed.

Lemma del_below x y l :
  entry_compare x y <> Lt -> Forall (fun z => entry_lt z y) l -> del x l = l.
Proof.
  intros H Hl. apply filter_all. eapply Forall_impl; [exact Hl|]. intros z Hz Hc. cbv beta in Hz.
  apply H. apply (cmp_le_lt_trans entry_compare x z y); [congruence|done].
Qed.

Lemma del_self_app x y l1 l2 :
  entry_compare x y = Eq -> StronglySorted entry_lt (l1 ++ y :: l2) ->
  del x (l1 ++ y :: l2) = l1 ++ l2.
Proof.
  intros H Hs. apply sorted_app in Hs as (_ & [_ Hr]%StronglySorted_inv & Hl).
  rewrite del_app, (del_below x y) by
    (congruence || (eapply Forall_impl; [exact Hl|]; intros z [? _]%Forall_cons; done)).
  f_equal. unfold del. rewrite filter_cons_False by naive_solver. apply filter_all.
  eapply Forall_impl; [exact Hr|]. intros z Hz Hc. cbv beta in Hz.
  apply (cmp_eq_sym entry_compare) in H.
  assert (entry_compare y z = Eq); [|unfold entry_lt in Hz; congruence].
  pose proof (cmp_trans (c := entry_compare) y x z) as T. unfold cmp_trans_at in T.
  by rewrite H, Hc in T.
Qed.

Lemma StronglySorted_filter_entry x l : StronglySorted entry_lt l -> StronglySorted entry_lt (del x l).
Proof.
  unfold del. induction 1 as [|y l Hl IH Hy]; [constructor|]. rewrite filter_cons.
  destruct (decide _); [|done]. constructor; [done|].
  rewrite Forall_forall in *. intros z [_ Hz]%list_elem_of_filter. by apply Hy.
Qed.

Lemma tree_size_inorder (t : treap) : tree_size t = length (inorder t).
Proof. induction t; simpl; [done|]. rewrite length_app; simpl. lia. Qed.

Lemma tree_size_recalc (t : treap) : tree_size (recalcMax t) = tree_size t.
Proof. by destruct t. Qed.

Lemma bst_ext (t t' : treap) : inorder t' = inorder t -> bst t -> bst t'.
Proof. unfold bst. by intros ->. Qed.

(** One equation for the descent below a rotation and at a child. *)
Lemma del_node_right x e l r :
  entry_compare x e = Gt -> Forall (fun z => entry_lt z e) l ->
  del x (l ++ e :: r) = l ++ e :: del x r.
Proof.
  intros H Hl. rewrite del_app, (del_below x e) by (congruence || done).
  f_equal. apply filter_cons_True. congruence.
Qed.

Lemma removeAt_inorder x fuel t n :
  bst t -> (tree_size t <= fuel)%nat ->
  inorder (removeAt_fuel fuel t n (e_start x) (e_end x) (e_key x)).1 = del x (inorder t).
Proof.
  revert t n. induction fuel as [|fuel IH]; intros t n Hb Hf; [by destruct t; [|simpl in Hf; lia]|].
  destruct t as [|e p m l r]; [done|]. pose proof Hb as Hs. unfold bst in Hs. cbn [inorder] in Hs.
  apply bst_node in Hb as (Hl & Hr & Hle & Her & _). cbn [tree_size] in Hf. cbn [removeAt_fuel].
  change (cmpEntry (e_start x) (e_end x) (e_key x) e) with (entry_compare x e).
  destruct (entry_compare x e) eqn:E.
  - cbn [inorder]. rewrite del_self_app by done.
    destruct l as [|le lp lm ll lr]; [done|].
    destruct r as [|re rp rm rl rr]; [cbn [fst inorder]; by rewrite app_nil_r|].
    destruct (_ <? _); cbn [rotateRight rotateLeft recalcMax].
    + specialize (IH (recalcMax (Node e p m lr (Node re rp rm rl rr))) n).
      cbn [inorder] in Hs. rewrite <- app_assoc in Hs. apply sorted_app in Hs as (_ & Hs & _).
      cbn [recalcMax] in IH. destruct (removeAt_fuel fuel _ n _ _ _) as [t' n'] eqn:Et.
      cbn [fst recalcMax inorder] in *.
      rewrite IH, del_self_app by (unfold bst; cbn [inorder tree_size] in *; try lia; try done;
        by apply StronglySorted_inv in Hs as [? _]).
      by rewrite <- app_assoc.
    + specialize (IH (recalcMax (Node e p m (Node le lp lm ll lr) rl)) n).
      cbn [inorder] in Hs.
      change (e :: inorder rl ++ re :: inorder rr) with ((e :: inorder rl) ++ re :: inorder rr) in Hs.
      rewrite app_assoc in Hs. apply sorted_app in Hs as (Hs & _ & _).
      cbn [recalcMax] in IH. destruct (removeAt_fuel fuel _ n _ _ _) as [t' n'] eqn:Et.
      cbn [fst recalcMax inorder] in *.
      rewrite IH, del_self_app by (unfold bst; cbn [inorder tree_size] in *; try lia; done).
      by rewrite <- !app_assoc.
  - specialize (IH l n Hl ltac:(lia)). destruct (removeAt_fuel fuel l n _ _ _) as [l' n'].
    cbn [fst recalcMax inorder] in *. rewrite IH, del_app. f_equal. symmetry. by apply del_above.
  - specialize (IH r n Hr ltac:(lia)). destruct (removeAt_fuel fuel r n _ _ _) as [r' n'].
    cbn [fst recalcMax inorder] in *. by rewrite IH, del_node_right.
Qed.

Ltac lengths := repeat progress (rewrite ?length_app in *; cbn [length app] in * ).

Lemma removeAt_size (x : entry) fuel (t : treap) n :
  (length (inorder t) <= n)%nat ->
  let '(t', n') := removeAt_fuel fuel t n (e_start x) (e_end x) (e_key x) in
  (n' + length (inorder t) = n + length (inorder t'))%nat.
Proof.
  revert t n. induction fuel as [|fuel IH]; intros t n Hn; [by destruct t|].
  destruct t as [|e p m l r]; [done|]. cbn [removeAt_fuel]. cbn [inorder] in *.
  rewrite length_app in *. cbn [length] in *.
  destruct (cmpEntry _ _ _ e).
  - destruct l as [|le lp lm ll lr]; [simpl; lia|].
    destruct r as [|re rp rm rl rr]; [simpl; lia|].
    destruct (_ <? _); cbn [rotateRight rotateLeft recalcMax].
    + match goal with |- context [removeAt_fuel fuel ?t n _ _ _] => specialize (IH t n) end.
      destruct (removeAt_fuel fuel _ n _ _ _) as [t' n'].
      cbn [recalcMax inorder] in *. lengths. lia.
    + match goal with |- context [removeAt_fuel fuel ?t n _ _ _] => specialize (IH t n) end.
      destruct (removeAt_fuel fuel _ n _ _ _) as [t' n'].
      cbn [recalcMax inorder] in *. lengths. lia.
  - specialize (IH l n ltac:(lia)). destruct (removeAt_fuel fuel l n _ _ _) as [l' n'].
    cbn [recalcMax inorder]. rewrite !length_app; cbn [length]. lia.
  - specialize (IH r n ltac:(lia)). destruct (removeAt_fuel fuel r n _ _ _) as [r' n'].
    cbn [recalcMax inorder]. rewrite !length_app; cbn [length]. lia.
Qed.

Lemma insertAt_size (t : treap) n x :
  let '(t', n') := insertAt t n x in
  (n' + length (inorder t) = n + length (inorder t'))%nat.
Proof.
  revert n. induction t as [|e p m l IHl r IHr]; intros n; [simpl; lia|]. cbn [insertAt].
  destruct (cmpEntry _ _ _ e); [lia| |].
  - specialize (IHl n). destruct (insertAt l n x) as [l' n'].
    rewrite inorder_recalc, (inorder_if _ _ _ (inorder l' ++ e :: inorder r)) by
      (rewrite ?inorder_rotateRight; done).
    cbn [inorder]. rewrite !length_app. lia.
  - specialize (IHr n). destruct (insertAt r n x) as [r' n'].
    rewrite inorder_recalc, (inorder_if _ _ _ (inorder l ++ e :: inorder r')) by
      (rewrite ?inorder_rotateLeft; done).
    cbn [inorder]. rewrite !length_app; cbn [length]. lia.
Qed.

(** * The augmentation *)

Fixpoint max_ok (t : treap) : Prop :=
  match t with
  | Leaf => True
  | Node e _ m l r => m = node_max e l r /\ max_ok l /\ max_ok r
  end.

Definition children_max_ok (t : treap) : Prop :=
  match t with Leaf => True | Node _ _ _ l r => max_ok l /\ max_ok r end.

Lemma recalc_max_ok t : children_max_ok t -> max_ok (recalcMax t).
Proof. by destruct t. Qed.

Lemma rotateRight_max_ok t : children_max_ok t -> children_max_ok (rotateRight t).
Proof. destruct t as [|e p m [|le lp lm ll lr] r]; simpl; [done..|]. naive_solver. Qed.

Lemma rotateLeft_max_ok t : children_max_ok t -> children_max_ok (rotateLeft t).
Proof. destruct t as [|e p m l [|re rp rm rl rr]]; simpl; [done..|]. naive_solver. Qed.

Lemma insertAt_max_ok t n x : max_ok t -> max_ok (insertAt t n x).1.
Proof.
  revert n. induction t as [|e p m l IHl r IHr]; intros n; [done|]. intros (Hm & Hl & Hr).
  cbn [insertAt]. destruct (cmpEntry _ _ _ e); cbn [fst]; [done| |].
  - specialize (IHl n Hl). destruct (insertAt l n x) as [l' n']. cbn [fst] in *.
    apply recalc_max_ok. destruct (_ <? _); [apply rotateRight_max_ok|]; done.
  - specialize (IHr n Hr). destruct (insertAt r n x) as [r' n']. cbn [fst] in *.
    apply recalc_max_ok. destruct (_ <? _); [apply rotateLeft_max_ok|]; done.
Qed.

Lemma removeAt_max_ok x fuel t n :
  max_ok t -> max_ok (removeAt_fuel fuel t n (e_start x) (e_end x) (@e_key V x)).1.
Proof.
  revert t n. induction fuel as [|fuel IH]; intros t n Ht; [by destruct t|].
  destruct t as [|e p m l r]; [done|]. cbn [removeAt_fuel].
  pose proof Ht as (Hm & Hl & Hr).
  destruct (cmpEntry _ _ _ e).
  - destruct l as [|le lp lm ll lr]; [done|]. destruct r as [|re rp rm rl rr]; [done|].
    destruct (_ <? _); cbn [rotateRight rotateLeft recalcMax];
      match goal with |- context [removeAt_fuel fuel ?t n _ _ _] => specialize (IH t n) end;
      destruct (removeAt_fuel fuel _ n _ _ _) as [t' n']; cbn [fst recalcMax max_ok] in *; naive_solver.
  - specialize (IH l n Hl). destruct (removeAt_fuel fuel l n _ _ _). by cbn in *.
  - specialize (IH r n Hr). destruct (removeAt_fuel fuel r n _ _ _). by cbn in *.
Qed.

Lemma maxEnd2_l a b : end_compare a (maxEnd2 a b) <> Gt.
Proof.
  destruct a as [x|], b as [y|]; simpl; try done. unfold cmp_ltb.
  destruct (compareKeyBytes x y) eqn:E; simpl; rewrite ?E, ?(cmp_refl x); done.
Qed.

Lemma maxEnd2_r a b : end_compare b (maxEnd2 a b) <> Gt.
Proof.
  destruct a as [x|], b as [y|]; simpl; try done. unfold cmp_ltb.
  destruct (compareKeyBytes x y) eqn:E; simpl; rewrite ?(cmp_refl y); try done;
    rewrite (cmp_opp (c := compareKeyBytes) x y), E; done.
Qed.

Definition ends_below (m : option bytes) (l : list entry) : Prop :=
  Forall (fun x => end_compare (e_end x) m <> Gt) l.

Lemma ends_below_le m m' l : end_compare m m' <> Gt -> ends_below m l -> ends_below m' l.
Proof.
  intros Hm H. eapply Forall_impl; [exact H|]. intros x Hx. cbv beta in Hx.
  by apply (cmp_le_trans end_compare (e_end x) m m').
Qed.

Lemma max_ok_bound t :
  max_ok t -> match t with Leaf => True | Node _ _ m _ _ => ends_below m (inorder t) end.
Proof.
  induction t as [|e p m l IHl r IHr]; [done|]. intros (-> & Hl & Hr).
  specialize (IHl Hl). specialize (IHr Hr). cbn [inorder].
  apply Forall_app. split; [|constructor].
  - destruct l as [|le lp lm ll lr]; [constructor|]. eapply ends_below_le, IHl.
    unfold node_max. destruct r; [apply maxEnd2_r|].
    eapply (cmp_le_trans end_compare); [apply (maxEnd2_r (e_end e))|apply maxEnd2_l].
  - unfold node_max. destruct l, r; try apply maxEnd2_l; [by rewrite cmp_refl|].
    eapply (cmp_le_trans end_compare); [apply (maxEnd2_l (e_end e))|apply maxEnd2_l].
  - destruct r as [|re rp rm rl rr]; [constructor|]. eapply ends_below_le, IHr.
    unfold node_max. apply maxEnd2_r.
Qed.

(** * Queries *)

Definition hits (ks : jsstr) (q : key_range) (l : list entry) : list V :=
  e_value <$> base.filter (fun e => rangesOverlap (entry_range ks e) q = true) l.

Lemma hits_app ks q l1 l2 : hits ks q (l1 ++ l2) = hits ks q l1 ++ hits ks q l2.
Proof. unfold hits. by rewrite filter_app, fmap_app. Qed.

Lemma hits_none ks q l :
  Forall (fun e => rangesOverlap (entry_range ks e) q = false) l -> hits ks q l = [].
Proof.
  intros H. unfold hits. rewrite filter_none; [done|].
  eapply Forall_impl; [exact H|]. intros e He. cbv beta in *. congruence.
Qed.

Lemma no_overlap_end ks (e : entry) q x :
  end_compare (e_end e) (Some x) <> Gt -> compareKeyBytes x (kr_start q) <> Gt ->
  rangesOverlap (entry_range ks e) q = false.
Proof.
  intros He Hx. apply not_true_is_false. rewrite rangesOverlap_spec. intros (_ & _ & H). simpl in H.
  destruct (e_end e) as [y|]; [|done]. simpl in *.
  pose proof (cmp_le_trans compareKeyBytes y x (kr_start q) He Hx) as Hle.
  rewrite (cmp_opp (c := compareKeyBytes) y (kr_start q)) in H.
  destruct (compareKeyBytes y (kr_start q)); done.
Qed.

Lemma no_overlap_start ks (e x : entry) q :
  lt_end (e_start x) (kr_end q) = false -> entry_lt x e ->
  rangesOverlap (entry_range ks e) q = false.
Proof.
  intros Hx Hlt. apply not_true_is_false. rewrite rangesOverlap_spec. intros (_ & H & _). simpl in H.
  assert (Hs : compareKeyBytes (e_start x) (e_start e) <> Gt).
  { unfold entry_lt in Hlt. rewrite entry_compare_then in Hlt.
    by destruct (compareKeyBytes (e_start x) (e_start e)). }
  rewrite (lt_end_le _ _ _ Hs H) in Hx. done.
Qed.

Lemma collectAt_spec t ks q out :
  bst t -> max_ok t -> collectAt t ks q out = out ++ hits ks q (inorder t).
Proof.
  revert out. induction t as [|e p m l IHl r IHr]; intros out Hb Hm; cbn [collectAt].
  - by rewrite app_nil_r.
  - pose proof (max_ok_bound _ Hm) as Hends. cbv beta iota in Hends. destruct Hm as (_ & Hml & Hmr).
    apply bst_node in Hb as (Hl & Hr & _ & Her & _).
    destruct (match m with Some _ => _ | None => _ end) eqn:Ep.
    { rewrite hits_none; [by rewrite app_nil_r|]. destruct m as [x|]; [|done].
      eapply Forall_impl; [exact Hends|]. intros y Hy. cbv beta in Hy.
      eapply no_overlap_end; [exact Hy|]. intros Hc. by rewrite Hc in Ep. }
    rewrite IHl by done. cbn [inorder]. rewrite hits_app.
    assert (Hhd : forall o, (if lt_end (e_start e) (kr_end q) then collectAt r ks q o else o) =
                            o ++ hits ks q (inorder r)).
    { intros o. destruct (lt_end (e_start e) (kr_end q)) eqn:El; [by apply IHr|].
      rewrite hits_none; [by rewrite app_nil_r|]. eapply Forall_impl; [exact Her|].
      intros y Hy. by apply (no_overlap_start ks y e). }
    rewrite Hhd. unfold hits at 5. rewrite filter_cons.
    destruct (rangesOverlap (entry_range ks e) q); simpl; rewrite <- ?app_assoc; done.
Qed.

(** * The heap of priorities *)

Definition prio_le (p : Z) (t : treap) : Prop :=
  match t with Leaf => True | Node _ q _ _ _ => q <= p end.

Definition entry_priority (e : entry) : Z := hashPriority (e_start e) (e_end e) (e_key e).

Fixpoint heap (t : treap) : Prop :=
  match t with
  | Leaf => True
  | Node e p _ l r =>
      p = entry_priority e /\ prio_le p l /\ prio_le p r /\ heap l /\ heap r
  end.

Definition children_le (p : Z) (t : treap) : Prop :=
  match t with Leaf => True | Node _ _ _ l r => prio_le p l /\ prio_le p r end.

Lemma heap_recalc t : heap (recalcMax t) <-> heap t.
Proof. by destruct t. Qed.

Lemma prio_le_recalc p t : prio_le p (recalcMax t) <-> prio_le p t.
Proof. by destruct t. Qed.

Lemma children_le_recalc p t : children_le p (recalcMax t) <-> children_le p t.
Proof. by destruct t. Qed.

Lemma prio_le_trans p q t : p <= q -> prio_le p t -> prio_le q t.
Proof. destruct t; simpl; lia. Qed.

(** A new node may exceed the root it is inserted under; its children then do
    not exceed that root. *)
Definition lifted (t t' : treap) : Prop :=
  heap t' /\ forall p, prio_le p t -> prio_le p t' \/ children_le p t'.

Lemma lifted_left e p m l l' r :
  heap (Node e p m l r) -> lifted l l' -> (exists e0 p0 m0 a b, l' = Node e0 p0 m0 a b) ->
  lifted (Node e p m l r)
    (recalcMax (if p <? priority_of l' then rotateRight (Node e p m l' r) else Node e p m l' r)).
Proof.
  intros (Hp & Hpl & Hpr & Hl & Hr) [Hh Hc] (e0 & p0 & m0 & a & b & ->).
  specialize (Hc p Hpl). destruct Hh as (? & ? & ? & ? & ?). simpl in Hc.
  cbn [priority_of]. destruct (p <? p0) eqn:E; zbool; cbn [rotateRight recalcMax]; split.
  - destruct Hc as [|[? ?]]; [lia|]. simpl. split_and!; try done. lia.
  - intros q Hq. right. simpl in *. destruct Hc as [|[? ?]]; [lia|].
    split; [by apply (prio_le_trans p)|done].
  - simpl. by split_and!.
  - intros q Hq. by left.
Qed.

Lemma lifted_right e p m l r r' :
  heap (Node e p m l r) -> lifted r r' -> (exists e0 p0 m0 a b, r' = Node e0 p0 m0 a b) ->
  lifted (Node e p m l r)
    (recalcMax (if p <? priority_of r' then rotateLeft (Node e p m l r') else Node e p m l r')).
Proof.
  intros (Hp & Hpl & Hpr & Hl & Hr) [Hh Hc] (e0 & p0 & m0 & a & b & ->).
  specialize (Hc p Hpr). destruct Hh as (? & ? & ? & ? & ?). simpl in Hc.
  cbn [priority_of]. destruct (p <? p0) eqn:E; zbool; cbn [rotateLeft recalcMax]; split.
  - destruct Hc as [|[? ?]]; [lia|]. simpl. split_and!; try done. lia.
  - intros q Hq. right. simpl in *. destruct Hc as [|[? ?]]; [lia|].
    split; [done|by apply (prio_le_trans p)].
  - simpl. by split_and!.
  - intros q Hq. by left.
Qed.

Lemma insertAt_node (t : treap) n x : exists e0 p0 m0 a b, (insertAt t n x).1 = Node e0 p0 m0 a b.
Proof.
  destruct t as [|e p m l r]; [simpl; eauto 10|]. cbn [insertAt].
  destruct (cmpEntry _ _ _ e); [simpl; eauto 10|destruct (insertAt l n x) as [t' n']
    |destruct (insertAt r n x) as [t' n']]; cbn [fst];
    (destruct (_ <? _); [|simpl; eauto 10]); [destruct t'|destruct t']; simpl; eauto 10.
Qed.

Lemma insertAt_heap t n x : heap t -> lifted t (insertAt t n x).1.
Proof.
  revert n. induction t as [|e p m l IHl r IHr]; intros n Hh; cbn [insertAt].
  - split; [by simpl|]. intros q _. by right.
  - pose proof Hh as (_ & _ & _ & Hl & Hr).
    destruct (cmpEntry _ _ _ e); cbn [fst]; [by split; [|left]|..].
    + pose proof (insertAt_node l n x). specialize (IHl n Hl).
      destruct (insertAt l n x) as [l' n']. by apply lifted_left.
    + pose proof (insertAt_node r n x). specialize (IHr n Hr).
      destruct (insertAt r n x) as [r' n']. by apply lifted_right.
Qed.

Definition lowered (t t' : treap) (root : bool) : Prop :=
  heap t' /\ (forall p, prio_le p t -> prio_le p t') /\
  (root = true -> forall p, children_le p t -> prio_le p t').

Lemma removeAt_heap x fuel t n :
  heap t -> (tree_size t <= fuel)%nat ->
  lowered t (removeAt_fuel fuel t n (e_start x) (e_end x) (@e_key V x)).1
    (match t with Leaf => true | Node e _ _ _ _ => cmp_eqb (entry_compare x e) end).
Proof.
  revert t n. induction fuel as [|fuel IH]; intros t n Hh Hf; [destruct t; simpl in Hf; [done|lia]|].
  destruct t as [|e p m l r]; [done|]. cbn [removeAt_fuel tree_size] in *.
  change (cmpEntry (e_start x) (e_end x) (e_key x) e) with (entry_compare x e).
  pose proof Hh as (Hp & Hpl & Hpr & Hl & Hr).
  destruct (entry_compare x e) eqn:E; cbn [cmp_eqb].
  - destruct l as [|le lp lm ll lr].
    { split_and!; [done|by intros q Hq; apply (prio_le_trans p)|]. by intros _ q [_ ?]. }
    destruct r as [|re rp rm rl rr].
    { split_and!; [done|by intros q Hq; apply (prio_le_trans p)|]. by intros _ q [? _]. }
    destruct Hl as (? & ? & ? & ? & ?), Hr as (? & ? & ? & ? & ?). simpl in Hpl, Hpr.
    destruct (_ <? _) eqn:Ep; cbn [priority_of] in Ep; zbool; cbn [rotateRight rotateLeft recalcMax];
      match goal with |- context [removeAt_fuel fuel ?t n _ _ _] =>
        assert (IH' : lowered t (removeAt_fuel fuel t n (e_start x) (e_end x) (e_key x)).1
                        (cmp_eqb (entry_compare x e)))
          by (apply (IH t n); [simpl; split_and!; try done; first [by apply (prio_le_trans lp)|by apply (prio_le_trans rp)]|simpl in *; lia])
      end;
      rewrite E in IH'; destruct (removeAt_fuel fuel _ n _ _ _) as [t' n'];
      destruct IH' as (Hh1 & _ & Hh3); specialize (Hh3 eq_refl); cbn [fst] in *.
    + split_and!; [|by intros q ?; simpl in *; lia|by intros _ q [? ?]; simpl in *; lia].
      simpl. split_and!; try done. apply Hh3. simpl. split; [done|lia].
    + split_and!; [|by intros q ?; simpl in *; lia|by intros _ q [? ?]; simpl in *; lia].
      simpl. split_and!; try done. apply Hh3. simpl. split; [lia|done].
  - specialize (IH l n Hl ltac:(lia)). destruct (removeAt_fuel fuel l n _ _ _) as [l' n'].
    destruct IH as (? & H2 & _). split_and!; [|done|done]. simpl in *. split_and!; auto.
  - specialize (IH r n Hr ltac:(lia)). destruct (removeAt_fuel fuel r n _ _ _) as [r' n'].
    destruct IH as (? & H2 & _). split_and!; [|done|done]. simpl in *. split_and!; auto.
Qed.

(** * A keyspace's tree: invariant and operations *)

Record treap_ok (t : treap) (size : nat) : Prop := {
  ok_bst : bst t;
  ok_max : max_ok t;
  ok_heap : heap t;
  ok_size : size = length (inorder t)
}.

Lemma leaf_ok : treap_ok Leaf 0.
Proof. split; done || constructor. Qed.

Lemma insertAt_ok t n x :
  treap_ok t n -> treap_ok (insertAt t n x).1 (insertAt t n x).2 /\
  inorder (insertAt t n x).1 = ins x (inorder t).
Proof.
  intros [Hb Hm Hh ->]. pose proof (insertAt_inorder t (length (inorder t)) x Hb) as Hi.
  split; [|done]. split.
  - unfold bst. rewrite Hi. by apply ins_sorted.
  - by apply insertAt_max_ok.
  - by apply insertAt_heap.
  - pose proof (insertAt_size t (length (inorder t)) x) as Hs.
    destruct (insertAt _ _ _) as [t' n']. simpl. lia.
Qed.

Lemma removeAt_ok t n x :
  treap_ok t n ->
  let r := removeAt t n (e_start x) (e_end x) (e_key x) in
  treap_ok r.1 r.2 /\ inorder r.1 = del x (inorder t).
Proof.
  intros [Hb Hm Hh ->]. unfold removeAt. cbv zeta.
  pose proof (removeAt_inorder x (tree_size t) t (length (inorder t)) Hb (le_n _)) as Hi.
  split; [|done]. split.
  - unfold bst in *. rewrite Hi. apply StronglySorted_filter_entry. done.
  - by apply removeAt_max_ok.
  - by apply removeAt_heap.
  - pose proof (removeAt_size x (tree_size t) t (length (inorder t)) (le_n _)) as Hs.
    destruct (removeAt_fuel _ _ _ _ _ _) as [t' n']. simpl. lia.
Qed.
End treap_proofs.

(** * The index refines a set of (range, value) pairs *)

Section refinement.
Context {V : Type} (valueKey : V -> jsstr).
Notation index := (interval_index (V := V)).

(** The specification: registrations, one per range and value key. *)
Definition same_reg (r : key_range) (v : V) (rv : key_range * V) : Prop :=
  r = rv.1 /\ valueKey v = valueKey rv.2.
#[local] Instance same_reg_dec r v rv : Decision (same_reg r v rv).
Proof. unfold same_reg. apply _. Defined.

Definition spec_insert (s : list (key_range * V)) r v : list (key_range * V) :=
  if bool_decide (Exists (same_reg r v) s) then s else s ++ [(r, v)].
Definition spec_remove (s : list (key_range * V)) r v : list (key_range * V) :=
  base.filter (fun rv => ~ same_reg r v rv) s.

#[export] Instance spec_remove_proper :
  Proper ((≡ₚ) ==> (=) ==> (=) ==> (≡ₚ)) spec_remove.
Proof. intros l1 l2 H r ? <- v ? <-. unfold spec_remove. by rewrite H. Qed.

Inductive ii_op := OpInsert (r : key_range) (v : V) | OpRemove (r : key_range) (v : V).

Definition ii_step (ix : index) (o : ii_op) : index :=
  match o with
  | OpInsert r v => ii_insert valueKey ix r v
  | OpRemove r v => ii_remove valueKey ix r v
  end.
Definition spec_step (s : list (key_range * V)) (o : ii_op) : list (key_range * V) :=
  match o with OpInsert r v => spec_insert s r v | OpRemove r v => spec_remove s r v end.

Definition ii_run (ops : list ii_op) : index := fold_left ii_step ops [].
Definition spec_run (ops : list ii_op) : list (key_range * V) := fold_left spec_step ops [].

Definition tagged (ks : jsstr) (l : list (entry V)) : list (key_range * V) :=
  (fun e => (entry_range ks e, e_value e)) <$> l.

#[export] Instance tagged_proper ks : Proper ((≡ₚ) ==> (≡ₚ)) (tagged ks).
Proof. intros l1 l2 H. unfold tagged. by rewrite H. Qed.

Definition contents (ix : index) : list (key_range * V) :=
  concat ((fun kt : jsstr * (treap V * nat) => tagged kt.1 (inorder kt.2.1)) <$> ix).

Definition tree_ok (t : treap V * nat) : Prop :=
  treap_ok t.1 t.2 /\ Forall (fun e => e_key e = valueKey (e_value e)) (inorder t.1).

Definition ii_ok (ix : index) : Prop :=
  NoDup (jm_keys ix) /\ Forall (fun kt => tree_ok kt.2 /\ kt.2.2 <> 0%nat) ix.

Definition entry_of (r : key_range) (v : V) : entry V :=
  Entry (kr_start r) (kr_end r) v (valueKey v).

Lemma entry_of_same r v ks e :
  e_key e = valueKey (e_value e) -> kr_keyspace r = ks ->
  entry_compare (entry_of r v) e = Eq <-> same_reg r v (entry_range ks e, e_value e).
Proof.
  intros Hk <-. rewrite entry_compare_eq. unfold same_reg, entry_range. simpl. rewrite Hk.
  destruct r; simpl. naive_solver.
Qed.

Lemma contents_split ix k t :
  NoDup (jm_keys ix) -> jm_get ix k = Some t ->
  contents ix ≡ₚ tagged k (inorder t.1) ++ contents (jm_delete ix k).
Proof.
  unfold contents, jm_keys, jm_delete. induction ix as [|[k0 t0] ix IH]; csimpl; [done|].
  intros [Hk Hn]%NoDup_cons. rewrite filter_cons; simpl. destruct (decide (k = k0)) as [->|Hne].
  - intros [= ->]. rewrite decide_False by naive_solver.
    rewrite filter_all; [done|]. apply Forall_forall. intros [k' t'] Hin Heq. simpl in Heq. subst k'. apply Hk.
    apply list_elem_of_fmap. by exists (k0, t').
  - intros Hg. rewrite decide_True by done. simpl. rewrite (IH Hn Hg).
    by rewrite !(assoc_L (++)), (comm (++) (tagged k0 _)).
Qed.

Lemma jm_delete_set {K W} `{EqDecision K} (m : list (K * W)) k v :
  jm_delete (jm_set m k v) k = jm_delete m k.
Proof.
  unfold jm_delete. induction m as [|[k0 v0] m IH]; simpl.
  - rewrite filter_cons, decide_False; [done|]. simpl. intros Hk. by apply Hk.
  - destruct (decide (k = k0)) as [->|Hne]; rewrite !filter_cons; simpl.
    + by rewrite !decide_False by (intros Hk; by apply Hk).
    + by rewrite IH.
Qed.

Lemma jm_delete_absent {K W} `{EqDecision K} (m : list (K * W)) k :
  jm_get m k = None -> jm_delete m k = m.
Proof.
  intros H%jm_get_None. unfold jm_delete. apply filter_all, Forall_forall.
  intros [k' v'] Hin Heq. simpl in Heq. subst k'. apply H. apply list_elem_of_fmap. by exists (k, v').
Qed.

Lemma contents_set ix k t :
  NoDup (jm_keys ix) ->
  contents (jm_set ix k t) ≡ₚ tagged k (inorder t.1) ++ contents (jm_delete ix k).
Proof.
  intros Hn. rewrite (contents_split (jm_set ix k t) k t), jm_delete_set; auto with concile.
  by rewrite jm_get_set, decide_True.
Qed.

Lemma contents_other ix k rv : rv ∈ contents (jm_delete ix k) -> kr_keyspace rv.1 <> k.
Proof.
  unfold contents, jm_delete. rewrite list_elem_of_In, in_concat.
  intros (l & ([k' t] & <- & Hin%list_elem_of_In%list_elem_of_filter)%in_map_iff
            & (e & <- & _)%in_map_iff). by destruct Hin.
Qed.

Lemma ins_perm (x : entry V) l :
  StronglySorted entry_lt l ->
  ins x l ≡ₚ if bool_decide (Exists (fun y => entry_compare x y = Eq) l) then l else x :: l.
Proof.
  induction 1 as [|y l Hl IH Hy]; cbn [ins].
  { rewrite bool_decide_false; [done|]. intros H. inversion H. }
  destruct (entry_compare x y) eqn:E.
  - rewrite bool_decide_true; [done|by left].
  - rewrite bool_decide_false; [done|]. intros [?|Hex]%Exists_cons; [congruence|].
    apply Exists_exists in Hex as (z & Hz & Hc). rewrite Forall_forall in Hy.
    specialize (Hy z Hz). unfold entry_lt in Hy.
    rewrite (cmp_lt_trans entry_compare x y z) in Hc; congruence.
  - rewrite IH. destruct (decide (Exists (fun y => entry_compare x y = Eq) l)) as [He|He].
    + by rewrite !bool_decide_true by (done || by right).
    + assert (Hc : ~ Exists (fun y => entry_compare x y = Eq) (y :: l))
        by (intros [?|?]%Exists_cons; [congruence|done]).
      rewrite (bool_decide_false _ Hc), (bool_decide_false _ He). by rewrite Permutation_swap.
Qed.

Lemma tree_of ix k :
  ii_ok ix ->
  let t := match jm_get ix k with Some t => t | None => (Leaf, 0%nat) end in
  tree_ok t /\ contents ix ≡ₚ tagged k (inorder t.1) ++ contents (jm_delete ix k).
Proof.
  intros [Hn Hf]. destruct (jm_get ix k) as [t|] eqn:E; cbv zeta.
  - split; [|by apply contents_split]. rewrite Forall_forall in Hf.
    apply (Hf (k, t)), jm_get_Some_in, E.
  - split; [split; [apply leaf_ok|constructor]|]. by rewrite jm_delete_absent.
Qed.

Lemma exists_same_iff ix r v l :
  Forall (fun e => e_key e = valueKey (e_value e)) l ->
  Exists (same_reg r v) (tagged (kr_keyspace r) l ++ contents (jm_delete ix (kr_keyspace r))) <->
  Exists (fun y => entry_compare (entry_of r v) y = Eq) l.
Proof.
  intros Hl. unfold tagged. rewrite Exists_app, !Exists_exists.
  setoid_rewrite list_elem_of_fmap. rewrite Forall_forall in Hl. split.
  - intros [(rv & (e & -> & He) & Hs)|(rv & Hin & [-> _])].
    + exists e. split; [done|]. by apply (entry_of_same r v (kr_keyspace r)); auto.
    + by apply contents_other in Hin.
  - intros (e & He & Hc). left. exists (entry_range (kr_keyspace r) e, e_value e).
    split; [eauto|]. apply (entry_of_same r v (kr_keyspace r)) in Hc; auto.
Qed.

Lemma jm_set_ok ix k t :
  ii_ok ix -> tree_ok t -> t.2 <> 0%nat -> ii_ok (jm_set ix k t).
Proof. intros [Hn Hf] Ht H0. split; [auto with concile|]. by apply jm_set_Forall. Qed.

Lemma ii_insert_refines ix s r v :
  ii_ok ix -> contents ix ≡ₚ s ->
  ii_ok (ii_insert valueKey ix r v) /\
  contents (ii_insert valueKey ix r v) ≡ₚ spec_insert s r v.
Proof.
  intros Hix Hs. unfold ii_insert.
  destruct (tree_of ix (kr_keyspace r) Hix) as [[Hok Hv] Hc]. cbv zeta in *.
  set (t := match jm_get ix _ with Some t => t | None => _ end) in *.
  fold (entry_of r v).
  destruct (insertAt_ok t.1 t.2 (entry_of r v) Hok) as [Hok' Hin].
  pose proof (ins_perm (entry_of r v) (inorder t.1) (ok_bst _ _ Hok)) as Hp.
  assert (Hv' : Forall (fun e => e_key e = valueKey (e_value e)) (ins (entry_of r v) (inorder t.1))).
  { apply Forall_forall. intros e [->|He]%ins_elem; [done|].
    rewrite Forall_forall in Hv. by apply Hv. }
  assert (Hne : (insertAt t.1 t.2 (entry_of r v)).2 <> 0%nat).
  { rewrite (ok_size _ _ Hok'), Hin. destruct (inorder t.1); simpl; [done|]. by destruct (entry_compare _ _). }
  split; [apply jm_set_ok; [done|split; [done|by rewrite Hin]|done]|].
  rewrite contents_set by apply Hix. rewrite Hin. unfold spec_insert.
  assert (Hiff : Exists (same_reg r v) s <->
                 Exists (fun y => entry_compare (entry_of r v) y = Eq) (inorder t.1)).
  { rewrite <- (exists_same_iff ix r v _ Hv), <- Hc, Hs. done. }
  rewrite (bool_decide_ext _ _ Hiff). case_bool_decide as He.
  - by rewrite Hp, <- Hc, Hs.
  - rewrite Hp. simpl.
    change (entry_range (kr_keyspace r) (entry_of r v))
      with (KeyRange (kr_keyspace r) (kr_start r) (kr_end r)).
    rewrite <- Hs, Hc, <- (Permutation_cons_append _ (r, v)). by destruct r.
Qed.

Lemma ii_remove_refines ix s r v :
  ii_ok ix -> contents ix ≡ₚ s ->
  ii_ok (ii_remove valueKey ix r v) /\
  contents (ii_remove valueKey ix r v) ≡ₚ spec_remove s r v.
Proof.
  intros Hix Hs. unfold ii_remove.
  destruct (tree_of ix (kr_keyspace r) Hix) as [[Hok Hv] Hc]. cbv zeta in *.
  assert (Hrest : spec_remove (contents (jm_delete ix (kr_keyspace r))) r v =
                  contents (jm_delete ix (kr_keyspace r))).
  { apply filter_all, Forall_forall. intros rv Hin%contents_other [-> _]. done. }
  destruct (jm_get ix (kr_keyspace r)) as [t|] eqn:E.
  - destruct (removeAt_ok t.1 t.2 (entry_of r v) Hok) as [Hok' Hin]. cbv zeta in *.
    cbn [entry_of e_start e_end e_key] in Hok', Hin.
    set (t' := removeAt _ _ _ _ _) in *.
    assert (Hv' : Forall (fun e => e_key e = valueKey (e_value e)) (inorder t'.1)).
    { rewrite Hin, Forall_forall in *. intros e [_ He]%list_elem_of_filter. by apply Hv. }
    assert (Hdel : tagged (kr_keyspace r) (inorder t'.1) =
                   spec_remove (tagged (kr_keyspace r) (inorder t.1)) r v).
    { rewrite Hin. clear -Hv. unfold del, spec_remove, tagged.
      induction Hv as [|e l He _ IH]; [done|]. rewrite fmap_cons, !filter_cons.
      pose proof (entry_of_same r v (kr_keyspace r) e He eq_refl) as Hiff. rewrite <- IH.
      fold (entry_of r v). by do 2 destruct (decide _); naive_solver. }
    assert (Hset : contents (jm_set ix (kr_keyspace r) t') ≡ₚ spec_remove s r v).
    { rewrite contents_set by apply Hix. rewrite Hdel, <- Hs, Hc. unfold spec_remove.
      rewrite filter_app. fold (spec_remove (contents (jm_delete ix (kr_keyspace r))) r v).
      by rewrite Hrest. }
    destruct (Nat.eqb_spec t'.2 0) as [H0|H0].
    + rewrite jm_delete_set. split.
      * destruct Hix as [Hn Hf]. split; [auto with concile|]. unfold jm_delete.
        rewrite Forall_forall in *. intros kt [_ Hkt]%list_elem_of_filter. by apply Hf.
      * rewrite <- Hset, contents_set by apply Hix.
        rewrite (ok_size _ _ Hok') in H0. by destruct (inorder t'.1).
    + split; [by apply jm_set_ok|done].
  - split; [done|]. simpl in Hc. rewrite <- Hs, Hc. by rewrite Hrest.
Qed.

Lemma ii_run_refines_from ix s ops :
  ii_ok ix -> contents ix ≡ₚ s ->
  ii_ok (fold_left ii_step ops ix) /\
  contents (fold_left ii_step ops ix) ≡ₚ fold_left spec_step ops s.
Proof.
  revert ix s. induction ops as [|o ops IH]; intros ix s Hok Hs; [done|]. simpl.
  destruct o as [r v|r v]; [destruct (ii_insert_refines ix s r v Hok Hs)
                           |destruct (ii_remove_refines ix s r v Hok Hs)]; by apply IH.
Qed.

Lemma ii_run_refines ops : ii_ok (ii_run ops) /\ contents (ii_run ops) ≡ₚ spec_run ops.
Proof. apply ii_run_refines_from; [|done]. split; constructor. Qed.

Lemma query_contents ix q :
  ii_ok ix ->
  ii_queryOverlaps ix q ≡ₚ (base.filter (fun rv => rangesOverlap rv.1 q = true) (contents ix)).*2.
Proof.
  intros Hix. destruct (tree_of ix (kr_keyspace q) Hix) as [[Hok _] Hc]. cbv zeta in *.
  rewrite Hc, filter_app, fmap_app. rewrite (filter_none _ (contents _)).
  - unfold ii_queryOverlaps. simpl. rewrite app_nil_r.
    destruct (jm_get ix (kr_keyspace q)) as [t|]; [|done].
    rewrite collectAt_spec by apply Hok. simpl. unfold hits, tagged.
    clear Hc. induction (inorder t.1) as [|e l IH]; [done|]. rewrite fmap_cons, !filter_cons. simpl.
    destruct (decide _); csimpl; [by apply perm_skip|exact IH].
  - apply Forall_forall. intros rv Hin%contents_other Ho. apply Hin.
    by apply rangesOverlap_spec in Ho as [? _].
Qed.

Lemma size_contents ix : ii_ok ix -> ii_size ix = length (contents ix).
Proof.
  intros [_ Hf]. unfold ii_size, jm_values, contents.
  assert (H : forall n, fold_left (fun n (t : treap V * nat) => (n + t.2)%nat) ix.*2 n =
    (n + length (concat ((fun kt : jsstr * (treap V * nat) => tagged kt.1 (inorder kt.2.1)) <$> ix)))%nat);
    [|apply H].
  induction Hf as [|[k t] ix [[Hok _] _] _ IH]; intros n; csimpl; [lia|].
  pose proof (ok_size _ _ Hok) as Hsz. simpl in Hsz. rewrite IH, length_app.
  unfold tagged at 2. rewrite length_fmap. lia.
Qed.

(** C32: after any sequence of insertions and removals the interval index
    answers an overlap query with exactly the registered values whose range
    overlaps, each registration (range and value key) once, and its size is
    the number of registrations. *)
Theorem intervalIndex_refines ops q :
  ii_queryOverlaps (ii_run ops) q ≡ₚ
    (base.filter (fun rv => rangesOverlap rv.1 q = true) (spec_run ops)).*2 /\
  ii_size (ii_run ops) = length (spec_run ops).
Proof.
  destruct (ii_run_refines ops) as [Hok Hc]. split.
  - by rewrite query_contents, Hc.
  - by rewrite size_contents, Hc.
Qed.

(** C39: every tree of a reachable index is a binary search tree in the entry
    order, a heap of the hashed priorities, carries the maximal end of each
    subtree, and is dropped when it becomes empty. *)
Theorem intervalIndex_invariant ops ks t n :
  jm_get (ii_run ops) ks = Some (t, n) ->
  bst t /\ heap t /\ max_ok t /\ n = length (inorder t) /\ n <> 0%nat.
Proof.
  destruct (ii_run_refines ops) as [[_ Hf] _]. intros Hin%jm_get_Some_in.
  rewrite Forall_forall in Hf. destruct (Hf _ Hin) as [[[] _] ?]. by split_and!.
Qed.
End refinement.

Lemma intervalIndex_invariant_witness :
  let t := Node (Entry [1] (Some [3]) [7] [7]) (hashPriority [1] (Some [3]) [7]) (Some [3]) Leaf Leaf in
  bst t /\ heap t /\ max_ok t /\ 1%nat = length (inorder t) /\ 1%nat <> 0%nat.
Proof.
  intros t.
  exact (intervalIndex_invariant (fun v : jsstr => v)
    [OpInsert (KeyRange [97] [1] (Some [3])) [7]; OpInsert (KeyRange [97] [0] None) [8];
     OpRemove (KeyRange [97] [0] None) [8]] [97] t 1%nat eq_refl).
Defined.
