(* ===== verification/IdCodec.v ===== *)
(** Document ids: packages/id-codec/src/base32.ts, varint.ts, checksum.ts and
    document-id.ts. *)
From Stdlib Require Import ZArith Lia.
From stdpp Require Import base list sets strings.
From S2P Require Import Prelude JsBase JsText.

(** * base32.ts *)

Definition CROCKFORD_ALPHABET : jsstr :=
  [48; 49; 50; 51; 52; 53; 54; 55; 56; 57; 97; 98; 99; 100; 101; 102; 103; 104; 106; 107;
   109; 110; 112; 113; 114; 115; 116; 118; 119; 120; 121; 122].

Definition to_upper (c : Z) : Z := if (97 <=? c) && (c <=? 122) then c - 32 else c.

(** The decoding table, built as the code builds it. *)
Definition DECODE : list (Z * Z) :=
  let m := fold_left (fun m (ic : nat * Z) =>
             jm_set (jm_set m ic.2 (Z.of_nat ic.1)) (to_upper ic.2) (Z.of_nat ic.1))
             (imap pair CROCKFORD_ALPHABET) [] in
  let m := jm_set (jm_set m 105 1) 73 1 in
  let m := jm_set (jm_set m 108 1) 76 1 in
  jm_set (jm_set m 111 0) 79 0.

Definition alphabet_char (i : Z) : Z := default 0 (CROCKFORD_ALPHABET !! Z.to_nat i).

(** [while (bits >= 5)]. *)
Fixpoint b32_emit (fuel : nat) (value bits : Z) (out : jsstr) : Z * jsstr :=
  match fuel with
  | O => (bits, out)
  | S fuel' =>
      if 5 <=? bits then
        b32_emit fuel' value (bits - 5) (out ++ [alphabet_char (and32 (shru32 value (bits - 5)) 31)])
      else (bits, out)
  end.

Fixpoint b32_encode_loop (bs : bytes) (value bits : Z) (out : jsstr) : jsstr :=
  match bs with
  | [] =>
      if 0 <? bits then out ++ [alphabet_char (and32 (shl32 value (5 - bits)) 31)] else out
  | b :: bs' =>
      let value' := or32 (shl32 value 8) b in
      let '(bits', out') := b32_emit (Z.to_nat (bits + 8)) value' (bits + 8) out in
      b32_encode_loop bs' value' bits' out'
  end.

Definition base32Encode (bs : bytes) : jsstr := b32_encode_loop bs 0 0 [].

Fixpoint b32_decode_loop (text : jsstr) (value bits : Z) (out : bytes) : res bytes :=
  match text with
  | [] =>
      if (0 <? bits) && negb (and32 value (shl32 1 bits - 1) =? 0)
      then Throw (Base32Error "non-canonical base32 padding bits") else Ok out
  | ch :: text' =>
      match jm_get DECODE ch with
      | None => Throw (Base32Error "invalid base32 character")
      | Some v =>
          let value' := or32 (shl32 value 5) v in
          if 8 <=? bits + 5 then
            b32_decode_loop text' value' (bits + 5 - 8)
              (out ++ [and32 (shru32 value' (bits + 5 - 8)) 255])
          else b32_decode_loop text' value' (bits + 5) out
      end
  end.

Definition base32Decode (text : jsstr) : res bytes := b32_decode_loop text 0 0 [].

Definition isValidBase32 (text : jsstr) : bool :=
  forallb (fun ch => match jm_get DECODE ch with Some _ => true | None => false end) text.

(** * varint.ts *)

Definition UINT32_MAX : Z := 4294967295.

(** The [do ... while (v > 0)] loop; the fuel is the bit length. *)
Fixpoint varint_encode_loop (fuel : nat) (v : Z) (out : bytes) : bytes :=
  match fuel with
  | O => out
  | S fuel' =>
      let byte := and32 v 127 in
      let v' := v / 128 in
      let byte' := if 0 <? v' then or32 byte 128 else byte in
      if 0 <? v' then varint_encode_loop fuel' v' (out ++ [byte']) else out ++ [byte']
  end.

Definition varintEncode (value : Z) : res bytes :=
  if (value <? 0) || (UINT32_MAX <? value) then Throw (VarintError "varint value out of uint32 range")
  else Ok (varint_encode_loop (S (Z.to_nat (Z.log2 value))) value []).

Fixpoint varint_decode_loop (rest : bytes) (result shift : Z) (read : nat) : res (Z * nat) :=
  match rest with
  | [] => Throw (VarintError "varint truncated")
  | byte :: rest' =>
      let result' := result + and32 byte 127 * 2 ^ shift in
      if and32 byte 128 =? 0 then
        if UINT32_MAX <? result' then Throw (VarintError "varint exceeds uint32")
        else Ok (result', S read)
      else if 28 <? shift + 7 then Throw (VarintError "varint exceeds uint32")
      else varint_decode_loop rest' result' (shift + 7) (S read)
  end.

(** The value and [bytesRead]. *)
Definition varintDecode (bs : bytes) (offset : nat) : res (Z * nat) :=
  varint_decode_loop (drop offset bs) 0 0 0.

Definition varintEncodedLength (value : Z) : res nat := bs ← varintEncode value; Ok (length bs).

(** * checksum.ts *)

Fixpoint fletcher_loop (bs : bytes) (sum1 sum2 : Z) : Z * Z :=
  match bs with
  | [] => (sum1, sum2)
  | b :: bs' =>
      let sum1' := (sum1 + b) mod 255 in
      fletcher_loop bs' sum1' ((sum2 + sum1') mod 255)
  end.

Definition fletcher16 (bs : bytes) : Z :=
  let '(sum1, sum2) := fletcher_loop bs 0 0 in or32 (shl32 sum2 8) sum1.

Definition verifyFletcher16 (bs : bytes) (checksum : Z) : bool := fletcher16 bs =? checksum.

(** * document-id.ts *)

Definition INTERNAL_ID_BYTES : nat := 16.
Definition CHECKSUM_BYTES : nat := 2.

Record doc_id := DocId { tableNumber : Z; internalId : bytes }.

#[global] Instance doc_id_eq_dec : EqDecision doc_id.
Proof. solve_decision. Defined.

Definition concatBytes (parts : list bytes) : bytes := concat parts.

Definition internalIdToHex (internalId : bytes) : jsstr :=
  fold_left (fun hex b => hex ++ pad_start2 (num_to_string 16 b)) internalId [].

(** [out[i] = byte] into a byte array wraps. *)
Fixpoint hex_pairs (hex : jsstr) : res bytes :=
  match hex with
  | a :: b :: hex' =>
      match parse_int 16 [a; b] with
      | None => Throw (DocumentIdError "invalid hex")
      | Some byte => rest ← hex_pairs hex'; Ok (byte mod 256 :: rest)
      end
  | _ => Ok []
  end.

Definition hexToInternalId (hex : jsstr) : res bytes :=
  if negb (Nat.modulo (length hex) 2 =? 0)%nat then Throw (DocumentIdError "odd-length hex")
  else hex_pairs hex.

(** The sixteen bytes of [crypto.getRandomValues] are an argument. *)
Definition newDocumentId (tn : Z) (random : bytes) : doc_id := DocId tn random.

Definition encodeDocumentId (tn : Z) (internalId : bytes) : res jsstr :=
  if negb (length internalId =? INTERNAL_ID_BYTES)%nat
  then Throw (DocumentIdError "internalId must be 16 bytes")
  else
    v ← varintEncode tn;
    let prefix := concatBytes [v; internalId] in
    let checksum := fletcher16 prefix in
    let checksumBytes := [and32 (shru32 checksum 8) 255; and32 checksum 255] in
    Ok (base32Encode (concatBytes [prefix; checksumBytes])).

Definition encodeInternalDocumentId (id : doc_id) : res jsstr :=
  encodeDocumentId (tableNumber id) (internalId id).

Definition mintEncodedDocumentId (tn : Z) (random : bytes) : res jsstr :=
  encodeInternalDocumentId (newDocumentId tn random).

Definition decodeDocumentId (encoded : jsstr) : res doc_id :=
  bs ← match base32Decode encoded with
       | Ok bs => Ok bs
       | Throw (Base32Error m) => Throw (DocumentIdError m)
       | Throw _ => Throw (DocumentIdError "invalid base32")
       end;
  '(tn, bytesRead) ← match varintDecode bs 0 with
                     | Ok r => Ok r
                     | Throw _ => Throw (DocumentIdError "invalid table number")
                     end;
  let internalIdEnd := (bytesRead + INTERNAL_ID_BYTES)%nat in
  if negb (length bs =? internalIdEnd + CHECKSUM_BYTES)%nat
  then Throw (DocumentIdError "incorrect id length")
  else
    let internalId := drop bytesRead (take internalIdEnd bs) in
    let checksum := or32 (shl32 (default 0 (bs !! internalIdEnd)) 8)
                         (default 0 (bs !! S internalIdEnd)) in
    let prefix := take internalIdEnd bs in
    if negb (verifyFletcher16 prefix checksum) then Throw (DocumentIdError "checksum mismatch")
    else Ok (DocId tn internalId).

Definition tryDecodeDocumentId (encoded : jsstr) : option doc_id :=
  match decodeDocumentId encoded with Ok id => Some id | Throw _ => None end.

Definition isValidDocumentId (encoded : jsstr) (expected : option Z) : bool :=
  match tryDecodeDocumentId encoded with
  | None => false
  | Some d => match expected with None => true | Some n => tableNumber d =? n end
  end.

(** [Math.ceil(byteLen * 8 / 5)]. *)
Definition getEncodedLength (tn : Z) : res Z :=
  n ← varintEncodedLength tn;
  let byteLen := Z.of_nat (n + INTERNAL_ID_BYTES + CHECKSUM_BYTES) in
  Ok (- ((- (byteLen * 8)) / 5)).

Definition documentIdKey (id : doc_id) : jsstr :=
  js_string_of (tableNumber id) ++ [58] ++ internalIdToHex (internalId id).

Definition parseDocumentIdKey (key : jsstr) : res doc_id :=
  match split_first 58 key with
  | None => Throw (DocumentIdError "invalid document id key")
  | Some (a, b) =>
      match parse_int 10 a with
      | None => Throw (DocumentIdError "invalid table number in key")
      | Some tn => i ← hexToInternalId b; Ok (DocId tn i)
      end
  end.

Fixpoint bytes_equal_loop (a b : bytes) : bool :=
  match a, b with
  | x :: a', y :: b' => if x =? y then bytes_equal_loop a' b' else false
  | _, _ => true
  end.

Definition documentIdsEqual (a b : doc_id) : bool :=
  if negb (tableNumber a =? tableNumber b)
     || negb (length (internalId a) =? length (internalId b))%nat then false
  else bytes_equal_loop (internalId a) (internalId b).

(** * Words as bit lists *)

(** The low [n] bits of [z], most significant first. *)
Fixpoint word_bits (n : nat) (z : Z) : list bool :=
  match n with O => [] | S n' => Z.testbit z (Z.of_nat n') :: word_bits n' z end.

Lemma word_bits_length n z : length (word_bits n z) = n.
Proof. induction n; simpl; auto. Qed.

Lemma word_bits_ext n x y :
  (forall i, 0 <= i < Z.of_nat n -> Z.testbit x i = Z.testbit y i) -> word_bits n x = word_bits n y.
Proof.
  induction n as [|n IH]; intros H; [done|]. cbn [word_bits]. rewrite H by lia. f_equal.
  apply IH. intros. apply H. lia.
Qed.

Lemma word_bits_app m n z : word_bits (m + n) z = word_bits m (Z.shiftr z (Z.of_nat n)) ++ word_bits n z.
Proof.
  induction m as [|m IH]; [done|]. cbn [Nat.add word_bits app]. rewrite IH. f_equal.
  rewrite Z.shiftr_spec by lia. f_equal. lia.
Qed.

Lemma testbit_small x n i : 0 <= x < 2 ^ n -> 0 <= n <= i -> Z.testbit x i = false.
Proof.
  intros Hx Hi. destruct (Z.eq_dec x 0) as [->|]; [apply Z.bits_0|].
  apply Z.bits_above_log2; [lia|]. apply Z.lt_le_trans with n; [|lia]. apply Z.log2_lt_pow2; lia.
Qed.

Lemma word_bits_inj n x y :
  0 <= x < 2 ^ Z.of_nat n -> 0 <= y < 2 ^ Z.of_nat n -> word_bits n x = word_bits n y -> x = y.
Proof.
  intros Hx Hy H. apply Z.bits_inj'. intros i Hi.
  destruct (Z.lt_ge_cases i (Z.of_nat n)) as [Hlt|Hge].
  - clear Hx Hy. induction n as [|n IH]; [lia|]. injection H as H1 H2.
    destruct (Z.eq_dec i (Z.of_nat n)) as [->|]; [done|]. apply IH; [done|lia].
  - by rewrite !(testbit_small _ (Z.of_nat n)) by lia.
Qed.

Lemma testbit_mod32 x i : 0 <= i < 32 -> Z.testbit (x mod 2 ^ 32) i = Z.testbit x i.
Proof. intros. apply Z.mod_pow2_bits_low. lia. Qed.

Lemma testbit_int32 x i : 0 <= i < 32 -> Z.testbit (to_int32 x) i = Z.testbit x i.
Proof.
  intros Hi. rewrite <- (testbit_mod32 (to_int32 x)), to_int32_mod, testbit_mod32 by lia. done.
Qed.

Lemma testbit_shl32 x n i : 0 <= n -> 0 <= i < 32 ->
  Z.testbit (shl32 x n) i = if i <? n then false else Z.testbit x (i - n).
Proof.
  intros Hn Hi. unfold shl32. rewrite testbit_int32 by lia.
  destruct (Z.ltb_spec i n).
  - apply Z.shiftl_spec_low. lia.
  - rewrite Z.shiftl_spec_high by lia. apply testbit_int32. lia.
Qed.

Lemma testbit_or32 x y i : 0 <= i < 32 ->
  Z.testbit (or32 x y) i = Z.testbit x i || Z.testbit y i.
Proof. intros Hi. unfold or32. by rewrite testbit_int32, Z.lor_spec, !testbit_int32 by lia. Qed.

Lemma testbit_and32 x y i : 0 <= i < 32 ->
  Z.testbit (and32 x y) i = Z.testbit x i && Z.testbit y i.
Proof. intros Hi. unfold and32. by rewrite testbit_int32, Z.land_spec, !testbit_int32 by lia. Qed.

Lemma testbit_shru32 x n i : 0 <= n -> 0 <= i -> i + n < 32 ->
  Z.testbit (shru32 x n) i = Z.testbit x (i + n).
Proof.
  intros Hn Hi H. unfold shru32, to_uint32. rewrite Z.shiftr_spec by lia. apply testbit_mod32. lia.
Qed.

Lemma and32_ones x (k : nat) : (k <= 31)%nat ->
  and32 x (2 ^ Z.of_nat k - 1) = x mod 2 ^ Z.of_nat k.
Proof.
  intros Hk.
  assert (Hm : 0 < 2 ^ Z.of_nat k <= 2 ^ 31)
    by (split; [apply Z.pow_pos_nonneg; lia|apply Z.pow_le_mono_r; lia]).
  unfold and32. rewrite (to_int32_small (_ - 1)) by lia.
  replace (2 ^ Z.of_nat k - 1) with (Z.ones (Z.of_nat k)) by (rewrite Z.ones_equiv; lia).
  rewrite Z.land_ones, to_int32_mod_le by lia.
  pose proof (Z.mod_pos_bound x (2 ^ Z.of_nat k) ltac:(lia)). apply to_int32_small. lia.
Qed.

(** A mask keeps exactly the low bits. *)
Lemma and32_mask x (k : nat) : (k <= 31)%nat ->
  0 <= and32 x (2 ^ Z.of_nat k - 1) < 2 ^ Z.of_nat k /\
  word_bits k (and32 x (2 ^ Z.of_nat k - 1)) = word_bits k x.
Proof.
  intros Hk. rewrite and32_ones by done.
  split; [apply Z.mod_pos_bound; apply Z.pow_pos_nonneg; lia|].
  apply word_bits_ext. intros i Hi. apply Z.mod_pow2_bits_low. lia.
Qed.

(** Shifting [k] new bits in below [n] pending ones. *)
Lemma word_bits_push (n k : nat) v b :
  (n + k <= 32)%nat -> 0 <= b < 2 ^ Z.of_nat k ->
  word_bits (n + k) (or32 (shl32 v (Z.of_nat k)) b) = word_bits n v ++ word_bits k b.
Proof.
  intros Hn Hb. rewrite word_bits_app. f_equal; apply word_bits_ext; intros i Hi.
  - rewrite Z.shiftr_spec, testbit_or32, testbit_shl32 by lia.
    rewrite (proj2 (Z.ltb_ge _ _)) by lia. rewrite (testbit_small b (Z.of_nat k)) by lia.
    rewrite orb_false_r. f_equal. lia.
  - rewrite testbit_or32, testbit_shl32 by lia. by rewrite (proj2 (Z.ltb_lt _ _)) by lia.
Qed.

(** Taking the top [k] of [n + k] pending bits. *)
Lemma word_bits_top (n k : nat) v :
  (n + k <= 32)%nat -> (k <= 31)%nat ->
  let c := and32 (shru32 v (Z.of_nat n)) (2 ^ Z.of_nat k - 1) in
  0 <= c < 2 ^ Z.of_nat k /\ word_bits (k + n) v = word_bits k c ++ word_bits n v.
Proof.
  intros Hn Hk c. destruct (and32_mask (shru32 v (Z.of_nat n)) k Hk) as [Hr Hw].
  split; [done|]. unfold c. rewrite Hw, word_bits_app. f_equal.
  apply word_bits_ext. intros i Hi. rewrite Z.shiftr_spec, testbit_shru32 by lia. done.
Qed.

(** * Base 32 *)

Lemma decode_alphabet i : 0 <= i < 32 -> jm_get DECODE (alphabet_char i) = Some i.
Proof.
  intros Hi.
  assert (H : forallb (fun n => bool_decide (jm_get DECODE (alphabet_char (Z.of_nat n)) = Some (Z.of_nat n)))
                (seq 0 32) = true) by by vm_compute.
  rewrite forallb_forall in H. specialize (H (Z.to_nat i)).
  rewrite Z2Nat.id in H by lia. eapply bool_decide_eq_true_1, H, in_seq. lia.
Qed.

Lemma decode_range c v : jm_get DECODE c = Some v -> 0 <= v < 32.
Proof.
  intros H%jm_get_Some_in.
  assert (HF : Forall (fun cv : Z * Z => 0 <= cv.2 < 32) DECODE)
    by (apply (bool_decide_unpack _); by vm_compute).
  rewrite Forall_forall in HF. exact (HF _ H).
Qed.

Definition bits5 (vs : list Z) : list bool := concat (word_bits 5 <$> vs).
Definition bits8 (bs : bytes) : list bool := concat (word_bits 8 <$> bs).

Lemma bits8_app a b : bits8 (a ++ b) = bits8 a ++ bits8 b.
Proof. unfold bits8. by rewrite fmap_app, concat_app. Qed.
Lemma bits5_app a b : bits5 (a ++ b) = bits5 a ++ bits5 b.
Proof. unfold bits5. by rewrite fmap_app, concat_app. Qed.

(** [text] spells the 5-bit digits [vs]. *)
Definition spells (text : jsstr) (vs : list Z) : Prop :=
  Forall2 (fun c v => jm_get DECODE c = Some v) text vs.

Lemma spells_snoc out ds i :
  spells out ds -> 0 <= i < 32 -> spells (out ++ [alphabet_char i]) (ds ++ [i]).
Proof. intros H Hi. apply Forall2_app; [done|]. constructor; [by apply decode_alphabet|constructor]. Qed.

Lemma b32_emit_spec fuel value (n : nat) out ds :
  (n <= 32)%nat -> (n <= fuel)%nat -> spells out ds ->
  exists out' ds' n', b32_emit fuel value (Z.of_nat n) out = (Z.of_nat n', out') /\
    spells out' ds' /\ (n' < 5)%nat /\ (n' <= n)%nat /\
    bits5 ds' ++ word_bits n' value = bits5 ds ++ word_bits n value.
Proof.
  revert n out ds. induction fuel as [|fuel IH]; intros n out ds Hn Hf Hs.
  - exists out, ds, n. split_and!; done || lia.
  - cbn [b32_emit]. destruct (5 <=? Z.of_nat n) eqn:E; zbool.
    + replace (Z.of_nat n - 5) with (Z.of_nat (n - 5)) by lia.
      destruct (word_bits_top (n - 5) 5 value ltac:(lia) ltac:(lia)) as [Hc Hw]. cbv zeta in *.
      change (2 ^ Z.of_nat 5 - 1) with 31 in *. change (2 ^ Z.of_nat 5) with 32 in *.
      set (c := and32 _ 31) in *.
      destruct (IH (n - 5)%nat (out ++ [alphabet_char c]) (ds ++ [c])) as (o & d & n' & -> & ? & ? & ? & He);
        [lia|lia|by apply spells_snoc|].
      exists o, d, n'. split_and!; try done; [lia|]. rewrite He, bits5_app, <- app_assoc. f_equal.
      change (bits5 [c]) with (word_bits 5 c ++ []). rewrite app_nil_r, <- Hw. f_equal. lia.
    + exists out, ds, n. split_and!; done || lia.
Qed.

Lemma word_bits_pad (n k : nat) v :
  (n + k <= 31)%nat ->
  let c := and32 (shl32 v (Z.of_nat k)) (2 ^ Z.of_nat (n + k) - 1) in
  0 <= c < 2 ^ Z.of_nat (n + k) /\ word_bits (n + k) c = word_bits n v ++ replicate k false.
Proof.
  intros Hn c. destruct (and32_mask (shl32 v (Z.of_nat k)) (n + k) Hn) as [Hr Hw].
  split; [done|]. unfold c. rewrite Hw, word_bits_app. f_equal.
  - apply word_bits_ext. intros i Hi. rewrite Z.shiftr_spec, testbit_shl32 by lia.
    rewrite (proj2 (Z.ltb_ge _ _)) by lia. f_equal. lia.
  - assert (Hz : forall m, (m <= k)%nat -> word_bits m (shl32 v (Z.of_nat k)) = replicate m false);
      [|by apply Hz].
    induction m as [|m IH]; intros Hm; [done|]. cbn [word_bits replicate]. rewrite IH by lia.
    rewrite testbit_shl32 by lia. by rewrite (proj2 (Z.ltb_lt _ _)) by lia.
Qed.

Lemma b32_encode_loop_spec bs value (n : nat) out ds :
  wf_bytes bs -> (n < 5)%nat -> spells out ds ->
  exists ds' (p : nat), spells (b32_encode_loop bs value (Z.of_nat n) out) ds' /\ (p < 5)%nat /\
    bits5 ds' = bits5 ds ++ word_bits n value ++ bits8 bs ++ replicate p false.
Proof.
  intros Hbs. revert value n out ds. induction Hbs as [|b bs Hb _ IH]; intros value n out ds Hn Hs.
  - cbn [b32_encode_loop]. destruct (0 <? Z.of_nat n) eqn:E; zbool.
    + destruct (word_bits_pad n (5 - n) value ltac:(lia)) as [Hc Hw]. cbv zeta in *.
      replace (n + (5 - n))%nat with 5%nat in * by lia.
      replace (Z.of_nat (5 - n)) with (5 - Z.of_nat n) in * by lia.
      change (2 ^ Z.of_nat 5 - 1) with 31 in *. change (2 ^ Z.of_nat 5) with 32 in *.
      eexists (ds ++ [_]), (5 - n)%nat. split_and!; [by apply spells_snoc|lia|].
      rewrite bits5_app. f_equal. unfold bits8; cbn [fmap list_fmap concat app].
      rewrite <- Hw. unfold bits5; cbn [fmap list_fmap concat]. by rewrite app_nil_r.
    + exists ds, 0%nat. replace n with 0%nat by lia. split_and!; [done|lia|].
      cbn. by rewrite app_nil_r.
  - cbn [b32_encode_loop]. replace (Z.of_nat n + 8) with (Z.of_nat (n + 8)) by lia.
    rewrite Nat2Z.id. set (value' := or32 (shl32 value 8) b).
    destruct (b32_emit_spec (n + 8) value' (n + 8) out ds ltac:(lia) ltac:(lia) Hs)
      as (o & d & n' & -> & Hs' & Hn' & _ & He).
    destruct (IH value' n' o d Hn' Hs') as (ds' & p & Hs'' & Hp & Hd).
    exists ds', p. split_and!; [done|done|]. rewrite Hd, app_assoc, He.
    assert (Hp8 : word_bits (n + 8) value' = word_bits n value ++ word_bits 8 b)
      by (apply (word_bits_push n 8); [lia|done]).
    rewrite Hp8.
    rewrite <- !app_assoc. unfold bits8; cbn [fmap list_fmap concat]. by rewrite <- !app_assoc.
Qed.

(** What the decoder reads: digits whose bits are whole bytes and a remainder. *)
Lemma land_mask_zero value (n : nat) :
  (n <= 31)%nat ->
  (and32 value (2 ^ Z.of_nat n - 1) =? 0) = true <-> word_bits n value = replicate n false.
Proof.
  intros Hn. destruct (and32_mask value n Hn) as [Hr Hw]. rewrite Z.eqb_eq.
  assert (Hz : word_bits n 0 = replicate n false).
  { clear. induction n as [|n IH]; [done|]. cbn [word_bits replicate]. by rewrite IH, Z.bits_0. }
  split.
  - intros H0. by rewrite <- Hw, H0.
  - intros H. apply (word_bits_inj n); [done|lia|]. by rewrite Hw, H, Hz.
Qed.

Lemma shl32_one (n : nat) : (n <= 30)%nat -> shl32 1 (Z.of_nat n) = 2 ^ Z.of_nat n.
Proof.
  intros Hn. unfold shl32. change (to_int32 1) with 1. rewrite Z.shiftl_1_l.
  assert (0 < 2 ^ Z.of_nat n <= 2 ^ 30)
    by (split; [apply Z.pow_pos_nonneg; lia|apply Z.pow_le_mono_r; lia]).
  unfold to_int32. rewrite Z.mod_small by lia. by rewrite (proj2 (Z.ltb_lt _ _)) by lia.
Qed.

(** The decoder as a function of the spelled bits: it succeeds exactly when
    fewer than eight bits remain and they are all zero. *)
Lemma b32_decode_loop_spec text vs value (n : nat) out :
  spells text vs -> (n < 8)%nat -> wf_bytes out ->
  exists bs rest, wf_bytes bs /\ (length rest < 8)%nat /\
    word_bits n value ++ bits5 vs = bits8 bs ++ rest /\
    b32_decode_loop text value (Z.of_nat n) out =
      if forallb negb rest then Ok (out ++ bs)
      else Throw (Base32Error "non-canonical base32 padding bits").
Proof.
  intros Hs. revert value n out. induction Hs as [|c v text vs Hc Hs IH]; intros value n out Hn Ho.
  - exists [], (word_bits n value). rewrite word_bits_length. split_and!; [constructor|done|apply app_nil_r|].
    cbn [b32_decode_loop]. rewrite app_nil_r, shl32_one by lia.
    assert (Hz : forallb negb (word_bits n value) = true <-> word_bits n value = replicate n false).
    { clear. induction n as [|n IH]; [done|]. cbn [word_bits forallb replicate].
      rewrite andb_true_iff, IH. destruct (Z.testbit value (Z.of_nat n)); simpl.
      - by split; [intros [? _]|intros [=]].
      - split; [by intros [_ ->]|by intros [= H]]. }
    rewrite <- land_mask_zero in Hz by lia.
    destruct (and32 value (2 ^ Z.of_nat n - 1) =? 0) eqn:E.
    + rewrite (proj2 Hz eq_refl). by rewrite andb_false_r.
    + destruct (forallb negb (word_bits n value)); [by discriminate (proj1 Hz)|].
      destruct (0 <? Z.of_nat n) eqn:E0; [done|]. zbool. assert (n = 0%nat) as -> by lia.
      by destruct E; apply Z.eqb_eq, (land_mask_zero value 0); [lia|].
  - cbn [b32_decode_loop]. rewrite Hc. pose proof (decode_range c v Hc) as Hv.
    set (value' := or32 (shl32 value 5) v).
    assert (Hp : word_bits (n + 5) value' = word_bits n value ++ word_bits 5 v)
      by (apply (word_bits_push n 5); [lia|done]).
    destruct (8 <=? Z.of_nat n + 5) eqn:E; zbool.
    + replace (Z.of_nat n + 5 - 8) with (Z.of_nat (n + 5 - 8)) by lia.
      destruct (word_bits_top (n + 5 - 8) 8 value' ltac:(lia) ltac:(lia)) as [Hb Hw]. cbv zeta in *.
      change (2 ^ Z.of_nat 8 - 1) with 255 in *. change (2 ^ Z.of_nat 8) with 256 in *.
      set (b := and32 _ 255) in *.
      destruct (IH value' (n + 5 - 8)%nat (out ++ [b])) as (bs & rest & H1 & H2 & H3 & ->);
        [lia|by apply wf_bytes_app; [|repeat constructor; lia]|].
      exists (b :: bs), rest. split_and!; [constructor; [unfold is_byte; lia|done]|done| |].
      * change (bits5 (v :: vs)) with (word_bits 5 v ++ bits5 vs).
        change (bits8 (b :: bs)) with (word_bits 8 b ++ bits8 bs).
        rewrite app_assoc, <- Hp. replace (n + 5)%nat with (8 + (n + 5 - 8))%nat by lia.
        rewrite Hw, <- !app_assoc. by rewrite H3.
      * by rewrite <- app_assoc.
    + replace (Z.of_nat n + 5) with (Z.of_nat (n + 5)) by lia.
      destruct (IH value' (n + 5)%nat out) as (bs & rest & H1 & H2 & H3 & ->); [lia|done|].
      exists bs, rest. split_and!; [done|done| |done].
      change (bits5 (v :: vs)) with (word_bits 5 v ++ bits5 vs).
      by rewrite app_assoc, <- Hp.
Qed.

Lemma bits8_length l : length (bits8 l) = (8 * length l)%nat.
Proof.
  induction l as [|b l IH]; [done|]. change (bits8 (b :: l)) with (word_bits 8 b ++ bits8 l).
  rewrite length_app, word_bits_length, IH. simpl. lia.
Qed.

Lemma bits5_length l : length (bits5 l) = (5 * length l)%nat.
Proof.
  induction l as [|b l IH]; [done|]. change (bits5 (b :: l)) with (word_bits 5 b ++ bits5 l).
  rewrite length_app, word_bits_length, IH. simpl. lia.
Qed.

(** Bytes are determined by their bits. *)
Lemma bits8_prefix a b ra rb :
  wf_bytes a -> wf_bytes b -> (length ra < 8)%nat -> (length rb < 8)%nat ->
  bits8 a ++ ra = bits8 b ++ rb -> a = b /\ ra = rb.
Proof.
  intros Ha. revert b. induction Ha as [|x a Hx _ IH]; intros b Hb Hra Hrb H.
  - destruct Hb as [|y b Hy Hb]; [done|]. apply (f_equal length) in H.
    rewrite !length_app, !bits8_length in H. simpl in H. lia.
  - destruct Hb as [|y b Hy Hb].
    + apply (f_equal length) in H. rewrite !length_app, !bits8_length in H. simpl in H. lia.
    + change (bits8 (x :: a)) with (word_bits 8 x ++ bits8 a) in H.
      change (bits8 (y :: b)) with (word_bits 8 y ++ bits8 b) in H.
      rewrite <- !app_assoc in H. apply app_inj_1 in H as [H1 H2]; [|by rewrite !word_bits_length].
      apply (word_bits_inj 8) in H1 as ->; [|done..]. destruct (IH b Hb Hra Hrb H2). by subst.
Qed.

Lemma all_zero_pad p : forallb negb (replicate p false) = true.
Proof. induction p as [|p IH]; [done|]. exact IH. Qed.

Lemma base32_roundtrip bs : wf_bytes bs -> base32Decode (base32Encode bs) = Ok bs.
Proof.
  intros Hbs. unfold base32Encode, base32Decode.
  destruct (b32_encode_loop_spec bs 0 0 [] [] Hbs ltac:(lia) ltac:(constructor)) as (ds & p & Hs & Hp & Hd).
  change (Z.of_nat 0) with 0 in Hs.
  destruct (b32_decode_loop_spec _ _ 0 0 [] Hs ltac:(lia) ltac:(constructor)) as (bs' & rest & Hw & Hl & He & Hdec).
  change (Z.of_nat 0) with 0 in Hdec. rewrite Hdec. cbn [word_bits app] in He. rewrite Hd in He. cbn [bits5 fmap list_fmap concat word_bits app] in He.
  apply bits8_prefix in He as [<- <-]; [|done|done|rewrite length_replicate; lia|done].
  by rewrite all_zero_pad.
Qed.

Lemma b32_decode_spells text value n out bs :
  b32_decode_loop text value n out = Ok bs -> exists vs, spells text vs.
Proof.
  revert value n out. induction text as [|c text IH]; intros value n out; [by exists []; constructor|].
  cbn [b32_decode_loop]. destruct (jm_get DECODE c) as [v|] eqn:E; [|done].
  intros H. assert (exists vs, spells text vs) as [vs Hvs] by (case_match; by eapply IH).
  exists (v :: vs). by constructor.
Qed.

Lemma base32_decode_sound text bs :
  base32Decode text = Ok bs ->
  exists vs k, spells text vs /\ (k < 8)%nat /\ wf_bytes bs /\
    bits5 vs = bits8 bs ++ replicate k false.
Proof.
  intros H.
  assert (Hs : exists vs, spells text vs) by (by eapply b32_decode_spells).
  destruct Hs as [vs Hs].
  destruct (b32_decode_loop_spec text vs 0 0 [] Hs ltac:(lia) ltac:(constructor))
    as (bs' & rest & Hw & Hl & He & Hdec).
  unfold base32Decode in H. change (Z.of_nat 0) with 0 in Hdec. rewrite Hdec in H.
  destruct (forallb negb rest) eqn:E; [|done]. injection H as <-.
  exists vs, (length rest). split_and!; [done|done|done|]. cbn [word_bits app] in He. rewrite He. f_equal.
  clear -E. induction rest as [|b rest IH]; [done|]. simpl in *.
  apply andb_true_iff in E as [E1 E2]. rewrite <- IH by done. by destruct b.
Qed.

(** * Varints *)

Lemma byte_low7 b : is_byte b -> and32 b 127 = b mod 128.
Proof. intros _. apply (and32_ones b 7). lia. Qed.

Lemma byte_high b : is_byte b -> (and32 b 128 =? 0) = (b <? 128).
Proof. intros Hb. apply eqb_prop. revert b Hb. apply byte_check. by vm_compute. Qed.

Lemma byte_or128 b : is_byte b -> or32 (b mod 128) 128 = b mod 128 + 128.
Proof. intros Hb. apply Z.eqb_eq. revert b Hb. apply byte_check. by vm_compute. Qed.

(** The encoder's byte for a value and whether more follow. *)
Lemma varint_byte v : 0 <= v ->
  let byte := and32 v 127 in
  let byte' := if 0 <? v / 128 then or32 byte 128 else byte in
  is_byte byte' /\ and32 byte' 127 = v mod 128 /\ (and32 byte' 128 =? 0) = negb (0 <? v / 128).
Proof.
  intros Hv byte byte'. assert (Hb : byte = v mod 128) by (apply (and32_ones v 7); lia).
  assert (Hm : 0 <= v mod 128 < 128) by (apply Z.mod_pos_bound; lia).
  assert (Hor : or32 byte 128 = v mod 128 + 128).
  { rewrite Hb, <- (Z.mod_mod v 128), byte_or128 by (lia || unfold is_byte; lia).
    by rewrite Z.mod_mod by lia. }
  unfold byte'. destruct (0 <? v / 128) eqn:E.
  - rewrite Hor. assert (is_byte (v mod 128 + 128)) by (unfold is_byte; lia).
    split_and!; [done| |].
    + rewrite byte_low7 by done. replace (v mod 128 + 128) with (v mod 128 + 1 * 128) by lia.
      rewrite Z.mod_add, Z.mod_mod by lia. done.
    + rewrite byte_high by done. apply Z.ltb_ge. lia.
  - rewrite Hb. assert (is_byte (v mod 128)) by (unfold is_byte; lia).
    split_and!; [done| |].
    + rewrite byte_low7 by done. by rewrite Z.mod_mod by lia.
    + rewrite byte_high by done. apply Z.ltb_lt. lia.
Qed.

Lemma varint_encode_loop_out fuel v out :
  varint_encode_loop fuel v out = out ++ varint_encode_loop fuel v [].
Proof.
  revert v out. induction fuel as [|fuel IH]; intros v out; cbn [varint_encode_loop]; [by rewrite app_nil_r|].
  destruct (0 <? v / 128); [|done]. rewrite IH, (IH _ ([] ++ _)). by rewrite <- app_assoc.
Qed.

Lemma varint_roundtrip_loop fuel v rest result (k read : nat) :
  0 <= v -> v < 128 ^ Z.of_nat fuel -> (k <= 4)%nat -> v < 2 ^ (32 - 7 * Z.of_nat k) ->
  0 <= result -> result + v * 2 ^ (7 * Z.of_nat k) <= UINT32_MAX ->
  (0 < fuel)%nat ->
  varint_decode_loop (varint_encode_loop fuel v [] ++ rest) result (7 * Z.of_nat k) read =
  Ok (result + v * 2 ^ (7 * Z.of_nat k), (read + length (varint_encode_loop fuel v []))%nat).
Proof.
  revert v result k read. induction fuel as [|fuel IH]; intros v result k read Hv Hf Hk Hv32 Hr Hres H0; [lia|].
  cbn [varint_encode_loop]. destruct (varint_byte v Hv) as (_ & Hlow & Hhigh). cbv zeta in *.
  assert (Hdm : v = 128 * (v / 128) + v mod 128) by (apply Z.div_mod; lia).
  destruct (0 <? v / 128) eqn:E; zbool; cbn [negb] in Hhigh.
  - rewrite varint_encode_loop_out, <- app_assoc. cbn [app varint_decode_loop].
    rewrite Hhigh, Hlow. assert (Hk3 : (k <= 3)%nat).
    { destruct (Nat.eq_dec k 4%nat) as [->|]; [|lia]. change (2 ^ (32 - 7 * Z.of_nat 4)) with 16 in Hv32.
      assert (v / 128 = 0) by (apply Z.div_small; lia). lia. }
    rewrite (proj2 (Z.ltb_ge _ _)) by lia.
    replace (7 * Z.of_nat k + 7) with (7 * Z.of_nat (S k)) by lia.
    assert (Hpow : 2 ^ (7 * Z.of_nat (S k)) = 128 * 2 ^ (7 * Z.of_nat k)).
    { replace (7 * Z.of_nat (S k)) with (7 + 7 * Z.of_nat k) by lia. rewrite Z.pow_add_r by lia. lia. }
    assert (0 < 2 ^ (7 * Z.of_nat k)) by (apply Z.pow_pos_nonneg; lia).
    set (P := 2 ^ (7 * Z.of_nat k)) in *. set (q := v / 128) in *. set (r := v mod 128) in *.
    assert (HvP : v * P = 128 * q * P + r * P) by (rewrite Hdm; ring).
    rewrite IH.
    + f_equal. f_equal; [rewrite Hpow; lia|].
      cbn [length]. lia.
    + apply Z.div_pos; lia.
    + apply Z.div_lt_upper_bound; [lia|]. rewrite Nat2Z.inj_succ, Z.pow_succ_r in Hf by lia. lia.
    + lia.
    + apply Z.div_lt_upper_bound; [lia|].
      replace (32 - 7 * Z.of_nat k) with (7 + (32 - 7 * Z.of_nat (S k))) in Hv32 by lia.
      rewrite Z.pow_add_r in Hv32 by lia. lia.
    + pose proof (Z.mod_pos_bound v 128 ltac:(lia)). fold r in H1. nia.
    + rewrite Hpow. lia.
    + destruct fuel; [|lia]. change (128 ^ Z.of_nat 1) with 128 in Hf.
      assert (v / 128 = 0) by (apply Z.div_small; lia). lia.
  - cbn [app varint_decode_loop]. rewrite Hhigh, Hlow. cbn [length].
    assert (v mod 128 = v) as -> by (pose proof (Z.div_pos v 128); lia).
    rewrite (proj2 (Z.ltb_ge _ _)) by lia. f_equal. f_equal. lia.
Qed.

Lemma varint_fuel v : 0 <= v -> v < 128 ^ Z.of_nat (S (Z.to_nat (Z.log2 v))).
Proof.
  intros Hv. destruct (Z.eq_dec v 0) as [->|]; [done|].
  pose proof (Z.log2_nonneg v). pose proof (Z.log2_spec v ltac:(lia)).
  apply Z.lt_le_trans with (2 ^ Z.succ (Z.log2 v)); [lia|].
  rewrite Nat2Z.inj_succ, Z2Nat.id by lia. apply Z.pow_le_mono_l. lia.
Qed.

Lemma varint_roundtrip v bs rest :
  varintEncode v = Ok bs -> varintDecode (bs ++ rest) 0 = Ok (v, length bs).
Proof.
  unfold varintEncode. destruct (_ || _) eqn:E; [done|]. zbool. intros Heq.
  assert (bs = varint_encode_loop (S (Z.to_nat (Z.log2 v))) v []) as -> by congruence. clear Heq.
  pose proof (varint_roundtrip_loop (S (Z.to_nat (Z.log2 v))) v rest 0 0 0) as Hr.
  change (7 * Z.of_nat 0) with 0 in Hr. change (32 - 0) with 32 in Hr.
  change (2 ^ 0) with 1 in Hr. change (2 ^ 32) with 4294967296 in Hr. unfold UINT32_MAX in *.
  unfold varintDecode. rewrite drop_0, Hr by (try apply varint_fuel; lia). f_equal. f_equal. lia.
Qed.

(** * Checksums *)

Fixpoint byte_sum (bs : bytes) : Z := match bs with [] => 0 | b :: bs' => b + byte_sum bs' end.
Fixpoint weighted_sum (bs : bytes) : Z :=
  match bs with [] => 0 | b :: bs' => Z.of_nat (length bs) * b + weighted_sum bs' end.

Lemma fletcher_loop_spec bs s1 s2 :
  0 <= s1 < 255 -> 0 <= s2 < 255 ->
  fletcher_loop bs s1 s2 =
    ((s1 + byte_sum bs) mod 255, (s2 + Z.of_nat (length bs) * s1 + weighted_sum bs) mod 255).
Proof.
  revert s1 s2. induction bs as [|b bs IH]; intros s1 s2 H1 H2.
  - cbn [fletcher_loop byte_sum weighted_sum length]. rewrite !Z.mod_small by lia. f_equal; lia.
  - cbn [fletcher_loop]. rewrite IH by (apply Z.mod_pos_bound; lia).
    cbn [byte_sum weighted_sum length]. f_equal.
    + rewrite Z.add_mod_idemp_l by lia. f_equal. lia.
    + pose proof (Z.div_mod (s1 + b) 255 ltac:(lia)) as E1. set (r := (s1 + b) mod 255) in *.
      pose proof (Z.div_mod (s2 + r) 255 ltac:(lia)) as E2.
      set (k := (s1 + b) / 255) in *. set (j := (s2 + r) / 255) in *. set (n := Z.of_nat (length bs)).
      replace (Z.of_nat (S (length bs))) with (n + 1) by lia.
      rewrite <- (Z.mod_add (_ + _) (j + k + n * k) 255) by lia. f_equal. nia.
Qed.

Lemma fletcher16_spec bs :
  fletcher16 bs = 256 * (weighted_sum bs mod 255) + byte_sum bs mod 255.
Proof.
  unfold fletcher16. rewrite fletcher_loop_spec by lia.
  rewrite Z.mul_0_r, !Z.add_0_l.
  pose proof (Z.mod_pos_bound (byte_sum bs) 255). pose proof (Z.mod_pos_bound (weighted_sum bs) 255).
  apply or32_shl_byte; unfold is_byte; lia.
Qed.

Lemma fletcher16_eq a b :
  fletcher16 a = fletcher16 b <->
  byte_sum a mod 255 = byte_sum b mod 255 /\ weighted_sum a mod 255 = weighted_sum b mod 255.
Proof.
  rewrite !fletcher16_spec.
  pose proof (Z.mod_pos_bound (byte_sum a) 255). pose proof (Z.mod_pos_bound (weighted_sum a) 255).
  pose proof (Z.mod_pos_bound (byte_sum b) 255). pose proof (Z.mod_pos_bound (weighted_sum b) 255). lia.
Qed.

Lemma byte_sum_app a b : byte_sum (a ++ b) = byte_sum a + byte_sum b.
Proof. induction a as [|x a IH]; simpl; lia. Qed.

Lemma weighted_sum_app a b :
  weighted_sum (a ++ b) = weighted_sum a + Z.of_nat (length b) * byte_sum a + weighted_sum b.
Proof.
  induction a as [|x a IH]; [simpl; lia|].
  cbn [app weighted_sum byte_sum length]. rewrite IH, length_app. lia.
Qed.

Lemma mod255_cancel k x y : (k + x) mod 255 = (k + y) mod 255 -> x mod 255 = y mod 255.
Proof.
  intros H.
  assert (H' : ((k + x) - k) mod 255 = ((k + y) - k) mod 255)
    by (rewrite Zminus_mod, H, <- Zminus_mod; done).
  by replace (k + x - k) with x in H' by lia; replace (k + y - k) with y in H' by lia.
Qed.

Lemma mod255_diff x y : x mod 255 = y mod 255 -> exists d, y = x + d * 255.
Proof.
  intros H. exists (y / 255 - x / 255).
  pose proof (Z.div_mod x 255 ltac:(lia)). pose proof (Z.div_mod y 255 ltac:(lia)). lia.
Qed.

Lemma fletcher16_range bs : 0 <= fletcher16 bs < 65536.
Proof.
  rewrite fletcher16_spec.
  pose proof (Z.mod_pos_bound (byte_sum bs) 255). pose proof (Z.mod_pos_bound (weighted_sum bs) 255). lia.
Qed.

Lemma checksum_bytes c :
  0 <= c < 65536 ->
  let hi := and32 (shru32 c 8) 255 in
  let lo := and32 c 255 in
  is_byte hi /\ is_byte lo /\ or32 (shl32 hi 8) lo = c.
Proof.
  intros Hc hi lo.
  assert (Hh : hi = c / 256).
  { unfold hi, shru32, to_uint32. rewrite (Z.mod_small c) by lia.
    rewrite (and32_ones _ 8) by lia. rewrite Z.shiftr_div_pow2 by lia.
    change (2 ^ 8) with 256. change (2 ^ Z.of_nat 8) with 256.
    apply Z.mod_small. split; [apply Z.div_pos|apply Z.div_lt_upper_bound]; lia. }
  assert (Hl : lo = c mod 256) by (apply (and32_ones c 8); lia).
  assert (Hb : is_byte hi).
  { rewrite Hh. unfold is_byte. split; [apply Z.div_pos|apply Z.div_lt_upper_bound]; lia. }
  assert (Hb' : is_byte lo) by (rewrite Hl; apply Z.mod_pos_bound; lia).
  split_and!; [done|done|]. rewrite or32_shl_byte, Hh, Hl by done.
  symmetry. apply Z.div_mod. lia.
Qed.

(** * Document ids *)

Definition wf_doc_id (id : doc_id) : Prop :=
  0 <= tableNumber id <= UINT32_MAX /\ length (internalId id) = INTERNAL_ID_BYTES /\
  wf_bytes (internalId id).

Lemma varint_wf fuel v : 0 <= v -> wf_bytes (varint_encode_loop fuel v []).
Proof.
  revert v. induction fuel as [|fuel IH]; intros v Hv; [constructor|].
  cbn [varint_encode_loop]. destruct (varint_byte v Hv) as (Hb & _). cbv zeta in Hb.
  destruct (0 <? v / 128).
  - rewrite varint_encode_loop_out. apply wf_bytes_app; [by apply Forall_singleton|].
    apply IH, Z.div_pos; lia.
  - by apply Forall_singleton.
Qed.

Lemma varintEncode_ok v : 0 <= v <= UINT32_MAX -> exists bs, varintEncode v = Ok bs /\ wf_bytes bs.
Proof.
  intros Hv. unfold varintEncode. rewrite (proj2 (Z.ltb_ge _ _)), (proj2 (Z.ltb_ge _ _)) by lia.
  eexists. split; [done|]. apply varint_wf. lia.
Qed.

Lemma encodeDocumentId_bytes id :
  wf_doc_id id ->
  exists v hi lo,
    varintEncode (tableNumber id) = Ok v /\ wf_bytes (v ++ internalId id ++ [hi; lo]) /\
    or32 (shl32 hi 8) lo = fletcher16 (v ++ internalId id) /\
    encodeInternalDocumentId id = Ok (base32Encode (v ++ internalId id ++ [hi; lo])).
Proof.
  intros (Ht & Hl & Hw). destruct (varintEncode_ok _ Ht) as (v & Hv & Hvw).
  destruct (checksum_bytes (fletcher16 (v ++ internalId id)) (fletcher16_range _)) as (H1 & H2 & H3).
  cbv zeta in *. do 3 eexists. split; [exact Hv|].
  split; [|split; [exact H3|]].
  - apply wf_bytes_app; [done|]. apply wf_bytes_app; [done|].
    by repeat apply Forall_cons_2; [| |constructor].
  - unfold encodeInternalDocumentId, encodeDocumentId. rewrite Hl, Nat.eqb_refl. cbn [negb].
    rewrite Hv, bind_Ok. unfold concatBytes. cbn [concat]. rewrite !app_nil_r. by rewrite <- app_assoc.
Qed.

Lemma decode_encode_id id :
  wf_doc_id id ->
  exists s, encodeInternalDocumentId id = Ok s /\ decodeDocumentId s = Ok id.
Proof.
  intros Hid. destruct (encodeDocumentId_bytes id Hid) as (v & hi & lo & Hv & Hw & Hc & He).
  destruct Hid as (_ & Hl & _).
  exists (base32Encode (v ++ internalId id ++ [hi; lo])). split; [done|].
  unfold decodeDocumentId. rewrite base32_roundtrip by done. rewrite bind_Ok.
  rewrite (varint_roundtrip _ v) by done. rewrite bind_Ok.
  rewrite !length_app, Hl. cbn [length]. rewrite Nat.add_assoc, Nat.eqb_refl. cbn [negb].
  assert (Ht : take (length v + INTERNAL_ID_BYTES) (v ++ internalId id ++ [hi; lo]) = v ++ internalId id).
  { rewrite take_app_add'; [|done]. f_equal. by rewrite take_app_length'. }
  assert (Hn : forall i, (v ++ internalId id ++ [hi; lo]) !! (length v + INTERNAL_ID_BYTES + i)%nat
                         = [hi; lo] !! i).
  { intros i. rewrite <- Hl, <- Nat.add_assoc, lookup_app_r, Nat.add_comm, Nat.add_sub by lia.
    rewrite lookup_app_r by lia. f_equal. lia. }
  rewrite Ht, drop_app_length.
  pose proof (Hn 0%nat) as Hn0. pose proof (Hn 1%nat) as Hn1. rewrite Nat.add_0_r in Hn0.
  rewrite Nat.add_1_r in Hn1. rewrite Hn0, Hn1. cbn [lookup list_lookup default].
  unfold verifyFletcher16. cbn. rewrite Hc, Z.eqb_refl. by destruct id.
Qed.

Lemma base32Encode_length bs :
  wf_bytes bs -> Z.of_nat (length (base32Encode bs)) = - ((- (Z.of_nat (length bs) * 8)) / 5).
Proof.
  intros Hbs. unfold base32Encode.
  destruct (b32_encode_loop_spec bs 0 0 [] [] Hbs ltac:(lia) ltac:(constructor)) as (ds & p & Hs & Hp & Hd).
  change (Z.of_nat 0) with 0 in Hs. rewrite (Forall2_length _ _ _ Hs).
  apply (f_equal length) in Hd. rewrite !length_app, bits8_length, bits5_length, length_replicate in Hd.
  cbn [word_bits bits5 fmap list_fmap concat length] in Hd. Z.div_mod_to_equations; lia.
Qed.

Lemma varintEncode_length v bs : varintEncode v = Ok bs -> (1 <= length bs <= 5)%nat.
Proof.
  unfold varintEncode. destruct (_ || _) eqn:E; [done|]. zbool. intros Heq.
  assert (bs = varint_encode_loop (S (Z.to_nat (Z.log2 v))) v []) as -> by congruence. clear Heq.
  assert (HL : forall (n fuel : nat) w, 0 <= w < 128 ^ Z.of_nat n -> (0 < n)%nat ->
            (length (varint_encode_loop fuel w []) <= n)%nat).
  { clear. induction n as [|n IH]; intros fuel w Hw Hn; [lia|].
    destruct fuel as [|fuel]; [simpl; lia|]. cbn [varint_encode_loop].
    destruct (0 <? w / 128) eqn:E; zbool; [|simpl; lia].
    rewrite varint_encode_loop_out, length_app. cbn [app length].
    rewrite Nat2Z.inj_succ, Z.pow_succ_r in Hw by lia.
    assert (w / 128 < 128 ^ Z.of_nat n) by (apply Z.div_lt_upper_bound; lia).
    destruct n as [|n]; [simpl in *; lia|].
    specialize (IH fuel (w / 128) ltac:(lia) ltac:(lia)). lia. }
  split.
  - cbn [varint_encode_loop]. destruct (0 <? v / 128); [|simpl; lia].
    rewrite varint_encode_loop_out, length_app. cbn [app length]. lia.
  - apply HL; [|lia]. unfold UINT32_MAX in *. change (128 ^ Z.of_nat 5) with 34359738368. lia.
Qed.

Lemma encoded_length id s :
  wf_doc_id id -> encodeInternalDocumentId id = Ok s ->
  getEncodedLength (tableNumber id) = Ok (Z.of_nat (length s)) /\ 31 <= Z.of_nat (length s) <= 37.
Proof.
  intros Hid He. destruct (encodeDocumentId_bytes id Hid) as (v & hi & lo & Hv & Hw & _ & He').
  rewrite He in He'. injection He' as ->. rewrite base32Encode_length by done.
  destruct Hid as (_ & Hl & _). rewrite !length_app, Hl. cbn [length].
  unfold getEncodedLength, varintEncodedLength. rewrite Hv, !bind_Ok.
  pose proof (varintEncode_length _ _ Hv). unfold INTERNAL_ID_BYTES, CHECKSUM_BYTES.
  split; [do 4 f_equal; lia|]. Z.div_mod_to_equations; lia.
Qed.

Lemma varint_decode_range rest result shift (read n : nat) v :
  wf_bytes rest -> 0 <= result -> 0 <= shift ->
  varint_decode_loop rest result shift read = Ok (v, n) -> 0 <= v <= UINT32_MAX /\ (n <= read + length rest)%nat.
Proof.
  intros Hr. revert result shift read. induction Hr as [|b rest Hb _ IH]; intros result shift read H1 H2; [done|].
  cbn [varint_decode_loop length]. rewrite byte_low7 by done.
  pose proof (Z.mod_pos_bound b 128 ltac:(lia)). pose proof (Z.pow_nonneg 2 shift ltac:(lia)).
  destruct (_ =? 0).
  - destruct (_ <? _) eqn:E; [done|]. intros [= <- <-]. zbool. split; [nia|lia].
  - destruct (_ <? _); [done|]. intros H'. apply IH in H'; [|nia|lia]. lia.
Qed.

Lemma decodeDocumentId_wf s id : decodeDocumentId s = Ok id -> wf_doc_id id.
Proof.
  unfold decodeDocumentId. destruct (base32Decode s) as [bs|e] eqn:Eb; [|by destruct e].
  rewrite bind_Ok. apply base32_decode_sound in Eb as (_ & _ & _ & _ & Hw & _).
  destruct (varintDecode bs 0) as [[tn n]|] eqn:Ev; [|done]. rewrite bind_Ok.
  destruct (negb _) eqn:El; [done|]. apply negb_false_iff, Nat.eqb_eq in El.
  destruct (negb _); [done|]. intros [= <-]. unfold varintDecode in Ev. rewrite drop_0 in Ev.
  apply varint_decode_range in Ev as [Hv Hn]; [|done|lia|lia].
  unfold wf_doc_id; simpl. split_and!; try lia.
  - rewrite length_drop, length_take. unfold CHECKSUM_BYTES in El. lia.
  - by apply Forall_drop, Forall_take.
Qed.

(** * Keys *)

Lemma hex_byte b : is_byte b ->
  exists c1 c2, pad_start2 (num_to_string 16 b) = [c1; c2] /\ parse_int 16 [c1; c2] = Some b.
Proof.
  intros Hb.
  assert (H : (match pad_start2 (num_to_string 16 b) with
               | [c1; c2] => bool_decide (parse_int 16 [c1; c2] = Some b)
               | _ => false end) = true) by (revert b Hb; apply byte_check; by vm_compute).
  destruct (pad_start2 _) as [|c1 [|c2 [|]]]; try done. apply bool_decide_eq_true in H. eauto.
Qed.

Lemma hex_fold bs acc :
  fold_left (fun hex b => hex ++ pad_start2 (num_to_string 16 b)) bs acc = acc ++ internalIdToHex bs.
Proof.
  unfold internalIdToHex. revert acc. induction bs as [|b bs IH]; intros acc; simpl; [by rewrite app_nil_r|].
  rewrite IH, (IH (pad_start2 _)). by rewrite <- app_assoc.
Qed.

Lemma hex_roundtrip bs : wf_bytes bs -> hexToInternalId (internalIdToHex bs) = Ok bs.
Proof.
  intros Hbs.
  assert (H : Nat.modulo (length (internalIdToHex bs)) 2 = 0%nat /\ hex_pairs (internalIdToHex bs) = Ok bs).
  { induction Hbs as [|b bs Hb _ [IH1 IH2]]; [done|].
    unfold internalIdToHex in *. cbn [fold_left]. rewrite hex_fold. unfold internalIdToHex.
    destruct (hex_byte b Hb) as (c1 & c2 & -> & Hp). cbn [app length]. split.
    - replace (S (S (length (fold_left (fun hex b => hex ++ pad_start2 (num_to_string 16 b)) bs []))))
        with (length (fold_left (fun hex b => hex ++ pad_start2 (num_to_string 16 b)) bs []) + 1 * 2)%nat by lia.
      by rewrite Nat.Div0.mod_add.
    - cbn [hex_pairs]. rewrite Hp, IH2, bind_Ok. f_equal. f_equal. by apply Z.mod_small. }
  destruct H as [H1 H2]. unfold hexToInternalId. by rewrite H1, H2.
Qed.

Lemma document_id_key_roundtrip id :
  0 <= tableNumber id -> wf_bytes (internalId id) -> parseDocumentIdKey (documentIdKey id) = Ok id.
Proof.
  intros Ht Hw. unfold parseDocumentIdKey, documentIdKey.
  change (js_string_of (tableNumber id) ++ [58] ++ internalIdToHex (internalId id))
    with (js_string_of (tableNumber id) ++ 58 :: internalIdToHex (internalId id)).
  rewrite split_first_app.
  - pose proof (parse_int_of_string (tableNumber id) [] Ht I) as Hp. rewrite app_nil_r in Hp.
    rewrite Hp, hex_roundtrip by done. by destruct id.
  - eapply Forall_impl; [by apply js_string_of_chars|]. intros c Hc. cbv beta in Hc. lia.
Qed.

Lemma bytes_equal_loop_spec a b :
  length a = length b -> bytes_equal_loop a b = true <-> a = b.
Proof.
  revert b. induction a as [|x a IH]; intros [|y b] Hl; try done. simpl.
  destruct (x =? y) eqn:E; zbool; [|naive_solver].
  injection Hl as Hl. rewrite (IH b Hl). naive_solver.
Qed.

(** * Properties *)

(** A well-formed document id encodes, decodes back to itself, is valid
    for exactly its own table number, and has the predicted length of 31 to
    37 characters. *)
Theorem documentId_roundtrip id :
  wf_doc_id id ->
  exists s, encodeInternalDocumentId id = Ok s /\ decodeDocumentId s = Ok id /\
    (forall n, isValidDocumentId s (Some n) = (tableNumber id =? n)) /\
    getEncodedLength (tableNumber id) = Ok (Z.of_nat (length s)) /\ 31 <= Z.of_nat (length s) <= 37.
Proof.
  intros Hid. destruct (decode_encode_id id Hid) as (s & He & Hd). exists s.
  split_and!; try done.
  - intros n. unfold isValidDocumentId, tryDecodeDocumentId. by rewrite Hd.
  - by apply encoded_length.
  - by apply (encoded_length id).
  - by apply (encoded_length id).
Qed.

Lemma documentId_roundtrip_witness :
  exists s, encodeInternalDocumentId (DocId 10001 (replicate 16 255)) = Ok s /\
    decodeDocumentId s = Ok (DocId 10001 (replicate 16 255)).
Proof.
  destruct (documentId_roundtrip (DocId 10001 (replicate 16 255))) as (s & H1 & H2 & _).
  - unfold wf_doc_id. simpl. split_and!; try done. repeat constructor; cbv; intuition discriminate.
  - exists s. by split.
Defined.

(** Whatever string decodes, decodes to a well-formed document id: a
    table number that fits 32 bits and sixteen bytes. *)
Theorem decodeDocumentId_sound s id : decodeDocumentId s = Ok id -> wf_doc_id id.
Proof. apply decodeDocumentId_wf. Qed.

Lemma decodeDocumentId_sound_witness :
  wf_doc_id (DocId 1 (replicate 16 0)).
Proof.
  exact (decodeDocumentId_sound
    (default [] (match encodeDocumentId 1 (replicate 16 0) with Ok s => Some s | Throw _ => None end))
    (DocId 1 (replicate 16 0)) ltac:(vm_compute; reflexivity)).
Defined.

(** The checksum notices a change of one byte, and an exchange of two
    neighbouring bytes, exactly when the two values differ modulo 255. *)
Theorem fletcher16_detects p x y s :
  (fletcher16 (p ++ x :: s) = fletcher16 (p ++ y :: s) <-> x mod 255 = y mod 255) /\
  (fletcher16 (p ++ x :: y :: s) = fletcher16 (p ++ y :: x :: s) <-> x mod 255 = y mod 255).
Proof.
  rewrite !fletcher16_eq, !byte_sum_app, !weighted_sum_app. cbn [byte_sum weighted_sum length].
  split; split.
  - intros [H _]. apply (mod255_cancel (byte_sum p + byte_sum s)).
    by replace (byte_sum p + byte_sum s + x) with (byte_sum p + (x + byte_sum s)) by lia;
      replace (byte_sum p + byte_sum s + y) with (byte_sum p + (y + byte_sum s)) by lia.
  - intros [d ->]%mod255_diff.
    split.
    + rewrite <- (Z.mod_add (byte_sum p + (x + byte_sum s)) d) by lia. f_equal. lia.
    + rewrite <- (Z.mod_add (_ + _) (Z.of_nat (S (length s)) * d)) by lia. f_equal. lia.
  - intros [_ H].
    set (k := weighted_sum p + Z.of_nat (S (S (length s))) * byte_sum p +
              Z.of_nat (S (length s)) * (x + y) + weighted_sum s) in *.
    apply (mod255_cancel k). unfold k.
    match type of H with ?a mod _ = ?b mod _ =>
      match goal with |- ?c mod _ = ?d mod _ =>
        replace c with a by lia; replace d with b by lia end end. done.
  - intros [d ->]%mod255_diff.
    split; [f_equal; lia|].
    rewrite <- (Z.mod_add (_ + _) d) by lia. f_equal. lia.
Qed.

(** The map key of a document id parses back to it, and ids are equal
    field by field exactly when they are equal. *)
Theorem documentIdKey_roundtrip id id' :
  wf_doc_id id -> wf_doc_id id' ->
  parseDocumentIdKey (documentIdKey id) = Ok id /\
  (documentIdKey id = documentIdKey id' <-> id = id') /\
  (documentIdsEqual id id' = true <-> id = id').
Proof.
  intros (Ht & Hl & Hw) (Ht' & Hl' & Hw').
  pose proof (document_id_key_roundtrip id ltac:(lia) Hw) as Hr.
  pose proof (document_id_key_roundtrip id' ltac:(lia) Hw') as Hr'.
  split_and!; [done| |].
  - split; [|by intros ->]. intros H. rewrite H, Hr' in Hr. by injection Hr.
  - unfold documentIdsEqual. rewrite Hl, Hl', Nat.eqb_refl, orb_false_r.
    destruct (tableNumber id =? tableNumber id') eqn:E; zbool; cbn [negb].
    + rewrite bytes_equal_loop_spec by congruence. destruct id, id'; simpl in *; naive_solver.
    + split; [done|]. by intros ->.
Qed.

Lemma documentIdKey_roundtrip_witness :
  parseDocumentIdKey (documentIdKey (DocId 7 (replicate 16 3))) = Ok (DocId 7 (replicate 16 3)).
Proof.
  assert (Hw : wf_doc_id (DocId 7 (replicate 16 3))).
  { unfold wf_doc_id. simpl. split_and!; try done. repeat constructor; cbv; intuition discriminate. }
  exact (proj1 (documentIdKey_roundtrip _ _ Hw Hw)).
Defined.

(** Decoding is not canonical: for a user table an extra "0" after the
    encoded id is accepted and decodes to the same document. *)
Theorem decodeDocumentId_trailing_zero :
  exists id s, encodeInternalDocumentId id = Ok s /\
    decodeDocumentId s = Ok id /\ decodeDocumentId (s ++ [48]) = Ok id.
Proof.
  exists (DocId 10001 (replicate 16 7)).
  eexists. split; [by vm_compute|]. split; by vm_compute.
Qed.
