(* ===== verification/Sharding.v ===== *)
(** Table numbers and shard keys: packages/id-codec/src/table-registry.ts and
    shard.ts, with the shard names of jump-hash.ts. *)
From Stdlib Require Import ZArith Lia.
From stdpp Require Import base list sets strings.
From S2P Require Import Prelude JsBase JsText KeyCodec.

(** * table-registry.ts *)

Inductive visibility := VisUser | VisSystem.
Inductive table_state := StActive | StCreating | StDeleting.

#[global] Instance visibility_eq_dec : EqDecision visibility.
Proof. solve_decision. Defined.
#[global] Instance table_state_eq_dec : EqDecision table_state.
Proof. solve_decision. Defined.

Record table_info := TableInfo
  { ti_name : jsstr; ti_number : Z; ti_visibility : visibility; ti_state : table_state;
    ti_shardKey : option jsstr }.

#[global] Instance table_info_eq_dec : EqDecision table_info.
Proof. solve_decision. Defined.

Definition SYSTEM_TABLE_NUMBER_MIN : Z := 1.
Definition SYSTEM_TABLE_NUMBER_MAX : Z := 9999.
Definition USER_TABLE_NUMBER_START : Z := 10001.

Definition isSystemTableName (name : jsstr) : bool := starts_with [95] name.

Definition getFullTableName (name componentPath : jsstr) : jsstr :=
  match componentPath with [] => name | _ => componentPath ++ [47] ++ name end.

(** The component path and the name. *)
Definition parseFullTableName (fullName : jsstr) : jsstr * jsstr :=
  match split_last 47 fullName with
  | None => ([], fullName)
  | Some (path, name) => (path, name)
  end.

(** [MemoryTableRegistry]. *)
Record registry := Registry
  { byName : list (jsstr * table_info); byNumber : list (Z * table_info);
    nextUser : Z; nextSystem : Z }.

Definition reg_empty : registry :=
  Registry [] [] USER_TABLE_NUMBER_START SYSTEM_TABLE_NUMBER_MIN.

Definition reg_getByName (g : registry) (name : jsstr) : option table_info := jm_get (byName g) name.
Definition reg_getByNumber (g : registry) (n : Z) : option table_info := jm_get (byNumber g) n.
Definition reg_list (g : registry) : list table_info := jm_values (byName g).

Definition default_visibility (name : jsstr) (v : option visibility) : visibility :=
  default (if isSystemTableName name then VisSystem else VisUser) v.

Definition reg_allocate (g : registry) (name : jsstr) (vis : option visibility)
    (shardKey : option jsstr) : res (table_info * registry) :=
  match jm_get (byName g) name with
  | Some existing => Ok (existing, g)
  | None =>
      let v := default_visibility name vis in
      '(n, g1) ← match v with
                 | VisSystem =>
                     if SYSTEM_TABLE_NUMBER_MAX <? nextSystem g
                     then Throw (PlainError "exhausted system table numbers")
                     else Ok (nextSystem g, Registry (byName g) (byNumber g) (nextUser g) (nextSystem g + 1))
                 | VisUser =>
                     Ok (nextUser g, Registry (byName g) (byNumber g) (nextUser g + 1) (nextSystem g))
                 end;
      let info := TableInfo name n v StActive shardKey in
      Ok (info, Registry (jm_set (byName g1) name info) (jm_set (byNumber g1) n info)
                  (nextUser g1) (nextSystem g1))
  end.

Definition reg_preassign (g : registry) (name : jsstr) (n : Z) (vis : option visibility)
    (shardKey : option jsstr) (state : option table_state) : table_info * registry :=
  match jm_get (byName g) name with
  | Some existing => (existing, g)
  | None =>
      let v := default_visibility name vis in
      let info := TableInfo name n v (default StActive state) shardKey in
      let names := jm_set (byName g) name info in
      let numbers := jm_set (byNumber g) n info in
      (info, match v with
             | VisSystem => Registry names numbers (nextUser g) (Z.max (nextSystem g) (n + 1))
             | VisUser => Registry names numbers (Z.max (nextUser g) (n + 1)) (nextSystem g)
             end)
  end.

(** * shard.ts and the names of jump-hash.ts *)

Definition DEFAULT_SHARD : jsstr := [100; 101; 102; 97; 117; 108; 116].

Definition DefaultShardKeyResolver_resolve {D} (table : jsstr) (document : D) : option jsstr := None.

(** A document is given by its field lookup ([None] is [undefined]) and
    [String] of a field value is an argument. *)
Definition FieldShardKeyResolver_resolve {V} (to_string : V -> jsstr) (is_null : V -> bool)
    (fieldByTable : list (jsstr * jsstr)) (table : jsstr) (document : list (jsstr * V))
  : option jsstr :=
  match jm_get fieldByTable table with
  | None => None
  | Some field =>
      match jm_get document field with
      | None => None
      | Some v => if is_null v then None else Some (to_string v)
      end
  end.

Definition SimpleShardRouter_getShardForKey (shardKey : option jsstr) : jsstr := DEFAULT_SHARD.

(** The id of a slot. *)
Definition shard_of_slot (slot : Z) : jsstr :=
  if slot =? 0 then DEFAULT_SHARD else 115 :: js_string_of slot.

(** [for (let slot = 1; slot < numShards; slot++) ids.push(...)]. *)
Definition shardIdList (numShards : Z) : res (list jsstr) :=
  if numShards <? 1 then Throw RangeError
  else Ok (DEFAULT_SHARD ::
           ((fun i => 115 :: js_string_of (Z.of_nat i)) <$> seq 1 (Z.to_nat numShards - 1))).

(** [fnv1a64]. *)
Definition fnv1a64 (bs : bytes) : Z :=
  fold_left (fun h b => Z.land (Z.lxor h b * 1099511628211) 18446744073709551615) bs
    14695981039346656037.

(** * The registry invariant *)

Record reg_ok (g : registry) : Prop := {
  ok_names : forall name i, jm_get (byName g) name = Some i ->
    ti_name i = name /\ jm_get (byNumber g) (ti_number i) = Some i;
  ok_numbers : forall n i, jm_get (byNumber g) n = Some i ->
    ti_number i = n /\ jm_get (byName g) (ti_name i) = Some i;
  ok_bounds : forall n i, jm_get (byNumber g) n = Some i ->
    match ti_visibility i with
    | VisSystem => SYSTEM_TABLE_NUMBER_MIN <= n < nextSystem g
    | VisUser => USER_TABLE_NUMBER_START <= n < nextUser g
    end;
  ok_next : SYSTEM_TABLE_NUMBER_MIN <= nextSystem g <= SYSTEM_TABLE_NUMBER_MAX + 1 /\
    USER_TABLE_NUMBER_START <= nextUser g
}.

Lemma reg_empty_ok : reg_ok reg_empty.
Proof. split; done. Qed.

(** Adding a table at an unused number. *)
Lemma reg_add_ok names numbers nu ns info :
  reg_ok (Registry names numbers nu ns) ->
  jm_get names (ti_name info) = None -> jm_get numbers (ti_number info) = None ->
  forall nu' ns', nu <= nu' -> ns <= ns' <= SYSTEM_TABLE_NUMBER_MAX + 1 ->
  match ti_visibility info with
  | VisSystem => SYSTEM_TABLE_NUMBER_MIN <= ti_number info < ns'
  | VisUser => USER_TABLE_NUMBER_START <= ti_number info < nu'
  end ->
  reg_ok (Registry (jm_set names (ti_name info) info) (jm_set numbers (ti_number info) info) nu' ns').
Proof.
  intros [H1 H2 H3 H4] Hn Hm nu' ns' Hu Hs Hb. simpl in *. split; simpl.
  - intros name i. rewrite jm_get_set. destruct (decide (name = ti_name info)) as [->|Hne].
    + intros [= <-]. split; [done|]. by rewrite jm_get_set, decide_True.
    + intros Hi. destruct (H1 _ _ Hi) as [-> Hi']. split; [done|].
      rewrite jm_get_set, decide_False; [done|]. intros He. rewrite He in Hi'. congruence.
  - intros n i. rewrite jm_get_set. destruct (decide (n = ti_number info)) as [->|Hne].
    + intros [= <-]. split; [done|]. by rewrite jm_get_set, decide_True.
    + intros Hi. destruct (H2 _ _ Hi) as [-> Hi']. split; [done|].
      rewrite jm_get_set, decide_False; [done|]. intros He. rewrite He in Hi'. congruence.
  - intros n i. rewrite jm_get_set. destruct (decide (n = ti_number info)) as [->|Hne].
    + by intros [= <-].
    + intros Hi. specialize (H3 _ _ Hi). destruct (ti_visibility i); lia.
  - lia.
Qed.

Lemma reg_allocate_ok g name vis sk info g' :
  reg_ok g -> reg_allocate g name vis sk = Ok (info, g') ->
  reg_ok g' /\ jm_get (byName g') name = Some info /\
  (forall m i, jm_get (byName g) m = Some i -> jm_get (byName g') m = Some i).
Proof.
  intros Hok. unfold reg_allocate. destruct (jm_get (byName g) name) as [i|] eqn:E.
  { intros [= <- <-]. by split_and!. }
  assert (Hkeep : forall i m j, jm_get (byName g) m = Some j ->
            jm_get (jm_set (byName g) name i) m = Some j).
  { intros i m j Hm. rewrite jm_get_set, decide_False; [done|]. intros ->. congruence. }
  pose proof (ok_next g Hok) as Hnext.
  unfold SYSTEM_TABLE_NUMBER_MAX, SYSTEM_TABLE_NUMBER_MIN, USER_TABLE_NUMBER_START in Hnext.
  destruct (default_visibility name vis) eqn:Ev; simpl.
  - intros [= <- <-]. simpl. rewrite jm_get_set, decide_True by done. split_and!; [|done|eauto].
    destruct g as [names numbers nu ns]. simpl in *.
    apply (reg_add_ok names numbers nu ns (TableInfo name nu VisUser StActive sk)); simpl;
      unfold SYSTEM_TABLE_NUMBER_MAX, USER_TABLE_NUMBER_START; try done; try lia.
    destruct (jm_get numbers nu) as [i|] eqn:En; [|done].
    pose proof (ok_bounds _ Hok _ _ En) as Hb. simpl in Hb. destruct (ti_visibility i); lia.
  - destruct (SYSTEM_TABLE_NUMBER_MAX <? nextSystem g) eqn:Em; [done|]. zbool. simpl.
    intros [= <- <-]. simpl. rewrite jm_get_set, decide_True by done. split_and!; [|done|eauto].
    destruct g as [names numbers nu ns]. simpl in *. unfold SYSTEM_TABLE_NUMBER_MAX in Em.
    apply (reg_add_ok names numbers nu ns (TableInfo name ns VisSystem StActive sk)); simpl;
      unfold SYSTEM_TABLE_NUMBER_MAX, SYSTEM_TABLE_NUMBER_MIN; try done; try lia.
    destruct (jm_get numbers ns) as [i|] eqn:En; [|done].
    pose proof (ok_bounds _ Hok _ _ En) as Hb. simpl in Hb.
    unfold USER_TABLE_NUMBER_START, SYSTEM_TABLE_NUMBER_MIN in Hb. destruct (ti_visibility i); lia.
Qed.

(** A preassigned number is in its visibility's range and not in use, as the
    numbers read back from a running deployment are. *)
Definition preassign_fits (g : registry) (name : jsstr) (n : Z) (vis : option visibility) : Prop :=
  jm_get (byName g) name <> None \/
  (jm_get (byNumber g) n = None /\
   match default_visibility name vis with
   | VisSystem => SYSTEM_TABLE_NUMBER_MIN <= n <= SYSTEM_TABLE_NUMBER_MAX
   | VisUser => USER_TABLE_NUMBER_START <= n
   end).

Lemma reg_preassign_ok g name n vis sk st info g' :
  reg_ok g -> preassign_fits g name n vis -> reg_preassign g name n vis sk st = (info, g') ->
  reg_ok g' /\ jm_get (byName g') name = Some info /\
  (forall m i, jm_get (byName g) m = Some i -> jm_get (byName g') m = Some i).
Proof.
  intros Hok Hfit. unfold reg_preassign. destruct (jm_get (byName g) name) as [i|] eqn:E.
  { intros [= <- <-]. by split_and!. }
  destruct Hfit as [|[Hn Hr]]; [congruence|].
  assert (Hkeep : forall i m j, jm_get (byName g) m = Some j ->
            jm_get (jm_set (byName g) name i) m = Some j).
  { intros i m j Hm. rewrite jm_get_set, decide_False; [done|]. intros ->. congruence. }
  pose proof (ok_next g Hok) as Hnext. destruct g as [names numbers nu ns]. simpl in *.
  intros [= <- <-].
  destruct (default_visibility name vis) eqn:Ev; simpl;
    rewrite jm_get_set, decide_True by done; (split_and!; [|done|eauto]).
  - apply (reg_add_ok names numbers nu ns (TableInfo name n VisUser (default StActive st) sk)); simpl;
      try done; lia.
  - apply (reg_add_ok names numbers nu ns (TableInfo name n VisSystem (default StActive st) sk)); simpl;
      try done; lia.
Qed.

(** Registry calls; a call that throws leaves the registry as it was. *)
Inductive reg_op :=
  | RegAllocate (name : jsstr) (vis : option visibility) (sk : option jsstr)
  | RegPreassign (name : jsstr) (n : Z) (vis : option visibility) (sk : option jsstr)
                 (st : option table_state).

Definition reg_step (g : registry) (o : reg_op) : registry :=
  match o with
  | RegAllocate name vis sk => match reg_allocate g name vis sk with Ok (_, g') => g' | Throw _ => g end
  | RegPreassign name n vis sk st => (reg_preassign g name n vis sk st).2
  end.

Definition op_fits (g : registry) (o : reg_op) : Prop :=
  match o with
  | RegAllocate _ _ _ => True
  | RegPreassign name n vis _ _ => preassign_fits g name n vis
  end.

Inductive reg_reachable : registry -> Prop :=
  | rr_empty : reg_reachable reg_empty
  | rr_step g o : reg_reachable g -> op_fits g o -> reg_reachable (reg_step g o).

Lemma reg_step_ok g o :
  reg_ok g -> op_fits g o ->
  reg_ok (reg_step g o) /\
  (forall m i, jm_get (byName g) m = Some i -> jm_get (byName (reg_step g o)) m = Some i).
Proof.
  intros Hok Hf. destruct o as [name vis sk|name n vis sk st]; simpl.
  - destruct (reg_allocate g name vis sk) as [[i g']|] eqn:E; [|done].
    destruct (reg_allocate_ok _ _ _ _ _ _ Hok E) as (? & _ & ?). done.
  - destruct (reg_preassign g name n vis sk st) as [i g'] eqn:E.
    destruct (reg_preassign_ok _ _ _ _ _ _ _ _ Hok Hf E) as (? & _ & ?). done.
Qed.

Lemma reg_reachable_ok g : reg_reachable g -> reg_ok g.
Proof. induction 1; [apply reg_empty_ok|]. by apply reg_step_ok. Qed.

(** * Properties *)

(** In every reachable registry the two maps are inverse to each other, so
    no two tables share a number, system tables stay within 1..9999 and user
    tables start at 10001. *)
Theorem registry_numbers_unique g :
  reg_reachable g ->
  (forall name i, reg_getByName g name = Some i <->
                  ti_name i = name /\ reg_getByNumber g (ti_number i) = Some i) /\
  (forall name i, reg_getByName g name = Some i ->
     match ti_visibility i with
     | VisSystem => SYSTEM_TABLE_NUMBER_MIN <= ti_number i <= SYSTEM_TABLE_NUMBER_MAX
     | VisUser => USER_TABLE_NUMBER_START <= ti_number i
     end).
Proof.
  intros Hr. pose proof (reg_reachable_ok g Hr) as Hok. unfold reg_getByName, reg_getByNumber.
  split.
  - intros name i. split; [apply (ok_names g Hok)|].
    intros [<- Hi]. by apply (ok_numbers g Hok) in Hi as [_ ?].
  - intros name i Hi. apply (ok_names g Hok) in Hi as [_ Hi].
    pose proof (ok_bounds g Hok _ _ Hi). pose proof (ok_next g Hok).
    destruct (ti_visibility i); lia.
Qed.

Lemma registry_numbers_unique_witness :
  reg_getByNumber (reg_step (reg_step reg_empty (RegPreassign [95; 97] 20 None None None))
                    (RegAllocate [95; 98] None None)) 21 =
  Some (TableInfo [95; 98] 21 VisSystem StActive None).
Proof.
  set (g1 := reg_step reg_empty (RegPreassign [95; 97] 20 None None None)).
  assert (H1 : reg_reachable g1).
  { apply rr_step; [constructor|]. right. split; [done|]. simpl. unfold SYSTEM_TABLE_NUMBER_MIN, SYSTEM_TABLE_NUMBER_MAX. lia. }
  assert (H2 : reg_reachable (reg_step g1 (RegAllocate [95; 98] None None))) by by apply rr_step.
  exact (proj2 (proj1 (proj1 (registry_numbers_unique _ H2) [95; 98]
    (TableInfo [95; 98] 21 VisSystem StActive None)) eq_refl)).
Defined.

(** Allocation is stable: a table once registered keeps its entry through
    every later call, and allocating its name again returns that entry. *)
Theorem registry_stable g o name i :
  reg_reachable g -> op_fits g o -> reg_getByName g name = Some i ->
  reg_getByName (reg_step g o) name = Some i /\
  forall vis sk, reg_allocate g name vis sk = Ok (i, g).
Proof.
  intros Hr Hf Hi. split.
  - by apply (reg_step_ok g o); [apply reg_reachable_ok| |].
  - intros vis sk. unfold reg_allocate, reg_getByName in *. by rewrite Hi.
Qed.

Lemma registry_stable_witness :
  reg_getByName (reg_step (reg_step reg_empty (RegAllocate [97] None None)) (RegAllocate [98] None None)) [97]
  = Some (TableInfo [97] 10001 VisUser StActive None).
Proof.
  exact (proj1 (registry_stable (reg_step reg_empty (RegAllocate [97] None None))
    (RegAllocate [98] None None) [97] (TableInfo [97] 10001 VisUser StActive None)
    (rr_step _ (RegAllocate [97] None None) rr_empty I) I eq_refl)).
Defined.

(** The shard list names each slot at its own position, without repeats. *)
Theorem shardIdList_slots n ids :
  shardIdList n = Ok ids ->
  Z.of_nat (length ids) = n /\ NoDup ids /\
  forall slot, 0 <= slot < n -> ids !! Z.to_nat slot = Some (shard_of_slot slot).
Proof.
  unfold shardIdList. destruct (n <? 1) eqn:E; [done|]. zbool. intros [= <-]. split_and!.
  - cbn [length]. rewrite length_fmap, length_seq. lia.
  - constructor.
    + intros (i & Hi & _)%list_elem_of_fmap. discriminate Hi.
    + apply NoDup_fmap_2_strong; [|apply NoDup_seq]. intros x y _ _ [= H].
      apply js_string_of_inj in H; lia.
  - intros slot Hs. destruct (Z.eq_dec slot 0) as [->|Hne]; [done|].
    replace (Z.to_nat slot) with (S (Z.to_nat slot - 1)) by lia. cbn [lookup list_lookup].
    unfold shard_of_slot. rewrite (proj2 (Z.eqb_neq _ _)) by done.
    change ((((fun i => 115 :: js_string_of (Z.of_nat i)) <$> seq 1 (Z.to_nat n - 1)) : list jsstr)
              !! (Z.to_nat slot - 1)%nat = Some (115 :: js_string_of slot)).
    rewrite list_lookup_fmap, lookup_seq_lt by lia. simpl. do 3 f_equal. lia.
Qed.

Lemma shardIdList_slots_witness :
  [DEFAULT_SHARD; [115; 49]] !! Z.to_nat 1 = Some (shard_of_slot 1).
Proof.
  exact (proj2 (proj2 (shardIdList_slots 2 [DEFAULT_SHARD; [115; 49]] eq_refl)) 1
    (conj (ltac:(lia) : 0 <= 1) (ltac:(lia) : 1 < 2))).
Defined.
