(* ===== verification/JumpHash.v ===== *)
(** Shard routing by value: packages/id-codec/src/jump-hash.ts.  The jump
    consistent hash computes its jump points in floating point; they strictly
    increase, so the loop ends, and growing the number of buckets moves a key
    to a new bucket or not at all. *)
From Stdlib Require Import ZArith Lia SpecFloat.
From stdpp Require Import base list.
From S2P Require Import Prelude JsBase Float64 Values KeyCodec Sharding.

(** [a * b], [a / b]. *)
Definition f64_mul (a b : float64) : float64 := SFmul f64_prec f64_emax a b.
Definition f64_div (a b : float64) : float64 := SFdiv f64_prec f64_emax a b.

(** [BigInt(Math.floor(x))]: a number that is not finite has no integer. *)
Definition f64_floor (x : float64) : res Z :=
  match x with
  | S754_zero _ => Ok 0
  | S754_finite s m e =>
      Ok (if 0 <=? e then cond_Zopp s (Zpos m) * 2 ^ e else cond_Zopp s (Zpos m) / 2 ^ (- e))
  | _ => Throw RangeError
  end.

Definition U64_MASK : Z := 18446744073709551615.
Definition LCG_MULT : Z := 2862933555777941757.

Definition lcg (k : Z) : Z := Z.land (k * LCG_MULT + 1) U64_MASK.

(** The jump point after [b].  Sums of integers below 2^53 are exact. *)
Definition jump_next (b k : Z) : res Z :=
  let denom := f64_of_Z (Z.shiftr k 33 + 1) in
  f64_floor (f64_mul (f64_of_Z (b + 1)) (f64_div (f64_of_Z 2147483648) denom)).

(** The loop.  A jump point is above the one before, so as many turns as there
    are buckets are enough. *)
Fixpoint jump_loop (fuel : nat) (n b j k : Z) : res Z :=
  if j <? n then
    match fuel with
    | O => Throw RangeError
    | S fuel' =>
        let k := lcg k in
        j' ← jump_next j k;
        jump_loop fuel' n j j' k
    end
  else Ok b.

Definition jumpConsistentHash (key buckets : Z) : res Z :=
  if buckets <? 1 then Throw RangeError
  else jump_loop (Z.to_nat buckets) buckets (-1) 0 (Z.land key U64_MASK).

(** [encodeIndexKey] rejects [undefined] ([None]). *)
Definition shardIdForKeyValue (v : option value) (numShards : Z) : res jsstr :=
  bytes ← match v with Some v => encodeIndexKey [v] | None => Throw TypeError end;
  slot ← jumpConsistentHash (fnv1a64 bytes) (Z.max 1 numShards);
  Ok (shard_of_slot slot).

(** [JumpShardRouter]. *)
Definition JumpShardRouter_new (numShards : Z) : res Z :=
  if numShards <? 1 then Throw RangeError else Ok numShards.
Definition JumpShardRouter_getShardForKey (numShards : Z) (shardKey : option jsstr) : res jsstr :=
  match shardKey with None => Ok DEFAULT_SHARD | Some k => shardIdForKeyValue (Some (VString k)) numShards end.

(** * Rounding keeps integers below *)

(** [K] is at most [m * 2^e]. *)
Definition at_least (K m e : Z) : Prop := K * 2 ^ 1074 <= m * 2 ^ (e + 1074).

Lemma shr_fexp_spec m e l mrs e' :
  0 < m -> -1074 <= e -> shr_fexp f64_prec f64_emax m e l = (mrs, e') ->
  exists n, 0 <= n /\ e' = e + n /\ shr_m mrs = m / 2 ^ n /\
    (n = 0 \/ n = Zdigits2 m - 53) /\ Zdigits2 m - 53 <= n.
Proof.
  unfold shr_fexp, fexp, emin, f64_prec, f64_emax. intros Hm He.
  set (n := _ - e). assert (Hn : (n <= 0 /\ Zdigits2 m <= 53) \/ (n = Zdigits2 m - 53 /\ 0 < n)) by (unfold n; lia).
  clearbody n. unfold shr. destruct n as [|p|p]; intros [= <- <-].
  - exists 0. rewrite shr_record_of_loc_m, Z.div_1_r. lia.
  - exists (Zpos p). rewrite iter_shr_m; rewrite shr_record_of_loc_m; lia.
  - exists 0. rewrite shr_record_of_loc_m, Z.div_1_r. lia.
Qed.

Lemma Zdigits2_bounds m : 0 < m -> 2 ^ (Zdigits2 m - 1) <= m < 2 ^ Zdigits2 m.
Proof. destruct m as [|p|p]; try lia. intros _. exact (digits2_pos_bounds p). Qed.

Lemma shr_at_least K m e l mrs e' :
  0 < K <= 2 ^ 53 -> 0 < m -> -1074 <= e -> at_least K m e ->
  shr_fexp f64_prec f64_emax m e l = (mrs, e') -> at_least K (shr_m mrs) e'.
Proof.
  unfold at_least. intros HK Hm He Hle H. apply shr_fexp_spec in H as (n & Hn & -> & Em & Hd & _); [|done..]. rewrite Em.
  destruct Hd as [->|Hd]; [by rewrite Z.div_1_r, Z.add_0_r|].
  destruct (Z.eq_dec n 0) as [->|Hn0]; [by rewrite Z.div_1_r, Z.add_0_r|].
  pose proof (Zdigits2_bounds m Hm) as [Hl _].
  assert (Hp : 0 < 2 ^ n) by (apply Z.pow_pos_nonneg; lia).
  destruct (Z_le_gt_dec (e + n) 0) as [Hs|Hs].
  - assert (Hx : K * 2 ^ (- (e + n)) <= m / 2 ^ n).
    { apply Z.div_le_lower_bound; [done|]. apply (Z.mul_le_mono_pos_r _ _ (2 ^ (e + 1074))); [apply Z.pow_pos_nonneg; lia|].
      etrans; [|exact Hle]. apply Z.eq_le_incl. rewrite (Z.mul_comm (2 ^ n)), <-!Z.mul_assoc, <-!Z.pow_add_r by lia. do 2 f_equal. lia. }
    apply (Z.mul_le_mono_nonneg_r _ _ (2 ^ (e + n + 1074))) in Hx; [|apply Z.pow_nonneg; lia]. etrans; [|exact Hx].
    rewrite <-Z.mul_assoc, <-Z.pow_add_r by lia. apply Z.eq_le_incl. do 2 f_equal. lia.
  - assert (Hq : 2 ^ 52 <= m / 2 ^ n).
    { apply Z.div_le_lower_bound; [done|]. rewrite <-Z.pow_add_r by lia. etrans; [|exact Hl]. apply Z.pow_le_mono_r; lia. }
    transitivity (2 ^ 53 * 2 ^ 1074); [apply Z.mul_le_mono_nonneg_r; lia|].
    transitivity (2 ^ 52 * 2 ^ (e + n + 1074)).
    + rewrite <-!Z.pow_add_r by lia. apply Z.pow_le_mono_r; lia.
    + apply Z.mul_le_mono_nonneg_r; [apply Z.pow_nonneg; lia|done].
Qed.

Lemma at_least_mono K m m' e : m <= m' -> -1074 <= e -> at_least K m e -> at_least K m' e.
Proof.
  unfold at_least. intros Hm He H. etrans; [exact H|]. apply Z.mul_le_mono_nonneg_r; [apply Z.pow_nonneg; lia|done].
Qed.

(** The magnitude after a shift stays below a power of two. *)
Lemma shr_below B m e l mrs e' :
  0 < m -> -1074 <= e -> Zdigits2 m + e <= B -> -900 <= B -> shr_fexp f64_prec f64_emax m e l = (mrs, e') ->
  e' <= Z.max e (B - 53) /\ 0 < shr_m mrs /\ -1074 <= e' /\ (e' <= B -> shr_m mrs < 2 ^ (B - e')) /\ e' <= B /\
  shr_m mrs < 2 ^ 53.
Proof.
  intros Hm He HB HB0 H. pose proof (shr_fexp_pos _ _ _ _ _ Hm He H) as [Hp He'].
  apply shr_fexp_spec in H as (n & Hn & -> & Em & Hd & Hd'); [|done..].
  pose proof (Zdigits2_bounds m Hm) as [Hl Hu].
  assert (HD : 0 < Zdigits2 m) by (destruct m; simpl; lia).
  assert (Hlt : forall k, Zdigits2 m <= n + k -> 0 <= k -> m / 2 ^ n < 2 ^ k).
  { intros k Hk Hk0. apply Z.div_lt_upper_bound; [apply Z.pow_pos_nonneg; lia|].
    rewrite <-Z.pow_add_r by lia. eapply Z.lt_le_trans; [exact Hu|]. apply Z.pow_le_mono_r; lia. }
  split_and!; [lia|done|lia| |lia|]; rewrite Em; [intros _|]; apply Hlt; lia.
Qed.

Lemma digits_below m B : 0 < m -> m <= 2 ^ B -> 0 <= B -> Zdigits2 m <= B + 1.
Proof.
  intros Hm HB HB0. pose proof (Zdigits2_bounds m Hm) as [Hl _].
  assert (2 ^ (Zdigits2 m - 1) <= 2 ^ B) by lia.
  apply Z.pow_le_mono_r_iff in H; lia.
Qed.

(** Rounding a positive number of moderate size: finite, and no smaller than
    any integer of 53 bits below it. *)
Lemma round_aux_spec K B m e l :
  0 < K <= 2 ^ 53 -> 0 < m -> -1074 <= e <= 900 -> Zdigits2 m + e <= B -> -900 <= B <= 900 -> at_least K m e ->
  exists m' e', binary_round_aux f64_prec f64_emax false m e l = S754_finite false m' e' /\
    at_least K (Zpos m') e' /\ Zdigits2 (Zpos m') + e' <= B + 2 /\ -1074 <= e' <= 900 /\ Zpos m' < 2 ^ 53.
Proof.
  intros HK Hm He HB HB0 Hle. unfold binary_round_aux.
  destruct (shr_fexp f64_prec f64_emax m e l) as [mrs e1] eqn:E1.
  pose proof (shr_at_least K m e l mrs e1 HK Hm ltac:(lia) Hle E1) as L1.
  pose proof (shr_below B m e l mrs e1 Hm ltac:(lia) HB ltac:(lia) E1) as (H1 & P1 & Q1 & S1 & T1 & _). specialize (S1 T1).
  set (r := round_nearest_even (shr_m mrs) (loc_of_shr_record mrs)).
  assert (Hr : shr_m mrs <= r <= shr_m mrs + 1).
  { unfold r. destruct (loc_of_shr_record mrs) as [|[]]; simpl; try case_match; lia. }
  destruct (shr_fexp f64_prec f64_emax r e1 loc_Exact) as [mrs2 e2] eqn:E2.
  pose proof (shr_at_least K r e1 loc_Exact mrs2 e2 HK ltac:(lia) ltac:(lia)
                (at_least_mono K (shr_m mrs) r e1 ltac:(lia) ltac:(lia) L1) E2) as L2.
  assert (HD : Zdigits2 r <= B - e1 + 1) by (apply digits_below; lia).
  pose proof (shr_below (B + 1) r e1 loc_Exact mrs2 e2 ltac:(lia) ltac:(lia) ltac:(lia) ltac:(lia) E2) as (H2 & P2 & Q2 & S2 & T2 & U2).
  specialize (S2 T2). destruct (shr_m mrs2) as [|p|p] eqn:Ep; [lia| |lia].
  change (f64_emax - f64_prec) with 971. rewrite (proj2 (Z.leb_le _ _)) by lia.
  exists p, e2. split_and!; [done|done| |lia|lia|lia].
  assert (Zdigits2 (Zpos p) <= (B + 1 - e2) + 1) by (apply digits_below; lia). lia.
Qed.

Lemma digits_iter_xO m p : Zpos (digits2_pos (Pos.iter xO m p)) = Zpos (digits2_pos m) + Zpos p.
Proof.
  induction p as [|p IH] using Pos.peano_ind; [cbn; lia|]. rewrite Pos.iter_succ. cbn [digits2_pos]. lia.
Qed.

(** An integer below 2^53 is represented exactly, with a full mantissa. *)
Lemma f64_of_Z_exact z : 0 < z < 2 ^ 53 ->
  exists m e, f64_of_Z z = S754_finite false m e /\ Zpos m * 2 ^ (e + 1074) = z * 2 ^ 1074 /\
    Zdigits2 (Zpos m) = 53 /\ Zdigits2 z + (-53) = e /\ -53 <= e <= 0.
Proof.
  intros Hz. unfold f64_of_Z, binary_normalize. destruct z as [|z|]; try lia. unfold binary_round.
  assert (Hd : 1 <= Zdigits2 (Zpos z) <= 53).
  { split; [simpl; lia|]. pose proof (Zdigits2_bounds (Zpos z) ltac:(lia)) as [Hl _].
    assert (Hlt : 2 ^ (Zdigits2 (Zpos z) - 1) < 2 ^ 53) by lia. apply Z.pow_lt_mono_r_iff in Hlt; lia. }
  change (Zpos (digits2_pos z) + 0) with (Zdigits2 (Zpos z) + 0).
  assert (Hf : fexp f64_prec f64_emax (Zdigits2 (Zpos z) + 0) = Zdigits2 (Zpos z) - 53).
  { unfold fexp, emin, f64_prec, f64_emax. lia. }
  rewrite Hf. set (d := Zdigits2 (Zpos z)) in *.
  assert (Ha : exists m, shl_align z 0 (d - 53) = (m, d - 53) /\ Zpos m = Zpos z * 2 ^ (53 - d) /\ Zdigits2 (Zpos m) = 53).
  { unfold shl_align. destruct (d - 53 - 0) as [|p|p] eqn:E; [|lia|].
    - exists z. split_and!; [f_equal; lia|replace (53 - d) with 0 by lia; lia|fold d; lia].
    - exists (Pos.iter xO z p). split_and!; [done|rewrite iter_xO; do 2 f_equal; lia|].
      cbn [Zdigits2]. rewrite digits_iter_xO. change (Zpos (digits2_pos z)) with d. lia. }
  destruct Ha as (m & -> & Em & Dm). exists m, (d - 53).
  assert (Hs : shr_fexp f64_prec f64_emax (Zpos m) (d - 53) loc_Exact = (Build_shr_record (Zpos m) false false, d - 53)).
  { unfold shr_fexp. rewrite Dm. unfold fexp, emin, f64_prec, f64_emax. replace (Z.max _ _ - _) with 0 by lia. done. }
  unfold binary_round_aux. rewrite Hs. cbn [shr_m loc_of_shr_record round_nearest_even]. rewrite Hs. cbn [shr_m].
  rewrite (proj2 (Z.leb_le _ _)) by (unfold f64_emax, f64_prec; lia).
  split_and!; [done| |done|lia|lia|lia].
  rewrite Em, <-Z.mul_assoc, <-Z.pow_add_r by lia. do 2 f_equal. lia.
Qed.

(** The quotient of 2^31 by an integer up to it is at least one. *)
Lemma ratio_spec d : 0 < d <= 2 ^ 31 ->
  exists m e, f64_div (f64_of_Z 2147483648) (f64_of_Z d) = S754_finite false m e /\ at_least 1 (Zpos m) e /\
    -53 <= e <= 900 /\ Zdigits2 (Zpos m) + e <= 40.
Proof.
  intros Hd. destruct (f64_of_Z_exact d ltac:(lia)) as (m2 & e2 & E2 & V2 & D2 & X2 & R2). rewrite E2.
  replace (f64_of_Z 2147483648) with (S754_finite false 4503599627370496 (-21)) by (vm_compute; reflexivity).
  unfold f64_div, SFdiv. destruct (SFdiv_core_binary _ _ _ _ _ _) as [[q e'] l] eqn:E.
  unfold SFdiv_core_binary in E. rewrite D2 in E. change (Zdigits2 4503599627370496) with 53 in E.
  replace (fexp f64_prec f64_emax (53 + -21 - (53 + e2))) with (-21 - e2 - 53) in E by (unfold fexp, emin, f64_prec, f64_emax; lia).
  replace (Z.min (-21 - e2 - 53) (-21 - e2)) with (-21 - e2 - 53) in E by lia.
  replace (-21 - e2 - (-21 - e2 - 53)) with 53 in E by lia.
  rewrite Z.shiftl_mul_pow2 in E by lia. change (4503599627370496 * 2 ^ 53) with (2 ^ 105) in E.
  destruct (Z.div_eucl (2 ^ 105) (Zpos m2)) as [q0 r0] eqn:Eq.
  assert (q0 = 2 ^ 105 / Zpos m2) as -> by (unfold Z.div; by rewrite Eq).
  injection E as <- <- _.
  pose proof (Zdigits2_bounds (Zpos m2) ltac:(lia)) as [Hl Hu]. rewrite D2 in Hl, Hu.
  assert (Hed : -53 <= e2 <= -21).
  { split; [lia|]. pose proof (Zdigits2_bounds d ltac:(lia)) as [Hl' _].
    assert (Hlt : 2 ^ (Zdigits2 d - 1) <= 2 ^ 31) by lia. apply Z.pow_le_mono_r_iff in Hlt; lia. }
  assert (Hq : 2 ^ 52 <= 2 ^ 105 / Zpos m2 <= 2 ^ 53).
  { split; [apply Z.div_le_lower_bound; lia|]. apply Z.div_le_upper_bound; lia. }
  assert (Hdq : Zdigits2 (2 ^ 105 / Zpos m2) <= 54) by (apply (digits_below _ 53); lia).
  destruct (round_aux_spec 1 38 (2 ^ 105 / Zpos m2) (-21 - e2 - 53) l) as (m & e & Hr & Ha & Hb & He & Hm); [lia|lia|lia|lia|lia| |].
  - unfold at_least. rewrite Z.mul_1_l.
    assert (Hx : 2 ^ (21 + e2 + 53) <= 2 ^ 105 / Zpos m2).
    { apply Z.div_le_lower_bound; [lia|]. apply (Z.mul_le_mono_pos_r _ _ (2 ^ 1074)); [apply Z.pow_pos_nonneg; lia|].
      replace (2 ^ 1074) with (2 ^ (- e2) * 2 ^ (e2 + 1074)) at 1 by (rewrite <-Z.pow_add_r by lia; f_equal; lia).
      transitivity (2 ^ (21 + e2 + 53) * 2 ^ (- e2) * (Zpos m2 * 2 ^ (e2 + 1074))); [lia|]. rewrite V2, <-Z.pow_add_r by lia.
      replace (21 + e2 + 53 + - e2) with 74 by lia.
      transitivity (2 ^ 74 * (2 ^ 31 * 2 ^ 1074)); [|by rewrite <-!Z.pow_add_r by lia].
      apply Z.mul_le_mono_nonneg_l; [lia|]. apply Z.mul_le_mono_nonneg_r; lia. }
    apply (Z.mul_le_mono_nonneg_r _ _ (2 ^ (-21 - e2 - 53 + 1074))) in Hx; [|apply Z.pow_nonneg; lia].
    etrans; [|exact Hx]. rewrite <-Z.pow_add_r by lia. apply Z.eq_le_incl. f_equal. lia.
  - exists m, e. cbn [xorb]. split_and!; [exact Hr|done| |lia|lia]. destruct (Z_le_gt_dec (-53) e) as [|Hlow]; [done|].
    unfold at_least in Ha. exfalso. revert Ha. apply Z.lt_nge.
    apply Z.lt_le_trans with (2 ^ 53 * 2 ^ (e + 1074)).
    + apply Z.mul_lt_mono_pos_r; [apply Z.pow_pos_nonneg; lia|done].
    + rewrite Z.mul_1_l, <-Z.pow_add_r by lia. apply Z.pow_le_mono_r; lia.
Qed.

Lemma lcg_range k : 0 <= lcg k < 2 ^ 64.
Proof. unfold lcg. change U64_MASK with (Z.ones 64). rewrite Z.land_ones by lia. apply Z.mod_pos_bound. lia. Qed.

Lemma floor_at_least K m e : 0 <= K -> -1074 <= e -> at_least K (Zpos m) e ->
  exists j, f64_floor (S754_finite false m e) = Ok j /\ K <= j.
Proof.
  intros HK He H. cbn [f64_floor cond_Zopp]. eexists. split; [done|]. unfold at_least in H.
  destruct (Z.leb_spec 0 e).
  - apply (Z.mul_le_mono_pos_r _ _ (2 ^ 1074)); [apply Z.pow_pos_nonneg; lia|]. etrans; [exact H|].
    rewrite Z.pow_add_r by lia. lia.
  - apply Z.div_le_lower_bound; [apply Z.pow_pos_nonneg; lia|].
    apply (Z.mul_le_mono_pos_r _ _ (2 ^ (e + 1074))); [apply Z.pow_pos_nonneg; lia|]. etrans; [|exact H].
    rewrite (Z.mul_comm (2 ^ - e)), <-Z.mul_assoc, <-Z.pow_add_r by lia. apply Z.eq_le_incl. do 2 f_equal. lia.
Qed.

(** Jump points strictly increase, whatever the rounding. *)
Lemma jump_next_above b k : 0 <= b < 2 ^ 53 - 1 -> 0 <= k < 2 ^ 64 -> exists j, jump_next b k = Ok j /\ b < j.
Proof.
  intros Hb Hk. unfold jump_next.
  assert (Hd : 0 < Z.shiftr k 33 + 1 <= 2 ^ 31).
  { rewrite Z.shiftr_div_pow2 by lia. split; [assert (0 <= k / 2 ^ 33) by (apply Z.div_pos; lia); lia|].
    assert (k / 2 ^ 33 < 2 ^ 31) by (apply Z.div_lt_upper_bound; lia). lia. }
  destruct (ratio_spec _ Hd) as (my & ey & -> & Hy & Ry & Dy).
  destruct (f64_of_Z_exact (b + 1) ltac:(lia)) as (mx & ex & -> & Vx & Dx & Xx & Rx).
  unfold f64_mul, SFmul. cbn [xorb].
  assert (Hpos : 0 < Zpos (mx * my)) by lia.
  assert (Hdig : Zdigits2 (Zpos (mx * my)) <= Zdigits2 (Zpos mx) + Zdigits2 (Zpos my) + 1).
  { apply digits_below; [done| |cbn; lia]. rewrite Pos2Z.inj_mul, Z.pow_add_r by (cbn; lia).
    pose proof (Zdigits2_bounds (Zpos mx) ltac:(lia)) as [_ H1]. pose proof (Zdigits2_bounds (Zpos my) ltac:(lia)) as [_ H2].
    apply Z.mul_le_mono_nonneg; lia. }
  assert (Hle : at_least (b + 1) (Zpos (mx * my)) (ex + ey)).
  { unfold at_least in *. rewrite Z.mul_1_l in Hy. apply (Z.mul_le_mono_nonneg_l _ _ (Zpos mx * 2 ^ (ex + 1074))) in Hy; [|lia].
    rewrite Vx in Hy at 1. apply (Z.mul_le_mono_pos_r _ _ (2 ^ 1074)); [apply Z.pow_pos_nonneg; lia|]. etrans; [exact Hy|].
    rewrite Pos2Z.inj_mul. replace (2 ^ (ex + 1074)) with (2 ^ (ex + 53) * 2 ^ 1021) by (rewrite <-Z.pow_add_r by lia; f_equal; lia).
    replace (2 ^ (ey + 1074)) with (2 ^ (ey + 53) * 2 ^ 1021) by (rewrite <-Z.pow_add_r by lia; f_equal; lia).
    replace (2 ^ (ex + ey + 1074)) with (2 ^ (ex + 53) * 2 ^ (ey + 53) * 2 ^ 968) by (rewrite <-!Z.pow_add_r by lia; f_equal; lia).
    replace (2 ^ 1074) with (2 ^ 1021 * 2 ^ 53) by (rewrite <-Z.pow_add_r by lia; done).
    replace (2 ^ 1021) with (2 ^ 968 * 2 ^ 53) by (rewrite <-Z.pow_add_r by lia; done).
    apply Z.eq_le_incl. ring. }
  destruct (round_aux_spec (b + 1) 100 (Zpos (mx * my)) (ex + ey) loc_Exact) as (m & e & -> & Ha & _ & He & _); [lia|lia|lia|lia|lia|done|].
  destruct (floor_at_least (b + 1) m e) as (j & -> & Hj); [lia|lia|done|]. exists j. split; [done|lia].
Qed.

Lemma jump_loop_spec fuel n b j k :
  n < 2 ^ 53 -> 0 <= j -> b < j -> b < n -> n - j <= Z.of_nat fuel -> 0 <= k < 2 ^ 64 ->
  exists s, jump_loop fuel n b j k = Ok s /\ s < n /\ (s = b /\ n <= j \/ j <= s).
Proof.
  intros Hn. revert b j k. induction fuel as [|fuel IH]; intros b j k Hj Hb Hbn Hf Hk; cbn [jump_loop].
  - rewrite (proj2 (Z.ltb_ge _ _)) by lia. exists b. split_and!; [done|done|left; split; [done|lia]].
  - destruct (Z.ltb_spec j n) as [Hlt|Hge]; [|exists b; split_and!; [done|done|left; split; [done|lia]]]. pose proof (lcg_range k) as Hl.
    destruct (jump_next_above j (lcg k) ltac:(lia) Hl) as (j' & -> & Hj'). rewrite bind_Ok.
    destruct (IH j j' (lcg k)) as (s & Hs & Hs1 & Hs2); [lia|lia|lia|lia|done|]. exists s. split_and!; [done|done|right; lia].
Qed.

Lemma jump_loop_minimal fuel fuel' n n' b j k s s' :
  n <= n' < 2 ^ 53 -> 0 <= j -> b < j -> b < n -> n' - j <= Z.of_nat fuel' -> 0 <= k < 2 ^ 64 ->
  jump_loop fuel n b j k = Ok s -> jump_loop fuel' n' b j k = Ok s' -> s' = s \/ n <= s'.
Proof.
  intros Hn. revert fuel' b j k. induction fuel as [|fuel IH]; intros fuel' b j k Hj Hb Hbn Hf Hk Hs Hs';
    cbn [jump_loop] in Hs; destruct (Z.ltb_spec j n) as [Hlt|Hge]; try done.
  1, 3: injection Hs as <-; destruct (jump_loop_spec fuel' n' b j k) as (x & Hx & _ & Hx'); [lia..|done|];
    assert (x = s') as -> by congruence; lia.
  pose proof (lcg_range k) as Hl. destruct (jump_next_above j (lcg k) ltac:(lia) Hl) as (j' & Ej & Hj').
  rewrite Ej, bind_Ok in Hs. destruct fuel' as [|fuel']; cbn [jump_loop] in Hs'; rewrite (proj2 (Z.ltb_lt j n')) in Hs' by lia; [done|].
  rewrite Ej, bind_Ok in Hs'. eapply (IH fuel' j j' (lcg k)); [lia|lia|lia|lia|done|done|done].
Qed.

(** C38: the jump hash answers for every key and every number of buckets, with a
    bucket in range, and adding buckets moves a key to one of the new buckets
    or leaves it where it was: no key moves between the old ones. *)
Theorem jumpConsistentHash_minimal key n n' :
  1 <= n <= n' -> n' < 2 ^ 53 ->
  exists s s', jumpConsistentHash key n = Ok s /\ jumpConsistentHash key n' = Ok s' /\
    0 <= s < n /\ 0 <= s' < n' /\ (s' = s \/ n <= s').
Proof.
  intros Hn Hn'. unfold jumpConsistentHash. rewrite !(proj2 (Z.ltb_ge _ _)) by lia.
  assert (Hk : 0 <= Z.land key U64_MASK < 2 ^ 64).
  { change U64_MASK with (Z.ones 64). rewrite Z.land_ones by lia. apply Z.mod_pos_bound. lia. }
  destruct (jump_loop_spec (Z.to_nat n) n (-1) 0 (Z.land key U64_MASK)) as (s & Hs & Hs1 & Hs2); [lia..|].
  destruct (jump_loop_spec (Z.to_nat n') n' (-1) 0 (Z.land key U64_MASK)) as (s' & Hs' & Hs1' & Hs2'); [lia..|].
  exists s, s'. split_and!; [done|done|lia..|].
  eapply (jump_loop_minimal (Z.to_nat n) (Z.to_nat n') n n' (-1) 0 (Z.land key U64_MASK)); [lia..|done|done].
Qed.

Lemma jumpConsistentHash_minimal_witness :
  jumpConsistentHash 12345678901234567890 4 = Ok 0 /\ jumpConsistentHash 12345678901234567890 16 = Ok 8 /\
  exists s s', jumpConsistentHash 12345678901234567890 4 = Ok s /\ jumpConsistentHash 12345678901234567890 16 = Ok s' /\
    0 <= s < 4 /\ 0 <= s' < 16 /\ (s' = s \/ 4 <= s').
Proof.
  split; [vm_compute; reflexivity|]. split; [vm_compute; reflexivity|].
  apply (jumpConsistentHash_minimal 12345678901234567890 4 16); lia.
Defined.

(** The shard of a value exists among the deployment's shards. *)
Lemma shardIdForKeyValue_listed v n sh :
  1 <= n < 2 ^ 53 -> shardIdForKeyValue v n = Ok sh -> exists ids, shardIdList n = Ok ids /\ sh ∈ ids.
Proof.
  intros Hn. unfold shardIdForKeyValue, shardIdList. rewrite (proj2 (Z.ltb_ge _ _)), Z.max_r by lia.
  destruct (match v with Some _ => _ | None => _ end) as [bs|]; [|done]. rewrite bind_Ok.
  pose proof (jump_loop_spec (Z.to_nat n) n (-1) 0 (Z.land (fnv1a64 bs) U64_MASK)) as Hj.
  unfold jumpConsistentHash. rewrite (proj2 (Z.ltb_ge _ _)) by lia.
  assert (Hk : 0 <= Z.land (fnv1a64 bs) U64_MASK < 2 ^ 64).
  { change U64_MASK with (Z.ones 64). rewrite Z.land_ones by lia. apply Z.mod_pos_bound. lia. }
  destruct Hj as (s & -> & Hs & Hs'); [lia..|]. rewrite bind_Ok. intros [= <-]. eexists. split; [done|].
  unfold shard_of_slot. destruct (Z.eqb_spec s 0) as [|Hne]; [by left|right].
  apply list_elem_of_fmap. exists (Z.to_nat s). split; [by rewrite Z2Nat.id by lia|]. apply elem_of_seq. lia.
Qed.
