(* ===== verification/DocStore.v ===== *)
(** The storage seam: the data of packages/docstore/src/types.ts, the clock of
    timestamp-oracle.ts, and the interface a store implements. *)
From Stdlib Require Import ZArith Lia Sorted.
From stdpp Require Import base list sets strings.
From S2P Require Import Prelude JsBase JsText Float64 Values KeyCodec KeyRanges IdCodec.

(** * Data *)

(** [DocumentValue]: an object value. *)
Record resolved_document := ResolvedDocument { rd_id : doc_id; rd_value : value }.

(** [le_value = None] is a tombstone. *)
Record log_entry := LogEntry
  { le_ts : Z; le_id : doc_id; le_value : option resolved_document; le_prev : option Z }.

Record latest_document := LatestDocument
  { ld_ts : Z; ld_value : resolved_document; ld_prev : option Z }.

Inductive order := Asc | Desc.
Inductive conflict_strategy := OnConflictError | OnConflictOverwrite.

Record interval := Interval { iv_start : bytes; iv_end : option bytes }.

Definition in_interval (k : bytes) (iv : interval) : bool :=
  negb (cmp_ltb (compareKeyBytes k (iv_start iv))) && lt_end k (iv_end iv).

Inductive index_value := IxDeleted | IxNonClustered (docId : doc_id).
Record index_update := IndexUpdate { iu_index : jsstr; iu_key : bytes; iu_value : index_value }.
Record index_write := IndexWrite { iw_ts : Z; iw_update : index_update }.

(** A descending scan runs the comparison backwards. *)
Definition directed {A} (o : order) (c : A -> A -> comparison) : A -> A -> comparison :=
  match o with Asc => c | Desc => fun a b => c b a end.

Lemma directed_on {A B} o (c : B -> B -> comparison) (f : A -> B) :
  directed o (fun a b => c (f a) (f b)) = fun a b => directed o c (f a) (f b).
Proof. by destruct o. Qed.

#[global] Instance directed_exact {A} o (c : A -> A -> comparison) : CmpExact c -> CmpExact (directed o c).
Proof.
  intros Hc. destruct o; [done|]. split; [apply cmp_flip_laws, _|].
  intros x y H. symmetry. by apply (cmp_eq (c := c)).
Qed.

(** Opaque commit metadata: string pairs. *)
Definition commit_meta : Type := list (jsstr * jsstr).

Record commit_unit := CommitUnit
  { cu_documents : list log_entry; cu_indexUpdates : list index_write; cu_meta : option commit_meta }.

Record guard_unit := GuardUnit { gu_ts : Z; gu_meta : option commit_meta }.

(** A staged index-key change projected for read-your-own-writes. *)
Record overlay_entry := OverlayEntry { ov_key : bytes; ov_value : option value }.

Record prev_rev_query := PrevRevQuery { pq_id : doc_id; pq_ts : Z }.

Definition getPrevRevQueryKey (id : doc_id) (ts : Z) : jsstr :=
  documentIdKey id ++ [64] ++ js_string_of ts.

(** * MonotonicTimestampOracle *)

Record oracle := Oracle { oc_current : Z; oc_lastCommitted : Z }.

Definition oracle_new (start : Z) : oracle := Oracle start start.
Definition getCurrentTimestamp (o : oracle) : Z := oc_current o.
Definition getLastCommittedTimestamp (o : oracle) : Z := oc_lastCommitted o.
Definition allocateTimestamp (o : oracle) : Z * oracle :=
  let c := oc_current o + 1 in (c, Oracle c (oc_lastCommitted o)).
Definition publishCommitted (ts : Z) (o : oracle) : oracle :=
  if oc_lastCommitted o <? ts then Oracle (oc_current o) ts else o.
Definition observeTimestamp (ts : Z) (o : oracle) : oracle :=
  let o1 := if oc_current o <? ts then Oracle ts (oc_lastCommitted o) else o in
  if oc_lastCommitted o1 <? ts then Oracle (oc_current o1) ts else o1.

(** No operation moves a clock back. *)
Definition oracle_le (o o' : oracle) : Prop :=
  oc_current o <= oc_current o' /\ oc_lastCommitted o <= oc_lastCommitted o'.

#[global] Instance oracle_le_preorder : PreOrder oracle_le.
Proof. split; [intros o|intros o1 o2 o3]; unfold oracle_le; lia. Qed.

Lemma publishCommitted_spec ts o :
  publishCommitted ts o = Oracle (oc_current o) (Z.max (oc_lastCommitted o) ts).
Proof.
  unfold publishCommitted. destruct (Z.ltb_spec (oc_lastCommitted o) ts).
  - f_equal. lia.
  - rewrite Z.max_l by lia. by destruct o.
Qed.

Lemma observeTimestamp_spec ts o :
  observeTimestamp ts o = Oracle (Z.max (oc_current o) ts) (Z.max (oc_lastCommitted o) ts).
Proof.
  unfold observeTimestamp. destruct (Z.ltb_spec (oc_current o) ts); simpl;
    destruct (Z.ltb_spec (oc_lastCommitted o) ts); destruct o; simpl in *; f_equal; lia.
Qed.

Lemma publishCommitted_le ts o : oracle_le o (publishCommitted ts o).
Proof. rewrite publishCommitted_spec. split; simpl; lia. Qed.

Lemma observeTimestamp_le ts o : oracle_le o (observeTimestamp ts o).
Proof. rewrite observeTimestamp_spec. split; simpl; lia. Qed.

#[export] Hint Resolve publishCommitted_le observeTimestamp_le : concile.
#[export] Hint Rewrite publishCommitted_spec observeTimestamp_spec : concile.

(** * The interface *)

(** What a transaction asks of a store.  A scan is the list its generator
    yields. *)
Class DocStore (S : Type) := {
  ds_get : S -> doc_id -> option Z -> res (option latest_document);
  ds_index_scan : S -> jsstr -> jsstr -> Z -> interval -> order -> option Z ->
                  res (list (bytes * latest_document));
  ds_commitWriteBatch : S -> list commit_unit -> option jsstr -> res (list Z * S);
  ds_maxTimestamp : S -> Z
}.

(** Strictly increasing timestamps above [m]. *)
Fixpoint increasing_above (m : Z) (l : list Z) : Prop :=
  match l with [] => True | t :: l' => m < t /\ increasing_above t l' end.

(** Every unit of a batch carries a document: the transactor only stages
    transactions that write. *)
Definition unit_writes (u : commit_unit) : Prop := cu_documents u <> [].

(** How a store addresses a document. *)
Definition storage_key (id : doc_id) : jsstr * bytes :=
  (encodeStorageTableId (tableNumber id), internalId id).

Definition touches (u : commit_unit) (id : doc_id) : Prop :=
  exists e, e ∈ cu_documents u /\ storage_key (le_id e) = storage_key id.

(** The contract: a commit lands whole at fresh increasing timestamps, what a
    snapshot at an older timestamp sees never changes, a document no landed
    unit touched reads as before, and a scan is ordered by key and restricts to
    sub-intervals. *)
Class DocStoreLaws (S : Type) `{DocStore S} (valid : S -> Prop) : Prop := {
  commit_valid : forall s us sh tss s',
    valid s -> ds_commitWriteBatch s us sh = Ok (tss, s') -> valid s';
  commit_increasing : forall s us sh tss s',
    valid s -> Forall unit_writes us -> ds_commitWriteBatch s us sh = Ok (tss, s') ->
    length tss = length us /\ increasing_above (ds_maxTimestamp s) tss /\
    ds_maxTimestamp s' = default (ds_maxTimestamp s) (last tss);
  commit_snapshot_get : forall s us sh tss s' id t,
    valid s -> ds_commitWriteBatch s us sh = Ok (tss, s') -> t <= ds_maxTimestamp s ->
    ds_get s' id (Some t) = ds_get s id (Some t);
  commit_snapshot_scan : forall s us sh tss s' ix tbl t iv o lim,
    valid s -> ds_commitWriteBatch s us sh = Ok (tss, s') -> t <= ds_maxTimestamp s ->
    ds_index_scan s' ix tbl t iv o lim = ds_index_scan s ix tbl t iv o lim;
  commit_get_other : forall s us sh tss s' id t,
    valid s -> ds_commitWriteBatch s us sh = Ok (tss, s') -> ds_maxTimestamp s <= t ->
    (forall k u ts, us !! k = Some u -> tss !! k = Some ts -> ts <= t -> ~ touches u id) ->
    ds_get s' id (Some t) = ds_get s id None;
  scan_sorted : forall s ix tbl t iv o rows,
    valid s -> ds_index_scan s ix tbl t iv o None = Ok rows ->
    StronglySorted (fun a b => directed o compareKeyBytes a b = Lt) rows.*1 /\
    Forall (fun k => in_interval k iv = true) rows.*1;
  scan_restrict : forall s ix tbl t iv iv' o rows,
    valid s -> (forall k, in_interval k iv' = true -> in_interval k iv = true) ->
    ds_index_scan s ix tbl t iv o None = Ok rows ->
    ds_index_scan s ix tbl t iv' o None =
      Ok (base.filter (fun kd => in_interval kd.1 iv' = true) rows);
  get_latest : forall s id, valid s -> ds_get s id None = ds_get s id (Some (ds_maxTimestamp s))
}.

(** The single-commit form: one unit, one timestamp. *)
Definition ds_commitWrite {S} `{DocStore S} (s : S) (documents : list log_entry)
    (indexUpdates : list index_write) (shardId : option jsstr) (meta : option commit_meta) : res (Z * S) :=
  '(tss, s') ← ds_commitWriteBatch s [CommitUnit documents indexUpdates meta] shardId;
  match tss with ts :: _ => Ok (ts, s') | [] => Throw TypeError end.

Lemma increasing_above_one m ts : increasing_above m [ts] <-> m < ts.
Proof. simpl. tauto. Qed.

Lemma increasing_last_le m l : increasing_above m l -> m <= default m (last l).
Proof.
  revert m. induction l as [|t l IH]; intros m; [done|]. intros [Hm Hr]. specialize (IH t Hr).
  rewrite last_cons. destruct (last l); simpl in *; lia.
Qed.

Lemma increasing_above_lookup m l i j x y :
  increasing_above m l -> l !! i = Some x -> l !! j = Some y -> (i < j)%nat -> x < y.
Proof.
  revert m i j. induction l as [|t l IH]; intros m i j; [by intros _ ?|]. intros [Hm Hr]. destruct i as [|i], j as [|j]; simpl; try lia.
  - intros [= ->] Hj _. clear IH Hm. revert x j Hr Hj. induction l as [|z l IH]; intros x j; [by intros _ ?|]. intros [Hz Hr].
    destruct j as [|j]; simpl; [intros [= ->]; done|]. intros Hj. specialize (IH z j Hr Hj). lia.
  - intros Hi Hj Hlt. apply (IH t i j Hr Hi Hj). lia.
Qed.

Lemma increasing_above_elem m l x : increasing_above m l -> x ∈ l -> m < x.
Proof.
  revert m. induction l as [|t l IH]; intros m; [by intros _ ?%not_elem_of_nil|].
  intros [Hm Hr] [->|Hx]%elem_of_cons; [done|]. specialize (IH t Hr Hx). lia.
Qed.

Section commit_facts.
Context {S : Type} `{!DocStore S} {valid : S -> Prop} `{!DocStoreLaws S valid}.

(** What a single commit does to the store. *)
Record committed (s : S) (documents : list log_entry) (ts : Z) (s' : S) : Prop := {
  com_valid : valid s';
  com_after : ds_maxTimestamp s < ts;
  com_max : ds_maxTimestamp s' = ts;
  com_before : forall id t, t <= ds_maxTimestamp s -> ds_get s' id (Some t) = ds_get s id (Some t);
  com_other : forall id, (forall e, e ∈ documents -> storage_key (le_id e) <> storage_key id) ->
    ds_get s' id None = ds_get s id None
}.

Lemma commitWrite_committed s documents idx sh meta ts s' :
  valid s -> documents <> [] -> ds_commitWrite s documents idx sh meta = Ok (ts, s') ->
  committed s documents ts s'.
Proof.
  intros Hv Hd. unfold ds_commitWrite.
  destruct (ds_commitWriteBatch s _ sh) as [[tss s1]|] eqn:E; [|done]. rewrite bind_Ok.
  destruct tss as [|t0 tss]; [done|]. intros [= -> ->].
  assert (Hw : Forall unit_writes [CommitUnit documents idx meta]) by (constructor; [done|constructor]).
  destruct (commit_increasing _ _ _ _ _ Hv Hw E) as (Hlen & Hinc & Hmax).
  destruct tss as [|? ?]; [|done]. simpl in Hmax. apply increasing_above_one in Hinc.
  pose proof (commit_valid _ _ _ _ _ Hv E) as Hv'. split; [done|done|done| |].
  - intros id t Ht. by apply (commit_snapshot_get _ _ _ _ _ _ _ Hv E).
  - intros id Hid. rewrite (get_latest s' id Hv'), Hmax. apply (commit_get_other _ _ _ _ _ _ _ Hv E); [lia|].
    intros k u ts0 Hk _ _ (e & He & Hkey). destruct k as [|k]; [|done]. simpl in Hk. injection Hk as <-.
    by apply (Hid e He).
Qed.
End commit_facts.

