(* ===== verification/SqliteDocStore.v ===== *)
(** The SQLite store: packages/docstore-sqlite/src/sqlite-docstore.ts.

    A table is the list of its rows; a SELECT is a filter, an ORDER BY a
    stable sort on the named columns, LIMIT a [take].  A TEXT column holding
    JSON is represented by the JSON value it was printed from. *)
From Stdlib Require Import ZArith Lia Sorted.
From stdpp Require Import base list sets strings.
From S2P Require Import Prelude JsBase JsText Float64 Values ValuesJson KeyCodec KeyRanges IdCodec Sharding DocStore.

(** * JSON text *)

(** [JSON.parse(JSON.stringify(j))]: a non-finite number prints as [null] and
    [-0] as [0]; everything else reads back as it was. *)
Fixpoint reparse (j : json) : json :=
  match j with
  | JNumber n =>
      if negb (f64_is_finite (num_f n)) then JNull
      else if num_is_neg_zero n then JNumber num_zero else j
  | JArray xs => JArray (List.map reparse xs)
  | JObject fs => JObject (List.map (fun kv => (kv.1, reparse kv.2)) fs)
  | _ => j
  end.

(** * Tables *)

Record doc_row := DocRow
  { dr_table_id : jsstr; dr_internal_id : bytes; dr_ts : Z; dr_prev_ts : option Z;
    dr_value : option json; dr_shard_id : jsstr }.

Record index_row := IndexRow
  { ir_index_id : jsstr; ir_key : bytes; ir_ts : Z; ir_table_id : option jsstr;
    ir_internal_id : option bytes; ir_deleted : Z; ir_shard_id : jsstr }.

Inductive verdict := Applied | Failed.

Record mutation_row := MutationRow
  { mr_identity : jsstr; mr_client_id : jsstr; mr_seq : Z; mr_verdict : verdict; mr_commit_ts : Z;
    mr_value_json : option json; mr_error_code : option jsstr; mr_created_at : Z }.

Record floor_row := FloorRow
  { fr_identity : jsstr; fr_client_id : jsstr; fr_pruned_through_seq : Z; fr_updated_at : Z }.

Record sqlite_db := SqliteDb
  { db_documents : list doc_row; db_indexes : list index_row;
    db_globals : list (jsstr * json); db_mutations : list mutation_row;
    db_floors : list floor_row }.

(** A commit guard is caller code run inside the transaction: it may change
    the database, throw, or return a thenable ([true]). *)
Definition commit_guard : Type := sqlite_db -> list guard_unit -> jsstr -> res (sqlite_db * bool).

Record sqlite_store := SqliteStore { ss_db : sqlite_db; ss_guards : list commit_guard }.

Definition with_documents (db : sqlite_db) (rows : list doc_row) : sqlite_db :=
  SqliteDb rows (db_indexes db) (db_globals db) (db_mutations db) (db_floors db).
Definition with_indexes (db : sqlite_db) (rows : list index_row) : sqlite_db :=
  SqliteDb (db_documents db) rows (db_globals db) (db_mutations db) (db_floors db).
Definition with_globals (db : sqlite_db) (g : list (jsstr * json)) : sqlite_db :=
  SqliteDb (db_documents db) (db_indexes db) g (db_mutations db) (db_floors db).
Definition with_mutations (db : sqlite_db) (rows : list mutation_row) : sqlite_db :=
  SqliteDb (db_documents db) (db_indexes db) (db_globals db) rows (db_floors db).
Definition with_floors (db : sqlite_db) (rows : list floor_row) : sqlite_db :=
  SqliteDb (db_documents db) (db_indexes db) (db_globals db) (db_mutations db) rows.

(** * Writing *)

Definition serializeValue (v : value) : res json := convexToJson v.
Definition parseValue (text : json) : res value := jsonToConvex (reparse text).

Definition same_doc_key (table : jsstr) (id : bytes) (ts : Z) (r : doc_row) : bool :=
  bool_decide (dr_table_id r = table) && bool_decide (dr_internal_id r = id) && (dr_ts r =? ts).

Definition same_index_key (ix : jsstr) (key : bytes) (ts : Z) (r : index_row) : bool :=
  bool_decide (ir_index_id r = ix) && bool_decide (ir_key r = key) && (ir_ts r =? ts).

(** [INSERT] on a taken primary key is a constraint error, [INSERT OR REPLACE]
    removes the old row first. *)
Definition insert_document (strategy : conflict_strategy) (r : doc_row) (rows : list doc_row)
  : res (list doc_row) :=
  let same := same_doc_key (dr_table_id r) (dr_internal_id r) (dr_ts r) in
  match strategy with
  | OnConflictOverwrite => Ok (base.filter (fun x => same x = false) rows ++ [r])
  | OnConflictError =>
      if existsb same rows then Throw (PlainError "UNIQUE constraint failed") else Ok (rows ++ [r])
  end.

Definition replace_index (r : index_row) (rows : list index_row) : list index_row :=
  base.filter (fun x => same_index_key (ir_index_id r) (ir_key r) (ir_ts r) x = false) rows ++ [r].

Definition document_row (shard : jsstr) (e : log_entry) : res doc_row :=
  cell ← match le_value e with
         | None => Ok None
         | Some r => j ← serializeValue (rd_value r); Ok (Some j)
         end;
  Ok (DocRow (encodeStorageTableId (tableNumber (le_id e))) (internalId (le_id e)) (le_ts e)
        (le_prev e) cell shard).

Definition index_row_of (shard : jsstr) (w : index_write) : index_row :=
  let u := iw_update w in
  match iu_value u with
  | IxNonClustered d =>
      IndexRow (iu_index u) (iu_key u) (iw_ts w) (Some (encodeStorageTableId (tableNumber d)))
        (Some (internalId d)) 0 shard
  | IxDeleted => IndexRow (iu_index u) (iu_key u) (iw_ts w) None None 1 shard
  end.

Fixpoint insert_documents (strategy : conflict_strategy) (shard : jsstr) (es : list log_entry)
    (rows : list doc_row) : res (list doc_row) :=
  match es with
  | [] => Ok rows
  | e :: es' =>
      r ← document_row shard e;
      rows' ← insert_document strategy r rows;
      insert_documents strategy shard es' rows'
  end.

Definition insertRows (documents : list log_entry) (indexUpdates : list index_write)
    (strategy : conflict_strategy) (shard : jsstr) (db : sqlite_db) : res sqlite_db :=
  docs ← insert_documents strategy shard documents (db_documents db);
  let ixs := fold_left (fun rows w => replace_index (index_row_of shard w) rows)
               indexUpdates (db_indexes db) in
  Ok (with_indexes (with_documents db docs) ixs).

(** [this.db.transaction(f)]: a throw leaves the database as it was. *)
Definition in_transaction {A} (s : sqlite_store) (f : sqlite_db -> res (A * sqlite_db))
  : res (A * sqlite_store) :=
  '(a, db) ← f (ss_db s); Ok (a, SqliteStore db (ss_guards s)).

Definition sq_write (documents : list log_entry) (indexUpdates : list index_write)
    (strategy : conflict_strategy) (shardId : option jsstr) (s : sqlite_store)
  : res (unit * sqlite_store) :=
  in_transaction s (fun db =>
    db' ← insertRows documents indexUpdates strategy (default DEFAULT_SHARD shardId) db; Ok (tt, db')).

(** [SELECT MAX(ts) FROM documents]. *)
Definition max_ts (rows : list doc_row) : option Z :=
  match rows with
  | [] => None
  | r :: rows' => Some (fold_left (fun m x => Z.max m (dr_ts x)) rows' (dr_ts r))
  end.

Definition stamp_doc (ts : Z) (e : log_entry) : log_entry :=
  LogEntry ts (le_id e) (le_value e) (le_prev e).
Definition stamp_index (ts : Z) (w : index_write) : index_write := IndexWrite ts (iw_update w).

Fixpoint commit_units (units : list commit_unit) (shard : jsstr) (db : sqlite_db)
  : res (list Z * list guard_unit * sqlite_db) :=
  match units with
  | [] => Ok ([], [], db)
  | u :: units' =>
      let commitTs := default 0 (max_ts (db_documents db)) + 1 in
      db1 ← insertRows (stamp_doc commitTs <$> cu_documents u)
              (stamp_index commitTs <$> cu_indexUpdates u) OnConflictError shard db;
      '(out, gus, db2) ← commit_units units' shard db1;
      Ok (commitTs :: out, GuardUnit commitTs (cu_meta u) :: gus, db2)
  end.

Fixpoint run_guards (guards : list commit_guard) (gus : list guard_unit) (shard : jsstr)
    (db : sqlite_db) : res sqlite_db :=
  match guards with
  | [] => Ok db
  | g :: guards' =>
      '(db', thenable) ← g db gus shard;
      if (thenable : bool) then Throw (PlainError "commit guard returned a Promise")
      else run_guards guards' gus shard db'
  end.

Definition sq_commitWriteBatch (s : sqlite_store) (units : list commit_unit) (shardId : option jsstr)
  : res (list Z * sqlite_store) :=
  in_transaction s (fun db =>
    let shard := default DEFAULT_SHARD shardId in
    '(out, gus, db1) ← commit_units units shard db;
    db2 ← match gus with [] => Ok db1 | _ => run_guards (ss_guards s) gus shard db1 end;
    Ok (out, db2)).

Definition sq_commitWrite (s : sqlite_store) (documents : list log_entry)
    (indexUpdates : list index_write) (shardId : option jsstr) (meta : option commit_meta)
  : res (Z * sqlite_store) :=
  '(tss, s') ← sq_commitWriteBatch s [CommitUnit documents indexUpdates meta] shardId;
  match tss with ts :: _ => Ok (ts, s') | [] => Throw TypeError end.

Definition addCommitGuard (g : commit_guard) (s : sqlite_store) : sqlite_store :=
  SqliteStore (ss_db s) (ss_guards s ++ [g]).

(** * Reading *)

Definition at_or_before (ts : Z) (readTimestamp : option Z) : bool :=
  match readTimestamp with None => true | Some t => ts <=? t end.

Definition of_document (table : jsstr) (id : bytes) (r : doc_row) : bool :=
  bool_decide (dr_table_id r = table) && bool_decide (dr_internal_id r = id).

(** [ORDER BY ts DESC LIMIT 1]. *)
Definition newest_revision (rows : list doc_row) (table : jsstr) (id : bytes) (readTimestamp : option Z)
  : option doc_row :=
  head (js_sort (fun a b => dr_ts b ?= dr_ts a)
          (base.filter (fun r => of_document table id r && at_or_before (dr_ts r) readTimestamp = true) rows)).

Definition latest_of_row (id : doc_id) (r : doc_row) (text : json) : res latest_document :=
  v ← parseValue text; Ok (LatestDocument (dr_ts r) (ResolvedDocument id v) (dr_prev_ts r)).

Definition sq_get (s : sqlite_store) (id : doc_id) (readTimestamp : option Z) : res (option latest_document) :=
  match newest_revision (db_documents (ss_db s)) (encodeStorageTableId (tableNumber id))
          (internalId id) readTimestamp with
  | None => Ok None
  | Some r => match dr_value r with
              | None => Ok None
              | Some text => d ← latest_of_row id r text; Ok (Some d)
              end
  end.

(** The newest entry of each key of an index at a timestamp, the rows with
    [i.ts = (SELECT MAX(i2.ts) ...)]. *)
Definition newest_entry (rows : list index_row) (t : Z) (r : index_row) : bool :=
  forallb (fun x =>
    negb (bool_decide (ir_index_id x = ir_index_id r) && bool_decide (ir_key x = ir_key r)
          && (ir_ts x <=? t)) || (ir_ts x <=? ir_ts r)) rows.

Definition index_rows_at (rows : list index_row) (ix : jsstr) (t : Z) (iv : interval) : list index_row :=
  base.filter (fun r => bool_decide (ir_index_id r = ix) && in_interval (ir_key r) iv
                        && (ir_ts r <=? t) && newest_entry rows t r = true) rows.

(** The loop of the generator: skips dead entries and stops at the limit,
    which is tested after a row is yielded. *)
Fixpoint yield_rows (s : sqlite_store) (t : Z) (rows : list index_row) (yielded : Z) (limit : option Z)
  : res (list (bytes * latest_document)) :=
  match rows with
  | [] => Ok []
  | r :: rows' =>
      match ir_internal_id r, ir_table_id r with
      | Some iid, Some tid =>
          if ir_deleted r =? 1 then yield_rows s t rows' yielded limit
          else
            tn ← decodeStorageTableId tid;
            doc ← sq_get s (DocId tn iid) (Some t);
            match doc with
            | None => yield_rows s t rows' yielded limit
            | Some d =>
                match limit with
                | None => rest ← yield_rows s t rows' yielded limit; Ok ((ir_key r, d) :: rest)
                | Some n =>
                    if n <=? yielded + 1 then Ok [(ir_key r, d)]
                    else rest ← yield_rows s t rows' (yielded + 1) limit; Ok ((ir_key r, d) :: rest)
                end
            end
      | _, _ => yield_rows s t rows' yielded limit
      end
  end.

Definition sq_index_scan (s : sqlite_store) (ix tableId : jsstr) (t : Z) (iv : interval) (o : order)
    (limit : option Z) : res (list (bytes * latest_document)) :=
  yield_rows s t
    (js_sort (directed o (fun a b => compareKeyBytes (ir_key a) (ir_key b)))
       (index_rows_at (db_indexes (ss_db s)) ix t iv)) 0 limit.

(** TEXT compares by its UTF-8 bytes, BLOB by its bytes. *)
Definition row_order (a b : doc_row) : comparison :=
  then_cmp (dr_ts a ?= dr_ts b)
    (then_cmp (compareKeysUtf8 (dr_table_id a) (dr_table_id b))
       (compareKeyBytes (dr_internal_id a) (dr_internal_id b))).

Definition entry_of_row (id : doc_id) (r : doc_row) : res log_entry :=
  v ← match dr_value r with
      | None => Ok None
      | Some text => v ← parseValue text; Ok (Some (ResolvedDocument id v))
      end;
  Ok (LogEntry (dr_ts r) id v (dr_prev_ts r)).

Definition row_doc_id (r : doc_row) : res doc_id :=
  tn ← decodeStorageTableId (dr_table_id r); Ok (DocId tn (dr_internal_id r)).

(** [LIMIT max(0, limit)]. *)
Definition sql_limit {A} (limit : option Z) (l : list A) : list A :=
  match limit with None => l | Some n => take (Z.to_nat n) l end.

Definition sq_load_documents (s : sqlite_store) (minInclusive maxExclusive : Z) (o : order)
    (limit : option Z) : res (list log_entry) :=
  traverse (fun r => id ← row_doc_id r; entry_of_row id r)
    (sql_limit limit (js_sort (directed o row_order)
       (base.filter (fun r => (minInclusive <=? dr_ts r) && (dr_ts r <? maxExclusive) = true)
          (db_documents (ss_db s))))).

Fixpoint sq_previous_revisions_loop (s : sqlite_store) (queries : list prev_rev_query)
    (out : list (jsstr * log_entry)) : res (list (jsstr * log_entry)) :=
  match queries with
  | [] => Ok out
  | q :: qs =>
      match newest_revision (db_documents (ss_db s)) (encodeStorageTableId (tableNumber (pq_id q)))
              (internalId (pq_id q)) (Some (pq_ts q)) with
      | None => sq_previous_revisions_loop s qs out
      | Some r =>
          e ← entry_of_row (pq_id q) r;
          sq_previous_revisions_loop s qs (jm_set out (getPrevRevQueryKey (pq_id q) (pq_ts q)) e)
      end
  end.
Definition sq_previous_revisions (s : sqlite_store) (queries : list prev_rev_query)
  : res (list (jsstr * log_entry)) := sq_previous_revisions_loop s queries [].

(** The correlated subquery [d.ts = (SELECT MAX(d2.ts) ...)]. *)
Definition is_latest (rows : list doc_row) (readTimestamp : option Z) (r : doc_row) : bool :=
  forallb (fun x =>
    negb (of_document (dr_table_id r) (dr_internal_id r) x && at_or_before (dr_ts x) readTimestamp)
    || (dr_ts x <=? dr_ts r)) rows.

Definition latest_rows (rows : list doc_row) (tableId : jsstr) (readTimestamp : option Z) : list doc_row :=
  base.filter (fun r => bool_decide (dr_table_id r = tableId) && at_or_before (dr_ts r) readTimestamp
                        && is_latest rows readTimestamp r = true) rows.

Fixpoint live_documents (tn : Z) (rows : list doc_row) : res (list latest_document) :=
  match rows with
  | [] => Ok []
  | r :: rows' =>
      match dr_value r with
      | None => live_documents tn rows'
      | Some text =>
          d ← latest_of_row (DocId tn (dr_internal_id r)) r text;
          rest ← live_documents tn rows'; Ok (d :: rest)
      end
  end.

Definition sq_scan (s : sqlite_store) (tableId : jsstr) (readTimestamp : option Z)
  : res (list latest_document) :=
  tn ← decodeStorageTableId tableId;
  live_documents tn
    (js_sort (fun a b => compareKeyBytes (dr_internal_id a) (dr_internal_id b))
       (latest_rows (db_documents (ss_db s)) tableId readTimestamp)).

Definition sq_count (s : sqlite_store) (tableId : jsstr) : nat :=
  length (base.filter (fun r => dr_value r <> None) (latest_rows (db_documents (ss_db s)) tableId None)).

Definition sq_maxTimestamp (s : sqlite_store) : Z := default 0 (max_ts (db_documents (ss_db s))).

Definition sq_getGlobal (s : sqlite_store) (key : jsstr) : option json :=
  reparse <$> jm_get (db_globals (ss_db s)) key.
Definition sq_writeGlobal (key : jsstr) (v : json) (s : sqlite_store) : sqlite_store :=
  SqliteStore (with_globals (ss_db s) (jm_set (db_globals (ss_db s)) key v)) (ss_guards s).
Definition sq_writeGlobalIfAbsent (key : jsstr) (v : json) (s : sqlite_store) : bool * sqlite_store :=
  match jm_get (db_globals (ss_db s)) key with
  | Some _ => (false, s)
  | None => (true, sq_writeGlobal key v s)
  end.

#[global] Instance sqlite_docstore : DocStore sqlite_store := {
  ds_get := sq_get;
  ds_index_scan := sq_index_scan;
  ds_commitWriteBatch := sq_commitWriteBatch;
  ds_maxTimestamp := sq_maxTimestamp
}.

(** * Client mutation receipts *)

Section receipts.
(** [Buffer.byteLength(JSON.stringify(value), "utf8")]. *)
Context (json_byte_length : json -> Z).

Definition CLIENT_VERDICT_VALUE_CAP_BYTES : Z := 64 * 1024.

Record verdict_record := VerdictRecord
  { vr_verdict : verdict; vr_commitTs : Z; vr_hasValue : bool; vr_value : option json;
    vr_errorCode : option jsstr; vr_createdAt : Z }.

(** [errorCode] is present for a failed verdict. *)
Record verdict_write := VerdictWrite
  { vw_verdict : verdict; vw_commitTs : Z; vw_errorCode : option jsstr; vw_value : option json }.

Definition cappedValueJson (v : option json) : option json :=
  match v with
  | None => None
  | Some j => if CLIENT_VERDICT_VALUE_CAP_BYTES <? json_byte_length j then None else Some j
  end.

Definition verdict_of_row (r : mutation_row) : verdict_record :=
  VerdictRecord (mr_verdict r) (mr_commit_ts r)
    (match mr_value_json r with Some _ => true | None => false end)
    (reparse <$> mr_value_json r) (mr_error_code r) (mr_created_at r).

Definition of_client (identity clientId : jsstr) (r : mutation_row) : bool :=
  bool_decide (mr_identity r = identity) && bool_decide (mr_client_id r = clientId).

Definition mutation_at (identity clientId : jsstr) (seq : Z) (r : mutation_row) : bool :=
  of_client identity clientId r && (mr_seq r =? seq).

Definition sq_getClientVerdict (db : sqlite_db) (identity clientId : jsstr) (seq : Z)
  : option verdict_record :=
  verdict_of_row <$> List.find (mutation_at identity clientId seq) (db_mutations db).

Definition floor_at (identity clientId : jsstr) (r : floor_row) : bool :=
  bool_decide (fr_identity r = identity) && bool_decide (fr_client_id r = clientId).

Definition sq_getClientFloor (db : sqlite_db) (identity clientId : jsstr) : option Z :=
  fr_pruned_through_seq <$> List.find (floor_at identity clientId) (db_floors db).

(** [INSERT OR IGNORE]; [now] is [Date.now()]. *)
Definition sq_recordClientVerdict (identity clientId : jsstr) (seq : Z) (w : verdict_write) (now : Z)
    (db : sqlite_db) : sqlite_db :=
  let row := MutationRow identity clientId seq (vw_verdict w) (vw_commitTs w)
               (cappedValueJson (vw_value w))
               (match vw_verdict w with Failed => vw_errorCode w | Applied => None end) now in
  if existsb (mutation_at identity clientId seq) (db_mutations db) then db
  else with_mutations db (db_mutations db ++ [row]).

Definition sq_updateClientVerdictValue (identity clientId : jsstr) (seq : Z) (v : json)
    (db : sqlite_db) : sqlite_db :=
  with_mutations db
    (List.map (fun r =>
       if mutation_at identity clientId seq r then
         MutationRow (mr_identity r) (mr_client_id r) (mr_seq r) (mr_verdict r) (mr_commit_ts r)
           (cappedValueJson (Some v)) (mr_error_code r) (mr_created_at r)
       else r) (db_mutations db)).

(** [seq <= ackedThrough OR created_at < ttlBeforeMs], over the bounds given;
    [None] when there is none. *)
Definition clientMutationsDeleteClause (ackedThrough ttlBeforeMs : option Z)
  : option (mutation_row -> bool) :=
  match ackedThrough, ttlBeforeMs with
  | None, None => None
  | _, _ => Some (fun r =>
      (match ackedThrough with Some a => mr_seq r <=? a | None => false end) ||
      (match ttlBeforeMs with Some t => mr_created_at r <? t | None => false end))
  end.

Definition maxCandidate (ackedThrough deletedMaxSeq : option Z) : option Z :=
  match ackedThrough, deletedMaxSeq with
  | None, d => d
  | a, None => a
  | Some a, Some d => Some (Z.max a d)
  end.

Definition max_seq (rows : list mutation_row) : option Z :=
  fold_left (fun m r => match m with
                        | None => Some (mr_seq r)
                        | Some x => if x <? mr_seq r then Some (mr_seq r) else Some x
                        end) rows None.

(** The upsert: insert, or keep the greater floor. *)
Fixpoint upsert_floor (identity clientId : jsstr) (seq now : Z) (rows : list floor_row)
  : list floor_row :=
  match rows with
  | [] => [FloorRow identity clientId seq now]
  | r :: rows' =>
      if floor_at identity clientId r then
        FloorRow identity clientId (Z.max (fr_pruned_through_seq r) seq) now :: rows'
      else r :: upsert_floor identity clientId seq now rows'
  end.

Definition prune_dooms (identity clientId : jsstr) (ackedThrough ttlBeforeMs : option Z) (r : mutation_row)
  : bool :=
  of_client identity clientId r &&
  match clientMutationsDeleteClause ackedThrough ttlBeforeMs with Some c => c r | None => false end.

Definition sq_pruneClientMutations (identity clientId : jsstr) (ackedThrough ttlBeforeMs : option Z)
    (now : Z) (db : sqlite_db) : Z * sqlite_db :=
  let currentFloor := sq_getClientFloor db identity clientId in
  let doomed := prune_dooms identity clientId ackedThrough ttlBeforeMs in
  let deleted := base.filter (fun r => doomed r = true) (db_mutations db) in
  let db1 := with_mutations db (base.filter (fun r => doomed r = false) (db_mutations db)) in
  match maxCandidate ackedThrough (max_seq deleted) with
  | None => (default 0 currentFloor, db1)
  | Some candidate =>
      if candidate <=? default (-1) currentFloor then (default 0 currentFloor, db1)
      else (candidate, with_floors db1 (upsert_floor identity clientId candidate now (db_floors db1)))
  end.

(** The batch key is the identity, a NUL and the client id. *)
Definition sweep_key (r : mutation_row) : jsstr := mr_identity r ++ [0] ++ mr_client_id r.

Definition sweep_group (m : list (jsstr * (jsstr * jsstr * Z))) (r : mutation_row)
  : list (jsstr * (jsstr * jsstr * Z)) :=
  match jm_get m (sweep_key r) with
  | None => jm_set m (sweep_key r) (mr_identity r, mr_client_id r, mr_seq r)
  | Some (_, _, maxSeq) =>
      if maxSeq <? mr_seq r then jm_set m (sweep_key r) (mr_identity r, mr_client_id r, mr_seq r)
      else m
  end.

Definition sq_sweepExpiredClientMutations (beforeMs now : Z) (db : sqlite_db) : nat * sqlite_db :=
  let swept := base.filter (fun r => mr_created_at r <? beforeMs = true) (db_mutations db) in
  let db1 := with_mutations db (base.filter (fun r => mr_created_at r <? beforeMs = false) (db_mutations db)) in
  match swept with
  | [] => (0%nat, db1)
  | _ =>
      let groups := jm_values (fold_left sweep_group swept []) in
      (length swept,
       with_floors db1
         (fold_left (fun rows (g : jsstr * jsstr * Z) => upsert_floor g.1.1 g.1.2 g.2 now rows)
            groups (db_floors db1)))
  end.
End receipts.

(** * Snapshot dump *)

Definition index_is_latest (rows : list index_row) (r : index_row) : bool :=
  forallb (fun x =>
    negb (bool_decide (ir_index_id x = ir_index_id r) && bool_decide (ir_key x = ir_key r))
    || (ir_ts x <=? ir_ts r)) rows.

Definition index_write_of_row (r : index_row) : res index_write :=
  v ← (if ir_deleted r =? 1 then Ok IxDeleted
       else match ir_table_id r with
            | None => Throw TypeError
            | Some t => tn ← decodeStorageTableId t;
                        Ok (IxNonClustered (DocId tn (default [] (ir_internal_id r))))
            end);
  Ok (IndexWrite (ir_ts r) (IndexUpdate (ir_index_id r) (ir_key r) v)).

Definition dump_order (a b : doc_row) : comparison :=
  then_cmp (compareKeysUtf8 (dr_table_id a) (dr_table_id b))
    (compareKeyBytes (dr_internal_id a) (dr_internal_id b)).

Definition dump_index_order (a b : index_row) : comparison :=
  then_cmp (compareKeysUtf8 (ir_index_id a) (ir_index_id b)) (compareKeyBytes (ir_key a) (ir_key b)).

Definition sq_dumpCurrentState (s : sqlite_store) : res (list log_entry * list index_write) :=
  let rows := db_documents (ss_db s) in
  documents ← traverse (fun r => id ← row_doc_id r; entry_of_row id r)
    (js_sort dump_order
       (base.filter (fun r => is_latest rows None r && negb (bool_decide (dr_value r = None)) = true) rows));
  indexUpdates ← traverse index_write_of_row
    (js_sort dump_index_order
       (base.filter (fun r => index_is_latest (db_indexes (ss_db s)) r = true) (db_indexes (ss_db s))));
  Ok (documents, indexUpdates).

(** * Stored values *)

(** What a stored value reads back as: [-0] has become [0]. *)
Fixpoint zero_norm (v : value) : value :=
  match v with
  | VNumber n => if num_is_neg_zero n then VNumber num_zero else v
  | VArray xs => VArray (List.map zero_norm xs)
  | VObject fs => VObject (List.map (fun kv => (kv.1, zero_norm kv.2)) fs)
  | _ => v
  end.

Lemma map_fst_snd {A B C} (f : B -> C) (l : list (A * B)) :
  (List.map (fun kv => (kv.1, f kv.2)) l).*1 = l.*1.
Proof. induction l as [|x l IH]; csimpl; [done|]. by rewrite IH. Qed.

Lemma zero_norm_wf v : wf_value v -> wf_value (zero_norm v).
Proof.
  induction v as [| | n | | | | xs IH | fs IH] using value_ind'; intros Hw; try done.
  - simpl. by destruct (num_is_neg_zero n).
  - apply wf_array in Hw. apply wf_array. apply Forall_map. rewrite Forall_forall in *. auto.
  - apply wf_object in Hw as (Hn & Ho & Hw). apply wf_object. rewrite map_fst_snd.
    split_and!; [done|done|]. apply Forall_map. rewrite Forall_forall in *. simpl.
    intros kv Hkv. split; [by apply Hw|]. apply IH; [done|by apply Hw].
Qed.

Lemma zero_norm_int64 v : int64_value v = true -> int64_value (zero_norm v) = true.
Proof.
  induction v as [| | n | | | | xs IH | fs IH] using value_ind'; intros Hi; try done.
  - simpl. by destruct (num_is_neg_zero n).
  - simpl in *. rewrite forallb_forall in *. rewrite Forall_forall in IH.
    intros y (x & <- & Hx)%in_map_iff. apply IH; [by apply list_elem_of_In|auto].
  - simpl in *. rewrite forallb_forall in *. rewrite Forall_forall in IH.
    intros y (x & <- & Hx)%in_map_iff. simpl. apply IH; [by apply list_elem_of_In|]. by apply Hi.
Qed.

Lemma zero_norm_idem v : zero_norm (zero_norm v) = zero_norm v.
Proof.
  induction v as [| | n | | | | xs IH | fs IH] using value_ind'; try done.
  - simpl. destruct (num_is_neg_zero n) eqn:E; simpl; [done|]. by rewrite E.
  - simpl. f_equal. rewrite map_map. apply map_ext_Forall. done.
  - simpl. f_equal. rewrite map_map. apply map_ext_Forall. eapply Forall_impl; [exact IH|].
    intros [k v] Hv. simpl in *. by rewrite Hv.
Qed.

(** Printing and reading the JSON of a value is the JSON of its normal form. *)
Definition reprints (v : value) : Prop :=
  forall j, convexToJson v = Ok j -> convexToJson (zero_norm v) = Ok (reparse j).

Lemma traverse_reprints xs ys :
  Forall reprints xs -> traverse convexToJson xs = Ok ys ->
  traverse convexToJson (List.map zero_norm xs) = Ok (List.map reparse ys).
Proof.
  intros H. rewrite !traverse_Forall2. revert ys. induction H as [|x xs Hx _ IH]; intros ys Hy.
  - apply Forall2_nil_inv_l in Hy as ->. constructor.
  - apply Forall2_cons_inv_l in Hy as (y & ys' & Hxy & Hy & ->). simpl. constructor; auto.
Qed.

Lemma set_entries_out {A B} (f : A -> res B) rename out fs :
  set_entries f rename out fs =
  (ws ← traverse (fun kv => w ← f kv.2; Ok (rename kv.1, w)) fs;
   Ok (fold_left (fun o w => obj_define o w.1 w.2) ws out)).
Proof.
  revert out. induction fs as [|[k v] fs IH]; intros out; [done|]. simpl.
  destruct (f v) as [w|]; simpl; [|done]. rewrite IH, setObjectKey_define.
  by destruct (traverse _ fs).
Qed.

Lemma define_map {A B} (g : A -> B) (o : list (jsstr * A)) k v :
  (fun kv => (kv.1, g kv.2)) <$> obj_define o k v = obj_define ((fun kv => (kv.1, g kv.2)) <$> o) k (g v).
Proof.
  unfold obj_define, jm_has.
  assert (Hg : forall k, jm_get ((fun kv => (kv.1, g kv.2)) <$> o) k = g <$> jm_get o k).
  { intros k'. induction o as [|[k0 v0] o IH]; csimpl; [done|]. by destruct (decide _). }
  rewrite Hg. destruct (jm_get o k); simpl.
  - clear Hg. induction o as [|[k0 v0] o IH]; csimpl; [done|].
    destruct (decide _); csimpl; [done|]. by rewrite IH.
  - destruct (array_index k) as [i|]; [|by rewrite fmap_app]. clear Hg.
    induction o as [|[k0 v0] o IH]; csimpl; [done|].
    destruct (array_index k0) as [j|]; [destruct (i <? j)|]; csimpl; try done. by rewrite IH.
Qed.

Lemma fold_define_map {A B} (g : A -> B) (ws out : list (jsstr * A)) :
  (fun kv => (kv.1, g kv.2)) <$> fold_left (fun o w => obj_define o w.1 w.2) ws out =
  fold_left (fun o w => obj_define o w.1 w.2) ((fun kv => (kv.1, g kv.2)) <$> ws)
    ((fun kv => (kv.1, g kv.2)) <$> out).
Proof.
  revert out. induction ws as [|w ws IH]; intros out; [done|]. csimpl. by rewrite IH, define_map.
Qed.

Lemma value_reprints v : reprints v.
Proof.
  induction v as [| | n | | | | xs IH | fs IH] using value_ind'; intros j Hj;
    try (injection Hj as <-; done).
  - cbn [convexToJson] in Hj. injection Hj as <-. simpl.
    destruct (f64_is_finite (num_f n)) eqn:Ef; simpl.
    + rewrite Ef. simpl. destruct (num_is_neg_zero n) eqn:En; simpl; [done|]. by rewrite Ef.
    + assert (En : num_is_neg_zero n = false)
        by (destruct (num_is_neg_zero n) eqn:En; [|done]; by apply num_neg_zero_spec in En as ->).
      rewrite En. simpl. by rewrite Ef.
  - cbn [convexToJson zero_norm] in *. destruct (traverse convexToJson xs) as [ys|] eqn:E; [|done].
    injection Hj as <-. by rewrite (traverse_reprints xs ys).
  - cbn [convexToJson zero_norm] in *. rewrite set_entries_out in *.
    destruct (traverse _ fs) as [ws|] eqn:E; [|done]. injection Hj as <-.
    assert (Ht : traverse (fun kv => w ← convexToJson kv.2; Ok (escape_key kv.1, w))
              (List.map (fun kv => (kv.1, zero_norm kv.2)) fs) =
              Ok ((fun kv => (kv.1, reparse kv.2)) <$> ws)).
    { rewrite traverse_Forall2 in *. clear -IH E.
      induction E as [|kv w fs ws Hk _ IHE]; [constructor|].
      apply Forall_cons in IH as [Hkv IH]. csimpl. constructor; [|auto]. simpl.
      destruct (convexToJson kv.2) as [j|] eqn:Ej; [|done]. injection Hk as <-. by rewrite (Hkv j). }
    rewrite Ht. cbn [mbind res_bind reparse]. f_equal. f_equal.
    symmetry. exact (fold_define_map reparse ws []).
Qed.

Lemma parse_serialize v j :
  wf_value v -> int64_value v = true -> serializeValue v = Ok j -> parseValue j = Ok (zero_norm v).
Proof.
  intros Hw Hi Hj. pose proof (value_reprints v j Hj) as Hr.
  destruct (value_roundtrips (zero_norm v)) as (j' & Hj' & Hb);
    [by apply zero_norm_wf|by apply zero_norm_int64|].
  unfold parseValue. rewrite Hr in Hj'. injection Hj' as <-. done.
Qed.

Lemma serialize_ok v : wf_value v -> int64_value v = true -> exists j, serializeValue v = Ok j.
Proof. intros Hw Hi. destruct (value_roundtrips v Hw Hi) as (j & Hj & _). by exists j. Qed.

(** * The valid stores *)

Definition doc_key (r : doc_row) : jsstr * bytes * Z := (dr_table_id r, dr_internal_id r, dr_ts r).
Definition index_key (r : index_row) : jsstr * bytes * Z := (ir_index_id r, ir_key r, ir_ts r).

(** A guard writes receipts: it does not touch documents nor indexes. *)
Definition guard_ok (g : commit_guard) : Prop :=
  forall db gus sh db' th, g db gus sh = Ok (db', th) ->
    db_documents db' = db_documents db /\ db_indexes db' = db_indexes db.

Record store_valid (s : sqlite_store) : Prop := {
  sv_docs : NoDup (doc_key <$> db_documents (ss_db s));
  sv_indexes : NoDup (index_key <$> db_indexes (ss_db s));
  sv_guards : Forall guard_ok (ss_guards s)
}.

Lemma same_doc_key_spec r x :
  same_doc_key (dr_table_id r) (dr_internal_id r) (dr_ts r) x = true <-> doc_key x = doc_key r.
Proof.
  unfold same_doc_key, doc_key. rewrite !andb_true_iff, !bool_decide_eq_true, Z.eqb_eq.
  split; [intros [[-> ->] ->]; done|intros [= -> -> ->]; done].
Qed.

Lemma insert_document_error r rows rows' :
  insert_document OnConflictError r rows = Ok rows' ->
  rows' = rows ++ [r] /\ (NoDup (doc_key <$> rows) -> NoDup (doc_key <$> rows')).
Proof.
  simpl. destruct (existsb _ rows) eqn:E; [done|]. intros [= <-]. split; [done|].
  intros Hn. rewrite fmap_app. apply NoDup_app. split_and!; [done| |apply NoDup_singleton].
  intros k Hk Hr%list_elem_of_singleton. subst k. apply list_elem_of_fmap in Hk as (x & Hx & Hin).
  assert (Ht : existsb (same_doc_key (dr_table_id r) (dr_internal_id r) (dr_ts r)) rows = true).
  { apply existsb_exists. exists x. split; [by apply list_elem_of_In|]. by apply same_doc_key_spec. }
  congruence.
Qed.

Lemma insert_documents_error shard es rows rows' :
  insert_documents OnConflictError shard es rows = Ok rows' ->
  exists new, rows' = rows ++ new /\ Forall2 (fun e r => document_row shard e = Ok r) es new /\
    (NoDup (doc_key <$> rows) -> NoDup (doc_key <$> rows')).
Proof.
  revert rows. induction es as [|e es IH]; intros rows; cbn [insert_documents].
  - intros [= <-]. exists []. rewrite app_nil_r. by split_and!.
  - destruct (document_row shard e) as [r|] eqn:Er; [|done]. rewrite bind_Ok.
    destruct (insert_document OnConflictError r rows) as [rows1|] eqn:Ei; [|done]. rewrite bind_Ok.
    apply insert_document_error in Ei as [-> Hn1]. intros (new & -> & Hf & Hn)%IH.
    exists (r :: new). rewrite <- app_assoc. split_and!; [done|by constructor|].
    intros H. rewrite <- app_assoc in Hn. auto.
Qed.

Lemma document_row_ts shard e r : document_row shard e = Ok r -> dr_ts r = le_ts e.
Proof.
  unfold document_row. destruct (le_value e) as [v|]; [destruct (serializeValue _); simpl; [|done]|];
    by intros [= <-].
Qed.

(** The index table after some replacements at one timestamp. *)
Lemma replace_index_nodup r rows :
  NoDup (index_key <$> rows) -> NoDup (index_key <$> replace_index r rows).
Proof.
  intros Hn. unfold replace_index. rewrite fmap_app. apply NoDup_app. split_and!.
  - induction rows as [|x rows IH]; [constructor|]. rewrite filter_cons.
    apply NoDup_cons in Hn as [Hx Hn]. destruct (decide _); csimpl; [|auto].
    constructor; [|auto]. intros (y & Hy & [_ Hin]%list_elem_of_filter)%list_elem_of_fmap.
    apply Hx, list_elem_of_fmap. eauto.
  - intros k (x & -> & [Hx _]%list_elem_of_filter)%list_elem_of_fmap Hr%list_elem_of_singleton.
    unfold same_index_key, index_key in *. injection Hr as H1 H2 H3.
    by rewrite H1, H2, H3, !bool_decide_true, Z.eqb_refl in Hx.
  - apply NoDup_singleton.
Qed.

(** Rows visible at [t]. *)
Definition old_docs (t : Z) (rows : list doc_row) : list doc_row :=
  base.filter (fun r => dr_ts r <=? t = true) rows.
Definition old_indexes (t : Z) (rows : list index_row) : list index_row :=
  base.filter (fun r => ir_ts r <=? t = true) rows.

Lemma old_replace t r rows : t < ir_ts r -> old_indexes t (replace_index r rows) = old_indexes t rows.
Proof.
  intros Ht. unfold old_indexes, replace_index. rewrite filter_app, filter_cons_False, app_nil_r.
  - induction rows as [|x rows IH]; [done|]. rewrite filter_cons.
    destruct (decide _) as [Hd|Hd]; rewrite !filter_cons, IH; [done|].
    rewrite decide_False; [done|]. intros Hx. zbool. apply Hd. unfold same_index_key.
    destruct (Z.eqb_spec (ir_ts x) (ir_ts r)); [lia|]. apply andb_false_r.
  - intros Hx. zbool. lia.
Qed.

Lemma stamped_indexes_spec t ts shard ws rows :
  t < ts ->
  let rows' := fold_left (fun rows w => replace_index (index_row_of shard w) rows)
                 (stamp_index ts <$> ws) rows in
  old_indexes t rows' = old_indexes t rows /\
  (NoDup (index_key <$> rows) -> NoDup (index_key <$> rows')).
Proof.
  intros Ht. revert rows. induction ws as [|w ws IH]; intros rows; [done|]. csimpl.
  destruct (IH (replace_index (index_row_of shard (stamp_index ts w)) rows)) as [H1 H2].
  cbv zeta in *. split.
  - rewrite H1. apply old_replace. unfold index_row_of. by destruct (iu_value _).
  - intros Hn. apply H2. by apply replace_index_nodup.
Qed.

(** * The effect of a batch *)

Lemma max_ts_fold rows m : m <= fold_left (fun m x => Z.max m (dr_ts x)) rows m.
Proof. revert m. induction rows as [|r rows IH]; intros m; simpl; [lia|]. specialize (IH (Z.max m (dr_ts r))). lia. Qed.

Lemma max_ts_fold_eq rows m :
  fold_left (fun m x => Z.max m (dr_ts x)) rows m = m \/
  exists r, r ∈ rows /\ fold_left (fun m x => Z.max m (dr_ts x)) rows m = dr_ts r.
Proof.
  revert m. induction rows as [|r rows IH]; intros m; simpl; [by left|].
  destruct (IH (Z.max m (dr_ts r))) as [->|(x & Hx & ->)].
  - destruct (Z.max_spec m (dr_ts r)) as [[_ ->]|[_ ->]]; [right|by left].
    exists r. split; [left|done].
  - right. exists x. split; [by right|done].
Qed.

Lemma max_ts_upper rows r : r ∈ rows -> dr_ts r <= default 0 (max_ts rows).
Proof.
  destruct rows as [|x rows]; [set_solver|]. simpl. intros [->|Hin]%elem_of_cons; [apply max_ts_fold|].
  clear -Hin. generalize (dr_ts x) as m. induction rows as [|y rows IH]; intros m; [set_solver|].
  simpl. apply elem_of_cons in Hin as [->|Hin]; [|by apply IH].
  pose proof (max_ts_fold rows (Z.max m (dr_ts y))). lia.
Qed.

Lemma max_ts_app rows new ts :
  new <> [] -> Forall (fun r => dr_ts r = ts) new -> default 0 (max_ts rows) < ts ->
  max_ts (rows ++ new) = Some ts.
Proof.
  intros Hne Hnew Hlt. destruct rows as [|x rows].
  - destruct Hnew as [|y new Hy Hnew]; [done|]. simpl. f_equal.
    destruct (max_ts_fold_eq new (dr_ts y)) as [->|(r & Hr & ->)]; [done|].
    rewrite Forall_forall in Hnew. by apply Hnew.
  - simpl in *. f_equal. rewrite fold_left_app. set (m := fold_left _ rows _) in *.
    destruct Hnew as [|y new Hy Hnew]; [done|]. simpl.
    destruct (max_ts_fold_eq new (Z.max m (dr_ts y))) as [->|(r & Hr & ->)]; [lia|].
    rewrite Forall_forall in Hnew. by apply Hnew.
Qed.

Lemma insertRows_stamped ts docs idx shard db db' t :
  t < ts ->
  insertRows (stamp_doc ts <$> docs) (stamp_index ts <$> idx) OnConflictError shard db = Ok db' ->
  exists new,
    db_documents db' = db_documents db ++ new /\
    Forall2 (fun e r => document_row shard (stamp_doc ts e) = Ok r) docs new /\
    Forall (fun r => dr_ts r = ts) new /\
    old_indexes t (db_indexes db') = old_indexes t (db_indexes db) /\
    (NoDup (doc_key <$> db_documents db) -> NoDup (doc_key <$> db_documents db')) /\
    (NoDup (index_key <$> db_indexes db) -> NoDup (index_key <$> db_indexes db')).
Proof.
  intros Ht. unfold insertRows.
  destruct (insert_documents _ _ _ _) as [rows|] eqn:E; [|done]. intros [= <-]. simpl.
  apply insert_documents_error in E as (new & -> & Hf & Hn). exists new.
  destruct (stamped_indexes_spec t ts shard idx (db_indexes db) Ht) as [H1 H2]. cbv zeta in *.
  split_and!; try done.
  - by apply Forall2_fmap_l in Hf.
  - clear -Hf. remember (stamp_doc ts <$> docs) as es eqn:He. revert docs He.
    induction Hf as [|e r es new Hr _ IH]; intros docs He; [constructor|].
    destruct docs as [|d docs]; [done|]. csimpl in He. injection He as -> ->.
    constructor; [by apply document_row_ts in Hr|by apply (IH docs)].
Qed.

(** What a batch leaves behind: the old rows, then one group of rows per unit
    at increasing timestamps. *)
Lemma commit_units_spec us shard db tss gus db' t :
  t <= default 0 (max_ts (db_documents db)) ->
  commit_units us shard db = Ok (tss, gus, db') ->
  length tss = length us /\ gu_ts <$> gus = tss /\
  (exists new, db_documents db' = db_documents db ++ new /\
     Forall (fun r => default 0 (max_ts (db_documents db)) < dr_ts r) new) /\
  old_indexes t (db_indexes db') = old_indexes t (db_indexes db) /\
  (NoDup (doc_key <$> db_documents db) -> NoDup (doc_key <$> db_documents db')) /\
  (NoDup (index_key <$> db_indexes db) -> NoDup (index_key <$> db_indexes db')) /\
  (Forall unit_writes us ->
     increasing_above (default 0 (max_ts (db_documents db))) tss /\
     default 0 (max_ts (db_documents db')) = default (default 0 (max_ts (db_documents db))) (last tss)).
Proof.
  revert db tss gus db'. induction us as [|u us IH]; intros db tss gus db' Ht; cbn [commit_units].
  - intros [= <- <- <-]. split_and!; try done. exists []. rewrite app_nil_r. by split.
  - set (m := default 0 (max_ts (db_documents db))) in *.
    destruct (insertRows _ _ _ _ db) as [db1|] eqn:E1; [|done]. rewrite bind_Ok.
    destruct (insertRows_stamped _ _ _ _ _ _ t (ltac:(lia) : t < m + 1) E1)
      as (new & Hd & Hf & Hts & Ho & Hn1 & Hn2).
    destruct (commit_units us shard db1) as [[[out gus1] db2]|] eqn:E2; [|done]. rewrite bind_Ok.
    intros [= <- <- <-].
    assert (Hm1 : m <= default 0 (max_ts (db_documents db1))).
    { rewrite Hd. destruct (max_ts (db_documents db)) eqn:Em; simpl in *.
      - destruct (db_documents db) as [|x rows]; [done|]. simpl in *. injection Em as <-.
        rewrite fold_left_app. apply max_ts_fold.
      - destruct (db_documents db) as [|x rows]; [|done]. simpl in *.
        destruct new as [|y new]; simpl; [lia|]. apply Forall_cons in Hts as [Hy _].
        pose proof (max_ts_fold new (dr_ts y)). lia. }
    assert (Ht1 : t <= default 0 (max_ts (db_documents db1))) by (fold m in Ht; lia).
    destruct (IH _ _ _ _ Ht1 E2) as (Hl & Hg & (new' & Hd' & Hlt) & Ho' & Hn1' & Hn2' & Hinc).
    split_and!.
    + simpl. by rewrite Hl.
    + csimpl. by rewrite Hg.
    + exists (new ++ new'). rewrite Hd', Hd, app_assoc. split; [done|]. apply Forall_app. split.
      * eapply Forall_impl; [exact Hts|]. intros r Hr. cbv beta in Hr. lia.
      * eapply Forall_impl; [exact Hlt|]. intros r Hr. cbv beta in Hr. lia.
    + by rewrite Ho', Ho.
    + auto.
    + auto.
    + intros [Hu Hus]%Forall_cons. specialize (Hinc Hus) as [Hi He].
      assert (Hne : new <> []).
      { intros ->. apply Forall2_nil_inv_r in Hf. by apply Hu. }
      assert (Hm2 : default 0 (max_ts (db_documents db1)) = m + 1).
      { rewrite Hd, (max_ts_app _ _ (m + 1)) by (done || (fold m; lia)). done. }
      rewrite Hm2 in *. split; [split; [lia|done]|]. rewrite He.
      destruct out as [|t' out]; [done|].
      change (last (m + 1 :: t' :: out)) with (last (t' :: out)).
      destruct (last (t' :: out)) eqn:El; [done|]. by apply last_None in El.
Qed.

Lemma run_guards_ok guards gus shard db db' :
  Forall guard_ok guards -> run_guards guards gus shard db = Ok db' ->
  db_documents db' = db_documents db /\ db_indexes db' = db_indexes db.
Proof.
  intros H. revert db. induction H as [|g guards Hg _ IH]; intros db; cbn [run_guards]; [by intros [= <-]|].
  destruct (g db gus shard) as [[db1 th]|] eqn:E; [|done]. rewrite bind_Ok.
  destruct th; [done|]. intros Hr. destruct (Hg _ _ _ _ _ E) as [<- <-]. by apply IH.
Qed.

(** A successful batch, without its guards. *)
Lemma commitWriteBatch_inv s us sh tss s' :
  store_valid s -> sq_commitWriteBatch s us sh = Ok (tss, s') ->
  exists gus db1,
    commit_units us (default DEFAULT_SHARD sh) (ss_db s) = Ok (tss, gus, db1) /\
    db_documents (ss_db s') = db_documents db1 /\ db_indexes (ss_db s') = db_indexes db1 /\
    ss_guards s' = ss_guards s.
Proof.
  intros [_ _ Hg]. unfold sq_commitWriteBatch, in_transaction.
  destruct (commit_units _ _ _) as [[[out gus] db1]|] eqn:E; [|done]. rewrite bind_Ok.
  destruct gus as [|gu gus].
  - rewrite !bind_Ok. intros [= <- <-]. exists [], db1. by split_and!.
  - destruct (run_guards _ _ _ _) as [db2|] eqn:Eg; [|done]. rewrite !bind_Ok. intros [= <- <-].
    apply run_guards_ok in Eg as [H1 H2]; [|done]. exists (gu :: gus), db1. by split_and!.
Qed.

Lemma old_docs_app t rows new :
  Forall (fun r => t < dr_ts r) new -> old_docs t (rows ++ new) = old_docs t rows.
Proof.
  intros H. unfold old_docs. rewrite filter_app, (filter_none _ new), app_nil_r; [done|].
  eapply Forall_impl; [exact H|]. intros r Hr Hc. cbv beta in *. zbool. lia.
Qed.

Lemma newest_revision_old rows table id t :
  newest_revision rows table id (Some t) = newest_revision (old_docs t rows) table id (Some t).
Proof.
  unfold newest_revision, old_docs. f_equal. f_equal. rewrite list_filter_filter.
  apply list_filter_iff. intros r. simpl. rewrite !andb_true_iff. tauto.
Qed.

Lemma newest_entry_old rows t r :
  newest_entry rows t r = newest_entry (old_indexes t rows) t r.
Proof.
  unfold newest_entry, old_indexes. apply eq_true_iff_eq. rewrite !forallb_forall. split.
  - intros H x Hx. apply list_elem_of_In, list_elem_of_filter in Hx as [_ Hx]. by apply H, list_elem_of_In.
  - intros H x Hx. apply list_elem_of_In in Hx. destruct (ir_ts x <=? t) eqn:E.
    + specialize (H x). rewrite E in H. apply H. apply list_elem_of_In, list_elem_of_filter. done.
    + by rewrite andb_false_r.
Qed.

Lemma index_rows_at_old rows ix t iv :
  index_rows_at rows ix t iv = index_rows_at (old_indexes t rows) ix t iv.
Proof.
  transitivity (base.filter (fun r => bool_decide (ir_index_id r = ix) && in_interval (ir_key r) iv
                        && (ir_ts r <=? t) && newest_entry rows t r = true) (old_indexes t rows)).
  - unfold index_rows_at, old_indexes. rewrite list_filter_filter. apply list_filter_iff.
    intros r. rewrite !andb_true_iff. tauto.
  - apply list_filter_iff. intros r. by rewrite (newest_entry_old rows t r).
Qed.

Lemma yield_rows_ext s s' t rows y lim :
  (forall id, sq_get s' id (Some t) = sq_get s id (Some t)) ->
  yield_rows s' t rows y lim = yield_rows s t rows y lim.
Proof.
  intros H. revert y. induction rows as [|r rows IH]; intros y; [done|]. cbn [yield_rows].
  destruct (ir_internal_id r), (ir_table_id r); try apply IH.
  destruct (ir_deleted r =? 1); [apply IH|]. destruct (decodeStorageTableId _); [|done]. rewrite !bind_Ok, H.
  destruct (sq_get s _ _) as [[d|]|]; [|apply IH|done]. rewrite !bind_Ok.
  destruct lim; [destruct (_ <=? _)|]; rewrite ?IH; done.
Qed.

(** What an unlimited scan yields, row by row. *)
Definition yields (s : sqlite_store) (t : Z) (r : index_row) (kd : bytes * latest_document) : Prop :=
  exists tid iid tn, ir_table_id r = Some tid /\ ir_internal_id r = Some iid /\ ir_deleted r <> 1 /\
    decodeStorageTableId tid = Ok tn /\ sq_get s (DocId tn iid) (Some t) = Ok (Some kd.2) /\
    kd.1 = ir_key r.

Lemma yield_rows_spec s t rows y out :
  yield_rows s t rows y None = Ok out ->
  (forall kd, kd ∈ out <-> exists r, r ∈ rows /\ yields s t r kd) /\
  out.*1 `sublist_of` (ir_key <$> rows).
Proof.
  revert out. induction rows as [|r rows IH]; intros out; cbn [yield_rows].
  - intros [= <-]. split; [set_solver|constructor].
  - assert (Hskip : (forall kd, ~ yields s t r kd) -> yield_rows s t rows y None = Ok out ->
              (forall kd, kd ∈ out <-> exists r', r' ∈ r :: rows /\ yields s t r' kd) /\
              out.*1 `sublist_of` (ir_key <$> (r :: rows))).
    { intros Hno H. destruct (IH out H) as [H1 H2]. split; [|csimpl; by constructor].
      intros kd. rewrite H1. split; [intros (r' & ? & ?); exists r'; split; [by right|done]|].
      intros (r' & [->|Hr]%elem_of_cons & Hy); [by destruct (Hno kd)|eauto]. }
    destruct (ir_internal_id r) as [iid|] eqn:Ei, (ir_table_id r) as [tid|] eqn:Et;
      try (apply Hskip; intros kd (? & ? & ? & ? & ? & _); congruence).
    destruct (Z.eqb_spec (ir_deleted r) 1) as [Ed|Ed];
      [apply Hskip; intros kd (? & ? & ? & _ & _ & ? & _); congruence|].
    destruct (decodeStorageTableId tid) as [tn|] eqn:En; [|done]. rewrite bind_Ok.
    destruct (sq_get s (DocId tn iid) (Some t)) as [[d|]|] eqn:Eg; [|rewrite bind_Ok|done].
    + rewrite bind_Ok. destruct (yield_rows s t rows y None) as [rest|] eqn:Er; [|done].
      intros [= <-]. destruct (IH rest eq_refl) as [H1 H2]. split; [|csimpl; by constructor].
      intros kd. rewrite elem_of_cons, H1. split.
      * intros [->|(r' & ? & ?)]; [|exists r'; split; [by right|done]].
        exists r. split; [left|]. exists tid, iid, tn. by split_and!.
      * intros (r' & [->|Hr]%elem_of_cons & Hy); [left|right; eauto].
        destruct Hy as (tid' & iid' & tn' & ? & ? & _ & ? & Hg & Hk). destruct kd as [k d']. simpl in *.
        assert (tn' = tn /\ iid' = iid) as [-> ->] by (split; congruence). congruence.
    + apply Hskip. intros kd (tid' & iid' & tn' & ? & ? & _ & ? & Hg & _).
      assert (tn' = tn /\ iid' = iid) as [-> ->] by (split; congruence). congruence.
Qed.

Lemma index_rows_at_spec rows ix t iv r :
  r ∈ index_rows_at rows ix t iv <->
  r ∈ rows /\ ir_index_id r = ix /\ in_interval (ir_key r) iv = true /\ ir_ts r <= t /\
  (forall x, x ∈ rows -> ir_index_id x = ix -> ir_key x = ir_key r -> ir_ts x <= t -> ir_ts x <= ir_ts r).
Proof.
  unfold index_rows_at. rewrite list_elem_of_filter, !andb_true_iff, bool_decide_eq_true, Z.leb_le.
  unfold newest_entry. rewrite forallb_forall. split.
  - intros ([[[H1 H2] H3] H4] & Hr). split_and!; try done. intros x Hx Hix Hk Ht.
    specialize (H4 x ltac:(by apply list_elem_of_In)).
    rewrite Hix, Hk, H1, !bool_decide_true, (proj2 (Z.leb_le (ir_ts x) t)) in H4 by done. by apply Z.leb_le in H4.
  - intros (Hr & H1 & H2 & H3 & H4). split_and!; try done. intros x Hx%list_elem_of_In.
    case_bool_decide as E1; [|done]. case_bool_decide as E2; [|done].
    destruct (Z.leb_spec (ir_ts x) t); [|done]. simpl. apply Z.leb_le, H4; congruence.
Qed.

(** One row per key: the newest entry is unique. *)
Lemma index_rows_at_keys rows ix t iv :
  NoDup (index_key <$> rows) -> NoDup (ir_key <$> index_rows_at rows ix t iv).
Proof.
  intros Hn. apply NoDup_fmap_2_strong.
  - intros x y Hx Hy Hk. apply index_rows_at_spec in Hx as (Hx & Hxi & _ & Hxt & Hxm).
    apply index_rows_at_spec in Hy as (Hy & Hyi & _ & Hyt & Hym).
    pose proof (Hxm y Hy Hyi (eq_sym Hk) Hyt). pose proof (Hym x Hx Hxi Hk Hxt).
    apply (NoDup_fmap_inj index_key rows); [done..|]. unfold index_key.
    rewrite Hxi, Hyi, Hk. f_equal. lia.
  - unfold index_rows_at. apply NoDup_filter. by apply NoDup_fmap_1 in Hn.
Qed.

Lemma sorted_keys_strict (c : bytes -> bytes -> comparison) (l : list index_row) :
  CmpExact c -> NoDup (ir_key <$> l) ->
  StronglySorted (fun a b => c a b = Lt) (ir_key <$> js_sort (fun a b => c (ir_key a) (ir_key b)) l).
Proof. intros Hc Hn. apply StronglySorted_fmap. by apply (js_sort_strict ir_key). Qed.

Lemma yield_rows_filter s t (f : bytes -> bool) rows y out :
  yield_rows s t rows y None = Ok out ->
  yield_rows s t (base.filter (fun r => f (ir_key r) = true) rows) y None =
    Ok (base.filter (fun kd => f kd.1 = true) out).
Proof.
  revert out. induction rows as [|r rows IH]; intros out; [by intros [= <-]|].
  rewrite filter_cons. cbn [yield_rows].
  destruct (ir_internal_id r) as [iid|] eqn:Ei, (ir_table_id r) as [tid|] eqn:Et;
    [|intros H; destruct (decide _); cbn [yield_rows]; rewrite ?Ei, ?Et; by apply IH..].
  destruct (ir_deleted r =? 1) eqn:Ed;
    [intros H; destruct (decide _); cbn [yield_rows]; rewrite ?Ei, ?Et, ?Ed; by apply IH|].
  destruct (decodeStorageTableId tid) as [tn|] eqn:En; [|done]. rewrite bind_Ok.
  destruct (sq_get s (DocId tn iid) (Some t)) as [[d|]|] eqn:Eg; [|rewrite bind_Ok|done].
  - rewrite bind_Ok. destruct (yield_rows s t rows y None) as [rest|] eqn:Er; [|done].
    intros [= <-]. rewrite filter_cons. cbn [fst].
    destruct (decide _); cbn [yield_rows]; rewrite ?Ei, ?Et, ?Ed, ?En, ?bind_Ok, ?Eg, ?bind_Ok, (IH rest eq_refl); done.
  - intros H. destruct (decide _); cbn [yield_rows]; rewrite ?Ei, ?Et, ?Ed, ?En, ?bind_Ok, ?Eg, ?bind_Ok; by apply IH.
Qed.

Lemma index_rows_at_restrict rows ix t iv iv' :
  (forall k, in_interval k iv' = true -> in_interval k iv = true) ->
  index_rows_at rows ix t iv' = base.filter (fun r => in_interval (ir_key r) iv' = true) (index_rows_at rows ix t iv).
Proof.
  intros H. unfold index_rows_at. rewrite list_filter_filter. apply list_filter_iff.
  intros r. rewrite !andb_true_iff. specialize (H (ir_key r)). tauto.
Qed.

(** Every new row comes from a document of a unit, at the unit's timestamp. *)
Lemma commit_units_new us shard db tss gus db' :
  commit_units us shard db = Ok (tss, gus, db') ->
  exists new, db_documents db' = db_documents db ++ new /\
    forall r, r ∈ new -> exists k u ts e, us !! k = Some u /\ tss !! k = Some ts /\ e ∈ cu_documents u /\
      dr_ts r = ts /\ (dr_table_id r, dr_internal_id r) = storage_key (le_id e).
Proof.
  revert db tss gus. induction us as [|u us IH]; intros db tss gus; cbn [commit_units].
  { intros [= <- <- <-]. exists []. rewrite app_nil_r. split; [done|set_solver]. }
  set (m := default 0 (max_ts (db_documents db))).
  destruct (insertRows _ _ _ _ db) as [db1|] eqn:E1; [|done]. rewrite bind_Ok.
  destruct (insertRows_stamped _ _ _ _ _ _ m (ltac:(lia) : m < m + 1) E1) as (new & Hd & Hf & _).
  destruct (commit_units us shard db1) as [[[out gus1] db2]|] eqn:E2; [|done]. rewrite bind_Ok.
  intros [= <- <- <-]. destruct (IH _ _ _ E2) as (new' & Hd' & Hr'). exists (new ++ new').
  split; [by rewrite Hd', Hd, app_assoc|]. intros r [Hr|Hr]%elem_of_app.
  - apply list_elem_of_lookup in Hr as [i Hi]. destruct (Forall2_lookup_r _ _ _ _ _ Hf Hi) as (e & He & Hrow).
    exists 0%nat, u, (m + 1), e. split_and!; [done|done|by eapply list_elem_of_lookup_2|..].
    + by apply document_row_ts in Hrow.
    + unfold document_row in Hrow. destruct (le_value (stamp_doc (m + 1) e)) as [d|].
      * destruct (serializeValue (rd_value d)); [|done]. cbn in Hrow. by injection Hrow as <-.
      * cbn in Hrow. by injection Hrow as <-.
  - destruct (Hr' r Hr) as (k & u' & ts & e & Hu & Ht & He & H1 & H2). exists (S k), u', ts, e. by split_and!.
Qed.

#[global] Instance sqlite_laws : DocStoreLaws sqlite_store store_valid.
Proof.
  assert (Hget : forall s us sh tss s' id t, store_valid s ->
            sq_commitWriteBatch s us sh = Ok (tss, s') -> t <= sq_maxTimestamp s ->
            sq_get s' id (Some t) = sq_get s id (Some t)).
  { intros s us sh tss s' id t Hv Hc Ht.
    destruct (commitWriteBatch_inv _ _ _ _ _ Hv Hc) as (gus & db1 & Hu & Hd & _ & _).
    destruct (commit_units_spec _ _ _ _ _ _ t Ht Hu) as (_ & _ & (new & Hn & Hlt) & _).
    unfold sq_get. rewrite (newest_revision_old (db_documents (ss_db s'))), Hd, Hn.
    rewrite old_docs_app, <- newest_revision_old; [done|].
    eapply Forall_impl; [exact Hlt|]. intros r Hr. cbv beta in Hr. unfold sq_maxTimestamp in Ht. lia. }
  split.
  - intros s us sh tss s' Hv Hc. pose proof Hv as [H1 H2 H3].
    destruct (commitWriteBatch_inv _ _ _ _ _ Hv Hc) as (gus & db1 & Hu & Hd & Hi & Hg).
    destruct (commit_units_spec _ _ _ _ _ _ _ (Z.le_refl _) Hu) as (_ & _ & _ & _ & Hn1 & Hn2 & _).
    split; [rewrite Hd; auto|rewrite Hi; auto|by rewrite Hg].
  - intros s us sh tss s' Hv Hw Hc.
    destruct (commitWriteBatch_inv _ _ _ _ _ Hv Hc) as (gus & db1 & Hu & Hd & _ & _).
    destruct (commit_units_spec _ _ _ _ _ _ _ (Z.le_refl _) Hu) as (Hl & _ & _ & _ & _ & _ & Hinc).
    destruct (Hinc Hw) as [H1 H2]. simpl. unfold sq_maxTimestamp. rewrite Hd. by split_and!.
  - exact Hget.
  - intros s us sh tss s' ix tbl t iv o lim Hv Hc Ht. simpl in *.
    destruct (commitWriteBatch_inv _ _ _ _ _ Hv Hc) as (gus & db1 & Hu & Hd & Hi & _).
    destruct (commit_units_spec _ _ _ _ _ _ t Ht Hu) as (_ & _ & _ & Ho & _).
    unfold sq_index_scan. rewrite (yield_rows_ext s) by (intros id; by apply (Hget s us sh tss)).
    rewrite (index_rows_at_old (db_indexes (ss_db s'))), Hi, Ho, <- index_rows_at_old. done.
  - intros s us sh tss s' id t Hv Hc Ht Hu. simpl in *.
    destruct (commitWriteBatch_inv _ _ _ _ _ Hv Hc) as (gus & db1 & Hcu & Hd & _ & _).
    destruct (commit_units_new _ _ _ _ _ _ Hcu) as (new & Hn & Hr). unfold sq_get, newest_revision.
    rewrite Hd, Hn, filter_app, (filter_none _ new), app_nil_r.
    + pose proof (max_ts_upper (db_documents (ss_db s))) as Hm. fold (sq_maxTimestamp s) in Hm.
      rewrite (list_filter_iff_strong _ (fun r => of_document (encodeStorageTableId (tableNumber id)) (internalId id) r
                               && at_or_before (dr_ts r) None = true)); [done|].
      intros r Hin. unfold at_or_before. rewrite (proj2 (Z.leb_le (dr_ts r) t)); [done|]. specialize (Hm r Hin). lia.
    + apply Forall_forall. intros r Hin [Hof Hle]%andb_true_iff. destruct (Hr r Hin) as (k & u & ts & e & Hk & Htk & He & Hts & Hkey).
      simpl in Hle. zbool. apply (Hu k u ts Hk Htk); [lia|]. exists e. split; [done|].
      unfold of_document in Hof. apply andb_true_iff in Hof as [H1%bool_decide_eq_true H2%bool_decide_eq_true].
      rewrite <- Hkey. unfold storage_key. by rewrite H1, H2.
  - intros s ix tbl t iv o rows [_ Hn _] H. simpl in H. unfold sq_index_scan in H.
    apply yield_rows_spec in H as [_ Hs]. split.
    + eapply sublist_sorted; [exact Hs|]. rewrite (directed_on o compareKeyBytes ir_key).
      apply sorted_keys_strict; [apply _|]. by apply index_rows_at_keys.
    + apply Forall_forall. intros k Hk. apply (elem_of_sublist _ _ _ Hk) in Hs as Hin.
      rewrite js_sort_perm in Hin. apply list_elem_of_fmap in Hin as (r & -> & Hr).
      by apply index_rows_at_spec in Hr as (_ & _ & ? & _).
  - intros s ix tbl t iv iv' o rows _ Hiv H. simpl in *. unfold sq_index_scan in *.
    rewrite (index_rows_at_restrict _ _ _ iv iv') by done. rewrite js_sort_filter.
    + by apply (yield_rows_filter s t (fun k => in_interval k iv')).
    + rewrite (directed_on o compareKeyBytes ir_key). apply (cmp_on_laws ir_key (directed o compareKeyBytes)), _.
  - intros s id _. simpl. unfold sq_get, newest_revision.
    assert (Hf : base.filter (fun r => of_document (encodeStorageTableId (tableNumber id)) (internalId id) r
                               && at_or_before (dr_ts r) None = true) (db_documents (ss_db s)) =
                 base.filter (fun r => of_document (encodeStorageTableId (tableNumber id)) (internalId id) r
                               && at_or_before (dr_ts r) (Some (sq_maxTimestamp s)) = true)
                   (db_documents (ss_db s))); [|by rewrite Hf].
    pose proof (max_ts_upper (db_documents (ss_db s))) as Hm.
    fold (sq_maxTimestamp s) in Hm. revert Hm. generalize (sq_maxTimestamp s) as m.
    induction (db_documents (ss_db s)) as [|r rows IH]; intros m Hm; [done|].
    rewrite !filter_cons, (IH m) by (intros x Hx; apply Hm; by right).
    unfold at_or_before. by rewrite (proj2 (Z.leb_le (dr_ts r) m)) by (apply Hm; left).
Qed.

(** * Reading one document *)

Lemma sorted_head {A} (c : A -> A -> comparison) (l : list A) x :
  CmpLaws c -> x ∈ l -> (forall y, y ∈ l -> c x y <> Gt) -> (forall y, y ∈ l -> c y x <> Gt -> y = x) ->
  head (js_sort c l) = Some x.
Proof.
  intros Hc Hx Hmin Huniq. pose proof (js_sort_sorted c l Hc) as Hs.
  pose proof (js_sort_perm c l) as Hp. destruct (js_sort c l) as [|y ys] eqn:E.
  - apply Permutation_nil_l in Hp. rewrite <- Hp in Hx || subst. by apply not_elem_of_nil in Hx.
  - simpl. f_equal. assert (Hy : y ∈ l) by (rewrite <- Hp; left).
    apply Huniq; [done|]. apply StronglySorted_inv in Hs as [_ Hys].
    assert (Hx' : x ∈ y :: ys) by by rewrite Hp.
    apply elem_of_cons in Hx' as [->|Hin]; [by rewrite cmp_refl|].
    rewrite Forall_forall in Hys. by apply Hys.
Qed.

Lemma desc_ts_laws : CmpLaws (fun a b : doc_row => dr_ts b ?= dr_ts a).
Proof. apply (cmp_flip_laws (fun a b : doc_row => dr_ts a ?= dr_ts b)). apply (cmp_on_laws dr_ts Z.compare), _. Qed.

Lemma of_document_spec table id r :
  of_document table id r = true <-> dr_table_id r = table /\ dr_internal_id r = id.
Proof. unfold of_document. by rewrite andb_true_iff, !bool_decide_eq_true. Qed.

(** The newest visible revision, characterised. *)
Lemma newest_revision_intro rows table id rt r :
  NoDup (doc_key <$> rows) -> r ∈ rows -> of_document table id r = true ->
  at_or_before (dr_ts r) rt = true ->
  (forall x, x ∈ rows -> of_document table id x = true -> at_or_before (dr_ts x) rt = true ->
     dr_ts x <= dr_ts r) ->
  newest_revision rows table id rt = Some r.
Proof.
  intros Hn Hr Hd Hb Hmax. unfold newest_revision. apply sorted_head.
  - apply desc_ts_laws.
  - apply list_elem_of_filter. by rewrite Hd, Hb.
  - intros y [[Hy1 Hy2]%andb_true_iff Hy]%list_elem_of_filter. specialize (Hmax y Hy Hy1 Hy2).
    intros Hc. zbool. lia.
  - intros y [[Hy1 Hy2]%andb_true_iff Hy]%list_elem_of_filter Hc. specialize (Hmax y Hy Hy1 Hy2).
    assert (dr_ts y = dr_ts r) by (rewrite Z.compare_le_iff in Hc || idtac; destruct (Z.compare_spec (dr_ts r) (dr_ts y)); try lia; done).
    apply (NoDup_fmap_inj doc_key rows); [done..|].
    apply of_document_spec in Hd as [<- <-], Hy1 as [H1 H2]. unfold doc_key. by rewrite H1, H2, H.
Qed.

Lemma newest_revision_Some rows table id rt r :
  newest_revision rows table id rt = Some r ->
  r ∈ rows /\ of_document table id r = true /\ at_or_before (dr_ts r) rt = true /\
  (forall x, x ∈ rows -> of_document table id x = true -> at_or_before (dr_ts x) rt = true ->
     dr_ts x <= dr_ts r).
Proof.
  unfold newest_revision. set (l := base.filter _ rows).
  pose proof (js_sort_sorted _ l desc_ts_laws) as Hs. pose proof (js_sort_perm (fun a b => dr_ts b ?= dr_ts a) l) as Hp.
  destruct (js_sort _ l) as [|y ys]; [done|]. intros [= ->].
  assert (Hr : r ∈ l) by (rewrite <- Hp; left).
  apply list_elem_of_filter in Hr as [[H1 H2]%andb_true_iff H3]. split_and!; try done.
  intros x Hx Hx1 Hx2. assert (Hxl : x ∈ l) by (apply list_elem_of_filter; by rewrite Hx1, Hx2).
  rewrite <- Hp in Hxl. apply elem_of_cons in Hxl as [->|Hin]; [lia|].
  apply StronglySorted_inv in Hs as [_ Hys]. rewrite Forall_forall in Hys. specialize (Hys x Hin).
  cbv beta in Hys. destruct (Z.compare_spec (dr_ts x) (dr_ts r)); try lia; done.
Qed.

Lemma newest_revision_None rows table id rt :
  newest_revision rows table id rt = None <->
  forall x, x ∈ rows -> of_document table id x = true -> at_or_before (dr_ts x) rt = false.
Proof.
  unfold newest_revision. set (l := base.filter _ rows).
  pose proof (js_sort_perm (fun a b => dr_ts b ?= dr_ts a) l) as Hp.
  assert (Hl : l = [] <-> forall x, x ∈ rows -> of_document table id x = true -> at_or_before (dr_ts x) rt = false).
  { split.
    - intros He x Hx Hd. apply not_true_is_false. intros Hb.
      assert (x ∈ l) by (apply list_elem_of_filter; by rewrite Hd, Hb). rewrite He in *. set_solver.
    - intros H. apply filter_none, Forall_forall. intros x Hx [Hd Hb]%andb_true_iff.
      by rewrite (H x Hx Hd) in Hb. }
  rewrite <- Hl. destruct (js_sort _ l) as [|y ys] eqn:E; simpl.
  - apply Permutation_nil_l in Hp. done.
  - split; [done|]. intros He. rewrite He in Hp. by apply Permutation_nil_r in Hp.
Qed.

Lemma commit_units_rows us shard db tss gus db' k u ts e :
  commit_units us shard db = Ok (tss, gus, db') ->
  us !! k = Some u -> tss !! k = Some ts -> e ∈ cu_documents u ->
  exists r, document_row shard (stamp_doc ts e) = Ok r /\ r ∈ db_documents db'.
Proof.
  revert db tss gus k. induction us as [|u0 us IH]; intros db tss gus k; [done|]. cbn [commit_units].
  set (m := default 0 (max_ts (db_documents db))).
  destruct (insertRows _ _ _ _ db) as [db1|] eqn:E1; [|done]. rewrite bind_Ok.
  destruct (insertRows_stamped _ _ _ _ _ _ m (ltac:(lia) : m < m + 1) E1) as (new & Hd & Hf & _).
  destruct (commit_units us shard db1) as [[[out gus1] db2]|] eqn:E2; [|done]. rewrite bind_Ok.
  intros [= <- <- <-]. destruct k as [|k]; simpl.
  - intros [= ->] [= <-] He. apply list_elem_of_lookup in He as [i Hi].
    destruct (Forall2_lookup_l _ _ _ _ _ Hf Hi) as (r & Hr & Hrow). exists r. split; [done|].
    destruct (commit_units_spec _ _ _ _ _ _ _ (Z.le_refl _) E2) as (_ & _ & (new' & -> & _) & _).
    apply elem_of_app. left. rewrite Hd. apply elem_of_app. right. by eapply list_elem_of_lookup_2.
  - intros Hu Ht He. by apply (IH db1 out gus1 k).
Qed.

(** * Properties of the store *)

(** C12: a batch in which every unit writes a document commits at strictly
    increasing timestamps above everything in the log, one per unit, and what
    any earlier snapshot reads, by document or by index, is unchanged; the store
    stays valid.  (A unit without documents would leave the maximum where it is,
    and the next unit would reuse its timestamp.) *)
Theorem sqlite_commit_snapshot s us sh tss s' t :
  store_valid s -> Forall unit_writes us -> sq_commitWriteBatch s us sh = Ok (tss, s') ->
  t <= sq_maxTimestamp s ->
  store_valid s' /\ length tss = length us /\ increasing_above (sq_maxTimestamp s) tss /\
  (forall id, sq_get s' id (Some t) = sq_get s id (Some t)) /\
  (forall ix tbl iv o lim, sq_index_scan s' ix tbl t iv o lim = sq_index_scan s ix tbl t iv o lim).
Proof.
  intros Hv Hw Hc Ht.
  destruct (@commit_increasing sqlite_store sqlite_docstore store_valid sqlite_laws s us sh tss s' Hv Hw Hc) as (H1 & H2 & _).
  split_and!; [by eapply (@commit_valid sqlite_store sqlite_docstore store_valid sqlite_laws)|done|done| |].
  - intros id. by eapply (@commit_snapshot_get sqlite_store sqlite_docstore store_valid sqlite_laws).
  - intros. by eapply (@commit_snapshot_scan sqlite_store sqlite_docstore store_valid sqlite_laws).
Qed.

Definition empty_store : sqlite_store := SqliteStore (SqliteDb [] [] [] [] []) [].

Lemma empty_store_valid : store_valid empty_store.
Proof. split; constructor. Qed.

Lemma sqlite_commit_snapshot_witness :
  let e := LogEntry 0 (DocId 10001 [1]) (Some (ResolvedDocument (DocId 10001 [1]) VNull)) None in
  exists s', sq_commitWriteBatch empty_store [CommitUnit [e] [] None] None = Ok ([1], s') /\
    increasing_above 0 [1].
Proof.
  intros e. eexists. split; [reflexivity|].
  exact (proj1 (proj2 (proj2 (sqlite_commit_snapshot empty_store [CommitUnit [e] [] None] None [1] _ 0
    empty_store_valid ltac:(repeat constructor; discriminate) eq_refl (Z.le_refl 0))))).
Defined.

(** Right after a batch every document of a unit reads back at that unit's
    timestamp: its value (with [-0] printed as [0]) and previous revision, or
    nothing when the unit deleted it. *)
Theorem sqlite_read_committed s us sh tss s' k u ts e :
  store_valid s -> sq_commitWriteBatch s us sh = Ok (tss, s') ->
  us !! k = Some u -> tss !! k = Some ts -> e ∈ cu_documents u ->
  (forall r, le_value e = Some r -> wf_value (rd_value r) /\ int64_value (rd_value r) = true) ->
  sq_get s' (le_id e) (Some ts) =
    Ok (match le_value e with
        | None => None
        | Some r => Some (LatestDocument ts (ResolvedDocument (le_id e) (zero_norm (rd_value r))) (le_prev e))
        end).
Proof.
  intros Hv Hc Hu Ht He Hval.
  destruct (commitWriteBatch_inv _ _ _ _ _ Hv Hc) as (gus & db1 & Hcu & Hd & _ & _).
  destruct (commit_units_rows _ _ _ _ _ _ _ _ _ _ Hcu Hu Ht He) as (r & Hr & Hin).
  pose proof (@commit_valid sqlite_store sqlite_docstore store_valid sqlite_laws _ _ _ _ _ Hv Hc) as Hv'.
  assert (Hrow : dr_table_id r = encodeStorageTableId (tableNumber (le_id e)) /\
                 dr_internal_id r = internalId (le_id e) /\ dr_ts r = ts /\ dr_prev_ts r = le_prev e).
  { unfold document_row in Hr. simpl in Hr.
    destruct (le_value e) as [v|]; [destruct (serializeValue _); simpl in Hr; [|done]|]; by injection Hr as <-. }
  destruct Hrow as (R1 & R2 & R3 & R4).
  unfold sq_get. rewrite (newest_revision_intro _ _ _ _ r).
  - unfold document_row in Hr. simpl in Hr. destruct (le_value e) as [v|].
    + destruct (Hval v eq_refl) as [Hw Hi]. destruct (serializeValue (rd_value v)) as [j|] eqn:Ej; [|done].
      simpl in Hr. injection Hr as <-. simpl. unfold latest_of_row.
      by rewrite (parse_serialize _ _ Hw Hi Ej).
    + by injection Hr as <-.
  - apply Hv'.
  - by rewrite Hd.
  - by apply of_document_spec.
  - simpl. apply Z.leb_le. lia.
  - intros x _ _ Hx. simpl in Hx. zbool. lia.
Qed.

Lemma sqlite_read_committed_witness :
  let id := DocId 10001 [1] in
  let v := VObject [([97], VNumber num_neg_zero)] in
  let e := LogEntry 0 id (Some (ResolvedDocument id v)) (Some 0) in
  exists s', sq_commitWriteBatch empty_store [CommitUnit [e] [] None] None = Ok ([1], s') /\
    sq_get s' id (Some 1) = Ok (Some (LatestDocument 1 (ResolvedDocument id (zero_norm v)) (Some 0))).
Proof.
  intros id v e. eexists. split; [reflexivity|].
  apply (sqlite_read_committed empty_store [CommitUnit [e] [] None] None [1] _ 0 (CommitUnit [e] [] None) 1 e
    empty_store_valid eq_refl eq_refl eq_refl ltac:(left)).
  intros r [= <-]. split; [|reflexivity]. apply wf_object.
  split; [|split]; [apply (bool_decide_unpack _); by vm_compute|done|].
  repeat constructor; cbv; intuition discriminate.
Defined.

(** The log tail over adjacent timestamp ranges is the tail over their
    union: a reader that resumes where it stopped misses and repeats nothing. *)
Theorem sqlite_log_tail_resumes s a b c :
  a <= b <= c ->
  sq_load_documents s a c Asc None =
    (es1 ← sq_load_documents s a b Asc None; es2 ← sq_load_documents s b c Asc None; Ok (es1 ++ es2)).
Proof.
  intros Habc. unfold sq_load_documents. simpl sql_limit. rewrite <- traverse_app. f_equal.
  rewrite (js_sort_split _ (fun r => dr_ts r <? b)).
  - f_equal; f_equal; rewrite list_filter_filter; apply list_filter_iff; intros r;
      rewrite !andb_true_iff; split; intros; zbool; destruct_and?; zbool;
      repeat split; try apply Z.leb_le; try apply Z.ltb_lt; try apply Z.ltb_ge; lia.
  - intros x y Hx Hy. zbool. unfold directed, row_order.
    rewrite (proj2 (Z.compare_lt_iff _ _)), (proj2 (Z.compare_gt_iff _ _)) by lia. done.
Qed.

Lemma sqlite_log_tail_resumes_witness :
  sq_load_documents empty_store 0 9 Asc None =
    (es1 ← sq_load_documents empty_store 0 4 Asc None;
     es2 ← sq_load_documents empty_store 4 9 Asc None; Ok (es1 ++ es2)).
Proof. apply (sqlite_log_tail_resumes empty_store 0 4 9). lia. Defined.

(** * Index scans *)

(** The loop with a limit is the first rows of the loop without. *)
Lemma yield_rows_limit s t rows y n full :
  y < n -> yield_rows s t rows y None = Ok full ->
  yield_rows s t rows y (Some n) = Ok (take (Z.to_nat (n - y)) full).
Proof.
  assert (Hirr : forall rows y y', yield_rows s t rows y None = yield_rows s t rows y' None).
  { clear. intros rows. induction rows as [|r rows' IH]; intros y1 y2; [done|]. cbn [yield_rows].
    destruct (ir_internal_id r), (ir_table_id r); auto.
    destruct (ir_deleted r =? 1); [auto|]. destruct (decodeStorageTableId _); [|done]. rewrite !bind_Ok.
    destruct (sq_get s _ _) as [[d|]|]; [|rewrite !bind_Ok; auto|done]. rewrite !bind_Ok. by rewrite (IH y1 y2). }
  revert y full. induction rows as [|r rows IH]; intros y full Hy; cbn [yield_rows].
  - intros [= <-]. by rewrite take_nil.
  - destruct (ir_internal_id r), (ir_table_id r); try (by apply IH).
    destruct (ir_deleted r =? 1); [by apply IH|]. destruct (decodeStorageTableId _); [|done].
    rewrite !bind_Ok. destruct (sq_get s _ _) as [[d|]|]; [|by rewrite !bind_Ok; apply IH|done].
    rewrite !bind_Ok. rewrite (Hirr rows y (y + 1)).
    destruct (yield_rows s t rows (y + 1) None) as [rest|] eqn:E; [|done]. intros [= <-].
    destruct (n <=? y + 1) eqn:En; zbool.
    + by replace (Z.to_nat (n - y)) with 1%nat by lia.
    + rewrite (IH (y + 1) rest) by (done || lia). rewrite bind_Ok.
      by replace (Z.to_nat (n - y)) with (S (Z.to_nat (n - (y + 1)))) by lia.
Qed.

(** An unlimited index scan at a snapshot yields, in strictly increasing
    key order, exactly the keys of the interval whose newest entry is live and
    points to a document that exists at that snapshot, each with that
    document. *)
Theorem sqlite_index_scan_spec s ix tbl t iv out :
  store_valid s -> sq_index_scan s ix tbl t iv Asc None = Ok out ->
  StronglySorted (fun a b => compareKeyBytes a b = Lt) out.*1 /\
  forall kd, kd ∈ out <->
    exists r, r ∈ db_indexes (ss_db s) /\ ir_index_id r = ix /\ in_interval (ir_key r) iv = true /\
      ir_ts r <= t /\
      (forall x, x ∈ db_indexes (ss_db s) -> ir_index_id x = ix -> ir_key x = ir_key r ->
         ir_ts x <= t -> ir_ts x <= ir_ts r) /\
      yields s t r kd.
Proof.
  intros [_ Hn _] H. unfold sq_index_scan in H. simpl directed in H.
  apply yield_rows_spec in H as [H1 H2]. split.
  - eapply sublist_sorted; [exact H2|]. apply sorted_keys_strict; [apply _|]. by apply index_rows_at_keys.
  - intros kd. rewrite H1. setoid_rewrite js_sort_perm. setoid_rewrite index_rows_at_spec. naive_solver.
Qed.

Lemma sqlite_index_scan_spec_witness :
  StronglySorted (fun a b => compareKeyBytes a b = Lt) (@nil (bytes * latest_document)).*1.
Proof.
  exact (proj1 (sqlite_index_scan_spec empty_store [97] [97] 5 (Interval [] None) [] empty_store_valid eq_refl)).
Defined.

(** A limited scan is the corresponding prefix of the unlimited one, dead
    entries not counted; a limit of zero (or less) still yields one row. *)
Theorem sqlite_index_scan_limit s ix tbl t iv o n full :
  sq_index_scan s ix tbl t iv o None = Ok full ->
  (0 < n -> sq_index_scan s ix tbl t iv o (Some n) = Ok (take (Z.to_nat n) full)) /\
  (n <= 0 -> sq_index_scan s ix tbl t iv o (Some n) = Ok (take 1 full)).
Proof.
  unfold sq_index_scan. intros H. split; intros Hn.
  - rewrite (yield_rows_limit _ _ _ 0 n _ ltac:(lia) H). by rewrite Z.sub_0_r.
  - assert (Hlim : forall rows, yield_rows s t rows 0 (Some n) = yield_rows s t rows 0 (Some 1)).
    { induction rows as [|r rows IH]; [done|]. cbn [yield_rows].
      rewrite (proj2 (Z.leb_le n (0 + 1))) by lia.
      destruct (ir_internal_id r), (ir_table_id r); rewrite ?IH; done. }
    rewrite Hlim, (yield_rows_limit _ _ _ 0 1 _ ltac:(lia) H). done.
Qed.

Lemma sqlite_index_scan_limit_witness :
  sq_index_scan empty_store [97] [97] 5 (Interval [] None) Desc (Some 2) = Ok (take 2 []).
Proof.
  exact (proj1 (sqlite_index_scan_limit empty_store [97] [97] 5 (Interval [] None) Desc 2 [] eq_refl)
    (ltac:(lia) : 0 < 2)).
Defined.

(** * Receipts *)

Lemma floor_at_spec identity clientId r :
  floor_at identity clientId r = true <-> fr_identity r = identity /\ fr_client_id r = clientId.
Proof. unfold floor_at. by rewrite andb_true_iff, !bool_decide_eq_true. Qed.

Lemma of_client_spec identity clientId r :
  of_client identity clientId r = true <-> mr_identity r = identity /\ mr_client_id r = clientId.
Proof. unfold of_client. by rewrite andb_true_iff, !bool_decide_eq_true. Qed.

Definition floor_of (rows : list floor_row) (identity clientId : jsstr) : option Z :=
  fr_pruned_through_seq <$> List.find (floor_at identity clientId) rows.

Lemma getClientFloor_floor_of db identity clientId :
  sq_getClientFloor db identity clientId = floor_of (db_floors db) identity clientId.
Proof. done. Qed.

Lemma upsert_floor_find identity clientId seq now rows i c :
  floor_of (upsert_floor identity clientId seq now rows) i c =
  if floor_at i c (FloorRow identity clientId seq now)
  then Some (match floor_of rows identity clientId with Some f => Z.max f seq | None => seq end)
  else floor_of rows i c.
Proof.
  unfold floor_of. induction rows as [|r rows IH]; cbn [upsert_floor List.find].
  - by destruct (floor_at i c _).
  - destruct (floor_at identity clientId r) eqn:E; cbn [List.find].
    + apply floor_at_spec in E as [E1 E2].
      assert (Hsame : forall p q, floor_at i c (FloorRow identity clientId p q) = floor_at i c r)
        by (intros; unfold floor_at; simpl; by rewrite E1, E2).
      rewrite !Hsame. by destruct (floor_at i c r).
    + destruct (floor_at i c r) eqn:Er; [|apply IH].
      assert (floor_at i c (FloorRow identity clientId seq now) = false) as ->; [|done].
      apply not_true_is_false. intros H. apply floor_at_spec in H as [<- <-], Er as [E1 E2].
      simpl in E1, E2. assert (floor_at identity clientId r = true) by by apply floor_at_spec. congruence.
Qed.

(** Floors only grow. *)
Definition floors_le (a b : list floor_row) : Prop :=
  forall i c f, floor_of a i c = Some f -> exists f', floor_of b i c = Some f' /\ f <= f'.

Lemma upsert_floors_le identity clientId seq now rows :
  floors_le rows (upsert_floor identity clientId seq now rows).
Proof.
  intros i c f Hf. rewrite upsert_floor_find. destruct (floor_at i c _) eqn:E; [|eauto with lia].
  apply floor_at_spec in E as [<- <-]. simpl in Hf. rewrite Hf. eexists. split; [done|lia].
Qed.

Lemma floors_le_refl a : floors_le a a.
Proof. intros i c f Hf. exists f. split; [done|lia]. Qed.

Lemma floors_le_trans a b c : floors_le a b -> floors_le b c -> floors_le a c.
Proof.
  intros H1 H2 i j f Hf. destruct (H1 _ _ _ Hf) as (f1 & Hf1 & ?).
  destruct (H2 _ _ _ Hf1) as (f2 & Hf2 & ?). exists f2. split; [done|lia].
Qed.

(** A removed receipt is at or below its client's floor, so a resend of it is
    recognised as stale and not run again. *)
Definition removals_covered (db db' : sqlite_db) : Prop :=
  forall r, r ∈ db_mutations db -> r ∉ db_mutations db' ->
    exists f, floor_of (db_floors db') (mr_identity r) (mr_client_id r) = Some f /\ mr_seq r <= f.

Lemma max_seq_spec rows r :
  r ∈ rows -> exists m, max_seq rows = Some m /\ mr_seq r <= m.
Proof.
  unfold max_seq.
  assert (Hgen : forall rows acc, match acc with
            | Some a => exists m, fold_left (fun m r => match m with
                        | None => Some (mr_seq r)
                        | Some x => if x <? mr_seq r then Some (mr_seq r) else Some x end) rows acc = Some m /\ a <= m
            | None => True end).
  { clear. intros rows. induction rows as [|x rows IH]; intros [a|]; simpl; try done; [exists a; split; [done|lia]|].
    destruct (a <? mr_seq x) eqn:E; zbool.
    - destruct (IH (Some (mr_seq x))) as (m & -> & ?). exists m. split; [done|lia].
    - apply (IH (Some a)). }
  generalize (@None Z) as acc. induction rows as [|x rows IH]; intros acc Hr; [set_solver|].
  apply elem_of_cons in Hr as [->|Hr]; [|by apply IH]. simpl.
  destruct acc as [a|].
  - destruct (a <? mr_seq x) eqn:E; zbool.
    + apply (Hgen rows (Some (mr_seq x))).
    + destruct (Hgen rows (Some a)) as (m & Hm & ?). exists m. split; [exact Hm|lia].
  - apply (Hgen rows (Some (mr_seq x))).
Qed.

Lemma candidate_covers ack deleted r :
  r ∈ deleted -> exists c, maxCandidate ack (max_seq deleted) = Some c /\ mr_seq r <= c.
Proof.
  intros Hr. destruct (max_seq_spec deleted r Hr) as (m & -> & Hm).
  destruct ack as [a|]; simpl; eexists; (split; [done|lia]).
Qed.

Lemma candidate_bounds ack deleted cand :
  (forall r, r ∈ deleted -> 0 <= mr_seq r) -> (forall a, ack = Some a -> 0 <= a) ->
  maxCandidate ack (max_seq deleted) = Some cand -> 0 <= cand /\ forall a, ack = Some a -> a <= cand.
Proof.
  intros Hseq Hack Ec. assert (Hackc : forall a, ack = Some a -> a <= cand).
  { intros a ->. simpl in Ec. destruct (max_seq deleted); injection Ec as <-; lia. }
  split; [|done]. destruct ack as [a|]; [specialize (Hackc a eq_refl); specialize (Hack a eq_refl); lia|].
  simpl in Ec. destruct deleted as [|r0 del]; [done|].
  destruct (candidate_covers None (r0 :: del) r0 ltac:(left)) as (c & Hc & Hle). simpl in Hc.
  rewrite Ec in Hc. injection Hc as <-. specialize (Hseq r0 ltac:(left)). lia.
Qed.

(** Pruning never lowers any client's floor, and whatever receipt it
    removes, or the client acknowledged, is at or below the client's floor
    afterwards. *)
Theorem pruneClientMutations_covers identity clientId ack ttl now db result db' :
  (forall r, r ∈ db_mutations db -> 0 <= mr_seq r) -> (forall a, ack = Some a -> 0 <= a) ->
  sq_pruneClientMutations identity clientId ack ttl now db = (result, db') ->
  floors_le (db_floors db) (db_floors db') /\ removals_covered db db' /\
  result = default 0 (sq_getClientFloor db' identity clientId) /\
  (forall a, ack = Some a -> a <= result).
Proof.
  intros Hseq Hack. unfold sq_pruneClientMutations. cbv zeta.
  set (doomed := prune_dooms identity clientId ack ttl).
  set (deleted := base.filter (fun r => doomed r = true) (db_mutations db)).
  set (db1 := with_mutations db _).
  assert (Hrem : forall r, r ∈ db_mutations db -> r ∉ db_mutations db1 ->
            r ∈ deleted /\ mr_identity r = identity /\ mr_client_id r = clientId).
  { intros r Hr Hn. destruct (doomed r) eqn:E.
    - split; [by apply list_elem_of_filter|]. apply andb_true_iff in E as [E _]. by apply of_client_spec in E.
    - destruct Hn. simpl. by apply list_elem_of_filter. }
  pose proof (candidate_covers ack deleted) as Hcand.
  rewrite !getClientFloor_floor_of.
  destruct (maxCandidate ack (max_seq deleted)) as [cand|] eqn:Ec.
  - destruct (candidate_bounds ack deleted cand) as [Hpos Hackc]; [|done|done|].
    { intros r Hr. apply list_elem_of_filter in Hr as [_ Hr]. by apply Hseq. }
    destruct (cand <=? default (-1) (floor_of (db_floors db) identity clientId)) eqn:E; zbool.
    + intros [= <- <-]. destruct (floor_of (db_floors db) identity clientId) as [f|] eqn:Ef;
        simpl in E; [|lia].
      split_and!; [apply floors_le_refl| |change (db_floors db1) with (db_floors db); by rewrite Ef|].
      * intros r Hr Hn. destruct (Hrem r Hr Hn) as (Hd & -> & ->). destruct (Hcand r Hd) as (c & [= <-] & ?).
        exists f. split; [done|lia].
      * intros a Ha. specialize (Hackc a Ha). cbn. lia.
    + intros [= <- <-]. simpl.
      assert (Hself : floor_at identity clientId (FloorRow identity clientId cand now) = true)
        by by apply floor_at_spec.
      assert (Hnew : floor_of (upsert_floor identity clientId cand now (db_floors db)) identity clientId = Some cand).
      { rewrite upsert_floor_find, Hself. f_equal.
        destruct (floor_of (db_floors db) identity clientId); simpl in E; lia. }
      split_and!; [apply upsert_floors_le| |by cbn [db_floors with_floors]; rewrite Hnew|done].
      intros r Hr Hn. destruct (Hrem r Hr Hn) as (Hd & -> & ->). destruct (Hcand r Hd) as (c & [= <-] & ?).
      exists cand. by split.
  - intros [= <- <-]. split_and!; [apply floors_le_refl| |done|].
    + intros r Hr Hn. destruct (Hrem r Hr Hn) as (Hd & _). by destruct (Hcand r Hd) as (? & ? & _).
    + intros a ->. simpl in Ec. by destruct (max_seq deleted).
Qed.

Lemma pruneClientMutations_covers_witness :
  let r := MutationRow [97] [99] 4 Applied 1 None None 10 in
  let db := SqliteDb [] [] [] [r] [] in
  removals_covered db (sq_pruneClientMutations [97] [99] (Some 6) None 50 db).2.
Proof.
  intros r db.
  apply (pruneClientMutations_covers [97] [99] (Some 6) None 50 db 6
    (SqliteDb [] [] [] [] [FloorRow [97] [99] 6 50])).
  - intros x [->|Hx]%elem_of_cons; [simpl; lia|set_solver].
  - intros a [= <-]. lia.
  - reflexivity.
Defined.

Lemma sweep_key_inj r r' :
  0 ∉ mr_identity r -> 0 ∉ mr_identity r' -> sweep_key r = sweep_key r' ->
  mr_identity r = mr_identity r' /\ mr_client_id r = mr_client_id r'.
Proof.
  intros H1 H2 H. unfold sweep_key in H.
  assert (Hs : forall a (b : jsstr), 0 ∉ a -> split_first 0 (a ++ [0] ++ b) = Some (a, b)).
  { intros a b Ha. apply split_first_app. apply Forall_forall. intros x Hx ->. done. }
  apply (f_equal (split_first 0)) in H. rewrite !Hs in H by done. by injection H.
Qed.

(** Each swept receipt's client has a group whose maximum covers it. *)
Definition group_covers (m : list (jsstr * (jsstr * jsstr * Z))) (r : mutation_row) : Prop :=
  exists x, jm_get m (sweep_key r) = Some (mr_identity r, mr_client_id r, x) /\ mr_seq r <= x.

Lemma sweep_group_covers swept m done_rows :
  Forall (fun r => 0 ∉ mr_identity r) (done_rows ++ swept) ->
  (forall k g, jm_get m k = Some g -> exists r, r ∈ done_rows /\ sweep_key r = k) ->
  Forall (group_covers m) done_rows ->
  Forall (group_covers (fold_left sweep_group swept m)) (done_rows ++ swept).
Proof.
  revert m done_rows. induction swept as [|r swept IH]; intros m dn Hnul Hdom Hcov.
  { by rewrite app_nil_r. }
  simpl. rewrite (cons_middle r dn swept), app_assoc in *. apply IH; [done|..].
  - intros k g. unfold sweep_group. setoid_rewrite elem_of_app.
    assert (Hset : jm_get (jm_set m (sweep_key r) (mr_identity r, mr_client_id r, mr_seq r)) k = Some g ->
              exists r0, (r0 ∈ dn \/ r0 ∈ [r]) /\ sweep_key r0 = k).
    { rewrite jm_get_set. destruct (decide (k = sweep_key r)) as [->|].
      - intros _. exists r. split; [right; left|done].
      - intros Hk. destruct (Hdom _ _ Hk) as (r0 & ? & ?). eauto. }
    destruct (jm_get m (sweep_key r)) as [[[i c] x]|] eqn:E; [|exact Hset].
    destruct (x <? mr_seq r); [exact Hset|]. intros Hk. destruct (Hdom _ _ Hk) as (r0 & ? & ?). eauto.
  - assert (Hnul' : forall r0, r0 ∈ dn -> sweep_key r0 = sweep_key r ->
              mr_identity r0 = mr_identity r /\ mr_client_id r0 = mr_client_id r).
    { rewrite Forall_forall in Hnul. intros r0 H0. apply sweep_key_inj; apply Hnul; set_solver. }
    assert (Hold : forall x, (forall r0, r0 ∈ dn -> sweep_key r0 = sweep_key r -> mr_seq r0 <= x) ->
              Forall (group_covers (jm_set m (sweep_key r) (mr_identity r, mr_client_id r, x))) dn).
    { intros x Hx. rewrite Forall_forall in *. intros r0 H0. unfold group_covers. rewrite jm_get_set.
      destruct (decide (sweep_key r0 = sweep_key r)) as [He|]; [|by apply Hcov].
      destruct (Hnul' r0 H0 He) as [-> ->]. exists x. split; [done|]. by apply Hx. }
    apply Forall_app. unfold sweep_group. destruct (jm_get m (sweep_key r)) as [[[i c] x]|] eqn:E.
    + assert (Hgrp : i = mr_identity r /\ c = mr_client_id r /\ forall r0, r0 ∈ dn -> sweep_key r0 = sweep_key r -> mr_seq r0 <= x).
      { destruct (Hdom _ _ E) as (r1 & H1 & He1). rewrite Forall_forall in Hcov.
        destruct (Hcov r1 H1) as (y & Hy & _). rewrite He1, E in Hy. injection Hy as -> -> ->.
        destruct (Hnul' r1 H1 He1) as [-> ->]. split_and!; [done|done|].
        intros r0 H0 He0. destruct (Hcov r0 H0) as (z & Hz & ?). rewrite He0, E in Hz. by injection Hz as _ _ ->. }
      destruct Hgrp as (-> & -> & Hle). destruct (x <? mr_seq r) eqn:Ex; zbool; split.
      * apply Hold. intros r0 H0 He0. specialize (Hle r0 H0 He0). lia.
      * constructor; [|constructor]. exists (mr_seq r). rewrite jm_get_set, decide_True by done. split; [done|lia].
      * done.
      * constructor; [|constructor]. by exists x.
    + split.
      * apply Hold. intros r0 H0 He0. rewrite Forall_forall in Hcov. destruct (Hcov r0 H0) as (z & Hz & _). congruence.
      * constructor; [|constructor]. exists (mr_seq r). rewrite jm_get_set, decide_True by done. split; [done|lia].
Qed.

Lemma upsert_groups_floors now (groups : list (jsstr * jsstr * Z)) rows :
  let rows' := fold_left (fun rows (g : jsstr * jsstr * Z) => upsert_floor g.1.1 g.1.2 g.2 now rows) groups rows in
  floors_le rows rows' /\
  forall i c x, (i, c, x) ∈ groups -> exists f, floor_of rows' i c = Some f /\ x <= f.
Proof.
  revert rows. induction groups as [|[[i0 c0] x0] groups IH]; intros rows; simpl.
  - split; [apply floors_le_refl|set_solver].
  - destruct (IH (upsert_floor i0 c0 x0 now rows)) as [H1 H2]. split.
    + eapply floors_le_trans; [apply upsert_floors_le|exact H1].
    + intros i c x [[= -> -> ->]|Hin]%elem_of_cons; [|by apply H2].
      assert (Hf : exists f, floor_of (upsert_floor i0 c0 x0 now rows) i0 c0 = Some f /\ x0 <= f).
      { rewrite upsert_floor_find. rewrite (proj2 (floor_at_spec i0 c0 _)) by done.
        eexists. split; [done|]. destruct (floor_of rows i0 c0); lia. }
      destruct Hf as (f & Hf & ?). destruct (H1 _ _ _ Hf) as (f' & ? & ?). exists f'. split; [done|lia].
Qed.

(** The expiry sweep never lowers a floor and every receipt it removes is
    at or below its own client's floor afterwards, as long as no identity
    contains a NUL character. *)
Theorem sweepExpired_covers beforeMs now db n db' :
  Forall (fun r => 0 ∉ mr_identity r) (db_mutations db) ->
  sq_sweepExpiredClientMutations beforeMs now db = (n, db') ->
  floors_le (db_floors db) (db_floors db') /\ removals_covered db db'.
Proof.
  intros Hnul. unfold sq_sweepExpiredClientMutations. cbv zeta.
  set (swept := base.filter (fun r => mr_created_at r <? beforeMs = true) (db_mutations db)).
  assert (Hrem : forall r, r ∈ db_mutations db ->
            r ∉ base.filter (fun r => mr_created_at r <? beforeMs = false) (db_mutations db) -> r ∈ swept).
  { intros r Hr Hn. apply list_elem_of_filter. split; [|done].
    apply not_false_is_true. intros E. apply Hn. by apply list_elem_of_filter. }
  intros H.
  assert (Hdb : db_mutations db' = base.filter (fun r => mr_created_at r <? beforeMs = false) (db_mutations db) /\
                (swept = [] /\ db_floors db' = db_floors db \/
                 db_floors db' = fold_left (fun rows (g : jsstr * jsstr * Z) => upsert_floor g.1.1 g.1.2 g.2 now rows)
                                   (jm_values (fold_left sweep_group swept [])) (db_floors db))).
  { destruct swept; injection H as <- <-; (split; [done|]); [by left|by right]. }
  destruct Hdb as [Hm [[Hs Hfl]|Hfl]].
  - rewrite Hfl. split; [apply floors_le_refl|]. intros r Hr Hn. rewrite Hm in Hn.
    specialize (Hrem r Hr Hn). rewrite Hs in Hrem. set_solver.
  - unfold removals_covered. rewrite Hfl, Hm.
    destruct (upsert_groups_floors now (jm_values (fold_left sweep_group swept [])) (db_floors db)) as [H1 H2].
    cbv zeta in *. split; [done|]. intros r Hr Hn. specialize (Hrem r Hr Hn).
    assert (Hc : Forall (group_covers (fold_left sweep_group swept [])) ([] ++ swept)).
    { apply sweep_group_covers; [|done|constructor]. apply Forall_forall. intros x Hx.
      apply list_elem_of_filter in Hx as [_ Hx]. rewrite Forall_forall in Hnul. by apply Hnul. }
    rewrite Forall_forall in Hc. destruct (Hc r Hrem) as (x & Hx & ?).
    apply jm_get_Some_in in Hx. destruct (H2 (mr_identity r) (mr_client_id r) x) as (f & Hf & ?).
    + unfold jm_values. by apply (list_elem_of_fmap_2 snd) in Hx.
    + exists f. split; [done|lia].
Qed.

Lemma sweepExpired_covers_witness :
  let r := MutationRow [97] [99] 4 Applied 1 None None 10 in
  let db := SqliteDb [] [] [] [r] [] in
  removals_covered db (sq_sweepExpiredClientMutations 20 50 db).2.
Proof.
  intros r db.
  apply (sweepExpired_covers 20 50 db 1 (SqliteDb [] [] [] [] [FloorRow [97] [99] 4 50])).
  - constructor; [|constructor]. apply (bool_decide_unpack _). by vm_compute.
  - reflexivity.
Defined.

(** A client-supplied NUL defeats the batch key: two clients can share one
    group, and the second one's receipt is deleted with no floor left to cover
    it. *)
Theorem sweepExpired_nul_collision :
  exists beforeMs now db, ~ removals_covered db (sq_sweepExpiredClientMutations beforeMs now db).2.
Proof.
  exists 20, 50, (SqliteDb [] [] []
    [MutationRow [97; 0; 98] [99] 4 Applied 1 None None 10;
     MutationRow [97] [98; 0; 99] 3 Applied 1 None None 10] []).
  intros H. destruct (H (MutationRow [97] [98; 0; 99] 3 Applied 1 None None 10)) as (f & Hf & _).
  - right. left.
  - change (db_mutations _) with (@nil mutation_row). apply not_elem_of_nil.
  - by vm_compute in Hf.
Qed.
