(* ===== verification/PostgresStore.v ===== *)
(** The Postgres store: packages/docstore-postgres/src/postgres-docstore.ts and schema.ts.

    The tables are those of the SQLite store, so [sqlite_db] is the database and a statement that the two
    stores share is the same definition. What differs is modelled here: timestamps
    come from the sequence [concile_ts] as well as from the log, a batch is inserted
    with its duplicates removed, [DISTINCT ON] and a lateral join answer an index scan. Text sorts
    by its bytes, which the collation of a database may change for the index names in a dump. *)
From Stdlib Require Import ZArith Lia Sorted.
From stdpp Require Import base list sets strings.
From S2P Require Import Prelude JsBase JsText Float64 Values ValuesJson KeyCodec KeyRanges IdCodec Sharding DocStore SqliteDocStore.

(** * The store *)

Definition pg_guard : Type := sqlite_db -> list guard_unit -> jsstr -> res sqlite_db.

(** [pg_seq] is the last value drawn from the sequence. *)
Record pg_store := PgStore { pg_db : sqlite_db; pg_seq : Z; pg_guards : list pg_guard; pg_readOnly : bool }.
Definition pg_empty : pg_store := PgStore (SqliteDb [] [] [] [] []) 0 [] false.

Definition with_db (s : pg_store) (db : sqlite_db) : pg_store := PgStore db (pg_seq s) (pg_guards s) (pg_readOnly s).
Definition with_seq (s : pg_store) (n : Z) : pg_store := PgStore (pg_db s) n (pg_guards s) (pg_readOnly s).
Definition pg_addCommitGuard (g : pg_guard) (s : pg_store) : pg_store := PgStore (pg_db s) (pg_seq s) (pg_guards s ++ [g]) (pg_readOnly s).
Definition setCommitGuard (g : option pg_guard) (s : pg_store) : pg_store :=
  PgStore (pg_db s) (pg_seq s) (match g with Some g => [g] | None => [] end) (pg_readOnly s).
Definition setWritable (s : pg_store) : pg_store := PgStore (pg_db s) (pg_seq s) (pg_guards s) false.

Definition ReadOnlyStoreError : js_error := PlainError "ReadOnlyStoreError".

(** [SELECT COALESCE(MAX(ts), 0) FROM documents]. *)
Definition max_document_ts (db : sqlite_db) : Z := default 0 (max_ts (db_documents db)).

(** [setval(seq, v, is_called)]: the next value is [v + 1], or [v] itself when it
    was not called yet. *)
Definition setval (v : Z) (is_called : bool) : Z := if is_called then v else v - 1.

(** [setupSchema] after the DDL; [lockFree] says that no other engine holds the
    writer lock. *)
Definition pg_setupSchema (lockFree : bool) (s : pg_store) : res pg_store :=
  if pg_readOnly s then Ok s
  else if negb lockFree then Throw (PlainError "another Concile engine is already connected")
  else
    let key := js "core:tsSeqSeeded" in
    match jm_get (db_globals (pg_db s)) key with
    | Some _ => Ok s
    | None =>
        let s1 := with_db s (with_globals (pg_db s) (jm_set (db_globals (pg_db s)) key (JString (js "1")))) in
        let m := max_document_ts (pg_db s1) in
        Ok (with_seq s1 (setval (Z.max m 1) (0 <? m)))
    end.

(** * Writing *)

(** A [Map] keyed by [key]: the last of the entries with a key, in the place of the first. *)
Definition last_wins {A} (key : A -> jsstr) (l : list A) : list A := jm_values (fold_left (fun m x => jm_set m (key x) x) l []).

Definition doc_map_key (e : log_entry) : jsstr :=
  encodeStorageTableId (tableNumber (le_id e)) ++ [124] ++ internalIdToHex (internalId (le_id e)) ++ [124] ++ js_string_of (le_ts e).
Definition index_map_key (w : index_write) : jsstr :=
  iu_index (iw_update w) ++ [124] ++ internalIdToHex (iu_key (iw_update w)) ++ [124] ++ js_string_of (iw_ts w).

(** [ON CONFLICT ... DO UPDATE]: the row with the key takes the new values. *)
Fixpoint upsert_row {A} (same : A -> bool) (r : A) (rows : list A) : list A :=
  match rows with
  | [] => [r]
  | x :: rows' => if same x then r :: rows' else x :: upsert_row same r rows'
  end.
Definition upsert_document (rows : list doc_row) (r : doc_row) : list doc_row :=
  upsert_row (same_doc_key (dr_table_id r) (dr_internal_id r) (dr_ts r)) r rows.
Definition upsert_index (rows : list index_row) (r : index_row) : list index_row :=
  upsert_row (same_index_key (ir_index_id r) (ir_key r) (ir_ts r)) r rows.

(** One INSERT of several rows: a taken key fails the statement, or the row is replaced. *)
Fixpoint pg_insert_documents (strategy : conflict_strategy) (new rows : list doc_row) : res (list doc_row) :=
  match new with
  | [] => Ok rows
  | r :: new' =>
      match strategy with
      | OnConflictOverwrite => pg_insert_documents strategy new' (upsert_document rows r)
      | OnConflictError =>
          if existsb (same_doc_key (dr_table_id r) (dr_internal_id r) (dr_ts r)) rows
          then Throw (PlainError "duplicate key value violates unique constraint")
          else pg_insert_documents strategy new' (rows ++ [r])
      end
  end.

(** The rows of one commit, without their duplicates. *)
Definition written_rows (documents : list log_entry) (indexUpdates : list index_write) (shard : jsstr) : res (list doc_row * list index_row) :=
  new ← traverse (document_row shard) (last_wins doc_map_key documents);
  Ok (new, index_row_of shard <$> last_wins index_map_key indexUpdates).

Definition pg_writeRows (documents : list log_entry) (indexUpdates : list index_write)
    (strategy : conflict_strategy) (shard : jsstr) (db : sqlite_db) : res sqlite_db :=
  '(new, ixs) ← written_rows documents indexUpdates shard;
  rows ← pg_insert_documents strategy new (db_documents db);
  Ok (with_indexes (with_documents db rows) (fold_left upsert_index ixs (db_indexes db))).

Definition pg_write (documents : list log_entry) (indexUpdates : list index_write)
    (strategy : conflict_strategy) (shardId : option jsstr) (s : pg_store) : res pg_store :=
  if pg_readOnly s then Throw ReadOnlyStoreError
  else db ← pg_writeRows documents indexUpdates strategy (default DEFAULT_SHARD shardId) (pg_db s); Ok (with_db s db).

(** [SELECT GREATEST(nextval('concile_ts'), (SELECT COALESCE(MAX(ts), 0) FROM documents) + 1)]. *)
Definition draw_ts (seq : Z) (db : sqlite_db) : Z := Z.max (seq + 1) (max_document_ts db + 1).

(** The units of a batch inside their transaction. The sequence is not
    transactional: what it has become survives a throw. *)
Fixpoint pg_commit_units (units : list commit_unit) (shard : jsstr) (seq : Z) (db : sqlite_db)
  : res (list Z * list guard_unit * sqlite_db) * Z :=
  match units with
  | [] => (Ok ([], [], db), seq)
  | u :: units' =>
      let commitTs := draw_ts seq db in
      match pg_writeRows (stamp_doc commitTs <$> cu_documents u) (stamp_index commitTs <$> cu_indexUpdates u) OnConflictError shard db with
      | Throw e => (Throw e, seq + 1)
      | Ok db1 =>
          let '(out, seq') := pg_commit_units units' shard (seq + 1) db1 in
          ('(tss, gus, db2) ← out; Ok (commitTs :: tss, GuardUnit commitTs (cu_meta u) :: gus, db2), seq')
      end
  end.

Fixpoint pg_run_guards (guards : list pg_guard) (gus : list guard_unit) (shard : jsstr) (db : sqlite_db) : res sqlite_db :=
  match guards with
  | [] => Ok db
  | g :: guards' => db' ← g db gus shard; pg_run_guards guards' gus shard db'
  end.

(** The outcome and the store it leaves: a batch that throws leaves the tables as
    they were. *)
Definition pg_commit (s : pg_store) (units : list commit_unit) (shardId : option jsstr) : res (list Z) * pg_store :=
  if pg_readOnly s then (Throw ReadOnlyStoreError, s)
  else
    let shard := default DEFAULT_SHARD shardId in
    let '(out, seq) := pg_commit_units units shard (pg_seq s) (pg_db s) in
    match ('(tss, gus, db1) ← out;
           db2 ← match gus with [] => Ok db1 | _ => pg_run_guards (pg_guards s) gus shard db1 end;
           Ok (tss, db2)) with
    | Ok (tss, db2) => (Ok tss, with_seq (with_db s db2) seq)
    | Throw e => (Throw e, with_seq s seq)
    end.

Definition pg_commitWriteBatch (s : pg_store) (units : list commit_unit) (shardId : option jsstr) : res (list Z * pg_store) :=
  let '(out, s') := pg_commit s units shardId in tss ← out; Ok (tss, s').

Definition pg_commitWrite (s : pg_store) (documents : list log_entry) (indexUpdates : list index_write)
    (shardId : option jsstr) (meta : option commit_meta) : res (Z * pg_store) :=
  '(tss, s') ← pg_commitWriteBatch s [CommitUnit documents indexUpdates meta] shardId;
  match tss with ts :: _ => Ok (ts, s') | [] => Throw TypeError end.

(** * Reading *)

(** The tables, for the statements that are those of the SQLite store. *)
Definition pg_view (s : pg_store) : sqlite_store := SqliteStore (pg_db s) [].

Definition pg_get (s : pg_store) (id : doc_id) (readTimestamp : option Z) : res (option latest_document) :=
  sq_get (pg_view s) id readTimestamp.
Definition pg_maxTimestamp (s : pg_store) : Z := max_document_ts (pg_db s).
Definition pg_load_documents (s : pg_store) (minInclusive maxExclusive : Z) (o : order) (limit : option Z) : res (list log_entry) :=
  sq_load_documents (pg_view s) minInclusive maxExclusive o limit.
Definition pg_previous_revisions (s : pg_store) (queries : list prev_rev_query) : res (list (jsstr * log_entry)) :=
  sq_previous_revisions (pg_view s) queries.

(** [SELECT DISTINCT ON (...)] of ordered rows: the first row of each group. *)
Fixpoint distinct_on {A} (same : A -> A -> bool) (l : list A) : list A :=
  match l with
  | [] => []
  | x :: l' => x :: base.filter (fun y => same x y = false) (distinct_on same l')
  end.
(** ... of rows ordered by the key of their group, and within it newest first. *)
Definition newest_on {A K} `{EqDecision K} (key : A -> K) (c : K -> K -> comparison) (ts : A -> Z) (l : list A) : list A :=
  distinct_on (fun a b => bool_decide (key a = key b))
    (js_sort (fun a b => then_cmp (c (key a) (key b)) (ts b ?= ts a)) l).

(** The inner query of [buildIndexScanSql]. *)
Definition pg_index_entries (rows : list index_row) (indexId : jsstr) (t : Z) (iv : interval) (o : order) : list index_row :=
  newest_on ir_key (directed o compareKeyBytes) ir_ts
    (base.filter (fun r => bool_decide (ir_index_id r = indexId) && in_interval (ir_key r) iv && (ir_ts r <=? t) = true) rows).

(** The lateral join and the conditions on its row: the key, the document's
    address, its newest visible row and the text of that row. *)
Definition pg_join (docs : list doc_row) (t : Z) (r : index_row) : option (bytes * (jsstr * bytes) * doc_row * json) :=
  match ir_table_id r, ir_internal_id r with
  | Some tid, Some iid =>
      if ir_deleted r =? 1 then None
      else match newest_revision docs tid iid (Some t) with
           | None => None
           | Some d => match dr_value d with Some text => Some (ir_key r, (tid, iid), d, text) | None => None end
           end
  | _, _ => None
  end.
Definition mapIndexRow (row : bytes * (jsstr * bytes) * doc_row * json) : res (bytes * latest_document) :=
  let '(key, (tid, iid), d, text) := row in
  tn ← decodeStorageTableId tid; doc ← latest_of_row (DocId tn iid) d text; Ok (key, doc).

(** [LIMIT n], which refuses a negative number. *)
Definition pg_limit {A} (limit : option Z) (l : list A) : res (list A) :=
  match limit with
  | None => Ok l
  | Some n => if n <? 0 then Throw (PlainError "LIMIT must not be negative") else Ok (take (Z.to_nat n) l)
  end.

Definition pg_index_scan (s : pg_store) (indexId tableId : jsstr) (t : Z) (iv : interval) (o : order) (limit : option Z)
  : res (list (bytes * latest_document)) :=
  rows ← pg_limit limit (omap (pg_join (db_documents (pg_db s)) t) (pg_index_entries (db_indexes (pg_db s)) indexId t iv o));
  traverse mapIndexRow rows.

Definition pg_latest_rows (rows : list doc_row) (tableId : jsstr) (readTimestamp : option Z) : list doc_row :=
  newest_on dr_internal_id compareKeyBytes dr_ts
    (base.filter (fun r => bool_decide (dr_table_id r = tableId) && at_or_before (dr_ts r) readTimestamp = true) rows).
Definition pg_scan (s : pg_store) (tableId : jsstr) (readTimestamp : option Z) : res (list latest_document) :=
  tn ← decodeStorageTableId tableId; live_documents tn (pg_latest_rows (db_documents (pg_db s)) tableId readTimestamp).
Definition pg_count (s : pg_store) (tableId : jsstr) : nat :=
  length (base.filter (fun r => dr_value r <> None) (pg_latest_rows (db_documents (pg_db s)) tableId None)).

Definition doc_group (r : doc_row) : jsstr * bytes := (dr_table_id r, dr_internal_id r).
Definition index_group (r : index_row) : jsstr * bytes := (ir_index_id r, ir_key r).
Definition group_order (a b : jsstr * bytes) : comparison := then_cmp (compareKeysUtf8 a.1 b.1) (compareKeyBytes a.2 b.2).
Definition pg_dumpCurrentState (s : pg_store) : res (list log_entry * list index_write) :=
  documents ← traverse (fun r => id ← row_doc_id r; entry_of_row id r)
    (base.filter (fun r => dr_value r <> None) (newest_on doc_group group_order dr_ts (db_documents (pg_db s))));
  indexUpdates ← traverse index_write_of_row (newest_on index_group group_order ir_ts (db_indexes (pg_db s)));
  Ok (documents, indexUpdates).

#[global] Instance pg_docstore : DocStore pg_store := {
  ds_get := pg_get;
  ds_index_scan := pg_index_scan;
  ds_commitWriteBatch := pg_commitWriteBatch;
  ds_maxTimestamp := pg_maxTimestamp
}.

(** * Globals and client receipts: the statements of the SQLite store *)

Definition pg_getGlobal (s : pg_store) (key : jsstr) : option json := sq_getGlobal (pg_view s) key.
Definition pg_writeGlobal (key : jsstr) (v : json) (s : pg_store) : pg_store := with_db s (ss_db (sq_writeGlobal key v (pg_view s))).
Definition pg_writeGlobalIfAbsent (key : jsstr) (v : json) (s : pg_store) : bool * pg_store :=
  let '(b, s1) := sq_writeGlobalIfAbsent key v (pg_view s) in (b, with_db s (ss_db s1)).

Section receipts.
Context (json_byte_length : json -> Z).
Definition pg_getClientVerdict (identity clientId : jsstr) (seq : Z) (s : pg_store) : option verdict_record := sq_getClientVerdict (pg_db s) identity clientId seq.
Definition pg_getClientFloor (identity clientId : jsstr) (s : pg_store) : option Z := sq_getClientFloor (pg_db s) identity clientId.
Definition pg_recordClientVerdict (identity clientId : jsstr) (seq : Z) (w : verdict_write) (now : Z) (s : pg_store) : pg_store :=
  with_db s (sq_recordClientVerdict json_byte_length identity clientId seq w now (pg_db s)).
Definition pg_updateClientVerdictValue (identity clientId : jsstr) (seq : Z) (v : json) (s : pg_store) : pg_store :=
  with_db s (sq_updateClientVerdictValue json_byte_length identity clientId seq v (pg_db s)).
Definition pg_pruneClientMutations (identity clientId : jsstr) (ackedThrough ttlBeforeMs : option Z) (now : Z) (s : pg_store) : Z * pg_store :=
  let '(n, db) := sq_pruneClientMutations identity clientId ackedThrough ttlBeforeMs now (pg_db s) in (n, with_db s db).
Definition pg_sweepExpiredClientMutations (beforeMs now : Z) (s : pg_store) : nat * pg_store :=
  let '(n, db) := sq_sweepExpiredClientMutations beforeMs now (pg_db s) in (n, with_db s db).
End receipts.

(** * One row per group *)

Lemma distinct_on_elem {A} (same : A -> A -> bool) (l : list A) x : x ∈ distinct_on same l -> x ∈ l.
Proof.
  induction l as [|y l IH]; cbn [distinct_on]; [done|]. intros [->|[_ H]%list_elem_of_filter]%elem_of_cons; [left|right; auto].
Qed.
Lemma distinct_on_sublist {A} (same : A -> A -> bool) (l : list A) : distinct_on same l `sublist_of` l.
Proof.
  induction l as [|y l IH]; cbn [distinct_on]; [constructor|]. constructor. etrans; [apply sublist_filter|done].
Qed.

(** Two strictly sorted lists with the same elements are equal. *)
Lemma strictly_sorted_ext {A} (R : A -> A -> Prop) (l l' : list A) :
  (forall x, ~ R x x) -> (forall x y, R x y -> ~ R y x) -> StronglySorted R l -> StronglySorted R l' ->
  (forall x, x ∈ l <-> x ∈ l') -> l = l'.
Proof.
  intros Hirr Hasym Hs. revert l'. induction Hs as [|x l Hs IH Hx]; intros l' Hs' He.
  - destruct l' as [|y l']; [done|]. exfalso. apply (not_elem_of_nil y), He. left.
  - destruct Hs' as [|y l' Hs' Hy]; [exfalso; apply (not_elem_of_nil x), He; left|].
    rewrite Forall_forall in Hx, Hy.
    assert (x = y) as ->.
    { assert (Hxl : x ∈ y :: l') by (apply He; left). assert (Hyl : y ∈ x :: l) by (apply He; left).
      apply elem_of_cons in Hxl as [->|Hxl]; [done|]. apply elem_of_cons in Hyl as [->|Hyl]; [done|].
      exfalso. apply (Hasym x y); [by apply Hx|by apply Hy]. }
    f_equal. apply IH; [done|]. intros z. split; intros Hz.
    + assert (Hzl : z ∈ y :: l') by (apply He; by right). apply elem_of_cons in Hzl as [->|]; [|done]. destruct (Hirr y). by apply Hx.
    + assert (Hzl : z ∈ y :: l) by (apply He; by right). apply elem_of_cons in Hzl as [->|]; [|done]. destruct (Hirr y). by apply Hy.
Qed.

Section newest.
Context {A K : Type} `{EqDecision K} (key : A -> K) (c : K -> K -> comparison) (ts : A -> Z) `{Hc : !CmpExact c}.

Definition group_then_newest (a b : A) : comparison := then_cmp (c (key a) (key b)) (ts b ?= ts a).
#[local] Instance group_then_newest_laws : CmpLaws group_then_newest.
Proof.
  apply then_cmp_laws; [apply (cmp_on_laws key c), _|].
  apply (cmp_flip_laws (fun a b : A => ts a ?= ts b)), (cmp_on_laws ts Z.compare), _.
Qed.

Lemma group_then_newest_le x y : group_then_newest x y <> Gt -> key x = key y -> ts y <= ts x.
Proof.
  unfold group_then_newest, then_cmp. intros H He. rewrite He, cmp_refl in H. destruct (Z.compare_spec (ts y) (ts x)); try lia. done.
Qed.

Lemma distinct_newest l x :
  StronglySorted (fun a b => group_then_newest a b <> Gt) l -> NoDup ((fun a => (key a, ts a)) <$> l) ->
  (x ∈ distinct_on (fun a b => bool_decide (key a = key b)) l <-> x ∈ l /\ forall y, y ∈ l -> key y = key x -> ts y <= ts x).
Proof.
  induction 1 as [|z l Hs IH Hz]; cbn [distinct_on]; [intros _; split; [by intros ?%not_elem_of_nil|by intros [?%not_elem_of_nil _]]|].
  csimpl. intros [Hnz Hn]%NoDup_cons. rewrite Forall_forall in Hz. rewrite !elem_of_cons, list_elem_of_filter, (IH Hn), bool_decide_eq_false. split.
  - intros [->|(Hk & Hx & Hm)].
    + split; [by left|]. intros y [->|Hy]%elem_of_cons He; [lia|]. by apply (group_then_newest_le z y); [apply Hz|].
    + split; [by right|]. intros y [->|Hy]%elem_of_cons He; [done|]. by apply Hm.
  - intros [[->|Hx] Hm]; [by left|]. destruct (decide (key z = key x)) as [He|He].
    + exfalso. apply Hnz, list_elem_of_fmap. exists x. split; [|done].
      pose proof (group_then_newest_le z x (Hz x Hx) He). pose proof (Hm z ltac:(left) He). f_equal; [done|lia].
    + right. split; [done|]. split; [done|]. intros y Hy. apply Hm. by right.
Qed.

(** [DISTINCT ON] gives, in the order of the keys, the newest row of each. *)
Lemma newest_on_spec l :
  NoDup ((fun a => (key a, ts a)) <$> l) ->
  newest_on key c ts l = js_sort (fun a b => c (key a) (key b))
    (base.filter (fun x => forallb (fun y => negb (bool_decide (key y = key x)) || (ts y <=? ts x)) l = true) l).
Proof.
  intros Hn. assert (Hspec : forall x, x ∈ newest_on key c ts l <-> x ∈ l /\ forall y, y ∈ l -> key y = key x -> ts y <= ts x).
  { intros x. unfold newest_on. rewrite distinct_newest; [|apply js_sort_sorted, _|by rewrite js_sort_perm].
    rewrite js_sort_perm. apply and_iff_compat_l. split; intros H y Hy; apply H; [by rewrite js_sort_perm|by rewrite js_sort_perm in Hy]. }
  assert (Hf : forall x, x ∈ base.filter (fun x => forallb (fun y => negb (bool_decide (key y = key x)) || (ts y <=? ts x)) l = true) l <->
                 x ∈ l /\ forall y, y ∈ l -> key y = key x -> ts y <= ts x).
  { intros x. rewrite list_elem_of_filter, forallb_forall, (and_comm _ (x ∈ l)). apply and_iff_compat_l. split.
    - intros H y Hy%list_elem_of_In He. specialize (H y Hy). rewrite bool_decide_true in H by done. by apply Z.leb_le in H.
    - intros H y Hy%list_elem_of_In. case_bool_decide as He; [|done]. by apply Z.leb_le, H. }
  apply (strictly_sorted_ext (fun a b => c (key a) (key b) = Lt)).
  - intros x. by rewrite cmp_refl.
  - intros x y H. rewrite (cmp_opp (c := c)), H. done.
  - unfold newest_on. fold group_then_newest.
    assert (Hs : StronglySorted (fun a b => group_then_newest a b <> Gt) (js_sort group_then_newest l)) by apply js_sort_sorted, _.
    change (fun a b => then_cmp (c (key a) (key b)) (ts b ?= ts a)) with group_then_newest. generalize dependent (js_sort group_then_newest l).
    clear - Hc. intros l Hs. induction Hs as [|x l' Hs IH Hx]; cbn [distinct_on]; [constructor|]. constructor.
    + eapply sublist_sorted; [apply sublist_filter|done].
    + apply Forall_forall. intros y [Hd Hy]%list_elem_of_filter. apply bool_decide_eq_false in Hd.
      apply distinct_on_elem in Hy. rewrite Forall_forall in Hx. specialize (Hx y Hy). unfold group_then_newest, then_cmp in Hx.
      destruct (c (key x) (key y)) eqn:E; [|done|done]. by apply cmp_eq in E.
  - apply (js_sort_strict key c); [done|]. apply NoDup_fmap_2_strong.
    + intros x y [Hx Hmx]%Hf [Hy Hmy]%Hf He. apply (NoDup_fmap_inj (fun a => (key a, ts a)) l); [done..|].
      pose proof (Hmx y Hy (eq_sym He)). pose proof (Hmy x Hx He). f_equal; [done|lia].
    + apply NoDup_filter. by apply NoDup_fmap_1 in Hn.
  - intros x. rewrite js_sort_perm, Hspec, Hf. done.
Qed.
End newest.

(** * Reading is reading the SQLite store *)

Lemma pg_index_entries_eq rows ix t iv o :
  NoDup (index_key <$> rows) ->
  pg_index_entries rows ix t iv o = js_sort (directed o (fun a b => compareKeyBytes (ir_key a) (ir_key b))) (index_rows_at rows ix t iv).
Proof.
  intros Hn. unfold pg_index_entries. set (P := fun r : index_row => bool_decide (ir_index_id r = ix) && in_interval (ir_key r) iv && (ir_ts r <=? t) = true).
  rewrite newest_on_spec; [|apply _|].
  - rewrite (directed_on o compareKeyBytes ir_key). f_equal. rewrite list_filter_filter. unfold index_rows_at. apply list_filter_iff_strong.
    intros x Hx. subst P. cbv beta. rewrite !andb_true_iff. unfold newest_entry. rewrite !forallb_forall. split.
    + intros [H [[H1 H2] H3]]. split; [by split_and!|]. intros y Hy.
      destruct (bool_decide_reflect (ir_index_id y = ir_index_id x)) as [E1|]; [|done]. destruct (bool_decide_reflect (ir_key y = ir_key x)) as [E2|]; [|done].
      destruct (ir_ts y <=? t) eqn:E3; [|done]. cbn. specialize (H y). rewrite bool_decide_true in H by done. cbn in H. apply H.
      apply list_elem_of_In, list_elem_of_filter. split; [|by apply list_elem_of_In].
      apply bool_decide_eq_true in H1. rewrite E1, E2, H1, bool_decide_true, H2, E3; done.
    + intros [[[H1 H2] H3] H]. split; [|by split_and!]. intros y Hy. apply list_elem_of_In, list_elem_of_filter in Hy as [Hy Hin].
      rewrite !andb_true_iff in Hy. destruct Hy as [[Hy1 Hy2] Hy3]. specialize (H y ltac:(by apply list_elem_of_In)).
      apply bool_decide_eq_true in H1, Hy1. rewrite Hy1, H1, (bool_decide_true (ix = ix)), Hy3, andb_true_r in H by done. exact H.
  - assert (Hsub : base.filter P rows `sublist_of` rows) by apply sublist_filter.
    apply NoDup_fmap_2_strong; [|by apply NoDup_filter, (NoDup_fmap_1 index_key)].
    intros x y [Hx Hxi]%list_elem_of_filter [Hy Hyi]%list_elem_of_filter [= H1 H2].
    subst P. cbv beta in Hx, Hy. rewrite !andb_true_iff, bool_decide_eq_true in Hx, Hy. destruct Hx as [[Hx _] _], Hy as [[Hy _] _].
    apply (NoDup_fmap_inj index_key rows); [done..|]. unfold index_key. by rewrite Hx, Hy, H1, H2.
Qed.

Lemma decodeStorageTableId_inv tid tn : decodeStorageTableId tid = Ok tn -> encodeStorageTableId tn = tid.
Proof. unfold decodeStorageTableId. destruct (parse_int 10 tid); [|done]. case_bool_decide; [|done]. by intros [= <-]. Qed.

Record pg_valid (s : pg_store) : Prop := {
  pv_docs : NoDup (doc_key <$> db_documents (pg_db s));
  pv_indexes : NoDup (index_key <$> db_indexes (pg_db s));
  pv_guards : Forall (fun g : pg_guard => forall db gus sh db', g db gus sh = Ok db' -> db_documents db' = db_documents db /\ db_indexes db' = db_indexes db) (pg_guards s)
}.

Lemma yield_rows_join s t rows y out :
  yield_rows s t rows y None = Ok out ->
  traverse mapIndexRow (omap (pg_join (db_documents (ss_db s)) t) rows) = Ok out.
Proof.
  revert out. induction rows as [|r rows IH]; intros out; cbn [yield_rows]; [done|].
  cbn [omap list_omap]. unfold pg_join at 1.
  destruct (ir_internal_id r) as [iid|], (ir_table_id r) as [tid|] eqn:Et; try (by apply IH).
  destruct (ir_deleted r =? 1); [by apply IH|].
  destruct (decodeStorageTableId tid) as [tn|] eqn:En; [|done]. rewrite bind_Ok.
  unfold sq_get. cbn [tableNumber internalId]. rewrite (decodeStorageTableId_inv tid tn En).
  destruct (newest_revision _ tid iid (Some t)) as [d|]; [|rewrite bind_Ok; apply IH].
  destruct (dr_value d) as [text|]; [|rewrite bind_Ok; apply IH].
  destruct (latest_of_row _ d text) as [doc|] eqn:El; [|done]. rewrite !bind_Ok.
  destruct (yield_rows s t rows y None) as [rest|] eqn:Er; [|done]. intros [= <-].
  cbn [traverse mapIndexRow]. rewrite En, bind_Ok, El, !bind_Ok, (IH rest eq_refl). done.
Qed.

(** An index scan without a limit. *)
Lemma pg_index_scan_sq s ix tbl t iv o out :
  pg_valid s -> sq_index_scan (pg_view s) ix tbl t iv o None = Ok out -> pg_index_scan s ix tbl t iv o None = Ok out.
Proof.
  intros [_ Hi _] H. unfold pg_index_scan. cbn [pg_limit]. rewrite bind_Ok, pg_index_entries_eq by done.
  by apply (yield_rows_join (pg_view s)) in H.
Qed.

Lemma pg_index_scan_limited s ix tbl t iv o n full :
  pg_index_scan s ix tbl t iv o None = Ok full -> 0 <= n -> pg_index_scan s ix tbl t iv o (Some n) = Ok (take (Z.to_nat n) full).
Proof.
  unfold pg_index_scan. cbn [pg_limit]. rewrite bind_Ok. intros H Hn. rewrite (proj2 (Z.ltb_ge n 0)) by done. rewrite bind_Ok.
  revert full H. generalize (Z.to_nat n) as k. induction (omap _ _) as [|r rows IH]; intros k full; cbn [traverse]; [intros [= <-]; by rewrite !take_nil|].
  destruct (mapIndexRow r) as [kd|] eqn:E; [|done]. rewrite bind_Ok.
  destruct (traverse mapIndexRow rows) as [rest|] eqn:Er; [|done]. intros [= <-].
  destruct k as [|k]; [done|]. cbn [take traverse]. by rewrite E, bind_Ok, (IH k rest eq_refl).
Qed.

(** * The rows of a batch *)

Lemma last_wins_elem {A} (key : A -> jsstr) (l : list A) x : x ∈ last_wins key l -> x ∈ l.
Proof.
  unfold last_wins. assert (H : forall (l : list A) m, x ∈ jm_values (fold_left (fun m y => jm_set m (key y) y) l m) -> x ∈ l \/ x ∈ jm_values m).
  { clear l. induction l as [|y l IH]; intros m; [by right|]. cbn [fold_left]. intros [H|H]%IH; [left; by right|].
    assert (Hs : x = y \/ x ∈ jm_values m); [|destruct Hs as [->|?]; [left; left|by right]].
    revert H. clear. induction m as [|[k' v] m IHm]; cbn; [set_solver|]. destruct (decide _); cbn; set_solver. }
  intros [Hx|Hx]%H; [done|]. by apply not_elem_of_nil in Hx.
Qed.

Lemma last_wins_nonempty {A} (key : A -> jsstr) (l : list A) : l <> [] -> last_wins key l <> [].
Proof.
  unfold last_wins. destruct l as [|y l]; [done|]. intros _. cbn [fold_left].
  assert (H : forall (l : list A) m, m <> [] -> jm_values (fold_left (fun m y => jm_set m (key y) y) l m) <> []).
  { clear. induction l as [|y l IH]; intros m Hm; cbn [fold_left]; [by destruct m|]. apply IH. destruct m as [|[k v] m]; [done|]. cbn. by destruct (decide _). }
  apply H. cbn. done.
Qed.

Lemma traverse_rows shard es new : traverse (document_row shard) es = Ok new -> Forall2 (fun e r => document_row shard e = Ok r) es new.
Proof. apply traverse_Forall2. Qed.

Lemma pg_insert_error new rows rows' :
  pg_insert_documents OnConflictError new rows = Ok rows' ->
  rows' = rows ++ new /\ (NoDup (doc_key <$> rows) -> NoDup (doc_key <$> rows')).
Proof.
  revert rows. induction new as [|r new IH]; intros rows; cbn [pg_insert_documents]; [intros [= <-]; by rewrite app_nil_r|].
  destruct (existsb _ rows) eqn:E; [done|].
  assert (Hi : insert_document OnConflictError r rows = Ok (rows ++ [r])) by (cbn; by rewrite E).
  apply insert_document_error in Hi as [_ Hn]. intros [-> Hn']%IH. rewrite <- app_assoc in *. split; [done|]. auto.
Qed.

Lemma document_row_key shard e r : document_row shard e = Ok r -> (dr_table_id r, dr_internal_id r) = storage_key (le_id e) /\ dr_ts r = le_ts e.
Proof.
  intros H. split; [|by apply document_row_ts in H]. unfold document_row in H.
  destruct (le_value e) as [d|]; [destruct (serializeValue (rd_value d)); [|done]|]; cbn in H; by injection H as <-.
Qed.

Lemma upsert_row_elem {A} (same : A -> bool) r rows x : x ∈ upsert_row same r rows -> x = r \/ x ∈ rows.
Proof. induction rows as [|y rows IH]; cbn; [set_solver|]. destruct (same y); set_solver. Qed.

Lemma upsert_index_nodup rows r : NoDup (index_key <$> rows) -> NoDup (index_key <$> upsert_index rows r).
Proof.
  unfold upsert_index. intros Hn. assert (Hsame : forall x, same_index_key (ir_index_id r) (ir_key r) (ir_ts r) x = true <-> index_key x = index_key r).
  { intros x. unfold same_index_key, index_key. rewrite !andb_true_iff, !bool_decide_eq_true, Z.eqb_eq.
    split; [intros [[-> ->] ->]; done|intros [= -> -> ->]; done]. }
  induction rows as [|y rows IH]; cbn; [apply NoDup_singleton|]. apply NoDup_cons in Hn as [Hy Hn].
  destruct (same_index_key _ _ _ y) eqn:E.
  - apply Hsame in E. csimpl. constructor; [by rewrite <- E|done].
  - csimpl. constructor; [|by apply IH]. intros (x & Hx & Hin)%list_elem_of_fmap.
    apply upsert_row_elem in Hin as [->|Hin]; [|apply Hy, list_elem_of_fmap; eauto].
    apply not_true_iff_false in E. by apply E, Hsame.
Qed.

Lemma upsert_index_old t rows r : t < ir_ts r -> old_indexes t (upsert_index rows r) = old_indexes t rows.
Proof.
  intros Ht. unfold upsert_index, old_indexes. induction rows as [|y rows IH]; cbn [upsert_row].
  - rewrite filter_cons_False; [done|]. rewrite Z.leb_le. lia.
  - destruct (same_index_key _ _ _ y) eqn:E.
    + rewrite !filter_cons_False; [done|..]; rewrite Z.leb_le; [|lia]. unfold same_index_key in E. rewrite !andb_true_iff, Z.eqb_eq in E. lia.
    + rewrite !filter_cons. by rewrite IH.
Qed.

Lemma written_rows_stamped ts docs idx shard new ixs :
  written_rows (stamp_doc ts <$> docs) (stamp_index ts <$> idx) shard = Ok (new, ixs) ->
  Forall (fun r => dr_ts r = ts /\ exists e, e ∈ docs /\ (dr_table_id r, dr_internal_id r) = storage_key (le_id e)) new /\
  (docs <> [] -> new <> []) /\ Forall (fun r => ir_ts r = ts) ixs.
Proof.
  unfold written_rows. set (ds := last_wins doc_map_key _). destruct (traverse _ ds) as [new'|] eqn:Et; [|done]. rewrite bind_Ok. intros [= <- <-].
  apply traverse_Forall2 in Et. split_and!.
  - apply Forall_forall. intros r Hr. apply list_elem_of_lookup in Hr as [i Hi]. destruct (Forall2_lookup_r _ _ _ _ _ Et Hi) as (e & He & Hrow).
    apply document_row_key in Hrow as [Hk Hts]. apply list_elem_of_lookup_2, last_wins_elem, list_elem_of_fmap in He as (e0 & -> & He0).
    split; [done|]. exists e0. by split.
  - intros Hne. assert (Hds : ds <> []) by (apply last_wins_nonempty; by destruct docs). intros ->. apply Forall2_nil_inv_r in Et. done.
  - apply Forall_fmap, Forall_forall. intros w Hw. apply last_wins_elem, list_elem_of_fmap in Hw as (w0 & -> & _).
    cbn. unfold index_row_of. cbn. by destruct (iu_value _).
Qed.

Lemma upsert_indexes_old t ixs rows : Forall (fun r => t < ir_ts r) ixs -> old_indexes t (fold_left upsert_index ixs rows) = old_indexes t rows.
Proof.
  revert rows. induction ixs as [|r ixs IH]; intros rows Hws; [done|]. apply Forall_cons in Hws as [Hr Hws]. cbn [fold_left]. by rewrite IH, upsert_index_old.
Qed.

(** A unit's rows: after every older one, from its own documents; older index rows are untouched. *)
Lemma writeRows_stamped ts docs idx shard db db' t :
  t < ts -> pg_writeRows (stamp_doc ts <$> docs) (stamp_index ts <$> idx) OnConflictError shard db = Ok db' ->
  exists new, db_documents db' = db_documents db ++ new /\
    Forall (fun r => dr_ts r = ts /\ exists e, e ∈ docs /\ (dr_table_id r, dr_internal_id r) = storage_key (le_id e)) new /\
    (docs <> [] -> new <> []) /\
    old_indexes t (db_indexes db') = old_indexes t (db_indexes db) /\
    (NoDup (doc_key <$> db_documents db) -> NoDup (doc_key <$> db_documents db')) /\
    (NoDup (index_key <$> db_indexes db) -> NoDup (index_key <$> db_indexes db')).
Proof.
  intros Ht. unfold pg_writeRows. destruct (written_rows _ _ _) as [[new ixs]|] eqn:Ew; [|done]. rewrite bind_Ok.
  apply written_rows_stamped in Ew as (H1 & H2 & H3).
  destruct (pg_insert_documents _ _ _) as [rows|] eqn:Ei; [|done]. rewrite bind_Ok. intros [= <-]. cbn.
  apply pg_insert_error in Ei as [-> Hn]. exists new. split_and!; [done..| |done|].
  - apply upsert_indexes_old. eapply Forall_impl; [exact H3|]. cbv beta. lia.
  - clear. generalize (db_indexes db) as rows. induction ixs as [|r ixs IH]; intros rows Hn'; [done|]. cbn [fold_left]. apply IH. by apply upsert_index_nodup.
Qed.

Lemma max_document_ts_app db db' new m :
  db_documents db' = db_documents db ++ new -> Forall (fun r => dr_ts r <= m) new -> max_document_ts db <= m -> max_document_ts db' <= m.
Proof.
  intros Hd Hn Hm. unfold max_document_ts in *. rewrite Hd. destruct (db_documents db ++ new) as [|x rows] eqn:E; [cbn in *; destruct (db_documents db); [|done]; cbn in Hm; lia|].
  assert (Hall : Forall (fun r => dr_ts r <= m) (x :: rows)).
  { rewrite <- E. apply Forall_app. split; [|done]. apply Forall_forall. intros r Hr%max_ts_upper. lia. }
  apply Forall_cons in Hall as [Hx Hrows]. cbn. destruct (max_ts_fold_eq rows (dr_ts x)) as [->|(r & Hr & ->)]; [done|].
  rewrite Forall_forall in Hrows. by apply Hrows.
Qed.

Lemma max_document_ts_grows db db' new :
  db_documents db' = db_documents db ++ new -> Forall (fun r => max_document_ts db < dr_ts r) new -> max_document_ts db <= max_document_ts db'.
Proof.
  intros Hd Hn. assert (Hup : forall r, r ∈ db_documents db' -> dr_ts r <= max_document_ts db') by (intros r; apply max_ts_upper). rewrite Hd in Hup.
  assert (Hm : max_document_ts db = 0 /\ db_documents db = [] \/ exists r, r ∈ db_documents db /\ max_document_ts db = dr_ts r).
  { unfold max_document_ts. destruct (db_documents db) as [|x rows]; [by left|right]. cbn.
    destruct (max_ts_fold_eq rows (dr_ts x)) as [->|(r & Hr & ->)]; eexists; (split; [|done]); [left|by right]. }
  destruct Hm as [[Hm He]|(r & Hr & ->)]; [|apply Hup, elem_of_app; by left].
  destruct new as [|y new].
  - unfold max_document_ts. by rewrite Hd, app_nil_r.
  - apply Forall_cons in Hn as [Hy _]. specialize (Hup y ltac:(apply elem_of_app; right; left)). lia.
Qed.

Lemma pg_commit_units_spec us shard seq db tss gus db' seq' t :
  t <= max_document_ts db -> pg_commit_units us shard seq db = (Ok (tss, gus, db'), seq') ->
  length tss = length us /\ gu_ts <$> gus = tss /\
  (exists new, db_documents db' = db_documents db ++ new /\
     forall r, r ∈ new -> max_document_ts db < dr_ts r /\ exists k u ts e, us !! k = Some u /\ tss !! k = Some ts /\ e ∈ cu_documents u /\
       dr_ts r = ts /\ (dr_table_id r, dr_internal_id r) = storage_key (le_id e)) /\
  old_indexes t (db_indexes db') = old_indexes t (db_indexes db) /\
  (NoDup (doc_key <$> db_documents db) -> NoDup (doc_key <$> db_documents db')) /\
  (NoDup (index_key <$> db_indexes db) -> NoDup (index_key <$> db_indexes db')) /\
  (Forall unit_writes us -> increasing_above (max_document_ts db) tss /\ max_document_ts db' = default (max_document_ts db) (last tss)).
Proof.
  revert seq db tss gus db' seq'. induction us as [|u us IH]; intros seq db tss gus db' seq' Ht; cbn [pg_commit_units].
  - intros [= <- <- <- <-]. split_and!; try done. exists []. rewrite app_nil_r. split; [done|set_solver].
  - set (ts := draw_ts seq db). set (m := max_document_ts db) in *. assert (Hts : m < ts) by (subst ts m; unfold draw_ts; lia).
    destruct (pg_writeRows _ _ _ _ db) as [db1|] eqn:E1; [|done].
    destruct (writeRows_stamped ts _ _ _ _ _ t ltac:(lia) E1) as (new & Hd & Hnew & Hne & Ho & Hn1 & Hn2).
    destruct (pg_commit_units us shard (seq + 1) db1) as [out seq1] eqn:E2. destruct out as [[[out gus1] db2]|]; [|done]. rewrite bind_Ok. intros [= <- <- <- <-].
    assert (Hm1 : m <= max_document_ts db1 <= ts).
    { split; [apply (max_document_ts_grows _ _ new); [done|]|apply (max_document_ts_app db db1 new); [done| |subst m; lia]];
        (eapply Forall_impl; [exact Hnew|]; intros r [Hr _]; cbv beta; subst m; lia). }
    assert (Ht1 : t <= max_document_ts db1) by lia. destruct (IH _ _ _ _ _ _ Ht1 E2) as (Hl & Hg & (new' & Hd' & Hr') & Ho' & Hn1' & Hn2' & Hinc). split_and!.
    + cbn. by rewrite Hl.
    + csimpl. by rewrite Hg.
    + exists (new ++ new'). rewrite Hd', Hd, app_assoc. split; [done|]. rewrite Forall_forall in Hnew. intros r [Hr|Hr]%elem_of_app.
      * destruct (Hnew r Hr) as (Hrt & e & He & Hk). split; [lia|]. exists 0%nat, u, ts, e. by split_and!.
      * destruct (Hr' r Hr) as (Hlt & k & u' & ts' & e & Hu & Ht' & He & H1 & H2). split; [lia|]. exists (Datatypes.S k), u', ts', e. by split_and!.
    + by rewrite Ho', Ho.
    + auto.
    + auto.
    + intros [Hu Hus]%Forall_cons. specialize (Hinc Hus) as [Hi He].
      assert (Hm2 : max_document_ts db1 = ts).
      { destruct new as [|y new]; [by destruct (Hne Hu)|]. apply Forall_cons in Hnew as [[Hy _] _].
        pose proof (max_ts_upper (db_documents db1) y) as Hup. rewrite Hd in Hup at 1. specialize (Hup ltac:(apply elem_of_app; right; left)).
        fold (max_document_ts db1) in Hup. lia. }
      rewrite Hm2 in *. split; [by split|]. rewrite He. destruct out as [|t' out]; [done|].
      change (last (ts :: t' :: out)) with (last (t' :: out)). destruct (last (t' :: out)) eqn:El; [done|]. by apply last_None in El.
Qed.

Lemma pg_run_guards_ok guards gus shard db db' :
  Forall (fun g : pg_guard => forall db gus sh db', g db gus sh = Ok db' -> db_documents db' = db_documents db /\ db_indexes db' = db_indexes db) guards ->
  pg_run_guards guards gus shard db = Ok db' -> db_documents db' = db_documents db /\ db_indexes db' = db_indexes db.
Proof.
  intros H. revert db. induction H as [|g guards Hg _ IH]; intros db; cbn [pg_run_guards]; [by intros [= <-]|].
  destruct (g db gus shard) as [db1|] eqn:E; [|done]. rewrite bind_Ok. intros Hr. destruct (Hg _ _ _ _ E) as [<- <-]. by apply IH.
Qed.

Lemma pg_commitWriteBatch_inv s us sh tss s' :
  pg_valid s -> pg_commitWriteBatch s us sh = Ok (tss, s') ->
  exists gus db1 seq, pg_commit_units us (default DEFAULT_SHARD sh) (pg_seq s) (pg_db s) = (Ok (tss, gus, db1), seq) /\
    db_documents (pg_db s') = db_documents db1 /\ db_indexes (pg_db s') = db_indexes db1 /\ pg_guards s' = pg_guards s.
Proof.
  intros [_ _ Hg]. unfold pg_commitWriteBatch, pg_commit. destruct (pg_readOnly s); [done|].
  destruct (pg_commit_units _ _ _ _) as [[[[out gus] db1]|] seq] eqn:E; [|done]. rewrite bind_Ok.
  destruct gus as [|gu gus].
  - rewrite !bind_Ok. intros [= <- <-]. exists [], db1, seq. by split_and!.
  - destruct (pg_run_guards _ _ _ _) as [db2|] eqn:Eg; [|done]. rewrite !bind_Ok. intros [= <- <-].
    apply pg_run_guards_ok in Eg as [H1 H2]; [|done]. exists (gu :: gus), db1, seq. by split_and!.
Qed.

(** * The store meets the contract *)

(** What is seen at [t] is decided by the rows up to [t]. *)
Lemma pg_index_entries_old rows ix t iv o : pg_index_entries rows ix t iv o = pg_index_entries (old_indexes t rows) ix t iv o.
Proof.
  unfold pg_index_entries, old_indexes. f_equal. rewrite list_filter_filter. apply list_filter_iff. intros r. rewrite !andb_true_iff. tauto.
Qed.

Lemma pg_join_old docs t r : pg_join docs t r = pg_join (old_docs t docs) t r.
Proof. unfold pg_join. destruct (ir_table_id r); [|done]. destruct (ir_internal_id r); [|done]. by rewrite newest_revision_old. Qed.

Lemma mapIndexRow_keys rows out : traverse mapIndexRow rows = Ok out -> out.*1 = (fun row => row.1.1.1) <$> rows.
Proof.
  revert out. induction rows as [|[[[k [tid iid]] d] text] rows IH]; intros out; cbn [traverse]; [by intros [= <-]|].
  cbn [mapIndexRow]. destruct (decodeStorageTableId tid) as [tn|]; [|done]. rewrite bind_Ok. destruct (latest_of_row _ d text) as [doc|]; [|done]. rewrite !bind_Ok.
  destruct (traverse mapIndexRow rows) as [rest|]; [|done]. intros [= <-]. csimpl. by rewrite (IH rest eq_refl).
Qed.

Lemma pg_join_keys docs t (rows : list index_row) : (fun row => row.1.1.1) <$> omap (pg_join docs t) rows `sublist_of` ir_key <$> rows.
Proof.
  induction rows as [|r rows IH]; [constructor|]. cbn [omap list_omap]. destruct (pg_join docs t r) as [[[[k a] d] text]|] eqn:E; csimpl.
  - assert (k = ir_key r) as -> by (revert E; unfold pg_join; repeat case_match; by intros [= <- _ _ _]). by constructor.
  - by constructor.
Qed.

Lemma mapIndexRow_filter (f : bytes -> bool) rows out :
  traverse mapIndexRow rows = Ok out ->
  traverse mapIndexRow (base.filter (fun row => f row.1.1.1 = true) rows) = Ok (base.filter (fun kd => f kd.1 = true) out).
Proof.
  revert out. induction rows as [|[[[k [tid iid]] d] text] rows IH]; intros out; cbn [traverse]; [by intros [= <-]|].
  destruct (mapIndexRow _) as [kd|] eqn:E; [|done]. rewrite bind_Ok. destruct (traverse mapIndexRow rows) as [rest|]; [|done]. intros [= <-].
  assert (Hk : kd.1 = k).
  { revert E. cbn. destruct (decodeStorageTableId tid); [|done]. rewrite bind_Ok. destruct (latest_of_row _ d text); [|done]. rewrite bind_Ok. by intros [= <-]. }
  rewrite !filter_cons. cbn [fst]. rewrite Hk. destruct (decide _); [|by apply IH]. cbn [traverse]. by rewrite E, bind_Ok, (IH rest eq_refl).
Qed.

Lemma pg_join_filter docs t (f : bytes -> bool) (rows : list index_row) :
  omap (pg_join docs t) (base.filter (fun r => f (ir_key r) = true) rows) = base.filter (fun row => f row.1.1.1 = true) (omap (pg_join docs t) rows).
Proof.
  induction rows as [|r rows IH]; [done|]. rewrite filter_cons. cbn [omap list_omap].
  destruct (pg_join docs t r) as [[[[k a] d] text]|] eqn:E.
  - assert (Hk : k = ir_key r) by (revert E; unfold pg_join; repeat case_match; by intros [= <- _ _ _]).
    rewrite filter_cons. cbn [fst]. rewrite Hk. destruct (decide _); [|done]. cbn [omap list_omap]. rewrite E. by rewrite IH, Hk.
  - destruct (decide _); [|done]. cbn [omap list_omap]. by rewrite E.
Qed.

Lemma pg_get_old s s' id t : old_docs t (db_documents (pg_db s')) = old_docs t (db_documents (pg_db s)) -> pg_get s' id (Some t) = pg_get s id (Some t).
Proof. intros H. unfold pg_get, sq_get. cbn. by rewrite (newest_revision_old (db_documents (pg_db s'))), H, <- newest_revision_old. Qed.

Lemma pg_commit_keeps_old s us sh tss s' t :
  pg_valid s -> pg_commitWriteBatch s us sh = Ok (tss, s') -> t <= pg_maxTimestamp s ->
  old_docs t (db_documents (pg_db s')) = old_docs t (db_documents (pg_db s)) /\ old_indexes t (db_indexes (pg_db s')) = old_indexes t (db_indexes (pg_db s)).
Proof.
  intros Hv Hc Ht. destruct (pg_commitWriteBatch_inv _ _ _ _ _ Hv Hc) as (gus & db1 & seq & Hu & Hd & Hi & _).
  destruct (pg_commit_units_spec _ _ _ _ _ _ _ _ t Ht Hu) as (_ & _ & (new & Hn & Hr) & Ho & _). rewrite Hd, Hi, Hn. split; [|done].
  apply old_docs_app, Forall_forall. intros r Hin. destruct (Hr r Hin) as [? _]. unfold pg_maxTimestamp in Ht. lia.
Qed.

Lemma pg_index_scan_rows s ix tbl t iv o out :
  pg_index_scan s ix tbl t iv o None = Ok out <->
  traverse mapIndexRow (omap (pg_join (db_documents (pg_db s)) t) (pg_index_entries (db_indexes (pg_db s)) ix t iv o)) = Ok out.
Proof. unfold pg_index_scan. cbn [pg_limit]. by rewrite bind_Ok. Qed.

Lemma pg_newest_bounded s table id :
  newest_revision (db_documents (ss_db (pg_view s))) table id None = newest_revision (db_documents (ss_db (pg_view s))) table id (Some (pg_maxTimestamp s)).
Proof.
  unfold newest_revision. f_equal. f_equal. apply list_filter_iff_strong. intros r Hin%max_ts_upper.
  unfold at_or_before. by rewrite (proj2 (Z.leb_le (dr_ts r) (pg_maxTimestamp s))).
Qed.

(** C13: the Postgres store meets the store contract that the transactor and the queries
    are verified against, over tables without duplicate keys and commit guards that leave
    documents and index entries alone, which every commit keeps so. A batch whose units
    each write a document gets one timestamp per unit, increasing and above everything
    stored, wherever the sequence stands; what an older snapshot reads or scans never
    changes; a document that no unit up to the timestamp touched reads as before; a scan
    without a limit is ordered by key, stays inside its interval and restricts to
    sub-intervals; a read without a timestamp is one at the newest. *)
Theorem postgres_meets_contract : DocStoreLaws pg_store pg_valid.
Proof.
  split.
  - intros s us sh tss s' Hv Hc. pose proof Hv as [H1 H2 H3].
    destruct (pg_commitWriteBatch_inv _ _ _ _ _ Hv Hc) as (gus & db1 & seq & Hu & Hd & Hi & Hg).
    destruct (pg_commit_units_spec _ _ _ _ _ _ _ _ _ (Z.le_refl _) Hu) as (_ & _ & _ & _ & Hn1 & Hn2 & _).
    split; [rewrite Hd; auto|rewrite Hi; auto|by rewrite Hg].
  - intros s us sh tss s' Hv Hw Hc.
    destruct (pg_commitWriteBatch_inv _ _ _ _ _ Hv Hc) as (gus & db1 & seq & Hu & Hd & _ & _).
    destruct (pg_commit_units_spec _ _ _ _ _ _ _ _ _ (Z.le_refl _) Hu) as (Hl & _ & _ & _ & _ & _ & Hinc).
    destruct (Hinc Hw) as [H1 H2]. cbn. unfold pg_maxTimestamp. split_and!; [done|done|]. rewrite <- H2. unfold max_document_ts. by rewrite Hd.
  - intros s us sh tss s' id t Hv Hc Ht. by apply pg_get_old, (pg_commit_keeps_old s us sh tss s' t Hv Hc).
  - intros s us sh tss s' ix tbl t iv o lim Hv Hc Ht. destruct (pg_commit_keeps_old s us sh tss s' t Hv Hc Ht) as [Ho Hoi].
    cbn. unfold pg_index_scan. rewrite (pg_index_entries_old (db_indexes (pg_db s'))), Hoi, <- pg_index_entries_old.
    assert (Hj : forall r, pg_join (db_documents (pg_db s')) t r = pg_join (db_documents (pg_db s)) t r) by (intros r; by rewrite pg_join_old, Ho, <- pg_join_old).
    generalize (pg_index_entries (db_indexes (pg_db s)) ix t iv o) as l. intros l. f_equal. f_equal.
    induction l as [|r l IH]; [done|]. cbn [omap list_omap]. by rewrite Hj, IH.
  - intros s us sh tss s' id t Hv Hc Ht Hu. cbn in *.
    destruct (pg_commitWriteBatch_inv _ _ _ _ _ Hv Hc) as (gus & db1 & seq & Hcu & Hd & _ & _).
    destruct (pg_commit_units_spec _ _ _ _ _ _ _ _ _ (Z.le_refl _) Hcu) as (_ & _ & (new & Hn & Hr) & _). unfold pg_get, sq_get, newest_revision. cbn.
    rewrite Hd, Hn, filter_app, (filter_none _ new), app_nil_r.
    + rewrite (list_filter_iff_strong _ (fun r => of_document (encodeStorageTableId (tableNumber id)) (internalId id) r
                               && at_or_before (dr_ts r) None = true)); [done|].
      intros r Hin%max_ts_upper. unfold at_or_before. unfold pg_maxTimestamp, max_document_ts in Ht. by rewrite (proj2 (Z.leb_le (dr_ts r) t)) by lia.
    + apply Forall_forall. intros r Hin [Hof Hle]%andb_true_iff. destruct (Hr r Hin) as (_ & k & u & ts & e & Hk & Htk & He & Hts & Hkey).
      cbn in Hle. zbool. apply (Hu k u ts Hk Htk); [lia|]. exists e. split; [done|]. apply of_document_spec in Hof as [H1 H2].
      rewrite <- Hkey. unfold storage_key. by rewrite H1, H2.
  - intros s ix tbl t iv o rows [_ Hn _] H. apply pg_index_scan_rows in H.
    apply mapIndexRow_keys in H. rewrite pg_index_entries_eq in H by done.
    assert (Hs : rows.*1 `sublist_of` ir_key <$> js_sort (directed o (fun a b => compareKeyBytes (ir_key a) (ir_key b))) (index_rows_at (db_indexes (pg_db s)) ix t iv)).
    { rewrite H. apply pg_join_keys. }
    split.
    + eapply sublist_sorted; [exact Hs|]. rewrite (directed_on o compareKeyBytes ir_key). apply sorted_keys_strict; [apply _|]. by apply index_rows_at_keys.
    + apply Forall_forall. intros k Hk. apply (elem_of_sublist _ _ _ Hk) in Hs. rewrite js_sort_perm in Hs.
      apply list_elem_of_fmap in Hs as (r & -> & Hr). by apply index_rows_at_spec in Hr as (_ & _ & ? & _).
  - intros s ix tbl t iv iv' o rows [_ Hn _] Hiv H. apply pg_index_scan_rows in H. apply pg_index_scan_rows.
    rewrite pg_index_entries_eq in * by done. rewrite (index_rows_at_restrict _ _ _ iv iv'), js_sort_filter by
      (done || (rewrite (directed_on o compareKeyBytes ir_key); apply (cmp_on_laws ir_key (directed o compareKeyBytes)), _)).
    rewrite (pg_join_filter _ t (fun k => in_interval k iv')). by apply (mapIndexRow_filter (fun k => in_interval k iv')).
  - intros s id _. cbn. unfold pg_get, sq_get. rewrite pg_newest_bounded. done.
Qed.

(** * The two stores answer alike *)

Lemma pg_latest_rows_eq rows tbl rt :
  NoDup (doc_key <$> rows) ->
  pg_latest_rows rows tbl rt = js_sort (fun a b => compareKeyBytes (dr_internal_id a) (dr_internal_id b)) (latest_rows rows tbl rt).
Proof.
  intros Hn. unfold pg_latest_rows. set (P := fun r : doc_row => bool_decide (dr_table_id r = tbl) && at_or_before (dr_ts r) rt = true).
  rewrite newest_on_spec; [|apply _|].
  - f_equal. rewrite list_filter_filter. unfold latest_rows. apply list_filter_iff_strong.
    intros x Hx. subst P. cbv beta. rewrite !andb_true_iff. unfold is_latest, of_document. rewrite !forallb_forall. split.
    + intros [H [H1 H2]]. split; [by split|]. intros y Hy. apply bool_decide_eq_true in H1.
      destruct (bool_decide_reflect (dr_table_id y = dr_table_id x)) as [E1|]; [|done]. destruct (bool_decide_reflect (dr_internal_id y = dr_internal_id x)) as [E2|]; [|done].
      destruct (at_or_before (dr_ts y) rt) eqn:E3; [|done]. cbn. specialize (H y). rewrite bool_decide_true in H by done. cbn in H. apply H.
      apply list_elem_of_In, list_elem_of_filter. split; [|by apply list_elem_of_In]. by rewrite E1, H1, bool_decide_true, E3.
    + intros [[H1 H2] H]. split; [|by split]. intros y Hy. apply list_elem_of_In, list_elem_of_filter in Hy as [Hy Hin].
      rewrite andb_true_iff in Hy. destruct Hy as [Hy1 Hy2]. specialize (H y ltac:(by apply list_elem_of_In)).
      apply bool_decide_eq_true in H1, Hy1. rewrite Hy1, H1, (bool_decide_true (tbl = tbl)), Hy2, andb_true_r in H by done. exact H.
  - apply NoDup_fmap_2_strong; [|by apply NoDup_filter, (NoDup_fmap_1 doc_key)].
    intros x y [Hx Hxi]%list_elem_of_filter [Hy Hyi]%list_elem_of_filter [= H1 H2].
    subst P. cbv beta in Hx, Hy. rewrite andb_true_iff, bool_decide_eq_true in Hx, Hy. destruct Hx as [Hx _], Hy as [Hy _].
    apply (NoDup_fmap_inj doc_key rows); [done..|]. unfold doc_key. by rewrite Hx, Hy, H1, H2.
Qed.

(** Over the same tables the two stores answer alike: a document, a table or its
    size at any timestamp, and an index scan that SQLite can answer, without a limit
    or with a positive one, although one store counts rows with correlated subqueries
    and a loop and the other with [DISTINCT ON] and a lateral join. *)
Theorem postgres_reads_like_sqlite s :
  pg_valid s ->
  (forall id rt, pg_get s id rt = sq_get (pg_view s) id rt) /\
  (forall tbl rt, pg_scan s tbl rt = sq_scan (pg_view s) tbl rt) /\
  (forall tbl, pg_count s tbl = sq_count (pg_view s) tbl) /\
  (forall ix tbl t iv o out, sq_index_scan (pg_view s) ix tbl t iv o None = Ok out ->
     pg_index_scan s ix tbl t iv o None = Ok out /\
     forall n, 0 < n -> pg_index_scan s ix tbl t iv o (Some n) = sq_index_scan (pg_view s) ix tbl t iv o (Some n)).
Proof.
  intros Hv. pose proof Hv as [Hd _ _]. split_and!; [done|..].
  - intros tbl rt. unfold pg_scan, sq_scan. by rewrite pg_latest_rows_eq.
  - intros tbl. unfold pg_count, sq_count. cbn. rewrite pg_latest_rows_eq by done. by rewrite js_sort_perm.
  - intros ix tbl t iv o out H. pose proof (pg_index_scan_sq s ix tbl t iv o out Hv H) as Hp. split; [done|]. intros n Hn.
    rewrite (pg_index_scan_limited s ix tbl t iv o n out Hp) by lia. unfold sq_index_scan in *.
    rewrite (yield_rows_limit _ t _ 0 n out) by (done || lia). by rewrite Z.sub_0_r.
Qed.

(** A limit of zero: SQLite's loop tests it after a row was yielded. *)
Definition one_row : pg_store :=
  PgStore (SqliteDb [DocRow (js "1") [7] 1 None (Some (JObject [])) DEFAULT_SHARD]
             [IndexRow (js "1/by_id") [7] 1 (Some (js "1")) (Some [7]) 0 DEFAULT_SHARD] [] [] []) 1 [] false.
Lemma one_row_valid : pg_valid one_row.
Proof. split; cbn; [apply NoDup_singleton|apply NoDup_singleton|constructor]. Qed.
Lemma limit_zero_differs :
  pg_index_scan one_row (js "1/by_id") (js "1") 1 (Interval [] None) Asc (Some 0) = Ok [] /\
  length <$> (match sq_index_scan (pg_view one_row) (js "1/by_id") (js "1") 1 (Interval [] None) Asc (Some 0) with Ok l => Some l | Throw _ => None end) = Some 1%nat.
Proof. split; vm_compute; reflexivity. Qed.

Lemma postgres_reads_like_sqlite_witness :
  pg_valid one_row /\ pg_index_scan one_row (js "1/by_id") (js "1") 1 (Interval [] None) Asc (Some 1) =
    sq_index_scan (pg_view one_row) (js "1/by_id") (js "1") 1 (Interval [] None) Asc (Some 1).
Proof.
  split; [exact one_row_valid|]. destruct (sq_index_scan (pg_view one_row) (js "1/by_id") (js "1") 1 (Interval [] None) Asc None) as [out|e] eqn:E.
  - apply (postgres_reads_like_sqlite one_row one_row_valid) in E. apply E. lia.
  - vm_compute in E. discriminate E.
Defined.
