(* ===== verification/ObjectStore.v ===== *)
(** The objects a shard keeps in object storage: segments and snapshots.
    ee/packages/objectstore-substrate/src/segment.ts and snapshot.ts.

    A JSON text is represented by what it was printed from; parsing it back
    ([JSON.parse]) is [reparse] on the values of the documents and changes
    nothing in strings and finite numbers.

    Object storage: packages/objectstore/src/types.ts and manifest.ts of
    ee/packages/objectstore-substrate/src, and programs over them.

    The bucket of one shard.  Its keys (the manifest, segments by number,
    snapshots by timestamp, consumers by name) are typed here; [key_text] gives
    their names, which are different for different keys.  An etag is derived
    from the content of an object, so a conditional write is conditional on the
    content it expects. *)
From Stdlib Require Import ZArith Lia.
From stdpp Require Import base list sets strings gmap.
From S2P Require Import Prelude JsBase JsText Float64 Values ValuesJson KeyCodec KeyRanges IdCodec Sharding DocStore SqliteDocStore.

(** * BigInt and its text *)

(** [x.toString()] of a bigint. *)
Definition bigint_toString (z : Z) : jsstr := js_string_of z.

(** [BigInt(text)] of a plain decimal text; an empty text is zero. *)
Definition decimal_value (s : jsstr) : res Z :=
  let ds := take_digits 10 s in
  if (length ds =? length s)%nat then Ok (digits_value 10 ds) else Throw (PlainError "SyntaxError").
Definition BigInt_of (s : jsstr) : res Z :=
  match s with
  | 45 :: s' => match s' with [] => Throw (PlainError "SyntaxError") | _ => Z.opp <$> decimal_value s' end
  | _ => decimal_value s
  end.

Lemma decimal_roundtrip n : 0 <= n -> decimal_value (digit_char <$> digits 10 n) = Ok n.
Proof.
  intros Hn. unfold decimal_value. destruct (digits_spec 10 n ltac:(lia) Hn) as (Hv & Hf & _).
  assert (Ht : take_digits 10 (digit_char <$> digits 10 n) = digits 10 n).
  { rewrite <-(app_nil_r (digit_char <$> _)). by apply take_digits_chars. }
  rewrite Ht, length_fmap, Nat.eqb_refl. by rewrite Hv.
Qed.

Lemma bigint_roundtrip z : BigInt_of (bigint_toString z) = Ok z.
Proof.
  unfold bigint_toString, js_string_of, num_to_string. destruct (Z.ltb_spec z 0) as [Hz|Hz].
  - cbn [BigInt_of]. rewrite decimal_roundtrip by lia.
    destruct (digits_spec 10 (- z) ltac:(lia) ltac:(lia)) as (_ & _ & Hne). destruct (digits 10 (- z)); [done|].
    cbn. f_equal. lia.
  - etrans; [|apply (decimal_roundtrip z Hz)]. destruct (digits_spec 10 z ltac:(lia) Hz) as (_ & Hf & _).
    destruct (digits 10 z) as [|d ds]; [done|]. apply Forall_cons in Hf as [Hd _]. csimpl.
    pose proof (digit_char_range d ltac:(lia)) as Hc. set (c := digit_char d) in *. clearbody c.
    unfold BigInt_of. destruct c as [|p|]; [lia| |lia]. do 6 (destruct p as [p|p|]; try done); lia.
Qed.

(** * Base64 *)

Definition bytesToBase64 (bs : bytes) : jsstr := btoa bs.
Definition base64ToBytes (b64 : jsstr) : res bytes := atob b64.

Lemma base64_roundtrip bs : wf_bytes bs -> base64ToBytes (bytesToBase64 bs) = Ok bs.
Proof. apply atob_btoa. Qed.

(** * The wire shapes *)

Record wire_id := WireInternalDocumentId { wi_tableNumber : Z; wi_internalId : jsstr }.
Record wire_resolved := WireResolvedDocument { wr_id : wire_id; wr_value : json }.
Record wire_entry := WireDocumentLogEntry
  { we_ts : jsstr; we_id : wire_id; we_value : option wire_resolved; we_prev_ts : option jsstr }.
Inductive wire_index_value := WDeleted | WNonClustered (docId : wire_id).
Record wire_index_write := WireIndexWrite
  { ww_ts : jsstr; ww_indexId : jsstr; ww_key : jsstr; ww_value : wire_index_value }.

(** [SegmentPayload], [SnapshotPayload] and their texts. *)
Record segment_payload := SegmentPayload { sp_documents : list log_entry; sp_indexUpdates : list index_write }.
Record wire_segment := WireSegmentPayload { ws_documents : list wire_entry; ws_indexUpdates : list wire_index_write }.
Record snapshot_payload := SnapshotPayload
  { sn_frontierTs : Z; sn_segBase : Z; sn_documents : list log_entry; sn_indexUpdates : list index_write }.
Record wire_snapshot := WireSnapshotPayload
  { wn_frontierTs : jsstr; wn_segBase : Z; wn_documents : list wire_entry; wn_indexUpdates : list wire_index_write }.

(** * Encoding *)

Definition encodeId (id : doc_id) : wire_id := WireInternalDocumentId (tableNumber id) (bytesToBase64 (internalId id)).
Definition encodeResolvedDocument (d : resolved_document) : res wire_resolved :=
  j ← convexToJson (rd_value d); Ok (WireResolvedDocument (encodeId (rd_id d)) j).
Definition encodeDocumentLogEntry (e : log_entry) : res wire_entry :=
  v ← match le_value e with None => Ok None | Some d => w ← encodeResolvedDocument d; Ok (Some w) end;
  Ok (WireDocumentLogEntry (bigint_toString (le_ts e)) (encodeId (le_id e)) v (bigint_toString <$> le_prev e)).
Definition encodeIndexValue (v : index_value) : wire_index_value :=
  match v with IxDeleted => WDeleted | IxNonClustered id => WNonClustered (encodeId id) end.
Definition encodeIndexWrite (w : index_write) : wire_index_write :=
  let u := iw_update w in
  WireIndexWrite (bigint_toString (iw_ts w)) (iu_index u) (bytesToBase64 (iu_key u)) (encodeIndexValue (iu_value u)).

Definition encodeDocumentLogEntries (es : list log_entry) : res (list wire_entry) := traverse encodeDocumentLogEntry es.
Definition encodeIndexWrites (ws : list index_write) : list wire_index_write := encodeIndexWrite <$> ws.

Definition encodeSegment (p : segment_payload) : res wire_segment :=
  ds ← encodeDocumentLogEntries (sp_documents p);
  Ok (WireSegmentPayload ds (encodeIndexWrites (sp_indexUpdates p))).
Definition encodeSnapshot (p : snapshot_payload) : res wire_snapshot :=
  ds ← encodeDocumentLogEntries (sn_documents p);
  Ok (WireSnapshotPayload (bigint_toString (sn_frontierTs p)) (sn_segBase p) ds (encodeIndexWrites (sn_indexUpdates p))).

(** * Decoding *)

Definition decodeId (w : wire_id) : res doc_id := b ← base64ToBytes (wi_internalId w); Ok (DocId (wi_tableNumber w) b).
Definition decodeResolvedDocument (w : wire_resolved) : res resolved_document :=
  id ← decodeId (wr_id w); v ← jsonToConvex (reparse (wr_value w)); Ok (ResolvedDocument id v).
Definition decodeDocumentLogEntry (w : wire_entry) : res log_entry :=
  ts ← BigInt_of (we_ts w);
  id ← decodeId (we_id w);
  v ← match we_value w with None => Ok None | Some d => x ← decodeResolvedDocument d; Ok (Some x) end;
  prev ← match we_prev_ts w with None => Ok None | Some t => x ← BigInt_of t; Ok (Some x) end;
  Ok (LogEntry ts id v prev).
Definition decodeIndexValue (w : wire_index_value) : res index_value :=
  match w with WDeleted => Ok IxDeleted | WNonClustered id => d ← decodeId id; Ok (IxNonClustered d) end.
Definition decodeIndexWrite (w : wire_index_write) : res index_write :=
  ts ← BigInt_of (ww_ts w);
  key ← base64ToBytes (ww_key w);
  v ← decodeIndexValue (ww_value w);
  Ok (IndexWrite ts (IndexUpdate (ww_indexId w) key v)).

Definition decodeDocumentLogEntries (ws : list wire_entry) : res (list log_entry) := traverse decodeDocumentLogEntry ws.
Definition decodeIndexWrites (ws : list wire_index_write) : res (list index_write) := traverse decodeIndexWrite ws.

Definition decodeSegment (w : wire_segment) : res segment_payload :=
  ds ← decodeDocumentLogEntries (ws_documents w);
  us ← decodeIndexWrites (ws_indexUpdates w);
  Ok (SegmentPayload ds us).
Definition decodeSnapshot (w : wire_snapshot) : res snapshot_payload :=
  ts ← BigInt_of (wn_frontierTs w);
  ds ← decodeDocumentLogEntries (wn_documents w);
  us ← decodeIndexWrites (wn_indexUpdates w);
  Ok (SnapshotPayload ts (wn_segBase w) ds us).

(** * Round trips *)

(** Rows a store writes: identifiers and keys are bytes, values can be encoded. *)
Definition resolved_ok (d : resolved_document) : Prop :=
  wf_bytes (internalId (rd_id d)) /\ wf_value (rd_value d) /\ int64_value (rd_value d) = true.
Definition entry_ok (e : log_entry) : Prop := wf_bytes (internalId (le_id e)) /\ (forall d, le_value e = Some d -> resolved_ok d).
Definition index_value_ok (v : index_value) : Prop := match v with IxDeleted => True | IxNonClustered d => wf_bytes (internalId d) end.
Definition index_write_ok (w : index_write) : Prop := wf_bytes (iu_key (iw_update w)) /\ index_value_ok (iu_value (iw_update w)).

(** What a row reads back as. *)
Definition resolved_norm (d : resolved_document) : resolved_document := ResolvedDocument (rd_id d) (zero_norm (rd_value d)).
Definition entry_norm (e : log_entry) : log_entry := LogEntry (le_ts e) (le_id e) (resolved_norm <$> le_value e) (le_prev e).

Lemma id_roundtrip id : wf_bytes (internalId id) -> decodeId (encodeId id) = Ok id.
Proof. intros H. unfold decodeId, encodeId. cbn [wi_tableNumber wi_internalId]. rewrite base64_roundtrip by done. by destruct id. Qed.

Lemma resolved_roundtrip d : resolved_ok d -> exists w, encodeResolvedDocument d = Ok w /\ decodeResolvedDocument w = Ok (resolved_norm d).
Proof.
  intros (Hi & Hw & H64). destruct (serialize_ok _ Hw H64) as [j Hj]. unfold encodeResolvedDocument.
  change (convexToJson (rd_value d)) with (serializeValue (rd_value d)). rewrite Hj. eexists. split; [done|].
  unfold decodeResolvedDocument. cbn [wr_id wr_value]. rewrite (id_roundtrip _ Hi), bind_Ok.
  change (jsonToConvex (reparse j)) with (parseValue j). by rewrite (parse_serialize _ _ Hw H64 Hj).
Qed.

Lemma entry_roundtrip e : entry_ok e -> exists w, encodeDocumentLogEntry e = Ok w /\ decodeDocumentLogEntry w = Ok (entry_norm e).
Proof.
  intros [Hi Hv]. unfold encodeDocumentLogEntry, entry_norm.
  assert (Hp : match bigint_toString <$> le_prev e with None => Ok None | Some t => x ← BigInt_of t; Ok (Some x) end = Ok (le_prev e)).
  { destruct (le_prev e); cbn [fmap option_fmap option_map]; [|done]. by rewrite bigint_roundtrip. }
  destruct (le_value e) as [d|]; [destruct (resolved_roundtrip d (Hv d eq_refl)) as (w & -> & Hw)|]; rewrite ?bind_Ok; eexists; (split; [done|]);
    unfold decodeDocumentLogEntry; cbn [we_ts we_id we_value we_prev_ts]; rewrite bigint_roundtrip, (id_roundtrip _ Hi), !bind_Ok; [rewrite Hw, !bind_Ok|];
    by rewrite Hp.
Qed.

Lemma index_write_roundtrip w : index_write_ok w -> decodeIndexWrite (encodeIndexWrite w) = Ok w.
Proof.
  destruct w as [ts [ix k v]]. intros [Hk Hv]. unfold decodeIndexWrite, encodeIndexWrite. cbn [ww_ts ww_indexId ww_key ww_value iw_ts iw_update iu_index iu_key iu_value] in *.
  rewrite bigint_roundtrip, base64_roundtrip, !bind_Ok by done. destruct v as [|d]; cbn [encodeIndexValue decodeIndexValue]; [done|]. by rewrite (id_roundtrip _ Hv).
Qed.

Lemma entries_roundtrip es : Forall entry_ok es ->
  exists ws, encodeDocumentLogEntries es = Ok ws /\ decodeDocumentLogEntries ws = Ok (entry_norm <$> es).
Proof.
  induction 1 as [|e es He _ (ws & H1 & H2)]; [by exists []|]. destruct (entry_roundtrip e He) as (w & Hw & Hd).
  exists (w :: ws). unfold encodeDocumentLogEntries, decodeDocumentLogEntries in *. cbn [traverse]. rewrite Hw, bind_Ok, H1, bind_Ok.
  split; [done|]. rewrite Hd, bind_Ok, H2. done.
Qed.

Lemma index_writes_roundtrip ws : Forall index_write_ok ws -> decodeIndexWrites (encodeIndexWrites ws) = Ok ws.
Proof.
  induction 1 as [|w ws Hw _ IH]; [done|]. unfold decodeIndexWrites, encodeIndexWrites in *. csimpl. cbn [traverse].
  by rewrite index_write_roundtrip, bind_Ok, IH.
Qed.

(** Segments decode to the rows they were encoded from; the only change is that
    a negative zero reads back as zero, as it does from the local store. *)
Theorem segment_roundtrip p : Forall entry_ok (sp_documents p) -> Forall index_write_ok (sp_indexUpdates p) ->
  exists w, encodeSegment p = Ok w /\ decodeSegment w = Ok (SegmentPayload (entry_norm <$> sp_documents p) (sp_indexUpdates p)).
Proof.
  intros Hd Hi. destruct (entries_roundtrip _ Hd) as (ws & H1 & H2). unfold encodeSegment. rewrite H1, bind_Ok.
  eexists. split; [done|]. unfold decodeSegment. cbn [ws_documents ws_indexUpdates]. by rewrite H2, bind_Ok, index_writes_roundtrip.
Qed.

Lemma snapshot_roundtrip p : Forall entry_ok (sn_documents p) -> Forall index_write_ok (sn_indexUpdates p) ->
  exists w, encodeSnapshot p = Ok w /\
    decodeSnapshot w = Ok (SnapshotPayload (sn_frontierTs p) (sn_segBase p) (entry_norm <$> sn_documents p) (sn_indexUpdates p)).
Proof.
  intros Hd Hi. destruct (entries_roundtrip _ Hd) as (ws & H1 & H2). unfold encodeSnapshot. rewrite H1, bind_Ok.
  eexists. split; [done|]. unfold decodeSnapshot. cbn [wn_frontierTs wn_segBase wn_documents wn_indexUpdates].
  by rewrite bigint_roundtrip, bind_Ok, H2, bind_Ok, index_writes_roundtrip.
Qed.

(** * Objects *)

Record manifest := Manifest
  { mf_epoch : Z; mf_frontierTs : Z; mf_tsCounter : Z; mf_segments : list Z; mf_nextSeqno : Z;
    mf_writerId : jsstr; mf_leaseExpiresAt : Z; mf_snapshot : option (Z * Z) }.
#[global] Instance manifest_eq_dec : EqDecision manifest.
Proof. solve_decision. Defined.

(** [snapshotTs] and [snapshotSegBase] are set together. *)
Definition mf_snapshotTs (m : manifest) : option Z := fst <$> mf_snapshot m.
Definition mf_snapshotSegBase (m : manifest) : option Z := snd <$> mf_snapshot m.

Definition emptyManifest : manifest := Manifest 0 0 0 [] 0 [] 0 None.

Inductive object_key :=
  | KManifest
  | KSegment (seqno : Z)
  | KSnapshot (ts : Z)
  | KConsumer (consumerId : jsstr).

Definition key_text (shard : jsstr) (k : object_key) : jsstr :=
  js "s" ++ shard ++
  match k with
  | KManifest => js "/manifest"
  | KSegment n => js "/seg/" ++ js_string_of n
  | KSnapshot ts => js "/snap/" ++ js_string_of ts
  | KConsumer id => js "/consumers/" ++ id
  end.

Definition key_ok (k : object_key) : Prop := match k with KSegment n | KSnapshot n => 0 <= n | _ => True end.

Lemma key_text_inj shard k k' : key_ok k -> key_ok k' -> key_text shard k = key_text shard k' -> k = k'.
Proof.
  intros Hk Hk' H. unfold key_text in H. apply app_inv_head in H. apply app_inv_head in H.
  destruct k, k'; cbn in *; try discriminate H; try done.
  - f_equal. apply js_string_of_inj; [done|done|]. by injection H.
  - f_equal. apply js_string_of_inj; [done|done|]. by injection H.
  - f_equal. by injection H.
Qed.

Record bucket := Bucket
  { bk_manifest : option manifest; bk_segments : gmap Z wire_segment;
    bk_snapshots : gmap Z wire_snapshot; bk_consumers : list (jsstr * Z) }.

Definition bucket_empty : bucket := Bucket None ∅ ∅ [].
Definition with_manifest (b : bucket) (m : manifest) : bucket := Bucket (Some m) (bk_segments b) (bk_snapshots b) (bk_consumers b).
Definition with_segments (b : bucket) (s : gmap Z wire_segment) : bucket := Bucket (bk_manifest b) s (bk_snapshots b) (bk_consumers b).
Definition with_snapshots (b : bucket) (s : gmap Z wire_snapshot) : bucket := Bucket (bk_manifest b) (bk_segments b) s (bk_consumers b).
Definition with_consumers (b : bucket) (c : list (jsstr * Z)) : bucket := Bucket (bk_manifest b) (bk_segments b) (bk_snapshots b) c.

(** * Operations

    [LocalIO] stands before each operation of the local store: it may fail on
    its own. *)

Definition CasConflict : js_error := PlainError "CAS_CONFLICT".
Definition isCasConflict (e : js_error) : bool := bool_decide (e = CasConflict).

Inductive os_op :=
  | GetManifest
  | CasManifest (ifMatch : option manifest) (next : manifest)
  | GetSegment (seqno : Z)
  | PutSegment (seqno : Z) (body : wire_segment)
  | ListSegments
  | DeleteSegment (seqno : Z)
  | GetSnapshot (ts : Z)
  | PutSnapshot (ts : Z) (body : wire_snapshot)
  | ListSnapshots
  | DeleteSnapshot (ts : Z)
  | ListConsumers
  | GetConsumer (consumerId : jsstr)
  | CasConsumer (consumerId : jsstr) (ifMatch : option Z) (next : Z)
  | DeleteConsumer (consumerId : jsstr)
  | LocalIO.

Definition os_answer (op : os_op) : Type :=
  match op with
  | GetManifest => option manifest
  | GetSegment _ => option wire_segment
  | GetSnapshot _ => option wire_snapshot
  | GetConsumer _ => option Z
  | ListSegments | ListSnapshots => list Z
  | ListConsumers => list jsstr
  | _ => unit
  end.

(** An immutable write keeps the object that is there. *)
Definition put_first {V} (m : gmap Z V) (k : Z) (v : V) : gmap Z V := match m !! k with Some _ => m | None => <[k := v]> m end.

Definition os_exec (op : os_op) (b : bucket) : bucket * res (os_answer op) :=
  match op with
  | GetManifest => (b, Ok (bk_manifest b))
  | CasManifest old next => if bool_decide (bk_manifest b = old) then (with_manifest b next, Ok tt) else (b, Throw CasConflict)
  | GetSegment n => (b, Ok (bk_segments b !! n))
  | PutSegment n w => (with_segments b (put_first (bk_segments b) n w), Ok tt)
  | ListSegments => (b, Ok (map_to_list (bk_segments b)).*1)
  | DeleteSegment n => (with_segments b (delete n (bk_segments b)), Ok tt)
  | GetSnapshot ts => (b, Ok (bk_snapshots b !! ts))
  | PutSnapshot ts w => (with_snapshots b (put_first (bk_snapshots b) ts w), Ok tt)
  | ListSnapshots => (b, Ok (map_to_list (bk_snapshots b)).*1)
  | DeleteSnapshot ts => (with_snapshots b (delete ts (bk_snapshots b)), Ok tt)
  | ListConsumers => (b, Ok (jm_keys (bk_consumers b)))
  | GetConsumer id => (b, Ok (jm_get (bk_consumers b) id))
  | CasConsumer id old next =>
      if bool_decide (jm_get (bk_consumers b) id = old) then (with_consumers b (jm_set (bk_consumers b) id next), Ok tt) else (b, Throw CasConflict)
  | DeleteConsumer id => (with_consumers b (jm_delete (bk_consumers b) id), Ok tt)
  | LocalIO => (b, Ok tt)
  end.

(** A request over the network: it is carried out, or it fails before that, or
    it is carried out and the answer is lost. *)
Inductive outcome := Delivered | Failed_ | AnswerLost.
Definition NetworkError : js_error := PlainError "network".

Definition os_run (op : os_op) (oc : outcome) (b : bucket) : bucket * res (os_answer op) :=
  match oc with
  | Delivered => os_exec op b
  | Failed_ => (b, Throw NetworkError)
  | AnswerLost => ((os_exec op b).1, Throw NetworkError)
  end.

(** * Programs

    An asynchronous method is the tree of the requests it makes and of the
    steps it takes on the state [I] of its object.  Between two of them others
    may run. *)
Inductive oprog (I A : Type) :=
  | ORet (a : A)
  | OThrow (e : js_error)
  | OVis (op : os_op) (k : res (os_answer op) -> oprog I A)
  | OState (X : Type) (f : I -> I * X) (k : X -> oprog I A).
Arguments ORet {I A}.
Arguments OThrow {I A}.
Arguments OVis {I A}.
Arguments OState {I A}.

Section programs.
Context {I : Type}.

Fixpoint obind {A B} (p : oprog I A) (f : A -> oprog I B) : oprog I B :=
  match p with
  | ORet a => f a
  | OThrow e => OThrow e
  | OVis op k => OVis op (fun r => obind (k r) f)
  | OState X g k => OState X g (fun x => obind (k x) f)
  end.

(** [try { p } catch (e) { h(e) }]. *)
Fixpoint ocatch {A} (p : oprog I A) (h : js_error -> oprog I A) : oprog I A :=
  match p with
  | ORet a => ORet a
  | OThrow e => h e
  | OVis op k => OVis op (fun r => ocatch (k r) h)
  | OState X g k => OState X g (fun x => ocatch (k x) h)
  end.

Definition olift {A} (r : res A) : oprog I A := match r with Ok a => ORet a | Throw e => OThrow e end.
Definition request (op : os_op) : oprog I (os_answer op) := OVis op olift.
(** A step on the object's state, which may throw. *)
Definition local {X} (f : I -> I * res X) : oprog I X := OState (res X) f olift.
Definition update (f : I -> I) : oprog I unit := OState unit (fun s => (f s, tt)) ORet.
Definition read {X} (f : I -> X) : oprog I X := OState X (fun s => (s, f s)) ORet.

Fixpoint oeach {A} (l : list A) (f : A -> oprog I unit) : oprog I unit :=
  match l with
  | [] => ORet tt
  | x :: l' => obind (f x) (fun _ => oeach l' f)
  end.

(** One step of a program. *)
Definition ostep {A} (p : oprog I A) (oc : outcome) (b : bucket) (s : I) : bucket * I * oprog I A :=
  match p with
  | ORet _ | OThrow _ => (b, s, p)
  | OVis op k => let '(b', r) := os_run op oc b in (b', s, k r)
  | OState X f k => let '(s', x) := f s in (b, s', k x)
  end.

Definition oresult {A} (p : oprog I A) : option (res A) :=
  match p with ORet a => Some (Ok a) | OThrow e => Some (Throw e) | _ => None end.
End programs.

Declare Scope oprog_scope.
Delimit Scope oprog_scope with oprog.
Notation "'let!' x ':=' m 'in' k" := (obind m (fun x => k)) (at level 200, x name, m at level 100, k at level 200) : oprog_scope.
Notation "m ';;!' k" := (obind m (fun _ => k)) (at level 100, right associativity) : oprog_scope.

(** * The manifest: manifest.ts *)

Section manifest.
#[local] Open Scope oprog_scope.
Context {I : Type}.

Definition readManifest : oprog I (option manifest) := request GetManifest.
Definition createManifest : oprog I manifest := request (CasManifest None emptyManifest);;! ORet emptyManifest.
Definition casManifest (next : manifest) (ifMatch : manifest) : oprog I unit := request (CasManifest (Some ifMatch) next).
End manifest.
