(* ===== verification/ObjectDocStore.v ===== *)
(** A document store whose log is in object storage:
    ee/packages/objectstore-substrate/src/object-doc-store.ts, with
    apply-snapshot.ts and consumers.ts.

    Each exclusive method is a program on the state [inst] of one store object
    ([ObjectStoreDocStore]).  The methods of one object run one after the other
    ([runExclusive]), except [release], which may come at any time; the methods
    of different objects interleave request by request. *)
From Stdlib Require Import ZArith Lia.
From stdpp Require Import base list sets gmap strings.
From S2P Require Import Prelude JsBase JsText Values IdCodec DocStore SqliteDocStore ObjectStore.

(** * The state of an object *)

Record inst := Inst
  { in_local : sqlite_store; in_cached : manifest; in_nextSeqno : Z; in_poisoned : bool;
    in_held : option (Z * jsstr); in_sinceSnapshot : Z }.

Definition set_local (s : inst) l := Inst l (in_cached s) (in_nextSeqno s) (in_poisoned s) (in_held s) (in_sinceSnapshot s).
Definition set_cached (s : inst) m := Inst (in_local s) m (in_nextSeqno s) (in_poisoned s) (in_held s) (in_sinceSnapshot s).
Definition set_nextSeqno (s : inst) n := Inst (in_local s) (in_cached s) n (in_poisoned s) (in_held s) (in_sinceSnapshot s).
Definition set_poisoned (s : inst) p := Inst (in_local s) (in_cached s) (in_nextSeqno s) p (in_held s) (in_sinceSnapshot s).
Definition set_held (s : inst) h := Inst (in_local s) (in_cached s) (in_nextSeqno s) (in_poisoned s) h (in_sinceSnapshot s).
Definition set_since (s : inst) n := Inst (in_local s) (in_cached s) (in_nextSeqno s) (in_poisoned s) (in_held s) n.

Definition SNAPSHOT_EVERY : Z := 8.

Definition FencedError : js_error := PlainError "FencedError".
Definition NotLeaseOwner : js_error := PlainError "not the lease owner".
Definition PoisonedError : js_error := PlainError "poisoned".
Definition TornState : js_error := PlainError "missing object referenced by manifest".
Definition NoManifest : js_error := PlainError "no manifest".
Definition PostCommitApplyFailed : js_error := PlainError "post-commit local apply failed".

(** [new ObjectStoreDocStore(..., local, cached, 0)]; the manifest is read next. *)
Definition inst_new (l : sqlite_store) : inst := Inst l emptyManifest 0 false None 0.

Section methods.
#[local] Open Scope oprog_scope.
Notation M := (oprog inst).

(** * The local store *)

Definition localIO {X} (f : inst -> inst * res X) : M X := request LocalIO;;! local f.
Definition local_write (documents : list log_entry) (indexUpdates : list index_write) (shardId : option jsstr) : M unit :=
  localIO (fun s =>
    match sq_write documents indexUpdates OnConflictOverwrite shardId (in_local s) with
    | Ok (_, l) => (set_local s l, Ok tt)
    | Throw e => (s, Throw e)
    end).
Definition local_dump : M (list log_entry * list index_write) := localIO (fun s => (s, sq_dumpCurrentState (in_local s))).
Definition local_max : M Z := localIO (fun s => (s, Ok (sq_maxTimestamp (in_local s)))).

(** * Catching up *)

(** The live documents a snapshot does not have are deleted at its timestamp. *)
Definition dropped_docs (current : list log_entry) (snap : snapshot_payload) : list log_entry :=
  let ids := (fun e => documentIdKey (le_id e)) <$> sn_documents snap in
  base.filter (fun e => documentIdKey (le_id e) ∉ ids) current.
Definition tombstone (frontierTs : Z) (e : log_entry) : log_entry := LogEntry frontierTs (le_id e) None (Some (le_ts e)).

Definition applySnapshotState (snap : snapshot_payload) (frontierTs : Z) : M (list log_entry) :=
  let! current := local_dump in
  let deleted := tombstone frontierTs <$> dropped_docs current.1 snap in
  (match deleted with [] => ORet tt | _ => local_write deleted [] None end);;!
  local_write (sn_documents snap) (sn_indexUpdates snap) None;;!
  ORet deleted.

Definition readSnapshot (ts : Z) : M (option snapshot_payload) :=
  let! w := request (GetSnapshot ts) in
  match w with None => ORet None | Some w => let! p := olift (decodeSnapshot w) in ORet (Some p) end.

Fixpoint replay (segments : list Z) (appliedThrough : Z) : M unit :=
  match segments with
  | [] => ORet tt
  | seqno :: rest =>
      if seqno <=? appliedThrough then replay rest appliedThrough
      else
        let! w := request (GetSegment seqno) in
        match w with
        | None => OThrow TornState
        | Some w =>
            let! p := olift (decodeSegment w) in
            local_write (sp_documents p) (sp_indexUpdates p) None;;!
            replay rest seqno
        end
  end.

Definition materializeTo (m : manifest) : M unit :=
  let! applied := read (fun s => in_nextSeqno s - 1) in
  let! appliedThrough :=
    match mf_snapshot m with
    | Some (ts, segBase) =>
        if applied <? segBase then
          let! snap := readSnapshot ts in
          match snap with
          | None => OThrow TornState
          | Some p => applySnapshotState p (sn_frontierTs p);;! ORet segBase
          end
        else ORet applied
    | None => ORet applied
    end in
  replay (mf_segments m) appliedThrough;;!
  update (fun s => set_nextSeqno s (mf_nextSeqno m)).

Definition open_ : M unit :=
  let! c := readManifest in
  let! m :=
    match c with
    | Some m => ORet m
    | None =>
        ocatch createManifest (fun e =>
          if isCasConflict e then
            let! c := readManifest in
            match c with Some m => ORet m | None => OThrow e end
          else OThrow e)
    end in
  update (fun s => set_cached s m);;!
  materializeTo m.

(** * The lease *)

Inductive acquired := Acquired | HeldBy (writerId : jsstr) (expiresAt : Z).

(** The lease is live and someone else's. *)
Definition lease_refused (m : manifest) (writerId : jsstr) (now : Z) : bool :=
  negb (bool_decide (mf_writerId m = [])) && (now <=? mf_leaseExpiresAt m) && negb (bool_decide (mf_writerId m = writerId)).

(** The claim: the epoch goes up, and a number the owner before may have
    written to is skipped. *)
Definition claim_manifest (m : manifest) (writerId : jsstr) (expiresAt : Z) : manifest :=
  Manifest (mf_epoch m + 1) (mf_frontierTs m) (mf_tsCounter m) (mf_segments m)
    (if 0 <? mf_epoch m then mf_nextSeqno m + 1 else mf_nextSeqno m) writerId expiresAt (mf_snapshot m).

Definition claimed (s : inst) (next : manifest) (writerId : jsstr) : inst :=
  Inst (in_local s) next (mf_nextSeqno next) false (Some (mf_epoch next, writerId)) (in_sinceSnapshot s).

Definition acquire (writerId : jsstr) (leaseTtlMs now : Z) : M acquired :=
  let! fresh := readManifest in
  match fresh with
  | None => OThrow NoManifest
  | Some m =>
      if lease_refused m writerId now then ORet (HeldBy (mf_writerId m) (mf_leaseExpiresAt m))
      else
        materializeTo m;;!
        let next := claim_manifest m writerId (now + leaseTtlMs) in
        ocatch (casManifest next m;;! update (fun s => claimed s next writerId);;! ORet Acquired) (fun e =>
          if isCasConflict e then
            let! reread := readManifest in
            match reread with
            | None => OThrow e
            | Some m' => ORet (HeldBy (mf_writerId m') (mf_leaseExpiresAt m'))
            end
          else update (fun s => set_poisoned s true);;! OThrow e)
  end.

Definition with_lease (m : manifest) (writerId : jsstr) (expiresAt : Z) : manifest :=
  Manifest (mf_epoch m) (mf_frontierTs m) (mf_tsCounter m) (mf_segments m) (mf_nextSeqno m) writerId expiresAt (mf_snapshot m).

Definition heartbeat (now leaseTtlMs : Z) : M unit :=
  let! m := local (fun s =>
    match in_held s with
    | None => (s, Throw FencedError)
    | Some _ => if in_poisoned s then (s, Throw FencedError) else (s, Ok (in_cached s))
    end) in
  let next := with_lease m (mf_writerId m) (now + leaseTtlMs) in
  ocatch (casManifest next m;;! update (fun s => set_cached s next)) (fun _ =>
    update (fun s => set_held (set_poisoned s true) None);;! OThrow FencedError).

Definition release (s : inst) : inst := set_held s None.

Definition relinquish : M unit :=
  let! c := read (fun s => match in_held s with None => None | Some _ => Some (in_cached s) end) in
  match c with
  | None => ORet tt
  | Some m =>
      let next := with_lease m [] 0 in
      ocatch (casManifest next m;;! update (fun s => set_cached s next)) (fun _ => ORet tt);;!
      update (fun s => set_held s None)
  end.

(** * Commits *)

Definition stamp_unit (ts : Z) (u : commit_unit) : list log_entry * list index_write :=
  (stamp_doc ts <$> cu_documents u, stamp_index ts <$> cu_indexUpdates u).
Fixpoint stamp_units (ts : Z) (us : list commit_unit) : list (list log_entry * list index_write) :=
  match us with [] => [] | u :: us' => stamp_unit ts u :: stamp_units (ts + 1) us' end.
Fixpoint ts_list (ts : Z) (us : list commit_unit) : list Z :=
  match us with [] => [] | _ :: us' => ts :: ts_list (ts + 1) us' end.

Definition segment_of (stamped : list (list log_entry * list index_write)) : segment_payload :=
  SegmentPayload (concat stamped.*1) (concat stamped.*2).

Definition commit_manifest (m : manifest) (epoch maxTs seqno : Z) : manifest :=
  Manifest epoch maxTs maxTs (mf_segments m ++ [seqno]) (seqno + 1) (mf_writerId m) (mf_leaseExpiresAt m) (mf_snapshot m).

(** Everything before the first [await]: whether there is something to commit. *)
Definition commit_checks (units : list commit_unit) (s : inst) : inst * res bool :=
  match in_held s with
  | None => (s, Throw NotLeaseOwner)
  | Some (epoch, _) =>
      match units with
      | [] => (s, Ok false)
      | _ =>
          if in_poisoned s then (s, Throw PoisonedError)
          else if mf_epoch (in_cached s) =? epoch then (s, Ok true)
          else (set_poisoned s true, Throw FencedError)
      end
  end.

Definition commit_fenced (e : js_error) : M unit :=
  if isCasConflict e then update (fun s => set_held (set_poisoned s true) None);;! OThrow FencedError
  else update (fun s => set_poisoned s true);;! OThrow e.

Definition committed_state (next : manifest) (seqno : Z) (s : inst) : inst :=
  Inst (in_local s) next (seqno + 1) (in_poisoned s) (in_held s) (in_sinceSnapshot s + 1).

(** The exclusive part. *)
Definition commit_exclusive (units : list commit_unit) (shardId : option jsstr) : M (list Z) :=
  let! go := local (commit_checks units) in
  if negb go then ORet []
  else
    let! localMax := local_max in
    let! start := read (fun s => (Z.max (mf_tsCounter (in_cached s)) localMax + 1, in_nextSeqno s)) in
    let '(ts, seqno) := start in
    let stamped := stamp_units ts units in
    let tss := ts_list ts units in
    let! body := olift (encodeSegment (segment_of stamped)) in
    request (PutSegment seqno body);;!
    let! mm := local (fun s =>
      match in_held s with
      | None => (s, Throw TypeError)
      | Some (epoch, _) => (s, Ok (in_cached s, commit_manifest (in_cached s) epoch (default 0 (last tss)) seqno))
      end) in
    let '(m, next) := mm in
    ocatch (casManifest next m) commit_fenced;;!
    ocatch (oeach stamped (fun u => local_write u.1 u.2 shardId)) (fun _ =>
      update (fun s => set_poisoned s true);;! OThrow PostCommitApplyFailed);;!
    update (committed_state next seqno);;!
    ORet tss.

(** * Snapshots *)

Definition snapshot_manifest (m : manifest) (segBase : Z) : manifest :=
  Manifest (mf_epoch m) (mf_frontierTs m) (mf_tsCounter m) (base.filter (fun n => segBase < n) (mf_segments m)) (mf_nextSeqno m)
    (mf_writerId m) (mf_leaseExpiresAt m) (Some (mf_frontierTs m, segBase)).

Definition snapshot : M unit :=
  let! go := local (fun s => if in_poisoned s then (s, Throw PoisonedError) else (s, Ok (negb (in_nextSeqno s =? 0)))) in
  if negb go then ORet tt
  else
    let! dump := local_dump in
    let! mn := read (fun s => (in_cached s, in_nextSeqno s)) in
    let '(m, n) := mn in
    let segBase := n - 1 in
    let! w := olift (encodeSnapshot (SnapshotPayload (mf_frontierTs m) segBase dump.1 dump.2)) in
    request (PutSnapshot (mf_frontierTs m) w);;!
    let next := snapshot_manifest m segBase in
    ocatch (casManifest next m;;! update (fun s => set_cached s next)) (fun e =>
      update (fun s => set_poisoned s true);;! OThrow (if isCasConflict e then FencedError else e));;!
    update (fun s => set_since s 0).

Definition maybeSnapshot : M unit :=
  let! go := read (fun s => negb (in_poisoned s) && negb (in_sinceSnapshot s <? SNAPSHOT_EVERY)) in
  if go then snapshot else ORet tt.

(** A snapshot that fails does not fail the commit. *)
Definition commitWriteBatch (units : list commit_unit) (shardId : option jsstr) : M (list Z) :=
  let! tss := commit_exclusive units shardId in
  ocatch maybeSnapshot (fun _ => ORet tt);;!
  ORet tss.

(** * Garbage collection *)

Fixpoint read_watermarks (ids : list jsstr) : M (list Z) :=
  match ids with
  | [] => ORet []
  | id :: ids' =>
      let! w := request (GetConsumer id) in
      let! rest := read_watermarks ids' in
      ORet (match w with None => rest | Some n => n :: rest end)
  end.
Definition readConsumerWatermarks : M (list Z) := let! ids := request ListConsumers in read_watermarks ids.

Definition gc_floor (segBase : Z) (watermarks : list Z) : Z := fold_left Z.min watermarks segBase.

Fixpoint delete_where (doomed : Z -> bool) (op : Z -> oprog inst unit) (keys : list Z) (deleted : Z) : M Z :=
  match keys with
  | [] => ORet deleted
  | k :: keys' => if doomed k then op k;;! delete_where doomed op keys' (deleted + 1) else delete_where doomed op keys' deleted
  end.

Definition gc : M (Z * Z) :=
  let! go := local (fun s => if in_poisoned s then (s, Throw PoisonedError) else (s, Ok (bool_decide (is_Some (in_held s))))) in
  if negb go then ORet (0, 0)
  else
    let! fresh := readManifest in
    match fresh with
    | None => OThrow NoManifest
    | Some m =>
        let! ours := local (fun s =>
          match in_held s with
          | None => (s, Throw TypeError)
          | Some (epoch, _) =>
              if mf_epoch m =? epoch then (set_cached s m, Ok true) else (set_held (set_poisoned s true) None, Ok false)
          end) in
        if negb ours then ORet (0, 0)
        else
          match mf_snapshot m with
          | None => ORet (0, 0)
          | Some (keepSnap, segBase) =>
              let! watermarks := readConsumerWatermarks in
              let floor := gc_floor segBase watermarks in
              let! segKeys := request ListSegments in
              let! deletedSegments := delete_where (fun n => n <=? floor) (fun n => request (DeleteSegment n)) segKeys 0 in
              let! snapKeys := request ListSnapshots in
              let! deletedSnapshots := delete_where (fun ts => ts <? keepSnap) (fun ts => request (DeleteSnapshot ts)) snapKeys 0 in
              ORet (deletedSegments, deletedSnapshots)
          end
    end.

(** * Consumers: consumers.ts *)

Fixpoint publish_attempts (attempts : nat) (id : jsstr) (n : Z) : M unit :=
  match attempts with
  | O => OThrow (PlainError "publishConsumerWatermark exhausted retries")
  | S attempts' =>
      let! existing := request (GetConsumer id) in
      let! ok := ocatch (request (CasConsumer id existing n);;! ORet true) (fun e => if isCasConflict e then ORet false else OThrow e) in
      if ok : bool then ORet tt else publish_attempts attempts' id n
  end.
Definition publishConsumerWatermark (id : jsstr) (appliedSeqno : Z) : M unit := publish_attempts 5 id appliedSeqno.
Definition removeConsumer (id : jsstr) : M unit := request (DeleteConsumer id).
End methods.
