(* ===== verification/ObjectHistory.v ===== *)
(** The history of a shard's manifest.

    Every conditional write of the manifest that succeeds is an [event]; the
    events, newest first, are the history.  The durable log is what they say was
    committed.  [chain] is the discipline the methods of object-doc-store.ts
    follow; this file draws its consequences, for any number of writers. *)
From Stdlib Require Import ZArith Lia Sorted.
From stdpp Require Import base list sets gmap strings.
From S2P Require Import Prelude JsBase JsText DocStore SqliteDocStore ObjectStore ObjectDocStore.

(** * Histories *)

Record event := Event { ev_by : nat; ev_man : manifest; ev_segs : gmap Z wire_segment }.
Notation history := (list event).

Definition current (h : history) : option manifest := ev_man <$> head h.

(** Who first wrote a manifest of an epoch: the owner of the lease. *)
Fixpoint owner (h : history) (e : Z) : option nat :=
  match h with
  | [] => None
  | ev :: h' => match owner h' e with Some i => Some i | None => if mf_epoch (ev_man ev) =? e then Some (ev_by ev) else None end
  end.

(** The last manifest of an epoch. *)
Fixpoint latest (h : history) (e : Z) : option manifest :=
  match h with
  | [] => None
  | ev :: h' => if mf_epoch (ev_man ev) =? e then Some (ev_man ev) else latest h' e
  end.

(** What a commit put into the durable log. *)
Record commit_rec := CommitRec { cr_seqno : Z; cr_ts : Z; cr_body : wire_segment; cr_by : nat; cr_epoch : Z }.

Definition commit_of (before : manifest) (ev : event) : list commit_rec :=
  if mf_tsCounter before <? mf_tsCounter (ev_man ev) then
    match ev_segs ev !! mf_nextSeqno before with
    | Some w => [CommitRec (mf_nextSeqno before) (mf_tsCounter (ev_man ev)) w (ev_by ev) (mf_epoch (ev_man ev))]
    | None => []
    end
  else [].

(** Oldest first. *)
Fixpoint log_of (h : history) : list commit_rec :=
  match h with
  | ev :: h' => match current h' with Some m => log_of h' ++ commit_of m ev | None => [] end
  | [] => []
  end.

(** * The discipline *)

Inductive transition (m : manifest) (ev : event) : Prop :=
  | TClaim w x : ev_man ev = claim_manifest m w x -> transition m ev
  | TLease w x : ev_man ev = with_lease m w x -> transition m ev
  | TCommit maxTs body : ev_man ev = commit_manifest m (mf_epoch m) maxTs (mf_nextSeqno m) ->
      mf_tsCounter m < maxTs -> ev_segs ev !! mf_nextSeqno m = Some body -> transition m ev
  | TSnapshot : ev_man ev = snapshot_manifest m (mf_nextSeqno m - 1) -> mf_nextSeqno m <> 0 -> transition m ev.

(** Only the owner of an epoch writes its manifests; anyone may claim the next. *)
Inductive chain : history -> Prop :=
  | chain_nil : chain []
  | chain_first i segs : chain [Event i emptyManifest segs]
  | chain_next h m ev : chain h -> current h = Some m -> transition m ev ->
      (mf_epoch (ev_man ev) = mf_epoch m -> 0 < mf_epoch m /\ owner h (mf_epoch m) = Some (ev_by ev)) ->
      chain (ev :: h).

Lemma chain_tail ev h : chain (ev :: h) -> chain h.
Proof. inversion 1; subst; [constructor|done]. Qed.

Lemma current_event h m : current h = Some m -> exists ev, ev ∈ h /\ ev_man ev = m.
Proof. destruct h as [|ev h]; [done|]. intros [= <-]. exists ev. split; [left|done]. Qed.

(** What a transition does to the fields that only grow. *)
Lemma transition_grows m ev : transition m ev ->
  (mf_epoch (ev_man ev) = mf_epoch m /\ mf_nextSeqno m <= mf_nextSeqno (ev_man ev) \/
   mf_epoch (ev_man ev) = mf_epoch m + 1 /\ (0 < mf_epoch m -> mf_nextSeqno m < mf_nextSeqno (ev_man ev)) /\ mf_nextSeqno m <= mf_nextSeqno (ev_man ev)) /\
  mf_tsCounter m <= mf_tsCounter (ev_man ev).
Proof.
  intros [w x E|w x E|ts body E Ht _|E _]; rewrite E; cbn; try lia.
  destruct (Z.ltb_spec 0 (mf_epoch m)); lia.
Qed.

Lemma epochs_nonneg h : chain h -> forall ev, ev ∈ h -> 0 <= mf_epoch (ev_man ev) /\ 0 <= mf_nextSeqno (ev_man ev) /\ 0 <= mf_tsCounter (ev_man ev).
Proof.
  induction 1 as [|i segs|h m ev _ IH Hm Ht _]; intros ev' Hin.
  - by apply not_elem_of_nil in Hin.
  - apply list_elem_of_singleton in Hin as ->. done.
  - apply elem_of_cons in Hin as [->|Hin]; [|by apply IH]. destruct (current_event _ _ Hm) as (e0 & He & <-).
    destruct (IH _ He) as (? & ? & ?). destruct (transition_grows _ _ Ht) as [[(-> & ?)|(-> & _ & ?)] ?]; lia.
Qed.

(** Nothing in the history is ahead of its head. *)
Lemma head_ahead h m : chain h -> current h = Some m -> forall ev, ev ∈ h ->
  mf_epoch (ev_man ev) <= mf_epoch m /\ mf_nextSeqno (ev_man ev) <= mf_nextSeqno m /\ mf_tsCounter (ev_man ev) <= mf_tsCounter m /\
  (mf_epoch (ev_man ev) < mf_epoch m -> 0 < mf_epoch (ev_man ev) -> mf_nextSeqno (ev_man ev) < mf_nextSeqno m).
Proof.
  intros Hc. revert m. induction Hc as [|i segs|h m0 ev0 Hc IH Hm Ht _]; intros m Hcur ev Hin.
  - done.
  - injection Hcur as <-. apply list_elem_of_singleton in Hin as ->. cbn. lia.
  - injection Hcur as <-. apply elem_of_cons in Hin as [->|Hin]; [lia|]. destruct (IH m0 Hm ev Hin) as (H1 & H2 & H3 & H4).
    destruct (transition_grows _ _ Ht) as [[(-> & ?)|(-> & H5 & ?)] ?]; split_and!; try lia.
Qed.

Lemma latest_event h e m : latest h e = Some m -> exists ev, ev ∈ h /\ ev_man ev = m /\ mf_epoch m = e.
Proof.
  induction h as [|ev h IH]; cbn [latest]; [done|]. destruct (Z.eqb_spec (mf_epoch (ev_man ev)) e) as [He|_].
  - intros [= <-]. exists ev. split_and!; [left|done|done].
  - intros (ev' & ? & ?)%IH. exists ev'. split; [by right|done].
Qed.
Lemma current_latest h m : current h = Some m -> latest h (mf_epoch m) = Some m.
Proof. destruct h as [|ev h]; [done|]. intros [= <-]. cbn. by rewrite Z.eqb_refl. Qed.

Lemma owner_some h e i : owner h e = Some i -> exists m, latest h e = Some m.
Proof.
  induction h as [|ev h IH]; cbn; [done|]. destruct (Z.eqb_spec (mf_epoch (ev_man ev)) e); [eauto|].
  destruct (owner h e); [|done]. auto.
Qed.
Lemma owner_grows ev h e i : owner h e = Some i -> owner (ev :: h) e = Some i.
Proof. intros H. cbn. by rewrite H. Qed.

(** The manifests of an epoch, after its owner's last, belong to later epochs. *)
Lemma latest_current h e m c : chain h -> latest h e = Some m -> current h = Some c -> mf_epoch c = e -> c = m.
Proof. intros _ Hl Hc <-. apply current_latest in Hc. congruence. Qed.

Lemma latest_behind h e m c : chain h -> 0 < e -> latest h e = Some m -> current h = Some c -> c <> m -> mf_nextSeqno m < mf_nextSeqno c.
Proof.
  intros Hc He Hl Hcur Hne. destruct (latest_event _ _ _ Hl) as (ev & Hin & <- & Hep).
  destruct (head_ahead _ _ Hc Hcur ev Hin) as (H1 & _ & _ & H4). apply H4; [|lia].
  destruct (Z.eq_dec (mf_epoch (ev_man ev)) (mf_epoch c)) as [Heq|]; [|lia].
  exfalso. apply Hne. eapply latest_current; [done|done|done|lia].
Qed.

(** * The durable log *)

Definition base_of (m : manifest) : Z := default (-1) (mf_snapshotSegBase m).

Definition rec_before (a b : commit_rec) : Prop := cr_seqno a < cr_seqno b /\ cr_ts a < cr_ts b /\ cr_epoch a <= cr_epoch b.

Lemma commit_of_claim m ev w x : ev_man ev = claim_manifest m w x -> commit_of m ev = [].
Proof. intros E. unfold commit_of. rewrite E. cbn. by rewrite Z.ltb_irrefl. Qed.
Lemma commit_of_lease m ev w x : ev_man ev = with_lease m w x -> commit_of m ev = [].
Proof. intros E. unfold commit_of. rewrite E. cbn. by rewrite Z.ltb_irrefl. Qed.
Lemma commit_of_snapshot m ev b : ev_man ev = snapshot_manifest m b -> commit_of m ev = [].
Proof. intros E. unfold commit_of. rewrite E. cbn. by rewrite Z.ltb_irrefl. Qed.
Lemma commit_of_commit m ev maxTs body : ev_man ev = commit_manifest m (mf_epoch m) maxTs (mf_nextSeqno m) -> mf_tsCounter m < maxTs ->
  ev_segs ev !! mf_nextSeqno m = Some body -> commit_of m ev = [CommitRec (mf_nextSeqno m) maxTs body (ev_by ev) (mf_epoch m)].
Proof. intros E Ht Hs. unfold commit_of. rewrite E, Hs. cbn. by rewrite (proj2 (Z.ltb_lt _ _)). Qed.

(** What a manifest says about the log before it. *)
Record describes (m : manifest) (log : list commit_rec) : Prop := {
  ds_segments : mf_segments m = base.filter (fun n => base_of m < n) (cr_seqno <$> log);
  ds_below : forall c, c ∈ log -> cr_seqno c < mf_nextSeqno m /\ cr_ts c <= mf_tsCounter m /\ cr_epoch c <= mf_epoch m;
  ds_frontier : mf_frontierTs m = mf_tsCounter m /\ mf_tsCounter m = default 0 (cr_ts <$> last log);
  ds_base : base_of m < mf_nextSeqno m /\ -1 <= base_of m;
  ds_sorted : StronglySorted rec_before log;
  ds_nonneg : forall c, c ∈ log -> 0 <= cr_seqno c
}.

Lemma describes_same m m' log : describes m log -> mf_segments m' = mf_segments m -> mf_snapshot m' = mf_snapshot m ->
  mf_nextSeqno m <= mf_nextSeqno m' -> mf_tsCounter m' = mf_tsCounter m -> mf_frontierTs m' = mf_frontierTs m -> mf_epoch m <= mf_epoch m' ->
  describes m' log.
Proof.
  intros [H1 H2 [H3 H3'] H4 H5 H6] E1 E2 E3 E4 E5 E6. assert (Eb : base_of m' = base_of m) by (unfold base_of, mf_snapshotSegBase; by rewrite E2).
  split; rewrite ?Eb, ?E1, ?E4, ?E5; try done; [|lia]. intros c Hc. destruct (H2 c Hc) as (? & ? & ?). lia.
Qed.

Lemma log_sorted_snoc log c : StronglySorted rec_before log -> (forall x, x ∈ log -> rec_before x c) -> StronglySorted rec_before (log ++ [c]).
Proof.
  induction 1 as [|x log Hs IH Hx]; intros Hc; cbn; [by repeat constructor|]. constructor.
  - apply IH. intros y Hy. apply Hc. by right.
  - apply Forall_app. split; [done|]. constructor; [|done]. apply Hc. left.
Qed.

Lemma describes_commit m log maxTs body i : describes m log -> mf_tsCounter m < maxTs -> 0 <= mf_nextSeqno m ->
  describes (commit_manifest m (mf_epoch m) maxTs (mf_nextSeqno m)) (log ++ [CommitRec (mf_nextSeqno m) maxTs body i (mf_epoch m)]).
Proof.
  intros [H1 H2 [H3 H3'] [H4 H4'] H5 H6] Ht Hn. split.
  - cbn [mf_segments commit_manifest]. unfold base_of in *. cbn [mf_snapshotSegBase mf_snapshot commit_manifest] in *.
    rewrite fmap_app, filter_app, H1. f_equal. cbn. by rewrite decide_True.
  - intros c Hc. apply elem_of_app in Hc as [Hc| ->%list_elem_of_singleton]; cbn; [destruct (H2 c Hc) as (?&?&?)|]; lia.
  - rewrite last_snoc. done.
  - change (base_of (commit_manifest _ _ _ _)) with (base_of m). cbn. lia.
  - apply log_sorted_snoc; [done|]. intros x Hx. destruct (H2 x Hx) as (? & ? & ?). unfold rec_before. cbn. lia.
  - intros c Hc. apply elem_of_app in Hc as [Hc| ->%list_elem_of_singleton]; [by apply H6|done].
Qed.

Lemma describes_snapshot m log : describes m log -> mf_nextSeqno m <> 0 -> 0 <= mf_nextSeqno m ->
  describes (snapshot_manifest m (mf_nextSeqno m - 1)) log.
Proof.
  intros [H1 H2 [H3 H3'] [H4 H4'] H5 H6] Hn Hp. split.
  - cbn [mf_segments snapshot_manifest]. unfold base_of at 1. cbn. rewrite H1, list_filter_filter.
    apply list_filter_iff. intros n. lia.
  - intros c Hc. cbn. by apply H2.
  - done.
  - unfold base_of. cbn. lia.
  - done.
  - done.
Qed.

Lemma log_described h m : chain h -> current h = Some m -> describes m (log_of h).
Proof.
  intros Hc. revert m. induction Hc as [|i segs|h m0 ev Hc IH Hm Ht _]; intros m Hcur.
  - done.
  - injection Hcur as <-. split; cbn; try done; [by intros c ?%not_elem_of_nil|constructor|by intros c ?%not_elem_of_nil].
  - injection Hcur as <-. cbn [log_of]. rewrite Hm. specialize (IH m0 Hm).
    destruct (current_event _ _ Hm) as (e0 & He & Hm0). destruct (epochs_nonneg _ Hc _ He) as (Hep & Hn & _). rewrite Hm0 in Hn, Hep.
    destruct Ht as [w x E|w x E|ts body E Hts Hs|E Hne].
    + rewrite (commit_of_claim _ _ _ _ E), app_nil_r, E. eapply describes_same; [exact IH|done..| | | |]; cbn; try done; try lia.
      destruct (0 <? mf_epoch m0); lia.
    + rewrite (commit_of_lease _ _ _ _ E), app_nil_r, E. eapply describes_same; [exact IH|done..| | | |]; cbn; done || lia.
    + rewrite (commit_of_commit _ _ _ _ E Hts Hs), E. by apply describes_commit.
    + rewrite (commit_of_snapshot _ _ _ E), app_nil_r, E. by apply describes_snapshot.
Qed.

Lemma log_grows ev h c : c ∈ log_of h -> c ∈ log_of (ev :: h).
Proof.
  intros Hc. cbn [log_of]. destruct (current h) as [m|] eqn:E; [apply elem_of_app; by left|].
  destruct h; [by apply not_elem_of_nil in Hc|done].
Qed.

(** * What later manifests keep *)

Lemma transition_described h m ev : chain h -> current h = Some m -> transition m ev ->
  base_of m <= base_of (ev_man ev) /\ mf_frontierTs m <= mf_frontierTs (ev_man ev).
Proof.
  intros Hc Hm Ht. pose proof (log_described _ _ Hc Hm) as [_ _ [Hf _] [Hb _] _ _].
  destruct Ht as [w x E|w x E|ts body E Hts _|E _]; rewrite E; unfold base_of, mf_snapshotSegBase in *; cbn in *; lia.
Qed.

Lemma base_ahead h m : chain h -> current h = Some m -> forall ev, ev ∈ h -> base_of (ev_man ev) <= base_of m /\ mf_frontierTs (ev_man ev) <= mf_frontierTs m.
Proof.
  intros Hc. revert m. induction Hc as [|i segs|h m0 ev0 Hc IH Hm Ht _]; intros m Hcur ev Hin; [done| |]; injection Hcur as <-.
  - by apply list_elem_of_singleton in Hin as ->.
  - apply elem_of_cons in Hin as [->|Hin]; [lia|]. destruct (IH m0 Hm ev Hin). destruct (transition_described _ _ _ Hc Hm Ht). lia.
Qed.

(** The snapshot a manifest refers to is of its past. *)
Lemma snapshot_past h m : chain h -> current h = Some m -> forall ts, mf_snapshotTs m = Some ts -> ts <= mf_frontierTs m.
Proof.
  intros Hc. revert m. induction Hc as [|i segs|h m0 ev0 Hc IH Hm Ht _]; intros m Hcur ts Hts; [done| |]; injection Hcur as <-; [done|].
  destruct (transition_described _ _ _ Hc Hm Ht) as [_ Hf]. specialize (IH m0 Hm).
  destruct Ht as [w x E|w x E|mt body E Hts' _|E _]; rewrite E in *; unfold mf_snapshotTs in *; cbn in *; try (specialize (IH ts Hts); lia). injection Hts as <-. lia.
Qed.

Lemma snapshot_ahead h m : chain h -> current h = Some m -> forall ev ts, ev ∈ h -> mf_snapshotTs (ev_man ev) = Some ts -> ts <= mf_frontierTs m.
Proof.
  intros Hc Hcur ev ts Hin Hts. revert m Hcur.
  induction Hc as [|i segs|h m0 ev0 Hc IH Hm Ht Ho]; intros m Hcur; [done| |]; injection Hcur as <-.
  - by apply list_elem_of_singleton in Hin as ->.
  - apply elem_of_cons in Hin as [->|Hin].
    + eapply (snapshot_past (ev0 :: h)); [by econstructor|done|done].
    + specialize (IH Hin m0 Hm). destruct (transition_described _ _ _ Hc Hm Ht). lia.
Qed.

(** ... and moves forward. *)
Lemma snapshot_forward h m : chain h -> current h = Some m -> forall ev ts, ev ∈ h -> mf_snapshotTs (ev_man ev) = Some ts ->
  exists ts', mf_snapshotTs m = Some ts' /\ ts <= ts'.
Proof.
  intros Hc. revert m. induction Hc as [|i segs|h m0 ev0 Hc IH Hm Ht _]; intros m Hcur ev ts Hin Hts; [done| |]; injection Hcur as <-.
  - by apply list_elem_of_singleton in Hin as ->.
  - apply elem_of_cons in Hin as [->|Hin]; [eauto with lia|]. destruct (IH m0 Hm ev ts Hin Hts) as (ts' & Hts' & Hle).
    destruct Ht as [w x E|w x E|mt body E _ _|E _]; rewrite E; cbn; [by exists ts'..|].
    eexists. split; [done|]. by eapply snapshot_ahead.
Qed.

(** The number an owner writes to next is nobody's commit. *)
Lemma cursor_unused h e m : chain h -> 0 < e -> latest h e = Some m -> forall c, c ∈ log_of h -> cr_seqno c <> mf_nextSeqno m.
Proof.
  intros Hc He. revert m. induction Hc as [|i segs|h m0 ev Hc IH Hm Ht _]; intros m Hl c Hin.
  - done.
  - by apply not_elem_of_nil in Hin.
  - destruct (Z.eq_dec (mf_epoch (ev_man ev)) e) as [Heq|Hne].
    + assert (Hcur : current (ev :: h) = Some (ev_man ev)) by done. cbn [latest] in Hl. rewrite (proj2 (Z.eqb_eq _ _) Heq) in Hl. injection Hl as <-.
      assert (Hchain : chain (ev :: h) -> cr_seqno c < mf_nextSeqno (ev_man ev)).
      { intros Hch. apply (ds_below _ _ (log_described _ _ Hch Hcur) c Hin). }
      destruct Ht as [w x E|w x E|mt body E Hts Hs|E Hn]; cbn [log_of] in Hin; rewrite Hm in Hin.
      all: pose proof (log_described _ _ Hc Hm) as D; destruct D as [_ D _ _ _ _].
      all: apply elem_of_app in Hin as [Hin|Hin]; [destruct (D c Hin) as (D1 & _ & _); clear Hchain; rewrite E; cbn; try (destruct (0 <? mf_epoch m0)); lia|].
      * by rewrite (commit_of_claim _ _ _ _ E), elem_of_nil in Hin.
      * by rewrite (commit_of_lease _ _ _ _ E), elem_of_nil in Hin.
      * rewrite (commit_of_commit _ _ _ _ E Hts Hs) in Hin. apply list_elem_of_singleton in Hin as ->. rewrite E. cbn. lia.
      * by rewrite (commit_of_snapshot _ _ _ E), elem_of_nil in Hin.
    + cbn [latest] in Hl. rewrite (proj2 (Z.eqb_neq _ _) Hne) in Hl. cbn [log_of] in Hin. rewrite Hm in Hin.
      apply elem_of_app in Hin as [Hin|Hin]; [by apply IH|].
      destruct Ht as [w x E|w x E|mt body E Hts Hs|E Hn].
      * by rewrite (commit_of_claim _ _ _ _ E), elem_of_nil in Hin.
      * by rewrite (commit_of_lease _ _ _ _ E), elem_of_nil in Hin.
      * rewrite (commit_of_commit _ _ _ _ E Hts Hs) in Hin. apply list_elem_of_singleton in Hin as ->. cbn.
        assert (mf_nextSeqno m < mf_nextSeqno m0); [|lia]. eapply (latest_behind h e); [done..|].
        intros ->. destruct (latest_event _ _ _ Hl) as (_ & _ & _ & Hep). rewrite E in Hne. done.
      * by rewrite (commit_of_snapshot _ _ _ E), elem_of_nil in Hin.
Qed.

(** Each record was written by the owner of its epoch. *)
Lemma log_owner h c : chain h -> c ∈ log_of h -> 0 < cr_epoch c /\ owner h (cr_epoch c) = Some (cr_by c).
Proof.
  induction 1 as [|i segs|h m ev Hc IH Hm Ht Ho]; [by intros ?%not_elem_of_nil..|]. cbn [log_of]. rewrite Hm. intros Hin.
  assert (Hold : c ∈ log_of h -> 0 < cr_epoch c /\ owner (ev :: h) (cr_epoch c) = Some (cr_by c)).
  { intros Hin'. destruct (IH Hin'). split; [done|by apply owner_grows]. }
  apply elem_of_app in Hin as [Hin|Hin]; [by apply Hold|].
  destruct Ht as [w x E|w x E|mt body E Hts Hs|E Hn].
  - by rewrite (commit_of_claim _ _ _ _ E), elem_of_nil in Hin.
  - by rewrite (commit_of_lease _ _ _ _ E), elem_of_nil in Hin.
  - rewrite (commit_of_commit _ _ _ _ E Hts Hs) in Hin. apply list_elem_of_singleton in Hin as ->. cbn [cr_epoch cr_by].
    destruct Ho as [Hp Ho]; [by rewrite E|]. split; [done|by apply owner_grows].
  - by rewrite (commit_of_snapshot _ _ _ E), elem_of_nil in Hin.
Qed.

(** A commit is of the epoch that is current. *)
Lemma log_new ev h m c : chain (ev :: h) -> current h = Some m -> c ∈ log_of (ev :: h) -> c ∈ log_of h \/ cr_epoch c = mf_epoch (ev_man ev).
Proof.
  intros Hc Hm Hin. cbn [log_of] in Hin. rewrite Hm in Hin. apply elem_of_app in Hin as [Hin|Hin]; [by left|right].
  unfold commit_of in Hin. destruct (_ <? _); [|by apply not_elem_of_nil in Hin]. destruct (_ !! _); [|by apply not_elem_of_nil in Hin].
  by apply list_elem_of_singleton in Hin as ->.
Qed.
