(* ===== verification/ObjectWp.v ===== *)
(** Rely and guarantee for the writers of one shard.

    [move i] is what writer [i] may do to the bucket and to the history of its
    manifest; [Inv] is kept by every move.  [wp] verifies a method of one object
    under any interleaving of the moves of the others, of its own harmless
    requests and of [release].

    A program logic for the methods of object-doc-store.ts.

    [wp i p Q E] holds of a state from which program [p] of writer [i] makes
    only moves it may make, under any interference, and ends in [Q] or, when it
    throws, in [E]. *)
From Stdlib Require Import ZArith Lia Sorted.
From stdpp Require Import base list sets gmap strings relations.
From S2P Require Import Prelude JsBase JsText DocStore SqliteDocStore ObjectStore ObjectDocStore ObjectHistory.

(** * The shared state *)

Notation gst := (bucket * history)%type.

Definition segments_of (g : gst) := bk_segments g.1.
Definition write (i : nat) (next : manifest) (g : gst) : gst := (with_manifest g.1 next, Event i next (segments_of g) :: g.2).

(** A request, with the event it makes. *)
Definition history_step (i : nat) (op : os_op) (oc : outcome) (g : gst) : history :=
  match op, oc with
  | CasManifest old next, (Delivered | AnswerLost) =>
      if bool_decide (bk_manifest g.1 = old) then Event i next (segments_of g) :: g.2 else g.2
  | _, _ => g.2
  end.
Definition gstep (i : nat) (op : os_op) (oc : outcome) (g : gst) : gst := ((os_run op oc g.1).1, history_step i op oc g).

(** Nothing that matters changed. *)
Record calm (g g' : gst) : Prop := {
  calm_history : g'.2 = g.2;
  calm_manifest : bk_manifest g'.1 = bk_manifest g.1;
  calm_segments : segments_of g' = segments_of g;
  calm_snapshots ts : is_Some (bk_snapshots g.1 !! ts) -> is_Some (bk_snapshots g'.1 !! ts)
}.

Definition benign (op : os_op) : bool :=
  match op with CasManifest _ _ | PutSegment _ _ | DeleteSegment _ | DeleteSnapshot _ => false | _ => true end.

Lemma calm_refl g : calm g g.
Proof. by split. Qed.

Lemma put_first_some {V} (m : gmap Z V) k v k' : is_Some (m !! k') -> put_first m k v !! k' = m !! k'.
Proof. intros [x Hx]. unfold put_first. destruct (m !! k) eqn:E; [done|]. by rewrite lookup_insert_ne by congruence. Qed.
Lemma put_first_ne {V} (m : gmap Z V) k v k' : k' <> k -> put_first m k v !! k' = m !! k'.
Proof. intros H. unfold put_first. destruct (m !! k); [done|]. by rewrite lookup_insert_ne. Qed.
Lemma put_first_none {V} (m : gmap Z V) k v : m !! k = None -> put_first m k v !! k = Some v.
Proof. intros H. unfold put_first. rewrite H. apply lookup_insert_eq. Qed.

Lemma benign_calm i op oc g : benign op -> calm g (gstep i op oc g).
Proof.
  destruct g as [b h], op, oc; try done; intros _; unfold gstep, history_step; cbn -[bool_decide];
    try (destruct (bool_decide _)); split; cbn; try done; intros ts' H; by rewrite put_first_some.
Qed.

Inductive move (i : nat) (g : gst) : gst -> Prop :=
  | MCalm g' : calm g g' -> move i g g'
  | MSegment e m w : 0 < e -> owner g.2 e = Some i -> latest g.2 e = Some m ->
      move i g (with_segments g.1 (put_first (segments_of g) (mf_nextSeqno m) w), g.2)
  | MDropSegment ev n : ev ∈ g.2 -> n <= base_of (ev_man ev) -> move i g (with_segments g.1 (delete n (segments_of g)), g.2)
  | MDropSnapshot ev ts keep : ev ∈ g.2 -> mf_snapshotTs (ev_man ev) = Some keep -> ts < keep ->
      move i g (with_snapshots g.1 (delete ts (bk_snapshots g.1)), g.2)
  | MWrite next : chain (Event i next (segments_of g) :: g.2) ->
      (forall ts, mf_snapshotTs next = Some ts -> is_Some (bk_snapshots g.1 !! ts)) -> move i g (write i next g).

Record Inv (g : gst) : Prop := {
  inv_chain : chain g.2;
  inv_manifest : bk_manifest g.1 = current g.2;
  inv_segments n w : segments_of g !! n = Some w -> exists m, current g.2 = Some m /\ n <= mf_nextSeqno m /\ 0 < mf_epoch m;
  inv_log c m : c ∈ log_of g.2 -> current g.2 = Some m -> base_of m < cr_seqno c -> segments_of g !! cr_seqno c = Some (cr_body c);
  inv_snapshot m ts : current g.2 = Some m -> mf_snapshotTs m = Some ts -> is_Some (bk_snapshots g.1 !! ts)
}.

Lemma Inv_empty : Inv (bucket_empty, []).
Proof. split; [constructor|done|intros n w ?; by exfalso|intros c m ?; by apply not_elem_of_nil in H|done]. Qed.

Lemma chain_current ev h : chain (ev :: h) -> h = [] /\ ev_man ev = emptyManifest \/
  exists m, current h = Some m /\ transition m ev /\ (mf_epoch (ev_man ev) = mf_epoch m -> 0 < mf_epoch m /\ owner h (mf_epoch m) = Some (ev_by ev)).
Proof. inversion 1; subst; [by left|right; eauto]. Qed.

(** What a new event adds to the log is in the bucket. *)
Lemma log_step ev h c : chain (ev :: h) -> c ∈ log_of (ev :: h) -> c ∈ log_of h \/ ev_segs ev !! cr_seqno c = Some (cr_body c).
Proof.
  intros Hc Hin. destruct (chain_current _ _ Hc) as [[-> _]|(m & Hm & _ & _)]; cbn [log_of] in Hin; [by apply not_elem_of_nil in Hin|].
  rewrite Hm in Hin. apply elem_of_app in Hin as [Hin|Hin]; [by left|right]. unfold commit_of in Hin.
  destruct (_ <? _); [|by apply not_elem_of_nil in Hin]. destruct (_ !! _) as [w|] eqn:E; [|by apply not_elem_of_nil in Hin].
  by apply list_elem_of_singleton in Hin as ->.
Qed.

Lemma move_Inv i g g' : Inv g -> move i g g' -> Inv g'.
Proof.
  intros [I1 I2 I3 I4 I5] [g1 [C1 C2 C3 C4]|e m w He Ho Hl|ev n Hev Hn|ev ts keep Hev Hk Hts|next Hch Hsn].
  - split; rewrite ?C1, ?C2, ?C3; eauto.
  - split; cbn; try done.
    + intros n w'. unfold segments_of; cbn. destruct (decide (n = mf_nextSeqno m)) as [->|Hne].
      * intros _. destruct (latest_event _ _ _ Hl) as (ev & Hin & <- & Hep). destruct (current g.2) as [c|] eqn:Hc.
        -- exists c. split; [done|]. destruct (head_ahead _ _ I1 Hc _ Hin) as (? & ? & _ & _). lia.
        -- destruct g.2; [by apply not_elem_of_nil in Hin|done].
      * rewrite put_first_ne by done. apply I3.
    + intros c m' Hin Hm Hb. unfold segments_of; cbn. rewrite put_first_ne; [eauto|]. by eapply cursor_unused.
  - split; cbn; try done.
    + intros n' w'. unfold segments_of; cbn. rewrite lookup_delete_Some. intros [_ ?]. eauto.
    + intros c m' Hin Hm Hb. unfold segments_of; cbn. rewrite lookup_delete_ne; [eauto|]. destruct (base_ahead _ _ I1 Hm _ Hev). lia.
  - split; cbn; try done. intros m ts' Hm Hts'. rewrite lookup_delete_ne; [eauto|].
    destruct (snapshot_forward _ _ I1 Hm _ _ Hev Hk) as (t & ? & ?). assert (t = ts') as -> by congruence. lia.
  - split; cbn; try done.
    + intros n w Hw. eexists. split; [done|]. destruct (I3 n w Hw) as (m & Hm & Hle & Hep).
      destruct (chain_current _ _ Hch) as [[Hnil _]|(m' & Hm' & Ht & _)]; [by rewrite Hnil in Hm|]. assert (m' = m) as -> by congruence.
      destruct (transition_grows _ _ Ht) as [[(E & ?)|(E & _ & ?)] _]; cbn in *; lia.
    + intros c m Hin [= <-] Hb. destruct (log_step _ _ _ Hch Hin) as [Hin'|]; [|done].
      destruct (chain_current _ _ Hch) as [[Hnil _]|(m' & Hm' & Ht & _)]; [rewrite Hnil in Hin'; by apply not_elem_of_nil in Hin'|].
      eapply I4; [done..|]. destruct (transition_described _ _ _ I1 Hm' Ht). cbn in *. lia.
    + intros m ts [= <-]. apply Hsn.
Qed.

(** Facts that no move spoils. *)
Definition lasting (P : gst -> Prop) : Prop := forall j g g', move j g g' -> P g -> P g'.

Lemma logged_lasting c : lasting (fun g => c ∈ log_of g.2).
Proof. intros j g g' [g1 [C1 _ _ _]|? ? ? ? ? ?|? ? ? ?|? ? ? ? ? ?|next _ _]; cbn; rewrite ?C1; try done. intros Hc. by apply log_grows. Qed.
Lemma event_lasting m : lasting (fun g => exists ev, ev ∈ g.2 /\ ev_man ev = m).
Proof.
  intros j g g' [g1 [C1 _ _ _]|? ? ? ? ? ?|? ? ? ?|? ? ? ? ? ?|next _ _]; cbn; rewrite ?C1; try done.
  intros (ev & Hin & Hev). exists ev. split; [by right|done].
Qed.

(** * Interference *)

Section writer.
Context (i : nat).

(** A step of the others, or one of [i]'s own that changes nothing, or a
    [release]. *)
Inductive drift : gst * inst -> gst * inst -> Prop :=
  | drift_other j g g' s : j <> i -> Inv g -> move j g g' -> drift (g, s) (g', s)
  | drift_calm g g' s : Inv g -> calm g g' -> drift (g, s) (g', s)
  | drift_release g s : drift (g, s) (g, release s).
Notation rely := (rtc drift).

(** A fact about the shared state that no interference spoils. *)
Definition stable (P : gst -> Prop) : Prop := forall x y, drift x y -> P x.1 -> P y.1.

Lemma stable_rely P g s g' s' : stable P -> rely (g, s) (g', s') -> P g -> P g'.
Proof. intros HP Hr. change (P (g, s).1 -> P (g', s').1). induction Hr as [|x y z Hxy _ IH]; [done|]. intros ?. apply IH. by eapply HP. Qed.
Lemma stable_and P Q : stable P -> stable Q -> stable (fun g => P g /\ Q g).
Proof. intros HP HQ x y Hd [? ?]. split; [by eapply HP|by eapply HQ]. Qed.

Lemma Inv_stable : stable Inv.
Proof. intros x y [j g g' s _ HI Hm|g g' s HI Hc|g s]; cbn; [intros _; by eapply move_Inv|intros _; eapply (move_Inv 0); [done|by constructor]|done]. Qed.

Lemma lasting_stable P : lasting P -> stable P.
Proof. intros HP x y [j g g' s _ _ Hm|g g' s _ Hc|g s]; cbn; [by eapply HP|by apply (HP 0%nat _ _ (MCalm _ _ _ Hc))|done]. Qed.

(** The state of the object itself is only touched by [release]. *)
Lemma rely_inst x y : rely x y -> y.2 = x.2 \/ y.2 = release x.2.
Proof.
  induction 1 as [|x y z Hd _ IH]; [by left|]. destruct Hd as [j g g' s _ _ _|g g' s _ _|g s]; cbn in *; [done..|].
  right. destruct IH as [->| ->]; done.
Qed.

Lemma drift_held x y : drift x y -> in_held y.2 = in_held x.2 \/ in_held y.2 = None.
Proof. intros [j g g' s _ _ _|g g' s _ _|g s]; cbn; auto. Qed.

(** [i] owns epoch [e], whose last manifest is [m]. *)
Record tenure (e : Z) (m : manifest) (g : gst) : Prop := {
  tn_epoch : 0 < e; tn_owner : owner g.2 e = Some i; tn_latest : latest g.2 e = Some m }.

Lemma tenure_mf e m g : tenure e m g -> mf_epoch m = e.
Proof. intros [_ _ Hl]. by destruct (latest_event _ _ _ Hl) as (_ & _ & _ & ?). Qed.

Definition owned (e : Z) (g : gst) : Prop := 0 < e /\ owner g.2 e = Some i.

(** While [m] is still the manifest: *)
Definition meanwhile (m : manifest) (P : bucket -> Prop) (g : gst) : Prop := current g.2 = Some m -> P g.1.
Definition slot_free (m : manifest) : gst -> Prop := meanwhile m (fun b => bk_segments b !! mf_nextSeqno m = None).
Definition slot_holds (m : manifest) (w : wire_segment) : gst -> Prop := meanwhile m (fun b => bk_segments b !! mf_nextSeqno m = Some w).
Definition snapped (m : manifest) : gst -> Prop := meanwhile m (fun b => is_Some (bk_snapshots b !! mf_frontierTs m)).

Lemma write_other_epoch j ev g e : j <> i -> Inv g -> chain (ev :: g.2) -> ev_by ev = j -> owner g.2 e = Some i -> mf_epoch (ev_man ev) <> e.
Proof.
  intros Hj HI Hch Hby Ho He. destruct (owner_some _ _ _ Ho) as [m Hl]. destruct (latest_event _ _ _ Hl) as (ev' & Hin & <- & Hep).
  destruct (chain_current _ _ Hch) as [[Hnil _]|(m0 & Hm0 & Ht & Hown)]; [rewrite Hnil in Hin; by apply not_elem_of_nil in Hin|].
  destruct (head_ahead _ _ (inv_chain _ HI) Hm0 _ Hin) as (Hle & _).
  destruct (transition_grows _ _ Ht) as [[(E & _)|(E & _)] _]; [|lia]. destruct (Hown E) as [_ Hown']. assert (mf_epoch m0 = e) as Heq by lia.
  rewrite Heq in Hown'. congruence.
Qed.

Lemma owned_stable e : stable (owned e).
Proof.
  intros x y [j g g' s Hj HI Hm|g g' s HI Hc|g s]; cbn; [| |done]; intros [He Ho]; (split; [done|]).
  - destruct Hm as [g' [C1 _ _ _]|? ? ? ? ? ?|? ? ? ?|? ? ? ? ? ?|next Hch _]; cbn; rewrite ?C1; try done. by rewrite Ho.
  - destruct Hc as [-> _ _ _]. done.
Qed.

Lemma tenure_stable e m : stable (tenure e m).
Proof.
  intros x y Hd [He Ho Hl]. destruct (owned_stable e _ _ Hd) as [_ Ho']; [done|]. split; [done..|].
  destruct Hd as [j g g' s Hj HI Hm|g g' s HI Hc|g s]; cbn in *; [| |done].
  - destruct Hm as [g' [C1 _ _ _]|? ? ? ? ? ?|? ? ? ?|? ? ? ? ? ?|next Hch _]; cbn; rewrite ?C1; try done.
    rewrite (proj2 (Z.eqb_neq _ _)); [done|]. by apply (write_other_epoch j (Event j next (segments_of g)) g).
  - destruct Hc as [-> _ _ _]. done.
Qed.

(** What the current owner does is its own affair. *)
Lemma meanwhile_stable e m P :
  (forall b b', bk_segments b' = bk_segments b -> (forall ts, is_Some (bk_snapshots b !! ts) -> is_Some (bk_snapshots b' !! ts)) -> P b -> P b') ->
  (forall b n w, n <> mf_nextSeqno m -> P b -> P (with_segments b (put_first (bk_segments b) n w))) ->
  (forall b n, n < mf_nextSeqno m -> P b -> P (with_segments b (delete n (bk_segments b)))) ->
  (forall b ts, ts < mf_frontierTs m -> P b -> P (with_snapshots b (delete ts (bk_snapshots b)))) ->
  stable (fun g => tenure e m g /\ meanwhile m P g).
Proof.
  intros P1 P2 P3 P4 x y Hd [HT HP]. pose proof (tenure_stable e m _ _ Hd HT) as HT'. split; [done|].
  destruct Hd as [j g g' s Hj HI Hm|g g' s HI [C1 C2 C3 C4]|g s]; cbn in *; [| |done].
  - destruct HT as [He Ho Hl]. unfold meanwhile in *.
    destruct Hm as [g' [C1 C2 C3 C4]|e' m' w He' Ho' Hl'|ev n Hev Hn|ev ts keep Hev Hk Hts|next Hch _]; cbn; intros Hcur.
    + rewrite C1 in Hcur. eapply P1; [exact C3|exact C4|]. by apply HP.
    + apply P2; [|by apply HP]. assert (e' <> e) by congruence. destruct (latest_event _ _ _ Hl') as (ev' & Hin & <- & Hep).
      destruct (head_ahead _ _ (inv_chain _ HI) Hcur _ Hin) as (Hle & _ & _ & Hlt).
      destruct (latest_event _ _ _ Hl) as (_ & _ & _ & Hep'). assert (mf_nextSeqno (ev_man ev') < mf_nextSeqno m); [|lia]. apply Hlt; lia.
    + apply P3; [|by apply HP]. destruct (base_ahead _ _ (inv_chain _ HI) Hcur _ Hev).
      destruct (log_described _ _ (inv_chain _ HI) Hcur) as [_ _ _ [? _] _ _]. lia.
    + apply P4; [|by apply HP]. pose proof (snapshot_ahead _ _ (inv_chain _ HI) Hcur _ _ Hev Hk). lia.
    + injection Hcur as ->. exfalso. destruct (latest_event _ _ _ Hl) as (_ & _ & _ & Hep).
      by apply (write_other_epoch j (Event j m (segments_of g)) g e).
  - unfold meanwhile in *. rewrite C1. intros Hcur. eapply P1; [exact C3|exact C4|]. by apply HP.
Qed.

Lemma slot_free_stable e m : stable (fun g => tenure e m g /\ slot_free m g).
Proof.
  apply meanwhile_stable; cbn.
  - by intros b b' ->.
  - intros b n w Hn H. by rewrite put_first_ne.
  - intros b n Hn H. rewrite lookup_delete_ne by lia. done.
  - done.
Qed.
Lemma slot_holds_stable e m w : stable (fun g => tenure e m g /\ slot_holds m w g).
Proof.
  apply meanwhile_stable; cbn.
  - by intros b b' ->.
  - intros b n w' Hn H. by rewrite put_first_ne.
  - intros b n Hn H. rewrite lookup_delete_ne by lia. done.
  - done.
Qed.
Lemma snapped_stable e m : stable (fun g => tenure e m g /\ snapped m g).
Proof.
  apply meanwhile_stable; cbn.
  - intros b b' _ H. apply H.
  - done.
  - done.
  - intros b ts Hts H. rewrite lookup_delete_ne by lia. done.
Qed.
End writer.
Notation rely i := (rtc (drift i)).

(** The bucket tells whether an immutable write was carried out. *)
Definition careful (op : os_op) (oc : outcome) : bool :=
  match op, oc with PutSegment _ _, AnswerLost => false | _, _ => true end.

Section wp.
Context (i : nat).
Notation assertion := (gst -> inst -> Prop).

Fixpoint wp {A} (p : oprog inst A) (Q : A -> assertion) (E : js_error -> assertion) (g : gst) (s : inst) : Prop :=
  match p with
  | ORet a => forall g1 s1, rely i (g, s) (g1, s1) -> Inv g1 -> Q a g1 s1
  | OThrow e => forall g1 s1, rely i (g, s) (g1, s1) -> Inv g1 -> E e g1 s1
  | OVis op k => forall g1 s1, rely i (g, s) (g1, s1) -> Inv g1 -> forall oc, careful op oc ->
      move i g1 (gstep i op oc g1) /\ wp (k (os_run op oc g1.1).2) Q E (gstep i op oc g1) s1
  | OState X f k => forall g1 s1, rely i (g, s) (g1, s1) -> Inv g1 -> wp (k (f s1).2) Q E g1 (f s1).1
  end.

Lemma wp_rely {A} (p : oprog inst A) Q E g s g' s' : wp p Q E g s -> rely i (g, s) (g', s') -> wp p Q E g' s'.
Proof. destruct p; cbn; intros H Hr g1 s1 Hr1; apply H; by etrans. Qed.

Lemma wp_mono {A} (p : oprog inst A) (Q Q' : A -> assertion) (E E' : js_error -> assertion) :
  (forall a g s, Inv g -> Q a g s -> Q' a g s) -> (forall e g s, Inv g -> E e g s -> E' e g s) ->
  forall g s, wp p Q E g s -> wp p Q' E' g s.
Proof.
  intros HQ HE. induction p as [a|e|op k IH|X f k IH]; cbn; intros g s H g1 s1 Hr HI.
  - by apply HQ, H.
  - by apply HE, H.
  - intros oc Hoc. destruct (H g1 s1 Hr HI oc Hoc) as [Hm Hk]. split; [done|]. by apply IH.
  - apply IH. by apply H.
Qed.

Lemma wp_bind {A B} (p : oprog inst A) (f : A -> oprog inst B) (Q : B -> assertion) E g s :
  Inv g -> wp p (fun a => wp (f a) Q E) E g s -> wp (obind p f) Q E g s.
Proof.
  revert g s. induction p as [a|e|op k IH|X h k IH]; cbn; intros g s HI H.
  - by apply H.
  - done.
  - intros g1 s1 Hr HI1 oc Hoc. destruct (H g1 s1 Hr HI1 oc Hoc) as [Hm Hk]. split; [done|]. apply IH; [by eapply move_Inv|done].
  - intros g1 s1 Hr HI1. apply IH; [done|]. by apply H.
Qed.

Lemma wp_catch {A} (p : oprog inst A) (h : js_error -> oprog inst A) (Q : A -> assertion) E g s :
  Inv g -> wp p Q (fun e => wp (h e) Q E) g s -> wp (ocatch p h) Q E g s.
Proof.
  revert g s. induction p as [a|e|op k IH|X f k IH]; cbn; intros g s HI H.
  - done.
  - by apply H.
  - intros g1 s1 Hr HI1 oc Hoc. destruct (H g1 s1 Hr HI1 oc Hoc) as [Hm Hk]. split; [done|]. apply IH; [by eapply move_Inv|done].
  - intros g1 s1 Hr HI1. apply IH; [done|]. by apply H.
Qed.

(** * Assertions interference cannot spoil *)

Definition robust (P : assertion) : Prop := forall x y, drift i x y -> P x.1 x.2 -> P y.1 y.2.

Lemma robust_rely P g s g' s' : robust P -> rely i (g, s) (g', s') -> P g s -> P g' s'.
Proof.
  intros HP Hr. change (P (g, s).1 (g, s).2 -> P (g', s').1 (g', s').2). induction Hr as [|x y z Hxy _ IH]; [done|].
  intros ?. apply IH. by eapply HP.
Qed.
Lemma robust_and P Q : robust P -> robust Q -> robust (fun g s => P g s /\ Q g s).
Proof. intros HP HQ x y Hd [? ?]. split; [by eapply HP|by eapply HQ]. Qed.
Lemma robust_stable (P : gst -> Prop) : stable i P -> robust (fun g _ => P g).
Proof. intros HP x y Hd. by apply HP. Qed.
Lemma robust_inst (P : inst -> Prop) : (forall s, P s -> P (release s)) -> robust (fun _ s => P s).
Proof. intros HP x y [j g g' s _ _ _|g g' s _ _|g s]; cbn; auto. Qed.
Lemma robust_const (P : Prop) : robust (fun _ _ => P).
Proof. by intros x y _. Qed.

Lemma wp_ret {A} (a : A) (Q : A -> assertion) E g s : robust (Q a) -> Q a g s -> wp (ORet a) Q E g s.
Proof. intros HR H g1 s1 Hr _. by eapply robust_rely. Qed.
Lemma wp_throw {A} e (Q : A -> assertion) E g s : robust (E e) -> E e g s -> wp (OThrow e) Q E g s.
Proof. intros HR H g1 s1 Hr _. by eapply robust_rely. Qed.

(** A request that changes nothing. *)
Lemma wp_benign {A} (P : assertion) op (k : res (os_answer op) -> oprog inst A) Q E g s :
  benign op -> robust P -> P g s ->
  (forall r g1 s1, Inv g1 -> P g1 s1 -> wp (k r) Q E g1 s1) -> wp (OVis op k) Q E g s.
Proof.
  intros Hb HP H Hk g1 s1 Hr HI oc _. pose proof (benign_calm i op oc g1 Hb) as Hc. split; [by constructor|].
  assert (drift i (g1, s1) (gstep i op oc g1, s1)) as Hd by by constructor.
  apply Hk; [by apply (Inv_stable i _ _ Hd)|]. apply (HP _ _ Hd). by apply (robust_rely P g s g1 s1 HP).
Qed.

(** A program of such requests, and of steps that keep [P]. *)
Fixpoint quiet {A} (P : inst -> Prop) (p : oprog inst A) : Prop :=
  match p with
  | ORet _ | OThrow _ => True
  | OVis op k => benign op /\ forall r, quiet P (k r)
  | OState X f k => (forall s, P s -> P (f s).1) /\ forall x, quiet P (k x)
  end.

Lemma oquiet_bind {A B} P (p : oprog inst A) (f : A -> oprog inst B) : quiet P p -> (forall a, quiet P (f a)) -> quiet P (obind p f).
Proof. intros Hp Hf. induction p as [a|e|op k IH|X h k IH]; cbn in *; [done|done| |]; destruct Hp; split; auto. Qed.
Lemma oquiet_catch {A} P (p : oprog inst A) (h : js_error -> oprog inst A) : quiet P p -> (forall e, quiet P (h e)) -> quiet P (ocatch p h).
Proof. intros Hp Hf. induction p as [a|e|op k IH|X g k IH]; cbn in *; [done|done| |]; destruct Hp; split; auto. Qed.
Lemma oquiet_lift {A} P (r : res A) : quiet P (olift (I := inst) r).
Proof. by destruct r. Qed.

Lemma wp_quiet {A} (G : gst -> Prop) (P : inst -> Prop) (p : oprog inst A) :
  stable i G -> (forall s, P s -> P (release s)) -> quiet P p ->
  forall g s, G g -> P s -> wp p (fun _ g s => G g /\ P s) (fun _ g s => G g /\ P s) g s.
Proof.
  intros HG HP. assert (HR : robust (fun g s => G g /\ P s)).
  { apply robust_and; [by apply robust_stable|by apply robust_inst]. }
  induction p as [a|e|op k IH|X f k IH]; intros Hq g s Hg Hs.
  - by apply wp_ret.
  - by apply wp_throw.
  - destruct Hq as [Hb Hq]. apply (wp_benign (fun g s => G g /\ P s)); [done..|]. intros r g1 s1 _ [? ?]. by apply IH.
  - destruct Hq as [Hf Hq]. intros g1 s1 Hr HI. destruct (robust_rely _ _ _ _ _ HR Hr (conj Hg Hs)). apply IH; auto.
Qed.

Lemma wp_lift {A} (r : res A) (Q : A -> assertion) E g s :
  (forall a, r = Ok a -> robust (Q a) /\ Q a g s) -> (forall e, r = Throw e -> robust (E e) /\ E e g s) -> wp (olift r) Q E g s.
Proof. intros HQ HE. destruct r as [a|e]; [destruct (HQ a eq_refl); by apply wp_ret|destruct (HE e eq_refl); by apply wp_throw]. Qed.

Lemma wp_local {X} (f : inst -> inst * res X) (Q : X -> assertion) E g s :
  (forall g1 s1, rely i (g, s) (g1, s1) -> Inv g1 ->
     match (f s1).2 with Ok a => robust (Q a) /\ Q a g1 (f s1).1 | Throw e => robust (E e) /\ E e g1 (f s1).1 end) ->
  wp (local f) Q E g s.
Proof. intros H g1 s1 Hr HI. specialize (H g1 s1 Hr HI). apply wp_lift; intros x Hx; by rewrite Hx in H. Qed.
Lemma wp_update (f : inst -> inst) (Q : unit -> assertion) E g s :
  robust (Q tt) -> (forall g1 s1, rely i (g, s) (g1, s1) -> Inv g1 -> Q tt g1 (f s1)) -> wp (update f) Q E g s.
Proof. intros HR H g1 s1 Hr HI. apply wp_ret; [done|]. by apply H. Qed.
Lemma wp_read {X} (f : inst -> X) (Q : X -> assertion) E g s :
  (forall g1 s1, rely i (g, s) (g1, s1) -> Inv g1 -> robust (Q (f s1)) /\ Q (f s1) g1 s1) -> wp (read f) Q E g s.
Proof. intros H g1 s1 Hr HI. destruct (H g1 s1 Hr HI). by apply wp_ret. Qed.

(** What lasts is still there at the end. *)
Lemma wp_frame {A} (F : gst -> Prop) (p : oprog inst A) Q E g s : lasting F -> F g -> wp p Q E g s ->
  wp p (fun a g s => F g /\ Q a g s) (fun e g s => F g /\ E e g s) g s.
Proof.
  intros HF. assert (HS : robust (fun g _ => F g)) by by apply robust_stable, lasting_stable.
  revert g s. induction p as [a|e|op k IH|X f k IH]; cbn; intros g s Hg H g1 s1 Hr HI; pose proof (robust_rely _ _ _ _ _ HS Hr Hg) as Hg1.
  - split; [done|by apply H].
  - split; [done|by apply H].
  - intros oc Hoc. destruct (H g1 s1 Hr HI oc Hoc) as [Hm Hk]. split; [done|]. apply IH; [by eapply HF|done].
  - apply IH; [done|]. by apply H.
Qed.

(** * Requests *)

Lemma wp_readManifest (P : assertion) (Q : option manifest -> assertion) E g s :
  robust P -> P g s ->
  (forall g1 s1, Inv g1 -> P g1 s1 -> robust (Q (current g1.2)) /\ Q (current g1.2) g1 s1) ->
  (forall g1 s1, Inv g1 -> P g1 s1 -> robust (E NetworkError) /\ E NetworkError g1 s1) -> wp readManifest Q E g s.
Proof.
  intros HP H HQ HE g1 s1 Hr HI oc _. pose proof (benign_calm i GetManifest oc g1 I) as Hc. split; [by constructor|].
  assert (drift i (g1, s1) (gstep i GetManifest oc g1, s1)) as Hd by by constructor.
  pose proof (Inv_stable i _ _ Hd HI) as HI'. pose proof (HP _ _ Hd (robust_rely P g s g1 s1 HP Hr H)) as HP'. cbn in HI', HP'.
  destruct oc; cbn.
  - rewrite (inv_manifest _ HI). destruct (HQ _ _ HI' HP'). by apply wp_ret.
  - destruct (HE _ _ HI' HP'). by apply (wp_throw (A := option manifest)).
  - destruct (HE _ _ HI' HP'). by apply (wp_throw (A := option manifest)).
Qed.

(** A conditional write of the manifest, from what was read. *)
Lemma wp_cas (P : assertion) next old (Q : unit -> assertion) (E : js_error -> assertion) g s :
  robust P -> P g s ->
  (forall g1 s1, Inv g1 -> P g1 s1 -> forall e, robust (E e) /\ E e g1 s1) ->
  (forall g1 s1, Inv g1 -> P g1 s1 -> current g1.2 = old ->
     chain (Event i next (segments_of g1) :: g1.2) /\
     (forall ts, mf_snapshotTs next = Some ts -> is_Some (bk_snapshots g1.1 !! ts)) /\
     (Inv (write i next g1) -> robust (Q tt) /\ Q tt (write i next g1) s1 /\ E NetworkError (write i next g1) s1)) ->
  wp (request (CasManifest old next)) Q E g s.
Proof.
  intros HP H HE HQ g1 s1 Hr HI oc _. pose proof (robust_rely P g s g1 s1 HP Hr H) as HP1.
  assert (Hmiss : bk_manifest g1.1 <> old -> forall e, move i g1 g1 /\ wp (OThrow e) Q E g1 s1).
  { intros _ e. split; [constructor; apply calm_refl|]. destruct (HE g1 s1 HI HP1 e). by apply (wp_throw (A := unit)). }
  assert (Hhit : bk_manifest g1.1 = old -> move i g1 (write i next g1) /\ wp (ORet tt) Q E (write i next g1) s1 /\ wp (OThrow NetworkError) Q E (write i next g1) s1).
  { intros Hm. rewrite (inv_manifest _ HI) in Hm. destruct (HQ g1 s1 HI HP1 Hm) as (Hch & Hsn & Hpost).
    assert (Hmove : move i g1 (write i next g1)) by by constructor. destruct (Hpost (move_Inv _ _ _ HI Hmove)) as (HR & Hq & He).
    split_and!; [done|by apply wp_ret|]. apply (wp_throw (A := unit)); [|done]. by apply (HE g1 s1 HI HP1). }
  destruct g1 as [b h]. unfold gstep, history_step, segments_of; cbn -[bool_decide] in *.
  destruct (bool_decide (bk_manifest b = old)) eqn:Eb.
  - apply bool_decide_eq_true in Eb. destruct (Hhit Eb) as (Hm & H1 & H2).
    destruct oc; cbn -[bool_decide]; rewrite ?(bool_decide_eq_true_2 _ Eb); try done.
    split; [constructor; apply calm_refl|]. destruct (HE (b, h) s1 HI HP1 NetworkError). by apply (wp_throw (A := unit)).
  - apply bool_decide_eq_false in Eb. destruct oc; cbn -[bool_decide]; rewrite ?(bool_decide_eq_false_2 _ Eb); by apply Hmiss.
Qed.

Lemma wp_putSnapshot (P : assertion) ts w (Q : unit -> assertion) E g s :
  robust P -> P g s ->
  (forall g1 s1, Inv g1 -> P g1 s1 -> robust (E NetworkError) /\ E NetworkError g1 s1) ->
  (forall g1 s1, Inv g1 -> P g1 s1 -> is_Some (bk_snapshots g1.1 !! ts) -> robust (Q tt) /\ Q tt g1 s1) ->
  wp (request (PutSnapshot ts w)) Q E g s.
Proof.
  intros HP H HE HQ g1 s1 Hr HI oc _. pose proof (benign_calm i (PutSnapshot ts w) oc g1 I) as Hc. split; [by constructor|].
  assert (drift i (g1, s1) (gstep i (PutSnapshot ts w) oc g1, s1)) as Hd by by constructor.
  pose proof (Inv_stable i _ _ Hd HI) as HI'. pose proof (HP _ _ Hd (robust_rely P g s g1 s1 HP Hr H)) as HP'.
  destruct oc.
  - destruct (HQ _ _ HI' HP'); [|by apply wp_ret]. cbn. destruct (bk_snapshots g1.1 !! ts) as [w'|] eqn:Ew.
    + rewrite put_first_some; by rewrite Ew.
    + rewrite put_first_none; done.
  - destruct (HE _ _ HI' HP'). by apply (wp_throw (A := unit)).
  - destruct (HE _ _ HI' HP'). by apply (wp_throw (A := unit)).
Qed.

(** An owner writes its next segment. *)
Lemma wp_putSegment (P : assertion) e m w (Q : unit -> assertion) E g s :
  robust P -> P g s -> (forall g1 s1, P g1 s1 -> tenure i e m g1) ->
  (forall g1 s1, Inv g1 -> P g1 s1 -> robust (E NetworkError) /\ E NetworkError g1 s1) ->
  (forall g1 s1, P g1 s1 -> let g2 := (with_segments g1.1 (put_first (segments_of g1) (mf_nextSeqno m) w), g1.2) in
     Inv g2 -> robust (Q tt) /\ Q tt g2 s1) ->
  wp (request (PutSegment (mf_nextSeqno m) w)) Q E g s.
Proof.
  intros HP H HT HE HQ g1 s1 Hr HI oc Hoc. pose proof (robust_rely P g s g1 s1 HP Hr H) as HP1.
  destruct oc; cbn in *; [| |done].
  - destruct (HT _ _ HP1) as [He Ho Hl].
    assert (Hmove : move i g1 (with_segments g1.1 (put_first (segments_of g1) (mf_nextSeqno m) w), g1.2)) by by eapply MSegment.
    split; [done|]. destruct (HQ _ _ HP1 (move_Inv _ _ _ HI Hmove)). by apply wp_ret.
  - split; [destruct g1; constructor; apply calm_refl|]. destruct g1. destruct (HE _ _ HI HP1). by apply (wp_throw (A := unit)).
Qed.

(** Deletions of what a manifest of the history does not need. *)
Lemma wp_deleteSegment (P : assertion) m n g s : robust P -> P g s ->
  (forall g1 s1, P g1 s1 -> exists ev, ev ∈ g1.2 /\ ev_man ev = m) -> n <= base_of m ->
  (forall g1 s1, Inv g1 -> P g1 s1 -> P (with_segments g1.1 (delete n (segments_of g1)), g1.2) s1) ->
  wp (request (DeleteSegment n)) (fun _ => P) (fun _ => P) g s.
Proof.
  intros HP H Hev Hn HD g1 s1 Hr HI oc _. pose proof (robust_rely P g s g1 s1 HP Hr H) as HP1.
  destruct (Hev _ _ HP1) as (ev & Hin & <-). pose proof (HD _ _ HI HP1) as HP2.
  assert (Hcalm : move i g1 (g1.1, g1.2)) by (destruct g1; constructor; apply calm_refl).
  destruct oc; (split; [first [done|by eapply MDropSegment]|]); first [by apply wp_ret|apply (wp_throw (A := unit)); [done|]]; [by destruct g1|done].
Qed.
Lemma wp_deleteSnapshot (P : assertion) m ts keep g s : robust P -> P g s ->
  (forall g1 s1, P g1 s1 -> exists ev, ev ∈ g1.2 /\ ev_man ev = m) -> mf_snapshotTs m = Some keep -> ts < keep ->
  (forall g1 s1, Inv g1 -> P g1 s1 -> P (with_snapshots g1.1 (delete ts (bk_snapshots g1.1)), g1.2) s1) ->
  wp (request (DeleteSnapshot ts)) (fun _ => P) (fun _ => P) g s.
Proof.
  intros HP H Hev Hk Hts HD g1 s1 Hr HI oc _. pose proof (robust_rely P g s g1 s1 HP Hr H) as HP1.
  destruct (Hev _ _ HP1) as (ev & Hin & <-). pose proof (HD _ _ HI HP1) as HP2.
  assert (Hcalm : move i g1 (g1.1, g1.2)) by (destruct g1; constructor; apply calm_refl).
  destruct oc; (split; [first [done|by eapply MDropSnapshot]|]); first [by apply wp_ret|apply (wp_throw (A := unit)); [done|]]; [by destruct g1|done].
Qed.

(** A list of deletions. *)
Lemma wp_delete_where (P : assertion) doomed (op : Z -> oprog inst unit) :
  robust P -> (forall n g s, Inv g -> P g s -> doomed n = true -> wp (op n) (fun _ => P) (fun _ => P) g s) ->
  forall keys deleted g s, Inv g -> P g s -> wp (delete_where doomed op keys deleted) (fun _ => P) (fun _ => P) g s.
Proof.
  intros HP Hop. induction keys as [|k keys IH]; intros deleted g s HI H; cbn [delete_where]; [by apply wp_ret|].
  destruct (doomed k) eqn:Ek; [|by apply IH]. apply wp_bind; [done|]. eapply wp_mono; [| |by apply Hop]; [|done].
  intros [] g1 s1 HI1 HP1. by apply IH.
Qed.
End wp.
