(* ===== verification/ObjectMethods.v ===== *)
(** The methods of object-doc-store.ts, one object among many: each makes only
    moves that keep the shared state sound, whatever the others do. *)
From Stdlib Require Import ZArith Lia Sorted.
From stdpp Require Import base list sets gmap strings relations.
From S2P Require Import Prelude JsBase JsText DocStore SqliteDocStore ObjectStore ObjectDocStore ObjectHistory ObjectWp.

Section methods.
Context (i : nat).
Notation assertion := (gst -> inst -> Prop).
Notation wp := (wp i).
Notation robust := (robust i).
Notation tenure := (tenure i).
Notation owned := (owned i).

Lemma robust_wp {A} (p : oprog inst A) Q E : robust (wp p Q E).
Proof. intros [g s] [g' s'] Hd H. cbn in *. eapply wp_rely; [exact H|]. by apply rtc_once. Qed.
Lemma robust_ex {X} (P : X -> assertion) : (forall x, robust (P x)) -> robust (fun g s => exists x, P x g s).
Proof. intros H x y Hd [z Hz]. exists z. by eapply H. Qed.
Lemma robust_sep (G : gst -> Prop) (P : inst -> Prop) : stable i G -> (forall s, P s -> P (release s)) -> robust (fun g s => G g /\ P s).
Proof. intros HG HP. apply robust_and; [by apply robust_stable|by apply robust_inst]. Qed.

(** * What an object knows *)

(** It owned epoch [e]; unless it is poisoned, its copy of the manifest is the
    epoch's last one and its next segment is unwritten. *)
Record tenant (e : Z) (g : gst) (s : inst) : Prop := {
  te_owned : owned e g;
  te_epoch : mf_epoch (in_cached s) = e;
  te_view : in_poisoned s = false ->
    (tenure e (in_cached s) g /\ slot_free (in_cached s) g) /\ in_nextSeqno s = mf_nextSeqno (in_cached s)
}.

(** An object that holds a lease is the tenant of its epoch. *)
Definition at_rest (g : gst) (s : inst) : Prop := forall e w, in_held s = Some (e, w) -> tenant e g s.
Definition held_is (e : Z) (s : inst) : Prop := forall e' w, in_held s = Some (e', w) -> e' = e.
Definition rested (e : Z) (g : gst) (s : inst) : Prop := tenant e g s /\ held_is e s.

Lemma tenant_robust e : robust (tenant e).
Proof.
  intros [g s] [g' s'] Hd. assert (Hs : in_cached s' = in_cached s /\ in_poisoned s' = in_poisoned s /\ in_nextSeqno s' = in_nextSeqno s).
  { inversion Hd; subst; done. }
  cbn. destruct Hs as (E1 & E2 & E3). intros [H1 H2 H3]. split; rewrite ?E1, ?E2, ?E3; [by apply (owned_stable i e _ _ Hd)|done|].
  intros Hp. destruct (H3 Hp) as [Ht ?]. split; [|done]. by apply (slot_free_stable i e _ _ _ Hd).
Qed.
Lemma held_is_release e s : held_is e s -> held_is e (release s).
Proof. by intros _ ? ?. Qed.
Lemma at_rest_robust : robust at_rest.
Proof.
  intros x y Hd H e w Hh. destruct (drift_held i _ _ Hd) as [E|E]; [|congruence]. eapply tenant_robust; [exact Hd|]. apply (H e w). congruence.
Qed.
Lemma rested_robust e : robust (rested e).
Proof. apply robust_and; [apply tenant_robust|apply robust_inst, held_is_release]. Qed.

Lemma at_rest_none g s : in_held s = None -> at_rest g s.
Proof. intros H e w. congruence. Qed.
Lemma rested_at_rest e g s : rested e g s -> at_rest g s.
Proof. intros [H Hh] e' w He. by rewrite (Hh _ _ He). Qed.
Lemma at_rest_rested g s e w : at_rest g s -> in_held s = Some (e, w) -> rested e g s.
Proof. intros H He. split; [by eapply H|]. intros e' w'. congruence. Qed.

(** While the object acts on what it knows. *)
Definition knows (m : manifest) (e : Z) (s : inst) : Prop :=
  in_cached s = m /\ in_nextSeqno s = mf_nextSeqno m /\ in_poisoned s = false /\ held_is e s.
Definition acting (e : Z) (m : manifest) (g : gst) (s : inst) : Prop := (tenure e m g /\ slot_free m g) /\ knows m e s.

Lemma knows_release m e s : knows m e s -> knows m e (release s).
Proof. intros (? & ? & ? & ?). split_and!; [done..|]. by apply held_is_release. Qed.
Lemma acting_robust e m : robust (acting e m).
Proof. apply robust_sep; [apply slot_free_stable|apply knows_release]. Qed.

Lemma tenure_owned e m g : tenure e m g -> owned e g.
Proof. by intros [? ? ?]. Qed.
Lemma acting_rested e m g s : acting e m g s -> rested e g s.
Proof.
  intros [[HT HF] (E1 & E2 & E3 & Hh)]. split; [|done]. split; [by eapply tenure_owned|rewrite E1; by eapply tenure_mf|].
  intros _. by rewrite E1, E2.
Qed.
Lemma rested_acting e g s : rested e g s -> in_poisoned s = false -> acting e (in_cached s) g s.
Proof. intros [[H1 H2 H3] Hh] Hp. destruct (H3 Hp) as [? ?]. by split. Qed.
Lemma acting_at_rest e m g s : acting e m g s -> at_rest g s.
Proof. intros H. by eapply rested_at_rest, acting_rested. Qed.

(** A poisoned object claims nothing but its epoch. *)
Lemma poisoned_rested e m g s : owned e g -> mf_epoch m = e -> in_cached s = m -> in_poisoned s = true -> held_is e s -> rested e g s.
Proof. intros Ho He <- Hp Hh. split; [|done]. split; [done..|congruence]. Qed.

(** * What a write of its own manifest gives the owner *)

Lemma tenure_write e m next g : tenure e m g -> mf_epoch next = e -> tenure e next (write i next g).
Proof. intros [He Ho Hl] Hn. split; cbn; [done|by rewrite Ho|]. by rewrite (proj2 (Z.eqb_eq _ _) Hn). Qed.

Lemma owner_chain e m next g : Inv g -> owned e g -> mf_epoch m = e -> current g.2 = Some m -> mf_epoch next = e ->
  transition m (Event i next (segments_of g)) -> chain (Event i next (segments_of g) :: g.2).
Proof. intros HI [He Ho] Hm Hc Hn Ht. econstructor; [apply HI|done|done|]. intros _. rewrite Hm. done. Qed.

Lemma same_slot m next g : slot_free m g -> current g.2 = Some m -> mf_nextSeqno next = mf_nextSeqno m -> slot_free next (write i next g).
Proof. intros H Hc Hn _. rewrite Hn. exact (H Hc). Qed.

Lemma same_snapshot m next g : Inv g -> current g.2 = Some m -> mf_snapshot next = mf_snapshot m ->
  forall ts, mf_snapshotTs next = Some ts -> is_Some (bk_snapshots g.1 !! ts).
Proof. intros HI Hc Hn ts. unfold mf_snapshotTs. rewrite Hn. by apply (inv_snapshot _ HI). Qed.

(** Between the write and the object learning of it. *)
Definition landed (e : Z) (m next : manifest) (g : gst) (s : inst) : Prop := (tenure e next g /\ slot_free next g) /\ knows m e s.
Lemma landed_robust e m next : robust (landed e m next).
Proof. apply robust_sep; [apply slot_free_stable|apply knows_release]. Qed.
Lemma landed_same e m next g s : acting e m g s -> current g.2 = Some m -> mf_epoch next = e -> mf_nextSeqno next = mf_nextSeqno m ->
  landed e m next (write i next g) s.
Proof. intros [[HT HF] HK] Hc He Hn. split; [split; [by eapply tenure_write|by eapply same_slot]|done]. Qed.
Lemma landed_cached e m next g s : landed e m next g s -> mf_nextSeqno next = mf_nextSeqno m -> acting e next g (set_cached s next).
Proof. intros [HG (E1 & E2 & E3 & Hh)] Hn. split; [done|]. unfold knows. cbn. by rewrite Hn. Qed.

(** * heartbeat *)

Lemma heartbeat_wp now ttl g s : Inv g -> at_rest g s -> wp (heartbeat now ttl) (fun _ => at_rest) (fun _ => at_rest) g s.
Proof.
  intros HI HJ. unfold heartbeat. apply wp_bind; [done|]. apply wp_local. intros g1 s1 Hr HI1.
  pose proof (robust_rely i _ _ _ _ _ at_rest_robust Hr HJ) as HJ1.
  destruct (in_held s1) as [[e w]|] eqn:Eh; cbn [fst snd]; [|split; [apply at_rest_robust|done]].
  destruct (in_poisoned s1) eqn:Ep; cbn [fst snd]; [split; [apply at_rest_robust|done]|]. split; [apply robust_wp|].
  pose proof (rested_acting _ _ _ (at_rest_rested _ _ _ _ HJ1 Eh) Ep) as HA. set (m := in_cached s1) in *. set (next := with_lease _ _ _).
  apply wp_catch; [done|]. apply wp_bind; [done|]. apply (wp_cas _ (acting e m)); [apply acting_robust|done| |].
  - intros g2 s2 HI2 _ err. split; [apply robust_wp|]. apply wp_bind; [done|]. apply wp_update; [apply robust_wp|].
    intros g3 s3 _ _. apply wp_throw; [apply at_rest_robust|]. by apply at_rest_none.
  - intros g2 s2 HI2 HA2 Hcur. pose proof (tenure_mf _ _ _ _ (proj1 (proj1 HA2))) as He.
    split_and!.
    + eapply owner_chain; [done|by eapply tenure_owned, HA2|done..|by eapply TLease].
    + by eapply same_snapshot.
    + intros HI3. split_and!; [apply robust_wp| |].
      * apply wp_update; [apply at_rest_robust|]. intros g3 s3 Hr3 _. eapply acting_at_rest, (landed_cached e m); [|done].
        eapply robust_rely; [apply landed_robust|exact Hr3|]. apply landed_same; [exact HA2|exact Hcur|exact He|reflexivity].
      * apply wp_bind; [done|]. apply wp_update; [apply robust_wp|]. intros g3 s3 _ _. apply wp_throw; [apply at_rest_robust|]. by apply at_rest_none.
Qed.

(** * relinquish *)

Lemma relinquish_wp g s : Inv g -> at_rest g s -> wp relinquish (fun _ => at_rest) (fun _ => at_rest) g s.
Proof.
  intros HI HJ. unfold relinquish. apply wp_bind; [done|]. apply wp_read. intros g1 s1 Hr HI1.
  pose proof (robust_rely i _ _ _ _ _ at_rest_robust Hr HJ) as HJ1. split; [apply robust_wp|].
  destruct (in_held s1) as [[e w]|] eqn:Eh; [|by apply wp_ret; [apply at_rest_robust|]].
  destruct (HJ1 e w Eh) as [Ho He _]. set (m := in_cached s1) in *. set (next := with_lease _ _ _).
  assert (Hend : forall g s, wp (update (fun s => set_held s None)) (fun _ => at_rest) (fun _ => at_rest) g s).
  { intros g2 s2. apply wp_update; [apply at_rest_robust|]. intros. by apply at_rest_none. }
  apply wp_bind; [done|]. apply wp_catch; [done|]. apply wp_bind; [done|].
  apply (wp_cas _ (fun g _ => owned e g)); [apply robust_stable, owned_stable|done| |].
  - intros g2 s2 HI2 _ err. split; [apply robust_wp|]. apply wp_ret; [apply robust_wp|]. apply Hend.
  - intros g2 s2 HI2 Ho2 Hcur. split_and!.
    + by eapply owner_chain; [..|eapply TLease].
    + by eapply same_snapshot.
    + intros HI3. split_and!; [apply robust_wp| |].
      * apply wp_update; [apply robust_wp|]. intros. apply Hend.
      * apply wp_ret; [apply robust_wp|]. apply Hend.
Qed.

(** * snapshot *)

Lemma quiet_dump P : quiet (fun s => P (in_cached s) (in_nextSeqno s) (in_poisoned s) (in_held s)) local_dump.
Proof. unfold local_dump, localIO. apply oquiet_bind; [split; [done|]; intros r; apply oquiet_lift|]. intros _. split; [done|]. intros; apply oquiet_lift. Qed.
Lemma quiet_max P : quiet (fun s => P (in_cached s) (in_nextSeqno s) (in_poisoned s) (in_held s)) local_max.
Proof. unfold local_max, localIO. apply oquiet_bind; [split; [done|]; intros r; apply oquiet_lift|]. intros _. split; [done|]. intros; apply oquiet_lift. Qed.
Lemma quiet_local_write P d x sh : quiet (fun s => P (in_cached s) (in_nextSeqno s) (in_poisoned s) (in_held s)) (local_write d x sh).
Proof.
  unfold local_write, localIO. apply oquiet_bind; [split; [done|]; intros r; apply oquiet_lift|]. intros _. split; [|intros; apply oquiet_lift].
  intros s Hs. destruct (sq_write _ _ _ _ _) as [[? ?]|]; done.
Qed.

(** A quiet prefix leaves the object acting. *)
Lemma wp_acting_quiet {A B} e m (p : oprog inst A) (f : A -> oprog inst B) Q E g s :
  Inv g -> acting e m g s -> quiet (knows m e) p ->
  (forall a g1 s1, Inv g1 -> acting e m g1 s1 -> wp (f a) Q E g1 s1) ->
  (forall err g1 s1, Inv g1 -> acting e m g1 s1 -> E err g1 s1) -> wp (obind p f) Q E g s.
Proof.
  intros HI [HG HK] Hq Hf HE. apply wp_bind; [done|].
  eapply wp_mono; [| |apply (wp_quiet i (fun g => tenure e m g /\ slot_free m g) (knows m e)); [apply slot_free_stable|apply knows_release|done|done|done]].
  - intros a g1 s1 HI1 H1. by apply Hf.
  - intros err g1 s1 HI1 H1. by apply HE.
Qed.

Lemma wp_poison {A} e m err (Q : A -> assertion) g s : Inv g -> owned e g -> knows m e s -> mf_epoch m = e ->
  wp (obind (update (fun s => set_poisoned s true)) (fun _ => OThrow err)) Q (fun _ => rested e) g s.
Proof.
  intros HI Ho HK He. apply wp_bind; [done|]. apply wp_update; [apply robust_wp|]. intros g1 s1 Hr HI1.
  pose proof (robust_rely i _ _ _ _ _ (robust_sep (owned e) (knows m e) (owned_stable i e) (knows_release m e)) Hr (conj Ho HK)) as H1.
  destruct H1 as [Ho1 (? & ? & ? & ?)]. apply wp_throw; [apply rested_robust|]. by eapply poisoned_rested.
Qed.

Lemma snapshot_wp e g s : Inv g -> rested e g s -> wp snapshot (fun _ => rested e) (fun _ => rested e) g s.
Proof.
  intros HI HJ. unfold snapshot. apply wp_bind; [done|]. apply wp_local. intros g1 s1 Hr HI1.
  pose proof (robust_rely i _ _ _ _ _ (rested_robust e) Hr HJ) as HJ1.
  destruct (in_poisoned s1) eqn:Ep; cbn [fst snd]; [split; [apply rested_robust|done]|]. split; [apply robust_wp|].
  pose proof (rested_acting _ _ _ HJ1 Ep) as HA. set (m := in_cached s1) in *.
  assert (En : in_nextSeqno s1 = mf_nextSeqno m) by apply HA. rewrite En. destruct (Z.eqb_spec (mf_nextSeqno m) 0) as [|Hn0].
  { by apply wp_ret; [apply rested_robust|]. }
  cbn [negb]. eapply wp_acting_quiet; [done|exact HA|exact (quiet_dump (fun c n p h => c = m /\ n = mf_nextSeqno m /\ p = false /\ forall e' w, h = Some (e', w) -> e' = e))| |].
  2: { intros. by eapply acting_rested. }
  intros dump g2 s2 HI2 HA2. apply wp_bind; [done|]. apply wp_read. intros g3 s3 Hr3 HI3. split; [apply robust_wp|].
  pose proof (robust_rely i _ _ _ _ _ (acting_robust e m) Hr3 HA2) as HA3. destruct HA3 as [HG3 HK3]. destruct HK3 as (E1 & E2 & E3 & Hh3).
  rewrite E1, E2. assert (HA3 : acting e m g3 s3) by by split. apply wp_bind; [done|].
  apply wp_lift; [|intros err _; split; [apply rested_robust|by eapply acting_rested]]. intros w _. split; [apply robust_wp|].
  set (next := snapshot_manifest m (mf_nextSeqno m - 1)). apply wp_bind; [done|].
  apply (wp_putSnapshot i (acting e m)); [apply acting_robust|done|intros; split; [apply rested_robust|by eapply acting_rested]|].
  intros g4 s4 HI4 HA4 Hsn. split; [apply robust_wp|]. apply wp_bind; [done|]. apply wp_catch; [done|]. apply wp_bind; [done|].
  apply (wp_cas _ (fun g s => (tenure e m g /\ slot_free m g) /\ (tenure e m g /\ snapped m g) /\ knows m e s)).
  - apply robust_and; [apply robust_stable, slot_free_stable|]. apply robust_sep; [apply snapped_stable|apply knows_release].
  - destruct HA4 as [[HT HF] HK]. split; [done|]. split; [|done]. split; [done|]. by intros _.
  - intros g5 s5 HI5 ((HT & _) & _ & HK) err. split; [apply robust_wp|]. eapply (wp_poison e m); [done|by eapply tenure_owned|done|by eapply tenure_mf].
  - intros g5 s5 HI5 ((HT & HF) & (_ & HS) & HK) Hcur. pose proof (tenure_mf _ _ _ _ HT) as He. split_and!.
    + eapply owner_chain; [done|by eapply tenure_owned|done..|by eapply TSnapshot].
    + intros ts [= <-]. exact (HS Hcur).
    + intros HI6. split_and!; [apply robust_wp| |].
      * apply wp_update; [apply robust_wp|]. intros g6 s6 Hr6 HI6'. apply wp_update; [apply rested_robust|]. intros g7 s7 Hr7 _.
        assert (HA7 : acting e next g7 s7).
        { eapply robust_rely; [apply acting_robust|exact Hr7|]. apply (landed_cached e m); [|done].
          eapply robust_rely; [apply landed_robust|exact Hr6|]. apply landed_same; [by split|exact Hcur|exact He|reflexivity]. }
        eapply acting_rested. exact HA7.
      * apply (wp_poison e m); [done| |done|exact He]. destruct (tenure_write e m next g5 HT He) as [? ? ?]. by split.
Qed.

Lemma maybeSnapshot_wp e g s : Inv g -> rested e g s -> wp maybeSnapshot (fun _ => rested e) (fun _ => rested e) g s.
Proof.
  intros HI HJ. unfold maybeSnapshot. apply wp_bind; [done|]. apply wp_read. intros g1 s1 Hr HI1. split; [apply robust_wp|].
  pose proof (robust_rely i _ _ _ _ _ (rested_robust e) Hr HJ) as HJ1.
  destruct (negb (in_poisoned s1) && _); [by apply snapshot_wp|]. by apply wp_ret; [apply rested_robust|].
Qed.

(** * Commits *)

(** The batch is in the log, with its timestamps, as one record. *)
Definition committed_as (units : list commit_unit) (tss : list Z) (g : gst) : Prop :=
  units = [] /\ tss = [] \/
  exists c ts, c ∈ log_of g.2 /\ cr_by c = i /\ tss = ts_list ts units /\ last tss = Some (cr_ts c) /\
    encodeSegment (segment_of (stamp_units ts units)) = Ok (cr_body c).

Lemma committed_lasting units tss : lasting (committed_as units tss).
Proof.
  intros j g g' Hm [H|(c & ts & Hc & H)]; [by left|right]. exists c, ts. split; [|done]. by apply (logged_lasting c j g g').
Qed.
Lemma committed_stable units tss : stable i (committed_as units tss).
Proof. apply lasting_stable, committed_lasting. Qed.

Lemma ts_list_last ts units : units <> [] -> exists t, last (ts_list ts units) = Some t /\ ts <= t.
Proof.
  revert ts. induction units as [|u us IH]; intros ts; [done|intros _]. cbn [ts_list]. destruct us as [|v us].
  - exists ts. cbn. split; [done|lia].
  - destruct (IH (ts + 1)) as (t & Ht & Hle); [done|]. exists t. rewrite last_cons, Ht. split; [done|lia].
Qed.

(** The post-condition of the exclusive part. *)
Definition commit_post (units : list commit_unit) (tss : list Z) (g : gst) (s : inst) : Prop :=
  committed_as units tss g /\ exists e, rested e g s.
Lemma commit_post_robust units tss : robust (commit_post units tss).
Proof. apply robust_and; [apply robust_stable, committed_stable|]. apply robust_ex, rested_robust. Qed.

Lemma commit_checks_spec units g s : at_rest g s ->
  match (commit_checks units s).2 with
  | Ok true => units <> [] /\ exists e, (commit_checks units s).1 = s /\ acting e (in_cached s) g s
  | Ok false => units = [] /\ exists e, (commit_checks units s).1 = s /\ rested e g s
  | Throw _ => at_rest g (commit_checks units s).1
  end.
Proof.
  intros HJ. unfold commit_checks. destruct (in_held s) as [[e w]|] eqn:Eh; [|done].
  pose proof (at_rest_rested _ _ _ _ HJ Eh) as HR. destruct units as [|u us]; [cbn; eauto|].
  destruct (in_poisoned s) eqn:Ep; [by eapply rested_at_rest|]. pose proof (rested_acting _ _ _ HR Ep) as HA.
  destruct (Z.eqb_spec (mf_epoch (in_cached s)) e) as [He|He]; cbn; [split; [done|eauto]|]. exfalso. apply He. apply HR.
Qed.

(** After the segment is written. *)
Definition written (e : Z) (m : manifest) (w : wire_segment) (g : gst) (s : inst) : Prop :=
  (tenure e m g /\ slot_holds m w g) /\ knows m e s.
Lemma written_robust e m w : robust (written e m w).
Proof. apply robust_sep; [apply slot_holds_stable|apply knows_release]. Qed.

Lemma put_written e m w g s : acting e m g s ->
  let g2 := (with_segments g.1 (put_first (segments_of g) (mf_nextSeqno m) w), g.2) in written e m w g2 s.
Proof.
  intros [[HT HF] HK]. split; [|done]. split; [by destruct HT|]. intros Hcur. apply put_first_none. exact (HF Hcur).
Qed.

(** The conditional write makes it part of the log. *)
Lemma commit_lands e m w tsn maxTs units ts g s : Inv g -> written e m w g s -> current g.2 = Some m ->
  last (ts_list ts units) = Some maxTs -> mf_tsCounter m < maxTs -> tsn = ts_list ts units ->
  encodeSegment (segment_of (stamp_units ts units)) = Ok w ->
  let next := commit_manifest m e maxTs (mf_nextSeqno m) in
  transition m (Event i next (segments_of g)) /\ mf_epoch next = e /\
  (Inv (write i next g) -> (tenure e next (write i next g) /\ slot_free next (write i next g)) /\ committed_as units tsn (write i next g)).
Proof.
  intros HI [[HT HH] HK] Hcur Hlast Hlt -> Henc next. pose proof (tenure_mf _ _ _ _ HT) as He. specialize (HH Hcur).
  assert (Et : transition m (Event i next (segments_of g))).
  { eapply (TCommit _ _ maxTs w); [unfold next; cbn; by rewrite He|done|exact HH]. }
  split; [exact Et|]. split; [done|]. intros HI'. split; [split|].
  - by eapply tenure_write.
  - intros _. cbn. destruct (bk_segments g.1 !! (mf_nextSeqno m + 1)) as [w'|] eqn:Ew; [|done].
    destruct (inv_segments _ HI _ _ Ew) as (m' & Hm' & Hle & _). assert (m' = m) as -> by congruence. lia.
  - right. exists (CommitRec (mf_nextSeqno m) maxTs w i e), ts. split_and!; try done. cbn [log_of write snd]. rewrite Hcur.
    rewrite (commit_of_commit m _ maxTs w); [|unfold next; cbn; by rewrite He|done|exact HH]. cbn. rewrite He. apply elem_of_app. right. left.
Qed.

Definition landed_commit (e : Z) (m next : manifest) (units : list commit_unit) (tss : list Z) (g : gst) (s : inst) : Prop :=
  ((tenure e next g /\ slot_free next g) /\ committed_as units tss g) /\ knows m e s.
Lemma landed_commit_stable e next units tss : stable i (fun g => (tenure e next g /\ slot_free next g) /\ committed_as units tss g).
Proof. apply stable_and; [apply slot_free_stable|apply committed_stable]. Qed.

Lemma quiet_knows_writes m e shardId (l : list (list log_entry * list index_write)) : quiet (knows m e) (oeach l (fun u => local_write u.1 u.2 shardId)).
Proof.
  induction l as [|u l IH]; [done|]. cbn [oeach]. apply oquiet_bind; [|done].
  exact (quiet_local_write (fun c n p h => c = m /\ n = mf_nextSeqno m /\ p = false /\ forall e' w, h = Some (e', w) -> e' = e) _ _ _).
Qed.

(** The local store learns of the commit, or the object is poisoned. *)
Lemma apply_commit_wp e m next units tss stamped shardId g s : Inv g -> landed_commit e m next units tss g s -> mf_epoch m = e ->
  mf_nextSeqno next = mf_nextSeqno m + 1 ->
  wp (ocatch (oeach stamped (fun u => local_write u.1 u.2 shardId)) (fun _ => update (fun s => set_poisoned s true);;! OThrow PostCommitApplyFailed);;!
      update (committed_state next (mf_nextSeqno m));;! ORet tss)%oprog (commit_post units) (fun _ => at_rest) g s.
Proof.
  intros HI [HG HK] He Hn. apply wp_bind; [done|]. apply wp_catch; [done|].
  eapply wp_mono; [| |apply (wp_quiet i _ (knows m e) _ (landed_commit_stable e next units tss) (knows_release m e) (quiet_knows_writes _ _ _ _)); [exact HG|exact HK]].
  - intros _ g1 s1 HI1 [HG1 HK1]. apply wp_bind; [done|]. apply wp_update; [apply robust_wp|]. intros g2 s2 Hr2 HI2.
    destruct (robust_rely i _ _ _ _ _ (robust_sep _ _ (landed_commit_stable e next units tss) (knows_release m e)) Hr2 (conj HG1 HK1)) as [[HG2 HC2] HK2].
    apply wp_ret; [apply commit_post_robust|]. split; [done|]. exists e. apply (acting_rested e next). split; [exact HG2|].
    destruct HK2 as (? & ? & ? & ?). unfold knows. cbn. by rewrite Hn.
  - intros err g1 s1 HI1 [[[HT _] _] HK1]. eapply wp_mono; [| |apply (wp_poison e m); [done|by eapply tenure_owned|done|done]]; [intros a g2 s2 _ Hx; exact Hx|].
    intros err' g2 s2 _. by apply rested_at_rest.
Qed.

(** A conditional write that fails. *)
Lemma commit_fenced_wp e m err Q g s : Inv g -> owned e g -> knows m e s -> mf_epoch m = e -> wp (commit_fenced err) Q (fun _ => at_rest) g s.
Proof.
  intros HI Ho HK He. unfold commit_fenced. destruct (isCasConflict err).
  - apply wp_bind; [done|]. apply wp_update; [apply robust_wp|]. intros g1 s1 _ _. apply wp_throw; [apply at_rest_robust|]. by apply at_rest_none.
  - eapply wp_mono; [| |by apply (wp_poison e m)]; [intros a g2 s2 _ Hx; exact Hx|]. intros err' g2 s2 _. by apply rested_at_rest.
Qed.

Lemma commit_exclusive_wp units shardId g s : Inv g -> at_rest g s ->
  wp (commit_exclusive units shardId) (commit_post units) (fun _ => at_rest) g s.
Proof.
  intros HI HJ. unfold commit_exclusive. apply wp_bind; [done|]. apply wp_local. intros g1 s1 Hr HI1.
  pose proof (commit_checks_spec units _ _ (robust_rely i _ _ _ _ _ at_rest_robust Hr HJ)) as Hck.
  destruct (commit_checks units s1) as [s1' [[]|err]]; cbn [fst snd] in *; [|split; [apply robust_wp|]|by split; [apply at_rest_robust|]].
  2: { destruct Hck as (-> & e & -> & HR). apply wp_ret; [apply commit_post_robust|]. split; [by left|by exists e]. }
  destruct Hck as (Hu & e & -> & HA). split; [apply robust_wp|]. set (m := in_cached s1) in *. cbn [negb].
  assert (He : mf_epoch m = e) by (eapply tenure_mf, HA).
  eapply wp_acting_quiet; [done|exact HA|exact (quiet_max (fun c n p h => c = m /\ n = mf_nextSeqno m /\ p = false /\ forall e' w, h = Some (e', w) -> e' = e))| |].
  2: { intros. by eapply acting_at_rest. }
  intros localMax g2 s2 HI2 HA2. apply wp_bind; [done|]. apply wp_read. intros g3 s3 Hr3 HI3. split; [apply robust_wp|].
  pose proof (robust_rely i _ _ _ _ _ (acting_robust e m) Hr3 HA2) as HA3. destruct (proj2 HA3) as (E1 & E2 & _ & _). rewrite E1, E2.
  set (ts := Z.max (mf_tsCounter m) localMax + 1). destruct (ts_list_last ts units Hu) as (maxTs & Hlast & Hle). rewrite Hlast. cbn [default].
  apply wp_bind; [done|]. apply wp_lift; [|intros err _; split; [apply at_rest_robust|by eapply acting_at_rest]]. intros w Henc. split; [apply robust_wp|].
  apply wp_bind; [done|]. apply (wp_putSegment i (acting e m) e); [apply acting_robust|done|by intros ? ? [[? _] _]|intros; split; [apply at_rest_robust|by eapply acting_at_rest]|].
  intros g4 s4 HA4 g5 HI5. split; [apply robust_wp|]. pose proof (put_written _ _ w _ _ HA4) as HW. fold g5 in HW.
  apply wp_bind; [done|]. apply wp_local. intros g6 s6 Hr6 HI6. pose proof (robust_rely i _ _ _ _ _ (written_robust e m w) Hr6 HW) as HW6.
  destruct (proj2 HW6) as (E1' & _ & _ & Hh6). destruct (in_held s6) as [[e' w']|] eqn:Eh6; cbn [fst snd]; [|by split; [apply at_rest_robust|apply at_rest_none]].
  rewrite (Hh6 _ _ Eh6), E1'. split; [apply robust_wp|]. apply wp_bind; [done|]. apply wp_catch; [done|].
  apply (wp_cas _ (written e m w)); [apply written_robust|done| |].
  - intros g7 s7 HI7 [[HT _] HK] err. split; [apply robust_wp|]. apply (commit_fenced_wp e m); [done|exact (tenure_owned _ _ _ HT)|done|done].
  - intros g7 s7 HI7 HW7 Hcur. destruct (commit_lands e m w _ maxTs units ts g7 s7 HI7 HW7 Hcur Hlast ltac:(lia) eq_refl Henc) as (Ht & Hen & Hpost).
    pose proof (tenure_owned _ _ _ (proj1 (proj1 HW7))) as Ho. split_and!; [exact (owner_chain e m _ g7 HI7 Ho He Hcur Hen Ht)|exact (same_snapshot m _ g7 HI7 Hcur eq_refl)|].
    intros HI8. specialize (Hpost HI8). split_and!; [apply robust_wp| |].
    + apply (apply_commit_wp e m); [done| |done|done]. split; [exact Hpost|exact (proj2 HW7)].
    + apply (commit_fenced_wp e m); [done|exact (tenure_owned _ _ _ (proj1 (proj1 Hpost)))|exact (proj2 HW7)|done].
Qed.

Lemma commitWriteBatch_wp units shardId g s : Inv g -> at_rest g s ->
  wp (commitWriteBatch units shardId) (fun tss g s => committed_as units tss g /\ at_rest g s) (fun _ => at_rest) g s.
Proof.
  intros HI HJ. unfold commitWriteBatch. apply wp_bind; [done|]. eapply wp_mono; [|intros ? ? ? ? H; exact H|by apply commit_exclusive_wp].
  intros tss g1 s1 HI1 [HC [e HR]]. apply wp_bind; [done|].
  assert (HP : robust (fun g s => committed_as units tss g /\ rested e g s)).
  { apply robust_and; [apply robust_stable, committed_stable|apply rested_robust]. }
  assert (Hend : forall g s, committed_as units tss g /\ rested e g s ->
    wp (ORet tss) (fun tss g s => committed_as units tss g /\ at_rest g s) (fun _ => at_rest) g s).
  { intros g2 s2 [? ?]. apply wp_ret; [|split; [done|by eapply rested_at_rest]]. apply robust_and; [apply robust_stable, committed_stable|apply at_rest_robust]. }
  apply wp_catch; [done|]. eapply wp_mono; [| |apply (wp_frame i _ _ _ _ _ _ (committed_lasting units tss) HC (maybeSnapshot_wp e g1 s1 HI1 HR))].
  - intros [] g2 s2 _ H2. by apply Hend.
  - intros err g2 s2 _ H2. apply wp_ret; [apply robust_wp|]. by apply Hend.
Qed.

(** * open and acquire *)

Definition idle_lease (s : inst) : Prop := in_held s = None.
Lemma idle_release s : idle_lease s -> idle_lease (release s).
Proof. done. Qed.
Lemma idle_robust : robust (fun _ s => idle_lease s).
Proof. apply robust_inst, idle_release. Qed.
Notation idle := (fun (_ : gst) (s : inst) => idle_lease s).

Lemma wp_idle {A} (p : oprog inst A) g s : quiet idle_lease p -> idle_lease s -> wp p (fun _ => idle) (fun _ => idle) g s.
Proof.
  intros Hq Hs. eapply wp_mono; [| |apply (wp_quiet i (fun _ => True) idle_lease p); [by intros x y _|apply idle_release|done|done|done]]; by intros ? ? ? ? [_ ?].
Qed.

Lemma quiet_idle_write d x sh : quiet idle_lease (local_write d x sh).
Proof. exact (quiet_local_write (fun _ _ _ h => h = None) d x sh). Qed.
Lemma quiet_request P op : benign op -> quiet P (request op).
Proof. intros Hb. split; [done|]. intros r. apply oquiet_lift. Qed.

Lemma quiet_readSnapshot P ts : quiet P (readSnapshot ts).
Proof. apply oquiet_bind; [by apply quiet_request|]. intros [w|]; [|done]. apply oquiet_bind; [apply oquiet_lift|done]. Qed.

Lemma quiet_replay segments n : quiet idle_lease (replay segments n).
Proof.
  revert n. induction segments as [|k l IH]; intros n; cbn [replay]; [done|]. destruct (k <=? n); [apply IH|].
  apply oquiet_bind; [by apply quiet_request|]. intros [w|]; [|done]. apply oquiet_bind; [apply oquiet_lift|]. intros p.
  apply oquiet_bind; [apply quiet_idle_write|]. intros _. apply IH.
Qed.

Lemma quiet_applySnapshot p ts : quiet idle_lease (applySnapshotState p ts).
Proof.
  apply oquiet_bind; [exact (quiet_dump (fun _ _ _ h => h = None))|]. intros cur. apply oquiet_bind.
  - destruct (tombstone ts <$> _); [done|apply quiet_idle_write].
  - intros _. apply oquiet_bind; [apply quiet_idle_write|done].
Qed.

Lemma quiet_materialize m : quiet idle_lease (materializeTo m).
Proof.
  apply oquiet_bind; [by split|]. intros n. apply oquiet_bind.
  - destruct (mf_snapshot m) as [[ts b]|]; [|done]. destruct (n <? b); [|done]. apply oquiet_bind; [apply quiet_readSnapshot|].
    intros [p|]; [|done]. apply oquiet_bind; [apply quiet_applySnapshot|done].
  - intros n'. apply oquiet_bind; [apply quiet_replay|]. intros _. by split.
Qed.

Lemma create_wp g s : Inv g -> idle_lease s -> wp createManifest (fun _ => idle) (fun _ => idle) g s.
Proof.
  intros HI Hs. unfold createManifest. apply wp_bind; [done|]. apply (wp_cas _ idle); [apply idle_robust|done| |].
  - intros g1 s1 _ H1 err. split; [apply idle_robust|done].
  - intros g1 s1 HI1 H1 Hc. assert (g1.2 = []) as E by by destruct g1 as [? [|? ?]]. rewrite E. split_and!; [constructor|done|].
    intros _. split_and!; [apply robust_wp| |done]. by apply wp_ret; [apply idle_robust|].
Qed.

Lemma open_wp g s : Inv g -> idle_lease s -> wp open_ (fun _ => at_rest) (fun _ => at_rest) g s.
Proof.
  intros HI Hs. eapply (wp_mono i _ (fun _ => idle) _ (fun _ => idle)); [intros; by apply at_rest_none..|].
  unfold open_. apply wp_bind; [done|]. eapply wp_mono; [|intros ? ? ? ? H; exact H|by apply wp_idle; [apply quiet_request|]].
  intros c g1 s1 HI1 H1. apply wp_bind; [done|].
  assert (Hrest : forall m g2 s2, Inv g2 -> idle_lease s2 ->
    wp (update (fun s => set_cached s m);;! materializeTo m)%oprog (fun _ => idle) (fun _ => idle) g2 s2).
  { intros m g2 s2 HI2 H2. apply wp_idle; [|done]. apply oquiet_bind; [by split|]. intros _. apply quiet_materialize. }
  assert (Hret : forall m g2 s2, idle_lease s2 -> wp (ORet m)
    (fun m => wp (update (fun s => set_cached s m);;! materializeTo m)%oprog (fun _ => idle) (fun _ => idle)) (fun _ => idle) g2 s2).
  { intros m g2 s2 H2 g3 s3 Hr HI3. apply Hrest; [done|]. by apply (robust_rely i _ _ _ _ _ idle_robust Hr). }
  destruct c as [m|]; [by apply Hret|]. apply wp_catch; [done|].
  eapply wp_mono; [| |by apply create_wp]; [intros m g2 s2 HI2 H2; by apply Hrest|].
  intros err g2 s2 HI2 H2. cbn beta. destruct (isCasConflict err); [|by apply wp_throw; [apply idle_robust|]].
  apply wp_bind; [done|]. eapply wp_mono; [|intros ? ? ? ? H; exact H|by apply wp_idle; [apply quiet_request|]].
  intros [m|] g3 s3 HI3 H3; [by apply Hret|]. by apply wp_throw; [apply idle_robust|].
Qed.

Lemma owner_ahead h m e : chain h -> current h = Some m -> mf_epoch m < e -> owner h e = None.
Proof.
  intros Hc Hm He. destruct (owner h e) as [j|] eqn:E; [|done]. destruct (owner_some _ _ _ E) as [m' Hl].
  destruct (latest_event _ _ _ Hl) as (ev & Hin & <- & Hep). destruct (head_ahead _ _ Hc Hm _ Hin). lia.
Qed.

(** A claim that lands makes its writer the tenant of a new epoch, at a number
    nobody has written. *)
Lemma claim_lands m w x g : Inv g -> current g.2 = Some m ->
  let next := claim_manifest m w x in
  chain (Event i next (segments_of g) :: g.2) /\ tenure (mf_epoch next) next (write i next g) /\ slot_free next (write i next g).
Proof.
  intros HI Hc next. destruct (current_event _ _ Hc) as (ev & Hin & Hev). destruct (epochs_nonneg _ (inv_chain _ HI) _ Hin) as [He _]. rewrite Hev in He.
  assert (En : mf_epoch next = mf_epoch m + 1) by done. split_and!.
  - econstructor; [apply HI|exact Hc|by eapply TClaim|]. cbn. lia.
  - split; cbn [write snd]; [lia| |]; cbn [owner latest ev_man ev_by].
    + rewrite (owner_ahead _ _ _ (inv_chain _ HI) Hc) by lia. by rewrite Z.eqb_refl.
    + by rewrite Z.eqb_refl.
  - intros _. cbn. destruct (bk_segments g.1 !! _) as [b|] eqn:Eb; [|done]. destruct (inv_segments _ HI _ _ Eb) as (m' & Hm' & Hle & Hep).
    assert (m' = m) as -> by congruence. rewrite (proj2 (Z.ltb_lt _ _)) in Hle by done. lia.
Qed.

Lemma acquire_wp writerId ttl now g s : Inv g -> idle_lease s -> wp (acquire writerId ttl now) (fun _ => at_rest) (fun _ => at_rest) g s.
Proof.
  intros HI Hs. assert (Hidle : forall e g s, idle_lease s -> wp (OThrow e : oprog inst acquired) (fun _ => at_rest) (fun _ => at_rest) g s).
  { intros e g1 s1 H1. apply wp_throw; [apply at_rest_robust|]. by apply at_rest_none. }
  assert (Hidle' : forall a g s, idle_lease s -> wp (ORet a : oprog inst acquired) (fun _ => at_rest) (fun _ => at_rest) g s).
  { intros e g1 s1 H1. apply wp_ret; [apply at_rest_robust|]. by apply at_rest_none. }
  assert (Hread : forall (k : option manifest -> oprog inst acquired) g s, Inv g -> idle_lease s ->
    (forall c g s, Inv g -> idle_lease s -> wp (k c) (fun _ => at_rest) (fun _ => at_rest) g s) ->
    wp (obind readManifest k) (fun _ => at_rest) (fun _ => at_rest) g s).
  { intros k g1 s1 HI1 H1 Hk. apply wp_bind; [done|]. eapply wp_mono; [| |by apply wp_idle; [apply quiet_request|]]; [by auto|].
    intros err g2 s2 _ ?. by apply at_rest_none. }
  unfold acquire. apply Hread; [done..|]. intros [m|] g1 s1 HI1 H1; [|by apply Hidle]. destruct (lease_refused m writerId now); [by apply Hidle'|].
  apply wp_bind; [done|]. eapply wp_mono; [| |by apply wp_idle; [apply quiet_materialize|]]; [|intros err g2 s2 _ ?; by apply at_rest_none].
  intros [] g2 s2 HI2 H2. set (next := claim_manifest _ _ _). apply wp_catch; [done|]. apply wp_bind; [done|].
  assert (Hpoison : forall err g s, Inv g -> idle_lease s -> wp (update (fun s => set_poisoned s true);;! OThrow err : oprog inst acquired)%oprog
      (fun _ => at_rest) (fun _ => at_rest) g s).
  { intros err g3 s3 HI3 H3. apply wp_bind; [done|]. apply wp_update; [apply robust_wp|]. intros g4 s4 Hr HI4. apply Hidle.
    exact (robust_rely i _ _ _ _ _ idle_robust Hr H3). }
  apply (wp_cas _ idle); [apply idle_robust|done| |].
  - intros g3 s3 HI3 H3 err. split; [apply robust_wp|]. cbn beta. destruct (isCasConflict err); [|by apply Hpoison].
    apply Hread; [done..|]. intros [m'|] g4 s4 HI4 H4; [by apply Hidle'|by apply Hidle].
  - intros g3 s3 HI3 H3 Hcur. destruct (claim_lands m writerId (now + ttl) g3 HI3 Hcur) as (Hch & HT & HF). fold next in Hch, HT, HF.
    split_and!; [done|by eapply same_snapshot|]. intros HI4. split_and!; [apply robust_wp| |by apply Hpoison].
    apply wp_bind; [done|]. apply wp_update; [apply robust_wp|]. intros g5 s5 Hr5 HI5.
    pose proof (stable_rely i _ _ _ _ _ (slot_free_stable i (mf_epoch next) next) Hr5 (conj HT HF)) as HTF.
    apply wp_ret; [apply at_rest_robust|]. apply (acting_at_rest (mf_epoch next) next). split; [done|]. split_and!; [done..|]. by intros e w [= <- _].
Qed.

(** * Garbage collection *)

(** What gc works under: a rested object, and a manifest of the history. *)
Definition collecting (e : Z) (m : manifest) (g : gst) (s : inst) : Prop := rested e g s /\ (exists ev, ev ∈ g.2 /\ ev_man ev = m).
Lemma collecting_robust e m : robust (collecting e m).
Proof. apply robust_and; [apply rested_robust|apply robust_stable, lasting_stable, event_lasting]. Qed.
Lemma collecting_at_rest e m g s : collecting e m g s -> at_rest g s.
Proof. intros [H _]. by eapply rested_at_rest. Qed.

Lemma tenant_drop e b h s n : tenant e (b, h) s -> tenant e (with_segments b (delete n (bk_segments b)), h) s.
Proof.
  intros [H1 H2 H3]. split; [done..|]. intros Hp. destruct (H3 Hp) as [[HT HF] Hn]. split; [split; [by destruct HT|]|done].
  intros Hc. cbn. apply lookup_delete_None. right. exact (HF Hc).
Qed.
Lemma tenant_drop_snapshot e b h s ts : tenant e (b, h) s -> tenant e (with_snapshots b (delete ts (bk_snapshots b)), h) s.
Proof. intros [H1 H2 H3]. split; [done..|]. intros Hp. destruct (H3 Hp) as [[HT HF] Hn]. split; [split; [by destruct HT|exact HF]|done]. Qed.

Lemma gc_floor_le segBase ws : gc_floor segBase ws <= segBase.
Proof. unfold gc_floor. revert segBase. induction ws as [|w ws IH]; intros b; cbn; [lia|]. specialize (IH (Z.min b w)). lia. Qed.

(** Programs that only make harmless requests. *)
Fixpoint requests {A} (p : oprog inst A) : Prop :=
  match p with
  | ORet _ | OThrow _ => True
  | OVis op k => benign op /\ forall r, requests (k r)
  | OState _ _ _ => False
  end.
Lemma requests_bind {A B} (p : oprog inst A) (f : A -> oprog inst B) : requests p -> (forall a, requests (f a)) -> requests (obind p f).
Proof. intros Hp Hf. induction p as [a|err|op k IH|X h k IH]; cbn in *; [done|done| |done]. destruct Hp. split; auto. Qed.
Lemma requests_one op : benign op -> requests (request op).
Proof. intros Hb. split; [done|]. by intros []. Qed.

Lemma requests_watermarks : requests readConsumerWatermarks.
Proof.
  apply requests_bind; [by apply requests_one|]. intros ids. induction ids as [|id ids IH]; [done|]. cbn [read_watermarks].
  apply requests_bind; [by apply requests_one|]. intros w. by apply requests_bind.
Qed.

Lemma wp_requests {A} (R : assertion) (p : oprog inst A) : robust R -> requests p ->
  forall g s, R g s -> wp p (fun _ => R) (fun _ => R) g s.
Proof.
  intros HR. induction p as [a|err|op k IH|X h k IH]; intros Hq g s H; [by apply wp_ret|by apply wp_throw| |done].
  destruct Hq as [Hb Hq]. apply (wp_benign i R); [done..|]. auto.
Qed.

Lemma wp_collecting {A B} e m (p : oprog inst A) (f : A -> oprog inst B) Q g s :
  Inv g -> wp p (fun _ => collecting e m) (fun _ => collecting e m) g s ->
  (forall a g s, Inv g -> collecting e m g s -> wp (f a) Q (fun _ => at_rest) g s) -> wp (obind p f) Q (fun _ => at_rest) g s.
Proof.
  intros HI Hp Hf. apply wp_bind; [done|]. eapply wp_mono; [| |exact Hp]; [by auto|]. intros err g1 s1 _ H. exact (collecting_at_rest _ _ _ _ H).
Qed.

Lemma gc_wp g s : Inv g -> at_rest g s -> wp gc (fun _ => at_rest) (fun _ => at_rest) g s.
Proof.
  intros HI HJ. unfold gc. assert (Hdone : forall a g s, at_rest g s -> wp (ORet a : oprog inst (Z * Z)) (fun _ => at_rest) (fun _ => at_rest) g s).
  { intros a g1 s1 H. by apply wp_ret; [apply at_rest_robust|]. }
  apply wp_bind; [done|]. apply wp_local. intros g1 s1 Hr HI1. pose proof (robust_rely i _ _ _ _ _ at_rest_robust Hr HJ) as HJ1.
  destruct (in_poisoned s1) eqn:Ep; cbn [fst snd]; [by split; [apply at_rest_robust|]|]. split; [apply robust_wp|].
  destruct (in_held s1) as [[e w]|] eqn:Eh; [|by apply Hdone]. rewrite bool_decide_eq_true_2 by done. cbn [negb].
  pose proof (rested_acting _ _ _ (at_rest_rested _ _ _ _ HJ1 Eh) Ep) as HA. set (m0 := in_cached s1) in *.
  apply wp_bind; [done|]. apply (wp_readManifest i (acting e m0)); [apply acting_robust|done| |].
  2: { intros g2 s2 _ HA2. split; [apply at_rest_robust|]. by eapply acting_at_rest. }
  intros g2 s2 HI2 HA2. split; [apply robust_wp|]. destruct (current g2.2) as [m|] eqn:Hcur.
  2: { apply wp_throw; [apply at_rest_robust|]. by eapply acting_at_rest. }
  destruct (current_event _ _ Hcur) as (ev & Hev). apply wp_bind; [done|]. apply wp_local. intros g3 s3 Hr3 HI3.
  pose proof (robust_rely i _ _ _ _ _ (acting_robust e m0) Hr3 HA2) as HA3.
  destruct (in_held s3) as [[e' w']|] eqn:Eh3; cbn [fst snd]; [|by split; [apply at_rest_robust|apply at_rest_none]].
  destruct (proj2 HA3) as (E1 & E2 & E3 & Hh3). rewrite (Hh3 _ _ Eh3). destruct (Z.eqb_spec (mf_epoch m) e) as [He|He]; cbn [fst snd].
  2: { split; [apply robust_wp|]. by apply Hdone, at_rest_none. }
  split; [apply robust_wp|]. cbn [negb].
  assert (m = m0) as -> by (symmetry in He; pose proof (tn_latest _ _ _ _ (proj1 (proj1 HA2))) as Hl; apply current_latest in Hcur; congruence).
  assert (HC : collecting e m0 g3 (set_cached s3 m0)).
  { split; [apply (acting_rested e m0); split; [exact (proj1 HA3)|by split_and!]|]. apply (stable_rely i _ _ _ _ _ (lasting_stable i _ (event_lasting m0)) Hr3). exact (ex_intro _ ev Hev). }
  destruct (mf_snapshot m0) as [[keep segBase]|] eqn:Es; [|by apply Hdone; eapply collecting_at_rest].
  apply (wp_collecting e m0); [done|by apply wp_requests; [apply collecting_robust|apply requests_watermarks|]|]. intros ws g4 s4 HI4 HC4.
  apply (wp_collecting e m0); [done|by apply wp_requests; [apply collecting_robust|apply requests_one|]|]. intros segs g5 s5 HI5 HC5.
  apply (wp_collecting e m0); [done| |].
  { apply wp_delete_where; [apply collecting_robust| |done|done]. intros n g6 s6 HI6 HC6 Hn. apply Z.leb_le in Hn.
    apply (wp_deleteSegment i _ m0); [apply collecting_robust|done|by intros ? ? [_ ?]| |].
    - unfold base_of, mf_snapshotSegBase. rewrite Es. cbn. pose proof (gc_floor_le segBase ws). lia.
    - intros [b h] s7 _ [[HT Hh] Hx]. split; [split; [by apply tenant_drop|done]|done]. }
  intros d g6 s6 HI6 HC6. apply (wp_collecting e m0); [done|by apply wp_requests; [apply collecting_robust|apply requests_one|]|]. intros snaps g7 s7 HI7 HC7.
  apply (wp_collecting e m0); [done| |].
  { apply wp_delete_where; [apply collecting_robust| |done|done]. intros n g8 s8 HI8 HC8 Hn. apply Z.ltb_lt in Hn.
    apply (wp_deleteSnapshot i _ m0 _ keep); [apply collecting_robust|done|by intros ? ? [_ ?]| |done|].
    - unfold mf_snapshotTs. by rewrite Es.
    - intros [b h] s9 _ [[HT Hh] Hx]. split; [split; [by apply tenant_drop_snapshot|done]|done]. }
  intros d' g8 s8 HI8 HC8. apply Hdone. by eapply collecting_at_rest.
Qed.

(** * Consumers *)

Lemma publish_wp id n g s : at_rest g s -> wp (publishConsumerWatermark id n) (fun _ => at_rest) (fun _ => at_rest) g s.
Proof.
  intros HJ. apply wp_requests; [apply at_rest_robust| |done]. unfold publishConsumerWatermark. generalize 5%nat as k.
  induction k as [|k IH]; [done|]. cbn [publish_attempts]. apply requests_bind; [by apply requests_one|]. intros c.
  split; [done|]. intros [[]|err]; [done|]. cbn. destruct (isCasConflict err); cbn; done.
Qed.
Lemma remove_wp id g s : at_rest g s -> wp (removeConsumer id) (fun _ => at_rest) (fun _ => at_rest) g s.
Proof. intros HJ. by apply wp_requests; [apply at_rest_robust|apply requests_one|]. Qed.
End methods.
