(* ===== verification/ObjectShard.v ===== *)
(** The writers of one shard, together.

    A shard is a bucket and any number of store objects.  A run is a list of
    labels: an object is opened (again), a method is called on it, it takes one
    step of the method (the outcome of a request being the label's), it answers,
    it releases its lease.  Steps of different objects interleave freely.

    Runs of a shard: a handover of the lease with commits on both sides, and the
    two ways in which a stale segment replaces an acknowledged commit. *)
From Stdlib Require Import ZArith Lia Sorted.
From stdpp Require Import base list sets gmap strings relations.
From S2P Require Import Prelude JsBase JsText Values IdCodec DocStore SqliteDocStore ObjectStore ObjectDocStore ObjectHistory ObjectWp ObjectMethods.

(** * The shard *)

Inductive call :=
  | COpen
  | CAcquire (writerId : jsstr) (leaseTtlMs now : Z)
  | CHeartbeat (now leaseTtlMs : Z)
  | CRelinquish
  | CCommit (units : list commit_unit) (shardId : option jsstr)
  | CSnapshot
  | CGc
  | CPublish (consumerId : jsstr) (appliedSeqno : Z)
  | CRemove (consumerId : jsstr).

Inductive reply :=
  | RUnit
  | RAcquired (a : acquired)
  | RCommitted (tss : list Z)
  | RCollected (deleted : Z * Z).

Definition run_call (c : call) : oprog inst reply :=
  match c with
  | COpen => obind open_ (fun _ => ORet RUnit)
  | CAcquire w ttl now => obind (acquire w ttl now) (fun a => ORet (RAcquired a))
  | CHeartbeat now ttl => obind (heartbeat now ttl) (fun _ => ORet RUnit)
  | CRelinquish => obind relinquish (fun _ => ORet RUnit)
  | CCommit units shardId => obind (commitWriteBatch units shardId) (fun tss => ORet (RCommitted tss))
  | CSnapshot => obind snapshot (fun _ => ORet RUnit)
  | CGc => obind gc (fun d => ORet (RCollected d))
  | CPublish id n => obind (publishConsumerWatermark id n) (fun _ => ORet RUnit)
  | CRemove id => obind (removeConsumer id) (fun _ => ORet RUnit)
  end.

Record actor := Actor { ac_inst : inst; ac_prog : oprog inst reply; ac_call : option call }.

(** The history is what the bucket's manifest went through. *)
Record shard := Shard
  { sh_bucket : bucket; sh_history : history; sh_actors : gmap nat actor; sh_acks : list (nat * call * res reply) }.
Definition shard_empty : shard := Shard bucket_empty [] ∅ [].
Definition sh_gst (x : shard) : gst := (sh_bucket x, sh_history x).

Inductive label :=
  | LOpen (i : nat) (localStore : sqlite_store)
  | LCall (i : nat) (c : call)
  | LStep (i : nat) (oc : outcome)
  | LDone (i : nat)
  | LRelease (i : nat).

Definition set_actor (x : shard) (i : nat) (a : actor) : shard := Shard (sh_bucket x) (sh_history x) (<[i := a]> (sh_actors x)) (sh_acks x).

Definition actor_step (x : shard) (i : nat) (a : actor) (oc : outcome) : shard :=
  let h := match ac_prog a with OVis op _ => history_step i op oc (sh_gst x) | _ => sh_history x end in
  let '(b, s, p) := ostep (ac_prog a) oc (sh_bucket x) (ac_inst a) in
  Shard b h (<[i := Actor s p (ac_call a)]> (sh_actors x)) (sh_acks x).

Definition shard_step (x : shard) (l : label) : shard :=
  match l with
  | LOpen i local => set_actor x i (Actor (inst_new local) (run_call COpen) (Some COpen))
  | LCall i c =>
      match sh_actors x !! i with
      | Some (Actor s _ None) => set_actor x i (Actor s (run_call c) (Some c))
      | _ => x
      end
  | LStep i oc =>
      match sh_actors x !! i with
      | Some a => match ac_call a with Some _ => actor_step x i a oc | None => x end
      | None => x
      end
  | LDone i =>
      match sh_actors x !! i with
      | Some (Actor s p (Some c)) =>
          match oresult p with
          | Some r => let y := set_actor x i (Actor s p None) in Shard (sh_bucket y) (sh_history y) (sh_actors y) (sh_acks y ++ [(i, c, r)])
          | None => x
          end
      | _ => x
      end
  | LRelease i => match sh_actors x !! i with Some a => set_actor x i (Actor (release (ac_inst a)) (ac_prog a) (ac_call a)) | None => x end
  end.

Definition shard_run (x : shard) (ls : list label) : shard := fold_left shard_step ls x.

(** What the proofs need of the callers and of the bucket: a lease is taken by an
    object that holds none, a snapshot by one that holds one, and an immutable
    write that fails was not carried out. *)
Definition prudent (x : shard) (l : label) : bool :=
  match l with
  | LCall i (CAcquire _ _ _) => match sh_actors x !! i with Some a => bool_decide (in_held (ac_inst a) = None) | None => true end
  | LCall i CSnapshot => match sh_actors x !! i with Some a => bool_decide (is_Some (in_held (ac_inst a))) | None => true end
  | LCall i COpen => false
  | LStep i oc => match sh_actors x !! i with Some (Actor _ (OVis op _) _) => careful op oc | _ => true end
  | _ => true
  end.

Fixpoint prudent_run (x : shard) (ls : list label) : bool :=
  match ls with [] => true | l :: ls' => prudent x l && prudent_run (shard_step x l) ls' end.

(** * The invariant *)

Definition call_post (i : nat) (c : call) (r : reply) (g : gst) (s : inst) : Prop :=
  match c, r with
  | CCommit units _, RCommitted tss => committed_as i units tss g /\ at_rest i g s
  | CCommit _ _, _ => False
  | _, _ => at_rest i g s
  end.

Definition actor_ok (i : nat) (g : gst) (a : actor) : Prop :=
  match ac_call a with
  | Some c => wp i (ac_prog a) (call_post i c) (fun _ => at_rest i) g (ac_inst a)
  | None => at_rest i g (ac_inst a)
  end.

Definition ack_ok (g : gst) (ack : nat * call * res reply) : Prop :=
  match ack with
  | (i, CCommit units _, Ok (RCommitted tss)) => committed_as i units tss g
  | _ => True
  end.

Record shard_inv (x : shard) : Prop := {
  si_shared : Inv (sh_gst x);
  si_actors i a : sh_actors x !! i = Some a -> actor_ok i (sh_gst x) a;
  si_acks : Forall (ack_ok (sh_gst x)) (sh_acks x)
}.

Lemma call_post_robust i c r : robust i (call_post i c r).
Proof.
  destruct c; try apply at_rest_robust. destruct r; try apply robust_const.
  apply robust_and; [apply robust_stable, committed_stable|apply at_rest_robust].
Qed.
Lemma call_post_rest i c r g s : call_post i c r g s -> at_rest i g s.
Proof. destruct c; try done. by destruct r; [..|intros [_ ?]|]. Qed.

(** Every method, from an object at rest. *)
Lemma run_call_wp i c g s : Inv g -> at_rest i g s ->
  match c with COpen | CAcquire _ _ _ => in_held s = None | CSnapshot => is_Some (in_held s) | _ => True end ->
  wp i (run_call c) (call_post i c) (fun _ => at_rest i) g s.
Proof.
  intros HI HJ Hc.
  assert (Hret : forall A (p : oprog inst A) (f : A -> reply) (Q : A -> gst -> inst -> Prop) E,
    (forall a g s, Q a g s -> call_post i c (f a) g s) -> (forall e g s, E e g s -> at_rest i g s) -> wp i p Q E g s ->
    wp i (obind p (fun a => ORet (f a))) (call_post i c) (fun _ => at_rest i) g s).
  { intros A p f Q E HQ HE Hp. apply wp_bind; [done|]. eapply wp_mono; [| |exact Hp]; [|by intros; eapply HE].
    intros a g1 s1 _ H. apply wp_ret; [apply call_post_robust|by apply HQ]. }
  destruct c; cbn [run_call]; cbn in Hc.
  - eapply Hret; [..|by apply open_wp]; done.
  - eapply Hret; [..|by apply acquire_wp]; done.
  - eapply Hret; [..|by apply heartbeat_wp]; done.
  - eapply Hret; [..|by apply relinquish_wp]; done.
  - eapply Hret; [..|by apply commitWriteBatch_wp]; done.
  - destruct Hc as [[e w] He]. apply (Hret _ snapshot (fun _ => RUnit) (fun _ => rested i e) (fun _ => rested i e)); [..|by eapply snapshot_wp, at_rest_rested];
      intros ? ? ? H; exact (rested_at_rest _ _ _ _ H).
  - eapply Hret; [..|by apply gc_wp]; done.
  - eapply Hret; [..|by apply publish_wp]; done.
  - eapply Hret; [..|by apply remove_wp]; done.
Qed.

Lemma actor_ok_drift i g g' a : drift i (g, ac_inst a) (g', ac_inst a) -> actor_ok i g a -> actor_ok i g' a.
Proof.
  intros Hd. unfold actor_ok. destruct (ac_call a); intros H.
  - eapply wp_rely; [exact H|]. by apply rtc_once.
  - by apply (at_rest_robust i _ _ Hd).
Qed.
Lemma ack_ok_move j g g' a : move j g g' -> ack_ok g a -> ack_ok g' a.
Proof. intros Hm. destruct a as [[i []] [[]|]]; try done. exact (committed_lasting i _ _ j g g' Hm). Qed.

(** One actor changes, alone. *)
Lemma set_actor_inv x i a : shard_inv x -> actor_ok i (sh_gst x) a -> shard_inv (set_actor x i a).
Proof.
  intros [H1 H2 H3] Ha. split; [done| |done]. intros j b. cbn. destruct (decide (j = i)) as [->|Hne].
  - rewrite lookup_insert_eq. by intros [= <-].
  - rewrite lookup_insert_ne by done. apply H2.
Qed.

(** The step of a program: a move, and what [wp] says after it. *)
Lemma actor_step_move x i a c oc : shard_inv x -> sh_actors x !! i = Some a -> ac_call a = Some c -> prudent x (LStep i oc) ->
  let y := actor_step x i a oc in
  move i (sh_gst x) (sh_gst y) /\ sh_acks y = sh_acks x /\ exists a', sh_actors y = <[i := a']> (sh_actors x) /\ actor_ok i (sh_gst y) a'.
Proof.
  intros HX Ha Hcall Hpr. cbn in Hpr. rewrite Ha in Hpr. pose proof (si_actors _ HX _ _ Ha) as Hok.
  destruct a as [s p c']. cbn in Hcall. subst c'. unfold actor_step, actor_ok in *. cbn [ac_prog ac_inst ac_call] in *.
  assert (Hcalm : move i (sh_gst x) (sh_gst x)) by (constructor; apply calm_refl).
  destruct p as [v|e|op k|X f k]; cbn [ostep].
  - split_and!; [exact Hcalm|done|]. eexists. split; [done|exact Hok].
  - split_and!; [exact Hcalm|done|]. eexists. split; [done|exact Hok].
  - destruct (Hok _ _ (rtc_refl _ _) (si_shared _ HX) oc Hpr) as [Hm Hw]. unfold gstep in Hm, Hw.
    destruct (os_run op oc (sh_bucket x)) as [b' r] eqn:Er. cbn [sh_gst fst snd] in *. rewrite Er in Hm, Hw.
    split_and!; [exact Hm|done|]. eexists. split; [done|exact Hw].
  - pose proof (Hok _ _ (rtc_refl _ _) (si_shared _ HX)) as Hw. destruct (f s) as [s' v].
    split_and!; [exact Hcalm|done|]. eexists. split; [done|exact Hw].
Qed.

(** ... which the others put up with. *)
Lemma moved_inv x y i a' : shard_inv x -> move i (sh_gst x) (sh_gst y) -> sh_acks y = sh_acks x ->
  sh_actors y = <[i := a']> (sh_actors x) -> actor_ok i (sh_gst y) a' -> shard_inv y.
Proof.
  intros [H1 H2 H3] Hm Hacks Hact Ha'. split.
  - by eapply move_Inv.
  - intros j b. rewrite Hact. destruct (decide (j = i)) as [->|Hne]; [rewrite lookup_insert_eq; by intros [= <-]|].
    rewrite lookup_insert_ne by done. intros Hb. eapply actor_ok_drift; [|by apply H2]. by apply (drift_other j i).
  - rewrite Hacks. eapply Forall_impl; [exact H3|]. intros ack. by apply (ack_ok_move i).
Qed.

Lemma shard_step_inv x l : shard_inv x -> prudent x l -> shard_inv (shard_step x l).
Proof.
  intros HX Hpr. destruct l as [i local|i c|i oc|i|i]; cbn [shard_step].
  - apply set_actor_inv; [done|]. apply run_call_wp; [apply HX|by apply at_rest_none|done].
  - destruct (sh_actors x !! i) as [[s p [c'|]]|] eqn:Ea; try done. apply set_actor_inv; [done|].
    apply run_call_wp; [apply HX|exact (si_actors _ HX _ _ Ea)|]. cbn in Hpr. rewrite Ea in Hpr. cbn in Hpr.
    destruct c; try done; by apply bool_decide_unpack in Hpr.
  - destruct (sh_actors x !! i) as [a|] eqn:Ea; [|done]. destruct (ac_call a) as [c|] eqn:Ec; [|done].
    destruct (actor_step_move x i a c oc HX Ea Ec Hpr) as (Hm & Hk & a' & Ha' & Hok). by eapply moved_inv.
  - destruct (sh_actors x !! i) as [[s p [c|]]|] eqn:Ea; try done. destruct (oresult p) as [r|] eqn:Er; [|done].
    pose proof (si_actors _ HX _ _ Ea) as Hok. unfold actor_ok in Hok. cbn in Hok.
    assert (Hrest : at_rest i (sh_gst x) s /\ ack_ok (sh_gst x) (i, c, r)).
    { destruct p as [v|e|? ?|? ? ?]; try done; injection Er as <-; pose proof (Hok _ _ (rtc_refl _ _) (si_shared _ HX)) as H.
      - split; [by eapply call_post_rest|]. destruct c; try done. destruct v; try done. apply H.
      - split; [exact H|]. by destruct c. }
    destruct Hrest as [Hrest Hack]. destruct (set_actor_inv x i (Actor s p None) HX Hrest) as [K1 K2 K3].
    split; [done..|]. apply Forall_app. split; [exact K3|by constructor].
  - destruct (sh_actors x !! i) as [a|] eqn:Ea; [|done]. apply set_actor_inv; [done|]. pose proof (si_actors _ HX _ _ Ea) as Hok.
    unfold actor_ok in *. cbn. destruct (ac_call a).
    + eapply wp_rely; [exact Hok|]. apply rtc_once, drift_release.
    + by apply at_rest_none.
Qed.

Lemma shard_empty_inv : shard_inv shard_empty.
Proof. split; [apply Inv_empty|intros i a; cbn; by rewrite lookup_empty|constructor]. Qed.

Lemma prudent_run_inv x ls : shard_inv x -> prudent_run x ls -> shard_inv (shard_run x ls).
Proof.
  revert x. induction ls as [|l ls IH]; intros x HX Hp; [done|]. cbn in *. apply andb_prop_elim in Hp as [H1 H2].
  apply IH; [by apply shard_step_inv|done].
Qed.

(** A step of the shard is a move of one of its writers. *)
Lemma shard_step_lasting F x l : lasting F -> shard_inv x -> prudent x l -> F (sh_gst x) -> F (sh_gst (shard_step x l)).
Proof.
  intros HF HX Hpr H. destruct l as [i local|i c|i oc|i|i]; cbn [shard_step]; try exact H.
  - by destruct (sh_actors x !! i) as [[s p [c'|]]|].
  - destruct (sh_actors x !! i) as [a|] eqn:Ea; [|done]. destruct (ac_call a) as [c|] eqn:Ec; [|done].
    destruct (actor_step_move x i a c oc HX Ea Ec Hpr) as (Hm & _). by eapply HF.
  - destruct (sh_actors x !! i) as [[s p [c|]]|]; try done. by destruct (oresult p).
  - by destruct (sh_actors x !! i).
Qed.
Lemma shard_run_lasting F x ls : lasting F -> shard_inv x -> prudent_run x ls -> F (sh_gst x) -> F (sh_gst (shard_run x ls)).
Proof.
  intros HF. revert x. induction ls as [|l ls IH]; intros x HX Hp H; [done|]. cbn in *. apply andb_prop_elim in Hp as [H1 H2].
  apply IH; [by apply shard_step_inv|done|by apply shard_step_lasting].
Qed.

(** * What a run shows *)

Lemma run_Inv ls : prudent_run shard_empty ls -> Inv (sh_gst (shard_run shard_empty ls)).
Proof. intros H. apply si_shared, prudent_run_inv; [apply shard_empty_inv|done]. Qed.

Lemma inv_head x m : Inv (sh_gst x) -> bk_manifest (sh_bucket x) = Some m -> current (sh_history x) = Some m.
Proof. intros HI Hm. rewrite <- Hm. symmetry. exact (inv_manifest _ HI). Qed.

(** The record of a commit: the bytes of its rows, under its timestamps. *)
Definition records (i : nat) (units : list commit_unit) (tss : list Z) (c : commit_rec) : Prop :=
  cr_by c = i /\ last tss = Some (cr_ts c) /\
  exists ts, tss = ts_list ts units /\ encodeSegment (segment_of (stamp_units ts units)) = Ok (cr_body c).

(** The bucket still has it, or the snapshot the manifest names replaces it. *)
Definition retained (b : bucket) (m : manifest) (c : commit_rec) : Prop :=
  cr_seqno c ∈ mf_segments m /\ bk_segments b !! cr_seqno c = Some (cr_body c) \/
  exists ts base, mf_snapshot m = Some (ts, base) /\ cr_seqno c <= base /\ is_Some (bk_snapshots b !! ts).

(** C4: a commit that was acknowledged is durable in every prudent run, however
    the steps of any number of writers interleave, crash and fail.  A run is
    prudent when no write of a segment is carried out without its answer
    arriving, a lease is taken only by an object that holds none, and a snapshot
    by one that holds one; every other request may fail before or after it was
    carried out.  Then the log has one record of exactly the commit's rows under
    exactly its timestamps, and the bucket keeps the record's segment, with those
    bytes, until a snapshot replaces it.  (Without the first two conditions an
    acknowledged commit can be lost: [lost_answer_replaces_next_commit] and
    [failed_reacquire_replaces_commit].) *)
Theorem acked_commits_are_durable ls i units shardId tss m : prudent_run shard_empty ls ->
  let x := shard_run shard_empty ls in
  (i, CCommit units shardId, Ok (RCommitted tss)) ∈ sh_acks x -> units <> [] -> bk_manifest (sh_bucket x) = Some m ->
  exists c, c ∈ log_of (sh_history x) /\ records i units tss c /\ retained (sh_bucket x) m c.
Proof.
  intros Hp x Hack Hu Hm. destruct (prudent_run_inv _ _ shard_empty_inv Hp) as [HI _ HA]. fold x in HI, HA.
  rewrite Forall_forall in HA. destruct (HA _ Hack) as [[? _]|(c & ts & Hc & Hby & Hts & Hlast & Henc)]; [done|].
  exists c. split; [exact Hc|]. split; [split_and!; eauto|]. apply inv_head in Hm; [|done].
  destruct (log_described _ _ (inv_chain _ HI) Hm) as [Hseg _ _ [_ Hb] _ Hnn]. cbn in Hseg, Hnn.
  destruct (Z.lt_ge_cases (base_of m) (cr_seqno c)) as [Hlt|Hge].
  - left. split; [|by apply (inv_log _ HI c m)]. rewrite Hseg. apply list_elem_of_filter. split; [done|]. by apply list_elem_of_fmap_2.
  - right. unfold base_of, mf_snapshotSegBase in *. destruct (mf_snapshot m) as [[ts' base]|] eqn:Es; cbn in *.
    + exists ts', base. split_and!; [done|done|]. apply (inv_snapshot _ HI m); [done|]. unfold mf_snapshotTs. by rewrite Es.
    + specialize (Hnn c Hc). lia.
Qed.

(** In a prudent run (no segment write loses its answer, a lease is taken
    only by an object that holds none, a snapshot by one that holds one) the
    manifest is never torn, whatever other requests fail and writers crash.
    Every segment it lists and the snapshot it names are in the bucket, garbage
    collection or not; the segments are the commits after the snapshot, in
    order, each with the bytes the log has. *)
Theorem manifest_never_torn ls m : prudent_run shard_empty ls ->
  let x := shard_run shard_empty ls in
  bk_manifest (sh_bucket x) = Some m ->
  mf_segments m = base.filter (fun n => base_of m < n) (cr_seqno <$> log_of (sh_history x)) /\
  (forall c, c ∈ log_of (sh_history x) -> base_of m < cr_seqno c -> bk_segments (sh_bucket x) !! cr_seqno c = Some (cr_body c)) /\
  (forall n, n ∈ mf_segments m -> is_Some (bk_segments (sh_bucket x) !! n)) /\
  (forall ts, mf_snapshotTs m = Some ts -> is_Some (bk_snapshots (sh_bucket x) !! ts) /\ ts <= mf_frontierTs m).
Proof.
  intros Hp x Hm. pose proof (run_Inv ls Hp) as HI. fold x in HI. apply inv_head in Hm; [|done].
  pose proof (ds_segments _ _ (log_described _ _ (inv_chain _ HI) Hm)) as Hseg. cbn in Hseg.
  assert (Hlog : forall c, c ∈ log_of (sh_history x) -> base_of m < cr_seqno c -> bk_segments (sh_bucket x) !! cr_seqno c = Some (cr_body c)).
  { intros c Hc Hb. by apply (inv_log _ HI c m). }
  split_and!; [done|done| |].
  - intros n Hn. rewrite Hseg in Hn. apply list_elem_of_filter in Hn as [Hb Hn]. apply list_elem_of_fmap in Hn as (c & -> & Hc).
    eexists. by apply Hlog.
  - intros ts Hts. split; [by apply (inv_snapshot _ HI m)|]. by apply (snapshot_past _ _ (inv_chain _ HI) Hm).
Qed.

(** The log is one total order.  Segment numbers and timestamps strictly
    increase, epochs do not decrease, every record of an epoch is by the one
    writer that claimed it, and the manifest's frontier is the last commit's. *)
Theorem log_is_totally_ordered ls : prudent_run shard_empty ls ->
  let x := shard_run shard_empty ls in
  StronglySorted rec_before (log_of (sh_history x)) /\
  (forall c, c ∈ log_of (sh_history x) -> owner (sh_history x) (cr_epoch c) = Some (cr_by c)) /\
  (forall m, bk_manifest (sh_bucket x) = Some m -> mf_frontierTs m = default 0 (cr_ts <$> last (log_of (sh_history x)))).
Proof.
  intros Hp x. pose proof (run_Inv ls Hp) as HI. fold x in HI. pose proof (inv_chain _ HI) as Hc. cbn in Hc. split_and!.
  - destruct (current (sh_history x)) as [m|] eqn:Em; [exact (ds_sorted _ _ (log_described _ _ Hc Em))|].
    destruct (sh_history x); [constructor|done].
  - intros c Hin. by apply log_owner.
  - intros m Hm. apply inv_head in Hm; [|done]. destruct (ds_frontier _ _ (log_described _ _ Hc Hm)). congruence.
Qed.

(** An epoch is closed once a later one is claimed. *)
Definition closed (e : Z) (log : list commit_rec) (g : gst) : Prop :=
  chain g.2 /\ (exists m, current g.2 = Some m /\ e < mf_epoch m) /\ forall c, c ∈ log_of g.2 -> cr_epoch c <= e -> c ∈ log.
Lemma closed_lasting e log : lasting (closed e log).
Proof.
  intros j g g' [g1 [C1 _ _ _]|? ? ? ? ? ?|? ? ? ?|? ? ? ? ? ?|next Hch _]; unfold closed; cbn [snd]; rewrite ?C1; try done.
  intros (Hc & (m & Hm & He) & Hlog). destruct (chain_current _ _ Hch) as [[Hnil _]|(m' & Hm' & Ht & _)]; [by rewrite Hnil in Hm|].
  assert (m' = m) as -> by congruence. split; [exact Hch|].
  assert (Hn : e < mf_epoch next) by (destruct (transition_grows _ _ Ht) as [[(E & _)|(E & _)] _]; cbn in E; lia).
  split; [by exists next|]. intros c Hin Hle. destruct (log_new _ _ _ _ Hch Hm Hin) as [Hin'|E]; [by apply Hlog|]. cbn in E. lia.
Qed.

(** Fencing.  Once a later epoch has been claimed, nothing more of an
    earlier one is committed, whatever its writer still does. *)
Theorem claimed_epoch_fences ls ls' e m : prudent_run shard_empty (ls ++ ls') ->
  let x := shard_run shard_empty ls in
  let y := shard_run shard_empty (ls ++ ls') in
  bk_manifest (sh_bucket x) = Some m -> e < mf_epoch m ->
  forall c, c ∈ log_of (sh_history y) -> cr_epoch c <= e -> c ∈ log_of (sh_history x).
Proof.
  intros Hp x y Hm He. assert (Hsplit : prudent_run shard_empty ls /\ prudent_run x ls').
  { unfold x. clear -Hp. revert Hp. generalize shard_empty as z. induction ls as [|l ls IH]; intros z Hp; [done|]. cbn in *.
    apply andb_prop_elim in Hp as [H1 H2]. destruct (IH _ H2). split; [by apply andb_prop_intro|done]. }
  destruct Hsplit as [H1 H2]. pose proof (prudent_run_inv _ _ shard_empty_inv H1) as HX. fold x in HX. pose proof (si_shared _ HX) as HI.
  assert (Hy : y = shard_run x ls') by apply fold_left_app.
  assert (Hcl : closed e (log_of (sh_history x)) (sh_gst y)).
  { rewrite Hy. apply shard_run_lasting; [apply closed_lasting|done|done|]. split_and!; [apply HI| |done].
    exists m. split; [by apply inv_head|done]. }
  apply Hcl.
Qed.

(** * The pieces *)

Definition note (n : Z) : commit_unit :=
  let id := DocId 10001 [n] in CommitUnit [LogEntry 0 id (Some (ResolvedDocument id (VObject [(js "note", VString [n])]))) None] [] None.

(** What a commit of one note writes at a timestamp. *)
Definition note_segment (ts n : Z) : res wire_segment := encodeSegment (segment_of (stamp_units ts [note n])).

Definition steps (i n : nat) : list label := repeat (LStep i Delivered) n.
(** A whole call, nothing failing. *)
Definition whole (i : nat) (c : call) : list label := LCall i c :: steps i 30 ++ [LDone i].
Definition opened (i : nat) : list label := LOpen i empty_store :: steps i 30 ++ [LDone i].

Definition writer_a : jsstr := js "a".
Definition writer_b : jsstr := js "b".

(** * A handover *)

Definition handover_run : list label :=
  opened 0 ++ whole 0 (CAcquire writer_a 10 0) ++ whole 0 (CCommit [note 65] None) ++
  opened 1 ++ whole 1 (CAcquire writer_b 10 100) ++ whole 1 (CCommit [note 66] None) ++ whole 1 CSnapshot ++
  whole 1 CGc ++ whole 0 (CCommit [note 67] None).

Definition handover_acks : list (nat * call * res reply) :=
  [(0%nat, COpen, Ok RUnit); (0%nat, CAcquire writer_a 10 0, Ok (RAcquired Acquired)); (0%nat, CCommit [note 65] None, Ok (RCommitted [1]));
   (1%nat, COpen, Ok RUnit); (1%nat, CAcquire writer_b 10 100, Ok (RAcquired Acquired)); (1%nat, CCommit [note 66] None, Ok (RCommitted [2]));
   (1%nat, CSnapshot, Ok RUnit); (1%nat, CGc, Ok (RCollected (2, 0))); (0%nat, CCommit [note 67] None, Throw FencedError)].

(** After the snapshot and the collection the bucket has no segment left. *)
Definition handover_manifest : manifest := Manifest 2 2 2 [] 3 writer_b 110 (Some (2, 2)).

Lemma handover_prudent : prudent_run shard_empty handover_run.
Proof. vm_compute. exact I. Qed.
Lemma handover_acked : sh_acks (shard_run shard_empty handover_run) = handover_acks.
Proof. vm_compute. reflexivity. Qed.
Lemma handover_left : bk_manifest (sh_bucket (shard_run shard_empty handover_run)) = Some handover_manifest.
Proof. vm_compute. reflexivity. Qed.

Lemma acked_commits_are_durable_witness : exists c,
  c ∈ log_of (sh_history (shard_run shard_empty handover_run)) /\ records 0 [note 65] [1] c /\
  retained (sh_bucket (shard_run shard_empty handover_run)) handover_manifest c.
Proof.
  apply (acked_commits_are_durable handover_run 0 [note 65] None [1] handover_manifest); [exact handover_prudent| |done|exact handover_left].
  rewrite handover_acked. do 2 right. left.
Defined.

Lemma manifest_never_torn_witness : exists m, bk_manifest (sh_bucket (shard_run shard_empty handover_run)) = Some m /\
  (forall ts, mf_snapshotTs m = Some ts -> is_Some (bk_snapshots (sh_bucket (shard_run shard_empty handover_run)) !! ts) /\ ts <= mf_frontierTs m).
Proof. exists handover_manifest. split; [exact handover_left|]. apply (manifest_never_torn handover_run _ handover_prudent handover_left). Defined.

Lemma log_is_totally_ordered_witness : StronglySorted rec_before (log_of (sh_history (shard_run shard_empty handover_run))) /\
  cr_seqno <$> log_of (sh_history (shard_run shard_empty handover_run)) = [0; 2].
Proof. split; [apply (log_is_totally_ordered handover_run handover_prudent)|vm_compute; reflexivity]. Defined.

(** The first part ends with the claim of epoch 2. *)
Definition claimed_at : nat := length (opened 0 ++ whole 0 (CAcquire writer_a 10 0) ++ whole 0 (CCommit [note 65] None) ++ opened 1 ++ whole 1 (CAcquire writer_b 10 100)).

Lemma claimed_epoch_fences_witness :
  Forall (fun c => cr_epoch c <= 1 -> c ∈ log_of (sh_history (shard_run shard_empty (take claimed_at handover_run))))
    (log_of (sh_history (shard_run shard_empty (take claimed_at handover_run ++ drop claimed_at handover_run)))).
Proof.
  apply Forall_forall. eapply (claimed_epoch_fences (take claimed_at handover_run) (drop claimed_at handover_run) 1 (Manifest 2 1 1 [0] 2 writer_b 110 None)).
  - rewrite take_drop. exact handover_prudent.
  - vm_compute. reflexivity.
  - cbn. lia.
Defined.

(** * The answer of an immutable write is lost

    The segment of the first commit is written, but its answer does not come and
    the commit fails.  The object is as usable as before: the next commit takes
    the same number, its bytes are dropped for the ones that are there, and its
    conditional write of the manifest succeeds. *)
Definition lost_answer_run : list label :=
  opened 0 ++ whole 0 (CAcquire writer_a 10 0) ++
  LCall 0 (CCommit [note 65] None) :: steps 0 4 ++ [LStep 0 AnswerLost; LDone 0] ++
  whole 0 (CCommit [note 66] None).

(** A commit that failed because the answer of its segment write was lost
    becomes durable in the place of the next one: that one is acknowledged, and
    its rows are nowhere. *)
Theorem lost_answer_replaces_next_commit :
  let x := shard_run shard_empty lost_answer_run in
  sh_acks x = [(0%nat, COpen, Ok RUnit); (0%nat, CAcquire writer_a 10 0, Ok (RAcquired Acquired));
               (0%nat, CCommit [note 65] None, Throw NetworkError); (0%nat, CCommit [note 66] None, Ok (RCommitted [1]))] /\
  Ok <$> (cr_body <$> log_of (sh_history x)) = [note_segment 1 65] /\
  (fun m => (mf_segments m, mf_frontierTs m)) <$> bk_manifest (sh_bucket x) = Some ([0], 1) /\
  Ok <$> (bk_segments (sh_bucket x) !! 0) = Some (note_segment 1 65) /\
  note_segment 1 65 <> note_segment 1 66.
Proof. split_and!; vm_compute; [reflexivity..|discriminate]. Qed.

(** * A lease is taken again by an object that still holds the old one

    Writer [a] holds epoch 1; [b] has claimed epoch 2.  [a] tries to take the
    lease back and catches up with the manifest, but [b]'s heartbeat comes
    first.  [a]'s next commit writes its segment at [b]'s next number before its
    conditional write fails; [b]'s next commit is acknowledged with those bytes. *)
Definition reacquire_run : list label :=
  opened 0 ++ whole 0 (CAcquire writer_a 10 0) ++ whole 0 (CCommit [note 65] None) ++
  opened 1 ++ whole 1 (CAcquire writer_b 10 100) ++
  LCall 0 (CAcquire writer_a 10 200) :: steps 0 3 ++ whole 1 (CHeartbeat 201 10) ++ steps 0 30 ++ [LDone 0] ++
  whole 0 (CCommit [note 67] None) ++
  whole 1 (CCommit [note 66] None).

(** A store object that failed to take its lease back is not as usable as
    before: its fenced commit replaces the current owner's next one. *)
Theorem failed_reacquire_replaces_commit :
  let x := shard_run shard_empty reacquire_run in
  drop 5 (sh_acks x) = [(1%nat, CHeartbeat 201 10, Ok RUnit); (0%nat, CAcquire writer_a 10 200, Ok (RAcquired (HeldBy writer_b 211)));
                        (0%nat, CCommit [note 67] None, Throw FencedError); (1%nat, CCommit [note 66] None, Ok (RCommitted [2]))] /\
  Ok <$> (cr_body <$> log_of (sh_history x)) = [note_segment 1 65; note_segment 2 67] /\
  Ok <$> (bk_segments (sh_bucket x) !! 2) = Some (note_segment 2 67) /\
  note_segment 2 67 <> note_segment 2 66.
Proof. split_and!; vm_compute; [reflexivity..|discriminate]. Qed.
