(* ===== verification/Query.v ===== *)
(** Filters, index keys and query plans: packages/query-engine/src/filter.ts,
    index-manager.ts and plan.ts. *)
From Stdlib Require Import ZArith Lia Sorted.
From stdpp Require Import base list sets strings.
From S2P Require Import Prelude JsBase JsText Float64 Values KeyCodec KeyRanges IdCodec DocStore.

(** * filter.ts *)

Inductive comparison_op := OpEq | OpNeq | OpLt | OpLte | OpGt | OpGte.

Inductive filter_expr :=
  | FCompare (op : comparison_op) (field : jsstr) (v : value)
  | FAnd (clauses : list filter_expr)
  | FOr (clauses : list filter_expr)
  | FNot (clause : filter_expr).

(** What reading a property of a document can give: nothing, a value, or a
    member every plain object inherits (a function, or [Object.prototype]
    itself). *)
Inductive field_value := FUndefined | FFunction | FProto | FValue (v : value).

Definition dot : Z := 46.

(** The function members of [Object.prototype]. *)
Definition prototype_functions : list jsstr :=
  js <$> ["constructor"; "__defineGetter__"; "__defineSetter__"; "hasOwnProperty"; "__lookupGetter__";
          "__lookupSetter__"; "isPrototypeOf"; "propertyIsEnumerable"; "toString"; "valueOf";
          "toLocaleString"]%string.

Definition prototype_member (name : jsstr) : field_value :=
  if bool_decide (name ∈ prototype_functions) then FFunction else FUndefined.

(** [cur[part]], undefined where the loop's guard returns early. *)
Definition read_member (cur : field_value) (part : jsstr) : field_value :=
  match cur with
  | FValue (VObject fs) =>
      match jm_get fs part with
      | Some v => FValue v
      | None => if bool_decide (part = proto_key) then FProto else prototype_member part
      end
  | FProto => if bool_decide (part = proto_key) then FValue VNull else prototype_member part
  | _ => FUndefined
  end.

Fixpoint walk_path (cur : field_value) (parts : list jsstr) : field_value :=
  match parts with
  | [] => cur
  | part :: parts' =>
      match read_member cur part with
      | FUndefined => FUndefined
      | next => walk_path next parts'
      end
  end.

Definition evaluateFieldPath (doc : value) (path : jsstr) : field_value :=
  walk_path (FValue doc) (js_split dot path).

(** [compareValues] on what a field gave: a function has no type rank, and the
    prototype object compares as an object without own properties. *)
Definition compare_field (f : field_value) (v : value) : res comparison :=
  match f with
  | FValue w => Ok (compareValues w v)
  | FProto => Ok (compareValues (VObject []) v)
  | FUndefined | FFunction => Throw TypeError
  end.

Definition op_holds (op : comparison_op) (c : comparison) : bool :=
  match op with
  | OpEq => cmp_eqb c
  | OpNeq => negb (cmp_eqb c)
  | OpLt => cmp_ltb c
  | OpLte => cmp_leb c
  | OpGt => negb (cmp_leb c)
  | OpGte => negb (cmp_ltb c)
  end.

(** [every] and [some] stop at the first element that decides them. *)
Section every_some.
Context {A : Type} (f : A -> res bool).
Fixpoint res_every (l : list A) : res bool :=
  match l with
  | [] => Ok true
  | x :: l' => f x ≫= fun b : bool => if b then res_every l' else Ok false
  end.
Fixpoint res_some (l : list A) : res bool :=
  match l with
  | [] => Ok false
  | x :: l' => f x ≫= fun b : bool => if b then Ok true else res_some l'
  end.
End every_some.

Fixpoint evaluateFilter (doc : value) (expr : filter_expr) : res bool :=
  match expr with
  | FAnd clauses => res_every (evaluateFilter doc) clauses
  | FOr clauses => res_some (evaluateFilter doc) clauses
  | FNot clause => b ← evaluateFilter doc clause; Ok (negb b)
  | FCompare op field v =>
      match evaluateFieldPath doc field with
      | FUndefined => Ok false
      | fv => c ← compare_field fv v; Ok (op_holds op c)
      end
  end.

(** * index-manager.ts *)

Record index_spec := IndexSpec
  { is_table : jsstr; is_tableNumber : Z; is_index : jsstr; is_fields : list jsstr; is_indexId : jsstr }.

Definition str_creationTime : jsstr := js "_creationTime".
Definition str_id : jsstr := js "_id".

(** A field's element: a missing one is [null], an inherited member is no
    scalar. *)
Definition push_field (out : bytes) (f : field_value) : res bytes :=
  match f with
  | FUndefined => pushElement out VNull
  | FValue v => pushElement out v
  | FProto | FFunction => Throw TypeError
  end.

Fixpoint push_fields (out : bytes) (fs : list field_value) : res bytes :=
  match fs with
  | [] => Ok out
  | f :: fs' => out' ← push_field out f; push_fields out' fs'
  end.

(** [doc[name] ?? fallback] for a system field. *)
Definition system_field (doc : value) (name : jsstr) (fallback : value) : value :=
  match doc with
  | VObject fs => match jm_get fs name with Some VNull | None => fallback | Some v => v end
  | _ => fallback
  end.

Definition extractIndexKey (doc : value) (fields : list jsstr) : res bytes :=
  push_fields []
    ((evaluateFieldPath doc <$> fields) ++
     [FValue (system_field doc str_creationTime (VNumber num_zero));
      FValue (system_field doc str_id (VString []))]).

Definition extract_optional (doc : option value) (fields : list jsstr) : res (option bytes) :=
  match doc with None => Ok None | Some d => k ← extractIndexKey d fields; Ok (Some k) end.

Definition index_diff (idx : index_spec) (oldKey newKey : option bytes) (docId : doc_id) : list index_update :=
  match oldKey with
  | Some k =>
      if match newKey with None => true | Some k' => negb (cmp_eqb (compareKeyBytes k k')) end
      then [IndexUpdate (is_indexId idx) k IxDeleted] else []
  | None => []
  end ++
  match newKey with
  | Some k => [IndexUpdate (is_indexId idx) k (IxNonClustered docId)]
  | None => []
  end.

Fixpoint computeIndexUpdates (indexes : list index_spec) (oldDoc newDoc : option value) (docId : doc_id)
  : res (list index_update) :=
  match indexes with
  | [] => Ok []
  | idx :: indexes' =>
      oldKey ← extract_optional oldDoc (is_fields idx);
      newKey ← extract_optional newDoc (is_fields idx);
      rest ← computeIndexUpdates indexes' oldDoc newDoc docId;
      Ok (index_diff idx oldKey newKey docId ++ rest)
  end.

(** * plan.ts *)

Inductive query_operator := QEq | QGt | QGte | QLt | QLte.

Record range_expression := RangeExpression
  { re_field : jsstr; re_operator : query_operator; re_value : value }.

Record bound := Bound { b_value : value; b_inclusive : bool }.

Definition is_eq_op (o : query_operator) : bool := match o with QEq => true | _ => false end.

(** The assignments of the inner loop: the last bound on each side wins. *)
Definition take_bound (st : option bound * option bound) (c : range_expression)
  : option bound * option bound :=
  match re_operator c with
  | QGt => (Some (Bound (re_value c) false), st.2)
  | QGte => (Some (Bound (re_value c) true), st.2)
  | QLt => (st.1, Some (Bound (re_value c) false))
  | QLte => (st.1, Some (Bound (re_value c) true))
  | QEq => st
  end.

Definition constraints_on (field : jsstr) (range : list range_expression) : list range_expression :=
  base.filter (fun r => re_field r = field) range.

(** The walk over the index fields. *)
Fixpoint plan_fields (fields : list jsstr) (range : list range_expression) (prefix : list value)
  : list value * option bound * option bound :=
  match fields with
  | [] => (prefix, None, None)
  | field :: fields' =>
      let constraints := constraints_on field range in
      match List.find (fun c => is_eq_op (re_operator c)) constraints with
      | Some eq => plan_fields fields' range (prefix ++ [re_value eq])
      | None =>
          let '(lower, upper) := fold_left take_bound constraints (None, None) in
          (prefix, lower, upper)
      end
  end.

Definition lower_bound (prefix : list value) (lower : option bound) : res bytes :=
  match lower with
  | None => indexKeyRangeStart prefix
  | Some b =>
      if b_inclusive b then encodeIndexKey (prefix ++ [b_value b])
      else e ← indexKeyRangeEnd (prefix ++ [b_value b]); Ok (default [] e)
  end.

Definition upper_bound (prefix : list value) (upper : option bound) : res (option bytes) :=
  match upper with
  | None => indexKeyRangeEnd prefix
  | Some b =>
      if b_inclusive b then indexKeyRangeEnd (prefix ++ [b_value b])
      else k ← encodeIndexKey (prefix ++ [b_value b]); Ok (Some k)
  end.

Definition buildIndexInterval (fields : list jsstr) (range : list range_expression) : res interval :=
  let '(prefix, lower, upper) := plan_fields fields range [] in
  start ← lower_bound prefix lower;
  end_ ← upper_bound prefix upper;
  Ok (Interval start end_).

(** * Index keys and tuples *)

(** The element a field contributes to a key, if it can. *)
Definition indexed_value (f : field_value) : option value :=
  match f with FUndefined => Some VNull | FValue v => Some v | FProto | FFunction => None end.

Definition system_values (doc : value) : list value :=
  [system_field doc str_creationTime (VNumber num_zero); system_field doc str_id (VString [])].

Lemma push_fields_values out fs k :
  push_fields out fs = Ok k ->
  exists vs, Forall2 (fun f v => indexed_value f = Some v) fs vs /\ push_elements out vs = Ok k.
Proof.
  revert out. induction fs as [|f fs IH]; intros out; simpl; [by exists []|].
  destruct (push_field out f) as [out'|] eqn:E; [|done]. rewrite bind_Ok.
  intros (vs & Hf & Hp)%IH. destruct f as [| | |v]; try done; simpl in E.
  - exists (VNull :: vs). cbn [push_elements]. rewrite E. split; [by constructor|done].
  - exists (v :: vs). cbn [push_elements]. rewrite E. split; [by constructor|done].
Qed.

Lemma extractIndexKey_tuple doc fields k :
  extractIndexKey doc fields = Ok k ->
  exists vs, Forall2 (fun f v => indexed_value (evaluateFieldPath doc f) = Some v) fields vs /\
    encodeIndexKey (vs ++ system_values doc) = Ok k.
Proof.
  intros (ws & Hw & Hk)%push_fields_values. apply Forall2_app_inv_l in Hw as (vs & ss & Hv & Hs & ->).
  exists vs. split; [by apply Forall2_fmap_l in Hv|].
  inversion Hs as [|? s1 ? ? H1 Hs']; subst. inversion Hs' as [|? s2 ? ? H2 Hs'']; subst.
  inversion Hs''; subst. simpl in H1, H2. injection H1 as <-. injection H2 as <-. exact Hk.
Qed.

Definition wf_field (f : field_value) : Prop :=
  match f with FValue v => wf_value v | _ => True end.

Lemma wf_object_get fs k v : wf_value (VObject fs) -> jm_get fs k = Some v -> wf_value v.
Proof.
  rewrite wf_object, Forall_forall. intros (_ & _ & Hf) Hg%jm_get_Some_in. by apply (Hf (k, v)).
Qed.

Lemma read_member_wf cur part : wf_field cur -> wf_field (read_member cur part).
Proof.
  intros H. destruct cur as [| | |[]]; simpl; try done.
  - destruct (bool_decide _); [done|]. unfold prototype_member. by destruct (bool_decide _).
  - destruct (jm_get fs part) eqn:E; [by eapply wf_object_get|].
    destruct (bool_decide _); [done|]. unfold prototype_member. by destruct (bool_decide _).
Qed.

Lemma walk_path_wf parts cur : wf_field cur -> wf_field (walk_path cur parts).
Proof.
  revert cur. induction parts as [|p parts IH]; intros cur H; simpl; [done|].
  pose proof (read_member_wf cur p H) as Hm. destruct (read_member cur p); auto.
Qed.

Lemma indexed_value_wf doc f v :
  wf_value doc -> indexed_value (evaluateFieldPath doc f) = Some v -> wf_value v.
Proof.
  intros Hd. pose proof (walk_path_wf (js_split dot f) (FValue doc) Hd) as Hw.
  unfold evaluateFieldPath. destruct (walk_path _ _); try done; by intros [= <-].
Qed.

Lemma system_values_wf doc : wf_value doc -> Forall wf_value (system_values doc).
Proof.
  intros Hd. assert (Hs : forall name v, wf_value v -> wf_value (system_field doc name v)).
  { intros name v Hv. unfold system_field. destruct doc; try done.
    destruct (jm_get fs name) as [w|] eqn:E; [|done]. pose proof (wf_object_get _ _ _ Hd E). by destruct w. }
  repeat constructor; apply Hs; [done|constructor].
Qed.

(** * What an interval holds *)

Lemma lex_compare_app {A} (c : A -> A -> comparison) w p q :
  (length p <= length w)%nat ->
  lex_compare c w (p ++ q) =
    match lex_compare c (take (length p) w) p with Eq => lex_compare c (drop (length p) w) q | r => r end.
Proof.
  revert w. induction p as [|y p IH]; intros [|x w] Hl; simpl in *; try done; try lia.
  destruct (c x y); [|done|done]. apply IH. lia.
Qed.

Lemma upper_compare_app w p q :
  (length p <= length w)%nat ->
  upper_compare w (p ++ q) =
    match lex_compare compareValues (take (length p) w) p with
    | Eq => upper_compare (drop (length p) w) q | r => r end.
Proof.
  revert w. induction p as [|y p IH]; intros [|x w] Hl; simpl in *; try done; try lia.
  destruct (compareValues x y); [|done|done]. apply IH. lia.
Qed.

(** A bound on the field after the equality prefix. *)
Definition over (x : value) (b : bound) : Prop :=
  compareValues x (b_value b) = Gt \/ (b_inclusive b = true /\ compareValues x (b_value b) = Eq).
Definition under (x : value) (b : bound) : Prop :=
  compareValues x (b_value b) = Lt \/ (b_inclusive b = true /\ compareValues x (b_value b) = Eq).

(** What a plan asks of the field values of a document. *)
Definition plan_holds (vs : list value) (plan : list value * option bound * option bound) : Prop :=
  let '(prefix, lower, upper) := plan in
  lex_compare compareValues (take (length prefix) vs) prefix = Eq /\
  (forall b, lower = Some b -> exists x, vs !! length prefix = Some x /\ over x b) /\
  (forall b, upper = Some b -> exists x, vs !! length prefix = Some x /\ under x b).

Lemma lower_bound_spec w prefix lower k start :
  Forall wf_value w -> Forall wf_value prefix -> (forall b, lower = Some b -> wf_value (b_value b)) ->
  encodeIndexKey w = Ok k -> lower_bound prefix lower = Ok start ->
  compareKeyBytes k start =
    match lower with
    | None => lex_compare compareValues w prefix
    | Some b => if b_inclusive b then lex_compare compareValues w (prefix ++ [b_value b])
                else upper_compare w (prefix ++ [b_value b])
    end.
Proof.
  intros Hw Hp Hb Hk. unfold lower_bound. destruct lower as [[v incl]|]; simpl.
  - assert (Hpv : Forall wf_value (prefix ++ [v])).
    { apply Forall_app. split; [done|]. constructor; [by apply (Hb (Bound v incl))|constructor]. }
    destruct incl; [by apply encodeIndexKey_compare|]. unfold indexKeyRangeEnd.
    destruct (prefix ++ [v]) as [|v0 vs0] eqn:Ev; [by destruct prefix|].
    destruct (encodeIndexKey (v0 :: vs0)) as [e|] eqn:Ee; [|done]. rewrite !bind_Ok. intros [= <-].
    by apply encodeIndexKey_upper.
  - unfold indexKeyRangeStart. by apply encodeIndexKey_compare.
Qed.

Lemma upper_bound_spec w prefix upper k end_ :
  Forall wf_value w -> Forall wf_value prefix -> (forall b, upper = Some b -> wf_value (b_value b)) ->
  encodeIndexKey w = Ok k -> upper_bound prefix upper = Ok end_ ->
  (lt_end k end_ = true <->
   match upper with
   | None => upper_compare w prefix = Lt
   | Some b => (if b_inclusive b then upper_compare w (prefix ++ [b_value b])
                else lex_compare compareValues w (prefix ++ [b_value b])) = Lt
   end).
Proof.
  intros Hw Hp Hb Hk. assert (Hltb : forall c, cmp_ltb c = true <-> c = Lt) by by intros [].
  assert (Hend : forall q, Forall wf_value q -> indexKeyRangeEnd q = Ok end_ ->
            lt_end k end_ = true <-> upper_compare w q = Lt).
  { intros q Hq. unfold indexKeyRangeEnd. destruct q as [|v0 q]; [intros [= <-]; by destruct w|].
    destruct (encodeIndexKey (v0 :: q)) as [e|] eqn:Ee; [|done]. rewrite bind_Ok. intros [= <-].
    cbn [lt_end]. rewrite Hltb. by rewrite (encodeIndexKey_upper w (v0 :: q) k e). }
  unfold upper_bound. destruct upper as [[v incl]|]; simpl; [|by apply Hend].
  assert (Hpv : Forall wf_value (prefix ++ [v])).
  { apply Forall_app. split; [done|]. constructor; [by apply (Hb (Bound v incl))|constructor]. }
  destruct incl; [by apply Hend|]. destruct (encodeIndexKey (prefix ++ [v])) as [e|] eqn:Ee; [|done].
  rewrite bind_Ok. intros [= <-]. cbn [lt_end]. rewrite Hltb. by rewrite (encodeIndexKey_compare w (prefix ++ [v]) k e).
Qed.

(** * What a plan consumes *)

Definition query_op_holds (o : query_operator) (c : comparison) : Prop :=
  match o with
  | QEq => c = Eq
  | QGt => c = Gt
  | QGte => c <> Lt
  | QLt => c = Lt
  | QLte => c <> Gt
  end.

(** A document meets a constraint; a missing field counts as [null], as it
    does in the index. *)
Definition satisfies (doc : value) (r : range_expression) : Prop :=
  exists x, indexed_value (evaluateFieldPath doc (re_field r)) = Some x /\
    query_op_holds (re_operator r) (compareValues x (re_value r)).

Lemma plan_fields_acc fields range acc :
  plan_fields fields range acc =
    let '(p, lower, upper) := plan_fields fields range [] in (acc ++ p, lower, upper).
Proof.
  revert acc. induction fields as [|f fields IH]; intros acc; simpl; [by rewrite app_nil_r|].
  destruct (List.find _ _) as [eq|].
  - rewrite (IH (acc ++ _)), (IH [_]). destruct (plan_fields fields range []) as [[p l] u].
    by rewrite <- app_assoc.
  - destruct (fold_left _ _ _). by rewrite app_nil_r.
Qed.

Lemma constraints_on_elem f range r : r ∈ constraints_on f range <-> r ∈ range /\ re_field r = f.
Proof. unfold constraints_on. rewrite list_elem_of_filter. tauto. Qed.

(** Every bound the inner loop keeps comes from one of its constraints. *)
Lemma take_bound_fold (P : bound -> Prop) (Q : bound -> Prop) cs st :
  (forall c, c ∈ cs -> match re_operator c with
     | QGt => P (Bound (re_value c) false) | QGte => P (Bound (re_value c) true)
     | QLt => Q (Bound (re_value c) false) | QLte => Q (Bound (re_value c) true)
     | QEq => True end) ->
  (forall b, st.1 = Some b -> P b) -> (forall b, st.2 = Some b -> Q b) ->
  (forall b, (fold_left take_bound cs st).1 = Some b -> P b) /\
  (forall b, (fold_left take_bound cs st).2 = Some b -> Q b).
Proof.
  revert st. induction cs as [|c cs IH]; intros st Hc H1 H2; [done|]. simpl. apply IH.
  - intros c' Hin. apply Hc. by right.
  - specialize (Hc c ltac:(left)). unfold take_bound. destruct (re_operator c); simpl; try done; by intros b [= <-].
  - specialize (Hc c ltac:(left)). unfold take_bound. destruct (re_operator c); simpl; try done; by intros b [= <-].
Qed.

Lemma plan_fields_shape (P : value -> Prop) fields range p lower upper :
  Forall (fun r => P (re_value r)) range ->
  plan_fields fields range [] = (p, lower, upper) ->
  (length p <= length fields)%nat /\
  (lower <> None \/ upper <> None -> length p < length fields)%nat /\
  Forall P p /\ (forall b, lower = Some b -> P (b_value b)) /\ (forall b, upper = Some b -> P (b_value b)).
Proof.
  intros Hr. rewrite Forall_forall in Hr. revert p lower upper.
  induction fields as [|f fields IH]; intros p lower upper; simpl.
  { intros [= <- <- <-]. split_and!; (done || by intros [?|?] || constructor). }
  destruct (List.find _ _) as [eq|] eqn:Ef.
  - rewrite plan_fields_acc. destruct (plan_fields fields range []) as [[p' l'] u'] eqn:Ep.
    intros [= <- <- <-]. destruct (IH p' l' u' eq_refl) as (H1 & H2 & H3 & H4 & H5).
    apply find_some in Ef as [Hin _]. apply list_elem_of_In, constraints_on_elem in Hin as [Hin _].
    simpl. split_and!; [lia|intros H; specialize (H2 H); lia|constructor; [by apply Hr|done]|done|done].
  - destruct (fold_left take_bound _ _) as [l u] eqn:El. intros [= <- <- <-].
    pose proof (take_bound_fold (fun b => P (b_value b)) (fun b => P (b_value b))
      (constraints_on f range) (None, None)) as Hf. rewrite El in Hf.
    destruct Hf as [H1 H2]; [|done|done|].
    + intros c [Hin _]%constraints_on_elem. specialize (Hr c Hin). by destruct (re_operator c).
    + simpl. split_and!; [lia|lia|constructor|exact H1|exact H2].
Qed.

Lemma plan_fields_sound doc fields range vs p lower upper :
  Forall2 (fun f v => indexed_value (evaluateFieldPath doc f) = Some v) fields vs ->
  (forall r, r ∈ range -> re_field r ∈ fields -> satisfies doc r) ->
  plan_fields fields range [] = (p, lower, upper) -> plan_holds vs (p, lower, upper).
Proof.
  intros Hv. revert p lower upper. induction Hv as [|f x fields vs Hx Hv IH]; intros p lower upper Hs; simpl.
  { intros [= <- <- <-]. by split_and!. }
  assert (Hs' : forall r, r ∈ range -> re_field r ∈ fields -> satisfies doc r) by (intros; apply Hs; [done|by right]).
  assert (Hf : forall r, r ∈ constraints_on f range -> query_op_holds (re_operator r) (compareValues x (re_value r))).
  { intros r [Hin He]%constraints_on_elem. destruct (Hs r Hin) as (y & Hy & Ho); [rewrite He; left|].
    rewrite He, Hx in Hy. by injection Hy as ->. }
  destruct (List.find _ _) as [eq|] eqn:Ef.
  - rewrite plan_fields_acc. destruct (plan_fields fields range []) as [[p' l'] u'] eqn:Ep.
    intros [= <- <- <-]. destruct (IH p' l' u' Hs' eq_refl) as (H1 & H2 & H3).
    apply find_some in Ef as [Hin Hop]. apply list_elem_of_In, Hf in Hin.
    destruct (re_operator eq); try done. simpl in *. rewrite Hin. by split_and!.
  - destruct (fold_left take_bound _ _) as [l u] eqn:El. intros [= <- <- <-]. simpl.
    pose proof (take_bound_fold (over x) (under x) (constraints_on f range) (None, None)) as Hb.
    rewrite El in Hb. destruct Hb as [H1 H2]; [|done|done|].
    + intros c Hc%Hf. unfold over, under. destruct (re_operator c); simpl in *; try done; auto;
        destruct (compareValues x (re_value c)); auto; done.
    + split_and!; [done|intros b Hb; exists x; split; [done|by apply H1]|intros b Hb; exists x; split; [done|by apply H2]].
Qed.

Lemma bound_at (R : value -> bound -> Prop) o (b : option bound) :
  (forall b', b = Some b' -> exists x, o = Some x /\ R x b') <->
  match b with None => True | Some b' => match o with Some x => R x b' | None => False end end.
Proof.
  split.
  - intros H. destruct b as [b|]; [|done]. by destruct (H b eq_refl) as (x & -> & ?).
  - intros H b' ->. destruct o as [x|]; [|done]. by exists x.
Qed.

Lemma interval_plan fields range iv vs ss k :
  Forall (fun r => wf_value (re_value r)) range -> Forall wf_value vs -> Forall wf_value ss -> ss <> [] ->
  length vs = length fields -> encodeIndexKey (vs ++ ss) = Ok k ->
  buildIndexInterval fields range = Ok iv ->
  in_interval k iv = true <-> plan_holds vs (plan_fields fields range []).
Proof.
  intros Hr Hv Hs Hss Hl Hk. unfold buildIndexInterval.
  destruct (plan_fields fields range []) as [[p lower] upper] eqn:Ep.
  destruct (plan_fields_shape wf_value _ _ _ _ _ Hr Ep) as (Hp & Hb & Hwp & Hwl & Hwu).
  destruct (lower_bound p lower) as [start|] eqn:El; [|done]. rewrite bind_Ok.
  destruct (upper_bound p upper) as [end_|] eqn:Eu; [|done]. rewrite bind_Ok. intros [= <-].
  assert (Hw : Forall wf_value (vs ++ ss)) by by apply Forall_app.
  assert (Hlen : (length p <= length (vs ++ ss))%nat) by (rewrite length_app; lia).
  unfold in_interval. cbn [iv_start iv_end]. rewrite andb_true_iff, negb_true_iff.
  rewrite (lower_bound_spec (vs ++ ss) p lower k start) by done.
  rewrite (upper_bound_spec (vs ++ ss) p upper k end_) by done.
  pose proof (lex_compare_app compareValues (vs ++ ss) p [] Hlen) as Hl0.
  pose proof (upper_compare_app (vs ++ ss) p [] Hlen) as Hu0. rewrite app_nil_r in Hl0, Hu0.
  assert (Hx : lower <> None \/ upper <> None -> exists x rest, drop (length p) vs = x :: rest /\ vs !! length p = Some x).
  { intros H. destruct (lookup_lt_is_Some_2 vs (length p)) as [x Hx]; [rewrite Hl; by apply Hb|].
    exists x, (drop (S (length p)) vs). by rewrite (drop_S _ x). }
  destruct ss as [|s0 ss]; [done|]. unfold plan_holds. rewrite !bound_at. unfold over, under.
  clear Hr Hv Hs Hk Hwp Hwl Hwu El Eu Hw Ep Hb.
  destruct lower as [[lv li]|], upper as [[uv ui]|]; cbn [b_value b_inclusive];
    rewrite ?lex_compare_app, ?upper_compare_app, ?Hl0, ?Hu0 by done; clear Hl0 Hu0;
    rewrite ?take_app_le, ?drop_app_le by lia.
  1-3: destruct Hx as (x & rest & -> & ->); [by (left + right)|].
  - destruct (lex_compare compareValues (take (length p) vs) p), li, ui;
      try (destruct (compareValues x lv) eqn:E1; destruct (compareValues x uv) eqn:E2; destruct rest);
      simpl; rewrite ?E1, ?E2; cbn [cmp_ltb]; intuition congruence.
  - destruct (lex_compare compareValues (take (length p) vs) p), li;
      try (destruct (compareValues x lv) eqn:E1; destruct rest); simpl; rewrite ?E1; cbn [cmp_ltb]; intuition congruence.
  - destruct (lex_compare compareValues (take (length p) vs) p), ui;
      try (destruct (compareValues x uv) eqn:E1; destruct rest); simpl; rewrite ?E1; cbn [cmp_ltb]; intuition congruence.
  - destruct (lex_compare compareValues (take (length p) vs) p), (drop (length p) vs); simpl; cbn [cmp_ltb]; intuition congruence.
Qed.

Lemma buildIndexInterval_end_wf fields range iv e :
  Forall (fun r => wf_value (re_value r)) range -> buildIndexInterval fields range = Ok iv ->
  iv_end iv = Some e -> wf_bytes e.
Proof.
  intros Hr. unfold buildIndexInterval.
  destruct (plan_fields fields range []) as [[p lower] upper] eqn:Ep.
  destruct (plan_fields_shape wf_value _ _ _ _ _ Hr Ep) as (_ & _ & Hwp & _ & Hwu).
  destruct (lower_bound p lower) as [start|]; [|done]. rewrite bind_Ok.
  destruct (upper_bound p upper) as [end_|] eqn:Eu; [|done]. rewrite bind_Ok. intros [= <-]. simpl. intros ->.
  unfold upper_bound in Eu. destruct upper as [[v incl]|]; simpl in Eu; [|by eapply indexKeyRangeEnd_wf].
  assert (Hpv : Forall wf_value (p ++ [v])).
  { apply Forall_app. split; [done|]. constructor; [by apply (Hwu (Bound v incl))|constructor]. }
  destruct incl; [by eapply indexKeyRangeEnd_wf|].
  destruct (encodeIndexKey (p ++ [v])) as [k|] eqn:Ek; [|done]. rewrite bind_Ok in Eu. injection Eu as <-.
  by eapply encodeIndexKey_wf.
Qed.

(** The planned interval holds exactly the documents whose field values
    the plan asks for: equality with the prefix, and the bounds on the field
    after it. *)
Theorem buildIndexInterval_exact doc fields range iv k :
  wf_value doc -> Forall (fun r => wf_value (re_value r)) range ->
  extractIndexKey doc fields = Ok k -> buildIndexInterval fields range = Ok iv ->
  exists vs, Forall2 (fun f v => indexed_value (evaluateFieldPath doc f) = Some v) fields vs /\
    (in_interval k iv = true <-> plan_holds vs (plan_fields fields range [])).
Proof.
  intros Hd Hr (vs & Hv & Hk)%extractIndexKey_tuple Hiv. exists vs. split; [done|].
  apply (interval_plan fields range iv vs (system_values doc)); try done.
  - apply (Forall2_Forall_r _ _ _ _ Hv). apply Forall_forall. intros f _ v. by apply indexed_value_wf.
  - by apply system_values_wf.
  - symmetry. by eapply Forall2_length.
Qed.

(** No planned interval leaves out a document that meets every constraint
    on the index's fields. *)
Theorem buildIndexInterval_sound doc fields range iv k :
  wf_value doc -> Forall (fun r => wf_value (re_value r)) range ->
  extractIndexKey doc fields = Ok k -> buildIndexInterval fields range = Ok iv ->
  (forall r, r ∈ range -> re_field r ∈ fields -> satisfies doc r) ->
  in_interval k iv = true.
Proof.
  intros Hd Hr (vs & Hv & Hk)%extractIndexKey_tuple Hiv Hs.
  apply (interval_plan fields range iv vs (system_values doc)); try done.
  - apply (Forall2_Forall_r _ _ _ _ Hv). apply Forall_forall. intros f _ v. by apply indexed_value_wf.
  - by apply system_values_wf.
  - symmetry. by eapply Forall2_length.
  - destruct (plan_fields fields range []) as [[p l] u] eqn:Ep. by eapply plan_fields_sound.
Qed.

Lemma buildIndexInterval_exact_witness :
  let doc := VObject [(js "a", VNumber num_one); (str_id, VString [120]); (str_creationTime, VNumber num_one)] in
  let range := [RangeExpression (js "a") QGte (VNumber num_zero)] in
  exists k iv vs, extractIndexKey doc [js "a"] = Ok k /\ buildIndexInterval [js "a"] range = Ok iv /\
    (in_interval k iv = true <-> plan_holds vs (plan_fields [js "a"] range [])).
Proof.
  intros doc range. destruct (extractIndexKey doc [js "a"]) as [k|] eqn:Ek; [|discriminate Ek].
  destruct (buildIndexInterval [js "a"] range) as [iv|] eqn:Ei; [|discriminate Ei].
  assert (Hd : wf_value doc).
  { apply wf_object. split_and!; [apply (bool_decide_unpack _); vm_compute; exact I|reflexivity|].
    repeat constructor; cbv; intuition discriminate. }
  destruct (buildIndexInterval_exact doc [js "a"] range iv k Hd ltac:(repeat constructor) Ek Ei) as (vs & _ & H).
  exists k, iv, vs. by split_and!.
Defined.

Lemma buildIndexInterval_sound_witness :
  let doc := VObject [(js "a", VNumber num_one)] in
  let range := [RangeExpression (js "a") QGt (VNumber num_zero); RangeExpression (js "a") QLte (VNumber num_one)] in
  exists k iv, extractIndexKey doc [js "a"] = Ok k /\ buildIndexInterval [js "a"] range = Ok iv /\
    in_interval k iv = true.
Proof.
  intros doc range. destruct (extractIndexKey doc [js "a"]) as [k|] eqn:Ek; [|discriminate Ek].
  destruct (buildIndexInterval [js "a"] range) as [iv|] eqn:Ei; [|discriminate Ei].
  exists k, iv. split_and!; [done..|].
  apply (buildIndexInterval_sound doc [js "a"] range iv k); [|by repeat constructor|done|done|].
  - apply wf_object. split_and!; [apply (bool_decide_unpack _); vm_compute; exact I|reflexivity|].
    repeat constructor; cbv; intuition discriminate.
  - intros r Hr _. exists (VNumber num_one).
    apply elem_of_cons in Hr as [->|[->|Hr]%elem_of_cons]; [split; vm_compute; congruence..|set_solver].
Defined.

(** * Index maintenance *)

(** An index as the rows of a snapshot show it: the document each key points
    to, if any. *)
Definition index_state : Type := jsstr -> bytes -> option doc_id.

Definition apply_update (m : index_state) (u : index_update) : index_state :=
  fun ix k =>
    if bool_decide (ix = iu_index u /\ k = iu_key u)
    then match iu_value u with IxDeleted => None | IxNonClustered d => Some d end
    else m ix k.

Definition apply_updates (m : index_state) (us : list index_update) : index_state :=
  fold_left apply_update us m.

Definition points_to (oldKey newKey : option bytes) (docId : doc_id) (prior : option doc_id) (k : bytes)
  : option doc_id :=
  if bool_decide (newKey = Some k) then Some docId
  else if bool_decide (oldKey = Some k) then None else prior.

Lemma apply_updates_app m us us' : apply_updates m (us ++ us') = apply_updates (apply_updates m us) us'.
Proof. apply fold_left_app. Qed.

Lemma apply_index_diff m idx ok nk d ix k :
  apply_updates m (index_diff idx ok nk d) ix k =
    if bool_decide (ix = is_indexId idx) then points_to ok nk d (m ix k) k else m ix k.
Proof.
  assert (Hone : forall m u, apply_update m u ix k =
            if bool_decide (ix = iu_index u) then
              if bool_decide (k = iu_key u) then match iu_value u with IxDeleted => None | IxNonClustered d => Some d end
              else m ix k
            else m ix k).
  { intros m0 u. unfold apply_update. repeat case_bool_decide; tauto. }
  assert (Hneq : forall a b : bytes, negb (cmp_eqb (compareKeyBytes a b)) = true <-> a <> b).
  { intros a b. destruct (compareKeyBytes a b) eqn:E; simpl; split; try done.
    - intros H. by apply (cmp_eq (c := compareKeyBytes)) in E.
    - intros _ ->. by rewrite (cmp_refl (c := compareKeyBytes)) in E.
    - intros _ ->. by rewrite (cmp_refl (c := compareKeyBytes)) in E. }
  unfold index_diff, points_to. destruct ok as [a|], nk as [b|]; simpl; rewrite ?Hone; simpl.
  - destruct (negb _) eqn:E; simpl; rewrite ?Hone; simpl;
      [apply Hneq in E|assert (a = b) as -> by (apply dec_stable; intros H%Hneq; congruence)];
      repeat case_bool_decide; simplify_eq; done.
  - repeat case_bool_decide; simplify_eq; done.
  - repeat case_bool_decide; simplify_eq; done.
  - by destruct (bool_decide _).
Qed.

(** Applying the computed updates leaves, in every listed index, the new
    document's key pointing to the document, its old key (when it moved or the
    document went away) pointing nowhere, and every other key and index as it
    was. *)
Theorem computeIndexUpdates_maintains indexes oldDoc newDoc docId us m :
  NoDup (is_indexId <$> indexes) -> computeIndexUpdates indexes oldDoc newDoc docId = Ok us ->
  (forall idx, idx ∈ indexes -> exists oldKey newKey,
     extract_optional oldDoc (is_fields idx) = Ok oldKey /\
     extract_optional newDoc (is_fields idx) = Ok newKey /\
     forall k, apply_updates m us (is_indexId idx) k =
               points_to oldKey newKey docId (m (is_indexId idx) k) k) /\
  (forall ix k, ix ∉ is_indexId <$> indexes -> apply_updates m us ix k = m ix k).
Proof.
  revert us m. induction indexes as [|idx indexes IH]; intros us m Hn; cbn [computeIndexUpdates].
  { intros [= <-]. split; [set_solver|done]. }
  apply NoDup_cons in Hn as [Hfresh Hn].
  destruct (extract_optional oldDoc _) as [ok|] eqn:Eo; [|done]. rewrite bind_Ok.
  destruct (extract_optional newDoc _) as [nk|] eqn:En; [|done]. rewrite bind_Ok.
  destruct (computeIndexUpdates indexes _ _ _) as [rest|] eqn:Er; [|done]. rewrite bind_Ok. intros [= <-].
  destruct (IH rest (apply_updates m (index_diff idx ok nk docId)) Hn eq_refl) as [H1 H2].
  rewrite apply_updates_app. split.
  - intros idx' [->|Hin]%elem_of_cons.
    + exists ok, nk. split_and!; [done..|]. intros k. rewrite H2 by done.
      by rewrite apply_index_diff, bool_decide_true.
    + destruct (H1 idx' Hin) as (ok' & nk' & ? & ? & Hk). exists ok', nk'. split_and!; [done..|].
      intros k. rewrite Hk, apply_index_diff, bool_decide_false; [done|].
      intros He. apply Hfresh. rewrite <- He. by apply list_elem_of_fmap_2.
  - intros ix k Hix. rewrite fmap_cons in Hix. rewrite H2 by set_solver.
    rewrite apply_index_diff, bool_decide_false; [done|set_solver].
Qed.

Lemma computeIndexUpdates_maintains_witness :
  let idx := IndexSpec (js "t") 10001 (js "by_a") [js "a"] (js "10001/by_a") in
  let doc := VObject [(js "a", VNull)] in
  exists us, computeIndexUpdates [idx] None (Some doc) (DocId 10001 [7]) = Ok us /\
    apply_updates (fun _ _ => None) us (js "other") [1] = None.
Proof.
  intros idx doc. eexists. split; [reflexivity|].
  apply (proj2 (computeIndexUpdates_maintains [idx] None (Some doc) (DocId 10001 [7]) _ (fun _ _ => None)
    (NoDup_singleton _) eq_refl)).
  intros H. apply list_elem_of_singleton in H. discriminate H.
Defined.

(** * Filters *)

(** A path through a member every object inherits makes a comparison throw
    instead of counting as a missing field. *)
Theorem evaluateFilter_inherited op v :
  evaluateFilter (VObject []) (FCompare op (js "constructor") v) = Throw TypeError /\
  evaluateFilter (VObject []) (FCompare op (js "missing") v) = Ok false.
Proof. done. Qed.
