(* ===== verification/QueryRuntime.v ===== *)
(** Query execution over a store: packages/query-engine/src/query-runtime.ts.
    [collect], [paginate] and the read-your-own-writes overlay, with the read
    set and page bounds they record. *)
From Stdlib Require Import ZArith Lia Sorted.
From stdpp Require Import base list sets strings.
From S2P Require Import Prelude JsBase JsText Float64 Values KeyCodec KeyRanges IdCodec DocStore SqliteDocStore Query.

Record query := Query
  { q_index : index_spec; q_range : list range_expression; q_order : order;
    q_filters : list filter_expr; q_limit : option Z }.

Record collect_result := CollectResult { cr_documents : list value; cr_readSet : range_set }.

Record paginated_result := PaginatedResult
  { pr_page : list value; pr_nextCursor : option jsstr; pr_hasMore : bool; pr_scanCapped : bool;
    pr_readSet : range_set; pr_pageBounds : serialized_range }.

Definition bytesToBase64 (bs : bytes) : jsstr := btoa bs.
Definition base64ToBytes (b64 : jsstr) : res bytes := atob b64.

Definition hexKey (b : bytes) : jsstr :=
  fold_left (fun s x => s ++ pad_start2 (num_to_string 16 x)) b [].

Definition keyInInterval (key : bytes) (iv : interval) : bool :=
  negb (cmp_ltb (compareKeyBytes key (iv_start iv))) &&
  match iv_end iv with None => true | Some e => cmp_ltb (compareKeyBytes key e) end.

Definition index_keyspace (index : index_spec) : jsstr :=
  indexKeyspaceId (encodeStorageTableId (is_tableNumber index)) (is_index index).

Definition interval_range (index : index_spec) (iv : interval) : key_range :=
  KeyRange (index_keyspace index) (iv_start iv) (iv_end iv).

Definition consumedRange (index : index_spec) (iv : interval) (o : order) (lastScanned : option bytes)
  : key_range :=
  match lastScanned with
  | None => interval_range index iv
  | Some k =>
      match o with
      | Asc => KeyRange (index_keyspace index) (iv_start iv) (Some (keySuccessor k))
      | Desc => KeyRange (index_keyspace index) k (iv_end iv)
      end
  end.

(** [filters.every((f) => evaluateFilter(value, f))] *)
Definition passes (filters : list filter_expr) (v : value) : res bool :=
  res_every (evaluateFilter v) filters.

(** [limit !== undefined && documents.length >= limit] *)
Definition reached (limit : option Z) (n : nat) : bool :=
  match limit with None => false | Some l => l <=? Z.of_nat n end.

(** The key and [doc.value.value] of each scanned row. *)
Definition keyed (rows : list (bytes * latest_document)) : list (bytes * value) :=
  (fun kd => (kd.1, rd_value (ld_value kd.2))) <$> rows.

(** The loop of [collect]: the documents, the last key scanned, and whether
    the limit stopped it. *)
Fixpoint collect_loop (filters : list filter_expr) (limit : option Z) (rows : list (bytes * value))
    (documents : list value) (lastScanned : option bytes) : res (list value * option bytes * bool) :=
  match rows with
  | [] => Ok (documents, lastScanned, false)
  | (key, v) :: rows' =>
      passes filters v ≫= fun ok : bool =>
      if ok then
        let documents' := documents ++ [v] in
        if reached limit (length documents') then Ok (documents', Some key, true)
        else collect_loop filters limit rows' documents' (Some key)
      else collect_loop filters limit rows' documents (Some key)
  end.

Fixpoint collect_overlay (filters : list filter_expr) (limit : option Z) (merged : list (bytes * value))
    (documents : list value) : res (list value) :=
  match merged with
  | [] => Ok documents
  | (_, v) :: merged' =>
      passes filters v ≫= fun ok : bool =>
      if ok then
        let documents' := documents ++ [v] in
        if reached limit (length documents') then Ok documents'
        else collect_overlay filters limit merged' documents'
      else collect_overlay filters limit merged' documents
  end.

(** The state of the paginating loop. *)
Record page_state := PageState
  { pg_page : list value; pg_lastIncluded : option bytes; pg_lastScanned : option bytes;
    pg_hasMore : bool; pg_scanCapped : bool }.

Fixpoint paginate_loop (filters : list filter_expr) (pageSize : Z) (maxScan : option Z)
    (rows : list (bytes * value)) (scanned : nat) (st : page_state) : res page_state :=
  match rows with
  | [] => Ok st
  | (key, v) :: rows' =>
      passes filters v ≫= fun ok : bool =>
      if ok && (pageSize <=? Z.of_nat (length (pg_page st)))
      then Ok (PageState (pg_page st) (pg_lastIncluded st) (Some key) true (pg_scanCapped st))
      else
        let st1 := if ok then PageState (pg_page st ++ [v]) (Some key) (Some key) (pg_hasMore st) (pg_scanCapped st)
                   else PageState (pg_page st) (pg_lastIncluded st) (Some key) (pg_hasMore st) (pg_scanCapped st) in
        if reached maxScan (S scanned)
        then Ok (PageState (pg_page st1) (pg_lastIncluded st1) (pg_lastScanned st1) true
                   (if Z.of_nat (length (pg_page st1)) <? pageSize then true else pg_scanCapped st1))
        else paginate_loop filters pageSize maxScan rows' (S scanned) st1
  end.

(** [merged.filter(...)] *)
Fixpoint matching (filters : list filter_expr) (merged : list (bytes * value)) : res (list (bytes * value)) :=
  match merged with
  | [] => Ok []
  | e :: merged' =>
      passes filters e.2 ≫= fun ok : bool =>
      rest ← matching filters merged';
      Ok (if ok then e :: rest else rest)
  end.

(** [l.slice(0, n)]: a negative end counts from the end of the list. *)
Definition slice0 {A} (l : list A) (n : Z) : list A :=
  take (Z.to_nat (if n <? 0 then Z.of_nat (length l) + n else n)) l.

(** One entry of the overlay applied to the merge map. *)
Definition overlay_step (iv : interval) (m : list (jsstr * (bytes * value))) (o : overlay_entry)
  : list (jsstr * (bytes * value)) :=
  match ov_value o with
  | None => jm_delete m (hexKey (ov_key o))
  | Some v => if keyInInterval (ov_key o) iv then jm_set m (hexKey (ov_key o)) (ov_key o, v) else m
  end.

Section runtime.
Context {S : Type} `{DocStore S}.

Definition scan_query (s : S) (q : query) (t : Z) (iv : interval) : res (list (bytes * value)) :=
  keyed <$> ds_index_scan s (is_indexId (q_index q)) (encodeStorageTableId (is_tableNumber (q_index q)))
              t iv (q_order q) None.

Definition scanWithOverlay (s : S) (q : query) (t : Z) (iv : interval) (overlay : list overlay_entry)
  : res (list (bytes * value)) :=
  rows ← scan_query s q t iv;
  let merged := fold_left (fun m (kv : bytes * value) => jm_set m (hexKey kv.1) kv) rows [] in
  let merged := fold_left (overlay_step iv) overlay merged in
  Ok (js_sort (directed (q_order q) (fun a b : bytes * value => compareKeyBytes a.1 b.1)) (jm_values merged)).

Definition collect (s : S) (q : query) (t : Z) (overlay : list overlay_entry) : res collect_result :=
  iv ← buildIndexInterval (is_fields (q_index q)) (q_range q);
  match overlay with
  | _ :: _ =>
      merged ← scanWithOverlay s q t iv overlay;
      documents ← collect_overlay (q_filters q) (q_limit q) merged [];
      Ok (CollectResult documents (rs_add rs_empty (interval_range (q_index q) iv)))
  | [] =>
      rows ← scan_query s q t iv;
      collect_loop (q_filters q) (q_limit q) rows [] None ≫=
      fun '((documents, lastScanned, hitLimit) : list value * option bytes * bool) =>
      let scanRange := if hitLimit then consumedRange (q_index q) iv (q_order q) lastScanned
                       else interval_range (q_index q) iv in
      Ok (CollectResult documents (rs_add rs_empty scanRange))
  end.

(** Resuming: strictly after the cursor (ascending) or strictly before it; an
    absent or empty cursor starts over. *)
Definition resume_interval (base : interval) (o : order) (cursor : option jsstr) : res interval :=
  match cursor with
  | None | Some [] => Ok base
  | Some c =>
      k ← base64ToBytes c;
      Ok (match o with
          | Asc => Interval (keySuccessor k) (iv_end base)
          | Desc => Interval (iv_start base) (Some k)
          end)
  end.

Definition paginate_overlay (q : query) (iv : interval) (pageSize : Z) (merged : list (bytes * value))
  : res paginated_result :=
  matched ← matching (q_filters q) merged;
  let pageEntries := slice0 matched pageSize in
  let hasMore := pageSize <? Z.of_nat (length matched) in
  let range := interval_range (q_index q) iv in
  (if hasMore then
     match last pageEntries with Some e => Ok (Some e.1) | None => Throw TypeError end
   else Ok None) ≫= fun lastKey : option bytes =>
  Ok (PaginatedResult pageEntries.*2 (bytesToBase64 <$> lastKey) hasMore false
        (rs_add rs_empty range) (serializeKeyRange range)).

Definition page_bounds (q : query) (iv : interval) (st : page_state) : key_range :=
  match pg_lastIncluded st with
  | Some k =>
      if pg_hasMore st then
        match q_order q with
        | Asc => KeyRange (index_keyspace (q_index q)) (iv_start iv) (Some (keySuccessor k))
        | Desc => KeyRange (index_keyspace (q_index q)) k (iv_end iv)
        end
      else interval_range (q_index q) iv
  | None => interval_range (q_index q) iv
  end.

Definition cursor_key (st : page_state) : option bytes :=
  if pg_scanCapped st then pg_lastScanned st else if pg_hasMore st then pg_lastIncluded st else None.

Definition paginate (s : S) (q : query) (t : Z) (cursor : option jsstr) (pageSize : Z) (maxScan : option Z)
    (overlay : list overlay_entry) : res paginated_result :=
  base ← buildIndexInterval (is_fields (q_index q)) (q_range q);
  iv ← resume_interval base (q_order q) cursor;
  match overlay with
  | _ :: _ =>
      merged ← scanWithOverlay s q t iv overlay;
      paginate_overlay q iv pageSize merged
  | [] =>
      rows ← scan_query s q t iv;
      paginate_loop (q_filters q) pageSize maxScan rows 0 (PageState [] None None false false) ≫=
      fun st : page_state =>
      let readRange := if negb (pg_hasMore st) && negb (pg_scanCapped st)
                       then interval_range (q_index q) iv
                       else consumedRange (q_index q) iv (q_order q) (pg_lastScanned st) in
      Ok (PaginatedResult (pg_page st) (bytesToBase64 <$> cursor_key st) (pg_hasMore st) (pg_scanCapped st)
            (rs_add rs_empty readRange) (serializeKeyRange (page_bounds q iv st)))
  end.
End runtime.

(** * Intervals and sorted rows *)

Notation before o := (fun a b => directed o compareKeyBytes a b = Lt).

(** The interval a stopped scan consumed, and the one left after a key. *)
Definition consumed_interval (iv : interval) (o : order) (k : bytes) : interval :=
  match o with
  | Asc => Interval (iv_start iv) (Some (keySuccessor k))
  | Desc => Interval k (iv_end iv)
  end.

Definition rest_interval (iv : interval) (o : order) (k : bytes) : interval :=
  match o with
  | Asc => Interval (keySuccessor k) (iv_end iv)
  | Desc => Interval (iv_start iv) (Some k)
  end.

Definition end_wf (iv : interval) : Prop := forall e, iv_end iv = Some e -> wf_bytes e.

Lemma in_interval_spec x iv :
  in_interval x iv = true <-> compareKeyBytes (iv_start iv) x <> Gt /\ lt_end x (iv_end iv) = true.
Proof.
  unfold in_interval. rewrite (cmp_opp (c := compareKeyBytes) x (iv_start iv)).
  destruct (compareKeyBytes x (iv_start iv)); simpl; intuition congruence.
Qed.

Lemma successor_lt x k : wf_bytes x -> compareKeyBytes x (keySuccessor k) = Lt <-> compareKeyBytes x k <> Gt.
Proof.
  intros Hx. pose proof (compare_successor_lt x k (wf_bytes_nonneg x Hx)) as H.
  destruct (compareKeyBytes x (keySuccessor k)), (compareKeyBytes x k); simpl in H; intuition congruence.
Qed.

Lemma successor_le x k : wf_bytes x -> compareKeyBytes (keySuccessor k) x <> Gt <-> compareKeyBytes k x = Lt.
Proof.
  intros Hx. pose proof (successor_lt x k Hx) as H.
  rewrite (cmp_opp (c := compareKeyBytes) x (keySuccessor k)), (cmp_opp (c := compareKeyBytes) x k).
  destruct (compareKeyBytes x (keySuccessor k)), (compareKeyBytes x k); simpl in *; intuition congruence.
Qed.

Lemma consumed_interval_spec iv o k x :
  wf_bytes x -> in_interval x iv = true ->
  in_interval x (consumed_interval iv o k) = true <-> directed o compareKeyBytes x k <> Gt.
Proof.
  intros Hx. rewrite !in_interval_spec. intros [H1 H2]. destruct o; simpl; [|tauto].
  pose proof (successor_lt x k Hx) as Hs. unfold cmp_ltb.
  destruct (compareKeyBytes x (keySuccessor k)); intuition congruence.
Qed.

Lemma rest_interval_spec iv o k x :
  wf_bytes x -> in_interval x iv = true ->
  in_interval x (rest_interval iv o k) = true <-> directed o compareKeyBytes k x = Lt.
Proof.
  intros Hx. rewrite !in_interval_spec. intros [H1 H2]. destruct o; simpl.
  - rewrite successor_le by done. tauto.
  - unfold cmp_ltb. destruct (compareKeyBytes x k); intuition congruence.
Qed.

Lemma consumed_interval_sub iv o k x :
  end_wf iv -> in_interval k iv = true -> in_interval x (consumed_interval iv o k) = true ->
  in_interval x iv = true.
Proof.
  intros He. rewrite !in_interval_spec. intros [H1 H2]. destruct o; simpl.
  - intros [H3 H4]. split; [done|]. destruct (iv_end iv) as [e|] eqn:Ee; [|done].
    specialize (He e Ee). simpl in *.
    assert (compareKeyBytes (keySuccessor k) e <> Gt) as Hse.
    { apply successor_le; [done|]. by destruct (compareKeyBytes k e). }
    assert (compareKeyBytes x e = Lt) as ->; [|done].
    apply (cmp_lt_trans compareKeyBytes x (keySuccessor k) e); [|done].
    by destruct (compareKeyBytes x (keySuccessor k)).
  - intros [H3 H4]. split; [|done]. by apply (cmp_le_trans compareKeyBytes _ k).
Qed.

Lemma rest_interval_sub iv o k x :
  in_interval k iv = true -> in_interval x (rest_interval iv o k) = true -> in_interval x iv = true.
Proof.
  rewrite !in_interval_spec. intros [H1 H2]. destruct o; simpl.
  - intros [H3 H4]. split; [|done]. apply (cmp_le_trans compareKeyBytes _ k); [done|].
    pose proof (cmp_lt_trans compareKeyBytes k (keySuccessor k) x (key_lt_successor k) H3). congruence.
  - intros [H3 H4]. split; [done|]. apply (lt_end_le x k); [|done].
    unfold cmp_ltb in H4. by destruct (compareKeyBytes x k).
Qed.

Definition rows_sorted (o : order) (rows : list (bytes * value)) : Prop :=
  StronglySorted (fun a b => directed o compareKeyBytes a.1 b.1 = Lt) rows.

Definition rows_in (iv : interval) (rows : list (bytes * value)) : Prop :=
  Forall (fun kv => in_interval kv.1 iv = true /\ wf_bytes kv.1) rows.

Definition restrict (iv : interval) (rows : list (bytes * value)) : list (bytes * value) :=
  base.filter (fun kv => in_interval kv.1 iv = true) rows.

Lemma rows_sorted_middle o pre k v post :
  rows_sorted o (pre ++ (k, v) :: post) ->
  Forall (fun kv => directed o compareKeyBytes kv.1 k = Lt) pre /\
  Forall (fun kv => directed o compareKeyBytes k kv.1 = Lt) post.
Proof.
  unfold rows_sorted. induction pre as [|kv pre IH]; simpl; intros [Hs Hf]%StronglySorted_inv.
  - split; [constructor|]. exact Hf.
  - destruct (IH Hs) as [H1 H2]. split; [|done]. constructor; [|done].
    apply Forall_app in Hf as [_ Hf]. by apply Forall_cons in Hf as [? _].
Qed.

Lemma restrict_app iv l1 l2 : restrict iv (l1 ++ l2) = restrict iv l1 ++ restrict iv l2.
Proof. apply filter_app. Qed.

Lemma keyed_filter iv rs :
  keyed (base.filter (fun kd => in_interval kd.1 iv = true) rs) = restrict iv (keyed rs).
Proof.
  unfold keyed, restrict. induction rs as [|[k d] rs IH]; [done|]. rewrite fmap_cons, !filter_cons. simpl.
  destruct (decide _); csimpl; by rewrite IH.
Qed.

(** Up to a key, and after it. *)
Lemma restrict_middle iv o pre k v post :
  rows_sorted o (pre ++ (k, v) :: post) -> rows_in iv (pre ++ (k, v) :: post) ->
  restrict (consumed_interval iv o k) (pre ++ (k, v) :: post) = pre ++ [(k, v)] /\
  restrict (rest_interval iv o k) (pre ++ (k, v) :: post) = post.
Proof.
  intros Hs [Hpre Hp]%Forall_app. apply rows_sorted_middle in Hs as [H1 H2].
  apply Forall_cons in Hp as [Hk Hpost]. simpl in Hk. destruct Hk as [Hk Hkw].
  assert (Hcons : forall kv : bytes * value, in_interval kv.1 iv = true /\ wf_bytes kv.1 ->
            in_interval kv.1 (consumed_interval iv o k) = true <-> directed o compareKeyBytes kv.1 k <> Gt)
    by (intros kv [Hi Hw]; by apply consumed_interval_spec).
  assert (Hrest : forall kv : bytes * value, in_interval kv.1 iv = true /\ wf_bytes kv.1 ->
            in_interval kv.1 (rest_interval iv o k) = true <-> directed o compareKeyBytes k kv.1 = Lt)
    by (intros kv [Hi Hw]; by apply rest_interval_spec).
  pose proof (_ : CmpLaws (directed o compareKeyBytes)) as Hl.
  unfold rows_in in *. rewrite Forall_forall in *. rewrite !restrict_app. split.
  - unfold restrict. rewrite (filter_all _ pre), filter_cons_True, (filter_none _ post); [done|..].
    + apply Forall_forall. intros kv Hkv. rewrite Hcons by auto.
      specialize (H2 kv Hkv). apply cmp_gt_lt in H2; [|done]. congruence.
    + apply (consumed_interval_spec iv o k k); [done..|]. by rewrite (cmp_refl (c := directed o _)).
    + apply Forall_forall. intros kv Hkv. apply Hcons; [auto|]. specialize (H1 kv Hkv). congruence.
  - unfold restrict. rewrite (filter_none _ pre), filter_cons_False, (filter_all _ post); [done|..].
    + apply Forall_forall. intros kv Hkv. apply Hrest; auto.
    + rewrite (rest_interval_spec iv o k k) by done. by rewrite (cmp_refl (c := directed o _)).
    + apply Forall_forall. intros kv Hkv. rewrite Hrest by auto.
      specialize (H1 kv Hkv). apply cmp_gt_lt in H1; [|done]. congruence.
Qed.

Lemma restrict_elem iv rows kv : kv ∈ restrict iv rows <-> in_interval kv.1 iv = true /\ kv ∈ rows.
Proof. unfold restrict. by rewrite list_elem_of_filter. Qed.

(** Sorted rows start with what a consumed interval holds. *)
Lemma restrict_prefix iv o k rows :
  rows_sorted o rows -> rows_in iv rows -> in_interval k iv = true -> wf_bytes k ->
  exists post, rows = restrict (consumed_interval iv o k) rows ++ post.
Proof.
  intros Hs Hin Hk Hkw. pose proof (_ : CmpLaws (directed o compareKeyBytes)) as Hl.
  induction Hs as [|x rows Hs IH Hx]; [by exists []|].
  apply Forall_cons in Hin as [[Hi Hw] Hin]. destruct (IH Hin) as [post Hpost].
  unfold restrict. rewrite filter_cons. destruct (decide _) as [Hd|Hd].
  - exists post. simpl. f_equal. exact Hpost.
  - exists (x :: rows). fold (restrict (consumed_interval iv o k) rows).
    assert (Hnone : restrict (consumed_interval iv o k) rows = []); [|by rewrite Hnone].
    apply filter_none. rewrite Forall_forall in *. intros y Hy Hy'.
    destruct (Hin y Hy) as [Hiy Hwy].
    apply consumed_interval_spec in Hy'; [|done..]. apply Hd. apply consumed_interval_spec; [done..|].
    specialize (Hx y Hy). rewrite (cmp_lt_trans (directed o compareKeyBytes) x.1 y.1 k); done.
Qed.

Section laws.
Context {S : Type} `{!DocStore S} {valid : S -> Prop} `{!DocStoreLaws S valid}.
Implicit Types (s : S) (q : query).

Lemma scan_query_sorted s q t iv rows :
  valid s -> scan_query s q t iv = Ok rows ->
  rows_sorted (q_order q) rows /\ Forall (fun kv => in_interval kv.1 iv = true) rows.
Proof.
  unfold scan_query. intros Hv. destruct (ds_index_scan _ _ _ _ _ _ _) as [rs|] eqn:E; [|done].
  intros [= <-]. destruct (scan_sorted s _ _ _ _ _ _ Hv E) as [H1 H2]. unfold rows_sorted, keyed.
  clear E. split; [|rewrite Forall_fmap in H2; apply Forall_fmap; exact H2].
  induction rs as [|[k d] rs IH]; csimpl in *; [constructor|].
  apply StronglySorted_inv in H1 as [H1 H3]. apply Forall_cons in H2 as [_ H2].
  constructor; [by apply IH|]. rewrite Forall_fmap in H3. apply Forall_fmap. exact H3.
Qed.

Lemma scan_query_restrict s q t iv iv' rows :
  valid s -> (forall k, in_interval k iv' = true -> in_interval k iv = true) ->
  scan_query s q t iv = Ok rows -> scan_query s q t iv' = Ok (restrict iv' rows).
Proof.
  unfold scan_query. intros Hv Hsub. destruct (ds_index_scan _ _ _ _ _ _ _) as [rs|] eqn:E; [|done].
  intros [= <-]. rewrite (scan_restrict s _ _ _ iv iv' _ rs Hv Hsub E). cbn [fmap res_fmap]. by rewrite keyed_filter.
Qed.

(** Two snapshots that agree on what was consumed agree up to that key. *)
Lemma scans_agree s1 t1 s2 t2 q iv pre k v post rows2 :
  valid s1 -> valid s2 -> end_wf iv ->
  scan_query s1 q t1 iv = Ok (pre ++ (k, v) :: post) -> scan_query s2 q t2 iv = Ok rows2 ->
  Forall (fun kv => wf_bytes kv.1) (pre ++ (k, v) :: post) -> Forall (fun kv => wf_bytes kv.1) rows2 ->
  scan_query s2 q t2 (consumed_interval iv (q_order q) k) =
    scan_query s1 q t1 (consumed_interval iv (q_order q) k) ->
  exists post2, rows2 = pre ++ (k, v) :: post2.
Proof.
  intros Hv1 Hv2 He E1 E2 Hw1 Hw2 Heq.
  destruct (scan_query_sorted _ _ _ _ _ Hv1 E1) as [Hs1 Hi1].
  destruct (scan_query_sorted _ _ _ _ _ Hv2 E2) as [Hs2 Hi2].
  assert (Hin1 : rows_in iv (pre ++ (k, v) :: post)) by by apply Forall_and.
  assert (Hin2 : rows_in iv rows2) by by apply Forall_and.
  assert (Hk : in_interval k iv = true /\ wf_bytes k).
  { unfold rows_in in Hin1. rewrite Forall_forall in Hin1. apply (Hin1 (k, v)). set_solver. }
  destruct Hk as [Hk Hkw].
  assert (Hsub : forall x, in_interval x (consumed_interval iv (q_order q) k) = true -> in_interval x iv = true)
    by (intros x; by apply consumed_interval_sub).
  rewrite (scan_query_restrict s1 q t1 iv _ _ Hv1 Hsub E1), (scan_query_restrict s2 q t2 iv _ _ Hv2 Hsub E2) in Heq.
  injection Heq as Heq. destruct (restrict_middle iv (q_order q) pre k v post) as [Hm _]; [done..|].
  destruct (restrict_prefix iv (q_order q) k rows2) as [post2 Hp]; [done..|].
  exists post2. rewrite Heq, Hm in Hp. by rewrite <- app_assoc in Hp.
Qed.
End laws.

(** * The loops *)

(** A loop that stopped early saw nothing past its last key. *)
Lemma collect_loop_hit filters limit rows docs ls d ls' :
  collect_loop filters limit rows docs ls = Ok (d, ls', true) ->
  exists pre k v post, rows = pre ++ (k, v) :: post /\ ls' = Some k /\
    forall post', collect_loop filters limit (pre ++ (k, v) :: post') docs ls = Ok (d, ls', true).
Proof.
  revert docs ls. induction rows as [|[k v] rows IH]; intros docs ls; [done|]. cbn [collect_loop].
  destruct (passes filters v) as [b|] eqn:Ep; [|done]. rewrite bind_Ok.
  assert (Hgo : forall docs', collect_loop filters limit rows docs' (Some k) = Ok (d, ls', true) ->
            (forall rows', collect_loop filters limit ((k, v) :: rows') docs ls =
                           collect_loop filters limit rows' docs' (Some k)) ->
            exists pre k0 v0 post, (k, v) :: rows = pre ++ (k0, v0) :: post /\ ls' = Some k0 /\
              forall post', collect_loop filters limit (pre ++ (k0, v0) :: post') docs ls = Ok (d, ls', true)).
  { intros docs' H Heq. destruct (IH _ _ H) as (pre & k0 & v0 & post & -> & -> & Hp).
    exists ((k, v) :: pre), k0, v0, post. split_and!; [done..|]. intros post'. simpl app. by rewrite Heq. }
  destruct b.
  - cbv zeta. destruct (reached limit _) eqn:Er.
    + intros [= <- <-]. exists [], k, v, rows. split_and!; [done..|]. intros post'. cbn [app collect_loop].
      rewrite Ep, bind_Ok. cbv zeta. by rewrite Er.
    + intros H. apply (Hgo _ H). intros rows'. cbn [collect_loop]. rewrite Ep, bind_Ok. cbv zeta. by rewrite Er.
  - intros H. apply (Hgo _ H). intros rows'. cbn [collect_loop]. by rewrite Ep, bind_Ok.
Qed.

Lemma paginate_loop_hit filters ps ms rows n st st' :
  pg_hasMore st = false -> pg_scanCapped st = false ->
  paginate_loop filters ps ms rows n st = Ok st' ->
  (pg_hasMore st' = false /\ pg_scanCapped st' = false) \/
  (pg_hasMore st' = true /\ exists pre k v post, rows = pre ++ (k, v) :: post /\ pg_lastScanned st' = Some k /\
     forall post', paginate_loop filters ps ms (pre ++ (k, v) :: post') n st = Ok st').
Proof.
  revert n st. induction rows as [|[k v] rows IH]; intros n st Hm Hc; cbn [paginate_loop].
  { intros [= <-]. by left. }
  destruct (passes filters v) as [b|] eqn:Ep; [|done]. rewrite bind_Ok.
  destruct (b && (ps <=? Z.of_nat (length (pg_page st)))) eqn:Eb.
  { intros [= <-]. right. split; [done|]. exists [], k, v, rows. split_and!; [done..|]. intros post'.
    cbn [app paginate_loop]. by rewrite Ep, bind_Ok, Eb. }
  cbv zeta. set (st1 := if b then _ else _).
  assert (Hst1 : pg_hasMore st1 = false /\ pg_scanCapped st1 = false /\ pg_lastScanned st1 = Some k).
  { unfold st1. by destruct b. }
  destruct Hst1 as (Hm1 & Hc1 & Hl1). destruct (reached ms (S n)) eqn:Er.
  - intros [= <-]. right. split; [done|]. exists [], k, v, rows. split_and!; [done|done|]. intros post'.
    cbn [app paginate_loop]. rewrite Ep, bind_Ok, Eb. cbv zeta. by rewrite Er.
  - intros H. destruct (IH _ _ Hm1 Hc1 H) as [?|(? & pre & k0 & v0 & post & -> & ? & Hp)]; [by left|right].
    split; [done|]. exists ((k, v) :: pre), k0, v0, post. split_and!; [done..|]. intros post'.
    cbn [app paginate_loop]. rewrite Ep, bind_Ok, Eb. cbv zeta. rewrite Er. apply Hp.
Qed.

Definition range_interval (r : key_range) : interval := Interval (kr_start r) (kr_end r).

Lemma consumedRange_interval idx iv o k :
  range_interval (consumedRange idx iv o (Some k)) = consumed_interval iv o k.
Proof. by destruct o. Qed.

Section read_sets.
Context {S : Type} `{!DocStore S} {valid : S -> Prop} `{!DocStoreLaws S valid}.

(** The keys a snapshot's scan meets are byte strings. *)
Definition byte_keys (s : S) (q : query) (t : Z) (iv : interval) : Prop :=
  exists rows, scan_query s q t iv = Ok rows /\ Forall (fun kv => wf_bytes kv.1) rows.

(** Two snapshots show the same rows throughout a read set. *)
Definition agree_on (s1 : S) (t1 : Z) (s2 : S) (t2 : Z) (q : query) (rs : range_set) : Prop :=
  forall r, r ∈ rs_toArray rs ->
    scan_query s2 q t2 (range_interval r) = scan_query s1 q t1 (range_interval r).

Lemma agree_on_one s1 t1 s2 t2 q r :
  agree_on s1 t1 s2 t2 q (rs_add rs_empty r) ->
  scan_query s2 q t2 (range_interval r) = scan_query s1 q t1 (range_interval r).
Proof. intros H. apply H. destruct r. left. Qed.

(** C31: the read set recorded by [collect] covers everything its result
    depends on: any snapshot, of this store or another, that shows the same
    rows inside the recorded ranges gives the same documents and the same read
    set, whatever it shows elsewhere. *)
Theorem collect_read_set_sound (s1 s2 : S) t1 t2 q iv r :
  valid s1 -> valid s2 -> Forall (fun x => wf_value (re_value x)) (q_range q) ->
  buildIndexInterval (is_fields (q_index q)) (q_range q) = Ok iv ->
  byte_keys s1 q t1 iv -> byte_keys s2 q t2 iv ->
  collect s1 q t1 [] = Ok r -> agree_on s1 t1 s2 t2 q (cr_readSet r) ->
  collect s2 q t2 [] = Ok r.
Proof.
  intros Hv1 Hv2 Hr Hiv (rows1 & E1 & Hw1) (rows2 & E2 & Hw2). unfold collect. rewrite Hiv, !bind_Ok, E1, E2, !bind_Ok.
  destruct (collect_loop (q_filters q) (q_limit q) rows1 [] None) as [[[docs ls] hit]|] eqn:El; [|done].
  rewrite bind_Ok. intros [= <-] Ha. cbn [cr_readSet] in Ha. apply agree_on_one in Ha.
  assert (Hwf : end_wf iv) by (intros e; by eapply buildIndexInterval_end_wf).
  destruct hit.
  - destruct (collect_loop_hit _ _ _ _ _ _ _ El) as (pre & k & v & post & -> & -> & Hp).
    rewrite consumedRange_interval in Ha.
    destruct (scans_agree s1 t1 s2 t2 q iv pre k v post rows2) as [post2 ->]; [done..|].
    by rewrite Hp, bind_Ok.
  - assert (rows2 = rows1) as ->.
    { change (range_interval (interval_range (q_index q) iv)) with (Interval (iv_start iv) (iv_end iv)) in Ha.
      destruct iv. simpl in *. congruence. }
    by rewrite El, bind_Ok.
Qed.

(** The same for a page: rows outside its read set cannot change the page,
    its cursor or its bounds. *)
Theorem paginate_read_set_sound (s1 s2 : S) t1 t2 q base iv cursor pageSize maxScan p :
  valid s1 -> valid s2 -> buildIndexInterval (is_fields (q_index q)) (q_range q) = Ok base ->
  resume_interval base (q_order q) cursor = Ok iv -> end_wf iv ->
  byte_keys s1 q t1 iv -> byte_keys s2 q t2 iv ->
  paginate s1 q t1 cursor pageSize maxScan [] = Ok p -> agree_on s1 t1 s2 t2 q (pr_readSet p) ->
  paginate s2 q t2 cursor pageSize maxScan [] = Ok p.
Proof.
  intros Hv1 Hv2 Hb Hiv Hwf (rows1 & E1 & Hw1) (rows2 & E2 & Hw2). unfold paginate.
  rewrite Hb, !bind_Ok, Hiv, !bind_Ok, E1, E2, !bind_Ok.
  destruct (paginate_loop _ _ _ rows1 _ _) as [st|] eqn:El; [|done].
  rewrite bind_Ok. intros [= <-] Ha. cbn [pr_readSet] in Ha. apply agree_on_one in Ha.
  destruct (paginate_loop_hit _ _ _ _ _ (PageState [] None None false false) _ eq_refl eq_refl El) as [[Hm Hc]|(Hm & pre & k & v & post & -> & Hl & Hp)].
  - rewrite Hm, Hc in Ha. cbn [negb andb] in Ha.
    assert (rows2 = rows1) as ->.
    { change (range_interval (interval_range (q_index q) iv)) with (Interval (iv_start iv) (iv_end iv)) in Ha.
      destruct iv. simpl in *. congruence. }
    rewrite El, bind_Ok. by rewrite Hm, Hc.
  - rewrite Hm, Hl in Ha. cbn [negb andb] in Ha. rewrite consumedRange_interval in Ha.
    destruct (scans_agree s1 t1 s2 t2 q iv pre k v post rows2) as [post2 ->]; [done..|].
    by rewrite Hp, bind_Ok.
Qed.
End read_sets.

(** * Pages *)

(** The documents of the rows that pass, when every filter evaluates. *)
Fixpoint passing (filters : list filter_expr) (rows : list (bytes * value)) : res (list value) :=
  match rows with
  | [] => Ok []
  | kv :: rows' =>
      passes filters kv.2 ≫= fun ok : bool =>
      rest ← passing filters rows';
      Ok (if ok then kv.2 :: rest else rest)
  end.

Lemma passing_app filters l1 l2 :
  passing filters (l1 ++ l2) =
    d1 ← passing filters l1; d2 ← passing filters l2; Ok (d1 ++ d2).
Proof.
  induction l1 as [|kv l1 IH]; cbn [app passing].
  - rewrite bind_Ok. by destruct (passing filters l2).
  - destruct (passes filters kv.2) as [b|]; [|done]. rewrite !bind_Ok, IH.
    destruct (passing filters l1) as [d1|]; [|done]. rewrite !bind_Ok.
    destruct (passing filters l2) as [d2|]; [|by destruct b]. rewrite !bind_Ok. by destruct b.
Qed.

Lemma passing_app_inv filters l1 l2 d :
  passing filters (l1 ++ l2) = Ok d ->
  exists d1 d2, passing filters l1 = Ok d1 /\ passing filters l2 = Ok d2 /\ d = d1 ++ d2.
Proof.
  rewrite passing_app. destruct (passing filters l1) as [d1|]; [|done]. rewrite bind_Ok.
  destruct (passing filters l2) as [d2|]; [|done]. rewrite bind_Ok. intros [= <-]. by exists d1, d2.
Qed.

Lemma collect_loop_passing filters rows docs ls r :
  collect_loop filters None rows docs ls = Ok r ->
  exists d, passing filters rows = Ok d /\ r.1.1 = docs ++ d /\ r.2 = false.
Proof.
  revert docs ls. induction rows as [|[k v] rows IH]; intros docs ls; cbn [collect_loop passing].
  { intros [= <-]. exists []. by rewrite app_nil_r. }
  destruct (passes filters v) as [[]|] eqn:Ep; [| |done]; rewrite bind_Ok; cbn [reached]; cbv zeta;
    intros (d & Hd & Hr & Hh)%IH; simpl snd; rewrite Ep, bind_Ok, Hd, bind_Ok; eexists; split_and!; try done.
  by rewrite Hr, <- app_assoc.
Qed.

(** What the state of the paginating loop says about the rows it has seen. *)
Definition page_inv (filters : list filter_expr) (pageSize : Z) (seen : list (bytes * value)) (st : page_state)
  : Prop :=
  pg_hasMore st = false /\ pg_scanCapped st = false /\ passing filters seen = Ok (pg_page st) /\
  Z.of_nat (length (pg_page st)) <= pageSize /\
  match pg_lastIncluded st with
  | None => pg_page st = []
  | Some k => exists pre v post, seen = pre ++ (k, v) :: post /\ passing filters (pre ++ [(k, v)]) = Ok (pg_page st)
  end.

(** A stopped page ends at a row: the page holds what passes up to it. *)
Definition page_done (filters : list filter_expr) (pageSize : Z) (rows : list (bytes * value)) (st : page_state)
  : Prop :=
  Z.of_nat (length (pg_page st)) <= pageSize /\
  match cursor_key st with
  | None => pg_hasMore st = false /\ passing filters rows = Ok (pg_page st)
  | Some k => pg_hasMore st = true /\ exists pre v post, rows = pre ++ (k, v) :: post /\
      passing filters (pre ++ [(k, v)]) = Ok (pg_page st)
  end.

Lemma page_inv_step filters ps seen st k v b :
  page_inv filters ps seen st -> passes filters v = Ok b ->
  b && (ps <=? Z.of_nat (length (pg_page st))) = false ->
  page_inv filters ps (seen ++ [(k, v)])
    (if b then PageState (pg_page st ++ [v]) (Some k) (Some k) (pg_hasMore st) (pg_scanCapped st)
     else PageState (pg_page st) (pg_lastIncluded st) (Some k) (pg_hasMore st) (pg_scanCapped st)).
Proof.
  intros (Hm & Hc & Hp & Hlen & Hl) Ep Eb.
  assert (Hpass : passing filters (seen ++ [(k, v)]) = Ok (pg_page st ++ if b then [v] else [])).
  { rewrite passing_app, Hp, bind_Ok. cbn [passing]. simpl snd. rewrite Ep, !bind_Ok. by destruct b. }
  destruct b; unfold page_inv; cbn [pg_page pg_lastIncluded pg_hasMore pg_scanCapped]; split_and!; try done.
  - simpl in Eb. zbool. rewrite length_app. simpl. lia.
  - by exists seen, v, [].
  - by rewrite app_nil_r in Hpass.
  - destruct (pg_lastIncluded st) as [k0|]; [|done].
    destruct Hl as (pre & v0 & post & -> & Hpre). exists pre, v0, (post ++ [(k, v)]).
    by rewrite <- app_assoc.
Qed.

Lemma paginate_loop_spec filters ps ms rows n seen st st' :
  1 <= ps -> page_inv filters ps seen st ->
  paginate_loop filters ps ms rows n st = Ok st' -> page_done filters ps (seen ++ rows) st'.
Proof.
  intros Hps. revert n seen st. induction rows as [|[k v] rows IH]; intros n seen st Hinv; cbn [paginate_loop].
  { intros [= <-]. destruct Hinv as (Hm & Hc & Hp & Hlen & _). unfold page_done, cursor_key.
    rewrite Hm, Hc, app_nil_r. done. }
  destruct (passes filters v) as [b|] eqn:Ep; [|done]. rewrite bind_Ok.
  destruct (b && (ps <=? Z.of_nat (length (pg_page st)))) eqn:Eb.
  - intros [= <-]. destruct Hinv as (Hm & Hc & Hp & Hlen & Hl). zbool. unfold page_done, cursor_key.
    cbn [pg_page pg_scanCapped pg_hasMore pg_lastIncluded]. rewrite Hc. split; [done|].
    destruct (pg_lastIncluded st) as [k0|]; [|rewrite Hl in *; simpl in *; lia].
    split; [done|]. destruct Hl as (pre & v0 & post & -> & Hpre). exists pre, v0, (post ++ (k, v) :: rows).
    by rewrite <- app_assoc.
  - cbv zeta. pose proof (page_inv_step filters ps seen st k v b Hinv Ep Eb) as Hstep. revert Hstep.
    set (st1 := if b then _ else _). intros Hstep. destruct (reached ms (S n)).
    + intros [= <-]. destruct Hstep as (Hm & Hc & Hp & Hlen & Hl). unfold page_done, cursor_key.
      cbn [pg_page pg_scanCapped pg_hasMore pg_lastIncluded pg_lastScanned]. split; [done|]. rewrite Hc.
      destruct (Z.ltb_spec (Z.of_nat (length (pg_page st1))) ps).
      * assert (pg_lastScanned st1 = Some k) as -> by (unfold st1; by destruct b). split; [done|].
        by exists seen, v, rows.
      * destruct (pg_lastIncluded st1) as [k0|]; [|rewrite Hl in *; simpl in *; lia]. split; [done|].
        destruct Hl as (pre & v0 & post & Heq & Hpre). exists pre, v0, (post ++ rows).
        split; [|done]. transitivity ((seen ++ [(k, v)]) ++ rows); [by rewrite <- app_assoc|].
        by rewrite Heq, <- app_assoc.
    + intros H. specialize (IH _ _ _ Hstep H). by rewrite <- app_assoc in IH.
Qed.

Section paging.
Context {S : Type} `{!DocStore S} {valid : S -> Prop} `{!DocStoreLaws S valid}.
Implicit Types (s : S) (q : query).

(** Following the cursors from a position: the pages in order, with the bounds
    each one owns. *)
Fixpoint page_through (fuel : nat) (s : S) (q : query) (t : Z) (cursor : option jsstr) (pageSize : Z)
    (maxScan : option Z) : res (list paginated_result) :=
  match fuel with
  | O => Throw (PlainError "fuel")
  | Datatypes.S fuel' =>
      p ← paginate s q t cursor pageSize maxScan [];
      match pr_nextCursor p with
      | None => Ok [p]
      | Some c => rest ← page_through fuel' s q t (Some c) pageSize maxScan; Ok (p :: rest)
      end
  end.

Definition pageable (rows : list (bytes * value)) : Prop :=
  Forall (fun kv => wf_bytes kv.1 /\ kv.1 <> []) rows.

Lemma btoa_nonempty k : k <> [] -> btoa k <> [].
Proof.
  intros Hk H. assert (Hl : length (btoa k) = 0%nat) by by rewrite H. unfold btoa in Hl.
  rewrite length_app, length_fmap in Hl. destruct k as [|a [|b [|c k]]]; simpl in Hl; done || lia.
Qed.

(** The cursor of a page resumes right after the row it stopped at. *)
Lemma resume_rest base iv o cursor k :
  wf_bytes k -> k <> [] -> resume_interval base o cursor = Ok iv ->
  match o with Asc => iv_end iv = iv_end base | Desc => iv_start iv = iv_start base end /\
  resume_interval base o (Some (bytesToBase64 k)) = Ok (rest_interval iv o k).
Proof.
  intros Hw Hk Hiv. assert (Hr : match o with Asc => iv_end iv = iv_end base | Desc => iv_start iv = iv_start base end).
  { unfold resume_interval in Hiv. destruct cursor as [[|c0 c]|]; [by injection Hiv as <-; destruct o| |by injection Hiv as <-; destruct o].
    destruct (base64ToBytes _); [|done]. rewrite bind_Ok in Hiv. injection Hiv as <-. by destruct o. }
  split; [done|]. unfold resume_interval, bytesToBase64. pose proof (btoa_nonempty k Hk) as Hb.
  destruct (btoa k) as [|c0 c] eqn:Eb; [done|]. rewrite <- Eb. unfold base64ToBytes. rewrite atob_btoa by done.
  rewrite bind_Ok. destruct o; simpl; by rewrite Hr.
Qed.

Lemma paginate_loop_uncapped filters ps rows n st st' :
  pg_scanCapped st = false -> paginate_loop filters ps None rows n st = Ok st' -> pg_scanCapped st' = false.
Proof.
  revert n st. induction rows as [|[k v] rows IH]; intros n st Hc; cbn [paginate_loop]; [by intros [= <-]|].
  destruct (passes filters v) as [b|]; [|done]. rewrite bind_Ok.
  destruct (b && _); [by intros [= <-]|]. cbv zeta. cbn [reached]. apply IH. by destruct b.
Qed.

(** One page: what it holds, and where the next one starts. *)
Lemma paginate_step s q t base cursor iv rows d ps ms :
  valid s -> 1 <= ps -> pageable rows ->
  buildIndexInterval (is_fields (q_index q)) (q_range q) = Ok base ->
  resume_interval base (q_order q) cursor = Ok iv -> scan_query s q t iv = Ok rows ->
  passing (q_filters q) rows = Ok d ->
  exists p, paginate s q t cursor ps ms [] = Ok p /\ Z.of_nat (length (pr_page p)) <= ps /\
    match pr_nextCursor p with
    | None => pr_page p = d /\ pr_hasMore p = false
    | Some c => exists k v post d', pr_hasMore p = true /\ (k, v) ∈ rows /\ c = bytesToBase64 k /\
        (length post < length rows)%nat /\
        resume_interval base (q_order q) (Some c) = Ok (rest_interval iv (q_order q) k) /\
        scan_query s q t (rest_interval iv (q_order q) k) = Ok post /\ pageable post /\
        passing (q_filters q) post = Ok d' /\ d = pr_page p ++ d' /\
        (ms = None -> pr_pageBounds p = serializeKeyRange (consumedRange (q_index q) iv (q_order q) (Some k)))
    end.
Proof.
  intros Hv Hps Hkeys Hb Hiv Hs Hd. unfold paginate. rewrite Hb, bind_Ok, Hiv, bind_Ok, Hs, bind_Ok.
  assert (Hloop : exists st, paginate_loop (q_filters q) ps ms rows 0 (PageState [] None None false false) = Ok st).
  { clear -Hd. revert d Hd. generalize 0%nat, (PageState [] None None false false).
    induction rows as [|[k v] rows IH]; intros n st d; cbn [passing paginate_loop]; [eauto|]. simpl snd.
    destruct (passes (q_filters q) v) as [b|]; [|done]. rewrite !bind_Ok.
    destruct (passing (q_filters q) rows) as [d'|]; [|done]. intros _.
    destruct (b && _); [eauto|]. cbv zeta. destruct (reached ms _); eauto. }
  destruct Hloop as [st Hst]. rewrite Hst, bind_Ok. eexists. split; [reflexivity|].
  cbn [pr_page pr_nextCursor pr_hasMore].
  destruct (paginate_loop_spec (q_filters q) ps ms rows 0 [] (PageState [] None None false false) st) as [Hlen Hdone]; [done| |done|].
  { repeat split; simpl; lia. }
  split; [done|]. simpl app in Hdone. destruct (cursor_key st) as [k|] eqn:Ek; cbn [fmap option_fmap option_map].
  - destruct Hdone as (Hm & pre & v & post & -> & Hpre). rewrite (cons_middle (k, v)), app_assoc in Hd.
    apply passing_app_inv in Hd as (d1 & d2 & Hd1 & Hd2 & ->). rewrite Hpre in Hd1. injection Hd1 as <-.
    destruct (scan_query_sorted _ _ _ _ _ Hv Hs) as [Hsort Hin].
    assert (Hrows : rows_in iv (pre ++ (k, v) :: post)).
    { apply Forall_and. split; [done|]. eapply Forall_impl; [exact Hkeys|]. by intros kv [? _]. }
    destruct (restrict_middle iv (q_order q) pre k v post Hsort Hrows) as [_ Hrest].
    unfold pageable, rows_in in *. rewrite Forall_forall in *.
    destruct (Hkeys (k, v)) as [Hkw Hk0]; [set_solver|]. destruct (Hrows (k, v)) as [Hki _]; [set_solver|].
    destruct (resume_rest base iv (q_order q) cursor k Hkw Hk0 Hiv) as [_ Hres].
    exists k, v, post, d2. split_and!; try done.
    + set_solver.
    + rewrite length_app. simpl. lia.
    + assert (Hsub : forall x, in_interval x (rest_interval iv (q_order q) k) = true -> in_interval x iv = true)
        by (intros x; by apply rest_interval_sub).
      rewrite (scan_query_restrict s q t iv _ _ Hv Hsub Hs). by rewrite Hrest.
    + apply Forall_forall. intros kv Hkv. apply Hkeys. set_solver.
    + intros ->. apply paginate_loop_uncapped in Hst; [|done]. unfold cursor_key in Ek. rewrite Hst, Hm in Ek.
      cbn [pr_pageBounds]. unfold page_bounds. rewrite Ek, Hm. by destruct (q_order q).
  - destruct Hdone as [-> Hp]. split; [congruence|done].
Qed.

Lemma page_through_nonempty fuel s q t cursor ps ms pages :
  page_through fuel s q t cursor ps ms = Ok pages -> pages <> [].
Proof.
  destruct fuel as [|fuel]; [done|]. cbn [page_through]. destruct (paginate _ _ _ _ _ _ _) as [p|]; [|done].
  rewrite bind_Ok. destruct (pr_nextCursor p); [|by intros [= <-]].
  destruct (page_through _ _ _ _ _ _ _); [|done]. rewrite bind_Ok. by intros [= <-].
Qed.

(** C30: following the cursors from the start, with any positive page size and
    any scan cap, ends; every page but possibly the last says there is more;
    no page is longer than the page size; and the pages put together are
    exactly what [collect] without a limit returns. *)
Theorem pages_make_collect s q t ps ms r base rows :
  valid s -> 1 <= ps -> q_limit q = None -> collect s q t [] = Ok r ->
  buildIndexInterval (is_fields (q_index q)) (q_range q) = Ok base ->
  scan_query s q t base = Ok rows -> pageable rows ->
  exists pages, page_through (Datatypes.S (length rows)) s q t None ps ms = Ok pages /\
    concat (pr_page <$> pages) = cr_documents r /\
    Forall (fun p => Z.of_nat (length (pr_page p)) <= ps) pages /\
    (forall i p, pages !! i = Some p -> pr_hasMore p = negb (i =? pred (length pages))%nat).
Proof.
  intros Hv Hps Hlim Hc Hb Hs Hkeys.
  assert (Hd : passing (q_filters q) rows = Ok (cr_documents r)).
  { unfold collect in Hc. rewrite Hb, bind_Ok, Hs, bind_Ok, Hlim in Hc.
    destruct (collect_loop _ _ _ _ _) as [x|] eqn:El; [|done].
    destruct (collect_loop_passing _ _ _ _ _ El) as (d & Hd & Hr & _). rewrite Hd. f_equal.
    rewrite bind_Ok in Hc. destruct x as [[dd ls] hit]. injection Hc as <-. simpl in *. by rewrite Hr. }
  clear Hc. revert Hd. generalize (cr_documents r) as d. clear r.
  assert (Hiv : resume_interval base (q_order q) None = Ok base) by done. revert Hiv Hs.
  generalize base at 2 3 as iv. generalize (@None jsstr) as cursor.
  assert (Hfuel : (length rows < Datatypes.S (length rows))%nat) by lia. revert Hfuel Hkeys.
  generalize (Datatypes.S (length rows)) as fuel. intros fuel. revert rows.
  induction fuel as [|fuel IH]; intros rows Hfuel Hkeys cursor iv Hiv Hs d Hd; [lia|].
  destruct (paginate_step s q t base cursor iv rows d ps ms) as (p & Hp & Hlen & Hnext); [done..|].
  cbn [page_through]. rewrite Hp, bind_Ok. destruct (pr_nextCursor p) as [c|].
  - destruct Hnext as (k & v & post & d' & Hm & _ & _ & Hl & Hres & Hs' & Hk' & Hd' & -> & _).
    destruct (IH post ltac:(lia) Hk' (Some c) _ Hres Hs' d' Hd') as (pages & Hpg & Hcat & Hall & Hmore).
    rewrite Hpg, bind_Ok. exists (p :: pages). split_and!; [done| |by constructor|].
    + csimpl. by rewrite Hcat.
    + apply page_through_nonempty in Hpg. destruct pages as [|p' pages]; [done|].
      intros [|i] p0; simpl; [by intros [= <-]|]. intros Hi. apply (Hmore i p0 Hi).
  - destruct Hnext as [<- Hm]. exists [p]. split_and!; [done|csimpl; by rewrite app_nil_r|by repeat constructor|].
    intros [|i] p0; simpl; [by intros [= <-]|done].
Qed.

(** Without a scan cap, the bounds of a page and the interval the next
    page resumes from split the interval the page was asked for: every key is
    in exactly one of the two. *)
Theorem page_bounds_partition s q t base cursor iv rows d ps p c :
  valid s -> 1 <= ps -> pageable rows -> end_wf iv ->
  buildIndexInterval (is_fields (q_index q)) (q_range q) = Ok base ->
  resume_interval base (q_order q) cursor = Ok iv -> scan_query s q t iv = Ok rows ->
  passing (q_filters q) rows = Ok d ->
  paginate s q t cursor ps None [] = Ok p -> pr_nextCursor p = Some c ->
  exists owned iv', pr_pageBounds p = serializeKeyRange owned /\
    resume_interval base (q_order q) (Some c) = Ok iv' /\
    forall x, wf_bytes x -> in_interval x iv = xorb (keyInRange x owned) (in_interval x iv').
Proof.
  intros Hv Hps Hkeys Hwf Hb Hiv Hs Hd Hp Hc.
  destruct (paginate_step s q t base cursor iv rows d ps None) as (p' & Hp' & _ & Hnext); [done..|].
  assert (p' = p) as -> by congruence. rewrite Hc in Hnext.
  destruct Hnext as (k & v & post & d' & _ & Hin & -> & _ & Hres & _ & _ & _ & _ & Hpb).
  unfold pageable in Hkeys. rewrite Forall_forall in Hkeys. destruct (Hkeys _ Hin) as [Hkw Hk0].
  destruct (scan_query_sorted _ _ _ _ _ Hv Hs) as [_ Hall]. rewrite Forall_forall in Hall.
  specialize (Hall _ Hin). simpl in *.
  exists (consumedRange (q_index q) iv (q_order q) (Some k)), (rest_interval iv (q_order q) k).
  split_and!; [by apply Hpb|done|]. intros x Hx.
  assert (Hcons : keyInRange x (consumedRange (q_index q) iv (q_order q) (Some k)) =
                  in_interval x (consumed_interval iv (q_order q) k)).
  { apply eq_true_iff_eq. rewrite keyInRange_spec, in_interval_spec. by destruct (q_order q). }
  rewrite Hcons. pose proof (consumed_interval_sub iv (q_order q) k x Hwf Hall) as Hsub1.
  pose proof (rest_interval_sub iv (q_order q) k x Hall) as Hsub2.
  destruct (in_interval x iv) eqn:Ex.
  - pose proof (consumed_interval_spec iv (q_order q) k x Hx Ex) as H1.
    pose proof (rest_interval_spec iv (q_order q) k x Hx Ex) as H2.
    rewrite (cmp_opp (c := directed (q_order q) compareKeyBytes) x k) in H2.
    destruct (in_interval x (consumed_interval _ _ _)), (in_interval x (rest_interval _ _ _)),
      (directed (q_order q) compareKeyBytes x k); simpl in *; intuition congruence.
  - destruct (in_interval x (consumed_interval _ _ _)), (in_interval x (rest_interval _ _ _)); intuition congruence.
Qed.
End paging.

(** * The overlay *)

Lemma hexKey_inj a b : wf_bytes a -> wf_bytes b -> hexKey a = hexKey b -> a = b.
Proof.
  intros Ha Hb H. apply hex_roundtrip in Ha, Hb. change (hexKey a) with (internalIdToHex a) in H.
  rewrite H in Ha. change (internalIdToHex b) with (hexKey b) in Hb. unfold hexKey, internalIdToHex in *. congruence.
Qed.

(** The merge map: every entry sits under its own key's hexadecimal form. *)
Definition merge_ok (m : list (jsstr * (bytes * value))) : Prop :=
  NoDup (jm_keys m) /\ Forall (fun e => e.1 = hexKey e.2.1 /\ wf_bytes e.2.1) m.

Definition merge_get (m : list (jsstr * (bytes * value))) (k : bytes) : option value :=
  snd <$> jm_get m (hexKey k).

Lemma merge_ok_set m k v : merge_ok m -> wf_bytes k -> merge_ok (jm_set m (hexKey k) (k, v)).
Proof.
  intros [H1 H2] Hk. split; [by apply jm_nodup_set|]. apply jm_set_Forall; [done|]. by split.
Qed.

Lemma merge_ok_delete m h : merge_ok m -> merge_ok (jm_delete m h).
Proof.
  intros [H1 H2]. split; [by apply jm_nodup_delete|]. unfold jm_delete.
  rewrite Forall_forall in *. intros e [_ He]%list_elem_of_filter. auto.
Qed.

Lemma merge_get_set m k v k' :
  wf_bytes k -> wf_bytes k' ->
  merge_get (jm_set m (hexKey k) (k, v)) k' = if decide (k' = k) then Some v else merge_get m k'.
Proof.
  intros Hk Hk'. unfold merge_get. rewrite jm_get_set.
  destruct (decide (k' = k)) as [->|Hne]; [by rewrite decide_True|].
  rewrite decide_False; [done|]. intros H. by apply Hne, hexKey_inj.
Qed.

Lemma merge_get_delete m k k' :
  wf_bytes k -> wf_bytes k' ->
  merge_get (jm_delete m (hexKey k)) k' = if decide (k' = k) then None else merge_get m k'.
Proof.
  intros Hk Hk'. unfold merge_get. rewrite jm_get_delete.
  destruct (decide (k' = k)) as [->|Hne]; [by rewrite decide_True|].
  rewrite decide_False; [done|]. intros H. by apply Hne, hexKey_inj.
Qed.

(** What the transaction sees at a key: the last staged change wins over the
    committed row. *)
Definition overlaid (iv : interval) (overlay : list overlay_entry) (committed : option value) (k : bytes)
  : option value :=
  fold_left (fun acc o =>
    if decide (k = ov_key o) then
      match ov_value o with
      | None => None
      | Some v => if in_interval k iv then Some v else acc
      end
    else acc) overlay committed.

Lemma overlay_fold_get iv overlay m k :
  wf_bytes k -> Forall (fun o => wf_bytes (ov_key o)) overlay ->
  merge_get (fold_left (overlay_step iv) overlay m) k = overlaid iv overlay (merge_get m k) k.
Proof.
  intros Hk Ho. revert m. unfold overlaid. induction Ho as [|o overlay Hok _ IH]; intros m; [done|].
  simpl. rewrite IH. f_equal. unfold overlay_step. destruct (ov_value o) as [v|].
  - change (keyInInterval (ov_key o) iv) with (in_interval (ov_key o) iv).
    destruct (in_interval (ov_key o) iv) eqn:Ei.
    + rewrite merge_get_set by done. destruct (decide (k = ov_key o)) as [->|]; [by rewrite Ei|done].
    + destruct (decide (k = ov_key o)) as [->|]; [by rewrite Ei|done].
  - rewrite merge_get_delete by done. by destruct (decide _).
Qed.

Lemma overlay_fold_ok iv overlay m :
  Forall (fun o => wf_bytes (ov_key o)) overlay -> merge_ok m ->
  merge_ok (fold_left (overlay_step iv) overlay m).
Proof.
  intros Ho. revert m. induction Ho as [|o overlay Hok _ IH]; intros m Hm; [done|]. simpl. apply IH.
  unfold overlay_step. destruct (ov_value o); [|by apply merge_ok_delete].
  destruct (keyInInterval _ _); [by apply merge_ok_set|done].
Qed.

Lemma merge_rows rows m :
  Forall (fun kv : bytes * value => wf_bytes kv.1) rows -> merge_ok m ->
  NoDup rows.*1 ->
  let m' := fold_left (fun m (kv : bytes * value) => jm_set m (hexKey kv.1) kv) rows m in
  merge_ok m' /\
  forall k, wf_bytes k -> merge_get m' k = match jm_get rows k with Some v => Some v | None => merge_get m k end.
Proof.
  intros Hw. revert m. induction Hw as [|[k0 v0] rows Hk0 _ IH]; intros m Hm Hn; cbv zeta; [done|].
  csimpl in Hn. apply NoDup_cons in Hn as [Hfresh Hn]. cbn [fold_left fst].
  destruct (IH (jm_set m (hexKey k0) (k0, v0)) (merge_ok_set _ _ _ Hm Hk0) Hn) as [H1 H2]. split; [done|].
  intros k Hk. rewrite H2, merge_get_set by done. cbn [jm_get]. destruct (decide (k = k0)) as [->|]; [|done].
  by rewrite (proj2 (jm_get_None rows k0)).
Qed.

Lemma merge_values m kv :
  merge_ok m -> kv ∈ jm_values m <-> wf_bytes kv.1 /\ merge_get m kv.1 = Some kv.2.
Proof.
  intros [Hn Hf]. unfold jm_values, merge_get. rewrite Forall_forall in Hf. split.
  - intros [[h e] [-> He]]%list_elem_of_fmap. destruct (Hf _ He) as [Hh Hw]. simpl in *. split; [done|].
    by rewrite <- Hh, (jm_in_get m h e).
  - intros [Hw Hg]. destruct (jm_get m (hexKey kv.1)) as [e|] eqn:E; [|done]. simpl in Hg. injection Hg as Hg.
    apply jm_get_Some_in in E. destruct (Hf _ E) as [Hh He]. simpl in *.
    apply hexKey_inj in Hh; [|done..]. apply list_elem_of_fmap. exists (hexKey kv.1, e). split; [|done].
    destruct kv, e. simpl in *. congruence.
Qed.

Lemma merge_values_nodup m : merge_ok m -> NoDup (jm_values m).*1.
Proof.
  intros [Hn Hf]. unfold jm_values, jm_keys in *. induction m as [|[h e] m IH]; csimpl in *; [constructor|].
  apply NoDup_cons in Hn as [Hfresh Hn]. apply Forall_cons in Hf as [[Hh He] Hf].
  constructor; [|by apply IH]. intros [y [Hy Hin]]%list_elem_of_fmap.
  apply list_elem_of_fmap in Hin as [[h' e'] [-> Hin]]. rewrite Forall_forall in Hf.
  destruct (Hf _ Hin) as [Hh' _]. simpl in *. apply Hfresh.
  rewrite Hh, Hy, <- Hh'. by apply (list_elem_of_fmap_2 fst _ (h', e')).
Qed.

Section overlay.
Context {S : Type} `{!DocStore S} {valid : S -> Prop} `{!DocStoreLaws S valid}.

(** A scan with an overlay returns, in strict scan order, exactly the rows
    the transaction should see: at every key the last staged change, else the
    committed row. *)
Theorem scanWithOverlay_spec (s : S) q t iv overlay rows out :
  valid s -> scan_query s q t iv = Ok rows -> Forall (fun kv => wf_bytes kv.1) rows ->
  Forall (fun o => wf_bytes (ov_key o)) overlay ->
  scanWithOverlay s q t iv overlay = Ok out ->
  rows_sorted (q_order q) out /\
  forall k v, (k, v) ∈ out <-> wf_bytes k /\ overlaid iv overlay (jm_get rows k) k = Some v.
Proof.
  intros Hv Hs Hw Ho. unfold scanWithOverlay. rewrite Hs, bind_Ok.
  destruct (scan_query_sorted _ _ _ _ _ Hv Hs) as [Hsort _].
  pose proof (_ : CmpExact (directed (q_order q) compareKeyBytes)) as Hl.
  assert (Hn : NoDup rows.*1).
  { clear -Hsort Hl. induction Hsort as [|x rows Hs IH Hx]; csimpl; [constructor|]. constructor; [|done].
    intros [y [He Hy]]%list_elem_of_fmap. rewrite Forall_forall in Hx. specialize (Hx y Hy).
    rewrite He, (cmp_refl (c := directed (q_order q) compareKeyBytes)) in Hx. done. }
  destruct (merge_rows rows [] Hw) as [Hm Hg]; [by split; constructor|done|]. cbv zeta.
  set (m := fold_left _ rows []) in *.
  set (m' := fold_left (overlay_step iv) overlay m).
  assert (Hm' : merge_ok m') by by apply overlay_fold_ok.
  intros [= <-]. rewrite (directed_on (q_order q) compareKeyBytes fst). split.
  - apply (js_sort_strict fst); [done|]. by apply merge_values_nodup.
  - intros k v. rewrite js_sort_perm, (merge_values m' (k, v)) by done. simpl.
    split; intros [Hk H]; (split; [done|]); unfold m' in *; rewrite overlay_fold_get in * by done;
      rewrite Hg in * by done; simpl in *; by destruct (jm_get rows k).
Qed.
End overlay.

(** * A concrete store *)

Definition sample_index : index_spec :=
  IndexSpec (js "messages") 10001 (js "by_a") [js "a"] (encodeStorageIndexId 10001 (js "by_a")).
Definition sample_doc (n : number) (c : Z) : value :=
  VObject [(js "a", VNumber n); (str_id, VString [c])].

Definition sample_unit (n : number) (c : Z) : res commit_unit :=
  let id := DocId 10001 [c] in
  us ← computeIndexUpdates [sample_index] None (Some (sample_doc n c)) id;
  Ok (CommitUnit [LogEntry 0 id (Some (ResolvedDocument id (sample_doc n c))) None]
        (IndexWrite 0 <$> us) None).

(** Two documents, ordered by [a]: one with [0], one with [1]. *)
Definition sample_store : sqlite_store :=
  match (u1 ← sample_unit num_zero 120; u2 ← sample_unit num_one 121;
         sq_commitWriteBatch empty_store [u1; u2] None) with
  | Ok (_, s) => s
  | Throw _ => empty_store
  end.

Lemma sample_store_valid : store_valid sample_store.
Proof.
  destruct (u1 ← sample_unit num_zero 120; u2 ← sample_unit num_one 121;
            sq_commitWriteBatch empty_store [u1; u2] None) as [[tss s]|] eqn:E; [|by vm_compute in E].
  assert (sample_store = s) as -> by (unfold sample_store; by rewrite E).
  destruct (sample_unit num_zero 120) as [u1|] eqn:E1; [|done]. rewrite bind_Ok in E.
  destruct (sample_unit num_one 121) as [u2|] eqn:E2; [|done]. rewrite bind_Ok in E.
  by apply (@commit_valid sqlite_store sqlite_docstore store_valid sqlite_laws) in E; [|apply empty_store_valid].
Qed.

Definition sample_query (o : order) (filters : list filter_expr) (limit : option Z) : query :=
  Query sample_index [] o filters limit.

Definition sample_filter : filter_expr := FCompare OpEq (js "a") (VNumber num_zero).

Definition all_keys : interval := Interval [] None.

Definition sample_rows : list (bytes * value) :=
  match scan_query sample_store (sample_query Asc [] None) 2 all_keys with Ok rows => rows | Throw _ => [] end.

Lemma sample_rows_pageable : pageable sample_rows.
Proof. apply (bool_decide_unpack _). by vm_compute. Qed.

(** With a scan cap the split fails: the bounds of a capped page end at
    its last included row while the next page resumes after the last scanned
    one, so a key in between belongs to no page. *)
Theorem page_bounds_gap :
  exists (s : sqlite_store) q t p c iv owned k,
    store_valid s /\ paginate s q t None 2 (Some 2) [] = Ok p /\ pr_nextCursor p = Some c /\
    pr_pageBounds p = serializeKeyRange owned /\
    resume_interval all_keys (q_order q) (Some c) = Ok iv /\
    in_interval k all_keys = true /\ keyInRange k owned = false /\ in_interval k iv = false.
Proof.
  set (q := sample_query Asc [sample_filter] None).
  destruct (paginate sample_store q 2 None 2 (Some 2) []) as [p|] eqn:E; [|by vm_compute in E].
  destruct (pr_nextCursor p) as [c|] eqn:Ec; [|by vm_compute in E; injection E as <-].
  destruct (resume_interval all_keys Asc (Some c)) as [iv|] eqn:Ei;
    [|by vm_compute in E; injection E as <-; vm_compute in Ec; injection Ec as <-].
  set (k1 := match sample_rows with (k, _) :: _ => k | [] => [] end).
  set (k2 := match sample_rows with [_; (k, _)] => k | _ => [] end).
  exists sample_store, q, 2, p, c, iv, (KeyRange (index_keyspace sample_index) [] (Some (keySuccessor k1))), k2.
  split_and!; [apply sample_store_valid|done|done| |done|done|by vm_compute|];
    vm_compute in E; injection E as <-; [by vm_compute|].
  vm_compute in Ec. injection Ec as <-. vm_compute in Ei. injection Ei as <-. by vm_compute.
Qed.

Lemma sample_byte_keys q t iv :
  match scan_query sample_store q t iv with
  | Ok rows => bool_decide (Forall (fun kv => wf_bytes kv.1) rows) | Throw _ => false end = true ->
  byte_keys sample_store q t iv.
Proof.
  unfold byte_keys. destruct (scan_query sample_store q t iv) as [rows|]; [|done].
  intros H%bool_decide_eq_true. by exists rows.
Qed.

(** With a limit of one, the second row is not read: the snapshot before its
    commit gives the same answer. *)
Lemma collect_read_set_sound_witness :
  let q := sample_query Asc [] (Some 1) in
  exists r, collect sample_store q 2 [] = Ok r /\ collect sample_store q 1 [] = Ok r.
Proof.
  intros q. destruct (collect sample_store q 2 []) as [r|] eqn:E; [|vm_compute in E; discriminate E].
  exists r. split; [done|].
  assert (Hk2 : byte_keys sample_store q 2 all_keys) by (apply sample_byte_keys; vm_compute; reflexivity).
  assert (Hk1 : byte_keys sample_store q 1 all_keys) by (apply sample_byte_keys; vm_compute; reflexivity).
  apply (collect_read_set_sound (valid := store_valid) sample_store sample_store 2 1 q all_keys r
    sample_store_valid sample_store_valid ltac:(constructor) eq_refl
    Hk2 Hk1 E).
  vm_compute in E. injection E as <-. intros rg Hrg. vm_compute in Hrg.
  apply list_elem_of_singleton in Hrg as ->. vm_compute. reflexivity.
Defined.

Lemma paginate_read_set_sound_witness :
  let q := sample_query Asc [] None in
  exists p, paginate sample_store q 2 None 2 (Some 1) [] = Ok p /\ paginate sample_store q 1 None 2 (Some 1) [] = Ok p.
Proof.
  intros q. destruct (paginate sample_store q 2 None 2 (Some 1) []) as [p|] eqn:E; [|vm_compute in E; discriminate E].
  exists p. split; [done|].
  assert (Hk2 : byte_keys sample_store q 2 all_keys) by (apply sample_byte_keys; vm_compute; reflexivity).
  assert (Hk1 : byte_keys sample_store q 1 all_keys) by (apply sample_byte_keys; vm_compute; reflexivity).
  apply (paginate_read_set_sound (valid := store_valid) sample_store sample_store 2 1 q all_keys all_keys None 2 (Some 1) p
    sample_store_valid sample_store_valid eq_refl eq_refl ltac:(intros e; discriminate)
    Hk2 Hk1 E).
  vm_compute in E. injection E as <-. intros rg Hrg. vm_compute in Hrg.
  apply list_elem_of_singleton in Hrg as ->. vm_compute. reflexivity.
Defined.

Lemma pages_make_collect_witness :
  let q := sample_query Asc [] None in
  exists pages, page_through 3 sample_store q 2 None 1 None = Ok pages /\
    concat (pr_page <$> pages) = [sample_doc num_zero 120; sample_doc num_one 121].
Proof.
  intros q. destruct (collect sample_store q 2 []) as [r|] eqn:E; [|vm_compute in E; discriminate E].
  assert (Hr : cr_documents r = [sample_doc num_zero 120; sample_doc num_one 121]).
  { vm_compute in E. injection E as <-. vm_compute. reflexivity. }
  assert (Hs : scan_query sample_store q 2 all_keys = Ok sample_rows) by (vm_compute; reflexivity).
  destruct (pages_make_collect (valid := store_valid) sample_store q 2 1 None r all_keys sample_rows
    sample_store_valid ltac:(lia) eq_refl E eq_refl Hs sample_rows_pageable) as (pages & H1 & H2 & _).
  exists pages. split; [exact H1|congruence].
Defined.

Lemma page_bounds_partition_witness :
  let q := sample_query Desc [] None in
  exists p c owned iv', paginate sample_store q 2 None 1 None [] = Ok p /\ pr_nextCursor p = Some c /\
    resume_interval all_keys Desc (Some c) = Ok iv' /\
    in_interval [1] all_keys = xorb (keyInRange [1] owned) (in_interval [1] iv').
Proof.
  intros q. destruct (paginate sample_store q 2 None 1 None []) as [p|] eqn:E; [|vm_compute in E; discriminate E].
  destruct (pr_nextCursor p) as [c|] eqn:Ec; [|vm_compute in E; injection E as <-; discriminate Ec].
  destruct (scan_query sample_store q 2 all_keys) as [rows|] eqn:Es; [|vm_compute in Es; discriminate Es].
  assert (Hrows : pageable rows /\ is_ok (passing [] rows) = true).
  { vm_compute in Es. injection Es as <-. split; [apply (bool_decide_unpack _)|]; vm_compute; done. }
  destruct Hrows as [Hrows Hpass]. destruct (passing [] rows) as [d|] eqn:Ed; [|discriminate Hpass].
  destruct (page_bounds_partition (valid := store_valid) sample_store q 2 all_keys None all_keys rows d 1 p c
    sample_store_valid ltac:(lia) Hrows ltac:(intros e; discriminate) eq_refl eq_refl Es Ed E Ec)
    as (owned & iv' & _ & H1 & H2).
  exists p, c, owned, iv'. split_and!; [done|done|exact H1|]. apply H2. repeat constructor; done.
Defined.

Lemma scanWithOverlay_spec_witness :
  let q := sample_query Asc [] None in
  let overlay := [OverlayEntry [4; 200] (Some VNull)] in
  exists out, scanWithOverlay sample_store q 2 all_keys overlay = Ok out /\ ([4; 200], VNull) ∈ out.
Proof.
  intros q overlay.
  destruct (scanWithOverlay sample_store q 2 all_keys overlay) as [out|] eqn:E; [|vm_compute in E; discriminate E].
  destruct (scan_query sample_store q 2 all_keys) as [rows|] eqn:Es; [|vm_compute in Es; discriminate Es].
  assert (Hw : Forall (fun kv => wf_bytes kv.1) rows).
  { vm_compute in Es. injection Es as <-. apply (bool_decide_unpack _). vm_compute. done. }
  exists out. split; [done|].
  apply (scanWithOverlay_spec (valid := store_valid) sample_store q 2 all_keys overlay rows out
    sample_store_valid Es Hw ltac:(repeat constructor; done) E).
  split; [repeat constructor; done|]. vm_compute in Es. injection Es as <-. vm_compute. reflexivity.
Defined.
