(* ===== verification/StateRes.v ===== *)
(** State and exceptions: what a method of an object does to the object before
    it returns or throws.  The state of a computation that throws is kept. *)
From stdpp Require Import base list.
From S2P Require Import Prelude JsBase.

Section stm.
Context {S : Type}.

Definition stm (A : Type) : Type := S -> S * res A.
Definition ret {A} (x : A) : stm A := fun s => (s, Ok x).
Definition bind {A B} (m : stm A) (f : A -> stm B) : stm B := fun s =>
  match m s with (s', Ok x) => f x s' | (s', Throw e) => (s', Throw e) end.
Definition lift {A} (r : res A) : stm A := fun s => (s, r).
Definition modify (f : S -> S) : stm unit := fun s => (f s, Ok tt).
Definition gets {A} (f : S -> A) : stm A := fun s => (s, Ok (f s)).

(** [for (const x of l) { ... }]. *)
Fixpoint for_each {A} (l : list A) (f : A -> stm unit) : stm unit :=
  match l with
  | [] => ret tt
  | x :: l' => bind (f x) (fun _ => for_each l' f)
  end.

Lemma lift_ok {A} (r : res A) s s' x : lift r s = (s', Ok x) <-> s' = s /\ r = Ok x.
Proof. unfold lift. split; [by intros [= -> ->]|by intros [-> ->]]. Qed.
Lemma ret_ok {A} (x y : A) s s' : ret x s = (s', Ok y) <-> s' = s /\ x = y.
Proof. unfold ret. split; [by intros [= -> ->]|by intros [-> ->]]. Qed.

Lemma bind_ok {A B} (m : stm A) (f : A -> stm B) s s' y :
  bind m f s = (s', Ok y) -> exists s1 x, m s = (s1, Ok x) /\ f x s1 = (s', Ok y).
Proof. unfold bind. destruct (m s) as [s1 [x|e]]; [eauto|done]. Qed.

(** A relation kept by every step, whatever is thrown. *)
Section preserved.
Context (R : S -> S -> Prop) `{!Reflexive R, !Transitive R}.
Definition keeps {A} (m : stm A) : Prop := forall s, R s (m s).1.

Lemma keeps_ret {A} (x : A) : keeps (ret x).
Proof. by intros s. Qed.
Lemma keeps_lift {A} (r : res A) : keeps (lift r).
Proof. by intros s. Qed.
Lemma keeps_gets {A} (f : S -> A) : keeps (gets f).
Proof. by intros s. Qed.
Lemma keeps_modify f : (forall s, R s (f s)) -> keeps (modify f).
Proof. intros Hf s. apply Hf. Qed.
Lemma keeps_bind {A B} (m : stm A) (f : A -> stm B) : keeps m -> (forall x, keeps (f x)) -> keeps (bind m f).
Proof.
  intros Hm Hf s. unfold bind. specialize (Hm s). destruct (m s) as [s' [x|e]]; cbn in *; [|done].
  etrans; [exact Hm|apply Hf].
Qed.
Lemma keeps_bind_res {A B} (m : stm A) (f : A -> stm B) :
  keeps m -> (forall s s' x, m s = (s', Ok x) -> keeps (f x)) -> keeps (bind m f).
Proof.
  intros Hm Hf s. unfold bind. specialize (Hm s). destruct (m s) as [s' [x|e]] eqn:E; cbn in *; [|done].
  etrans; [exact Hm|by eapply Hf].
Qed.
Lemma keeps_bind_lift {A B} (r : res A) (f : A -> stm B) : (forall x, r = Ok x -> keeps (f x)) -> keeps (bind (lift r) f).
Proof. intros Hf. apply keeps_bind_res; [apply keeps_lift|]. intros s s' x [= -> ->]. by apply Hf. Qed.
Lemma keeps_for_each {A} (l : list A) f : (forall x, keeps (f x)) -> keeps (for_each l f).
Proof. intros Hf. induction l as [|x l IH]; [apply keeps_ret|]. by apply keeps_bind. Qed.

(** A relation kept by every step that does not throw. *)
Definition keeps_ok {A} (m : stm A) : Prop := forall s s' x, m s = (s', Ok x) -> R s s'.

Lemma keeps_keeps_ok {A} (m : stm A) : keeps m -> keeps_ok m.
Proof. intros Hm s s' x E. specialize (Hm s). by rewrite E in Hm. Qed.
Lemma keeps_ok_bind {A B} (m : stm A) (f : A -> stm B) : keeps_ok m -> (forall x, keeps_ok (f x)) -> keeps_ok (bind m f).
Proof. intros Hm Hf s s' y (s1 & x & E1 & E2)%bind_ok. etrans; [by eapply Hm|by eapply Hf]. Qed.
Lemma keeps_ok_lift {A} (r : res A) : keeps_ok (lift r).
Proof. apply keeps_keeps_ok, keeps_lift. Qed.
Lemma keeps_ok_modify f : (forall s, R s (f s)) -> keeps_ok (modify f).
Proof. intros Hf. by apply keeps_keeps_ok, keeps_modify. Qed.
End preserved.
End stm.
Arguments stm S A : clear implicits.

Declare Scope stm_scope.
Delimit Scope stm_scope with stm.
Notation "'let*' x ':=' m 'in' k" := (bind m (fun x => k)) (at level 200, x name, m at level 100, k at level 200) : stm_scope.
Notation "m ';;' k" := (bind m (fun _ => k)) (at level 100, right associativity) : stm_scope.
