(* ===== verification/Catalog.v ===== *)
(** The catalog of tables and indexes, the determinism profiles and the seeded
    generator: packages/executor/src/catalog.ts, profile.ts, seeded-random.ts.

    The buffer of writes to global tables of one mutation:
    packages/executor/src/global-txn.ts.  The store behind it (docstore-d1) is
    an interface: its queries run in an external database. *)
From Stdlib Require Import ZArith Lia SpecFloat.
From stdpp Require Import base list sets strings.
From S2P Require Import Prelude JsBase JsText Float64 Values ValuesJson Validators IdCodec Sharding JumpHash DocStore Query.

(** * catalog.ts *)

Inductive table_mode := MRoot | MShard | MGlobal.

#[global] Instance table_mode_eq_dec : EqDecision table_mode.
Proof. solve_decision. Defined.

Record table_meta := TableMeta
  { tm_name : jsstr; tm_tableNumber : Z; tm_documentValidator : option validator; tm_schemaValidation : bool;
    tm_shardKey : option jsstr; tm_mode : table_mode }.

(** [SimpleIndexCatalog]: its four maps. *)
Record catalog := Catalog
  { ct_tables : list (jsstr * table_meta); ct_tablesByNumber : list (Z * table_meta);
    ct_indexes : list (jsstr * index_spec); ct_indexesByTable : list (jsstr * list index_spec) }.

Definition catalog_new : catalog := Catalog [] [] [] [].

(** [shardKey ? ...]: the empty string is falsy. *)
Definition truthy_str (s : option jsstr) : option jsstr := match s with Some [] => None | _ => s end.

Definition index_name_key (table index : jsstr) : jsstr := table ++ [46] ++ index.

Definition addTable (c : catalog) (name : jsstr) (number : Z) (documentType : option validator_json)
    (schemaValidation : option bool) (shardKey : option jsstr) (global : bool) : res catalog :=
  let enabled := negb (bool_decide (schemaValidation = Some false)) in
  va ← match documentType with
       | Some (JvObject fields) => if enabled then va ← validatorFromJson (JvObject fields); Ok (Some va) else Ok None
       | _ => Ok None
       end;
  let mode := if global then MGlobal else match truthy_str shardKey with Some _ => MShard | None => MRoot end in
  let meta := TableMeta name number va enabled shardKey mode in
  Ok (Catalog (jm_set (ct_tables c) name meta) (jm_set (ct_tablesByNumber c) number meta) (ct_indexes c)
        (if jm_has (ct_indexesByTable c) name then ct_indexesByTable c else jm_set (ct_indexesByTable c) name [])).

Definition addIndex (c : catalog) (spec : index_spec) : res catalog :=
  c ← (if jm_has (ct_tables c) (is_table spec) then Ok c
       else addTable c (is_table spec) (is_tableNumber spec) None None None false);
  match jm_get (ct_indexesByTable c) (is_table spec) with
  | None => Throw TypeError
  | Some l =>
      Ok (Catalog (ct_tables c) (ct_tablesByNumber c)
            (jm_set (ct_indexes c) (index_name_key (is_table spec) (is_index spec)) spec)
            (jm_set (ct_indexesByTable c) (is_table spec) (l ++ [spec])))
  end.

Definition getTable (c : catalog) (name : jsstr) : option table_meta := jm_get (ct_tables c) name.
Definition getTableByNumber (c : catalog) (n : Z) : option table_meta := jm_get (ct_tablesByNumber c) n.
Definition getIndex (c : catalog) (table index : jsstr) : option index_spec :=
  jm_get (ct_indexes c) (index_name_key table index).
Definition indexesForTable (c : catalog) (name : jsstr) : list index_spec :=
  default [] (jm_get (ct_indexesByTable c) name).

(** The calls that build a catalog. *)
Inductive catalog_call :=
  | AddTable (name : jsstr) (number : Z) (documentType : option validator_json) (schemaValidation : option bool)
      (shardKey : option jsstr) (global : bool)
  | AddIndex (spec : index_spec).

Definition catalog_step (c : catalog) (x : catalog_call) : res catalog :=
  match x with
  | AddTable name number dt sv sk g => addTable c name number dt sv sk g
  | AddIndex spec => addIndex c spec
  end.

Fixpoint catalog_build (c : catalog) (xs : list catalog_call) : res catalog :=
  match xs with [] => Ok c | x :: xs' => c' ← catalog_step c x; catalog_build c' xs' end.

(** * profile.ts *)

Inductive udf_type := UQuery | UMutation | UAction | UHttpAction.
Inductive capability_mode := CapForbidden | CapSeeded | CapNative.

#[global] Instance udf_type_eq_dec : EqDecision udf_type.
Proof. solve_decision. Defined.

Record udf_capabilities := UdfCapabilities
  { uc_dbRead : bool; uc_dbWrite : bool; uc_random : capability_mode; uc_clock : capability_mode; uc_network : capability_mode }.
Record udf_profile := UdfProfile { up_udfType : udf_type; up_capabilities : udf_capabilities }.

Definition QUERY_PROFILE : udf_profile := UdfProfile UQuery (UdfCapabilities true false CapSeeded CapForbidden CapForbidden).
Definition MUTATION_PROFILE : udf_profile := UdfProfile UMutation (UdfCapabilities true true CapSeeded CapForbidden CapForbidden).
Definition ACTION_PROFILE : udf_profile := UdfProfile UAction (UdfCapabilities false false CapNative CapNative CapNative).
Definition HTTP_ACTION_PROFILE : udf_profile := UdfProfile UHttpAction (UdfCapabilities false false CapNative CapNative CapNative).

Definition profileFor (t : udf_type) : udf_profile :=
  match t with
  | UQuery => QUERY_PROFILE | UMutation => MUTATION_PROFILE
  | UAction => ACTION_PROFILE | UHttpAction => HTTP_ACTION_PROFILE
  end.

(** * seeded-random.ts *)

Definition xor32 (a b : Z) : Z := to_int32 (Z.lxor (to_int32 a) (to_int32 b)).
Definition imul (a b : Z) : Z := to_int32 (to_int32 a * to_int32 b).

Definition createSeededRandom (seed : Z) : Z := to_uint32 seed.

(** [next]: the new state, and the number before the division by 2^32. *)
Definition mulberry (a : Z) : Z * Z :=
  let a := or32 (a + 1831565813) 0 in
  let t := imul (xor32 a (shru32 a 15)) (or32 1 a) in
  let t := xor32 (t + imul (xor32 t (shru32 t 7)) (or32 61 t)) t in
  (a, shru32 (xor32 t (shru32 t 14)) 0).

Definition sr_next (a : Z) : Z * float64 :=
  let '(a, t) := mulberry a in (a, f64_div (f64_of_Z t) (f64_of_Z 4294967296)).

(** * The catalog is consistent *)

Record catalog_ok (c : catalog) : Prop := {
  co_names : forall name m, getTable c name = Some m -> tm_name m = name;
  co_numbers : forall n m, getTableByNumber c n = Some m -> tm_tableNumber m = n;
  co_lists : forall name m, getTable c name = Some m -> jm_has (ct_indexesByTable c) name = true
}.

Lemma catalog_new_ok : catalog_ok catalog_new.
Proof. by split. Qed.

Lemma jm_has_get {K V} `{EqDecision K} (m : list (K * V)) k : jm_has m k = match jm_get m k with Some _ => true | None => false end.
Proof. unfold jm_has. by destruct (jm_get m k). Qed.

Lemma addTable_ok c name number dt sv sk g c' : catalog_ok c -> addTable c name number dt sv sk g = Ok c' -> catalog_ok c'.
Proof.
  intros [H1 H2 H3] E. unfold addTable in E. destruct (match dt with Some _ => _ | None => _ end); [|done].
  rewrite bind_Ok in E. injection E as <-.
  split; unfold getTable, getTableByNumber; cbn [ct_tables ct_tablesByNumber ct_indexesByTable].
  - intros n m. rewrite jm_get_set. case_decide as En; [|apply H1]. by intros [= <-].
  - intros n m. rewrite jm_get_set. case_decide as En; [|apply H2]. by intros [= <-].
  - intros n m. rewrite jm_get_set. case_decide as En.
    + intros _. subst n. destruct (jm_has (ct_indexesByTable c) name) eqn:E; [done|].
      by rewrite jm_has_get, jm_get_set, decide_True.
    + intros Hm%H3. destruct (jm_has (ct_indexesByTable c) name) eqn:E; [done|].
      rewrite jm_has_get, jm_get_set, decide_False, <-jm_has_get by done. done.
Qed.

Lemma addIndex_ok c spec c' : catalog_ok c -> addIndex c spec = Ok c' -> catalog_ok c'.
Proof.
  intros Hc. unfold addIndex. destruct (if jm_has (ct_tables c) (is_table spec) then _ else _) as [c1|] eqn:E1; [|done].
  rewrite bind_Ok. destruct (jm_get (ct_indexesByTable c1) (is_table spec)) as [l|]; [|done]. intros [= <-].
  assert (H1 : catalog_ok c1).
  { destruct (jm_has _ _); [by injection E1 as <-|by eapply addTable_ok]. }
  destruct H1 as [H1 H2 H3]. split; [exact H1|exact H2|]. intros n m Hm%H3. cbn [ct_indexesByTable].
  rewrite jm_has_get, jm_get_set. case_decide; [done|]. by rewrite <-jm_has_get.
Qed.

Lemma catalog_build_ok c xs c' : catalog_ok c -> catalog_build c xs = Ok c' -> catalog_ok c'.
Proof.
  revert c. induction xs as [|x xs IH]; intros c Hc; cbn [catalog_build]; [by intros [= <-]|].
  destruct (catalog_step c x) as [c1|] eqn:E; [|done]. rewrite bind_Ok. apply IH.
  destruct x; cbn [catalog_step] in E; [by eapply addTable_ok|by eapply addIndex_ok].
Qed.

Inductive global_op :=
  | GInsert (table : jsstr) (doc : list (jsstr * value))
  | GReplace (table id : jsstr) (doc : list (jsstr * value))
  | GDelete (table id : jsstr).

(** What the buffer asks of the store.  A row is an object. *)
Class GlobalStore (G : Type) := {
  gs_get : G -> jsstr -> jsstr -> res (option (list (jsstr * value)));
  gs_queryByIndex : G -> jsstr -> jsstr -> list (jsstr * value) -> option Z -> res (list (list (jsstr * value)));
  gs_commitBatch : G -> list global_op -> res G
}.

Definition gkey (table id : jsstr) : jsstr := table ++ [0] ++ id.

Record global_txn := GlobalTxn { gt_ops : list global_op; gt_overlay : list (jsstr * option (list (jsstr * value))) }.
Definition gt_new : global_txn := GlobalTxn [] [].

(** [String(doc._id)]; the callers always set a string. *)
Definition doc_id_string (doc : list (jsstr * value)) : jsstr :=
  match jm_get doc (js "_id") with Some (VString s) => s | _ => js "undefined" end.

Definition stageInsert (g : global_txn) (table : jsstr) (doc : list (jsstr * value)) : global_txn :=
  GlobalTxn (gt_ops g ++ [GInsert table doc]) (jm_set (gt_overlay g) (gkey table (doc_id_string doc)) (Some doc)).
Definition stageReplace (g : global_txn) (table id : jsstr) (doc : list (jsstr * value)) : global_txn :=
  GlobalTxn (gt_ops g ++ [GReplace table id doc])
    (jm_set (gt_overlay g) (gkey table id) (Some (obj_define doc (js "_id") (VString id)))).
Definition stageDelete (g : global_txn) (table id : jsstr) : global_txn :=
  GlobalTxn (gt_ops g ++ [GDelete table id]) (jm_set (gt_overlay g) (gkey table id) None).

Definition hasWrites (g : global_txn) : bool := match gt_ops g with [] => false | _ => true end.

(** [doc[f] === val]: an array, object or buffer is another object than the one
    in the condition. *)
Definition strict_same (a : option value) (b : value) : bool :=
  match a, b with
  | Some VNull, VNull => true
  | Some (VBool x), VBool y => Bool.eqb x y
  | Some (VNumber x), VNumber y => SFeqb (num_f x) (num_f y)
  | Some (VBigint x), VBigint y => x =? y
  | Some (VString x), VString y => bool_decide (x = y)
  | _, _ => false
  end.

Definition gmatches (eq : list (jsstr * value)) (doc : list (jsstr * value)) : bool :=
  forallb (fun fv : jsstr * value => strict_same (jm_get doc fv.1) fv.2) eq.

(** The overlay's rows of the table that match. *)
Definition staged_rows (g : global_txn) (table : jsstr) (eq : list (jsstr * value)) : list (list (jsstr * value)) :=
  omap (fun kd : jsstr * option (list (jsstr * value)) =>
          match kd.2 with
          | Some doc => if starts_with (table ++ [0]) kd.1 && gmatches eq doc then Some doc else None
          | None => None
          end) (gt_overlay g).

Section global.
Context {G : Type} `{GlobalStore G}.

Definition gt_get (d : G) (g : global_txn) (table id : jsstr) : res (option (list (jsstr * value))) :=
  match jm_get (gt_overlay g) (gkey table id) with
  | Some doc => Ok doc
  | None => gs_get d table id
  end.

Definition base_survivors (g : global_txn) (table : jsstr) (base : list (list (jsstr * value))) : list (list (jsstr * value)) :=
  base.filter (fun row => jm_has (gt_overlay g) (gkey table (doc_id_string row)) = false) base.

Definition gt_queryByIndex (d : G) (g : global_txn) (table index : jsstr) (eq : list (jsstr * value)) (limit : option Z)
    : res (list (list (jsstr * value))) :=
  let baseLimit := (fun l => l + Z.of_nat (length (gt_ops g))) <$> limit in
  base ← gs_queryByIndex d table index eq baseLimit;
  let result := staged_rows g table eq ++ base_survivors g table base in
  Ok (match limit with
      | Some l => take (Z.to_nat (if l <? 0 then Z.of_nat (length result) + l else l)) result
      | None => result
      end).
End global.
