(* ===== verification/Policy.v ===== *)
(** Row policies compiled to filters, and relation clauses resolved by a
    semi-join: packages/executor/src/policy.ts.  A predicate is the object the
    policy returns.  The clauses of [AND] and [OR] are resolved one after the
    other. *)
From Stdlib Require Import ZArith Lia SpecFloat.
From stdpp Require Import base list sets strings.
From S2P Require Import Prelude JsBase JsText Float64 Values Query StateRes.

Inductive policy_predicate := PUndefined | PBool (b : bool) | PWhere (w : value).

Definition ALWAYS_TRUE : filter_expr := FAnd [].
Definition ALWAYS_FALSE : filter_expr := FOr [].

(** * Reading predicate objects *)

Definition truthy (v : value) : bool :=
  match v with
  | VNull => false
  | VBool b => b
  | VNumber n => negb (SFeqb (num_f n) f64_zero) && negb (f64_is_nan (num_f n))
  | VBigint n => negb (n =? 0)
  | VString s => match s with [] => false | _ => true end
  | _ => true
  end.

(** A property looked up and mapped, so that a recursive function can go
    through it. *)
Section lookups.
Context {B : Type} (f : value -> B).
Fixpoint get_map (fs : list (jsstr * value)) (k : jsstr) : option B :=
  match fs with [] => None | (k', x) :: fs' => if decide (k = k') then Some (f x) else get_map fs' k end.
End lookups.

Definition numbered (xs : list value) : list (jsstr * value) :=
  zip_with (fun i x => (js_string_of (Z.of_nat i), x)) (seq 0 (length xs)) xs.

Definition KNOWN_FIELD_OPS : list jsstr :=
  [js "eq"; js "ne"; js "lt"; js "lte"; js "gt"; js "gte"; js "in"; js "notIn"; js "isNull"].
Definition RELATION_KEYS : list jsstr := [js "some"; js "none"; js "every"; js "is"; js "isNot"].

Definition relation_clause (ops : list (jsstr * value)) : bool := existsb (jm_has ops) RELATION_KEYS.

Definition combine_clauses (cs : list filter_expr) : filter_expr :=
  match cs with [] => ALWAYS_TRUE | [c] => c | _ => FAnd cs end.

(** [if ("eq" in ops) clauses.push(...)]. *)
Definition op_clause (ops : list (jsstr * value)) (field key : jsstr) (op : comparison_op) : list filter_expr :=
  match jm_get ops key with Some v => [FCompare op field v] | None => [] end.

(** [ops.in.map(...)]: only an array has a [map]. *)
Definition list_clause (ops : list (jsstr * value)) (field key : jsstr) (op : comparison_op)
    (join : list filter_expr -> filter_expr) : res (list filter_expr) :=
  match jm_get ops key with
  | None => Ok []
  | Some (VArray vs) => Ok [join (FCompare op field <$> vs)]
  | Some _ => Throw TypeError
  end.

Definition compileField (field : jsstr) (cond : value) : res filter_expr :=
  match cond with
  | VObject ops =>
      if relation_clause ops then Throw (PlainError "relation clause in a field predicate")
      else if existsb (fun k => negb (bool_decide (k ∈ KNOWN_FIELD_OPS))) (jm_keys ops)
      then Throw (PlainError "unknown field operator")
      else
        ins ← list_clause ops field (js "in") OpEq FOr;
        notIns ← list_clause ops field (js "notIn") OpNeq FAnd;
        Ok (combine_clauses
              (op_clause ops field (js "eq") OpEq ++ op_clause ops field (js "ne") OpNeq ++
               op_clause ops field (js "lt") OpLt ++ op_clause ops field (js "lte") OpLte ++
               op_clause ops field (js "gt") OpGt ++ op_clause ops field (js "gte") OpGte ++
               ins ++ notIns ++
               match jm_get ops (js "isNull") with
               | Some v => [FCompare (if truthy v then OpEq else OpNeq) field VNull]
               | None => []
               end))
  | _ => Ok (FCompare OpEq field cond)
  end.

Definition compile_entry (kv : jsstr * value) : res filter_expr := compileField kv.1 kv.2.

(** [Object.entries] of what is not an object. *)
Definition other_entries (v : value) : list (jsstr * value) :=
  match v with
  | VArray xs => numbered xs
  | VString s => numbered ((fun u => VString [u]) <$> s)
  | _ => []
  end.

Definition collect_res {A} (rs : list (res A)) : res (list A) := traverse id rs.

Fixpoint compileNode (v : value) : res filter_expr :=
  match v with
  | VNull => Throw TypeError
  | VObject fs =>
      match get_map (fun x => match x with VArray xs => Some (compileNode <$> xs) | _ => None end) fs (js "AND") with
      | Some (Some rs) => FAnd <$> collect_res rs
      | _ =>
          match get_map (fun x => match x with VArray xs => Some (compileNode <$> xs) | _ => None end) fs (js "OR") with
          | Some (Some rs) => FOr <$> collect_res rs
          | _ =>
              match get_map compileNode fs (js "NOT") with
              | Some r => FNot <$> r
              | None => combine_clauses <$> traverse compile_entry fs
              end
          end
      end
  | _ => combine_clauses <$> traverse compile_entry (other_entries v)
  end.

(** [None] is [null]: no restriction. *)
Definition compileWhere (w : policy_predicate) : res (option filter_expr) :=
  match w with
  | PUndefined | PBool true => Ok None
  | PBool false => Ok (Some ALWAYS_FALSE)
  | PWhere v => Some <$> compileNode v
  end.

Definition mergeReadPolicy (existing : list filter_expr) (policyExpr : option filter_expr) : list filter_expr :=
  match policyExpr with None => existing | Some e => existing ++ [e] end.

(** * Relation clauses *)

Record relation_registry := RelationRegistry
  { rr_toMany : list (jsstr * list (jsstr * (jsstr * jsstr))); rr_toOne : list (jsstr * list (jsstr * jsstr)) }.

Definition MAX_RELATION_DEPTH : Z := 4.

(** [ids.add(v)]: same-value-zero, so two objects are always different. *)
Definition same_value_zero (a b : value) : bool :=
  match a, b with
  | VNull, VNull => true
  | VBool x, VBool y => Bool.eqb x y
  | VNumber x, VNumber y => SFeqb (num_f x) (num_f y) || (f64_is_nan (num_f x) && f64_is_nan (num_f y))
  | VBigint x, VBigint y => x =? y
  | VString x, VString y => bool_decide (x = y)
  | _, _ => false
  end.
Definition ids_add (ids : list value) (v : value) : list value := if existsb (same_value_zero v) ids then ids else ids ++ [v].

(** [row[field]] of a row read from the database; a declared field is not the
    name of a member that all objects inherit. *)
Definition row_field (row : value) (field : jsstr) : option value :=
  match row with VObject fs => jm_get fs field | _ => None end.

Definition leaf_matches (leaf : option filter_expr) (row : value) : res bool :=
  match leaf with None => Ok true | Some e => evaluateFilter row e end.

(** The loop over the rows of the related table. *)
Fixpoint collect_refs (leaf : option filter_expr) (negate : bool) (field : jsstr) (rows ids : list value) : res (list value) :=
  match rows with
  | [] => Ok ids
  | row :: rows' =>
      m ← leaf_matches leaf row;
      collect_refs leaf negate field rows'
        (if negb (Bool.eqb m negate) then match row_field row field with Some r => ids_add ids r | None => ids end else ids)
  end.

Definition id_filter (field key : jsstr) (ids : list value) : res filter_expr :=
  compileNode (VObject [(field, VObject [(key, VArray ids)])]).

Definition toMany_of (rr : relation_registry) (parent rel : jsstr) : option (jsstr * jsstr) :=
  m ← jm_get (rr_toMany rr) parent; jm_get m rel.
Definition toOne_of (rr : relation_registry) (parent field : jsstr) : option jsstr :=
  m ← jm_get (rr_toOne rr) parent; jm_get m field.

Section map_stm.
Context {S A B : Type} (f : A -> stm S B).
Fixpoint map_stm (l : list A) : stm S (list B) :=
  match l with
  | [] => ret []
  | x :: l' => let* y := f x in let* ys := map_stm l' in ret (y :: ys)
  end%stm.
End map_stm.

Section resolver.
#[local] Open Scope stm_scope.
Context {S : Type} (rr : relation_registry).
(** [db.query(table, "by_creation").collect()]. *)
Context (collect_all : jsstr -> stm S (list value)).

(** What is left of a to-many clause once its leaf is resolved. *)
Definition to_many_refs (table field : jsstr) (negate : bool) (leaf : option filter_expr) : stm S (list value) :=
  let* rows := collect_all table in lift (collect_refs leaf negate field rows []).

Definition to_one_ids (table : jsstr) (leaf : option filter_expr) : stm S (list value) :=
  let* rows := collect_all table in lift (collect_refs leaf false (js "_id") rows []).

Definition child_depth (depth : Z) : res Z :=
  if MAX_RELATION_DEPTH <? depth + 1 then Throw (PlainError "relation nesting exceeds max depth") else Ok (depth + 1).

Definition collectToManyIds (parent : jsstr) (depth : Z) (rel : jsstr)
    (resolve : jsstr -> Z -> stm S (option filter_expr)) (negate : bool) : stm S (list value) :=
  match toMany_of rr parent rel with
  | None => lift (Throw (PlainError "unknown relation"))
  | Some (table, field) =>
      let* d := lift (child_depth depth) in
      let* leaf := resolve table d in
      to_many_refs table field negate leaf
  end.

Definition collectToOneIds (parent : jsstr) (depth : Z) (field : jsstr)
    (resolve : jsstr -> Z -> stm S (option filter_expr)) : stm S (list value) :=
  match toOne_of rr parent field with
  | None => lift (Throw (PlainError "not a reference"))
  | Some table =>
      let* d := lift (child_depth depth) in
      let* leaf := resolve table d in
      to_one_ids table leaf
  end.

(** The clause of a relation, its nested predicates given as the resolvers of
    the ones that are present. *)
Definition relation_filter (parent : jsstr) (depth : Z) (key : jsstr)
    (some_ none_ every_ is_ isNot_ : option (jsstr -> Z -> stm S (option filter_expr))) : stm S (option filter_expr) :=
  match some_, none_, every_, is_, isNot_ with
  | Some r, _, _, _, _ =>
      let* ids := collectToManyIds parent depth key r false in let* e := lift (id_filter (js "_id") (js "in") ids) in ret (Some e)
  | None, Some r, _, _, _ =>
      let* ids := collectToManyIds parent depth key r false in let* e := lift (id_filter (js "_id") (js "notIn") ids) in ret (Some e)
  | None, None, Some r, _, _ =>
      let* ids := collectToManyIds parent depth key r true in let* e := lift (id_filter (js "_id") (js "notIn") ids) in ret (Some e)
  | None, None, None, Some r, _ =>
      let* ids := collectToOneIds parent depth key r in let* e := lift (id_filter key (js "in") ids) in ret (Some e)
  | None, None, None, None, Some r =>
      let* ids := collectToOneIds parent depth key r in let* e := lift (id_filter key (js "notIn") ids) in ret (Some e)
  | None, None, None, None, None => ret None
  end.

Definition plain_clause (key : jsstr) (cond : value) : stm S filter_expr := lift (compileNode (VObject [(key, cond)])).

(** [resolveNode]; a leaf may also be a boolean, as in [resolveWhere]. *)
Fixpoint resolveNode (v : value) (parent : jsstr) (depth : Z) {struct v} : stm S filter_expr :=
  let leaf (w : value) (parent : jsstr) (depth : Z) : stm S (option filter_expr) :=
    match w with
    | VBool true => ret None
    | VBool false => ret (Some ALWAYS_FALSE)
    | _ => let* e := resolveNode w parent depth in ret (Some e)
    end in
  let clause (kv : jsstr * value) : stm S filter_expr :=
    let '(key, cond) := kv in
    match cond with
    | VObject cs =>
        let* e := relation_filter parent depth key (get_map leaf cs (js "some")) (get_map leaf cs (js "none"))
                    (get_map leaf cs (js "every")) (get_map leaf cs (js "is")) (get_map leaf cs (js "isNot")) in
        match e with Some e => ret e | None => plain_clause key cond end
    | _ => plain_clause key cond
    end in
  match v with
  | VNull => lift (Throw TypeError)
  | VObject fs =>
      match get_map (fun x => match x with VArray xs => Some (map_stm (fun y => resolveNode y parent depth) xs) | _ => None end) fs (js "AND") with
      | Some (Some m) => let* es := m in ret (FAnd es)
      | _ =>
          match get_map (fun x => match x with VArray xs => Some (map_stm (fun y => resolveNode y parent depth) xs) | _ => None end) fs (js "OR") with
          | Some (Some m) => let* es := m in ret (FOr es)
          | _ =>
              match get_map (fun x => resolveNode x parent depth) fs (js "NOT") with
              | Some m => let* e := m in ret (FNot e)
              | None => let* es := map_stm clause fs in ret (combine_clauses es)
              end
          end
      end
  | _ => let* es := map_stm (fun kv : jsstr * value => plain_clause kv.1 kv.2) (other_entries v) in ret (combine_clauses es)
  end.

Definition resolveWhere (w : policy_predicate) (parent : jsstr) (depth : Z) : stm S (option filter_expr) :=
  match w with
  | PUndefined | PBool true => ret None
  | PBool false => ret (Some ALWAYS_FALSE)
  | PWhere v => let* e := resolveNode v parent depth in ret (Some e)
  end.
End resolver.

(** * Resolving keeps what reading keeps *)

Section keeps.
Context {S : Type} (rr : relation_registry) (collect_all : jsstr -> stm S (list value)).
Context (Q : S -> S -> Prop) `{!Reflexive Q, !Transitive Q} (Hall : forall t, keeps Q (collect_all t)).

Lemma get_map_Forall {B} (P : value -> Prop) (f : value -> B) fs k b :
  Forall (fun kv : jsstr * value => P kv.2) fs -> get_map f fs k = Some b -> exists x, P x /\ b = f x.
Proof.
  induction 1 as [|[k' x] fs Hx _ IH]; cbn; [done|]. destruct (decide (k = k')); [|done]. intros [= <-]. eauto.
Qed.

Lemma map_stm_keeps {A B} (f : A -> stm S B) l : Forall (fun x => keeps Q (f x)) l -> keeps Q (map_stm f l).
Proof.
  induction 1 as [|x l Hx _ IH]; cbn [map_stm]; [by apply keeps_ret|].
  apply keeps_bind; [done|done|]. intros y. apply keeps_bind; [done|done|]. intros ys. by apply keeps_ret.
Qed.

Lemma to_many_refs_keeps t f n l : keeps Q (to_many_refs collect_all t f n l).
Proof. unfold to_many_refs. apply keeps_bind; [done|done|]. intros rows. by apply keeps_lift. Qed.
Lemma to_one_ids_keeps t l : keeps Q (to_one_ids collect_all t l).
Proof. unfold to_one_ids. apply keeps_bind; [done|done|]. intros rows. by apply keeps_lift. Qed.

Notation resolver_keeps r := (forall t d, keeps Q (r t d)).

Lemma collectToManyIds_keeps p d rel r n : resolver_keeps r -> keeps Q (collectToManyIds rr collect_all p d rel r n).
Proof.
  intros Hr. unfold collectToManyIds. destruct (toMany_of _ _ _) as [[t f]|]; [|by apply keeps_lift].
  apply keeps_bind; [done|by apply keeps_lift|]. intros x. apply keeps_bind; [done|apply Hr|]. intros l. apply to_many_refs_keeps.
Qed.
Lemma collectToOneIds_keeps p d f r : resolver_keeps r -> keeps Q (collectToOneIds rr collect_all p d f r).
Proof.
  intros Hr. unfold collectToOneIds. destruct (toOne_of _ _ _) as [t|]; [|by apply keeps_lift].
  apply keeps_bind; [done|by apply keeps_lift|]. intros x. apply keeps_bind; [done|apply Hr|]. intros l. apply to_one_ids_keeps.
Qed.

Lemma relation_filter_keeps p d key a b c e g :
  (forall r, Some r ∈ [a; b; c; e; g] -> resolver_keeps r) -> keeps Q (relation_filter rr collect_all p d key a b c e g).
Proof.
  intros Hr. unfold relation_filter.
  assert (Hend : forall x y ids, keeps Q (let* e := lift (id_filter x y ids) in ret (Some e))%stm).
  { intros. apply keeps_bind; [done|by apply keeps_lift|]. intros. by apply keeps_ret. }
  destruct a as [r|]; [|destruct b as [r|]; [|destruct c as [r|]; [|destruct e as [r|]; [|destruct g as [r|]; [|by apply keeps_ret]]]]];
    (apply keeps_bind; [done| |intros ids; apply Hend]);
    first [apply collectToManyIds_keeps|apply collectToOneIds_keeps]; apply Hr; set_solver.
Qed.

Notation node_keeps v := (forall p d, keeps Q (resolveNode rr collect_all v p d)).

(** A node and its children. *)
Definition tree_keeps (v : value) : Prop :=
  node_keeps v /\
  match v with
  | VArray xs => Forall (fun x => node_keeps x) xs
  | VObject fs => Forall (fun kv : jsstr * value => node_keeps kv.2) fs
  | _ => True
  end.

Lemma leaf_keeps w p d :
  node_keeps w -> keeps Q (match w with
    | VBool true => ret None
    | VBool false => ret (Some ALWAYS_FALSE)
    | _ => let* e := resolveNode rr collect_all w p d in ret (Some e)
    end)%stm.
Proof.
  intros Hw. assert (Hd : keeps Q (let* e := resolveNode rr collect_all w p d in ret (Some e))%stm).
  { apply keeps_bind; [done|apply Hw|]. intros e. by apply keeps_ret. }
  destruct w as [|[]| | | | | |]; first [exact Hd|by apply keeps_ret].
Qed.

Lemma array_clause_keeps p d fs k m :
  Forall (fun kv : jsstr * value => tree_keeps kv.2) fs ->
  get_map (fun x => match x with VArray xs => Some (map_stm (fun y => resolveNode rr collect_all y p d) xs) | _ => None end) fs k = Some (Some m) ->
  keeps Q m.
Proof.
  intros Hfs Hg. destruct (get_map_Forall tree_keeps _ _ _ _ Hfs Hg) as (x & [_ Hx] & E).
  destruct x as [| | | | | |xs|]; try done. injection E as ->. apply map_stm_keeps. by eapply Forall_impl; [exact Hx|].
Qed.

Lemma resolveNode_tree_keeps v : tree_keeps v.
Proof.
  induction v as [|b|n|n|s|bs|xs IH|fs IH] using value_ind'; split; try done; intros;
    try (apply keeps_bind; [done| |intros; by apply keeps_ret]; apply map_stm_keeps, Forall_true; intros; by apply keeps_lift).
  - eapply Forall_impl; [exact IH|]. by intros x [].
  - cbn [resolveNode].
    assert (Hret : forall (m : stm S (list filter_expr)) f, keeps Q m -> keeps Q (let* es := m in ret (f es : filter_expr))%stm).
    { intros m f Hm. apply keeps_bind; [done|done|]. intros. by apply keeps_ret. }
    case_match eqn:E1; [case_match; [apply Hret; subst; by eapply array_clause_keeps|]|].
    all: case_match eqn:E2; [case_match; [apply Hret; subst; by eapply array_clause_keeps|]|].
    all: case_match eqn:E3;
      [destruct (get_map_Forall tree_keeps _ _ _ _ IH E3) as (x & [Hx _] & ->); apply keeps_bind; [done|apply Hx|intros; by apply keeps_ret]|].
    all: apply Hret, map_stm_keeps; eapply Forall_impl; [exact IH|]; intros [key cond] [Hn Hc]; cbn in Hn, Hc.
    all: assert (Hp : keeps Q (plain_clause (S := S) key cond)) by by apply keeps_lift.
    all: destruct cond as [| | | | | | |cs]; try exact Hp.
    all: apply keeps_bind; [done| |intros [e|]; [by apply keeps_ret|exact Hp]].
    all: apply relation_filter_keeps; intros r Hr t dd.
    all: assert (Hk : exists k, get_map (fun w parent depth => match w with
           | VBool true => ret None | VBool false => ret (Some ALWAYS_FALSE)
           | _ => let* e := resolveNode rr collect_all w parent depth in ret (Some e) end)%stm cs k = Some r)
         by (rewrite !elem_of_cons, elem_of_nil in Hr; destruct Hr as [Hr|[Hr|[Hr|[Hr|[Hr|[]]]]]]; eexists; symmetry; exact Hr).
    all: destruct Hk as [k Hk]; destruct (get_map_Forall (fun x => node_keeps x) _ _ _ _ Hc Hk) as (x & Hx & ->); by apply leaf_keeps.
  - eapply Forall_impl; [exact IH|]. by intros x [].
Qed.

Lemma resolveWhere_keeps w p d : keeps Q (resolveWhere rr collect_all w p d).
Proof.
  destruct w as [|[]|v]; try by apply keeps_ret. apply keeps_bind; [done|apply resolveNode_tree_keeps|].
  intros. by apply keeps_ret.
Qed.
End keeps.
