(* ===== verification/PolicyProperties.v ===== *)
(** What relation clauses mean: the filter a to-many or to-one clause is
    resolved to is the quantifier over the related rows it stands for. *)
From Stdlib Require Import ZArith Lia SpecFloat.
From stdpp Require Import base list sets strings.
From S2P Require Import Prelude JsBase JsText Float64 Values Query StateRes Policy.

(** * A set of references *)

Lemma SFeqb_rank a b : SFeqb a b = true -> f64_rank a = f64_rank b.
Proof.
  unfold SFeqb. destruct (SFcompare a b) as [[]|] eqn:E; try done. intros _. revert E.
  destruct a as [[]|[]| |[] m e], b as [[]|[]| |[] m' e']; cbn; try done;
    destruct (Z.compare_spec e e') as [->| |]; try done;
    change (Pos.compare_cont Eq m m') with (m ?= m')%positive; destruct (Pos.compare_spec m m') as [->| |]; done.
Qed.

Lemma same_value_zero_equiv a b : same_value_zero a b = true -> value_equiv a b.
Proof.
  unfold value_equiv. destruct a, b; cbn [same_value_zero]; try done; cbn [compareValues].
  - destruct b0, b; done.
  - intros H. change (compareNumbers n n0 = Eq). rewrite compareNumbers_rank. apply Z.compare_eq_iff.
    apply orb_prop in H as [H|H]; [by apply SFeqb_rank|].
    apply andb_prop in H as [H1 H2]. by destruct (num_f n), (num_f n0).
  - intros ->%Z.eqb_eq. apply (compareValues_refl (VBigint n0)).
  - case_bool_decide; [|done]. subst. intros _. apply (compareValues_refl (VString s0)).
Qed.

(** The value is one of the references, in the order of the database. *)
Definition refers (w : value) (r : value) : bool := cmp_eqb (compareValues w r).

Lemma existsb_equiv w a b : value_equiv a b -> refers w a = refers w b.
Proof. intros H. unfold refers. by rewrite H. Qed.

Lemma ids_add_refers ids r w : existsb (refers w) (ids_add ids r) = refers w r || existsb (refers w) ids.
Proof.
  unfold ids_add. destruct (existsb (same_value_zero r) ids) eqn:E.
  - apply existsb_exists in E as (x & Hx & Hs%same_value_zero_equiv). rewrite (existsb_equiv w _ _ Hs).
    destruct (refers w x) eqn:Er; [|done]. cbn. apply existsb_exists. by exists x.
  - rewrite existsb_app. cbn. by rewrite orb_false_r, orb_comm.
Qed.

Lemma existsb_same {A} (f g : A -> bool) l : (forall x, f x = g x) -> existsb f l = existsb g l.
Proof. intros H. induction l as [|x l IH]; cbn; [done|]. by rewrite H, IH. Qed.

Lemma negb_existsb {A} (f g : A -> bool) l : (forall x, negb (f x) = g x) -> negb (existsb f l) = forallb g l.
Proof. intros H. induction l as [|x l IH]; cbn; [done|]. by rewrite negb_orb, H, IH. Qed.

(** * The loop over the related rows *)

Definition leaf_holds (leaf : option filter_expr) (row : value) : bool :=
  match leaf_matches leaf row with Ok b => b | Throw _ => false end.

(** The row's [field] is the value [w]. *)
Definition ref_is (field : jsstr) (w row : value) : bool :=
  match row_field row field with Some r => refers w r | None => false end.

Definition decides (leaf : option filter_expr) (rows : list value) : Prop := forall row, row ∈ rows -> exists b, leaf_matches leaf row = Ok b.

Lemma collect_refs_refers leaf negate field rows ids : decides leaf rows ->
  exists out, collect_refs leaf negate field rows ids = Ok out /\
    forall w, existsb (refers w) out =
      existsb (refers w) ids || existsb (fun row => xorb (leaf_holds leaf row) negate && ref_is field w row) rows.
Proof.
  revert ids. induction rows as [|row rows IH]; intros ids Hd; cbn [collect_refs].
  { exists ids. split; [done|]. intros w. by rewrite orb_false_r. }
  destruct (Hd row (list_elem_of_here _ _)) as [b Hb]. rewrite Hb, bind_Ok.
  assert (Hd' : decides leaf rows) by (intros r Hr; by apply Hd, list_elem_of_further).
  set (ids' := if negb (Bool.eqb b negate) then _ else ids).
  destruct (IH ids' Hd') as (out & Ho & Hw). exists out. split; [exact Ho|]. intros w. rewrite Hw. cbn [existsb].
  assert (Hi : existsb (refers w) ids' = existsb (refers w) ids || (xorb (leaf_holds leaf row) negate && ref_is field w row)).
  { unfold leaf_holds, ref_is, ids'. rewrite Hb. destruct b, negate; cbn [xorb Bool.eqb negb andb]; rewrite ?orb_false_r; try done;
      (destruct (row_field row field); [by rewrite ids_add_refers, orb_comm|by rewrite orb_false_r]). }
  by rewrite Hi, orb_assoc.
Qed.

(** * The filter of a set of references *)

Lemma id_filter_in field ids : field <> js "NOT" -> id_filter field (js "in") ids = Ok (FOr (FCompare OpEq field <$> ids)).
Proof.
  intros Hf. unfold id_filter. cbn [compileNode get_map]. do 2 case_decide; cbn; rewrite ?decide_False by done; reflexivity.
Qed.
Lemma id_filter_notIn field ids : field <> js "NOT" -> id_filter field (js "notIn") ids = Ok (FAnd (FCompare OpNeq field <$> ids)).
Proof.
  intros Hf. unfold id_filter. cbn [compileNode get_map]. do 2 case_decide; cbn; rewrite ?decide_False by done; reflexivity.
Qed.

(** A field name that is not a path and not a reserved key. *)
Definition plain_field (field : jsstr) : Prop := Forall (fun u => u <> dot) field /\ field <> js "NOT".

Lemma plain_id : plain_field str_id.
Proof. split; [by repeat constructor|done]. Qed.

Lemma field_of_row field row w : plain_field field -> row_field row field = Some w -> evaluateFieldPath row field = FValue w.
Proof.
  intros [Hf _] Hw. unfold evaluateFieldPath. rewrite js_split_plain by done. cbn [walk_path]. unfold row_field in Hw.
  destruct row; try done. cbn [read_member]. by rewrite Hw.
Qed.

Lemma in_filter_holds field row w ids : evaluateFieldPath row field = FValue w ->
  evaluateFilter row (FOr (FCompare OpEq field <$> ids)) = Ok (existsb (refers w) ids).
Proof.
  intros Hw. cbn [evaluateFilter]. induction ids as [|r ids IH]; [done|]. cbn [fmap list_fmap res_some evaluateFilter existsb].
  rewrite Hw. cbn [compare_field]. rewrite !bind_Ok. unfold refers at 1. cbn [op_holds].
  destruct (cmp_eqb (compareValues w r)); [done|exact IH].
Qed.
Lemma notIn_filter_holds field row w ids : evaluateFieldPath row field = FValue w ->
  evaluateFilter row (FAnd (FCompare OpNeq field <$> ids)) = Ok (negb (existsb (refers w) ids)).
Proof.
  intros Hw. cbn [evaluateFilter]. induction ids as [|r ids IH]; [done|]. cbn [fmap list_fmap res_every evaluateFilter existsb].
  rewrite Hw. cbn [compare_field]. rewrite !bind_Ok. unfold refers at 1. cbn [op_holds].
  destruct (cmp_eqb (compareValues w r)); [done|exact IH].
Qed.

(** * Relation clauses *)

(** The predicate a leaf is. *)
Definition as_predicate (w : value) : policy_predicate := match w with VBool b => PBool b | _ => PWhere w end.

(** [{ key: { op: leaf } }]. *)
Definition clause (key : jsstr) (op : string) (leaf : value) : value := VObject [(key, VObject [(js op, leaf)])].

Section clauses.
#[local] Open Scope stm_scope.
Context {S : Type} (rr : relation_registry) (collect_all : jsstr -> stm S (list value)).

Notation resolve v := (resolveNode rr collect_all v).
(** The leaf of a clause, as [resolveNode] reads it. *)
Notation leaf_of := (fun w p d =>
  match w with VBool true => ret None | VBool false => ret (Some ALWAYS_FALSE) | _ => let* e := resolve w p d in ret (Some e) end).
Definition leaf_resolver (w : value) (t : jsstr) (d : Z) : stm S (option filter_expr) := resolveWhere rr collect_all (as_predicate w) t d.

Lemma relation_filter_ext parent depth key (a b c e g a' b' c' e' g' : option (jsstr -> Z -> stm S (option filter_expr))) s :
  a = a' -> b = b' -> c = c' -> e = e' -> g = g' ->
  relation_filter rr collect_all parent depth key a b c e g s = relation_filter rr collect_all parent depth key a' b' c' e' g' s.
Proof. by intros -> -> -> -> ->. Qed.

Definition pick (op op' : string) (w : value) : option (jsstr -> Z -> stm S (option filter_expr)) :=
  if decide (op = op') then Some (leaf_resolver w) else None.

(** A clause with one relation key resolves to that key's filter. *)
Lemma resolve_clause parent depth key op w s s' e : key <> js "NOT" -> op ∈ ["some"; "none"; "every"; "is"; "isNot"]%string ->
  relation_filter rr collect_all parent depth key (pick op "some" w) (pick op "none" w) (pick op "every" w) (pick op "is" w)
    (pick op "isNot" w) s = (s', Ok (Some e)) ->
  resolve (clause key op w) parent depth s = (s', Ok e).
Proof.
  intros Hk Hop E. unfold clause. cbn [resolveNode get_map].
  assert (Hr : forall s0, relation_filter rr collect_all parent depth key (pick op "some" w) (pick op "none" w) (pick op "every" w)
      (pick op "is" w) (pick op "isNot" w) s0 = (s', Ok (Some e)) ->
    (let* es := map_stm (fun kv : jsstr * value => let '(k, cond) := kv in
        match cond with
        | VObject cs =>
            let* e := relation_filter rr collect_all parent depth k (get_map leaf_of cs (js "some")) (get_map leaf_of cs (js "none")) (get_map leaf_of cs (js "every"))
              (get_map leaf_of cs (js "is")) (get_map leaf_of cs (js "isNot")) in
            match e with Some e => ret e | None => plain_clause k cond end
        | _ => plain_clause k cond
        end) [(key, VObject [(js op, w)])] in ret (combine_clauses es)) s0 = (s', Ok e)).
  { intros s0 E0. cbn [map_stm]. unfold bind at 1 2 3. erewrite relation_filter_ext; [rewrite E0; reflexivity|..].
    all: cbn [get_map]; unfold pick, leaf_resolver.
    all: repeat (apply elem_of_cons in Hop as [->|Hop]; [cbn; destruct w as [|[]| | | | | |]; reflexivity|]); by apply elem_of_nil in Hop. }
  do 2 case_decide; rewrite ?decide_False by done; by apply Hr.
Qed.

(** The related rows a to-many clause goes through, and its leaf. *)
Lemma to_many_ids parent depth rel w negate table field s s1 s2 leaf rows :
  toMany_of rr parent rel = Some (table, field) -> depth < MAX_RELATION_DEPTH ->
  leaf_resolver w table (depth + 1) s = (s1, Ok leaf) -> collect_all table s1 = (s2, Ok rows) -> decides leaf rows ->
  exists ids, collectToManyIds rr collect_all parent depth rel (leaf_resolver w) negate s = (s2, Ok ids) /\
    forall v, existsb (refers v) ids = existsb (fun row => xorb (leaf_holds leaf row) negate && ref_is field v row) rows.
Proof.
  intros Ht Hd Hl Hr Hdec. destruct (collect_refs_refers leaf negate field rows [] Hdec) as (out & Ho & Hw).
  exists out. split; [|exact Hw]. unfold collectToManyIds. rewrite Ht. unfold child_depth.
  assert (Hdepth : MAX_RELATION_DEPTH <? depth + 1 = false) by (apply Z.ltb_ge; lia). rewrite Hdepth. unfold bind at 1, lift at 1.
  unfold bind at 1. rewrite Hl. unfold to_many_refs, bind. rewrite Hr. unfold lift. by rewrite Ho.
Qed.

Lemma to_one_ids_spec parent depth key w table s s1 s2 leaf rows :
  toOne_of rr parent key = Some table -> depth < MAX_RELATION_DEPTH ->
  leaf_resolver w table (depth + 1) s = (s1, Ok leaf) -> collect_all table s1 = (s2, Ok rows) -> decides leaf rows ->
  exists ids, collectToOneIds rr collect_all parent depth key (leaf_resolver w) s = (s2, Ok ids) /\
    forall v, existsb (refers v) ids = existsb (fun row => leaf_holds leaf row && ref_is str_id v row) rows.
Proof.
  intros Ht Hd Hl Hr Hdec. destruct (collect_refs_refers leaf false (js "_id") rows [] Hdec) as (out & Ho & Hw).
  exists out. split.
  - unfold collectToOneIds. rewrite Ht. unfold child_depth.
    assert (Hdepth : MAX_RELATION_DEPTH <? depth + 1 = false) by (apply Z.ltb_ge; lia). rewrite Hdepth. unfold bind at 1, lift at 1.
    unfold bind at 1. rewrite Hl. unfold to_one_ids, bind. rewrite Hr. unfold lift. by rewrite Ho.
  - intros v. rewrite Hw. cbn [existsb]. rewrite orb_false_l. apply existsb_same. intros row. by rewrite xorb_false_r.
Qed.

Lemma clause_filter (m : stm S (list value)) field key s s' ids e : m s = (s', Ok ids) -> id_filter field key ids = Ok e ->
  (let* ids := m in let* e := lift (id_filter field key ids) in ret (Some e)) s = (s', Ok (Some e)).
Proof. intros Hm He. unfold bind at 1. rewrite Hm. unfold bind, lift. by rewrite He. Qed.

(** C10: a relation clause of a read policy is resolved to the quantifier it
    stands for.  For a relation to [table] through [field], whose rows the
    reader lists: [some] holds of a document exactly when some row that refers
    to its id satisfies the leaf, [none] when no such row does, and [every]
    when every row that refers to it does (so when there is none). *)
Theorem to_many_semi_join parent depth rel w table field s s1 s2 leaf rows :
  rel <> js "NOT" -> toMany_of rr parent rel = Some (table, field) -> depth < MAX_RELATION_DEPTH ->
  resolveWhere rr collect_all (as_predicate w) table (depth + 1) s = (s1, Ok leaf) ->
  collect_all table s1 = (s2, Ok rows) -> decides leaf rows ->
  exists f_some f_none f_every,
    resolve (clause rel "some" w) parent depth s = (s2, Ok f_some) /\
    resolve (clause rel "none" w) parent depth s = (s2, Ok f_none) /\
    resolve (clause rel "every" w) parent depth s = (s2, Ok f_every) /\
    forall doc v, row_field doc str_id = Some v ->
      evaluateFilter doc f_some = Ok (existsb (fun row => ref_is field v row && leaf_holds leaf row) rows) /\
      evaluateFilter doc f_none = Ok (negb (existsb (fun row => ref_is field v row && leaf_holds leaf row) rows)) /\
      evaluateFilter doc f_every = Ok (forallb (fun row => implb (ref_is field v row) (leaf_holds leaf row)) rows).
Proof.
  intros Hk Ht Hd Hl Hr Hdec.
  destruct (to_many_ids parent depth rel w false _ _ _ _ _ _ _ Ht Hd Hl Hr Hdec) as (ids & Hi & Hw).
  destruct (to_many_ids parent depth rel w true _ _ _ _ _ _ _ Ht Hd Hl Hr Hdec) as (ids' & Hi' & Hw').
  assert (Hn : js "_id" <> js "NOT") by done.
  exists (FOr (FCompare OpEq str_id <$> ids)), (FAnd (FCompare OpNeq str_id <$> ids)), (FAnd (FCompare OpNeq str_id <$> ids')).
  split_and!.
  1-3: apply resolve_clause; [done|set_solver|].
  1: exact (clause_filter _ _ _ _ _ _ _ Hi (id_filter_in _ _ Hn)).
  1: exact (clause_filter _ _ _ _ _ _ _ Hi (id_filter_notIn _ _ Hn)).
  1: exact (clause_filter _ _ _ _ _ _ _ Hi' (id_filter_notIn _ _ Hn)).
  intros doc v Hv. pose proof (field_of_row _ _ _ plain_id Hv) as Hf.
  rewrite (in_filter_holds _ _ _ _ Hf), !(notIn_filter_holds _ _ _ _ Hf), Hw, Hw'.
  assert (Hs : existsb (fun row => xorb (leaf_holds leaf row) false && ref_is field v row) rows =
               existsb (fun row => ref_is field v row && leaf_holds leaf row) rows).
  { apply existsb_same. intros row. by rewrite xorb_false_r, andb_comm. }
  rewrite Hs. split_and!; [done|done|]. f_equal. apply negb_existsb. intros row.
  by destruct (leaf_holds leaf row), (ref_is field v row).
Qed.

(** Rows read from the database carry an id. *)
Definition identified (rows : list value) : Prop := forall row, row ∈ rows -> exists i, row_field row str_id = Some (VString i).

Lemma matching_refs (ids rows : list value) leaf : identified rows ->
  (forall v, existsb (refers v) ids = existsb (fun row => ref_is str_id v row && leaf_holds leaf row) rows) ->
  existsb (leaf_holds leaf) rows = match ids with [] => false | _ => true end.
Proof.
  intros Hid Hs. destruct ids as [|r ids].
  - apply not_true_iff_false. intros (row & Hrow%list_elem_of_In & Hl)%existsb_exists. destruct (Hid _ Hrow) as [i Hi].
    specialize (Hs (VString i)). symmetry in Hs. apply not_true_iff_false in Hs. apply Hs, existsb_exists.
    exists row. split; [by apply list_elem_of_In|]. unfold ref_is, refers. by rewrite Hi, compareValues_refl, Hl.
  - specialize (Hs r). cbn [existsb] in Hs. unfold refers at 1 in Hs. rewrite compareValues_refl in Hs. symmetry in Hs.
    apply existsb_exists in Hs as (row & Hrow & [_ Hl]%andb_prop). apply existsb_exists. by exists row.
Qed.

(** A to-one clause follows the reference a document holds in [key]: [is]
    holds exactly when some row of the target table with that id satisfies the
    leaf, and [isNot] when none does.  In particular [isNot] admits a document
    whose reference is null, and one without the field when no row of the
    target satisfies the leaf, although the documentation says that a document
    with no referenced row is excluded from both. *)
Theorem to_one_semi_join parent depth key w table s s1 s2 leaf rows :
  plain_field key -> toOne_of rr parent key = Some table -> depth < MAX_RELATION_DEPTH ->
  resolveWhere rr collect_all (as_predicate w) table (depth + 1) s = (s1, Ok leaf) ->
  collect_all table s1 = (s2, Ok rows) -> decides leaf rows -> identified rows ->
  exists f_is f_isNot,
    resolve (clause key "is" w) parent depth s = (s2, Ok f_is) /\
    resolve (clause key "isNot" w) parent depth s = (s2, Ok f_isNot) /\
    (forall doc v, row_field doc key = Some v ->
      evaluateFilter doc f_is = Ok (existsb (fun row => ref_is str_id v row && leaf_holds leaf row) rows) /\
      evaluateFilter doc f_isNot = Ok (negb (existsb (fun row => ref_is str_id v row && leaf_holds leaf row) rows))) /\
    (forall fs, jm_get fs key = Some VNull -> evaluateFilter (VObject fs) f_isNot = Ok true) /\
    (forall fs, jm_get fs key = None -> prototype_member key = FUndefined -> key <> proto_key ->
      evaluateFilter (VObject fs) f_isNot = Ok (negb (existsb (leaf_holds leaf) rows))).
Proof.
  intros Hk Ht Hd Hl Hr Hdec Hid.
  destruct (to_one_ids_spec parent depth key w _ _ _ _ _ _ Ht Hd Hl Hr Hdec) as (ids & Hi & Hw).
  destruct Hk as [Hdot Hn].
  exists (FOr (FCompare OpEq key <$> ids)), (FAnd (FCompare OpNeq key <$> ids)).
  assert (Hs : forall v, existsb (refers v) ids = existsb (fun row => ref_is str_id v row && leaf_holds leaf row) rows).
  { intros v. rewrite Hw. apply existsb_same. intros row. apply andb_comm. }
  split_and!.
  1-2: apply resolve_clause; [done|set_solver|].
  1: exact (clause_filter _ _ _ _ _ _ _ Hi (id_filter_in _ _ Hn)).
  1: exact (clause_filter _ _ _ _ _ _ _ Hi (id_filter_notIn _ _ Hn)).
  - intros doc v Hv. pose proof (field_of_row _ _ _ (conj Hdot Hn) Hv) as Hf.
    by rewrite (in_filter_holds _ _ _ _ Hf), (notIn_filter_holds _ _ _ _ Hf), Hs.
  - intros fs Hv. pose proof (field_of_row key (VObject fs) VNull (conj Hdot Hn) Hv) as Hf.
    rewrite (notIn_filter_holds _ _ _ _ Hf), Hs. f_equal. apply negb_true_iff, not_true_iff_false.
    intros (row & Hrow%list_elem_of_In & [H1 _]%andb_prop)%existsb_exists.
    destruct (Hid _ Hrow) as [i Hi']. unfold ref_is in H1. by rewrite Hi' in H1.
  - intros fs Hv Hp Hproto. rewrite (matching_refs _ _ _ Hid Hs).
    assert (Hf : evaluateFieldPath (VObject fs) key = FUndefined).
    { unfold evaluateFieldPath. rewrite js_split_plain by done. cbn [walk_path read_member].
      by rewrite Hv, bool_decide_false, Hp. }
    destruct ids as [|r ids]; [done|]. cbn [evaluateFilter fmap list_fmap res_every]. by rewrite Hf.
Qed.
End clauses.

(** * An instance *)

Definition demo_relations : relation_registry :=
  RelationRegistry [(js "docs", [(js "sharedWith", (js "shares", js "docId"))])] [(js "docs", [(js "orgId", js "orgs")])].

Definition share (doc user : string) : value := VObject [(js "docId", VString (js doc)); (js "user", VString (js user))].
Definition org (id owner : string) : value := VObject [(js "_id", VString (js id)); (js "user", VString (js owner))].
Definition demo_rows (table : jsstr) : list value :=
  if bool_decide (table = js "shares") then [share "d1" "ann"; share "d2" "bob"] else [org "o1" "ann"; org "o2" "bob"].
Definition demo_reader (table : jsstr) : stm unit (list value) := ret (demo_rows table).
Definition is_ann : value := VObject [(js "user", VString (js "ann"))].
Definition ann_leaf : option filter_expr := Some (FCompare OpEq (js "user") (VString (js "ann"))).

Lemma demo_decides t : decides ann_leaf (demo_rows t).
Proof.
  intros row. unfold demo_rows. case_bool_decide; intros [->|[->|[]%elem_of_nil]%elem_of_cons]%elem_of_cons; eexists; reflexivity.
Qed.

Lemma to_many_semi_join_witness : exists f, resolveNode demo_relations demo_reader (clause (js "sharedWith") "some" is_ann) (js "docs") 0 tt = (tt, Ok f) /\
  evaluateFilter (VObject [(str_id, VString (js "d1"))]) f = Ok true /\ evaluateFilter (VObject [(str_id, VString (js "d2"))]) f = Ok false.
Proof.
  destruct (to_many_semi_join demo_relations demo_reader (js "docs") 0 (js "sharedWith") is_ann (js "shares") (js "docId") tt tt tt
    ann_leaf (demo_rows (js "shares")) ltac:(done) eq_refl ltac:(done) eq_refl eq_refl (demo_decides _)) as (f & f1 & f2 & Hf & _ & _ & He).
  exists f. split; [exact Hf|].
  destruct (He (VObject [(str_id, VString (js "d1"))]) (VString (js "d1")) eq_refl) as [H1 _].
  destruct (He (VObject [(str_id, VString (js "d2"))]) (VString (js "d2")) eq_refl) as [H2 _].
  rewrite H1, H2. split; vm_compute; reflexivity.
Defined.

Lemma to_one_semi_join_witness : exists f, resolveNode demo_relations demo_reader (clause (js "orgId") "isNot" is_ann) (js "docs") 0 tt = (tt, Ok f) /\
  evaluateFilter (VObject [(js "orgId", VString (js "o1"))]) f = Ok false /\ evaluateFilter (VObject [(js "orgId", VNull)]) f = Ok true.
Proof.
  assert (Hid : identified (demo_rows (js "orgs"))).
  { intros row [->|[->|[]%elem_of_nil]%elem_of_cons]%elem_of_cons; eexists; reflexivity. }
  destruct (to_one_semi_join demo_relations demo_reader (js "docs") 0 (js "orgId") is_ann (js "orgs") tt tt tt ann_leaf
    (demo_rows (js "orgs")) ltac:(split; [by repeat constructor|done]) eq_refl ltac:(done) eq_refl eq_refl (demo_decides _) Hid)
    as (f0 & f & _ & Hf & He & Hn & _).
  exists f. split; [exact Hf|].
  destruct (He (VObject [(js "orgId", VString (js "o1"))]) (VString (js "o1")) eq_refl) as [_ H1]. rewrite H1, Hn by reflexivity.
  split; vm_compute; reflexivity.
Defined.
