(* ===== verification/AsyncMutex.v ===== *)
(** The promise-chain lock of packages/transactor/src/async-mutex.ts.

    A promise is its index in the list [mx_promises] of "is resolved" flags;
    a call is a record of the promise it awaits, the one it resolves, and how
    far it is. A schedule is any interleaving of new calls, turns taken and
    critical sections that end, whether [fn] returns or throws (the [finally]
    releases either way). *)
From Stdlib Require Import ZArith Lia.
From stdpp Require Import base list.
From S2P Require Import Prelude.

Inductive phase := Waiting | Holding | Released.

#[export] Instance phase_eq_dec : EqDecision phase.
Proof. solve_decision. Defined.

Record caller := Caller { cl_prev : nat; cl_release : nat; cl_phase : phase }.

Record mutex := Mutex
  { mx_promises : list bool; mx_tail : nat; mx_waiters : Z; mx_callers : list caller }.

Definition mutex_new : mutex := Mutex [true] 0 0 [].

Definition isLocked (m : mutex) : bool := 0 <? mx_waiters m.

(** [runExclusive] up to its [await]. *)
Definition enter (m : mutex) : mutex :=
  let p := length (mx_promises m) in
  Mutex (mx_promises m ++ [false]) p (mx_waiters m + 1) (mx_callers m ++ [Caller (mx_tail m) p Waiting]).

Definition with_phase (c : caller) (ph : phase) : caller := Caller (cl_prev c) (cl_release c) ph.

(** The turn after [await prev]. *)
Definition take (m : mutex) (i : nat) : option mutex :=
  match mx_callers m !! i with
  | Some c =>
      if bool_decide (cl_phase c = Waiting /\ mx_promises m !! cl_prev c = Some true)
      then Some (Mutex (mx_promises m) (mx_tail m) (mx_waiters m) (<[i := with_phase c Holding]> (mx_callers m)))
      else None
  | None => None
  end.

(** The [finally]. *)
Definition leave (m : mutex) (i : nat) : option mutex :=
  match mx_callers m !! i with
  | Some c =>
      if bool_decide (cl_phase c = Holding)
      then Some (Mutex (<[cl_release c := true]> (mx_promises m)) (mx_tail m) (mx_waiters m - 1)
                   (<[i := with_phase c Released]> (mx_callers m)))
      else None
  | None => None
  end.

(** [tryRunExclusive]: false without waiting when someone is in line. *)
Definition try_enter (m : mutex) : mutex * bool := if isLocked m then (m, false) else (enter m, true).

Inductive mutex_event := MEnter | MTry | MTake (i : nat) | MLeave (i : nat).

Definition mutex_step (m : mutex) (ev : mutex_event) : option mutex :=
  match ev with
  | MEnter => Some (enter m)
  | MTry => Some (try_enter m).1
  | MTake i => take m i
  | MLeave i => leave m i
  end.

Inductive mutex_reachable : mutex -> Prop :=
  | mutex_start : mutex_reachable mutex_new
  | mutex_more m ev m' : mutex_reachable m -> mutex_step m ev = Some m' -> mutex_reachable m'.

(** * The invariant *)

(** With [d] calls over, call [i] awaits promise [i] and resolves promise
    [i + 1]; only call [d] may hold the lock. *)
Record served (d : nat) (m : mutex) : Prop := {
  sv_le : (d <= length (mx_callers m))%nat;
  sv_tail : mx_tail m = length (mx_callers m);
  sv_waiters : mx_waiters m = Z.of_nat (length (mx_callers m)) - Z.of_nat d;
  sv_len : length (mx_promises m) = Datatypes.S (length (mx_callers m));
  sv_promises : forall k, (k < length (mx_promises m))%nat -> mx_promises m !! k = Some (bool_decide (k <= d)%nat);
  sv_callers : forall i c, mx_callers m !! i = Some c ->
    cl_prev c = i /\ cl_release c = Datatypes.S i /\
    (cl_phase c = Released <-> (i < d)%nat) /\ (cl_phase c = Holding -> i = d)
}.

Lemma served_start : served 0 mutex_new.
Proof.
  split; simpl; try done. intros [|k] Hk; [done|lia].
Qed.

Lemma served_enter d m : served d m -> served d (enter m).
Proof.
  intros [H1 H2 H3 H4 H5 H6]. unfold enter. split; simpl; rewrite ?length_app; simpl; try lia.
  - intros k Hk. destruct (decide (k < length (mx_promises m))%nat) as [Hl|Hl].
    + rewrite lookup_app_l by done. by apply H5.
    + rewrite lookup_app_r by lia. replace (k - length (mx_promises m))%nat with 0%nat by lia. simpl.
      rewrite bool_decide_eq_false_2 by lia. done.
  - intros i c Hi. apply lookup_app_Some in Hi as [Hi|[Hle Hi]]; [by apply H6|].
    destruct (i - length (mx_callers m))%nat eqn:E; simpl in Hi; [|done]. injection Hi as <-. simpl.
    split_and!; [lia|lia|split; [done|lia]|done].
Qed.

Lemma served_take d m i m' : served d m -> take m i = Some m' -> served d m'.
Proof.
  intros [H1 H2 H3 H4 H5 H6]. unfold take. destruct (mx_callers m !! i) as [c|] eqn:Ec; [|done].
  destruct (H6 i c Ec) as (Hp & Hr & Hrel & _). case_bool_decide as Hw; [|done]. intros [= <-].
  destruct Hw as [Hph Hres].
  assert (Hid : i = d).
  { rewrite Hp, H5 in Hres by (apply lookup_lt_Some in Ec; lia). injection Hres as Hres%bool_decide_eq_true.
    destruct (decide (i < d)%nat) as [Hlt|]; [|lia]. apply Hrel in Hlt. congruence. }
  split; simpl; rewrite ?length_insert; try done.
  intros j x Hj. apply list_lookup_insert_Some in Hj as [(<- & <- & _)|[_ Hj]]; [|by apply H6].
  simpl. split_and!; [done|done| |done]. split; [done|lia].
Qed.

Lemma served_leave d m i m' : served d m -> leave m i = Some m' -> served (Datatypes.S d) m'.
Proof.
  intros [H1 H2 H3 H4 H5 H6]. unfold leave. destruct (mx_callers m !! i) as [c|] eqn:Ec; [|done].
  destruct (H6 i c Ec) as (Hp & Hr & Hrel & Hhold). case_bool_decide as Hw; [|done]. intros [= <-].
  specialize (Hhold Hw) as ->. pose proof (lookup_lt_Some _ _ _ Ec) as Hlt.
  split; simpl; rewrite ?length_insert; try done; try lia.
  - intros k Hk. rewrite Hr. destruct (decide (k = Datatypes.S d)) as [->|Hne].
    + rewrite list_lookup_insert_eq by lia. by rewrite bool_decide_eq_true_2 by lia.
    + rewrite list_lookup_insert_ne by done. rewrite H5 by done. f_equal. apply bool_decide_ext. lia.
  - intros j x Hj. apply list_lookup_insert_Some in Hj as [(<- & <- & _)|[Hne Hj]].
    + simpl. split_and!; [done|done|split; [lia|done]|done].
    + destruct (H6 j x Hj) as (Q1 & Q2 & Q3 & Q4). split_and!; [done|done| |].
      * rewrite Q3. lia.
      * intros Hh. specialize (Q4 Hh). lia.
Qed.

Lemma reachable_served m : mutex_reachable m -> exists d, served d m.
Proof.
  induction 1 as [|m ev m' _ [d IH] Hs]; [exists 0%nat; apply served_start|]. destruct ev as [| |i|i]; simpl in Hs.
  - injection Hs as <-. exists d. by apply served_enter.
  - injection Hs as <-. exists d. unfold try_enter. destruct (isLocked m); [done|by apply served_enter].
  - exists d. by eapply served_take.
  - exists (Datatypes.S d). by eapply served_leave.
Qed.

(** One call at a time holds the lock, and turns come in the order of the
    calls: when a call holds it, every earlier call has released it and no
    later call has had it. *)
Theorem mutex_exclusive_fifo m i c :
  mutex_reachable m -> mx_callers m !! i = Some c -> cl_phase c = Holding ->
  forall j c', mx_callers m !! j = Some c' ->
    ((j < i)%nat -> cl_phase c' = Released) /\ ((i < j)%nat -> cl_phase c' = Waiting).
Proof.
  intros Hr Hi Hh j c' Hj. destruct (reachable_served m Hr) as [d Hd].
  destruct (sv_callers _ _ Hd i c Hi) as (_ & _ & _ & Hid). specialize (Hid Hh) as ->.
  destruct (sv_callers _ _ Hd j c' Hj) as (_ & _ & Hrel & Hhold). split; intros Hlt.
  - by apply Hrel.
  - destruct (cl_phase c') eqn:E; [done|specialize (Hhold eq_refl); lia|]. pose proof (proj1 Hrel eq_refl). lia.
Qed.

Lemma mutex_exclusive_fifo_witness :
  let m := default mutex_new (take (enter (enter mutex_new)) 0) in
  mx_callers m !! 0%nat = Some (Caller 0 1 Holding) /\ cl_phase (Caller 1 2 Waiting) = Waiting.
Proof.
  intros m. split; [done|].
  refine (proj2 (mutex_exclusive_fifo m 0 (Caller 0 1 Holding) _ eq_refl eq_refl 1 (Caller 1 2 Waiting) eq_refl) _); [|lia].
  apply (mutex_more (enter (enter mutex_new)) (MTake 0)); [|done].
  apply (mutex_more (enter mutex_new) MEnter); [|done]. by apply (mutex_more mutex_new MEnter); [apply mutex_start|].
Defined.

(** The lock is never stuck: while a call is in line, either one holds the
    lock and will release it, or the first in line can take it at once; and
    [isLocked] says exactly that some call has not released yet, so a
    successful [tryRunExclusive] never waits. *)
Theorem mutex_progress m :
  mutex_reachable m ->
  (isLocked m = true <-> exists i c, mx_callers m !! i = Some c /\ cl_phase c <> Released) /\
  (isLocked m = true -> exists i, is_Some (take m i) \/ is_Some (leave m i)) /\
  (forall m', try_enter m = (m', true) -> is_Some (take m' (length (mx_callers m)))).
Proof.
  intros Hr. destruct (reachable_served m Hr) as [d Hd]. pose proof Hd as [H1 H2 H3 H4 H5 H6].
  assert (Hlk : isLocked m = true <-> (d < length (mx_callers m))%nat) by (unfold isLocked; rewrite Z.ltb_lt; lia).
  split_and!.
  - rewrite Hlk. split.
    + intros Hlt. destruct (lookup_lt_is_Some_2 (mx_callers m) d Hlt) as [c Hc]. exists d, c. split; [done|].
      intros E. apply (H6 d c Hc) in E. lia.
    + intros (i & c & Hi & Hn). destruct (H6 i c Hi) as (_ & _ & Hrel & _).
      pose proof (lookup_lt_Some _ _ _ Hi). destruct (decide (i < d)%nat) as [Hlt|]; [by apply Hrel in Hlt|lia].
  - intros Hlt%Hlk. destruct (lookup_lt_is_Some_2 (mx_callers m) d Hlt) as [c Hc]. exists d.
    destruct (H6 d c Hc) as (Hp & _ & Hrel & _). unfold take, leave. rewrite Hc. destruct (cl_phase c) eqn:E.
    + left. rewrite bool_decide_eq_true_2; [by eexists|]. split; [done|]. rewrite Hp, H5 by lia.
      by rewrite bool_decide_eq_true_2 by lia.
    + right. by eexists.
    + pose proof (proj1 Hrel eq_refl). lia.
  - intros m'. unfold try_enter. destruct (isLocked m) eqn:El; [done|]. intros [= <-].
    assert (Hdl : d = length (mx_callers m)).
    { destruct (decide (d < length (mx_callers m))%nat) as [Hlt|]; [apply Hlk in Hlt; congruence|lia]. }
    unfold take, enter. cbn [mx_callers mx_promises]. rewrite list_lookup_middle by done. cbn [cl_phase cl_prev].
    rewrite bool_decide_eq_true_2; [by eexists|]. split; [done|]. rewrite H2.
    rewrite lookup_app_l by lia. rewrite H5 by lia. by rewrite bool_decide_eq_true_2 by lia.
Qed.

Lemma mutex_progress_witness :
  let m := enter (enter mutex_new) in exists i, is_Some (take m i) \/ is_Some (leave m i).
Proof.
  intros m. apply (mutex_progress m); [|done].
  apply (mutex_more (enter mutex_new) MEnter); [|done]. by apply (mutex_more mutex_new MEnter); [apply mutex_start|].
Defined.
