(* ===== verification/Transactor.v ===== *)
(** One transaction: packages/transactor/src/headroom.ts, uncommitted-writes.ts,
    types.ts and the context, the commit and the ring of shard-writer.ts.

    Active snapshots and the ring of recent commits of a shard writer
    (packages/transactor/src/shard-writer.ts): the counts that [retain] and
    [release] keep are the numbers of transactions that pin each snapshot, and
    [prune] drops no commit that a pinned snapshot may still have to be
    checked against. *)
From Stdlib Require Import ZArith Lia Sorted.
From stdpp Require Import base list sets strings.
From S2P Require Import Prelude JsBase JsText Float64 Values ValuesJson KeyCodec KeyRanges IdCodec DocStore.

(** * headroom.ts *)

Record headroom_limits := HeadroomLimits { maxReads : Z; maxWrites : Z }.
Definition DEFAULT_HEADROOM : headroom_limits := HeadroomLimits 4096 4096.

Record headroom := Headroom { hr_limits : headroom_limits; hr_reads : Z; hr_writes : Z }.

Definition headroom_new (limits : headroom_limits) : headroom := Headroom limits 0 0.

(** The counter moves before the check, so it stays past the limit when the
    error is caught. *)
Definition countRead (h : headroom) : headroom * option js_error :=
  let h' := Headroom (hr_limits h) (hr_reads h + 1) (hr_writes h) in
  (h', if maxReads (hr_limits h) <? hr_reads h'
       then Some (HeadroomExceededError "reads" (maxReads (hr_limits h))) else None).
Definition countWrite (h : headroom) : headroom * option js_error :=
  let h' := Headroom (hr_limits h) (hr_reads h) (hr_writes h + 1) in
  (h', if maxWrites (hr_limits h) <? hr_writes h'
       then Some (HeadroomExceededError "writes" (maxWrites (hr_limits h))) else None).

Definition headroom_snapshot (h : headroom) : Z * Z := (hr_reads h, hr_writes h).

(** * uncommitted-writes.ts *)

Record local_write := LocalWrite { lw_id : doc_id; lw_value : option value }.

(** The map from document id keys to staged writes, in the order of first
    staging. *)
Definition uncommitted : Type := list (jsstr * local_write).

Definition uw_set (u : uncommitted) (id : doc_id) (v : option value) : uncommitted :=
  jm_set u (documentIdKey id) (LocalWrite id v).
Definition uw_get (u : uncommitted) (id : doc_id) : option local_write := jm_get u (documentIdKey id).
Definition uw_has (u : uncommitted) (id : doc_id) : bool := jm_has u (documentIdKey id).
Definition uw_entries (u : uncommitted) : list local_write := jm_values u.
Definition uw_size (u : uncommitted) : nat := length u.

(** * types.ts *)

Record written_doc := WrittenDoc
  { wd_key : jsstr; wd_keyspace : jsstr; wd_docId : jsstr; wd_newRow : option json; wd_wasPresent : bool;
    wd_ts : float64 }.

Record oplog_delta := OplogDelta
  { od_commitTs : Z; od_shardId : jsstr; od_writtenRanges : list serialized_range;
    od_writtenTables : list jsstr; od_origin : option jsstr; od_writtenDocs : list written_doc }.

Record commit_result (T : Type) := CommitResult
  { co_value : T; co_committed : bool; co_commitTs : Z; co_shardId : jsstr; co_oplog : option oplog_delta }.
Arguments CommitResult {T}.
Arguments co_value {T}.
Arguments co_committed {T}.
Arguments co_commitTs {T}.
Arguments co_shardId {T}.
Arguments co_oplog {T}.

(** [RunInTransactionOptions]; the headroom override is partial. *)
Record run_options := RunOptions
  { ro_shardId : option jsstr; ro_maxRetries : option Z; ro_maxReads : option Z; ro_maxWrites : option Z;
    ro_commitMeta : option commit_meta; ro_origin : option jsstr }.

(** * The transaction context *)

Definition docKeyspace (id : doc_id) : jsstr := tableKeyspaceId (encodeStorageTableId (tableNumber id)).

Definition hexKey (b : bytes) : jsstr :=
  fold_left (fun s x => s ++ pad_start2 (num_to_string 16 x)) b [].

Definition bytesToBase64 (bs : bytes) : jsstr := btoa bs.

Record ctx := Ctx
  { cx_snapshotTs : Z; cx_shardId : jsstr;
    cx_reads : range_set; cx_validatedReads : range_set; cx_writeRanges : range_set;
    cx_staged : uncommitted; cx_indexUpdates : list index_update; cx_headroom : headroom }.

Definition ctx_new (snapshotTs : Z) (shardId : jsstr) (limits : headroom_limits) : ctx :=
  Ctx snapshotTs shardId rs_empty rs_empty rs_empty [] [] (headroom_new limits).

Definition with_headroom (c : ctx) (h : headroom) : ctx :=
  Ctx (cx_snapshotTs c) (cx_shardId c) (cx_reads c) (cx_validatedReads c) (cx_writeRanges c)
    (cx_staged c) (cx_indexUpdates c) h.

Definition with_reads (c : ctx) (reads validated : range_set) : ctx :=
  Ctx (cx_snapshotTs c) (cx_shardId c) reads validated (cx_writeRanges c)
    (cx_staged c) (cx_indexUpdates c) (cx_headroom c).

Definition with_writes (c : ctx) (ranges : range_set) (staged : uncommitted) : ctx :=
  Ctx (cx_snapshotTs c) (cx_shardId c) (cx_reads c) (cx_validatedReads c) ranges
    staged (cx_indexUpdates c) (cx_headroom c).

Definition stage_write (c : ctx) (id : doc_id) (v : option value) : ctx * res unit :=
  let '(h, err) := countWrite (cx_headroom c) in
  let c := with_headroom c h in
  match err with
  | Some e => (c, Throw e)
  | None => (with_writes c (rs_addKey (cx_writeRanges c) (docKeyspace id) (internalId id))
               (uw_set (cx_staged c) id v), Ok tt)
  end.

Definition ctx_put (c : ctx) (id : doc_id) (v : value) : ctx * res unit := stage_write c id (Some v).
Definition ctx_delete (c : ctx) (id : doc_id) : ctx * res unit := stage_write c id None.

Definition ctx_recordRead (c : ctx) (r : key_range) : ctx :=
  with_reads c (rs_add (cx_reads c) r) (rs_add (cx_validatedReads c) r).
Definition ctx_recordReadUnvalidated (c : ctx) (r : key_range) : ctx :=
  with_reads c (rs_add (cx_reads c) r) (cx_validatedReads c).
Definition ctx_recordWrite (c : ctx) (r : key_range) : ctx :=
  with_writes c (rs_add (cx_writeRanges c) r) (cx_staged c).
Definition ctx_stageIndexUpdates (c : ctx) (us : list index_update) : ctx :=
  Ctx (cx_snapshotTs c) (cx_shardId c) (cx_reads c) (cx_validatedReads c) (cx_writeRanges c)
    (cx_staged c) (cx_indexUpdates c ++ us) (cx_headroom c).

Definition overlay_add (staged : uncommitted) (indexId : jsstr) (m : list (jsstr * overlay_entry))
    (u : index_update) : list (jsstr * overlay_entry) :=
  if bool_decide (iu_index u <> indexId) then m
  else
    match iu_value u with
    | IxDeleted => jm_set m (hexKey (iu_key u)) (OverlayEntry (iu_key u) None)
    | IxNonClustered docId =>
        jm_set m (hexKey (iu_key u))
          (OverlayEntry (iu_key u) (match uw_get staged docId with Some w => lw_value w | None => None end))
    end.

Definition ctx_pendingIndexOverlay (c : ctx) (indexId : jsstr) : list overlay_entry :=
  jm_values (fold_left (overlay_add (cx_staged c) indexId) (cx_indexUpdates c) []).

(** The function a transaction runs, as the calls it makes on its context.
    Every answer, errors included, goes back to the function, which may catch
    it. *)
Inductive prog (T : Type) :=
  | Return (v : T)
  | Raise (e : js_error)
  | Get (id : doc_id) (k : res (option value) -> prog T)
  | Put (id : doc_id) (v : value) (k : res unit -> prog T)
  | Delete (id : doc_id) (k : res unit -> prog T)
  | RecordRead (r : key_range) (k : prog T)
  | RecordReadUnvalidated (r : key_range) (k : prog T)
  | RecordWrite (r : key_range) (k : prog T)
  | StageIndexUpdates (us : list index_update) (k : prog T)
  | PendingIndexOverlay (indexId : jsstr) (k : list overlay_entry -> prog T).
Arguments Return {T}.
Arguments Raise {T}.
Arguments Get {T}.
Arguments Put {T}.
Arguments Delete {T}.
Arguments RecordRead {T}.
Arguments RecordReadUnvalidated {T}.
Arguments RecordWrite {T}.
Arguments StageIndexUpdates {T}.
Arguments PendingIndexOverlay {T}.

Section transaction.
Context {S : Type} `{!DocStore S} {T : Type}.

Definition ctx_get (s : S) (c : ctx) (id : doc_id) : ctx * res (option value) :=
  let '(h, err) := countRead (cx_headroom c) in
  let c := with_headroom c h in
  match err with
  | Some e => (c, Throw e)
  | None =>
      let c := with_reads c (rs_addKey (cx_reads c) (docKeyspace id) (internalId id))
                 (rs_addKey (cx_validatedReads c) (docKeyspace id) (internalId id)) in
      match uw_get (cx_staged c) id with
      | Some w => (c, Ok (lw_value w))
      | None =>
          (c, (fun d : option latest_document => (fun d => rd_value (ld_value d)) <$> d)
                <$> ds_get s id (Some (cx_snapshotTs c)))
      end
  end.

(** One call. *)
Definition step_prog (s : S) (c : ctx) (p : prog T) : ctx * prog T :=
  match p with
  | Return _ | Raise _ => (c, p)
  | Get id k => let '(c', r) := ctx_get s c id in (c', k r)
  | Put id v k => let '(c', r) := ctx_put c id v in (c', k r)
  | Delete id k => let '(c', r) := ctx_delete c id in (c', k r)
  | RecordRead r k => (ctx_recordRead c r, k)
  | RecordReadUnvalidated r k => (ctx_recordReadUnvalidated c r, k)
  | RecordWrite r k => (ctx_recordWrite c r, k)
  | StageIndexUpdates us k => (ctx_stageIndexUpdates c us, k)
  | PendingIndexOverlay ix k => (c, k (ctx_pendingIndexOverlay c ix))
  end.

(** The whole function, run to its end on one store. *)
Fixpoint run_prog (s : S) (c : ctx) (p : prog T) : ctx * res T :=
  match p with
  | Return v => (c, Ok v)
  | Raise e => (c, Throw e)
  | Get id k => let '(c', r) := ctx_get s c id in run_prog s c' (k r)
  | Put id v k => let '(c', r) := ctx_put c id v in run_prog s c' (k r)
  | Delete id k => let '(c', r) := ctx_delete c id in run_prog s c' (k r)
  | RecordRead r k => run_prog s (ctx_recordRead c r) k
  | RecordReadUnvalidated r k => run_prog s (ctx_recordReadUnvalidated c r) k
  | RecordWrite r k => run_prog s (ctx_recordWrite c r) k
  | StageIndexUpdates us k => run_prog s (ctx_stageIndexUpdates c us) k
  | PendingIndexOverlay ix k => run_prog s c (k (ctx_pendingIndexOverlay c ix))
  end.

(** * The commit *)

Record recent_commit := RecentCommit { rc_ts : Z; rc_writes : range_set }.

(** The loop that looks for a newer commit that wrote what was read. *)
Definition conflicts (ring : list recent_commit) (c : ctx) : bool :=
  existsb (fun rc => (cx_snapshotTs c <? rc_ts rc) && rs_intersects (cx_validatedReads c) (rc_writes rc)) ring.

(** A staged write as a log entry, chained to the latest committed revision. *)
Definition chain_entry (s : S) (w : local_write) : res log_entry :=
  prev ← ds_get s (lw_id w) None;
  Ok (LogEntry 0 (lw_id w) ((fun v => ResolvedDocument (lw_id w) v) <$> lw_value w) (ld_ts <$> prev)).

Definition commit_entries (s : S) (c : ctx) : res (list log_entry) :=
  traverse (chain_entry s) (uw_entries (cx_staged c)).

Definition commit_index_writes (c : ctx) : list index_write := IndexWrite 0 <$> cx_indexUpdates c.

Definition written_doc_of (commitTs : Z) (e : log_entry) : res written_doc :=
  docId ← encodeInternalDocumentId (le_id e);
  row ← match le_value e with
        | None => Ok None
        | Some d => j ← convexToJson (rd_value d); Ok (Some j)
        end;
  Ok (WrittenDoc (bytesToBase64 (internalId (le_id e))) (docKeyspace (le_id e)) docId row
        (match le_prev e with Some _ => true | None => false end) (f64_of_Z commitTs)).

Definition buildWrittenDocs (entries : list log_entry) (commitTs : Z) : res (list written_doc) :=
  traverse (written_doc_of commitTs) entries.

Definition build_oplog (commitTs : Z) (shardId : jsstr) (writeRanges : range_set) (origin : option jsstr)
    (entries : list log_entry) : res oplog_delta :=
  let ranges := rs_toArray writeRanges in
  tables ← writtenTablesFromRanges ranges;
  docs ← buildWrittenDocs entries commitTs;
  Ok (OplogDelta commitTs shardId (serializeKeyRange <$> ranges) tables origin docs).

(** * A shard's writer *)

Record writer := Writer
  { w_store : S; w_oracle : oracle; w_ring : list recent_commit;
    w_active : list (Z * Z); w_published : list oplog_delta }.

Definition with_store (w : writer) (s : S) : writer :=
  Writer s (w_oracle w) (w_ring w) (w_active w) (w_published w).
Definition with_active (w : writer) (a : list (Z * Z)) : writer :=
  Writer (w_store w) (w_oracle w) (w_ring w) a (w_published w).

Definition retain (ts : Z) (w : writer) : writer :=
  with_active w (jm_set (w_active w) ts (default 0 (jm_get (w_active w) ts) + 1)).

Definition release (ts : Z) (w : writer) : writer :=
  let n := default 0 (jm_get (w_active w) ts) - 1 in
  with_active w (if n <=? 0 then jm_delete (w_active w) ts else jm_set (w_active w) ts n).

Definition min_key (keys : list Z) : option Z :=
  fold_left (fun m ts => match m with
                         | None => Some ts
                         | Some x => if ts <? x then Some ts else Some x
                         end) keys None.

Definition minActiveSnapshot (w : writer) : Z :=
  default (getLastCommittedTimestamp (w_oracle w)) (min_key (jm_keys (w_active w))).

Definition prune (w : writer) : writer :=
  let m := minActiveSnapshot w in
  if existsb (fun c => rc_ts c <=? m) (w_ring w)
  then Writer (w_store w) (w_oracle w) (base.filter (fun c => m < rc_ts c) (w_ring w)) (w_active w) (w_published w)
  else w.

(** Validate, chain and hand the rows to the store. *)
Definition commit_apply (w : writer) (c : ctx) (meta : option commit_meta) : res (Z * list log_entry * writer) :=
  if conflicts (w_ring w) c then Throw OccConflictError
  else
    entries ← commit_entries (w_store w) c;
    '(commitTs, s') ← ds_commitWrite (w_store w) entries (commit_index_writes c) (Some (cx_shardId c)) meta;
    Ok (commitTs, entries, with_store w s').

(** The ring, then the clock: [recentCommits.push] and [publishCommitted]. *)
Definition record_commit (w : writer) (c : ctx) (commitTs : Z) : writer :=
  Writer (w_store w) (publishCommitted commitTs (w_oracle w))
    (w_ring w ++ [RecentCommit commitTs (cx_writeRanges c)]) (w_active w) (w_published w).

(** [fanout.publish]: a failing subscriber changes nothing. *)
Definition publish_oplog (w : writer) (o : oplog_delta) : writer :=
  Writer (w_store w) (w_oracle w) (w_ring w) (w_active w) (w_published w ++ [o]).

Definition commit_publish (w : writer) (c : ctx) (entries : list log_entry) (commitTs : Z) (v : T)
    (origin : option jsstr) : writer * res (commit_result T) :=
  let w := prune (record_commit w c commitTs) in
  match build_oplog commitTs (cx_shardId c) (cx_writeRanges c) origin entries with
  | Throw e => (w, Throw e)
  | Ok oplog => (publish_oplog w oplog, Ok (CommitResult v true commitTs (cx_shardId c) (Some oplog)))
  end.

Definition pure_read (c : ctx) (v : T) : commit_result T :=
  CommitResult v false (cx_snapshotTs c) (cx_shardId c) None.
End transaction.
Arguments writer : clear implicits.

(** * Ranges that cover a key *)

Definition key_in (rs : range_set) (ks : jsstr) (k : bytes) : Prop :=
  exists r, r ∈ rs_toArray rs /\ kr_keyspace r = ks /\ keyInRange k r = true.

Lemma key_in_add rs r ks k :
  rs_wf rs -> key_in (rs_add rs r) ks k <->
  (kr_keyspace r = ks /\ keyInRange k r = true) \/ key_in rs ks k.
Proof.
  intros Hw. unfold key_in. setoid_rewrite rs_add_elem; [|done]. split.
  - intros (x & [->|Hx] & H); [by left|right; eauto].
  - intros [H|(x & Hx & H)]; [exists r; auto|exists x; auto].
Qed.

Lemma key_in_own ks k : keyInRange k (KeyRange ks k (Some (keySuccessor k))) = true.
Proof.
  apply keyInRange_spec. simpl. rewrite (cmp_refl (c := compareKeyBytes)), key_lt_successor. done.
Qed.

Lemma key_in_addKey rs ks k : rs_wf rs -> key_in (rs_addKey rs ks k) ks k.
Proof. intros Hw. apply key_in_add; [done|]. left. split; [done|apply key_in_own]. Qed.

Lemma key_in_addKey_mono rs ks k ks' k' : rs_wf rs -> key_in rs ks' k' -> key_in (rs_addKey rs ks k) ks' k'.
Proof. intros Hw H. apply key_in_add; [done|by right]. Qed.

Lemma common_key_overlap a b k :
  kr_keyspace a = kr_keyspace b -> keyInRange k a = true -> keyInRange k b = true -> rangesOverlap a b = true.
Proof.
  rewrite !keyInRange_spec, rangesOverlap_spec. intros Hk [H1 H2] [H3 H4].
  split_and!; [done|by apply (lt_end_le _ k)|by apply (lt_end_le _ k)].
Qed.

Lemma common_key_intersects a b ks k :
  rs_wf a -> rs_wf b -> key_in a ks k -> key_in b ks k -> rs_intersects a b = true.
Proof.
  intros Ha Hb (x & Hx & Hkx & Hix) (y & Hy & Hky & Hiy). apply rs_intersects_spec; [done..|].
  exists x, y. split_and!; [done|done|]. apply (common_key_overlap x y k); congruence.
Qed.

#[export] Hint Resolve rs_wf_add rs_wf_empty key_in_addKey key_in_addKey_mono : concile.

(** * The context *)

Definition covers (rs : range_set) (id : doc_id) : Prop := key_in rs (docKeyspace id) (internalId id).

Record ctx_ok (c : ctx) : Prop := {
  ok_validated : rs_wf (cx_validatedReads c);
  ok_writes : rs_wf (cx_writeRanges c);
  ok_staged : forall w, w ∈ uw_entries (cx_staged c) -> covers (cx_writeRanges c) (lw_id w)
}.

Lemma ctx_new_ok t sh l : ctx_ok (ctx_new t sh l).
Proof. split; [apply rs_wf_empty..|]. intros w H. by apply not_elem_of_nil in H. Qed.

Lemma jm_values_set {K V} `{EqDecision K} (m : list (K * V)) k v x :
  x ∈ jm_values (jm_set m k v) -> x = v \/ x ∈ jm_values m.
Proof.
  unfold jm_values. induction m as [|[k0 v0] m IH]; csimpl; [set_solver|].
  destruct (decide (k = k0)); csimpl; rewrite !elem_of_cons; [tauto|]. intros [->|H]; [auto|].
  destruct (IH H); auto.
Qed.

Lemma storage_key_covers rs id id' : storage_key id = storage_key id' -> covers rs id -> covers rs id'.
Proof. unfold storage_key, covers, docKeyspace. by intros [= -> ->]. Qed.

(** The same context at another snapshot. *)
Definition at_snapshot (t : Z) (c : ctx) : ctx :=
  Ctx t (cx_shardId c) (cx_reads c) (cx_validatedReads c) (cx_writeRanges c) (cx_staged c)
    (cx_indexUpdates c) (cx_headroom c).

Definition reads_le (c c' : ctx) : Prop :=
  forall ks k, key_in (cx_validatedReads c) ks k -> key_in (cx_validatedReads c') ks k.

Lemma stage_write_facts c id v c' r :
  ctx_ok c -> stage_write c id v = (c', r) ->
  ctx_ok c' /\ cx_snapshotTs c' = cx_snapshotTs c /\ cx_validatedReads c' = cx_validatedReads c /\
  (forall t, stage_write (at_snapshot t c) id v = (at_snapshot t c', r)).
Proof.
  intros Hok. unfold stage_write. cbn [at_snapshot cx_headroom]. destruct (countWrite (cx_headroom c)) as [h [e|]]; intros [= <- <-].
  - split_and!; try done. destruct Hok as [H1 H2 H3]. by split.
  - split_and!; try done. destruct Hok as [H1 H2 H3]. split; cbn [with_writes with_headroom cx_validatedReads cx_writeRanges cx_staged].
    + done.
    + apply rs_wf_add, H2.
    + intros w Hw. unfold uw_entries, uw_set in Hw. apply jm_values_set in Hw as [->|Hw]; [by apply key_in_addKey|].
      apply key_in_addKey_mono; [done|]. by apply H3.
Qed.

Lemma recordRead_facts c r :
  ctx_ok c -> ctx_ok (ctx_recordRead c r) /\ reads_le c (ctx_recordRead c r).
Proof.
  intros [H1 H2 H3]. split; [split; simpl; auto with concile|].
  intros ks k Hk. simpl. apply key_in_add; [done|by right].
Qed.

Lemma recordWrite_ok c r : ctx_ok c -> ctx_ok (ctx_recordWrite c r).
Proof.
  intros [H1 H2 H3]. split; simpl; auto with concile. intros w Hw. apply key_in_add; [done|]. right. by apply H3.
Qed.

Section runs.
Context {S : Type} `{!DocStore S} {T : Type}.
Implicit Types (s : S) (c : ctx) (p : prog T).

Lemma ctx_get_facts s c id c' r :
  ctx_ok c -> ctx_get s c id = (c', r) ->
  ctx_ok c' /\ cx_snapshotTs c' = cx_snapshotTs c /\ reads_le c c' /\
  (forall s' t, (covers (cx_validatedReads c') id -> ds_get s' id (Some t) = ds_get s id (Some (cx_snapshotTs c))) ->
     ctx_get s' (at_snapshot t c) id = (at_snapshot t c', r)).
Proof.
  intros [H1 H2 H3]. unfold ctx_get. cbn [at_snapshot cx_headroom].
  destruct (countRead (cx_headroom c)) as [h [e|]]; cbv zeta iota.
  { intros [= <- <-]. split_and!; [by split|done|by intros ks k|done]. }
  cbn [with_reads with_headroom cx_reads cx_validatedReads cx_writeRanges cx_staged cx_snapshotTs at_snapshot].
  assert (Hok : ctx_ok (with_reads (with_headroom c h) (rs_addKey (cx_reads c) (docKeyspace id) (internalId id))
                          (rs_addKey (cx_validatedReads c) (docKeyspace id) (internalId id)))).
  { split; simpl; [by apply rs_wf_add|done|done]. }
  assert (Hle : reads_le c (with_reads (with_headroom c h) (rs_addKey (cx_reads c) (docKeyspace id) (internalId id))
                          (rs_addKey (cx_validatedReads c) (docKeyspace id) (internalId id)))).
  { intros ks k Hk. by apply key_in_addKey_mono. }
  destruct (uw_get (cx_staged c) id) as [w|] eqn:Ew; intros [= <- <-]; (split_and!; [exact Hok|done|exact Hle|]);
    intros s' t Heq; simpl; rewrite ?Ew; [done|].
  rewrite Heq; [done|]. apply key_in_addKey. done.
Qed.

Lemma run_step s c p : run_prog s c p = let '(c', p') := step_prog s c p in run_prog s c' p'.
Proof.
  destruct p; cbn [run_prog step_prog]; try done;
    [destruct (ctx_get s c id)|destruct (ctx_put c id v)|destruct (ctx_delete c id)]; done.
Qed.

(** What a run leaves behind, and that it reads nothing else. *)
Lemma run_facts s c p c' r :
  ctx_ok c -> run_prog s c p = (c', r) ->
  ctx_ok c' /\ cx_snapshotTs c' = cx_snapshotTs c /\ reads_le c c' /\
  (forall s' t, (forall id, covers (cx_validatedReads c') id ->
                  ds_get s' id (Some t) = ds_get s id (Some (cx_snapshotTs c))) ->
     run_prog s' (at_snapshot t c) p = (at_snapshot t c', r)).
Proof.
  revert c. induction p as [v|e|id k IH|id v k IH|id k IH|rg p IH|rg p IH|rg p IH|us p IH|ix k IH];
    intros c Hok; cbn [run_prog].
  - intros [= <- <-]. split_and!; [done|done|by intros ks x|done].
  - intros [= <- <-]. split_and!; [done|done|by intros ks x|done].
  - destruct (ctx_get s c id) as [c1 r1] eqn:E. destruct (ctx_get_facts _ _ _ _ _ Hok E) as (H1 & H2 & H3 & H4).
    intros Hr. destruct (IH r1 c1 H1 Hr) as (G1 & G2 & G3 & G4). split_and!; [done|congruence|by intros ks x Hx; apply G3, H3|].
    intros s' t Heq. rewrite (H4 s' t).
    + apply G4. intros id' Hid. rewrite H2. by apply Heq.
    + intros Hc. apply Heq. by apply G3.
  - destruct (ctx_put c id v) as [c1 r1] eqn:E. destruct (stage_write_facts _ _ _ _ _ Hok E) as (H1 & H2 & H3 & H4).
    intros Hr. destruct (IH r1 c1 H1 Hr) as (G1 & G2 & G3 & G4). unfold reads_le in *. rewrite H3 in G3. rewrite H2 in G2, G4.
    split_and!; [done..|]. intros s' t Heq. unfold ctx_put. rewrite (H4 t). by apply G4.
  - destruct (ctx_delete c id) as [c1 r1] eqn:E. destruct (stage_write_facts _ _ _ _ _ Hok E) as (H1 & H2 & H3 & H4).
    intros Hr. destruct (IH r1 c1 H1 Hr) as (G1 & G2 & G3 & G4). unfold reads_le in *. rewrite H3 in G3. rewrite H2 in G2, G4.
    split_and!; [done..|]. intros s' t Heq. unfold ctx_delete. rewrite (H4 t). by apply G4.
  - intros Hr. destruct (recordRead_facts c rg Hok) as [H1 H2]. destruct (IH _ H1 Hr) as (G1 & G2 & G3 & G4).
    split_and!; [done|done|by intros ks x Hx; apply G3, H2|done].
  - intros Hr. destruct Hok as [K1 K2 K3]. apply (IH (ctx_recordReadUnvalidated c rg)); [by split|done].
  - intros Hr. apply (IH (ctx_recordWrite c rg)); [by apply recordWrite_ok|done].
  - intros Hr. destruct Hok as [K1 K2 K3]. apply (IH (ctx_stageIndexUpdates c us)); [by split|done].
  - intros Hr. by apply (IH (ctx_pendingIndexOverlay c ix) c).
Qed.

Lemma at_snapshot_id c : at_snapshot (cx_snapshotTs c) c = c.
Proof. by destruct c. Qed.

(** A run depends on the store through its snapshot only. *)
Lemma run_ext s s' c p :
  ctx_ok c -> (forall id, ds_get s' id (Some (cx_snapshotTs c)) = ds_get s id (Some (cx_snapshotTs c))) ->
  run_prog s' c p = run_prog s c p.
Proof.
  intros Hok Heq. destruct (run_prog s c p) as [c' r] eqn:E.
  destruct (run_facts _ _ _ _ _ Hok E) as (_ & Hs & _ & H).
  rewrite <- (at_snapshot_id c), (H s' (cx_snapshotTs c)) by (intros; apply Heq).
  rewrite <- Hs. by rewrite at_snapshot_id.
Qed.

Lemma step_facts s c p c' p' :
  ctx_ok c -> step_prog s c p = (c', p') -> ctx_ok c' /\ cx_snapshotTs c' = cx_snapshotTs c.
Proof.
  intros Hok. destruct p; cbn [step_prog].
  - by intros [= <- <-].
  - by intros [= <- <-].
  - destruct (ctx_get s c id) as [c1 r1] eqn:E. destruct (ctx_get_facts _ _ _ _ _ Hok E) as (H1 & H2 & _). by intros [= <- <-].
  - destruct (ctx_put c id v) as [c1 r1] eqn:E. destruct (stage_write_facts _ _ _ _ _ Hok E) as (H1 & H2 & _). by intros [= <- <-].
  - destruct (ctx_delete c id) as [c1 r1] eqn:E. destruct (stage_write_facts _ _ _ _ _ Hok E) as (H1 & H2 & _). by intros [= <- <-].
  - intros [= <- <-]. split; [by apply recordRead_facts|done].
  - intros [= <- <-]. destruct Hok as [H1 H2 H3]. split; [by split|done].
  - intros [= <- <-]. split; [by apply recordWrite_ok|done].
  - intros [= <- <-]. destruct Hok as [H1 H2 H3]. split; [by split|done].
  - by intros [= <- <-].
Qed.

(** No conflict: no newer commit of the ring covers a document the run read. *)
Lemma no_conflict (ring : list recent_commit) c rc id :
  ctx_ok c -> conflicts ring c = false -> rc ∈ ring -> rs_wf (rc_writes rc) -> cx_snapshotTs c < rc_ts rc ->
  covers (cx_validatedReads c) id -> ~ covers (rc_writes rc) id.
Proof.
  intros [H1 _ _] Hc Hin Hw Hlt Hr Hw'. unfold conflicts in Hc.
  assert (H : existsb (fun rc => (cx_snapshotTs c <? rc_ts rc) && rs_intersects (cx_validatedReads c) (rc_writes rc)) ring = true).
  { apply existsb_exists. exists rc. split; [by apply list_elem_of_In|].
    rewrite (proj2 (Z.ltb_lt _ _) Hlt). by apply (common_key_intersects _ _ (docKeyspace id) (internalId id)). }
  congruence.
Qed.
End runs.

(** What a successful [commit_apply] did. *)
Section applied.
Context {S : Type} `{!DocStore S} {valid : S -> Prop} `{!DocStoreLaws S valid}.

Lemma chain_entries_ids (s : S) ws entries :
  traverse (chain_entry s) ws = Ok entries -> le_id <$> entries = lw_id <$> ws.
Proof.
  intros H%traverse_Forall2. induction H as [|w e ws entries He _ IH]; csimpl; [done|]. rewrite IH. f_equal.
  unfold chain_entry in He. destruct (ds_get s (lw_id w) None); [|done]. rewrite bind_Ok in He. by injection He as <-.
Qed.

Lemma commit_apply_facts (w : writer S) c meta ts entries w' :
  valid (w_store w) -> ctx_ok c -> cx_staged c <> [] ->
  commit_apply w c meta = Ok (ts, entries, w') ->
  conflicts (w_ring w) c = false /\ commit_entries (w_store w) c = Ok entries /\
  (forall e, e ∈ entries -> covers (cx_writeRanges c) (le_id e)) /\
  exists s', w' = with_store w s' /\ committed (valid := valid) (w_store w) entries ts s'.
Proof.
  intros Hv Hok Hst. unfold commit_apply. destruct (conflicts _ _); [done|].
  destruct (commit_entries (w_store w) c) as [es|] eqn:Ee; [|done]. rewrite bind_Ok.
  destruct (ds_commitWrite _ _ _ _ _) as [[t s']|] eqn:Ec; [|done]. rewrite bind_Ok. intros [= -> -> <-].
  pose proof (chain_entries_ids _ _ _ Ee) as Hids. split_and!; [done|done| |].
  - intros e He. apply (list_elem_of_fmap_2 le_id) in He. rewrite Hids in He.
    apply list_elem_of_fmap in He as (x & -> & Hx). by apply (ok_staged c Hok).
  - exists s'. split; [done|]. apply (commitWrite_committed _ _ _ _ _ _ _ Hv) in Ec; [done|]. intros ->.
    apply Hst. unfold uw_entries, jm_values in Hids. by destruct (cx_staged c).
Qed.
End applied.

(** [live] gives the snapshot an element of the list pins, if any. *)
Section pinned.
Context {A : Type} (live : A -> option Z).

Definition pins (t : A) (ts : Z) : nat := if bool_decide (live t = Some ts) then 1 else 0.

Definition count_snap (ts : Z) (l : list A) : nat := foldr (fun t n => pins t ts + n)%nat 0%nat l.

Lemma count_snap_app ts l1 l2 : count_snap ts (l1 ++ l2) = (count_snap ts l1 + count_snap ts l2)%nat.
Proof. induction l1 as [|t l1 IH]; simpl; [done|]. rewrite IH. lia. Qed.

Lemma count_snap_insert ts l i old x :
  l !! i = Some old -> (count_snap ts (<[i := x]> l) + pins old ts = count_snap ts l + pins x ts)%nat.
Proof.
  revert i. induction l as [|t l IH]; intros [|i]; simpl; try done.
  - intros [= ->]. lia.
  - intros H%IH. lia.
Qed.

Lemma count_snap_same l i old x t :
  l !! i = Some old -> live x = live old -> count_snap t (<[i := x]> l) = count_snap t l.
Proof. intros Hi Hl. pose proof (count_snap_insert t l i old x Hi) as H. unfold pins in H. rewrite Hl in H. lia. Qed.

Lemma count_snap_pos ts l i t : l !! i = Some t -> live t = Some ts -> (0 < count_snap ts l)%nat.
Proof.
  revert i. induction l as [|x l IH]; intros [|i]; simpl; try done.
  - intros [= ->] Hl. unfold pins. rewrite bool_decide_true by done. lia.
  - intros Hi Hl. specialize (IH i Hi Hl). lia.
Qed.

Lemma count_snap_ex ts l : (0 < count_snap ts l)%nat -> exists i x, l !! i = Some x /\ live x = Some ts.
Proof.
  induction l as [|x l IH]; simpl; [lia|]. intros H. unfold pins in H. case_bool_decide as Hx.
  - by exists 0%nat, x.
  - destruct IH as (i & y & Hi & Hy); [lia|]. by exists (Datatypes.S i), y.
Qed.
End pinned.

Section rings.
Context {S : Type} `{!DocStore S}.
Implicit Types (w : writer S).

Definition active_count (w : writer S) (ts : Z) : Z := default 0 (jm_get (w_active w) ts).

Lemma retain_count ts w t : active_count (retain ts w) t = active_count w t + (if decide (t = ts) then 1 else 0).
Proof.
  unfold active_count, retain. simpl. rewrite jm_get_set. destruct (decide (t = ts)) as [->|]; simpl; lia.
Qed.

Lemma release_count ts w t :
  1 <= active_count w ts ->
  active_count (release ts w) t = active_count w t - (if decide (t = ts) then 1 else 0).
Proof.
  unfold active_count, release. intros H. cbn [w_active with_active].
  destruct (Z.leb_spec (default 0 (jm_get (w_active w) ts) - 1) 0); rewrite ?jm_get_delete, ?jm_get_set;
    destruct (decide (t = ts)) as [->|]; simpl; lia.
Qed.

Lemma min_key_le keys t : t ∈ keys -> exists m, min_key keys = Some m /\ m <= t.
Proof.
  unfold min_key. set (f := fun (m : option Z) ts => _).
  assert (Hacc : forall l x, exists m, fold_left f l (Some x) = Some m /\ m <= x).
  { induction l as [|y l IH]; intros x; simpl; [exists x; split; [done|lia]|].
    destruct (Z.ltb_spec y x); [|apply IH]. destruct (IH y) as (m & Hm & ?). exists m. split; [exact Hm|lia]. }
  assert (Hgen : forall l acc, t ∈ l -> exists m, fold_left f l acc = Some m /\ m <= t).
  { induction l as [|y l IH]; intros acc Hin; [by apply not_elem_of_nil in Hin|]. simpl.
    apply elem_of_cons in Hin as [<-|Hin]; [|by apply IH]. destruct acc as [x|]; simpl; [|apply Hacc].
    destruct (Z.ltb_spec t x); [apply Hacc|]. destruct (Hacc l x) as (m & Hm & ?). exists m. split; [exact Hm|lia]. }
  apply Hgen.
Qed.

Lemma minActiveSnapshot_le w ts : 1 <= active_count w ts -> minActiveSnapshot w <= ts.
Proof.
  unfold active_count, minActiveSnapshot. destruct (jm_get (w_active w) ts) as [n|] eqn:E; simpl; [|lia].
  intros _. apply jm_get_Some_in, (list_elem_of_fmap_2 fst) in E.
  destruct (min_key_le _ _ E) as (m & Hm & ?). unfold jm_keys. by rewrite Hm.
Qed.

Lemma prune_ring w rc t :
  rc ∈ w_ring w -> minActiveSnapshot w <= t -> t < rc_ts rc -> rc ∈ w_ring (prune w).
Proof.
  intros Hin Hm Ht. unfold prune. destruct (existsb _ _); [|done]. simpl.
  apply list_elem_of_filter. split; [lia|done].
Qed.

Lemma prune_sub w rc : rc ∈ w_ring (prune w) -> rc ∈ w_ring w.
Proof. unfold prune. destruct (existsb _ _); [|done]. simpl. by intros [_ ?]%list_elem_of_filter. Qed.

Lemma prune_rest w :
  w_store (prune w) = w_store w /\ w_oracle (prune w) = w_oracle w /\ w_active (prune w) = w_active w /\
  w_published (prune w) = w_published w.
Proof. unfold prune. by destruct (existsb _ _). Qed.
End rings.
