(* ===== verification/Kernel.v ===== *)
(** The kernel: the handlers of the database calls user code makes.
    packages/executor/src/kernel.ts.

    The state of a running function is [kst]; the store it reads does not
    change while it runs, since it reads one snapshot.  Arguments and answers
    are the JSON values that cross the boundary. *)
From Stdlib Require Import ZArith Lia.
From stdpp Require Import base list sets strings.
From S2P Require Import Prelude JsBase JsText Float64 Values ValuesJson Validators KeyCodec KeyRanges IdCodec Sharding JumpHash DocStore Query QueryRuntime StateRes Catalog Policy Transactor.

(** * Errors *)

Definition FunctionNotFoundError : js_error := PlainError "FUNCTION_NOT_FOUND".
Definition ForbiddenOperationError : js_error := PlainError "FORBIDDEN".
Definition DocumentNotFoundError : js_error := PlainError "DOCUMENT_NOT_FOUND".
Definition DocumentValidationError : js_error := PlainError "DOCUMENT_VALIDATION".
Definition InvalidClientIdError : js_error := PlainError "INVALID_CLIENT_ID".
Definition IdAlreadyInUseError : js_error := PlainError "ID_ALREADY_IN_USE".
Definition CrossStoreWriteError : js_error := PlainError "CrossStoreWriteError".

(** * Calls and answers *)

Record query_spec := QuerySpec
  { qs_table : jsstr; qs_index : jsstr; qs_range : option (list (jsstr * query_operator * json));
    qs_order : option order; qs_filters : option (list (comparison_op * jsstr * json)); qs_limit : option Z }.

Inductive syscall :=
  | SysGet (id : jsstr)
  | SysInsert (table : jsstr) (v : json)
  | SysReplace (id : jsstr) (v : json)
  | SysDelete (id : jsstr)
  | SysQuery (spec : query_spec)
  | SysPaginate (spec : query_spec) (cursor : option jsstr) (pageSize : Z) (maxScan : option Z)
  | SysLog (arg : jsstr)
  | SysOther (op : jsstr).

Inductive answer :=
  | AnsDoc (doc : option json)
  | AnsId (id : jsstr)
  | AnsUnit
  | AnsDocs (docs : list json) (token : option jsstr)
  | AnsPage (page : list json) (nextCursor : option jsstr) (hasMore scanCapped : bool) (token : option jsstr).

Record collect_trace := CollectTrace
  { ctr_keyspace : jsstr; ctr_bounds : serialized_range; ctr_filters : list filter_expr; ctr_order : order;
    ctr_fields : list jsstr; ctr_docs : list json; ctr_hadReadPolicy : bool; ctr_hadLimit : bool; ctr_token : jsstr }.

Record paginate_trace := PaginateTrace
  { ptr_keyspace : jsstr; ptr_bounds : serialized_range; ptr_filters : list filter_expr; ptr_order : order;
    ptr_fields : list jsstr; ptr_hadReadPolicy : bool; ptr_token : jsstr;
    ptr_nextCursor : option jsstr; ptr_hasMore : bool; ptr_scanCapped : bool }.

(** * Context and state *)

(** The part of [KernelContext] that does not change.  [kc_traced] says that the
    context is the one of the function itself: it records traces of its scans
    (for a query) and the global tables it reads. *)
Record kernel_ctx := KernelCtx
  { kc_profile : udf_profile; kc_catalog : catalog; kc_namespace : jsstr; kc_privileged : bool;
    kc_shardId : jsstr; kc_numShards : Z; kc_shardDeclared : bool; kc_traced : bool; kc_globalReads : bool }.

(** What the contexts of one attempt share: the transaction, the log, the
    buffer of global writes, which stores were written, the traces, the source
    of collect tokens, how many random ids were drawn, and the state [R] of
    whatever else the run keeps. *)
Record kst (R : Type) := Kst
  { ks_txn : ctx; ks_logs : list jsstr; ks_globalTxn : option global_txn; ks_local : bool; ks_global : bool;
    ks_collectTrace : list collect_trace; ks_paginateTrace : list paginate_trace; ks_globalReads : list jsstr;
    ks_tokenSeq : Z; ks_ids : nat; ks_rest : R }.
Arguments Kst {R}.
Arguments ks_txn {R}.
Arguments ks_logs {R}.
Arguments ks_globalTxn {R}.
Arguments ks_local {R}.
Arguments ks_global {R}.
Arguments ks_collectTrace {R}.
Arguments ks_paginateTrace {R}.
Arguments ks_globalReads {R}.
Arguments ks_tokenSeq {R}.
Arguments ks_ids {R}.
Arguments ks_rest {R}.

Section updates.
Context {R : Type}.
Implicit Types k : kst R.
Definition set_txn k c : kst R :=
  Kst c (ks_logs k) (ks_globalTxn k) (ks_local k) (ks_global k) (ks_collectTrace k) (ks_paginateTrace k) (ks_globalReads k)
    (ks_tokenSeq k) (ks_ids k) (ks_rest k).
Definition set_logs k l : kst R :=
  Kst (ks_txn k) l (ks_globalTxn k) (ks_local k) (ks_global k) (ks_collectTrace k) (ks_paginateTrace k) (ks_globalReads k)
    (ks_tokenSeq k) (ks_ids k) (ks_rest k).
Definition set_globalTxn k g : kst R :=
  Kst (ks_txn k) (ks_logs k) g (ks_local k) (ks_global k) (ks_collectTrace k) (ks_paginateTrace k) (ks_globalReads k)
    (ks_tokenSeq k) (ks_ids k) (ks_rest k).
Definition set_stores k l g : kst R :=
  Kst (ks_txn k) (ks_logs k) (ks_globalTxn k) l g (ks_collectTrace k) (ks_paginateTrace k) (ks_globalReads k)
    (ks_tokenSeq k) (ks_ids k) (ks_rest k).
Definition set_traces k ct pt : kst R :=
  Kst (ks_txn k) (ks_logs k) (ks_globalTxn k) (ks_local k) (ks_global k) ct pt (ks_globalReads k)
    (ks_tokenSeq k) (ks_ids k) (ks_rest k).
Definition add_globalRead k t : kst R :=
  Kst (ks_txn k) (ks_logs k) (ks_globalTxn k) (ks_local k) (ks_global k) (ks_collectTrace k) (ks_paginateTrace k)
    (set_add (ks_globalReads k) t) (ks_tokenSeq k) (ks_ids k) (ks_rest k).
Definition bump_token k : kst R :=
  Kst (ks_txn k) (ks_logs k) (ks_globalTxn k) (ks_local k) (ks_global k) (ks_collectTrace k) (ks_paginateTrace k) (ks_globalReads k)
    (ks_tokenSeq k + 1) (ks_ids k) (ks_rest k).
Definition bump_ids k : kst R :=
  Kst (ks_txn k) (ks_logs k) (ks_globalTxn k) (ks_local k) (ks_global k) (ks_collectTrace k) (ks_paginateTrace k) (ks_globalReads k)
    (ks_tokenSeq k) (Datatypes.S (ks_ids k)) (ks_rest k).
Definition set_rest k r : kst R :=
  Kst (ks_txn k) (ks_logs k) (ks_globalTxn k) (ks_local k) (ks_global k) (ks_collectTrace k) (ks_paginateTrace k) (ks_globalReads k)
    (ks_tokenSeq k) (ks_ids k) r.

(** A call on the transaction. *)
Definition on_txn {A} (f : ctx -> ctx * res A) : stm (kst R) A :=
  fun k => let '(c, r) := f (ks_txn k) in (set_txn k c, r).
Definition txn_modify (f : ctx -> ctx) : stm (kst R) unit := fun k => (set_txn k (f (ks_txn k)), Ok tt).
End updates.

(** * Values at the boundary *)

(** [Number(snapshotTs)]. *)
Definition num_of_Z (z : Z) : number := num_of_bits (f64_bits (f64_of_Z z)).

(** The own properties of a value that is spread or destructured. *)
Definition own_fields (v : value) : res (list (jsstr * value)) :=
  match v with VNull => Throw TypeError | VObject fs => Ok fs | _ => Ok (obj_of (other_entries v)) end.

Definition creation_time (fs : list (jsstr * value)) (fallback : number) : value :=
  match jm_get fs str_creationTime with Some VNull | None => VNumber fallback | Some v => v end.

(** * Guards *)

Section guards.
Context (kc : kernel_ctx).

Definition full_name (name : jsstr) : jsstr := if kc_privileged kc then name else getFullTableName name (kc_namespace kc).

Definition requireTable (name : jsstr) : res (table_meta * jsstr) :=
  match getTable (kc_catalog kc) (full_name name) with
  | None => Throw FunctionNotFoundError
  | Some meta => Ok (meta, full_name name)
  end.

Definition requireOwnTable (fullName : jsstr) : res unit :=
  if kc_privileged kc then Ok tt
  else if bool_decide ((parseFullTableName fullName).1 = kc_namespace kc) then Ok tt else Throw ForbiddenOperationError.

Definition validateDocumentForWrite (meta : table_meta) (fs : list (jsstr * value)) : res unit :=
  match tm_documentValidator meta with
  | None => Ok tt
  | Some va => match validate va (VObject fs) with [] => Ok tt | _ => Throw DocumentValidationError end
  end.

Definition shardOfDoc (shardKey : jsstr) (doc : value) : res jsstr :=
  shardIdForKeyValue (row_field doc shardKey) (kc_numShards kc).

Inductive write_kind := WInsert | WReplace | WDelete.

Definition enforceShardWrite (meta : table_meta) (doc : value) (op : write_kind) : res unit :=
  match truthy_str (tm_shardKey meta) with
  | None =>
      match op with
      | WInsert => Ok tt
      | _ => if bool_decide (kc_shardId kc = DEFAULT_SHARD) then Ok tt else Throw ForbiddenOperationError
      end
  | Some shardKey =>
      if negb (kc_privileged kc) && negb (kc_shardDeclared kc) then Throw ForbiddenOperationError
      else
        docShard ← shardOfDoc shardKey doc;
        if bool_decide (docShard = kc_shardId kc) then Ok tt else Throw ForbiddenOperationError
  end.

(** [encodeIndexKey([doc[shardKey]])]. *)
Definition shard_key_bytes (doc : value) (shardKey : jsstr) : res bytes :=
  match row_field doc shardKey with Some v => encodeIndexKey [v] | None => Throw TypeError end.

Definition enforceShardKeyImmutable (meta : table_meta) (oldDoc newDoc : value) : res unit :=
  match truthy_str (tm_shardKey meta) with
  | None => Ok tt
  | Some shardKey =>
      if kc_privileged kc then Ok tt
      else
        before ← shard_key_bytes oldDoc shardKey;
        after ← shard_key_bytes newDoc shardKey;
        if indexKeysEqual before after then Ok tt else Throw ForbiddenOperationError
  end.

Definition enforceShardGet (meta : table_meta) (doc : value) : res unit :=
  match truthy_str (tm_shardKey meta) with
  | None => Ok tt
  | Some shardKey =>
      if kc_privileged kc || negb (kc_shardDeclared kc) then Ok tt
      else
        docShard ← shardOfDoc shardKey doc;
        if bool_decide (docShard = kc_shardId kc) then Ok tt else Throw ForbiddenOperationError
  end.

Definition enforceShardScan (meta : option table_meta) (index : index_spec) (range : option (list (jsstr * query_operator * json)))
    : res unit :=
  if negb (kc_shardDeclared kc) || kc_privileged kc then Ok tt
  else
    match m ← meta; truthy_str (tm_shardKey m) with
    | None => Ok tt
    | Some shardKey =>
        if bool_decide (head (is_fields index) = Some shardKey) then
          match List.find (fun r : jsstr * query_operator * json => bool_decide (r.1.1 = shardKey) && is_eq_op r.1.2) (default [] range) with
          | None => Throw ForbiddenOperationError
          | Some r =>
              v ← jsonToConvex r.2;
              eqShard ← shardIdForKeyValue (Some v) (kc_numShards kc);
              if bool_decide (eqShard = kc_shardId kc) then Ok tt else Throw ForbiddenOperationError
          end
        else Throw ForbiddenOperationError
    end.
End guards.

(** * Handlers *)

(** The policies of a context: the resolved read filter of a table and the
    write check of a row, when the table has one and policies are enforced
    ([!privileged && getRuleContext && policy.read]). *)
Record policy_ops (R : Type) := PolicyOps
  { po_read : jsstr -> option (stm (kst R) (option filter_expr));
    po_write : jsstr -> option (value -> stm (kst R) bool) }.
Arguments PolicyOps {R}.
Arguments po_read {R}.
Arguments po_write {R}.

(** No policy: facades, and the readers of policies themselves. *)
Definition no_policies {R} : policy_ops R := PolicyOps (fun _ => None) (fun _ => None).

Section handlers.
#[local] Open Scope stm_scope.
Context {S : Type} `{DocStore S} {G : Type} `{GlobalStore G} {R : Type}.
Context (store : S) (gstore : G) (freshId : nat -> bytes) (kc : kernel_ctx) (po : policy_ops R).
Notation M := (stm (kst R)).

Definition snapshotTs (k : kst R) : Z := cx_snapshotTs (ks_txn k).

Definition fail {A} (e : js_error) : M A := lift (Throw e).
Definition check (b : bool) (e : js_error) : M unit := if b then ret tt else fail e.

Definition enforceWrite (table : jsstr) (row : value) : M unit :=
  if kc_privileged kc then ret tt
  else match po_write po table with
       | None => ret tt
       | Some f => let* ok := f row in check ok ForbiddenOperationError
       end.

Definition read_policy (table : jsstr) : option (M (option filter_expr)) := if kc_privileged kc then None else po_read po table.
Definition hadReadPolicy (table : jsstr) : bool := match read_policy table with Some _ => true | None => false end.
Definition hadWritePolicy (table : jsstr) : bool :=
  negb (kc_privileged kc) && match po_write po table with Some _ => true | None => false end.

Definition markWrite (global : bool) : M unit := fun k =>
  let k := if global then set_stores k (ks_local k) true else set_stores k true (ks_global k) in
  (k, if ks_local k && ks_global k then Throw CrossStoreWriteError else Ok tt).

Definition requireGlobalTxn : M global_txn := fun k =>
  (k, match ks_globalTxn k with Some g => Ok g | None => Throw ForbiddenOperationError end).

Definition recordGlobalRead (table : jsstr) : M unit :=
  if kc_globalReads kc then modify (fun k => add_globalRead k table) else ret tt.

Definition txn_get (id : doc_id) : M (option value) := on_txn (fun c => ctx_get store c id).
Definition txn_put (id : doc_id) (v : value) : M unit := on_txn (fun c => ctx_put c id v).
Definition txn_delete (id : doc_id) : M unit := on_txn (fun c => ctx_delete c id).

Definition record_scan (unvalidated : bool) (r : key_range) : M unit :=
  txn_modify (fun c => if unvalidated then ctx_recordReadUnvalidated c r else ctx_recordRead c r).

Definition recordScanReads (meta : option table_meta) (ranges : list key_range) : M unit :=
  let unvalidated := kc_shardDeclared kc && negb (kc_privileged kc) &&
    match m ← meta; truthy_str (tm_shardKey m) with Some _ => false | None => true end in
  for_each ranges (record_scan unvalidated).

(** The key of one side of a change, recorded as written. *)
Definition record_side (idx : index_spec) (doc : option value) : M unit :=
  match doc with
  | None => ret tt
  | Some d =>
      let* k := lift (extractIndexKey d (is_fields idx)) in
      txn_modify (fun c => ctx_recordWrite c (KeyRange (index_keyspace idx) k (Some (keySuccessor k))))
  end.

Definition maintainIndexes (table : jsstr) (oldDoc newDoc : option value) (id : doc_id) : M unit :=
  let indexes := indexesForTable (kc_catalog kc) table in
  let* us := lift (computeIndexUpdates indexes oldDoc newDoc id) in
  txn_modify (fun c => ctx_stageIndexUpdates c us);;
  for_each indexes (fun idx => record_side idx oldDoc;; record_side idx newDoc).

Definition table_of_id (id : doc_id) : M table_meta :=
  match getTableByNumber (kc_catalog kc) (tableNumber id) with
  | None => fail FunctionNotFoundError
  | Some meta => lift (requireOwnTable kc (tm_name meta));; ret meta
  end.

Definition is_global (meta : table_meta) : bool := bool_decide (tm_mode meta = MGlobal).

Definition json_of_row (fs : list (jsstr * value)) : res json := convexToJson (VObject fs).

Definition handleDbGet (id : jsstr) : M answer :=
  let* internal := lift (decodeDocumentId id) in
  let* meta := table_of_id internal in
  if is_global meta then
    check (negb (hadReadPolicy (tm_name meta))) ForbiddenOperationError;;
    let* g := requireGlobalTxn in
    recordGlobalRead (tm_name meta);;
    let* doc := lift (gt_get gstore g (tm_name meta) id) in
    match doc with
    | None => ret (AnsDoc None)
    | Some fs => let* j := lift (json_of_row fs) in ret (AnsDoc (Some j))
    end
  else
    let* v := txn_get internal in
    match v with
    | None => ret (AnsDoc None)
    | Some doc =>
        lift (enforceShardGet kc meta doc);;
        let* visible :=
          match read_policy (tm_name meta) with
          | None => ret true
          | Some m => let* e := m in lift (leaf_matches e doc)
          end in
        if visible : bool then let* j := lift (convexToJson doc) in ret (AnsDoc (Some j)) else ret (AnsDoc None)
    end.

(** The id of an inserted document: the supplied one, checked, or a fresh one. *)
Definition insert_id (meta : table_meta) (supplied : option value) : M doc_id :=
  match supplied with
  | None => fun k => (bump_ids k, Ok (newDocumentId (tm_tableNumber meta) (freshId (ks_ids k))))
  | Some (VString s) =>
      match decodeDocumentId s with
      | Throw _ => fail InvalidClientIdError
      | Ok decoded =>
          check (tableNumber decoded =? tm_tableNumber meta) InvalidClientIdError;;
          check (match truthy_str (tm_shardKey meta) with None => true | Some _ => false end) InvalidClientIdError;;
          check (bool_decide (kc_shardId kc = DEFAULT_SHARD)) InvalidClientIdError;;
          let* existing := txn_get decoded in
          check (match existing with None => true | Some _ => false end) IdAlreadyInUseError;;
          ret decoded
      end
  | Some _ => fail InvalidClientIdError
  end.

(** [{...fields, _id, _creationTime}]. *)
Definition with_system (fs : list (jsstr * value)) (docId : jsstr) (ct : value) : list (jsstr * value) :=
  obj_define (obj_define fs str_id (VString docId)) str_creationTime ct.

Definition now_value : M number := gets (fun k => num_of_Z (snapshotTs k)).

Definition insert_global (meta : table_meta) (fullName : jsstr) (converted : value) : M answer :=
  check (negb (hadWritePolicy fullName)) ForbiddenOperationError;;
  requireGlobalTxn;;
  let* fs := lift (own_fields converted) in
  check (negb (jm_has fs str_id)) InvalidClientIdError;;
  lift (validateDocumentForWrite meta fs);;
  let* id := insert_id meta None in
  let* docId := lift (encodeInternalDocumentId id) in
  let* ct := now_value in
  markWrite true;;
  let* g := requireGlobalTxn in
  modify (fun k => set_globalTxn k (Some (stageInsert g fullName (with_system fs docId (VNumber ct)))));;
  ret (AnsId docId).

Definition handleDbInsert (table : jsstr) (v : json) : M answer :=
  check (uc_dbWrite (up_capabilities (kc_profile kc))) ForbiddenOperationError;;
  let* mf := lift (requireTable kc table) in
  let '(meta, fullName) := mf in
  let* converted := lift (jsonToConvex v) in
  if is_global meta then insert_global meta fullName converted
  else
    let* fs := lift (own_fields converted) in
    let userValue := jm_delete fs str_id in
    lift (validateDocumentForWrite meta userValue);;
    let* id := insert_id meta (jm_get fs str_id) in
    let* docId := lift (encodeInternalDocumentId id) in
    let* ct := now_value in
    let doc := VObject (with_system userValue docId (VNumber ct)) in
    lift (enforceShardWrite kc meta doc WInsert);;
    enforceWrite fullName doc;;
    markWrite false;;
    txn_put id doc;;
    maintainIndexes fullName None (Some doc) id;;
    ret (AnsId docId).

Definition replace_global (meta : table_meta) (id : jsstr) (v : json) : M answer :=
  check (negb (hadWritePolicy (tm_name meta))) ForbiddenOperationError;;
  let* g := requireGlobalTxn in
  let* old := lift (gt_get gstore g (tm_name meta) id) in
  match old with
  | None => fail DocumentNotFoundError
  | Some old =>
      let* converted := lift (jsonToConvex v) in
      let* fs := lift (own_fields converted) in
      let userFields := jm_delete (jm_delete fs str_id) str_creationTime in
      lift (validateDocumentForWrite meta userFields);;
      markWrite true;;
      let* ct := now_value in
      let* g := requireGlobalTxn in
      modify (fun k => set_globalTxn k
        (Some (stageReplace g (tm_name meta) id (with_system userFields id (creation_time old ct)))));;
      ret AnsUnit
  end.

Definition handleDbReplace (id : jsstr) (v : json) : M answer :=
  check (uc_dbWrite (up_capabilities (kc_profile kc))) ForbiddenOperationError;;
  let* internal := lift (decodeDocumentId id) in
  let* meta := table_of_id internal in
  if is_global meta then replace_global meta id v
  else
    let* oldDoc := txn_get internal in
    match oldDoc with
    | None => fail DocumentNotFoundError
    | Some oldDoc =>
        enforceWrite (tm_name meta) oldDoc;;
        let* converted := lift (jsonToConvex v) in
        let* fs := lift (own_fields converted) in
        lift (validateDocumentForWrite meta (jm_delete (jm_delete fs str_id) str_creationTime));;
        let* ct := now_value in
        let newDoc := VObject (with_system fs id
                        (match oldDoc with VObject old => creation_time old ct | _ => VNumber ct end)) in
        lift (enforceShardKeyImmutable kc meta oldDoc newDoc);;
        lift (enforceShardWrite kc meta newDoc WReplace);;
        enforceWrite (tm_name meta) newDoc;;
        markWrite false;;
        txn_put internal newDoc;;
        maintainIndexes (tm_name meta) (Some oldDoc) (Some newDoc) internal;;
        ret AnsUnit
    end.

Definition handleDbDelete (id : jsstr) : M answer :=
  check (uc_dbWrite (up_capabilities (kc_profile kc))) ForbiddenOperationError;;
  let* internal := lift (decodeDocumentId id) in
  let* meta := table_of_id internal in
  if is_global meta then
    check (negb (hadWritePolicy (tm_name meta))) ForbiddenOperationError;;
    markWrite true;;
    let* g := requireGlobalTxn in
    modify (fun k => set_globalTxn k (Some (stageDelete g (tm_name meta) id)));;
    ret AnsUnit
  else
    let* oldDoc := txn_get internal in
    match oldDoc with
    | None => ret tt
    | Some doc => lift (enforceShardWrite kc meta doc WDelete);; enforceWrite (tm_name meta) doc
    end;;
    markWrite false;;
    txn_delete internal;;
    maintainIndexes (tm_name meta) oldDoc None internal;;
    ret AnsUnit.

(** * Scans *)

Definition convert_range (r : jsstr * query_operator * json) : res range_expression :=
  v ← jsonToConvex r.2; Ok (RangeExpression r.1.1 r.1.2 v).
Definition convert_filter (f : comparison_op * jsstr * json) : res filter_expr :=
  v ← jsonToConvex f.2; Ok (FCompare f.1.1 f.1.2 v).

(** The query of a specification, with the user's own filters. *)
Definition query_of (spec : query_spec) (index : index_spec) : res query :=
  range ← traverse convert_range (default [] (qs_range spec));
  filters ← traverse convert_filter (default [] (qs_filters spec));
  Ok (Query index range (default Asc (qs_order spec)) filters (qs_limit spec)).

Definition with_filters (q : query) (fs : list filter_expr) : query :=
  Query (q_index q) (q_range q) (q_order q) fs (q_limit q).
Definition without_limit (q : query) : query := Query (q_index q) (q_range q) (q_order q) (q_filters q) None.

(** The read policy merged behind the user's filters. *)
Definition merge_policy (table : jsstr) (q : query) : M query :=
  match read_policy table with
  | None => ret q
  | Some m => let* e := m in ret (with_filters q (mergeReadPolicy (q_filters q) e))
  end.

Definition nextCollectToken : M jsstr :=
  fun k => (bump_token k, Ok (js "ct" ++ js_string_of (ks_tokenSeq k + 1))).

Definition is_index_range (r : key_range) : bool := starts_with (js "index:") (kr_keyspace r).

(** Traces are kept by the context of a query itself. *)
Definition traced : bool := kc_traced kc && bool_decide (up_udfType (kc_profile kc) = UQuery).

Definition find_index (spec : query_spec) : res (jsstr * index_spec) :=
  let table := full_name kc (qs_table spec) in
  match getIndex (kc_catalog kc) table (qs_index spec) with
  | None => Throw FunctionNotFoundError
  | Some index => Ok (table, index)
  end.

Definition query_global (spec : query_spec) (table : jsstr) : M answer :=
  check (negb (hadReadPolicy table)) ForbiddenOperationError;;
  let* g := requireGlobalTxn in
  check (forallb (fun r : jsstr * query_operator * json => is_eq_op r.1.2) (default [] (qs_range spec)) &&
         match qs_filters spec with Some (_ :: _) => false | _ => true end) ForbiddenOperationError;;
  let* eqs := lift (traverse convert_range (default [] (qs_range spec))) in
  let eq := fold_left (fun o r => obj_assign o (re_field r) (re_value r)) eqs [] in
  let* rows := lift (gt_queryByIndex gstore g table (qs_index spec) eq (qs_limit spec)) in
  let* docs := lift (traverse json_of_row rows) in
  recordGlobalRead table;;
  ret (AnsDocs docs None).

Definition table_global (table : jsstr) : bool :=
  match getTable (kc_catalog kc) table with Some meta => is_global meta | None => false end.

Definition overlay_of (index : index_spec) : M (list overlay_entry) :=
  gets (fun k => ctx_pendingIndexOverlay (ks_txn k) (is_indexId index)).

Definition push_collect_trace (index : index_spec) (q : query) (had : bool) (docs : list json) (ranges : list key_range)
    (token : jsstr) : M unit :=
  match base.filter (fun r => is_index_range r = true) ranges with
  | [r] => modify (fun k => set_traces k
      (ks_collectTrace k ++ [CollectTrace (kr_keyspace r) (serializeKeyRange r) (q_filters q) (q_order q) (is_fields index)
                               docs had (match q_limit q with Some _ => true | None => false end) token])
      (ks_paginateTrace k))
  | _ => ret tt
  end.

Definition handleDbQuery (spec : query_spec) : M answer :=
  let* ti := lift (find_index spec) in
  let '(table, index) := ti in
  if table_global table then query_global spec table
  else
    lift (enforceShardScan kc (getTable (kc_catalog kc) table) index (qs_range spec));;
    let* userQuery := lift (query_of spec index) in
    let* q := merge_policy table userQuery in
    let* overlay := overlay_of index in
    let* t := gets snapshotTs in
    let* result := lift (collect store q t overlay) in
    let ranges := rs_toArray (cr_readSet result) in
    recordScanReads (getTable (kc_catalog kc) table) ranges;;
    let* docs := lift (traverse convexToJson (cr_documents result)) in
    if traced then
      let* token := nextCollectToken in
      push_collect_trace index userQuery (hadReadPolicy table) docs ranges token;;
      ret (AnsDocs docs (Some token))
    else ret (AnsDocs docs None).

Definition push_paginate_trace (index : index_spec) (q : query) (had : bool) (r : paginated_result) (token : jsstr) : M unit :=
  match base.filter (fun r => is_index_range r = true) (rs_toArray (pr_readSet r)) with
  | [x] => modify (fun k => set_traces k (ks_collectTrace k)
      (ks_paginateTrace k ++ [PaginateTrace (kr_keyspace x) (pr_pageBounds r) (q_filters q) (q_order q) (is_fields index) had token
                                (pr_nextCursor r) (pr_hasMore r) (pr_scanCapped r)]))
  | _ => ret tt
  end.

Definition handleDbPaginate (spec : query_spec) (cursor : option jsstr) (pageSize : Z) (maxScan : option Z) : M answer :=
  let* ti := lift (find_index spec) in
  let '(table, index) := ti in
  if table_global table then fail ForbiddenOperationError
  else
    lift (enforceShardScan kc (getTable (kc_catalog kc) table) index (qs_range spec));;
    let* userQuery := lift (query_of spec index) in
    let* q := merge_policy table (without_limit userQuery) in
    let* overlay := overlay_of index in
    let* t := gets snapshotTs in
    let* result := lift (paginate store q t cursor pageSize maxScan overlay) in
    recordScanReads (getTable (kc_catalog kc) table) (rs_toArray (pr_readSet result));;
    let* token := (if traced then
                     let* token := nextCollectToken in
                     push_paginate_trace index userQuery (hadReadPolicy table) result token;;
                     ret (Some token)
                   else ret None) in
    let* page := lift (traverse convexToJson (pr_page result)) in
    ret (AnsPage page (pr_nextCursor result) (pr_hasMore result) (pr_scanCapped result) token).

Definition handleConsoleLog (arg : jsstr) : M answer :=
  modify (fun k => set_logs k (ks_logs k ++ [arg]));; ret AnsUnit.

(** [SyscallRouter.dispatch]. *)
Definition dispatch (c : syscall) : M answer :=
  match c with
  | SysGet id => handleDbGet id
  | SysInsert table v => handleDbInsert table v
  | SysReplace id v => handleDbReplace id v
  | SysDelete id => handleDbDelete id
  | SysQuery spec => handleDbQuery spec
  | SysPaginate spec cursor pageSize maxScan => handleDbPaginate spec cursor pageSize maxScan
  | SysLog arg => handleConsoleLog arg
  | SysOther _ => fail FunctionNotFoundError
  end.
End handlers.
