(* ===== verification/KernelWrites.v ===== *)
(** What each step of a kernel handler does to the transaction: reads and
    checks leave the staged writes and index updates alone, and a handler that
    writes stages one document with the index updates that go with it.

    What a function can write: every write a kernel handler stages is in a
    table of the caller's namespace, valid for its schema, on the right shard
    and allowed by the table's write policy. *)
From Stdlib Require Import ZArith Lia.
From stdpp Require Import base list sets strings.
From S2P Require Import Prelude JsBase JsText Values ValuesJson Validators KeyCodec KeyRanges IdCodec Sharding JumpHash DocStore Query QueryRuntime StateRes Catalog Policy Transactor Kernel.

(** The writes of a transaction, untouched. *)
Definition same_writes (c c' : ctx) : Prop :=
  cx_staged c' = cx_staged c /\ cx_indexUpdates c' = cx_indexUpdates c /\ cx_snapshotTs c' = cx_snapshotTs c /\
  cx_shardId c' = cx_shardId c.

#[global] Instance same_writes_preorder : PreOrder same_writes.
Proof. split; [done|]. intros a b c (H1 & H2 & H3 & H4) (G1 & G2 & G3 & G4). split_and!; congruence. Qed.

(** Ranges once read stay in the read set. *)
Definition reads_grow (c c' : ctx) : Prop :=
  rs_wf (cx_reads c) -> rs_wf (cx_reads c') /\ forall r, r ∈ rs_toArray (cx_reads c) -> r ∈ rs_toArray (cx_reads c').

#[global] Instance reads_grow_preorder : PreOrder reads_grow.
Proof.
  split; [by intros c H|]. intros a b c H1 H2 H. destruct (H1 H) as [H3 H4]. destruct (H2 H3) as [H5 H6]. auto.
Qed.

Lemma reads_grow_add c c' r : cx_reads c' = rs_add (cx_reads c) r -> reads_grow c c'.
Proof. intros E Hw. rewrite E. split; [by apply rs_wf_add|]. intros x Hx. apply rs_add_elem; auto. Qed.

Section steps.
#[local] Open Scope stm_scope.
Context {S : Type} `{!DocStore S} {G : Type} `{!GlobalStore G} {R : Type}.

(** Neither a write nor a trace of a collect. *)
Definition quiet (k k' : kst R) : Prop :=
  same_writes (ks_txn k) (ks_txn k') /\ reads_grow (ks_txn k) (ks_txn k') /\ ks_collectTrace k' = ks_collectTrace k.
#[global] Instance quiet_refl : Reflexive quiet.
Proof. by intros k. Qed.
#[global] Instance quiet_trans : Transitive quiet.
Proof. intros a b c (H1 & R1 & T1) (H2 & R2 & T2). split_and!; [by etrans|by etrans|congruence]. Qed.
Lemma quiet_same k k' : ks_txn k' = ks_txn k -> ks_collectTrace k' = ks_collectTrace k -> quiet k k'.
Proof. intros E1 E2. unfold quiet. by rewrite E1. Qed.

(** No write. *)
Definition calm (k k' : kst R) : Prop := same_writes (ks_txn k) (ks_txn k').
#[global] Instance calm_refl : Reflexive calm.
Proof. by intros k. Qed.
#[global] Instance calm_trans : Transitive calm.
Proof. intros a b c H1 H2. unfold calm in *. by etrans. Qed.

(** The relations on states that allow every step that leaves the writes alone. *)
Class Absorbs (Q : kst R -> kst R -> Prop) : Prop := {
  ab_refl :: Reflexive Q;
  ab_trans :: Transitive Q;
  ab_quiet : forall k k', quiet k k' -> Q k k'
}.
#[global] Instance absorbs_quiet : Absorbs quiet.
Proof. split; [apply _..|done]. Qed.

#[global] Instance absorbs_calm : Absorbs calm.
Proof. split; [apply _..|]. by intros k k' []. Qed.

(** The ones that allow a trace to be added. *)
Class Pushes (Q : kst R -> kst R -> Prop) : Prop :=
  pushes : forall k ct, Q k (set_traces k ct (ks_paginateTrace k)).
#[global] Instance pushes_calm : Pushes calm.
Proof. by intros k ct. Qed.

Lemma keeps_absorbs (Q : kst R -> kst R -> Prop) `{!Absorbs Q} {A} (m : stm (kst R) A) : keeps quiet m -> keeps Q m.
Proof. intros Hm k. apply ab_quiet, Hm. Qed.

Context (Q : kst R -> kst R -> Prop) `{!Absorbs Q}.

Lemma quiet_ret {A} (x : A) : keeps Q (ret x).
Proof. apply keeps_ret, _. Qed.
Lemma quiet_lift {A} (r : res A) : keeps Q (lift r).
Proof. apply keeps_lift, _. Qed.
Lemma quiet_gets {A} (f : kst R -> A) : keeps Q (gets f).
Proof. apply keeps_gets, _. Qed.
Lemma quiet_bind {A B} (m : stm (kst R) A) (f : A -> stm (kst R) B) :
  keeps Q m -> (forall x, keeps Q (f x)) -> keeps Q (bind m f).
Proof. apply keeps_bind; apply _. Qed.
Lemma quiet_each {A} (l : list A) (f : A -> stm (kst R) unit) : (forall x, keeps Q (f x)) -> keeps Q (for_each l f).
Proof. apply keeps_for_each; apply _. Qed.

(** What policies do is allowed too: those that read do, and so do those that
    write through a facade, when the relation allows the facade's writes. *)
Record policies_keep (po : policy_ops R) : Prop := {
  pq_read : forall t m, po_read po t = Some m -> keeps Q m;
  pq_write : forall t f v, po_write po t = Some f -> keeps Q (f v)
}.

Lemma no_policies_keep : policies_keep no_policies.
Proof. by split. Qed.

Lemma quiet_txn {A} (f : ctx -> ctx * res A) :
  (forall c, same_writes c (f c).1 /\ reads_grow c (f c).1) -> keeps Q (on_txn (R := R) f).
Proof.
  intros Hf. apply keeps_absorbs; [done|]. intros k. unfold on_txn. specialize (Hf (ks_txn k)).
  destruct (f (ks_txn k)) as [c r]. by destruct Hf.
Qed.
Lemma quiet_modify (f : kst R -> kst R) : (forall k, ks_txn (f k) = ks_txn k /\ ks_collectTrace (f k) = ks_collectTrace k) -> keeps Q (modify f).
Proof. intros Hf. apply keeps_absorbs; [done|]. intros k. by apply quiet_same; apply Hf. Qed.

Lemma quiet_step_fun {A} (m : stm (kst R) A) :
  (forall k, ks_txn (m k).1 = ks_txn k /\ ks_collectTrace (m k).1 = ks_collectTrace k) -> keeps Q m.
Proof. intros Hm. apply keeps_absorbs; [done|]. intros k. by apply quiet_same; apply Hm. Qed.

Context (store : S) (gstore : G) (freshId : nat -> bytes) (kc : kernel_ctx) (po : policy_ops R) (Hpo : policies_keep po).

Lemma quiet_txn_get id : keeps Q (txn_get (R := R) store id).
Proof.
  apply quiet_txn. intros c. unfold ctx_get. destruct (countRead _) as [h [e|]]; [done|]. cbv zeta.
  split; case_match; first [done|by eapply reads_grow_add].
Qed.
Lemma quiet_check b e : keeps Q (check (R := R) b e).
Proof. destruct b; [apply quiet_ret|apply quiet_lift]. Qed.
Lemma quiet_markWrite g : keeps Q (markWrite (R := R) g).
Proof. apply keeps_absorbs; [done|]. intros k. unfold markWrite. by destruct g. Qed.
Lemma quiet_requireGlobalTxn : keeps Q (requireGlobalTxn (R := R)).
Proof. apply keeps_absorbs; [done|]. by intros k. Qed.
Lemma quiet_recordGlobalRead t : keeps Q (recordGlobalRead (R := R) kc t).
Proof. unfold recordGlobalRead. destruct (kc_globalReads kc); [by apply quiet_modify|apply quiet_ret]. Qed.
Lemma quiet_enforceWrite t v : keeps Q (enforceWrite kc po t v).
Proof.
  unfold enforceWrite. destruct (kc_privileged kc); [apply quiet_ret|]. destruct (po_write po t) eqn:E; [|apply quiet_ret].
  apply quiet_bind; [by eapply pq_write|intros; apply quiet_check].
Qed.
Lemma quiet_read_policy t m : read_policy kc po t = Some m -> keeps Q m.
Proof. unfold read_policy. destruct (kc_privileged kc); [done|]. apply (pq_read _ Hpo). Qed.
Lemma quiet_record_scan b r : keeps Q (record_scan (R := R) b r).
Proof. apply keeps_absorbs; [done|]. intros k. split_and!; destruct b; first [done|by eapply reads_grow_add]. Qed.
Lemma quiet_recordScanReads m rs : keeps Q (recordScanReads (R := R) kc m rs).
Proof. apply quiet_each; intros; apply quiet_record_scan. Qed.
Lemma quiet_record_side idx d : keeps Q (record_side (R := R) idx d).
Proof. destruct d; [|apply quiet_ret]. apply quiet_bind; [apply quiet_lift|]. intros x. apply keeps_absorbs; [done|]. by intros k. Qed.
Lemma quiet_table_of_id id : keeps Q (table_of_id (R := R) kc id).
Proof. unfold table_of_id. case_match; [|apply quiet_lift]. apply quiet_bind; [apply quiet_lift|intros; apply quiet_ret]. Qed.
Lemma quiet_nextCollectToken : keeps Q (nextCollectToken (R := R)).
Proof. apply keeps_absorbs; [done|]. by intros k. Qed.
Lemma quiet_insert_id meta v : keeps Q (insert_id (R := R) store freshId kc meta v).
Proof.
  unfold insert_id. destruct v as [v|]; [|by apply quiet_step_fun]. destruct v; try apply quiet_lift.
  destruct (decodeDocumentId s); [|apply quiet_lift].
  repeat (apply quiet_bind; [apply quiet_check || apply quiet_txn_get|intros ?]). apply quiet_ret.
Qed.
Lemma quiet_merge_policy t q : keeps Q (merge_policy kc po t q).
Proof.
  unfold merge_policy. destruct (read_policy kc po t) eqn:E; [|apply quiet_ret].
  apply quiet_bind; [by eapply quiet_read_policy|intros; apply quiet_ret].
Qed.
Lemma quiet_push_collect `{!Pushes Q} i q h d rs t : keeps Q (push_collect_trace (R := R) i q h d rs t).
Proof. unfold push_collect_trace. repeat case_match; first [apply quiet_ret|intros s; apply (pushes s)]. Qed.
Lemma quiet_push_paginate i q h r t : keeps Q (push_paginate_trace (R := R) i q h r t).
Proof. unfold push_paginate_trace. repeat case_match; first [apply quiet_ret|by apply quiet_modify]. Qed.
End steps.

#[export] Hint Resolve quiet_check quiet_markWrite quiet_requireGlobalTxn quiet_recordGlobalRead quiet_enforceWrite quiet_txn_get
  quiet_recordScanReads quiet_table_of_id quiet_nextCollectToken quiet_insert_id quiet_merge_policy quiet_push_collect
  quiet_push_paginate quiet_ret quiet_lift quiet_gets : kernel.

#[export] Hint Extern 0 (Absorbs _) => typeclasses eauto : kernel.
#[export] Hint Extern 0 (Pushes _) => typeclasses eauto : kernel.

(** One step of a handler that leaves the writes alone. *)
Ltac quiet_step :=
  match goal with
  | |- keeps _ (bind _ _) => apply quiet_bind; [solve [eassumption|apply _]| |intros ?]
  | |- keeps _ (modify _) => apply quiet_modify; [solve [eassumption|apply _]|done]
  | |- keeps _ (match ?x with _ => _ end) => destruct x eqn:?
  | |- _ => solve [eauto with kernel]
  end.

Section reads.
#[local] Open Scope stm_scope.
Context {S : Type} `{!DocStore S} {G : Type} `{!GlobalStore G} {R : Type}.
Context (Q : kst R -> kst R -> Prop) `{!Absorbs Q}.
Context (store : S) (gstore : G) (freshId : nat -> bytes) (kc : kernel_ctx) (po : policy_ops R) (Hpo : policies_keep Q po).

Lemma quiet_handleDbGet id : keeps Q (handleDbGet store gstore kc po id).
Proof.
  unfold handleDbGet. repeat quiet_step; try done.
  by eapply quiet_read_policy.
Qed.
Lemma quiet_handleDbQuery `{!Pushes Q} spec : keeps Q (handleDbQuery store gstore kc po spec).
Proof. unfold handleDbQuery, query_global, overlay_of. repeat quiet_step. Qed.
Lemma quiet_handleDbPaginate spec c p m : keeps Q (handleDbPaginate store kc po spec c p m).
Proof. unfold handleDbPaginate, overlay_of, fail. repeat quiet_step. Qed.
Lemma quiet_insert_global meta full v : keeps Q (insert_global store freshId kc po meta full v).
Proof. unfold insert_global, now_value. repeat quiet_step. Qed.
Lemma quiet_replace_global meta id v : keeps Q (replace_global gstore kc po meta id v).
Proof. unfold replace_global, now_value, fail. repeat quiet_step. Qed.
End reads.

#[export] Hint Resolve quiet_insert_global quiet_replace_global : kernel.

(** * The tables of a namespace *)

Definition in_namespace (ns full : jsstr) : Prop := exists name, full = getFullTableName name ns.

Lemma parse_in_namespace full : in_namespace (parseFullTableName full).1 full.
Proof.
  unfold in_namespace, parseFullTableName. destruct (split_last 47 full) as [[p n]|] eqn:E; cbn [fst]; [|by exists full].
  unfold split_last in E. destruct (split_first 47 (reverse full)) as [[a b]|] eqn:E1; [|done]. cbn in E. injection E as <- <-.
  apply split_first_Some in E1 as [Hf _].
  assert (Hfull : full = reverse b ++ [47] ++ reverse a).
  { rewrite <-(reverse_involutive full), Hf, reverse_app, reverse_cons. by rewrite <-app_assoc. }
  destruct (reverse b) as [|x p] eqn:Eb; [by exists full|]. exists (reverse a). by rewrite Hfull.
Qed.

(** The two lookups of a catalog agree: what the table registry guarantees. *)
Record catalog_agrees (c : catalog) : Prop := {
  ca_name : forall name m, getTable c name = Some m -> tm_name m = name;
  ca_number : forall name m, getTable c name = Some m -> getTableByNumber c (tm_tableNumber m) = Some m;
  ca_range : forall name m, getTable c name = Some m -> 0 <= tm_tableNumber m <= UINT32_MAX
}.

(** Random ids are 16 bytes. *)
Definition random_ids (freshId : nat -> bytes) : Prop :=
  forall n, length (freshId n) = INTERNAL_ID_BYTES /\ wf_bytes (freshId n).

(** * Allowed writes *)

Section allowed.
Context {R : Type} (kc : kernel_ctx) (po : policy_ops R).

(** The fields of the user that passed validation. *)
Definition fields_valid (meta : table_meta) (g : list (jsstr * value)) : Prop :=
  exists user, validateDocumentForWrite meta user = Ok tt /\
    forall f, f <> str_id -> f <> str_creationTime -> jm_get g f = jm_get user f.

Definition id_field (id : doc_id) (g : list (jsstr * value)) : Prop :=
  exists s, jm_get g str_id = Some (VString s) /\ decodeDocumentId s = Ok id.

Definition on_shard (meta : table_meta) (d : value) : Prop :=
  match truthy_str (tm_shardKey meta) with
  | Some sk => shardOfDoc kc sk d = Ok (kc_shardId kc) /\ (kc_privileged kc = true \/ kc_shardDeclared kc = true)
  | None => True
  end.

Definition policy_passed (meta : table_meta) (d : value) : Prop :=
  kc_privileged kc = false -> forall f, po_write po (tm_name meta) = Some f -> exists k k', f d k = (k', Ok true).

Record doc_allowed (meta : table_meta) (id : doc_id) (d : value) : Prop := {
  da_fields : exists g, d = VObject g /\ fields_valid meta g /\ id_field id g;
  da_shard : on_shard meta d;
  da_policy : policy_passed meta d
}.

Record write_allowed (id : doc_id) (v : option value) (meta : table_meta) : Prop := {
  wa_write : uc_dbWrite (up_capabilities (kc_profile kc)) = true;
  wa_table : getTableByNumber (kc_catalog kc) (tableNumber id) = Some meta;
  wa_local : tm_mode meta <> MGlobal;
  wa_namespace : kc_privileged kc = false -> in_namespace (kc_namespace kc) (tm_name meta);
  wa_doc : forall d, v = Some d -> doc_allowed meta id d
}.

Definition writes_allowed (c : ctx) : Prop :=
  forall w, w ∈ uw_entries (cx_staged c) -> exists meta, write_allowed (lw_id w) (lw_value w) meta.
End allowed.

Section provenance.
#[local] Open Scope stm_scope.
Context {S : Type} `{!DocStore S} {G : Type} `{!GlobalStore G} {R : Type}.
Context (P : doc_id -> option value -> Prop).

(** Every staged write satisfies [P], if it did before. *)
Definition stages (k k' : kst R) : Prop :=
  (forall w, w ∈ uw_entries (cx_staged (ks_txn k)) -> P (lw_id w) (lw_value w)) ->
  forall w, w ∈ uw_entries (cx_staged (ks_txn k')) -> P (lw_id w) (lw_value w).
#[global] Instance stages_refl : Reflexive stages.
Proof. intros k Hk. exact Hk. Qed.
#[global] Instance stages_trans : Transitive stages.
Proof. intros a b c H1 H2 H. by apply H2, H1. Qed.

#[global] Instance stages_absorbs : Absorbs stages.
Proof. split; [apply _..|]. intros k k' [[Hq _] _] H. by rewrite Hq. Qed.
#[global] Instance stages_pushes : Pushes stages.
Proof. intros k ct H. exact H. Qed.
Lemma stages_bind {A B} (m : stm (kst R) A) (f : A -> stm (kst R) B) :
  keeps stages m -> (forall k k' x, m k = (k', Ok x) -> keeps stages (f x)) -> keeps stages (bind m f).
Proof. intros Hm. apply keeps_bind_res; [apply _|done]. Qed.
Lemma stages_lift {A B} (r : res A) (f : A -> stm (kst R) B) : (forall x, r = Ok x -> keeps stages (f x)) -> keeps stages (bind (lift r) f).
Proof. intros Hf. apply keeps_bind_lift; [apply _..|done]. Qed.
Lemma stages_check b e {B} (f : unit -> stm (kst R) B) : (b = true -> keeps stages (f tt)) -> keeps stages (bind (check b e) f).
Proof. intros Hf. apply stages_bind; [apply quiet_check, _|]. intros k k' []. destruct b; [by intros _; apply Hf|done]. Qed.

Lemma stages_write id v c : P id v -> stages c (set_txn c (stage_write (ks_txn c) id v).1).
Proof.
  intros HP H w. unfold stage_write. destruct (countWrite _) as [h [e|]]; cbn; [apply H|].
  unfold uw_entries, uw_set. intros [->|Hw]%jm_values_set; [done|by apply H].
Qed.
Lemma stages_put id v : P id (Some v) -> keeps stages (txn_put (R := R) id v).
Proof.
  intros HP k. unfold txn_put, on_txn, ctx_put. pose proof (stages_write id (Some v) k HP) as Hw.
  by destruct (stage_write _ _ _).
Qed.
Lemma stages_delete id : P id None -> keeps stages (txn_delete (R := R) id).
Proof.
  intros HP k. unfold txn_delete, on_txn, ctx_delete. pose proof (stages_write id None k HP) as Hw.
  by destruct (stage_write _ _ _).
Qed.

Lemma stages_maintain kc t o n id : keeps stages (maintainIndexes (R := R) kc t o n id).
Proof.
  unfold maintainIndexes. apply stages_lift. intros us _. apply keeps_bind; [apply _|intros k Hk; exact Hk|]. intros _.
  apply keeps_for_each; [apply _..|]. intros idx.
  apply quiet_bind; [apply _|apply quiet_record_side, _|intros; apply quiet_record_side, _].
Qed.
End provenance.

(** Through the part of a handler before the write. *)
Ltac stages_step :=
  match goal with
  | |- keeps (stages _) (bind (lift _) _) => apply stages_lift; intros ? ?
  | |- keeps (stages _) (bind (check _ _) _) => apply stages_check; intros ?
  | |- keeps (stages _) (bind (txn_put _ _) _) => apply keeps_bind; [apply _|apply stages_put|intros ?]
  | |- keeps (stages _) (bind (txn_delete _) _) => apply keeps_bind; [apply _|apply stages_delete|intros ?]
  | |- keeps (stages _) (bind (maintainIndexes _ _ _ _ _) _) => apply keeps_bind; [apply _|apply stages_maintain|intros ?]
  | |- keeps (stages _) (bind _ _) => apply stages_bind; [eauto with kernel|intros ? ? ? ?]
  | |- keeps (stages _) (ret _) => let H := fresh in intros ? H; exact H
  | |- keeps (stages _) (fail _) => let H := fresh in intros ? H; exact H
  end.

Section handlers.
Context {S : Type} `{!DocStore S} {G : Type} `{!GlobalStore G} {R : Type}.
Context (store : S) (gstore : G) (freshId : nat -> bytes) (kc : kernel_ctx) (po : policy_ops R).
Context (Hcat : catalog_agrees (kc_catalog kc)) (Hids : random_ids freshId).

Lemma requireTable_ok table meta full :
  requireTable kc table = Ok (meta, full) -> getTable (kc_catalog kc) full = Some meta /\ full = full_name kc table.
Proof. unfold requireTable. destruct (getTable _ _) eqn:E; [|done]. by intros [= -> <-]. Qed.

Lemma full_name_namespace table : kc_privileged kc = false -> in_namespace (kc_namespace kc) (full_name kc table).
Proof. intros H. unfold full_name. rewrite H. by exists table. Qed.

Lemma table_of_id_ok id k k' meta : table_of_id (R := R) kc id k = (k', Ok meta) ->
  getTableByNumber (kc_catalog kc) (tableNumber id) = Some meta /\
  (kc_privileged kc = false -> in_namespace (kc_namespace kc) (tm_name meta)).
Proof.
  unfold table_of_id. destruct (getTableByNumber _ _) as [m|] eqn:E; [|done].
  intros (k1 & x & H1 & H2)%bind_ok. apply lift_ok in H1 as [-> H1]. apply ret_ok in H2 as [_ ->]. split; [done|].
  intros Hp. unfold requireOwnTable in H1. rewrite Hp in H1. case_bool_decide as En; [|done]. rewrite <-En. apply parse_in_namespace.
Qed.

Lemma insert_id_ok meta v k k' id :
  getTableByNumber (kc_catalog kc) (tm_tableNumber meta) = Some meta -> 0 <= tm_tableNumber meta <= UINT32_MAX ->
  insert_id (R := R) store freshId kc meta v k = (k', Ok id) -> tableNumber id = tm_tableNumber meta /\ wf_doc_id id.
Proof.
  intros Hm Hr. unfold insert_id. destruct v as [v|].
  - destruct v; try done. destruct (decodeDocumentId s) as [d|] eqn:E; [|done].
    intros (k1 & [] & H1 & H2)%bind_ok. destruct (tableNumber d =? tm_tableNumber meta) eqn:En; [|done].
    apply bind_ok in H2 as (? & ? & _ & H2). apply bind_ok in H2 as (? & ? & _ & H2). apply bind_ok in H2 as (? & ? & _ & H2).
    apply bind_ok in H2 as (? & ? & _ & H2). apply ret_ok in H2 as [_ <-]. apply decodeDocumentId_wf in E. zbool. done.
  - intros [= _ <-]. split; [done|]. destruct (Hids (ks_ids k)). by split.
Qed.

Lemma with_system_get fs d ct f : jm_get (with_system fs d ct) f =
  if decide (f = str_creationTime) then Some ct else if decide (f = str_id) then Some (VString d) else jm_get fs f.
Proof. unfold with_system. by rewrite !jm_get_define. Qed.

Lemma id_field_system fs s ct id : decodeDocumentId s = Ok id -> id_field id (with_system fs s ct).
Proof. intros H. exists s. by rewrite with_system_get, decide_False, decide_True. Qed.

Lemma enforceWrite_passed meta d k k' :
  enforceWrite kc po (tm_name meta) d k = (k', Ok tt) -> policy_passed kc po meta d.
Proof.
  unfold enforceWrite, policy_passed. intros H Hp f Hf. rewrite Hp, Hf in H. apply bind_ok in H as (k1 & b & H & Hc).
  exists k, k1. destruct b; [done|done].
Qed.

Lemma shardWrite_on meta d op : enforceShardWrite kc meta d op = Ok tt -> on_shard kc meta d.
Proof.
  unfold enforceShardWrite, on_shard. destruct (truthy_str _) as [sk|]; [|done].
  destruct (kc_privileged kc), (kc_shardDeclared kc); cbn [negb andb]; try done;
    (destruct (shardOfDoc kc sk d) as [sh|] eqn:E; [|done]); rewrite bind_Ok; (case_bool_decide; [|done]); subst; auto.
Qed.

(** What the run may write, allowed here among others. *)
Context (P : doc_id -> option value -> Prop).
Context (HP : forall id v meta, write_allowed kc po id v meta -> P id v) (Hpo : policies_keep (stages P) po).

#[local] Hint Resolve quiet_handleDbGet quiet_handleDbQuery quiet_handleDbPaginate : kernel.

Lemma not_global meta : is_global meta = false -> tm_mode meta <> MGlobal.
Proof. unfold is_global. by case_bool_decide. Qed.

Tactic Notation "stages_on" simple_intropattern(x) simple_intropattern(H) :=
  first [apply stages_lift; intros x H | apply stages_bind; [unfold now_value; eauto with kernel|intros ? ? x H]].

(** The document a handler is about to put. *)
Lemma doc_allowed_intro meta id user fs s ct k k' op :
  validateDocumentForWrite meta user = Ok tt ->
  (forall f, f <> str_id -> f <> str_creationTime -> jm_get fs f = jm_get user f) ->
  decodeDocumentId s = Ok id ->
  enforceShardWrite kc meta (VObject (with_system fs s ct)) op = Ok tt ->
  enforceWrite kc po (tm_name meta) (VObject (with_system fs s ct)) k = (k', Ok tt) ->
  doc_allowed kc po meta id (VObject (with_system fs s ct)).
Proof.
  intros Hv Hfs Hid Hs He. split; [|by eapply shardWrite_on|by eapply enforceWrite_passed].
  eexists. split; [done|]. split; [|by apply id_field_system]. exists user. split; [done|].
  intros f H1 H2. rewrite with_system_get, !decide_False by done. by apply Hfs.
Qed.

Lemma stages_insert table v : keeps (stages P) (handleDbInsert store freshId kc po table v).
Proof.
  unfold handleDbInsert. apply stages_check. intros Hcap. stages_on mf Hm. destruct mf as [meta full].
  apply requireTable_ok in Hm as [Hm Hf]. pose proof (ca_name _ Hcat _ _ Hm) as Hname. subst full. stages_on conv Hconv.
  destruct (is_global meta) eqn:Eg; [eauto with kernel|].
  stages_on fs Hfs. stages_on u Hvalid. stages_on id Hid. stages_on docId Hdoc. stages_on ct Hct. stages_on u1 Hshard. stages_on u2 Hpol.
  destruct (insert_id_ok _ _ _ _ _ (ca_number _ Hcat _ _ Hm) (ca_range _ Hcat _ _ Hm) Hid) as [Hn Hw].
  destruct (decode_encode_id _ Hw) as (s & Es & Ds). assert (s = docId) as -> by congruence. destruct u, u1, u2.
  repeat stages_step. apply (HP _ _ meta). split; [done|by rewrite Hn; apply (ca_number _ Hcat _ _ Hm)|by apply not_global|..].
  - intros Hp. rewrite Hname. by apply full_name_namespace.
  - intros d [= <-]. rewrite <-Hname in Hpol. by eapply doc_allowed_intro.
Qed.

Lemma stages_replace id v : keeps (stages P) (handleDbReplace store gstore kc po id v).
Proof.
  unfold handleDbReplace. apply stages_check. intros Hcap. stages_on internal Hdec. stages_on meta Hm.
  apply table_of_id_ok in Hm as [Hm Hns]. destruct (is_global meta) eqn:Eg; [eauto with kernel|].
  stages_on old Hold. destruct old as [old|]; [|stages_step].
  stages_on u0 Hpol0. stages_on conv Hconv. stages_on fs Hfs. stages_on u Hvalid. stages_on ct Hct. stages_on u1 Himm.
  stages_on u2 Hshard. stages_on u3 Hpol. destruct u, u2, u3.
  repeat stages_step. apply (HP _ _ meta). split; [done|done|by apply not_global|done|].
  intros d [= <-]. eapply doc_allowed_intro; [exact Hvalid| |done..]. intros f H1 H2. by rewrite !jm_get_delete, !decide_False.
Qed.

Lemma stages_handleDelete id : keeps (stages P) (handleDbDelete store kc po id).
Proof.
  unfold handleDbDelete. apply stages_check. intros Hcap. stages_on internal Hdec. stages_on meta Hm.
  apply table_of_id_ok in Hm as [Hm Hns]. destruct (is_global meta) eqn:Eg.
  { repeat quiet_step. }
  stages_on old Hold. apply stages_bind; [repeat quiet_step|intros ? ? u Hu].
  repeat stages_step. apply (HP _ _ meta). split; [done|done|by apply not_global|done|done].
Qed.

Lemma stages_dispatch c : keeps (stages P) (dispatch store gstore freshId kc po c).
Proof.
  destruct c; cbn [dispatch]; [| apply stages_insert | apply stages_replace | apply stages_handleDelete |..];
    unfold handleConsoleLog, fail; repeat quiet_step; eauto with kernel.
Qed.
End handlers.
