(* ===== verification/IndexIntegrity.v ===== *)
(** The indexes a transaction sees are exact: at every step the committed index
    entries, overlaid with the staged updates, list every document the
    transaction sees, under its key, and nothing else.  So a query returns the
    documents the transaction sees, its own writes included. *)
From Stdlib Require Import ZArith Lia Sorted.
From stdpp Require Import base list sets strings.
From S2P Require Import Prelude JsBase JsText Float64 Values ValuesJson Validators KeyCodec KeyRanges IdCodec Sharding JumpHash DocStore SqliteDocStore Query QueryRuntime StateRes Catalog Policy Transactor Kernel KernelWrites.

(** * A key belongs to one document *)

Lemma DECODE_ascii : Forall (fun kv : Z * Z => 0 <= kv.1 < 128) DECODE.
Proof. apply (bool_decide_unpack _). vm_compute. exact I. Qed.

Definition ascii_str (s : jsstr) : Prop := Forall (fun u => 0 <= u < 128) s.

Lemma decode_ascii s id : decodeDocumentId s = Ok id -> ascii_str s.
Proof.
  unfold decodeDocumentId. destruct (base32Decode s) as [bs|e] eqn:E; [|by destruct e]. intros _.
  apply base32_decode_sound in E as (vs & _ & Hs & _). induction Hs as [|c v s vs Hc _ IH]; constructor; [|done].
  apply jm_get_Some_in in Hc. pose proof DECODE_ascii as HD. rewrite Forall_forall in HD. exact (HD _ Hc).
Qed.

Lemma utf8_ascii s : ascii_str s -> utf8_encode s = s.
Proof.
  induction 1 as [|u s Hu _ IH]; [done|]. cbn [utf8_encode]. unfold is_high_surrogate, is_low_surrogate.
  rewrite (proj2 (Z.leb_gt 55296 u)), (proj2 (Z.leb_gt 56320 u)) by lia. cbn [andb].
  rewrite IH. unfold utf8_scalar. by rewrite (proj2 (Z.ltb_lt u 128)) by lia.
Qed.

Lemma ascii_compare s s' : ascii_str s -> ascii_str s' -> compareKeysUtf8 s s' = Eq -> s = s'.
Proof. intros Hs Hs'. unfold compareKeysUtf8. rewrite !utf8_ascii by done. apply (cmp_eq (c := compareBytes)). Qed.

(** The document says which one it is. *)
Definition has_id (id : doc_id) (d : value) : Prop :=
  exists s, row_field d str_id = Some (VString s) /\ decodeDocumentId s = Ok id.

Lemma system_id d s : row_field d str_id = Some (VString s) -> system_field d str_id (VString []) = VString s.
Proof. unfold row_field, system_field. destruct d; try done. by intros ->. Qed.

Lemma key_determines_id d d' fields k id id' :
  wf_value d -> wf_value d' -> has_id id d -> has_id id' d' ->
  extractIndexKey d fields = Ok k -> extractIndexKey d' fields = Ok k -> id = id'.
Proof.
  intros Hd Hd' (s & Hs & Di) (s' & Hs' & Di') (vs & Hv & Hk)%extractIndexKey_tuple (vs' & Hv' & Hk')%extractIndexKey_tuple.
  assert (Hw : forall e ws, wf_value e -> Forall2 (fun f v => indexed_value (evaluateFieldPath e f) = Some v) fields ws ->
    Forall wf_value (ws ++ system_values e)).
  { intros e ws He Hws. apply Forall_app. split; [|by apply system_values_wf].
    apply (Forall2_Forall_r _ _ _ _ Hws). apply Forall_forall. intros f _ v. by apply indexed_value_wf. }
  pose proof (encodeIndexKey_compare _ _ _ _ (Hw _ _ Hd Hv) (Hw _ _ Hd' Hv') Hk Hk') as Hc.
  rewrite (cmp_refl (c := compareKeyBytes)) in Hc. symmetry in Hc.
  assert (Hl : length vs = length vs') by (apply Forall2_length in Hv, Hv'; lia).
  rewrite lex_compare_app in Hc by (rewrite length_app; lia). rewrite <-Hl, take_app_length, drop_app_length in Hc.
  destruct (lex_compare compareValues vs vs'); try done. unfold system_values in Hc.
  rewrite (system_id _ _ Hs), (system_id _ _ Hs') in Hc. cbn [lex_compare] in Hc.
  destruct (compareValues (system_field d _ _) _); try done.
  assert (Hss : compareKeysUtf8 s s' = Eq) by (revert Hc; cbn [compareValues typeRank]; change (4 ?= 4) with Eq; by destruct (compareKeysUtf8 s s')).
  apply ascii_compare in Hss; [|by eapply decode_ascii..]. congruence.
Qed.

(** * What a transaction sees *)

(** A catalog whose index lists and index names agree, with index ids that
    belong to one table. *)
Record catalog_indexed (cat : catalog) : Prop := {
  ci_agrees : catalog_agrees cat;
  ci_number : forall n m, getTableByNumber cat n = Some m -> tm_tableNumber m = n /\ getTable cat (tm_name m) = Some m;
  ci_table : forall name idx, idx ∈ indexesForTable cat name ->
    exists m, getTable cat name = Some m /\ is_tableNumber idx = tm_tableNumber m;
  ci_nodup : forall name, NoDup (is_indexId <$> indexesForTable cat name);
  ci_ids : forall name name' idx idx', idx ∈ indexesForTable cat name -> idx' ∈ indexesForTable cat name' ->
    is_indexId idx = is_indexId idx' -> name = name';
  ci_listed : forall name index idx, getIndex cat name index = Some idx -> idx ∈ indexesForTable cat name
}.

Definition view : Type := doc_id -> option value.

(** The document a key of an index stands for. *)
Definition indexed (w : view) (idx : index_spec) (k : bytes) (id : doc_id) : Prop :=
  wf_doc_id id /\ tableNumber id = is_tableNumber idx /\ exists d, w id = Some d /\ extractIndexKey d (is_fields idx) = Ok k.

Record view_ok (w : view) : Prop := {
  vo_wf : forall id d, wf_doc_id id -> w id = Some d -> wf_value d;
  vo_id : forall id d, wf_doc_id id -> w id = Some d -> has_id id d
}.

Definition put_view (w : view) (id : doc_id) (v : option value) : view := fun id' => if decide (id' = id) then v else w id'.

Lemma put_view_ok w id v : view_ok w -> (forall d, v = Some d -> wf_value d /\ has_id id d) -> view_ok (put_view w id v).
Proof.
  intros [Hw Hi] Hv. unfold put_view. split; intros id' d Hid; case_decide; subst; naive_solver.
Qed.

(** The state of an index is the key of every document, and nothing else. *)
Definition index_exact (w : view) (idx : index_spec) (m : bytes -> option doc_id) : Prop :=
  forall k id, m k = Some id <-> indexed w idx k id.

Lemma extract_optional_key d fields ok : extract_optional d fields = Ok ok ->
  match d with None => ok = None | Some v => exists k, ok = Some k /\ extractIndexKey v fields = Ok k end.
Proof. destruct d as [v|]; cbn; [|by intros [= <-]]. destruct (extractIndexKey v fields) as [k|]; [|done]. intros [= <-]. eauto. Qed.

(** One index through a change of one document. *)
Lemma points_to_exact w idx m id v oldKey newKey :
  view_ok w -> (forall d, v = Some d -> wf_value d /\ has_id id d) -> wf_doc_id id -> tableNumber id = is_tableNumber idx ->
  index_exact w idx m -> extract_optional (w id) (is_fields idx) = Ok oldKey -> extract_optional v (is_fields idx) = Ok newKey ->
  index_exact (put_view w id v) idx (fun k => points_to oldKey newKey id (m k) k).
Proof.
  intros Hw Hv Hid Ht Hm Ho%extract_optional_key Hn%extract_optional_key k id'.
  pose proof (put_view_ok w id v Hw Hv) as Hw'.
  assert (Hsame : forall id1 id2 k, indexed (put_view w id v) idx k id1 -> indexed (put_view w id v) idx k id2 -> id1 = id2).
  { intros id1 id2 k0 (H1 & _ & d1 & E1 & K1) (H2 & _ & d2 & E2 & K2).
    eapply key_determines_id; [eapply vo_wf, E1|eapply vo_wf, E2|eapply vo_id, E1|eapply vo_id, E2|exact K1|exact K2]; done. }
  assert (Hnew : forall k0, newKey = Some k0 -> indexed (put_view w id v) idx k0 id).
  { intros k0 ->. destruct v as [d|]; [|done]. destruct Hn as (k1 & [= <-] & Hk). split_and!; [done..|]. exists d.
    split; [|done]. unfold put_view. by rewrite decide_True. }
  assert (Hold : forall k0, oldKey = Some k0 -> indexed w idx k0 id).
  { intros k0 ->. destruct (w id) as [d|] eqn:E; [|done]. destruct Ho as (k1 & [= <-] & Hk). split_and!; [done..|]. by exists d. }
  assert (Hother : forall id1, id1 <> id -> indexed (put_view w id v) idx k id1 <-> indexed w idx k id1).
  { intros id1 Hne. unfold indexed, put_view. by rewrite decide_False. }
  unfold points_to. case_bool_decide as E1.
  { split; [intros [= <-]; by apply Hnew|]. intros H. f_equal. eapply Hsame; [by apply Hnew|exact H]. }
  destruct (decide (id' = id)) as [->|Hne].
  - assert (Hno : ~ indexed (put_view w id v) idx k id).
    { intros (_ & _ & d & Hd & Hk). unfold put_view in Hd. rewrite decide_True in Hd by done. subst v.
      destruct Hn as (k1 & -> & Hk1). apply E1. f_equal. congruence. }
    split; [|done]. case_bool_decide as E2; [done|]. intros Hmk%Hm. exfalso. apply E2.
    destruct Hmk as (_ & _ & d & Hd & Hk). rewrite Hd in Ho. destruct Ho as (k1 & -> & Hk1). f_equal. congruence.
  - rewrite Hother by done. case_bool_decide as E2; [|apply Hm]. split; [done|]. intros H. exfalso. apply Hne.
    destruct H as (H1 & _ & d1 & D1 & K1). destruct (Hold _ E2) as (H2 & _ & d2 & D2 & K2).
    eapply key_determines_id; [eapply vo_wf, D1|eapply vo_wf, D2|eapply vo_id, D1|eapply vo_id, D2|exact K1|exact K2]; done.
Qed.

(** * Exact transactions *)

Section exact.
Context {S : Type} `{!DocStore S} (store : S) (cat : catalog) (base : index_state) (Hcat : catalog_indexed cat).

(** The committed document at the snapshot, and the one the transaction sees. *)
Definition docs_at (t : Z) : view := fun id =>
  match ds_get store id (Some t) with Ok (Some d) => Some (rd_value (ld_value d)) | _ => None end.
Definition effective (c : ctx) : view := fun id =>
  match uw_get (cx_staged c) id with Some w => lw_value w | None => docs_at (cx_snapshotTs c) id end.

Record exact (c : ctx) : Prop := {
  ex_view : view_ok (effective c);
  ex_rows : forall name idx, idx ∈ indexesForTable cat name ->
    index_exact (effective c) idx (apply_updates base (cx_indexUpdates c) (is_indexId idx));
  ex_staged : forall u id, u ∈ cx_indexUpdates c -> iu_value u = IxNonClustered id -> is_Some (uw_get (cx_staged c) id);
  ex_updated : forall name idx k id, idx ∈ indexesForTable cat name -> indexed (effective c) idx k id ->
    is_Some (uw_get (cx_staged c) id) -> exists u, u ∈ cx_indexUpdates c /\ iu_index u = is_indexId idx /\ iu_key u = k;
  ex_keys : forall u, u ∈ cx_indexUpdates c -> wf_bytes (iu_key u)
}.

Lemma exact_same c c' : same_writes c c' -> exact c -> exact c'.
Proof.
  intros (H1 & H2 & H3 & _) [Hv Hr Hs Hu Hk]. assert (He : effective c' = effective c) by (unfold effective; by rewrite H1, H3).
  split; rewrite ?He, ?H2, ?H1; done.
Qed.

Lemma uw_get_set u id v id' : wf_doc_id id -> wf_doc_id id' ->
  uw_get (uw_set u id v) id' = if decide (id' = id) then Some (LocalWrite id v) else uw_get u id'.
Proof.
  intros Hw Hw'. unfold uw_get, uw_set. rewrite jm_get_set. destruct (decide (id' = id)) as [->|Hne].
  - by rewrite decide_True.
  - rewrite decide_False; [done|]. intros E. apply Hne.
    destruct Hw as (Ht & _ & Hb), Hw' as (Ht' & _ & Hb').
    pose proof (document_id_key_roundtrip id ltac:(lia) Hb) as R. pose proof (document_id_key_roundtrip id' ltac:(lia) Hb') as R'.
    rewrite E in R'. congruence.
Qed.

Lemma uw_get_set_some u id v id' : is_Some (uw_get u id') -> is_Some (uw_get (uw_set u id v) id').
Proof. unfold uw_get, uw_set. rewrite jm_get_set. by case_decide. Qed.

(** The updates a change computes. *)
Lemma index_diff_updates idx ok nk id u : u ∈ index_diff idx ok nk id -> forall id', iu_value u = IxNonClustered id' -> id' = id.
Proof.
  unfold index_diff. intros H id'. destruct ok as [k|], nk as [k'|]; cbn [app] in H; repeat case_match; set_unfold in H;
    repeat (destruct H as [H|H]); subst; cbn; congruence || done.
Qed.
Lemma computed_updates_id indexes o n id us : computeIndexUpdates indexes o n id = Ok us ->
  forall u id', u ∈ us -> iu_value u = IxNonClustered id' -> id' = id.
Proof.
  revert us. induction indexes as [|idx indexes IH]; intros us; cbn [computeIndexUpdates].
  { intros [= <-] u id' Hu. by apply not_elem_of_nil in Hu. }
  intros (ok & _ & (nk & _ & (rest & Er & [= <-])%bind_res_ok)%bind_res_ok)%bind_res_ok u id' [Hu|Hu]%elem_of_app Hv.
  - by eapply index_diff_updates.
  - by eapply IH.
Qed.

Lemma computed_updates_wf indexes o n id us : (forall d, o = Some d \/ n = Some d -> wf_value d) ->
  computeIndexUpdates indexes o n id = Ok us -> forall u, u ∈ us -> wf_bytes (iu_key u).
Proof.
  intros Hd. assert (Hkey : forall fields d k, wf_value d -> extractIndexKey d fields = Ok k -> wf_bytes k).
  { intros fields d k Hw (vs & Hv & Hk)%extractIndexKey_tuple. eapply encodeIndexKey_wf; [|exact Hk]. apply Forall_app.
    split; [|by apply system_values_wf]. apply (Forall2_Forall_r _ _ _ _ Hv). apply Forall_forall. intros f _ v. by apply indexed_value_wf. }
  assert (Hopt : forall fields x k, (forall d, x = Some d -> wf_value d) -> extract_optional x fields = Ok (Some k) -> wf_bytes k).
  { intros fields x k Hx H%extract_optional_key. destruct x as [d|]; [|done]. destruct H as (k' & [= <-] & Hk). by eapply Hkey; [apply Hx|]. }
  revert us. induction indexes as [|idx indexes IH]; intros us; cbn [computeIndexUpdates].
  { intros [= <-] u Hu. by apply not_elem_of_nil in Hu. }
  intros (ok & Ho & (nk & Hn & (rest & Er & [= <-])%bind_res_ok)%bind_res_ok)%bind_res_ok u [Hu|Hu]%elem_of_app; [|by eapply IH].
  unfold index_diff in Hu. destruct ok as [k|], nk as [k'|]; cbn [app] in Hu; repeat case_match; set_unfold in Hu;
    repeat (destruct Hu as [Hu|Hu]); subst; try done; cbn; eapply Hopt; try eassumption; eauto.
Qed.

(** Every listed index gets an entry for the new key. *)
Lemma computed_updates_new indexes o n id us idx d k : computeIndexUpdates indexes o n id = Ok us -> idx ∈ indexes -> n = Some d ->
  extractIndexKey d (is_fields idx) = Ok k -> exists u, u ∈ us /\ iu_index u = is_indexId idx /\ iu_key u = k.
Proof.
  intros E Hi -> Hk. revert us E. induction indexes as [|idx' indexes IH]; intros us; [by apply not_elem_of_nil in Hi|].
  cbn [computeIndexUpdates]. intros (ok & _ & (nk & Hn & (rest & Er & [= <-])%bind_res_ok)%bind_res_ok)%bind_res_ok.
  apply elem_of_cons in Hi as [->|Hi].
  - exists (IndexUpdate (is_indexId idx') k (IxNonClustered id)). split_and!; [|done..]. apply extract_optional_key in Hn as (k' & -> & Hk').
    assert (k' = k) as -> by congruence. apply elem_of_app. left. unfold index_diff. destruct ok; set_solver.
  - destruct (IH Hi rest Er) as (u & Hu & ?). exists u. split; [|done]. apply elem_of_app. by right.
Qed.

Definition staged_change (c : ctx) (id : doc_id) (v : option value) (us : list index_update) : ctx :=
  ctx_stageIndexUpdates (with_writes c (cx_writeRanges c) (uw_set (cx_staged c) id v)) us.

(** A change of one document with the updates computed for it. *)
Lemma staged_change_exact c id v us meta :
  exact c -> wf_doc_id id -> getTableByNumber cat (tableNumber id) = Some meta ->
  (forall d, v = Some d -> wf_value d /\ has_id id d) ->
  computeIndexUpdates (indexesForTable cat (tm_name meta)) (effective c id) v id = Ok us -> exact (staged_change c id v us).
Proof.
  intros [Hv Hr Hs Hup Hkeys] Hid Hm Hd Hus. destruct (ci_number _ Hcat _ _ Hm) as [Hn Hg].
  assert (He : forall id', wf_doc_id id' -> effective (staged_change c id v us) id' = put_view (effective c) id v id').
  { intros id' Hw. unfold effective, put_view, staged_change.
    cbn [ctx_stageIndexUpdates with_writes cx_staged cx_snapshotTs]. rewrite uw_get_set by done. by case_decide. }
  assert (Hok : view_ok (effective (staged_change c id v us))).
  { destruct (put_view_ok _ id v Hv Hd) as [H1 H2]. split; intros id' d Hw; rewrite He by done; eauto. }
  destruct (computeIndexUpdates_maintains _ _ _ _ _ (apply_updates base (cx_indexUpdates c)) (ci_nodup _ Hcat (tm_name meta)) Hus) as [Hin Hout].
  assert (Hix : forall idx k id', indexed (effective (staged_change c id v us)) idx k id' <-> indexed (put_view (effective c) id v) idx k id').
  { intros idx k id'. unfold indexed.
    split; intros (Hw & Ht & d & Hd' & Hk); (split_and!; [done..|]); exists d; (split; [|done]); [by rewrite <-He|by rewrite He]. }
  split; [done| | | |].
  - intros name idx Hidx k id'. rewrite Hix.
    cbn [staged_change ctx_stageIndexUpdates with_writes cx_indexUpdates]. rewrite apply_updates_app.
    destruct (decide (name = tm_name meta)) as [->|Hne].
    + destruct (Hin _ Hidx) as (ok & nk & Ho & Hnk & Hk). rewrite Hk.
      destruct (ci_table _ Hcat _ _ Hidx) as (m & Hgm & Hnum). assert (m = meta) as -> by congruence.
      by apply (points_to_exact (effective c) idx _ id v ok nk Hv Hd Hid ltac:(congruence) (Hr _ _ Hidx)).
    + rewrite Hout.
      * rewrite (Hr _ _ Hidx k id'). unfold indexed, put_view. destruct (decide (id' = id)) as [->|]; [|done].
        destruct (ci_table _ Hcat _ _ Hidx) as (m & Hgm & Hnum). pose proof (ca_number _ (ci_agrees _ Hcat) _ _ Hgm) as Hbn.
        pose proof (ca_name _ (ci_agrees _ Hcat) _ _ Hgm) as Hname.
        split; intros (_ & Ht & _); exfalso; apply Hne; rewrite <-Hname; congruence.
      * intros (idx' & Hi & Hidx')%list_elem_of_fmap. apply Hne. by eapply (ci_ids _ Hcat).
  - intros u id' Hu Huv. cbn [staged_change ctx_stageIndexUpdates with_writes cx_indexUpdates cx_staged] in Hu |- *. apply elem_of_app in Hu as [Hu|Hu].
    + apply uw_get_set_some. by eapply Hs.
    + rewrite (computed_updates_id _ _ _ _ _ Hus _ _ Hu Huv). rewrite uw_get_set by done. by rewrite decide_True.
  - intros name idx k id' Hidx Hind Hst. cbn [staged_change ctx_stageIndexUpdates with_writes cx_indexUpdates cx_staged] in Hst |- *.
    apply Hix in Hind. pose proof Hind as (Hw' & Ht & d & Hd' & Hk). destruct (decide (id' = id)) as [->|Hne].
    + assert (name = tm_name meta) as ->.
      { destruct (ci_table _ Hcat _ _ Hidx) as (m & Hgm & Hnum). pose proof (ca_number _ (ci_agrees _ Hcat) _ _ Hgm) as Hbn.
        pose proof (ca_name _ (ci_agrees _ Hcat) _ _ Hgm) as <-. congruence. }
      unfold put_view in Hd'. rewrite decide_True in Hd' by done.
      destruct (computed_updates_new _ _ _ _ _ _ _ _ Hus Hidx Hd' Hk) as (u & Hu & Hx). exists u. split; [|done]. apply elem_of_app. by right.
    + rewrite uw_get_set in Hst by done. rewrite decide_False in Hst by done.
      destruct (Hup name idx k id' Hidx) as (u & Hu & Hx); [|done|exists u; split; [|done]; apply elem_of_app; by left].
      unfold indexed, put_view in Hind |- *. by rewrite decide_False in Hind.
  - intros u Hu. cbn [staged_change ctx_stageIndexUpdates with_writes cx_indexUpdates] in Hu. apply elem_of_app in Hu as [Hu|Hu]; [by apply Hkeys|].
    eapply computed_updates_wf; [|exact Hus|exact Hu]. intros d [Ho|Hn']; [by eapply (vo_wf _ Hv)|by apply Hd].
Qed.
End exact.

(** * Handlers keep transactions exact *)

Section handlers.
#[local] Open Scope stm_scope.
Context {S : Type} `{!DocStore S} {G : Type} `{!GlobalStore G} {R : Type}.
Context (store : S) (gstore : G) (freshId : nat -> bytes) (kc : kernel_ctx) (po : policy_ops R) (base : index_state).
Context (Hcat : catalog_indexed (kc_catalog kc)) (Hids : random_ids freshId) (Hpo : policies_keep calm po).

Notation exact_run := (exact store (kc_catalog kc) base).
Notation seen := (effective store).

Lemma seen_same c c' : same_writes c c' -> seen c' = seen c.
Proof. intros (H1 & _ & H3 & _). unfold effective. by rewrite H1, H3. Qed.

Lemma txn_get_seen id (k k' : kst R) v : txn_get store id k = (k', Ok v) -> v = seen (ks_txn k) id.
Proof.
  unfold txn_get, on_txn, ctx_get, effective, docs_at. destruct (countRead _) as [h [e|]]; [done|]. cbv zeta.
  cbn [with_reads with_headroom cx_staged cx_snapshotTs]. destruct (uw_get _ id) as [w|]; [by intros [= _ <-]|].
  destruct (ds_get store id _) as [[d|]|]; by intros [= _ <-].
Qed.

(** The write itself and the index updates that go with it. *)
Lemma write_maintain id v meta (k k1 k2 k' : kst R) u u' :
  on_txn (fun c => stage_write c id v) k = (k1, Ok u) ->
  maintainIndexes kc (tm_name meta) (seen (ks_txn k) id) v id k1 = (k2, Ok u') -> same_writes (ks_txn k2) (ks_txn k') ->
  exact_run (ks_txn k) -> wf_doc_id id -> getTableByNumber (kc_catalog kc) (tableNumber id) = Some meta ->
  (forall d, v = Some d -> wf_value d /\ has_id id d) -> exact_run (ks_txn k').
Proof.
  intros E1 E2 Hk' Hk Hid Hm Hv. unfold on_txn, stage_write in E1. destruct (countWrite _) as [h [e|]]; [done|]. injection E1 as <- _.
  unfold maintainIndexes in E2. apply bind_ok in E2 as (k3 & us & [-> Hus]%lift_ok & E2).
  apply bind_ok in E2 as (k4 & w & E3 & E4). injection E3 as <- _.
  apply (exact_same store (kc_catalog kc) base) with (c := staged_change (ks_txn k) id v us).
  - etrans; [|exact Hk']. match type of E4 with for_each ?l ?f ?s = _ =>
      assert (Hq : keeps calm (for_each (S := kst R) l f)) by
        (apply quiet_each; [apply _|]; intros idx; apply quiet_bind; [apply _|apply quiet_record_side, _|intros; apply quiet_record_side, _]);
      specialize (Hq s); rewrite E4 in Hq end.
    etrans; [|exact Hq]. done.
  - by eapply staged_change_exact.
Qed.

Lemma quiet_ok {A} (m : stm (kst R) A) k k' x : m k = (k', Ok x) -> keeps calm m -> same_writes (ks_txn k) (ks_txn k').
Proof. intros E Hm. specialize (Hm k). by rewrite E in Hm. Qed.

(** The arguments of a call are parsed JSON. *)
Definition wf_call (c : syscall) : Prop :=
  match c with SysInsert _ v | SysReplace _ v => wf_json v | _ => True end.

Lemma own_fields_wf v fs : wf_value v -> own_fields v = Ok fs -> wf_value (VObject fs).
Proof.
  assert (Hof : forall es, Forall (fun kv : jsstr * value => wf_str kv.1 /\ wf_value kv.2) es -> wf_value (VObject (obj_of es))).
  { intros es. assert (H0 : wf_value (VObject [])) by (apply wf_object; repeat constructor). unfold obj_of. revert H0.
    generalize (@nil (jsstr * value)) as o. intros o Ho Hes. revert o Ho. induction Hes as [|kv es [Hk Hv] _ IH]; intros o Ho; [done|].
    apply IH. by apply wf_object_define. }
  assert (Hnum : forall xs, Forall wf_value xs -> Forall (fun kv : jsstr * value => wf_str kv.1 /\ wf_value kv.2) (numbered xs)).
  { intros xs Hxs. unfold numbered. generalize 0%nat as n. induction Hxs as [|x xs Hx _ IH]; intros n; [constructor|].
    cbn [length seq zip_with]. constructor; [|apply IH]. split; [|done].
    eapply Forall_impl; [apply js_string_of_chars; lia|]. intros u Hu. unfold is_unit. cbv beta in Hu. lia. }
  intros Hv. destruct v; cbn [own_fields]; try done; intros [= <-].
  all: try (apply (Hof []); constructor).
  - apply Hof, Hnum. cbn in Hv. induction Hv as [|u s Hu _ IH]; [constructor|]. csimpl. constructor; [by apply (Forall_singleton is_unit)|done].
  - apply Hof, Hnum. by apply wf_array.
  - exact Hv.
Qed.

Lemma with_system_ok fs s ct id : wf_value (VObject fs) -> wf_value ct -> decodeDocumentId s = Ok id ->
  wf_value (VObject (with_system fs s ct)) /\ has_id id (VObject (with_system fs s ct)).
Proof.
  intros Hf Hc Hd. assert (Hs : wf_str s).
  { eapply Forall_impl; [by eapply decode_ascii|]. intros u Hu. unfold is_unit. cbv beta in Hu. lia. }
  split.
  - unfold with_system. apply wf_object_define; [|by repeat constructor|done]. apply wf_object_define; [done|by repeat constructor|done].
  - exists s. split; [|done]. cbn [row_field]. by rewrite with_system_get, decide_False, decide_True.
Qed.

Lemma check_ok b e (k k' : kst R) u : check b e k = (k', Ok u) -> k' = k /\ b = true.
Proof. destruct b; [by intros [= ->]|done]. Qed.

(** Through a check. *)
Ltac bind_check H :=
  let k := fresh "k" in let u := fresh "u" in let E := fresh "E" in
  apply bind_ok in H as (k & u & E & H); apply check_ok in E as [-> E].

(** The random id a call would draw is not in use. *)
Definition unused_id (k : kst R) : Prop := forall num, seen (ks_txn k) (newDocumentId num (freshId (ks_ids k))) = None.

Lemma insert_id_free meta v k k' id : unused_id k -> insert_id store freshId kc meta v k = (k', Ok id) -> seen (ks_txn k) id = None.
Proof.
  intros Hu. unfold insert_id. destruct v as [v|]; [|intros [= _ <-]; apply Hu].
  destruct v; try done. destruct (decodeDocumentId s) as [d|]; [|done]. intros H.
  bind_check H. bind_check H. bind_check H. apply bind_ok in H as (k4 & ex & E4 & H). apply txn_get_seen in E4.
  bind_check H. apply ret_ok in H as [_ <-]. by destruct ex.
Qed.

(** Through a step that leaves the writes alone. *)
Ltac bind_quiet H k x E Hq :=
  apply bind_ok in H as (k & x & E & H); pose proof (quiet_ok _ _ _ _ E ltac:(unfold now_value, fail; eauto with kernel)) as Hq.
Ltac bind_lift H x E := let k := fresh "k" in apply bind_ok in H as (k & x & E & H); apply lift_ok in E as [-> E].

Lemma insert_exact table v k k' a : wf_json v -> unused_id k ->
  exact_run (ks_txn k) -> handleDbInsert store freshId kc po table v k = (k', Ok a) -> exact_run (ks_txn k').
Proof.
  intros Hj Hu Hx H. unfold handleDbInsert in H. bind_check H. bind_lift H mf Hm. destruct mf as [meta full].
  apply requireTable_ok in Hm as [Hm _]. pose proof (ca_name _ (ci_agrees _ Hcat) _ _ Hm) as <-. bind_lift H conv Hc.
  destruct (is_global meta); [exact (exact_same _ _ _ _ _ (quiet_ok _ _ _ _ H ltac:(eauto with kernel)) Hx)|].
  bind_lift H fs Hfs. bind_lift H u1 Hvalid.
  pose proof (own_fields_wf _ _ (jsonToConvex_wf _ _ Hj Hc) Hfs) as Hwf.
  apply bind_ok in H as (k1 & id & Eid & H).
  destruct (insert_id_ok _ _ _ Hids _ _ _ _ _ (ca_number _ (ci_agrees _ Hcat) _ _ Hm) (ca_range _ (ci_agrees _ Hcat) _ _ Hm) Eid) as [Hn Hw].
  pose proof (insert_id_free _ _ _ _ _ Hu Eid) as Hfree.
  pose proof (quiet_ok _ _ _ _ Eid ltac:(eauto with kernel)) as Q1.
  bind_lift H docId Hdoc. destruct (decode_encode_id _ Hw) as (s & Es & Ds). assert (s = docId) as -> by congruence.
  bind_quiet H k2 ct Ect Q2. bind_lift H u2 Hshard. bind_quiet H k3 u3 Epol Q3. bind_quiet H k4 u4 Emark Q4.
  apply bind_ok in H as (k5 & u5 & Eput & H). apply bind_ok in H as (k6 & u6 & Em & H). apply ret_ok in H as [-> _].
  assert (Q : same_writes (ks_txn k) (ks_txn k4)) by (do 3 (etrans; [eassumption|]); done).
  destruct (with_system_ok (jm_delete fs str_id) docId (VNumber ct) id (wf_object_delete _ _ Hwf) I Ds) as [Hd Hi].
  eapply write_maintain; [exact Eput| |reflexivity|by eapply exact_same|exact Hw| |].
  - rewrite (seen_same _ _ Q), Hfree. exact Em.
  - rewrite Hn. exact (ca_number _ (ci_agrees _ Hcat) _ _ Hm).
  - by intros d [= <-].
Qed.

Lemma replace_exact id v k k' a : wf_json v ->
  exact_run (ks_txn k) -> handleDbReplace store gstore kc po id v k = (k', Ok a) -> exact_run (ks_txn k').
Proof.
  intros Hj Hx H. unfold handleDbReplace in H. bind_check H. bind_lift H internal Hdec. pose proof (decodeDocumentId_wf _ _ Hdec) as Hw.
  bind_quiet H k1 meta Em Q1. apply table_of_id_ok in Em as [Hm _].
  destruct (is_global meta); [exact (exact_same _ _ _ _ _ (transitivity Q1 (quiet_ok _ _ _ _ H ltac:(eauto with kernel))) Hx)|].
  bind_quiet H k2 old Eold Q2. apply txn_get_seen in Eold. destruct old as [old|]; [|done].
  bind_quiet H k3 u0 E0 Q3. bind_lift H conv Hc. bind_lift H fs Hfs. bind_lift H u1 Hvalid. bind_quiet H k4 ct Ect Q4.
  pose proof (own_fields_wf _ _ (jsonToConvex_wf _ _ Hj Hc) Hfs) as Hwf.
  bind_lift H u2 Himm. bind_lift H u3 Hshard. bind_quiet H k5 u4 Epol Q5. bind_quiet H k6 u5 Emark Q6.
  apply bind_ok in H as (k7 & u6 & Eput & H). apply bind_ok in H as (k8 & u7 & Emt & H). apply ret_ok in H as [-> _].
  assert (Q : same_writes (ks_txn k1) (ks_txn k6)) by (do 4 (etrans; [eassumption|]); done).
  eapply write_maintain; [exact Eput| |reflexivity| |exact Hw|exact Hm|].
  - rewrite (seen_same _ _ Q), <-Eold. exact Emt.
  - eapply exact_same; [etrans; [exact Q1|exact Q]|done].
  - intros d [= <-]. apply with_system_ok; [done| |done].
    destruct old as [| | | | | | |ofs]; try done. assert (Ho : wf_value (VObject ofs)).
    { eapply vo_wf; [eapply ex_view; exact (exact_same _ _ _ _ _ Q1 Hx)|exact Hw|by symmetry]. }
    unfold creation_time. destruct (jm_get ofs str_creationTime) as [w|] eqn:Ew; [|done].
    pose proof (wf_object_get _ _ _ Ho Ew). by destruct w.
Qed.

Lemma delete_exact id k k' a : exact_run (ks_txn k) -> handleDbDelete store kc po id k = (k', Ok a) -> exact_run (ks_txn k').
Proof.
  intros Hx H. unfold handleDbDelete in H. bind_check H. bind_lift H internal Hdec. pose proof (decodeDocumentId_wf _ _ Hdec) as Hw.
  bind_quiet H k1 meta Em Q1. apply table_of_id_ok in Em as [Hm _]. destruct (is_global meta).
  { assert (Q2 : same_writes (ks_txn k1) (ks_txn k')) by (eapply quiet_ok; [exact H|repeat quiet_step]).
    exact (exact_same _ _ _ _ _ (transitivity Q1 Q2) Hx). }
  bind_quiet H k2 old Eold Q2. apply txn_get_seen in Eold.
  apply bind_ok in H as (k3 & u0 & E0 & H). assert (Q3 : same_writes (ks_txn k2) (ks_txn k3)) by (eapply quiet_ok; [exact E0|repeat quiet_step]).
  bind_quiet H k4 u1 Emark Q4.
  apply bind_ok in H as (k5 & u6 & Eput & H). apply bind_ok in H as (k6 & u7 & Emt & H). apply ret_ok in H as [-> _].
  assert (Q : same_writes (ks_txn k1) (ks_txn k4)) by (do 2 (etrans; [eassumption|]); done).
  eapply write_maintain; [exact Eput| |reflexivity| |exact Hw|exact Hm|done].
  - rewrite (seen_same _ _ Q), <-Eold. exact Emt.
  - eapply exact_same; [etrans; [exact Q1|exact Q]|done].
Qed.

(** C8: a successful call keeps the transaction exact: every index lists every
    document the transaction sees, its own writes included, under the
    document's key, and nothing else; stored documents remain well-formed and
    carry their own id. *)
Theorem dispatch_keeps_indexes c k k' a : wf_call c -> unused_id k -> exact_run (ks_txn k) ->
  dispatch store gstore freshId kc po c k = (k', Ok a) -> exact_run (ks_txn k').
Proof.
  intros Hw Hu Hx H. destruct c; cbn [dispatch wf_call] in *;
    [| by eapply insert_exact | by eapply replace_exact | by eapply delete_exact |..];
    (eapply exact_same; [eapply quiet_ok; [exact H|]|exact Hx]).
  - apply quiet_handleDbGet; [apply _|done].
  - apply quiet_handleDbQuery; [apply _|done|apply _].
  - apply quiet_handleDbPaginate; [apply _|done].
  - unfold handleConsoleLog. repeat quiet_step.
  - apply quiet_lift, _.
Qed.
End handlers.
