(* ===== verification/QueryResults.v ===== *)
(** What a query returns: the documents the transaction sees whose key lies in
    the planned interval and that pass the filters and the read policy, in
    index order. *)
From Stdlib Require Import ZArith Lia Sorted.
From stdpp Require Import base list sets strings.
From S2P Require Import Prelude JsBase JsText Float64 Values ValuesJson Validators KeyCodec KeyRanges IdCodec Sharding JumpHash DocStore SqliteDocStore Query QueryRuntime StateRes Catalog Policy Transactor Kernel KernelWrites IndexIntegrity.

(** * The overlay of staged updates *)

(** The last update of an index at a key. *)
Fixpoint last_update (us : list index_update) (ix : jsstr) (k : bytes) : option index_value :=
  match us with
  | [] => None
  | u :: us' =>
      match last_update us' ix k with
      | Some v => Some v
      | None => if bool_decide (ix = iu_index u /\ k = iu_key u) then Some (iu_value u) else None
      end
  end.

Lemma apply_updates_last m us ix k :
  apply_updates m us ix k =
    match last_update us ix k with
    | None => m ix k
    | Some IxDeleted => None
    | Some (IxNonClustered id) => Some id
    end.
Proof.
  revert m. induction us as [|u us IH]; intros m; [done|].
  change (apply_updates m (u :: us) ix k) with (apply_updates (apply_update m u) us ix k). rewrite IH.
  cbn [last_update]. destruct (last_update us ix k) as [[]|]; try done. unfold apply_update. case_bool_decide; [|done].
  by destruct (iu_value u).
Qed.

Lemma last_update_in us ix k v : last_update us ix k = Some v -> exists u, u ∈ us /\ iu_index u = ix /\ iu_key u = k /\ iu_value u = v.
Proof.
  induction us as [|u us IH]; cbn [last_update]; [done|]. destruct (last_update us ix k) as [w|].
  - intros [= <-]. destruct (IH eq_refl) as (u' & Hu & ?). exists u'. split; [by right|done].
  - case_bool_decide as E; [|done]. intros [= <-]. destruct E as [-> ->]. exists u. split_and!; [by left|done..].
Qed.

Lemma last_update_some us ix k u : u ∈ us -> iu_index u = ix -> iu_key u = k -> is_Some (last_update us ix k).
Proof.
  intros Hu <- <-. induction us as [|u' us IH]; [by apply not_elem_of_nil in Hu|]. cbn [last_update].
  apply elem_of_cons in Hu as [->|Hu]; [|destruct (IH Hu) as [v ->]; eauto].
  destruct (last_update us _ _); [eauto|]. rewrite bool_decide_true; eauto.
Qed.

Section overlay.
Context (staged : uncommitted) (ix : jsstr).

(** The value an entry of the overlay holds. *)
Definition entry_value (v : index_value) : option value :=
  match v with
  | IxDeleted => None
  | IxNonClustered id => match uw_get staged id with Some w => lw_value w | None => None end
  end.

Definition overlay_map (us : list index_update) : list (jsstr * overlay_entry) := fold_left (overlay_add staged ix) us [].

(** Entries under the hexadecimal form of their key. *)
Definition overlay_ok (m : list (jsstr * overlay_entry)) : Prop :=
  NoDup (jm_keys m) /\ Forall (fun e => e.1 = hexKey (ov_key e.2) /\ wf_bytes (ov_key e.2)) m.

Lemma overlay_add_eq m u : iu_index u = ix ->
  overlay_add staged ix m u = jm_set m (hexKey (iu_key u)) (OverlayEntry (iu_key u) (entry_value (iu_value u))).
Proof. intros H. unfold overlay_add. rewrite bool_decide_false by (by intros ?). by destruct (iu_value u). Qed.

Lemma jm_set_Forall' {V} (P : jsstr * V -> Prop) (m : list (jsstr * V)) k v : Forall P m -> P (k, v) -> Forall P (jm_set m k v).
Proof. intros Hm Hk. induction Hm as [|[k' v'] m Hx Hm IH]; cbn [jm_set]; [by repeat constructor|]. case_decide; by constructor. Qed.

Lemma overlay_add_ok m u : wf_bytes (iu_key u) -> overlay_ok m -> overlay_ok (overlay_add staged ix m u).
Proof.
  intros Hu [Hn Hf]. destruct (decide (iu_index u = ix)) as [E|E].
  - rewrite overlay_add_eq by done. split; [by apply jm_nodup_set|]. by apply jm_set_Forall'.
  - unfold overlay_add. by rewrite bool_decide_true.
Qed.

Lemma overlay_map_spec us : Forall (fun u => wf_bytes (iu_key u)) us ->
  overlay_ok (overlay_map us) /\
  forall k, wf_bytes k -> jm_get (overlay_map us) (hexKey k) = (fun v => OverlayEntry k (entry_value v)) <$> last_update us ix k.
Proof.
  intros Hus. unfold overlay_map.
  assert (Hgen : forall m, overlay_ok m -> overlay_ok (fold_left (overlay_add staged ix) us m) /\
    forall k, wf_bytes k -> jm_get (fold_left (overlay_add staged ix) us m) (hexKey k) =
      match last_update us ix k with Some v => Some (OverlayEntry k (entry_value v)) | None => jm_get m (hexKey k) end).
  { induction Hus as [|u us Hu _ IH]; intros m Hm; [done|]. cbn [fold_left last_update].
    destruct (IH (overlay_add staged ix m u) (overlay_add_ok _ _ Hu Hm)) as [H1 H2]. split; [done|]. intros k Hk. rewrite H2 by done.
    destruct (last_update us ix k) as [v|]; [done|]. destruct (decide (iu_index u = ix)) as [E|E].
    - rewrite overlay_add_eq, jm_get_set by done. destruct (decide (hexKey k = hexKey (iu_key u))) as [Eh|Eh].
      + apply hexKey_inj in Eh as ->; [|done..]. by rewrite bool_decide_true.
      + rewrite bool_decide_false; [done|]. by intros [_ ->].
    - unfold overlay_add. rewrite bool_decide_true by done. rewrite bool_decide_false; [done|]. by intros [-> _]. }
  destruct (Hgen []) as [H1 H2]; [by split; constructor|]. split; [done|]. intros k Hk. rewrite H2 by done.
  by destruct (last_update us ix k).
Qed.
End overlay.

(** An overlay with one entry per key. *)
Lemma overlaid_absent iv overlay committed k : k ∉ ov_key <$> overlay -> overlaid iv overlay committed k = committed.
Proof.
  unfold overlaid. revert committed. induction overlay as [|e overlay IH]; intros c; [done|]. csimpl.
  intros [H1 H2]%not_elem_of_cons. rewrite decide_False by done. by apply IH.
Qed.
Lemma overlaid_present iv overlay committed k e : NoDup (ov_key <$> overlay) -> e ∈ overlay -> ov_key e = k ->
  overlaid iv overlay committed k = match ov_value e with None => None | Some v => if in_interval k iv then Some v else committed end.
Proof.
  intros Hn He <-. revert committed. induction overlay as [|e' overlay IH]; intros c; [by apply not_elem_of_nil in He|].
  csimpl in Hn. apply NoDup_cons in Hn as [Hf Hn]. apply elem_of_cons in He as [->|He].
  - unfold overlaid. cbn [fold_left]. rewrite decide_True by done. by apply overlaid_absent.
  - unfold overlaid. cbn [fold_left]. rewrite decide_False; [by apply IH|]. intros E. apply Hf. rewrite <-E. by apply list_elem_of_fmap_2.
Qed.

Lemma overlay_values_nodup m : overlay_ok m -> NoDup (ov_key <$> jm_values m).
Proof.
  intros [Hn Hf]. unfold jm_values, jm_keys in *. induction m as [|[h e] m IH]; csimpl in *; [constructor|].
  apply NoDup_cons in Hn as [Hfresh Hn]. apply Forall_cons in Hf as [[Hh He] Hf]. constructor; [|by apply IH].
  intros (e' & Hk & (p & -> & Hp)%list_elem_of_fmap)%list_elem_of_fmap. apply Hfresh. rewrite Forall_forall in Hf.
  destruct (Hf _ Hp) as [Hh' _]. cbn in Hh. rewrite Hh, Hk, <-Hh'. by apply list_elem_of_fmap_2.
Qed.

(** * Scans see what the transaction sees *)

Section scans.
Context {S : Type} `{!DocStore S} {valid : S -> Prop} `{!DocStoreLaws S valid}.
Context (store : S) (cat : catalog) (base : index_state).
Context (Hcat : catalog_indexed cat) (Hvalid : valid store).

(** The committed state at a snapshot: a scan of an index yields its entries in
    the interval, with their documents. *)
Definition store_indexed (t : Z) : Prop :=
  forall name q iv rows, q_index q ∈ indexesForTable cat name -> scan_query store q t iv = Ok rows ->
    Forall (fun kv => wf_bytes kv.1) rows /\
    forall k v, (k, v) ∈ rows <->
      in_interval k iv = true /\ exists id, base (is_indexId (q_index q)) k = Some id /\ docs_at store t id = Some v.

(** What a query may return. *)
Definition row_of (c : ctx) (idx : index_spec) (iv : interval) (k : bytes) (v : value) : Prop :=
  in_interval k iv = true /\ exists id, indexed (effective store c) idx k id /\ effective store c id = Some v.

Definition scan_rows (c : ctx) (q : query) (iv : interval) : res (list (bytes * value)) :=
  match ctx_pendingIndexOverlay c (is_indexId (q_index q)) with
  | [] => scan_query store q (cx_snapshotTs c) iv
  | overlay => scanWithOverlay store q (cx_snapshotTs c) iv overlay
  end.

Context (c : ctx) (Hx : exact store cat base c) (Hix : store_indexed (cx_snapshotTs c)).
Notation seen := (effective store c).

Lemma rows_functional name q iv rows k v w : q_index q ∈ indexesForTable cat name -> scan_query store q (cx_snapshotTs c) iv = Ok rows ->
  (k, v) ∈ rows -> (k, w) ∈ rows -> v = w.
Proof.
  intros Hq Es Hv Hw. destruct (Hix _ _ _ _ Hq Es) as [_ H]. apply H in Hv as (_ & id & Hb & Hd). apply H in Hw as (_ & id' & Hb' & Hd').
  congruence.
Qed.

Lemma get_row name q iv rows k : q_index q ∈ indexesForTable cat name -> scan_query store q (cx_snapshotTs c) iv = Ok rows ->
  forall v, jm_get rows k = Some v <-> (k, v) ∈ rows.
Proof.
  intros Hq Es v. split; [by apply jm_get_Some_in|]. intros Hin. destruct (jm_get rows k) as [w|] eqn:E.
  - apply jm_get_Some_in in E. f_equal. by eapply rows_functional.
  - apply jm_get_None in E. exfalso. apply E. by apply (list_elem_of_fmap_2 fst _ (k, v)).
Qed.

Lemma indexed_wf name idx k id : idx ∈ indexesForTable cat name -> indexed seen idx k id -> wf_bytes k.
Proof.
  intros _ (Hw & _ & d & Hd & (vs & Hv & Hk)%extractIndexKey_tuple). pose proof (vo_wf _ (ex_view _ _ _ _ Hx) _ _ Hw Hd) as Hwf.
  eapply encodeIndexKey_wf; [|exact Hk]. apply Forall_app. split; [|by apply system_values_wf].
  apply (Forall2_Forall_r _ _ _ _ Hv). apply Forall_forall. intros f _ v. by apply indexed_value_wf.
Qed.

(** A committed entry without staged updates is of a document the transaction
    sees as committed. *)
Lemma untouched_row name idx k id : idx ∈ indexesForTable cat name -> last_update (cx_indexUpdates c) (is_indexId idx) k = None ->
  base (is_indexId idx) k = Some id -> indexed seen idx k id /\ seen id = docs_at store (cx_snapshotTs c) id.
Proof.
  intros Hi Hl Hb. assert (Hind : indexed seen idx k id).
  { apply (ex_rows _ _ _ _ Hx _ _ Hi). by rewrite apply_updates_last, Hl. }
  split; [done|]. unfold effective. destruct (uw_get (cx_staged c) id) as [w|] eqn:E; [|done].
  destruct (ex_updated _ _ _ _ Hx _ _ _ _ Hi Hind ltac:(eauto)) as (u & Hu & H1 & H2).
  destruct (last_update_some _ _ _ _ Hu H1 H2) as [v Hv]. congruence.
Qed.

Lemma untouched_rows name idx k v : idx ∈ indexesForTable cat name -> last_update (cx_indexUpdates c) (is_indexId idx) k = None ->
  (exists id, base (is_indexId idx) k = Some id /\ docs_at store (cx_snapshotTs c) id = Some v) <->
  (exists id, indexed seen idx k id /\ seen id = Some v).
Proof.
  intros Hi Hl. split; intros (id & H1 & H2); exists id.
  - destruct (untouched_row _ _ _ _ Hi Hl H1) as [Hind Hs]. split; [done|]. by rewrite Hs.
  - assert (Hb : base (is_indexId idx) k = Some id).
    { apply (ex_rows _ _ _ _ Hx _ _ Hi) in H1. by rewrite apply_updates_last, Hl in H1. }
    split; [done|]. destruct (untouched_row _ _ _ _ Hi Hl Hb) as [_ Hs]. by rewrite <-Hs.
Qed.

(** What an updated key shows. *)
Lemma touched_rows name idx k v w : idx ∈ indexesForTable cat name -> last_update (cx_indexUpdates c) (is_indexId idx) k = Some w ->
  entry_value (cx_staged c) w = Some v <-> exists id, indexed seen idx k id /\ seen id = Some v.
Proof.
  intros Hi Hl. destruct (last_update_in _ _ _ _ Hl) as (u & Hu & _ & _ & Huv).
  assert (Hr : forall id, indexed seen idx k id <-> match w with IxDeleted => None | IxNonClustered id' => Some id' end = Some id).
  { intros id. rewrite <-(ex_rows _ _ _ _ Hx _ _ Hi k id), apply_updates_last, Hl. by destruct w. }
  destruct w as [|id']; cbn [entry_value].
  - split; [done|]. intros (id & H1 & _). by apply Hr in H1.
  - destruct (ex_staged _ _ _ _ Hx _ _ Hu Huv) as [lw Elw]. rewrite Elw. assert (Hs : seen id' = lw_value lw) by (unfold effective; by rewrite Elw).
    split.
    + intros Hv. exists id'. split; [by apply Hr|congruence].
    + intros (id & H1%Hr & H2). injection H1 as <-. congruence.
Qed.

Lemma scan_rows_spec name q iv out : q_index q ∈ indexesForTable cat name -> scan_rows c q iv = Ok out ->
  rows_sorted (q_order q) out /\ forall k v, (k, v) ∈ out <-> row_of c (q_index q) iv k v.
Proof.
  intros Hi. unfold scan_rows, row_of. set (ix := is_indexId (q_index q)).
  assert (Hkeys : Forall (fun u => wf_bytes (iu_key u)) (cx_indexUpdates c)) by (apply Forall_forall; apply (ex_keys _ _ _ _ Hx)).
  destruct (overlay_map_spec (cx_staged c) ix _ Hkeys) as [Hok Hget].
  change (ctx_pendingIndexOverlay c ix) with (jm_values (overlay_map (cx_staged c) ix (cx_indexUpdates c))).
  set (m := overlay_map (cx_staged c) ix (cx_indexUpdates c)) in *. pose proof (overlay_values_nodup _ Hok) as Hnd.
  destruct (jm_values m) as [|e l] eqn:Em.
  - intros Es. destruct (scan_query_sorted _ _ _ _ _ Hvalid Es) as [Hs _]. split; [done|]. intros k v.
    destruct (Hix _ _ _ _ Hi Es) as [Hw Hr]. rewrite Hr. assert (Hl : forall k, wf_bytes k -> last_update (cx_indexUpdates c) ix k = None).
    { intros k0 Hk0. specialize (Hget k0 Hk0). destruct m; [|done]. cbn in Hget. by destruct (last_update _ _ _). }
    split; intros (Hin & id & H1 & H2); (split; [done|]).
    + assert (Hk : wf_bytes k). { rewrite Forall_forall in Hw. apply (Hw (k, v)), Hr. eauto. }
      apply (untouched_rows _ _ _ _ Hi (Hl _ Hk)). eauto.
    + apply (untouched_rows _ _ _ _ Hi (Hl _ (indexed_wf _ _ _ _ Hi H1))). eauto.
  - rewrite <-Em. intros Eo. assert (Es : exists rows, scan_query store q (cx_snapshotTs c) iv = Ok rows).
    { unfold scanWithOverlay in Eo. destruct (scan_query store q _ iv) as [rows|]; [by exists rows|done]. }
    destruct Es as [rows Es]. destruct (Hix _ _ _ _ Hi Es) as [Hw Hr].
    assert (Hov : Forall (fun o => wf_bytes (ov_key o)) (jm_values m)).
    { destruct Hok as [_ Hf]. unfold jm_values. apply Forall_fmap. eapply Forall_impl; [exact Hf|]. by intros p [_ Hp]. }
    destruct (scanWithOverlay_spec _ _ _ _ _ _ _ Hvalid Es Hw Hov Eo) as [Hsort Hspec]. split; [done|]. intros k v. rewrite Hspec.
    assert (Hcase : wf_bytes k -> overlaid iv (jm_values m) (jm_get rows k) k = Some v <->
      in_interval k iv = true /\ exists id, indexed seen (q_index q) k id /\ seen id = Some v).
    { intros Hk. specialize (Hget k Hk). rewrite <-Em in Hnd. destruct (last_update (cx_indexUpdates c) ix k) as [w|] eqn:El.
      - cbn in Hget. assert (He : OverlayEntry k (entry_value (cx_staged c) w) ∈ jm_values m).
        { apply jm_get_Some_in in Hget. unfold jm_values. by apply (list_elem_of_fmap_2 snd _ (hexKey k, _)). }
        rewrite (overlaid_present _ _ _ _ _ Hnd He eq_refl). cbn [ov_value ov_key]. rewrite <-(touched_rows _ _ _ _ _ Hi El).
        destruct (entry_value (cx_staged c) w) as [x|]; [|split; [done|by intros [_ ?]]].
        destruct (in_interval k iv) eqn:Ei; [split; [intros Hs; by split|by intros [_ ?]]|].
        split; [|by intros [? _]]. intros Hg. apply jm_get_Some_in, Hr in Hg as [Hg _]. congruence.
      - rewrite overlaid_absent.
        + rewrite (get_row _ _ _ _ _ Hi Es), Hr. by rewrite (untouched_rows _ _ _ _ Hi El).
        + intros (o & Ho & (p & -> & Hp)%list_elem_of_fmap)%list_elem_of_fmap. destruct Hok as [Hn Hf]. rewrite Forall_forall in Hf.
          destruct (Hf _ Hp) as [Hh _]. destruct p as [h o]. cbn [fst snd] in Hh, Ho. subst h k.
          cbn [fmap option_fmap option_map] in Hget. pose proof (jm_in_get m _ _ Hn Hp) as Hg. cbn [snd] in Hget. rewrite Hget in Hg. discriminate Hg. }
    split.
    + intros [Hk Ho]. by apply Hcase.
    + intros Hrow. assert (Hk : wf_bytes k) by (destruct Hrow as (_ & id & H1 & _); by eapply indexed_wf). split; [done|]. by apply Hcase.
Qed.
End scans.

(** * Collecting *)

Definition passes_b (filters : list filter_expr) (v : value) : bool := match passes filters v with Ok b => b | Throw _ => false end.

(** What a limit leaves: the code tests it after a document was taken, so at
    least one is. *)
Definition upto (limit : option Z) {A} (l : list A) : list A := match limit with None => l | Some n => take (Z.to_nat (Z.max 1 n)) l end.

(** What is still to be taken. *)
Definition more (limit : option Z) (taken : nat) {A} (l : list A) : list A :=
  match limit with None => l | Some n => take (Z.to_nat (Z.max 1 n) - taken) l end.
Lemma more_upto limit {A} (l : list A) : more limit 0 l = upto limit l.
Proof. destruct limit; [|done]. cbn [more upto]. by rewrite Nat.sub_0_r. Qed.

Definition room (limit : option Z) (taken : nat) : Prop := match limit with None => True | Some n => (taken < Z.to_nat (Z.max 1 n))%nat end.

(** One more document: the limit is reached, or there is room left. *)
Lemma take_one limit taken {A} (v : A) l : room limit taken ->
  if reached limit (S taken) then more limit taken (v :: l) = [v] else room limit (S taken) /\ more limit taken (v :: l) = v :: more limit (S taken) l.
Proof.
  destruct limit as [n|]; [|done]. cbn [reached room more]. intros Hr. destruct (Z.leb_spec n (Z.of_nat (S taken))).
  - replace (Z.to_nat (Z.max 1 n) - taken)%nat with 1%nat by lia. done.
  - split; [lia|]. replace (Z.to_nat (Z.max 1 n) - taken)%nat with (S (Z.to_nat (Z.max 1 n) - S taken))%nat by lia. done.
Qed.

Lemma collect_overlay_upto filters limit rows docs r : room limit (length docs) -> collect_overlay filters limit rows docs = Ok r ->
  r = docs ++ more limit (length docs) (List.filter (passes_b filters) rows.*2).
Proof.
  revert docs. induction rows as [|[k v] rows IH]; intros docs Hr; cbn [collect_overlay].
  { intros [= <-]. destruct limit; cbn [more fmap list_fmap List.filter]; by rewrite ?take_nil, app_nil_r. }
  csimpl. unfold passes_b at 1. destruct (passes filters v) as [b|]; [|done]. rewrite bind_Ok. destruct b; [|by apply IH]. cbv zeta.
  pose proof (take_one limit (length docs) v (List.filter (passes_b filters) rows.*2) Hr) as Ht. rewrite length_app, Nat.add_1_r.
  destruct (reached limit (S (length docs))); [intros [= <-]; by rewrite Ht|]. destruct Ht as [Hroom ->].
  intros H. apply IH in H; rewrite length_app, Nat.add_1_r in *; [|done]. by rewrite H, <-app_assoc.
Qed.

Lemma collect_loop_upto filters limit rows docs ls r : room limit (length docs) -> collect_loop filters limit rows docs ls = Ok r ->
  r.1.1 = docs ++ more limit (length docs) (List.filter (passes_b filters) rows.*2) /\ (limit = None -> r.2 = false).
Proof.
  revert docs ls. induction rows as [|[k v] rows IH]; intros docs ls Hr; cbn [collect_loop].
  { intros [= <-]. split; [|done]. destruct limit; cbn [more fmap list_fmap List.filter fst]; by rewrite ?take_nil, app_nil_r. }
  csimpl. unfold passes_b at 1. destruct (passes filters v) as [b|]; [|done]. rewrite bind_Ok. destruct b; [|by apply IH]. cbv zeta.
  pose proof (take_one limit (length docs) v (List.filter (passes_b filters) rows.*2) Hr) as Ht. rewrite length_app, Nat.add_1_r.
  destruct (reached limit (S (length docs))) eqn:Er; [intros [= <-]; split; [by rewrite Ht|by intros ->]|]. destruct Ht as [Hroom ->].
  intros H. apply IH in H; rewrite length_app, Nat.add_1_r in *; [|done]. destruct H as [-> H]. by rewrite <-app_assoc.
Qed.

Section collect.
Context {S : Type} `{!DocStore S} (store : S).

Lemma collect_rows c q overlay r : overlay = ctx_pendingIndexOverlay c (is_indexId (q_index q)) ->
  collect store q (cx_snapshotTs c) overlay = Ok r ->
  exists iv rows, buildIndexInterval (is_fields (q_index q)) (q_range q) = Ok iv /\ scan_rows store c q iv = Ok rows /\
    cr_documents r = upto (q_limit q) (List.filter (passes_b (q_filters q)) (rows.*2)) /\
    (q_limit q = None -> rs_toArray (cr_readSet r) = [interval_range (q_index q) iv]).
Proof.
  intros ->. unfold collect, scan_rows. intros (iv & Hiv & H)%bind_res_ok. exists iv.
  assert (Hroom : room (q_limit q) (length (@nil value))) by (destruct (q_limit q); [cbn; lia|done]).
  destruct (ctx_pendingIndexOverlay c (is_indexId (q_index q))) as [|e l]; apply bind_res_ok in H as (rows & Hr & H); exists rows;
    (split; [done|]); (split; [done|]).
  - apply bind_res_ok in H as ([[d ls] hit] & Hc & H). apply collect_loop_upto in Hc as [Hd Hh]; [|done].
    cbn [fst snd] in Hd, Hh. injection H as <-. cbn [cr_documents cr_readSet]. rewrite Hd, more_upto, app_nil_l.
    split; [done|]. intros Hl. by rewrite (Hh Hl).
  - apply bind_res_ok in H as (d & Hc & [= <-]). apply collect_overlay_upto in Hc; [|done]. cbn [cr_documents cr_readSet].
    rewrite Hc, more_upto, app_nil_l. split; [done|]. by intros _.
Qed.

(** A collect in an exact transaction. *)
Lemma collected_rows {valid : S -> Prop} `{!DocStoreLaws S valid} cat base c name q result :
  valid store -> exact store cat base c -> store_indexed store cat base (cx_snapshotTs c) ->
  q_index q ∈ indexesForTable cat name ->
  collect store q (cx_snapshotTs c) (ctx_pendingIndexOverlay c (is_indexId (q_index q))) = Ok result ->
  exists iv rows,
    buildIndexInterval (is_fields (q_index q)) (q_range q) = Ok iv /\ rows_sorted (q_order q) rows /\
    (forall key d, (key, d) ∈ rows <-> row_of store c (q_index q) iv key d) /\
    cr_documents result = upto (q_limit q) (List.filter (passes_b (q_filters q)) rows.*2) /\
    (q_limit q = None -> rs_toArray (cr_readSet result) = [interval_range (q_index q) iv]).
Proof.
  intros Hv Hx Hix Hi Hc. destruct (collect_rows c q _ result eq_refl Hc) as (iv & rows & Hiv & Hrows & Hd & Hr).
  destruct (scan_rows_spec store cat base Hv c Hx Hix _ _ _ _ Hi Hrows) as [Hs Hspec]. by exists iv, rows.
Qed.
End collect.

(** * The query call *)

Section query.
#[local] Open Scope stm_scope.
Context {S : Type} `{!DocStore S} {valid : S -> Prop} `{!DocStoreLaws S valid} {G : Type} `{!GlobalStore G} {R : Type}.
Context (store : S) (gstore : G) (kc : kernel_ctx) (po : policy_ops R) (base : index_state).
Context (Hcat : catalog_indexed (kc_catalog kc)) (Hvalid : valid store) (Hpo : policies_keep calm po).

(** The filter the read policy of the table resolves to in this state. *)
Definition policy_filter (table : jsstr) (k : kst R) (e : option filter_expr) : Prop :=
  match read_policy kc po table with None => e = None | Some m => exists k1, m k = (k1, Ok e) end.

Lemma merge_policy_ok table q k k' q' : merge_policy kc po table q k = (k', Ok q') ->
  exists e, policy_filter table k e /\ q' = with_filters q (mergeReadPolicy (q_filters q) e) /\ same_writes (ks_txn k) (ks_txn k').
Proof.
  intros H. assert (Hq : same_writes (ks_txn k) (ks_txn k')).
  { pose proof (quiet_merge_policy calm kc po Hpo table q k) as Hm. by rewrite H in Hm. }
  revert H. unfold merge_policy, policy_filter. destruct (read_policy kc po table) as [m|].
  - intros (k1 & e & Hm & [-> <-]%ret_ok)%bind_ok. exists e. split_and!; [by exists k1|done|done].
  - intros [-> <-]%ret_ok. exists None. split_and!; [done|by destruct q|done].
Qed.

(** The query call over any store whose scans show its committed entries. *)
Lemma query_visible spec k k' docs token index :
  getIndex (kc_catalog kc) (full_name kc (qs_table spec)) (qs_index spec) = Some index ->
  table_global kc (full_name kc (qs_table spec)) = false ->
  exact store (kc_catalog kc) base (ks_txn k) -> store_indexed store (kc_catalog kc) base (snapshotTs k) ->
  handleDbQuery store gstore kc po spec k = (k', Ok (AnsDocs docs token)) ->
  exists q e iv rows,
    query_of spec index = Ok q /\ policy_filter (full_name kc (qs_table spec)) k e /\
    buildIndexInterval (is_fields index) (q_range q) = Ok iv /\
    rows_sorted (q_order q) rows /\
    (forall key d, (key, d) ∈ rows <-> row_of store (ks_txn k) index iv key d) /\
    traverse convexToJson (upto (qs_limit spec) (List.filter (passes_b (mergeReadPolicy (q_filters q) e)) rows.*2)) = Ok docs.
Proof.
  intros Hi Hg Hx Hix H. unfold handleDbQuery in H.
  apply bind_ok in H as (k1 & ti & [-> Hti]%lift_ok & H). unfold find_index in Hti. rewrite Hi in Hti. injection Hti as <-. rewrite Hg in H.
  apply bind_ok in H as (k2 & u & [-> _]%lift_ok & H). apply bind_ok in H as (k3 & uq & [-> Huq]%lift_ok & H).
  assert (Hq : q_index uq = index /\ q_limit uq = qs_limit spec).
  { unfold query_of in Huq. by apply bind_res_ok in Huq as (r & _ & (f & _ & [= <-])%bind_res_ok). }
  destruct Hq as [Hq Hlim].
  apply bind_ok in H as (k4 & q & (e & He & -> & Hs)%merge_policy_ok & H).
  apply bind_ok in H as (k5 & overlay & Hov & H). injection Hov as <- Hov.
  apply bind_ok in H as (k6 & t & Ht & H). injection Ht as <- Ht.
  apply bind_ok in H as (k7 & result & [-> Hcol]%lift_ok & H).
  apply bind_ok in H as (k8 & u8 & _ & H). apply bind_ok in H as (k9 & dj & [-> Hdj]%lift_ok & H).
  assert (Hdocs : dj = docs).
  { destruct (traced kc); [|by apply ret_ok in H as [_ [= -> _]]].
    apply bind_ok in H as (k10 & tk & _ & H). apply bind_ok in H as (k11 & u11 & _ & H). by apply ret_ok in H as [_ [= -> _]]. }
  subst dj t. pose proof (exact_same _ _ _ _ _ Hs Hx) as Hx'.
  assert (Hsnap : cx_snapshotTs (ks_txn k4) = snapshotTs k) by (by destruct Hs as (_ & _ & -> & _)).
  change (snapshotTs k4) with (cx_snapshotTs (ks_txn k4)) in Hcol. rewrite <-Hsnap in Hix.
  destruct (collected_rows store (kc_catalog kc) base (ks_txn k4) (full_name kc (qs_table spec))
    (with_filters uq (mergeReadPolicy (q_filters uq) e)) result Hvalid Hx' Hix) as (iv & rows & Hiv & Hsort & Hspec & Hd & _);
    cbn [with_filters q_index q_range q_filters q_order q_limit] in *; rewrite ?Hq, ?Hlim in *.
  { by apply (ci_listed _ Hcat _ _ _ Hi). }
  { by rewrite Hov. }
  exists uq, e, iv, rows. split_and!; [done|done|done|exact Hsort| |by rewrite <-Hd].
  intros key d. rewrite Hspec. unfold row_of. by rewrite (seen_same store _ _ Hs).
Qed.
End query.

(** * The index rows of the SQLite store *)

Section sqlite.
#[local] Open Scope stm_scope.

(** The newest row of an index at a key, and the document it points to. *)
Definition row_pointer (r : index_row) : option doc_id :=
  match ir_internal_id r, ir_table_id r with
  | Some iid, Some tid =>
      if ir_deleted r =? 1 then None else match decodeStorageTableId tid with Ok tn => Some (DocId tn iid) | Throw _ => None end
  | _, _ => None
  end.
Definition committed_rows (s : sqlite_store) (t : Z) : index_state := fun ix k =>
  match base.filter (fun r => ir_key r = k) (index_rows_at (db_indexes (ss_db s)) ix t (Interval [] None)) with
  | r :: _ => row_pointer r
  | [] => None
  end.

(** The keys of the index rows are bytes. *)
Definition keys_wf (s : sqlite_store) : Prop := Forall (fun r => wf_bytes (ir_key r)) (db_indexes (ss_db s)).

Lemma in_whole k : in_interval k (Interval [] None) = true.
Proof. unfold in_interval. cbn [iv_start iv_end lt_end]. by destruct k. Qed.

Lemma committed_row s t ix r iv : store_valid s -> r ∈ index_rows_at (db_indexes (ss_db s)) ix t iv -> committed_rows s t ix (ir_key r) = row_pointer r.
Proof.
  intros Hv Hr. assert (Hw : r ∈ index_rows_at (db_indexes (ss_db s)) ix t (Interval [] None)).
  { apply index_rows_at_spec in Hr as (H1 & H2 & _ & H4 & H5). apply index_rows_at_spec. split_and!; [done|done|apply in_whole|done|done]. }
  unfold committed_rows. destruct (base.filter _ _) as [|r' l] eqn:E.
  - exfalso. apply (not_elem_of_nil r). rewrite <-E. by apply list_elem_of_filter.
  - assert (Hin : r' ∈ base.filter (fun r0 => ir_key r0 = ir_key r) (index_rows_at (db_indexes (ss_db s)) ix t (Interval [] None))) by (rewrite E; left).
    apply list_elem_of_filter in Hin as [Hk Hin]. f_equal.
    apply (NoDup_fmap_inj ir_key (index_rows_at (db_indexes (ss_db s)) ix t (Interval [] None))); [|done|done|done]. apply index_rows_at_keys, Hv.
Qed.

(** A scan shows the newest rows at the snapshot, with their documents. *)
Lemma sqlite_indexed s cat t : store_valid s -> keys_wf s -> store_indexed s cat (committed_rows s t) t.
Proof.
  intros Hv Hw name q iv rows _ Hs. unfold scan_query in Hs.
  destruct (ds_index_scan s _ _ t iv (q_order q) None) as [out|] eqn:E; [|done]. injection Hs as <-.
  change (sq_index_scan s (is_indexId (q_index q)) (encodeStorageTableId (is_tableNumber (q_index q))) t iv (q_order q) None = Ok out) in E.
  unfold sq_index_scan in E. apply yield_rows_spec in E as [Hout _].
  assert (Hkeyed : forall k v, (k, v) ∈ keyed out <-> exists r d, r ∈ index_rows_at (db_indexes (ss_db s)) (is_indexId (q_index q)) t iv /\
    yields s t r (k, d) /\ v = rd_value (ld_value d)).
  { intros k v. unfold keyed. rewrite list_elem_of_fmap. split.
    - intros ([k0 d] & [= -> ->] & Hin). apply Hout in Hin as (r & Hr & Hy). rewrite js_sort_perm in Hr. by exists r, d.
    - intros (r & d & Hr & Hy & ->). exists (k, d). split; [done|]. apply Hout. exists r. split; [by rewrite js_sort_perm|done]. }
  split.
  - apply Forall_forall. intros [k v] (r & d & Hr & (tid & iid & tn & _ & _ & _ & _ & _ & Hk) & _)%Hkeyed. cbn [fst] in Hk |- *. subst k.
    apply index_rows_at_spec in Hr as (Hr & _). unfold keys_wf in Hw. rewrite Forall_forall in Hw. by apply Hw.
  - intros k v. rewrite Hkeyed. split.
    + intros (r & d & Hr & (tid & iid & tn & Ht & Hi & Hd & Hn & Hg & Hk) & ->). cbn [fst snd] in Hk, Hg. subst k.
      split; [by apply index_rows_at_spec in Hr as (_ & _ & ? & _)|]. exists (DocId tn iid). rewrite (committed_row s t _ r iv Hv Hr).
      unfold row_pointer, docs_at. rewrite Ht, Hi, Hn. rewrite (proj2 (Z.eqb_neq _ _) Hd). split; [done|].
      change (ds_get s (DocId tn iid) (Some t)) with (sq_get s (DocId tn iid) (Some t)). by rewrite Hg.
    + intros (Hiv & id & Hb & Hd). unfold committed_rows in Hb.
      destruct (base.filter _ _) as [|r l] eqn:E; [done|].
      assert (Hin : r ∈ base.filter (fun r0 => ir_key r0 = k) (index_rows_at (db_indexes (ss_db s)) (is_indexId (q_index q)) t (Interval [] None))) by (rewrite E; left).
      apply list_elem_of_filter in Hin as [<- Hin]. unfold row_pointer in Hb.
      destruct (ir_internal_id r) as [iid|] eqn:Ei, (ir_table_id r) as [tid|] eqn:Et; try done.
      destruct (Z.eqb_spec (ir_deleted r) 1) as [?|Hne]; [done|]. destruct (decodeStorageTableId tid) as [tn|] eqn:En; [|done]. injection Hb as <-.
      unfold docs_at in Hd. change (ds_get s (DocId tn iid) (Some t)) with (sq_get s (DocId tn iid) (Some t)) in Hd.
      destruct (sq_get s (DocId tn iid) (Some t)) as [[d|]|] eqn:Eg; try done. injection Hd as <-. exists r, d. split_and!; [|by exists tid, iid, tn|done].
      apply index_rows_at_spec in Hin as (H1 & H2 & _ & H4 & H5). apply index_rows_at_spec. by split_and!.
Qed.

Context {G : Type} `{!GlobalStore G} {R : Type}.
Context (store : sqlite_store) (gstore : G) (kc : kernel_ctx) (po : policy_ops R).
Context (Hcat : catalog_indexed (kc_catalog kc)) (Hvalid : store_valid store) (Hkeys : keys_wf store) (Hpo : policies_keep calm po).

End sqlite.
