(* ===== verification/Guest.v ===== *)
(** User functions and the API they call: packages/executor/src/guest.ts.

    A function is the tree of the calls it makes, on one of the channels it was
    given; it sees every answer, errors included.  What crosses a channel is
    text, so a number loses the sign of its zero. *)
From Stdlib Require Import ZArith Lia.
From stdpp Require Import base list sets strings.
From S2P Require Import Prelude JsBase JsText Float64 Values ValuesJson KeyRanges IdCodec DocStore Query QueryRuntime StateRes Catalog Policy Transactor Kernel.

Inductive guest (C A : Type) :=
  | GReturn (x : A)
  | GThrow (e : js_error)
  | GCall (ch : C) (c : syscall) (k : res answer -> guest C A)
  | GRandom (k : float64 -> guest C A).
Arguments GReturn {C A}.
Arguments GThrow {C A}.
Arguments GCall {C A}.
Arguments GRandom {C A}.

Fixpoint gbind {C A B} (m : guest C A) (f : A -> guest C B) : guest C B :=
  match m with
  | GReturn x => f x
  | GThrow e => GThrow e
  | GCall ch c k => GCall ch c (fun r => gbind (k r) f)
  | GRandom k => GRandom (fun x => gbind (k x) f)
  end.
Definition glift {C A} (r : res A) : guest C A := match r with Ok x => GReturn x | Throw e => GThrow e end.

(** [JSON.parse(JSON.stringify(j))]. *)
Fixpoint json_wire (j : json) : json :=
  match j with
  | JNumber n => JNumber (if num_is_neg_zero n then num_zero else n)
  | JArray xs => JArray (json_wire <$> xs)
  | JObject fs => JObject ((fun kv => (kv.1, json_wire kv.2)) <$> fs)
  | _ => j
  end.

(** [JSON.stringify(convexToJson(v))] read back on the other side. *)
Definition to_wire (v : value) : res json := json_wire <$> convexToJson v.
Definition of_wire (j : json) : res value := jsonToConvex (json_wire j).

(** * GuestDatabaseReader, GuestDatabaseWriter *)

Section api.
Context {C : Type} (ch : C).

Definition call (c : syscall) : guest C answer := GCall ch c glift.

Definition db_get (id : jsstr) : guest C (option value) :=
  gbind (call (SysGet id)) (fun a =>
    match a with
    | AnsDoc (Some JNull) | AnsDoc None => GReturn None
    | AnsDoc (Some j) => gbind (glift (of_wire j)) (fun v => GReturn (Some v))
    | _ => GThrow TypeError
    end).

Definition db_insert (table : jsstr) (v : value) : guest C jsstr :=
  gbind (glift (to_wire v)) (fun j => gbind (call (SysInsert table j)) (fun a =>
    match a with AnsId id => GReturn id | _ => GThrow TypeError end)).

Definition db_replace (id : jsstr) (v : value) : guest C unit :=
  gbind (glift (to_wire v)) (fun j => gbind (call (SysReplace id j)) (fun _ => GReturn tt)).

Definition db_delete (id : jsstr) : guest C unit := gbind (call (SysDelete id)) (fun _ => GReturn tt).
End api.

(** * QueryBuilder *)

Record query_builder := QueryBuilder
  { qb_table : jsstr; qb_index : jsstr; qb_range : list (jsstr * query_operator * value);
    qb_filters : list (comparison_op * jsstr * value); qb_orderDir : order; qb_limitN : option Z }.

Definition db_query (table index : jsstr) : query_builder := QueryBuilder table index [] [] Asc None.

Definition qb_constrain (op : query_operator) (field : jsstr) (v : value) (q : query_builder) : query_builder :=
  QueryBuilder (qb_table q) (qb_index q) (qb_range q ++ [(field, op, v)]) (qb_filters q) (qb_orderDir q) (qb_limitN q).
Definition qb_eq := qb_constrain QEq.
Definition qb_gt := qb_constrain QGt.
Definition qb_gte := qb_constrain QGte.
Definition qb_lt := qb_constrain QLt.
Definition qb_lte := qb_constrain QLte.
Definition qb_order (dir : order) (q : query_builder) : query_builder :=
  QueryBuilder (qb_table q) (qb_index q) (qb_range q) (qb_filters q) dir (qb_limitN q).
Definition qb_where (op : comparison_op) (field : jsstr) (v : value) (q : query_builder) : query_builder :=
  QueryBuilder (qb_table q) (qb_index q) (qb_range q) (qb_filters q ++ [(op, field, v)]) (qb_orderDir q) (qb_limitN q).
Definition qb_take (n : Z) (q : query_builder) : query_builder :=
  QueryBuilder (qb_table q) (qb_index q) (qb_range q) (qb_filters q) (qb_orderDir q) (Some n).

Definition wire_entry {A} (e : A * value) : res (A * json) := j ← to_wire e.2; Ok (e.1, j).

Definition serializeQuery (q : query_builder) : res query_spec :=
  range ← traverse wire_entry (qb_range q);
  filters ← traverse wire_entry (qb_filters q);
  Ok (QuerySpec (qb_table q) (qb_index q) (Some range) (Some (qb_orderDir q)) (Some filters) (qb_limitN q)).

Section scans.
Context {C : Type} (ch : C).

(** The documents, and the brand of the array when there is one. *)
Definition qb_collect (q : query_builder) : guest C (list value * option jsstr) :=
  gbind (glift (serializeQuery q)) (fun spec => gbind (call ch (SysQuery spec)) (fun a =>
    match a with
    | AnsDocs docs token => gbind (glift (traverse of_wire docs)) (fun vs => GReturn (vs, token))
    | _ => GThrow TypeError
    end)).

Record page_result := PageResult
  { pgr_page : list value; pgr_nextCursor : option jsstr; pgr_hasMore : bool; pgr_scanCapped : bool; pgr_brand : option jsstr }.

Definition qb_paginate (q : query_builder) (cursor : option jsstr) (pageSize : Z) (maxScan : option Z) : guest C page_result :=
  gbind (glift (serializeQuery q)) (fun spec => gbind (call ch (SysPaginate spec cursor pageSize maxScan)) (fun a =>
    match a with
    | AnsPage page next more capped token =>
        gbind (glift (traverse of_wire page)) (fun vs => GReturn (PageResult vs next more capped token))
    | _ => GThrow TypeError
    end)).
End scans.

(** * Running a function *)

Section run.
#[local] Open Scope stm_scope.
Context {C R : Type} (handle : C -> syscall -> stm (kst R) answer) (random : stm (kst R) float64).

(** The answer of a call, error included, goes back to the function. *)
Definition try_call {A} (m : stm (kst R) A) : stm (kst R) (res A) := fun k => let '(k', r) := m k in (k', Ok r).

Fixpoint run_guest {A} (g : guest C A) : stm (kst R) A :=
  match g with
  | GReturn x => ret x
  | GThrow e => lift (Throw e)
  | GCall ch c k => let* r := try_call (handle ch c) in run_guest (k r)
  | GRandom k => let* x := random in run_guest (k x)
  end.

Lemma run_guest_bind {A B} (m : guest C A) (f : A -> guest C B) k :
  run_guest (gbind m f) k = bind (run_guest m) (fun x => run_guest (f x)) k.
Proof.
  revert k. induction m as [x|e|ch c kk IH|kk IH]; intros k; cbn [gbind run_guest]; try done; unfold bind.
  - destruct (try_call (handle ch c) k) as [k1 [r|e]]; [|done]. apply IH.
  - destruct (random k) as [k1 [r|e]]; [|done]. apply IH.
Qed.

(** A relation every call keeps is kept by the whole function. *)
Lemma run_guest_keeps {A} (P : kst R -> kst R -> Prop) `{!Reflexive P, !Transitive P} (g : guest C A) :
  (forall ch c, keeps P (handle ch c)) -> keeps P random -> keeps P (run_guest g).
Proof.
  intros Hh Hr. induction g as [x|e|ch c k IH|k IH]; cbn [run_guest].
  - by apply keeps_ret.
  - by apply keeps_lift.
  - apply keeps_bind; [done| |done]. intros s. unfold try_call. specialize (Hh ch c s). by destruct (handle ch c s).
  - by apply keeps_bind.
Qed.
End run.
