(* ===== verification/Executor.v ===== *)
(** Running one function: packages/executor/src/executor.ts and the parts of
    functions.ts it reads.  An attempt runs the function in a transaction
    context; what happens after it depends on whether the transaction commits,
    which is the business of the transactor.

    What holds of every call a run makes holds of the run: relations on states
    are lifted from the kernel's handlers through facades, policies and the
    rule context to a whole attempt.

    What a whole run can write, whatever its handler does and whatever errors
    it catches: only documents that the context it wrote them through allows. *)
From Stdlib Require Import ZArith Lia.
From stdpp Require Import base list sets strings.
From S2P Require Import Prelude JsBase JsText Float64 Values ValuesJson Validators KeyRanges IdCodec Sharding JumpHash DocStore Query QueryRuntime StateRes Catalog Policy Transactor Kernel KernelWrites Guest.

(** * Functions and options *)

(** What a handler returns: a value, and the brand when it is the very object a
    collect or a page returned (whose contents the handler may have changed);
    or the sentinel that commits and then throws. *)
Inductive handler_result :=
  | HValue (v : value) (brand : option jsstr)
  | HCommitThenThrow (message : jsstr).

(** The channels of a function: its own, and one for each component facade.
    Policies have those of their providers, and a plain reader. *)
Inductive main_channel := ChMain | ChFacade (i : nat).
Inductive rule_channel := ChProvider (i : nat) | ChRuleFacade (i : nat) | ChRuleDb.

Inductive shard_by := ShardByArg (name : jsstr) | ShardByFn (f : value -> res (option value)).

Record registered_function := RegisteredFunction
  { rf_type : udf_type; rf_argsValidator : option validator; rf_shardBy : option shard_by;
    rf_handler : value -> Z -> guest main_channel handler_result }.

(** A component's facade: its name, its tables, and whether it may write. *)
Record context_provider := ContextProvider { cp_name : jsstr; cp_namespace : jsstr; cp_write : bool }.

Record table_policy (RC : Type) := TablePolicy
  { tp_read : option (RC -> guest rule_channel policy_predicate); tp_write : option (RC -> value -> guest rule_channel bool) }.
Arguments TablePolicy {RC}.
Arguments tp_read {RC}.
Arguments tp_write {RC}.

(** [build] of all policy providers, merged; none when there is no provider. *)
Record udf_options (RC : Type) := UdfOptions
  { uo_seed : Z; uo_namespace : jsstr; uo_privileged : bool; uo_contextProviders : list context_provider;
    uo_policyProviders : list jsstr; uo_buildRules : option (guest rule_channel RC);
    uo_policyRegistry : list (jsstr * table_policy RC); uo_relationRegistry : relation_registry;
    uo_numShards : option Z; uo_localOnly : bool; uo_shardId : option jsstr }.
Arguments UdfOptions {RC}.
Arguments uo_seed {RC}.
Arguments uo_namespace {RC}.
Arguments uo_privileged {RC}.
Arguments uo_contextProviders {RC}.
Arguments uo_policyProviders {RC}.
Arguments uo_buildRules {RC}.
Arguments uo_policyRegistry {RC}.
Arguments uo_relationRegistry {RC}.
Arguments uo_numShards {RC}.
Arguments uo_localOnly {RC}.
Arguments uo_shardId {RC}.

(** What an attempt keeps beside the kernel's state: the generator, and the
    memoized rule context. *)
Record run_state (RC : Type) := RunState { rs_random : Z; rs_rules : option (res RC) }.
Arguments RunState {RC}.
Arguments rs_random {RC}.
Arguments rs_rules {RC}.

(** * Before the transaction *)

Definition ArgumentValidationError : js_error := PlainError "ARGUMENT_VALIDATION".

Definition check_args (fn : registered_function) (args : value) : res unit :=
  match rf_type fn, rf_argsValidator fn with
  | UHttpAction, _ | _, None => Ok tt
  | _, Some va => match validate va args with [] => Ok tt | _ => Throw ArgumentValidationError end
  end.

(** [args?.[name]]. *)
Definition arg_of (args : value) (name : jsstr) : option value := row_field args name.

(** The shard of the run, and whether the mutation declared it. *)
Definition resolve_shard {RC} (fn : registered_function) (args : value) (o : udf_options RC) : res (jsstr * bool) :=
  let numShards := default 1 (uo_numShards o) in
  match rf_type fn, rf_shardBy fn with
  | UMutation, Some by_ =>
      key ← match by_ with
            | ShardByArg name => Ok (arg_of args name)
            | ShardByFn f => match f args with Ok v => Ok v | Throw _ => Throw (PlainError "shardBy resolver threw") end
            end;
      sh ← shardIdForKeyValue key numShards;
      Ok (sh, true)
  | _, _ =>
      Ok (match uo_shardId o with Some sh => if uo_privileged o then sh else DEFAULT_SHARD | None => DEFAULT_SHARD end, false)
  end.

(** Only a mutation is forwarded, to the node that owns its shard. *)
Definition must_forward {RC} (fn : registered_function) (o : udf_options RC) (isLocalWriter : option (jsstr -> bool)) (shardId : jsstr) : bool :=
  match rf_type fn, isLocalWriter with
  | UMutation, Some owns => negb (uo_localOnly o) && negb (owns shardId)
  | _, _ => false
  end.

(** * One attempt *)

Definition reserved_keys : list jsstr := [js "db"; js "random"; js "now"].

(** [name in guestCtx]: the keys set so far, and what every object inherits. *)
Definition in_guestCtx (seen : list jsstr) (name : jsstr) : bool :=
  bool_decide (name ∈ seen) || bool_decide (name ∈ prototype_functions) || bool_decide (name = proto_key).

(** A facade may not take the name of a built-in key or of another facade. *)
Fixpoint providers_ok (seen : list jsstr) (ps : list context_provider) : res unit :=
  match ps with
  | [] => Ok tt
  | p :: ps' => if in_guestCtx seen (cp_name p) then Throw (PlainError "context provider collides") else providers_ok (seen ++ [cp_name p]) ps'
  end.

Section attempt.
#[local] Open Scope stm_scope.
Context {S : Type} `{DocStore S} {G : Type} `{GlobalStore G} {RC : Type}.
Context (store : S) (gstore : G) (freshId : nat -> bytes) (cat : catalog) (o : udf_options RC)
        (fn : registered_function) (shardId : jsstr) (declared : bool).
Notation M := (stm (kst (run_state RC))).

Definition numShards_of : Z := default 1 (uo_numShards o).

(** The base context: no policies, nothing traced. *)
Definition base_ctx (profile : udf_profile) (ns : jsstr) (privileged : bool) : kernel_ctx :=
  KernelCtx profile cat ns privileged shardId numShards_of declared false false.

Definition main_ctx : kernel_ctx :=
  KernelCtx (profileFor (rf_type fn)) cat (uo_namespace o) (uo_privileged o) shardId numShards_of declared true
    (bool_decide (rf_type fn = UQuery) || bool_decide (rf_type fn = UMutation)).

Definition facade_ctx (p : context_provider) : kernel_ctx :=
  base_ctx (profileFor (if cp_write p && bool_decide (rf_type fn = UMutation) then UMutation else UQuery)) (cp_namespace p) false.

Definition handle_facade (i : nat) (c : syscall) : M answer :=
  match uo_contextProviders o !! i with
  | Some p => dispatch store gstore freshId (facade_ctx p) no_policies c
  | None => fail TypeError
  end.

(** The calls of policies and of their providers. *)
Definition handle_rule (ch : rule_channel) (c : syscall) : M answer :=
  match ch with
  | ChProvider i =>
      match uo_policyProviders o !! i with
      | Some ns => dispatch store gstore freshId (base_ctx QUERY_PROFILE ns false) no_policies c
      | None => fail TypeError
      end
  | ChRuleFacade i => handle_facade i c
  | ChRuleDb => dispatch store gstore freshId (base_ctx QUERY_PROFILE (uo_namespace o) (uo_privileged o)) no_policies c
  end.

Definition next_random : M float64 := fun k =>
  let '(a, x) := sr_next (rs_random (ks_rest k)) in (set_rest k (RunState a (rs_rules (ks_rest k))), Ok x).

Definition run_rule {A} (g : guest rule_channel A) : M A := run_guest handle_rule next_random g.

(** Built on the first policy that asks for it; an error is remembered too. *)
Definition getRuleContext (build : guest rule_channel RC) : M RC := fun k =>
  match rs_rules (ks_rest k) with
  | Some r => (k, r)
  | None => let '(k', r) := run_rule build k in (set_rest k' (RunState (rs_random (ks_rest k')) (Some r)), r)
  end.

(** [rc.db.query(table, "by_creation").collect()]. *)
Definition rule_rows (table : jsstr) : M (list value) :=
  run_rule (gbind (qb_collect ChRuleDb (db_query table (js "by_creation"))) (fun r => GReturn r.1)).

(** [resolveReadPolicy]. *)
Definition resolve_read (build : guest rule_channel RC) (f : RC -> guest rule_channel policy_predicate) (table : jsstr) : M (option filter_expr) :=
  let* rc := getRuleContext build in
  let* w := run_rule (f rc) in
  resolveWhere (uo_relationRegistry o) rule_rows w table 0.

Definition run_policies : policy_ops (run_state RC) :=
  match uo_buildRules o with
  | None => no_policies
  | Some build =>
      PolicyOps
        (fun table => f ← (p ← jm_get (uo_policyRegistry o) table; tp_read p); Some (resolve_read build f table))
        (fun table => f ← (p ← jm_get (uo_policyRegistry o) table; tp_write p);
           Some (fun row => let* rc := getRuleContext build in run_rule (f rc row)))
  end.

Definition handle_main (ch : main_channel) (c : syscall) : M answer :=
  match ch with
  | ChMain => dispatch store gstore freshId main_ctx run_policies c
  | ChFacade i => handle_facade i c
  end.

(** What an attempt hands to the transactor. *)
Record attempt_value := AttemptValue
  { av_result : handler_result; av_logs : list jsstr; av_readRanges : list key_range; av_globalTables : list jsstr;
    av_collectTrace : list collect_trace; av_paginateTrace : list paginate_trace; av_globalOps : list global_op }.

Definition attempt_start (hasGlobal : bool) (tokenSeq : Z) (txn : ctx) : kst (run_state RC) :=
  Kst txn [] (if hasGlobal then Some gt_new else None) false false [] [] [] tokenSeq 0
    (RunState (createSeededRandom (uo_seed o)) None).

Definition attempt_result (r : handler_result) (k : kst (run_state RC)) : attempt_value :=
  AttemptValue r (ks_logs k) (rs_toArray (cx_reads (ks_txn k))) (ks_globalReads k) (ks_collectTrace k) (ks_paginateTrace k)
    (match ks_globalTxn k with Some g => gt_ops g | None => [] end).

Definition attempt (args : value) (now : Z) : M attempt_value :=
  lift (providers_ok reserved_keys (uo_contextProviders o));;
  let* r := run_guest handle_main next_random (rf_handler fn args now) in
  gets (attempt_result r).
End attempt.

(** * After the transaction *)

Record diffable_range := DiffableRange
  { df_keyspace : jsstr; df_bounds : serialized_range; df_filters : list filter_expr; df_order : order; df_fields : list jsstr }.
Record diffable_page := DiffablePage
  { dp_range : diffable_range; dp_nextCursor : option jsstr; dp_hasMore : bool; dp_scanCapped : bool }.

(** The run's whole read set is the one range of the trace. *)
Definition sole_read (ks : jsstr) (ranges : list key_range) : bool :=
  match ranges with [r] => bool_decide (kr_keyspace r = ks) | _ => false end.

Definition is_array (v : value) : bool := match v with VArray _ => true | _ => false end.
Definition is_object (v : value) : bool := match v with VObject _ | VBytes _ => true | _ => false end.

Definition classifyDiffableRange (r : handler_result) (trace : list collect_trace) (ranges : list key_range) : option diffable_range :=
  match r, trace with
  | HValue v brand, [t] =>
      if ctr_hadReadPolicy t || ctr_hadLimit t || negb (sole_read (ctr_keyspace t) ranges) || negb (is_array v)
         || negb (bool_decide (brand = Some (ctr_token t)))
      then None
      else Some (DiffableRange (ctr_keyspace t) (ctr_bounds t) (ctr_filters t) (ctr_order t) (ctr_fields t))
  | _, _ => None
  end.

Definition classifyDiffablePage (r : handler_result) (trace : list paginate_trace) (ranges : list key_range) : option diffable_page :=
  match r, trace with
  | HValue v brand, [t] =>
      if ptr_hadReadPolicy t || ptr_scanCapped t || negb (sole_read (ptr_keyspace t) ranges) || negb (is_object v)
         || negb (bool_decide (brand = Some (ptr_token t)))
      then None
      else Some (DiffablePage (DiffableRange (ptr_keyspace t) (ptr_bounds t) (ptr_filters t) (ptr_order t) (ptr_fields t))
                   (ptr_nextCursor t) (ptr_hasMore t) (ptr_scanCapped t))
  | _, _ => None
  end.

Record udf_result := UdfResult
  { ur_value : value; ur_logs : list jsstr; ur_committed : bool; ur_commitTs : Z; ur_readRanges : list key_range;
    ur_globalTables : list jsstr; ur_oplog : option oplog_delta; ur_diffableRange : option diffable_range;
    ur_diffablePage : option diffable_page }.

(** How a run ends for its caller.  An error thrown after the commit carries its
    timestamp ([COMMITTED_TS_ERROR_KEY]). *)
Inductive run_outcome := RunOk (r : udf_result) | RunThrew (e : js_error) (committedTs : option Z).

Section finish.
Context {G : Type} `{GlobalStore G}.

(** The global writes go out as one batch once the transaction has resolved;
    then the sentinel throws. *)
Definition finish_run (t : udf_type) (gstore : G) (c : commit_result attempt_value) : G * run_outcome :=
  let av := co_value c in
  match match av_globalOps av with [] => Ok gstore | ops => gs_commitBatch gstore ops end with
  | Throw e => (gstore, RunThrew e None)
  | Ok gstore' =>
      match av_result av with
      | HCommitThenThrow m => (gstore', RunThrew (PlainError "commit then throw") (Some (co_commitTs c)))
      | HValue v brand =>
          let q := bool_decide (t = UQuery) in
          (gstore', RunOk (UdfResult v (av_logs av) (co_committed c) (co_commitTs c) (av_readRanges av) (av_globalTables av) (co_oplog c)
             (if q then classifyDiffableRange (av_result av) (av_collectTrace av) (av_readRanges av) else None)
             (if q then classifyDiffablePage (av_result av) (av_paginateTrace av) (av_readRanges av) else None)))
      end
  end.
End finish.

(** * Actions *)

Inductive call_kind := KQuery | KMutation | KAction.
#[global] Instance call_kind_eq_dec : EqDecision call_kind.
Proof. solve_decision. Defined.

(** An action is the tree of the functions it invokes.  [invoke] starts a run
    of its own and changes the state [E] of the world. *)
Inductive action_prog (A : Type) :=
  | AReturn (x : A)
  | AThrow (e : js_error)
  | AInvoke (kind : call_kind) (path : jsstr) (args : value) (k : res value -> action_prog A).
Arguments AReturn {A}.
Arguments AThrow {A}.
Arguments AInvoke {A}.

Section actions.
Context {E : Type} (invoke : E -> jsstr -> json -> E * res (value * Z)).

(** [max] is the latest commit seen, reported as the action's own. *)
Fixpoint runActionFn {A} (p : action_prog A) (max : Z) (e : E) : E * res (A * Z) :=
  match p with
  | AReturn x => (e, Ok (x, max))
  | AThrow err => (e, Throw err)
  | AInvoke kind path args k =>
      match convexToJson args with
      | Throw err => runActionFn (k (Throw err)) max e
      | Ok j =>
          match invoke e path j with
          | (e', Throw err) => runActionFn (k (Throw err)) max e'
          | (e', Ok (v, ts)) =>
              runActionFn (k (Ok v)) (if negb (bool_decide (kind = KQuery)) && (max <? ts) then ts else max) e'
          end
      end
  end.
End actions.

Section run.
#[local] Open Scope stm_scope.
Context {S : Type} `{!DocStore S} {G : Type} `{!GlobalStore G} {RC : Type}.
Context (store : S) (gstore : G) (freshId : nat -> bytes) (cat : catalog) (o : udf_options RC)
        (fn : registered_function) (shardId : jsstr) (declared : bool).

Notation policies := (run_policies store gstore freshId cat o fn shardId declared).
Context (Q : kst (run_state RC) -> kst (run_state RC) -> Prop) `{!Absorbs Q}.

(** A facade is a kernel context like another. *)
Lemma facade_keeps :
  (forall p c, p ∈ uo_contextProviders o -> keeps Q (dispatch store gstore freshId (facade_ctx cat o fn shardId declared p) no_policies c)) ->
  forall i c, keeps Q (handle_facade store gstore freshId cat o fn shardId declared i c).
Proof.
  intros H i c. unfold handle_facade. destruct (uo_contextProviders o !! i) as [p|] eqn:E; [|apply quiet_lift, _].
  apply H. by eapply list_elem_of_lookup_2.
Qed.

Context (Hfacade : forall i c, keeps Q (handle_facade store gstore freshId cat o fn shardId declared i c)).
Context (Hreader : forall ns pr c, keeps Q (dispatch store gstore freshId (base_ctx cat o shardId declared QUERY_PROFILE ns pr) no_policies c)).

Lemma rule_keeps ch c : keeps Q (handle_rule store gstore freshId cat o fn shardId declared ch c).
Proof.
  destruct ch as [i|i|]; cbn [handle_rule]; [|apply Hfacade|apply Hreader].
  destruct (uo_policyProviders o !! i); [apply Hreader|apply quiet_lift, _].
Qed.

Lemma next_random_keeps : keeps Q (next_random (RC := RC)).
Proof. apply quiet_step_fun; [apply _|]. intros k. unfold next_random. by destruct (sr_next _). Qed.

Lemma run_rule_keeps {A} (g : guest rule_channel A) :
  keeps Q (run_rule store gstore freshId cat o fn shardId declared g).
Proof. apply run_guest_keeps; [apply _..|apply rule_keeps|apply next_random_keeps]. Qed.

Lemma set_rest_quiet (k : kst (run_state RC)) r : Q k (set_rest k r).
Proof. by apply ab_quiet, quiet_same. Qed.

Lemma getRuleContext_keeps b : keeps Q (getRuleContext store gstore freshId cat o fn shardId declared b).
Proof.
  intros k. unfold getRuleContext. destruct (rs_rules (ks_rest k)); [done|].
  pose proof (run_rule_keeps b k) as H. destruct (run_rule _ _ _ _ _ _ _ _ b k) as [k' r].
  etrans; [exact H|apply set_rest_quiet].
Qed.

Lemma run_policies_keep : policies_keep Q policies.
Proof.
  unfold run_policies. destruct (uo_buildRules o) as [b|]; [|apply no_policies_keep]. split; cbn.
  - intros t m Hm. apply bind_Some in Hm as (f & Hf & [= <-]). unfold resolve_read.
    apply quiet_bind; [apply _|apply getRuleContext_keeps|]. intros rc.
    apply quiet_bind; [apply _|apply run_rule_keeps|]. intros w.
    apply resolveWhere_keeps; [apply _..|]. intros t'. apply run_rule_keeps.
  - intros t f v Hf. apply bind_Some in Hf as (g & Hg & [= <-]).
    apply quiet_bind; [apply _|apply getRuleContext_keeps|]. intros rc. apply run_rule_keeps.
Qed.

Lemma main_keeps ch c :
  (forall c, keeps Q (dispatch store gstore freshId (main_ctx cat o fn shardId declared) policies c)) ->
  keeps Q (handle_main store gstore freshId cat o fn shardId declared ch c).
Proof. intros Hm. destruct ch as [|i]; cbn [handle_main]; [apply Hm|apply Hfacade]. Qed.

Lemma attempt_keeps args now :
  (forall c, keeps Q (dispatch store gstore freshId (main_ctx cat o fn shardId declared) policies c)) ->
  keeps Q (attempt store gstore freshId cat o fn shardId declared args now).
Proof.
  intros Hm. unfold attempt. apply quiet_bind; [apply _|apply quiet_lift, _|]. intros _.
  apply quiet_bind; [apply _| |intros; apply quiet_gets, _].
  apply run_guest_keeps; [apply _..|intros ch c; by apply main_keeps|apply next_random_keeps].
Qed.
End run.

Section run.
#[local] Open Scope stm_scope.
Context {S : Type} `{!DocStore S} {G : Type} `{!GlobalStore G} {RC : Type}.
Context (store : S) (gstore : G) (freshId : nat -> bytes) (cat : catalog) (o : udf_options RC)
        (fn : registered_function) (shardId : jsstr) (declared : bool).

Notation main := (main_ctx cat o fn shardId declared).
Notation facade := (facade_ctx cat o fn shardId declared).
Notation policies := (run_policies store gstore freshId cat o fn shardId declared).

(** The writes a run may stage: allowed in the context of the function itself,
    or in that of one of its component facades. *)
Definition run_allowed (id : doc_id) (v : option value) : Prop :=
  exists meta,
    write_allowed main policies id v meta \/
    exists p, p ∈ uo_contextProviders o /\ write_allowed (R := run_state RC) (facade p) no_policies id v meta.

Context (Hcat : catalog_agrees cat) (Hids : random_ids freshId).

Lemma query_never_writes ns pr po id v meta :
  ~ write_allowed (R := run_state RC) (base_ctx cat o shardId declared QUERY_PROFILE ns pr) po id v meta.
Proof. by intros []. Qed.

Lemma facade_allowed i c : keeps (stages run_allowed) (handle_facade store gstore freshId cat o fn shardId declared i c).
Proof.
  apply facade_keeps; [apply _|]. intros p c' Hp. apply stages_dispatch; [done|done| |apply no_policies_keep].
  intros id v meta H. exists meta. right. by exists p.
Qed.

Lemma reader_allowed ns pr c :
  keeps (stages (R := run_state RC) run_allowed) (dispatch store gstore freshId (base_ctx cat o shardId declared QUERY_PROFILE ns pr) no_policies c).
Proof. apply stages_dispatch; [done|done|by intros ? ? ? ?%query_never_writes|apply no_policies_keep]. Qed.

Lemma attempt_allowed args now : keeps (stages run_allowed) (attempt store gstore freshId cat o fn shardId declared args now).
Proof.
  apply attempt_keeps; [apply _|apply facade_allowed|]. intros c.
  apply stages_dispatch; [done|done| |apply run_policies_keep; [apply _|apply facade_allowed|apply reader_allowed]].
  intros id v meta H. exists meta. by left.
Qed.

Lemma main_ctx_write : rf_type fn = UQuery -> forall id v, ~ run_allowed id v.
Proof.
  intros Hq id v (meta & [H|(p & _ & H)]); pose proof (wa_write _ _ _ _ _ H) as Hw; cbn in Hw; rewrite Hq in Hw.
  - done.
  - by rewrite andb_comm in Hw.
Qed.

End run.
