(* ===== verification/DiffableRanges.v ===== *)
(** Queries a client may be kept up to date by row diffs: what the executor
    records about such a run is what the differ later relies on. *)
From Stdlib Require Import ZArith Lia Sorted.
From stdpp Require Import base list sets strings.
From S2P Require Import Prelude JsBase JsText Float64 Values ValuesJson Validators KeyCodec KeyRanges IdCodec Sharding JumpHash DocStore SqliteDocStore Query QueryRuntime StateRes Catalog Policy Transactor Kernel KernelWrites IndexIntegrity QueryResults Guest Executor.

(** * Calls that only read *)

Section reading.
#[local] Open Scope stm_scope.
Context {S : Type} `{!DocStore S} {G : Type} `{!GlobalStore G} {R : Type}.
Context (Q : kst R -> kst R -> Prop) `{!Absorbs Q}.
Context (store : S) (gstore : G) (freshId : nat -> bytes) (kc : kernel_ctx) (po : policy_ops R) (Hpo : policies_keep Q po).
Context (Hread : uc_dbWrite (up_capabilities (kc_profile kc)) = false).

Lemma no_capability {A} (f : unit -> stm (kst R) A) :
  keeps Q (bind (check (uc_dbWrite (up_capabilities (kc_profile kc))) ForbiddenOperationError) f).
Proof. rewrite Hread. intros k. apply ab_refl. Qed.

(** Without the write capability only queries do anything. *)
Lemma read_dispatch c : (forall spec, keeps Q (handleDbQuery store gstore kc po spec)) -> keeps Q (dispatch store gstore freshId kc po c).
Proof.
  intros Hq. destruct c; cbn [dispatch]; try apply no_capability; [| apply Hq | | |].
  - by apply quiet_handleDbGet.
  - by apply quiet_handleDbPaginate.
  - unfold handleConsoleLog. repeat quiet_step.
  - apply quiet_lift, _.
Qed.

(** Untraced queries record nothing but reads. *)
Lemma quiet_untraced spec : kc_traced kc = false -> keeps Q (handleDbQuery store gstore kc po spec).
Proof.
  intros Ht. unfold handleDbQuery, query_global, overlay_of, traced. rewrite Ht. cbn [andb]. repeat quiet_step.
Qed.
End reading.

(** * Traces *)

Section traces.
#[local] Open Scope stm_scope.
Context {S : Type} `{!DocStore S} {valid : S -> Prop} `{!DocStoreLaws S valid} {G : Type} `{!GlobalStore G} {R : Type}.
Context (store : S) (gstore : G) (freshId : nat -> bytes) (cat : catalog) (base : index_state) (c0 : ctx).
Context (Hcat : catalog_indexed cat) (Hvalid : valid store).
Context (Hx : exact store cat base c0) (Hix : store_indexed store cat base (cx_snapshotTs c0)).

(** The documents of a trace are those its range selects in the snapshot. *)
Definition trace_selects (t : collect_trace) (r : key_range) : Prop :=
  exists name idx iv rows, idx ∈ indexesForTable cat name /\ ctr_fields t = is_fields idx /\ r = interval_range idx iv /\
    rows_sorted (ctr_order t) rows /\
    (forall key d, (key, d) ∈ rows <-> row_of store c0 idx iv key d) /\
    traverse convexToJson (List.filter (passes_b (ctr_filters t)) rows.*2) = Ok (ctr_docs t).

(** A trace describes a range that was read. *)
Definition trace_ok (c : ctx) (t : collect_trace) : Prop :=
  exists r, ctr_keyspace t = kr_keyspace r /\ ctr_bounds t = serializeKeyRange r /\ r ∈ rs_toArray (cx_reads c) /\
    (ctr_hadReadPolicy t = false -> ctr_hadLimit t = false -> trace_selects t r).

Definition tracing (k : kst R) : Prop :=
  same_writes c0 (ks_txn k) /\ rs_wf (cx_reads (ks_txn k)) /\ Forall (trace_ok (ks_txn k)) (ks_collectTrace k).

(** Traces stay true. *)
Definition traces_kept (k k' : kst R) : Prop := tracing k -> tracing k'.
#[global] Instance traces_refl : Reflexive traces_kept.
Proof. intros k Hk. exact Hk. Qed.
#[global] Instance traces_trans : Transitive traces_kept.
Proof. intros a b c H1 H2 H. by apply H2, H1. Qed.

Lemma trace_grow c c' t : rs_wf (cx_reads c) -> reads_grow c c' -> trace_ok c t -> trace_ok c' t.
Proof. intros Hw Hg (r & H1 & H2 & H3 & H4). exists r. split_and!; [done|done|by apply Hg|done]. Qed.

#[global] Instance traces_absorb : Absorbs traces_kept.
Proof.
  split; [apply _..|]. intros k k' (Hs & Hg & Ht) (H1 & H2 & H3). destruct (Hg H2) as [H4 _].
  split_and!; [by etrans|done|]. rewrite Ht. eapply Forall_impl; [exact H3|]. intros t. by apply trace_grow.
Qed.

(** One step of a handler, up to the trace. *)
Lemma after_quiet {A B} (m : stm (kst R) A) (f : A -> stm (kst R) B) k :
  keeps quiet m -> tracing k -> (forall k1 x, m k = (k1, Ok x) -> tracing k1 -> tracing (f x k1).1) -> tracing (bind m f k).1.
Proof.
  intros Hm Hk Hf. specialize (Hm k). unfold bind. destruct (m k) as [k1 [x|e]]; cbn in *.
  - apply (Hf k1); [done|]. by eapply (ab_quiet (Q := traces_kept)).
  - by eapply (ab_quiet (Q := traces_kept)).
Qed.
Lemma after_lift {A B} (r : res A) (f : A -> stm (kst R) B) k :
  tracing k -> (forall x, r = Ok x -> tracing (f x k).1) -> tracing (bind (lift r) f k).1.
Proof. intros Hk Hf. apply after_quiet; [apply quiet_lift, _|done|]. intros k1 x [= <- ->] _. by apply Hf. Qed.

Lemma recorded kc m rs k k' u : rs_wf (cx_reads (ks_txn k)) -> recordScanReads (R := R) kc m rs k = (k', Ok u) ->
  forall r, r ∈ rs -> r ∈ rs_toArray (cx_reads (ks_txn k')).
Proof.
  unfold recordScanReads. set (b := _ && _). intros Hw. revert k Hw. induction rs as [|x rs IH]; intros k Hw H r Hr; [by apply not_elem_of_nil in Hr|].
  cbn [for_each] in H. apply bind_ok in H as (k1 & [] & E1 & H).
  assert (H1 : cx_reads (ks_txn k1) = rs_add (cx_reads (ks_txn k)) x) by (injection E1 as <-; by destruct b).
  apply elem_of_cons in Hr as [->|Hr]; [|by eapply IH; [rewrite H1; apply rs_wf_add|..]].
  assert (Hg : quiet k1 k').
  { assert (Hq : keeps quiet (for_each (S := kst R) rs (record_scan b))) by (apply quiet_each; [apply _|intros; apply quiet_record_scan, _]).
    specialize (Hq k1). by rewrite H in Hq. }
  apply Hg; rewrite H1; [by apply rs_wf_add|]. apply rs_add_elem; auto.
Qed.

Context (kc : kernel_ctx) (po : policy_ops R) (Hkc : kc_catalog kc = cat) (Hpo : policies_keep quiet po).

Lemma query_of_index spec index q : query_of spec index = Ok q -> q_index q = index /\ q_limit q = qs_limit spec.
Proof. unfold query_of. by intros (r & _ & (f & _ & [= <-])%bind_res_ok)%bind_res_ok. Qed.

(** The query a table without read policy runs is the user's. *)
Lemma merge_policy_none table q k k' q' : merge_policy kc po table q k = (k', Ok q') -> hadReadPolicy kc po table = false -> q' = q.
Proof.
  unfold merge_policy, hadReadPolicy. destruct (read_policy kc po table); [done|]. by intros [_ ->]%ret_ok.
Qed.
Lemma merge_policy_index table q k k' q' : merge_policy kc po table q k = (k', Ok q') -> q_index q' = q_index q.
Proof.
  unfold merge_policy. destruct (read_policy kc po table); [|by intros [_ ->]%ret_ok].
  by intros (k1 & e & _ & [_ <-]%ret_ok)%bind_ok.
Qed.

(** A trace of what has been collected. *)
Lemma push_kept k index u had docs ranges token :
  (forall r, r ∈ ranges -> r ∈ rs_toArray (cx_reads (ks_txn k))) ->
  (forall r t, ranges = [r] -> had = false -> q_limit u = None -> ctr_fields t = is_fields index -> ctr_order t = q_order u ->
     ctr_filters t = q_filters u -> ctr_docs t = docs -> trace_selects t r) ->
  length ranges = 1%nat -> tracing k ->
  tracing (push_collect_trace index u had docs ranges token k).1.
Proof.
  intros Hin Hsel Hlen (H1 & H2 & H3). unfold push_collect_trace. destruct ranges as [|r [|]]; try done.
  destruct (base.filter (fun r => is_index_range r = true) [r]) as [|r' [|]] eqn:E; [done| |done].
  assert (r' = r) as ->. { assert (H : r' ∈ [r']) by left. rewrite <-E in H. apply list_elem_of_filter in H as [_ H]. set_solver. }
  split_and!; [done|done|]. cbn [ks_collectTrace set_traces fst modify]. apply Forall_app. split; [done|]. constructor; [|done].
  exists r. cbn [ctr_keyspace ctr_bounds]. split_and!; [done|done|apply Hin; set_solver|]. cbn [ctr_hadReadPolicy ctr_hadLimit].
  intros Hh Hl. eapply (Hsel r); try done. by destruct (q_limit u).
Qed.

Lemma collect_one_range q t ov r : collect store q t ov = Ok r -> length (rs_toArray (cr_readSet r)) = 1%nat.
Proof.
  unfold collect. intros (iv & _ & H)%bind_res_ok. destruct ov.
  - apply bind_res_ok in H as (rows & _ & H). by apply bind_res_ok in H as ([[d ls] h] & _ & [= <-]).
  - apply bind_res_ok in H as (rows & _ & H). by apply bind_res_ok in H as (d & _ & [= <-]).
Qed.

(** A query of the function itself: the trace it adds is true. *)
Lemma query_traced spec : keeps traces_kept (handleDbQuery store gstore kc po spec).
Proof.
  intros k Hk. unfold handleDbQuery. apply after_lift; [done|]. intros [table index] Hti.
  unfold find_index in Hti. destruct (getIndex _ _ _) as [i|] eqn:Ei; [|done]. injection Hti as <- <-. rewrite Hkc in Ei.
  set (table := full_name kc (qs_table spec)) in *.
  destruct (table_global kc table).
  { assert (Hq : keeps quiet (query_global gstore kc po spec table)) by (unfold query_global; repeat quiet_step).
    exact (keeps_absorbs traces_kept _ Hq k Hk). }
  apply after_lift; [done|]. intros _ _. apply after_lift; [done|]. intros u [Hqi Hql]%query_of_index.
  apply after_quiet; [eauto with kernel|done|]. intros k1 q Hm Hk1.
  apply after_quiet; [apply quiet_gets, _|done|]. intros k2 ov [= <- Hov] _.
  apply after_quiet; [apply quiet_gets, _|done|]. intros k2 t [= <- Ht] _.
  apply after_lift; [done|]. intros result Hc. apply after_quiet; [eauto with kernel|done|]. intros k2 u2 Hrec Hk2.
  apply after_lift; [done|]. intros docs Hd. destruct (traced kc); [|done].
  apply after_quiet; [eauto with kernel|done|]. intros k3 token [= <- <-] Hk3.
  match goal with |- tracing (bind ?m ?f ?k).1 => assert (Hp : tracing (m k).1); [|unfold bind; by destruct (m k) as [k4 [[]|]]] end.
  apply push_kept; [exact (recorded _ _ _ _ _ _ (proj1 (proj2 Hk1)) Hrec)| |by eapply collect_one_range|done].
  intros r t' Hr Hh Hl Hf Ho Hfs Hdc. rewrite (merge_policy_none _ _ _ _ _ Hm Hh) in Hc. destruct Hk1 as (Hs & _ & _).
  subst ov t. rewrite <-Hqi in Hc.
  destruct (collected_rows store cat base (ks_txn k1) table u result Hvalid (exact_same _ _ _ _ _ Hs Hx)) as (iv & rows & Hiv & Hsort & Hrows & Hdocs & Hranges).
  { by destruct Hs as (_ & _ & -> & _). }
  { rewrite Hqi. by apply (ci_listed _ Hcat _ _ _ Ei). }
  { exact Hc. }
  rewrite (Hranges Hl) in Hr. injection Hr as <-. rewrite Hl in Hdocs. cbn [upto] in Hdocs. exists table, (q_index u), iv, rows. rewrite Ho, Hfs, Hdc, <-Hdocs. rewrite Hqi in *.
  split_and!; [by apply (ci_listed _ Hcat _ _ _ Ei)|done|done|done| |done].
  intros key d. rewrite Hrows. unfold row_of. by rewrite (seen_same store _ _ Hs).
Qed.
End traces.

(** * Answers with a brand *)

Section brands.
#[local] Open Scope stm_scope.
Context {S : Type} `{!DocStore S} {G : Type} `{!GlobalStore G} {R : Type}.

Definition traced_docs (k : kst R) : list (jsstr * list json) := (fun t => (ctr_token t, ctr_docs t)) <$> ks_collectTrace k.

(** Traces stay on record. *)
Definition traces_grow (k k' : kst R) : Prop := traced_docs k ⊆ traced_docs k'.
#[global] Instance traces_grow_absorb : Absorbs traces_grow.
Proof.
  split; [by intros k x Hx|by intros a b c H1 H2 x Hx; apply H2, H1|]. intros k k' (_ & _ & H) x. unfold traced_docs. by rewrite H.
Qed.

(** What a call answers when it succeeds. *)
Definition answers {A} (m : stm (kst R) A) (P : kst R -> A -> Prop) : Prop := forall k k' x, m k = (k', Ok x) -> P k' x.
Lemma answers_bind {A B} (m : stm (kst R) A) (f : A -> stm (kst R) B) P : (forall x, answers (f x) P) -> answers (bind m f) P.
Proof. intros H k k' y (k1 & x & _ & E)%bind_ok. by eapply H. Qed.
Lemma answers_ret {A} (x : A) (P : kst R -> A -> Prop) : (forall k, P k x) -> answers (ret x) P.
Proof. intros H k k' y [-> <-]%ret_ok. apply H. Qed.
Lemma answers_fail {A} e (P : kst R -> A -> Prop) : answers (lift (Throw e)) P.
Proof. by intros k k' y [_ E]%lift_ok. Qed.

Definition branded (r : res answer) : list (jsstr * list json) := match r with Ok (AnsDocs docs (Some token)) => [(token, docs)] | _ => [] end.

(** Every brand that was answered is that of a trace, with its documents. *)
Definition brand_traced (k : kst R) (a : answer) : Prop := branded (Ok a) ⊆ traced_docs k.

Context (store : S) (gstore : G) (freshId : nat -> bytes) (kc : kernel_ctx) (po : policy_ops R).

Ltac plain := repeat first [apply answers_bind; intros ?|apply answers_ret; intros ?; apply list_subseteq_nil|apply answers_fail|case_match].

Lemma collect_index_range q t ov r : collect store q t ov = Ok r -> exists x, rs_toArray (cr_readSet r) = [x] /\ is_index_range x = true.
Proof.
  assert (Hk : forall x, kr_keyspace x = index_keyspace (q_index q) -> is_index_range x = true).
  { intros x E. unfold is_index_range. by rewrite E. }
  unfold collect. intros (iv & _ & H)%bind_res_ok. destruct ov.
  - apply bind_res_ok in H as (rows & _ & H). apply bind_res_ok in H as ([[d ls] h] & _ & [= <-]). eexists. split; [reflexivity|]. apply Hk.
    destruct h; [|done]. unfold consumedRange. by destruct ls, (q_order q).
  - apply bind_res_ok in H as (rows & _ & H). apply bind_res_ok in H as (d & _ & [= <-]). eexists. split; [reflexivity|]. by apply Hk.
Qed.

Lemma push_traced index u had docs ranges x token : ranges = [x] -> is_index_range x = true ->
  answers (push_collect_trace (R := R) index u had docs ranges token) (fun k _ => (token, docs) ∈ traced_docs k).
Proof.
  intros -> Hx k k' y. unfold push_collect_trace. rewrite filter_cons_True by done. intros [= <- _].
  unfold traced_docs. cbn [set_traces ks_collectTrace]. rewrite fmap_app. apply elem_of_app. right. left.
Qed.

Lemma query_branded spec : answers (handleDbQuery store gstore kc po spec) brand_traced.
Proof.
  unfold handleDbQuery. apply answers_bind. intros [table index]. case_match; [unfold query_global; plain|].
  do 5 (apply answers_bind; intros ?). intros k k' a (k1 & result & [-> Hc]%lift_ok & Hm)%bind_ok.
  apply bind_ok in Hm as (k2 & u & _ & Hm). apply bind_ok in Hm as (k3 & docs & _ & Hm). destruct (traced kc); [|apply ret_ok in Hm as [_ <-]; apply list_subseteq_nil].
  apply bind_ok in Hm as (k4 & token & _ & Hm). apply bind_ok in Hm as (k5 & u5 & Hp & [-> <-]%ret_ok).
  destruct (collect_index_range _ _ _ _ Hc) as (r & Er & Hr). apply (push_traced _ _ _ _ _ r) in Hp; [|done|done].
  by intros p ->%list_elem_of_singleton.
Qed.

(** The calls of a context that may not write, and only queries of a traced one
    answer with a brand. *)
Lemma dispatch_branded c : uc_dbWrite (up_capabilities (kc_profile kc)) = false -> answers (dispatch store gstore freshId kc po c) brand_traced.
Proof.
  intros Hw. destruct c; cbn [dispatch].
  - unfold handleDbGet. plain.
  - unfold handleDbInsert. rewrite Hw. plain.
  - unfold handleDbReplace. rewrite Hw. plain.
  - unfold handleDbDelete. rewrite Hw. plain.
  - apply query_branded.
  - unfold handleDbPaginate. plain.
  - unfold handleConsoleLog. plain.
  - apply answers_fail.
Qed.

Lemma query_grows spec : policies_keep traces_grow po -> keeps traces_grow (handleDbQuery store gstore kc po spec).
Proof.
  intros Hpo. assert (Hpush : forall index u had docs ranges token, keeps traces_grow (push_collect_trace (R := R) index u had docs ranges token)).
  { intros index u had docs ranges token k. unfold push_collect_trace. destruct (base.filter _ ranges) as [|r [|]]; [done| |done].
    unfold traces_grow, traced_docs. cbn [modify fst set_traces ks_collectTrace]. rewrite fmap_app. apply list_subseteq_app_l. done. }
  unfold handleDbQuery, query_global, overlay_of. repeat first [apply Hpush|quiet_step].
Qed.
End brands.

(** ** Handlers that return what they collected

    The brand is a property of the array [collect] returned; a handler can copy
    or drop the array, and it can also change it in place.  [unchanged seen g]:
    where the function returns a branded array, it returns the values of an
    answer it was given under that brand. *)
Inductive unchanged {C} : list (jsstr * list json) -> guest C handler_result -> Prop :=
  | un_plain seen v : unchanged seen (GReturn (HValue v None))
  | un_array seen token docs vs : (token, docs) ∈ seen -> traverse of_wire docs = Ok vs -> unchanged seen (GReturn (HValue (VArray vs) (Some token)))
  | un_commit seen e : unchanged seen (GReturn (HCommitThenThrow e))
  | un_throw seen e : unchanged seen (GThrow e)
  | un_call seen ch c k : (forall r, unchanged (branded r ++ seen) (k r)) -> unchanged seen (GCall ch c k)
  | un_random seen k : (forall x, unchanged seen (k x)) -> unchanged seen (GRandom k).

Section unchanged.
#[local] Open Scope stm_scope.
Context {R C : Type} (handle : C -> syscall -> stm (kst R) answer) (random : stm (kst R) float64).
Context (Hgrow : forall ch c, keeps traces_grow (handle ch c)) (Hrandom : keeps traces_grow random).
Context (Hbrand : forall ch c, answers (handle ch c) brand_traced).

Lemma unchanged_run seen g k k' v token : unchanged seen g -> seen ⊆ traced_docs k -> run_guest handle random g k = (k', Ok (HValue v (Some token))) ->
  exists docs vs, (token, docs) ∈ traced_docs k' /\ traverse of_wire docs = Ok vs /\ v = VArray vs.
Proof.
  intros Hg. revert k. induction Hg as [seen w|seen token' docs vs Hin Hvs|seen e|seen e|seen ch c kk _ IH|seen kk _ IH]; intros k Hs H; cbn [run_guest] in H.
  - by apply ret_ok in H as [_ [=]].
  - apply ret_ok in H as [-> [= <- <-]]. exists docs, vs. split_and!; [by apply Hs|done|done].
  - by apply ret_ok in H as [_ [=]].
  - by apply lift_ok in H as [_ [=]].
  - apply bind_ok in H as (k1 & r & Hr & H). unfold try_call in Hr. pose proof (Hgrow ch c k) as Hgr. pose proof (Hbrand ch c k) as Hbr.
    destruct (handle ch c k) as [k2 r2]. injection Hr as -> <-. cbn [fst] in Hgr. apply (IH r2 k1); [|done].
    apply list_subseteq_app_iff_l. split; [|by etrans]. destruct r2 as [a|e]; [by apply (Hbr k1 a)|apply list_subseteq_nil].
  - apply bind_ok in H as (k1 & x & Hr & H). pose proof (Hrandom k) as Hgr. rewrite Hr in Hgr. cbn [fst] in Hgr. apply (IH x k1); [by etrans|done].
Qed.
End unchanged.

(** * The whole run *)

Section run.
#[local] Open Scope stm_scope.
Context {S : Type} `{!DocStore S} {valid : S -> Prop} `{!DocStoreLaws S valid} {G : Type} `{!GlobalStore G} {RC : Type}.
Context (store : S) (gstore : G) (freshId : nat -> bytes) (cat : catalog) (o : udf_options RC)
        (fn : registered_function) (shardId : jsstr) (declared : bool) (base : index_state).
Context (Hcat : catalog_indexed cat) (Hvalid : valid store) (Hquery : rf_type fn = UQuery).

Notation policies := (run_policies store gstore freshId cat o fn shardId declared).

Lemma base_quiet profile ns pr c : profile = QUERY_PROFILE ->
  keeps quiet (dispatch (R := run_state RC) store gstore freshId (base_ctx cat o shardId declared profile ns pr) no_policies c).
Proof.
  intros ->. apply read_dispatch; [apply _|apply no_policies_keep|done|]. intros spec.
  by apply quiet_untraced; [apply _|apply no_policies_keep|].
Qed.

Lemma facade_quiet i c : keeps quiet (handle_facade store gstore freshId cat o fn shardId declared i c).
Proof. apply facade_keeps; [apply _|]. intros p c' _. apply base_quiet. rewrite Hquery. by destruct (cp_write p). Qed.

Section traced.
Context (c0 : ctx) (Hx : exact store cat base c0) (Hix : store_indexed store cat base (cx_snapshotTs c0)).

Lemma attempt_traced args now : keeps (traces_kept store cat c0) (attempt store gstore freshId cat o fn shardId declared args now).
Proof.
  assert (Hq : forall {A} (m : stm (kst (run_state RC)) A), keeps quiet m -> keeps (traces_kept store cat c0) m)
    by (intros; by apply keeps_absorbs; [apply _|]).
  apply attempt_keeps; [apply _|intros; by apply Hq, facade_quiet|]. intros c.
  assert (Hpo : policies_keep quiet policies).
  { apply run_policies_keep; [apply _|apply facade_quiet|]. intros. by apply base_quiet. }
  apply read_dispatch; [apply _| | |].
  - split; [intros t m Hm; by apply Hq; eapply (pq_read _ _ Hpo)|intros t f v Hf; by apply Hq; eapply (pq_write _ _ Hpo)].
  - cbn. by rewrite Hquery.
  - by eapply query_traced.
Qed.
End traced.

(** The result of a branded run. *)
Lemma attempt_branded args now k0 k v token : ks_collectTrace k0 = [] -> unchanged [] (rf_handler fn args now) ->
  run_guest (handle_main store gstore freshId cat o fn shardId declared) next_random (rf_handler fn args now) k0 = (k, Ok (HValue v (Some token))) ->
  exists docs vs, (token, docs) ∈ traced_docs k /\ traverse of_wire docs = Ok vs /\ v = VArray vs.
Proof.
  intros H0 Hu. assert (Hfac : forall i c, keeps traces_grow (handle_facade store gstore freshId cat o fn shardId declared i c)).
  { intros i c. apply keeps_absorbs; [apply _|apply facade_quiet]. }
  assert (Hpol : policies_keep traces_grow policies).
  { apply run_policies_keep; [apply _|exact Hfac|]. intros. apply keeps_absorbs; [apply _|by apply base_quiet]. }
  apply unchanged_run with (seen := []); [| | |exact Hu|apply list_subseteq_nil].
  - intros ch c. apply main_keeps; [exact Hfac|]. intros c'. apply read_dispatch; [apply _|exact Hpol|cbn; by rewrite Hquery|].
    intros spec. by apply query_grows.
  - apply next_random_keeps. apply _.
  - intros [|i] c; cbn [handle_main].
    + apply dispatch_branded. cbn. by rewrite Hquery.
    + unfold handle_facade. destruct (uo_contextProviders o !! i) as [p|]; [|apply answers_fail]. apply dispatch_branded. cbn. rewrite Hquery.
      by destruct (cp_write p).
Qed.
End run.

Section sqlite.
#[local] Open Scope stm_scope.
Context {G : Type} `{!GlobalStore G} {RC : Type}.
Context (store : sqlite_store) (gstore : G) (freshId : nat -> bytes) (cat : catalog) (o : udf_options RC)
        (fn : registered_function) (shardId : jsstr) (declared : bool).
Context (Hcat : catalog_indexed cat) (Hvalid : store_valid store) (Hkeys : keys_wf store) (Hquery : rf_type fn = UQuery).

End sqlite.
