(* ===== verification/ExecutorScenarios.v ===== *)
(** Concrete runs: a small application with a policy, a component and a sharded
    table, used to instantiate the theorems about runs and to exhibit the
    corner cases of the kernel. *)
From Stdlib Require Import ZArith Lia.
From stdpp Require Import base list sets strings.
From S2P Require Import Prelude JsBase JsText Float64 Values ValuesJson Validators KeyRanges IdCodec Sharding JumpHash DocStore SqliteDocStore Query QueryRuntime StateRes Catalog Policy Transactor Kernel KernelWrites IndexIntegrity QueryResults Guest Executor DiffableRanges.

(** * The application *)

(** No global store is configured. *)
#[global] Instance no_global : GlobalStore unit := {
  gs_get _ _ _ := Ok None;
  gs_queryByIndex _ _ _ _ _ := Ok [];
  gs_commitBatch _ _ := Ok tt
}.

Definition index_on (table : string) (number : Z) (name : string) (fields : list string) : catalog_call :=
  AddIndex (IndexSpec (js table) number (js name) (js <$> fields) (encodeStorageIndexId number (js name))).

Definition demo_calls : list catalog_call :=
  [AddTable (js "posts") 10001 (Some (JvObject [(js "title", (JvString, false))])) None None false;
   index_on "posts" 10001 "by_creation" ["_creationTime"];
   index_on "posts" 10001 "by_title" ["title"];
   AddTable (js "orders") 10002 None None (Some (js "shop")) false;
   index_on "orders" 10002 "by_shop" ["shop"];
   AddTable (js "audit/notes") 10003 None None None false;
   index_on "audit/notes" 10003 "by_creation" ["_creationTime"];
   AddTable (js "tags") 10004 None None None false;
   index_on "tags" 10004 "by_label" ["label"]].

Definition demo_cat : catalog := Eval vm_compute in match catalog_build catalog_new demo_calls with Ok c => c | Throw _ => catalog_new end.

Lemma demo_cat_agrees : catalog_agrees demo_cat.
Proof.
  assert (Hall : forall name m, getTable demo_cat name = Some m ->
    tm_name m = name /\ getTableByNumber demo_cat (tm_tableNumber m) = Some m /\ 0 <= tm_tableNumber m <= UINT32_MAX).
  { intros name m. unfold getTable, demo_cat. cbn [ct_tables jm_get].
    repeat (case_decide; [intros [= <-]; subst; split_and!; [reflexivity|vm_compute; reflexivity|vm_compute; discriminate..]|]). done. }
  split; intros name m Hm; by destruct (Hall _ _ Hm) as (? & ? & ?).
Qed.

(** A name with one dot has one reading. *)
Lemma one_dot (a b x y : jsstr) : index_name_key a b = x ++ 46 :: y -> 46 ∉ x -> 46 ∉ y -> a = x /\ b = y.
Proof.
  unfold index_name_key. revert x. induction a as [|c a IH]; intros [|d x]; cbn.
  - by intros [= ->].
  - intros [= <- _] Hx. exfalso. apply Hx. left.
  - intros [= _ <-] _ Hy. exfalso. apply Hy. set_solver.
  - intros [= -> E] Hx Hy. destruct (IH x E) as [-> ->]; [set_solver|done|done].
Qed.

Lemma one_dot_split (a b key x y : jsstr) : index_name_key a b = key -> split_first 46 key = Some (x, y) -> bool_decide (46 ∉ y) = true ->
  a = x /\ b = y.
Proof.
  intros E (Hk & Hx)%split_first_Some Hy%bool_decide_eq_true. apply one_dot; [congruence| |done].
  intros Hin. rewrite Forall_forall in Hx. by apply (Hx 46).
Qed.

(** The indexes of a table of the application. *)
Lemma demo_indexes name idx : idx ∈ indexesForTable demo_cat name ->
  exists m, getTable demo_cat name = Some m /\ is_tableNumber idx = tm_tableNumber m /\ is_table idx = name /\
    is_indexId idx = encodeStorageIndexId (is_tableNumber idx) (is_index idx).
Proof.
  unfold indexesForTable, demo_cat. cbn [ct_indexesByTable jm_get].
  repeat (case_decide; [intros Hi; subst; cbn [default from_option] in Hi;
    repeat (apply elem_of_cons in Hi as [->|Hi]; [eexists; split; [reflexivity|]; vm_compute; split_and!; reflexivity|]);
    by apply not_elem_of_nil in Hi|]).
  intros Hi. by apply not_elem_of_nil in Hi.
Qed.

Lemma demo_cat_indexed : catalog_indexed demo_cat.
Proof.
  split.
  - apply demo_cat_agrees.
  - intros n m. unfold getTableByNumber, demo_cat. cbn [ct_tablesByNumber jm_get].
    repeat (case_decide; [intros [= <-]; subst; split; reflexivity|]). done.
  - intros name idx (m & Hm & Hn & _)%demo_indexes. eauto.
  - intros name. unfold indexesForTable, demo_cat. cbn [ct_indexesByTable jm_get].
    repeat (case_decide; [apply (bool_decide_unpack _); vm_compute; exact I|]). constructor.
  - intros name name' idx idx' (m & Hm & Hn & Ht & Hi)%demo_indexes (m' & Hm' & Hn' & Ht' & Hi')%demo_indexes E.
    assert (Hnn : tm_tableNumber m = tm_tableNumber m').
    { rewrite Hi, Hi' in E. pose proof (ca_range _ demo_cat_agrees _ _ Hm). pose proof (ca_range _ demo_cat_agrees _ _ Hm').
      assert (D : decodeStorageIndexId (encodeStorageIndexId (is_tableNumber idx) (is_index idx)) = Ok (is_tableNumber idx, is_index idx))
        by (apply storage_index_roundtrip; lia).
      assert (D' : decodeStorageIndexId (encodeStorageIndexId (is_tableNumber idx') (is_index idx')) = Ok (is_tableNumber idx', is_index idx'))
        by (apply storage_index_roundtrip; lia).
      congruence. }
    pose proof (ca_number _ demo_cat_agrees _ _ Hm) as B. pose proof (ca_number _ demo_cat_agrees _ _ Hm') as B'.
    pose proof (ca_name _ demo_cat_agrees _ _ Hm). pose proof (ca_name _ demo_cat_agrees _ _ Hm'). congruence.
  - intros name index idx. unfold getIndex, demo_cat. cbn [ct_indexes jm_get].
    repeat (case_decide as E; [intros [= <-]; destruct (one_dot_split _ _ _ _ _ E eq_refl eq_refl) as [-> ->]; vm_compute; repeat (first [apply list_elem_of_here|apply list_elem_of_further])|clear E]). done.
Qed.

(** The sixteen bytes of the [n]th random id. *)
Definition demo_ids (n : nat) : bytes := replicate 15 7 ++ [Z.of_nat n mod 256].

Lemma demo_ids_random : random_ids demo_ids.
Proof.
  intros n. split; [reflexivity|]. unfold demo_ids. apply Forall_app. split; [by repeat constructor|].
  constructor; [|constructor]. red. pose proof (Z.mod_pos_bound (Z.of_nat n) 256). lia.
Qed.

(** A post may not be titled "secret"; only published titles are shown. *)
Definition demo_policies : list (jsstr * table_policy unit) :=
  [(js "posts", TablePolicy (Some (fun _ => GReturn (PWhere (VObject [(js "title", VObject [(js "ne", VString (js "draft"))])]))))
     (Some (fun _ row => GReturn match row_field row (js "title") with Some (VString s) => negb (bool_decide (s = js "secret")) | _ => true end)))].

Definition demo_options : udf_options unit :=
  UdfOptions 0 [] false [ContextProvider (js "audit") (js "audit") true] [js "authz"] (Some (GReturn tt)) demo_policies
    (RelationRegistry [] []) (Some 1) false None.

Definition post (title : string) : value := VObject [(js "title", VString (js title))].

Definition demo_fn (t : udf_type) (h : value -> Z -> guest main_channel handler_result) : registered_function :=
  RegisteredFunction t None None h.

Definition demo_run (fn : registered_function) : kst (run_state unit) * res attempt_value :=
  attempt empty_store tt demo_ids demo_cat demo_options fn DEFAULT_SHARD false (VObject []) 0
    (attempt_start demo_options false 0 (ctx_new 0 DEFAULT_SHARD DEFAULT_HEADROOM)).

Lemma demo_run_eq fn :
  attempt empty_store tt demo_ids demo_cat demo_options fn DEFAULT_SHARD false (VObject []) 0
    (attempt_start demo_options false 0 (ctx_new 0 DEFAULT_SHARD DEFAULT_HEADROOM)) = ((demo_run fn).1, (demo_run fn).2).
Proof. apply surjective_pairing. Qed.

(** Publishes a post, tries a forbidden one and goes on, and leaves a note
    through the component. *)
Definition publish : registered_function := demo_fn UMutation (fun _ _ =>
  gbind (db_insert ChMain (js "posts") (post "hello")) (fun id =>
  GCall ChMain (SysInsert (js "posts") (JObject [(js "title", JString (js "secret"))])) (fun _ =>
  gbind (db_insert (ChFacade 0) (js "notes") (post "published")) (fun _ =>
  GReturn (HValue (VString id) None))))).

Notation staged_tables k := ((fun w => tableNumber (lw_id w)) <$> uw_entries (cx_staged (ks_txn k))).

Example publish_staged : staged_tables (demo_run publish).1 = [10001; 10003].
Proof. vm_compute. reflexivity. Qed.

Lemma publish_stages : exists w, w ∈ uw_entries (cx_staged (ks_txn (demo_run publish).1)).
Proof.
  pose proof publish_staged as Hs. destruct (uw_entries _) as [|w l]; [discriminate Hs|].
  exists w. apply list_elem_of_here.
Qed.


(** * Exact transactions *)

Definition no_rows : index_state := fun _ _ => None.

Lemma empty_docs t id : docs_at empty_store t id = None.
Proof. reflexivity. Qed.

Lemma empty_indexed t : store_indexed empty_store demo_cat no_rows t.
Proof.
  intros name q iv rows _ E. assert (rows = []) as -> by (by vm_compute in E; injection E).
  split; [constructor|]. intros k v. split; [by intros ?%not_elem_of_nil|]. by intros (_ & id & ? & _).
Qed.

Lemma start_exact t sh l : exact empty_store demo_cat no_rows (ctx_new t sh l).
Proof.
  split; try (by intros ? ? ?%not_elem_of_nil); try (by intros ? ?%not_elem_of_nil).
  - by split.
  - intros name idx _ k id. split; [done|]. by intros (_ & _ & d & Hd & _).
  - intros name idx k id _ (_ & _ & d & Hd & _). done.
Qed.

Definition demo_kc : kernel_ctx := KernelCtx MUTATION_PROFILE demo_cat [] false DEFAULT_SHARD 1 false true true.
Definition demo_kst : kst unit := Kst (ctx_new 7 DEFAULT_SHARD DEFAULT_HEADROOM) [] None false false [] [] [] 0 0 tt.
Definition hello : json := JObject [(js "title", JString (js "hello"))].

Lemma hello_wf : wf_json hello.
Proof. cbn. split; [|done]. split; apply (bool_decide_unpack _); vm_compute; exact I. Qed.

Lemma demo_unused : unused_id empty_store demo_ids demo_kst.
Proof. intros num. reflexivity. Qed.

Definition demo_insert : kst unit * res answer :=
  dispatch empty_store tt demo_ids demo_kc no_policies (SysInsert (js "posts") hello) demo_kst.

Definition insert_answer : answer := Eval vm_compute in match demo_insert.2 with Ok a => a | Throw _ => AnsUnit end.
Lemma insert_answers : dispatch empty_store tt demo_ids demo_kc no_policies (SysInsert (js "posts") hello) demo_kst =
  (demo_insert.1, Ok insert_answer).
Proof. vm_compute. reflexivity. Qed.

Lemma dispatch_keeps_indexes_witness : exact empty_store demo_cat no_rows (ks_txn demo_insert.1).
Proof.
  exact (dispatch_keeps_indexes empty_store tt demo_ids demo_kc no_policies no_rows demo_cat_indexed demo_ids_random
    (no_policies_keep calm) (SysInsert (js "posts") hello) demo_kst demo_insert.1 insert_answer hello_wf demo_unused
    (start_exact 7 DEFAULT_SHARD DEFAULT_HEADROOM) insert_answers).
Defined.

(** ** A committed document

    A transaction inserts a tag and is committed; the next one starts from the
    store it left. *)
Definition tag (label : string) : json := JObject [(js "label", JString (js label))].
Definition tag_insert : kst unit * res answer :=
  dispatch empty_store tt demo_ids demo_kc no_policies (SysInsert (js "tags") (tag "x")) demo_kst.
Definition tag_answer : answer := Eval vm_compute in match tag_insert.2 with Ok a => a | Throw _ => AnsUnit end.
Definition tag_id : doc_id := DocId 10004 (demo_ids 0).
Definition tag_doc : value := Eval vm_compute in
  match uw_entries (cx_staged (ks_txn tag_insert.1)) with w :: _ => default VNull (lw_value w) | [] => VNull end.
Definition tag_unit : commit_unit :=
  CommitUnit [LogEntry 0 tag_id (Some (ResolvedDocument tag_id tag_doc)) None] (commit_index_writes (ks_txn tag_insert.1)) None.
Definition tagged : sqlite_store := Eval vm_compute in
  match sq_commitWriteBatch empty_store [tag_unit] None with Ok (_, s) => s | Throw _ => empty_store end.

Lemma tag_x_wf : wf_json (tag "x").
Proof. cbn. split; [|done]. split; apply (bool_decide_unpack _); vm_compute; exact I. Qed.
Lemma tag_y_wf : wf_json (tag "y").
Proof. cbn. split; [|done]. split; apply (bool_decide_unpack _); vm_compute; exact I. Qed.

Lemma tagged_commits : sq_commitWriteBatch empty_store [tag_unit] None = Ok ([1], tagged).
Proof. vm_compute. reflexivity. Qed.
(** Its one index row. *)
Definition tag_row : index_row := Eval vm_compute in match db_indexes (ss_db tagged) with r :: _ => r | [] => IndexRow [] [] 0 None None 0 [] end.
Definition tag_index : jsstr := ir_index_id tag_row.
Definition tag_key : bytes := ir_key tag_row.
Lemma tagged_rows : index_rows_at (db_indexes (ss_db tagged)) tag_index 1 (Interval [] None) = [tag_row].
Proof. vm_compute. reflexivity. Qed.
Lemma tag_pointer : row_pointer tag_row = Some tag_id.
Proof. vm_compute. reflexivity. Qed.

Lemma tagged_valid : store_valid tagged.
Proof. exact (commit_valid (S := sqlite_store) (valid := store_valid) empty_store [tag_unit] None [1] tagged empty_store_valid tagged_commits). Qed.
Lemma tagged_keys : keys_wf tagged.
Proof. apply (bool_decide_unpack _). vm_compute. exact I. Qed.

Lemma tag_id_wf : wf_doc_id tag_id.
Proof. split; [vm_compute; split; discriminate|]. destruct (demo_ids_random 0%nat) as [? ?]. by split. Qed.

Lemma tag_inserts : dispatch empty_store tt demo_ids demo_kc no_policies (SysInsert (js "tags") (tag "x")) demo_kst = (tag_insert.1, Ok tag_answer).
Proof. vm_compute. reflexivity. Qed.
Lemma tag_insert_exact : exact empty_store demo_cat no_rows (ks_txn tag_insert.1).
Proof.
  exact (insert_exact empty_store demo_ids demo_kc no_policies no_rows demo_cat_indexed demo_ids_random (no_policies_keep calm)
    (js "tags") (tag "x") demo_kst tag_insert.1 tag_answer tag_x_wf demo_unused (start_exact 7 DEFAULT_SHARD DEFAULT_HEADROOM) tag_inserts).
Qed.

(** Reading the one document of the store. *)
Lemma tagged_get id : wf_doc_id id -> docs_at tagged 1 id = if decide (id = tag_id) then Some tag_doc else None.
Proof.
  intros Hid. case_decide as E; [subst id; vm_compute; reflexivity|]. unfold docs_at.
  change (ds_get tagged id (Some 1)) with (sq_get tagged id (Some 1)). unfold sq_get, newest_revision.
  assert (Hno : of_document (encodeStorageTableId (tableNumber id)) (internalId id) (DocRow (encodeStorageTableId 10004) (demo_ids 0) 1 None None []) = false).
  { apply not_true_is_false. intros H. apply of_document_spec in H as [Ht Hi]. cbn [dr_table_id dr_internal_id] in *. apply E.
    pose proof (storage_table_roundtrip (tableNumber id) ltac:(apply Hid)) as R. rewrite <-Ht in R. destruct id as [n i]. cbn in *. subst i.
    unfold tag_id. f_equal. vm_compute in R. by injection R. }
  destruct (base.filter _ _) as [|r l] eqn:Ef; [done|]. exfalso.
  assert (Hin : r ∈ base.filter (fun r => of_document (encodeStorageTableId (tableNumber id)) (internalId id) r && at_or_before (dr_ts r) (Some 1) = true)
    (db_documents (ss_db tagged))) by (rewrite Ef; left).
  apply list_elem_of_filter in Hin as [Hr Hin]. cbn [tagged ss_db db_documents] in Hin. apply list_elem_of_singleton in Hin as ->.
  apply andb_true_iff in Hr as [Hr _]. pose proof (eq_trans (eq_sym Hno) Hr) as H. discriminate H.
Qed.

(** A store that agrees with what a transaction saw when it ended. *)
Lemma exact_published store store' cat base base' c t sh l : exact store cat base c ->
  (forall id, wf_doc_id id -> docs_at store' t id = effective store c id) ->
  (forall name idx k, idx ∈ indexesForTable cat name -> base' (is_indexId idx) k = apply_updates base (cx_indexUpdates c) (is_indexId idx) k) ->
  exact store' cat base' (ctx_new t sh l).
Proof.
  intros [Hv Hr _ _ _] Hd Hb. assert (Heff : forall id, effective store' (ctx_new t sh l) id = docs_at store' t id) by done. split.
  - split; intros id d Hw; rewrite Heff, Hd by done; by apply Hv.
  - intros name idx Hi k id. change (apply_updates base' (cx_indexUpdates (ctx_new t sh l))) with base'. rewrite (Hb name idx k Hi), (Hr name idx Hi k id).
    unfold indexed. split; intros (Hw & Ht & d & H1 & H2); (split; [done|]); (split; [done|]); exists d; (split; [|done]).
    + by rewrite Heff, Hd.
    + by rewrite Heff, Hd in H1.
  - by intros u id ?%not_elem_of_nil.
  - intros name idx k id _ _ [w Hw]. discriminate Hw.
  - by intros u ?%not_elem_of_nil.
Qed.

Lemma tagged_exact sh l : exact tagged demo_cat (committed_rows tagged 1) (ctx_new 1 sh l).
Proof.
  apply (exact_published empty_store tagged demo_cat no_rows _ (ks_txn tag_insert.1)); [exact tag_insert_exact| |].
  - intros id Hid. rewrite tagged_get by done. unfold effective. rewrite empty_docs.
    assert (cx_staged (ks_txn tag_insert.1) = uw_set [] tag_id (Some tag_doc)) as -> by (vm_compute; reflexivity).
    rewrite (uw_get_set [] tag_id (Some tag_doc) id tag_id_wf Hid). by case_decide.
  - intros name idx k _. generalize (is_indexId idx) as ix. intros ix.
    assert (Hus : cx_indexUpdates (ks_txn tag_insert.1) = [IndexUpdate tag_index tag_key (IxNonClustered tag_id)]) by (vm_compute; reflexivity).
    rewrite Hus, apply_updates_last. cbn [last_update iu_index iu_key iu_value]. unfold committed_rows.
    destruct (decide (ix = tag_index)) as [->|Hne].
    + rewrite tagged_rows. destruct (decide (ir_key tag_row = k)) as [Hk|Hk].
      { rewrite filter_cons_True by exact Hk. rewrite bool_decide_true by (split; [reflexivity|symmetry; exact Hk]). exact tag_pointer. }
      rewrite filter_cons_False by exact Hk. rewrite bool_decide_false by (intros [_ E]; apply Hk; symmetry; exact E). reflexivity.
    + rewrite bool_decide_false by (intros [E _]; exact (Hne E)). destruct (base.filter _ _) as [|r l'] eqn:E; [reflexivity|]. exfalso.
      assert (Hin : r ∈ base.filter (fun r => ir_key r = k) (index_rows_at (db_indexes (ss_db tagged)) ix 1 (Interval [] None))) by (rewrite E; left).
      apply list_elem_of_filter in Hin as [_ Hin]. apply index_rows_at_spec in Hin as (Hin & Hix & _). apply list_elem_of_singleton in Hin as ->.
      apply Hne. rewrite <-Hix. vm_compute. reflexivity.
Qed.

(** The next transaction inserts another tag and lists the tags. *)
Definition next_kst : kst unit := Kst (ctx_new 1 DEFAULT_SHARD DEFAULT_HEADROOM) [] None false false [] [] [] 0 1 tt.
Definition second_insert : kst unit * res answer :=
  dispatch tagged tt demo_ids demo_kc no_policies (SysInsert (js "tags") (tag "y")) next_kst.
Definition second_answer : answer := Eval vm_compute in match second_insert.2 with Ok a => a | Throw _ => AnsUnit end.
Lemma second_inserts : dispatch tagged tt demo_ids demo_kc no_policies (SysInsert (js "tags") (tag "y")) next_kst = (second_insert.1, Ok second_answer).
Proof. vm_compute. reflexivity. Qed.
Lemma second_unused : unused_id tagged demo_ids next_kst.
Proof.
  intros num. change (docs_at tagged 1 (DocId num (demo_ids 1)) = None). unfold docs_at.
  change (ds_get tagged (DocId num (demo_ids 1)) (Some 1)) with (sq_get tagged (DocId num (demo_ids 1)) (Some 1)). unfold sq_get, newest_revision.
  rewrite filter_none; [done|]. repeat constructor. intros [H _]%andb_true_iff. apply of_document_spec in H as [_ H]. discriminate H.
Qed.
Lemma second_exact : exact tagged demo_cat (committed_rows tagged 1) (ks_txn second_insert.1).
Proof.
  exact (insert_exact tagged demo_ids demo_kc no_policies _ demo_cat_indexed demo_ids_random (no_policies_keep calm)
    (js "tags") (tag "y") next_kst second_insert.1 second_answer tag_y_wf second_unused (tagged_exact DEFAULT_SHARD DEFAULT_HEADROOM) second_inserts).
Qed.

Definition all_tags (limit : option Z) : query_spec := QuerySpec (js "tags") (js "by_label") None None None limit.
Definition label_index : index_spec := Eval vm_compute in default (IndexSpec [] 0 [] [] []) (getIndex demo_cat (js "tags") (js "by_label")).
Definition tag_query (limit : option Z) : kst unit * res answer := handleDbQuery tagged tt demo_kc no_policies (all_tags limit) second_insert.1.
Definition shown_tags (limit : option Z) : list json := match (tag_query limit).2 with Ok (AnsDocs ds _) => ds | _ => [] end.
Definition labels (ds : list json) : list (option json) := (fun d => match d with JObject fs => jm_get fs (js "label") | _ => None end) <$> ds.

Lemma query_answers : handleDbQuery tagged tt demo_kc no_policies (all_tags None) second_insert.1 = ((tag_query None).1, Ok (AnsDocs (shown_tags None) None)).
Proof. vm_compute. reflexivity. Qed.
Lemma limited_answers : handleDbQuery tagged tt demo_kc no_policies (all_tags (Some 1)) second_insert.1 = ((tag_query (Some 1)).1, Ok (AnsDocs (shown_tags (Some 1)) None)).
Proof. vm_compute. reflexivity. Qed.


(** A query that returns what it collects. *)
Definition run_on_tags (h : value -> Z -> guest main_channel handler_result) : kst (run_state unit) * res attempt_value :=
  attempt tagged tt demo_ids demo_cat demo_options (demo_fn UQuery h) DEFAULT_SHARD false (VObject []) 0
    (attempt_start demo_options false 0 (ctx_new 1 DEFAULT_SHARD DEFAULT_HEADROOM)).
Definition other_tags : query_builder := qb_where OpNeq (js "label") (VString (js "z")) (db_query (js "tags") (js "by_label")).
Definition list_tags : value -> Z -> guest main_channel handler_result := fun _ _ =>
  gbind (qb_collect ChMain other_tags) (fun r : list value * option jsstr => GReturn (HValue (VArray r.1) r.2)).

Definition no_attempt : attempt_value := AttemptValue (HCommitThenThrow []) [] [] [] [] [] [].
Definition no_range : diffable_range := DiffableRange [] (SerializedRange [] [] None) [] Asc [].
Definition listed : attempt_value := Eval vm_compute in match (run_on_tags list_tags).2 with Ok av => av | Throw _ => no_attempt end.
Definition listed_range : diffable_range := Eval vm_compute in
  default no_range (classifyDiffableRange (av_result listed) (av_collectTrace listed) (av_readRanges listed)).
Lemma listed_eq : run_on_tags list_tags = ((run_on_tags list_tags).1, Ok listed).
Proof. vm_compute. reflexivity. Qed.
Lemma listed_classified : classifyDiffableRange (av_result listed) (av_collectTrace listed) (av_readRanges listed) = Some listed_range.
Proof. vm_compute. reflexivity. Qed.

Lemma list_tags_unchanged args now : unchanged [] (list_tags args now).
Proof.
  unfold list_tags, qb_collect. destruct (serializeQuery other_tags) as [spec|e]; cbn [glift gbind]; [|constructor].
  constructor. intros [a|e]; cbn [glift gbind]; [|constructor]. destruct a; cbn [gbind]; try constructor.
  destruct (traverse of_wire docs) as [vs|e] eqn:Ev; cbn [glift gbind]; [|constructor]. cbn [fst snd].
  destruct token as [token|]; [|constructor]. apply un_array with (docs := docs); [left|done].
Qed.


(** A handler that pushes onto the array it collected and returns it: the array
    keeps the brand, and its result is classified like the untouched one. *)
Definition push_tags : value -> Z -> guest main_channel handler_result := fun _ _ =>
  gbind (qb_collect ChMain other_tags) (fun r : list value * option jsstr => GReturn (HValue (VArray (r.1 ++ [VNull])) r.2)).
Definition pushed : attempt_value := Eval vm_compute in match (run_on_tags push_tags).2 with Ok av => av | Throw _ => no_attempt end.
Lemma pushed_eq : (run_on_tags push_tags).2 = Ok pushed.
Proof. vm_compute. reflexivity. Qed.
Theorem pushed_array_keeps_brand :
  (run_on_tags push_tags).2 = Ok pushed /\
  classifyDiffableRange (av_result pushed) (av_collectTrace pushed) (av_readRanges pushed) = Some listed_range /\
  (exists t vs brand, av_collectTrace pushed = [t] /\ traverse of_wire (ctr_docs t) = Ok vs /\ av_result pushed = HValue (VArray (vs ++ [VNull])) brand).
Proof.
  split; [exact pushed_eq|]. split; [vm_compute; reflexivity|].
  destruct (traverse of_wire (match av_collectTrace pushed with t :: _ => ctr_docs t | [] => [] end)) as [vs|] eqn:E; [|exfalso; vm_compute in E; discriminate E].
  eexists _, vs, _. split; [reflexivity|]. split; [exact E|]. vm_compute in E. injection E as <-. reflexivity.
Qed.

(** * Corner cases *)

(** Inserts a tag whose indexed field cannot be a key, and ignores the error. *)
Definition careless : registered_function := demo_fn UMutation (fun _ _ =>
  GCall ChMain (SysInsert (js "tags") (JObject [(js "label", JArray [])])) (fun r =>
  GReturn (HValue (VBool (match r with Ok _ => true | Throw _ => false end)) None))).

(** An insert that fails because an indexed value cannot be encoded has
    already staged its document: a handler that catches the error and returns
    commits a document no index of its table lists, so queries do not see it
    while a read by id does. *)
Theorem caught_index_error_stages_document :
  let '(k, r) := demo_run careless in
  av_result <$> r = Ok (HValue (VBool false) None) /\
  (fun w => (tableNumber (lw_id w), match lw_value w with Some d => row_field d (js "label") | None => None end)) <$> uw_entries (cx_staged (ks_txn k))
    = [(10004, Some (VArray []))] /\
  cx_indexUpdates (ks_txn k) = [].
Proof. vm_compute. split_and!; reflexivity. Qed.

(** The application itself, outside any component. *)
Definition root_options : udf_options unit :=
  UdfOptions 0 [] false [] [] None [] (RelationRegistry [] []) (Some 1) false None.

(** Inserts into a component's table by its full name, then tries to delete the
    document through its id. *)
Definition reach_in : registered_function := demo_fn UMutation (fun _ _ =>
  gbind (db_insert ChMain (js "audit/notes") (post "forged")) (fun id =>
  GCall ChMain (SysDelete id) (fun r =>
  GReturn (HValue (VBool (match r with Ok _ => true | Throw _ => false end)) None)))).

Definition root_run (fn : registered_function) : kst (run_state unit) * res attempt_value :=
  attempt empty_store tt demo_ids demo_cat root_options fn DEFAULT_SHARD false (VObject []) 0
    (attempt_start root_options false 0 (ctx_new 0 DEFAULT_SHARD DEFAULT_HEADROOM)).

(** The root namespace reaches a component's tables by name, though not by id:
    [getFullTableName] leaves the name as it is, and only the calls that take an
    id check whose table it is. *)
Theorem root_namespace_reaches_components :
  let '(k, r) := root_run reach_in in
  av_result <$> r = Ok (HValue (VBool false) None) /\ staged_tables k = [10003].
Proof. vm_compute. split; reflexivity. Qed.
