(* ===== verification/SingleWriter.v ===== *)
(** Concurrent transactions on one writer, packages/transactor/src:
    [runInTransactionSingle] and [commit] of shard-writer.ts under the mutex
    of async-mutex.ts, as single-writer-transactor.ts runs them.

    The functions run interleaved, one context call at a time; the commit is
    two steps with the mutex held in between, [EApply] until the store has
    landed the rows and [EPublish] for what follows the store's answer. *)
From Stdlib Require Import ZArith Lia Sorted.
From stdpp Require Import base list sets strings.
From S2P Require Import Prelude JsBase JsText Float64 Values ValuesJson KeyCodec KeyRanges IdCodec DocStore SqliteDocStore Transactor.

Section system.
Context {S : Type} `{!DocStore S} {T : Type}.

(** What a writer is built with. *)
Record config := Config { cf_shardId : jsstr; cf_headroom : headroom_limits }.

(** [{ ...defaultHeadroom, ...options.headroom }] *)
Definition merged_headroom (cf : config) (o : run_options) : headroom_limits :=
  HeadroomLimits (default (maxReads (cf_headroom cf)) (ro_maxReads o))
    (default (maxWrites (cf_headroom cf)) (ro_maxWrites o)).

Definition effective_shard (cf : config) (o : run_options) : jsstr := default (cf_shardId cf) (ro_shardId o).
Definition effective_retries (o : run_options) : Z := default 8 (ro_maxRetries o).

(** A running attempt. *)
Record active := Active
  { ac_fn : prog T; ac_options : run_options; ac_attempt : Z; ac_ctx : ctx; ac_rest : prog T }.

Inductive txn :=
  | Running (a : active)
  | Committing (a : active)
  | Done (r : res (commit_result T)).

(** The commit that holds the mutex and has landed in the store. *)
Record in_commit := InCommit { ic_txn : nat; ic_entries : list log_entry; ic_ts : Z }.

Record system := System { sy_writer : writer S; sy_txns : list txn; sy_commit : option in_commit }.

Definition begin_attempt (cf : config) (w : writer S) (fn : prog T) (o : run_options) (attempt : Z)
  : writer S * txn :=
  let snapshotTs := getLastCommittedTimestamp (w_oracle w) in
  (retain snapshotTs w,
   Running (Active fn o attempt (ctx_new snapshotTs (effective_shard cf o) (merged_headroom cf o)) fn)).

(** The [catch] and [finally] of an attempt: an optimistic conflict replays
    the function while attempts are left. *)
Definition fail_attempt (cf : config) (w : writer S) (a : active) (e : js_error) : writer S * txn :=
  let w := release (cx_snapshotTs (ac_ctx a)) w in
  if bool_decide (e = OccConflictError) && (ac_attempt a <? effective_retries (ac_options a))
  then begin_attempt cf w (ac_fn a) (ac_options a) (ac_attempt a + 1)
  else (w, Done (Throw e)).

Definition finish_attempt (w : writer S) (a : active) (r : commit_result T) : writer S * txn :=
  (release (cx_snapshotTs (ac_ctx a)) w, Done (Ok r)).

Inductive event :=
  | EBegin (fn : prog T) (o : run_options)
  | EOp (i : nat)
  | EFinish (i : nat)
  | EApply (i : nat)
  | EPublish.

Definition set_txn (sy : system) (i : nat) (wt : writer S * txn) : system :=
  System wt.1 (<[i := wt.2]> (sy_txns sy)) (sy_commit sy).

(** The function has returned or thrown without needing the mutex. *)
Definition finish (cf : config) (w : writer S) (a : active) : option (writer S * txn) :=
  match ac_rest a with
  | Raise e => Some (fail_attempt cf w a e)
  | Return v => if (uw_size (cx_staged (ac_ctx a)) =? 0)%nat
                then Some (finish_attempt w a (pure_read (ac_ctx a) v)) else None
  | _ => None
  end.

Definition apply_step (cf : config) (sy : system) (i : nat) (a : active) : system :=
  match commit_apply (sy_writer sy) (ac_ctx a) (ro_commitMeta (ac_options a)) with
  | Throw e => set_txn sy i (fail_attempt cf (sy_writer sy) a e)
  | Ok (ts, entries, w) => System w (<[i := Committing a]> (sy_txns sy)) (Some (InCommit i entries ts))
  end.

Definition publish_step (cf : config) (sy : system) (c : in_commit) (a : active) (v : T) : system :=
  let '(w, r) := commit_publish (sy_writer sy) (ac_ctx a) (ic_entries c) (ic_ts c) v (ro_origin (ac_options a)) in
  let wt := match r with Ok cr => finish_attempt w a cr | Throw e => fail_attempt cf w a e end in
  System wt.1 (<[ic_txn c := wt.2]> (sy_txns sy)) None.

Definition returned (a : active) : option T := match ac_rest a with Return v => Some v | _ => None end.

(** One step; [None] where the event is not enabled. *)
Definition sys_step (cf : config) (sy : system) (ev : event) : option system :=
  match ev with
  | EBegin fn o =>
      let '(w, t) := begin_attempt cf (sy_writer sy) fn o 0 in
      Some (System w (sy_txns sy ++ [t]) (sy_commit sy))
  | EOp i =>
      match sy_txns sy !! i with
      | Some (Running a) =>
          let '(c, p) := step_prog (w_store (sy_writer sy)) (ac_ctx a) (ac_rest a) in
          Some (set_txn sy i (sy_writer sy, Running (Active (ac_fn a) (ac_options a) (ac_attempt a) c p)))
      | _ => None
      end
  | EFinish i =>
      match sy_txns sy !! i with
      | Some (Running a) => set_txn sy i <$> finish cf (sy_writer sy) a
      | _ => None
      end
  | EApply i =>
      match sy_txns sy !! i, sy_commit sy with
      | Some (Running a), None =>
          match returned a with
          | Some _ => if (uw_size (cx_staged (ac_ctx a)) =? 0)%nat then None else Some (apply_step cf sy i a)
          | None => None
          end
      | _, _ => None
      end
  | EPublish =>
      match sy_commit sy with
      | Some c =>
          match sy_txns sy !! ic_txn c with
          | Some (Committing a) =>
              match returned a with Some v => Some (publish_step cf sy c a v) | None => None end
          | _ => None
          end
      | None => None
      end
  end.

Definition start (s : S) : system :=
  System (Writer s (oracle_new (ds_maxTimestamp s)) [] [] []) [] None.

(** What any schedule can reach. *)
Inductive reachable (cf : config) (s0 : S) : system -> Prop :=
  | reach_start : reachable cf s0 (start s0)
  | reach_step sy ev sy' : reachable cf s0 sy -> sys_step cf sy ev = Some sy' -> reachable cf s0 sy'.
End system.

(** The snapshot a transaction pins while it runs. *)
Definition live {T} (t : txn (T := T)) : option Z :=
  match t with Running a | Committing a => Some (cx_snapshotTs (ac_ctx a)) | Done _ => None end.

(** * The invariant *)

Section invariant.
Context {S : Type} `{!DocStore S} {T : Type} {valid : S -> Prop} `{!DocStoreLaws S valid} (cf : config).
Notation txns := (list (txn (T := T))).
Implicit Types (w : writer S) (l : txns) (a : active (T := T)).

Definition fresh_ctx (o : run_options) (ts : Z) : ctx :=
  ctx_new ts (effective_shard cf o) (merged_headroom cf o).

(** A landed commit that the ring does not show yet. *)
Definition in_flight (l : txns) (com : option in_commit) (id : doc_id) : Prop :=
  exists c a, com = Some c /\ l !! ic_txn c = Some (Committing a) /\ covers (cx_writeRanges (ac_ctx a)) id.

(** No recorded or landed commit after [t] covers the document. *)
Definition unwritten_since (w : writer S) (l : txns) (com : option in_commit) (t : Z) (id : doc_id) : Prop :=
  (forall rc, rc ∈ w_ring w -> t < rc_ts rc -> ~ covers (rc_writes rc) id) /\ ~ in_flight l com id.

(** A live attempt: the rest of its function, on what it has recorded, gives
    what the whole function gives at its snapshot. *)
Definition attempt_ok (w : writer S) (a : active (T := T)) : Prop :=
  let c := ac_ctx a in
  ctx_ok c /\ cx_snapshotTs c <= getLastCommittedTimestamp (w_oracle w) /\
  run_prog (w_store w) (fresh_ctx (ac_options a) (cx_snapshotTs c)) (ac_fn a) =
    run_prog (w_store w) c (ac_rest a).

Definition clock_ok (w : writer S) (l : txns) (com : option in_commit) : Prop :=
  match com with
  | None => ds_maxTimestamp (w_store w) = getLastCommittedTimestamp (w_oracle w)
  | Some c => ic_ts c = ds_maxTimestamp (w_store w) /\
      getLastCommittedTimestamp (w_oracle w) < ds_maxTimestamp (w_store w) /\
      exists a, l !! ic_txn c = Some (Committing a)
  end.

Record inv (w : writer S) (l : txns) (com : option in_commit) : Prop := {
  inv_valid : valid (w_store w);
  inv_clock : clock_ok w l com;
  inv_counts : forall t, active_count w t = Z.of_nat (count_snap live t l);
  inv_committing : forall i a, l !! i = Some (Committing a) -> exists c, com = Some c /\ ic_txn c = i;
  inv_ring : forall rc, rc ∈ w_ring w ->
    rc_ts rc <= getLastCommittedTimestamp (w_oracle w) /\ rs_wf (rc_writes rc);
  inv_attempts : forall i a, l !! i = Some (Running a) \/ l !! i = Some (Committing a) -> attempt_ok w a;
  inv_snapshots : forall t id, t = getLastCommittedTimestamp (w_oracle w) \/ (0 < count_snap live t l)%nat ->
    unwritten_since w l com t id -> ds_get (w_store w) id (Some t) = ds_get (w_store w) id None
}.

Lemma clock_le w l com : clock_ok w l com -> getLastCommittedTimestamp (w_oracle w) <= ds_maxTimestamp (w_store w).
Proof. destruct com; simpl; lia. Qed.

Lemma start_inv s : valid s -> inv (sy_writer (start (T := T) s)) [] None.
Proof.
  intros Hv. split; simpl; try done.
  - set_solver.
  - intros i a [?|?]; done.
  - intros t id [->|H] _; [|lia]. by rewrite (get_latest s id Hv).
Qed.

(** A new attempt starts at the last committed timestamp. *)
Definition fresh_running (w : writer S) (x : txn (T := T)) : Prop :=
  exists fn o n, x = Running (Active fn o n (fresh_ctx o (getLastCommittedTimestamp (w_oracle w))) fn).

Lemma fresh_attempt_ok w fn o n :
  attempt_ok w (Active fn o n (fresh_ctx o (getLastCommittedTimestamp (w_oracle w))) fn).
Proof. split_and!; simpl; [apply ctx_new_ok|lia|done]. Qed.

(** Replacing a running attempt by its outcome or its replay. *)
Definition slot_next (w : writer S) (a : active (T := T)) (wt : writer S * txn (T := T)) : Prop :=
  w_store wt.1 = w_store w /\ w_oracle wt.1 = w_oracle w /\ w_ring wt.1 = w_ring w /\
  w_published wt.1 = w_published w /\
  (forall t, active_count wt.1 t =
     active_count w t - Z.of_nat (pins live (Running a) t) + Z.of_nat (pins live wt.2 t)) /\
  ((exists r, wt.2 = Done r) \/ fresh_running w wt.2).

Lemma pins_running a t : Z.of_nat (pins live (Running a) t) = if decide (t = cx_snapshotTs (ac_ctx a)) then 1 else 0.
Proof. unfold pins. simpl. repeat case_decide; case_bool_decide; simplify_eq; done. Qed.

Lemma finish_attempt_next w a r :
  1 <= active_count w (cx_snapshotTs (ac_ctx a)) -> slot_next w a (finish_attempt w a r).
Proof.
  intros H. unfold finish_attempt. split_and!; simpl; try done; [|left; by eexists].
  intros t. rewrite release_count, pins_running by done. unfold pins. simpl. lia.
Qed.

Lemma fail_attempt_next w a e :
  1 <= active_count w (cx_snapshotTs (ac_ctx a)) -> slot_next w a (fail_attempt cf w a e).
Proof.
  intros H. unfold fail_attempt. destruct (_ && _).
  - unfold begin_attempt. split_and!; simpl; try done.
    + intros t. rewrite retain_count, release_count, !pins_running by done. simpl. lia.
    + right. unfold fresh_running. by eexists _, _, _.
  - split_and!; simpl; try done; [|left; by eexists].
    intros t. rewrite release_count, pins_running by done. unfold pins. simpl. lia.
Qed.

Lemma insert_other {A} (l : list A) i j x y : <[i := x]> l !! j = Some y -> (j = i /\ y = x) \/ (j <> i /\ l !! j = Some y).
Proof. intros H. apply list_lookup_insert_Some in H as [(-> & <- & _)|[Hne H]]; [by left|right]. by split. Qed.

(** A slot that was not committing does not change what is in flight. *)
Lemma in_flight_insert l com i x id :
  (forall a, l !! i <> Some (Committing a)) -> (forall a, x <> Committing a) ->
  in_flight (<[i := x]> l) com id <-> in_flight l com id.
Proof.
  intros Ho Hx. unfold in_flight. split; intros (c & a & Hc & Hl & Hcov); exists c, a; split_and!; try done.
  - apply insert_other in Hl as [[_ He]|[_ Hl]]; [by destruct (Hx a)|done].
  - destruct (decide (i = ic_txn c)) as [->|Hne]; [by destruct (Ho a)|]. by rewrite list_lookup_insert_ne.
Qed.

Lemma clock_ok_insert w l com i x :
  (forall a, l !! i <> Some (Committing a)) -> clock_ok w l com -> clock_ok w (<[i := x]> l) com.
Proof.
  intros Ho. destruct com as [c|]; [|done]. intros (H1 & H2 & a & Ha). split_and!; [done|done|]. exists a.
  rewrite list_lookup_insert_ne; [done|]. intros ->. by destruct (Ho a).
Qed.

Lemma slot_inv w l com i a wt :
  inv w l com -> l !! i = Some (Running a) -> slot_next w a wt -> inv wt.1 (<[i := wt.2]> l) com.
Proof.
  intros [Hv Hck Hcnt Hcm Hr Hat Hsn] Hi (E1 & E2 & E3 & _ & Hac & Hnx). destruct wt as [w' x]. cbn [fst snd] in *.
  assert (Ho : forall b, l !! i <> Some (Committing b)) by congruence.
  assert (Hx : forall b, x <> Committing b) by (intros b ->; destruct Hnx as [[r Hd]|(? & ? & ? & Hd)]; done).
  split.
  - by rewrite E1.
  - apply (clock_ok_insert _ l _ i x) in Hck; [|done]. revert Hck. unfold clock_ok. by rewrite E1, E2.
  - intros t. rewrite Hac, Hcnt. pose proof (count_snap_insert live t l i _ x Hi). lia.
  - intros j b Hj. apply insert_other in Hj as [[_ <-]|[_ Hj]]; [by destruct (Hx b)|by eapply Hcm].
  - intros rc. rewrite E3, E2. apply Hr.
  - intros j b Hj. unfold attempt_ok. rewrite E1, E2.
    assert (Hj' : (j = i /\ x = Running b) \/ (l !! j = Some (Running b) \/ l !! j = Some (Committing b))).
    { destruct Hj as [Hj|Hj]; apply insert_other in Hj as [[-> Hb]|[_ Hj]]; auto. by destruct (Hx b). }
    destruct Hj' as [[_ ->]|Hj']; [|by apply (Hat j)].
    destruct Hnx as [[r Hd]|(fn & o & n & Hd)]; [done|]. injection Hd as ->. apply (fresh_attempt_ok w).
  - intros t id Ht [Hu1 Hu2]. rewrite E1. rewrite in_flight_insert in Hu2 by done. apply Hsn; [|split; [by rewrite <- E3|done]].
    destruct Ht as [Ht|Ht]; [left; congruence|].
    destruct (decide (0 < count_snap live t l)%nat) as [|Hz]; [by right|left].
    pose proof (count_snap_insert live t l i _ x Hi) as Hc.
    assert (Hp : pins live x t <> 0%nat) by lia. unfold pins in Hp. case_bool_decide as Hb; [|done].
    destruct Hnx as [[r ->]|(fn & o & n & ->)]; [done|]. by injection Hb as <-.
Qed.

Lemma attempt_counted w l com i a :
  inv w l com -> l !! i = Some (Running a) -> 1 <= active_count w (cx_snapshotTs (ac_ctx a)).
Proof.
  intros Hinv Hi. rewrite (inv_counts _ _ _ Hinv).
  pose proof (count_snap_pos live (cx_snapshotTs (ac_ctx a)) l i _ Hi eq_refl). lia.
Qed.

(** One context call. *)
Lemma op_inv w l com i a c p :
  inv w l com -> l !! i = Some (Running a) ->
  step_prog (w_store w) (ac_ctx a) (ac_rest a) = (c, p) ->
  inv w (<[i := Running (Active (ac_fn a) (ac_options a) (ac_attempt a) c p)]> l) com.
Proof.
  intros Hinv Hi Hs. pose proof Hinv as [Hv Hck Hcnt Hcm Hr Hat Hsn].
  destruct (Hat i a (or_introl Hi)) as (Hok & Hle & Hrun).
  destruct (step_facts _ _ _ _ _ Hok Hs) as [Hok' Hsnap].
  assert (Ho : forall b, l !! i <> Some (Committing b)) by congruence.
  set (x := Running _). assert (Hx : forall b, x <> Committing b) by done.
  assert (Hpin : forall t, pins live x t = pins live (Running a) t) by (intros t; unfold pins, x; simpl; by rewrite Hsnap).
  assert (Hcount : forall t, count_snap live t (<[i := x]> l) = count_snap live t l).
  { intros t. pose proof (count_snap_insert live t l i _ x Hi) as H. rewrite Hpin in H. lia. }
  split; try done.
  - by apply clock_ok_insert.
  - intros t. by rewrite Hcount.
  - intros j b Hj. apply insert_other in Hj as [[_ Hb]|[_ Hj]]; [by destruct (Hx b)|by eapply Hcm].
  - intros j b Hj.
    assert (Hj' : (j = i /\ x = Running b) \/ (l !! j = Some (Running b) \/ l !! j = Some (Committing b))).
    { destruct Hj as [Hj|Hj]; apply insert_other in Hj as [[-> Hb]|[_ Hj]]; auto. by destruct (Hx b). }
    destruct Hj' as [[_ Hb]|Hj']; [|by apply (Hat j)]. injection Hb as <-. unfold attempt_ok. cbn [ac_ctx ac_options ac_fn ac_rest].
    rewrite Hsnap. split_and!; [done|done|]. rewrite Hrun, run_step, Hs. done.
  - intros t id Ht [Hu1 Hu2]. rewrite in_flight_insert in Hu2 by done. apply Hsn; [|by split].
    by rewrite Hcount in Ht.
Qed.

Lemma begin_inv w l com fn o :
  inv w l com ->
  let wt := begin_attempt cf w fn o 0 in inv wt.1 (l ++ [wt.2]) com.
Proof.
  intros [Hv Hck Hcnt Hcm Hr Hat Hsn]. cbn [begin_attempt fst snd]. cbv zeta.
  set (L := getLastCommittedTimestamp (w_oracle w)) in *.
  set (x := Running _).
  assert (Happ : forall j y, (l ++ [x]) !! j = Some y -> l !! j = Some y \/ y = x).
  { intros j y Hj. apply lookup_app_Some in Hj as [Hj|[_ Hj]]; [by left|right].
    destruct (j - length l)%nat; simpl in Hj; [congruence|done]. }
  split; simpl; try done.
  - revert Hck. destruct com as [c|]; [|done]. intros (H1 & H2 & a & Ha). split_and!; [done|done|].
    exists a. by apply lookup_app_l_Some.
  - intros t. rewrite retain_count, Hcnt, count_snap_app. simpl. unfold pins. simpl.
    case_bool_decide as Hb; destruct (decide (t = L)); simplify_eq; lia.
  - intros j b Hj. apply Happ in Hj as [Hj|Hj]; [by eapply Hcm|done].
  - intros j b Hj. destruct Hj as [Hj|Hj]; apply Happ in Hj as [Hj|Hj]; try done.
    + apply (Hat j); auto.
    + injection Hj as ->. apply (fresh_attempt_ok w).
    + apply (Hat j); auto.
  - intros t id Ht [Hu1 Hu2]. apply Hsn.
    + destruct Ht as [Ht|Ht]; [by left|]. rewrite count_snap_app in Ht. simpl in Ht. unfold pins in Ht. simpl in Ht.
      case_bool_decide as Hb; [left; by injection Hb as ->|right; lia].
    + split; [done|]. intros (c & a & Hc & Hl & Hcov). apply Hu2. exists c, a. split_and!; [done| |done].
      by apply lookup_app_l_Some.
Qed.

Lemma count_snap_live t l : (0 < count_snap live t l)%nat ->
  exists i a, (l !! i = Some (Running a) \/ l !! i = Some (Committing a)) /\ cx_snapshotTs (ac_ctx a) = t.
Proof.
  intros (i & x & Hi & Hx)%count_snap_ex. exists i.
  destruct x as [a|a|r]; simpl in Hx; [| |done]; injection Hx as <-; exists a; auto.
Qed.

Lemma live_snapshot_le w l com t :
  inv w l com -> t = getLastCommittedTimestamp (w_oracle w) \/ (0 < count_snap live t l)%nat ->
  t <= getLastCommittedTimestamp (w_oracle w).
Proof.
  intros Hinv [->|H]; [lia|]. destruct (count_snap_live t l H) as (i & a & Hi & <-).
  by destruct (inv_attempts _ _ _ Hinv i a Hi) as (_ & ? & _).
Qed.

(** The rows have landed; the mutex is held. *)
Lemma apply_inv w l i a ts entries meta w' :
  inv w l None -> l !! i = Some (Running a) -> cx_staged (ac_ctx a) <> [] ->
  commit_apply w (ac_ctx a) meta = Ok (ts, entries, w') ->
  inv w' (<[i := Committing a]> l) (Some (InCommit i entries ts)).
Proof.
  intros Hinv Hi Hst Happ. pose proof Hinv as [Hv Hck Hcnt Hcm Hr Hat Hsn].
  destruct (Hat i a (or_introl Hi)) as (Hok & _).
  destruct (commit_apply_facts w _ meta ts entries w' Hv Hok Hst Happ) as (_ & _ & Hcov & s' & -> & Hcom).
  destruct Hcom as [Cv Cafter Cmax Cbefore Cother]. simpl in Hck.
  split; simpl; try done.
  - rewrite Cmax. split_and!; [done|unfold getLastCommittedTimestamp in *; lia|]. exists a.
    apply list_lookup_insert_Some. left. split_and!; [done|done|by eapply lookup_lt_Some].
  - intros t. change (active_count w t = Z.of_nat (count_snap live t (<[i:=Committing a]> l))).
    rewrite Hcnt. by rewrite (count_snap_same live l i (Running a)).
  - intros j b Hj. apply insert_other in Hj as [[-> _]|[_ Hj]]; [by eexists|].
    by destruct (Hcm _ _ Hj) as (c & ? & _).
  - intros j b Hj.
    assert (Hb : attempt_ok w b).
    { destruct Hj as [Hj|Hj]; apply insert_other in Hj as [[-> Hb]|[_ Hj]]; try done; try (by apply (Hat j); auto).
      injection Hb as ->. apply (Hat i). by left. }
    destruct Hb as (Bok & Ble & Brun). unfold attempt_ok. simpl. split_and!; [done|done|].
    rewrite !(run_ext (w_store w) s'); [done|done| |apply ctx_new_ok|].
    + intros id. apply Cbefore. unfold getLastCommittedTimestamp in *. lia.
    + intros id. apply Cbefore. simpl. unfold getLastCommittedTimestamp in *. lia.
  - intros t id Ht [Hu1 Hu2].
    assert (Ht' : t = getLastCommittedTimestamp (w_oracle w) \/ (0 < count_snap live t l)%nat).
    { destruct Ht as [Ht|Ht]; [by left|right]. by rewrite (count_snap_same live l i (Running a)) in Ht. }
    pose proof (live_snapshot_le w l None t Hinv Ht') as Hle.
    assert (Hno : ~ covers (cx_writeRanges (ac_ctx a)) id).
    { intros Hc. apply Hu2. exists (InCommit i entries ts), a. split_and!; [done| |done].
      apply list_lookup_insert_Some. left. split_and!; [done|done|by eapply lookup_lt_Some]. }
    rewrite Cbefore by (unfold getLastCommittedTimestamp in *; lia). rewrite Cother.
    + apply Hsn; [done|]. split; [done|]. by intros (? & ? & ? & _).
    + intros e He Hk. apply Hno. apply (storage_key_covers _ (le_id e)); [done|]. by apply Hcov.
Qed.

Lemma commit_publish_state w c entries ts (v : T) origin :
  let w1 := (commit_publish w c entries ts v origin).1 in
  w_store w1 = w_store w /\ w_active w1 = w_active w /\
  w_oracle w1 = publishCommitted ts (w_oracle w) /\
  w_ring w1 = w_ring (prune (record_commit w c ts)) /\
  (w_published w1 = w_published w \/
   exists o, od_commitTs o = ts /\ w_published w1 = w_published w ++ [o]).
Proof.
  unfold commit_publish. destruct (prune_rest (record_commit w c ts)) as (E1 & E2 & E3 & E4).
  destruct (build_oplog _ _ _ _ _) as [o|] eqn:Eo; simpl; rewrite ?E1, ?E2, ?E3, ?E4; split_and!; try done; [right|by left].
  exists o. split; [|done]. unfold build_oplog in Eo. destruct (writtenTablesFromRanges _); [|done]. rewrite bind_Ok in Eo.
  destruct (buildWrittenDocs _ _); [|done]. rewrite bind_Ok in Eo. by injection Eo as <-.
Qed.

(** Ring, clock and fan-out; the transaction still pins its snapshot. *)
Lemma publish_inv w l c a (v : T) origin :
  inv w l (Some c) -> l !! ic_txn c = Some (Committing a) ->
  inv (commit_publish w (ac_ctx a) (ic_entries c) (ic_ts c) v origin).1 (<[ic_txn c := Running a]> l) None.
Proof.
  intros Hinv Hi. pose proof Hinv as [Hv (Hts & Hlt & _) Hcnt Hcm Hr Hat Hsn].
  destruct (commit_publish_state w (ac_ctx a) (ic_entries c) (ic_ts c) v origin) as (E1 & E2 & E3 & E4 & _).
  destruct (Hat _ a (or_intror Hi)) as (Hok & _).
  set (w1 := (commit_publish _ _ _ _ _ _).1) in *. set (wr := record_commit w (ac_ctx a) (ic_ts c)) in *.
  assert (HL : getLastCommittedTimestamp (w_oracle w1) = ds_maxTimestamp (w_store w)).
  { rewrite E3, publishCommitted_spec, <- Hts. unfold getLastCommittedTimestamp in *. simpl. lia. }
  assert (Hcount : forall t, count_snap live t (<[ic_txn c := Running a]> l) = count_snap live t l)
    by (intros t; by apply (count_snap_same live l _ (Committing a))).
  split.
  - by rewrite E1.
  - simpl. by rewrite HL, E1.
  - intros t. unfold active_count. rewrite E2, Hcount. apply Hcnt.
  - intros j b Hj. apply insert_other in Hj as [[_ Hj]|[Hne Hj]]; [done|].
    destruct (Hcm _ _ Hj) as (c' & [= <-] & <-). done.
  - intros rc. rewrite HL, E4. intros Hin%prune_sub. unfold wr in Hin. simpl in Hin.
    apply elem_of_app in Hin as [Hin|Hin%list_elem_of_singleton].
    + destruct (Hr rc Hin) as [H1 H2]. split; [lia|done].
    + subst rc. simpl. split; [lia|apply (ok_writes _ Hok)].
  - intros j b Hj. unfold attempt_ok. rewrite E1, HL.
    assert (Hb : attempt_ok w b).
    { destruct Hj as [Hj|Hj]; apply insert_other in Hj as [[-> Hb]|[_ Hj]]; try done; try (by apply (Hat j); auto).
      injection Hb as ->. apply (Hat (ic_txn c)). by right. }
    destruct Hb as (B1 & B2 & B3). split_and!; [done|lia|done].
  - intros t id Ht [Hu _]. rewrite E1. rewrite Hcount, HL in Ht. destruct (decide (t = ds_maxTimestamp (w_store w))) as [->|Hne].
    { by rewrite (get_latest _ id Hv). }
    destruct Ht as [Ht|Ht]; [done|]. apply Hsn; [by right|].
    assert (Hmin : minActiveSnapshot wr <= t).
    { apply minActiveSnapshot_le. change (active_count wr t) with (active_count w t). rewrite Hcnt. lia. }
    assert (Hkeep : forall rc, rc ∈ w_ring wr -> t < rc_ts rc -> ~ covers (rc_writes rc) id).
    { intros rc Hin Hlt'. apply Hu; [|done]. rewrite E4. by apply (prune_ring wr rc t). }
    split.
    + intros rc Hin. apply Hkeep. apply elem_of_app. by left.
    + intros (c' & b & [= <-] & Hb & Hcov). rewrite Hi in Hb. injection Hb as <-.
      apply (Hkeep (RecentCommit (ic_ts c) (cx_writeRanges (ac_ctx a)))); [apply elem_of_app; right; left| |done].
      simpl. pose proof (live_snapshot_le w l (Some c) t Hinv (or_intror Ht)). lia.
Qed.

(** Every step keeps the invariant. *)
Lemma step_inv sy ev sy' :
  inv (sy_writer sy) (sy_txns sy) (sy_commit sy) -> sys_step cf sy ev = Some sy' ->
  inv (sy_writer sy') (sy_txns sy') (sy_commit sy').
Proof.
  destruct sy as [w l com]. cbn [sy_writer sy_txns sy_commit]. intros Hinv. destruct ev as [fn o|i|i|i|]; cbn [sys_step sy_writer sy_txns sy_commit].
  - pose proof (begin_inv w l com fn o Hinv) as H. destruct (begin_attempt cf w fn o 0) as [w1 t1]. by intros [= <-].
  - destruct (l !! i) as [[a|a|r]|] eqn:Hi; try done.
    destruct (step_prog (w_store w) (ac_ctx a) (ac_rest a)) as [c p] eqn:Es. intros [= <-].
    by apply (op_inv w l com i a c p).
  - destruct (l !! i) as [[a|a|r]|] eqn:Hi; try done. unfold finish.
    pose proof (attempt_counted w l com i a Hinv Hi) as Hc.
    destruct (ac_rest a) eqn:Er; try done; [destruct (_ =? 0)%nat; [|done]|]; intros [= <-]; unfold set_txn; simpl.
    + apply (slot_inv w l com i a _ Hinv Hi (finish_attempt_next w a _ Hc)).
    + apply (slot_inv w l com i a _ Hinv Hi (fail_attempt_next w a _ Hc)).
  - destruct (l !! i) as [[a|a|r]|] eqn:Hi; try done. destruct com as [c|]; [done|].
    destruct (returned a); [|done]. destruct (uw_size _ =? 0)%nat eqn:Esz; [done|]. intros [= <-].
    unfold apply_step. cbn [sy_writer sy_txns].
    destruct (commit_apply w (ac_ctx a) _) as [[[ts entries] w']|e] eqn:Ea.
    + simpl. apply (apply_inv w l i a ts entries (ro_commitMeta (ac_options a)) w' Hinv Hi); [|exact Ea].
      intros H. apply Nat.eqb_neq in Esz. apply Esz. unfold uw_size. by rewrite H.
    + unfold set_txn. simpl.
      apply (slot_inv w l None i a _ Hinv Hi (fail_attempt_next w a e (attempt_counted w l None i a Hinv Hi))).
  - destruct com as [c|]; [|done]. destruct (l !! ic_txn c) as [[a|a|r]|] eqn:Hi; try done.
    destruct (returned a) as [v|]; [|done]. intros [= <-]. unfold publish_step. cbn [sy_writer sy_txns].
    pose proof (publish_inv w l c a v (ro_origin (ac_options a)) Hinv Hi) as Hp.
    destruct (commit_publish w _ _ _ _ _) as [w1 r] eqn:Ep. cbn [fst] in Hp.
    assert (Hi' : <[ic_txn c := Running a]> l !! ic_txn c = Some (Running a)).
    { apply list_lookup_insert_Some. left. split_and!; [done|done|by eapply lookup_lt_Some]. }
    pose proof (attempt_counted _ _ _ _ _ Hp Hi') as Hcnt.
    assert (Hslot : forall wt, slot_next w1 a wt -> inv wt.1 (<[ic_txn c := wt.2]> l) None).
    { intros wt Hwt. pose proof (slot_inv _ _ _ _ _ _ Hp Hi' Hwt) as H. by rewrite list_insert_insert_eq in H. }
    destruct r as [cr|e]; cbn [sy_writer sy_txns sy_commit].
    + by apply (Hslot (finish_attempt w1 a cr)), finish_attempt_next.
    + by apply (Hslot (fail_attempt cf w1 a e)), fail_attempt_next.
Qed.

Lemma reachable_inv s0 sy :
  valid s0 -> reachable cf s0 sy -> inv (sy_writer sy) (sy_txns sy) (sy_commit sy).
Proof.
  intros Hv. induction 1 as [|sy ev sy' _ IH Hs]; [by apply start_inv|]. by apply (step_inv sy ev).
Qed.
End invariant.

(** * Properties of every schedule *)

Section properties.
Context {S : Type} `{!DocStore S} {T : Type} {valid : S -> Prop} `{!DocStoreLaws S valid} (cf : config).
Implicit Types (sy : system (S := S) (T := T)) (a : active (T := T)).

(** C2: a transaction whose commit lands could have run alone at that moment:
    its function, run from the start on the store as it stands right before
    the rows land, at the latest timestamp, makes the same reads and writes
    and returns the same value; the rows that land are those writes, chained
    to the latest revisions, at one new timestamp above all others. *)
Theorem commits_serializable s0 sy i a sy' c :
  valid s0 -> reachable cf s0 sy ->
  sy_txns sy !! i = Some (Running a) -> sys_step cf sy (EApply i) = Some sy' -> sy_commit sy' = Some c ->
  let s := w_store (sy_writer sy) in
  let latest := ds_maxTimestamp s in
  exists v, returned a = Some v /\
    run_prog s (fresh_ctx cf (ac_options a) latest) (ac_fn a) = (at_snapshot latest (ac_ctx a), Ok v) /\
    commit_entries s (ac_ctx a) = Ok (ic_entries c) /\
    latest < ic_ts c /\ ds_maxTimestamp (w_store (sy_writer sy')) = ic_ts c.
Proof.
  intros Hv0 Hreach Hi Hstep Hc s latest. pose proof (reachable_inv cf s0 sy Hv0 Hreach) as Hinv.
  cbn [sys_step] in Hstep. rewrite Hi in Hstep. destruct (sy_commit sy) as [c0|] eqn:Ec; [done|].
  destruct (returned a) as [v|] eqn:Ev; [|done]. destruct (uw_size _ =? 0)%nat eqn:Esz; [done|].
  injection Hstep as <-. unfold apply_step in Hc.
  destruct (commit_apply _ _ _) as [[[ts entries] w']|e] eqn:Ea.
  2: { unfold set_txn in Hc. simpl in Hc. congruence. }
  simpl in Hc. injection Hc as <-.
  destruct (inv_attempts _ _ _ _ Hinv i a (or_introl Hi)) as (Hok & Hle & Hrun).
  assert (Hst : cx_staged (ac_ctx a) <> []).
  { intros H. apply Nat.eqb_neq in Esz. apply Esz. unfold uw_size. by rewrite H. }
  destruct (commit_apply_facts _ _ _ _ _ _ (inv_valid _ _ _ _ Hinv) Hok Hst Ea) as (Hnc & Hent & _ & s' & -> & Hcom).
  exists v. split; [done|]. unfold apply_step. rewrite Ea. simpl.
  split_and!; [|done|by apply Hcom|by apply Hcom].
  unfold returned in Ev. destruct (ac_rest a) as [v'|e|? ?|? ? ?|? ?|? ?|? ?|? ?|? ?|? ?] eqn:Er; try done. injection Ev as ->.
  cbn [run_prog] in Hrun.
  destruct (run_facts _ _ _ _ _ (ctx_new_ok _ _ _) Hrun) as (_ & _ & _ & H).
  apply (H s latest). intros id Hid. unfold latest, s. rewrite <- (get_latest _ id (inv_valid _ _ _ _ Hinv)). symmetry.
  apply (inv_snapshots _ _ _ _ Hinv).
  - right. by apply (count_snap_pos live _ (sy_txns sy) i (Running a)).
  - split.
    + intros rc Hin Hlt. apply (no_conflict (w_ring (sy_writer sy)) (ac_ctx a)); [done|done|done| |done|done].
      by apply (inv_ring _ _ _ _ Hinv).
    + intros (c' & b & Hc' & _). congruence.
Qed.

(** A transaction that wrote nothing saw one consistent snapshot: its
    function, run in one go at the timestamp it reports, gives the same
    value, whatever committed meanwhile. *)
Theorem pure_read_snapshot s0 sy i a sy' r :
  valid s0 -> reachable cf s0 sy ->
  sy_txns sy !! i = Some (Running a) -> sys_step cf sy (EFinish i) = Some sy' ->
  sy_txns sy' !! i = Some (Done (Ok r)) ->
  co_committed r = false /\ co_oplog r = None /\
  (run_prog (w_store (sy_writer sy)) (fresh_ctx cf (ac_options a) (co_commitTs r)) (ac_fn a)).2 = Ok (co_value r) /\
  co_commitTs r <= ds_maxTimestamp (w_store (sy_writer sy)).
Proof.
  intros Hv0 Hreach Hi Hstep Hdone. pose proof (reachable_inv cf s0 sy Hv0 Hreach) as Hinv.
  destruct (inv_attempts _ _ _ _ Hinv i a (or_introl Hi)) as (_ & Hle & Hrun).
  pose proof (clock_le _ _ _ (inv_clock _ _ _ _ Hinv)) as Hck.
  cbn [sys_step] in Hstep. rewrite Hi in Hstep. unfold finish in Hstep.
  assert (Hlen : (i < length (sy_txns sy))%nat) by by eapply lookup_lt_Some.
  assert (Hset : forall wt, set_txn sy i wt = sy' -> wt.2 = Done (Ok r)).
  { intros wt <-. simpl in Hdone. apply list_lookup_insert_Some in Hdone as [(_ & ? & _)|[? _]]; done. }
  destruct (ac_rest a) eqn:Er; try done.
  - destruct (_ =? 0)%nat; [|done]. simpl in Hstep. injection Hstep as Hstep. apply Hset in Hstep. simpl in Hstep.
    injection Hstep as <-. simpl. rewrite Hrun. split_and!; [done|done|done|lia].
  - simpl in Hstep. injection Hstep as Hstep. apply Hset in Hstep. unfold fail_attempt in Hstep.
    by destruct (_ && _) in Hstep.
Qed.

(** The clock has reached every published delta, in order. *)
Definition published_ok sy : Prop :=
  StronglySorted Z.lt (od_commitTs <$> w_published (sy_writer sy)) /\
  Forall (fun o => od_commitTs o <= getLastCommittedTimestamp (w_oracle (sy_writer sy))) (w_published (sy_writer sy)).

Lemma sorted_snoc (l : list Z) x : StronglySorted Z.lt l -> Forall (fun y => y < x) l -> StronglySorted Z.lt (l ++ [x]).
Proof.
  induction 1 as [|y l Hs IH Hy]; intros Hx; simpl; [repeat constructor|].
  apply Forall_cons in Hx as [Hyx Hx]. constructor; [by apply IH|]. apply Forall_app. split; [done|by constructor].
Qed.

(** Steps other than a publication leave clock and fan-out alone. *)
Lemma slot_quiet (w : writer S) a wt : slot_next cf w a wt -> w_published wt.1 = w_published w /\ w_oracle wt.1 = w_oracle w.
Proof. intros (_ & ? & _ & ? & _). done. Qed.

Lemma commit_apply_quiet (w : writer S) (x : ctx) meta ts es w' :
  commit_apply w x meta = Ok (ts, es, w') -> w_published w' = w_published w /\ w_oracle w' = w_oracle w.
Proof.
  unfold commit_apply. destruct (conflicts _ _); [done|]. destruct (commit_entries _ _); [|done]. rewrite bind_Ok.
  destruct (ds_commitWrite _ _ _ _ _) as [[? ?]|]; [|done]. rewrite bind_Ok. by intros [= <- <- <-].
Qed.

Lemma step_published sy ev sy' :
  inv (valid := valid) cf (sy_writer sy) (sy_txns sy) (sy_commit sy) -> published_ok sy ->
  sys_step cf sy ev = Some sy' -> published_ok sy'.
Proof.
  intros Hinv Hp. assert (Hsame : forall w', w_published w' = w_published (sy_writer sy) -> w_oracle w' = w_oracle (sy_writer sy) ->
            forall l c, published_ok (System w' l c)).
  { intros w' E1 E2 l c. unfold published_ok. simpl. by rewrite E1, E2. }
  destruct ev as [fn o|i|i|i|]; cbn [sys_step].
  - destruct (begin_attempt cf (sy_writer sy) fn o 0) as [w1 t1] eqn:E. intros [= <-]. injection E as <- <-. by apply Hsame.
  - destruct (sy_txns sy !! i) as [[a|a|r]|]; try done. destruct (step_prog _ _ _). intros [= <-]. by apply Hsame.
  - destruct (sy_txns sy !! i) as [[a|a|r]|] eqn:Hi; try done. unfold finish.
    pose proof (attempt_counted _ _ _ _ _ _ Hinv Hi) as Hc.
    destruct (ac_rest a); try done; [destruct (_ =? 0)%nat; [|done]|]; intros [= <-]; apply Hsame; try done;
      by apply (slot_quiet (sy_writer sy) a), fail_attempt_next.
  - destruct (sy_txns sy !! i) as [[a|a|r]|] eqn:Hi; try done. destruct (sy_commit sy); [done|].
    pose proof (attempt_counted _ _ _ _ _ _ Hinv Hi) as Hc.
    destruct (returned a); [|done]. destruct (_ =? 0)%nat; [done|]. intros [= <-]. unfold apply_step.
    destruct (commit_apply _ _ _) as [[[ts entries] w']|e] eqn:Ea.
    + apply commit_apply_quiet in Ea as [E1 E2]. by apply Hsame.
    + apply Hsame; by apply (slot_quiet (sy_writer sy) a), fail_attempt_next.
  - destruct (sy_commit sy) as [c|] eqn:Ec; [|done]. destruct (sy_txns sy !! ic_txn c) as [[a|a|r]|] eqn:Hi; try done.
    destruct (returned a) as [v|]; [|done]. intros [= <-]. unfold publish_step.
    pose proof (publish_inv cf _ _ _ _ v (ro_origin (ac_options a)) Hinv Hi) as Hinv1.
    destruct (commit_publish_state (sy_writer sy) (ac_ctx a) (ic_entries c) (ic_ts c) v (ro_origin (ac_options a)))
      as (_ & _ & E3 & _ & E5).
    destruct (commit_publish _ _ _ _ _ _) as [w1 r] eqn:Ep. cbn [fst] in *.
    assert (Hi' : <[ic_txn c := Running a]> (sy_txns sy) !! ic_txn c = Some (Running a)).
    { apply list_lookup_insert_Some. left. split_and!; [done|done|by eapply lookup_lt_Some]. }
    pose proof (attempt_counted _ _ _ _ _ _ Hinv1 Hi') as Hcnt.
    destruct (inv_clock _ _ _ _ Hinv) as (Hts & Hlt & _).
    assert (Hw1 : published_ok (System w1 [] None)).
    { destruct Hp as [P1 P2]. unfold published_ok. cbn [sy_writer]. rewrite E3, publishCommitted_spec.
      unfold getLastCommittedTimestamp in *. cbn [oc_lastCommitted].
      assert (P2' : Forall (fun o => od_commitTs o <= Z.max (oc_lastCommitted (w_oracle (sy_writer sy))) (ic_ts c)) (w_published (sy_writer sy))).
      { eapply Forall_impl; [exact P2|]. intros o Ho. cbv beta in *. lia. }
      destruct E5 as [->|(o & Ho & ->)]; [done|]. rewrite fmap_app. split.
      - apply sorted_snoc; [done|]. rewrite Ho. apply Forall_fmap. eapply Forall_impl; [exact P2|].
        intros o' Ho'. cbv beta in *. simpl. lia.
      - apply Forall_app. split; [done|]. constructor; [lia|constructor]. }
    destruct r as [cr|e]; [exact Hw1|].
    destruct (slot_quiet w1 a _ (fail_attempt_next cf w1 a e Hcnt)) as [F1 F2].
    unfold published_ok in *. cbn [sy_writer] in *. by rewrite F1, F2.
Qed.

(** Deltas reach the fan-out in commit order, each only once the committed
    clock has reached its timestamp: a query started by a delta reads a
    snapshot that contains the commit. *)
Theorem published_after_clock s0 sy :
  valid s0 -> reachable cf s0 sy ->
  StronglySorted Z.lt (od_commitTs <$> w_published (sy_writer sy)) /\
  forall o, o ∈ w_published (sy_writer sy) ->
    od_commitTs o <= getLastCommittedTimestamp (w_oracle (sy_writer sy)).
Proof.
  intros Hv0 Hreach. assert (Hp : published_ok sy).
  { induction Hreach as [|sy ev sy' Hr IH Hs]; [split; constructor|].
    apply (step_published sy ev); [|done|done]. by apply (reachable_inv cf s0). }
  destruct Hp as [H1 H2]. split; [done|]. by apply Forall_forall.
Qed.

(** Every attempt is within the retry budget, and a landed commit has its
    value. *)
Definition attempts_ok sy : Prop :=
  forall i a, (sy_txns sy !! i = Some (Running a) -> 0 <= ac_attempt a <= Z.max 0 (effective_retries (ac_options a))) /\
              (sy_txns sy !! i = Some (Committing a) ->
                 0 <= ac_attempt a <= Z.max 0 (effective_retries (ac_options a)) /\ is_Some (returned a)).

Lemma attempts_slot sy i a (wt : writer S * txn (T := T)) com :
  attempts_ok sy -> 0 <= ac_attempt a <= Z.max 0 (effective_retries (ac_options a)) ->
  (exists w e, wt = fail_attempt cf w a e) \/ (exists w r, wt = finish_attempt w a r) ->
  attempts_ok (System wt.1 (<[i := wt.2]> (sy_txns sy)) com).
Proof.
  intros Ha Hb Hwt j b. cbn [sy_txns]. split; intros Hj; apply insert_other in Hj as [[-> Hx]|[_ Hj]]; try exact (proj1 (Ha j b) Hj); try exact (proj2 (Ha j b) Hj).
  - destruct Hwt as [(w & e & ->)|(w & r & ->)]; [|done]. unfold fail_attempt in Hx.
    destruct (bool_decide (e = OccConflictError)); [|done]. simpl in Hx.
    destruct (Z.ltb_spec (ac_attempt a) (effective_retries (ac_options a))); [|done]. simpl in Hx. injection Hx as ->. simpl. lia.
  - destruct Hwt as [(w & e & ->)|(w & r & ->)]; [|done]. unfold fail_attempt in Hx.
    destruct (_ && _) in Hx; simpl in Hx; [|done]. unfold begin_attempt in Hx. by simpl in Hx.
Qed.

Lemma step_attempts sy ev sy' : attempts_ok sy -> sys_step cf sy ev = Some sy' -> attempts_ok sy'.
Proof.
  intros Ha. destruct ev as [fn o|i|i|i|]; cbn [sys_step].
  - intros [= <-] j b. cbn [sy_txns]. split; intros Hj; apply lookup_app_Some in Hj as [Hj|[_ Hj]]; try exact (proj1 (Ha j b) Hj); try exact (proj2 (Ha j b) Hj);
      destruct (j - length (sy_txns sy))%nat; simpl in Hj; try done. injection Hj as <-. simpl. lia.
  - destruct (sy_txns sy !! i) as [[a|a|r]|] eqn:Hi; try done. destruct (step_prog _ _ _). intros [= <-] j b.
    cbn [set_txn sy_txns snd]. split; intros Hj; apply insert_other in Hj as [[-> Hx]|[_ Hj]]; try exact (proj1 (Ha j b) Hj); try exact (proj2 (Ha j b) Hj); [|done].
    injection Hx as ->. simpl. exact (proj1 (Ha i a) Hi).
  - destruct (sy_txns sy !! i) as [[a|a|r]|] eqn:Hi; try done. pose proof (proj1 (Ha i a) Hi) as Hb. unfold finish.
    destruct (ac_rest a); try done; [destruct (_ =? 0)%nat; [|done]|]; intros [= <-];
      apply (attempts_slot sy i a); eauto.
  - destruct (sy_txns sy !! i) as [[a|a|r]|] eqn:Hi; try done. pose proof (proj1 (Ha i a) Hi) as Hb.
    destruct (sy_commit sy); [done|]. destruct (returned a) as [v|] eqn:Ev; [|done]. destruct (_ =? 0)%nat; [done|]. intros [= <-].
    unfold apply_step. destruct (commit_apply _ _ _) as [[[ts entries] w']|e].
    + intros j b. cbn [sy_txns]. split; intros Hj; apply insert_other in Hj as [[-> Hx]|[_ Hj]]; try exact (proj1 (Ha j b) Hj); try exact (proj2 (Ha j b) Hj); [done|].
      injection Hx as ->. split; [done|by eexists].
    + apply (attempts_slot sy i a); eauto.
  - destruct (sy_commit sy) as [c|]; [|done]. destruct (sy_txns sy !! ic_txn c) as [[a|a|r]|] eqn:Hi; try done.
    pose proof (proj2 (Ha _ a) Hi) as [Hb _]. destruct (returned a) as [v|]; [|done]. intros [= <-].
    unfold publish_step. destruct (commit_publish _ _ _ _ _ _) as [w1 [cr|e]]; apply (attempts_slot sy (ic_txn c) a); eauto.
Qed.

(** C37: no transaction replays more often than its retry limit allows, and the
    commit mutex is always given back: whenever a commit has landed, its
    publication is enabled and frees the mutex. *)
Theorem retries_bounded_and_mutex_released s0 sy :
  valid s0 -> reachable cf s0 sy ->
  (forall i a, sy_txns sy !! i = Some (Running a) ->
     0 <= ac_attempt a <= Z.max 0 (effective_retries (ac_options a))) /\
  (forall c, sy_commit sy = Some c ->
     exists sy', sys_step cf sy EPublish = Some sy' /\ sy_commit sy' = None).
Proof.
  intros Hv0 Hreach. assert (Ha : attempts_ok sy).
  { clear Hv0. induction Hreach as [|sy ev sy' _ IH Hs]; [intros i a; split; done|by apply (step_attempts sy ev)]. }
  split; [intros i a Hi; exact (proj1 (Ha i a) Hi)|]. intros c Hc.
  pose proof (reachable_inv cf s0 sy Hv0 Hreach) as Hinv. pose proof (inv_clock _ _ _ _ Hinv) as Hck.
  rewrite Hc in Hck. destruct Hck as (_ & _ & a & Hi). destruct (Ha (ic_txn c) a) as [_ Hb].
  destruct (Hb Hi) as [_ [v Hret]]. cbn [sys_step]. rewrite Hc, Hi, Hret. eexists. split; [reflexivity|].
  unfold publish_step. by destruct (commit_publish _ _ _ _ _ _) as [w1 [cr|e]].
Qed.
End properties.


(** * A schedule with a conflict *)

Section schedules.
Context {S : Type} `{!DocStore S} {T : Type} (cf : config).

Definition exec (sy : system (S := S) (T := T)) (evs : list event) : option system :=
  foldl (fun acc ev => sy ← acc; sys_step cf sy ev) (Some sy) evs.

Lemma exec_none evs : foldl (fun acc ev => sy ← acc; sys_step cf sy ev) (None (A := system (S := S) (T := T))) evs = None.
Proof. by induction evs. Qed.

Lemma exec_reachable s0 sy evs sy' :
  reachable cf s0 sy -> exec sy evs = Some sy' -> reachable cf s0 sy'.
Proof.
  unfold exec. revert sy. induction evs as [|ev evs IH]; intros sy Hr; simpl; [by intros [= <-]|].
  destruct (sys_step cf sy ev) as [sy1|] eqn:E; [|by rewrite exec_none].
  apply IH. by apply (reach_step cf s0 sy ev).
Qed.
End schedules.

Definition counter_id : doc_id := DocId 10001 (replicate 16 7).

Definition as_number (v : option value) : Z :=
  match v with Some (VBigint n) => n | _ => 0 end.

(** Reads a counter, adds one and returns what it read. *)
Definition increment : prog Z :=
  Get counter_id (fun r =>
    match r with
    | Throw e => Raise e
    | Ok v => Put counter_id (VBigint (as_number v + 1)) (fun _ => Return (as_number v))
    end).

Definition observe : prog Z :=
  Get counter_id (fun r => match r with Throw e => Raise e | Ok v => Return (as_number v) end).

Definition no_options : run_options := RunOptions None None None None None None.
Definition sample_config : config := Config (js "default") DEFAULT_HEADROOM.

(** Two increments and one observer start together; the first increment lands. *)
Definition first_lands : list event :=
  [EBegin increment no_options; EBegin increment no_options; EBegin observe no_options;
   EOp 0; EOp 1; EOp 0; EOp 1; EApply 0].
(** The second one loses the race, replays and is about to land. *)
Definition second_replays : list event := first_lands ++ [EPublish; EApply 1; EOp 2; EOp 1; EOp 1].

Definition run_schedule (evs : list (event (T := Z))) : system (S := sqlite_store) (T := Z) :=
  default (start empty_store) (exec sample_config (start empty_store) evs).

Lemma run_schedule_reachable evs : reachable sample_config empty_store (run_schedule evs).
Proof.
  unfold run_schedule. destruct (exec _ _ evs) as [sy|] eqn:E; simpl; [|apply reach_start].
  by apply (exec_reachable _ _ (start empty_store) evs); [apply reach_start|].
Qed.

Definition attempt_at (evs : list (event (T := Z))) (i : nat) : active :=
  match sy_txns (run_schedule evs) !! i with
  | Some (Running a) => a
  | _ => Active observe no_options 0 (fresh_ctx sample_config no_options 0) observe
  end.

Definition observer_ready : list event := second_replays ++ [EApply 1].

Definition landed_commit : in_commit :=
  default (InCommit 0 [] 0) (sy_commit (run_schedule (second_replays ++ [EApply 1]))).

Definition observer_result : commit_result Z := pure_read (ac_ctx (attempt_at observer_ready 2)) 0.

Lemma second_ready : sy_txns (run_schedule second_replays) !! 1%nat = Some (Running (attempt_at second_replays 1)).
Proof. by vm_compute. Qed.

Lemma second_applies :
  sys_step sample_config (run_schedule second_replays) (EApply 1) = Some (run_schedule (second_replays ++ [EApply 1])).
Proof. by vm_compute. Qed.

Lemma second_landed : sy_commit (run_schedule (second_replays ++ [EApply 1])) = Some landed_commit.
Proof. by vm_compute. Qed.

Lemma observer_waits : sy_txns (run_schedule observer_ready) !! 2%nat = Some (Running (attempt_at observer_ready 2)).
Proof. by vm_compute. Qed.

Lemma observer_finishes :
  sys_step sample_config (run_schedule observer_ready) (EFinish 2) = Some (run_schedule (observer_ready ++ [EFinish 2])).
Proof. by vm_compute. Qed.

Lemma observer_done : sy_txns (run_schedule (observer_ready ++ [EFinish 2])) !! 2%nat = Some (Done (Ok observer_result)).
Proof. by vm_compute. Qed.

Lemma commits_serializable_witness :
  exists v, returned (attempt_at second_replays 1) = Some v /\ ac_attempt (attempt_at second_replays 1) = 1 /\
    ds_maxTimestamp (w_store (sy_writer (run_schedule second_replays))) < ic_ts landed_commit.
Proof.
  destruct (commits_serializable sample_config empty_store _ 1 _ _ _ empty_store_valid
    (run_schedule_reachable second_replays) second_ready second_applies second_landed) as (v & Hv & _ & _ & H & _).
  exists v. split_and!; [exact Hv|by vm_compute|exact H].
Defined.

Lemma pure_read_snapshot_witness :
  co_commitTs observer_result = 0 /\
  (run_prog (w_store (sy_writer (run_schedule observer_ready)))
     (fresh_ctx sample_config (ac_options (attempt_at observer_ready 2)) (co_commitTs observer_result))
     (ac_fn (attempt_at observer_ready 2))).2 = Ok (co_value observer_result).
Proof.
  split; [by vm_compute|].
  exact (proj1 (proj2 (proj2 (pure_read_snapshot sample_config empty_store _ 2 _ _ _ empty_store_valid
    (run_schedule_reachable observer_ready) observer_waits observer_finishes observer_done)))).
Defined.

Lemma published_after_clock_witness :
  let w := sy_writer (run_schedule (second_replays ++ [EApply 1; EPublish])) in
  od_commitTs <$> w_published w = [1; 2] /\ Forall (fun o => od_commitTs o <= getLastCommittedTimestamp (w_oracle w)) (w_published w).
Proof.
  destruct (published_after_clock sample_config empty_store _ empty_store_valid
    (run_schedule_reachable (second_replays ++ [EApply 1; EPublish]))) as [_ H].
  split; [by vm_compute|]. by apply Forall_forall.
Defined.

Lemma retries_bounded_and_mutex_released_witness :
  let sy := run_schedule first_lands in
  exists sy', sys_step sample_config sy EPublish = Some sy' /\ sy_commit sy' = None.
Proof.
  destruct (retries_bounded_and_mutex_released sample_config empty_store _ empty_store_valid
    (run_schedule_reachable first_lands)) as [_ H].
  apply (H (default (InCommit 0 [] 0) (sy_commit (run_schedule first_lands)))). by vm_compute.
Defined.
