(* ===== verification/GroupCommit.v ===== *)
(** Group commit on one shard, packages/transactor/src/shard-writer.ts:
    [runInTransactionGrouped], [stageUnit], [runCommitter], [flushWithSplit].

    Staging holds the mutex from [GStageBegin] to [GStageEnd] with one step
    per document looked up; the committer detaches under the mutex
    ([GDetach]), flushes without it ([GFlush]), publishes under it
    ([GPublish]). A promise is a number; [gs_promoted] lists the resolved
    ones. *)
From Stdlib Require Import ZArith Lia Sorted.
From stdpp Require Import base list sets strings.
From S2P Require Import Prelude JsBase JsText Float64 Values ValuesJson KeyCodec KeyRanges IdCodec DocStore SqliteDocStore Transactor SingleWriter.

Definition MAX_SPLIT_RETRIES : nat := 3.

Section group.
Context {S : Type} `{!DocStore S} {T : Type}.

(** [su_txn] stands for the two promise handles. *)
Record staged_unit := StagedUnit
  { su_txn : nat; su_documents : list log_entry; su_indexUpdates : list index_write;
    su_meta : option commit_meta; su_origin : option jsstr; su_writes : range_set; su_shardId : jsstr;
    su_value : T }.

Record batch := Batch
  { bt_promise : nat; bt_units : list staged_unit; bt_writesUnion : range_set; bt_docKeys : list jsstr }.

Definition newBatch (promise : nat) : batch := Batch promise [] rs_empty [].

(** * flushWithSplit *)

Record flush_outcome := FlushOutcome
  { fo_landed : list (staged_unit * Z); fo_rejected : list (staged_unit * js_error);
    fo_chunk : list staged_unit; fo_error : option js_error }.

Definition unit_of (u : staged_unit) : commit_unit := CommitUnit (su_documents u) (su_indexUpdates u) (su_meta u).

(** The index of the unit a guard rejected, when it names one of the batch. *)
Definition guard_index (e : js_error) (n : nat) : option nat :=
  match e with
  | CommitGuardRejection i => if (0 <=? i) && (i <? Z.of_nat n) then Some (Z.to_nat i) else None
  | _ => None
  end.

(** [splits] is what is left of the budget. *)
Fixpoint flush_loop (shardId : jsstr) (splits : nat) (s : S) (remaining : list staged_unit)
    (rejected : list (staged_unit * js_error)) : flush_outcome * S :=
  match ds_commitWriteBatch s (unit_of <$> remaining) (Some shardId) with
  | Ok (tss, s') => (FlushOutcome (zip remaining tss) rejected [] None, s')
  | Throw e =>
      match splits, guard_index e (length remaining) with
      | Datatypes.S splits', Some i =>
          match remaining !! i with
          | Some u =>
              let remaining' := delete i remaining in
              let rejected' := rejected ++ [(u, e)] in
              match remaining' with
              | [] => (FlushOutcome [] rejected' [] None, s)
              | _ => flush_loop shardId splits' s remaining' rejected'
              end
          | None => (FlushOutcome [] rejected remaining (Some e), s)
          end
      | _, _ => (FlushOutcome [] rejected remaining (Some e), s)
      end
  end.

Definition flushWithSplit (shardId : jsstr) (s : S) (units : list staged_unit) : flush_outcome * S :=
  flush_loop shardId MAX_SPLIT_RETRIES s units [].

(** * The shard *)

(** [CIdle] is [committerRunning = false]; a running committer is about to
    detach, is flushing, waits to publish, or stopped on an exception thrown
    while publishing. *)
Inductive committer :=
  | CIdle
  | CLooking
  | CFlushing (b : batch)
  | CLanded (b : batch) (o : flush_outcome)
  | CDead (b : batch) (o : flush_outcome).

Definition committerRunning (c : committer) : bool := match c with CIdle => false | _ => true end.
Definition flushingBatch (c : committer) : option batch :=
  match c with CFlushing b | CLanded b _ | CDead b _ => Some b | _ => None end.

Inductive gtxn :=
  | GRunning (a : active (T := T))
  | GStaging (a : active (T := T)) (v : T) (todo : list local_write) (docs : list log_entry)
  | GCut (a : active (T := T)) (v : T) (promise : nat)
  | GReplay (a : active (T := T)) (promise : nat)
  | GStaged (a : active (T := T))
  | GSettled (a : active (T := T)) (r : res (commit_result T))
  | GDone (r : res (commit_result T)).

Record gsystem := GSystem
  { gs_writer : writer S; gs_txns : list gtxn; gs_pending : option batch; gs_committer : committer;
    gs_holder : option nat; gs_promoted : list nat; gs_promises : nat;
    gs_lastBatchSize : nat; gs_maxBatchSize : nat; gs_flushCount : nat }.

Definition gs_with (gs : gsystem) (w : writer S) (txns : list gtxn) (holder : option nat) : gsystem :=
  GSystem w txns (gs_pending gs) (gs_committer gs) holder (gs_promoted gs) (gs_promises gs)
    (gs_lastBatchSize gs) (gs_maxBatchSize gs) (gs_flushCount gs).

Definition hasInFlightWork (gs : gsystem) : bool :=
  match flushingBatch (gs_committer gs), gs_pending gs with
  | Some _, _ => true
  | None, Some b => negb (length (bt_units b) =? 0)%nat
  | None, None => false
  end.

(** * stageUnit *)

Definition batch_conflict (c : ctx) (b : option batch) : option nat :=
  match b with
  | Some b => if rs_intersects (cx_validatedReads c) (bt_writesUnion b) then Some (bt_promise b) else None
  | None => None
  end.

Definition batch_has (b : option batch) (key : jsstr) : option nat :=
  match b with
  | Some b => if bool_decide (key ∈ bt_docKeys b) then Some (bt_promise b) else None
  | None => None
  end.

(** The first staged document an in-flight batch has written. *)
Fixpoint batch_cut (flushing pending : option batch) (ws : list local_write) : option nat :=
  match ws with
  | [] => None
  | w :: ws' =>
      match batch_has flushing (documentIdKey (lw_id w)) with
      | Some p => Some p
      | None =>
          match batch_has pending (documentIdKey (lw_id w)) with
          | Some p => Some p
          | None => batch_cut flushing pending ws'
          end
      end
  end.

Inductive stage_verdict :=
  | SRingConflict
  | STagged (promise : nat)
  | SCut (promise : nat)
  | SGo.

Definition stage_check (ring : list recent_commit) (flushing pending : option batch) (c : ctx) : stage_verdict :=
  if conflicts ring c then SRingConflict
  else match batch_conflict c flushing with
       | Some p => STagged p
       | None =>
           match batch_conflict c pending with
           | Some p => STagged p
           | None =>
               match batch_cut flushing pending (uw_entries (cx_staged c)) with
               | Some p => SCut p
               | None => SGo
               end
           end
       end.

Definition unit_for (i : nat) (a : active (T := T)) (v : T) (docs : list log_entry) : staged_unit :=
  StagedUnit i docs (commit_index_writes (ac_ctx a)) (ro_commitMeta (ac_options a)) (ro_origin (ac_options a))
    (cx_writeRanges (ac_ctx a)) (cx_shardId (ac_ctx a)) v.

Definition batch_append (b : batch) (u : staged_unit) (keys : list jsstr) : batch :=
  Batch (bt_promise b) (bt_units b ++ [u])
    (fold_left rs_add (rs_toArray (su_writes u)) (bt_writesUnion b))
    (fold_left (fun acc k => if bool_decide (k ∈ acc) then acc else acc ++ [k]) keys (bt_docKeys b)).

(** * Attempts *)

Definition of_txn (t : txn (T := T)) : gtxn :=
  match t with Running a | Committing a => GRunning a | Done r => GDone r end.

Definition set_gtxn (gs : gsystem) (i : nat) (wt : writer S * txn (T := T)) (holder : option nat) : gsystem :=
  gs_with gs wt.1 (<[i := of_txn wt.2]> (gs_txns gs)) holder.

(** A tagged conflict waits for the batch before it replays, unless the
    attempts are used up. *)
Definition tagged_conflict (cf : config) (gs : gsystem) (i : nat) (a : active) (p : nat) : gsystem :=
  if ac_attempt a <? effective_retries (ac_options a)
  then gs_with gs (gs_writer gs) (<[i := GReplay a p]> (gs_txns gs)) (gs_holder gs)
  else set_gtxn gs i (fail_attempt cf (gs_writer gs) a OccConflictError) (gs_holder gs).

Definition stage_begin (cf : config) (gs : gsystem) (i : nat) (a : active) (v : T) : gsystem :=
  match stage_check (w_ring (gs_writer gs)) (flushingBatch (gs_committer gs)) (gs_pending gs) (ac_ctx a) with
  | SRingConflict => set_gtxn gs i (fail_attempt cf (gs_writer gs) a OccConflictError) (gs_holder gs)
  | STagged p => tagged_conflict cf gs i a p
  | SCut p => gs_with gs (gs_writer gs) (<[i := GCut a v p]> (gs_txns gs)) (gs_holder gs)
  | SGo => gs_with gs (gs_writer gs)
             (<[i := GStaging a v (uw_entries (cx_staged (ac_ctx a))) []]> (gs_txns gs)) (Some i)
  end.

Definition stage_get (cf : config) (gs : gsystem) (i : nat) (a : active) (v : T) (w : local_write)
    (todo : list local_write) (docs : list log_entry) : gsystem :=
  match chain_entry (w_store (gs_writer gs)) w with
  | Ok e => gs_with gs (gs_writer gs) (<[i := GStaging a v todo (docs ++ [e])]> (gs_txns gs)) (gs_holder gs)
  | Throw e => set_gtxn gs i (fail_attempt cf (gs_writer gs) a e) None
  end.

Definition ensureCommitter (c : committer) : committer := if committerRunning c then c else CLooking.

(** Append to the pending batch and make sure a committer runs. *)
Definition stage_end (gs : gsystem) (i : nat) (a : active) (v : T) (docs : list log_entry) : gsystem :=
  let '(b, n) := match gs_pending gs with
                 | Some b => (b, gs_promises gs)
                 | None => (newBatch (gs_promises gs), Datatypes.S (gs_promises gs))
                 end in
  let keys := (fun w => documentIdKey (lw_id w)) <$> uw_entries (cx_staged (ac_ctx a)) in
  GSystem (gs_writer gs) (<[i := GStaged a]> (gs_txns gs)) (Some (batch_append b (unit_for i a v docs) keys))
    (ensureCommitter (gs_committer gs)) None (gs_promoted gs) n
    (gs_lastBatchSize gs) (gs_maxBatchSize gs) (gs_flushCount gs).

(** * runCommitter *)

Definition detach (gs : gsystem) : gsystem :=
  let stop := GSystem (gs_writer gs) (gs_txns gs) (gs_pending gs) CIdle (gs_holder gs) (gs_promoted gs)
                (gs_promises gs) (gs_lastBatchSize gs) (gs_maxBatchSize gs) (gs_flushCount gs) in
  match gs_pending gs with
  | None => stop
  | Some b =>
      if (length (bt_units b) =? 0)%nat then stop
      else GSystem (gs_writer gs) (gs_txns gs) None (CFlushing b) (gs_holder gs) (gs_promoted gs) (gs_promises gs)
             (length (bt_units b))
             (if (gs_maxBatchSize gs <? length (bt_units b))%nat then length (bt_units b) else gs_maxBatchSize gs)
             (Datatypes.S (gs_flushCount gs))
  end.

Definition flush (cf : config) (gs : gsystem) (b : batch) : gsystem :=
  let '(o, s') := flushWithSplit (cf_shardId cf) (w_store (gs_writer gs)) (bt_units b) in
  GSystem (with_store (gs_writer gs) s') (gs_txns gs) (gs_pending gs) (CLanded b o) (gs_holder gs)
    (gs_promoted gs) (gs_promises gs) (gs_lastBatchSize gs) (gs_maxBatchSize gs) (gs_flushCount gs).

(** Ring, then clock. *)
Definition record_unit (w : writer S) (u : staged_unit) (ts : Z) : writer S :=
  Writer (w_store w) (publishCommitted ts (w_oracle w)) (w_ring w ++ [RecentCommit ts (su_writes u)])
    (w_active w) (w_published w).

(** The loop over the landed units, up to the first that throws. *)
Fixpoint publish_landed (w : writer S) (landed : list (staged_unit * Z))
  : writer S * list (nat * res (commit_result T)) * option js_error :=
  match landed with
  | [] => (w, [], None)
  | (u, ts) :: landed' =>
      let w1 := record_unit w u ts in
      match build_oplog ts (su_shardId u) (su_writes u) (su_origin u) (su_documents u) with
      | Throw e => (w1, [], Some e)
      | Ok oplog =>
          let '(w2, answers, err) := publish_landed (publish_oplog w1 oplog) landed' in
          (w2, (su_txn u, Ok (CommitResult (su_value u) true ts (su_shardId u) (Some oplog))) :: answers, err)
      end
  end.

(** A promise of a unit settles once, while its transaction awaits it. *)
Definition settle (txns : list gtxn) (ar : nat * res (commit_result T)) : list gtxn :=
  match txns !! ar.1 with
  | Some (GStaged a) => <[ar.1 := GSettled a ar.2]> txns
  | _ => txns
  end.

Definition rejections (o : flush_outcome) : list (nat * res (commit_result T)) :=
  ((fun ue => (su_txn ue.1, Throw ue.2)) <$> fo_rejected o) ++
  ((fun u => (su_txn u, Throw (default TypeError (fo_error o)))) <$> fo_chunk o).

Definition publish_flush (gs : gsystem) (b : batch) (o : flush_outcome) : gsystem :=
  let '(w1, answers, err) := publish_landed (gs_writer gs) (fo_landed o) in
  match err with
  | Some _ =>
      GSystem w1 (fold_left settle answers (gs_txns gs)) (gs_pending gs) (CDead b o) (gs_holder gs)
        (gs_promoted gs) (gs_promises gs) (gs_lastBatchSize gs) (gs_maxBatchSize gs) (gs_flushCount gs)
  | None =>
      let w2 := match fo_landed o with [] => w1 | _ => prune w1 end in
      GSystem w2 (fold_left settle (answers ++ rejections o) (gs_txns gs)) (gs_pending gs) CLooking
        (gs_holder gs) (gs_promoted gs ++ [bt_promise b]) (gs_promises gs)
        (gs_lastBatchSize gs) (gs_maxBatchSize gs) (gs_flushCount gs)
  end.

(** * Schedules *)

Inductive gevent :=
  | GBegin (fn : prog T) (o : run_options)
  | GOp (i : nat)
  | GFinish (i : nat)
  | GStageBegin (i : nat)
  | GStageGet (i : nat)
  | GStageEnd (i : nat)
  | GReplayGo (i : nat)
  | GSettle (i : nat)
  | GDetach
  | GFlush
  | GPublish.

(** A transaction that may ask for the mutex: its function returned with
    writes staged, or the batch it was held back for has left. *)
Definition stageable (promoted : list nat) (t : gtxn) : option (active * T) :=
  match t with
  | GRunning a =>
      match returned a with
      | Some v => if (uw_size (cx_staged (ac_ctx a)) =? 0)%nat then None else Some (a, v)
      | None => None
      end
  | GCut a v p => if bool_decide (p ∈ promoted) then Some (a, v) else None
  | _ => None
  end.

Definition mutex_free (gs : gsystem) : bool := match gs_holder gs with None => true | Some _ => false end.

Definition gsys_step (cf : config) (gs : gsystem) (ev : gevent) : option gsystem :=
  match ev with
  | GBegin fn o =>
      let '(w, t) := begin_attempt cf (gs_writer gs) fn o 0 in
      Some (gs_with gs w (gs_txns gs ++ [of_txn t]) (gs_holder gs))
  | GOp i =>
      match gs_txns gs !! i with
      | Some (GRunning a) =>
          let '(c, p) := step_prog (w_store (gs_writer gs)) (ac_ctx a) (ac_rest a) in
          Some (gs_with gs (gs_writer gs)
                  (<[i := GRunning (Active (ac_fn a) (ac_options a) (ac_attempt a) c p)]> (gs_txns gs)) (gs_holder gs))
      | _ => None
      end
  | GFinish i =>
      match gs_txns gs !! i with
      | Some (GRunning a) => (fun wt => set_gtxn gs i wt (gs_holder gs)) <$> finish cf (gs_writer gs) a
      | _ => None
      end
  | GStageBegin i =>
      if mutex_free gs then
        t ← gs_txns gs !! i; '(a, v) ← stageable (gs_promoted gs) t; Some (stage_begin cf gs i a v)
      else None
  | GStageGet i =>
      match gs_txns gs !! i with
      | Some (GStaging a v (w :: todo) docs) => Some (stage_get cf gs i a v w todo docs)
      | _ => None
      end
  | GStageEnd i =>
      match gs_txns gs !! i with
      | Some (GStaging a v [] docs) => Some (stage_end gs i a v docs)
      | _ => None
      end
  | GReplayGo i =>
      match gs_txns gs !! i with
      | Some (GReplay a p) =>
          if bool_decide (p ∈ gs_promoted gs)
          then Some (set_gtxn gs i (fail_attempt cf (gs_writer gs) a OccConflictError) (gs_holder gs)) else None
      | _ => None
      end
  | GSettle i =>
      match gs_txns gs !! i with
      | Some (GSettled a r) =>
          Some (set_gtxn gs i (match r with
                               | Ok cr => finish_attempt (gs_writer gs) a cr
                               | Throw e => fail_attempt cf (gs_writer gs) a e
                               end) (gs_holder gs))
      | _ => None
      end
  | GDetach =>
      match gs_committer gs with
      | CLooking => if mutex_free gs then Some (detach gs) else None
      | _ => None
      end
  | GFlush => match gs_committer gs with CFlushing b => Some (flush cf gs b) | _ => None end
  | GPublish =>
      match gs_committer gs with
      | CLanded b o => if mutex_free gs then Some (publish_flush gs b o) else None
      | _ => None
      end
  end.

Definition gstart (s : S) : gsystem :=
  GSystem (Writer s (oracle_new (ds_maxTimestamp s)) [] [] []) [] None CIdle None [] 0 0 0 0.

Inductive greachable (cf : config) (s0 : S) : gsystem -> Prop :=
  | greach_start : greachable cf s0 (gstart s0)
  | greach_step gs ev gs' : greachable cf s0 gs -> gsys_step cf gs ev = Some gs' -> greachable cf s0 gs'.
End group.

(** * What an in-flight unit is owed *)

Section facts.
Context {S : Type} `{!DocStore S} {T : Type} {valid : S -> Prop} `{!DocStoreLaws S valid}.
Notation unit := (staged_unit (T := T)).
Implicit Types (s : S) (c : ctx) (u : unit) (q : list unit) (b : batch (T := T)).

(** What a transaction read is what the store has, and no unit of [q] will
    change it. *)
Definition reader_ok s q c : Prop :=
  forall id, covers (cx_validatedReads c) id ->
    ds_get s id (Some (cx_snapshotTs c)) = ds_get s id None /\ forall u, u ∈ q -> ~ covers (su_writes u) id.

(** Each document is chained to its latest revision, and no unit of [q] adds
    another. *)
Definition writes_key u (id : doc_id) : Prop :=
  exists e, e ∈ su_documents u /\ storage_key (le_id e) = storage_key id.

Definition chained s q (docs : list log_entry) : Prop :=
  forall e, e ∈ docs ->
    (exists prev, ds_get s (le_id e) None = Ok prev /\ le_prev e = (fun d => ld_ts d) <$> prev) /\
    forall u, u ∈ q -> ~ writes_key u (le_id e).

Definition unit_covered u : Prop :=
  rs_wf (su_writes u) /\ forall e, e ∈ su_documents u -> covers (su_writes u) (le_id e).

Lemma writes_key_covers u id : unit_covered u -> writes_key u id -> covers (su_writes u) id.
Proof. intros [_ Hu] (e & He & Hk). apply (storage_key_covers _ (le_id e)); [done|by apply Hu]. Qed.

Lemma touches_unit u id : touches (unit_of u) id <-> writes_key u id.
Proof. done. Qed.

(** What a flush of [us] does to a document none of them writes. *)
Lemma flushed_other s us sh tss s' id t :
  valid s -> ds_commitWriteBatch s (unit_of <$> us) sh = Ok (tss, s') -> ds_maxTimestamp s <= t ->
  (forall k u ts, us !! k = Some u -> tss !! k = Some ts -> ts <= t -> ~ writes_key u id) ->
  ds_get s' id (Some t) = ds_get s id None.
Proof.
  intros Hv Hc Ht Hu. apply (commit_get_other _ _ _ _ _ _ _ Hv Hc Ht). intros k cu ts Hk Hts Hle.
  rewrite list_lookup_fmap in Hk. destruct (us !! k) as [u|] eqn:E; [|done]. injection Hk as <-.
  by apply (Hu k u ts).
Qed.

Lemma flushed_latest s us sh tss s' id :
  valid s -> Forall unit_writes (unit_of <$> us) -> ds_commitWriteBatch s (unit_of <$> us) sh = Ok (tss, s') ->
  (forall u, u ∈ us -> ~ writes_key u id) -> ds_get s' id None = ds_get s id None.
Proof.
  intros Hv Hw Hc Hu. pose proof (commit_valid _ _ _ _ _ Hv Hc) as Hv'. rewrite (get_latest s' id Hv').
  apply (flushed_other s us sh tss); [done|done| |].
  - destruct (commit_increasing _ _ _ _ _ Hv Hw Hc) as (_ & Hinc & ->). by apply increasing_last_le.
  - intros k u ts Hk _ _. apply Hu. by eapply list_elem_of_lookup_2.
Qed.

(** * flushWithSplit *)

(** Landed, rejected and failed units are the batch, and a failed flush leaves
    the store as it was. *)
Record flush_ok (sh : option jsstr) s q rej0 (o : flush_outcome) s' : Prop := {
  fo_rej : exists rej, fo_rejected o = rej0 ++ rej /\ (fo_landed o).*1 ++ rej.*1 ++ fo_chunk o ≡ₚ q;
  fo_order : sublist ((fo_landed o).*1) q;
  fo_store : (fo_landed o = [] /\ s' = s) \/
    (fo_chunk o = [] /\ length (fo_landed o).*1 = length (fo_landed o).*2 /\
     ds_commitWriteBatch s (unit_of <$> (fo_landed o).*1) sh = Ok ((fo_landed o).*2, s'))
}.

Lemma unit_writes_forall q : (forall u, u ∈ q -> su_documents u <> []) -> Forall unit_writes (unit_of <$> q).
Proof. intros H. apply Forall_fmap, Forall_forall. intros u Hu. by apply H. Qed.

Lemma fst_zip_eq {A B} (l : list A) (k : list B) : length k = length l -> (zip l k).*1 = l.
Proof. intros H. apply fst_zip. lia. Qed.

Lemma snd_zip_eq {A B} (l : list A) (k : list B) : length k = length l -> (zip l k).*2 = k.
Proof. intros H. apply snd_zip. lia. Qed.

Lemma flush_loop_ok sh n s q rej o s' :
  valid s -> (forall u, u ∈ q -> su_documents u <> []) ->
  flush_loop sh n s q rej = (o, s') -> flush_ok (Some sh) s q rej o s'.
Proof.
  intros Hv. revert q rej. induction n as [|n IH]; intros q rej Hw; cbn [flush_loop];
    (destruct (ds_commitWriteBatch s (unit_of <$> q) (Some sh)) as [[tss s1]|e] eqn:Ec;
     [intros [= <- <-];
      destruct (commit_increasing _ _ _ _ _ Hv (unit_writes_forall q Hw) Ec) as (Hlen & _ & _); rewrite length_fmap in Hlen;
      split; cbn [fo_landed fo_rejected fo_chunk]; rewrite ?fst_zip_eq, ?snd_zip_eq by done;
      [exists []; by rewrite !app_nil_r|done|by right]|]);
    assert (Hfail : forall er, flush_ok (Some sh) s q rej (FlushOutcome [] rej q er) s)
      by (intros er; split; simpl; [exists []; by rewrite app_nil_r|apply sublist_nil_l|by left]).
  - intros [= <- <-]. apply Hfail.
  - destruct (guard_index e (length q)) as [i|]; [|intros [= <- <-]; apply Hfail].
    destruct (q !! i) as [u|] eqn:Hi; [|intros [= <- <-]; apply Hfail].
    pose proof (delete_Permutation q i u Hi) as Hp.
    assert (Hstep : forall o s', flush_ok (Some sh) s (delete i q) (rej ++ [(u, e)]) o s' -> flush_ok (Some sh) s q rej o s').
    { intros o1 s1 [(r & Hr & Hperm) Ho Hs]. split; [|by transitivity (delete i q); [|apply sublist_delete]|done].
      exists ((u, e) :: r). split; [by rewrite Hr, <- app_assoc|]. csimpl. rewrite Hp, <- Hperm. by rewrite <- Permutation_middle. }
    destruct (delete i q) as [|u' q'] eqn:Ed.
    + intros [= <- <-]. apply Hstep. split; simpl; [exists []; by rewrite app_nil_r|done|by left].
    + intros Hf. apply Hstep. rewrite <- Ed in *. apply IH; [|done].
      intros x Hx. apply Hw. rewrite Hp. by right.
Qed.

(** * Batches *)

Record batch_ok b : Prop := {
  bo_wf : rs_wf (bt_writesUnion b);
  bo_writes : forall u id, u ∈ bt_units b -> covers (su_writes u) id -> covers (bt_writesUnion b) id;
  bo_keys : forall u e, u ∈ bt_units b -> e ∈ su_documents u -> documentIdKey (le_id e) ∈ bt_docKeys b
}.

Lemma newBatch_ok p : batch_ok (newBatch p).
Proof. split; simpl; [apply rs_wf_empty|set_solver..]. Qed.

Lemma fold_add_wf l rs : rs_wf rs -> rs_wf (fold_left rs_add l rs).
Proof. revert rs. induction l as [|r l IH]; intros rs H; simpl; [done|]. apply IH. by apply rs_wf_add. Qed.

Lemma fold_add_covers l rs id :
  rs_wf rs -> covers rs id \/ (exists r, r ∈ l /\ kr_keyspace r = docKeyspace id /\ keyInRange (internalId id) r = true) ->
  covers (fold_left rs_add l rs) id.
Proof.
  revert rs. induction l as [|r l IH]; intros rs Hw H; simpl.
  - destruct H as [H|(r & Hr & _)]; [done|]. by apply not_elem_of_nil in Hr.
  - apply IH; [by apply rs_wf_add|]. destruct H as [H|(x & [->|Hx]%elem_of_cons & H)].
    + left. apply key_in_add; [done|by right].
    + left. apply key_in_add; [done|by left].
    + right. by exists x.
Qed.

Lemma fold_keys_elem (keys acc : list jsstr) k :
  k ∈ fold_left (fun acc k => if bool_decide (k ∈ acc) then acc else acc ++ [k]) keys acc <-> k ∈ acc \/ k ∈ keys.
Proof.
  revert acc. induction keys as [|x keys IH]; intros acc; simpl; [set_solver|].
  rewrite IH. case_bool_decide; set_solver.
Qed.

Lemma batch_append_ok b u keys :
  batch_ok b -> (forall e, e ∈ su_documents u -> documentIdKey (le_id e) ∈ keys) -> batch_ok (batch_append b u keys).
Proof.
  intros [H1 H2 H3] Hk. split; unfold batch_append; cbn [bt_units bt_writesUnion bt_docKeys].
  - by apply fold_add_wf.
  - intros x id [Hx| ->%list_elem_of_singleton]%elem_of_app Hc; apply fold_add_covers; [done| |done|].
    + left. by apply (H2 x).
    + right. exact Hc.
  - intros x e [Hx| ->%list_elem_of_singleton]%elem_of_app He; apply fold_keys_elem; [left; by apply (H3 x)|right; by apply Hk].
Qed.

Lemma storage_key_documentIdKey id id' : storage_key id = storage_key id' -> documentIdKey id = documentIdKey id'.
Proof.
  destruct id as [t i], id' as [t' i']. unfold storage_key, documentIdKey. cbn [tableNumber internalId].
  intros [= Ht ->]. unfold encodeStorageTableId in Ht. by rewrite Ht.
Qed.

(** The checks of the stage step, against both in-flight batches. *)
Lemma batch_conflict_none c b id u :
  rs_wf (cx_validatedReads c) -> batch_ok b -> batch_conflict c (Some b) = None -> u ∈ bt_units b ->
  covers (cx_validatedReads c) id -> ~ covers (su_writes u) id.
Proof.
  intros Hr [H1 H2 _] Hc Hu Hid Hw. unfold batch_conflict in Hc.
  rewrite (common_key_intersects _ _ (docKeyspace id) (internalId id)) in Hc; [done|done|done|done|by apply (H2 u)].
Qed.

Lemma batch_has_none b key : batch_has (Some b) key = None -> key ∉ bt_docKeys b.
Proof. unfold batch_has. by case_bool_decide. Qed.

Lemma batch_cut_none (f p : option (batch (T := T))) ws w :
  batch_cut f p ws = None -> w ∈ ws ->
  batch_has f (documentIdKey (lw_id w)) = None /\ batch_has p (documentIdKey (lw_id w)) = None.
Proof.
  induction ws as [|x ws IH]; simpl; [by intros _ H%not_elem_of_nil|].
  destruct (batch_has f (documentIdKey (lw_id x))) eqn:Ef; [done|].
  destruct (batch_has p (documentIdKey (lw_id x))) eqn:Ep; [done|].
  intros Hc [->|Hw]%elem_of_cons; [done|by apply IH].
Qed.

Lemma batch_cut_writes b w u :
  batch_ok b -> batch_has (Some b) (documentIdKey (lw_id w)) = None -> u ∈ bt_units b -> ~ writes_key u (lw_id w).
Proof.
  intros Hb Hn%batch_has_none Hu (e & He & Hk). apply Hn. rewrite <- (storage_key_documentIdKey _ _ Hk).
  by apply (bo_keys b Hb u).
Qed.
End facts.
