(* ===== verification/GroupInvariant.v ===== *)
(** The invariant of group commit: what staged, landed and published work is
    owed in every schedule of GroupCommit. *)
From Stdlib Require Import ZArith Lia Sorted.
From stdpp Require Import base list sets strings.
From S2P Require Import Prelude JsBase JsText Float64 Values ValuesJson KeyCodec KeyRanges IdCodec DocStore SqliteDocStore Transactor SingleWriter GroupCommit.

(** The attempt of a transaction that is not over. *)
Definition gactive {T} (t : gtxn (T := T)) : option active :=
  match t with
  | GRunning a | GStaging a _ _ _ | GCut a _ _ | GReplay a _ | GStaged a | GSettled a _ => Some a
  | GDone _ => None
  end.

Definition glive {T} (t : gtxn (T := T)) : option Z := (fun a => cx_snapshotTs (ac_ctx a)) <$> gactive t.

Definition flushing_units {T} (c : committer (T := T)) : list staged_unit :=
  match flushingBatch c with Some b => bt_units b | None => [] end.
Definition pending_units {T} (p : option (batch (T := T))) : list staged_unit :=
  match p with Some b => bt_units b | None => [] end.

(** Staged and not landed, in the order they will land. *)
Definition unlanded {T} (c : committer (T := T)) : list staged_unit :=
  match c with CFlushing b => bt_units b | _ => [] end.
Definition queue {T} (c : committer (T := T)) (p : option batch) : list staged_unit := unlanded c ++ pending_units p.

(** Landed and not all published. *)
Definition landed {T} (c : committer (T := T)) : list (staged_unit * Z) :=
  match c with CLanded _ o | CDead _ o => fo_landed o | _ => [] end.

(** Units whose transaction awaits an answer the committer will give. *)
Definition unanswered {T} (c : committer (T := T)) : list staged_unit :=
  match c with CFlushing b | CLanded b _ => bt_units b | _ => [] end.

Section invariant.
Context {S : Type} `{!DocStore S} {T : Type} {valid : S -> Prop} `{!DocStoreLaws S valid} (cf : config).
Notation unit := (staged_unit (T := T)).
Notation txns := (list (gtxn (T := T))).
Implicit Types (w : writer S) (l : txns) (com : committer (T := T)) (pen : option (batch (T := T))).

(** A staged unit is what its transaction wrote. *)
Record unit_ok (s : S) (q : list unit) (u : unit) (a : active (T := T)) : Prop := {
  uo_value : returned a = Some (su_value u);
  uo_writes : su_writes u = cx_writeRanges (ac_ctx a);
  uo_ids : le_id <$> su_documents u = lw_id <$> uw_entries (cx_staged (ac_ctx a));
  uo_nonempty : cx_staged (ac_ctx a) <> [];
  uo_reads : reader_ok s q (ac_ctx a);
  uo_chain : chained s q (su_documents u)
}.

Record staging_ok (s : S) (q : list unit) (fl : list unit) (a : active (T := T)) (v : T)
    (todo : list local_write) (docs : list log_entry) : Prop := {
  so_value : returned a = Some v;
  so_nonempty : cx_staged (ac_ctx a) <> [];
  so_ids : (le_id <$> docs) ++ (lw_id <$> todo) = lw_id <$> uw_entries (cx_staged (ac_ctx a));
  so_reads : reader_ok s q (ac_ctx a);
  so_chain : chained s q docs;
  so_free : forall (w : local_write) u, w ∈ todo -> u ∈ fl -> ~ writes_key u (lw_id w)
}.

Definition gclock (w : writer S) com : Prop :=
  let L := getLastCommittedTimestamp (w_oracle w) in
  match com with
  | CLanded _ o => increasing_above L (fo_landed o).*2 /\ ds_maxTimestamp (w_store w) = default L (last (fo_landed o).*2)
  | CDead _ _ => L <= ds_maxTimestamp (w_store w)
  | _ => ds_maxTimestamp (w_store w) = L
  end.

Definition waiting_ok (t : gtxn (T := T)) : Prop :=
  match t with
  | GCut a v _ => returned a = Some v /\ cx_staged (ac_ctx a) <> []
  | GStaged a => is_Some (returned a)
  | _ => True
  end.

Definition outcome_ok com : Prop :=
  match com with
  | CLanded b o | CDead b o =>
      (fo_landed o).*1 ++ (fo_rejected o).*1 ++ fo_chunk o ≡ₚ bt_units b /\ sublist (fo_landed o).*1 (bt_units b)
  | _ => True
  end.

Definition free_of (w : writer S) com (t : Z) (id : doc_id) : Prop :=
  (forall rc, rc ∈ w_ring w -> t < rc_ts rc -> ~ covers (rc_writes rc) id) /\
  (forall ut, ut ∈ landed com -> ~ covers (su_writes ut.1) id).

(** A snapshot whose reads must be stable. *)
Definition watched (w : writer S) l (t : Z) : Prop :=
  getLastCommittedTimestamp (w_oracle w) <= t <= ds_maxTimestamp (w_store w) \/ (0 < count_snap glive t l)%nat.

Record ginv (w : writer S) l pen com (holder : option nat) : Prop := {
  gi_valid : valid (w_store w);
  gi_clock : gclock w com;
  gi_counts : forall t, active_count w t = Z.of_nat (count_snap glive t l);
  gi_ring : forall rc, rc ∈ w_ring w ->
    rc_ts rc <= getLastCommittedTimestamp (w_oracle w) /\ rs_wf (rc_writes rc);
  gi_attempts : forall i t a, l !! i = Some t -> gactive t = Some a -> attempt_ok cf w a /\ waiting_ok t;
  gi_snapshots : forall t id, watched w l t -> free_of w com t id ->
    ds_get (w_store w) id (Some t) = ds_get (w_store w) id None;
  gi_queue : forall k u, queue com pen !! k = Some u ->
    exists a, l !! su_txn u = Some (GStaged a) /\ unit_ok (w_store w) (take k (queue com pen)) u a;
  gi_covered : forall u, u ∈ flushing_units com ++ pending_units pen -> unit_covered u;
  gi_nodup : NoDup (su_txn <$> (unanswered com ++ pending_units pen));
  gi_awaiting : forall u, u ∈ unanswered com ++ pending_units pen -> exists a, l !! su_txn u = Some (GStaged a);
  gi_batches : forall b, flushingBatch com = Some b \/ pen = Some b -> batch_ok b;
  gi_outcome : outcome_ok com;
  gi_staging : forall i a v todo docs, l !! i = Some (GStaging a v todo docs) ->
    holder = Some i /\ staging_ok (w_store w) (queue com pen) (flushing_units com ++ pending_units pen) a v todo docs
}.

Lemma glive_of_txn (t : txn (T := T)) : glive (of_txn t) = live t.
Proof. by destruct t. Qed.

Lemma gclock_le w com : gclock w com -> getLastCommittedTimestamp (w_oracle w) <= ds_maxTimestamp (w_store w).
Proof. destruct com; simpl; try lia. intros [Hi ->]. by apply increasing_last_le. Qed.

Lemma gstart_inv s :
  valid s -> let gs := gstart (T := T) s in
  ginv (gs_writer gs) (gs_txns gs) (gs_pending gs) (gs_committer gs) (gs_holder gs).
Proof.
  intros Hv. split; simpl; try done.
  - set_solver.
  - intros t id Ht _. unfold watched in Ht. simpl in Ht. destruct Ht as [Ht|?]; [|lia].
    rewrite (get_latest s id Hv). do 2 f_equal. unfold getLastCommittedTimestamp in Ht. simpl in Ht. lia.
  - set_solver.
  - constructor.
  - set_solver.
  - intros b [?|?]; done.
Qed.

(** ** Changing one transaction *)

(** The parts of the writer a transaction's own step may change. *)
Definition same_core w w' : Prop :=
  w_store w' = w_store w /\ w_oracle w' = w_oracle w /\ w_ring w' = w_ring w.

Definition counts_shift w w' (old x : gtxn (T := T)) : Prop :=
  forall t, active_count w' t = active_count w t - Z.of_nat (pins glive old t) + Z.of_nat (pins glive x t).

(** A new attempt that was not there before starts at the committed clock. *)
Definition settled_slot w (old x : gtxn (T := T)) : Prop :=
  match gactive x with
  | None => True
  | Some b => attempt_ok cf w b /\ waiting_ok x /\
      (glive x = glive old \/ glive x = Some (getLastCommittedTimestamp (w_oracle w)))
  end.

Lemma watched_slot w w' l i old x t com :
  same_core w w' -> gclock w com -> l !! i = Some old -> settled_slot w old x -> watched w' (<[i := x]> l) t -> watched w l t.
Proof.
  intros (E1 & E2 & _) Hck Hi Hs. unfold watched. rewrite E1, E2. intros [?|Hp]; [by left|].
  destruct (decide (0 < count_snap glive t l)%nat) as [|Hz]; [by right|left].
  pose proof (count_snap_insert glive t l i _ x Hi) as Hc.
  assert (Hx : pins glive x t <> 0%nat) by lia. unfold pins in Hx. case_bool_decide as Hb; [|done].
  unfold settled_slot in Hs. unfold glive in Hb. destruct (gactive x) as [b|] eqn:Ex; [|done].
  destruct Hs as (_ & _ & [Ho|Ho]).
  - unfold pins in Hc. rewrite <- Ho in Hc. rewrite bool_decide_true in Hc; [lia|]. unfold glive. by rewrite Ex.
  - unfold glive in Ho. rewrite Ex in Ho. rewrite Hb in Ho. injection Ho as ->.
    pose proof (gclock_le _ _ Hck). lia.
Qed.

Lemma slot_ginv w w' l pen com holder holder' i old x :
  ginv w l pen com holder -> l !! i = Some old -> (forall a, old <> GStaged a) ->
  same_core w w' -> counts_shift w w' old x -> settled_slot w old x ->
  (forall a v todo docs, x = GStaging a v todo docs ->
     holder' = Some i /\ staging_ok (w_store w) (queue com pen) (flushing_units com ++ pending_units pen) a v todo docs) ->
  (forall j a v todo docs, j <> i -> l !! j = Some (GStaging a v todo docs) -> holder' = Some j) ->
  ginv w' (<[i := x]> l) pen com holder'.
Proof.
  intros Hinv Hi Hold Hsame Hcs Hset Hx Hother. pose proof Hinv as [Hv Hck Hcnt Hr Hat Hsn Hq Hcov Hnd Haw Hb Hout Hst].
  pose proof Hsame as (E1 & E2 & E3). split; try done.
  - by rewrite E1.
  - unfold gclock in *. by rewrite E1, E2.
  - intros t. rewrite Hcs, Hcnt. pose proof (count_snap_insert glive t l i _ x Hi). lia.
  - by rewrite E2, E3.
  - intros j t a Hj Ha. unfold attempt_ok. rewrite E1, E2. apply insert_other in Hj as [[_ ->]|[_ Hj]]; [|by apply (Hat j)].
    unfold settled_slot in Hset. rewrite Ha in Hset. by destruct Hset as (? & ? & _).
  - intros t id Ht Hf. rewrite E1. apply Hsn; [by apply (watched_slot w w' l i old x t com)|].
    unfold free_of in *. by rewrite E3 in Hf.
  - intros k u Hk. rewrite E1. destruct (Hq k u Hk) as (a & Ha & Hu). exists a. split; [|done].
    rewrite list_lookup_insert_ne; [done|]. intros ->. rewrite Hi in Ha. injection Ha as Ha. by apply (Hold a).
  - intros u Hu. destruct (Haw u Hu) as [a Ha]. exists a. rewrite list_lookup_insert_ne; [done|]. intros ->.
    rewrite Hi in Ha. injection Ha as Ha. by apply (Hold a).
  - intros j a v todo docs Hj. rewrite E1. apply insert_other in Hj as [[-> Hj]|[Hne Hj]]; [by apply Hx|].
    split; [by apply (Hother j a v todo docs)|]. by apply (Hst j).
Qed.

Lemma gattempt_counted w l pen com holder i t a :
  ginv w l pen com holder -> l !! i = Some t -> gactive t = Some a ->
  1 <= active_count w (cx_snapshotTs (ac_ctx a)).
Proof.
  intros Hinv Hi Ha. rewrite (gi_counts _ _ _ _ _ Hinv).
  pose proof (count_snap_pos glive (cx_snapshotTs (ac_ctx a)) l i t Hi) as H. unfold glive in H at 1. rewrite Ha in H.
  specialize (H eq_refl). lia.
Qed.

(** The outcomes of SingleWriter as slots. *)
Lemma slot_next_slot w a old (wt : writer S * txn (T := T)) :
  slot_next cf w a wt -> gactive old = Some a ->
  same_core w wt.1 /\ counts_shift w wt.1 old (of_txn wt.2) /\ settled_slot w old (of_txn wt.2) /\
  (forall b v todo docs, of_txn wt.2 <> GStaging b v todo docs).
Proof.
  intros (E1 & E2 & E3 & _ & Hc & Hn) Ha. split_and!; [done| | |by destruct wt.2].
  - intros t. rewrite Hc. unfold pins. rewrite glive_of_txn. unfold glive. by rewrite Ha.
  - destruct Hn as [[r ->]|(fn & o & n & ->)]; [done|]. unfold settled_slot. simpl.
    split_and!; [apply (fresh_attempt_ok cf w)|done|by right].
Qed.

(** Answering transaction [i] frees nothing of the others. *)
Lemma answer_ginv w l pen com holder i old a wt :
  ginv w l pen com holder -> l !! i = Some old -> gactive old = Some a -> (forall b, old <> GStaged b) ->
  slot_next cf w a wt -> ginv wt.1 (<[i := of_txn wt.2]> l) pen com holder.
Proof.
  intros Hinv Hi Ha Ho Hs. destruct (slot_next_slot w a old wt Hs Ha) as (H1 & H2 & H3 & H4).
  apply (slot_ginv w wt.1 l pen com holder holder i old); try done.
  - intros b v todo docs E. by apply H4 in E.
  - intros j b v todo docs _ Hj. by destruct (gi_staging _ _ _ _ _ Hinv _ _ _ _ _ Hj).
Qed.

(** Same, when [i] was the one staging. *)
Lemma answer_staging_ginv w l pen com holder i a v todo docs wt :
  ginv w l pen com holder -> l !! i = Some (GStaging a v todo docs) ->
  slot_next cf w a wt -> ginv wt.1 (<[i := of_txn wt.2]> l) pen com None.
Proof.
  intros Hinv Hi Hs. destruct (slot_next_slot w a (GStaging a v todo docs) wt Hs eq_refl) as (H1 & H2 & H3 & H4).
  apply (slot_ginv w wt.1 l pen com holder None i (GStaging a v todo docs)); try done.
  - intros b v' todo' docs' E. by apply H4 in E.
  - intros j b v' todo' docs' Hne Hj. destruct (gi_staging _ _ _ _ _ Hinv _ _ _ _ _ Hj) as [Hh _].
    destruct (gi_staging _ _ _ _ _ Hinv _ _ _ _ _ Hi) as [Hh' _]. congruence.
Qed.

(** The attempt goes on, in another phase. *)
Lemma phase_ginv w l pen com holder i old x a :
  ginv w l pen com holder -> l !! i = Some old -> gactive old = Some a -> gactive x = Some a -> waiting_ok x ->
  (forall b, old <> GStaged b) -> (forall b v todo docs, x <> GStaging b v todo docs) ->
  ginv w (<[i := x]> l) pen com holder.
Proof.
  intros Hinv Hi Ha Hx Hw Ho Hns. apply (slot_ginv w w l pen com holder holder i old); try done.
  - intros t. unfold pins, glive. rewrite Ha, Hx. lia.
  - unfold settled_slot. rewrite Hx. split_and!; [by eapply (gi_attempts _ _ _ _ _ Hinv i)|done|].
    left. unfold glive. by rewrite Ha, Hx.
  - intros b v todo docs E. by apply Hns in E.
  - intros j b v todo docs _ Hj. by destruct (gi_staging _ _ _ _ _ Hinv _ _ _ _ _ Hj).
Qed.

(** ** Events *)

Lemma gbegin_inv w l pen com holder fn o :
  ginv w l pen com holder ->
  let wt := begin_attempt cf w fn o 0 in ginv wt.1 (l ++ [of_txn wt.2]) pen com holder.
Proof.
  intros [Hv Hck Hcnt Hr Hat Hsn Hq Hcov Hnd Haw Hb Hout Hst]. cbn [begin_attempt fst snd of_txn]. cbv zeta.
  set (L := getLastCommittedTimestamp (w_oracle w)) in *. set (x := GRunning _).
  assert (Happ : forall j y, (l ++ [x]) !! j = Some y -> l !! j = Some y \/ y = x).
  { intros j y Hj. apply lookup_app_Some in Hj as [Hj|[_ Hj]]; [by left|right].
    destruct (j - length l)%nat; simpl in Hj; [congruence|done]. }
  assert (Hx : glive x = Some L) by done.
  split; simpl; try done.
  - intros t. rewrite retain_count, Hcnt, count_snap_app. simpl. unfold pins. rewrite Hx.
    case_bool_decide as Hd; destruct (decide (t = L)); simplify_eq; lia.
  - intros j t a Hj Ha. apply Happ in Hj as [Hj| ->]; [by apply (Hat j)|]. injection Ha as <-.
    split; [|done]. apply (fresh_attempt_ok cf w).
  - intros t id Ht Hf. apply Hsn; [|done]. unfold watched in *. simpl in *. destruct Ht as [?|Ht]; [by left|].
    rewrite count_snap_app in Ht. simpl in Ht. unfold pins in Ht. rewrite Hx in Ht.
    case_bool_decide as Hd; [|right; lia]. injection Hd as <-. left. pose proof (gclock_le _ _ Hck). subst L. lia.
  - intros k u Hk. destruct (Hq k u Hk) as (a & Ha & Hu). exists a. split; [by apply lookup_app_l_Some|done].
  - intros u Hu. destruct (Haw u Hu) as [a Ha]. exists a. by apply lookup_app_l_Some.
  - intros j a v todo docs Hj. apply Happ in Hj as [Hj|Hj]; [by apply (Hst j)|done].
Qed.

Lemma gop_inv w l pen com holder i a c p :
  ginv w l pen com holder -> l !! i = Some (GRunning a) ->
  step_prog (w_store w) (ac_ctx a) (ac_rest a) = (c, p) ->
  ginv w (<[i := GRunning (Active (ac_fn a) (ac_options a) (ac_attempt a) c p)]> l) pen com holder.
Proof.
  intros Hinv Hi Hs. destruct (gi_attempts _ _ _ _ _ Hinv i _ a Hi eq_refl) as [(Hok & Hle & Hrun) _].
  destruct (step_facts _ _ _ _ _ Hok Hs) as [Hok' Hsnap].
  apply (slot_ginv w w l pen com holder holder i (GRunning a)); try done.
  - intros t. unfold pins, glive. simpl. rewrite Hsnap. lia.
  - unfold settled_slot. cbn [gactive]. split_and!; [|done|left; unfold glive; simpl; by rewrite Hsnap].
    unfold attempt_ok. cbn [ac_ctx ac_options ac_fn ac_rest].
    rewrite Hsnap. split_and!; [done|done|]. by rewrite Hrun, run_step, Hs.
  - intros j b v todo docs _ Hj. by destruct (gi_staging _ _ _ _ _ Hinv _ _ _ _ _ Hj).
Qed.

Lemma unlanded_flushing com u : u ∈ unlanded com -> u ∈ flushing_units com.
Proof. destruct com; try done; by intros ?%not_elem_of_nil. Qed.

Lemma queue_in_flight com pen u : u ∈ queue com pen -> u ∈ flushing_units com ++ pending_units pen.
Proof. unfold queue. rewrite !elem_of_app. intros [?%unlanded_flushing|?]; auto. Qed.

Lemma landed_flushing w l pen com holder ut :
  ginv w l pen com holder -> ut ∈ landed com -> ut.1 ∈ flushing_units com.
Proof.
  intros Hinv. pose proof (gi_outcome _ _ _ _ _ Hinv) as Ho. destruct com; simpl; try (by intros ?%not_elem_of_nil);
    destruct Ho as [Ho _]; intros Hin%(list_elem_of_fmap_2 fst); unfold flushing_units; simpl; rewrite <- Ho, elem_of_app; by left.
Qed.

Lemma stage_check_go w l pen com holder i t a :
  ginv w l pen com holder -> l !! i = Some t -> gactive t = Some a ->
  stage_check (w_ring w) (flushingBatch com) pen (ac_ctx a) = SGo ->
  reader_ok (w_store w) (queue com pen) (ac_ctx a) /\
  forall x u, x ∈ uw_entries (cx_staged (ac_ctx a)) -> u ∈ flushing_units com ++ pending_units pen ->
    ~ writes_key u (lw_id x).
Proof.
  intros Hinv Hi Ha. unfold stage_check. destruct (conflicts _ _) eqn:Ec; [done|].
  destruct (batch_conflict _ (flushingBatch com)) eqn:Ef; [done|].
  destruct (batch_conflict _ pen) eqn:Ep; [done|]. destruct (batch_cut _ _ _) eqn:Ecut; [done|]. intros _.
  destruct (gi_attempts _ _ _ _ _ Hinv i t a Hi Ha) as [(Hok & Hle & _) _].
  assert (Hno : forall u id, u ∈ flushing_units com ++ pending_units pen ->
            covers (cx_validatedReads (ac_ctx a)) id -> ~ covers (su_writes u) id).
  { intros u id [Hu|Hu]%elem_of_app Hid; unfold flushing_units, pending_units in Hu;
      [destruct (flushingBatch com) as [b|] eqn:Eb|destruct pen as [b|] eqn:Eb]; try (by apply not_elem_of_nil in Hu);
      (apply (batch_conflict_none (ac_ctx a) b); [apply Hok| |done|done|done]);
      apply (gi_batches _ _ _ _ _ Hinv); auto. }
  split.
  - intros id Hid. split.
    + apply (gi_snapshots _ _ _ _ _ Hinv).
      * right. apply (count_snap_pos glive _ l i t Hi). unfold glive. by rewrite Ha.
      * split; [|intros ut Hut; apply Hno; [apply elem_of_app; left; by eapply landed_flushing|done]].
        intros rc Hin Hlt. apply (no_conflict (w_ring w) (ac_ctx a)); [done|done|done| |done|done].
        by apply (gi_ring _ _ _ _ _ Hinv).
    + intros u Hu. apply Hno; [by apply queue_in_flight|done].
  - intros x u Hx Hu. destruct (batch_cut_none _ _ _ _ Ecut Hx) as [H1 H2]. unfold flushing_units, pending_units in Hu.
    apply elem_of_app in Hu as [Hu|Hu];
      [destruct (flushingBatch com) as [b|] eqn:Eb|destruct pen as [b|] eqn:Eb]; try (by apply not_elem_of_nil in Hu);
      (apply (batch_cut_writes b); [apply (gi_batches _ _ _ _ _ Hinv); auto|done|done]).
Qed.

Lemma stageable_facts promoted t a v w l pen com holder i :
  ginv w l pen com holder -> l !! i = Some t -> stageable promoted t = Some (a, v) ->
  gactive t = Some a /\ returned a = Some v /\ cx_staged (ac_ctx a) <> [] /\ (forall b, t <> GStaged b).
Proof.
  intros Hinv Hi Hs. destruct t; simpl in Hs; try done.
  - destruct (returned a0) as [v0|] eqn:Er; [|done]. destruct (uw_size _ =? 0)%nat eqn:Esz; [done|].
    injection Hs as -> ->. split_and!; [done|done| |done].
    intros H. apply Nat.eqb_neq in Esz. apply Esz. unfold uw_size. by rewrite H.
  - case_bool_decide; [|done]. injection Hs as -> ->.
    destruct (gi_attempts _ _ _ _ _ Hinv i _ a Hi eq_refl) as [_ [? ?]]. done.
Qed.

Notation ginv_of gs := (ginv (gs_writer gs) (gs_txns gs) (gs_pending gs) (gs_committer gs) (gs_holder gs)).

Lemma stage_begin_inv gs i t a v :
  ginv_of gs -> gs_holder gs = None -> gs_txns gs !! i = Some t ->
  stageable (gs_promoted gs) t = Some (a, v) -> ginv_of (stage_begin cf gs i a v).
Proof.
  intros Hinv Hh Hi Hs. destruct (stageable_facts _ _ _ _ _ _ _ _ _ _ Hinv Hi Hs) as (Ha & Hv & Hne & Hnst).
  pose proof (gattempt_counted _ _ _ _ _ _ _ _ Hinv Hi Ha) as Hc.
  unfold stage_begin. destruct (stage_check _ _ _ _) eqn:Ec.
  - apply (answer_ginv _ _ _ _ _ i t a _ Hinv Hi Ha Hnst). by apply fail_attempt_next.
  - unfold tagged_conflict. destruct (_ <? _).
    + by apply (phase_ginv _ _ _ _ _ i t (GReplay a promise) a Hinv Hi Ha).
    + apply (answer_ginv _ _ _ _ _ i t a _ Hinv Hi Ha Hnst). by apply fail_attempt_next.
  - by apply (phase_ginv _ _ _ _ _ i t (GCut a v promise) a Hinv Hi Ha).
  - destruct (stage_check_go _ _ _ _ _ _ _ _ Hinv Hi Ha Ec) as [Hro Hfree].
    cbn [gs_with gs_writer gs_txns gs_pending gs_committer gs_holder].
    apply (slot_ginv (gs_writer gs) (gs_writer gs) _ _ _ (gs_holder gs) (Some i) i t _ Hinv Hi); try done.
    + intros ts. unfold pins, glive. rewrite Ha. simpl. lia.
    + unfold settled_slot. cbn [gactive]. split_and!; [by apply (gi_attempts _ _ _ _ _ Hinv i t)|done|].
      left. unfold glive. by rewrite Ha.
    + intros a' v' todo docs [= <- <- <- <-]. split; [done|]. split; try done.
      by intros e ?%not_elem_of_nil.
    + intros j b v' todo docs _ Hj. destruct (gi_staging _ _ _ _ _ Hinv _ _ _ _ _ Hj). congruence.
Qed.

Lemma stage_get_inv gs i a v x todo docs :
  ginv_of gs -> gs_txns gs !! i = Some (GStaging a v (x :: todo) docs) ->
  ginv_of (stage_get cf gs i a v x todo docs).
Proof.
  intros Hinv Hi. pose proof (gattempt_counted _ _ _ _ _ _ _ _ Hinv Hi eq_refl) as Hc.
  destruct (gi_staging _ _ _ _ _ Hinv _ _ _ _ _ Hi) as [Hh [S1 S2 S3 S4 S5 S6]].
  unfold stage_get, chain_entry. destruct (ds_get _ (lw_id x) None) as [prev|e] eqn:Eg.
  2: { apply (answer_staging_ginv _ _ _ _ (gs_holder gs) i a v (x :: todo) docs _ Hinv Hi). by apply fail_attempt_next. }
  rewrite bind_Ok. cbn [gs_with gs_writer gs_txns gs_pending gs_committer gs_holder].
  apply (slot_ginv (gs_writer gs) (gs_writer gs) _ _ _ (gs_holder gs) (gs_holder gs) i _ _ Hinv Hi); try done.
  - intros ts. unfold pins, glive. simpl. lia.
  - unfold settled_slot. cbn [gactive]. split_and!; [by apply (gi_attempts _ _ _ _ _ Hinv i _ a Hi)|done|by left].
  - intros a' v' todo' docs' [= <- <- <- <-]. split; [done|]. split; try done.
    + rewrite <- S3, fmap_app. csimpl. by rewrite <- app_assoc.
    + intros e [He| ->%list_elem_of_singleton]%elem_of_app; [by apply S5|]. cbn [le_id le_prev]. split; [by exists prev|].
      intros u Hu. apply (S6 x); [by left|by apply queue_in_flight].
    + intros y u Hy. apply S6. by right.
  - intros j b v' todo' docs' _ Hj. by destruct (gi_staging _ _ _ _ _ Hinv _ _ _ _ _ Hj).
Qed.

Lemma ensure_same com :
  unlanded (ensureCommitter com) = unlanded com /\ flushing_units (ensureCommitter com) = flushing_units com /\
  unanswered (ensureCommitter com) = unanswered com /\ landed (ensureCommitter com) = landed com /\
  flushingBatch (ensureCommitter com) = flushingBatch com /\ (forall w, gclock w (ensureCommitter com) <-> gclock w com) /\
  (outcome_ok (ensureCommitter com) <-> outcome_ok com).
Proof. by destruct com. Qed.

(** A unit joins the pending batch. *)
Lemma append_ginv w l pen com holder i a v docs b keys :
  ginv w l pen com holder -> l !! i = Some (GStaging a v [] docs) ->
  batch_ok b -> pending_units pen = bt_units b ->
  keys = (fun x => documentIdKey (lw_id x)) <$> uw_entries (cx_staged (ac_ctx a)) ->
  ginv w (<[i := GStaged a]> l) (Some (batch_append b (unit_for i a v docs) keys)) (ensureCommitter com) None.
Proof.
  intros Hinv Hi Hbo Hpu ->. pose proof Hinv as [Hv Hck Hcnt Hr Hat Hsn Hq Hcov Hnd Haw Hb Hout Hst].
  destruct (ensure_same com) as (W1 & W2 & W3 & W4 & W5 & W6 & W7).
  destruct (Hst i a v [] docs Hi) as [Hh [S1 S2 S3 S4 S5 S6]].
  destruct (Hat i _ a Hi eq_refl) as [(Hok & _) _]. csimpl in S3. rewrite app_nil_r in S3.
  set (u := unit_for i a v docs). set (pen' := Some _).
  assert (Hpen : pending_units pen' = pending_units pen ++ [u]) by (rewrite Hpu; done).
  assert (Hqq : queue (ensureCommitter com) pen' = queue com pen ++ [u]) by (unfold queue; by rewrite W1, Hpen, app_assoc).
  assert (Hself : <[i := GStaged a]> l !! i = Some (GStaged a))
    by (apply list_lookup_insert_Some; left; split_and!; [done|done|by eapply lookup_lt_Some]).
  assert (Hkeep : forall j c, l !! j = Some (GStaged c) -> <[i := GStaged a]> l !! j = Some (GStaged c)).
  { intros j c Hj. rewrite list_lookup_insert_ne; [done|]. intros ->. congruence. }
  assert (Hdoc : unit_covered u).
  { split; [apply Hok|]. intros e He. apply (list_elem_of_fmap_2 le_id) in He. cbn [u unit_for su_documents su_writes] in *. rewrite S3 in He.
    apply list_elem_of_fmap in He as (x & -> & Hx). by apply (ok_staged _ Hok). }
  split.
  - done.
  - by apply W6.
  - intros t. rewrite Hcnt. by rewrite (count_snap_same glive l i (GStaging a v [] docs)).
  - done.
  - intros j t c Hj Hc. apply insert_other in Hj as [[-> ->]|[_ Hj]]; [|by apply (Hat j)].
    injection Hc as <-. split; [by apply (Hat i _ a Hi)|by eexists].
  - intros t id Ht Hf. unfold free_of in Hf. rewrite W4 in Hf. apply Hsn; [|done].
    unfold watched in *. by rewrite (count_snap_same glive l i (GStaging a v [] docs)) in Ht.
  - intros k x Hk. rewrite Hqq in *. apply lookup_app_Some in Hk as [Hk|[Hle Hk]].
    + destruct (Hq k x Hk) as (c & Hc & Hu). exists c. split; [by apply Hkeep|].
      rewrite take_app_le; [done|]. apply lookup_lt_Some in Hk. lia.
    + destruct (k - length (queue com pen))%nat eqn:Ek; simpl in Hk; [|done]. injection Hk as <-.
      exists a. split; [done|]. replace k with (length (queue com pen) + 0)%nat by lia.
      rewrite take_app_add, take_0, app_nil_r. by split.
  - intros x. rewrite W2, Hpen, app_assoc. intros [Hx| ->%list_elem_of_singleton]%elem_of_app; [by apply Hcov|done].
  - rewrite W3, Hpen, app_assoc, fmap_app. apply NoDup_app. split_and!; [done| |csimpl; apply NoDup_singleton].
    intros j (x & -> & Hx)%list_elem_of_fmap Hj. csimpl in Hj. apply list_elem_of_singleton in Hj.
    destruct (Haw x Hx) as [c Hc]. rewrite Hj, Hi in Hc. done.
  - intros x. rewrite W3, Hpen, app_assoc. intros [Hx| ->%list_elem_of_singleton]%elem_of_app; [|by exists a].
    destruct (Haw x Hx) as [c Hc]. exists c. by apply Hkeep.
  - rewrite W5. intros b' [Hb'|[= <-]]; [by apply Hb; left|]. apply batch_append_ok; [done|].
    intros e He. cbn [u unit_for su_documents] in He. apply (list_elem_of_fmap_2 le_id) in He. rewrite S3 in He.
    apply list_elem_of_fmap in He as (x & -> & Hx). apply list_elem_of_fmap. by exists x.
  - by apply W7.
  - intros j c v' todo' docs' Hj. apply insert_other in Hj as [[_ Hj]|[Hne Hj]]; [done|].
    destruct (Hst j _ _ _ _ Hj) as [Hh' _]. congruence.
Qed.

Lemma stage_end_inv gs i a v docs :
  ginv_of gs -> gs_txns gs !! i = Some (GStaging a v [] docs) -> ginv_of (stage_end gs i a v docs).
Proof.
  intros Hinv Hi. unfold stage_end. destruct (gs_pending gs) as [b|] eqn:Ep;
    cbn [gs_writer gs_txns gs_pending gs_committer gs_holder].
  - apply (append_ginv _ _ (Some b) _ (gs_holder gs)); try done. apply (gi_batches _ _ _ _ _ Hinv). by right.
  - apply (append_ginv _ _ None _ (gs_holder gs)); try done. apply newBatch_ok.
Qed.

Lemma detach_inv gs : ginv_of gs -> gs_committer gs = CLooking -> gs_holder gs = None -> ginv_of (detach gs).
Proof.
  intros Hinv Hc Hh. unfold detach. rewrite Hc in Hinv. rewrite Hh in *.
  assert (Hidle : ginv (gs_writer gs) (gs_txns gs) (gs_pending gs) CIdle None).
  { destruct Hinv as [Hv Hck Hcnt Hr Hat Hsn Hq Hcov Hnd Haw Hb Hout Hst]. by split. }
  destruct (gs_pending gs) as [b|]; [|done]. destruct (_ =? 0)%nat; [done|].
  destruct Hinv as [Hv Hck Hcnt Hr Hat Hsn Hq Hcov Hnd Haw Hb Hout Hst]. cbn.
  assert (Happ : queue (CFlushing b) None = queue CLooking (Some b)) by (unfold queue; simpl; apply app_nil_r).
  split; try done; cbn [unanswered flushing_units flushingBatch pending_units]; rewrite ?Happ, ?app_nil_r; try done.
  intros b' [[= <-]|?]; [|done]. apply Hb. by right.
Qed.

(** What a flush did to the store, split or not. *)
Record flushed (s : S) (o : flush_outcome (T := T)) (s' : S) : Prop := {
  fl_valid : valid s';
  fl_length : length (fo_landed o).*1 = length (fo_landed o).*2;
  fl_increasing : increasing_above (ds_maxTimestamp s) (fo_landed o).*2;
  fl_max : ds_maxTimestamp s' = default (ds_maxTimestamp s) (last (fo_landed o).*2);
  fl_before : forall id t, t <= ds_maxTimestamp s -> ds_get s' id (Some t) = ds_get s id (Some t);
  fl_other : forall id t, ds_maxTimestamp s <= t <= ds_maxTimestamp s' ->
    (forall k u ts, (fo_landed o).*1 !! k = Some u -> (fo_landed o).*2 !! k = Some ts -> ts <= t -> ~ writes_key u id) ->
    ds_get s' id (Some t) = ds_get s id None
}.

Lemma flush_flushed sh s q rej o s' :
  valid s -> (forall u, u ∈ q -> su_documents u <> []) -> flush_ok sh s q rej o s' -> flushed s o s'.
Proof.
  intros Hv Hw [_ Hsub [[Hl ->]|(_ & Hlen & Hc)]].
  - split; rewrite ?Hl; try done. intros id t [H1 H2] _. rewrite (get_latest s id Hv). do 2 f_equal. lia.
  - assert (Hw' : Forall unit_writes (unit_of <$> (fo_landed o).*1)).
    { apply unit_writes_forall. intros u Hu. apply Hw. by apply (sublist_subseteq _ _ Hsub). }
    destruct (commit_increasing _ _ _ _ _ Hv Hw' Hc) as (_ & Hinc & Hmax).
    split; try done.
    + by apply (commit_valid _ _ _ _ _ Hv Hc).
    + intros id t Ht. by apply (commit_snapshot_get _ _ _ _ _ _ _ Hv Hc).
    + intros id t [Ht _] Hu. by apply (flushed_other s _ sh _ s' id t Hv Hc Ht).
Qed.

Lemma flushed_latest_of s o s' id :
  flushed s o s' -> (forall u, u ∈ (fo_landed o).*1 -> ~ writes_key u id) -> ds_get s' id None = ds_get s id None.
Proof.
  intros [H1 H2 H3 H4 H5 H6] Hu. rewrite (get_latest s' id H1). apply H6.
  - split; [|lia]. rewrite H4. by apply increasing_last_le.
  - intros k u ts Hk _ _. apply Hu. by eapply list_elem_of_lookup_2.
Qed.

Lemma flushing_docs w l pen b holder u :
  ginv w l pen (CFlushing b) holder -> u ∈ bt_units b -> su_documents u <> [].
Proof.
  intros Hinv (k & Hk)%list_elem_of_lookup_1.
  destruct (gi_queue _ _ _ _ _ Hinv k u) as (a & _ & Hu); [by apply lookup_app_l_Some|].
  intros E. pose proof (uo_ids _ _ _ _ Hu) as Hids. rewrite E in Hids. apply (uo_nonempty _ _ _ _ Hu).
  unfold uw_entries, jm_values in Hids. by destruct (cx_staged (ac_ctx a)).
Qed.

Lemma flush_facts w l pen b holder o s' :
  ginv w l pen (CFlushing b) holder -> flushWithSplit (cf_shardId cf) (w_store w) (bt_units b) = (o, s') ->
  flush_ok (Some (cf_shardId cf)) (w_store w) (bt_units b) [] o s' /\ flushed (w_store w) o s'.
Proof.
  intros Hinv Hf. pose proof (gi_valid _ _ _ _ _ Hinv) as Hv.
  assert (Hd : forall u, u ∈ bt_units b -> su_documents u <> []) by (intros u; by eapply flushing_docs).
  pose proof (flush_loop_ok _ _ _ _ _ _ _ Hv Hd Hf) as Hok. split; [done|]. by eapply flush_flushed.
Qed.

(** Reads and chains survive the landing of units they were checked against. *)
Lemma reader_ok_flush s o s' q q' c :
  flushed s o s' -> cx_snapshotTs c <= ds_maxTimestamp s ->
  (forall u, u ∈ (fo_landed o).*1 -> u ∈ q) -> (forall u, u ∈ q' -> u ∈ q) -> (forall u, u ∈ q -> unit_covered u) ->
  reader_ok s q c -> reader_ok s' q' c.
Proof.
  intros Hf Hle Hl Hq Hcov Hr id Hid. destruct (Hr id Hid) as [H1 H2]. split; [|auto].
  rewrite (fl_before _ _ _ Hf) by done. rewrite H1. symmetry. apply (flushed_latest_of s o); [done|].
  intros u Hu Hw. apply (H2 u); [by apply Hl|]. apply writes_key_covers; [|done]. apply Hcov. by apply Hl.
Qed.

Lemma chained_flush s o s' q q' docs :
  flushed s o s' -> (forall u, u ∈ (fo_landed o).*1 -> u ∈ q) -> (forall u, u ∈ q' -> u ∈ q) ->
  chained s q docs -> chained s' q' docs.
Proof.
  intros Hf Hl Hq Hc e He. destruct (Hc e He) as [(prev & Hg & Hp) Hn]. split; [|auto]. exists prev. split; [|done].
  rewrite (flushed_latest_of s o); [done|done|]. intros u Hu. apply Hn. by apply Hl.
Qed.

Lemma flush_inv w l pen b holder o s' :
  ginv w l pen (CFlushing b) holder -> flushWithSplit (cf_shardId cf) (w_store w) (bt_units b) = (o, s') ->
  ginv (with_store w s') l pen (CLanded b o) holder.
Proof.
  intros Hinv Hflush. destruct (flush_facts _ _ _ _ _ _ _ Hinv Hflush) as [[(rej & Hrej & Hperm) Hsub _] Hf].
  pose proof Hinv as [Hv Hck Hcnt Hr Hat Hsn Hq Hcov Hnd Haw Hb Hout Hst]. simpl in Hck.
  set (L := getLastCommittedTimestamp (w_oracle w)) in *.
  assert (Hland : forall u, u ∈ (fo_landed o).*1 -> u ∈ bt_units b) by (intros u; by apply sublist_subseteq).
  assert (Hsnap : forall j t a, l !! j = Some t -> gactive t = Some a -> cx_snapshotTs (ac_ctx a) <= ds_maxTimestamp (w_store w)).
  { intros j t a Hj Ha. destruct (Hat j t a Hj Ha) as [(_ & H & _) _]. rewrite Hck. done. }
  assert (Hnew : forall id, (forall ut, ut ∈ fo_landed o -> ~ covers (su_writes ut.1) id) ->
            forall u, u ∈ (fo_landed o).*1 -> ~ writes_key u id).
  { intros id Hno u Hu Hw. pose proof Hu as (ut & -> & Hut)%list_elem_of_fmap. apply (Hno ut Hut).
    apply writes_key_covers; [|done]. apply Hcov, elem_of_app. left. by apply Hland. }
  split; cbn [with_store w_store w_oracle w_ring w_active]; try done.
  - apply Hf.
  - change (increasing_above L (fo_landed o).*2 /\ ds_maxTimestamp s' = default L (last (fo_landed o).*2)).
    rewrite <- Hck. split; apply Hf.
  - intros j t a Hj Ha. destruct (Hat j t a Hj Ha) as [(Bok & Ble & Brun) Hw]. split; [|done].
    unfold attempt_ok. cbn [w_store w_oracle]. split_and!; [done|done|].
    assert (Hb4 : forall id, ds_get s' id (Some (cx_snapshotTs (ac_ctx a))) = ds_get (w_store w) id (Some (cx_snapshotTs (ac_ctx a)))).
    { intros id. apply Hf. by eapply Hsnap. }
    rewrite !(run_ext (w_store w) s'); [done|done|done|apply ctx_new_ok|done].
  - intros t id Ht [Hu1 Hu2]. cbn [w_ring landed] in *. specialize (Hnew id Hu2).
    rewrite (flushed_latest_of (w_store w) o s') by done.
    destruct (decide (t <= ds_maxTimestamp (w_store w))) as [Hle|Hgt].
    + rewrite (fl_before _ _ _ Hf) by done. apply Hsn; [|split; [done|by intros ? ?%not_elem_of_nil]].
      destruct Ht as [Ht|Ht]; [left; cbn in Ht; lia|by right].
    + assert (Hrange : ds_maxTimestamp (w_store w) <= t <= ds_maxTimestamp s').
      { destruct Ht as [Ht|Ht]; [cbn in Ht; lia|]. apply count_snap_ex in Ht as (j & x & Hj & Hx). unfold glive in Hx.
        destruct (gactive x) as [a|] eqn:Ea; [|done]. injection Hx as <-. destruct Hgt. by eapply Hsnap. }
      apply (fl_other _ _ _ Hf); [done|]. intros k u ts Hk _ _. apply Hnew. by eapply list_elem_of_lookup_2.
  - intros k u Hk. unfold queue in Hk. simpl in Hk.
    destruct (Hq (length (bt_units b) + k)%nat u) as (a & Ha & Hu).
    { unfold queue. rewrite lookup_app_r by (simpl; lia). simpl. rewrite <- Hk. f_equal. lia. }
    exists a. split; [done|]. unfold queue in *. simpl in Hu. rewrite take_app_add in Hu. cbn [unlanded app].
    assert (Hin : forall x, x ∈ bt_units b ++ take k (pending_units pen) -> unit_covered x).
    { intros x Hx. apply Hcov. unfold flushing_units. simpl. rewrite elem_of_app in *.
      destruct Hx as [?|?%elem_of_take]; [by left|right]. destruct H as (? & ? & _). by eapply list_elem_of_lookup_2. }
    destruct Hu as [U1 U2 U3 U4 U5 U6]. split; try done.
    + apply (reader_ok_flush (w_store w) o s' (bt_units b ++ take k (pending_units pen))); [done| | | |done|done].
      * by eapply (Hsnap _ _ _ Ha).
      * intros x Hx. apply elem_of_app. left. by apply Hland.
      * intros x Hx. apply elem_of_app. by right.
    + apply (chained_flush (w_store w) o s' (bt_units b ++ take k (pending_units pen))); [done| | |done].
      * intros x Hx. apply elem_of_app. left. by apply Hland.
      * intros x Hx. apply elem_of_app. by right.
  - simpl. rewrite Hrej. simpl. done.
  - intros i a v todo docs Hi. destruct (Hst i a v todo docs Hi) as [Hh [S1 S2 S3 S4 S5 S6]]. split; [done|].
    assert (Hq1 : forall x, x ∈ (fo_landed o).*1 -> x ∈ queue (CFlushing b) pen)
      by (intros x Hx; apply elem_of_app; left; by apply Hland).
    assert (Hq2 : forall x, x ∈ queue (CLanded b o) pen -> x ∈ queue (CFlushing b) pen)
      by (intros x Hx; apply elem_of_app; by right).
    split; try done.
    + apply (reader_ok_flush (w_store w) o s' (queue (CFlushing b) pen)); [done| |done|done| |done].
      * by eapply (Hsnap _ _ _ Hi).
      * intros x Hx. apply Hcov. by apply queue_in_flight in Hx.
    + by apply (chained_flush (w_store w) o s' (queue (CFlushing b) pen)).
Qed.

(** ** Publication *)

Definition commit_of (ut : unit * Z) : recent_commit := RecentCommit ut.2 (su_writes ut.1).

Record published_by (w : writer S) (lu : list (unit * Z)) (w1 : writer S)
    (answers : list (nat * res (commit_result T))) (err : option js_error) : Prop := {
  pb_store : w_store w1 = w_store w;
  pb_active : w_active w1 = w_active w;
  pb_clock : getLastCommittedTimestamp (w_oracle w) <= getLastCommittedTimestamp (w_oracle w1) /\
    (increasing_above (getLastCommittedTimestamp (w_oracle w)) lu.*2 ->
     getLastCommittedTimestamp (w_oracle w1) <= default (getLastCommittedTimestamp (w_oracle w)) (last lu.*2));
  pb_ring : forall rc, rc ∈ w_ring w1 ->
    rc ∈ w_ring w \/ (rc ∈ commit_of <$> lu /\ rc_ts rc <= getLastCommittedTimestamp (w_oracle w1));
  pb_kept : forall rc, rc ∈ w_ring w -> rc ∈ w_ring w1;
  pb_answered : forall ar, ar ∈ answers -> ar.1 ∈ su_txn <$> lu.*1;
  pb_all : err = None -> (forall ut, ut ∈ lu -> commit_of ut ∈ w_ring w1) /\ answers.*1 = su_txn <$> lu.*1 /\
    (increasing_above (getLastCommittedTimestamp (w_oracle w)) lu.*2 ->
     getLastCommittedTimestamp (w_oracle w1) = default (getLastCommittedTimestamp (w_oracle w)) (last lu.*2));
  pb_deltas : exists ds, w_published w1 = w_published w ++ ds /\ (od_commitTs <$> ds) `prefix_of` lu.*2 /\
    Forall (fun d => od_commitTs d <= getLastCommittedTimestamp (w_oracle w1)) ds
}.

Lemma record_unit_clock w (u : unit) ts :
  getLastCommittedTimestamp (w_oracle (record_unit w u ts)) = Z.max (getLastCommittedTimestamp (w_oracle w)) ts.
Proof. cbn [record_unit w_oracle]. by rewrite publishCommitted_spec. Qed.

Lemma build_oplog_ts ts sh rs o es d : build_oplog ts sh rs o es = Ok d -> od_commitTs d = ts.
Proof.
  unfold build_oplog. destruct (writtenTablesFromRanges _); [|done]. rewrite bind_Ok.
  destruct (buildWrittenDocs _ _); [|done]. rewrite bind_Ok. by intros [= <-].
Qed.

Lemma last_default_cons (m t : Z) (ts : list Z) : default m (last (t :: ts)) = default t (last ts).
Proof. rewrite last_cons. by destruct (last ts). Qed.

Lemma publish_landed_facts lu w w1 answers err :
  publish_landed w lu = (w1, answers, err) -> published_by w lu w1 answers err.
Proof.
  revert w w1 answers err. induction lu as [|[u ts] lu IH]; intros w w1 answers err; cbn [publish_landed].
  { intros [= <- <- <-]. split; try done; simpl.
    - by left.
    - by intros ? ?%not_elem_of_nil.
    - intros _. split_and!; [by intros ? ?%not_elem_of_nil|done|done].
    - exists []. by rewrite app_nil_r. }
  pose proof (record_unit_clock w u ts) as Hclk. set (wr := record_unit w u ts) in *. set (L := getLastCommittedTimestamp (w_oracle w)) in *.
  assert (Hin : commit_of (u, ts) ∈ w_ring wr) by (apply elem_of_app; right; by apply list_elem_of_singleton).
  destruct (build_oplog ts _ _ _ _) as [d|e] eqn:Ed.
  - apply build_oplog_ts in Ed. destruct (publish_landed (publish_oplog wr d) lu) as [[w2 as2] er2] eqn:Er. intros [= <- <- <-].
    destruct (IH _ _ _ _ Er) as [P1 P2 [P3 P3'] P4 P5 P6 P7 (ds & P8 & P9 & P10)].
    change (w_oracle (publish_oplog wr d)) with (w_oracle wr) in *.
    change (w_ring (publish_oplog wr d)) with (w_ring wr) in *. rewrite Hclk in *.
    split; csimpl.
    + by rewrite P1.
    + by rewrite P2.
    + fold L. split; [lia|]. intros [H1 H2]. rewrite last_default_cons.
      replace (Z.max L ts) with ts in * by lia. by apply P3'.
    + intros rc Hrc. destruct (P4 rc Hrc) as [H|[H Hle]].
      * apply elem_of_app in H as [H| ->%list_elem_of_singleton]; [by left|right]. split; [by left|simpl; lia].
      * right. split; [by right|done].
    + intros rc Hrc. apply P5, elem_of_app. by left.
    + intros ar [->|Har]%elem_of_cons; [by left|right; by apply P6].
    + intros He. destruct (P7 He) as (Q1 & Q2 & Q3). fold L. split_and!.
      * intros ut [->|Hut]%elem_of_cons; [by apply P5|by apply Q1].
      * by rewrite Q2.
      * intros [H1 H2]. rewrite last_default_cons. replace (Z.max L ts) with ts in * by lia. by apply Q3.
    + exists (d :: ds). split_and!.
      * rewrite P8. simpl. by rewrite <- app_assoc.
      * csimpl. rewrite Ed. by apply prefix_cons.
      * constructor; [lia|done].
  - change (getLastCommittedTimestamp (publishCommitted ts (w_oracle w)) = Z.max L ts) in Hclk.
    intros [= <- <- <-]. split; csimpl; try done.
    + fold L. rewrite Hclk. split; [lia|]. intros [H1 H2]. rewrite last_default_cons.
      pose proof (increasing_last_le ts lu.*2 H2). lia.
    + intros rc [H| ->%list_elem_of_singleton]%elem_of_app; [by left|right]. split; [by left|]. rewrite Hclk. simpl. lia.
    + intros rc H. apply elem_of_app. by left.
    + by intros ? ?%not_elem_of_nil.
    + exists []. rewrite app_nil_r. split_and!; [done|apply prefix_nil|constructor].
Qed.

Lemma settle_slot (answers : list (nat * res (commit_result T))) l j :
  fold_left settle answers l !! j = l !! j \/
  exists a r, l !! j = Some (GStaged a) /\ fold_left settle answers l !! j = Some (GSettled a r) /\ j ∈ answers.*1.
Proof.
  revert l. induction answers as [|ar answers IH]; intros l; csimpl; [by left|].
  assert (Hone : settle l ar !! j = l !! j \/
            exists a, l !! j = Some (GStaged a) /\ settle l ar !! j = Some (GSettled a ar.2) /\ j = ar.1).
  { unfold settle. destruct (l !! ar.1) as [[]|] eqn:E; auto. destruct (decide (ar.1 = j)) as [<-|Hne].
    - right. exists a. split_and!; [done| |done]. apply list_lookup_insert_Some. left. split_and!; [done|done|by eapply lookup_lt_Some].
    - left. by rewrite list_lookup_insert_ne. }
  destruct (IH (settle l ar)) as [->|(a & r & Ha & Hr & Hj)].
  - destruct Hone as [->|(a & Ha & Hs & ->)]; [by left|right]. exists a, ar.2. split_and!; [done|done|by left].
  - destruct Hone as [He|(a' & Ha' & Hs & _)]; [right|congruence]. rewrite He in Ha. exists a, r. split_and!; [done|done|by right].
Qed.

Lemma settle_counts answers l t : count_snap glive t (fold_left settle answers l) = count_snap glive t l.
Proof.
  revert l. induction answers as [|ar answers IH]; intros l; simpl; [done|]. rewrite IH.
  unfold settle. destruct (l !! ar.1) as [[]|] eqn:E; try done. by apply (count_snap_same glive l ar.1 _ _ _ E).
Qed.

(** Prune after the landed units are recorded: what a pinned snapshot needs
    stays. *)
Lemma prune_kept w rc t :
  1 <= active_count w t -> rc ∈ w_ring w -> t < rc_ts rc -> rc ∈ w_ring (prune w).
Proof. intros Hc Hin Hlt. apply (prune_ring w rc t); [done| |done]. by apply minActiveSnapshot_le. Qed.

(** The parts of the invariant that answering transactions keeps. *)
Lemma settle_keeps w l pen com holder answers :
  ginv w l pen com holder ->
  (forall u, u ∈ pending_units pen -> su_txn u ∉ answers.*1) ->
  let l' := fold_left settle answers l in
  (forall i t a, l' !! i = Some t -> gactive t = Some a -> attempt_ok cf w a /\ waiting_ok t) /\
  (forall i a v todo docs, l' !! i = Some (GStaging a v todo docs) -> l !! i = Some (GStaging a v todo docs)) /\
  (forall u a, u ∈ pending_units pen -> l !! su_txn u = Some (GStaged a) -> l' !! su_txn u = Some (GStaged a)).
Proof.
  intros Hinv Hp l'. split_and!.
  - intros i t a Hi Ha. destruct (settle_slot answers l i) as [He|(b & r & Hb & He & _)].
    + apply (gi_attempts _ _ _ _ _ Hinv i); [by rewrite <- He|done].
    + unfold l' in Hi. rewrite He in Hi. injection Hi as <-. simpl in Ha. injection Ha as ->.
      split; [|done]. by apply (gi_attempts _ _ _ _ _ Hinv i (GStaged a)).
  - intros i a v todo docs Hi. destruct (settle_slot answers l i) as [He|(b & r & Hb & He & _)]; unfold l' in Hi; congruence.
  - intros u a Hu Ha. destruct (settle_slot answers l (su_txn u)) as [He|(b & r & Hb & He & Hin)]; unfold l'; [congruence|].
    by destruct (Hp u Hu).
Qed.

Lemma attempt_ok_mono w w' (a : active (T := T)) :
  w_store w' = w_store w ->
  getLastCommittedTimestamp (w_oracle w) <= getLastCommittedTimestamp (w_oracle w') ->
  attempt_ok cf w a -> attempt_ok cf w' a.
Proof. intros Es Hle (H1 & H2 & H3). unfold attempt_ok. rewrite Es. split_and!; [done|lia|done]. Qed.

(** Units that are answered are units of the batch. *)
Lemma answered_units w l pen b o holder w1 answers err ar :
  ginv w l pen (CLanded b o) holder -> published_by w (fo_landed o) w1 answers err ->
  ar ∈ answers ++ rejections o -> ar.1 ∈ su_txn <$> bt_units b.
Proof.
  intros Hinv Hp. destruct (gi_outcome _ _ _ _ _ Hinv) as [Hperm _].
  assert (Hin : forall u, u ∈ (fo_landed o).*1 \/ u ∈ (fo_rejected o).*1 \/ u ∈ fo_chunk o -> su_txn u ∈ su_txn <$> bt_units b).
  { intros u Hu. apply list_elem_of_fmap_2. rewrite <- Hperm. rewrite !elem_of_app. tauto. }
  intros [Har|[Har|Har]%elem_of_app]%elem_of_app.
  - apply (pb_answered _ _ _ _ _ Hp) in Har. apply list_elem_of_fmap in Har as (u & -> & Hu). apply Hin. by left.
  - apply list_elem_of_fmap in Har as (ue & -> & Hue). apply Hin. right. left. by apply list_elem_of_fmap_2.
  - apply list_elem_of_fmap in Har as (u & -> & Hu). apply Hin. by right; right.
Qed.

Lemma answered_not_pending w l pen b o holder w1 answers err ar u :
  ginv w l pen (CLanded b o) holder -> published_by w (fo_landed o) w1 answers err ->
  (forall x, x ∈ ar -> x ∈ answers ++ rejections o) -> u ∈ pending_units pen -> su_txn u ∉ ar.*1.
Proof.
  intros Hinv Hp Hsub Hu (x & Hx & Hin)%list_elem_of_fmap.
  pose proof (answered_units _ _ _ _ _ _ _ _ _ x Hinv Hp (Hsub x Hin)) as Hb. rewrite <- Hx in Hb.
  pose proof (gi_nodup _ _ _ _ _ Hinv) as Hnd. cbn [unanswered] in Hnd. rewrite fmap_app in Hnd.
  apply NoDup_app in Hnd as (_ & Hd & _). apply (Hd _ Hb). by apply list_elem_of_fmap_2.
Qed.

(** What a watched snapshot needs survives publication. *)
Lemma publish_ring_wf w l pen b o holder w1 answers err rc :
  ginv w l pen (CLanded b o) holder -> published_by w (fo_landed o) w1 answers err -> rc ∈ w_ring w1 ->
  rc_ts rc <= getLastCommittedTimestamp (w_oracle w1) /\ rs_wf (rc_writes rc).
Proof.
  intros Hinv Hp Hrc. destruct (pb_ring _ _ _ _ _ Hp rc Hrc) as [H|[H Hle]].
  - destruct (gi_ring _ _ _ _ _ Hinv rc H). pose proof (proj1 (pb_clock _ _ _ _ _ Hp)). split; [lia|done].
  - split; [done|]. apply list_elem_of_fmap in H as (ut & -> & Hut). simpl.
    apply (gi_covered _ _ _ _ _ Hinv). apply elem_of_app. left. by eapply (landed_flushing _ _ _ (CLanded b o)).
Qed.

Lemma publish_watched w l pen b o holder w1 answers err ar t :
  ginv w l pen (CLanded b o) holder -> published_by w (fo_landed o) w1 answers err ->
  watched w1 (fold_left settle ar l) t -> watched w l t.
Proof.
  intros Hinv Hp. unfold watched. rewrite (pb_store _ _ _ _ _ Hp), settle_counts.
  pose proof (proj1 (pb_clock _ _ _ _ _ Hp)). intros [?|?]; [left; lia|by right].
Qed.

Lemma publish_dead_inv w l pen b o w1 answers e :
  ginv w l pen (CLanded b o) None -> published_by w (fo_landed o) w1 answers (Some e) ->
  ginv w1 (fold_left settle answers l) pen (CDead b o) None.
Proof.
  intros Hinv Hp.
  assert (Hnp : forall u, u ∈ pending_units pen -> su_txn u ∉ answers.*1).
  { intros u Hu. apply (answered_not_pending _ _ _ _ _ _ _ _ _ answers u Hinv Hp); [|done]. intros x Hx. apply elem_of_app. by left. }
  destruct (settle_keeps w l pen _ None answers Hinv Hnp) as (K1 & K2 & K3).
  pose proof Hinv as [Hv [Hinc Hmax] Hcnt Hr Hat Hsn Hq Hcov Hnd Haw Hb Hout Hst].
  destruct (pb_clock _ _ _ _ _ Hp) as [Hle Hup]. specialize (Hup Hinc).
  split; try done.
  - by rewrite (pb_store _ _ _ _ _ Hp).
  - unfold gclock. rewrite (pb_store _ _ _ _ _ Hp), Hmax. done.
  - intros t. unfold active_count. rewrite (pb_active _ _ _ _ _ Hp), settle_counts. apply Hcnt.
  - intros rc Hrc. by apply (publish_ring_wf _ _ _ _ _ _ _ _ _ rc Hinv Hp).
  - intros i t a Hi Ha. destruct (K1 i t a Hi Ha) as [H1 H2]. split; [|done].
    by apply (attempt_ok_mono w); [apply Hp| |].
  - intros t id Ht [Hf1 Hf2]. rewrite (pb_store _ _ _ _ _ Hp). apply Hsn; [by eapply publish_watched|].
    split; [|done]. intros rc Hrc. apply Hf1. by apply Hp.
  - intros k u Hk. destruct (Hq k u Hk) as (a & Ha & Hu). exists a. rewrite (pb_store _ _ _ _ _ Hp). split; [|done].
    apply K3; [|done]. by eapply list_elem_of_lookup_2.
  - cbn [unanswered] in *. by apply (NoDup_app (su_txn <$> bt_units b)); rewrite <- fmap_app.
  - intros u Hu. destruct (Haw u) as [a Ha]; [apply elem_of_app; by right|]. exists a. by apply K3.
  - intros i a v todo docs Hi. apply K2 in Hi. by destruct (Hst i a v todo docs Hi).
Qed.

Lemma publish_alive_inv w l pen b o w1 w2 answers :
  ginv w l pen (CLanded b o) None -> published_by w (fo_landed o) w1 answers None ->
  w2 = match fo_landed o with [] => w1 | _ => prune w1 end ->
  ginv w2 (fold_left settle (answers ++ rejections o) l) pen CLooking None.
Proof.
  intros Hinv Hp Hw2.
  assert (Hnp : forall u, u ∈ pending_units pen -> su_txn u ∉ (answers ++ rejections o).*1)
    by (intros u Hu; by apply (answered_not_pending _ _ _ _ _ _ _ _ _ _ u Hinv Hp)).
  destruct (settle_keeps w l pen _ None _ Hinv Hnp) as (K1 & K2 & K3).
  set (l' := fold_left settle _ l) in *.
  pose proof Hinv as [Hv [Hinc Hmax] Hcnt Hr Hat Hsn Hq Hcov Hnd Haw Hb Hout Hst].
  destruct (pb_clock _ _ _ _ _ Hp) as [Hle _]. destruct (pb_all _ _ _ _ _ Hp eq_refl) as (Hrec & _ & Hlast).
  specialize (Hlast Hinc).
  assert (E : w_store w2 = w_store w /\ w_oracle w2 = w_oracle w1 /\ w_active w2 = w_active w /\
              (forall rc, rc ∈ w_ring w2 -> rc ∈ w_ring w1) /\
              (forall rc t, 1 <= active_count w1 t -> rc ∈ w_ring w1 -> t < rc_ts rc -> rc ∈ w_ring w2)).
  { rewrite <- (pb_store _ _ _ _ _ Hp), <- (pb_active _ _ _ _ _ Hp).
    assert (E0 : w2 = w1 \/ w2 = prune w1) by (rewrite Hw2; destruct (fo_landed o); auto).
    destruct E0 as [->| ->]; [done|]. destruct (prune_rest w1) as (E1 & E2 & E3 & _).
    split_and!; [done..|by apply prune_sub|]. intros rc t. apply prune_kept. }
  destruct E as (E1 & E2 & E3 & E4 & E5).
  assert (HL : getLastCommittedTimestamp (w_oracle w2) = ds_maxTimestamp (w_store w)) by (by rewrite E2, Hlast, Hmax).
  split; try done.
  - by rewrite E1.
  - unfold gclock. by rewrite E1, HL.
  - intros t. unfold active_count. unfold l'. rewrite E3, settle_counts. apply Hcnt.
  - intros rc Hrc. rewrite E2. apply (publish_ring_wf _ _ _ _ _ _ _ _ _ rc Hinv Hp). by apply E4.
  - intros i t a Hi Ha. destruct (K1 i t a Hi Ha) as [H1 H2]. split; [|done].
    apply (attempt_ok_mono w); [done| |done]. by rewrite E2.
  - intros t id Ht [Hf1 _]. rewrite E1. unfold watched in Ht. rewrite HL, E1 in Ht. unfold l' in Ht. rewrite settle_counts in Ht.
    destruct (decide (t = ds_maxTimestamp (w_store w))) as [->|Hne]; [by rewrite (get_latest _ id Hv)|].
    destruct Ht as [?|Ht]; [lia|]. apply Hsn; [by right|].
    assert (Hct : 1 <= active_count w1 t).
    { unfold active_count. rewrite (pb_active _ _ _ _ _ Hp). change (1 <= active_count w t). rewrite Hcnt. lia. }
    assert (Hkeep : forall rc, rc ∈ w_ring w1 -> t < rc_ts rc -> ~ covers (rc_writes rc) id).
    { intros rc Hin Hlt. apply Hf1; [|done]. by apply (E5 rc t). }
    split; [intros rc Hin; apply Hkeep; by apply Hp|]. intros ut Hut. apply (Hkeep (commit_of ut)); [by apply Hrec|].
    simpl. apply count_snap_ex in Ht as (j & x & Hj & Hx). unfold glive in Hx. destruct (gactive x) as [a|] eqn:Ea; [|done].
    injection Hx as <-. destruct (Hat j x a Hj Ea) as [(_ & Hs & _) _].
    pose proof (increasing_above_elem _ _ ut.2 Hinc ltac:(by apply list_elem_of_fmap_2)). lia.
  - intros k u Hk. destruct (Hq k u Hk) as (a & Ha & Hu). exists a. rewrite E1. split; [|done].
    apply K3; [|done]. by eapply list_elem_of_lookup_2.
  - intros u Hu. apply Hcov, elem_of_app. by right.
  - cbn [unanswered] in *. by apply (NoDup_app (su_txn <$> bt_units b)); rewrite <- fmap_app.
  - intros u Hu. destruct (Haw u) as [a Ha]; [apply elem_of_app; by right|]. exists a. by apply K3.
  - intros b' [?|?]; [done|]. apply Hb. by right.
  - intros i a v todo docs Hi. apply K2 in Hi. by destruct (Hst i a v todo docs Hi).
Qed.

Lemma publish_flush_inv gs b o :
  ginv_of gs -> gs_committer gs = CLanded b o -> gs_holder gs = None -> ginv_of (publish_flush gs b o).
Proof.
  intros Hinv Hc Hh. rewrite Hc, Hh in Hinv. unfold publish_flush.
  destruct (publish_landed (gs_writer gs) (fo_landed o)) as [[w1 answers] err] eqn:Ep.
  apply publish_landed_facts in Ep. rewrite Hh. destruct err as [e|]; cbn [gs_writer gs_txns gs_pending gs_committer gs_holder].
  - by apply (publish_dead_inv _ _ _ _ _ _ _ e Hinv).
  - by eapply (publish_alive_inv _ _ _ _ _ w1 _ _ Hinv).
Qed.

(** ** Every step keeps the invariant *)

Lemma gstep_inv gs ev gs' : ginv_of gs -> gsys_step cf gs ev = Some gs' -> ginv_of gs'.
Proof.
  intros Hinv. destruct ev as [fn o|i|i|i|i|i|i|i| | |]; cbn [gsys_step].
  - pose proof (gbegin_inv _ _ _ _ _ fn o Hinv) as H. destruct (begin_attempt cf (gs_writer gs) fn o 0) as [w1 t1]. by intros [= <-].
  - destruct (gs_txns gs !! i) as [[]|] eqn:Hi; try done. destruct (step_prog _ _ _) as [c p] eqn:Es. intros [= <-].
    by apply (gop_inv _ _ _ _ _ i a).
  - destruct (gs_txns gs !! i) as [[]|] eqn:Hi; try done. pose proof (gattempt_counted _ _ _ _ _ _ _ _ Hinv Hi eq_refl) as Hc.
    unfold finish. destruct (ac_rest a); try done; [destruct (_ =? 0)%nat; [|done]|]; intros [= <-].
    + by apply (answer_ginv _ _ _ _ _ i _ a _ Hinv Hi); [..|apply finish_attempt_next].
    + by apply (answer_ginv _ _ _ _ _ i _ a _ Hinv Hi); [..|apply fail_attempt_next].
  - unfold mutex_free. destruct (gs_holder gs) eqn:Hh; [done|]. destruct (gs_txns gs !! i) as [t|] eqn:Hi; [|done]. simpl.
    destruct (stageable (gs_promoted gs) t) as [[a v]|] eqn:Es; [|done]. simpl. intros [= <-].
    apply (stage_begin_inv gs i t a v); [by rewrite Hh|done..].
  - destruct (gs_txns gs !! i) as [[]|] eqn:Hi; try done. destruct todo as [|x todo]; [done|]. intros [= <-]. by apply stage_get_inv.
  - destruct (gs_txns gs !! i) as [[]|] eqn:Hi; try done. destruct todo as [|x todo]; [|done]. intros [= <-]. by apply stage_end_inv.
  - destruct (gs_txns gs !! i) as [[]|] eqn:Hi; try done. case_bool_decide; [|done]. intros [= <-].
    pose proof (gattempt_counted _ _ _ _ _ _ _ _ Hinv Hi eq_refl) as Hc.
    by apply (answer_ginv _ _ _ _ _ i _ a _ Hinv Hi); [..|apply fail_attempt_next].
  - destruct (gs_txns gs !! i) as [[]|] eqn:Hi; try done. intros [= <-].
    pose proof (gattempt_counted _ _ _ _ _ _ _ _ Hinv Hi eq_refl) as Hc.
    destruct r; (apply (answer_ginv _ _ _ _ _ i _ a _ Hinv Hi); [done|done|]);
      [by apply finish_attempt_next|by apply fail_attempt_next].
  - destruct (gs_committer gs) eqn:Ec; try done. unfold mutex_free. destruct (gs_holder gs) eqn:Hh; [done|]. intros [= <-].
    apply detach_inv; [by rewrite Ec, Hh|done..].
  - destruct (gs_committer gs) eqn:Ec; try done. intros [= <-]. unfold flush.
    destruct (flushWithSplit _ _ _) as [o s'] eqn:Ef. cbn [gs_writer gs_txns gs_pending gs_committer gs_holder].
    by apply flush_inv.
  - destruct (gs_committer gs) eqn:Ec; try done. unfold mutex_free. destruct (gs_holder gs) eqn:Hh; [done|]. intros [= <-].
    apply publish_flush_inv; [by rewrite Ec, Hh|done..].
Qed.

Lemma greachable_inv s0 gs : valid s0 -> greachable cf s0 gs -> ginv_of gs.
Proof. intros Hv. induction 1 as [|gs ev gs' _ IH Hs]; [by apply gstart_inv|by apply (gstep_inv gs ev)]. Qed.
End invariant.
