(* ===== verification/GroupProperties.v ===== *)
(** What group commit guarantees in every schedule, and how it can stop. *)
From Stdlib Require Import ZArith Lia Sorted.
From stdpp Require Import base list sets strings.
From S2P Require Import Prelude JsBase JsText Float64 Values ValuesJson KeyCodec KeyRanges IdCodec DocStore SqliteDocStore Transactor SingleWriter GroupCommit GroupInvariant.

Section safety.
Context {S : Type} `{!DocStore S} {T : Type} {valid : S -> Prop} `{!DocStoreLaws S valid} (cf : config).
Implicit Types (gs : gsystem (S := S) (T := T)) (a : active (T := T)).
Notation ginv_of gs :=
  (ginv (valid := valid) cf (gs_writer gs) (gs_txns gs) (gs_pending gs) (gs_committer gs) (gs_holder gs)).

(** An element of a sublist sits after everything that precedes it there. *)
Lemma sublist_before {A} (us l : list A) k x :
  sublist us l -> us !! k = Some x ->
  exists j, l !! j = Some x /\ forall k' y, (k' < k)%nat -> us !! k' = Some y -> y ∈ take j l.
Proof.
  intros Hs. revert k. induction Hs as [|z us l Hs IH|z us l Hs IH]; intros k; [done| |].
  - destruct k as [|k]; simpl.
    + intros [= ->]. exists 0%nat. split; [done|lia].
    + intros Hk. destruct (IH k Hk) as (j & Hj & Hb). exists (Datatypes.S j). split; [done|].
      intros [|k'] y Hlt; simpl; [intros [= ->]; left|]. intros Hy. right. by apply (Hb k' y ltac:(lia)).
  - intros Hk. destruct (IH k Hk) as (j & Hj & Hb). exists (Datatypes.S j). split; [done|].
    intros k' y Hlt Hy. simpl. right. by apply (Hb k').
Qed.

(** C1: under group commit too, a transaction whose rows land could have run
    alone right before its own timestamp: its function, run from the start on
    what the store holds just below that timestamp, with the earlier
    transactions of the batch landed and none of the later ones, makes the
    same reads and writes and returns the same value, and every row it lands is
    chained to the revision the document then has. *)
Theorem group_commits_serializable s0 gs b gs' o k u ts :
  valid s0 -> greachable cf s0 gs -> gs_committer gs = CFlushing b ->
  gsys_step cf gs GFlush = Some gs' -> gs_committer gs' = CLanded b o -> fo_landed o !! k = Some (u, ts) ->
  let s' := w_store (gs_writer gs') in
  ds_maxTimestamp (w_store (gs_writer gs)) < ts /\
  exists a, gs_txns gs' !! su_txn u = Some (GStaged a) /\
    run_prog s' (fresh_ctx cf (ac_options a) (ts - 1)) (ac_fn a) = (at_snapshot (ts - 1) (ac_ctx a), Ok (su_value u)) /\
    le_id <$> su_documents u = lw_id <$> uw_entries (cx_staged (ac_ctx a)) /\
    forall e, e ∈ su_documents u -> exists prev,
      ds_get s' (le_id e) (Some (ts - 1)) = Ok prev /\ le_prev e = (fun d => ld_ts d) <$> prev.
Proof.
  intros Hv0 Hreach Hc Hstep Hland Hk s'. pose proof (greachable_inv cf s0 gs Hv0 Hreach) as Hinv. rewrite Hc in Hinv.
  cbn [gsys_step] in Hstep. rewrite Hc in Hstep. injection Hstep as <-. unfold flush in *.
  destruct (flushWithSplit _ _ _) as [o1 s1] eqn:Ef. cbn [gs_committer gs_txns gs_writer with_store w_store] in *.
  injection Hland as ->. unfold s'. clear s'.
  destruct (flush_facts cf _ _ _ _ _ _ _ Hinv Ef) as [[_ Hsub _] Hf].
  assert (Hk1 : (fo_landed o).*1 !! k = Some u) by (by rewrite list_lookup_fmap, Hk).
  assert (Hk2 : (fo_landed o).*2 !! k = Some ts) by (by rewrite list_lookup_fmap, Hk).
  destruct (sublist_before _ _ _ _ Hsub Hk1) as (j & Hj & Hbefore).
  destruct (gi_queue _ _ _ _ _ _ Hinv j u) as (a & Ha & [U1 U2 U3 U4 U5 U6]); [by apply lookup_app_l_Some|].
  unfold queue in U5, U6. simpl in U5, U6. rewrite take_app_le in U5, U6 by (apply lookup_lt_Some in Hj; lia).
  pose proof (increasing_above_elem _ _ ts (fl_increasing _ _ _ Hf) ltac:(by eapply list_elem_of_lookup_2)) as Hlt.
  assert (Hup : ts <= ds_maxTimestamp s1).
  { rewrite (fl_max _ _ _ Hf). clear -Hk2 Hf. pose proof (fl_increasing _ _ _ Hf) as Hi. revert Hi Hk2.
    generalize (ds_maxTimestamp (w_store (gs_writer gs))) k. induction (fo_landed o).*2 as [|t l IH]; intros m n; [done|].
    intros [H1 H2]. rewrite last_default_cons. destruct n as [|n]; simpl; [intros [= ->]; by apply increasing_last_le|by apply IH]. }
  assert (Hat : forall id, (forall x, x ∈ take j (bt_units b) -> ~ writes_key x id) ->
            ds_get s1 id (Some (ts - 1)) = ds_get (w_store (gs_writer gs)) id None).
  { intros id Hx. apply (fl_other _ _ _ Hf); [lia|]. intros k' u' ts' Hk1' Hk2' Hle. apply Hx. apply (Hbefore k'); [|done].
    destruct (decide (k' < k)%nat) as [|Hge]; [done|]. exfalso.
    destruct (decide (k' = k)) as [->|Hne]; [rewrite Hk2 in Hk2'; injection Hk2' as ->; lia|].
    pose proof (increasing_above_lookup _ _ k k' _ _ (fl_increasing _ _ _ Hf) Hk2 Hk2' ltac:(lia)). lia. }
  split; [done|]. exists a. split; [done|].
  destruct (gi_attempts _ _ _ _ _ _ Hinv _ _ a Ha eq_refl) as [(Hok & Hle & Hrun) _]. split_and!; [|done|].
  - unfold returned in U1. destruct (ac_rest a) as [v'|e|? ?|? ? ?|? ?|? ?|? ?|? ?|? ?|? ?] eqn:Er; try done. injection U1 as ->.
    cbn [run_prog] in Hrun. destruct (run_facts _ _ _ _ _ (ctx_new_ok _ _ _) Hrun) as (_ & _ & _ & H).
    apply (H s1 (ts - 1)). intros id Hid. destruct (U5 id Hid) as [Hg Hn].
    rewrite Hat; [symmetry; exact Hg|]. intros x Hx Hw. apply (Hn x Hx). apply writes_key_covers; [|done].
    apply (gi_covered _ _ _ _ _ _ Hinv), elem_of_app. left. apply elem_of_take in Hx as (n & Hx & _).
    by eapply list_elem_of_lookup_2.
  - intros e He. destruct (U6 e He) as [(prev & Hg & Hp) Hn]. exists prev. split; [|done]. by rewrite Hat.
Qed.

(** * Publication order *)

Definition gpublished_ok gs : Prop :=
  StronglySorted Z.lt (od_commitTs <$> w_published (gs_writer gs)) /\
  Forall (fun o => od_commitTs o <= getLastCommittedTimestamp (w_oracle (gs_writer gs))) (w_published (gs_writer gs)).

Lemma increasing_sorted m l : increasing_above m l -> StronglySorted Z.lt l.
Proof.
  revert m. induction l as [|t l IH]; intros m; [constructor|]. intros [_ H]. constructor; [by apply (IH t)|].
  apply Forall_forall. intros x Hx. by apply (increasing_above_elem t l).
Qed.

Lemma StronglySorted_prefix (l k : list Z) : l `prefix_of` k -> StronglySorted Z.lt k -> StronglySorted Z.lt l.
Proof.
  intros [r ->]. induction l as [|x l IH]; simpl; [constructor|]. intros [Hs Hx]%StronglySorted_inv.
  constructor; [by apply IH|]. by apply Forall_app in Hx as [? _].
Qed.

Lemma StronglySorted_app_lt (l k : list Z) :
  StronglySorted Z.lt l -> StronglySorted Z.lt k -> (forall x y, x ∈ l -> y ∈ k -> x < y) -> StronglySorted Z.lt (l ++ k).
Proof.
  induction 1 as [|x l Hl IH Hx]; intros Hk Hlt; simpl; [done|]. constructor.
  - apply IH; [done|]. intros a c Ha Hc. apply Hlt; [by right|done].
  - apply Forall_app. split; [done|]. apply Forall_forall. intros y Hy. apply Hlt; [left|done].
Qed.

(** Only [GPublish] touches the clock and the fan-out. *)
Lemma quiet_step gs ev gs' :
  ginv_of gs -> gsys_step cf gs ev = Some gs' -> ev <> GPublish ->
  w_published (gs_writer gs') = w_published (gs_writer gs) /\ w_oracle (gs_writer gs') = w_oracle (gs_writer gs).
Proof.
  intros Hinv Hs Hne.
  assert (Hans : forall i t a, gs_txns gs !! i = Some t -> gactive t = Some a -> forall e,
            w_published (fail_attempt cf (gs_writer gs) a e).1 = w_published (gs_writer gs) /\
            w_oracle (fail_attempt cf (gs_writer gs) a e).1 = w_oracle (gs_writer gs)).
  { intros i t a Hi Ha e. apply (slot_quiet cf (gs_writer gs) a), fail_attempt_next. by eapply gattempt_counted. }
  destruct ev as [fn o|i|i|i|i|i|i|i| | |]; cbn [gsys_step] in Hs; try done.
  - by injection Hs as <-.
  - destruct (gs_txns gs !! i) as [[]|]; try done. destruct (step_prog _ _ _). by injection Hs as <-.
  - destruct (gs_txns gs !! i) as [[]|] eqn:Hi; try done. unfold finish in Hs.
    destruct (ac_rest a); try done; [destruct (_ =? 0)%nat in Hs; [|done]|]; injection Hs as <-; [done|by eapply Hans].
  - destruct (mutex_free gs); [|done]. destruct (gs_txns gs !! i) as [t|] eqn:Hi; [|done]. simpl in Hs.
    destruct (stageable (gs_promoted gs) t) as [[a v]|] eqn:Es; [|done]. simpl in Hs. injection Hs as <-.
    destruct (stageable_facts _ _ _ _ _ _ _ _ _ _ _ Hinv Hi Es) as (Ha & _).
    unfold stage_begin, tagged_conflict. destruct (stage_check _ _ _ _); [|destruct (_ <? _)| |]; try done; by eapply Hans.
  - destruct (gs_txns gs !! i) as [[]|] eqn:Hi; try done. destruct todo as [|x todo]; [done|]. injection Hs as <-.
    unfold stage_get. destruct (chain_entry _ _); [done|]. by eapply Hans.
  - destruct (gs_txns gs !! i) as [[]|] eqn:Hi; try done. destruct todo as [|x todo]; [|done]. injection Hs as <-.
    unfold stage_end. by destruct (gs_pending gs).
  - destruct (gs_txns gs !! i) as [[]|] eqn:Hi; try done. case_bool_decide; [|done]. injection Hs as <-. by eapply Hans.
  - destruct (gs_txns gs !! i) as [[]|] eqn:Hi; try done. injection Hs as <-. destruct r; [done|by eapply Hans].
  - destruct (gs_committer gs); try done. destruct (mutex_free gs); [|done]. injection Hs as <-. unfold detach.
    destruct (gs_pending gs); [|done]. by destruct (_ =? 0)%nat.
  - destruct (gs_committer gs); try done. injection Hs as <-. unfold flush. by destruct (flushWithSplit _ _ _).
Qed.

Lemma gstep_published gs ev gs' : ginv_of gs -> gpublished_ok gs -> gsys_step cf gs ev = Some gs' -> gpublished_ok gs'.
Proof.
  intros Hinv [P1 P2] Hs. assert (Hd : ev = GPublish \/ ev <> GPublish) by (destruct ev; auto).
  destruct Hd as [->|Hne]; [|destruct (quiet_step gs ev gs' Hinv Hs Hne) as [E1 E2]; unfold gpublished_ok; by rewrite E1, E2].
  cbn [gsys_step] in Hs. destruct (gs_committer gs) eqn:Ec; try done. destruct (mutex_free gs); [|done]. injection Hs as <-.
  pose proof (gi_clock _ _ _ _ _ _ Hinv) as [Hinc _]. unfold publish_flush.
  destruct (publish_landed (gs_writer gs) (fo_landed o)) as [[w1 answers] err] eqn:Ep.
  apply publish_landed_facts in Ep. destruct (pb_deltas _ _ _ _ _ Ep) as (ds & D1 & D2 & D3).
  destruct (pb_clock _ _ _ _ _ Ep) as [Hle _].
  assert (Hok : gpublished_ok (gs_with gs w1 (gs_txns gs) None)).
  { unfold gpublished_ok. cbn [gs_with gs_writer]. rewrite D1, fmap_app. split.
    - apply StronglySorted_app_lt; [done|apply (StronglySorted_prefix _ _ D2); by eapply increasing_sorted|].
      intros x y Hx Hy. apply list_elem_of_fmap in Hx as (d & -> & Hdel). rewrite Forall_forall in P2. specialize (P2 d Hdel).
      assert (Hy' : y ∈ (fo_landed o).*2) by (destruct D2 as [r ->]; apply elem_of_app; by left).
      pose proof (increasing_above_elem _ _ y Hinc Hy'). lia.
    - apply Forall_app. split; [|done]. eapply Forall_impl; [exact P2|]. intros d Hdel. cbv beta in *. lia. }
  destruct err as [e|]; [exact Hok|]. unfold gpublished_ok in *. cbn [gs_writer gs_with] in *.
  destruct (fo_landed o); [done|]. destruct (prune_rest w1) as (_ & E2 & _ & E4). by rewrite E2, E4.
Qed.

(** Group commit publishes one delta per landed transaction, in timestamp
    order and only after the committed clock has reached it. *)
Theorem group_published_after_clock s0 gs :
  valid s0 -> greachable cf s0 gs ->
  StronglySorted Z.lt (od_commitTs <$> w_published (gs_writer gs)) /\
  forall d, d ∈ w_published (gs_writer gs) -> od_commitTs d <= getLastCommittedTimestamp (w_oracle (gs_writer gs)).
Proof.
  intros Hv0 Hreach. assert (Hp : gpublished_ok gs).
  { induction Hreach as [|gs ev gs' Hr IH Hs]; [split; constructor|].
    apply (gstep_published gs ev); [|done|done]. by apply (greachable_inv cf s0). }
  destruct Hp as [H1 H2]. split; [done|]. by apply Forall_forall.
Qed.
End safety.

(** * Splitting *)

Section splitting.
Context {S : Type} `{!DocStore S} {T : Type}.

(** The budget bounds the units split out; each carries its guard's error. *)
Lemma flush_loop_bound sh n (s : S) (q : list (staged_unit (T := T))) rej o s' :
  flush_loop sh n s q rej = (o, s') ->
  (length (fo_rejected o) <= length rej + n)%nat /\
  (Forall (fun ue => exists i, ue.2 = CommitGuardRejection i) rej ->
   Forall (fun ue => exists i, ue.2 = CommitGuardRejection i) (fo_rejected o)) /\
  (fo_chunk o <> [] -> is_Some (fo_error o)).
Proof.
  revert q rej. induction n as [|n IH]; intros q rej; cbn [flush_loop];
    (destruct (ds_commitWriteBatch s (unit_of <$> q) (Some sh)) as [[tss s1]|e] eqn:Ec;
     [intros [= <- <-]; simpl; split_and!; [lia|done|done]|]).
  - intros [= <- <-]. simpl. split_and!; [lia|done|by eexists].
  - destruct (guard_index e (length q)) as [i|] eqn:Eg; [|intros [= <- <-]; simpl; split_and!; [lia|done|by eexists]].
    destruct (q !! i) as [u|]; [|intros [= <- <-]; simpl; split_and!; [lia|done|by eexists]].
    assert (He : exists k, e = CommitGuardRejection k) by (destruct e; try done; by eexists).
    assert (Hrej : Forall (fun ue : staged_unit (T := T) * js_error => exists i, ue.2 = CommitGuardRejection i) rej ->
              Forall (fun ue : staged_unit (T := T) * js_error => exists i, ue.2 = CommitGuardRejection i) (rej ++ [(u, e)])).
    { intros Hr. apply Forall_app. split; [done|]. by constructor. }
    destruct (delete i q) as [|u' q'].
    + intros [= <- <-]. cbn [fo_rejected fo_chunk]. rewrite length_app. simpl. split_and!; [lia|exact Hrej|done].
    + intros Hf. destruct (IH _ _ Hf) as (H1 & H2 & H3). rewrite length_app in H1. simpl in H1. split_and!; [lia|auto|done].
Qed.
End splitting.

Section flushes.
Context {S : Type} `{!DocStore S} {T : Type} {valid : S -> Prop} `{!DocStoreLaws S valid}.

Lemma flush_loop_nothing sh n (s : S) (q : list (staged_unit (T := T))) rej o s' :
  valid s -> (forall u, u ∈ q -> su_documents u <> []) -> q <> [] ->
  flush_loop sh n s q rej = (o, s') -> fo_landed o = [] -> s' = s.
Proof.
  intros Hv. revert q rej. induction n as [|n IH]; intros q rej Hw Hq; cbn [flush_loop];
    (destruct (ds_commitWriteBatch s (unit_of <$> q) (Some sh)) as [[tss s1]|e] eqn:Ec;
     [destruct (commit_increasing _ _ _ _ _ Hv (unit_writes_forall q Hw) Ec) as (Hlen & _ & _); rewrite length_fmap in Hlen;
      intros [= <- <-] Hl; simpl in Hl; destruct q, tss; done|]).
  - by intros [= <- <-].
  - destruct (guard_index e (length q)) as [i|]; [|by intros [= <- <-]].
    destruct (q !! i) as [u|] eqn:Hi; [|by intros [= <- <-]].
    pose proof (delete_Permutation q i u Hi) as Hp. destruct (delete i q) as [|u' q']; [by intros [= <- <-]|].
    apply IH; [|done]. intros x Hx. apply Hw. rewrite Hp. by right.
Qed.

(** A flush accounts for every unit of its batch exactly once, as landed,
    split out by a guard or failed with the rest; landed units keep the order
    of the batch; at most three units are split out, each with a guard's error;
    and if nothing landed the store is unchanged. *)
Theorem flushWithSplit_accounts sh (s : S) (units : list (staged_unit (T := T))) o s' :
  valid s -> (forall u, u ∈ units -> su_documents u <> []) -> units <> [] ->
  flushWithSplit sh s units = (o, s') ->
  (fo_landed o).*1 ++ (fo_rejected o).*1 ++ fo_chunk o ≡ₚ units /\
  sublist (fo_landed o).*1 units /\
  (length (fo_rejected o) <= MAX_SPLIT_RETRIES)%nat /\
  Forall (fun ue => exists i, ue.2 = CommitGuardRejection i) (fo_rejected o) /\
  (fo_chunk o <> [] -> fo_landed o = [] /\ is_Some (fo_error o)) /\
  (fo_landed o = [] -> s' = s).
Proof.
  intros Hv Hd Hne Hf. destruct (flush_loop_bound _ _ _ _ _ _ _ Hf) as (B1 & B2 & B3).
  pose proof (flush_loop_nothing _ _ _ _ _ _ _ Hv Hd Hne Hf) as Hnothing.
  destruct (flush_loop_ok _ _ _ _ _ _ _ Hv Hd Hf) as [(rej & Hrej & Hperm) Hsub Hst].
  simpl in Hrej. rewrite Hrej. rewrite Hrej in B1, B2. split_and!; [done|done|done|apply B2; constructor| |done].
  intros Hc. split; [|by apply B3]. destruct Hst as [[H _]|(H & _)]; done.
Qed.
End flushes.

(** * Progress *)

Section progress.
Context {S : Type} `{!DocStore S} {T : Type} {valid : S -> Prop} `{!DocStoreLaws S valid} (cf : config).
Implicit Types (gs : gsystem (S := S) (T := T)) (a : active (T := T)).
Notation ginv_of gs :=
  (ginv (valid := valid) cf (gs_writer gs) (gs_txns gs) (gs_pending gs) (gs_committer gs) (gs_holder gs)).

Definition is_dead (com : committer (T := T)) : bool := match com with CDead _ _ => true | _ => false end.

(** The promise of a batch that is still in flight. *)
Definition in_flight_promise gs (p : nat) : Prop :=
  exists b, (flushingBatch (gs_committer gs) = Some b \/ gs_pending gs = Some b) /\ bt_promise b = p.

Definition waits_for (t : gtxn (T := T)) : option nat :=
  match t with GCut _ _ p | GReplay _ p => Some p | _ => None end.

Record gprog gs : Prop := {
  gp_pending : forall b, gs_pending gs = Some b -> bt_units b <> [] /\ committerRunning (gs_committer gs) = true;
  gp_holder : forall i, gs_holder gs = Some i -> exists a v todo docs, gs_txns gs !! i = Some (GStaging a v todo docs);
  gp_staged : forall i a, gs_txns gs !! i = Some (GStaged a) ->
    is_dead (gs_committer gs) = true \/
    exists u, u ∈ unanswered (gs_committer gs) ++ pending_units (gs_pending gs) /\ su_txn u = i;
  gp_promise : forall i t p, gs_txns gs !! i = Some t -> waits_for t = Some p ->
    p ∈ gs_promoted gs \/ in_flight_promise gs p
}.

(** A step that changes one transaction, not into a staged one. *)
Lemma gprog_slot gs i old x w h :
  gprog gs -> gs_txns gs !! i = Some old ->
  (forall a, x <> GStaged a) -> (forall p, waits_for x = Some p -> p ∈ gs_promoted gs \/ in_flight_promise gs p) ->
  (match h with
   | Some j => (j = i /\ exists a v todo docs, x = GStaging a v todo docs) \/
               (j <> i /\ gs_holder gs = Some j)
   | None => True
   end) ->
  gprog (gs_with gs w (<[i := x]> (gs_txns gs)) h).
Proof.
  intros [P1 P2 P3 P4] Hi Hx Hp Hh. split; cbn [gs_with gs_pending gs_committer gs_txns gs_promoted gs_holder]; try done.
  - intros j ->. destruct Hh as [[-> (a & v & todo & docs & ->)]|[Hne Hj]].
    + exists a, v, todo, docs. apply list_lookup_insert_Some. left. split_and!; [done|done|by eapply lookup_lt_Some].
    + destruct (P2 j Hj) as (a & v & todo & docs & E). exists a, v, todo, docs. by rewrite list_lookup_insert_ne.
  - intros j a Hj. apply insert_other in Hj as [[_ Hj]|[_ Hj]]; [by destruct (Hx a)|by apply (P3 j a)].
  - intros j t p Hj Hw. apply insert_other in Hj as [[_ ->]|[_ Hj]]; [by apply Hp|by apply (P4 j t)].
Qed.

Lemma gprog_answer gs i old wt h :
  gprog gs -> gs_txns gs !! i = Some old ->
  (h = None \/ h = gs_holder gs /\ forall a v todo docs, old <> GStaging a v todo docs) ->
  gprog (set_gtxn gs i wt h).
Proof.
  intros Hg Hi Hh. apply (gprog_slot gs i old); [done|done|by destruct wt.2|by destruct wt.2|].
  destruct h as [j|]; [|done]. destruct Hh as [?|[Hh Ho]]; [done|]. right. split; [|done]. intros ->.
  destruct (gp_holder _ Hg i ltac:(done)) as (a & v & todo & docs & E). rewrite Hi in E. injection E as ->. by eapply Ho.
Qed.

Lemma stage_check_promise (ring : list recent_commit) f p c q :
  stage_check ring f p c = STagged q \/ stage_check (T := T) ring f p c = SCut q ->
  exists b, (f = Some b \/ p = Some b) /\ bt_promise b = q.
Proof.
  unfold stage_check. destruct (conflicts ring c); [by intros [|]|].
  destruct (batch_conflict c f) as [q1|] eqn:E1.
  { unfold batch_conflict in E1. destruct f as [b|]; [|done]. destruct (rs_intersects _ _); [|done].
    intros [[= <-]|]; [|done]. injection E1 as <-. exists b. auto. }
  destruct (batch_conflict c p) as [q2|] eqn:E2.
  { unfold batch_conflict in E2. destruct p as [b|]; [|done]. destruct (rs_intersects _ _); [|done].
    intros [[= <-]|]; [|done]. injection E2 as <-. exists b. auto. }
  destruct (batch_cut f p _) as [q3|] eqn:E3; [|by intros [|]]. intros [|[= <-]]; [done|].
  assert (Hhas : forall (b : option (batch (T := T))) k r, batch_has b k = Some r -> exists b', b = Some b' /\ bt_promise b' = r).
  { intros [b|] k r; simpl; [|done]. case_bool_decide; [|done]. intros [= <-]. by exists b. }
  revert E3. induction (uw_entries (cx_staged c)) as [|x ws IH]; simpl; [done|].
  destruct (batch_has f _) as [r|] eqn:Ef; [intros [= <-]; destruct (Hhas _ _ _ Ef) as (b & ? & ?); exists b; auto|].
  destruct (batch_has p _) as [r|] eqn:Ep; [intros [= <-]; destruct (Hhas _ _ _ Ep) as (b & ? & ?); exists b; auto|done].
Qed.

Lemma settle_done (answers : list (nat * res (commit_result T))) l j a :
  l !! j = Some (GStaged a) -> j ∈ answers.*1 -> exists r, fold_left settle answers l !! j = Some (GSettled a r).
Proof.
  revert l. induction answers as [|ar answers IH]; intros l Hj; csimpl; [by intros ?%not_elem_of_nil|]. intros Hin.
  destruct (decide (ar.1 = j)) as [He|Hne].
  - assert (Hs : settle l ar !! j = Some (GSettled a ar.2)).
    { unfold settle. rewrite He, Hj. apply list_lookup_insert_Some. left. split_and!; [done|done|by eapply lookup_lt_Some]. }
    exists ar.2. destruct (settle_slot answers (settle l ar) j) as [->|(b & r & Hb & _)]; [done|congruence].
  - apply elem_of_cons in Hin as [?|Hin]; [done|]. apply IH; [|done]. unfold settle.
    destruct (l !! ar.1) as [[]|]; try done. by rewrite list_lookup_insert_ne.
Qed.

Lemma settle_waits (answers : list (nat * res (commit_result T))) l j t p :
  fold_left settle answers l !! j = Some t -> waits_for t = Some p -> l !! j = Some t.
Proof.
  intros Hj Hw. destruct (settle_slot answers l j) as [<-|(a & r & _ & He & _)]; [done|].
  rewrite He in Hj. by injection Hj as <-.
Qed.

(** Every unit of a published batch has its answer. *)
Lemma all_answered gs b o w1 answers :
  ginv_of gs -> gs_committer gs = CLanded b o -> published_by (gs_writer gs) (fo_landed o) w1 answers None ->
  forall u, u ∈ bt_units b -> su_txn u ∈ (answers ++ rejections o).*1.
Proof.
  intros Hinv Hc Hp u Hu. pose proof (gi_outcome _ _ _ _ _ _ Hinv) as Ho. rewrite Hc in Ho. destruct Ho as [Hperm _].
  rewrite <- Hperm in Hu. rewrite fmap_app. destruct (pb_all _ _ _ _ _ Hp eq_refl) as (_ & Ha & _). rewrite Ha.
  unfold rejections. rewrite fmap_app, <- !list_fmap_compose.
  rewrite !elem_of_app in *. destruct Hu as [Hu|[Hu|Hu]].
  - left. apply list_elem_of_fmap in Hu as (ut & -> & Hut). apply list_elem_of_fmap. by exists ut.
  - right. left. apply list_elem_of_fmap in Hu as (ue & -> & Hue). apply list_elem_of_fmap. by exists ue.
  - right. right. apply list_elem_of_fmap. by exists u.
Qed.

Lemma gprog_committer gs com st :
  gprog gs -> (committerRunning (gs_committer gs) = true -> committerRunning com = true) ->
  (is_dead (gs_committer gs) = true -> is_dead com = true) ->
  unanswered com = unanswered (gs_committer gs) -> flushingBatch com = flushingBatch (gs_committer gs) ->
  gprog (GSystem (with_store (gs_writer gs) st) (gs_txns gs) (gs_pending gs) com (gs_holder gs) (gs_promoted gs)
           (gs_promises gs) (gs_lastBatchSize gs) (gs_maxBatchSize gs) (gs_flushCount gs)).
Proof.
  intros [P1 P2 P3 P4] Hr Hd Hu Hf. split; cbn; try done.
  - intros b Hb. destruct (P1 b Hb) as [? ?]. auto.
  - intros i a Hi. rewrite Hu. destruct (P3 i a Hi); auto.
  - intros i t p Hi Hw. unfold in_flight_promise. cbn. rewrite Hf. by apply (P4 i t p).
Qed.

Lemma gprog_stage_end gs i a v docs :
  gprog gs -> gs_txns gs !! i = Some (GStaging a v [] docs) -> gprog (stage_end gs i a v docs).
Proof.
  intros [P1 P2 P3 P4] Hi. unfold stage_end.
  set (bn := match gs_pending gs with Some b => (b, gs_promises gs) | None => _ end).
  assert (Hbn : bt_units bn.1 = pending_units (gs_pending gs) /\
            forall b, gs_pending gs = Some b -> bt_promise b = bt_promise bn.1).
  { unfold bn. destruct (gs_pending gs); [split; [done|by intros ? [= ->]]|done]. }
  destruct bn as [b n]. cbn [fst] in Hbn. destruct Hbn as [Hu Hpr]. destruct (ensure_same (gs_committer gs)) as (_ & _ & W3 & _ & W5 & _).
  split; cbn [gs_pending gs_committer gs_txns gs_promoted gs_holder]; try done.
  - intros b' [= <-]. split; [unfold batch_append; cbn; by destruct (bt_units b)|]. unfold ensureCommitter.
    by destruct (committerRunning (gs_committer gs)) eqn:E.
  - intros j c Hj. rewrite W3. cbn [pending_units batch_append bt_units]. rewrite Hu.
    apply insert_other in Hj as [[-> _]|[_ Hj]].
    + right. eexists. split; [rewrite !elem_of_app; right; right; left|done].
    + destruct (P3 j c Hj) as [Hd|(u & Hin & Hs)]; [left; by destruct (gs_committer gs)|right].
      exists u. split; [|done]. rewrite !elem_of_app in *. tauto.
  - intros j t p Hj Hw. apply insert_other in Hj as [[_ ->]|[_ Hj]]; [done|].
    destruct (P4 j t p Hj Hw) as [?|(b' & [Hb|Hb] & Hp)]; [by left| |]; right.
    + exists b'. cbn. rewrite W5. auto.
    + eexists. cbn. split; [right; reflexivity|]. cbn. by rewrite <- (Hpr b' Hb).
Qed.

Lemma gprog_publish gs b o :
  ginv_of gs -> gprog gs -> gs_committer gs = CLanded b o -> gs_holder gs = None -> gprog (publish_flush gs b o).
Proof.
  intros Hinv [P1 P2 P3 P4] Hc Hh. unfold publish_flush.
  destruct (publish_landed (gs_writer gs) (fo_landed o)) as [[w1 answers] err] eqn:Ep. apply publish_landed_facts in Ep.
  assert (Hwait : forall ar j t p, fold_left settle ar (gs_txns gs) !! j = Some t -> waits_for t = Some p ->
            p ∈ gs_promoted gs \/ p = bt_promise b \/ exists b', gs_pending gs = Some b' /\ bt_promise b' = p).
  { intros ar j t p Hj Hw. pose proof (settle_waits _ _ _ _ _ Hj Hw) as Hj'.
    destruct (P4 j t p Hj' Hw) as [?|(b' & [Hb|Hb] & Hp)]; [by left| |]; right; [left|right; by exists b'].
    rewrite Hc in Hb. by injection Hb as ->. }
  destruct err as [e|]; split; cbn [gs_pending gs_committer gs_txns gs_promoted gs_holder]; try done.
  - intros b' Hb. by destruct (P1 b' Hb).
  - rewrite Hh. done.
  - intros j a Hj. by left.
  - intros j t p Hj Hw. destruct (Hwait _ j t p Hj Hw) as [?|[->|(b' & Hb & Hp)]]; [by left| |]; right.
    + exists b. cbn. auto.
    + exists b'. cbn. auto.
  - intros b' Hb. by destruct (P1 b' Hb).
  - rewrite Hh. done.
  - intros j a Hj. right. destruct (settle_slot (answers ++ rejections o) (gs_txns gs) j) as [He|(x & r & _ & He & _)]; [|congruence].
    rewrite He in Hj. destruct (P3 j a Hj) as [Hd|(u & Hu & Hs)]; [by rewrite Hc in Hd|].
    rewrite Hc in Hu. apply elem_of_app in Hu as [Hu|Hu]; [|by exists u].
    pose proof (all_answered _ _ _ _ _ Hinv Hc Ep u Hu) as Hin. rewrite Hs in Hin.
    destruct (settle_done _ _ j a Hj Hin) as [r Hr]. congruence.
  - intros j t p Hj Hw. destruct (Hwait _ j t p Hj Hw) as [?|[->|(b' & Hb & Hp)]].
    + left. apply elem_of_app. by left.
    + left. apply elem_of_app. right. left.
    + right. exists b'. cbn. auto.
Qed.

Lemma gstep_prog gs ev gs' : ginv_of gs -> gprog gs -> gsys_step cf gs ev = Some gs' -> gprog gs'.
Proof.
  intros Hinv Hg Hs.
  assert (Hans : forall i t wt, gs_txns gs !! i = Some t -> (forall a v todo docs, t <> GStaging a v todo docs) ->
            gprog (set_gtxn gs i wt (gs_holder gs))).
  { intros i t wt Hi Ht. apply (gprog_answer gs i t); auto. }
  assert (Hrest : forall i t x, gs_txns gs !! i = Some t -> (forall a v todo docs, t <> GStaging a v todo docs) ->
            (forall a, x <> GStaged a) -> (forall p, waits_for x = Some p -> p ∈ gs_promoted gs \/ in_flight_promise gs p) ->
            gprog (gs_with gs (gs_writer gs) (<[i := x]> (gs_txns gs)) (gs_holder gs))).
  { intros i t x Hi Ht Hx Hp. apply (gprog_slot gs i t); try done. destruct (gs_holder gs) as [j|] eqn:Hh; [|done].
    right. split; [|done]. intros ->. destruct (gp_holder _ Hg i Hh) as (a & v & todo & docs & E). rewrite Hi in E.
    injection E as ->. by eapply Ht. }
  destruct ev as [fn o|i|i|i|i|i|i|i| | |]; cbn [gsys_step] in Hs.
  - injection Hs as <-. destruct Hg as [P1 P2 P3 P4]. split; cbn; try done.
    + intros j Hj. destruct (P2 j Hj) as (a & v & todo & docs & E). exists a, v, todo, docs. by apply lookup_app_l_Some.
    + intros j a Hj. apply lookup_app_Some in Hj as [Hj|[_ Hj]]; [by apply (P3 j a)|].
      destruct (j - _)%nat; simpl in Hj; [done|done].
    + intros j t p Hj Hw. apply lookup_app_Some in Hj as [Hj|[_ Hj]]; [by apply (P4 j t)|].
      destruct (j - _)%nat; simpl in Hj; [|done]. by injection Hj as <-.
  - destruct (gs_txns gs !! i) as [[]|] eqn:Hi; try done. destruct (step_prog _ _ _). injection Hs as <-. by eapply Hrest.
  - destruct (gs_txns gs !! i) as [[]|] eqn:Hi; try done. destruct (finish cf (gs_writer gs) a) as [wt|]; [|done].
    injection Hs as <-. by eapply Hans.
  - unfold mutex_free in Hs. destruct (gs_holder gs) eqn:Hh; [done|]. destruct (gs_txns gs !! i) as [t|] eqn:Hi; [|done]. simpl in Hs.
    destruct (stageable (gs_promoted gs) t) as [[a v]|] eqn:Es; [|done]. simpl in Hs. injection Hs as <-.
    assert (Ht : forall a v todo docs, t <> GStaging a v todo docs) by (intros ? ? ? ? ->; done).
    unfold stage_begin, tagged_conflict. rewrite Hh.
    destruct (stage_check _ _ _ _) eqn:Ec; [by eapply Hans| | |].
    + destruct (_ <? _); [|by eapply Hans]. eapply Hrest; [done|done|done|]. intros p [= <-]. right.
      eapply stage_check_promise. by left.
    + eapply Hrest; [done|done|done|]. intros p [= <-]. right. eapply stage_check_promise. by right.
    + apply (gprog_slot gs i t); try done. left. split; [done|]. by eexists _, _, _, _.
  - destruct (gs_txns gs !! i) as [[]|] eqn:Hi; try done. destruct todo as [|x todo]; [done|]. injection Hs as <-.
    destruct (gi_staging _ _ _ _ _ _ Hinv _ _ _ _ _ Hi) as [Hh _]. unfold stage_get.
    destruct (chain_entry _ _) as [e|e].
    + apply (gprog_slot gs i _ _ _ _ Hg Hi); try done. rewrite Hh. left. split; [done|]. by eexists _, _, _, _.
    + apply (gprog_answer gs i _ _ _ Hg Hi). by left.
  - destruct (gs_txns gs !! i) as [[]|] eqn:Hi; try done. destruct todo as [|x todo]; [|done]. injection Hs as <-.
    by apply gprog_stage_end.
  - destruct (gs_txns gs !! i) as [[]|] eqn:Hi; try done. case_bool_decide; [|done]. injection Hs as <-. by eapply Hans.
  - destruct (gs_txns gs !! i) as [[]|] eqn:Hi; try done. injection Hs as <-. by eapply Hans.
  - destruct (gs_committer gs) eqn:Ec; try done. destruct (mutex_free gs); [|done]. injection Hs as <-.
    destruct Hg as [P1 P2 P3 P4]. unfold detach. destruct (gs_pending gs) as [b|] eqn:Ep.
    + destruct (P1 b eq_refl) as [Hb _]. destruct (Nat.eqb_spec (length (bt_units b)) 0) as [E|_].
      { by destruct (bt_units b). }
      split; cbn; try done.
      * intros j a Hj. right. destruct (P3 j a Hj) as [?|(u & Hu & Hx)]; [by rewrite Ec in *|]. rewrite Ec in Hu.
        exists u. split; [|done]. by rewrite app_nil_r.
      * intros j t p Hj Hw. destruct (P4 j t p Hj Hw) as [?|(b' & [Hb'|Hb'] & Hp)]; [by left|by rewrite Ec in Hb'|].
        right. rewrite Ep in Hb'. injection Hb' as <-. exists b. cbn. auto.
    + split; cbn; try done.
      * intros j a Hj. destruct (P3 j a Hj) as [?|(u & Hu & Hx)]; [by rewrite Ec in *|]. rewrite Ec in Hu.
        by apply not_elem_of_nil in Hu.
      * intros j t p Hj Hw. destruct (P4 j t p Hj Hw) as [?|(b' & [Hb'|Hb'] & Hp)]; [by left|by rewrite Ec in Hb'|].
        by rewrite Ep in Hb'.
  - destruct (gs_committer gs) eqn:Ec; try done. injection Hs as <-. unfold flush. destruct (flushWithSplit _ _ _) as [o s'].
    apply (gprog_committer gs (CLanded b o) s' Hg); by rewrite Ec.
  - destruct (gs_committer gs) eqn:Ec; try done. unfold mutex_free in Hs. destruct (gs_holder gs) eqn:Hh; [done|].
    injection Hs as <-. apply gprog_publish; [by rewrite Ec, Hh|done..].
Qed.

Lemma greachable_prog s0 gs : valid s0 -> greachable cf s0 gs -> gprog gs.
Proof.
  intros Hv. induction 1 as [|gs ev gs' Hr IH Hs]; [by split|].
  apply (gstep_prog gs ev); [by apply (greachable_inv cf s0)|done|done].
Qed.

(** C29: no staged transaction is forgotten.  Unless publishing threw: a staged
    transaction has its unit in the batch being flushed or in the pending one; a
    batch whose promotion a transaction awaits is one of these two or has been
    promoted; while one of them awaits, the committer or the holder of the mutex
    has a step to take; and a publication that does not throw answers every
    unit of its batch and promotes it. *)
Theorem group_progress s0 gs :
  valid s0 -> greachable cf s0 gs -> is_dead (gs_committer gs) = false ->
  (forall i a, gs_txns gs !! i = Some (GStaged a) ->
     exists b u, (flushingBatch (gs_committer gs) = Some b \/ gs_pending gs = Some b) /\ u ∈ bt_units b /\ su_txn u = i) /\
  (forall i t p, gs_txns gs !! i = Some t -> waits_for t = Some p ->
     p ∈ gs_promoted gs \/
     exists b, (flushingBatch (gs_committer gs) = Some b \/ gs_pending gs = Some b) /\ bt_promise b = p) /\
  (forall i t, gs_txns gs !! i = Some t ->
     (exists a, t = GStaged a) \/ (exists p, waits_for t = Some p /\ p ∉ gs_promoted gs) ->
     exists ev gs', ev ∈ [GDetach; GFlush; GPublish] ++ ((fun j => GStageGet j) <$> option_list (gs_holder gs)) ++
                          ((fun j => GStageEnd j) <$> option_list (gs_holder gs)) /\
                    gsys_step cf gs ev = Some gs') /\
  (forall b o gs', gs_committer gs = CLanded b o -> gsys_step cf gs GPublish = Some gs' ->
     is_dead (gs_committer gs') = false ->
     bt_promise b ∈ gs_promoted gs' /\
     forall u, u ∈ bt_units b -> exists a r, gs_txns gs' !! su_txn u = Some (GSettled a r)).
Proof.
  intros Hv Hreach Hlive. pose proof (greachable_inv cf s0 gs Hv Hreach) as Hinv.
  pose proof (greachable_prog s0 gs Hv Hreach) as Hg. split_and!.
  - intros i a Hi. destruct (gp_staged _ Hg i a Hi) as [?|(u & Hu & <-)]; [congruence|]. apply elem_of_app in Hu as [Hu|Hu].
    + destruct (gs_committer gs) as [| |b|b o|] eqn:Ec; cbn [unanswered] in Hu; try (by apply not_elem_of_nil in Hu); exists b, u; (split_and!; [by left|done|done]).
    + destruct (gs_pending gs) as [b|] eqn:Ep; [|by apply not_elem_of_nil in Hu]. exists b, u. split_and!; [by right|done|done].
  - intros i t p Hi Hp. exact (gp_promise _ Hg i t p Hi Hp).
  - intros i t Hi Ht. destruct (gs_holder gs) as [j|] eqn:Hh.
    + destruct (gp_holder _ Hg j Hh) as (a & v & todo & docs & E). destruct todo as [|x todo].
      * eexists (GStageEnd j), _. split; [simpl; set_solver|]. cbn [gsys_step]. by rewrite E.
      * eexists (GStageGet j), _. split; [simpl; set_solver|]. cbn [gsys_step]. by rewrite E.
    + assert (Hrun : committerRunning (gs_committer gs) = true).
      { assert (Hfl : forall b, flushingBatch (gs_committer gs) = Some b -> committerRunning (gs_committer gs) = true)
          by (intros b; by destruct (gs_committer gs)).
        destruct Ht as [[a ->]|(p & Hp & Hn)].
        - destruct (gp_staged _ Hg i a Hi) as [?|(u & Hu & _)]; [congruence|].
          apply elem_of_app in Hu as [Hu|Hu]; [by destruct (gs_committer gs); try (by apply not_elem_of_nil in Hu)|].
          destruct (gs_pending gs) as [b|] eqn:Ep; [by apply (gp_pending _ Hg b)|by apply not_elem_of_nil in Hu].
        - destruct (gp_promise _ Hg i t p Hi Hp) as [?|(b & [Hb|Hb] & _)]; [done|by apply (Hfl b)|by apply (gp_pending _ Hg b)]. }
      destruct (gs_committer gs) eqn:Ec; try done; cbn [gsys_step].
      * eexists GDetach, _. split; [simpl; set_solver|]. cbn [gsys_step]. unfold mutex_free. by rewrite Ec, Hh.
      * eexists GFlush, _. split; [simpl; set_solver|]. cbn [gsys_step]. by rewrite Ec.
      * eexists GPublish, _. split; [simpl; set_solver|]. cbn [gsys_step]. unfold mutex_free. by rewrite Ec, Hh.
  - intros b o gs' Hc Hs Hd. cbn [gsys_step] in Hs. rewrite Hc in Hs. destruct (mutex_free gs); [|done]. injection Hs as <-.
    unfold publish_flush in *. destruct (publish_landed (gs_writer gs) (fo_landed o)) as [[w1 answers] err] eqn:Ep.
    apply publish_landed_facts in Ep. destruct err as [e|]; [done|]. cbn [gs_promoted gs_txns]. split; [apply elem_of_app; right; left|].
    intros u Hu. destruct (gi_awaiting _ _ _ _ _ _ Hinv u) as [a Ha]; [rewrite Hc; apply elem_of_app; by left|].
    destruct (settle_done (answers ++ rejections o) _ _ a Ha) as [r Hr]; [by eapply all_answered|]. by exists a, r.
Qed.
End progress.

(** * A committer that stops *)

Section schedules.
Context {S : Type} `{!DocStore S} {T : Type} (cf : config).
Implicit Types (gs : gsystem (S := S) (T := T)).

Definition gexec gs (evs : list gevent) : option gsystem :=
  foldl (fun acc ev => gs ← acc; gsys_step cf gs ev) (Some gs) evs.

Lemma gexec_none evs : foldl (fun acc ev => gs ← acc; gsys_step cf gs ev) (None (A := gsystem (S := S) (T := T))) evs = None.
Proof. by induction evs. Qed.

Lemma gexec_cons gs ev evs :
  gexec gs (ev :: evs) = match gsys_step cf gs ev with Some gs' => gexec gs' evs | None => None end.
Proof. unfold gexec. simpl. destruct (gsys_step cf gs ev); [done|apply gexec_none]. Qed.

Lemma gexec_reachable s0 gs evs gs' : greachable cf s0 gs -> gexec gs evs = Some gs' -> greachable cf s0 gs'.
Proof.
  revert gs. induction evs as [|ev evs IH]; intros gs Hr; [by intros [= <-]|]. rewrite gexec_cons.
  destruct (gsys_step cf gs ev) as [g1|] eqn:E; [|done]. apply IH. by apply (greach_step cf s0 gs ev).
Qed.

(** A stopped committer never answers. *)
Lemma dead_step gs ev gs' i a :
  is_dead (gs_committer gs) = true -> gs_txns gs !! i = Some (GStaged a) -> gsys_step cf gs ev = Some gs' ->
  is_dead (gs_committer gs') = true /\ gs_txns gs' !! i = Some (GStaged a).
Proof.
  intros Hd Hi Hs.
  assert (Hkeep : forall j t x, gs_txns gs !! j = Some t -> (forall b, t <> GStaged b) ->
            <[j := x]> (gs_txns gs) !! i = Some (GStaged a)).
  { intros j t x Hj Ht. rewrite list_lookup_insert_ne; [done|]. intros ->. rewrite Hi in Hj. injection Hj as <-. by eapply Ht. }
  destruct ev as [fn o|j|j|j|j|j|j|j| | |]; cbn [gsys_step] in Hs.
  - injection Hs as <-. split; [done|]. by apply lookup_app_l_Some.
  - destruct (gs_txns gs !! j) as [[]|] eqn:Hj; try done. destruct (step_prog _ _ _). injection Hs as <-.
    split; [done|by eapply Hkeep].
  - destruct (gs_txns gs !! j) as [[]|] eqn:Hj; try done. destruct (finish cf _ _); [|done]. injection Hs as <-.
    split; [done|by eapply Hkeep].
  - destruct (mutex_free gs); [|done]. destruct (gs_txns gs !! j) as [t|] eqn:Hj; [|done]. simpl in Hs.
    assert (Ht : forall b, t = GStaged b -> stageable (gs_promoted gs) t = None) by (intros b ->; done).
    destruct (stageable (gs_promoted gs) t) as [[b v]|] eqn:Es; [|done]. simpl in Hs. injection Hs as <-.
    assert (Hn : forall b, t <> GStaged b) by (intros b0 E; by specialize (Ht b0 E)).
    unfold stage_begin, tagged_conflict. destruct (stage_check _ _ _ _); [|destruct (_ <? _)| |];
      (split; [done|by eapply Hkeep]).
  - destruct (gs_txns gs !! j) as [[]|] eqn:Hj; try done. destruct todo; [done|]. injection Hs as <-.
    unfold stage_get. destruct (chain_entry _ _); (split; [done|by eapply Hkeep]).
  - destruct (gs_txns gs !! j) as [[]|] eqn:Hj; try done. destruct todo; [|done]. injection Hs as <-.
    unfold stage_end. destruct (gs_pending gs); (split; [by destruct (gs_committer gs)|by eapply Hkeep]).
  - destruct (gs_txns gs !! j) as [[]|] eqn:Hj; try done. case_bool_decide; [|done]. injection Hs as <-.
    split; [done|by eapply Hkeep].
  - destruct (gs_txns gs !! j) as [[]|] eqn:Hj; try done. injection Hs as <-. split; [done|by eapply Hkeep].
  - by destruct (gs_committer gs).
  - by destruct (gs_committer gs).
  - by destruct (gs_committer gs).
Qed.

Lemma dead_exec gs evs gs' i a :
  is_dead (gs_committer gs) = true -> gs_txns gs !! i = Some (GStaged a) -> gexec gs evs = Some gs' ->
  is_dead (gs_committer gs') = true /\ gs_txns gs' !! i = Some (GStaged a).
Proof.
  revert gs. induction evs as [|ev evs IH]; intros gs Hd Hi; [by intros [= <-]|]. rewrite gexec_cons.
  destruct (gsys_step cf gs ev) as [g1|] eqn:E; [|done]. destruct (dead_step gs ev g1 i a Hd Hi E). by apply IH.
Qed.
End schedules.

Definition put_at (id : doc_id) (v : Z) : prog Z := Put id (VBigint v) (fun _ => Return v).
Definition other_id (n : Z) : doc_id := DocId 10001 (replicate 16 n).

(** Begin a put and carry it through staging. *)
Definition stage_put (i : nat) (id : doc_id) (v : Z) : list (gevent (T := Z)) :=
  [GBegin (put_at id v) no_options; GOp i; GStageBegin i; GStageGet i; GStageEnd i].

Definition run_gschedule (evs : list (gevent (T := Z))) : gsystem (S := sqlite_store) (T := Z) :=
  default (gstart empty_store) (gexec sample_config (gstart empty_store) evs).

Lemma run_gschedule_reachable evs : greachable sample_config empty_store (run_gschedule evs).
Proof.
  unfold run_gschedule. destruct (gexec _ _ evs) as [gs|] eqn:E; simpl; [|apply greach_start].
  by apply (gexec_reachable _ _ (gstart empty_store) evs); [apply greach_start|].
Qed.

(** A document whose id is one byte lands, and its delta cannot be built. *)
Definition stopping_schedule : list (gevent (T := Z)) :=
  stage_put 0 (DocId 10001 [1]) 1 ++ [GDetach] ++ stage_put 1 (other_id 2) 2 ++ [GFlush; GPublish].

(** An exception while a delta is built, after the rows have landed, stops
    the shard's committer for good: the batch never leaves the flushing slot,
    its transaction is never told it committed, and a transaction staged behind
    it is never answered, whatever happens next. *)
Theorem group_publish_error_stops_committer :
  exists gs i (a : active (T := Z)), greachable sample_config empty_store gs /\ gs_txns gs !! i = Some (GStaged a) /\
    ds_maxTimestamp (w_store (gs_writer gs)) = 1 /\ w_published (gs_writer gs) = [] /\
    forall evs gs', gexec sample_config gs evs = Some gs' ->
      is_dead (gs_committer gs') = true /\ gs_txns gs' !! i = Some (GStaged a).
Proof.
  set (gs := run_gschedule stopping_schedule).
  assert (Hd : is_dead (gs_committer gs) = true) by by vm_compute.
  assert (Hi : exists a, gs_txns gs !! 1%nat = Some (GStaged a)).
  { destruct (gs_txns gs !! 1%nat) as [[]|] eqn:E; try (by vm_compute in E). by eexists. }
  destruct Hi as [a Ha]. exists gs, 1%nat, a. split_and!; [apply run_gschedule_reachable|done|by vm_compute|by vm_compute|].
  intros evs gs'. by apply dead_exec.
Qed.

(** * Two transactions in one batch *)

Definition before_flush : list (gevent (T := Z)) :=
  stage_put 0 (other_id 1) 1 ++ [GDetach] ++ stage_put 1 (other_id 2) 2 ++ stage_put 2 (other_id 3) 3 ++
  [GFlush; GPublish; GDetach].

Definition flushed_batch : batch (T := Z) :=
  match gs_committer (run_gschedule before_flush) with CFlushing b => b | _ => newBatch 0 end.

Definition flushed_outcome : flush_outcome (T := Z) :=
  match gs_committer (run_gschedule (before_flush ++ [GFlush])) with CLanded _ o => o | _ => FlushOutcome [] [] [] None end.

Definition second_unit : staged_unit (T := Z) * Z :=
  default (StagedUnit 0 [] [] None None rs_empty [] 0, 0) (fo_landed flushed_outcome !! 1%nat).

Lemma batch_flushing : gs_committer (run_gschedule before_flush) = CFlushing flushed_batch.
Proof. by vm_compute. Qed.

Lemma batch_flushes :
  gsys_step sample_config (run_gschedule before_flush) GFlush = Some (run_gschedule (before_flush ++ [GFlush])).
Proof. by vm_compute. Qed.

Lemma batch_landed : gs_committer (run_gschedule (before_flush ++ [GFlush])) = CLanded flushed_batch flushed_outcome.
Proof. by vm_compute. Qed.

Lemma second_unit_landed : fo_landed flushed_outcome !! 1%nat = Some (second_unit.1, second_unit.2).
Proof. by vm_compute. Qed.

Lemma group_commits_serializable_witness :
  second_unit.2 = 3 /\ ds_maxTimestamp (w_store (gs_writer (run_gschedule before_flush))) < second_unit.2.
Proof.
  split; [by vm_compute|].
  exact (proj1 (group_commits_serializable sample_config empty_store _ _ _ _ 1 _ _ empty_store_valid
    (run_gschedule_reachable before_flush) batch_flushing batch_flushes batch_landed second_unit_landed)).
Defined.

Lemma group_published_after_clock_witness :
  let w := gs_writer (run_gschedule (before_flush ++ [GFlush; GPublish])) in
  od_commitTs <$> w_published w = [1; 2; 3] /\
  Forall (fun d => od_commitTs d <= getLastCommittedTimestamp (w_oracle w)) (w_published w).
Proof.
  destruct (group_published_after_clock sample_config empty_store _ empty_store_valid
    (run_gschedule_reachable (before_flush ++ [GFlush; GPublish]))) as [_ H].
  split; [by vm_compute|]. by apply Forall_forall.
Defined.

Lemma staged_second : exists a, gs_txns (run_gschedule before_flush) !! 2%nat = Some (GStaged a).
Proof.
  destruct (gs_txns (run_gschedule before_flush) !! 2%nat) as [[]|] eqn:E; try (by vm_compute in E). by eexists.
Qed.

Lemma group_progress_witness :
  exists ev gs', ev ∈ [GDetach; GFlush; GPublish] /\ gsys_step sample_config (run_gschedule before_flush) ev = Some gs'.
Proof.
  destruct staged_second as [a Ha].
  destruct (group_progress sample_config empty_store _ empty_store_valid (run_gschedule_reachable before_flush) ltac:(by vm_compute))
    as (_ & _ & H & _).
  destruct (H 2%nat _ Ha (or_introl (ex_intro _ a eq_refl))) as (ev & gs' & Hev & Hs).
  exists ev, gs'. split; [exact Hev|exact Hs].
Defined.

(** A guard that turns down the second unit of a batch of two. *)
Definition picky_guard : commit_guard := fun db gus sh =>
  if (length gus =? 2)%nat then Throw (CommitGuardRejection 1) else Ok (db, false).

Definition picky_store : sqlite_store := SqliteStore (SqliteDb [] [] [] [] []) [picky_guard].

Lemma picky_store_valid : store_valid picky_store.
Proof.
  split; [constructor..|]. apply Forall_singleton. intros db gus sh db' th. unfold picky_guard.
  destruct (_ =? _)%nat; [done|]. by intros [= <- <-].
Qed.

Definition sample_unit (i : nat) (id : doc_id) : staged_unit (T := Z) :=
  StagedUnit i [LogEntry 0 id (Some (ResolvedDocument id (VBigint 1))) None] [] None None rs_empty (js "default") 0.

Lemma flushWithSplit_accounts_witness :
  let units := [sample_unit 0 (other_id 1); sample_unit 1 (other_id 2)] in
  let '(o, s') := flushWithSplit (js "default") picky_store units in
  su_txn <$> (fo_landed o).*1 = [0%nat] /\ (length (fo_rejected o) <= MAX_SPLIT_RETRIES)%nat.
Proof.
  intros units. destruct (flushWithSplit (js "default") picky_store units) as [o s'] eqn:E.
  assert (Hd : forall u, u ∈ units -> su_documents u <> []).
  { intros u [->|Hu]%elem_of_cons; [discriminate|]. apply list_elem_of_singleton in Hu as ->. discriminate. }
  pose proof (flushWithSplit_accounts (js "default") picky_store units o s' picky_store_valid
    Hd ltac:(discriminate) E) as (_ & _ & H & _).
  split; [|exact H]. vm_compute in E. by injection E as <- _.
Defined.
