(* ===== verification/ShardedTransactor.v ===== *)
(** Many shards behind one transactor, packages/transactor/src/
    sharded-transactor.ts: lazy creation of shard writers, the high-water mark
    and the fan-out of timestamps to every shard's clock.

    A writer is represented by its clock; what it does between commits is
    SingleWriter and GroupCommit. A commit here is its publication: its own
    clock, the [onCommitted] hook, then the delta. *)
From Stdlib Require Import ZArith Lia.
From stdpp Require Import base list sets strings.
From S2P Require Import Prelude JsBase IdCodec Sharding DocStore.

(** [CReading] awaits [docStore.maxTimestamp()]; [CRead] has its answer;
    [CSettled] is a fulfilled promise. *)
Inductive creation := CReading | CRead (seed : Z) | CSettled.

Record sharded := Sharded
  { sd_shards : list (jsstr * oracle); sd_creating : list (jsstr * creation);
    sd_observedHighWater : Z; sd_published : list Z }.

Definition sharded_new : sharded := Sharded [] [] 0 [].

Definition sd_observeTimestamp (ts : Z) (s : sharded) : sharded :=
  Sharded ((fun kv => (kv.1, observeTimestamp ts kv.2)) <$> sd_shards s) (sd_creating s)
    (if sd_observedHighWater s <? ts then ts else sd_observedHighWater s) (sd_published s).

(** [getOrCreateShard] up to its [await]: an existing writer or a creation under
    way is shared; otherwise a creation starts, with the fixed seed when the
    options give one. *)
Definition getOrCreateShard (seedTs : option Z) (id : jsstr) (s : sharded) : sharded :=
  match jm_get (sd_shards s) id, jm_get (sd_creating s) id with
  | Some _, _ | None, Some _ => s
  | None, None =>
      Sharded (sd_shards s)
        (jm_set (sd_creating s) id (match seedTs with Some t => CRead t | None => CReading end))
        (sd_observedHighWater s) (sd_published s)
  end.

(** The rest of [createShard], after the store has answered. *)
Definition createShard (id : jsstr) (storeSeed : Z) (s : sharded) : sharded :=
  let seedTs := if sd_observedHighWater s <? storeSeed then storeSeed else sd_observedHighWater s in
  Sharded (jm_set (sd_shards s) id (oracle_new seedTs)) (jm_set (sd_creating s) id CSettled)
    (sd_observedHighWater s) (sd_published s).

(** A writer publishes a commit. *)
Definition sd_commit (id : jsstr) (o : oracle) (ts : Z) (s : sharded) : sharded :=
  let s1 := Sharded (jm_set (sd_shards s) id (publishCommitted ts o)) (sd_creating s)
              (sd_observedHighWater s) (sd_published s) in
  let s2 := sd_observeTimestamp ts s1 in
  Sharded (sd_shards s2) (sd_creating s2) (sd_observedHighWater s2) (sd_published s2 ++ [ts]).

Inductive sharded_event :=
  | SWant (seedTs : option Z) (id : jsstr)
  | SSeed (id : jsstr) (maxTimestamp : option Z)
  | SCreate (id : jsstr)
  | SCommit (id : jsstr) (ts : Z)
  | SObserve (ts : Z).

Definition sharded_step (s : sharded) (ev : sharded_event) : option sharded :=
  match ev with
  | SWant seedTs id => Some (getOrCreateShard seedTs id s)
  | SSeed id answer =>
      match jm_get (sd_creating s) id with
      | Some CReading =>
          Some (Sharded (sd_shards s)
                  (match answer with
                   | Some m => jm_set (sd_creating s) id (CRead m)
                   | None => jm_delete (sd_creating s) id
                   end) (sd_observedHighWater s) (sd_published s))
      | _ => None
      end
  | SCreate id =>
      match jm_get (sd_creating s) id with Some (CRead m) => Some (createShard id m s) | _ => None end
  | SCommit id ts =>
      match jm_get (sd_shards s) id with Some o => Some (sd_commit id o ts s) | None => None end
  | SObserve ts => Some (sd_observeTimestamp ts s)
  end.

Inductive sharded_reachable : sharded -> Prop :=
  | sharded_start : sharded_reachable sharded_new
  | sharded_more s ev s' : sharded_reachable s -> sharded_step s ev = Some s' -> sharded_reachable s'.

(** * The invariant *)

Record sharded_ok (s : sharded) : Prop := {
  so_high : forall ts, ts ∈ sd_published s -> ts <= sd_observedHighWater s;
  so_clocks : forall id o, (id, o) ∈ sd_shards s -> sd_observedHighWater s <= getLastCommittedTimestamp o;
  so_once : forall id o c, jm_get (sd_shards s) id = Some o -> jm_get (sd_creating s) id = Some c -> c = CSettled
}.

Lemma jm_set_elem {K V} `{EqDecision K} (m : list (K * V)) k v x : x ∈ jm_set m k v -> x = (k, v) \/ x ∈ m.
Proof.
  induction m as [|[k0 v0] m IH]; simpl; [by intros ->%list_elem_of_singleton; left|].
  destruct (decide (k = k0)) as [->|]; simpl; rewrite !elem_of_cons; [tauto|]. intros [->|H]; [auto|]. destruct (IH H); auto.
Qed.

Lemma high_water_max ts s : sd_observedHighWater (sd_observeTimestamp ts s) = Z.max (sd_observedHighWater s) ts.
Proof. unfold sd_observeTimestamp. simpl. destruct (Z.ltb_spec (sd_observedHighWater s) ts); lia. Qed.

Lemma jm_get_fmap_oracle (m : list (jsstr * oracle)) (f : oracle -> oracle) id :
  jm_get ((fun kv : jsstr * oracle => (kv.1, f kv.2)) <$> m) id = f <$> jm_get m id.
Proof. induction m as [|[k v] m IH]; csimpl; [done|]. destruct (decide (id = k)); [done|apply IH]. Qed.

Lemma observe_ok ts s : sharded_ok s -> sharded_ok (sd_observeTimestamp ts s).
Proof.
  intros [H1 H2 H3]. split.
  - intros t Ht. rewrite high_water_max. specialize (H1 t Ht). lia.
  - intros id o Ho. rewrite high_water_max. apply list_elem_of_fmap in Ho as ([k o'] & [= -> ->] & Ho).
    rewrite observeTimestamp_spec. specialize (H2 _ _ Ho). unfold getLastCommittedTimestamp in *. simpl. lia.
  - intros id o c. cbn [sd_observeTimestamp sd_shards sd_creating]. rewrite jm_get_fmap_oracle.
    destruct (jm_get (sd_shards s) id) as [o0|] eqn:E; [|done]. intros _. by apply (H3 id o0 c).
Qed.

Lemma sharded_step_ok s ev s' : sharded_ok s -> sharded_step s ev = Some s' -> sharded_ok s'.
Proof.
  intros Hok Hs. pose proof Hok as [H1 H2 H3]. destruct ev as [seedTs id|id answer|id|id ts|ts]; simpl in Hs.
  - injection Hs as <-. unfold getOrCreateShard. destruct (jm_get (sd_shards s) id) eqn:E1; [done|].
    destruct (jm_get (sd_creating s) id) eqn:E2; [done|]. split; simpl; try done. intros k o c Hk. rewrite jm_get_set.
    destruct (decide (k = id)) as [->|]; [congruence|by apply (H3 k o)].
  - destruct (jm_get (sd_creating s) id) as [[]|] eqn:E; try done. injection Hs as <-. split; simpl; try done.
    assert (Hno : jm_get (sd_shards s) id = None).
    { destruct (jm_get (sd_shards s) id) eqn:E1; [|done]. by specialize (H3 _ _ _ E1 E). }
    intros k o c Hk. destruct answer; rewrite ?jm_get_set, ?jm_get_delete; destruct (decide (k = id)) as [->|]; try congruence;
      by apply (H3 k o).
  - destruct (jm_get (sd_creating s) id) as [[]|] eqn:E; try done. injection Hs as <-. split; simpl; try done.
    + intros k o Hk. apply jm_set_elem in Hk as [[= -> ->]|Hk]; [|by apply H2 in Hk]. unfold oracle_new. simpl.
      destruct (Z.ltb_spec (sd_observedHighWater s) seed); lia.
    + intros k o c. rewrite !jm_get_set. destruct (decide (k = id)) as [->|]; [by intros _ [= <-]|by apply (H3 k o c)].
  - destruct (jm_get (sd_shards s) id) as [o|] eqn:E; [|done]. injection Hs as <-. unfold sd_commit.
    set (s1 := Sharded (jm_set (sd_shards s) id (publishCommitted ts o)) _ _ _). assert (Hs1 : sharded_ok s1).
    { split; simpl; try done.
      - intros k o' Hk. apply jm_set_elem in Hk as [[= -> ->]|Hk]; [|by apply H2 in Hk]. rewrite publishCommitted_spec.
        pose proof (H2 _ _ (jm_get_Some_in _ _ _ E)). unfold getLastCommittedTimestamp in *. simpl. lia.
      - intros k o' c. rewrite jm_get_set. destruct (decide (k = id)) as [->|]; [by intros _; apply (H3 id o c)|by apply (H3 k o' c)]. }
    destruct (observe_ok ts s1 Hs1) as [G1 G2 G3]. split; try done. intros t Ht. cbn [sd_published] in Ht.
    apply elem_of_app in Ht as [Ht| ->%list_elem_of_singleton]; [by apply G1|].
    change (ts <= sd_observedHighWater (sd_observeTimestamp ts s1)). rewrite high_water_max. lia.
  - injection Hs as <-. by apply observe_ok.
Qed.

(** C36: whenever a delta has been published, by any shard, the clock of every
    shard, those created later included, has reached its timestamp, so a query
    it wakes on any shard reads a snapshot that contains the commit; and a
    shard never gets two writers, however its first uses race. *)
Theorem sharded_published_everywhere s :
  sharded_reachable s ->
  (forall ts id o, ts ∈ sd_published s -> (id, o) ∈ sd_shards s -> ts <= getLastCommittedTimestamp o) /\
  (forall id m o, jm_get (sd_creating s) id = Some (CRead m) -> jm_get (sd_shards s) id = Some o -> False).
Proof.
  intros Hr. assert (Hok : sharded_ok s).
  { induction Hr as [|s ev s' _ IH Hs]; [split; simpl; try done; set_solver|by apply (sharded_step_ok s ev)]. }
  destruct Hok as [H1 H2 H3]. split.
  - intros ts id o Ht Ho. specialize (H1 ts Ht). specialize (H2 id o Ho). lia.
  - intros id m o Hc Hs. by specialize (H3 id o _ Hs Hc).
Qed.

(** One shard commits while another one is being created from an older
    answer of the store. *)
Definition racing_shards : sharded :=
  let a := js "a" in let b := js "b" in
  fold_left (fun s ev => default s (sharded_step s ev))
    [SWant None a; SSeed a (Some 0); SCreate a; SWant None b; SSeed b (Some 0); SCommit a 5; SCreate b] sharded_new.

Lemma sharded_published_everywhere_witness :
  sd_published racing_shards = [5] /\ (js "b", Oracle 5 5) ∈ sd_shards racing_shards /\
  5 <= getLastCommittedTimestamp (Oracle 5 5).
Proof.
  assert (Hr : sharded_reachable racing_shards).
  { unfold racing_shards. cbv zeta. set (evs := [_; _; _; _; _; _; _]).
    assert (Hgen : forall l s, sharded_reachable s -> sharded_reachable (fold_left (fun s ev => default s (sharded_step s ev)) l s)).
    { induction l as [|ev l IH]; intros s Hs; simpl; [done|]. apply IH. destruct (sharded_step s ev) eqn:E; [|done].
      by apply (sharded_more s ev). }
    apply Hgen, sharded_start. }
  assert (Hb : (js "b", Oracle 5 5) ∈ sd_shards racing_shards) by (apply list_elem_of_lookup; exists 1%nat; by vm_compute).
  split_and!; [by vm_compute|exact Hb|].
  apply (proj1 (sharded_published_everywhere racing_shards Hr) 5 (js "b") (Oracle 5 5)); [|exact Hb].
  apply list_elem_of_lookup. exists 0%nat. by vm_compute.
Defined.
