(* ===== verification/RowDiff.v ===== *)
(** Row diffs of the sync tier: the change vocabulary shared by server and
    client, the classification of a subscription as diffable, and the commit
    differ: packages/sync/src/change.ts, classify.ts, commit-differ.ts.  The
    incremental diff of a range subscription is proved to follow the result of
    the query. *)
From Stdlib Require Import ZArith Lia SpecFloat.
From stdpp Require Import base list sets strings.
From S2P Require Import Prelude JsBase JsText Float64 Values ValuesJson KeyCodec KeyRanges IntervalIndex IdCodec DocStore Query QueryRuntime Transactor.

(** * What the runtime supplies *)

(** [JSON.stringify] and [String] depend on the shortest decimal form of a
    double, the messages of runtime errors are the engine's, [createHash] is a
    native module.  The sync tier only stores, compares and echoes their
    results. *)
Class JsHost := {
  JSON_stringify : json -> jsstr;
  js_String : json -> jsstr;
  error_message : js_error -> jsstr;
  sha256_hex : jsstr -> jsstr }.

(** A commit timestamp is an integral number; [String] of it is its decimal
    form up to [2^53]. *)
Definition number_to_Z (f : float64) : Z :=
  match f with
  | S754_finite s m e => let z := Z.shiftl (Zpos m) e in if s then - z else z
  | _ => 0
  end.

(** * change.ts *)

Inductive change :=
  | ChAdd (key : jsstr) (row : json) (ts : Z) (orderKey : option jsstr)
  | ChRemove (key : jsstr)
  | ChEdit (key : jsstr) (row : json) (ts : Z) (orderKey : option jsstr).

Record row_version := RowVersion { rv_row : json; rv_ts : Z; rv_orderKey : option jsstr }.

(** A [Map<string, RowVersion>]. *)
Definition row_map : Type := list (jsstr * row_version).

Definition apply_change (out : row_map) (c : change) : row_map :=
  match c with
  | ChRemove key => jm_delete out key
  | ChAdd key row ts ok | ChEdit key row ts ok => jm_set out key (RowVersion row ts ok)
  end.
Definition applyChanges (rows : row_map) (changes : list change) : row_map :=
  fold_left apply_change changes rows.

(** The interval index's [mix] on the low byte of each code unit. *)
Definition fnv_string (h : Z) (s : jsstr) : Z := fold_left (fun h c => mix h (and32 c 255)) s h.

Definition row_hash (kv : jsstr * row_version) : Z :=
  let h := fnv_string 2166136261 kv.1 in
  let h := mix h 0 in
  let h := fnv_string h (js_string_of (rv_ts kv.2)) in
  let h := mix h 0 in
  to_uint32 (fnv_string h (default [] (rv_orderKey kv.2))).

Definition xor_fold (acc h : Z) : Z := to_uint32 (xor32 acc h).

Definition row_fold (rows : row_map) (acc : Z) : Z := fold_left xor_fold (row_hash <$> rows) acc.

Definition pad_start8 (s : jsstr) : jsstr := replicate (8 - length s) 48 ++ s.
Definition driftChecksum (rows : row_map) : jsstr :=
  pad_start8 (num_to_string 16 (row_fold rows 0)).

(** * classify.ts *)

Record by_id_read := ByIdRead { bi_keyspace : jsstr; bi_key : jsstr; bi_docId : jsstr }.

Definition str_table_colon : jsstr := js "table:".

Definition isPointRange (r : serialized_range) : res bool :=
  if negb (starts_with str_table_colon (sr_keyspace r)) then Ok false
  else match sr_end r with
       | None => Ok false
       | Some _ =>
           d ← deserializeKeyRange r;
           match kr_end d with
           | None => Ok false
           | Some e => Ok (cmp_eqb (compareKeyBytes e (keySuccessor (kr_start d))))
           end
       end.

(** The empty string stands for an absent document, [None] for no document. *)
Definition singleDocId (v : value) : option jsstr :=
  match v with
  | VNull => Some []
  | VObject fs => match jm_get fs str_id with Some (VString id) => Some id | _ => None end
  | _ => None
  end.

Definition classifyByIdRead (v : value) (readRanges : list serialized_range) : res (option by_id_read) :=
  match readRanges with
  | [r] =>
      p ← isPointRange r;
      if p : bool then
        match singleDocId v with
        | None => Ok None
        | Some docId => Ok (Some (ByIdRead (sr_keyspace r) (sr_start r) docId))
        end
      else Ok None
  | _ => Ok None
  end.

Record page_meta := PageMeta { pm_nextCursor : option jsstr; pm_hasMore : bool; pm_scanCapped : bool }.

Record range_read := RangeRead
  { rr_keyspace : jsstr; rr_bounds : serialized_range; rr_filters : list filter_expr; rr_order : order;
    rr_fields : list jsstr; rr_pageMeta : option page_meta }.

Definition rangeReadFromDiffable (d : range_read) : range_read :=
  RangeRead (rr_keyspace d) (rr_bounds d) (rr_filters d) (rr_order d) (rr_fields d) None.
Definition pageReadFromDiffable (d : range_read) (pm : page_meta) : range_read :=
  RangeRead (rr_keyspace d) (rr_bounds d) (rr_filters d) (rr_order d) (rr_fields d) (Some pm).

(** * commit-differ.ts *)

(** [wd.ts], an integral number. *)
Definition wd_tsZ (wd : written_doc) : Z := number_to_Z (wd_ts wd).

Definition byIdChangesFor (prev : row_map) (wd : option written_doc) : list change * row_map :=
  match wd with
  | None => ([], prev)
  | Some wd =>
      let docId := wd_docId wd in
      let c := match wd_newRow wd with
               | None => ChRemove docId
               | Some row =>
                   if negb (wd_wasPresent wd) || negb (jm_has prev docId)
                   then ChAdd docId row (wd_tsZ wd) None
                   else ChEdit docId row (wd_tsZ wd) None
               end in
      ([c], applyChanges prev [c])
  end.

Definition byIdResetChanges (docId : jsstr) (row : json) (ts : Z) : list change * row_map :=
  match row with
  | JNull => ([], [])
  | _ => ([ChAdd docId row ts None], jm_set [] docId (RowVersion row ts None))
  end.

(** [row as unknown as DocumentValue]: the transport form itself, read as a
    value.  Tagged integers, bytes and special floats stay objects. *)
Fixpoint json_value (j : json) : value :=
  match j with
  | JNull => VNull
  | JBool b => VBool b
  | JNumber n => VNumber n
  | JString s => VString s
  | JArray xs => VArray (json_value <$> xs)
  | JObject fs => VObject ((fun kv => (kv.1, json_value kv.2)) <$> fs)
  end.

Definition toBase64 (bs : bytes) : jsstr := sr_start (serializeKeyRange (KeyRange [] bs None)).
Definition fromBase64 (b64 : jsstr) : res bytes :=
  d ← deserializeKeyRange (SerializedRange [] b64 None); Ok (kr_start d).

Definition orderKeyFor (range : range_read) (row : json) : res jsstr :=
  key ← extractIndexKey (json_value row) (rr_fields range); Ok (toBase64 key).

Definition inBounds (range : range_read) (orderKeyB64 : jsstr) : res bool :=
  bounds ← deserializeKeyRange (rr_bounds range);
  k ← fromBase64 orderKeyB64;
  Ok (keyInRange k bounds).

Definition passesFilters (range : range_read) (row : json) : res bool :=
  res_every (evaluateFilter (json_value row)) (rr_filters range).

Section host.
Context `{JsHost}.

(** [String(row._id)]. *)
Definition row_key (row : json) : res jsstr :=
  match row with
  | JNull => Throw TypeError
  | JObject fs => match jm_get fs str_id with
                  | Some (JString id) => Ok id
                  | Some j => Ok (js_String j)
                  | None => Ok (js "undefined")
                  end
  | _ => Ok (js "undefined")
  end.

Fixpoint reset_loop (range : range_read) (orderedDocs : list json) (ts : Z) (changes : list change)
    (next : row_map) : res (list change * row_map) :=
  match orderedDocs with
  | [] => Ok (changes, next)
  | row :: rest =>
      key ← row_key row;
      ok ← orderKeyFor range row;
      reset_loop range rest ts (changes ++ [ChAdd key row ts (Some ok)])
        (jm_set next key (RowVersion row ts (Some ok)))
  end.
Definition rangeResetChanges (range : range_read) (orderedDocs : list json) (ts : Z)
    : res (list change * row_map) := reset_loop range orderedDocs ts [] [].
End host.

(** Where a written document stands now: its order key when it is in the
    range and passes the filters. *)
Definition doc_after (range : range_read) (wd : written_doc) : res (option (json * jsstr)) :=
  match wd_newRow wd with
  | None => Ok None
  | Some row =>
      ok ← orderKeyFor range row;
      b ← inBounds range ok;
      if b : bool then
        p ← passesFilters range row;
        Ok (if p : bool then Some (row, ok) else None)
      else Ok None
  end.

Definition doc_change (range : range_read) (prev : row_map) (wd : written_doc) : res (list change) :=
  after ← doc_after range wd;
  let key := wd_docId wd in
  Ok match jm_has prev key, after with
     | false, Some (row, ok) => [ChAdd key row (wd_tsZ wd) (Some ok)]
     | true, Some (row, ok) => [ChEdit key row (wd_tsZ wd) (Some ok)]
     | true, None => [ChRemove key]
     | false, None => []
     end.

Definition rangeChangesFor (range : range_read) (prev : row_map) (writtenDocs : list written_doc)
    : res (list change * row_map) :=
  css ← traverse (doc_change range prev) writtenDocs;
  let changes := concat css in
  Ok (changes, applyChanges prev changes).

(** * Maps and checksums *)

Lemma jm_ext_perm {V} (m1 m2 : list (jsstr * V)) :
  NoDup (jm_keys m1) -> NoDup (jm_keys m2) -> (forall k, jm_get m1 k = jm_get m2 k) -> m1 ≡ₚ m2.
Proof.
  intros H1 H2 He. apply NoDup_Permutation.
  - by apply NoDup_fmap_1 in H1.
  - by apply NoDup_fmap_1 in H2.
  - intros [k v]. split; intros Hin; apply jm_get_Some_in.
    + rewrite <- He. by apply jm_in_get.
    + rewrite He. by apply jm_in_get.
Qed.

Lemma xor_fold_spec a h : xor_fold a h = Z.lxor a h mod 2 ^ 32.
Proof.
  unfold xor_fold, to_uint32, xor32. apply Z.bits_inj'. intros i Hi.
  destruct (Z.lt_ge_cases i 32) as [Hlt|Hge].
  - rewrite !testbit_mod32, testbit_int32, !Z.lxor_spec, !testbit_int32 by lia. done.
  - rewrite !Z.mod_pow2_bits_high by lia. done.
Qed.

Lemma xor_fold_comm a h h' : xor_fold (xor_fold a h) h' = xor_fold (xor_fold a h') h.
Proof.
  rewrite !xor_fold_spec. apply Z.bits_inj'. intros i Hi.
  destruct (Z.lt_ge_cases i 32) as [Hlt|Hge].
  - rewrite !testbit_mod32, !Z.lxor_spec, !testbit_mod32, !Z.lxor_spec by lia.
    rewrite !xorb_assoc. f_equal. apply xorb_comm.
  - rewrite !Z.mod_pow2_bits_high by lia. done.
Qed.

Lemma fold_left_perm {A B} (f : B -> A -> B) l l' acc :
  (forall a x y, f (f a x) y = f (f a y) x) -> l ≡ₚ l' -> fold_left f l acc = fold_left f l' acc.
Proof.
  intros Hc Hp. revert acc. induction Hp as [|h l l' _ IH|h h' l|l1 l2 l3 _ IH1 _ IH2]; intros acc; cbn [fold_left].
  - done.
  - apply IH.
  - by rewrite Hc.
  - by rewrite IH1, IH2.
Qed.

Lemma xor_fold_perm hs hs' acc : hs ≡ₚ hs' -> fold_left xor_fold hs acc = fold_left xor_fold hs' acc.
Proof. apply fold_left_perm, xor_fold_comm. Qed.

Lemma driftChecksum_perm rows rows' : rows ≡ₚ rows' -> driftChecksum rows = driftChecksum rows'.
Proof. intros Hp. unfold driftChecksum, row_fold. by rewrite (xor_fold_perm _ _ 0 (fmap_Permutation row_hash _ _ Hp)). Qed.

Lemma applyChanges_app rows c1 c2 : applyChanges rows (c1 ++ c2) = applyChanges (applyChanges rows c1) c2.
Proof. apply fold_left_app. Qed.

Lemma applyChanges_nodup rows changes : NoDup (jm_keys rows) -> NoDup (jm_keys (applyChanges rows changes)).
Proof.
  revert rows. induction changes as [|c changes IH]; intros rows Hn; [done|]. apply IH.
  destruct c; simpl; auto with concile.
Qed.

(** What a change does to a lookup. *)
Definition change_key (c : change) : jsstr :=
  match c with ChAdd k _ _ _ | ChRemove k | ChEdit k _ _ _ => k end.
Definition change_row (c : change) : option row_version :=
  match c with ChAdd _ r t ok | ChEdit _ r t ok => Some (RowVersion r t ok) | ChRemove _ => None end.

Lemma jm_get_apply rows c k :
  jm_get (apply_change rows c) k = if decide (k = change_key c) then change_row c else jm_get rows k.
Proof. destruct c; simpl; by autorewrite with concile. Qed.

Lemma applyChanges_other rows changes k :
  (forall c, c ∈ changes -> change_key c <> k) -> jm_get (applyChanges rows changes) k = jm_get rows k.
Proof.
  revert rows. induction changes as [|c changes IH]; intros rows Hk; [done|].
  change (jm_get (applyChanges (apply_change rows c) changes) k = jm_get rows k).
  rewrite IH by (intros c' Hc'; apply Hk; by right).
  rewrite jm_get_apply, decide_False; [done|]. intros ->. by apply (Hk c); [left|].
Qed.

Lemma applyChanges_ext rows rows' changes :
  (forall k, jm_get rows k = jm_get rows' k) ->
  forall k, jm_get (applyChanges rows changes) k = jm_get (applyChanges rows' changes) k.
Proof.
  revert rows rows'. induction changes as [|c changes IH]; intros rows rows' He; [done|].
  apply IH. intros k. by rewrite !jm_get_apply, He.
Qed.

(** * The differ follows the query *)

(** The rows of a table by document id, and what belongs to a range. *)
Definition table_rows : Type := jsstr -> option json.

Definition in_view (range : range_read) (row : json) (ok : jsstr) : Prop :=
  orderKeyFor range row = Ok ok /\ inBounds range ok = Ok true /\ passesFilters range row = Ok true.

(** The row map of a range subscription holds exactly the rows of the table
    that the range selects, with their order keys. *)
Definition row_map_at (range : range_read) (tbl : table_rows) (k : jsstr) (o : option row_version) : Prop :=
  match o with
  | Some rv => exists ok, tbl k = Some (rv_row rv) /\ rv_orderKey rv = Some ok /\ in_view range (rv_row rv) ok
  | None => forall row ok, tbl k = Some row -> ~ in_view range row ok
  end.
Definition row_map_ok (range : range_read) (tbl : table_rows) (m : row_map) : Prop :=
  forall k, row_map_at range tbl k (jm_get m k).

Definition find_write (wds : list written_doc) (k : jsstr) : option written_doc :=
  List.find (fun wd => bool_decide (wd_docId wd = k)) wds.
(** The table after a commit's writes. *)
Definition apply_writes (wds : list written_doc) (tbl : table_rows) : table_rows := fun k =>
  match find_write wds k with Some wd => wd_newRow wd | None => tbl k end.

Lemma doc_after_spec range wd o :
  doc_after range wd = Ok o ->
  match o with
  | Some (row, ok) => wd_newRow wd = Some row /\ in_view range row ok
  | None => forall row ok, wd_newRow wd = Some row -> ~ in_view range row ok
  end.
Proof.
  unfold doc_after, in_view. destruct (wd_newRow wd) as [row|]; [|by intros [= <-]].
  destruct (orderKeyFor range row) as [ok|e] eqn:Eo; cbn; [|done].
  destruct (inBounds range ok) as [[]|e] eqn:Eb; cbn;
    [|intros [= <-] row' ok' [= <-] (H1 & H2 & _); congruence|done].
  destruct (passesFilters range row) as [[]|e] eqn:Ep; cbn; intros [= <-]; [done|].
  intros row' ok' [= <-] (H1 & H2 & H3). congruence.
Qed.

Lemma doc_change_key range prev wd cs c :
  doc_change range prev wd = Ok cs -> c ∈ cs -> change_key c = wd_docId wd.
Proof.
  unfold doc_change. destruct (doc_after range wd) as [[[row ok]|]|]; cbn; [..|done];
    destruct (jm_has prev (wd_docId wd)); intros [= <-] Hin; set_solver.
Qed.

Lemma doc_change_get range prev wd cs rows tbl :
  doc_change range prev wd = Ok cs ->
  jm_get rows (wd_docId wd) = jm_get prev (wd_docId wd) ->
  tbl (wd_docId wd) = wd_newRow wd ->
  row_map_at range tbl (wd_docId wd) (jm_get (applyChanges rows cs) (wd_docId wd)).
Proof.
  unfold doc_change. destruct (doc_after range wd) as [o|] eqn:Ea; cbn; [|done].
  apply doc_after_spec in Ea. unfold jm_has. intros Hc Hp Ht.
  destruct o as [[row ok]|]; destruct (jm_get prev (wd_docId wd)) as [rv|] eqn:Eg; simplify_eq; cbn;
    rewrite ?jm_get_set, ?jm_get_delete, ?decide_True by done; rewrite ?Hp; cbn;
    try (destruct Ea as [Ea Hv]; exists ok; by rewrite Ht); intros row ok; rewrite Ht; apply Ea.
Qed.

Lemma find_write_None wds k : k ∉ (wd_docId <$> wds) -> find_write wds k = None.
Proof.
  unfold find_write. induction wds as [|wd wds IH]; csimpl; [done|]. intros Hk.
  rewrite bool_decide_false by set_solver. apply IH. set_solver.
Qed.

Lemma traverse_cons {A B} (f : A -> res B) x l ys :
  traverse f (x :: l) = Ok ys -> exists y ys', f x = Ok y /\ traverse f l = Ok ys' /\ ys = y :: ys'.
Proof.
  cbn. destruct (f x) as [y|]; cbn; [|done]. destruct (traverse f l) as [ys'|]; cbn; [|done].
  intros [= <-]. eauto.
Qed.

Lemma doc_changes_other range prev (wds : list written_doc) css k :
  traverse (doc_change range prev) wds = Ok css -> k ∉ (wd_docId <$> wds) ->
  forall c, c ∈ concat css -> change_key c <> k.
Proof.
  revert css. induction wds as [|wd wds IH]; intros css Ht Hk c Hc.
  - injection Ht as <-. by apply not_elem_of_nil in Hc.
  - apply traverse_cons in Ht as (cs & css' & Hcs & Ht & ->). csimpl in *.
    apply elem_of_app in Hc as [Hc|Hc].
    + apply (doc_change_key range prev wd cs c Hcs) in Hc. set_solver.
    + eapply IH; [done|set_solver|done].
Qed.

Lemma range_changes_at range prev wds css rows k tbl :
  traverse (doc_change range prev) wds = Ok css -> NoDup (wd_docId <$> wds) ->
  jm_get rows k = jm_get prev k -> row_map_at range tbl k (jm_get prev k) ->
  row_map_at range (apply_writes wds tbl) k (jm_get (applyChanges rows (concat css)) k).
Proof.
  revert css rows. induction wds as [|wd wds IH]; intros css rows Ht Hn Hr Hp.
  { injection Ht as <-. cbn. by rewrite Hr. }
  apply traverse_cons in Ht as (cs & css' & Hcs & Ht & ->). csimpl in Hn.
  apply NoDup_cons in Hn as [Hwd Hn]. cbn [concat]. rewrite applyChanges_app.
  destruct (decide (wd_docId wd = k)) as [<-|Hne].
  - rewrite applyChanges_other by (by eapply doc_changes_other).
    apply (doc_change_get range prev); [done|done|].
    unfold apply_writes, find_write. cbn. by rewrite bool_decide_true.
  - assert (Hw : apply_writes (wd :: wds) tbl k = apply_writes wds tbl k).
    { unfold apply_writes, find_write. cbn. by rewrite bool_decide_false. }
    assert (Heq : forall o, row_map_at range (apply_writes wds tbl) k o ->
                            row_map_at range (apply_writes (wd :: wds) tbl) k o).
    { intros [rv|]; unfold row_map_at; by rewrite Hw. }
    apply Heq, IH; [done|done| |done]. rewrite applyChanges_other; [done|].
    intros c Hc. by rewrite (doc_change_key range prev wd cs c Hcs Hc).
Qed.

(** The differ's own view: the map on file holds the rows of the table that the
    differ puts in the range, and a client that holds the same rows follows. *)
Lemma range_rows_follow range tbl (prev client : row_map) (wds : list written_doc) changes next :
  row_map_ok range tbl prev -> NoDup (wd_docId <$> wds) ->
  rangeChangesFor range prev wds = Ok (changes, next) ->
  NoDup (jm_keys prev) -> NoDup (jm_keys client) -> (forall k, jm_get client k = jm_get prev k) ->
  row_map_ok range (apply_writes wds tbl) next /\
  (forall k, jm_get (applyChanges client changes) k = jm_get next k) /\
  driftChecksum (applyChanges client changes) = driftChecksum next.
Proof.
  intros Hp Hn Hc Hn1 Hn2 He. unfold rangeChangesFor in Hc.
  destruct (traverse (doc_change range prev) wds) as [css|] eqn:Et; cbn in Hc; [|done].
  simplify_eq. assert (Hx := applyChanges_ext client prev (concat css) He). split_and!; [|done|].
  - intros k. by apply range_changes_at with (prev := prev).
  - apply driftChecksum_perm, jm_ext_perm; auto using applyChanges_nodup.
Qed.

(** ** The query's selection

    [plain v]: the transport form of the value is the value read as JSON: no
    integer (v.int64), bytes, infinity or NaN, and no field name with a dollar
    in front. *)
Fixpoint plain (v : value) : bool :=
  match v with
  | VNull | VBool _ | VString _ => true
  | VNumber n => f64_is_finite (num_f n)
  | VBigint _ | VBytes _ => false
  | VArray xs => forallb plain xs
  | VObject fs => forallb (fun kv => bool_decide (escape_key kv.1 = kv.1) && plain kv.2) fs
  end.

Lemma plain_json v : wf_value v -> plain v = true -> exists j, convexToJson v = Ok j /\ json_value j = v.
Proof.
  induction v as [| | | | | |xs IH|fs IH] using value_ind'; cbn [plain]; intros Hw Hp; try done; try (by eexists).
  - exists (JNumber n). cbn [convexToJson]. by rewrite Hp.
  - apply wf_array in Hw. pose proof (proj1 (forallb_forall _ _) Hp) as Hall.
    assert (H : exists js, Forall2 (fun x j => convexToJson x = Ok j /\ json_value j = x) xs js).
    { apply Forall_exists_Forall2_l. rewrite Forall_forall in *. intros x Hx. apply IH; [done|by apply Hw|]. apply Hall. by apply list_elem_of_In. }
    destruct H as [ys Hy]. exists (JArray ys). cbn [convexToJson json_value]. split.
    + rewrite (proj2 (traverse_Forall2 convexToJson xs ys)); [done|]. eapply Forall2_impl; [exact Hy|]. by intros ? ? [? _].
    + f_equal. clear -Hy. induction Hy as [|x j xs js [_ Hj] _ IH]; csimpl; [done|]. by rewrite Hj, IH.
  - apply wf_object in Hw as (Hn & Ho & Hw). pose proof (proj1 (forallb_forall _ _) Hp) as Hall.
    assert (H : exists ws : list (jsstr * json), Forall2 (fun kv w => w.1 = escape_key kv.1 /\ convexToJson kv.2 = Ok w.2 /\ (w.1, json_value w.2) = kv) fs ws).
    { apply Forall_exists_Forall2_l. rewrite Forall_forall in *. intros [k v] Hx. pose proof (Hall _ (proj1 (list_elem_of_In _ _) Hx)) as Hk.
      apply andb_true_iff in Hk as [Hk%bool_decide_eq_true Hv].
      destruct (IH (k, v) Hx) as (j & Hj & Hjv); [by apply (Hw (k, v))|done|]. exists (k, j). cbn [fst snd] in *. by rewrite Hk, Hjv. }
    destruct H as [ws Hy]. exists (JObject ws). assert (Hk : ws.*1 = fs.*1).
    { clear -Hy. induction Hy as [|kv w fs ws (_ & _ & Hj) _ IH]; csimpl; [done|]. rewrite IH. by rewrite <-Hj. }
    cbn [convexToJson json_value]. split.
    + rewrite (set_entries_traverse _ _ [] fs ws); [done| |by rewrite app_nil_l, Hk..].
      eapply Forall2_impl; [exact Hy|]. naive_solver.
    + f_equal. clear -Hy. induction Hy as [|kv w fs ws (_ & _ & Hj) _ IH]; csimpl; [done|]. by rewrite Hj, IH.
Qed.

Lemma order_key_wire bs : wf_bytes bs -> fromBase64 (toBase64 bs) = Ok bs.
Proof.
  intros Hb. pose proof (deserialize_unbounded [] bs Hb) as H. unfold toBase64, fromBase64.
  change (serializeKeyRange (KeyRange [] bs None)) with (SerializedRange [] (sr_start (serializeKeyRange (KeyRange [] bs None))) None) in H. by rewrite H.
Qed.

Lemma index_key_wf fields v k : wf_value v -> extractIndexKey v fields = Ok k -> wf_bytes k.
Proof.
  intros Hw (vs & Hv & Hk)%extractIndexKey_tuple. eapply encodeIndexKey_wf; [|exact Hk]. apply Forall_app.
  split; [|by apply system_values_wf]. apply (Forall2_Forall_r _ _ _ _ Hv). apply Forall_forall. intros f _ x. by apply indexed_value_wf.
Qed.

Section selection.
Context (idx : index_spec) (iv : interval) (filters : list filter_expr) (range : range_read).

(** The document belongs to the query: its key in the index lies in the
    planned interval and it passes the filters. *)
Definition selected (v : value) (key : bytes) : Prop :=
  extractIndexKey v (is_fields idx) = Ok key /\ in_interval key iv = true /\ passes filters v = Ok true.

(** The documents of a table, by their ids. *)
Notation docs_map := (jsstr -> option value).

(** The row map of a range subscription holds exactly the documents the query
    selects, in their transport form and with their keys in the index. *)
Definition holds_selected (docs : docs_map) (m : row_map) : Prop := forall k,
  match jm_get m k with
  | Some rv => exists v key, docs k = Some v /\ selected v key /\ convexToJson v = Ok (rv_row rv) /\ rv_orderKey rv = Some (toBase64 key)
  | None => forall v key, docs k = Some v -> ~ selected v key
  end.

(** The table after a commit. *)
Definition written_to (wds : list written_doc) (docs docs' : docs_map) : Prop := forall k,
  match find_write wds k with
  | Some wd => match docs' k with Some v => exists j, convexToJson v = Ok j /\ wd_newRow wd = Some j | None => wd_newRow wd = None end
  | None => docs' k = docs k
  end.

Definition plain_docs (docs : docs_map) : Prop := forall k v, docs k = Some v -> wf_value v /\ plain v = true.

Context (Hbounds : rr_bounds range = serializeKeyRange (interval_range idx iv)).
Context (Hfields : rr_fields range = is_fields idx) (Hfilters : rr_filters range = filters).
Context (Hstart : wf_bytes (iv_start iv)) (Hend : forall e, iv_end iv = Some e -> wf_bytes e).

Definition rows_of (docs : docs_map) : table_rows := fun k => v ← docs k; match convexToJson v with Ok j => Some j | Throw _ => None end.

Lemma rows_of_some docs k v : plain_docs docs -> docs k = Some v -> exists j, convexToJson v = Ok j /\ json_value j = v /\ rows_of docs k = Some j.
Proof.
  intros Hd Hv. destruct (Hd k v Hv) as [Hw Hp]. destruct (plain_json v Hw Hp) as (j & Hj & Hjv). exists j. split_and!; [done|done|].
  unfold rows_of. rewrite Hv. cbn. by rewrite Hj.
Qed.

(** On plain documents the differ puts in the range what the query selects. *)
Lemma in_view_selected v j ok : wf_value v -> convexToJson v = Ok j -> json_value j = v ->
  in_view range j ok <-> exists key, ok = toBase64 key /\ selected v key.
Proof.
  intros Hw Hj Hjv. unfold in_view, orderKeyFor, passesFilters, selected. rewrite Hjv, Hfields, Hfilters.
  assert (Hin : forall key, wf_bytes key -> inBounds range (toBase64 key) = Ok (in_interval key iv)).
  { intros key Hk. unfold inBounds. rewrite Hbounds, deserialize_serialize_range by done. rewrite bind_Ok, order_key_wire, bind_Ok by done.
    unfold keyInRange, in_interval, interval_range. cbn [kr_start kr_end]. by destruct (cmp_ltb _). }
  split.
  - destruct (extractIndexKey v (is_fields idx)) as [key|] eqn:Ek; [|by intros [? _]]. rewrite bind_Ok. intros ([= <-] & H2 & H3).
    rewrite Hin in H2 by (by eapply index_key_wf). exists key. split_and!; [done|done|congruence|done].
  - intros (key & -> & Hk & Hi & Hp). rewrite Hk, bind_Ok, Hin by (by eapply index_key_wf). by rewrite Hi.
Qed.

Lemma row_map_selected docs m : plain_docs docs -> row_map_ok range (rows_of docs) m <-> holds_selected docs m.
Proof.
  intros Hd. unfold row_map_ok, holds_selected, row_map_at. apply forall_proper. intros k. destruct (jm_get m k) as [rv|].
  - split.
    + intros (ok & Ht & Ho & Hv). destruct (docs k) as [v|] eqn:Ev; [|unfold rows_of in Ht; by rewrite Ev in Ht].
      destruct (rows_of_some docs k v Hd Ev) as (j & Hj & Hjv & Hr). rewrite Hr in Ht. injection Ht as ->.
      destruct (proj1 (in_view_selected v _ ok (proj1 (Hd k v Ev)) Hj Hjv) Hv) as (key & Hok & Hs). subst ok. by exists v, key.
    + intros (v & key & Hv & Hs & Hj & Ho). destruct (rows_of_some docs k v Hd Hv) as (j & Hj' & Hjv & Hr). assert (j = rv_row rv) as -> by congruence.
      exists (toBase64 key). split_and!; [done|done|]. apply (in_view_selected v _ _ (proj1 (Hd k v Hv)) Hj Hjv). by exists key.
  - split.
    + intros H v key Hv Hs. destruct (rows_of_some docs k v Hd Hv) as (j & Hj & Hjv & Hr). apply (H j (toBase64 key) Hr).
      apply (in_view_selected v _ _ (proj1 (Hd k v Hv)) Hj Hjv). by exists key.
    + intros H row ok Hr Hv. destruct (docs k) as [v|] eqn:Ev; [|unfold rows_of in Hr; by rewrite Ev in Hr].
      destruct (rows_of_some docs k v Hd Ev) as (j & Hj & Hjv & Hr'). assert (row = j) as -> by congruence.
      destruct (proj1 (in_view_selected v _ ok (proj1 (Hd k v Ev)) Hj Hjv) Hv) as (key & _ & Hs). by eapply H.
Qed.

(** C28: a range subscription's incremental diff follows the query.  The range
    is one a query reported (an interval of an index, its fields and filters)
    and the table's documents hold no integer (v.int64), bytes, infinity or NaN
    and no field name with a dollar in front.  When the row map on file holds
    exactly the documents the query selects (their key in the index lies in the
    interval and they pass the filters) in their transport form and with their
    keys, and the diff of a commit's written documents does not throw, the map
    after it holds exactly those the query selects after the commit; a client
    that holds the same rows and applies the emitted changes holds the same rows
    again, and computes the checksum the server sends. *)
Theorem rangeChangesFor_follows docs docs' (prev client : row_map) (wds : list written_doc) changes next :
  plain_docs docs -> plain_docs docs' -> NoDup (wd_docId <$> wds) -> written_to wds docs docs' ->
  holds_selected docs prev -> rangeChangesFor range prev wds = Ok (changes, next) ->
  NoDup (jm_keys prev) -> NoDup (jm_keys client) -> (forall k, jm_get client k = jm_get prev k) ->
  holds_selected docs' next /\
  (forall k, jm_get (applyChanges client changes) k = jm_get next k) /\
  driftChecksum (applyChanges client changes) = driftChecksum next.
Proof.
  intros Hd Hd' Hn Hw Hp Hc Hn1 Hn2 He. apply (row_map_selected docs prev Hd) in Hp.
  destruct (range_rows_follow range _ prev client wds changes next Hp Hn Hc Hn1 Hn2 He) as (Hok & H2 & H3). split_and!; [|done|done].
  apply (row_map_selected docs' next Hd'). intros k. specialize (Hok k).
  assert (Heq : apply_writes wds (rows_of docs) k = rows_of docs' k).
  { specialize (Hw k). unfold apply_writes. destruct (find_write wds k) as [wd|]; [|unfold rows_of; by rewrite Hw].
    unfold rows_of. destruct (docs' k) as [v|]; [destruct Hw as (j & Hj & ->); cbn; by rewrite Hj|done]. }
  revert Hok. unfold row_map_at. by rewrite Heq.
Qed.
End selection.

Section reset.
Context `{JsHost}.

(** The query's answer on a table: the selected rows, each once, under their
    document ids. *)
Definition query_answer (range : range_read) (tbl : table_rows) (docs : list json) : Prop :=
  exists keys, traverse row_key docs = Ok keys /\ NoDup keys /\
    forall k row, (k, row) ∈ zip keys docs <-> tbl k = Some row /\ exists ok, in_view range row ok.

(** The rows under their keys, with their order keys. *)
Definition reset_entry (range : range_read) (ts : Z) (kr : jsstr * json) (kv : jsstr * row_version) : Prop :=
  kv.1 = kr.1 /\ exists ok, orderKeyFor range kr.2 = Ok ok /\ kv.2 = RowVersion kr.2 ts (Some ok).

Lemma reset_loop_spec range docs keys ts changes next :
  traverse row_key docs = Ok keys -> NoDup (jm_keys next ++ keys) ->
  (forall row, row ∈ docs -> exists ok, orderKeyFor range row = Ok ok) ->
  exists cs es, reset_loop range docs ts changes next = Ok (changes ++ cs, next ++ es) /\
    Forall2 (reset_entry range ts) (zip keys docs) es /\ applyChanges next cs = next ++ es.
Proof.
  revert keys changes next. induction docs as [|row docs IH]; intros keys changes next Hk Hn Ho.
  { injection Hk as <-. exists [], []. cbn. by rewrite !app_nil_r. }
  apply traverse_cons in Hk as (key & keys' & Hkey & Hk & ->).
  destruct (Ho row ltac:(left)) as [ok Hok].
  assert (Hf : jm_set next key (RowVersion row ts (Some ok)) = next ++ [(key, RowVersion row ts (Some ok))]).
  { apply jm_set_fresh. apply NoDup_app in Hn as (_ & Hd & _). intros Hin. apply (Hd _ Hin). left. }
  edestruct (IH keys' (changes ++ [ChAdd key row ts (Some ok)]) (jm_set next key (RowVersion row ts (Some ok))))
    as (cs & es & Hl & Hz & Ha); [done| |by intros r Hr; apply Ho; right|].
  { rewrite Hf. unfold jm_keys. rewrite fmap_app, <- (assoc_L (++)). exact Hn. }
  exists (ChAdd key row ts (Some ok) :: cs), ((key, RowVersion row ts (Some ok)) :: es).
  cbn [reset_loop]. rewrite Hkey, Hok. cbn. rewrite Hl. split_and!.
  - rewrite Hf. by rewrite <- !(assoc_L (++)).
  - constructor; [|done]. split; [done|]. by exists ok.
  - change (applyChanges (jm_set next key (RowVersion row ts (Some ok))) cs = next ++ [(key, RowVersion row ts (Some ok))] ++ es).
    rewrite Ha, Hf. by rewrite <- (assoc_L (++)).
Qed.

Lemma zip_keys_docs docs keys : traverse row_key docs = Ok keys -> (zip keys docs).*1 = keys.
Proof.
  intros Ht%traverse_Forall2. apply Forall2_length in Ht. apply fst_zip. lia.
Qed.

Lemma zip_keys_rows docs keys row : traverse row_key docs = Ok keys -> row ∈ docs -> exists k, (k, row) ∈ zip keys docs.
Proof.
  intros Ht%traverse_Forall2 [i Hi]%list_elem_of_lookup.
  destruct (Forall2_lookup_l _ _ _ _ _ Ht Hi) as (k & Hk & _).
  exists k. apply list_elem_of_lookup. exists i. rewrite lookup_zip_with, Hk, Hi. done.
Qed.

(** The reset answer of a range subscription never fails on rows the range
    selects; the row map on file holds exactly the selected rows, and a client
    that applies the emitted changes to an empty map holds the same map. *)
Lemma rangeReset_total range tbl docs ts :
  query_answer range tbl docs ->
  exists changes next, rangeResetChanges range docs ts = Ok (changes, next) /\
    row_map_ok range tbl next /\ NoDup (jm_keys next) /\ applyChanges [] changes = next.
Proof.
  intros (keys & Hk & Hn & Hq).
  destruct (reset_loop_spec range docs keys ts [] []) as (cs & es & Hl & Hz & Ha); [done..| |].
  { intros row Hr. destruct (zip_keys_rows docs keys row Hk Hr) as [k Hkr].
    apply Hq in Hkr as [_ [ok [Hok _]]]. eauto. }
  assert (Hkeys : jm_keys es = keys).
  { rewrite <- (zip_keys_docs docs keys Hk). unfold jm_keys. clear -Hz.
    induction Hz as [|kr kv l l' [Hk _] _ IH]; csimpl; [done|]. by rewrite Hk, IH. }
  exists cs, es. split_and!; [exact Hl| |by rewrite Hkeys|exact Ha].
  intros k. destruct (jm_get es k) as [rv|] eqn:E; cbn.
  - apply jm_get_Some_in, list_elem_of_lookup in E as [i Hi].
    destruct (Forall2_lookup_r _ _ _ _ _ Hz Hi) as ([k' row] & Hkr & Hk' & ok & Hok & Hrv).
    cbn in Hk', Hok, Hrv. subst k' rv. cbn. exists ok.
    destruct (proj1 (Hq k row)) as [Ht (ok' & Hv)]; [by eapply list_elem_of_lookup_2|].
    split_and!; [done|done|]. pose proof Hv as [Hv' _]. rewrite Hok in Hv'. by injection Hv' as ->.
  - intros row ok Ht Hv. apply jm_get_None in E. apply E. rewrite Hkeys, <- (zip_keys_docs docs keys Hk).
    apply list_elem_of_fmap. exists (k, row). split; [done|]. apply Hq. eauto.
Qed.

(** Two row maps for the same table agree on rows and order keys. *)
Definition shown (rv : row_version) : json * option jsstr := (rv_row rv, rv_orderKey rv).

Lemma row_map_unique range tbl m m' k :
  row_map_ok range tbl m -> row_map_ok range tbl m' -> shown <$> jm_get m k = shown <$> jm_get m' k.
Proof.
  intros Hm Hm'. specialize (Hm k). specialize (Hm' k). unfold row_map_at in *.
  destruct (jm_get m k) as [rv|], (jm_get m' k) as [rv'|]; cbn; [|exfalso..|done].
  - destruct Hm as (ok & Ht & Ho & Hv & _), Hm' as (ok' & Ht' & Ho' & Hv' & _). unfold shown. congruence.
  - destruct Hm as (ok & Ht & Ho & Hv). by eapply Hm'.
  - destruct Hm' as (ok & Ht & Ho & Hv). by eapply Hm.
Qed.

(** A commit's incremental diff and a fresh reset on the table after the
    commit agree: the same documents with the same rows and order keys. *)
Theorem range_diff_equals_reset range tbl prev (wds : list written_doc) changes next docs ts changes' fresh :
  row_map_ok range tbl prev -> NoDup (wd_docId <$> wds) ->
  rangeChangesFor range prev wds = Ok (changes, next) ->
  query_answer range (apply_writes wds tbl) docs ->
  rangeResetChanges range docs ts = Ok (changes', fresh) ->
  forall k, shown <$> jm_get next k = shown <$> jm_get fresh k.
Proof.
  intros Hp Hn Hc Hq Hr k. apply (row_map_unique range (apply_writes wds tbl)).
  - intros k'. unfold rangeChangesFor in Hc.
    destruct (traverse (doc_change range prev) wds) as [css|] eqn:Et; cbn in Hc; [|done].
    simplify_eq. by apply range_changes_at with (prev := prev).
  - destruct (rangeReset_total range _ docs ts Hq) as (? & ? & Hr' & Hok & _). rewrite Hr in Hr'. by simplify_eq.
Qed.
End reset.

(** * Point subscriptions *)

(** A point subscription's map holds its document's current row. *)
Lemma byIdChangesFor_follows (prev : row_map) wd k :
  (forall k', k' <> wd_docId wd -> jm_get prev k' = None) ->
  jm_get (byIdChangesFor prev (Some wd)).2 k =
    if decide (k = wd_docId wd)
    then (fun row => RowVersion row (wd_tsZ wd) None) <$> wd_newRow wd else None.
Proof.
  intros Hp. unfold byIdChangesFor. destruct (wd_newRow wd) as [row|]; cbn.
  - destruct (negb _ || negb _); cbn; rewrite jm_get_set; case_decide; auto.
  - rewrite jm_get_delete. case_decide; auto.
Qed.

(** * Tagged values are not read back *)

Definition int64_doc (id : jsstr) (n : Z) : value :=
  VObject [(str_id, VString id); (js "a", VBigint n)].

Lemma int64_doc_json id n :
  convexToJson (int64_doc id n) =
  Ok (JObject [(str_id, JString id); (js "a", JObject [(key_integer, JString (btoa (int64ToBytes n)))])]).
Proof. reflexivity. Qed.

(** The differ reads the transport form of a row as the row: on an index
    over an integer (v.int64) field the store has an index key for the
    document, but the differ's order key fails with a type error, so the reset
    of a subscription whose answer has such a row fails; and an equality
    filter that the document passes is false for its transport form. *)
Theorem int64_rows_not_diffable `{JsHost} range id n row docs ts :
  -2 ^ 63 <= n < 2 ^ 63 ->
  rr_fields range = [js "a"] -> convexToJson (int64_doc id n) = Ok row ->
  is_ok (extractIndexKey (int64_doc id n) (rr_fields range)) = true /\
  orderKeyFor range row = Throw TypeError /\
  rangeResetChanges range (row :: docs) ts = Throw TypeError /\
  evaluateFilter (int64_doc id n) (FCompare OpEq (js "a") (VBigint n)) = Ok true /\
  evaluateFilter (json_value row) (FCompare OpEq (js "a") (VBigint n)) = Ok false.
Proof.
  intros Hn Hf Hj. rewrite int64_doc_json in Hj. injection Hj as Hrow.
  assert (Ho : orderKeyFor range row = Throw TypeError) by (unfold orderKeyFor; rewrite Hf, <- Hrow; reflexivity).
  assert (Hkey : row_key row = Ok id) by (by rewrite <- Hrow).
  assert (He : exists bs, encodeInt64 n = Ok bs).
  { unfold encodeInt64, INT64_MIN, INT64_MAX. replace (_ || _) with false by (symmetry; zbool; lia).
    destruct (store_bytes 8 _ []); eauto. }
  assert (Hp : evaluateFieldPath (int64_doc id n) (js "a") = FValue (VBigint n)) by reflexivity.
  destruct He as [bs He]. split_and!.
  - rewrite Hf. unfold extractIndexKey.
    change (evaluateFieldPath (int64_doc id n) <$> [js "a"]) with [evaluateFieldPath (int64_doc id n) (js "a")].
    rewrite Hp. cbn [app push_fields push_field].
    assert (Hb : pushElement [] (VBigint n) = Ok ([TAG_BIGINT] ++ bs)) by (unfold pushElement; cbn; by rewrite He).
    rewrite Hb. reflexivity.
  - exact Ho.
  - unfold rangeResetChanges. cbn [reset_loop]. by rewrite Hkey, bind_Ok, Ho.
  - cbn [evaluateFilter]. rewrite Hp. cbn [compare_field]. by rewrite compareValues_refl.
  - rewrite <- Hrow. reflexivity.
Qed.

(** * On a concrete table *)

(** Stand-ins for the runtime's own functions. *)
Definition sample_host : JsHost :=
  {| JSON_stringify := fun j => match j with JNull => js "null" | _ => js "json" end;
     js_String := fun _ => js "value"; error_message := fun _ => js "error"; sha256_hex := fun s => s |}.

Definition sample_row (id : jsstr) (a : number) : json := JObject [(str_id, JString id); (js "a", JNumber a)].
Definition sample_written (id : jsstr) (a : number) : written_doc :=
  WrittenDoc id (js "table:1") id (Some (sample_row id a)) false (f64_of_Z 7).
Definition num_two : number := num_of_bits 0x4000000000000000.
Definition num_three : number := num_of_bits 0x4008000000000000.
Definition num_five : number := num_of_bits 0x4014000000000000.

(** Index keys of "a" at least 3. *)
Definition sample_rr : range_read :=
  RangeRead (js "index:1:by_a")
    (SerializedRange (js "index:1:by_a")
       (match encodeIndexKey [VNumber num_three] with Ok b => toBase64 b | Throw _ => [] end) None)
    [] Asc [js "a"] None.
Definition sample_wds : list written_doc :=
  [sample_written (js "d1") num_five; sample_written (js "d2") num_two; sample_written (js "d3") num_three].
Definition no_rows : table_rows := fun _ => None.

Lemma no_rows_ok range : row_map_ok range no_rows [].
Proof. by intros k. Qed.

Definition sample_ok (id : jsstr) (n : number) : jsstr :=
  match orderKeyFor sample_rr (sample_row id n) with Ok k => k | Throw _ => [] end.
Definition sample_changes : list change :=
  [ChAdd (js "d1") (sample_row (js "d1") num_five) 7 (Some (sample_ok (js "d1") num_five));
   ChAdd (js "d3") (sample_row (js "d3") num_three) 7 (Some (sample_ok (js "d3") num_three))].

Lemma sample_diff : rangeChangesFor sample_rr [] sample_wds = Ok (sample_changes, applyChanges [] sample_changes).
Proof. vm_compute. reflexivity. Defined.
Lemma sample_wds_nodup : NoDup (wd_docId <$> sample_wds).
Proof. apply (bool_decide_unpack _). vm_compute. exact I. Defined.

Definition sample_idx : index_spec := IndexSpec (js "t") 1 (js "by_a") [js "a"] (js "1/by_a").
Definition sample_iv : interval := Interval (match encodeIndexKey [VNumber num_three] with Ok b => b | Throw _ => [] end) None.
Definition sample_value (id : jsstr) (a : number) : value := VObject [(str_id, VString id); (js "a", VNumber a)].
Definition sample_table (k : jsstr) : option value :=
  if decide (js "d1" = k) then Some (sample_value (js "d1") num_five)
  else if decide (js "d2" = k) then Some (sample_value (js "d2") num_two)
  else if decide (js "d3" = k) then Some (sample_value (js "d3") num_three) else None.

Lemma sample_plain k v : sample_table k = Some v -> wf_value v /\ plain v = true.
Proof.
  unfold sample_table. repeat (case_decide; [intros [= <-]; split; [|vm_compute; reflexivity];
    apply wf_object; split; [apply (bool_decide_unpack _); vm_compute; exact I|split; [vm_compute; reflexivity|]];
    repeat constructor; apply (bool_decide_unpack _); vm_compute; exact I|]). done.
Qed.
Lemma sample_written_to : written_to sample_wds (fun _ => None) sample_table.
Proof.
  intros k. unfold find_write, sample_table. cbn [List.find sample_wds sample_written wd_docId].
  destruct (decide (js "d1" = k)) as [<-|H1]; [eexists; split; reflexivity|]. rewrite (bool_decide_false _ H1).
  destruct (decide (js "d2" = k)) as [<-|H2]; [eexists; split; reflexivity|]. rewrite (bool_decide_false _ H2).
  destruct (decide (js "d3" = k)) as [<-|H3]; [eexists; split; reflexivity|]. by rewrite (bool_decide_false _ H3).
Qed.

Lemma rangeChangesFor_follows_witness :
  holds_selected sample_idx sample_iv [] sample_table (applyChanges [] sample_changes) /\
  driftChecksum (applyChanges [] sample_changes) = js "13a2b8f8".
Proof.
  split; [|vm_compute; reflexivity].
  apply (rangeChangesFor_follows sample_idx sample_iv [] sample_rr eq_refl eq_refl eq_refl) with (docs := fun _ => None) (prev := []) (client := [])
    (wds := sample_wds) (changes := sample_changes).
  - apply (bool_decide_unpack _). vm_compute. exact I.
  - discriminate.
  - discriminate.
  - exact sample_plain.
  - exact sample_wds_nodup.
  - exact sample_written_to.
  - intros k v key [=].
  - exact sample_diff.
  - constructor.
  - constructor.
  - reflexivity.
Defined.

(** A table lookup among the sample's documents. *)
Lemma sample_lookup k :
  apply_writes sample_wds no_rows k =
    if bool_decide (js "d1" = k) then Some (sample_row (js "d1") num_five)
    else if bool_decide (js "d2" = k) then Some (sample_row (js "d2") num_two)
    else if bool_decide (js "d3" = k) then Some (sample_row (js "d3") num_three) else None.
Proof.
  unfold apply_writes, find_write. cbn [List.find sample_wds sample_written wd_docId].
  by repeat (case_bool_decide; [done|]).
Qed.

Definition sample_docs : list json := [sample_row (js "d3") num_three; sample_row (js "d1") num_five].

Lemma sample_in_view :
  in_view sample_rr (sample_row (js "d1") num_five) (sample_ok (js "d1") num_five) /\
  in_view sample_rr (sample_row (js "d3") num_three) (sample_ok (js "d3") num_three).
Proof. unfold in_view. split_and!; vm_compute; reflexivity. Qed.
Lemma sample_out_of_view :
  orderKeyFor sample_rr (sample_row (js "d2") num_two) = Ok (sample_ok (js "d2") num_two) /\
  inBounds sample_rr (sample_ok (js "d2") num_two) = Ok false.
Proof. split; vm_compute; reflexivity. Qed.

Lemma sample_answer : @query_answer sample_host sample_rr (apply_writes sample_wds no_rows) sample_docs.
Proof.
  exists [js "d3"; js "d1"]. split_and!; [reflexivity|apply (bool_decide_unpack _); vm_compute; exact I|].
  intros k row. rewrite sample_lookup.
  change (zip [js "d3"; js "d1"] sample_docs) with
    [(js "d3", sample_row (js "d3") num_three); (js "d1", sample_row (js "d1") num_five)].
  destruct sample_in_view as [H1 H3]. destruct sample_out_of_view as [H2 H2'].
  assert (Hd : forall r, (exists ok, in_view sample_rr r ok) -> r <> sample_row (js "d2") num_two).
  { intros r (ok & Ho & Hb & _) ->. congruence. }
  revert H1 H3 Hd. clear H2 H2'. generalize (sample_row (js "d1") num_five) as r1, (sample_row (js "d2") num_two) as r2,
    (sample_row (js "d3") num_three) as r3. intros r1 r2 r3 H1 H3 Hd. rewrite !elem_of_cons, elem_of_nil. split.
  - intros [[= -> ->]|[[= -> ->]|[]]]; (split; [reflexivity|]); eauto.
  - intros [Hk Hv]. case_bool_decide; [injection Hk as <-; subst k; auto|].
    case_bool_decide; [injection Hk as <-; by apply Hd in Hv|].
    case_bool_decide; [injection Hk as <-; subst k; auto|discriminate].
Qed.

Definition sample_reset : res (list change * row_map) := @rangeResetChanges sample_host sample_rr sample_docs 9.

Lemma range_diff_equals_reset_witness :
  (forall k, shown <$> jm_get (applyChanges [] sample_changes) k =
     shown <$> jm_get (match sample_reset with Ok (_, m) => m | Throw _ => [] end) k) /\
  is_ok sample_reset = true.
Proof.
  split; [|vm_compute; reflexivity].
  eapply (range_diff_equals_reset (H := sample_host) sample_rr no_rows [] sample_wds sample_changes _ sample_docs 9);
    [apply no_rows_ok|apply sample_wds_nodup|apply sample_diff|apply sample_answer|].
  instantiate (1 := match sample_reset with Ok (c, _) => c | Throw _ => [] end). vm_compute. reflexivity.
Defined.

Lemma int64_rows_not_diffable_witness :
  let row := match convexToJson (int64_doc (js "d1") 5) with Ok j => j | Throw _ => JNull end in
  orderKeyFor sample_rr row = Throw TypeError /\
  @rangeResetChanges sample_host sample_rr [row] 9 = Throw TypeError.
Proof.
  intros row. destruct (@int64_rows_not_diffable sample_host sample_rr (js "d1") 5 row [] 9) as (_ & H1 & H2 & _);
    [lia|reflexivity..|]. by split.
Defined.
