(* ===== verification/ReadIndex.v ===== *)
(** The index of read sets that the subscription manager and the resume
    registry keep: which keys does a write touch?
    packages/sync/src/resume-registry.ts (index, unindex and the matching loop
    of advanceOnCommit) and packages/sync/src/subscription-manager.ts, which
    repeats the same steps. *)
From Stdlib Require Import ZArith Lia.
From stdpp Require Import base list sets.
From S2P Require Import Prelude JsBase KeyRanges IntervalIndex.

(** * The index *)

(** [byTable], [byRange], [tableFallbackKeys] and [deserializedRanges]; a set
    is the list of its elements in insertion order, and the value key of the
    interval index is the subscription key itself. *)
Record read_index := ReadIndex
  { ri_byTable : list (jsstr * list jsstr);
    ri_byRange : interval_index (V := jsstr);
    ri_fallback : list jsstr;
    ri_ranges : list (jsstr * list key_range) }.

Definition ri_empty : read_index := ReadIndex [] [] [] [].

Definition self_key (k : jsstr) : jsstr := k.
Definition set_delete (s : list jsstr) (x : jsstr) : list jsstr := base.filter (fun y => y <> x) s.
Definition set_union (s xs : list jsstr) : list jsstr := fold_left set_add xs s.

(** [let set = m.get(t); if (!set) m.set(t, set = new Set()); set.add(key)]
    for each name. *)
Definition members (m : list (jsstr * list jsstr)) (t : jsstr) : list jsstr := default [] (jm_get m t).
Definition add_member (key : jsstr) (m : list (jsstr * list jsstr)) (t : jsstr) : list (jsstr * list jsstr) :=
  jm_set m t (set_add (members m t) key).
(** [m.get(t)?.delete(key)]: an emptied set stays. *)
Definition drop_member (key : jsstr) (m : list (jsstr * list jsstr)) (t : jsstr) : list (jsstr * list jsstr) :=
  match jm_get m t with None => m | Some s => jm_set m t (set_delete s key) end.

Definition insert_ranges (key : jsstr) (ix : interval_index) (rs : list key_range) : interval_index (V := jsstr) :=
  fold_left (fun ix r => ii_insert self_key ix r key) rs ix.
Definition remove_ranges (key : jsstr) (ix : interval_index) (rs : list key_range) : interval_index (V := jsstr) :=
  fold_left (fun ix r => ii_remove self_key ix r key) rs ix.

(** A range that does not decode throws after the tables are indexed. *)
Definition ri_add (ri : read_index) (key : jsstr) (readRanges : list serialized_range) (tables : list jsstr)
    : read_index * res unit :=
  let byTable := fold_left (add_member key) tables (ri_byTable ri) in
  match readRanges with
  | [] => (ReadIndex byTable (ri_byRange ri) (set_add (ri_fallback ri) key) (ri_ranges ri), Ok tt)
  | _ :: _ =>
      match traverse deserializeKeyRange readRanges with
      | Throw e => (ReadIndex byTable (ri_byRange ri) (ri_fallback ri) (ri_ranges ri), Throw e)
      | Ok rs =>
          (ReadIndex byTable (insert_ranges key (ri_byRange ri) rs) (ri_fallback ri) (jm_set (ri_ranges ri) key rs),
           Ok tt)
      end
  end.

Definition ri_remove (ri : read_index) (key : jsstr) (tables : list jsstr) : read_index :=
  let '(byRange, ranges) :=
    match jm_get (ri_ranges ri) key with
    | Some rs => (remove_ranges key (ri_byRange ri) rs, jm_delete (ri_ranges ri) key)
    | None => (ri_byRange ri, ri_ranges ri)
    end in
  ReadIndex (fold_left (drop_member key) tables (ri_byTable ri)) byRange (set_delete (ri_fallback ri) key) ranges.

(** The keys of the range matches, write range by write range. *)
Fixpoint range_hits (ri : read_index) (keys : list jsstr) (writtenRanges : list serialized_range)
    : res (list jsstr) :=
  match writtenRanges with
  | [] => Ok keys
  | w :: ws =>
      wr ← deserializeKeyRange w;
      range_hits ri (set_union keys (ii_queryOverlaps (ri_byRange ri) wr)) ws
  end.

Definition fallback_hits (ri : read_index) (keys : list jsstr) (t : jsstr) : list jsstr :=
  set_union keys (base.filter (fun k => k ∈ ri_fallback ri) (members (ri_byTable ri) t)).

Definition ri_matches (ri : read_index) (writtenRanges : list serialized_range) (writtenTables : list jsstr)
    : res (list jsstr) :=
  keys ← range_hits ri [] writtenRanges;
  Ok (fold_left (fallback_hits ri) writtenTables keys).

(** * Sets as lists *)

Lemma set_add_elem {A} `{EqDecision A} (s : list A) x y : y ∈ set_add s x <-> y = x \/ y ∈ s.
Proof. unfold set_add. case_bool_decide; set_solver. Qed.

Lemma set_add_nodup {A} `{EqDecision A} (s : list A) x : NoDup s -> NoDup (set_add s x).
Proof.
  unfold set_add. case_bool_decide; [done|]. intros Hn. apply NoDup_app. split_and!; [done| |apply NoDup_singleton].
  intros y Hy ->%list_elem_of_singleton. done.
Qed.

Lemma set_delete_elem s x y : y ∈ set_delete s x <-> y <> x /\ y ∈ s.
Proof. unfold set_delete. by rewrite list_elem_of_filter. Qed.

Lemma set_union_elem s xs y : y ∈ set_union s xs <-> y ∈ s \/ y ∈ xs.
Proof.
  unfold set_union. revert s. induction xs as [|x xs IH]; intros s; simpl; [set_solver|].
  rewrite IH, set_add_elem. set_solver.
Qed.

Lemma set_union_nodup s xs : NoDup s -> NoDup (set_union s xs).
Proof.
  unfold set_union. revert s. induction xs as [|x xs IH]; intros s Hs; simpl; [done|].
  apply IH, set_add_nodup, Hs.
Qed.

Lemma members_add key m t t' k :
  k ∈ members (add_member key m t) t' <-> (k = key /\ t' = t) \/ k ∈ members m t'.
Proof.
  unfold members, add_member. rewrite jm_get_set. case_decide as Ht; cbn.
  - subst. rewrite set_add_elem. unfold members. naive_solver.
  - naive_solver.
Qed.

Lemma members_add_all key ts m t' k :
  k ∈ members (fold_left (add_member key) ts m) t' <-> (k = key /\ t' ∈ ts) \/ k ∈ members m t'.
Proof.
  revert m. induction ts as [|t ts IH]; intros m; simpl; [set_solver|].
  rewrite IH, members_add. set_solver.
Qed.

Lemma members_drop key m t t' k :
  k ∈ members (drop_member key m t) t' <-> ~ (k = key /\ t' = t) /\ k ∈ members m t'.
Proof.
  unfold drop_member. destruct (jm_get m t) as [s|] eqn:E.
  - unfold members. rewrite jm_get_set. case_decide as Ht; cbn.
    + subst. rewrite set_delete_elem, E. cbn. naive_solver.
    + naive_solver.
  - split; [|by intros [_ ?]]. intros Hk. split; [|done]. intros [-> ->].
    unfold members in Hk. rewrite E in Hk. by apply not_elem_of_nil in Hk.
Qed.

Lemma members_drop_all key ts m t' k :
  k ∈ members (fold_left (drop_member key) ts m) t' <-> ~ (k = key /\ t' ∈ ts) /\ k ∈ members m t'.
Proof.
  revert m. induction ts as [|t ts IH]; intros m; simpl; [set_solver|].
  rewrite IH, members_drop. set_solver.
Qed.

(** * The interval index, up to membership *)

Lemma spec_insert_elem (s : list (key_range * jsstr)) r k rv :
  rv ∈ spec_insert self_key s r k <-> rv = (r, k) \/ rv ∈ s.
Proof.
  unfold spec_insert. case_bool_decide as He.
  - split; [auto|]. intros [->|?]; [|done].
    apply Exists_exists in He as ([r' k'] & Hin & Hr & Hk). cbn in Hr, Hk. unfold self_key in Hk. by subst.
  - set_solver.
Qed.

Lemma spec_remove_elem (s : list (key_range * jsstr)) r k rv :
  rv ∈ spec_remove self_key s r k <-> rv <> (r, k) /\ rv ∈ s.
Proof.
  unfold spec_remove. rewrite list_elem_of_filter. unfold same_reg, self_key. destruct rv as [r' k']; cbn. naive_solver.
Qed.

Lemma insert_ranges_spec key ix rs :
  ii_ok self_key ix ->
  ii_ok self_key (insert_ranges key ix rs) /\
  forall rv, rv ∈ contents (insert_ranges key ix rs) <-> (rv.2 = key /\ rv.1 ∈ rs) \/ rv ∈ contents ix.
Proof.
  revert ix. unfold insert_ranges. induction rs as [|r rs IH]; intros ix Hix; simpl.
  { split; [done|]. intros rv. set_solver. }
  destruct (ii_insert_refines self_key ix (contents ix) r key Hix) as [Hok Hc]; [done|].
  destruct (IH _ Hok) as [Hok' Hin]. split; [done|]. intros rv. rewrite Hin, Hc, spec_insert_elem.
  destruct rv as [r' k']; cbn. rewrite elem_of_cons. naive_solver.
Qed.

Lemma remove_ranges_spec key ix rs :
  ii_ok self_key ix ->
  ii_ok self_key (remove_ranges key ix rs) /\
  forall rv, rv ∈ contents (remove_ranges key ix rs) <-> ~ (rv.2 = key /\ rv.1 ∈ rs) /\ rv ∈ contents ix.
Proof.
  revert ix. unfold remove_ranges. induction rs as [|r rs IH]; intros ix Hix; simpl.
  { split; [done|]. intros rv. set_solver. }
  destruct (ii_remove_refines self_key ix (contents ix) r key Hix) as [Hok Hc]; [done|].
  destruct (IH _ Hok) as [Hok' Hin]. split; [done|]. intros rv. rewrite Hin, Hc, spec_remove_elem.
  destruct rv as [r' k']; cbn. rewrite elem_of_cons. naive_solver.
Qed.

Lemma query_elem ix q k :
  ii_ok self_key ix -> k ∈ ii_queryOverlaps ix q <-> exists r, (r, k) ∈ contents ix /\ rangesOverlap r q = true.
Proof.
  intros Hix. rewrite (query_contents self_key ix q Hix), list_elem_of_fmap. split.
  - intros ([r k'] & -> & Hin). apply list_elem_of_filter in Hin as [Ho Hin]. eauto.
  - intros (r & Hin & Ho). exists (r, k). split; [done|]. by apply list_elem_of_filter.
Qed.

(** * The index of a set of read sets *)

(** What a key reads: the ranges and the tables it was indexed under. *)
Definition read_set : Type := list serialized_range * list jsstr.

(** Ranges that do not decode were never indexed. *)
Definition decoded (rr : list serialized_range) : list key_range :=
  match traverse deserializeKeyRange rr with Ok rs => rs | Throw _ => [] end.
#[global] Arguments decoded : simpl never.

Lemma decoded_ok rr rs : traverse deserializeKeyRange rr = Ok rs -> decoded rr = rs.
Proof. unfold decoded. by intros ->. Qed.

Lemma decoded_throw rr e : traverse deserializeKeyRange rr = Throw e -> decoded rr = [].
Proof. unfold decoded. by intros ->. Qed.

(** The index holds exactly the read sets that [get] gives. *)
Record index_ok (ri : read_index) (get : jsstr -> option read_set) : Prop := {
  ix_range : ii_ok self_key (ri_byRange ri);
  ix_contents : forall r k, (r, k) ∈ contents (ri_byRange ri) <-> exists rs, get k = Some rs /\ r ∈ decoded rs.1;
  ix_ranges : forall k, default [] (jm_get (ri_ranges ri) k) =
                        match get k with Some rs => decoded rs.1 | None => [] end;
  ix_fallback : forall k, k ∈ ri_fallback ri <-> exists ts, get k = Some ([], ts);
  ix_tables : forall t k, k ∈ members (ri_byTable ri) t <-> exists rs, get k = Some rs /\ t ∈ rs.2 }.

Definition upd (get : jsstr -> option read_set) (k : jsstr) (o : option read_set) : jsstr -> option read_set :=
  fun k' => if decide (k' = k) then o else get k'.

Lemma index_ok_ext ri get get' : (forall k, get k = get' k) -> index_ok ri get -> index_ok ri get'.
Proof. intros He []. split; try done; setoid_rewrite <- He; done. Qed.

Lemma empty_ok : index_ok ri_empty (fun _ => None).
Proof.
  split; cbn; try done.
  - split; constructor.
  - intros r k. split; [by intros ?%not_elem_of_nil|naive_solver].
  - intros k. split; [by intros ?%not_elem_of_nil|naive_solver].
  - intros t k. split; [by intros ?%not_elem_of_nil|naive_solver].
Qed.

Lemma ri_add_ok ri get key rr ts :
  index_ok ri get -> get key = None -> index_ok (ri_add ri key rr ts).1 (upd get key (Some (rr, ts))).
Proof.
  intros [Hr Hc Hg Hf Ht] Hn. unfold upd, ri_add.
  assert (Htab : forall t k, k ∈ members (fold_left (add_member key) ts (ri_byTable ri)) t <->
    exists rs, (if decide (k = key) then Some (rr, ts) else get k) = Some rs /\ t ∈ rs.2).
  { intros t k. rewrite members_add_all, Ht. case_decide; naive_solver. }
  destruct rr as [|r0 rr]; [|destruct (traverse deserializeKeyRange (r0 :: rr)) as [rs|e] eqn:Ed]; cbn [fst].
  - split; cbn; try done.
    + intros r k. rewrite Hc. case_decide; naive_solver set_solver.
    + intros k. rewrite Hg. case_decide; [subst; by rewrite Hn|done].
    + intros k. rewrite set_add_elem, Hf. case_decide; naive_solver.
  - destruct (insert_ranges_spec key (ri_byRange ri) rs Hr) as [Hr' Hc']. split; cbn; try done.
    + intros r k. rewrite Hc'. cbn. rewrite Hc. apply decoded_ok in Ed. case_decide; naive_solver.
    + intros k. rewrite jm_get_set. case_decide; cbn; [|apply Hg]. by rewrite (decoded_ok _ _ Ed).
    + intros k. rewrite Hf. case_decide; naive_solver.
  - split; cbn; try done.
    + intros r k. rewrite Hc. case_decide as Hk; [|done]. subst. rewrite Hn. apply decoded_throw in Ed.
      split; [naive_solver|]. intros (? & [= <-] & Hin). cbn in Hin. rewrite Ed in Hin. by apply not_elem_of_nil in Hin.
    + intros k. rewrite Hg. case_decide; [|done]. subst. rewrite Hn. cbn. by rewrite (decoded_throw _ _ Ed).
    + intros k. rewrite Hf. case_decide; naive_solver.
Qed.

Lemma ri_remove_ok ri get key rr ts :
  index_ok ri get -> get key = Some (rr, ts) -> index_ok (ri_remove ri key ts) (upd get key None).
Proof.
  intros [Hr Hc Hg Hf Ht] Hk. unfold upd, ri_remove.
  pose proof (Hg key) as Hgk. rewrite Hk in Hgk. cbn in Hgk.
  assert (Htab : forall t k, k ∈ members (fold_left (drop_member key) ts (ri_byTable ri)) t <->
    exists rs, (if decide (k = key) then None else get k) = Some rs /\ t ∈ rs.2).
  { intros t k. rewrite members_drop_all, Ht. case_decide; naive_solver. }
  assert (Hfb : forall k, k ∈ set_delete (ri_fallback ri) key <->
    exists ts', (if decide (k = key) then None else get k) = Some ([], ts')).
  { intros k. rewrite set_delete_elem, Hf. case_decide; naive_solver. }
  destruct (jm_get (ri_ranges ri) key) as [rs|] eqn:Eg; cbn in Hgk; split; cbn; try done.
  - apply remove_ranges_spec, Hr.
  - destruct (remove_ranges_spec key (ri_byRange ri) rs Hr) as [_ Hc'].
    intros r k. rewrite Hc', Hc. cbn. rewrite Hgk. case_decide; naive_solver.
  - intros k. rewrite jm_get_delete. case_decide; [done|apply Hg].
  - intros r k. rewrite Hc. case_decide as Hd; [|done]. subst. rewrite Hk.
    split; [|naive_solver]. intros (? & [= <-] & Hin). cbn in Hin. rewrite <- Hgk in Hin. by apply not_elem_of_nil in Hin.
  - intros k. rewrite Hg. case_decide; [|done]. subst. by rewrite Hk.
Qed.

(** * Matching *)

(** The retired linear scan: a read set is touched when one of its ranges
    overlaps a written range, or when it has no ranges and one of its tables
    is written. *)
Definition touched (ws : list key_range) (wts : list jsstr) (rs : read_set) : bool :=
  existsb (fun r => existsb (rangesOverlap r) ws) (decoded rs.1) ||
  match rs.1 with [] => existsb (fun t => bool_decide (t ∈ wts)) rs.2 | _ :: _ => false end.

Lemma existsb_elem {A} (p : A -> bool) l : existsb p l = true <-> exists x, x ∈ l /\ p x = true.
Proof. rewrite existsb_exists. by setoid_rewrite list_elem_of_In. Qed.

Lemma touched_spec ws wts rs :
  touched ws wts rs = true <->
  (exists r w, r ∈ decoded rs.1 /\ w ∈ ws /\ rangesOverlap r w = true) \/
  (rs.1 = [] /\ exists t, t ∈ wts /\ t ∈ rs.2).
Proof.
  unfold touched. rewrite orb_true_iff, existsb_elem. setoid_rewrite existsb_elem. split.
  - intros [(r & Hr & w & Hw & Ho)|H]; [naive_solver|]. right. destruct (rs.1); [|done].
    apply existsb_elem in H as (t & Ht & ?%bool_decide_eq_true). eauto.
  - intros [(r & w & ? & ? & ?)|[-> (t & ? & ?)]]; [naive_solver|]. right.
    apply existsb_elem. exists t. split; [done|]. by apply bool_decide_eq_true.
Qed.

Lemma range_hits_spec ri get keys wrs ws :
  index_ok ri get -> traverse deserializeKeyRange wrs = Ok ws -> NoDup keys ->
  exists keys', range_hits ri keys wrs = Ok keys' /\ NoDup keys' /\
    forall k, k ∈ keys' <-> k ∈ keys \/ exists r w, (r, k) ∈ contents (ri_byRange ri) /\ w ∈ ws /\ rangesOverlap r w = true.
Proof.
  intros Hi. revert keys ws. induction wrs as [|wr wrs IH]; intros keys ws Ht Hn.
  { injection Ht as <-. exists keys. split_and!; [done|done|]. intros k. split; [auto|].
    intros [?|(r & w & _ & Hw & _)]; [done|]. by apply not_elem_of_nil in Hw. }
  cbn in Ht |- *. destruct (deserializeKeyRange wr) as [w|]; cbn in Ht |- *; [|done].
  destruct (traverse deserializeKeyRange wrs) as [ws'|]; cbn in Ht; [|done]. injection Ht as <-.
  destruct (IH (set_union keys (ii_queryOverlaps (ri_byRange ri) w)) ws') as (keys' & He & Hn' & Hk);
    [done|by apply set_union_nodup|].
  exists keys'. split_and!; [done|done|]. intros k.
  rewrite Hk, set_union_elem, (query_elem _ w k (ix_range _ _ Hi)). setoid_rewrite elem_of_cons. split.
  - intros [[?|(r & Hr & Ho)]|(r & w' & Hr & Hw & Ho)]; [by left|right; exists r, w; auto|right; exists r, w'; auto].
  - intros [?|(r & w' & Hr & [->|Hw] & Ho)]; [by left; left|left; right; eauto|right; eauto].
Qed.

Lemma fallback_hits_spec ri keys wts :
  NoDup keys ->
  NoDup (fold_left (fallback_hits ri) wts keys) /\
  forall k, k ∈ fold_left (fallback_hits ri) wts keys <->
    k ∈ keys \/ (k ∈ ri_fallback ri /\ exists t, t ∈ wts /\ k ∈ members (ri_byTable ri) t).
Proof.
  revert keys. induction wts as [|t wts IH]; intros keys Hn; simpl.
  { split; [done|]. intros k. split; [auto|]. intros [?|[_ (t & Ht & _)]]; [done|]. by apply not_elem_of_nil in Ht. }
  destruct (IH (fallback_hits ri keys t)) as [Hn' Hk]; [by apply set_union_nodup|].
  split; [done|]. intros k. rewrite Hk. unfold fallback_hits. rewrite set_union_elem, list_elem_of_filter.
  setoid_rewrite elem_of_cons. naive_solver.
Qed.

(** Matching finds exactly the keys the linear scan would, each once. *)
Lemma ri_matches_spec ri get wrs wts ws :
  index_ok ri get -> traverse deserializeKeyRange wrs = Ok ws ->
  exists keys, ri_matches ri wrs wts = Ok keys /\ NoDup keys /\
    forall k, k ∈ keys <-> exists rs, get k = Some rs /\ touched ws wts rs = true.
Proof.
  intros Hi Ht. destruct (range_hits_spec ri get [] wrs ws Hi Ht) as (keys & He & Hn & Hk); [constructor|].
  unfold ri_matches. rewrite He. cbn. destruct (fallback_hits_spec ri keys wts Hn) as [Hn' Hk'].
  eexists. split_and!; [done|done|]. intros k. rewrite Hk', Hk. clear He Hn Hk Hn' Hk' Ht.
  destruct Hi as [_ Hc _ Hf Htb]. rewrite Hf. setoid_rewrite Htb. setoid_rewrite Hc. setoid_rewrite touched_spec. split.
  - intros [[?%not_elem_of_nil|(r & w & (rs & Hg & Hr) & Hw & Ho)]|[(ts & Hg) (t & Ht & rs & Hg' & Hts)]]; [done| |].
    + exists rs. eauto 10.
    + exists rs. split; [done|]. right. rewrite Hg in Hg'. injection Hg' as <-. eauto.
  - intros (rs & Hg & [(r & w & Hr & Hw & Ho)|[Hr (t & Ht & Hts)]]).
    + left. right. eauto 10.
    + right. destruct rs as [rr ts]. cbn in Hr. subst. eauto 10.
Qed.
