(* ===== verification/Subscriptions.v ===== *)
(** Live subscriptions and the writes that invalidate them:
    packages/sync/src/subscription-manager.ts. *)
From Stdlib Require Import ZArith Lia.
From stdpp Require Import base list sets strings.
From S2P Require Import Prelude JsBase JsText KeyRanges IntervalIndex Values ValuesJson RowDiff ReadIndex.

(** * State *)

(** An absent [globalTables] is the empty list, as its readers take it. *)
Record subscription := Subscription
  { sub_sessionId : jsstr; sub_queryId : Z; sub_udfPath : jsstr; sub_args : json;
    sub_tables : list jsstr; sub_readRanges : list serialized_range; sub_globalTables : list jsstr;
    sub_byId : option by_id_read; sub_range : option range_read; sub_resumeKey : option jsstr }.

Definition space : Z := 32.
Definition subKey (sessionId : jsstr) (queryId : Z) : jsstr := sessionId ++ [space] ++ js_string_of queryId.
Definition sub_key (sub : subscription) : jsstr := subKey (sub_sessionId sub) (sub_queryId sub).

Record manager := Manager
  { sm_byKey : list (jsstr * subscription); sm_index : read_index;
    sm_byGlobalTable : list (jsstr * list jsstr) }.

Definition sm_empty : manager := Manager [] ri_empty [].

(** * Operations *)

(** Unlike [byTable], an emptied global set is dropped. *)
Definition drop_global (key : jsstr) (m : list (jsstr * list jsstr)) (t : jsstr) : list (jsstr * list jsstr) :=
  match jm_get m t with
  | None => m
  | Some s => match set_delete s key with [] => jm_delete m t | s' => jm_set m t s' end
  end.

Definition removeKey (m : manager) (key : jsstr) : manager :=
  match jm_get (sm_byKey m) key with
  | None => m
  | Some existing =>
      Manager (jm_delete (sm_byKey m) key)
        (ri_remove (sm_index m) key (sub_tables existing))
        (fold_left (drop_global key) (sub_globalTables existing) (sm_byGlobalTable m))
  end.

(** A read range that does not decode throws halfway: the subscription is on
    file, without its ranges and its global tables. *)
Definition sm_add (m : manager) (sub : subscription) : manager * res unit :=
  let key := sub_key sub in
  let m := removeKey m key in
  let byKey := jm_set (sm_byKey m) key sub in
  let '(index, r) := ri_add (sm_index m) key (sub_readRanges sub) (sub_tables sub) in
  match r with
  | Throw e => (Manager byKey index (sm_byGlobalTable m), Throw e)
  | Ok _ => (Manager byKey index (fold_left (add_member key) (sub_globalTables sub) (sm_byGlobalTable m)), Ok tt)
  end.

Definition sm_remove (m : manager) (sessionId : jsstr) (queryId : Z) : manager :=
  removeKey m (subKey sessionId queryId).

Definition session_prefix (sessionId : jsstr) : jsstr := sessionId ++ [space].

Definition removeSession (m : manager) (sessionId : jsstr) : manager :=
  fold_left (fun m key => if starts_with (session_prefix sessionId) key then removeKey m key else m)
    (jm_keys (sm_byKey m)) m.

Definition sm_get (m : manager) (sessionId : jsstr) (queryId : Z) : option subscription :=
  jm_get (sm_byKey m) (subKey sessionId queryId).

(** Global tables match without the fallback gate. *)
Definition global_hits (m : manager) (keys : list jsstr) (t : jsstr) : list jsstr :=
  set_union keys (members (sm_byGlobalTable m) t).

Definition findAffectedByRanges (m : manager) (writeRanges : list serialized_range) (writeTables : list jsstr)
    : res (list subscription) :=
  keys ← ri_matches (sm_index m) writeRanges writeTables;
  let keys := fold_left (global_hits m) writeTables keys in
  Ok (omap (jm_get (sm_byKey m)) keys).

Definition table_hits (m : manager) (out : list (jsstr * subscription)) (t : jsstr) : list (jsstr * subscription) :=
  fold_left (fun out key => match jm_get (sm_byKey m) key with Some sub => jm_set out key sub | None => out end)
    (members (ri_byTable (sm_index m)) t) out.
Definition findAffectedByTables (m : manager) (tables : list jsstr) : list subscription :=
  jm_values (fold_left (table_hits m) tables []).

Definition forSession (m : manager) (sessionId : jsstr) : list subscription :=
  jm_values (base.filter (fun ks => starts_with (session_prefix sessionId) ks.1 = true) (sm_byKey m)).

Definition sm_size (m : manager) : nat := length (sm_byKey m).
Definition subscribedGlobalTables (m : manager) : list jsstr := jm_keys (sm_byGlobalTable m).

(** * The invariant *)

Definition sub_reads (sub : subscription) : read_set := (sub_readRanges sub, sub_tables sub).
(** Its read ranges decode. *)
Definition indexable (sub : subscription) : bool := is_ok (traverse deserializeKeyRange (sub_readRanges sub)).

Definition reads_of (byKey : list (jsstr * subscription)) : jsstr -> option read_set :=
  fun k => sub_reads <$> jm_get byKey k.

Record sm_ok (m : manager) : Prop := {
  sm_nodup : NoDup (jm_keys (sm_byKey m));
  sm_keys : forall k sub, jm_get (sm_byKey m) k = Some sub -> k = sub_key sub;
  sm_index_ok : index_ok (sm_index m) (reads_of (sm_byKey m));
  sm_globals : forall t k, k ∈ members (sm_byGlobalTable m) t <->
    exists sub, jm_get (sm_byKey m) k = Some sub /\ indexable sub = true /\ t ∈ sub_globalTables sub;
  sm_live : forall t s, jm_get (sm_byGlobalTable m) t = Some s -> s <> [] }.

Lemma sm_empty_ok : sm_ok sm_empty.
Proof.
  split; cbn; try done; [constructor|apply empty_ok|].
  intros t k. split; [by intros ?%not_elem_of_nil|naive_solver].
Qed.

Lemma members_drop_global key m t t' k :
  k ∈ members (drop_global key m t) t' <-> ~ (k = key /\ t' = t) /\ k ∈ members m t'.
Proof.
  rewrite <- members_drop. unfold drop_global, drop_member. destruct (jm_get m t) as [s|]; [|done].
  destruct (set_delete s key) eqn:E; [|done]. unfold members. rewrite jm_get_delete, jm_get_set.
  by case_decide.
Qed.

Lemma members_drop_globals key ts m t' k :
  k ∈ members (fold_left (drop_global key) ts m) t' <-> ~ (k = key /\ t' ∈ ts) /\ k ∈ members m t'.
Proof.
  revert m. induction ts as [|t ts IH]; intros m; simpl; [set_solver|].
  rewrite IH, members_drop_global. set_solver.
Qed.

Definition live_sets (m : list (jsstr * list jsstr)) : Prop := forall t s, jm_get m t = Some s -> s <> [].

Lemma drop_globals_live key ts m : live_sets m -> live_sets (fold_left (drop_global key) ts m).
Proof.
  revert m. induction ts as [|t ts IH]; intros m Hm; simpl; [done|]. apply IH. clear IH.
  intros t' s'. unfold drop_global. destruct (jm_get m t) as [s|] eqn:E; [|apply Hm].
  destruct (set_delete s key) eqn:Ed.
  - rewrite jm_get_delete. case_decide; [done|apply Hm].
  - rewrite jm_get_set. case_decide; [intros [= <-]|apply Hm]. done.
Qed.

Lemma add_members_live key ts m : live_sets m -> live_sets (fold_left (add_member key) ts m).
Proof.
  revert m. induction ts as [|t ts IH]; intros m Hm; simpl; [done|]. apply IH. clear IH.
  intros t' s'. unfold add_member. rewrite jm_get_set. case_decide; [intros [= <-]|apply Hm].
  unfold set_add. case_bool_decide as Hb; [|by destruct (members m t)]. intros He. rewrite He in Hb. by apply not_elem_of_nil in Hb.
Qed.

Lemma reads_of_delete byKey key k : reads_of (jm_delete byKey key) k = upd (reads_of byKey) key None k.
Proof. unfold reads_of, upd. rewrite jm_get_delete. by case_decide. Qed.

Lemma removeKey_absent m key : jm_get (sm_byKey (removeKey m key)) key = None.
Proof.
  unfold removeKey. destruct (jm_get (sm_byKey m) key) eqn:E; [|done]. cbn.
  by rewrite jm_get_delete, decide_True.
Qed.

Lemma removeKey_get m key k :
  jm_get (sm_byKey (removeKey m key)) k = if decide (k = key) then None else jm_get (sm_byKey m) k.
Proof.
  unfold removeKey. destruct (jm_get (sm_byKey m) key) eqn:E; cbn; [apply jm_get_delete|]. case_decide; by subst.
Qed.

Lemma removeKey_ok m key : sm_ok m -> sm_ok (removeKey m key).
Proof.
  intros [Hn Hk Hi Hg Hl]. unfold removeKey. destruct (jm_get (sm_byKey m) key) as [ex|] eqn:E; [|by split].
  assert (Hr : reads_of (sm_byKey m) key = Some (sub_reads ex)) by (unfold reads_of; by rewrite E).
  split; cbn [sm_byKey sm_index sm_byGlobalTable].
  - auto with concile.
  - intros k sub. rewrite jm_get_delete. case_decide; [done|apply Hk].
  - eapply index_ok_ext; [intros k; symmetry; apply reads_of_delete|]. by eapply ri_remove_ok.
  - intros t k. rewrite members_drop_globals, Hg, jm_get_delete. case_decide as Hd; [|naive_solver].
    subst. rewrite E. split; naive_solver.
  - by apply drop_globals_live.
Qed.

Lemma sm_add_ok m sub : sm_ok m -> sm_ok (sm_add m sub).1.
Proof.
  intros Hm. apply (removeKey_ok m (sub_key sub)) in Hm. unfold sm_add.
  pose proof (removeKey_absent m (sub_key sub)) as Ha. set (m' := removeKey m (sub_key sub)) in *. clearbody m'.
  destruct Hm as [Hn Hk Hi Hg Hl].
  pose proof (ri_add_ok (sm_index m') _ (sub_key sub) (sub_readRanges sub) (sub_tables sub) Hi) as Hadd.
  destruct (ri_add _ _ _ _) as [ix r] eqn:Er.
  assert (Hix : index_ok ix (reads_of (jm_set (sm_byKey m') (sub_key sub) sub))).
  { eapply index_ok_ext; [|apply Hadd; unfold reads_of; by rewrite Ha].
    intros k. unfold upd, reads_of. rewrite jm_get_set. by case_decide. }
  assert (Hsub : forall k s, jm_get (jm_set (sm_byKey m') (sub_key sub) sub) k = Some s -> k = sub_key s).
  { intros k s. rewrite jm_get_set. case_decide; [naive_solver|apply Hk]. }
  assert (Hr : indexable sub = is_ok r).
  { unfold indexable. unfold ri_add in Er. destruct (sub_readRanges sub); [by simplify_eq|].
    destruct (traverse _ _); by simplify_eq. }
  destruct r as [u|e]; split; cbn [fst sm_byKey sm_index sm_byGlobalTable]; auto with concile.
  - intros t k. rewrite members_add_all, Hg, jm_get_set. case_decide as Hd; [|naive_solver].
    subst. rewrite Ha. naive_solver.
  - by apply add_members_live.
  - intros t k. rewrite Hg, jm_get_set. case_decide as Hd; [|done]. subst. rewrite Ha.
    split; [naive_solver|]. intros (s & [= <-] & Hb & _). by rewrite Hr in Hb.
Qed.

(** * Matching *)

(** The retired scan's test on one subscription. *)
Definition affected (ws : list key_range) (wts : list jsstr) (sub : subscription) : bool :=
  touched ws wts (sub_reads sub) ||
  indexable sub && existsb (fun t => bool_decide (t ∈ wts)) (sub_globalTables sub).

Lemma affected_spec ws wts sub :
  affected ws wts sub = true <->
  touched ws wts (sub_reads sub) = true \/
  (indexable sub = true /\ exists t, t ∈ wts /\ t ∈ sub_globalTables sub).
Proof.
  unfold affected. rewrite orb_true_iff, andb_true_iff, existsb_elem. split; (intros [?|[? (t & H1 & H2)]]; [by left|right]).
  - split; [done|]. exists t. by apply bool_decide_eq_true in H2.
  - split; [done|]. exists t. split; [done|]. by apply bool_decide_eq_true.
Qed.

Lemma global_hits_spec m wts keys :
  NoDup keys ->
  NoDup (fold_left (global_hits m) wts keys) /\
  forall k, k ∈ fold_left (global_hits m) wts keys <->
    k ∈ keys \/ exists t, t ∈ wts /\ k ∈ members (sm_byGlobalTable m) t.
Proof.
  revert keys. induction wts as [|t wts IH]; intros keys Hn; simpl.
  { split; [done|]. intros k. split; [auto|]. intros [?|(t & Ht & _)]; [done|]. by apply not_elem_of_nil in Ht. }
  destruct (IH (global_hits m keys t)) as [Hn' Hk]; [by apply set_union_nodup|].
  split; [done|]. intros k. rewrite Hk. unfold global_hits. rewrite set_union_elem.
  setoid_rewrite elem_of_cons. naive_solver.
Qed.

Lemma omap_get_keys (m l : list (jsstr * subscription)) :
  (forall kv, kv ∈ l -> jm_get m kv.1 = Some kv.2) -> omap (jm_get m) l.*1 = l.*2.
Proof.
  induction l as [|kv l IH]; intros Hl; csimpl; [done|].
  rewrite (Hl kv) by left. f_equal. apply IH. intros kv' Hin. apply Hl. by right.
Qed.

Lemma filter_values (P : subscription -> Prop) `{!forall s, Decision (P s)} (m : list (jsstr * subscription)) :
  (base.filter (fun ks => P ks.2) m).*2 = base.filter P m.*2.
Proof. induction m as [|ks m IH]; [done|]. rewrite fmap_cons, !filter_cons. case_decide; csimpl; by rewrite IH. Qed.

(** Subscriptions found by key are those on file that satisfy a test. *)
Lemma found_perm (m : list (jsstr * subscription)) keys (p : subscription -> bool) :
  NoDup (jm_keys m) -> NoDup keys ->
  (forall k, k ∈ keys <-> exists sub, jm_get m k = Some sub /\ p sub = true) ->
  omap (jm_get m) keys ≡ₚ base.filter (fun s => p s = true) (jm_values m).
Proof.
  intros Hm Hk Hin. set (l := base.filter (fun ks : jsstr * subscription => p ks.2 = true) m).
  assert (Hl : forall kv, kv ∈ l -> jm_get m kv.1 = Some kv.2).
  { intros [k s] [_ Hkv]%list_elem_of_filter. by apply jm_in_get. }
  assert (Hp : keys ≡ₚ l.*1).
  { apply NoDup_Permutation; [done| |].
    - eapply sublist_NoDup; [exact Hm|]. apply fmap_sublist, sublist_filter.
    - intros k. rewrite Hin, list_elem_of_fmap. split.
      + intros (s & Hs & Hps). exists (k, s). split; [done|]. apply list_elem_of_filter. split; [done|].
        by apply jm_get_Some_in.
      + intros ([k' s] & -> & Hks). exists s. split; [by apply (Hl (k', s))|]. by apply list_elem_of_filter in Hks as [? _]. }
  rewrite Hp, (omap_get_keys m l Hl). unfold l, jm_values.
  pose proof (filter_values (fun s => p s = true) m) as Hv. cbv beta in Hv. by rewrite <- Hv.
Qed.

Lemma findAffected_ok m wrs wts ws :
  sm_ok m -> traverse deserializeKeyRange wrs = Ok ws ->
  exists out, findAffectedByRanges m wrs wts = Ok out /\
    out ≡ₚ base.filter (fun s => affected ws wts s = true) (jm_values (sm_byKey m)).
Proof.
  intros [Hn Hk Hi Hg Hl] Ht. destruct (ri_matches_spec _ _ wrs wts ws Hi Ht) as (keys & He & Hnk & Hin).
  unfold findAffectedByRanges. rewrite He. cbn. eexists. split; [done|].
  destruct (global_hits_spec m wts keys Hnk) as [Hn' Hin']. apply found_perm; [done|done|].
  intros k. rewrite Hin', Hin. setoid_rewrite Hg. setoid_rewrite affected_spec. unfold reads_of.
  destruct (jm_get (sm_byKey m) k) as [s|]; cbn; [|naive_solver]. split.
  - intros [(? & [= <-] & ?)|(t & ? & s' & [= <-] & ? & ?)]; exists s; (split; [done|]); [by left|right; eauto].
  - intros (s' & [= <-] & [?|[? (t & ? & ?)]]); [left; eauto|right].
    exists t. split; [done|]. by exists s.
Qed.

(** * Reachable states *)

Inductive sm_op :=
  | SubAdd (sub : subscription)
  | SubRemove (sessionId : jsstr) (queryId : Z)
  | SubRemoveSession (sessionId : jsstr).

Definition sm_step (m : manager) (o : sm_op) : manager :=
  match o with
  | SubAdd sub => (sm_add m sub).1
  | SubRemove sid qid => sm_remove m sid qid
  | SubRemoveSession sid => removeSession m sid
  end.
Definition sm_run (ops : list sm_op) : manager := fold_left sm_step ops sm_empty.

Lemma remove_loop_ok p keys m :
  sm_ok m -> sm_ok (fold_left (fun m key => if p key : bool then removeKey m key else m) keys m).
Proof.
  revert m. induction keys as [|key keys IH]; intros m Hm; simpl; [done|].
  apply IH. destruct (p key); [by apply removeKey_ok|done].
Qed.

Lemma sm_step_ok m o : sm_ok m -> sm_ok (sm_step m o).
Proof.
  intros Hm. destruct o; cbn [sm_step]; [by apply sm_add_ok|by apply removeKey_ok|by apply remove_loop_ok].
Qed.

Lemma sm_run_ok ops : sm_ok (sm_run ops).
Proof.
  unfold sm_run. generalize sm_empty_ok. generalize sm_empty as m.
  induction ops as [|o ops IH]; intros m Hm; simpl; [done|]. by apply IH, sm_step_ok.
Qed.

(** C33: after any sequence of registrations, removals and session removals the
    indexed matching finds exactly the subscriptions the retired linear scan
    finds, each once: those with a read range overlapping a written range,
    those without ranges that read a written table, and those that read a
    written global table. *)
Theorem findAffected_linear_scan ops wrs wts ws :
  traverse deserializeKeyRange wrs = Ok ws ->
  exists out, findAffectedByRanges (sm_run ops) wrs wts = Ok out /\
    out ≡ₚ base.filter (fun s => affected ws wts s = true) (jm_values (sm_byKey (sm_run ops))).
Proof. apply findAffected_ok, sm_run_ok. Qed.

(** * Sessions *)

Definition no_space (s : jsstr) : Prop := Forall (fun c => c <> space) s.

Lemma prefix_no_space s s' q :
  no_space s -> no_space s' -> starts_with (session_prefix s) (subKey s' q) = bool_decide (s' = s).
Proof.
  intros Hs Hs'. apply eq_true_iff_eq. rewrite starts_with_spec, bool_decide_eq_true. unfold session_prefix, subKey. split.
  - intros [t Ht]. rewrite <- (assoc_L (++)) in Ht. cbn [app] in Ht.
    pose proof (split_first_app space s' (js_string_of q) Hs') as H1.
    pose proof (split_first_app space s t Hs) as H2. rewrite Ht in H1. congruence.
  - intros ->. exists (js_string_of q). by rewrite <- (assoc_L (++)).
Qed.

Lemma remove_loop_get p keys m k :
  jm_get (sm_byKey (fold_left (fun m key => if p key : bool then removeKey m key else m) keys m)) k =
    if bool_decide (k ∈ keys) && p k then None else jm_get (sm_byKey m) k.
Proof.
  revert m. induction keys as [|key keys IH]; intros m; simpl; [done|]. rewrite IH.
  destruct (decide (k = key)) as [->|Hne].
  - rewrite (bool_decide_true (key ∈ key :: keys)) by left. cbn. destruct (p key); cbn.
    + rewrite removeKey_absent. by destruct (_ && _).
    + by rewrite andb_false_r.
  - rewrite (bool_decide_ext (k ∈ key :: keys) (k ∈ keys)) by set_solver.
    destruct (p key); [|done]. by rewrite removeKey_get, decide_False.
Qed.

(** Removing a session removes exactly its subscriptions, and the
    session's subscriptions are listed exactly: both go by the key's prefix,
    which identifies the session because session ids have no space. *)
Theorem session_prefix_exact ops sid k :
  (forall sub, sub ∈ jm_values (sm_byKey (sm_run ops)) -> no_space (sub_sessionId sub)) -> no_space sid ->
  let m := sm_run ops in
  jm_get (sm_byKey (removeSession m sid)) k =
    match jm_get (sm_byKey m) k with
    | Some sub => if bool_decide (sub_sessionId sub = sid) then None else Some sub
    | None => None
    end /\
  forSession m sid = base.filter (fun sub => sub_sessionId sub = sid) (jm_values (sm_byKey m)).
Proof.
  intros Hns Hs m. destruct (sm_run_ok ops) as [Hn Hk _ _ _]. fold m in Hn, Hk, Hns.
  assert (Hp : forall k sub, jm_get (sm_byKey m) k = Some sub ->
    starts_with (session_prefix sid) k = bool_decide (sub_sessionId sub = sid)).
  { intros k' sub Hg. rewrite (Hk _ _ Hg). apply prefix_no_space; [done|]. apply Hns.
    apply list_elem_of_fmap. exists (k', sub). split; [done|]. by apply jm_get_Some_in. }
  split.
  - unfold removeSession. rewrite remove_loop_get. destruct (jm_get (sm_byKey m) k) as [sub|] eqn:E.
    + rewrite (Hp _ _ E). rewrite bool_decide_true; [by destruct (bool_decide _)|].
      destruct (decide (k ∈ jm_keys (sm_byKey m))) as [|Hn']; [done|]. apply jm_get_None in Hn'. congruence.
    + by destruct (_ && _).
  - unfold forSession, jm_values. rewrite <- filter_values. f_equal. apply list_filter_iff_strong.
    intros [k' sub] Hin. cbn. rewrite (Hp k' sub) by by apply jm_in_get. by rewrite bool_decide_eq_true.
Qed.

(** The poller's view: a global table is listed exactly while a subscription
    reads it. *)
Theorem subscribedGlobalTables_exact ops t :
  t ∈ subscribedGlobalTables (sm_run ops) <->
  exists sub, sub ∈ jm_values (sm_byKey (sm_run ops)) /\ indexable sub = true /\ t ∈ sub_globalTables sub.
Proof.
  destruct (sm_run_ok ops) as [Hn Hk _ Hg Hl]. set (m := sm_run ops) in *. unfold subscribedGlobalTables.
  transitivity (exists k, k ∈ members (sm_byGlobalTable m) t).
  - unfold members. destruct (jm_get (sm_byGlobalTable m) t) as [s|] eqn:E; cbn.
    + pose proof (Hl _ _ E) as Hne. destruct s as [|k s]; [done|]. split; [intros _; exists k; left|intros _].
      destruct (decide (t ∈ jm_keys (sm_byGlobalTable m))) as [|Hn']; [done|]. apply jm_get_None in Hn'. congruence.
    + apply jm_get_None in E. split; [done|]. by intros [k ?%not_elem_of_nil].
  - setoid_rewrite Hg. split.
    + intros (k & sub & Hs & ? & ?). exists sub. split; [|done]. apply list_elem_of_fmap.
      exists (k, sub). split; [done|]. by apply jm_get_Some_in.
    + intros (sub & Hs & ? & ?). apply list_elem_of_fmap in Hs as ([k sub'] & -> & Hs). exists k, sub'.
      split; [by apply jm_in_get|done].
Qed.

(** * A concrete run *)

Definition sample_range (lo hi : Z) : serialized_range :=
  serializeKeyRange (KeyRange (js "table:1") [lo] (Some [hi])).
Definition sample_sub (sid : jsstr) (qid : Z) (rr : list serialized_range) (globals : list jsstr) : subscription :=
  Subscription sid qid (js "messages:list") JNull [js "1"] rr globals None None None.
Definition sample_ops : list sm_op :=
  [SubAdd (sample_sub (js "s1") 1 [sample_range 1 5] []);
   SubAdd (sample_sub (js "s1") 2 [] []);
   SubAdd (sample_sub (js "s2") 1 [sample_range 7 9] [js "g"]);
   SubAdd (sample_sub (js "s3") 1 [sample_range 7 9] []);
   SubRemoveSession (js "s3")].

Lemma findAffected_linear_scan_witness :
  (exists out, findAffectedByRanges (sm_run sample_ops) [sample_range 4 6] [js "1"; js "g"] = Ok out /\
    out ≡ₚ base.filter (fun s => affected [KeyRange (js "table:1") [4] (Some [6])] [js "1"; js "g"] s = true)
             (jm_values (sm_byKey (sm_run sample_ops)))) /\
  findAffectedByRanges (sm_run sample_ops) [sample_range 4 6] [js "1"; js "g"] =
    Ok [sample_sub (js "s1") 1 [sample_range 1 5] []; sample_sub (js "s1") 2 [] [];
        sample_sub (js "s2") 1 [sample_range 7 9] [js "g"]].
Proof.
  split; [|vm_compute; reflexivity].
  exact (findAffected_linear_scan sample_ops [sample_range 4 6] [js "1"; js "g"]
           [KeyRange (js "table:1") [4] (Some [6])] eq_refl).
Defined.

Lemma session_prefix_exact_witness :
  let m := sm_run sample_ops in
  jm_get (sm_byKey (removeSession m (js "s1"))) (js "s1 1") =
    match jm_get (sm_byKey m) (js "s1 1") with
    | Some sub => if bool_decide (sub_sessionId sub = js "s1") then None else Some sub
    | None => None
    end /\
  forSession m (js "s1") = base.filter (fun sub => sub_sessionId sub = js "s1") (jm_values (sm_byKey m)).
Proof.
  apply (session_prefix_exact sample_ops (js "s1") (js "s1 1")).
  - intros sub Hin. assert (Hall : Forall (fun s => no_space (sub_sessionId s)) (jm_values (sm_byKey (sm_run sample_ops)))).
    { unfold no_space. repeat constructor; discriminate. }
    by rewrite Forall_forall in Hall; apply Hall.
  - unfold no_space. repeat constructor; discriminate.
Defined.
