(* ===== verification/ResumeRegistry.v ===== *)
(** The resume registry: through which commit is a live query's last answer
    known to be current?  packages/sync/src/resume-registry.ts. *)
From Stdlib Require Import ZArith Lia.
From stdpp Require Import base list sets strings.
From S2P Require Import Prelude JsBase KeyRanges IntervalIndex ValuesJson RowDiff ReadIndex.

Definition TTL_MS : Z := 60000.

Definition regKey `{JsHost} (identity : option jsstr) (path : jsstr) (argsJson : json) : jsstr :=
  default [] identity ++ [32] ++ path ++ [32] ++ JSON_stringify argsJson.

Record resume_entry := ResumeEntry
  { re_readRanges : list serialized_range; re_tables : list jsstr; re_globalTables : list jsstr;
    re_lastInvalidatedTs : Z; re_wasDiffable : bool; re_refCount : Z; re_expiresAtMs : option Z }.

Record registry := Registry { rg_entries : list (jsstr * resume_entry); rg_index : read_index }.
Definition rg_empty : registry := Registry [] ri_empty.

(** * Operations *)

Definition unindex (g : registry) (key : jsstr) : read_index :=
  match jm_get (rg_entries g) key with
  | None => rg_index g
  | Some existing => ri_remove (rg_index g) key (re_tables existing)
  end.

(** A read range that does not decode throws after the entry is stored. *)
Definition upsert (g : registry) (key : jsstr) (readRanges : list serialized_range) (tables : list jsstr)
    (atTs : Z) (wasDiffable : bool) (globalTables : list jsstr) : registry * res unit :=
  let existing := jm_get (rg_entries g) key in
  let lastInvalidatedTs :=
    Z.max (match existing with Some e => re_lastInvalidatedTs e | None => atTs end) atTs in
  let refCount := match existing with Some e => re_refCount e | None => 0 end in
  let index := unindex g key in
  let entries := jm_set (rg_entries g) key
    (ResumeEntry readRanges tables globalTables lastInvalidatedTs wasDiffable refCount None) in
  let '(index, r) := ri_add index key readRanges tables in
  (Registry entries index, r).

Definition with_ts (e : resume_entry) (ts : Z) : resume_entry :=
  ResumeEntry (re_readRanges e) (re_tables e) (re_globalTables e) ts (re_wasDiffable e) (re_refCount e)
    (re_expiresAtMs e).
Definition with_refs (e : resume_entry) (refCount : Z) (expiresAtMs : option Z) : resume_entry :=
  ResumeEntry (re_readRanges e) (re_tables e) (re_globalTables e) (re_lastInvalidatedTs e) (re_wasDiffable e)
    refCount expiresAtMs.

Definition update_entry (f : resume_entry -> resume_entry) (es : list (jsstr * resume_entry)) (key : jsstr)
    : list (jsstr * resume_entry) :=
  match jm_get es key with None => es | Some e => jm_set es key (f e) end.

Definition advanceOnCommit (g : registry) (writtenRanges : list serialized_range) (writtenTables : list jsstr)
    (commitTs : Z) : res registry :=
  keys ← ri_matches (rg_index g) writtenRanges writtenTables;
  Ok (Registry
    (fold_left (update_entry (fun e => with_ts e (Z.max (re_lastInvalidatedTs e) commitTs))) keys (rg_entries g))
    (rg_index g)).

Definition rg_lookup (g : registry) (key : jsstr) : option resume_entry := jm_get (rg_entries g) key.

Definition retain (g : registry) (key : jsstr) : registry :=
  Registry (update_entry (fun e => with_refs e (re_refCount e + 1) None) (rg_entries g) key) (rg_index g).

Definition release (g : registry) (key : jsstr) (nowMs : Z) : registry :=
  Registry
    (update_entry (fun e =>
       let refCount := re_refCount e - 1 in
       with_refs e refCount (if refCount <=? 0 then Some (nowMs + TTL_MS) else re_expiresAtMs e)) (rg_entries g) key)
    (rg_index g).

Definition expired (nowMs : Z) (e : resume_entry) : bool :=
  (re_refCount e <=? 0) && match re_expiresAtMs e with Some x => x <=? nowMs | None => false end.

Definition sweep_entry (nowMs : Z) (g : registry) (ke : jsstr * resume_entry) : registry :=
  if expired nowMs ke.2 then Registry (jm_delete (rg_entries g) ke.1) (unindex g ke.1) else g.
Definition sweep (g : registry) (nowMs : Z) : registry := fold_left (sweep_entry nowMs) (rg_entries g) g.

(** * The invariant *)

Definition re_reads (e : resume_entry) : read_set := (re_readRanges e, re_tables e).
Definition entry_reads (es : list (jsstr * resume_entry)) : jsstr -> option read_set :=
  fun k => re_reads <$> jm_get es k.

Record rg_ok (g : registry) : Prop := {
  rg_nodup : NoDup (jm_keys (rg_entries g));
  rg_index_ok : index_ok (rg_index g) (entry_reads (rg_entries g)) }.

Lemma rg_empty_ok : rg_ok rg_empty.
Proof. split; [constructor|apply empty_ok]. Qed.

Lemma unindex_ok g key : rg_ok g -> index_ok (unindex g key) (upd (entry_reads (rg_entries g)) key None).
Proof.
  intros [Hn Hi]. unfold unindex. destruct (jm_get (rg_entries g) key) as [e|] eqn:E.
  - eapply ri_remove_ok; [done|]. unfold entry_reads. by rewrite E.
  - eapply index_ok_ext; [|exact Hi]. intros k. unfold upd, entry_reads. case_decide; [subst; by rewrite E|done].
Qed.

Lemma update_entry_get f es key k :
  jm_get (update_entry f es key) k = if decide (k = key) then f <$> jm_get es k else jm_get es k.
Proof.
  unfold update_entry. destruct (jm_get es key) as [e|] eqn:E; [rewrite jm_get_set|]; case_decide; subst; by rewrite ?E.
Qed.

(** Changing an entry but not its read set keeps the index valid. *)
Lemma update_entry_ok f es ix key :
  (forall e, re_reads (f e) = re_reads e) -> rg_ok (Registry es ix) -> rg_ok (Registry (update_entry f es key) ix).
Proof.
  intros Hf [Hn Hi]. split; cbn in *.
  - unfold update_entry. destruct (jm_get es key); [by apply jm_nodup_set|done].
  - eapply index_ok_ext; [|exact Hi]. intros k. unfold entry_reads. rewrite update_entry_get.
    case_decide; [|done]. destruct (jm_get es k); cbn; by rewrite ?Hf.
Qed.

Lemma update_entries_ok f es ix keys :
  (forall e, re_reads (f e) = re_reads e) -> rg_ok (Registry es ix) ->
  rg_ok (Registry (fold_left (update_entry f) keys es) ix).
Proof.
  intros Hf. revert es. induction keys as [|key keys IH]; intros es Hg; [done|]. by apply IH, update_entry_ok.
Qed.

Lemma upsert_ok g key rr ts t wd gl : rg_ok g -> rg_ok (upsert g key rr ts t wd gl).1.
Proof.
  intros Hg. pose proof (unindex_ok g key Hg) as Hu. destruct Hg as [Hn Hi]. unfold upsert.
  pose proof (ri_add_ok (unindex g key) _ key rr ts Hu) as Ha. destruct (ri_add _ _ _ _) as [ix r]. cbn in Ha |- *.
  split; cbn [rg_entries rg_index]; [by apply jm_nodup_set|]. eapply index_ok_ext; [|apply Ha; unfold upd; by rewrite decide_True].
  intros k. unfold upd, entry_reads. rewrite jm_get_set. by case_decide.
Qed.

Lemma sweep_entry_ok now g ke : rg_ok g -> rg_ok (sweep_entry now g ke).
Proof.
  intros Hg. unfold sweep_entry. destruct (expired now ke.2); [|done]. split; cbn [rg_entries rg_index].
  - by apply jm_nodup_delete, Hg.
  - eapply index_ok_ext; [|by apply unindex_ok]. intros k. unfold upd, entry_reads. rewrite jm_get_delete. by case_decide.
Qed.

Lemma sweep_loop_ok now es g : rg_ok g -> rg_ok (fold_left (sweep_entry now) es g).
Proof. revert g. induction es as [|ke es IH]; intros g Hg; [done|]. by apply IH, sweep_entry_ok. Qed.

Lemma sweep_loop_get now es g k :
  jm_get (rg_entries (fold_left (sweep_entry now) es g)) k =
    if existsb (fun ke => bool_decide (ke.1 = k) && expired now ke.2) es then None else jm_get (rg_entries g) k.
Proof.
  revert g. induction es as [|ke es IH]; intros g; simpl; [done|]. rewrite IH.
  assert (Hs : jm_get (rg_entries (sweep_entry now g ke)) k =
    if bool_decide (ke.1 = k) && expired now ke.2 then None else jm_get (rg_entries g) k).
  { unfold sweep_entry. destruct (expired now ke.2); [|by rewrite andb_false_r]. cbn. rewrite jm_get_delete, andb_true_r.
    case_decide; case_bool_decide; naive_solver. }
  rewrite Hs. by destruct (_ && _), (existsb _ _).
Qed.

(** A sweep evicts exactly the entries without subscribers past their TTL. *)
Lemma sweep_get g now k :
  rg_ok g ->
  rg_lookup (sweep g now) k =
    match rg_lookup g k with Some e => if expired now e then None else Some e | None => None end.
Proof.
  intros [Hn _]. unfold rg_lookup, sweep. rewrite sweep_loop_get.
  destruct (jm_get (rg_entries g) k) as [e|] eqn:E; [|by destruct (existsb _ _)].
  replace (existsb _ _) with (expired now e); [done|]. symmetry. apply eq_true_iff_eq. rewrite existsb_elem. split.
  - intros ([k' e'] & Hin & [<-%bool_decide_eq_true He]%andb_true_iff). cbn in *.
    apply (jm_in_get _ _ _ Hn) in Hin. congruence.
  - intros He. exists (k, e). split; [by apply jm_get_Some_in|]. cbn. by rewrite bool_decide_true.
Qed.

(** * Reachable registries *)

Inductive rg_op :=
  | Upsert (key : jsstr) (readRanges : list serialized_range) (tables : list jsstr) (atTs : Z)
      (wasDiffable : bool) (globalTables : list jsstr)
  | Commit (writtenRanges : list serialized_range) (writtenTables : list jsstr) (commitTs : Z)
  | Retain (key : jsstr)
  | Release (key : jsstr) (nowMs : Z)
  | Sweep (nowMs : Z).

(** A commit whose ranges do not decode throws before any entry moves. *)
Definition rg_step (g : registry) (o : rg_op) : registry :=
  match o with
  | Upsert key rr ts t wd gl => (upsert g key rr ts t wd gl).1
  | Commit wrs wts t => match advanceOnCommit g wrs wts t with Ok g' => g' | Throw _ => g end
  | Retain key => retain g key
  | Release key now => release g key now
  | Sweep now => sweep g now
  end.
Definition rg_run (g : registry) (ops : list rg_op) : registry := fold_left rg_step ops g.

Lemma rg_step_ok g o : rg_ok g -> rg_ok (rg_step g o).
Proof.
  intros Hg. destruct o as [key rr ts t wd gl|wrs wts t|key|key now|now]; cbn [rg_step].
  - by apply upsert_ok.
  - unfold advanceOnCommit. destruct (ri_matches _ _ _); cbn; [|done]. apply update_entries_ok; [done|]. by destruct g.
  - apply update_entry_ok; [done|]. by destruct g.
  - apply update_entry_ok; [done|]. by destruct g.
  - by apply sweep_loop_ok.
Qed.

Lemma rg_run_ok g ops : rg_ok g -> rg_ok (rg_run g ops).
Proof. revert g. induction ops as [|o ops IH]; intros g Hg; [done|]. by apply IH, rg_step_ok. Qed.

(** * What a lookup promises *)

Lemma update_entries_get f keys es k :
  NoDup keys ->
  jm_get (fold_left (update_entry f) keys es) k = if decide (k ∈ keys) then f <$> jm_get es k else jm_get es k.
Proof.
  intros Hn. revert es. induction Hn as [|key keys Hk Hn IH]; intros es; [done|]. cbn [fold_left].
  rewrite IH, update_entry_get. destruct (decide (k = key)) as [->|Hne].
  - rewrite decide_False by done. destruct (decide (key ∈ key :: keys)); [done|set_solver].
  - destruct (decide (k ∈ keys)), (decide (k ∈ key :: keys)); (done || set_solver).
Qed.

Lemma range_hits_throw ri keys wrs e :
  traverse deserializeKeyRange wrs = Throw e -> is_ok (range_hits ri keys wrs) = false.
Proof.
  revert keys. induction wrs as [|w wrs IH]; intros keys; cbn; [done|].
  destruct (deserializeKeyRange w) as [r|]; cbn; [|done].
  destruct (traverse deserializeKeyRange wrs) as [ws|e'] eqn:E; cbn; [done|]. intros [= ->]. by apply IH.
Qed.

(** A commit's effect on an entry with read set [rs]. *)
Definition gap_ts (rs : read_set) (acc : Z) (o : rg_op) : Z :=
  match o with
  | Commit wrs wts t =>
      match traverse deserializeKeyRange wrs with
      | Ok ws => if touched ws wts rs then Z.max acc t else acc
      | Throw _ => acc
      end
  | _ => acc
  end.

Definition is_upsert (key : jsstr) (o : rg_op) : bool :=
  match o with Upsert k _ _ _ _ _ => bool_decide (k = key) | _ => false end.

Definition same_entry (e0 e : resume_entry) (t : Z) : Prop :=
  re_reads e = re_reads e0 /\ re_globalTables e = re_globalTables e0 /\ re_wasDiffable e = re_wasDiffable e0 /\
  re_lastInvalidatedTs e = t.

Lemma commit_get g wrs wts t key e0 :
  rg_ok g -> rg_lookup g key = Some e0 ->
  exists e, rg_lookup (rg_step g (Commit wrs wts t)) key = Some e /\
    same_entry e0 e (gap_ts (re_reads e0) (re_lastInvalidatedTs e0) (Commit wrs wts t)).
Proof.
  intros [Hn Hi] He. unfold rg_lookup in *. cbn [rg_step gap_ts]. unfold advanceOnCommit.
  destruct (traverse deserializeKeyRange wrs) as [ws|er] eqn:Et.
  - destruct (ri_matches_spec _ _ wrs wts ws Hi Et) as (keys & Hm & Hnk & Hin). rewrite Hm. cbn.
    rewrite update_entries_get, He by done. cbn. specialize (Hin key). unfold entry_reads in Hin. rewrite He in Hin.
    cbn in Hin. destruct (decide (key ∈ keys)) as [Hk|Hk].
    + apply Hin in Hk as (rs & [= <-] & Ht). eexists. split; [done|]. by rewrite Ht.
    + exists e0. split; [done|]. destruct (touched ws wts (re_reads e0)) eqn:Ht; [|done].
      destruct Hk. apply Hin. eauto.
  - assert (Hx : is_ok (ri_matches (rg_index g) wrs wts) = false).
    { unfold ri_matches. pose proof (range_hits_throw (rg_index g) [] wrs er Et). by destruct (range_hits _ _ _). }
    destruct (ri_matches _ _ _); [done|]. cbn. by exists e0.
Qed.

Lemma upsert_other g key rr ts t wd gl k :
  k <> key -> rg_lookup (upsert g key rr ts t wd gl).1 k = rg_lookup g k.
Proof.
  intros Hk. unfold rg_lookup, upsert. destruct (ri_add _ _ _ _) as [ix r]. cbn. by rewrite jm_get_set, decide_False.
Qed.

Lemma upsert_same g key rr ts t wd gl :
  rg_lookup (upsert g key rr ts t wd gl).1 key =
    Some (ResumeEntry rr ts gl
      (Z.max (match rg_lookup g key with Some e => re_lastInvalidatedTs e | None => t end) t) wd
      (match rg_lookup g key with Some e => re_refCount e | None => 0 end) None).
Proof.
  unfold rg_lookup, upsert. destruct (ri_add _ _ _ _) as [ix r]. cbn. by rewrite jm_get_set, decide_True.
Qed.

(** One step without an upsert of the key: the entry's read set stays, its
    timestamp follows the commit, or the entry is swept. *)
Lemma rg_step_entry g o key e0 :
  rg_ok g -> rg_lookup g key = Some e0 -> is_upsert key o = false ->
  rg_lookup (rg_step g o) key = None \/
  exists e, rg_lookup (rg_step g o) key = Some e /\
    same_entry e0 e (gap_ts (re_reads e0) (re_lastInvalidatedTs e0) o).
Proof.
  intros Hg He Hu. destruct o as [k rr ts t wd gl|wrs wts t|k|k now|now].
  - cbn in Hu. apply bool_decide_eq_false in Hu. right. exists e0. cbn [rg_step].
    by rewrite upsert_other by congruence.
  - right. by apply commit_get.
  - right. unfold rg_lookup in *. cbn. rewrite update_entry_get, He. case_decide; cbn; eauto.
    + by eexists. + by exists e0.
  - right. unfold rg_lookup in *. cbn. rewrite update_entry_get, He. case_decide; cbn; eauto.
    + by eexists. + by exists e0.
  - cbn [rg_step]. rewrite sweep_get, He by done. destruct (expired now e0); [by left|right]. by exists e0.
Qed.

Lemma rg_step_none g o key :
  rg_ok g -> rg_lookup g key = None -> is_upsert key o = false -> rg_lookup (rg_step g o) key = None.
Proof.
  intros Hg He Hu. destruct o as [k rr ts t wd gl|wrs wts t|k|k now|now]; cbn [rg_step].
  - cbn in Hu. apply bool_decide_eq_false in Hu. by rewrite upsert_other by congruence.
  - unfold advanceOnCommit. destruct (ri_matches (rg_index g) wrs wts) as [keys|] eqn:Em; cbn; [|done].
    unfold rg_lookup in *. cbn. clear Em. revert He. generalize (rg_entries g) as es.
    induction keys as [|k keys IH]; intros es He; [done|]. cbn. apply IH. rewrite update_entry_get, He. by case_decide.
  - unfold rg_lookup in *. cbn. rewrite update_entry_get, He. by case_decide.
  - unfold rg_lookup in *. cbn. rewrite update_entry_get, He. by case_decide.
  - by rewrite sweep_get, He.
Qed.

Lemma rg_run_none g ops key :
  rg_ok g -> rg_lookup g key = None -> Forall (fun o => is_upsert key o = false) ops -> rg_lookup (rg_run g ops) key = None.
Proof.
  intros Hg He Hu. revert g Hg He. induction Hu as [|o ops Ho _ IH]; intros g Hg He; [done|].
  apply IH; [by apply rg_step_ok|by apply rg_step_none].
Qed.

Lemma rg_run_entry g ops key e0 e :
  rg_ok g -> rg_lookup g key = Some e0 -> Forall (fun o => is_upsert key o = false) ops ->
  rg_lookup (rg_run g ops) key = Some e ->
  same_entry e0 e (fold_left (gap_ts (re_reads e0)) ops (re_lastInvalidatedTs e0)).
Proof.
  intros Hg He Hu. revert g e0 Hg He. induction Hu as [|o ops Ho Hu IH]; intros g e0 Hg He Hl.
  { unfold rg_run in Hl. cbn in Hl. rewrite He in Hl. by injection Hl as <-. }
  destruct (rg_step_entry g o key e0 Hg He Ho) as [Hn|(e1 & H1 & Hr & Hgl & Hd & Ht)].
  - unfold rg_run in Hl. cbn in Hl.
    pose proof (rg_run_none _ ops key (rg_step_ok g o Hg) Hn Hu) as Hx. unfold rg_run in Hx. congruence.
  - destruct (IH _ e1 (rg_step_ok g o Hg) H1 Hl) as (Hr' & Hgl' & Hd' & Ht'). unfold same_entry. cbn [fold_left].
    rewrite <- Ht, <- Hr. split_and!; congruence.
Qed.

Lemma gap_ts_ge rs ops acc : acc <= fold_left (gap_ts rs) ops acc.
Proof.
  revert acc. induction ops as [|o ops IH]; intros acc; cbn; [lia|]. etrans; [|apply IH].
  destruct o; cbn; try lia. destruct (traverse _ _); [|lia]. destruct (touched _ _ _); lia.
Qed.

Lemma gap_ts_commit rs ops acc wrs wts t ws :
  Commit wrs wts t ∈ ops -> traverse deserializeKeyRange wrs = Ok ws -> touched ws wts rs = true ->
  t <= fold_left (gap_ts rs) ops acc.
Proof.
  intros Hin Ht Htt. revert acc. induction ops as [|o ops IH]; intros acc; [by apply not_elem_of_nil in Hin|].
  apply elem_of_cons in Hin as [<-|Hin]; cbn; [|by apply IH].
  rewrite Ht, Htt. etrans; [|apply gap_ts_ge]. lia.
Qed.

(** C34: while an entry stays on file, whatever other queries, subscribers and
    sweeps do, its read set is the one of its last upsert and its timestamp is
    the maximum of the upsert's and of the commits since that touch the read
    set; so when a lookup's timestamp is at most the client's, no later commit
    since the upsert touched what the query read. *)
Theorem resume_gap_exact ops1 key rr ts atTs wd gl ops2 e :
  Forall (fun o => is_upsert key o = false) ops2 ->
  rg_lookup (rg_run rg_empty (ops1 ++ Upsert key rr ts atTs wd gl :: ops2)) key = Some e ->
  re_readRanges e = rr /\ re_tables e = ts /\
  re_lastInvalidatedTs e = fold_left (gap_ts (rr, ts)) ops2
    (Z.max (match rg_lookup (rg_run rg_empty ops1) key with
            | Some e => re_lastInvalidatedTs e | None => atTs end) atTs) /\
  (forall wrs wts t ws, Commit wrs wts t ∈ ops2 -> traverse deserializeKeyRange wrs = Ok ws ->
    re_lastInvalidatedTs e < t -> touched ws wts (rr, ts) = false).
Proof.
  intros Hu Hl. unfold rg_run in Hl. rewrite fold_left_app in Hl. cbn [fold_left rg_step] in Hl.
  fold (rg_run rg_empty ops1) in Hl. pose proof (rg_run_ok rg_empty ops1 rg_empty_ok) as Hg.
  set (g := rg_run rg_empty ops1) in *. fold (rg_run (upsert g key rr ts atTs wd gl).1 ops2) in Hl.
  pose proof (rg_run_entry _ ops2 key _ e (upsert_ok g key rr ts atTs wd gl Hg)
                (upsert_same g key rr ts atTs wd gl) Hu Hl) as (Hr & _ & _ & Ht).
  unfold re_reads in Hr, Ht. cbn in Hr, Ht. injection Hr as Hr1 Hr2. split_and!; [done|done|done|].
  intros wrs wts t ws Hin Hd Hlt. destruct (touched ws wts (rr, ts)) eqn:E; [|done]. exfalso.
  pose proof (gap_ts_commit (rr, ts) ops2 (Z.max (match rg_lookup g key with
    | Some e => re_lastInvalidatedTs e | None => atTs end) atTs) wrs wts t ws Hin Hd E). lia.
Qed.

Definition sample_read : list serialized_range := [serializeKeyRange (KeyRange (js "index:1:by_a") [1] (Some [5]))].
Definition sample_write (k : Z) : list serialized_range :=
  [serializeKeyRange (KeyRange (js "index:1:by_a") [k] (Some [k; 0]))].

Lemma resume_gap_exact_witness :
  let ops1 := [Upsert (js "q") sample_read [js "1"] 3 false []] in
  let ops2 := [Retain (js "q"); Commit (sample_write 2) [js "1"] 7; Release (js "q") 0;
               Commit (sample_write 9) [js "1"] 8; Sweep 59999] in
  let e := ResumeEntry sample_read [js "1"] [] 7 false 0 (Some 60000) in
  re_readRanges e = sample_read /\ re_tables e = [js "1"] /\ 7 = 7 /\
  touched [KeyRange (js "index:1:by_a") [9] (Some [9; 0])] [js "1"] (sample_read, [js "1"]) = false.
Proof.
  intros ops1 ops2 e.
  destruct (resume_gap_exact ops1 (js "q") sample_read [js "1"] 4 false [] ops2 e) as (H1 & H2 & H3 & H4).
  - repeat constructor.
  - vm_compute. reflexivity.
  - split_and!; [exact H1|exact H2|reflexivity|].
    apply (H4 (sample_write 9) [js "1"] 8).
    + do 3 right. left.
    + vm_compute. reflexivity.
    + vm_compute. reflexivity.
Defined.
