(* ===== verification/SessionControllers.v ===== *)
(** Per-session flow control: the backpressure controller every frame goes
    through and the heartbeat that reaps dead connections:
    packages/sync/src/session-controllers.ts. *)
From Stdlib Require Import ZArith Lia.
From stdpp Require Import base list strings.
From S2P Require Import Prelude JsBase.

(** * Backpressure *)

(** The socket and the clock: [bufferedAmount], [send] and [now]. *)
Class SocketEnv (E : Type) := {
  bufferedAmount : E -> Z;
  env_send : E -> jsstr -> E;
  env_now : E -> Z * E }.

Record bp_options := BpOptions
  { highWaterBytes : Z; maxQueuedFrames : Z; slowClientTimeoutMs : Z; maxUndroppableQueuedFrames : Z }.

Definition DEFAULT_HIGH_WATER : Z := 1024 * 1024.
Definition DEFAULT_MAX_QUEUED : Z := 200.
Definition DEFAULT_SLOW_CLIENT_MS : Z := 30000.

(** [opts.x ?? default]; the undroppable cap defaults to the effective frame
    cap. *)
Definition bp_defaults (high queued slow undroppable : option Z) : bp_options :=
  let q := default DEFAULT_MAX_QUEUED queued in
  BpOptions (default DEFAULT_HIGH_WATER high) q (default DEFAULT_SLOW_CLIENT_MS slow) (default q undroppable).

Record frame := Frame { fr_data : jsstr; fr_undroppable : bool }.
#[global] Instance frame_eq_dec : EqDecision frame.
Proof. solve_decision. Defined.

Record bp := Bp
  { bp_queue : list frame; bp_droppedFrames : Z; bp_undroppableCount : Z; bp_overflowed : bool;
    bp_since : option Z; bp_droppedThisEpisode : bool }.
Definition bp_new : bp := Bp [] 0 0 false None false.

(** What an operation does outside: a frame sent, the per-episode warning, the
    overflow warning and callback. *)
Inductive bp_output := OSend (f : frame) | OWarnDrop (total : Z) | OWarnOverflow | OOverflow.

Definition is_undroppable (f : frame) : Prop := fr_undroppable f = true.

Definition markEpisodeDropped (c : bp) : bp * list bp_output :=
  if bp_droppedThisEpisode c then (c, [])
  else (Bp (bp_queue c) (bp_droppedFrames c) (bp_undroppableCount c) (bp_overflowed c) (bp_since c) true,
        [OWarnDrop (bp_droppedFrames c)]).

Definition dropQueue (c : bp) : bp * list bp_output :=
  let survivors := base.filter is_undroppable (bp_queue c) in
  let droppedCount := Z.of_nat (length (bp_queue c)) - Z.of_nat (length survivors) in
  if droppedCount =? 0 then (c, [])
  else markEpisodeDropped (Bp survivors (bp_droppedFrames c + droppedCount) (bp_undroppableCount c)
                             (bp_overflowed c) (bp_since c) (bp_droppedThisEpisode c)).

Definition countDrop (c : bp) : bp * list bp_output :=
  markEpisodeDropped (Bp (bp_queue c) (bp_droppedFrames c + 1) (bp_undroppableCount c)
                        (bp_overflowed c) (bp_since c) (bp_droppedThisEpisode c)).

Definition overflow (c : bp) : bp * list bp_output :=
  if bp_overflowed c then (c, [])
  else (Bp (bp_queue c) (bp_droppedFrames c) (bp_undroppableCount c) true (bp_since c) (bp_droppedThisEpisode c),
        [OWarnOverflow; OOverflow]).

Definition with_since (c : bp) (s : option Z) : bp :=
  Bp (bp_queue c) (bp_droppedFrames c) (bp_undroppableCount c) (bp_overflowed c) s (bp_droppedThisEpisode c).

Section backpressure.
Context {E : Type} `{SocketEnv E} (opts : bp_options).

Definition has_room (e : E) : bool := bufferedAmount e <? highWaterBytes opts.

(** The loop of [flush]: queue and count left, the socket, the frames sent. *)
Fixpoint drain (queue : list frame) (count : Z) (e : E) : list frame * Z * E * list bp_output :=
  match queue with
  | [] => ([], count, e, [])
  | f :: rest =>
      if has_room e then
        let '(q, n, e', out) := drain rest (if fr_undroppable f then count - 1 else count) (env_send e (fr_data f)) in
        (q, n, e', OSend f :: out)
      else (queue, count, e, [])
  end.

(** [if (this.backpressureSince === null) this.backpressureSince = this.now()]. *)
Definition start_episode (c : bp) (e : E) : bp * E :=
  match bp_since c with
  | Some _ => (c, e)
  | None => let '(t, e') := env_now e in (with_since c (Some t), e')
  end.
(** [this.now() - this.backpressureSince >= this.slowClientTimeoutMs]. *)
Definition too_slow (c : bp) (e : E) : bool * E :=
  let '(t, e') := env_now e in (slowClientTimeoutMs opts <=? t - default 0 (bp_since c), e').

Definition bp_flush (c : bp) (e : E) : bp * E * list bp_output :=
  let '(q, n, e, out) := drain (bp_queue c) (bp_undroppableCount c) e in
  let c := Bp q (bp_droppedFrames c) n (bp_overflowed c) (bp_since c) (bp_droppedThisEpisode c) in
  match q with
  | [] =>
      if has_room e then
        (Bp q (bp_droppedFrames c) n (bp_overflowed c) None false, e, out)
      else let '(c, e) := start_episode c e in (c, e, out)
  | _ :: _ =>
      let '(c, e) := start_episode c e in
      let '(slow, e) := too_slow c e in
      if slow then let '(c, w) := dropQueue c in (c, e, out ++ w) else (c, e, out)
  end.

Definition push (c : bp) (f : frame) : bp :=
  Bp (bp_queue c ++ [f]) (bp_droppedFrames c)
     (if fr_undroppable f then bp_undroppableCount c + 1 else bp_undroppableCount c)
     (bp_overflowed c) (bp_since c) (bp_droppedThisEpisode c).

Definition no_queue (c : bp) : bool := match bp_queue c with [] => true | _ :: _ => false end.

(** [send] past its flush and fast path. *)
Definition enqueue (c : bp) (f : frame) (e : E) : bp * E * list bp_output :=
  if fr_undroppable f then
    if maxUndroppableQueuedFrames opts <=? bp_undroppableCount c
    then let '(c, w) := overflow c in (c, e, w)
    else (push c f, e, [])
  else
    let '(c, e) := start_episode c e in
    let '(slow, e) := too_slow c e in
    if slow then
      let '(c, w1) := dropQueue c in let '(c, w2) := countDrop c in (c, e, w1 ++ w2)
    else if maxQueuedFrames opts <=? Z.of_nat (length (bp_queue c))
    then let '(c, w) := countDrop c in (c, e, w)
    else (push c f, e, []).

Definition bp_send (c : bp) (f : frame) (e : E) : bp * E * list bp_output :=
  let '(c, e, out) := bp_flush c e in
  if no_queue c && has_room e then (c, env_send e (fr_data f), out ++ [OSend f])
  else let '(c, e, w) := enqueue c f e in (c, e, out ++ w).

(** * Runs *)

(** A frame handed in, a sweep, or anything the peer and the clock do in
    between. *)
Inductive bp_op := BSend (f : frame) | BFlush | BEnv (g : E -> E).

Definition bp_step (s : bp * E) (o : bp_op) : bp * E * list bp_output :=
  match o with
  | BSend f => bp_send s.1 f s.2
  | BFlush => bp_flush s.1 s.2
  | BEnv g => (s.1, g s.2, [])
  end.

Fixpoint bp_run (s : bp * E) (ops : list bp_op) : bp * E * list bp_output :=
  match ops with
  | [] => (s, [])
  | o :: ops' => let '(s', out) := bp_step s o in let '(s'', out') := bp_run s' ops' in (s'', out ++ out')
  end.

Definition submitted (ops : list bp_op) : list frame :=
  omap (fun o => match o with BSend f => Some f | _ => None end) ops.
Definition sent (out : list bp_output) : list frame :=
  omap (fun o => match o with OSend f => Some f | _ => None end) out.
Fixpoint overflows (out : list bp_output) : nat :=
  match out with [] => 0 | OOverflow :: out' => S (overflows out') | _ :: out' => overflows out' end.
End backpressure.

(** * No response is lost *)

Definition undroppables (fs : list frame) : list frame := base.filter is_undroppable fs.

Lemma undroppables_app a b : undroppables (a ++ b) = undroppables a ++ undroppables b.
Proof. apply filter_app. Qed.

Lemma undroppables_idem fs : undroppables (undroppables fs) = undroppables fs.
Proof. apply filter_all, Forall_forall. by intros f [? _]%list_elem_of_filter. Qed.

Lemma undroppables_one f : undroppables [f] = if fr_undroppable f then [f] else [].
Proof. unfold undroppables, is_undroppable. rewrite filter_cons. by destruct f as [d []]. Qed.

Lemma sent_app a b : sent (a ++ b) = sent a ++ sent b.
Proof. unfold sent. apply omap_app. Qed.

Lemma overflows_app a b : overflows (a ++ b) = (overflows a + overflows b)%nat.
Proof. induction a as [|[] a IH]; cbn; by rewrite ?IH. Qed.

(** What the controller has done with the frames handed in ([B]), having sent
    [S] and called [onOverflow] [k] times. *)
Record bp_inv (opts : bp_options) (B S : list frame) (k : nat) (c : bp) : Prop := {
  bi_count : bp_undroppableCount c = Z.of_nat (length (undroppables (bp_queue c)));
  bi_cap : bp_undroppableCount c <= Z.max 0 (maxUndroppableQueuedFrames opts);
  bi_len : Z.of_nat (length (bp_queue c)) <=
           Z.max 0 (maxQueuedFrames opts) + Z.max 0 (maxUndroppableQueuedFrames opts);
  bi_droppable : Z.of_nat (length (bp_queue c)) - bp_undroppableCount c <= Z.max 0 (maxQueuedFrames opts);
  bi_order : S ++ bp_queue c `sublist_of` B;
  bi_kept : bp_overflowed c = false -> undroppables (S ++ bp_queue c) = undroppables B;
  bi_total : bp_overflowed c = false ->
    bp_droppedFrames c + Z.of_nat (length (S ++ bp_queue c)) = Z.of_nat (length B);
  bi_once : k = (if bp_overflowed c then 1 else 0)%nat }.

Lemma bp_new_inv opts : bp_inv opts [] [] 0 bp_new.
Proof. split; cbn; try done; lia. Qed.

Lemma undroppables_length fs : (length (undroppables fs) <= length fs)%nat.
Proof. apply length_filter. Qed.

(** The fields the invariant reads. *)
Definition bp_core (c : bp) := (bp_queue c, bp_droppedFrames c, bp_undroppableCount c, bp_overflowed c).

Lemma bp_inv_core opts B S k c c' : bp_core c = bp_core c' -> bp_inv opts B S k c -> bp_inv opts B S k c'.
Proof. unfold bp_core. intros [= H1 H2 H3 H4] []. split; by rewrite <- ?H1, <- ?H2, <- ?H3, <- ?H4. Qed.

(** Operations that touch neither the socket nor the overflow callback. *)
Definition quiet (w : list bp_output) : Prop := sent w = [] /\ overflows w = 0%nat.

Lemma mark_core c c' w : markEpisodeDropped c = (c', w) -> bp_core c' = bp_core c /\ quiet w.
Proof. unfold markEpisodeDropped. by destruct (bp_droppedThisEpisode c); intros [= <- <-]. Qed.

Lemma start_episode_core {E} `{SocketEnv E} c e c' e' : start_episode c e = (c', e') -> bp_core c' = bp_core c.
Proof. unfold start_episode. destruct (bp_since c); [by intros [= <- _]|]. destruct (env_now e). by intros [= <- _]. Qed.

Lemma dropQueue_core c c' w :
  dropQueue c = (c', w) ->
  bp_core c' = (undroppables (bp_queue c),
    bp_droppedFrames c + (Z.of_nat (length (bp_queue c)) - Z.of_nat (length (undroppables (bp_queue c)))),
    bp_undroppableCount c, bp_overflowed c) /\ quiet w.
Proof.
  unfold dropQueue. fold (undroppables (bp_queue c)). case_match eqn:E; zbool.
  - intros [= <- <-]. split; [|done]. unfold bp_core. repeat f_equal; [|lia]. symmetry.
    apply filter_all. assert (Hl : length (undroppables (bp_queue c)) = length (bp_queue c)) by lia.
    clear -Hl. induction (bp_queue c) as [|f q IH]; [constructor|]. unfold undroppables in *.
    rewrite filter_cons in Hl. case_decide; cbn in Hl; [constructor; [done|apply IH; lia]|].
    pose proof (length_filter is_undroppable q). lia.
  - intros Hm%mark_core. exact Hm.
Qed.

Lemma dropQueue_inv opts B S k c c' w :
  dropQueue c = (c', w) -> bp_inv opts B S k c -> bp_inv opts B S k c' /\ quiet w.
Proof.
  intros Hd [Hc Hcap Hl Hdr Ho Hk Ht H1]. apply dropQueue_core in Hd as [Hcore Hq]. split; [|done].
  pose proof (undroppables_length (bp_queue c)).
  apply (bp_inv_core _ _ _ _ (Bp (undroppables (bp_queue c))
    (bp_droppedFrames c + (Z.of_nat (length (bp_queue c)) - Z.of_nat (length (undroppables (bp_queue c)))))
    (bp_undroppableCount c) (bp_overflowed c) None false)); [by rewrite Hcore|].
  split; cbn [bp_queue bp_droppedFrames bp_undroppableCount bp_overflowed]; [|lia|lia|lia| | | |done].
  - by rewrite undroppables_idem.
  - etrans; [|exact Ho]. apply sublist_app; [done|apply sublist_filter].
  - intros Hov. rewrite undroppables_app, undroppables_idem, <- undroppables_app. auto.
  - intros Hov. specialize (Ht Hov). rewrite length_app in *. lia.
Qed.

Lemma countDrop_inv opts B S k c c' w f :
  countDrop c = (c', w) -> fr_undroppable f = false ->
  bp_inv opts B S k c -> bp_inv opts (B ++ [f]) S k c' /\ quiet w.
Proof.
  intros Hm Hf [Hc Hcap Hl Hdr Ho Hk Ht H1]. apply mark_core in Hm as [Hcore Hq]. split; [|done].
  eapply bp_inv_core; [symmetry; exact Hcore|].
  split; cbn [bp_queue bp_droppedFrames bp_undroppableCount bp_overflowed]; try done.
  - by apply sublist_inserts_r.
  - intros Hov. rewrite (undroppables_app B), undroppables_one, Hf, app_nil_r. auto.
  - intros Hov. specialize (Ht Hov). rewrite (length_app B). cbn. lia.
Qed.

Lemma push_inv opts B S k c f :
  bp_inv opts B S k c ->
  (if fr_undroppable f then bp_undroppableCount c < maxUndroppableQueuedFrames opts
   else Z.of_nat (length (bp_queue c)) < maxQueuedFrames opts) ->
  bp_inv opts (B ++ [f]) S k (push c f).
Proof.
  intros [Hc Hcap Hl Hdr Ho Hk Ht H1] Hroom. pose proof (undroppables_length (bp_queue c)).
  split; cbn [push bp_queue bp_droppedFrames bp_undroppableCount bp_overflowed].
  - rewrite undroppables_app, undroppables_one, length_app. destruct (fr_undroppable f); cbn; lia.
  - destruct (fr_undroppable f); lia.
  - rewrite length_app. cbn. destruct (fr_undroppable f); lia.
  - rewrite length_app. cbn. destruct (fr_undroppable f); lia.
  - rewrite (assoc_L (++)). by apply sublist_app.
  - intros Hov. rewrite (assoc_L (++)), !(undroppables_app _ [f]). by rewrite Hk.
  - intros Hov. specialize (Ht Hov). rewrite (assoc_L (++)), !(length_app _ [f]). lia.
  - done.
Qed.

Section steps.
Context {E : Type} `{SocketEnv E} (opts : bp_options).

Lemma drain_spec q n e q' n' e' out :
  drain opts q n e = (q', n', e', out) ->
  q = sent out ++ q' /\ n' = n - Z.of_nat (length (undroppables (sent out))) /\ overflows out = 0%nat.
Proof.
  revert n e q' n' e' out. induction q as [|f q IH]; intros n e q' n' e' out; cbn [drain].
  { intros [= <- <- <- <-]. cbn. split_and!; [done|lia|done]. }
  destruct (has_room opts e); [|intros [= <- <- <- <-]; cbn; split_and!; [done|lia|done]].
  destruct (drain _ q _ _) as [[[q1 n1] e1] o1] eqn:Ed. intros [= <- <- <- <-].
  apply IH in Ed as (-> & -> & Ho). change (sent (OSend f :: o1)) with ([f] ++ sent o1).
  rewrite undroppables_app, undroppables_one, length_app. split_and!; [done| |done].
  destruct (fr_undroppable f); cbn; lia.
Qed.

Lemma drain_inv B S k c e q n e' out s ep :
  bp_inv opts B S k c -> drain opts (bp_queue c) (bp_undroppableCount c) e = (q, n, e', out) ->
  bp_inv opts B (S ++ sent out) k (Bp q (bp_droppedFrames c) n (bp_overflowed c) s ep) /\ overflows out = 0%nat.
Proof.
  intros [Hc Hcap Hl Hdr Ho Hk Ht H1] Hd. apply drain_spec in Hd as (Hq & Hn & Hov). split; [|done].
  rewrite Hq in *. rewrite undroppables_app, length_app in Hc. rewrite length_app in Hl, Hdr.
  pose proof (undroppables_length (sent out)). rewrite !(assoc_L (++)) in *.
  split; cbn [bp_queue bp_droppedFrames bp_undroppableCount bp_overflowed]; try done; lia.
Qed.

Lemma bp_flush_inv B S k c e c' e' out :
  bp_inv opts B S k c -> bp_flush opts c e = (c', e', out) ->
  bp_inv opts B (S ++ sent out) k c' /\ overflows out = 0%nat.
Proof.
  intros Hi. unfold bp_flush. destruct (drain _ _ _ _) as [[[q n] e1] o1] eqn:Ed.
  destruct (drain_inv B S k c e q n e1 o1 (bp_since c) (bp_droppedThisEpisode c) Hi Ed) as [Hi' Ho].
  destruct (start_episode _ e1) as [c2 e2] eqn:Es. apply start_episode_core in Es.
  destruct q as [|f q].
  - destruct (has_room opts e1); intros [= <- <- <-]; split; try done; by eapply bp_inv_core; [|exact Hi'].
  - destruct (too_slow opts c2 e2) as [slow e3]. eapply bp_inv_core in Hi'; [|symmetry; exact Es].
    destruct slow; [|by intros [= <- <- <-]]. destruct (dropQueue c2) as [c3 w] eqn:Edq.
    intros [= <- <- <-]. destruct (dropQueue_inv _ _ _ _ _ _ _ Edq Hi') as [Hi'' [Hs Hw]].
    rewrite sent_app, overflows_app, Hs, Hw, app_nil_r, Ho. done.
Qed.

Lemma overflow_inv B S k c c' w f :
  overflow c = (c', w) -> bp_inv opts B S k c ->
  bp_inv opts (B ++ [f]) S (k + overflows w) c' /\ sent w = [].
Proof.
  unfold overflow. intros Hov [Hc Hcap Hl Hdr Ho Hk Ht H1].
  destruct (bp_overflowed c) eqn:Eo; injection Hov as <- <-; (split; [|done]);
    split; cbn [bp_queue bp_droppedFrames bp_undroppableCount bp_overflowed]; try done;
    rewrite ?Eo; try done; try (by apply sublist_inserts_r); by rewrite H1.
Qed.

Lemma enqueue_inv B S k c f e c' e' w :
  bp_inv opts B S k c -> enqueue opts c f e = (c', e', w) ->
  bp_inv opts (B ++ [f]) S (k + overflows w) c' /\ sent w = [].
Proof.
  intros Hi. unfold enqueue. destruct (fr_undroppable f) eqn:Ef.
  - destruct (Z.leb_spec (maxUndroppableQueuedFrames opts) (bp_undroppableCount c)).
    + destruct (overflow c) as [c1 w1] eqn:Eo. intros [= <- <- <-]. by eapply overflow_inv.
    + intros [= <- <- <-]. split; [|done]. rewrite Nat.add_0_r. apply push_inv; [done|]. by rewrite Ef.
  - destruct (start_episode c e) as [c1 e1] eqn:Es. apply start_episode_core in Es. symmetry in Es.
    eapply bp_inv_core in Hi; [|exact Es]. destruct (too_slow opts c1 e1) as [slow e2]. destruct slow.
    + destruct (dropQueue c1) as [c2 w1] eqn:Ed. destruct (countDrop c2) as [c3 w2] eqn:Ec. intros [= <- <- <-].
      destruct (dropQueue_inv _ _ _ _ _ _ _ Ed Hi) as [Hi2 [Hs1 Ho1]].
      destruct (countDrop_inv _ _ _ _ _ _ _ f Ec Ef Hi2) as [Hi3 [Hs2 Ho2]].
      rewrite overflows_app, Ho1, Ho2, sent_app, Hs1, Hs2, Nat.add_0_r. done.
    + destruct (Z.leb_spec (maxQueuedFrames opts) (Z.of_nat (length (bp_queue c1)))).
      * destruct (countDrop c1) as [c3 w2] eqn:Ec. intros [= <- <- <-].
        destruct (countDrop_inv _ _ _ _ _ _ _ f Ec Ef Hi) as [Hi3 [Hs2 Ho2]]. by rewrite Ho2, Nat.add_0_r.
      * intros [= <- <- <-]. split; [|done]. rewrite Nat.add_0_r. apply push_inv; [done|]. by rewrite Ef.
Qed.

Lemma fast_path_inv B S k c f :
  bp_inv opts B S k c -> bp_queue c = [] -> bp_inv opts (B ++ [f]) (S ++ [f]) k c.
Proof.
  intros [Hc Hcap Hl Hdr Ho Hk Ht H1] Hq. rewrite Hq, app_nil_r in *.
  split; rewrite ?Hq, ?app_nil_r; try done.
  - by apply sublist_app.
  - intros Hov. rewrite !undroppables_app. by rewrite Hk.
  - intros Hov. specialize (Ht Hov). rewrite !length_app. lia.
Qed.

Lemma bp_step_inv B S k c e o c' e' out :
  bp_inv opts B S k c -> bp_step opts (c, e) o = (c', e', out) ->
  bp_inv opts (B ++ submitted [o]) (S ++ sent out) (k + overflows out) c'.
Proof.
  intros Hi. destruct o as [f| |g]; cbn [bp_step fst snd].
  - unfold bp_send. destruct (bp_flush opts c e) as [[c1 e1] o1] eqn:Ef.
    destruct (bp_flush_inv _ _ _ _ _ _ _ _ Hi Ef) as [Hi1 Ho1].
    destruct (no_queue c1 && has_room opts e1) eqn:Er.
    + intros [= <- <- <-]. rewrite sent_app, overflows_app, Ho1, (assoc_L (++)), Nat.add_0_r. cbn.
      apply andb_true_iff in Er as [Er _]. apply fast_path_inv; [done|].
      unfold no_queue in Er. by destruct (bp_queue c1).
    + destruct (enqueue opts c1 f e1) as [[c2 e2] w] eqn:Ee. intros [= <- <- <-].
      destruct (enqueue_inv _ _ _ _ _ _ _ _ _ Hi1 Ee) as [Hi2 Hs].
      by rewrite sent_app, overflows_app, Hs, Ho1, app_nil_r.
  - intros Ef. destruct (bp_flush_inv _ _ _ _ _ _ _ _ Hi Ef) as [Hi1 Ho1].
    cbn. by rewrite app_nil_r, Ho1, Nat.add_0_r.
  - intros [= <- <- <-]. cbn. by rewrite !app_nil_r, Nat.add_0_r.
Qed.

Lemma bp_run_inv B S k s ops s' out :
  bp_inv opts B S k s.1 -> bp_run opts s ops = (s', out) ->
  bp_inv opts (B ++ submitted ops) (S ++ sent out) (k + overflows out) s'.1.
Proof.
  revert B S k s s' out. induction ops as [|o ops IH]; intros B S k s s' out Hi; cbn [bp_run].
  { intros [= <- <-]. cbn. by rewrite !app_nil_r, Nat.add_0_r. }
  destruct (bp_step opts s o) as [[c1 e1] o1] eqn:Es. destruct (bp_run opts (c1, e1) ops) as [s2 o2] eqn:Er.
  intros [= <- <-]. destruct s as [c e].
  pose proof (bp_step_inv _ _ _ _ _ _ _ _ _ Hi Es) as Hi1. pose proof (IH _ _ _ (c1, e1) _ _ Hi1 Er) as Hi2.
  change (submitted (o :: ops)) with (submitted ([o] ++ ops)). unfold submitted in *. rewrite omap_app.
  by rewrite sent_app, overflows_app, !(assoc_L (++)), Nat.add_assoc.
Qed.

(** C35: whatever the socket and the clock do, the frames sent and queued are
    those handed in, in order, less the dropped ones; every response is sent or
    still queued unless the session was terminated, and then exactly once;
    the dropped-frame counter is exact; and the queue stays within the two
    caps. *)
Theorem backpressure_safe e0 ops c e out :
  bp_run opts (bp_new, e0) ops = ((c, e), out) ->
  sent out ++ bp_queue c `sublist_of` submitted ops /\
  overflows out = (if bp_overflowed c then 1 else 0)%nat /\
  (bp_overflowed c = false ->
    undroppables (sent out ++ bp_queue c) = undroppables (submitted ops) /\
    bp_droppedFrames c + Z.of_nat (length (sent out ++ bp_queue c)) = Z.of_nat (length (submitted ops))) /\
  Z.of_nat (length (bp_queue c)) <=
    Z.max 0 (maxQueuedFrames opts) + Z.max 0 (maxUndroppableQueuedFrames opts) /\
  Z.of_nat (length (undroppables (bp_queue c))) <= Z.max 0 (maxUndroppableQueuedFrames opts).
Proof.
  intros Hr. pose proof (bp_run_inv [] [] 0 (bp_new, e0) ops (c, e) out (bp_new_inv opts) Hr) as [].
  cbn in *. split_and!; [done|done|by split; auto|done|lia].
Qed.
End steps.

(** * The loopback, and the shared budget *)

Lemma bp_send_loopback {E} `{SocketEnv E} opts c e f c' e' out :
  (forall e : E, has_room opts e = true) -> bp_queue c = [] -> bp_droppedFrames c = 0 ->
  bp_send opts c f e = (c', e', out) ->
  bp_queue c' = [] /\ bp_droppedFrames c' = 0 /\ sent out = [f].
Proof.
  intros Hr Hq Hd. unfold bp_send, bp_flush. rewrite Hq. cbn [drain]. rewrite Hr. cbn.
  unfold no_queue. cbn. rewrite Hr. intros [= <- <- <-]. done.
Qed.

(** A socket whose buffer never fills (the loopback) gets every frame at
    once and in order; nothing is queued and nothing is dropped. *)
Theorem backpressure_loopback {E} `{SocketEnv E} opts e0 ops c e out :
  (forall e : E, has_room opts e = true) ->
  bp_run opts (bp_new, e0) ops = ((c, e), out) ->
  sent out = submitted ops /\ bp_queue c = [] /\ bp_droppedFrames c = 0.
Proof.
  intros Hr. assert (Hgen : forall c0 (e0 : E), bp_queue c0 = [] -> bp_droppedFrames c0 = 0 ->
    forall c e out, bp_run opts (c0, e0) ops = ((c, e), out) ->
    sent out = submitted ops /\ bp_queue c = [] /\ bp_droppedFrames c = 0); [|by apply Hgen].
  induction ops as [|o ops IH]; intros c0 e1 Hq Hd c1 e2 o1; cbn [bp_run].
  { intros [= <- <- <-]. done. }
  destruct (bp_step opts (c0, e1) o) as [[c2 e3] o2] eqn:Es.
  destruct (bp_run opts (c2, e3) ops) as [[c3 e4] o3] eqn:Er. intros [= <- <- <-].
  assert (Hs : bp_queue c2 = [] /\ bp_droppedFrames c2 = 0 /\ sent o2 = submitted [o]).
  { destruct o as [f| |g]; cbn [bp_step fst snd] in Es.
    - by apply (bp_send_loopback opts c0 e1 f c2 e3 o2 Hr Hq Hd).
    - unfold bp_flush in Es. rewrite Hq in Es. cbn [drain] in Es. rewrite Hr in Es. by injection Es as <- <- <-.
    - by injection Es as <- <- <-. }
  destruct Hs as (Hq2 & Hd2 & Hs). destruct (IH c2 e3 Hq2 Hd2 _ _ _ Er) as (H1 & H2 & H3).
  change (submitted (o :: ops)) with (submitted ([o] ++ ops)). unfold submitted in *.
  by rewrite omap_app, sent_app, Hs, H1.
Qed.

(** A socket that buffers what it is sent, and a clock. *)
#[export] Instance sample_env : SocketEnv (Z * Z) := {
  bufferedAmount e := e.1;
  env_send e d := (e.1 + Z.of_nat (length d), e.2);
  env_now e := (e.2, e) }.

(** The two caps share the queue: a queued response takes the only slot of
    a cap of one frame, and a transition is dropped although no transition is
    queued. *)
Theorem droppable_budget_shared :
  let opts := bp_defaults None (Some 1) None None in
  let response := Frame (js "r") true in let transition := Frame (js "t") false in
  exists c e out, bp_run opts (bp_new, (2 ^ 20, 0)) [BSend response; BSend transition] = ((c, e), out) /\
    bp_queue c = [response] /\ bp_droppedFrames c = 1 /\ bp_overflowed c = false.
Proof. cbv zeta. do 3 eexists. split; [vm_compute; reflexivity|]. done. Qed.

Lemma backpressure_safe_witness :
  let opts := bp_defaults (Some 2) (Some 1) (Some 10) (Some 1) in
  let ops := [BSend (Frame (js "ab") false); BSend (Frame (js "c") true); BSend (Frame (js "d") false);
              BEnv (fun e => (e.1 - 2, e.2 + 5)); BFlush; BSend (Frame (js "e") true);
              BSend (Frame (js "f") true)] in
  let r := bp_run opts (bp_new, (0, 0)) ops in
  sent r.2 ++ bp_queue r.1.1 `sublist_of` submitted ops /\ overflows r.2 = 0%nat /\
  undroppables (sent r.2 ++ bp_queue r.1.1) = undroppables (submitted ops).
Proof.
  intros opts ops r.
  destruct (backpressure_safe opts (0, 0) ops r.1.1 r.1.2 r.2) as (H1 & H2 & H3 & _); [vm_compute; reflexivity|].
  split; [exact H1|]. split; [exact H2|]. apply H3. vm_compute. reflexivity.
Defined.

#[export] Instance loopback_env : SocketEnv unit := {
  bufferedAmount e := 0; env_send e d := e; env_now e := (0, e) }.

Lemma backpressure_loopback_witness :
  let opts := bp_defaults None None None None in
  let ops := [BSend (Frame (js "a") false); BFlush; BSend (Frame (js "b") true)] in
  let r := bp_run opts (bp_new, tt) ops in
  sent r.2 = submitted ops /\ bp_queue r.1.1 = [] /\ bp_droppedFrames r.1.1 = 0.
Proof.
  intros opts ops r. apply (backpressure_loopback opts tt ops r.1.1 r.1.2 r.2).
  - intros []. reflexivity.
  - vm_compute. reflexivity.
Defined.

(** * Heartbeat *)

Record hb_options := HbOptions { pingIntervalMs : Z; missedPongLimit : Z }.
Definition hb_defaults (interval limit : option Z) : hb_options :=
  HbOptions (default 30000 interval) (default 2 limit).

(** [hb_timer]: the interval is set. *)
Record hb := Hb { hb_timer : bool; hb_missed : Z; hb_dead : bool }.
Definition hb_new : hb := Hb false 0 false.

Section heartbeat.
Variables (can_ping : bool) (opts : hb_options).

Definition hb_start (h : hb) : hb :=
  if negb can_ping then h else if hb_timer h then h else Hb true 0 false.
Definition hb_stop (h : hb) : hb := Hb false (hb_missed h) (hb_dead h).
Definition noteActivity (h : hb) : hb := Hb (hb_timer h) 0 (hb_dead h).

(** The state and how often [onDead] is called. *)
Definition fireDead (h : hb) : hb * nat :=
  if hb_dead h then (h, 0%nat) else (Hb false (hb_missed h) true, 1%nat).
Definition tick (h : hb) : hb * nat :=
  let h := Hb (hb_timer h) (hb_missed h + 1) (hb_dead h) in
  if missedPongLimit opts <=? hb_missed h then fireDead h else (h, 0%nat).

(** The interval fires only while it is set; the pong of a ping is an event of
    its own and has the effect of activity. *)
Inductive hb_op := HStart | HStop | HActivity | HPong | HTick.
Definition hb_step (h : hb) (o : hb_op) : hb * nat :=
  match o with
  | HStart => (hb_start h, 0%nat)
  | HStop => (hb_stop h, 0%nat)
  | HActivity | HPong => (noteActivity h, 0%nat)
  | HTick => if hb_timer h then tick h else (h, 0%nat)
  end.
Fixpoint hb_run (h : hb) (ops : list hb_op) : hb * nat :=
  match ops with
  | [] => (h, 0%nat)
  | o :: ops' => let '(h', n) := hb_step h o in let '(h'', n') := hb_run h' ops' in (h'', (n + n')%nat)
  end.

Definition live_event (o : hb_op) : Prop := o = HActivity \/ o = HPong \/ o = HTick.
Definition silent_run (ops : list hb_op) : Prop :=
  exists a b, ops = a ++ replicate (Z.to_nat (missedPongLimit opts)) HTick ++ b.

Lemma hb_dead_stays ops h :
  Forall live_event ops -> hb_dead h = true -> hb_timer h = false -> exists h', hb_run h ops = (h', 0%nat) /\ hb_dead h' = true.
Proof.
  intros Ho. revert h. induction Ho as [|o ops Ho _ IH]; intros h Hd Ht; [by exists h|].
  cbn [hb_run]. destruct Ho as [->|[->| ->]]; cbn [hb_step].
  - destruct (IH (noteActivity h) Hd Ht) as (h' & -> & ?). eauto.
  - destruct (IH (noteActivity h) Hd Ht) as (h' & -> & ?). eauto.
  - rewrite Ht. destruct (IH h Hd Ht) as (h' & -> & ?). eauto.
Qed.

Lemma replicate_prefix_cons n (x y : hb_op) l a b :
  x :: l = a ++ replicate n y ++ b -> x <> y -> (0 < n)%nat -> exists a', l = a' ++ replicate n y ++ b.
Proof.
  intros Hl Hne Hn. destruct a as [|z a]; [|injection Hl as -> ->; eauto]. destruct n; [lia|]. cbn in Hl. congruence.
Qed.

(** Alive and silent for [hb_missed] ticks, the session dies in the run
    exactly when the silence lasts, or starts afresh and lasts, long enough. *)
Lemma hb_run_spec ops h :
  0 < missedPongLimit opts -> Forall live_event ops ->
  hb_timer h = true -> hb_dead h = false -> 0 <= hb_missed h < missedPongLimit opts ->
  exists h' n, hb_run h ops = (h', n) /\ n = (if hb_dead h' then 1 else 0)%nat /\
    (hb_dead h' = true <-> silent_run (replicate (Z.to_nat (hb_missed h)) HTick ++ ops)).
Proof.
  intros Hl Ho. revert h. induction Ho as [|o ops Ho Hops IH]; intros h Ht Hd Hm.
  { exists h, 0%nat. rewrite Hd. split_and!; [done|done|]. split; [done|].
    intros (a & b & Hab). apply (f_equal length) in Hab. rewrite !length_app, !length_replicate in Hab. cbn in Hab. lia. }
  assert (Hcredit : live_event o -> o <> HTick ->
    silent_run (replicate (Z.to_nat (hb_missed h)) HTick ++ o :: ops) <-> silent_run ops).
  { intros _ Hne. split.
    - intros (a & b & Hab). remember (Z.to_nat (hb_missed h)) as m eqn:Em. assert (Hlt : (m < Z.to_nat (missedPongLimit opts))%nat) by lia.
      clear Em IH. revert a Hab. induction m as [|m IHm]; intros a Hab.
      + destruct (replicate_prefix_cons _ o HTick ops a b Hab Hne) as [a' ->]; [lia|]. by exists a', b.
      + destruct a as [|z a]; [|injection Hab as <- Hab; apply (IHm ltac:(lia) a Hab)].
        exfalso. assert (Hi : (replicate (S m) HTick ++ o :: ops) !! S m = Some o).
        { rewrite lookup_app_r by (rewrite length_replicate; lia). by rewrite length_replicate, Nat.sub_diag. }
        rewrite Hab in Hi. cbn [app] in Hi. rewrite lookup_app_l in Hi by (rewrite length_replicate; lia).
        apply lookup_replicate in Hi as [Hi _]. done.
    - intros (a & b & ->). exists (replicate (Z.to_nat (hb_missed h)) HTick ++ o :: a), b.
      by rewrite <- (assoc_L (++)). }
  cbn [hb_run]. destruct Ho as [Ho|[Ho|Ho]]; subst o; cbn [hb_step].
  1,2: destruct (IH (noteActivity h) Ht Hd) as (h' & n & -> & Hn & Hs); [cbn; lia|];
       exists h', n; split_and!; [done|done|]; rewrite Hs, Hcredit; [done| |done]; unfold live_event; auto.
  rewrite Ht. unfold tick. cbn [hb_missed].
  assert (Hrep : replicate (Z.to_nat (hb_missed h)) HTick ++ HTick :: ops =
                 replicate (Z.to_nat (hb_missed h + 1)) HTick ++ ops).
  { rewrite Z2Nat.inj_add by lia. rewrite replicate_add, <- (assoc_L (++)). done. }
  rewrite Hrep. destruct (Z.leb_spec (missedPongLimit opts) (hb_missed h + 1)).
  - unfold fireDead. cbn [hb_dead hb_missed]. rewrite Hd. cbv beta iota.
    destruct (hb_dead_stays ops (Hb false (hb_missed h + 1) true)) as (h' & -> & Hd'); [done..|].
    exists h', 1%nat. rewrite Hd'. split_and!; [done|done|]. split; [intros _|done].
    exists [], ops. cbn. by replace (missedPongLimit opts) with (hb_missed h + 1) by lia.
  - destruct (IH (Hb (hb_timer h) (hb_missed h + 1) (hb_dead h)) Ht Hd) as (h' & n & Hr & Hn & Hs); [cbn; lia|].
    rewrite Hr. exists h', n. split_and!; [done|done|exact Hs].
Qed.

(** Once started, a session that can be pinged is declared dead exactly
    when the limit of consecutive pings went unanswered by any pong or inbound
    message, and [onDead] fires once; a socket that cannot ping is never
    reaped. *)
Theorem heartbeat_exact ops :
  0 < missedPongLimit opts -> Forall live_event ops ->
  exists h n, hb_run (hb_start hb_new) ops = (h, n) /\
    n = (if hb_dead h then 1 else 0)%nat /\
    (hb_dead h = true <-> can_ping = true /\ silent_run ops).
Proof.
  intros Hl Ho. unfold hb_start. destruct can_ping; cbn [negb hb_timer hb_new].
  - destruct (hb_run_spec ops (Hb true 0 false) Hl Ho) as (h & n & Hr & Hn & Hs); [done|done|cbn; lia|].
    exists h, n. cbn in Hs. split_and!; [done|done|]. naive_solver.
  - assert (Hgen : forall h, hb_timer h = false -> hb_dead h = false ->
      exists h', hb_run h ops = (h', 0%nat) /\ hb_dead h' = false).
    { clear -Ho. induction Ho as [|o ops Ho _ IH]; intros h Ht Hd; [by exists h|].
      cbn [hb_run]. destruct Ho as [->|[->| ->]]; cbn [hb_step]; rewrite ?Ht.
      - destruct (IH (noteActivity h) Ht Hd) as (h' & -> & ?). eauto.
      - destruct (IH (noteActivity h) Ht Hd) as (h' & -> & ?). eauto.
      - destruct (IH h Ht Hd) as (h' & -> & ?). eauto. }
    destruct (Hgen hb_new) as (h' & Hr & Hd); [done|done|]. exists h', 0%nat. rewrite Hd. naive_solver.
Qed.
End heartbeat.

Lemma heartbeat_exact_witness :
  exists h n, hb_run true (hb_defaults None None) (hb_start true hb_new) [HTick; HPong; HTick; HTick; HTick] = (h, n) /\
    n = 1%nat /\ hb_dead h = true.
Proof.
  destruct (heartbeat_exact true (hb_defaults None None) [HTick; HPong; HTick; HTick; HTick])
    as (h & n & Hr & Hn & Hd).
  - reflexivity.
  - unfold live_event. repeat (constructor; [auto|]). constructor.
  - exists h, n. assert (Hdead : hb_dead h = true).
    { apply Hd. split; [reflexivity|]. exists [HTick; HPong], [HTick]. reflexivity. }
    split; [exact Hr|]. split; [by rewrite Hn, Hdead|exact Hdead].
Defined.
