(* ===== verification/SyncProtocol.v ===== *)
(** The reactive sync protocol and its client-side reducer:
    packages/sync/src/protocol.ts, client-reducer.ts.  A client that misses a
    frame notices at the next one it receives. *)
From Stdlib Require Import ZArith Lia.
From stdpp Require Import base list strings.
From S2P Require Import Prelude JsBase DocStore ValuesJson RowDiff.

(** * Versions *)

Record state_version := Ver { sv_querySet : Z; sv_ts : Z }.
#[global] Instance state_version_eq_dec : EqDecision state_version.
Proof. solve_decision. Defined.

Definition INITIAL_VERSION : state_version := Ver 0 0.

Definition versionsEqual (a b : state_version) : bool :=
  (sv_querySet a =? sv_querySet b) && (sv_ts a =? sv_ts b).

Definition compareStateVersion (a b : state_version) : Z :=
  if negb (sv_querySet a =? sv_querySet b) then (if sv_querySet a <? sv_querySet b then -1 else 1)
  else if negb (sv_ts a =? sv_ts b) then (if sv_ts a <? sv_ts b then -1 else 1)
  else 0.

Definition isContiguous (prevEnd nextStart : state_version) : bool := versionsEqual prevEnd nextStart.

Lemma versionsEqual_spec a b : versionsEqual a b = true <-> a = b.
Proof. unfold versionsEqual. destruct a, b; cbn. rewrite andb_true_iff, !Z.eqb_eq. split; [by intros [-> ->]|by intros [= -> ->]]. Qed.

(** * Messages *)

Record query_request := QueryRequest
  { qr_queryId : Z; qr_udfPath : jsstr; qr_args : json; qr_resultHash : option jsstr; qr_sinceTs : option Z }.

(** The forms of [QueryDiff.reset]. *)
Inductive reset_desc :=
  | ResetById
  | ResetRange (orderDir : order)
  | ResetPage (orderDir : order) (pm : page_meta).

Inductive modification :=
  | QueryUpdated (queryId : Z) (v : json) (hash : option jsstr)
  | QueryFailed (queryId : Z) (error : jsstr)
  | QueryRemoved (queryId : Z)
  | QueryUnchanged (queryId : Z)
  | QueryDiff (queryId : Z) (changes : list change) (checksum : jsstr) (reset : option reset_desc)
      (hash : option jsstr).

Inductive verdict := VApplied | VFailed | VStale | VUnknown.
Record mutation_ref := MutationRef { mr_clientId : jsstr; mr_seq : Z }.
Record client_verdict := ClientVerdict
  { cv_ref : mutation_ref; cv_verdict : verdict; cv_commitTs : option Z; cv_value : option json;
    cv_valueMissing : bool; cv_code : option jsstr }.

Inductive server_message :=
  | Transition (startVersion endVersion : state_version) (modifications : list modification)
  | MutationOk (requestId : jsstr) (v : option json) (ts : option Z) (replayed valueMissing : bool)
  | MutationFailed (requestId error : jsstr) (code : option jsstr)
  | ActionOk (requestId : jsstr) (v : json)
  | ActionFailed (requestId error : jsstr)
  | ConnectAck (known : bool) (results : list client_verdict) (deploymentId : jsstr)
  | Broadcast (topic : jsstr) (event : json).

(** * client-reducer.ts *)

Inductive mutation_outcome := Succeeded (v : option json) | Failed (error : jsstr).

Record client_state := ClientState
  { cs_version : state_version; cs_queries : list (Z * json); cs_needsResync : bool;
    cs_results : list (jsstr * mutation_outcome); cs_broadcasts : list (jsstr * json) }.

Definition createClientState : client_state := ClientState INITIAL_VERSION [] false [] [].

Definition apply_mod (queries : list (Z * json)) (m : modification) : list (Z * json) :=
  match m with
  | QueryUpdated qid v _ => jm_set queries qid v
  | QueryRemoved qid => jm_delete queries qid
  | _ => queries
  end.

Definition with_result (s : client_state) (requestId : jsstr) (o : mutation_outcome) : client_state :=
  ClientState (cs_version s) (cs_queries s) (cs_needsResync s) (jm_set (cs_results s) requestId o) (cs_broadcasts s).

Definition applyServerMessage (s : client_state) (msg : server_message) : client_state :=
  match msg with
  | Transition st en mods =>
      if negb (versionsEqual st (cs_version s)) then
        ClientState (cs_version s) (cs_queries s) true (cs_results s) (cs_broadcasts s)
      else ClientState en (fold_left apply_mod mods (cs_queries s)) (cs_needsResync s) (cs_results s) (cs_broadcasts s)
  | MutationOk rid v _ _ _ => with_result s rid (Succeeded v)
  | MutationFailed rid e _ => with_result s rid (Failed e)
  | Broadcast topic event =>
      ClientState (cs_version s) (cs_queries s) (cs_needsResync s) (cs_results s) (cs_broadcasts s ++ [(topic, event)])
  | _ => s
  end.

Definition applyAll (s : client_state) (msgs : list server_message) : client_state :=
  fold_left applyServerMessage msgs s.

(** * Brackets *)

(** The transitions among the frames, each starting where the one before
    ended. *)
Fixpoint bracketed (v : state_version) (msgs : list server_message) (w : state_version) : Prop :=
  match msgs with
  | [] => v = w
  | Transition st en _ :: msgs' => st = v /\ bracketed en msgs' w
  | _ :: msgs' => bracketed v msgs' w
  end.

(** A transition that moves its version forward, never back. *)
Definition version_le (a b : state_version) : Prop := sv_querySet a <= sv_querySet b /\ sv_ts a <= sv_ts b.
Definition advances (m : server_message) : Prop :=
  match m with Transition st en _ => version_le st en /\ st <> en | _ => True end.

Lemma bracketed_app v m1 m2 w :
  bracketed v (m1 ++ m2) w <-> exists u, bracketed v m1 u /\ bracketed u m2 w.
Proof.
  revert v. induction m1 as [|m m1 IH]; intros v; cbn.
  - split; [by exists v|]. by intros (u & -> & ?).
  - destruct m; cbn; rewrite IH; naive_solver.
Qed.

Lemma bracketed_le v msgs w : bracketed v msgs w -> Forall advances msgs -> version_le v w.
Proof.
  intros Hb Ha. revert v Hb. induction Ha as [|m msgs Hm _ IH]; intros v Hb.
  - cbn in Hb. subst. split; lia.
  - destruct m; cbn in Hb; try by apply IH. destruct Hb as [-> Hb], Hm as [[? ?] _].
    apply IH in Hb as [? ?]. split; lia.
Qed.

Definition is_transition (m : server_message) : bool := match m with Transition _ _ _ => true | _ => false end.

Lemma version_le_antisym a b : version_le a b -> version_le b a -> a = b.
Proof. destruct a, b. unfold version_le. cbn. intros [? ?] [? ?]. f_equal; lia. Qed.

(** Once behind, every later transition mismatches. *)
Lemma behind_stays s v msgs w :
  bracketed v msgs w -> Forall advances msgs ->
  version_le (cs_version s) v -> cs_version s <> v ->
  (forall l, l `sublist_of` msgs ->
    cs_version (applyAll s l) = cs_version s /\ cs_queries (applyAll s l) = cs_queries s /\
    (cs_needsResync (applyAll s l) = false -> Forall (fun m => is_transition m = false) l)).
Proof.
  intros Hb Ha. revert v s Hb. induction Ha as [|m msgs Hm Hmsgs IH]; intros v s Hb Hle Hne l Hl.
  { apply sublist_nil_r in Hl as ->. cbn. auto. }
  assert (Hskip : l `sublist_of` msgs ->
    cs_version (applyAll s l) = cs_version s /\ cs_queries (applyAll s l) = cs_queries s /\
    (cs_needsResync (applyAll s l) = false -> Forall (fun m => is_transition m = false) l)).
  { intros Hl'. destruct m; cbn in Hb; try by apply (IH v). destruct Hb as [-> Hb], Hm as [[? ?] Hd].
    apply (IH endVersion); [done| | |done].
    - destruct Hle. split; lia.
    - intros Heq. rewrite Heq in Hle. apply Hd, version_le_antisym; [by split|done]. }
  apply sublist_cons_r in Hl as [Hl|(l' & -> & Hl)]; [by apply Hskip|].
  assert (Hother : forall s', is_transition m = false -> cs_version s' = cs_version s -> cs_queries s' = cs_queries s ->
    applyAll s (m :: l') = applyAll s' l' -> bracketed v msgs w ->
    cs_version (applyAll s (m :: l')) = cs_version s /\ cs_queries (applyAll s (m :: l')) = cs_queries s /\
    (cs_needsResync (applyAll s (m :: l')) = false -> Forall (fun m => is_transition m = false) (m :: l'))).
  { intros s' Ht Hv Hq -> Hb'. destruct (IH v s' Hb') with (l := l') as (H1 & H2 & H3); [by rewrite Hv..|done|].
    rewrite H1, H2. split_and!; [done|done|]. intros Hr. constructor; auto. }
  destruct m; try (by eapply Hother; [done|..|reflexivity|exact Hb]).
  cbn in Hb. destruct Hb as [-> Hb]. destruct Hm as [[? ?] Hd].
  assert (Hm : versionsEqual v (cs_version s) = false).
  { apply not_true_iff_false. rewrite versionsEqual_spec. congruence. }
  set (s' := ClientState (cs_version s) (cs_queries s) true (cs_results s) (cs_broadcasts s)).
  assert (Happ : applyAll s (Transition v endVersion modifications :: l') = applyAll s' l')
    by (unfold applyAll; cbn; by rewrite Hm).
  rewrite Happ. destruct (IH endVersion s' Hb) with (l := l') as (H1 & H2 & _); [|..|done|].
  - cbn. destruct Hle. split; lia.
  - cbn. intros Heq. rewrite Heq in Hle. apply Hd, version_le_antisym; [by split|done].
  - split_and!; [by rewrite H1|by rewrite H2|]. intros Hr. exfalso.
    assert (Hst : forall l s, cs_needsResync s = true -> cs_needsResync (applyAll s l) = true).
    { clear. induction l as [|m l IH]; intros s Hs; [done|]. apply IH. destruct m; cbn; try done.
      by destruct (negb _). }
    rewrite (Hst l' s' eq_refl) in Hr. done.
Qed.

(** The version and the queries depend on the transitions only. *)
Lemma applyAll_core s s' msgs :
  cs_version s = cs_version s' -> cs_queries s = cs_queries s' ->
  cs_version (applyAll s msgs) = cs_version (applyAll s' msgs) /\
  cs_queries (applyAll s msgs) = cs_queries (applyAll s' msgs).
Proof.
  revert s s'. induction msgs as [|m msgs IH]; intros s s' Hv Hq; [done|]. apply IH; destruct m; cbn; try done;
    rewrite Hv, ?Hq; by destruct (negb _).
Qed.

Lemma apply_other s m :
  is_transition m = false ->
  cs_version (applyServerMessage s m) = cs_version s /\ cs_queries (applyServerMessage s m) = cs_queries s /\
  cs_needsResync (applyServerMessage s m) = cs_needsResync s.
Proof. by destruct m. Qed.

Definition transitions (msgs : list server_message) : list server_message :=
  base.filter (fun m => is_transition m = true) msgs.

Lemma transitions_cons m msgs : transitions (m :: msgs) = (if is_transition m then [m] else []) ++ transitions msgs.
Proof. unfold transitions. rewrite filter_cons. by destruct m. Qed.

(** A client that receives only some of a session's frames, in order, has
    set its resync flag unless what it shows is the state after a full prefix
    of the frames: when the brackets chain and every transition advances its
    version, a lost frame never goes unnoticed past the next transition
    received. *)
Lemma gap_detected s msgs w l :
  bracketed (cs_version s) msgs w -> Forall advances msgs -> l `sublist_of` msgs ->
  cs_needsResync (applyAll s l) = false ->
  exists pre post, msgs = pre ++ post /\ transitions l = transitions pre /\
    cs_version (applyAll s l) = cs_version (applyAll s pre) /\
    cs_queries (applyAll s l) = cs_queries (applyAll s pre).
Proof.
  intros Hb Ha. revert s l Hb. induction Ha as [|m msgs Hm Hmsgs IH]; intros s l Hb Hl Hr.
  { apply sublist_nil_r in Hl as ->. by exists [], []. }
  apply sublist_cons_r in Hl as [Hl|(l' & -> & Hl)].
  - destruct (is_transition m) eqn:Et.
    + exists [], (m :: msgs). destruct m; try done. cbn in Hb. destruct Hb as [Heq Hb], Hm as [[? ?] Hd].
      destruct (behind_stays s endVersion msgs w Hb Hmsgs) with (l := l) as (H1 & H2 & H3); [..|done|].
      * rewrite <- Heq. by split.
      * by rewrite <- Heq.
      * split_and!; [done| |done|done]. apply filter_none. eapply Forall_impl; [by apply H3|]. cbn. intros x ->. done.
    + destruct (IH s l) as (pre & post & -> & Htr & Hv & Hq); [by destruct m|done|done|].
      exists (m :: pre), post. rewrite transitions_cons, Et. destruct (apply_other s m Et) as (H1 & H2 & _).
      destruct (applyAll_core (applyServerMessage s m) s pre H1 H2) as [H3 H4].
      change (applyAll s (m :: pre)) with (applyAll (applyServerMessage s m) pre).
      rewrite H3, H4. done.
  - destruct (IH (applyServerMessage s m) l') as (pre & post & -> & Htr & Hv & Hq); [|done|done|].
    + destruct m; cbn in Hb |- *; try done. destruct Hb as [-> Hb].
      assert (Hs : versionsEqual (cs_version s) (cs_version s) = true) by by apply versionsEqual_spec.
      by rewrite Hs.
    + exists (m :: pre), post. rewrite !transitions_cons, Htr. split_and!; done.
Qed.

Definition sample_frames : list server_message :=
  [Transition (Ver 0 0) (Ver 1 0) [QueryUpdated 1 JNull None]; MutationOk (js "m1") None (Some 5) false false;
   Transition (Ver 1 0) (Ver 1 5) [QueryUpdated 1 (JBool true) None];
   Transition (Ver 1 5) (Ver 1 7) [QueryUpdated 1 (JBool false) None]].

(** The frame lost in the middle is noticed at the next. *)
Example gap_seen : cs_needsResync (applyAll createClientState (delete 2%nat sample_frames)) = true.
Proof. reflexivity. Qed.
