(* ===== verification/SyncHandler.v ===== *)
(** The sync protocol handler: query sets, mutations, the reactive fan-out and
    the origin gates: packages/sync/src/handler.ts.

    The asynchronous units of the source run one after the other on the notify
    tail; the model's operations are those units, given what the engine
    answers.  A fan-out that waits for its origin's response is parked in the
    state, and blocks the tail. *)
From Stdlib Require Import ZArith Lia.
From stdpp Require Import base list sets strings.
From S2P Require Import Prelude JsBase JsText KeyRanges Values ValuesJson DocStore Query Transactor StateRes RowDiff ReadIndex Subscriptions ResumeRegistry SyncProtocol.

(** * What the engine answers *)

(** A handler's result; [undefined] is what a function without a return
    statement gives, and has no transport form. *)
Inductive js_result := JsValue (v : value) | JsUndefined.
Definition result_json (r : js_result) : res json :=
  match r with JsValue v => convexToJson v | JsUndefined => Throw TypeError end.
(** [undefined] and [null] are alike to the classifier. *)
Definition result_value (r : js_result) : value := match r with JsValue v => v | JsUndefined => VNull end.

Record exec_result := ExecResult
  { xr_value : js_result; xr_tables : list jsstr; xr_readRanges : list serialized_range;
    xr_globalTables : list jsstr; xr_diffableRange : option range_read;
    xr_diffablePage : option (range_read * page_meta) }.

(** [runQuery] and [runAdminQuery] as they answer now. *)
Record executor := Executor
  { runQuery : jsstr -> json -> option jsstr -> res exec_result;
    runAdminQuery : jsstr -> json -> res exec_result }.

(** What [runMutation] gave: a commit, a replay, or an error with the
    committed timestamp the executor may have stamped on it, whether it is
    retryable, and its code. *)
Inductive mutation_result :=
  | MutationRan (v : js_result) (tables : list jsstr) (writeRanges : list serialized_range) (commitTs : Z)
      (forwarded : bool)
  | MutationReplay (v : verdict) (commitTs : option Z) (rv : js_result) (valueMissing : bool) (code : option jsstr)
  | MutationThrew (e : js_error) (committedTs : option Z) (retryable : bool) (code : option jsstr).

Record write_invalidation := WriteInvalidation
  { wi_tables : list jsstr; wi_ranges : list serialized_range; wi_commitTs : Z;
    wi_writtenDocs : option (list written_doc); wi_global : bool }.

(** * State *)

Record session := Session
  { ss_version : state_version; ss_identity : option jsstr; ss_privileged : bool; ss_supportsQueryDiff : bool }.
Definition session_new : session := Session INITIAL_VERSION None false false.

(** A parked [doNotifyWrites]: what it resumes with. *)
Record parked_notify := Parked
  { pk_inv : write_invalidation; pk_origin : jsstr; pk_subs : list subscription;
    pk_bySession : list (jsstr * list subscription) }.

(** [h_objects] holds every session object, [h_live] the keys of the sessions
    map: operations in flight keep an object after its session is gone.
    [h_out] is what has been handed to the sessions' outbound queues, and
    [h_globalFired] counts the calls of the global-subscribe listeners. *)
Record handler := Handler
  { h_objects : list (jsstr * session); h_live : list jsstr; h_subs : manager;
    h_frontiers : list (jsstr * Z); h_rowMaps : list (jsstr * row_map); h_gates : list (Z * jsstr);
    h_registry : registry; h_out : list (jsstr * server_message); h_globalFired : nat;
    h_parked : option parked_notify }.

Definition handler_new : handler := Handler [] [] sm_empty [] [] [] rg_empty [] 0 None.

Record handler_options := HandlerOptions
  { excludeOriginFromTransition : bool; autoNotifyOnMutation : bool; verifyAdmin : jsstr -> bool }.

Definition with_objects (h : handler) (o : list (jsstr * session)) : handler :=
  Handler o (h_live h) (h_subs h) (h_frontiers h) (h_rowMaps h) (h_gates h) (h_registry h) (h_out h)
    (h_globalFired h) (h_parked h).
Definition with_subs (h : handler) (m : manager) : handler :=
  Handler (h_objects h) (h_live h) m (h_frontiers h) (h_rowMaps h) (h_gates h) (h_registry h) (h_out h)
    (h_globalFired h) (h_parked h).
Definition with_frontiers (h : handler) (f : list (jsstr * Z)) : handler :=
  Handler (h_objects h) (h_live h) (h_subs h) f (h_rowMaps h) (h_gates h) (h_registry h) (h_out h)
    (h_globalFired h) (h_parked h).
Definition with_rowMaps (h : handler) (r : list (jsstr * row_map)) : handler :=
  Handler (h_objects h) (h_live h) (h_subs h) (h_frontiers h) r (h_gates h) (h_registry h) (h_out h)
    (h_globalFired h) (h_parked h).
Definition with_gates (h : handler) (g : list (Z * jsstr)) : handler :=
  Handler (h_objects h) (h_live h) (h_subs h) (h_frontiers h) (h_rowMaps h) g (h_registry h) (h_out h)
    (h_globalFired h) (h_parked h).
Definition with_registry (h : handler) (r : registry) : handler :=
  Handler (h_objects h) (h_live h) (h_subs h) (h_frontiers h) (h_rowMaps h) (h_gates h) r (h_out h)
    (h_globalFired h) (h_parked h).
Definition with_parked (h : handler) (p : option parked_notify) : handler :=
  Handler (h_objects h) (h_live h) (h_subs h) (h_frontiers h) (h_rowMaps h) (h_gates h) (h_registry h) (h_out h)
    (h_globalFired h) p.

Definition sess (h : handler) (sid : jsstr) : session := default session_new (jm_get (h_objects h) sid).
Definition set_sess (h : handler) (sid : jsstr) (s : session) : handler := with_objects h (jm_set (h_objects h) sid s).
Definition with_version (s : session) (v : state_version) : session :=
  Session v (ss_identity s) (ss_privileged s) (ss_supportsQueryDiff s).
Definition is_live (h : handler) (sid : jsstr) : bool := bool_decide (sid ∈ h_live h).

(** [send]: one frame for the session's outbound queue. *)
Definition send (h : handler) (sid : jsstr) (m : server_message) : handler :=
  Handler (h_objects h) (h_live h) (h_subs h) (h_frontiers h) (h_rowMaps h) (h_gates h) (h_registry h)
    (h_out h ++ [(sid, m)]) (h_globalFired h) (h_parked h).
(** Responses may not be dropped under backpressure. *)
Definition undroppable_message (m : server_message) : bool :=
  match m with
  | MutationOk _ _ _ _ _ | MutationFailed _ _ _ | ActionOk _ _ | ActionFailed _ _ => true
  | _ => false
  end.

Definition fireGlobalSubscribe (h : handler) : handler :=
  Handler (h_objects h) (h_live h) (h_subs h) (h_frontiers h) (h_rowMaps h) (h_gates h) (h_registry h) (h_out h)
    (S (h_globalFired h)) (h_parked h).
Definition fire_if_global (h : handler) (globalTables : list jsstr) : handler :=
  match globalTables with [] => h | _ :: _ => fireGlobalSubscribe h end.

(** [start = session.version; session.version = end; send Transition]. *)
Definition send_transition (h : handler) (sid : jsstr) (en : state_version) (mods : list modification) : handler :=
  let start := ss_version (sess h sid) in
  send (set_sess h sid (with_version (sess h sid) en)) sid (Transition start en mods).

(** * Connections *)

Definition connect (h : handler) (sid : jsstr) : handler :=
  Handler (jm_set (h_objects h) sid session_new) (set_add (h_live h) sid) (h_subs h) (h_frontiers h) (h_rowMaps h)
    (h_gates h) (h_registry h) (h_out h) (h_globalFired h) (h_parked h).

Definition release_sub (now : Z) (g : registry) (sub : subscription) : registry :=
  match sub_resumeKey sub with
  | Some k => match k with [] => g | _ :: _ => release g k now end
  | None => g
  end.

Definition releaseOriginResponseGate (h : handler) (commitTs : Z) : handler :=
  with_gates h (jm_delete (h_gates h) commitTs).

Definition clearByIdRowMapForSession (h : handler) (sid : jsstr) : handler :=
  with_rowMaps h (base.filter (fun kr => starts_with (session_prefix sid) kr.1 = false) (h_rowMaps h)).

Definition disconnect (h : handler) (sid : jsstr) (now : Z) : handler :=
  let h := with_registry h (fold_left (release_sub now) (forSession (h_subs h) sid) (h_registry h)) in
  let h := with_subs h (removeSession (h_subs h) sid) in
  let h := Handler (h_objects h) (set_delete (h_live h) sid) (h_subs h) (jm_delete (h_frontiers h) sid)
             (h_rowMaps h) (h_gates h) (h_registry h) (h_out h) (h_globalFired h) (h_parked h) in
  let h := clearByIdRowMapForSession h sid in
  with_gates h (base.filter (fun g => g.2 <> sid) (h_gates h)).

Definition registerOriginResponseGate (h : handler) (commitTs : Z) (originSessionId : option jsstr) : handler :=
  match originSessionId with
  | None => h
  | Some sid =>
      if negb (is_live h sid && ss_supportsQueryDiff (sess h sid)) then h
      else if jm_has (h_gates h) commitTs then h
      else with_gates h (jm_set (h_gates h) commitTs sid)
  end.

(** * Running a subscription's query *)

Section handler.
Context `{JsHost}.

Definition hashValue (v : json) : jsstr := js "sha256:" ++ sha256_hex (JSON_stringify v).

Definition str_admin : jsstr := js "_admin:".
Definition execSub (ex : executor) (s : session) (udfPath : jsstr) (args : json) : res exec_result :=
  if starts_with str_admin udfPath then
    if negb (ss_privileged s) then Throw (PlainError "Forbidden: admin subscription requires admin auth")
    else runAdminQuery ex udfPath args
  else runQuery ex udfPath args (ss_identity s).

(** State and error. *)
Definition hm (A : Type) : Type := stm handler A.
#[local] Open Scope stm_scope.

(** [subscriptions.add] and [resumeRegistry.upsert] keep what they did before
    they threw. *)
Definition subs_add (sub : subscription) : hm unit := fun h =>
  let '(m, r) := sm_add (h_subs h) sub in (with_subs h m, r).
Definition reg_upsert (key : jsstr) (rr : list serialized_range) (ts : list jsstr) (atTs : Z) (wd : bool)
    (gl : list jsstr) : hm unit := fun h =>
  let '(g, r) := upsert (h_registry h) key rr ts atTs wd gl in (with_registry h g, r).
Definition reg_retain (key : jsstr) : hm unit := modify (fun h => with_registry h (retain (h_registry h) key)).
Definition reg_release (key : jsstr) (now : Z) : hm unit :=
  modify (fun h => with_registry h (release (h_registry h) key now)).
Definition set_rowMap (key : jsstr) (m : row_map) : hm unit :=
  modify (fun h => with_rowMaps h (jm_set (h_rowMaps h) key m)).
Definition delete_rowMap (key : jsstr) : hm unit :=
  modify (fun h => with_rowMaps h (jm_delete (h_rowMaps h) key)).

(** * Query sets *)

(** The compute-skip of a resume: the entry proves the client's result
    current. *)
Definition resume_skip (h : handler) (sid : jsstr) (q : query_request) : option resume_entry :=
  match qr_sinceTs q with
  | None => None
  | Some sinceTs =>
      match rg_lookup (h_registry h) (regKey (ss_identity (sess h sid)) (qr_udfPath q) (qr_args q)) with
      | None => None
      | Some entry =>
          if negb (re_wasDiffable entry) && match re_globalTables entry with [] => true | _ :: _ => false end
             && (re_lastInvalidatedTs entry <=? sinceTs)
          then Some entry else None
      end
  end.

Definition answer_skip (sid : jsstr) (q : query_request) (entry : resume_entry) : hm modification :=
  let* s := gets (fun h => sess h sid) in
  let rrKey := regKey (ss_identity s) (qr_udfPath q) (qr_args q) in
  subs_add (Subscription sid (qr_queryId q) (qr_udfPath q) (qr_args q) (re_tables entry) (re_readRanges entry)
              (re_globalTables entry) None None (Some rrKey));;
  reg_retain rrKey;;
  modify (fun h => fire_if_global h (re_globalTables entry));;
  ret (QueryUnchanged (qr_queryId q)).

(** The rows of a collect or of a page; both are arrays. *)
Definition as_rows (j : json) : res (list json) := match j with JArray xs => Ok xs | _ => Throw TypeError end.
Definition page_rows (j : json) : res (list json) :=
  match j with
  | JNull => Throw TypeError
  | JObject fs => match jm_get fs (js "page") with Some p => as_rows p | None => Throw TypeError end
  | _ => Throw TypeError
  end.

(** [q.resultHash !== undefined && q.resultHash === hash]. *)
Definition same_hash (o : option jsstr) (hash : jsstr) : bool := bool_decide (o = Some hash).

(** What the query read, classified. *)
Record classified := Classified
  { cl_byId : option by_id_read; cl_range : option range_read; cl_page : option range_read }.
Definition classify (r : exec_result) : res classified :=
  byId ← classifyByIdRead (result_value (xr_value r)) (xr_readRanges r);
  Ok (Classified byId (rangeReadFromDiffable <$> xr_diffableRange r)
        ((fun p => pageReadFromDiffable p.1 p.2) <$> xr_diffablePage r)).
(** [page ?? range]. *)
Definition cl_either (c : classified) : option range_read :=
  match cl_page c with Some p => Some p | None => cl_range c end.
Definition is_some {A} (o : option A) : bool := match o with Some _ => true | None => false end.

(** A diffable answer: the row map is seeded whether or not the result is
    unchanged. *)
Definition answer_diff (sid : jsstr) (q : query_request) (json_ : json) (reset : reset_desc)
    (cn : list change * row_map) : hm modification :=
  set_rowMap (subKey sid (qr_queryId q)) cn.2;;
  let hash := hashValue json_ in
  ret (if same_hash (qr_resultHash q) hash then QueryUnchanged (qr_queryId q)
       else QueryDiff (qr_queryId q) cn.1 (driftChecksum cn.2) (Some reset) (Some hash)).

(** The rest of the loop body, with the engine's answer in hand. *)
Definition answer_query (sid : jsstr) (q : query_request) (r : exec_result) : hm modification :=
  let* c := lift (classify r) in
  let* s := gets (fun h => sess h sid) in
  let rrKey := regKey (ss_identity s) (qr_udfPath q) (qr_args q) in
  subs_add (Subscription sid (qr_queryId q) (qr_udfPath q) (qr_args q) (xr_tables r) (xr_readRanges r)
              (xr_globalTables r) (cl_byId c) (cl_either c) (Some rrKey));;
  modify (fun h => fire_if_global h (xr_globalTables r));;
  let wasDiffable := is_some (xr_diffableRange r) || is_some (xr_diffablePage r) || is_some (cl_byId c) in
  reg_upsert rrKey (xr_readRanges r) (xr_tables r) (sv_ts (ss_version s)) wasDiffable (xr_globalTables r);;
  reg_retain rrKey;;
  let* json_ := lift (result_json (xr_value r)) in
  match cl_page c, cl_range c, cl_byId c, ss_supportsQueryDiff s with
  | Some page, _, _, true =>
      let* rows := lift (page_rows json_) in
      let* cn := lift (rangeResetChanges page rows (sv_ts (ss_version s))) in
      answer_diff sid q json_
        (ResetPage (rr_order page) (default (PageMeta None false false) (rr_pageMeta page))) cn
  | None, Some range, _, true =>
      let* rows := lift (as_rows json_) in
      let* cn := lift (rangeResetChanges range rows (sv_ts (ss_version s))) in
      answer_diff sid q json_ (ResetRange (rr_order range)) cn
  | None, None, Some byId, true =>
      answer_diff sid q json_ ResetById (byIdResetChanges (bi_docId byId) json_ (sv_ts (ss_version s)))
  | _, _, _, _ =>
      let hash := hashValue json_ in
      ret (if same_hash (qr_resultHash q) hash then QueryUnchanged (qr_queryId q)
           else QueryUpdated (qr_queryId q) json_ (Some hash))
  end.

(** [try { ... } catch (e) { QueryFailed }]. *)
Definition catching (qid : Z) (m : hm modification) (h : handler) : handler * modification :=
  match m h with
  | (h', Ok x) => (h', x)
  | (h', Throw e) => (h', QueryFailed qid (error_message e))
  end.

Definition subscribe_one (ex : executor) (sid : jsstr) (q : query_request) (h : handler) : handler * modification :=
  catching (qr_queryId q)
    (match resume_skip h sid q with
     | Some entry => answer_skip sid q entry
     | None =>
         let* s := gets (fun h => sess h sid) in
         let* r := lift (execSub ex s (qr_udfPath q) (qr_args q)) in
         answer_query sid q r
     end) h.

Fixpoint subscribe_all (ex : executor) (sid : jsstr) (qs : list query_request) (mods : list modification)
    (h : handler) : handler * list modification :=
  match qs with
  | [] => (h, mods)
  | q :: qs' => let '(h', m) := subscribe_one ex sid q h in subscribe_all ex sid qs' (mods ++ [m]) h'
  end.

Definition unsubscribe_one (now : Z) (sid : jsstr) (h : handler) (qid : Z) : handler :=
  let h := match sm_get (h_subs h) sid qid with
           | Some sub => with_registry h (release_sub now (h_registry h) sub)
           | None => h
           end in
  let h := with_subs h (sm_remove (h_subs h) sid qid) in
  with_rowMaps h (jm_delete (h_rowMaps h) (subKey sid qid)).

Definition bump_querySet (v : state_version) : state_version := Ver (sv_querySet v + 1) (sv_ts v).

Definition doModifyQuerySet (ex : executor) (now : Z) (sid : jsstr) (add : list query_request) (remove : list Z)
    (h : handler) : handler :=
  let '(h, mods) := subscribe_all ex sid add [] h in
  let h := fold_left (unsubscribe_one now sid) remove h in
  send_transition h sid (bump_querySet (ss_version (sess h sid))) (mods ++ (QueryRemoved <$> remove)).

(** * Authentication *)

Definition set_identity (h : handler) (sid : jsstr) (token : option jsstr) : handler :=
  let s := sess h sid in
  set_sess h sid (Session (ss_version s) token (ss_privileged s) (ss_supportsQueryDiff s)).

Definition reauth_one (ex : executor) (now : Z) (sid : jsstr) (sub : subscription) : hm modification :=
  let* s := gets (fun h => sess h sid) in
  let* r := lift (execSub ex s (sub_udfPath sub) (sub_args sub)) in
  let* c := lift (classify r) in
  let newKey := regKey (ss_identity s) (sub_udfPath sub) (sub_args sub) in
  reg_upsert newKey (xr_readRanges r) (xr_tables r) (sv_ts (ss_version s))
    (is_some (cl_either c) || is_some (cl_byId c)) (xr_globalTables r);;
  (if bool_decide (sub_resumeKey sub = Some newKey) then ret tt
   else reg_retain newKey;; modify (fun h => with_registry h (release_sub now (h_registry h) sub)));;
  subs_add (Subscription (sub_sessionId sub) (sub_queryId sub) (sub_udfPath sub) (sub_args sub) (xr_tables r)
              (xr_readRanges r) (xr_globalTables r) (cl_byId c) (cl_either c) (Some newKey));;
  modify (fun h => fire_if_global h (xr_globalTables r));;
  let key := subKey sid (sub_queryId sub) in
  let* json_ := lift (result_json (xr_value r)) in
  match cl_byId c, ss_supportsQueryDiff s with
  | Some byId, true =>
      let cn := byIdResetChanges (bi_docId byId) json_ (sv_ts (ss_version s)) in
      set_rowMap key cn.2;;
      ret (QueryDiff (sub_queryId sub) cn.1 (driftChecksum cn.2) (Some ResetById) None)
  | _, _ =>
      delete_rowMap key;;
      ret (QueryUpdated (sub_queryId sub) json_ (Some (hashValue json_)))
  end.

Fixpoint reauth_all (ex : executor) (now : Z) (sid : jsstr) (subs : list subscription) (mods : list modification)
    (h : handler) : handler * list modification :=
  match subs with
  | [] => (h, mods)
  | sub :: subs' =>
      let '(h', m) := catching (sub_queryId sub) (reauth_one ex now sid sub) h in
      reauth_all ex now sid subs' (mods ++ [m]) h'
  end.

Definition handleSetAuth (ex : executor) (now : Z) (sid : jsstr) (token : option jsstr) (h : handler) : handler :=
  let h := set_identity h sid token in
  let '(h, mods) := reauth_all ex now sid (forSession (h_subs h) sid) [] h in
  send_transition h sid (bump_querySet (ss_version (sess h sid))) mods.

Definition handleSetAdminAuth (opts : handler_options) (sid key : jsstr) (h : handler) : handler :=
  let s := sess h sid in
  set_sess h sid (Session (ss_version s) (ss_identity s) (verifyAdmin opts key) (ss_supportsQueryDiff s)).
End handler.
