(* ===== verification/SyncFanout.v ===== *)
(** The handler's mutation path and reactive fan-out:
    packages/sync/src/handler.ts, from [processMutation] on. *)
From Stdlib Require Import ZArith Lia.
From stdpp Require Import base list sets strings.
From S2P Require Import Prelude JsBase JsText KeyRanges Values ValuesJson DocStore Query Transactor StateRes RowDiff ReadIndex Subscriptions ResumeRegistry SyncProtocol SyncHandler.

Section fanout.
Context `{JsHost} (opts : handler_options).
#[local] Open Scope stm_scope.

(** * One session's transition *)

(** [filter] with a predicate that may throw. *)
Fixpoint res_filter {A} (f : A -> res bool) (l : list A) : res (list A) :=
  match l with
  | [] => Ok []
  | x :: l' => b ← f x; rest ← res_filter f l'; Ok (if b : bool then x :: rest else rest)
  end.

Definition table_docs (keyspace : jsstr) (docs : list written_doc) : res (list written_doc) :=
  t ← tableOfKeyspaceId keyspace;
  res_filter (fun w => t' ← tableOfKeyspaceId (wd_keyspace w); Ok (bool_decide (t' = t))) docs.

Definition doc_at (byId : by_id_read) (docs : list written_doc) : option written_doc :=
  List.find (fun w => bool_decide (wd_keyspace w = bi_keyspace byId) && bool_decide (wd_key w = bi_key byId)) docs.

Definition row_map_of (h : handler) (key : jsstr) : row_map := default [] (jm_get (h_rowMaps h) key).

Definition incremental (qid : Z) (key : jsstr) (cn : list change * row_map) : hm modification :=
  set_rowMap key cn.2;;
  ret (QueryDiff qid cn.1 (driftChecksum cn.2) None None).

(** The by-id read the refresh supersedes. *)
Definition by_id_moved (old new : option by_id_read) : bool :=
  match old, new with
  | None, _ => false
  | Some _, None => true
  | Some o, Some n => negb (bool_decide (bi_keyspace n = bi_keyspace o) && bool_decide (bi_key n = bi_key o))
  end.

(** The re-run arm, with the engine's answer in hand. *)
Definition rerun_answer (sub : subscription) (commitTs : Z) (r : exec_result) : hm modification :=
  let* c := lift (classify r) in
  subs_add (Subscription (sub_sessionId sub) (sub_queryId sub) (sub_udfPath sub) (sub_args sub) (xr_tables r)
              (xr_readRanges r) (xr_globalTables r) (cl_byId c) (cl_either c) (sub_resumeKey sub));;
  modify (fun h => fire_if_global h (xr_globalTables r));;
  (match sub_resumeKey sub with
   | Some (k0 :: k) =>
       reg_upsert (k0 :: k) (xr_readRanges r) (xr_tables r) commitTs (is_some (cl_either c) || is_some (cl_byId c))
         (xr_globalTables r)
   | _ => ret tt
   end);;
  let key := subKey (sub_sessionId sub) (sub_queryId sub) in
  (if by_id_moved (sub_byId sub) (cl_byId c) then delete_rowMap key else ret tt);;
  (if is_some (sub_range sub) then delete_rowMap key else ret tt);;
  let* json_ := lift (result_json (xr_value r)) in
  ret (QueryUpdated (sub_queryId sub) json_ (Some (hashValue json_))).

Definition refresh (ex : executor) (sid : jsstr) (inv : write_invalidation) (sub : subscription) : hm modification :=
  let* s := gets (fun h => sess h sid) in
  let key := subKey (sub_sessionId sub) (sub_queryId sub) in
  match sub_range sub, sub_byId sub, ss_supportsQueryDiff s, wi_writtenDocs inv with
  | Some range, _, true, Some docs =>
      let* wds := lift (table_docs (rr_keyspace range) docs) in
      let* prev := gets (fun h => row_map_of h key) in
      let* cn := lift (rangeChangesFor range prev wds) in
      incremental (sub_queryId sub) key cn
  | None, Some byId, true, Some docs =>
      let* prev := gets (fun h => row_map_of h key) in
      incremental (sub_queryId sub) key (byIdChangesFor prev (doc_at byId docs))
  | _, _, _, _ =>
      let* r := lift (execSub ex s (sub_udfPath sub) (sub_args sub)) in
      rerun_answer sub (wi_commitTs inv) r
  end.

Fixpoint refresh_all (ex : executor) (sid : jsstr) (inv : write_invalidation) (subs : list subscription)
    (mods : list modification) (h : handler) : handler * list modification :=
  match subs with
  | [] => (h, mods)
  | sub :: subs' =>
      let '(h', m) := catching (sub_queryId sub) (refresh ex sid inv sub) h in
      refresh_all ex sid inv subs' (mods ++ [m]) h'
  end.

(** A global invalidation's timestamp is of another clock: the version
    stays. *)
Definition transition_end (inv : write_invalidation) (v : state_version) : state_version :=
  Ver (sv_querySet v) (if wi_global inv then sv_ts v else wi_commitTs inv).

Definition sendSessionTransition (ex : executor) (inv : write_invalidation) (h : handler)
    (g : jsstr * list subscription) : handler :=
  let '(h, mods) := refresh_all ex g.1 inv g.2 [] h in
  send_transition h g.1 (transition_end inv (ss_version (sess h g.1))) mods.

(** * The fan-out *)

Definition emitEmptyFrontier (h : handler) (sid : jsstr) (ts : Z) : handler :=
  send_transition h sid (Ver (sv_querySet (ss_version (sess h sid))) ts) [].

(** An empty origin is no origin. *)
Definition origin_id (o : option jsstr) : option jsstr :=
  match o with Some (c :: s) => Some (c :: s) | _ => None end.

Definition advanceOriginFrontier (h : handler) (originSessionId : option jsstr)
    (bySession : list (jsstr * list subscription)) (commitTs : Z) : handler :=
  match origin_id originSessionId with
  | None => h
  | Some sid =>
      if jm_has bySession sid then h
      else if negb (is_live h sid) || (commitTs <=? sv_ts (ss_version (sess h sid))) then h
      else let h := emitEmptyFrontier h sid commitTs in with_frontiers h (jm_delete (h_frontiers h) sid)
  end.

Definition sweep_frontier (drainTs : Z) (bySession : list (jsstr * list subscription)) (h : handler)
    (sf : jsstr * Z) : handler :=
  if drainTs <? sf.2 then h
  else
    let h := if is_live h sf.1 && (sv_ts (ss_version (sess h sf.1)) <? sf.2) && negb (jm_has bySession sf.1)
             then emitEmptyFrontier h sf.1 sf.2 else h in
    with_frontiers h (jm_delete (h_frontiers h) sf.1).
Definition sweepPendingFrontiers (h : handler) (drainTs : Z) (bySession : list (jsstr * list subscription)) : handler :=
  fold_left (sweep_frontier drainTs bySession) (h_frontiers h) h.

Definition group_sub (originSessionId : option jsstr) (m : list (jsstr * list subscription)) (sub : subscription)
    : list (jsstr * list subscription) :=
  if excludeOriginFromTransition opts && bool_decide (originSessionId = Some (sub_sessionId sub)) then m
  else jm_set m (sub_sessionId sub) (default [] (jm_get m (sub_sessionId sub)) ++ [sub]).
Definition group_by_session (originSessionId : option jsstr) (affected : list subscription)
    : list (jsstr * list subscription) := fold_left (group_sub originSessionId) affected [].

(** After the origin's own transition. *)
Definition notify_frontiers (h : handler) (inv : write_invalidation) (originSessionId : option jsstr)
    (bySession : list (jsstr * list subscription)) : handler :=
  if wi_global inv then h
  else sweepPendingFrontiers (advanceOriginFrontier h originSessionId bySession (wi_commitTs inv))
         (wi_commitTs inv) bySession.

(** What runs once the origin's gate is open. *)
Definition notify_finish (ex : executor) (h : handler) (p : parked_notify) : handler :=
  let h := sendSessionTransition ex (pk_inv p) h (pk_origin p, pk_subs p) in
  notify_frontiers h (pk_inv p) (Some (pk_origin p)) (pk_bySession p).

(** The origin's own list of subscriptions, when it waits for its response. *)
Definition origin_subs (h : handler) (originSessionId : option jsstr) (bySession : list (jsstr * list subscription))
    : option (jsstr * list subscription) :=
  match origin_id originSessionId with
  | None => None
  | Some sid =>
      match jm_get bySession sid with
      | Some subs => if is_live h sid && ss_supportsQueryDiff (sess h sid) then Some (sid, subs) else None
      | None => None
      end
  end.

Definition send_others (ex : executor) (inv : write_invalidation) (skip : option jsstr) (h : handler)
    (g : jsstr * list subscription) : handler :=
  if bool_decide (skip = Some g.1) then h
  else if is_live h g.1 then sendSessionTransition ex inv h g else h.

(** Up to the origin's gate; a write that does not decode rejects. *)
Definition doNotifyWrites (ex : executor) (now : Z) (inv : write_invalidation) (originSessionId : option jsstr)
    (h : handler) : handler * res unit :=
  match (if wi_global inv then Ok (h_registry h)
         else advanceOnCommit (h_registry h) (wi_ranges inv) (wi_tables inv) (wi_commitTs inv)) with
  | Throw e => (h, Throw e)
  | Ok g =>
      let h := with_registry h (sweep g now) in
      match findAffectedByRanges (h_subs h) (wi_ranges inv) (wi_tables inv) with
      | Throw e => (h, Throw e)
      | Ok affected =>
          let bySession := group_by_session originSessionId affected in
          let origin := origin_subs h originSessionId bySession in
          let h := fold_left (send_others ex inv (fst <$> origin)) bySession h in
          match origin with
          | None => (notify_frontiers h inv originSessionId bySession, Ok tt)
          | Some (sid, subs) =>
              let p := Parked inv sid subs bySession in
              if jm_has (h_gates h) (wi_commitTs inv) then (with_parked h (Some p), Ok tt)
              else (notify_finish ex h p, Ok tt)
          end
      end
  end.

(** The parked unit goes on when its gate is released. *)
Definition notify_resume (ex : executor) (h : handler) : handler :=
  match h_parked h with
  | None => h
  | Some p => if jm_has (h_gates h) (wi_commitTs (pk_inv p)) then h else notify_finish ex (with_parked h None) p
  end.

(** * Mutations *)

Definition mutationResponseTs (commitTs : Z) : option Z := if 0 <? commitTs then Some commitTs else None.

(** [r.code ?? ...] *)
Definition replay_code (v : verdict) (code : option jsstr) : option jsstr :=
  match code with Some c => Some c | None => match v with VStale => Some (js "STALE_CLIENT") | _ => None end end.

Definition fail_response (h : handler) (sid requestId : jsstr) (e : js_error) (committedTs : option Z)
    (retryable : bool) (code : option jsstr) : handler :=
  let h := match committedTs with Some t => releaseOriginResponseGate h t | None => h end in
  send h sid (MutationFailed requestId (error_message e) (if retryable then None else code)).

(** The writes to notify when the handler does so itself. *)
Definition processMutation (sid requestId : jsstr) (outcome : mutation_result) (h : handler)
    : handler * bool * option write_invalidation :=
  match outcome with
  | MutationReplay VApplied ts rv missing _ =>
      match (if missing then Ok None else j ← result_json rv; Ok (Some j)) with
      | Ok v => (send h sid (MutationOk requestId v (t ← ts; mutationResponseTs t) true missing), true, None)
      | Throw e => (fail_response h sid requestId e None false None, true, None)
      end
  | MutationReplay v _ _ _ code =>
      (send h sid (MutationFailed requestId (default (js "mutation failed") (replay_code v code)) (replay_code v code)),
       true, None)
  | MutationRan v tables writeRanges commitTs forwarded =>
      match result_json v with
      | Throw e => (fail_response h sid requestId e None false None, true, None)
      | Ok j =>
          let h := send h sid (MutationOk requestId (Some j) (mutationResponseTs commitTs) false false) in
          let h := releaseOriginResponseGate h commitTs in
          let h :=
            if forwarded && (0 <? commitTs) then
              match jm_get (h_frontiers h) sid with
              | Some prev => if prev <? commitTs then with_frontiers h (jm_set (h_frontiers h) sid commitTs) else h
              | None => with_frontiers h (jm_set (h_frontiers h) sid commitTs)
              end
            else h in
          (h, true,
           if autoNotifyOnMutation opts then Some (WriteInvalidation tables writeRanges commitTs None false) else None)
      end
  | MutationThrew e committedTs retryable code =>
      (fail_response h sid requestId e committedTs retryable code, negb retryable, None)
  end.

(** A batch goes on past terminal failures and stops at a transient one. *)
Fixpoint handleMutationBatch (sid : jsstr) (entries : list (jsstr * mutation_result)) (h : handler)
    : handler * list write_invalidation :=
  match entries with
  | [] => (h, [])
  | (requestId, outcome) :: rest =>
      let '(h, go_on, inv) := processMutation sid requestId outcome h in
      let invs := match inv with Some i => [i] | None => [] end in
      if go_on : bool then let '(h, more) := handleMutationBatch sid rest h in (h, invs ++ more) else (h, invs)
  end.

(** * The other messages *)

(** [classify] and [deploymentId] are the executor's; absent ones make the
    handshake a no-op. *)
Definition handleConnect (sid : jsstr) (supportsQueryDiff : bool) (presented : bool)
    (held acked : list mutation_ref) (receipts : option ((mutation_ref -> client_verdict) * jsstr)) (h : handler)
    : handler :=
  let s := sess h sid in
  let h := set_sess h sid (Session (ss_version s) (ss_identity s) (ss_privileged s) supportsQueryDiff) in
  if negb presented then h
  else match receipts with
  | None => h
  | Some (classify, deploymentId) =>
      let results := classify <$> held in
      let recognized := existsb (fun v => match cv_verdict v with VUnknown => false | _ => true end)
                          (results ++ (classify <$> acked)) in
      let presentedAny := match held ++ acked with [] => false | _ :: _ => true end in
      send h sid (ConnectAck (if presentedAny then recognized else true) results deploymentId)
  end.

Definition handleAction (sid requestId : jsstr) (outcome : res js_result) (h : handler) : handler :=
  match (v ← outcome; result_json v) with
  | Ok j => send h sid (ActionOk requestId j)
  | Throw e => send h sid (ActionFailed requestId (error_message e))
  end.

Definition publishEphemeral (topic : jsstr) (event : json) (fromSessionId : option jsstr) (h : handler) : handler :=
  fold_left (fun h sid => if bool_decide (fromSessionId = Some sid) then h else send h sid (Broadcast topic event))
    (h_live h) h.

(** * Events *)

Inductive h_event :=
  | EvConnect (sid : jsstr)
  | EvDisconnect (sid : jsstr) (now : Z)
  | EvHello (sid : jsstr) (supportsQueryDiff presented : bool) (held acked : list mutation_ref)
      (receipts : option ((mutation_ref -> client_verdict) * jsstr))
  | EvModifyQuerySet (sid : jsstr) (add : list query_request) (remove : list Z) (now : Z) (ex : executor)
  | EvSetAuth (sid : jsstr) (token : option jsstr) (now : Z) (ex : executor)
  | EvSetAdminAuth (sid key : jsstr)
  | EvMutation (sid requestId : jsstr) (outcome : mutation_result)
  | EvAction (sid requestId : jsstr) (outcome : res js_result)
  | EvEphemeral (topic : jsstr) (event : json) (from : option jsstr)
  | EvCommit (commitTs : Z) (origin : option jsstr)
  | EvNotify (inv : write_invalidation) (origin : option jsstr) (now : Z) (ex : executor)
  | EvResume (ex : executor)
  | EvSweep (now : Z).

(** The tail is free when nothing is parked on it. *)
Definition tail_free (h : handler) : bool := match h_parked h with None => true | Some _ => false end.

(** A message needs a live session, a session id is used for one connection,
    and the units of the tail wait for each other. *)
Definition enabled (h : handler) (e : h_event) : bool :=
  match e with
  | EvConnect sid => negb (jm_has (h_objects h) sid)
  | EvModifyQuerySet sid _ _ _ _ => is_live h sid && tail_free h
  | EvHello sid _ _ _ _ _ | EvSetAuth sid _ _ _ | EvSetAdminAuth sid _ | EvMutation sid _ _ | EvAction sid _ _ =>
      is_live h sid
  | EvNotify _ _ _ _ => tail_free h
  | _ => true
  end.

Definition h_step (h : handler) (e : h_event) : handler :=
  match e with
  | EvConnect sid => connect h sid
  | EvDisconnect sid now => disconnect h sid now
  | EvHello sid sq p held acked rc => handleConnect sid sq p held acked rc h
  | EvModifyQuerySet sid add remove now ex => doModifyQuerySet ex now sid add remove h
  | EvSetAuth sid token now ex => handleSetAuth ex now sid token h
  | EvSetAdminAuth sid key => handleSetAdminAuth opts sid key h
  | EvMutation sid rid outcome => (processMutation sid rid outcome h).1.1
  | EvAction sid rid outcome => handleAction sid rid outcome h
  | EvEphemeral topic event from => publishEphemeral topic event from h
  | EvCommit ts origin => registerOriginResponseGate h ts origin
  | EvNotify inv origin now ex => (doNotifyWrites ex now inv origin h).1
  | EvResume ex => notify_resume ex h
  | EvSweep now => with_registry h (sweep (h_registry h) now)
  end.

Inductive h_run (h : handler) : list h_event -> handler -> Prop :=
  | run_nil : h_run h [] h
  | run_cons e es h' : enabled h e = true -> h_run (h_step h e) es h' -> h_run h (e :: es) h'.
End fanout.
