(* ===== verification/SyncProperties.v ===== *)
(** What the sync handler guarantees its sessions, over every run of its
    events. *)
From Stdlib Require Import ZArith Lia.
From stdpp Require Import base list sets strings.
From S2P Require Import Prelude JsBase JsText KeyRanges Values ValuesJson DocStore Query Transactor StateRes RowDiff ReadIndex Subscriptions ResumeRegistry SyncProtocol SyncHandler SyncFanout.

(** * Operations that send nothing *)

Create HintDb quiet.

(** A computation that leaves the sessions, the output, the gates and the
    parked unit alone. *)
Record same_face (h h' : handler) : Prop := {
  sf_out : h_out h' = h_out h;
  sf_objects : h_objects h' = h_objects h;
  sf_live : h_live h' = h_live h;
  sf_gates : h_gates h' = h_gates h;
  sf_frontiers : h_frontiers h' = h_frontiers h;
  sf_parked : h_parked h' = h_parked h }.

#[export] Instance same_face_refl : Reflexive same_face.
Proof. by intros h. Qed.
#[export] Instance same_face_trans : Transitive same_face.
Proof. intros a b c [] []. split; congruence. Qed.

Definition quiet {A} (m : hm A) : Prop := keeps same_face m.

Lemma hushed_bind {A B} (m : hm A) (f : A -> hm B) : quiet m -> (forall x, quiet (f x)) -> quiet (bind m f).
Proof. apply keeps_bind, same_face_trans. Qed.
Lemma hushed_modify f : (forall h, same_face h (f h)) -> quiet (modify f).
Proof. apply keeps_modify. Qed.
Lemma hushed_ret {A} (x : A) : quiet (ret x).
Proof. apply keeps_ret, same_face_refl. Qed.
Lemma hushed_lift {A} (r : res A) : quiet (lift r).
Proof. apply keeps_lift, same_face_refl. Qed.
Lemma hushed_gets {A} (f : handler -> A) : quiet (gets f).
Proof. apply keeps_gets, same_face_refl. Qed.
Lemma quiet_subs_add sub : quiet (subs_add sub).
Proof. intros h. unfold subs_add. by destruct (sm_add _ _). Qed.
Lemma quiet_reg_upsert k rr ts t wd gl : quiet (reg_upsert k rr ts t wd gl).
Proof. intros h. unfold reg_upsert. by destruct (upsert _ _ _ _ _ _ _). Qed.
Lemma quiet_reg_retain k : quiet (reg_retain k).
Proof. by apply hushed_modify. Qed.
Lemma quiet_set_rowMap k m : quiet (set_rowMap k m).
Proof. by apply hushed_modify. Qed.
Lemma quiet_delete_rowMap k : quiet (delete_rowMap k).
Proof. by apply hushed_modify. Qed.
Lemma quiet_fire gl : quiet (modify (fun h => fire_if_global h gl)).
Proof. apply hushed_modify. intros h. by destruct gl. Qed.
Lemma quiet_release now sub : quiet (modify (fun h => with_registry h (release_sub now (h_registry h) sub))).
Proof. by apply hushed_modify. Qed.

#[export] Hint Resolve hushed_ret hushed_lift hushed_gets quiet_subs_add quiet_reg_upsert quiet_reg_retain
  quiet_set_rowMap quiet_delete_rowMap quiet_fire quiet_release : quiet.
#[export] Hint Extern 1 (quiet (bind _ _)) => apply hushed_bind; [|intros ?] : quiet.

(** Case analysis on what decides an arm, then the hints. *)
Ltac solve_quiet :=
  repeat first [ apply hushed_bind; [|intros ?] | progress cbv zeta | solve [eauto with quiet]
               | case_match ].

Section quiet.
Context `{JsHost}.

Lemma quiet_answer_diff sid q j r cn : quiet (answer_diff sid q j r cn).
Proof. unfold answer_diff. solve_quiet. Qed.
#[local] Hint Resolve quiet_answer_diff : quiet.

Lemma quiet_answer_query sid q r : quiet (answer_query sid q r).
Proof. unfold answer_query. solve_quiet. Qed.
Lemma quiet_answer_skip sid q e : quiet (answer_skip sid q e).
Proof. unfold answer_skip. solve_quiet. Qed.
Lemma quiet_reauth_one ex now sid sub : quiet (reauth_one ex now sid sub).
Proof. unfold reauth_one. solve_quiet. Qed.
Lemma quiet_rerun_answer sub ts r : quiet (rerun_answer sub ts r).
Proof. unfold rerun_answer. solve_quiet. Qed.
Lemma quiet_refresh ex sid inv sub : quiet (refresh ex sid inv sub).
Proof. unfold refresh, incremental. pose proof (quiet_rerun_answer sub (wi_commitTs inv)). solve_quiet. Qed.

Lemma catching_face qid m h : quiet m -> same_face h (catching qid m h).1.
Proof. intros Hm. unfold catching. specialize (Hm h). by destruct (m h) as [h' [x|e]]. Qed.

Lemma subscribe_one_face ex sid q h : same_face h (subscribe_one ex sid q h).1.
Proof.
  unfold subscribe_one. apply catching_face. destruct (resume_skip h sid q); [apply quiet_answer_skip|].
  pose proof quiet_answer_query. solve_quiet.
Qed.

Lemma subscribe_all_face ex sid qs mods h : same_face h (subscribe_all ex sid qs mods h).1.
Proof.
  revert mods h. induction qs as [|q qs IH]; intros mods h; [done|]. cbn [subscribe_all].
  pose proof (subscribe_one_face ex sid q h) as Hq. destruct (subscribe_one _ _ _ _) as [h' m]. etrans; [exact Hq|apply IH].
Qed.

Lemma reauth_all_face ex now sid subs mods h : same_face h (reauth_all ex now sid subs mods h).1.
Proof.
  revert mods h. induction subs as [|sub subs IH]; intros mods h; [done|]. cbn [reauth_all].
  pose proof (catching_face (sub_queryId sub) _ h (quiet_reauth_one ex now sid sub)) as Hq.
  destruct (catching _ _ _) as [h' m]. etrans; [exact Hq|apply IH].
Qed.

Lemma refresh_all_face ex sid inv subs mods h : same_face h (refresh_all ex sid inv subs mods h).1.
Proof.
  revert mods h. induction subs as [|sub subs IH]; intros mods h; [done|]. cbn [refresh_all].
  pose proof (catching_face (sub_queryId sub) _ h (quiet_refresh ex sid inv sub)) as Hq.
  destruct (catching _ _ _) as [h' m]. etrans; [exact Hq|apply IH].
Qed.

Lemma unsubscribe_face now sid qs h : same_face h (fold_left (unsubscribe_one now sid) qs h).
Proof.
  revert h. induction qs as [|q qs IH]; intros h; [done|]. cbn. etrans; [|apply IH].
  unfold unsubscribe_one. by destruct (sm_get _ _ _).
Qed.
End quiet.

(** * Version brackets *)

Definition frames (sid : jsstr) (out : list (jsstr * server_message)) : list server_message :=
  omap (fun sm => if decide (sm.1 = sid) then Some sm.2 else None) out.

Lemma frames_app sid a b : frames sid (a ++ b) = frames sid a ++ frames sid b.
Proof. apply omap_app. Qed.

Definition ver (h : handler) (sid : jsstr) : state_version := ss_version (sess h sid).

(** From [h] to [h'] each session was sent frames whose brackets lead from its
    old version to its new one. *)
Definition ext (h h' : handler) : Prop :=
  exists new, h_out h' = h_out h ++ new /\ forall sid, bracketed (ver h sid) (frames sid new) (ver h' sid).

#[export] Instance ext_refl : Reflexive ext.
Proof. intros h. exists []. rewrite app_nil_r. done. Qed.
#[export] Instance ext_trans : Transitive ext.
Proof.
  intros a b c (n1 & H1 & B1) (n2 & H2 & B2). exists (n1 ++ n2). rewrite H2, H1, (assoc_L (++)). split; [done|].
  intros sid. rewrite frames_app, bracketed_app. eauto.
Qed.

Lemma ext_still h h' : h_out h' = h_out h -> (forall sid, ver h' sid = ver h sid) -> ext h h'.
Proof. intros Ho Hv. exists []. rewrite Ho, app_nil_r. split; [done|]. intros sid. by rewrite Hv. Qed.

Lemma ext_face h h' : same_face h h' -> ext h h'.
Proof. intros []. apply ext_still; [done|]. intros sid. unfold ver, sess. by rewrite sf_objects0. Qed.

Lemma sess_set h sid s sid' : sess (set_sess h sid s) sid' = if decide (sid' = sid) then s else sess h sid'.
Proof. unfold sess, set_sess. cbn. rewrite jm_get_set. by case_decide. Qed.

Lemma ext_transition h sid en mods : ext h (send_transition h sid en mods).
Proof.
  exists [(sid, Transition (ver h sid) en mods)]. split; [done|]. intros sid'. unfold ver, send_transition.
  change (sess (send ?a ?b ?c) sid') with (sess a sid'). rewrite sess_set. cbn.
  destruct (decide (sid = sid')) as [->|Hne]; cbn; [rewrite decide_True by done|rewrite decide_False by congruence]; done.
Qed.

Lemma ext_send h sid m : is_transition m = false -> ext h (send h sid m).
Proof.
  intros Hm. exists [(sid, m)]. split; [done|]. intros sid'. cbn.
  destruct (decide (sid = sid')); [|done]. by destruct m.
Qed.

Lemma ext_set_sess h sid s : ss_version s = ver h sid -> ext h (set_sess h sid s).
Proof. intros Hs. apply ext_still; [done|]. intros sid'. unfold ver. rewrite sess_set. by case_decide; subst. Qed.

Lemma ext_fold {A} (f : handler -> A -> handler) l h : (forall h x, ext h (f h x)) -> ext h (fold_left f l h).
Proof.
  intros Hf. revert h. induction l as [|x l IH]; intros h; [done|]. cbn. etrans; [apply Hf|apply IH].
Qed.

Section brackets.
Context `{JsHost} (opts : handler_options).

Lemma ext_session_transition ex inv h g : ext h (sendSessionTransition ex inv h g).
Proof.
  unfold sendSessionTransition. pose proof (refresh_all_face ex g.1 inv g.2 [] h) as Hf.
  destruct (refresh_all _ _ _ _ _ _) as [h' mods]. etrans; [exact (ext_face _ _ Hf)|apply ext_transition].
Qed.

Lemma ext_frontiers_field h f : ext h (with_frontiers h f).
Proof. by apply ext_still. Qed.

Lemma ext_notify_frontiers h inv o bs : ext h (notify_frontiers h inv o bs).
Proof.
  unfold notify_frontiers. destruct (wi_global inv); [done|]. etrans; [|apply ext_fold].
  - unfold advanceOriginFrontier. destruct (origin_id o) as [sid|]; [|done].
    destruct (jm_has bs sid); [done|]. destruct (_ || _); [done|].
    etrans; [apply ext_transition|apply ext_frontiers_field].
  - intros h' sf. unfold sweep_frontier. destruct (_ <? _); [done|].
    destruct (_ && _); [|by apply ext_still]. etrans; [apply ext_transition|apply ext_frontiers_field].
Qed.

Lemma ext_finish ex h p : ext h (notify_finish ex h p).
Proof. unfold notify_finish. etrans; [apply ext_session_transition|apply ext_notify_frontiers]. Qed.

Lemma ext_notify ex now inv o h : ext h (doNotifyWrites opts ex now inv o h).1.
Proof.
  unfold doNotifyWrites. destruct (if wi_global inv then _ else _) as [g|e]; [|done].
  set (h1 := with_registry h (sweep g now)). assert (H1 : ext h h1) by by apply ext_still.
  destruct (findAffectedByRanges _ _ _) as [aff|e]; [|done].
  set (bs := group_by_session opts o aff). set (og := origin_subs h1 o bs).
  assert (H2 : ext h (fold_left (send_others ex inv (fst <$> og)) bs h1)).
  { etrans; [exact H1|]. apply ext_fold. intros h' g'. unfold send_others.
    destruct (bool_decide _); [done|]. destruct (is_live h' g'.1); [apply ext_session_transition|done]. }
  destruct og as [[sid subs]|].
  - destruct (jm_has _ _); cbn [fst]; [etrans; [exact H2|by apply ext_still]|etrans; [exact H2|apply ext_finish]].
  - etrans; [exact H2|apply ext_notify_frontiers].
Qed.

Lemma ext_fail h sid rid e ts r c : ext h (fail_response h sid rid e ts r c).
Proof. unfold fail_response. destruct ts; (etrans; [|by apply ext_send]); by apply ext_still. Qed.

Lemma ext_mutation sid rid o h : ext h (processMutation opts sid rid o h).1.1.
Proof.
  unfold processMutation. destruct o as [v tables wr ts fw|v ts rv missing code|e ts r code].
  - destruct (result_json v) as [j|e]; [|apply ext_fail]. cbn [fst]. etrans; [by apply (ext_send h sid (MutationOk rid (Some j) (mutationResponseTs ts) false false))|].
    destruct (_ && _); [destruct (jm_get _ _); [destruct (_ <? _)|]|]; by apply ext_still.
  - destruct v; try by apply ext_send. destruct (if missing then _ else _); [by apply ext_send|apply ext_fail].
  - apply ext_fail.
Qed.

Lemma ext_step h e : enabled h e = true -> ext h (h_step opts h e).
Proof.
  intros He. destruct e; cbn [h_step].
  - apply ext_still; [done|]. intros sid'. unfold ver, sess, connect. cbn. rewrite jm_get_set. cbn in He.
    case_decide; [|done]. subst. unfold jm_has in He. by destruct (jm_get (h_objects h) sid).
  - by apply ext_still.
  - unfold handleConnect. set (s' := Session _ _ _ _).
    assert (Hs : ext h (set_sess h sid s')) by by apply ext_set_sess.
    destruct (negb presented); [done|]. destruct receipts as [[cl dep]|]; [|done].
    etrans; [exact Hs|by apply ext_send].
  - unfold doModifyQuerySet. pose proof (subscribe_all_face ex sid add [] h) as Hf.
    destruct (subscribe_all _ _ _ _ _) as [h1 mods]. etrans; [exact (ext_face _ _ Hf)|].
    etrans; [apply ext_face, unsubscribe_face|apply ext_transition].
  - unfold handleSetAuth. assert (Hs : ext h (set_identity h sid token)) by by apply ext_set_sess.
    etrans; [exact Hs|].
    pose proof (reauth_all_face ex now sid (forSession (h_subs (set_identity h sid token)) sid) [] (set_identity h sid token)) as Hf.
    destruct (reauth_all _ _ _ _ _ _) as [h1 mods]. etrans; [exact (ext_face _ _ Hf)|apply ext_transition].
  - by apply ext_set_sess.
  - apply ext_mutation.
  - unfold handleAction. destruct (v ← outcome; result_json v); by apply ext_send.
  - unfold publishEphemeral. apply ext_fold. intros h' sid. destruct (bool_decide _); [done|by apply ext_send].
  - unfold registerOriginResponseGate. destruct origin as [sid|]; [|done]. destruct (negb _); [done|].
    destruct (jm_has _ _); by apply ext_still.
  - apply ext_notify.
  - unfold notify_resume. destruct (h_parked h) as [p|]; [|done]. destruct (jm_has _ _); [done|].
    etrans; [|apply ext_finish]. by apply ext_still.
  - by apply ext_still.
Qed.

Lemma ext_run h es h' : h_run opts h es h' -> ext h h'.
Proof. induction 1 as [|h e es h' He _ IH]; [done|]. etrans; [by apply ext_step|exact IH]. Qed.

(** Over every run, the transitions handed to a session's queue are
    bracketed: the first starts at the initial version, each starts where the
    one before ended, and the last ends at the session's version; whatever the
    fan-out, query-set changes, authentication, frontier advances, replays and
    failures in between. *)
Theorem transitions_bracketed es h sid :
  h_run opts handler_new es h -> bracketed INITIAL_VERSION (frames sid (h_out h)) (ver h sid).
Proof. intros (new & Ho & Hb)%ext_run. rewrite Ho. apply Hb. Qed.
End brackets.
