(* ===== verification/SyncDelivery.v ===== *)
(** What reaches a session: no lost frame goes unnoticed, and a session's own
    write reaches it behind the response that announced it. *)
From Stdlib Require Import ZArith Lia.
From stdpp Require Import base list sets strings.
From S2P Require Import Prelude JsBase JsText KeyRanges Values ValuesJson DocStore Query Transactor StateRes RowDiff ReadIndex Subscriptions ResumeRegistry SyncProtocol SyncHandler SyncFanout SyncProperties.

(** * Frames that advance *)

Definition sent_advancing (h h' : handler) : Prop :=
  exists new, h_out h' = h_out h ++ new /\ Forall (fun sm => advances sm.2) new.

#[export] Instance sent_advancing_refl : Reflexive sent_advancing.
Proof. intros h. exists []. by rewrite app_nil_r. Qed.
#[export] Instance sent_advancing_trans : Transitive sent_advancing.
Proof.
  intros a b c (n1 & H1 & A1) (n2 & H2 & A2). exists (n1 ++ n2). rewrite H2, H1, (assoc_L (++)). split; [done|].
  by apply Forall_app.
Qed.

Lemma sent_nothing h h' : h_out h' = h_out h -> sent_advancing h h'.
Proof. intros Ho. exists []. by rewrite Ho, app_nil_r. Qed.

(** Nothing that concerns versions. *)
Record calm (h h' : handler) : Prop := {
  calm_sent : sent_advancing h h';
  calm_ver : forall sid, ver h' sid = ver h sid;
  calm_parked : h_parked h' = h_parked h }.

#[export] Instance calm_refl : Reflexive calm.
Proof. by intros h. Qed.
#[export] Instance calm_trans : Transitive calm.
Proof.
  intros a b c [S1 V1 P1] [S2 V2 P2]. split; [by etrans| |congruence]. intros sid. by rewrite V2.
Qed.

Lemma calm_face h h' : same_face h h' -> calm h h'.
Proof. intros []. split; [by apply sent_nothing| |done]. intros sid. unfold ver, sess. by rewrite sf_objects. Qed.

Lemma calm_send h sid m : is_transition m = false -> calm h (send h sid m).
Proof. intros Hm. split; [|done..]. exists [(sid, m)]. split; [done|]. constructor; [by destruct m|constructor]. Qed.

Lemma calm_set_sess h sid s : ss_version s = ver h sid -> calm h (set_sess h sid s).
Proof. intros Hs. split; [by apply sent_nothing| |done]. intros sid'. unfold ver. rewrite sess_set. by case_decide; subst. Qed.

Lemma calm_fold {A} (f : handler -> A -> handler) l h : (forall h x, calm h (f h x)) -> calm h (fold_left f l h).
Proof. intros Hf. revert h. induction l as [|x l IH]; intros h; [done|]. cbn. etrans; [apply Hf|apply IH]. Qed.

Create HintDb calm.
#[export] Hint Resolve calm_send : calm.

(** Fields that no version depends on. *)
Lemma calm_same h h' :
  h_out h' = h_out h -> h_objects h' = h_objects h -> h_parked h' = h_parked h -> calm h h'.
Proof. intros Ho Hb Hp. split; [by apply sent_nothing| |done]. intros sid. unfold ver, sess. by rewrite Hb. Qed.

(** * Transitions *)

Lemma ver_transition h sid en mods sid' :
  ver (send_transition h sid en mods) sid' = if decide (sid' = sid) then en else ver h sid'.
Proof.
  unfold ver, send_transition. change (sess (send ?a ?b ?c) sid') with (sess a sid'). rewrite sess_set. by case_decide.
Qed.

Lemma advancing_transition h sid en mods :
  version_le (ver h sid) en -> ver h sid <> en -> sent_advancing h (send_transition h sid en mods).
Proof. intros Hle Hne. exists [(sid, Transition (ver h sid) en mods)]. split; [done|]. apply Forall_singleton. by split. Qed.

(** A transition to a later timestamp. *)
Record moves (sid : jsstr) (ts : Z) (h h' : handler) : Prop := {
  mv_sent : sent_advancing h h';
  mv_ts : sv_ts (ver h' sid) = ts;
  mv_others : forall sid', sid' <> sid -> ver h' sid' = ver h sid';
  mv_parked : h_parked h' = h_parked h }.

Lemma moves_transition h sid ts mods :
  sv_ts (ver h sid) < ts -> moves sid ts h (send_transition h sid (Ver (sv_querySet (ver h sid)) ts) mods).
Proof.
  intros Hlt. split; [|by rewrite ver_transition, decide_True by done| |done].
  - apply advancing_transition; [split; cbn; lia|]. intros Heq. apply (f_equal sv_ts) in Heq. cbn in Heq. lia.
  - intros sid' Hne. by rewrite ver_transition, decide_False by done.
Qed.

Lemma moves_calm_l sid ts h h1 h2 : calm h h1 -> moves sid ts h1 h2 -> moves sid ts h h2.
Proof. intros [S V P] [S' V' O' P']. split; [by etrans|done| |congruence]. intros sid' ?. by rewrite O', V. Qed.
Lemma moves_calm_r sid ts h h1 h2 : moves sid ts h h1 -> calm h1 h2 -> moves sid ts h h2.
Proof. intros [S' V' O' P'] [S V P]. split; [by etrans|by rewrite V| |congruence]. intros sid' ?. by rewrite V, O'. Qed.

(** Every session is at [ts] or before. *)
Definition upto (ts : Z) (h : handler) : Prop := forall sid, sv_ts (ver h sid) <= ts.

Lemma upto_calm ts h h' : calm h h' -> upto ts h -> upto ts h'.
Proof. intros Hc Hu sid. rewrite (calm_ver _ _ Hc). apply Hu. Qed.
Lemma upto_moves sid ts ts' h h' : moves sid ts' h h' -> ts' <= ts -> upto ts h -> upto ts h'.
Proof.
  intros Hm Hle Hu s. destruct (decide (s = sid)) as [->|Hne]; [by rewrite (mv_ts _ _ _ _ Hm)|].
  rewrite (mv_others _ _ _ _ Hm s Hne). apply Hu.
Qed.

Section delivery.
Context `{JsHost} (opts : handler_options).

Lemma moves_session ex inv h g :
  wi_global inv = false -> sv_ts (ver h g.1) < wi_commitTs inv ->
  moves g.1 (wi_commitTs inv) h (sendSessionTransition ex inv h g).
Proof.
  intros Hg Hlt. unfold sendSessionTransition. pose proof (refresh_all_face ex g.1 inv g.2 [] h) as Hf.
  destruct (refresh_all _ _ _ _ _ _) as [h' mods]. apply calm_face in Hf. cbn [fst] in Hf.
  eapply moves_calm_l; [exact Hf|]. unfold transition_end. rewrite Hg. apply moves_transition.
  by rewrite (calm_ver _ _ Hf).
Qed.

Lemma frontier_moves h sid ts : sv_ts (ver h sid) < ts -> moves sid ts h (emitEmptyFrontier h sid ts).
Proof. apply moves_transition. Qed.

(** What a frontier step does: nothing, or one transition up to [ts]. *)
Definition settles (ts : Z) (h h' : handler) : Prop :=
  upto ts h -> sent_advancing h h' /\ upto ts h' /\ h_parked h' = h_parked h.

Lemma settles_calm ts h h' : calm h h' -> settles ts h h'.
Proof. intros Hc Hu. split_and!; [apply Hc|by eapply upto_calm|apply Hc]. Qed.
Lemma settles_moves sid ts ts' h h' : moves sid ts' h h' -> ts' <= ts -> settles ts h h'.
Proof. intros Hm Hle Hu. split_and!; [apply Hm|by eapply upto_moves|apply Hm]. Qed.
Lemma settles_trans ts a b c : settles ts a b -> settles ts b c -> settles ts a c.
Proof.
  intros H1 H2 Hu. destruct (H1 Hu) as (S1 & U1 & P1). destruct (H2 U1) as (S2 & U2 & P2).
  split_and!; [by etrans|done|congruence].
Qed.

Lemma calm_frontiers h f : calm h (with_frontiers h f).
Proof. by apply calm_same. Qed.

Lemma settles_origin h o bs ts : settles ts h (advanceOriginFrontier h o bs ts).
Proof.
  unfold advanceOriginFrontier. destruct (origin_id o) as [sid|]; [|by apply settles_calm].
  destruct (jm_has bs sid); [by apply settles_calm|].
  destruct (negb (is_live h sid)) eqn:E1; cbn [orb]; [by apply settles_calm|].
  destruct (ts <=? _) eqn:E2; [by apply settles_calm|]. apply Z.leb_gt in E2.
  eapply settles_moves; [|reflexivity]. eapply moves_calm_r; [by apply frontier_moves|apply calm_frontiers].
Qed.

Lemma settles_sweep_frontier ts bs h sf : settles ts h (sweep_frontier ts bs h sf).
Proof.
  unfold sweep_frontier. destruct (ts <? sf.2) eqn:E; [by apply settles_calm|]. apply Z.ltb_ge in E.
  destruct (_ && _ && _) eqn:E2; [|by apply settles_calm, calm_frontiers].
  apply andb_true_iff in E2 as [E2 _]. apply andb_true_iff in E2 as [_ E2]. apply Z.ltb_lt in E2.
  eapply settles_moves; [|exact E]. eapply moves_calm_r; [by apply frontier_moves|apply calm_frontiers].
Qed.

Lemma settles_frontiers h inv o bs : settles (wi_commitTs inv) h (notify_frontiers h inv o bs).
Proof.
  unfold notify_frontiers. destruct (wi_global inv); [by apply settles_calm|].
  apply (settles_trans _ _ _ _ (settles_origin h o bs _)). unfold sweepPendingFrontiers.
  generalize (advanceOriginFrontier h o bs (wi_commitTs inv)) as h0. intros h0.
  generalize (h_frontiers h0) as l. intros l. revert h0.
  induction l as [|sf l IH]; intros h0; [by apply settles_calm|]. cbn [fold_left].
  eapply settles_trans; [apply settles_sweep_frontier|apply IH].
Qed.

Lemma settles_finish ex h p :
  wi_global (pk_inv p) = false -> sv_ts (ver h (pk_origin p)) < wi_commitTs (pk_inv p) ->
  settles (wi_commitTs (pk_inv p)) h (notify_finish ex h p).
Proof.
  intros Hg Hlt. unfold notify_finish. eapply settles_trans; [|apply settles_frontiers].
  eapply (settles_moves (pk_origin p)); [by apply (moves_session ex (pk_inv p) h (pk_origin p, pk_subs p))|done].
Qed.

(** The fan-out to the others: each of them once. *)
Lemma settles_others ex inv skip gs h :
  wi_global inv = false -> NoDup (jm_keys gs) -> (forall sid, sid ∈ jm_keys gs -> sv_ts (ver h sid) < wi_commitTs inv) ->
  settles (wi_commitTs inv) h (fold_left (send_others ex inv skip) gs h) /\
  (forall sid, skip = Some sid -> ver (fold_left (send_others ex inv skip) gs h) sid = ver h sid).
Proof.
  intros Hg. revert h. induction gs as [|g gs IH]; intros h Hnd Hlt; [split; [by apply settles_calm|done]|].
  cbn [fold_left]. apply NoDup_cons in Hnd as [Hg1 Hnd].
  assert (Hlt1 : sv_ts (ver h g.1) < wi_commitTs inv) by (apply Hlt; cbn; by left).
  assert (Hstep : settles (wi_commitTs inv) h (send_others ex inv skip h g) /\
    (forall sid, sid <> g.1 \/ skip = Some sid -> ver (send_others ex inv skip h g) sid = ver h sid)).
  { unfold send_others. case_bool_decide as Hs; [split; [by apply settles_calm|done]|].
    destruct (is_live h g.1); [|split; [by apply settles_calm|done]].
    pose proof (moves_session ex inv h g Hg Hlt1) as Hm. split; [by eapply settles_moves|].
    intros sid Hsid. apply (mv_others _ _ _ _ Hm). destruct Hsid as [|Hsid]; [done|congruence]. }
  destruct Hstep as [Hset Hver].
  destruct (IH (send_others ex inv skip h g) Hnd) as [Hset' Hver'].
  { intros sid Hin. rewrite Hver; [apply Hlt; cbn; by right|]. left. intros ->. done. }
  split; [by eapply settles_trans|]. intros sid Hs. rewrite (Hver' sid Hs). apply Hver. by right.
Qed.

Lemma group_nodup o affected : NoDup (jm_keys (group_by_session opts o affected)).
Proof.
  unfold group_by_session. assert (Hg : forall m, NoDup (jm_keys m) -> NoDup (jm_keys (fold_left (group_sub opts o) affected m))).
  { induction affected as [|sub l IH]; intros m Hm; [done|]. cbn [fold_left]. apply IH. unfold group_sub.
    destruct (_ && _); [done|]. by apply jm_nodup_set. }
  apply Hg. constructor.
Qed.

(** A parked unit's transition is still ahead of its session. *)
Definition parked_ok (ts : Z) (h : handler) : Prop :=
  forall p, h_parked h = Some p ->
    wi_global (pk_inv p) = false /\ wi_commitTs (pk_inv p) = ts /\ sv_ts (ver h (pk_origin p)) < ts.

Definition in_order (ts : Z) (h : handler) : Prop := upto ts h /\ parked_ok ts h.

Lemma in_order_calm ts h h' : calm h h' -> in_order ts h -> in_order ts h'.
Proof.
  intros Hc [Hu Hp]. split; [by eapply upto_calm|]. intros p. rewrite (calm_parked _ _ Hc), (calm_ver _ _ Hc). apply Hp.
Qed.

Lemma in_order_free ts h : upto ts h -> h_parked h = None -> in_order ts h.
Proof. intros Hu Hp. split; [done|]. intros p. congruence. Qed.

Lemma calm_advance now inv h g :
  (if wi_global inv then Ok (h_registry h)
   else advanceOnCommit (h_registry h) (wi_ranges inv) (wi_tables inv) (wi_commitTs inv)) = Ok g ->
  calm h (with_registry h (sweep g now)).
Proof. intros _. by apply calm_same. Qed.

Lemma notify_in_order ex now inv o h ts :
  wi_global inv = false -> ts < wi_commitTs inv -> upto ts h -> tail_free h = true ->
  let h' := (doNotifyWrites opts ex now inv o h).1 in
  sent_advancing h h' /\ in_order (wi_commitTs inv) h'.
Proof.
  intros Hg Hts Hu Hfree. assert (Hp : h_parked h = None) by (unfold tail_free in Hfree; by destruct (h_parked h)).
  assert (Hu' : upto (wi_commitTs inv) h) by (intros sid; specialize (Hu sid); lia).
  unfold doNotifyWrites. destruct (if wi_global inv then _ else _) as [g|e]; [|by split; [|apply in_order_free]].
  set (h1 := with_registry h (sweep g now)). assert (Hc : calm h h1) by by apply calm_same.
  destruct (findAffectedByRanges _ _ _) as [aff|e];
    [|split; [apply Hc|apply (in_order_calm _ _ _ Hc), in_order_free; done]].
  set (bs := group_by_session opts o aff). set (og := origin_subs h1 o bs).
  destruct (settles_others ex inv (fst <$> og) bs h1 Hg) as [Hset Hver].
  { apply group_nodup. }
  { intros sid _. rewrite (calm_ver _ _ Hc). specialize (Hu sid). lia. }
  destruct (Hset (upto_calm _ _ _ Hc Hu')) as (S2 & U2 & P2).
  set (h2 := fold_left (send_others ex inv (fst <$> og)) bs h1) in *.
  assert (S : sent_advancing h h2) by (etrans; [apply Hc|exact S2]).
  assert (Hnone : h_parked h2 = None) by (rewrite P2; exact Hp).
  destruct og as [[sid subs]|].
  - assert (Hlt : sv_ts (ver h2 sid) < wi_commitTs inv).
    { rewrite (Hver sid eq_refl), (calm_ver _ _ Hc). specialize (Hu sid). lia. }
    destruct (jm_has _ _); cbn [fst].
    + split; [etrans; [exact S|by apply sent_nothing]|]. split; [exact U2|]. intros p [= <-]. done.
    + destruct (settles_finish ex h2 (Parked inv sid subs bs) Hg Hlt U2) as (S3 & U3 & P3).
      split; [by etrans|]. apply in_order_free; [done|congruence].
  - destruct (settles_frontiers h2 inv o bs U2) as (S3 & U3 & P3). cbn [fst].
    split; [by etrans|]. apply in_order_free; [done|congruence].
Qed.

(** * Runs *)

(** The fan-outs come in the order of their commits. *)
Fixpoint notified_from (ts : Z) (es : list h_event) : Prop :=
  match es with
  | [] => True
  | EvNotify inv _ _ _ :: es' => wi_global inv = false /\ ts < wi_commitTs inv /\ notified_from (wi_commitTs inv) es'
  | _ :: es' => notified_from ts es'
  end.

Lemma bump_advances h sid mods : sent_advancing h (send_transition h sid (bump_querySet (ver h sid)) mods).
Proof.
  apply advancing_transition; [split; cbn; lia|]. intros Heq. apply (f_equal sv_querySet) in Heq. cbn in Heq. lia.
Qed.

Lemma bump_in_order ts h sid mods : in_order ts h -> in_order ts (send_transition h sid (bump_querySet (ver h sid)) mods).
Proof.
  intros [Hu Hp].
  assert (Hv : forall s, sv_ts (ver (send_transition h sid (bump_querySet (ver h sid)) mods) s) = sv_ts (ver h s)).
  { intros s. rewrite ver_transition. by case_decide; subst. }
  split; [intros s; rewrite Hv; apply Hu|]. intros p Hpp. rewrite Hv. by apply Hp.
Qed.

Lemma calm_fail h sid rid e ts r c : calm h (fail_response h sid rid e ts r c).
Proof. unfold fail_response. destruct ts; (etrans; [|by apply calm_send]); by apply calm_same. Qed.

Lemma calm_mutation sid rid o h : calm h (processMutation opts sid rid o h).1.1.
Proof.
  unfold processMutation. destruct o as [v tables wr ts fw|v ts rv missing code|e ts r code].
  - destruct (result_json v) as [j|e]; [|apply calm_fail]. cbn [fst].
    etrans; [by apply (calm_send h sid (MutationOk rid (Some j) (mutationResponseTs ts) false false))|].
    destruct (_ && _); [destruct (jm_get _ _); [destruct (_ <? _)|]|]; by apply calm_same.
  - destruct v; try by apply calm_send. destruct (if missing then _ else _); [by apply calm_send|apply calm_fail].
  - apply calm_fail.
Qed.

(** What a step that is not a fan-out does. *)
Lemma step_in_order ts h e :
  enabled h e = true -> in_order ts h -> (match e with EvNotify _ _ _ _ => False | _ => True end) ->
  sent_advancing h (h_step opts h e) /\ in_order ts (h_step opts h e).
Proof.
  intros He Ho Hn. assert (Hcalm : forall h', calm h h' -> sent_advancing h h' /\ in_order ts h')
    by (intros h' Hc; split; [apply Hc|by eapply in_order_calm]).
  assert (Hbump : forall h' sid mods, calm h h' -> let h'' := send_transition h' sid (bump_querySet (ver h' sid)) mods in
    sent_advancing h h'' /\ in_order ts h'').
  { intros h' sid mods Hc. split; [etrans; [apply Hc|apply bump_advances]|by eapply bump_in_order, in_order_calm]. }
  destruct e; cbn [h_step]; try done.
  - apply Hcalm. split; [by apply sent_nothing| |done]. intros sid'. unfold ver, sess, connect. cbn. rewrite jm_get_set.
    cbn in He. case_decide; [|done]. subst. unfold jm_has in He. by destruct (jm_get (h_objects h) sid).
  - by apply Hcalm, calm_same.
  - apply Hcalm. unfold handleConnect. set (s' := Session _ _ _ _).
    assert (Hs : calm h (set_sess h sid s')) by by apply calm_set_sess.
    destruct (negb presented); [done|]. destruct receipts as [[cl dep]|]; [|done].
    etrans; [exact Hs|by apply calm_send].
  - unfold doModifyQuerySet. pose proof (calm_face _ _ (subscribe_all_face ex sid add [] h)) as Hf.
    destruct (subscribe_all _ _ _ _ _) as [h1 mods]. apply Hbump. etrans; [exact Hf|].
    apply calm_face, unsubscribe_face.
  - unfold handleSetAuth. assert (Hs : calm h (set_identity h sid token)) by by apply calm_set_sess.
    pose proof (calm_face _ _ (reauth_all_face ex now sid (forSession (h_subs (set_identity h sid token)) sid) [] (set_identity h sid token))) as Hf.
    destruct (reauth_all _ _ _ _ _ _) as [h1 mods]. apply Hbump. etrans; [exact Hs|exact Hf].
  - apply Hcalm. by apply calm_set_sess.
  - apply Hcalm, calm_mutation.
  - apply Hcalm. unfold handleAction. destruct (v ← outcome; result_json v); by apply calm_send.
  - apply Hcalm. unfold publishEphemeral. apply calm_fold. intros h' sid. destruct (bool_decide _); [done|by apply calm_send].
  - apply Hcalm. unfold registerOriginResponseGate. destruct origin as [sid|]; [|done]. destruct (negb _); [done|].
    destruct (jm_has _ _); by apply calm_same.
  - unfold notify_resume. destruct (h_parked h) as [p|] eqn:Hp; [|done]. destruct (jm_has _ _); [done|].
    destruct Ho as [Hu Hpk]. destruct (Hpk p Hp) as (Hg & Ht & Hlt).
    destruct (settles_finish ex (with_parked h None) p Hg) as (S3 & U3 & P3); [by rewrite Ht|by rewrite Ht|].
    rewrite Ht in *. split; [etrans; [|exact S3]; by apply sent_nothing|]. by apply in_order_free.
  - by apply Hcalm, calm_same.
Qed.

Lemma run_advances es h h' ts :
  h_run opts h es h' -> notified_from ts es -> in_order ts h -> sent_advancing h h'.
Proof.
  intros Hr. revert ts. induction Hr as [h|h e es h' He _ IH]; intros ts Hn Ho; [done|].
  assert (Hcase : (exists inv o now ex, e = EvNotify inv o now ex) \/
                  (match e with EvNotify _ _ _ _ => False | _ => True end)) by (destruct e; eauto 6).
  destruct Hcase as [(inv & o & now & ex & ->)|He'].
  - destruct Hn as (Hg & Hlt & Hn). destruct Ho as [Hu Hpk].
    destruct (notify_in_order ex now inv o h ts Hg Hlt Hu He) as [S Ho]. etrans; [exact S|]. by eapply IH.
  - destruct (step_in_order ts h e He Ho He') as [S Ho']. etrans; [exact S|]. eapply IH; [|exact Ho'].
    by destruct e.
Qed.

Lemma frames_advancing sid out : Forall (fun sm => advances sm.2) out -> Forall advances (frames sid out).
Proof.
  induction 1 as [|[s m] out Hm _ IH]; [done|]. unfold frames in *. cbn. case_decide; [by constructor|done].
Qed.

(** C3: end to end: over every run in which the commits are fanned out in
    their order and no fan-out is that of a global table, a client that receives
    any subsequence of a session's frames and has not asked for a resync shows
    the queries, at the version, of a full prefix of what was sent.  (A lost
    frame of a global fan-out does go unnoticed: it starts and ends at the same
    version, [SyncGates.global_frame_loss_unnoticed].) *)
Theorem lost_frames_detected es h sid l :
  h_run opts handler_new es h -> notified_from 0 es -> l `sublist_of` frames sid (h_out h) ->
  cs_needsResync (applyAll createClientState l) = false ->
  exists pre post, frames sid (h_out h) = pre ++ post /\
    cs_version (applyAll createClientState l) = cs_version (applyAll createClientState pre) /\
    cs_queries (applyAll createClientState l) = cs_queries (applyAll createClientState pre).
Proof.
  intros Hr Hn Hl Hs. assert (Ho : in_order 0 handler_new) by by apply in_order_free.
  destruct (run_advances es handler_new h 0 Hr Hn Ho) as (new & Hout & Hadv).
  destruct (ext_run opts handler_new es h Hr) as (new' & Hout' & Hb). rewrite Hout in Hout'. cbn in *. subst new'.
  rewrite Hout in *. edestruct (gap_detected createClientState (frames sid new)) as (pre & post & ? & _ & ? & ?);
    [apply (Hb sid)|by apply frames_advancing|exact Hl|exact Hs|]. eauto 6.
Qed.
End delivery.
