(* ===== verification/SyncGates.v ===== *)
(** The origin-response gates: a session sees its own write behind the response
    that announced it, and what happens when no response opens the gate.

    Concrete runs of the sync handler: the theorems about it at work, and
    three behaviours that depart from what the code's comments promise. *)
From Stdlib Require Import ZArith Lia.
From stdpp Require Import base list sets strings.
From S2P Require Import Prelude JsBase JsText Values ValuesJson KeyRanges DocStore Query StateRes Transactor RowDiff ReadIndex Subscriptions ResumeRegistry SyncProtocol SyncHandler SyncFanout SyncProperties SyncDelivery.

(** [h'] differs from [h] in what concerns the other sessions only. *)
Record untouched (sid : jsstr) (h h' : handler) : Prop := {
  un_frames : frames sid (h_out h') = frames sid (h_out h);
  un_ver : ver h' sid = ver h sid;
  un_gates : h_gates h' = h_gates h;
  un_parked : h_parked h' = h_parked h }.

#[export] Instance untouched_refl sid : Reflexive (untouched sid).
Proof. by intros h. Qed.
#[export] Instance untouched_trans sid : Transitive (untouched sid).
Proof. intros a b c [] []. split; congruence. Qed.

Lemma untouched_face sid h h' : same_face h h' -> untouched sid h h'.
Proof. intros []. split; try done; [by rewrite sf_out|]. unfold ver, sess. by rewrite sf_objects. Qed.

Lemma untouched_same sid h h' :
  h_out h' = h_out h -> h_objects h' = h_objects h -> h_gates h' = h_gates h -> h_parked h' = h_parked h ->
  untouched sid h h'.
Proof. intros Ho Hb ? ?. split; try done; [by rewrite Ho|]. unfold ver, sess. by rewrite Hb. Qed.

Lemma frames_send sid h s m :
  frames sid (h_out (send h s m)) = frames sid (h_out h) ++ (if decide (s = sid) then [m] else []).
Proof.
  change (h_out (send h s m)) with (h_out h ++ [(s, m)]). rewrite frames_app. f_equal. unfold frames. cbn.
  by case_decide.
Qed.

Lemma untouched_transition sid h s en mods : s <> sid -> untouched sid h (send_transition h s en mods).
Proof.
  intros Hne. split; [| |done..].
  - unfold send_transition. rewrite frames_send, decide_False by done. by rewrite app_nil_r.
  - unfold ver, send_transition. change (sess (send ?a ?b ?c) sid) with (sess a sid).
    rewrite sess_set, decide_False; congruence.
Qed.

Section gates.
Context `{JsHost} (opts : handler_options).

Lemma untouched_session sid ex inv h g : g.1 <> sid -> untouched sid h (sendSessionTransition ex inv h g).
Proof.
  intros Hne. unfold sendSessionTransition. pose proof (refresh_all_face ex g.1 inv g.2 [] h) as Hf.
  destruct (refresh_all _ _ _ _ _ _) as [h' mods]. etrans; [apply (untouched_face sid _ _ Hf)|by apply untouched_transition].
Qed.

Lemma untouched_others sid ex inv gs h : untouched sid h (fold_left (send_others ex inv (Some sid)) gs h).
Proof.
  revert h. induction gs as [|g gs IH]; intros h; [done|]. cbn [fold_left]. etrans; [|apply IH]. unfold send_others.
  case_bool_decide; [done|]. destruct (is_live h g.1); [|done]. apply untouched_session. congruence.
Qed.

(** A session with subscriptions in the fan-out is left to its own
    transition. *)
Lemma untouched_frontiers sid inv o bs h : jm_has bs sid = true -> untouched sid h (notify_frontiers h inv o bs).
Proof.
  intros Hb. unfold notify_frontiers. destruct (wi_global inv); [done|]. etrans.
  - instantiate (1 := advanceOriginFrontier h o bs (wi_commitTs inv)). unfold advanceOriginFrontier.
    destruct (origin_id o) as [s|]; [|done]. destruct (jm_has bs s) eqn:Hs; [done|]. destruct (_ || _); [done|].
    etrans; [apply (untouched_transition sid h s); congruence|by apply untouched_same].
  - unfold sweepPendingFrontiers. generalize (advanceOriginFrontier h o bs (wi_commitTs inv)) as h0. intros h0.
    generalize (h_frontiers h0) as l. intros l. revert h0. induction l as [|sf l IH]; intros h0; [done|]. cbn [fold_left].
    etrans; [|apply IH]. unfold sweep_frontier. destruct (_ <? _); [done|].
    destruct (jm_has bs sf.1) eqn:Hs; [rewrite !andb_false_r; by apply untouched_same|].
    destruct (_ && _); [|by apply untouched_same].
    etrans; [apply (untouched_transition sid h0 sf.1); congruence|by apply untouched_same].
Qed.

(** * Gates *)

(** The events that open the gate of [ts]: the response of the mutation that
    committed there, an error stamped with it, or the session's end. *)
Definition opens (ts : Z) (sid : jsstr) (e : h_event) : bool :=
  match e with
  | EvDisconnect s _ => bool_decide (s = sid)
  | EvMutation _ _ (MutationRan v _ _ t _) => (t =? ts) && match result_json v with Ok _ => true | _ => false end
  | EvMutation _ _ (MutationThrew _ (Some t) _ _) => t =? ts
  | _ => false
  end.

Definition gated (ts : Z) (sid : jsstr) (h : handler) : Prop := jm_get (h_gates h) ts = Some sid.

Lemma gated_same ts sid h h' : h_gates h' = h_gates h -> gated ts sid h -> gated ts sid h'.
Proof. unfold gated. by intros ->. Qed.

Lemma gated_release ts sid t h : t <> ts -> gated ts sid h -> gated ts sid (releaseOriginResponseGate h t).
Proof. unfold gated, releaseOriginResponseGate. cbn. intros Hne Hg. by rewrite jm_get_delete, decide_False by congruence. Qed.

Lemma gates_transition h s en mods : h_gates (send_transition h s en mods) = h_gates h.
Proof. done. Qed.

Lemma gates_face h h' : same_face h h' -> h_gates h' = h_gates h.
Proof. by intros []. Qed.

Lemma gated_mutation ts sid s rid o h :
  gated ts sid h -> opens ts sid (EvMutation s rid o) = false -> gated ts sid (processMutation opts s rid o h).1.1.
Proof.
  intros Hg Ho. assert (Hfail : forall e t r c, match t with Some t => t <> ts | None => True end ->
    gated ts sid (fail_response h s rid e t r c)).
  { intros e t r c Ht. unfold fail_response. destruct t as [t|]; [|done].
    apply (gated_same _ _ (releaseOriginResponseGate h t)); [done|by apply gated_release]. }
  unfold processMutation. destruct o as [v tables wr t fw|v t rv missing code|e t r code]; cbn in Ho.
  - destruct (result_json v) as [j|e]; [|by apply Hfail]. rewrite andb_true_r in Ho. apply Z.eqb_neq in Ho. cbn [fst].
    eapply (gated_same _ _ (releaseOriginResponseGate h t)); [|by apply gated_release].
    destruct (_ && _); [destruct (jm_get _ _); [destruct (_ <? _)|]|]; done.
  - destruct v; try done. destruct (if missing then _ else _); [done|by apply Hfail].
  - apply Hfail. destruct t as [t|]; [|done]. by apply Z.eqb_neq in Ho.
Qed.

Lemma gates_ephemeral topic event from h : h_gates (publishEphemeral topic event from h) = h_gates h /\
  h_parked (publishEphemeral topic event from h) = h_parked h.
Proof.
  unfold publishEphemeral. generalize (h_live h). intros l. revert h. induction l as [|s l IH]; intros h; [done|].
  cbn [fold_left]. destruct (IH (if bool_decide (from = Some s) then h else send h s (Broadcast topic event))) as [-> ->].
  by case_bool_decide.
Qed.

Lemma parked_mutation s rid o h : h_parked (processMutation opts s rid o h).1.1 = h_parked h.
Proof.
  unfold processMutation, fail_response. destruct o as [v tables wr t fw|v t rv missing code|e t r code]; cbn [fst].
  - destruct (result_json v); [|done]. cbn [fst]. destruct (_ && _); [destruct (jm_get _ _); [destruct (_ <? _)|]|]; done.
  - destruct v; try done. by destruct (if missing then _ else _).
  - by destruct t.
Qed.

Lemma jm_get_filter_keep {K V} `{EqDecision K} (P : K * V -> Prop) `{forall x, Decision (P x)} (m : list (K * V)) k v :
  jm_get m k = Some v -> P (k, v) -> jm_get (base.filter P m) k = Some v.
Proof.
  induction m as [|[k' v'] m IH]; [done|]. cbn [jm_get]. intros Hg HP. rewrite filter_cons.
  case_decide as Hk; [injection Hg as ->; subst; rewrite decide_True by done; cbn [jm_get]; by rewrite decide_True|].
  destruct (decide (P (k', v'))); [|by apply IH]. cbn [jm_get]. rewrite decide_False by done. by apply IH.
Qed.

(** A gate stays, and with it the unit parked on it. *)
Lemma step_gated ts sid p h e :
  enabled h e = true -> opens ts sid e = false -> gated ts sid h -> h_parked h = Some p ->
  wi_commitTs (pk_inv p) = ts ->
  gated ts sid (h_step opts h e) /\ h_parked (h_step opts h e) = Some p.
Proof.
  intros He Ho Hg Hp Hts. unfold gated in *. destruct e; cbn [h_step]; cbn in Ho, He; try done.
  - cbn. split; [|done]. case_bool_decide; [done|]. apply jm_get_filter_keep; [done|]. cbn. congruence.
  - unfold handleConnect. destruct (negb presented); [done|]. destruct receipts as [[cl dep]|]; done.
  - unfold tail_free in He. rewrite Hp, andb_false_r in He. done.
  - unfold handleSetAuth.
    pose proof (reauth_all_face ex now sid0 (forSession (h_subs (set_identity h sid0 token)) sid0) [] (set_identity h sid0 token)) as Hf.
    destruct (reauth_all _ _ _ _ _ _) as [h1 mods]. cbn [fst] in Hf. destruct Hf. cbn in *. split; congruence.
  - split; [by apply (gated_mutation ts sid)|by rewrite parked_mutation].
  - unfold handleAction. by destruct (v ← outcome; result_json v).
  - destruct (gates_ephemeral topic event from h) as [-> ->]. done.
  - unfold registerOriginResponseGate. destruct origin as [s|]; [|done]. destruct (negb _); [done|].
    destruct (jm_has (h_gates h) commitTs) eqn:Hh; [done|]. cbn. split; [|done]. rewrite jm_get_set.
    case_decide; [|done]. subst commitTs. unfold jm_has in Hh. by rewrite Hg in Hh.
  - unfold tail_free in He. by rewrite Hp in He.
  - unfold notify_resume. rewrite Hp. unfold jm_has. rewrite Hts, Hg. done.
Qed.

Lemma run_gated ts sid p es h h' :
  h_run opts h es h' -> Forall (fun e => opens ts sid e = false) es -> gated ts sid h -> h_parked h = Some p ->
  wi_commitTs (pk_inv p) = ts -> gated ts sid h' /\ h_parked h' = Some p.
Proof.
  intros Hr Hes. induction Hr as [|h e es h' He _ IH]; intros Hg Hp Ht; [done|].
  apply Forall_cons in Hes as [Ho Hes]. destruct (step_gated ts sid p h e He Ho Hg Hp Ht). by apply IH.
Qed.

(** * Parking *)

Lemma parked_fold {A} (f : handler -> A -> handler) l h :
  (forall h x, h_parked (f h x) = h_parked h) -> h_parked (fold_left f l h) = h_parked h.
Proof. intros Hf. revert h. induction l as [|x l IH]; intros h; [done|]. cbn. by rewrite IH. Qed.

Lemma parked_session ex inv h g : h_parked (sendSessionTransition ex inv h g) = h_parked h.
Proof.
  unfold sendSessionTransition. pose proof (refresh_all_face ex g.1 inv g.2 [] h) as Hf.
  destruct (refresh_all _ _ _ _ _ _) as [h' mods]. apply Hf.
Qed.

Lemma parked_frontiers h inv o bs : h_parked (notify_frontiers h inv o bs) = h_parked h.
Proof.
  unfold notify_frontiers. destruct (wi_global inv); [done|]. unfold sweepPendingFrontiers. rewrite parked_fold.
  - unfold advanceOriginFrontier. destruct (origin_id o) as [s|]; [|done]. destruct (jm_has bs s); [done|].
    by destruct (_ || _).
  - intros h' sf. unfold sweep_frontier. destruct (_ <? _); [done|]. by destruct (_ && _).
Qed.

Lemma parked_others ex inv skip gs h : h_parked (fold_left (send_others ex inv skip) gs h) = h_parked h.
Proof.
  apply parked_fold. intros h' g. unfold send_others. case_bool_decide; [done|]. destruct (is_live h' g.1); [|done].
  apply parked_session.
Qed.

(** A unit is parked with its origin among the sessions it fans out to, and
    the origin has been sent nothing. *)
Lemma notify_parks ex now inv o h p :
  let h1 := (doNotifyWrites opts ex now inv o h).1 in
  h_parked h = None -> h_parked h1 = Some p ->
  pk_inv p = inv /\ origin_id o = Some (pk_origin p) /\ jm_has (pk_bySession p) (pk_origin p) = true /\
  untouched (pk_origin p) h (with_parked h1 None).
Proof.
  cbn zeta. intros Hfree. unfold doNotifyWrites. destruct (if wi_global inv then _ else _) as [g|e]; [|cbn; congruence].
  set (h0 := with_registry h (sweep g now)).
  assert (H0 : forall sid, untouched sid h h0) by (intros sid; by apply untouched_same).
  destruct (findAffectedByRanges _ _ _) as [aff|e]; [|cbn; congruence].
  set (bs := group_by_session opts o aff). unfold origin_subs.
  assert (Hnone : forall h', h_parked h' = None -> h_parked (notify_frontiers h' inv o bs) = Some p -> False)
    by (intros h'; rewrite parked_frontiers; congruence).
  destruct (origin_id o) as [s|] eqn:Eo; [|intros Hp; exfalso; eapply Hnone; [|exact Hp]; by rewrite parked_others].
  destruct (jm_get bs s) as [subs|] eqn:Eb; [|intros Hp; exfalso; eapply Hnone; [|exact Hp]; by rewrite parked_others].
  destruct (_ && _); [|intros Hp; exfalso; eapply Hnone; [|exact Hp]; by rewrite parked_others].
  cbn [fmap option_fmap option_map fst].
  destruct (jm_has (h_gates _) _); cbn [fst].
  - intros [= <-]. cbn. split_and!; [done|done|unfold jm_has; by rewrite Eb|].
    etrans; [apply H0|]. etrans; [apply (untouched_others s ex inv bs)|].
    apply untouched_same; [done..|]. cbn. by rewrite parked_others.
  - intros Hp. unfold notify_finish in Hp. rewrite parked_frontiers, parked_session, parked_others in Hp. cbn in Hp. congruence.
Qed.

(** What the parked unit sends its origin when it goes on. *)
Lemma resume_sends ex h p :
  h_parked h = Some p -> jm_has (h_gates h) (wi_commitTs (pk_inv p)) = false ->
  jm_has (pk_bySession p) (pk_origin p) = true -> wi_global (pk_inv p) = false ->
  exists mods, frames (pk_origin p) (h_out (notify_resume ex h)) =
    frames (pk_origin p) (h_out h) ++
      [Transition (ver h (pk_origin p)) (Ver (sv_querySet (ver h (pk_origin p))) (wi_commitTs (pk_inv p))) mods].
Proof.
  intros Hp Hg Hb Hgl. unfold notify_resume. rewrite Hp, Hg. unfold notify_finish.
  rewrite (un_frames _ _ _ (untouched_frontiers _ (pk_inv p) (Some (pk_origin p)) _ _ Hb)).
  unfold sendSessionTransition. cbn [fst snd].
  pose proof (refresh_all_face ex (pk_origin p) (pk_inv p) (pk_subs p) [] (with_parked h None)) as Hf.
  destruct (refresh_all _ _ _ _ _ _) as [h' mods]. apply (untouched_face (pk_origin p)) in Hf as [Hfr Hv _ _].
  cbn [fst] in *. exists mods. unfold send_transition. rewrite frames_send, decide_True by done.
  change (frames (pk_origin p) (h_out h')  ++ [Transition (ver h' (pk_origin p))
    (transition_end (pk_inv p) (ver h' (pk_origin p))) mods] = frames (pk_origin p) (h_out h) ++
      [Transition (ver h (pk_origin p)) (Ver (sv_querySet (ver h (pk_origin p))) (wi_commitTs (pk_inv p))) mods]).
  unfold transition_end. rewrite Hgl, Hfr, Hv. done.
Qed.

(** The response of a mutation: one frame, and the gate opens. *)
Lemma mutation_responds sid rid v j tables wr ts fw h :
  result_json v = Ok j ->
  let h' := (processMutation opts sid rid (MutationRan v tables wr ts fw) h).1.1 in
  frames sid (h_out h') = frames sid (h_out h) ++ [MutationOk rid (Some j) (mutationResponseTs ts) false false] /\
  (forall s, ver h' s = ver h s) /\ h_gates h' = jm_delete (h_gates h) ts /\ h_parked h' = h_parked h.
Proof.
  intros Hj. unfold processMutation. rewrite Hj. cbn [fst].
  destruct (_ && _); [destruct (jm_get _ _); [destruct (_ <? _)|]|]; cbn [h_out h_gates h_parked with_frontiers];
    (split; [|done]); change (frames sid (h_out (send h sid (MutationOk rid (Some j) (mutationResponseTs ts) false false))) =
      frames sid (h_out h) ++ [MutationOk rid (Some j) (mutationResponseTs ts) false false]);
    by rewrite frames_send, decide_True.
Qed.

(** C16: a committed mutation is answered before the session sees its effect:
    a fan-out that finds its origin's gate closed has sent the origin nothing;
    it stays parked, whatever else happens, until the response (or an error
    stamped with the commit, or the end of the session); and when the response
    has been sent and the unit goes on, the origin's queue gets the response
    and then exactly its own transition to the commit's timestamp. *)
Theorem response_before_own_transition ex now inv sid h p es h2 :
  let h1 := (doNotifyWrites opts ex now inv (Some sid) h).1 in
  wi_global inv = false -> h_parked h = None -> h_parked h1 = Some p -> gated (wi_commitTs inv) sid h1 ->
  h_run opts h1 es h2 -> Forall (fun e => opens (wi_commitTs inv) sid e = false) es ->
  frames sid (h_out h1) = frames sid (h_out h) /\ gated (wi_commitTs inv) sid h2 /\ h_parked h2 = Some p /\
  forall rid v j tables wr fw ex', result_json v = Ok j ->
    exists mods,
      frames sid (h_out (notify_resume ex'
        (processMutation opts sid rid (MutationRan v tables wr (wi_commitTs inv) fw) h2).1.1)) =
      frames sid (h_out h2) ++
        [MutationOk rid (Some j) (mutationResponseTs (wi_commitTs inv)) false false;
         Transition (ver h2 sid) (Ver (sv_querySet (ver h2 sid)) (wi_commitTs inv)) mods].
Proof.
  cbn zeta. intros Hgl Hfree Hp Hg Hr Hes. destruct (notify_parks ex now inv (Some sid) h p Hfree Hp) as (Hi & Ho & Hb & Hu).
  assert (Hs : pk_origin p = sid) by (destruct sid; cbn in Ho; congruence). rewrite Hs in *.
  destruct (run_gated (wi_commitTs inv) sid p es _ h2 Hr Hes Hg Hp) as [Hg2 Hp2]; [by rewrite Hi|].
  split_and!; [apply Hu|done|done|]. intros rid v j tables wr fw ex' Hj.
  destruct (mutation_responds sid rid v j tables wr (wi_commitTs inv) fw h2 Hj) as (Hf & Hv & Hga & Hpa).
  set (h3 := (processMutation _ _ _ _ _).1.1) in *.
  destruct (resume_sends ex' h3 p) as [mods Hm]; [congruence| |by rewrite Hs|by rewrite Hi|].
  - rewrite Hga, Hi. unfold jm_has. by rewrite jm_get_delete, decide_True.
  - exists mods. rewrite Hs, Hi, Hf, Hv, <- (assoc_L (++)) in Hm. exact Hm.
Qed.

(** A committed mutation whose handler returned no value is answered as a
    failure, and the gate of its commit stays closed: from then on, unless
    the session ends, no fan-out and no query-set change runs on the tail,
    for any session. *)
Theorem undefined_result_wedges sid rid tables wr ts fw h p es h2 :
  gated ts sid h -> h_parked h = Some p -> wi_commitTs (pk_inv p) = ts ->
  let h1 := (processMutation opts sid rid (MutationRan JsUndefined tables wr ts fw) h).1.1 in
  h_run opts h1 es h2 -> Forall (fun e => opens ts sid e = false) es ->
  (exists e, frames sid (h_out h1) = frames sid (h_out h) ++ [MutationFailed rid e None]) /\
  h_parked h2 = Some p /\
  Forall (fun e => match e with EvNotify _ _ _ _ | EvModifyQuerySet _ _ _ _ _ => False | _ => True end) es.
Proof.
  intros Hg Hp Hts h1 Hr Hes. assert (Hg1 : gated ts sid h1) by done. assert (Hp1 : h_parked h1 = Some p) by done.
  split_and!.
  - eexists. unfold h1, processMutation. cbn [result_json fst]. unfold fail_response. rewrite frames_send, decide_True by done. done.
  - by destruct (run_gated ts sid p es h1 h2 Hr Hes Hg1 Hp1 Hts).
  - clearbody h1. clear h Hg Hp. induction Hr as [|h e es h' He _ IH]; [constructor|].
    apply Forall_cons in Hes as [Ho Hes]. destruct (step_gated ts sid p h e He Ho Hg1 Hp1 Hts) as [Hg2 Hp2].
    constructor; [|by apply IH]. destruct e; try done; cbn in He; unfold tail_free in He; rewrite Hp1, ?andb_false_r in He; done.
Qed.
End gates.

#[local] Existing Instance sample_host.

(** * A run by evaluation *)

Fixpoint runs (opts : handler_options) (h : handler) (es : list h_event) : option handler :=
  match es with
  | [] => Some h
  | e :: es' => if enabled h e then runs opts (h_step opts h e) es' else None
  end.

Lemma runs_spec opts h es h' : runs opts h es = Some h' -> h_run opts h es h'.
Proof.
  revert h. induction es as [|e es IH]; intros h; cbn; [intros [= <-]; constructor|].
  destruct (enabled h e) eqn:He; [|done]. intros Hr. by constructor; [|apply IH].
Qed.

Definition sample_opts : handler_options := HandlerOptions false false (fun _ => false).
Definition s1 : jsstr := js "s1".
Definition s2 : jsstr := js "s2".

(** An engine whose one query answers [v], having read a range of table 1. *)
Definition engine (v : js_result) : executor :=
  Executor (fun _ _ _ => Ok (ExecResult v [js "1"] [sample_range 1 5] [] None None))
    (fun _ _ => Throw TypeError).
Definition sample_request (since : option Z) : query_request := QueryRequest 1 (js "messages:list") JNull None since.
Definition sample_inv (ts : Z) (global : bool) : write_invalidation :=
  WriteInvalidation [js "1"] [sample_range 2 3] ts None global.
Definition yes : executor := engine (JsValue (VBool true)).
Definition no : executor := engine (JsValue (VBool false)).

Definition subscribe_events (sid : jsstr) : list h_event :=
  [EvConnect sid; EvHello sid true false [] [] None; EvModifyQuerySet sid [sample_request None] [] 0 yes].
Definition run_to (es : list h_event) : handler := default handler_new (runs sample_opts handler_new es).

Definition session_events : list h_event :=
  subscribe_events s1 ++ [EvCommit 5 (Some s1); EvNotify (sample_inv 5 false) (Some s1) 0 no;
    EvMutation s1 (js "m1") (MutationRan (JsValue VNull) [] [] 5 false); EvResume no;
    EvNotify (sample_inv 7 false) None 0 yes].

Definition session_frames : list server_message :=
  [Transition (Ver 0 0) (Ver 1 0) [QueryUpdated 1 (JBool true) (Some (js "sha256:json"))];
   MutationOk (js "m1") (Some JNull) (Some 5) false false;
   Transition (Ver 1 0) (Ver 1 5) [QueryUpdated 1 (JBool false) (Some (js "sha256:json"))];
   Transition (Ver 1 5) (Ver 1 7) [QueryUpdated 1 (JBool true) (Some (js "sha256:json"))]].

Lemma session_run : runs sample_opts handler_new session_events = Some (run_to session_events) /\
  frames s1 (h_out (run_to session_events)) = session_frames.
Proof. split; vm_compute; reflexivity. Qed.

Lemma transitions_bracketed_witness :
  bracketed INITIAL_VERSION (frames s1 (h_out (run_to session_events))) (ver (run_to session_events) s1) /\
  frames s1 (h_out (run_to session_events)) = session_frames.
Proof.
  split; [|apply session_run].
  apply (transitions_bracketed sample_opts session_events (run_to session_events) s1).
  apply runs_spec, session_run.
Defined.

(** The second frame is lost; the third shows it. *)
Lemma lost_frames_detected_witness :
  (exists pre post, frames s1 (h_out (run_to session_events)) = pre ++ post /\
    cs_version (applyAll createClientState (take 3 session_frames)) = cs_version (applyAll createClientState pre) /\
    cs_queries (applyAll createClientState (take 3 session_frames)) = cs_queries (applyAll createClientState pre)) /\
  cs_needsResync (applyAll createClientState (delete 2%nat session_frames)) = true.
Proof.
  split; [|reflexivity].
  apply (lost_frames_detected sample_opts session_events (run_to session_events) s1 (take 3 session_frames)).
  - apply runs_spec, session_run.
  - cbn. repeat split; lia.
  - rewrite (proj2 session_run). apply sublist_take.
  - reflexivity.
Defined.

(** * Gates at work *)

Definition committed : handler := run_to (subscribe_events s1 ++ [EvCommit 5 (Some s1)]).
Definition parked : handler := (doNotifyWrites sample_opts no 0 (sample_inv 5 false) (Some s1) committed).1.
Definition parked_unit : parked_notify :=
  default (Parked (sample_inv 0 false) [] [] []) (h_parked parked).

Lemma parked_facts : h_parked committed = None /\ h_parked parked = Some parked_unit /\
  wi_commitTs (pk_inv parked_unit) = 5 /\ gated 5 s1 parked.
Proof. unfold gated. split_and!; vm_compute; reflexivity. Qed.

Lemma response_before_own_transition_witness :
  frames s1 (h_out parked) = frames s1 (h_out committed) /\
  exists mods, frames s1 (h_out (notify_resume no
      (processMutation sample_opts s1 (js "m1") (MutationRan (JsValue VNull) [] [] 5 false) parked).1.1)) =
    frames s1 (h_out parked) ++
      [MutationOk (js "m1") (Some JNull) (Some 5) false false; Transition (Ver 1 0) (Ver 1 5) mods].
Proof.
  destruct parked_facts as (H1 & H2 & _ & H4).
  destruct (response_before_own_transition sample_opts no 0 (sample_inv 5 false) s1 committed parked_unit [] parked
              eq_refl H1 H2 H4 (run_nil _ _) (List.Forall_nil _)) as (Hf & _ & _ & Hs).
  split; [exact Hf|]. exact (Hs (js "m1") (JsValue VNull) JNull [] [] false no eq_refl).
Defined.

Definition wedged : handler :=
  (processMutation sample_opts s1 (js "m1") (MutationRan JsUndefined [] [] 5 false) parked).1.1.

Lemma undefined_result_wedges_witness :
  (exists e, frames s1 (h_out wedged) = frames s1 (h_out parked) ++ [MutationFailed (js "m1") e None]) /\
  h_parked wedged = Some parked_unit /\
  runs sample_opts wedged [EvConnect s2; EvModifyQuerySet s2 [sample_request None] [] 0 yes] = None.
Proof.
  destruct parked_facts as (_ & H2 & H3 & H4).
  destruct (undefined_result_wedges sample_opts s1 (js "m1") [] [] 5 false parked parked_unit [] wedged H4 H2 H3
              (run_nil _ _) (List.Forall_nil _)) as (Hf & Hp & _).
  split_and!; [exact Hf|exact Hp|vm_compute; reflexivity].
Defined.

(** * Departures *)

(** The transition of a global invalidation keeps its version, so when it is
    lost the client applies the next one and shows a result that no prefix of
    the session's frames gives: here the query 1 of two. *)
Definition global_events : list h_event :=
  subscribe_events s1 ++ [EvNotify (sample_inv 5 true) None 0 no].

(** A client that loses the transition of a global invalidation is not
    told: it keeps the old result, at the session's current version, with no
    resync asked for, and a later transition is applied on top. *)
Theorem global_frame_loss_unnoticed :
  exists first lost, frames s1 (h_out (run_to global_events)) = [first; lost] /\
    h_run sample_opts handler_new global_events (run_to global_events) /\
    cs_queries (applyAll createClientState [first; lost]) = [(1, JBool false)] /\
    cs_queries (applyAll createClientState [first]) = [(1, JBool true)] /\
    cs_version (applyAll createClientState [first]) = ver (run_to global_events) s1 /\
    forall en mods, cs_needsResync
      (applyAll createClientState [first; Transition (ver (run_to global_events) s1) en mods]) = false.
Proof.
  eexists _, _. split; [vm_compute; reflexivity|]. split; [apply runs_spec; vm_compute; reflexivity|].
  split_and!; vm_compute; reflexivity.
Qed.

(** A stale resume: the registry has no entry for the query (it was swept, or
    the server restarted) when a write to its rows lands; another session
    then subscribes to it, and the client's resume as of before the write is
    answered from that session's entry. *)
Definition resume_events : list h_event :=
  [EvNotify (sample_inv 9 false) None 0 no] ++
  [EvConnect s2; EvHello s2 true false [] [] None; EvModifyQuerySet s2 [sample_request None] [] 0 no] ++
  [EvConnect s1; EvHello s1 true false [] [] None; EvModifyQuerySet s1 [sample_request (Some 5)] [] 0 no].

(** A client that resumes a query with the result of timestamp 5 is told
    that it is unchanged, though a write at 9 touched the rows the query reads
    and the engine's answer is another: the entry the answer relies on was
    made by a session whose version had not moved from 0. *)
Theorem stale_resume_unchanged :
  h_run sample_opts handler_new resume_events (run_to resume_events) /\
  frames s1 (h_out (run_to resume_events)) = [Transition (Ver 0 0) (Ver 1 0) [QueryUnchanged 1]] /\
  frames s2 (h_out (run_to resume_events)) =
    [Transition (Ver 0 0) (Ver 1 0) [QueryUpdated 1 (JBool false) (Some (js "sha256:json"))]].
Proof. split_and!; [apply runs_spec| |]; vm_compute; reflexivity. Qed.

(** A client that re-sends its query set (after a gap) adds queries it still
    has. *)
Definition resync_events : list h_event :=
  subscribe_events s1 ++ [EvModifyQuerySet s1 [sample_request None] [] 0 yes; EvDisconnect s1 0; EvSweep 1000000].

(** Adding a query that is already there retains its registry entry a
    second time and releases none: after the session has gone, and long past
    the time to live, the entry is still counted as used once and is never
    swept. *)
Theorem resync_leaks_registry_entry :
  h_run sample_opts handler_new resync_events (run_to resync_events) /\
  jm_values (sm_byKey (h_subs (run_to resync_events))) = [] /\
  (re_refCount <$> rg_lookup (h_registry (run_to resync_events)) (regKey None (js "messages:list") JNull)) = Some 1.
Proof. split_and!; [apply runs_spec| |]; vm_compute; reflexivity. Qed.
