(* ===== verification/ClientState.v ===== *)
(** The state of a client: its subscriptions, the log of unconfirmed
    mutations, the session with the server, and what it has done so far.
    packages/client/src/layered-store.ts, mutation-log.ts, reconcile.ts,
    client.ts; the client's messages are those of packages/sync/src/protocol.ts.

    Subscriptions are objects shared by two maps, so they live in a heap; a
    value has an identity, so that [!==] can be told from a deep comparison. *)
From Stdlib Require Import ZArith Lia SpecFloat.
From stdpp Require Import base list strings.
From S2P Require Import Prelude JsBase JsText Float64 Values ValuesJson DocStore StateRes RowDiff SyncProtocol.

(** * Values with identity *)

Record cell := Cell { c_id : nat; c_val : value }.

(** [===]: primitives by value, with NaN unequal to itself and the two zeros
    equal; objects, arrays and buffers by identity. *)
Definition strict_eq (a b : cell) : bool :=
  match c_val a, c_val b with
  | VNull, VNull => true
  | VBool x, VBool y => Bool.eqb x y
  | VNumber x, VNumber y => SFeqb (num_f x) (num_f y)
  | VBigint x, VBigint y => x =? y
  | VString x, VString y => bool_decide (x = y)
  | VBytes _, VBytes _ | VArray _, VArray _ | VObject _, VObject _ => bool_decide (c_id a = c_id b)
  | _, _ => false
  end.

(** [undefined] is [None]. *)
Definition strict_eq_opt (a b : option cell) : bool :=
  match a, b with
  | None, None => true
  | Some x, Some y => strict_eq x y
  | _, _ => false
  end.

(** * Subscriptions *)

(** A listener, with or without [onError]. *)
Record listener := Listener { li_id : nat; li_onError : bool }.
#[global] Instance listener_eq_dec : EqDecision listener.
Proof. solve_decision. Defined.

Inductive render_mode := RenderById | RenderRange | RenderPage.
#[global] Instance render_mode_eq_dec : EqDecision render_mode.
Proof. solve_decision. Defined.

Record csub := CSub
  { q_queryId : Z; q_path : jsstr; q_args : json; q_hash : jsstr;
    q_serverValue : option cell; q_composedValue : option cell; q_answered : bool; q_lastHash : option jsstr;
    q_diffRows : option row_map; q_renderMode : option render_mode; q_orderDir : option order;
    q_pageMeta : option page_meta; q_listeners : list listener }.

Definition with_server (s : csub) (v : option cell) : csub :=
  CSub (q_queryId s) (q_path s) (q_args s) (q_hash s) v (q_composedValue s) (q_answered s) (q_lastHash s)
    (q_diffRows s) (q_renderMode s) (q_orderDir s) (q_pageMeta s) (q_listeners s).
Definition with_composed (s : csub) (v : option cell) : csub :=
  CSub (q_queryId s) (q_path s) (q_args s) (q_hash s) (q_serverValue s) v (q_answered s) (q_lastHash s)
    (q_diffRows s) (q_renderMode s) (q_orderDir s) (q_pageMeta s) (q_listeners s).
Definition with_answered (s : csub) (b : bool) : csub :=
  CSub (q_queryId s) (q_path s) (q_args s) (q_hash s) (q_serverValue s) (q_composedValue s) b (q_lastHash s)
    (q_diffRows s) (q_renderMode s) (q_orderDir s) (q_pageMeta s) (q_listeners s).
Definition with_lastHash (s : csub) (h : option jsstr) : csub :=
  CSub (q_queryId s) (q_path s) (q_args s) (q_hash s) (q_serverValue s) (q_composedValue s) (q_answered s) h
    (q_diffRows s) (q_renderMode s) (q_orderDir s) (q_pageMeta s) (q_listeners s).
Definition with_diff (s : csub) (rows : option row_map) (m : option render_mode) (d : option order) (pm : option page_meta)
    : csub :=
  CSub (q_queryId s) (q_path s) (q_args s) (q_hash s) (q_serverValue s) (q_composedValue s) (q_answered s)
    (q_lastHash s) rows m d pm (q_listeners s).
Definition with_listeners (s : csub) (ls : list listener) : csub :=
  CSub (q_queryId s) (q_path s) (q_args s) (q_hash s) (q_serverValue s) (q_composedValue s) (q_answered s)
    (q_lastHash s) (q_diffRows s) (q_renderMode s) (q_orderDir s) (q_pageMeta s) ls.

(** * Optimistic updates *)

(** An updater as the calls it makes on its store; every answer, an exception
    included, decides how it goes on.  [UNew] makes a value. *)
Inductive updater :=
  | UDone
  | UThrow (e : js_error)
  | UNew (v : value) (k : cell -> updater)
  | UGet (path : jsstr) (args : value) (k : res (option cell) -> updater)
  | USet (path : jsstr) (args : value) (v : option cell) (k : res unit -> updater)
  | UAll (path : jsstr) (k : res (list (value * option cell)) -> updater)
  | UPlaceholder (table : jsstr) (k : jsstr -> updater)
  | UNow (k : Z -> updater).

Inductive entry_status :=
  | Unsent
  | Inflight
  | Completed (commitTs completedAt : Z)
  | Parked_.
Definition is_unsent (s : entry_status) : bool := match s with Unsent => true | _ => false end.
Definition is_parked (s : entry_status) : bool := match s with Parked_ => true | _ => false end.
Definition is_completed (s : entry_status) : bool := match s with Completed _ _ => true | _ => false end.

Record pending := Pending
  { pm_requestId : jsstr; pm_udfPath : jsstr; pm_args : json; pm_update : option (value -> updater);
    pm_entropy : jsstr; pm_now : Z; pm_touched : list jsstr; pm_status : entry_status;
    pm_clientId : option jsstr; pm_seq : option Z; pm_order : option Z; pm_durable : bool;
    pm_fingerprint : option jsstr }.

Definition with_touched (e : pending) (t : list jsstr) : pending :=
  Pending (pm_requestId e) (pm_udfPath e) (pm_args e) (pm_update e) (pm_entropy e) (pm_now e) t (pm_status e)
    (pm_clientId e) (pm_seq e) (pm_order e) (pm_durable e) (pm_fingerprint e).
Definition with_status (e : pending) (s : entry_status) : pending :=
  Pending (pm_requestId e) (pm_udfPath e) (pm_args e) (pm_update e) (pm_entropy e) (pm_now e) (pm_touched e) s
    (pm_clientId e) (pm_seq e) (pm_order e) (pm_durable e) (pm_fingerprint e).
Definition without_update (e : pending) : pending :=
  Pending (pm_requestId e) (pm_udfPath e) (pm_args e) None (pm_entropy e) (pm_now e) (pm_touched e) (pm_status e)
    (pm_clientId e) (pm_seq e) (pm_order e) (pm_durable e) (pm_fingerprint e).
Definition with_durable (e : pending) : pending :=
  Pending (pm_requestId e) (pm_udfPath e) (pm_args e) (pm_update e) (pm_entropy e) (pm_now e) (pm_touched e)
    (pm_status e) (pm_clientId e) (pm_seq e) (pm_order e) true (pm_fingerprint e).
Definition with_identity (e : pending) (clientId : jsstr) (seq ord : Z) : pending :=
  Pending (pm_requestId e) (pm_udfPath e) (pm_args e) (pm_update e) (pm_entropy e) (pm_now e) (pm_touched e)
    (pm_status e) (Some clientId) (Some seq) (Some ord) (pm_durable e) (pm_fingerprint e).

(** * Messages to the server *)

Record batch_entry := BatchEntry
  { be_requestId : jsstr; be_udfPath : jsstr; be_args : json; be_ref : option mutation_ref }.

Inductive client_message :=
  | MConnect (clientId : option jsstr) (resume : option (list mutation_ref * list mutation_ref)) (supportsQueryDiff : bool)
  | MModifyQuerySet (add : list query_request) (remove : list Z)
  | MMutation (e : batch_entry)
  | MMutationBatch (es : list batch_entry)
  | MAction (requestId udfPath : jsstr) (args : json)
  | MEphemeralPublish (topic : jsstr) (event : json)
  | MSetAuth (token : option jsstr)
  | MSetAdminAuth (key : jsstr).

(** * What the client does *)

Inductive rejection :=
  | RejectServer (message : jsstr) (code : option jsstr)
  | RejectUndelivered
  | RejectReset.

Inductive outbox_op :=
  | ObAppend (requestId clientId : jsstr) (seq ord : Z)
  | ObDequeue (clientId : jsstr) (seq : Z)
  | ObParked (clientId : jsstr) (seq : Z)
  | ObStatus (clientId : jsstr) (seq : Z) (inflight : bool)
  | ObMarkFailed (clientId : jsstr) (seq : Z) (message : jsstr) (code : option jsstr)
  | ObSetMeta (clientId : jsstr) (nextSeq : Z) (deployment : option jsstr).

Inductive client_out :=
  | OUpdate (hash : jsstr) (l : nat) (v : cell)
  | OError (hash : jsstr) (l : nat) (e : jsstr)
  | OSend (m : client_message)
  | OResolve (requestId : jsstr) (v : value)
  | OReject (requestId : jsstr) (r : rejection)
  | OActionResolve (requestId : jsstr) (v : value)
  | OActionReject (requestId : jsstr) (e : jsstr)
  | OOverflow
  | OBroadcast (l : nat) (topic : jsstr) (event : value)
  | OOutbox (op : outbox_op)
  | ONudge
  | OBaseline
  | OPaused (requestId udfPath code : jsstr)
  | OMutationFailed (clientId : jsstr) (seq : Z) (udfPath message : jsstr) (code : option jsstr)
  | OClientReset (oldId : option jsstr) (newId : jsstr) (reEnqueued rejected : Z).

(** * The client *)

(** The connection: version bracket, resync, the frontier of the connection
    before, and the capability. *)
Record conn := Conn
  { cn_version : state_version; cn_resyncing : bool; cn_closed : bool; cn_resumeSinceTs : Z; cn_diffSent : bool;
    cn_auth : option (option jsstr) }.

(** The durable outbox, when there is one. *)
Record outbox := Outbox
  { ob_clientId : option jsstr; ob_nextSeq : Z; ob_order : Z; ob_armed : bool; ob_maxQueue : Z;
    ob_deployment : option jsstr; ob_awaiting : bool; ob_pendingDrops : list jsstr; ob_connectSent : bool;
    ob_fingerprint : jsstr }.

Record client := Client
  { k_next : nat;                          (* identities handed out *)
    k_heap : list csub; k_byHash : list (jsstr * nat); k_byId : list (Z * nat);
    k_log : list (jsstr * pending); k_observedTs : Z; k_timers : list jsstr;
    k_callbacks : list jsstr; k_actions : list jsstr; k_broadcast : list nat;
    k_nextQueryId : Z; k_nextRequestId : Z;
    k_conn : conn; k_outbox : option outbox; k_out : list client_out }.

Definition client_new (ob : option outbox) : client :=
  Client 0 [] [] [] [] 0 [] [] [] [] 1 1 (Conn INITIAL_VERSION false false 0 false None) ob [].

Definition set_next (k : client) (n : nat) : client :=
  Client n (k_heap k) (k_byHash k) (k_byId k) (k_log k) (k_observedTs k) (k_timers k) (k_callbacks k) (k_actions k)
    (k_broadcast k) (k_nextQueryId k) (k_nextRequestId k) (k_conn k) (k_outbox k) (k_out k).
Definition set_heap (k : client) (h : list csub) : client :=
  Client (k_next k) h (k_byHash k) (k_byId k) (k_log k) (k_observedTs k) (k_timers k) (k_callbacks k) (k_actions k)
    (k_broadcast k) (k_nextQueryId k) (k_nextRequestId k) (k_conn k) (k_outbox k) (k_out k).
Definition set_maps (k : client) (bh : list (jsstr * nat)) (bi : list (Z * nat)) : client :=
  Client (k_next k) (k_heap k) bh bi (k_log k) (k_observedTs k) (k_timers k) (k_callbacks k) (k_actions k)
    (k_broadcast k) (k_nextQueryId k) (k_nextRequestId k) (k_conn k) (k_outbox k) (k_out k).
Definition set_log (k : client) (l : list (jsstr * pending)) : client :=
  Client (k_next k) (k_heap k) (k_byHash k) (k_byId k) l (k_observedTs k) (k_timers k) (k_callbacks k) (k_actions k)
    (k_broadcast k) (k_nextQueryId k) (k_nextRequestId k) (k_conn k) (k_outbox k) (k_out k).
Definition set_observed (k : client) (ts : Z) : client :=
  Client (k_next k) (k_heap k) (k_byHash k) (k_byId k) (k_log k) ts (k_timers k) (k_callbacks k) (k_actions k)
    (k_broadcast k) (k_nextQueryId k) (k_nextRequestId k) (k_conn k) (k_outbox k) (k_out k).
Definition set_timers (k : client) (t : list jsstr) : client :=
  Client (k_next k) (k_heap k) (k_byHash k) (k_byId k) (k_log k) (k_observedTs k) t (k_callbacks k) (k_actions k)
    (k_broadcast k) (k_nextQueryId k) (k_nextRequestId k) (k_conn k) (k_outbox k) (k_out k).
Definition set_callbacks (k : client) (cs : list jsstr) : client :=
  Client (k_next k) (k_heap k) (k_byHash k) (k_byId k) (k_log k) (k_observedTs k) (k_timers k) cs (k_actions k)
    (k_broadcast k) (k_nextQueryId k) (k_nextRequestId k) (k_conn k) (k_outbox k) (k_out k).
Definition set_actions (k : client) (cs : list jsstr) : client :=
  Client (k_next k) (k_heap k) (k_byHash k) (k_byId k) (k_log k) (k_observedTs k) (k_timers k) (k_callbacks k) cs
    (k_broadcast k) (k_nextQueryId k) (k_nextRequestId k) (k_conn k) (k_outbox k) (k_out k).
Definition set_broadcast (k : client) (ls : list nat) : client :=
  Client (k_next k) (k_heap k) (k_byHash k) (k_byId k) (k_log k) (k_observedTs k) (k_timers k) (k_callbacks k)
    (k_actions k) ls (k_nextQueryId k) (k_nextRequestId k) (k_conn k) (k_outbox k) (k_out k).
Definition set_ids (k : client) (q r : Z) : client :=
  Client (k_next k) (k_heap k) (k_byHash k) (k_byId k) (k_log k) (k_observedTs k) (k_timers k) (k_callbacks k)
    (k_actions k) (k_broadcast k) q r (k_conn k) (k_outbox k) (k_out k).
Definition set_conn (k : client) (c : conn) : client :=
  Client (k_next k) (k_heap k) (k_byHash k) (k_byId k) (k_log k) (k_observedTs k) (k_timers k) (k_callbacks k)
    (k_actions k) (k_broadcast k) (k_nextQueryId k) (k_nextRequestId k) c (k_outbox k) (k_out k).
Definition set_outbox (k : client) (ob : option outbox) : client :=
  Client (k_next k) (k_heap k) (k_byHash k) (k_byId k) (k_log k) (k_observedTs k) (k_timers k) (k_callbacks k)
    (k_actions k) (k_broadcast k) (k_nextQueryId k) (k_nextRequestId k) (k_conn k) ob (k_out k).
Definition put (k : client) (o : list client_out) : client :=
  Client (k_next k) (k_heap k) (k_byHash k) (k_byId k) (k_log k) (k_observedTs k) (k_timers k) (k_callbacks k)
    (k_actions k) (k_broadcast k) (k_nextQueryId k) (k_nextRequestId k) (k_conn k) (k_outbox k) (k_out k ++ o).

(** A new object for a value. *)
Definition alloc (k : client) (v : value) : client * cell := (set_next k (S (k_next k)), Cell (k_next k) v).

(** Subscription objects. *)
Definition sub_at (k : client) (r : nat) : option csub := k_heap k !! r.
Definition set_sub (k : client) (r : nat) (s : csub) : client := set_heap k (<[r := s]> (k_heap k)).
Definition ref_of_hash (k : client) (hash : jsstr) : option nat := jm_get (k_byHash k) hash.
Definition sub_of_hash (k : client) (hash : jsstr) : option csub := r ← ref_of_hash k hash; sub_at k r.
(** The subscriptions of [byHash], in its order. *)
Definition live_subs (k : client) : list (jsstr * csub) :=
  omap (fun hr => (fun s => (hr.1, s)) <$> sub_at k hr.2) (k_byHash k).

Definition client_log_entries (k : client) : list pending := jm_values (k_log k).
