(* ===== verification/Reconciler.v ===== *)
(** The layered query store: the server's value of each subscription, the
    rendering of row diffs, and the replay of optimistic updates on top:
    packages/client/src/layered-store.ts, optimistic-store.ts.

    The reconciler: every change to the mutation log and the layers goes
    through it: packages/client/src/reconcile.ts, mutation-log.ts,
    delivery-policy.ts. *)
From Stdlib Require Import ZArith Lia.
From stdpp Require Import base list strings.
From S2P Require Import Prelude JsBase JsText Values ValuesJson KeyCodec KeyRanges DocStore StateRes RowDiff SyncProtocol ClientState.

(** * Rendering *)

(** The sole entry's row, or [undefined]. *)
Definition renderByIdValue (rows : row_map) : res (option value) :=
  match rows with
  | [] => Ok None
  | (_, rv) :: _ => v ← jsonToConvex (rv_row rv); Ok (Some v)
  end.

Definition order_bytes (rv : row_version) : res bytes := KeyRanges.base64ToBytes (default [] (rv_orderKey rv)).
Definition compare_keyed (a b : bytes * row_version) : comparison := compareKeyBytes a.1 b.1.

(** The comparator decodes both keys each time it is called: with two entries
    or more every entry is compared. *)
Definition sort_rows (rvs : list row_version) : res (list row_version) :=
  match rvs with
  | [] | [_] => Ok rvs
  | _ => keys ← traverse order_bytes rvs; Ok ((js_sort compare_keyed (zip keys rvs)).*2)
  end.

Definition renderRangeValue (rows : row_map) (orderDir : order) : res value :=
  entries ← sort_rows (jm_values rows);
  let entries := match orderDir with Desc => reverse entries | Asc => entries end in
  vs ← traverse (fun e => jsonToConvex (rv_row e)) entries;
  Ok (VArray vs).

Definition page_value (page : value) (meta : page_meta) : value :=
  VObject [(js "page", page);
           (js "nextCursor", match pm_nextCursor meta with None => VNull | Some c => VString c end);
           (js "hasMore", VBool (pm_hasMore meta)); (js "scanCapped", VBool (pm_scanCapped meta))].
Definition renderPageValue (rows : row_map) (orderDir : order) (meta : page_meta) : res value :=
  page ← renderRangeValue rows orderDir; Ok (page_value page meta).

(** * Subscriptions *)

Section host.
Context `{JsHost}.

Definition queryHash (path : jsstr) (argsJson : json) : jsstr := path ++ js ":" ++ JSON_stringify argsJson.
End host.

Definition sub_new (queryId : Z) (path : jsstr) (args : json) (hash : jsstr) : csub :=
  CSub queryId path args hash None None false None None None None None [].

Definition store_create (k : client) (queryId : Z) (path : jsstr) (args : json) (hash : jsstr) : client :=
  let r := length (k_heap k) in
  let k := set_heap k (k_heap k ++ [sub_new queryId path args hash]) in
  set_maps k (jm_set (k_byHash k) hash r) (jm_set (k_byId k) queryId r).

Definition store_remove (k : client) (hash : jsstr) : client :=
  match ref_of_hash k hash with
  | None => k
  | Some r =>
      match sub_at k r with
      | None => k
      | Some s => set_maps k (jm_delete (k_byHash k) hash) (jm_delete (k_byId k) (q_queryId s))
      end
  end.

Definition setServerValue (s : csub) (v : option cell) (hash : option jsstr) : csub :=
  with_diff (with_answered (with_lastHash (with_server s v) hash) true) None None None None.
Definition markAnswered (s : csub) : csub := with_answered s true.
Definition markUnchanged (s : csub) : csub := with_answered s true.

Definition is_render (s : csub) (m : render_mode) : bool := bool_decide (q_renderMode s = Some m).

(** The descriptor of a reset. *)
Definition apply_reset (s : csub) (reset : option reset_desc) : csub :=
  match reset with
  | None => s
  | Some ResetById => with_diff s (q_diffRows s) (Some RenderById) (q_orderDir s) (q_pageMeta s)
  | Some (ResetRange d) => with_diff s (q_diffRows s) (Some RenderRange) (Some d) (q_pageMeta s)
  | Some (ResetPage d pm) => with_diff s (q_diffRows s) (Some RenderPage) (Some d) (Some pm)
  end.

(** A page subscription without metadata ([pageMeta!]) throws. *)
Definition render_rows (s : csub) (rows : row_map) : res (option value) :=
  match q_renderMode s with
  | Some RenderPage =>
      match q_pageMeta s with
      | Some pm => v ← renderPageValue rows (default Asc (q_orderDir s)) pm; Ok (Some v)
      | None => _ ← renderRangeValue rows (default Asc (q_orderDir s)); Throw TypeError
      end
  | Some RenderRange => v ← renderRangeValue rows (default Asc (q_orderDir s)); Ok (Some v)
  | _ => renderByIdValue rows
  end.

Definition alloc_opt (k : client) (v : option value) : client * option cell :=
  match v with None => (k, None) | Some v => let '(k, c) := alloc k v in (k, Some c) end.

(** [applyDiff]: what it did before it threw is kept. *)
Definition applyDiff (r : nat) (s : csub) (changes : list change) (checksum : jsstr) (reset : option reset_desc)
    : stm client bool := fun k =>
  let s := apply_reset s reset in
  let base := match reset with Some _ => [] | None => default [] (q_diffRows s) end in
  let next := applyChanges base changes in
  let s := with_diff s (Some next) (q_renderMode s) (q_orderDir s) (q_pageMeta s) in
  match render_rows s next with
  | Throw e => (set_sub k r s, Throw e)
  | Ok v =>
      let '(k, c) := alloc_opt k v in
      (set_sub k r (with_answered (with_server s c) true), Ok (negb (bool_decide (driftChecksum next = checksum))))
  end.

(** * Optimistic updates *)

(** One run of an updater: identities, its own writes, the queries it touched,
    and the ordinals of its placeholders. *)
Record uframe := UFrame
  { uf_next : nat; uf_local : list (jsstr * option cell); uf_touched : list jsstr; uf_ordinals : list (jsstr * Z) }.

Section replay.
Context `{JsHost}.

Definition getQuery_hash (path : jsstr) (args : value) : res jsstr := j ← convexToJson args; Ok (queryHash path j).

Section run.
Context (subs : list (jsstr * csub)) (overlay : list (jsstr * option cell)) (entropy : jsstr) (now : Z).

Definition server_value_of (hash : jsstr) : option cell :=
  match jm_get subs hash with Some s => q_serverValue s | None => None end.

(** This updater's writes, then those before it, then the server's value. *)
Definition view_read (f : uframe) (hash : jsstr) : option cell :=
  match jm_get (uf_local f) hash with
  | Some v => v
  | None => match jm_get overlay hash with Some v => v | None => server_value_of hash end
  end.

Definition view_all (f : uframe) (path : jsstr) : res (list (value * option cell)) :=
  traverse (fun s => a ← jsonToConvex (q_args s); Ok (a, view_read f (q_hash s)))
    (base.filter (fun s => q_path s = path) (jm_values subs)).

Definition touch (t : list jsstr) (hash : jsstr) : list jsstr := if bool_decide (hash ∈ t) then t else t ++ [hash].

Definition placeholder (f : uframe) (table : jsstr) : uframe * jsstr :=
  let n := default 0 (jm_get (uf_ordinals f) table) in
  (UFrame (uf_next f) (uf_local f) (uf_touched f) (jm_set (uf_ordinals f) table (n + 1)),
   entropy ++ js ":" ++ table ++ js ":" ++ js_string_of n).

Fixpoint run_updater (u : updater) (f : uframe) : uframe * res unit :=
  match u with
  | UDone => (f, Ok tt)
  | UThrow e => (f, Throw e)
  | UNew v k => run_updater (k (Cell (uf_next f) v))
                  (UFrame (S (uf_next f)) (uf_local f) (uf_touched f) (uf_ordinals f))
  | UGet path args k => run_updater (k (h ← getQuery_hash path args; Ok (view_read f h))) f
  | USet path args v k =>
      match getQuery_hash path args with
      | Ok h => run_updater (k (Ok tt)) (UFrame (uf_next f) (jm_set (uf_local f) h v) (touch (uf_touched f) h) (uf_ordinals f))
      | Throw e => run_updater (k (Throw e)) f
      end
  | UAll path k => run_updater (k (view_all f path)) f
  | UPlaceholder table k => let '(f', id) := placeholder f table in run_updater (k id) f'
  | UNow k => run_updater (k now) f
  end.
End run.

(** [for (const h of touched) overlay.set(h, local.get(h))]. *)
Definition commit_local (overlay local : list (jsstr * option cell)) (touched : list jsstr) : list (jsstr * option cell) :=
  fold_left (fun o h => jm_set o h (default None (jm_get local h))) touched overlay.

(** Decoding the arguments is part of the run. *)
Definition invoke_update (subs : list (jsstr * csub)) (overlay : list (jsstr * option cell)) (next : nat) (e : pending)
    (u : value -> updater) : uframe * res unit :=
  let f := UFrame next [] [] [] in
  match jsonToConvex (pm_args e) with
  | Throw err => (f, Throw err)
  | Ok args => run_updater subs overlay (pm_entropy e) (pm_now e) (u args) f
  end.

(** The replay: identities, overlay, dropped entries, entries with their new
    touched sets. *)
Fixpoint replay (subs : list (jsstr * csub)) (entries : list pending) (next : nat) (overlay : list (jsstr * option cell))
    : nat * list (jsstr * option cell) * list (jsstr * js_error) * list pending :=
  match entries with
  | [] => (next, overlay, [], [])
  | e :: entries' =>
      match pm_update e with
      | None => let '(n, o, d, es) := replay subs entries' next overlay in (n, o, d, e :: es)
      | Some u =>
          match invoke_update subs overlay next e u with
          | (f, Throw err) =>
              let '(n, o, d, es) := replay subs entries' (uf_next f) overlay in
              (n, o, (pm_requestId e, err) :: d, e :: es)
          | (f, Ok _) =>
              let '(n, o, d, es) := replay subs entries' (uf_next f) (commit_local overlay (uf_local f) (uf_touched f)) in
              (n, o, d, with_touched e (uf_touched f) :: es)
          end
      end
  end.

Definition next_value (overlay : list (jsstr * option cell)) (s : csub) : option cell :=
  match jm_get overlay (q_hash s) with Some v => v | None => q_serverValue s end.

(** One subscription's new composed value, and the calls of its listeners. *)
Definition compose_one (overlay : list (jsstr * option cell)) (force : list jsstr) (s : csub) : csub * list client_out :=
  let next := next_value overlay s in
  if negb (strict_eq_opt next (q_composedValue s)) || bool_decide (q_hash s ∈ force) then
    (with_composed s next,
     match next with
     | None => []
     | Some c => (fun l => OUpdate (q_hash s) (li_id l) c) <$> q_listeners s
     end)
  else (s, []).

Definition compose_ref (overlay : list (jsstr * option cell)) (force : list jsstr) (k : client) (r : nat) : client :=
  match sub_at k r with
  | None => k
  | Some s => let '(s', out) := compose_one overlay force s in put (set_sub k r s') out
  end.

Definition with_entries (k : client) (es : list pending) : client :=
  set_log k (zip_with (fun kv e => (kv.1, e)) (k_log k) es).

Definition recompose (k : client) (force : list jsstr) : client * list (jsstr * js_error) :=
  let '(n, overlay, dropped, es) := replay (live_subs k) (client_log_entries k) (k_next k) [] in
  let k := with_entries (set_next k n) es in
  (fold_left (compose_ref overlay force) (jm_values (k_byHash k)) k, dropped).
End replay.
#[local] Open Scope stm_scope.

(** * delivery-policy.ts *)

Record close_disposition := CloseDisposition
  { cd_reject : list jsstr; cd_drop : list jsstr; cd_retain : list jsstr; cd_park : list jsstr }.

Definition dispose_one (armed : bool) (d : close_disposition) (e : pending) : close_disposition :=
  let rid := pm_requestId e in
  match pm_status e with
  | Unsent | Parked_ => CloseDisposition (cd_reject d) (cd_drop d) (cd_retain d ++ [rid]) (cd_park d)
  | Inflight =>
      if armed && pm_durable e
      then CloseDisposition (cd_reject d) (cd_drop d ++ [rid]) (cd_retain d) (cd_park d ++ [rid])
      else CloseDisposition (cd_reject d ++ [rid]) (cd_drop d ++ [rid]) (cd_retain d) (cd_park d)
  | Completed _ _ => CloseDisposition (cd_reject d) (cd_drop d ++ [rid]) (cd_retain d) (cd_park d)
  end.
Definition closeDisposition (entries : list pending) (armed : bool) : close_disposition :=
  fold_left (dispose_one armed) entries (CloseDisposition [] [] [] []).

(** * reconcile.ts *)

Definition versionCoversCommit (maxObservedTs commitTs : Z) : bool := (commitTs <=? maxObservedTs) && (0 <? commitTs).

Definition log_get (k : client) (rid : jsstr) : option pending := jm_get (k_log k) rid.
Definition log_add (k : client) (e : pending) : client := set_log k (jm_set (k_log k) (pm_requestId e) e).
Definition log_delete (k : client) (rid : jsstr) : client := set_log k (jm_delete (k_log k) rid).
Definition clearTimer (k : client) (rid : jsstr) : client :=
  set_timers k (base.filter (fun r => r <> rid) (k_timers k)).
Definition armGateTimer (k : client) (rid : jsstr) : client :=
  let k := clearTimer k rid in set_timers k (k_timers k ++ [rid]).
Definition drop_entry (k : client) (rid : jsstr) : client := clearTimer (log_delete k rid) rid.

Section reconciler.
Context `{JsHost} (onDrift : Z -> client -> client).

Definition rebuild (k : client) (force : list jsstr) : client :=
  let '(k, dropped) := recompose k force in fold_left drop_entry dropped.*1 k.

(** The entry's own exception is rethrown. *)
Definition initiate (e : pending) : stm client unit := fun k =>
  let k := log_add k e in
  match pm_update e with
  | None => (k, Ok tt)
  | Some _ =>
      let '(k, dropped) := recompose k [] in
      let k := fold_left drop_entry dropped.*1 k in
      (k, match jm_get (reverse dropped) (pm_requestId e) with Some err => Throw err | None => Ok tt end)
  end.

Definition onVerdictAfterBaseline (rid : jsstr) (k : client) : client :=
  match log_get k rid with None => k | Some _ => rebuild (drop_entry k rid) [] end.

Definition addHydrated (e : pending) (k : client) : client :=
  let k := log_add k e in
  match pm_update e with None => k | Some _ => rebuild k [] end.

(** * Ingest *)

Definition error_outputs (s : csub) (error : jsstr) : list client_out :=
  (fun l => OError (q_hash s) (li_id l) error) <$> base.filter (fun l => li_onError l = true) (q_listeners s).

Definition update_sub (r : nat) (f : csub -> csub) (k : client) : client :=
  match sub_at k r with Some s => set_sub k r (f s) | None => k end.

(** An incremental diff for a subscription that was answered by something
    other than a reset. *)
Definition no_render_mode (s : csub) (reset : option reset_desc) : bool :=
  match reset, q_renderMode s with None, None => q_answered s | _, _ => false end.

Definition ingest_diff (qid : Z) (r : nat) (s : csub) (changes : list change) (checksum : jsstr)
    (reset : option reset_desc) (hash : option jsstr) : stm client unit :=
  if no_render_mode s reset then
    modify (update_sub r (fun s => with_lastHash s None));;
    modify (onDrift qid)
  else
    let* drift := applyDiff r s changes checksum reset in
    modify (update_sub r (fun s => with_lastHash s (match reset with Some _ => hash | None => None end)));;
    if drift : bool then modify (onDrift qid) else ret tt.

(** One modification; the hashes to notify by force. *)
Definition ingest_mod (m : modification) (unchanged : list jsstr) : stm client (list jsstr) := fun k =>
  match m with
  | QueryUpdated qid v hash =>
      match jm_get (k_byId k) qid with
      | None => (k, Ok unchanged)
      | Some r =>
          match jsonToConvex v with
          | Throw e => (k, Throw e)
          | Ok v => let '(k, c) := alloc k v in
                    (update_sub r (fun s => setServerValue s (Some c) hash) k, Ok unchanged)
          end
      end
  | QueryFailed qid error =>
      match r ← jm_get (k_byId k) qid; s ← sub_at k r; Some (r, s) with
      | None => (k, Ok unchanged)
      | Some (r, s) => (put (set_sub k r (markAnswered s)) (error_outputs s error), Ok unchanged)
      end
  | QueryUnchanged qid =>
      match r ← jm_get (k_byId k) qid; s ← sub_at k r; Some (r, s) with
      | None => (k, Ok unchanged)
      | Some (r, s) => (set_sub k r (markUnchanged s), Ok (touch unchanged (q_hash s)))
      end
  | QueryDiff qid changes checksum reset hash =>
      match r ← jm_get (k_byId k) qid; s ← sub_at k r; Some (r, s) with
      | None => (k, Ok unchanged)
      | Some (r, s) => (ingest_diff qid r s changes checksum reset hash;; ret unchanged) k
      end
  | QueryRemoved _ => (k, Ok unchanged)
  end.

Fixpoint ingest_mods (ms : list modification) (unchanged : list jsstr) : stm client (list jsstr) :=
  match ms with
  | [] => ret unchanged
  | m :: ms' => let* u := ingest_mod m unchanged in ingest_mods ms' u
  end.

(** A completed layer whose commit has been observed. *)
Definition covered (observedTs : Z) (e : pending) : bool :=
  match pm_status e with Completed ts _ => versionCoversCommit observedTs ts | _ => false end.
Definition drop_covered (k : client) (e : pending) : client :=
  if covered (k_observedTs k) e then drop_entry k (pm_requestId e) else k.

Definition ingestTransition (ms : list modification) (endTs : Z) : stm client unit :=
  modify (fun k => set_observed k (Z.max (k_observedTs k) endTs));;
  let* unchanged := ingest_mods ms [] in
  modify (fun k => rebuild (fold_left drop_covered (client_log_entries k) k) unchanged).

(** * Responses and timers *)

Definition has_layer (e : pending) : bool :=
  match pm_update e, pm_touched e with Some _, _ :: _ => true | _, _ => false end.

Definition onMutationSuccess (rid : jsstr) (ts : option Z) (now : Z) (k : client) : client :=
  match log_get k rid with
  | None => k
  | Some e =>
      if negb (has_layer e) then log_delete k rid
      else match ts with
           | None => rebuild (log_delete k rid) []
           | Some ts =>
               if (ts <=? 0) || versionCoversCommit (k_observedTs k) ts then rebuild (log_delete k rid) []
               else armGateTimer (log_add k (with_status e (Completed ts now))) rid
           end
  end.

Definition onMutationFailure (rid : jsstr) (k : client) : client :=
  match log_get k rid with None => k | Some _ => rebuild (drop_entry k rid) [] end.

(** The gate timer of a request goes off. *)
Definition gate_timeout (rid : jsstr) (k : client) : client :=
  let k := clearTimer k rid in
  match log_get k rid with
  | Some e => if is_completed (pm_status e) then rebuild (log_delete k rid) [] else k
  | None => k
  end.

(** * Close *)

Definition park_entry (k : client) (rid : jsstr) : client :=
  match log_get k rid with
  | Some e => log_add k (without_update (with_status e Parked_))
  | None => k
  end.
Definition close_drop (parked : list jsstr) (k : client) (rid : jsstr) : client :=
  if bool_decide (rid ∈ parked) then k else drop_entry k rid.

Definition closeSession (armed : bool) (k : client) : client * (list jsstr * list jsstr) :=
  let d := closeDisposition (client_log_entries k) armed in
  let k := fold_left park_entry (cd_park d) k in
  let k := fold_left (close_drop (cd_park d)) (cd_drop d) k in
  let k := set_observed k 0 in
  (rebuild k [], (cd_reject d, cd_park d)).
End reconciler.
