(* ===== verification/ClientSession.v ===== *)
(** The client's session with the server: subscriptions, mutations, incoming
    messages, resync, close and reopen, and the resume handshake of the durable
    outbox: packages/client/src/client.ts, connect-handshake.ts.

    The drain of the outbox is a component of its own (OutboxDrain.v); in a run
    of this file no chunk of it is in flight. *)
From Stdlib Require Import ZArith Lia.
From stdpp Require Import base list strings.
From S2P Require Import Prelude JsBase JsText Values ValuesJson DocStore StateRes RowDiff ReadIndex SyncProtocol ClientState Reconciler.
#[local] Open Scope stm_scope.

(** * connect-handshake.ts *)

Definition held_status (s : entry_status) : bool := negb (is_completed s).

Definition outboxHeldFromLog (entries : list pending) : list mutation_ref :=
  omap (fun e => match pm_clientId e, pm_seq e with
                 | Some c, Some q => if held_status (pm_status e) then Some (MutationRef c q) else None
                 | _, _ => None
                 end) entries.

Definition lowest_step (m : list (jsstr * Z)) (r : mutation_ref) : list (jsstr * Z) :=
  match jm_get m (mr_clientId r) with
  | None => jm_set m (mr_clientId r) (mr_seq r)
  | Some cur => if mr_seq r <? cur then jm_set m (mr_clientId r) (mr_seq r) else m
  end.
Definition outboxAckedThrough (held : list mutation_ref) : list mutation_ref :=
  omap (fun kv => if 0 <? kv.2 then Some (MutationRef kv.1 (kv.2 - 1)) else None) (fold_left lowest_step held []).

Definition buildConnectMessage (clientId : option jsstr) (held : list mutation_ref) : client_message :=
  MConnect clientId (Some (held, outboxAckedThrough held)) true.

(** * State *)

Definition transport_send (m : client_message) (k : client) : client := put k [OSend m].
Definition with_outbox (f : outbox -> outbox) (k : client) : client :=
  match k_outbox k with None => k | Some ob => set_outbox k (Some (f ob)) end.
Definition outbox_do (op : outbox_op) (k : client) : client :=
  match k_outbox k with None => k | Some _ => put k [OOutbox op] end.
Definition nudge (k : client) : client := match k_outbox k with None => k | Some _ => put k [ONudge] end.

Definition set_version (v : state_version) (k : client) : client :=
  let c := k_conn k in
  set_conn k (Conn v (cn_resyncing c) (cn_closed c) (cn_resumeSinceTs c) (cn_diffSent c) (cn_auth c)).
Definition set_resyncing (b : bool) (k : client) : client :=
  let c := k_conn k in
  set_conn k (Conn (cn_version c) b (cn_closed c) (cn_resumeSinceTs c) (cn_diffSent c) (cn_auth c)).
Definition set_closed (b : bool) (k : client) : client :=
  let c := k_conn k in
  set_conn k (Conn (cn_version c) (cn_resyncing c) b (cn_resumeSinceTs c) (cn_diffSent c) (cn_auth c)).
Definition set_resumeSince (ts : Z) (k : client) : client :=
  let c := k_conn k in
  set_conn k (Conn (cn_version c) (cn_resyncing c) (cn_closed c) ts (cn_diffSent c) (cn_auth c)).
Definition set_diffSent (b : bool) (k : client) : client :=
  let c := k_conn k in
  set_conn k (Conn (cn_version c) (cn_resyncing c) (cn_closed c) (cn_resumeSinceTs c) b (cn_auth c)).
Definition set_auth_token (t : option jsstr) (k : client) : client :=
  let c := k_conn k in
  set_conn k (Conn (cn_version c) (cn_resyncing c) (cn_closed c) (cn_resumeSinceTs c) (cn_diffSent c) (Some t)).

Definition ob_set_clientId (c : jsstr) (ob : outbox) : outbox :=
  Outbox (Some c) (ob_nextSeq ob) (ob_order ob) (ob_armed ob) (ob_maxQueue ob) (ob_deployment ob) (ob_awaiting ob)
    (ob_pendingDrops ob) (ob_connectSent ob) (ob_fingerprint ob).
Definition ob_set_seq (n : Z) (ob : outbox) : outbox :=
  Outbox (ob_clientId ob) n (ob_order ob) (ob_armed ob) (ob_maxQueue ob) (ob_deployment ob) (ob_awaiting ob)
    (ob_pendingDrops ob) (ob_connectSent ob) (ob_fingerprint ob).
Definition ob_set_order (n : Z) (ob : outbox) : outbox :=
  Outbox (ob_clientId ob) (ob_nextSeq ob) n (ob_armed ob) (ob_maxQueue ob) (ob_deployment ob) (ob_awaiting ob)
    (ob_pendingDrops ob) (ob_connectSent ob) (ob_fingerprint ob).
Definition ob_arm (deployment : jsstr) (ob : outbox) : outbox :=
  Outbox (ob_clientId ob) (ob_nextSeq ob) (ob_order ob) true (ob_maxQueue ob) (Some deployment) (ob_awaiting ob)
    (ob_pendingDrops ob) (ob_connectSent ob) (ob_fingerprint ob).
Definition ob_set_awaiting (b : bool) (ob : outbox) : outbox :=
  Outbox (ob_clientId ob) (ob_nextSeq ob) (ob_order ob) (ob_armed ob) (ob_maxQueue ob) (ob_deployment ob) b
    (ob_pendingDrops ob) (ob_connectSent ob) (ob_fingerprint ob).
Definition ob_set_drops (ds : list jsstr) (ob : outbox) : outbox :=
  Outbox (ob_clientId ob) (ob_nextSeq ob) (ob_order ob) (ob_armed ob) (ob_maxQueue ob) (ob_deployment ob)
    (ob_awaiting ob) ds (ob_connectSent ob) (ob_fingerprint ob).
Definition ob_set_connectSent (b : bool) (ob : outbox) : outbox :=
  Outbox (ob_clientId ob) (ob_nextSeq ob) (ob_order ob) (ob_armed ob) (ob_maxQueue ob) (ob_deployment ob)
    (ob_awaiting ob) (ob_pendingDrops ob) b (ob_fingerprint ob).

Definition ob_set_fingerprint (fp : jsstr) (ob : outbox) : outbox :=
  Outbox (ob_clientId ob) (ob_nextSeq ob) (ob_order ob) (ob_armed ob) (ob_maxQueue ob) (ob_deployment ob)
    (ob_awaiting ob) (ob_pendingDrops ob) (ob_connectSent ob) fp.

Definition awaiting_baseline (k : client) : bool :=
  match k_outbox k with Some ob => ob_awaiting ob | None => false end.
Definition is_none {A} (o : option A) : bool := match o with None => true | Some _ => false end.

(** * Resync *)

(** The subscriptions of [byId], in its order. *)
Definition subs_by_id (k : client) : list csub := omap (fun ir => sub_at k ir.2) (k_byId k).

Definition resync_request (k : client) (s : csub) : query_request :=
  QueryRequest (q_queryId s) (q_path s) (q_args s)
    (if q_answered s && negb (is_none (q_serverValue s)) then q_lastHash s else None)
    (Some (Z.max (cn_resumeSinceTs (k_conn k)) (k_observedTs k))).

Definition resync (k : client) : client :=
  let k := set_version INITIAL_VERSION (set_resyncing true k) in
  match subs_by_id k with
  | [] => set_resyncing false k
  | subs => transport_send (MModifyQuerySet (resync_request k <$> subs) []) k
  end.

Section session.
Context `{JsHost}.
Notation ingest := (ingestTransition (fun _ => resync)).

Definition maybeSendDiffCapability (k : client) : client :=
  if negb (is_none (k_outbox k)) || cn_diffSent (k_conn k) || cn_closed (k_conn k) then k
  else transport_send (MConnect None None true) (set_diffSent true k).

(** * Subscriptions *)

(** The first delivery is the composed value. *)
Definition first_delivery (s : csub) (l : listener) : list client_out :=
  match q_composedValue s with Some c => [OUpdate (q_hash s) (li_id l) c] | None => [] end.

Definition subscribe (path : jsstr) (args : value) (l : listener) : stm client unit :=
  let* argsJson := lift (convexToJson args) in
  let hash := queryHash path argsJson in
  modify (fun k =>
    match ref_of_hash k hash with
    | Some _ => k
    | None =>
        let qid := k_nextQueryId k in
        let k := store_create (set_ids k (qid + 1) (k_nextRequestId k)) qid path argsJson hash in
        let k := maybeSendDiffCapability k in
        transport_send (MModifyQuerySet [QueryRequest qid path argsJson None None] []) k
    end);;
  modify (fun k =>
    match ref_of_hash k hash with
    | None => k
    | Some r =>
        match sub_at k r with
        | None => k
        | Some s => put (set_sub k r (with_listeners s (if bool_decide (l ∈ q_listeners s) then q_listeners s
                                                         else q_listeners s ++ [l]))) (first_delivery s l)
        end
    end).

Definition unsubscribe (hash : jsstr) (l : listener) (k : client) : client :=
  match ref_of_hash k hash with
  | None => k
  | Some r =>
      match sub_at k r with
      | None => k
      | Some s =>
          let ls := base.filter (fun l' => l' <> l) (q_listeners s) in
          let k := set_sub k r (with_listeners s ls) in
          match ls with
          | [] => store_remove (transport_send (MModifyQuerySet [] [q_queryId s]) k) hash
          | _ :: _ => k
          end
      end
  end.

(** * Mutations *)

Definition mutationMessage (e : pending) : batch_entry :=
  BatchEntry (pm_requestId e) (pm_udfPath e) (pm_args e)
    (match pm_clientId e with Some c => Some (MutationRef c (default 0 (pm_seq e))) | None => None end).

Definition hasOutboxBacklog (k : client) : bool :=
  existsb (fun e => is_unsent (pm_status e) || is_parked (pm_status e)) (client_log_entries k).
Definition outboxQueueDepth (k : client) : Z :=
  Z.of_nat (length (base.filter (fun e => pm_clientId e <> None /\ is_completed (pm_status e) = false)
                      (client_log_entries k))).

Definition nextOutboxOrder (now : Z) (ob : outbox) : Z := if now <=? ob_order ob then ob_order ob + 1 else now.

Definition callback_add (rid : jsstr) (k : client) : client := set_callbacks k (k_callbacks k ++ [rid]).
Definition has_callback (k : client) (rid : jsstr) : bool := bool_decide (rid ∈ k_callbacks k).
Definition callback_remove (rid : jsstr) (k : client) : client :=
  set_callbacks k (base.filter (fun r => r <> rid) (k_callbacks k)).
Definition resolvePending (rid : jsstr) (v : value) (k : client) : client :=
  if has_callback k rid then put (callback_remove rid k) [OResolve rid v] else k.
Definition rejectPending (rid : jsstr) (r : rejection) (k : client) : client :=
  if has_callback k rid then put (callback_remove rid k) [OReject rid r] else k.

(** The identity a new entry gets from the outbox. *)
Definition stamp_outbox (now : Z) (ob : outbox) (e : pending) : outbox * pending :=
  let seq := ob_nextSeq ob in
  let ord := nextOutboxOrder now ob in
  (ob_set_order ord (ob_set_seq (seq + 1) ob),
   Pending (pm_requestId e) (pm_udfPath e) (pm_args e) (pm_update e) (pm_entropy e) (pm_now e) (pm_touched e)
     (pm_status e) (ob_clientId ob) (Some seq) (Some ord) (pm_durable e) (Some (ob_fingerprint ob))).

Definition append_op (e : pending) : list client_out :=
  match pm_clientId e, pm_seq e, pm_order e with
  | Some c, Some q, Some o => [OOutbox (ObAppend (pm_requestId e) c q o)]
  | _, _, _ => []
  end.

Definition over_capacity (k : client) (ob : option outbox) : bool :=
  match ob with Some b => ob_maxQueue b <=? outboxQueueDepth k | None => false end.

(** Past the promise: sent now, or queued. *)
Definition send_or_queue (rid : jsstr) (queueBusy : bool) (k : client) : client :=
  match log_get k rid with
  | None => k
  | Some e =>
      if cn_closed (k_conn k) || queueBusy then log_add k (with_status e Unsent)
      else transport_send (MMutation (mutationMessage e)) (log_add k (with_status e Inflight))
  end.

(** A full outbox answers with a rejected promise and uses nothing up; a
    throwing updater throws to the caller after the request id and the sequence
    number have been used up.  A chunk of the drain in flight counts as backlog. *)
Definition mutation (chunkActive : bool) (path : jsstr) (args : value) (update : option (value -> updater))
    (transient : bool) (entropy : jsstr) (now : Z) : stm client unit :=
  let* argsJson := lift (convexToJson args) in
  let* k0 := gets (fun k => k) in
  let ob := if transient then None else k_outbox k0 in
  if over_capacity k0 ob then modify (fun k => put k [OOverflow])
  else
    let rid := js_string_of (k_nextRequestId k0) in
    let e := Pending rid path argsJson update entropy now [] Unsent None None None false None in
    let queueBusy := negb (is_none ob) && (chunkActive || hasOutboxBacklog k0) in
    modify (fun k => set_ids k (k_nextQueryId k) (k_nextRequestId k + 1));;
    modify (fun k => match ob with Some b => set_outbox k (Some (stamp_outbox now b e).1) | None => k end);;
    let e := match ob with Some b => (stamp_outbox now b e).2 | None => e end in
    initiate e;;
    modify (callback_add rid);;
    modify (send_or_queue rid queueBusy);;
    modify (fun k => if is_none ob then k else put k (append_op e)).

(** The append of a durable entry has resolved. *)
Definition append_resolved (rid : jsstr) (k : client) : client :=
  nudge (match log_get k rid with Some e => log_add k (with_durable e) | None => k end).

(** * The handshake and verdicts *)

Definition markBaselineAdopted (k : client) : client :=
  let drops := match k_outbox k with Some ob => ob_pendingDrops ob | None => [] end in
  let k := with_outbox (fun ob => ob_set_drops [] (ob_set_awaiting false ob)) k in
  let k := fold_left (fun k rid => onVerdictAfterBaseline rid k) drops k in
  nudge (put k [OBaseline]).

Definition beginBaselineAwait (expectTransition : bool) (k : client) : client :=
  let k := with_outbox (ob_set_awaiting expectTransition) k in
  if expectTransition then k else markBaselineAdopted k.

Definition sendConnect (k : client) : client :=
  match k_outbox k with
  | None => k
  | Some ob => transport_send (buildConnectMessage (ob_clientId ob) (outboxHeldFromLog (client_log_entries k))) k
  end.

Definition initiateHandshake (expectTransition : bool) (k : client) : client :=
  match k_outbox k with
  | None => k
  | Some ob =>
      if ob_connectSent ob || cn_closed (k_conn k) then k
      else sendConnect (beginBaselineAwait expectTransition (with_outbox (ob_set_connectSent true) k))
  end.

Definition findOutboxEntry (k : client) (clientId : jsstr) (seq : Z) : option pending :=
  List.find (fun e => bool_decide (pm_clientId e = Some clientId) && bool_decide (pm_seq e = Some seq))
    (client_log_entries k).

Definition dropAfterBaseline (rid : jsstr) (k : client) : client :=
  if awaiting_baseline k then with_outbox (fun ob => ob_set_drops (ob_pendingDrops ob ++ [rid]) ob) k
  else onVerdictAfterBaseline rid k.

(** Only for a durable mutation. *)
Definition notifyMutationFailed (c : option jsstr) (q : option Z) (path message : jsstr) (code : option jsstr) (k : client)
    : client :=
  match c, q with Some c, Some q => put k [OMutationFailed c q path message code] | _, _ => k end.

(** A terminal verdict for an entry of the log, or for a record without one. *)
Definition settle_failed (v : client_verdict) (message : jsstr) (code : option jsstr) (k : client) : client :=
  let c := mr_clientId (cv_ref v) in let q := mr_seq (cv_ref v) in
  match findOutboxEntry k c q with
  | Some e =>
      let hadAwaiter := has_callback k (pm_requestId e) in
      let k := rejectPending (pm_requestId e) (RejectServer message code) k in
      let k := outbox_do (ObMarkFailed c q message code) k in
      let k := onMutationFailure (pm_requestId e) k in
      if hadAwaiter then k else notifyMutationFailed (Some c) (Some q) (pm_udfPath e) message code k
  | None =>
      notifyMutationFailed (Some c) (Some q) (js "unknown") message code (outbox_do (ObMarkFailed c q message code) k)
  end.

Definition verdict_path (k : client) (v : client_verdict) : jsstr :=
  match findOutboxEntry k (mr_clientId (cv_ref v)) (mr_seq (cv_ref v)) with
  | Some e => pm_udfPath e
  | None => js "unknown"
  end.

Definition settleVerdict (v : client_verdict) : stm client unit := fun k =>
  let c := mr_clientId (cv_ref v) in let q := mr_seq (cv_ref v) in
  match cv_verdict v with
  | VApplied =>
      match (if cv_valueMissing v then Ok VNull else jsonToConvex (default JNull (cv_value v))) with
      | Throw e => (k, Throw e)
      | Ok val =>
          match findOutboxEntry k c q with
          | Some e =>
              let k := resolvePending (pm_requestId e) val k in
              (dropAfterBaseline (pm_requestId e) (outbox_do (ObDequeue c q) k), Ok tt)
          | None => (outbox_do (ObDequeue c q) k, Ok tt)
          end
      end
  | VFailed =>
      (settle_failed v (js "mutation " ++ [34] ++ verdict_path k v ++ [34] ++ js " failed") (cv_code v) k, Ok tt)
  | VStale =>
      (settle_failed v (js "mutation disowned (STALE_CLIENT)") (Some (default (js "STALE_CLIENT") (cv_code v))) k, Ok tt)
  | VUnknown => (k, Ok tt)
  end.

(** One entry of a disowned history. *)
Definition reset_message : jsstr := js "the server disowned this client's mutation history (swept/foreign timeline)".
Definition reset_code : jsstr := js "OFFLINE_CLIENT_RESET".

Definition reject_parked (oldId : option jsstr) (e : pending) (k : client) : client :=
  let c := match pm_clientId e with Some c => Some c | None => oldId end in
  let hadAwaiter := has_callback k (pm_requestId e) in
  let k := match c, pm_seq e with
           | Some c, Some q => outbox_do (ObMarkFailed c q reset_message (Some reset_code)) k
           | _, _ => k
           end in
  let k := rejectPending (pm_requestId e) RejectReset k in
  let k := onMutationFailure (pm_requestId e) k in
  if hadAwaiter then k else notifyMutationFailed c (pm_seq e) (pm_udfPath e) reset_message (Some reset_code) k.

Definition re_enqueue (oldId : option jsstr) (fresh : jsstr) (now : Z) (e : pending) (k : client) : client :=
  let c := match pm_clientId e with Some c => Some c | None => oldId end in
  let k := match c, pm_seq e with Some c, Some q => outbox_do (ObDequeue c q) k | _, _ => k end in
  match k_outbox k with
  | None => k
  | Some ob =>
      let seq := ob_nextSeq ob in
      let ord := nextOutboxOrder now ob in
      let k := set_outbox k (Some (ob_set_order ord (ob_set_seq (seq + 1) ob))) in
      match log_get k (pm_requestId e) with
      | None => k
      | Some e' => let e' := with_identity e' fresh seq ord in put (log_add k e') (append_op e')
      end
  end.

Definition reset_entry_ (oldId : option jsstr) (fresh : jsstr) (now : Z) (acc : client * (Z * Z)) (e : pending)
    : client * (Z * Z) :=
  let '(k, (re, rj)) := acc in
  if is_parked (pm_status e) then (reject_parked oldId e k, (re, rj + 1))
  else if is_unsent (pm_status e) then (re_enqueue oldId fresh now e k, (re + 1, rj))
  else acc.

(** Minting writes the meta row of the fresh identity; the second write and the
    callback follow it. *)
Definition onClientReset (fresh : jsstr) (now : Z) (k : client) : client :=
  match k_outbox k with
  | None => put k [OClientReset None fresh 0 0]
  | Some ob =>
      let oldId := ob_clientId ob in
      let k := with_outbox (fun ob => ob_set_seq 0 (ob_set_clientId fresh ob)) k in
      let '(k, (re, rj)) := fold_left (reset_entry_ oldId fresh now) (client_log_entries k) (k, (0, 0)) in
      let k := match k_outbox k with
               | Some ob => put k [OOutbox (ObSetMeta fresh 0 (ob_deployment ob));
                                   OOutbox (ObSetMeta fresh (ob_nextSeq ob) (ob_deployment ob))]
               | None => k
               end in
      put k [OClientReset oldId fresh re rj]
  end.

Definition handleConnectAck (known : bool) (results : list client_verdict) (deploymentId fresh : jsstr) (now : Z)
    : stm client unit :=
  modify (with_outbox (ob_arm deploymentId));;
  modify (fun k => match k_outbox k with
                   | Some ob => match ob_clientId ob with
                                | Some c => outbox_do (ObSetMeta c (ob_nextSeq ob) (Some deploymentId)) k
                                | None => k
                                end
                   | None => k
                   end);;
  if negb known then modify (fun k => nudge (onClientReset fresh now k))
  else for_each results settleVerdict;; modify nudge.

(** * Incoming messages *)

Definition adopt (en : state_version) (ms : list modification) : stm client unit :=
  ingest ms (sv_ts en);; modify (set_version en).

Definition adopted (k : client) : client := if awaiting_baseline k then markBaselineAdopted k else k.

(** While resyncing, whatever transition comes next is the baseline. *)
Definition on_transition (st en : state_version) (ms : list modification) : stm client unit :=
  let* k := gets (fun k => k) in
  if cn_resyncing (k_conn k) then adopt en ms;; modify (set_resyncing false);; modify adopted
  else if negb (versionsEqual st (cn_version (k_conn k))) then modify resync
  else adopt en ms;; modify adopted.

(** Resolving decodes the value only when somebody waits for it. *)
Definition on_success (rid : jsstr) (v : option json) (ts : option Z) (now : Z) : stm client unit :=
  let* k := gets (fun k => k) in
  let e := log_get k rid in
  let waits := has_callback k rid in
  modify (callback_remove rid);;
  (if waits then let* val := lift (jsonToConvex (default JNull v)) in modify (fun k => put k [OResolve rid val])
   else ret tt);;
  modify (onMutationSuccess rid ts now);;
  modify (fun k => match e with
                   | Some e => match pm_clientId e, pm_seq e with
                               | Some c, Some q => outbox_do (ObDequeue c q) k
                               | _, _ => k
                               end
                   | None => k
                   end).

Definition on_failure (rid error : jsstr) (code : option jsstr) (k : client) : client :=
  let e := log_get k rid in
  let hadAwaiter := has_callback k rid in
  let k := rejectPending rid (RejectServer error code) k in
  let k := onMutationFailure rid k in
  let c := x ← e; pm_clientId x in let q := x ← e; pm_seq x in
  let k := match c, q with Some c, Some q => outbox_do (ObMarkFailed c q error code) k | _, _ => k end in
  if hadAwaiter then k
  else notifyMutationFailed c q (match e with Some x => pm_udfPath x | None => js "unknown" end) error code k.

Definition action_remove (rid : jsstr) (k : client) : client :=
  set_actions k (base.filter (fun r => r <> rid) (k_actions k)).

Definition onServerMessage (m : server_message) (fresh : jsstr) (now : Z) : stm client unit :=
  match m with
  | Transition st en ms => on_transition st en ms
  | MutationOk rid v ts _ _ => on_success rid v ts now
  | MutationFailed rid e code => modify (on_failure rid e code)
  | ConnectAck known results deploymentId => handleConnectAck known results deploymentId fresh now
  | ActionOk rid v =>
      let* k := gets (fun k => k) in
      if bool_decide (rid ∈ k_actions k) then
        modify (action_remove rid);;
        let* val := lift (jsonToConvex v) in modify (fun k => put k [OActionResolve rid val])
      else ret tt
  | ActionFailed rid e =>
      let* k := gets (fun k => k) in
      if bool_decide (rid ∈ k_actions k) then
        modify (action_remove rid);; modify (fun k => put k [OActionReject rid e])
      else ret tt
  | Broadcast topic event =>
      let* val := lift (jsonToConvex event) in
      modify (fun k => put k ((fun l => OBroadcast l topic val) <$> k_broadcast k))
  end.

(** * The transport *)

Definition onTransportClosed (k : client) : client :=
  let k := set_diffSent false (with_outbox (ob_set_connectSent false) (set_closed true k)) in
  let k := set_resumeSince (k_observedTs k) k in
  let armed := match k_outbox k with Some ob => ob_armed ob | None => false end in
  let '(k, (rejected, parked)) := closeSession armed k in
  let k := fold_left (fun k rid => rejectPending rid RejectUndelivered k) rejected k in
  let k := fold_left (fun k rid =>
             match log_get k rid with
             | Some e => match pm_clientId e, pm_seq e with
                         | Some c, Some q => outbox_do (ObParked c q) k
                         | _, _ => k
                         end
             | None => k
             end) parked k in
  set_actions (put k ((fun rid => OActionReject rid (js "connection closed")) <$> k_actions k)) [].

Definition flush_unsent (k : client) (rid : jsstr) : client :=
  match log_get k rid with
  | Some e => transport_send (MMutation (mutationMessage e)) (log_add k (with_status e Inflight))
  | None => k
  end.
Definition unsentInOrder (k : client) : list jsstr :=
  pm_requestId <$> base.filter (fun e => is_unsent (pm_status e) = true) (client_log_entries k).

Definition onTransportReopened (k : client) : client :=
  let k := set_closed false k in
  let k := match cn_auth (k_conn k) with Some t => transport_send (MSetAuth t) k | None => k end in
  let k := resync (maybeSendDiffCapability k) in
  match k_outbox k with
  | Some _ => nudge (initiateHandshake (cn_resyncing (k_conn k)) k)
  | None => fold_left flush_unsent (unsentInOrder k) k
  end.

(** Without a token the fingerprint is known at once; the digest of a token
    arrives later, and counts if the token is still the last one. *)
Definition anon : jsstr := js "anon".
Definition falsy_token (t : option jsstr) : bool := match t with None | Some [] => true | Some (_ :: _) => false end.
Definition setAuth (token : option jsstr) (k : client) : client :=
  let k := transport_send (MSetAuth token) (set_auth_token token k) in
  if falsy_token token then with_outbox (ob_set_fingerprint anon) k else k.
Definition digest_resolved (token : jsstr) (k : client) : client :=
  if bool_decide (cn_auth (k_conn k) = Some (Some token)) then with_outbox (ob_set_fingerprint (sha256_hex token)) k else k.

Definition action (path : jsstr) (args : value) : stm client unit :=
  let* k := gets (fun k => k) in
  let rid := js_string_of (k_nextRequestId k) in
  modify (fun k => set_actions (set_ids k (k_nextQueryId k) (k_nextRequestId k + 1)) (k_actions k ++ [rid]));;
  let* j := lift (convexToJson args) in
  modify (transport_send (MAction rid path j)).

(** A durable entry of an earlier session, under a fresh request id. *)
Record outbox_entry := OutboxEntry
  { oe_clientId : jsstr; oe_seq : Z; oe_order : Z; oe_udfPath : jsstr; oe_args : json; oe_entropy : jsstr; oe_now : Z;
    oe_fingerprint : option jsstr }.

(** A queued auth refresh is never replayed. *)
Definition AUTH_REFRESH_UDF_PATH : jsstr := js "auth:refresh".
Definition NON_REPLAYABLE_MUTATION_DROPPED : jsstr := js "NON_REPLAYABLE_MUTATION_DROPPED".
Definition non_replayable (e : outbox_entry) : bool := bool_decide (oe_udfPath e = AUTH_REFRESH_UDF_PATH).
Definition drop_message (path : jsstr) : jsstr :=
  js "mutation " ++ [34] ++ path ++ [34] ++ js " dropped at hydrate: durable auth-refresh replay is never safe".
Definition dropIfNonReplayable (e : outbox_entry) (k : client) : client :=
  outbox_do (ObMarkFailed (oe_clientId e) (oe_seq e) (drop_message (oe_udfPath e)) (Some NON_REPLAYABLE_MUTATION_DROPPED)) k.

Definition addHydratedEntry (e : outbox_entry) (update : option (value -> updater)) (k : client) : client :=
  if non_replayable e then dropIfNonReplayable e k else
  match findOutboxEntry k (oe_clientId e) (oe_seq e) with
  | Some _ => k
  | None =>
      let k := with_outbox (fun ob => ob_set_order (Z.max (ob_order ob) (oe_order e)) ob) k in
      let rid := js_string_of (k_nextRequestId k) in
      let k := set_ids k (k_nextQueryId k) (k_nextRequestId k + 1) in
      addHydrated (Pending rid (oe_udfPath e) (oe_args e) update (oe_entropy e) (oe_now e) [] Unsent
                     (Some (oe_clientId e)) (Some (oe_seq e)) (Some (oe_order e)) true (oe_fingerprint e)) k
  end.

(** * Events *)

Inductive client_event :=
  | CvSubscribe (path : jsstr) (args : value) (l : listener)
  | CvUnsubscribe (hash : jsstr) (l : listener)
  | CvMutation (path : jsstr) (args : value) (update : option (value -> updater)) (transient : bool) (entropy : jsstr)
      (now : Z)
  | CvDurable (rid : jsstr)
  | CvAction (path : jsstr) (args : value)
  | CvSetAuth (token : option jsstr)
  | CvDigest (token : jsstr)
  | CvOnBroadcast (l : nat)
  | CvHydrate (e : outbox_entry) (update : option (value -> updater))
  | CvMessage (m : server_message) (fresh : jsstr) (now : Z)
  | CvTimeout (rid : jsstr)
  | CvClosed
  | CvReopened.

Definition client_step (k : client) (e : client_event) : client * res unit :=
  match e with
  | CvSubscribe path args l => subscribe path args l k
  | CvUnsubscribe hash l => (unsubscribe hash l k, Ok tt)
  | CvMutation path args u tr en now => mutation false path args u tr en now k
  | CvDurable rid => (append_resolved rid k, Ok tt)
  | CvAction path args => action path args k
  | CvSetAuth t => (setAuth t k, Ok tt)
  | CvDigest t => (digest_resolved t k, Ok tt)
  | CvOnBroadcast l => (set_broadcast k (k_broadcast k ++ [l]), Ok tt)
  | CvHydrate e u => (addHydratedEntry e u k, Ok tt)
  | CvMessage m fresh now => onServerMessage m fresh now k
  | CvTimeout rid => (if bool_decide (rid ∈ k_timers k) then gate_timeout rid k else k, Ok tt)
  | CvClosed => (onTransportClosed k, Ok tt)
  | CvReopened => (onTransportReopened k, Ok tt)
  end.

Definition client_run (k : client) (es : list client_event) : client := fold_left (fun k e => (client_step k e).1) es k.
End session.
