(* ===== verification/ClientInvariant.v ===== *)
(** The invariant of a client: what a subscription shows is the server's value
    unless a surviving optimistic layer covers it, and a held layer is always
    ahead of the observed frontier, with its timer running. *)
From Stdlib Require Import ZArith Lia.
From stdpp Require Import base list sets strings.
From S2P Require Import Prelude JsBase JsText Values ValuesJson DocStore StateRes RowDiff ReadIndex SyncProtocol ClientState Reconciler ClientSession.

(** * The parts *)

(** [next !== composed] is false, or the very same cell. *)
Definition same_value (composed next : option cell) : Prop := composed = next \/ strict_eq_opt next composed = true.

Record store_wf (heap : list csub) (byHash : list (jsstr * nat)) : Prop := {
  so_keys : NoDup (jm_keys byHash);
  so_refs : NoDup (jm_values byHash);
  so_sub : forall h r, (h, r) ∈ byHash -> exists s, heap !! r = Some s /\ q_hash s = h }.

(** Request ids are those handed out so far. *)
Record log_wf (log : list (jsstr * pending)) (next : Z) : Prop := {
  lo_keys : NoDup (jm_keys log);
  lo_ids : forall rid e, (rid, e) ∈ log -> pm_requestId e = rid;
  lo_old : forall rid e, (rid, e) ∈ log -> exists n, 0 < n < next /\ rid = js_string_of n;
  lo_pos : 0 < next }.

(** A held layer has its timer, and is ahead of the frontier. *)
Definition timed (log : list (jsstr * pending)) (timers : list jsstr) : Prop :=
  forall rid e ts at_, (rid, e) ∈ log -> pm_status e = Completed ts at_ -> 0 < ts /\ rid ∈ timers.
Definition ahead (log : list (jsstr * pending)) (observed : Z) : Prop :=
  forall rid e ts at_, (rid, e) ∈ log -> pm_status e = Completed ts at_ -> observed < ts.

(** A layer on file covers the query. *)
Definition layered (log : list (jsstr * pending)) (hash : jsstr) : Prop :=
  exists rid e, (rid, e) ∈ log /\ pm_update e <> None /\ hash ∈ pm_touched e.

Definition comp_wf (heap : list csub) (byHash : list (jsstr * nat)) (log : list (jsstr * pending)) : Prop :=
  forall h r s, (h, r) ∈ byHash -> heap !! r = Some s ->
    same_value (q_composedValue s) (q_serverValue s) \/ layered log h.

(** Before a rebuild, before the frontier moves, and between events. *)
Definition sinv (k : client) : Prop :=
  store_wf (k_heap k) (k_byHash k) /\ log_wf (k_log k) (k_nextRequestId k) /\ timed (k_log k) (k_timers k).
Definition ginv (k : client) : Prop := sinv k /\ ahead (k_log k) (k_observedTs k).
Definition cinv (k : client) : Prop := ginv k /\ comp_wf (k_heap k) (k_byHash k) (k_log k).

(** What the invariant looks at. *)
Definition core (k : client) : list csub * list (jsstr * nat) * list (jsstr * pending) * Z * list jsstr * Z :=
  (k_heap k, k_byHash k, k_log k, k_observedTs k, k_timers k, k_nextRequestId k).

Lemma sinv_core k k' : core k' = core k -> sinv k -> sinv k'.
Proof. unfold sinv. by intros [= -> -> -> _ -> ->]. Qed.
Lemma ginv_core k k' : core k' = core k -> ginv k -> ginv k'.
Proof. unfold ginv, sinv. by intros [= -> -> -> -> -> ->]. Qed.
Lemma cinv_core k k' : core k' = core k -> cinv k -> cinv k'.
Proof. unfold cinv, ginv, sinv. by intros [= -> -> -> -> -> ->]. Qed.

Lemma cinv_new ob : cinv (client_new ob).
Proof.
  split; [split; [split_and!|]|]; [split|split|..]; cbn; repeat intro; try apply NoDup_nil; try done;
    exfalso; by eapply not_elem_of_nil.
Qed.

(** * Log operations *)

Lemma log_delete_elem k rid re : re ∈ k_log (log_delete k rid) <-> re ∈ k_log k /\ re.1 <> rid.
Proof. cbn. unfold jm_delete. rewrite list_elem_of_filter. tauto. Qed.

Lemma clearTimer_elem k rid t : t ∈ k_timers (clearTimer k rid) <-> t ∈ k_timers k /\ t <> rid.
Proof. cbn. rewrite list_elem_of_filter. tauto. Qed.

Lemma drops_elem ds k re : re ∈ k_log (fold_left drop_entry ds k) <-> re ∈ k_log k /\ re.1 ∉ ds.
Proof.
  revert k. induction ds as [|d ds IH]; intros k; cbn [fold_left]; [set_solver|].
  rewrite IH. change (k_log (drop_entry k d)) with (k_log (log_delete k d)). rewrite log_delete_elem. set_solver.
Qed.

Lemma drops_timers ds k rid : rid ∈ k_timers (fold_left drop_entry ds k) <-> rid ∈ k_timers k /\ rid ∉ ds.
Proof.
  revert k. induction ds as [|d ds IH]; intros k; cbn [fold_left]; [set_solver|].
  rewrite IH. change (k_timers (drop_entry k d)) with (k_timers (clearTimer k d)). rewrite clearTimer_elem. set_solver.
Qed.

Lemma log_delete_wf k rid n : log_wf (k_log k) n -> log_wf (k_log (log_delete k rid)) n.
Proof.
  intros [H1 H2 H3 H4]. split; [by apply jm_nodup_delete|..|done]; intros r e Hin;
    apply (log_delete_elem k rid (r, e)) in Hin as [? _]; eauto.
Qed.

Lemma timed_sub k k' : (forall re, re ∈ k_log k' -> re ∈ k_log k /\ (re.1 ∈ k_timers k -> re.1 ∈ k_timers k')) ->
  timed (k_log k) (k_timers k) -> timed (k_log k') (k_timers k').
Proof. intros Hs Ht rid e ts at_ [Hin Hm]%Hs Hst. destruct (Ht _ _ _ _ Hin Hst). cbn in *. auto. Qed.

Lemma ahead_sub k k' : (forall re, re ∈ k_log k' -> re ∈ k_log k) -> k_observedTs k' = k_observedTs k ->
  ahead (k_log k) (k_observedTs k) -> ahead (k_log k') (k_observedTs k').
Proof. intros Hs -> Ha rid e ts at_ Hin%Hs. eauto. Qed.

Lemma sinv_delete k rid : sinv k -> sinv (log_delete k rid).
Proof.
  intros (Hs & Hl & Ht). split_and!; [done|exact (log_delete_wf k rid _ Hl)|].
  revert Ht. apply timed_sub. by intros re [? _]%log_delete_elem.
Qed.
Lemma ginv_delete k rid : ginv k -> ginv (log_delete k rid).
Proof.
  intros [Hs Ha]. split; [by apply sinv_delete|]. revert Ha. apply ahead_sub; [|done]. by intros re [? _]%log_delete_elem.
Qed.

(** The timer of an entry that is not held may go. *)
Lemma sinv_clearTimer k rid :
  (forall e ts at_, (rid, e) ∈ k_log k -> pm_status e <> Completed ts at_) -> sinv k -> sinv (clearTimer k rid).
Proof.
  intros Hno (Hs & Hl & Ht). split_and!; [done..|]. intros r e ts at_ Hin Hst. destruct (Ht _ _ _ _ Hin Hst).
  split; [done|]. apply clearTimer_elem. split; [done|]. intros ->. by eapply Hno.
Qed.
Lemma sinv_drop k rid : sinv k -> sinv (drop_entry k rid).
Proof.
  intros Hk. apply sinv_clearTimer; [|by apply sinv_delete]. by intros e ts at_ [_ Hne]%log_delete_elem.
Qed.
Lemma ginv_drop k rid : ginv k -> ginv (drop_entry k rid).
Proof. intros [Hs Ha]. split; [by apply sinv_drop|]. exact (proj2 (ginv_delete k rid (conj Hs Ha))). Qed.
Lemma sinv_drops ds k : sinv k -> sinv (fold_left drop_entry ds k).
Proof. revert k. induction ds as [|d ds IH]; intros k Hk; [done|]. by apply IH, sinv_drop. Qed.
Lemma ginv_drops ds k : ginv k -> ginv (fold_left drop_entry ds k).
Proof. revert k. induction ds as [|d ds IH]; intros k Hk; [done|]. by apply IH, ginv_drop. Qed.

Lemma drops_frame ds k : let k' := fold_left drop_entry ds k in
  k_heap k' = k_heap k /\ k_byHash k' = k_byHash k /\ k_observedTs k' = k_observedTs k.
Proof. revert k. induction ds as [|d ds IH]; intros k; [done|]. cbn [fold_left]. apply (IH (drop_entry k d)). Qed.

Lemma jm_set_in {K V} `{EqDecision K} (m : list (K * V)) k v kv :
  NoDup (jm_keys m) -> kv ∈ jm_set m k v <-> kv = (k, v) \/ (kv ∈ m /\ kv.1 <> k).
Proof.
  induction m as [|[k0 v0] m IH]; intros Hn; cbn [jm_set].
  - rewrite list_elem_of_singleton. set_solver.
  - apply NoDup_cons in Hn as [H0 Hn]. case_decide as E; rewrite !elem_of_cons.
    + subst k0. assert (Hx : kv ∈ m -> kv.1 <> k).
      { intros Hin <-. apply H0. apply (list_elem_of_fmap_2 fst _ _ Hin). }
      split; [intros [->|Hin]; auto|intros [->|[[->|Hin] Hne]]; auto]. done.
    + rewrite (IH Hn). split; [intros [->|[->|[? ?]]]; auto|intros [->|[[->|?] ?]]; auto].
Qed.

Lemma log_add_elem k e re n : log_wf (k_log k) n -> re ∈ k_log (log_add k e) <->
  re = (pm_requestId e, e) \/ (re ∈ k_log k /\ re.1 <> pm_requestId e).
Proof. intros Hl. apply jm_set_in, Hl. Qed.

Lemma log_get_in k rid e : log_get k rid = Some e -> (rid, e) ∈ k_log k.
Proof. apply jm_get_Some_in. Qed.

Lemma log_get_id k rid e n : log_wf (k_log k) n -> log_get k rid = Some e -> pm_requestId e = rid.
Proof. intros Hl He. by eapply lo_ids, log_get_in. Qed.

(** An entry is added or replaced. *)
Lemma ginv_add k e :
  (exists n, 0 < n < k_nextRequestId k /\ pm_requestId e = js_string_of n) ->
  (forall ts at_, pm_status e = Completed ts at_ -> 0 < ts /\ k_observedTs k < ts /\ pm_requestId e ∈ k_timers k) ->
  ginv k -> ginv (log_add k e).
Proof.
  intros Hn Hst [(Hs & Hl & Ht) Ha].
  assert (He : forall re, re ∈ k_log (log_add k e) -> re = (pm_requestId e, e) \/ re ∈ k_log k).
  { intros re. rewrite (log_add_elem _ _ _ _ Hl). tauto. }
  split; [split_and!; [done|split; [apply jm_nodup_set, Hl|..|apply Hl]|]|];
    [intros rid e'|intros rid e'|intros rid e' ts at_|intros rid e' ts at_];
    intros [[= -> ->]|Hin]%He; try done; try (by destruct Hl; eauto).
  - intros Hc. by apply Hst in Hc as (? & _ & ?).
  - intros Hc. by apply Hst in Hc as (_ & ? & _).
Qed.

(** An entry gives way to one with the same identity and layer. *)
Lemma comp_replace k rid e0 e n :
  log_wf (k_log k) n -> log_get k rid = Some e0 -> pm_requestId e = pm_requestId e0 -> pm_update e = pm_update e0 ->
  pm_touched e = pm_touched e0 -> comp_wf (k_heap k) (k_byHash k) (k_log k) ->
  comp_wf (k_heap (log_add k e)) (k_byHash (log_add k e)) (k_log (log_add k e)).
Proof.
  intros Hl Hg Hi Hu Ht Hc h r s Hin Hs. destruct (Hc h r s Hin Hs) as [?|(rid' & e' & H1 & H2 & H3)]; [by left|right].
  pose proof (log_get_id _ _ _ _ Hl Hg) as Hid.
  destruct (decide (rid' = rid)) as [->|Hne].
  - assert (e' = e0) as ->.
    { apply jm_in_get in H1; [|apply Hl]. unfold log_get in Hg. congruence. }
    exists (pm_requestId e), e. rewrite (log_add_elem _ _ _ _ Hl). split_and!; [by left|congruence..].
  - exists rid', e'. rewrite (log_add_elem _ _ _ _ Hl). split_and!; [right|done..]. split; [done|]. cbn. congruence.
Qed.

Lemma cinv_replace k rid e0 e :
  log_get k rid = Some e0 -> pm_requestId e = pm_requestId e0 -> pm_update e = pm_update e0 ->
  pm_touched e = pm_touched e0 ->
  (forall ts at_, pm_status e = Completed ts at_ -> pm_status e0 = Completed ts at_ \/
     0 < ts /\ k_observedTs k < ts /\ rid ∈ k_timers k) ->
  cinv k -> cinv (log_add k e).
Proof.
  intros Hg Hi Hu Ht Hst [Hk Hc]. pose proof Hk as [(Hs & Hl & Htm) Ha].
  pose proof (log_get_id _ _ _ _ Hl Hg) as Hid. pose proof (log_get_in _ _ _ Hg) as Hin.
  split; [|by eapply comp_replace]. apply ginv_add; [| |done].
  - rewrite Hi, Hid. by eapply lo_old.
  - intros ts at_ [Hc'|?]%Hst; [|rewrite Hi, Hid; done]. destruct (Htm _ _ _ _ Hin Hc').
    split_and!; [done|by eapply Ha|by rewrite Hi, Hid].
Qed.

(** * Replay *)

Section replay.
Context `{JsHost}.

(** An entry after a replay: the same but for the queries it touched. *)
Definition replayed (e e' : pending) : Prop := e' = e \/ exists t, e' = with_touched e t.

Lemma replayed_id e e' : replayed e e' -> pm_requestId e' = pm_requestId e.
Proof. by intros [->|[t ->]]. Qed.
Lemma replayed_update e e' : replayed e e' -> pm_update e' = pm_update e.
Proof. by intros [->|[t ->]]. Qed.
Lemma replayed_status e e' : replayed e e' -> pm_status e' = pm_status e.
Proof. by intros [->|[t ->]]. Qed.

Lemma commit_local_keys o l t h :
  jm_has (commit_local o l t) h = true -> jm_has o h = true \/ h ∈ t.
Proof.
  unfold commit_local. revert o. induction t as [|x t IH]; intros o; cbn [fold_left]; [auto|].
  intros [Hh|Hh]%IH; [|right; by right]. unfold jm_has in *. rewrite jm_get_set in Hh.
  case_decide; [right; subst; by left|by left].
Qed.

Lemma replay_spec subs es n o :
  NoDup (pm_requestId <$> es) ->
  let '(n', o', d, es') := replay subs es n o in
  Forall2 replayed es es' /\ (forall rid, rid ∈ d.*1 -> exists e, e ∈ es /\ pm_requestId e = rid /\ pm_update e <> None) /\
  forall h, jm_has o' h = true -> jm_has o h = true \/
    exists e', e' ∈ es' /\ pm_update e' <> None /\ pm_requestId e' ∉ d.*1 /\ h ∈ pm_touched e'.
Proof.
  revert n o. induction es as [|e es IH]; intros n o Hn; cbn [replay];
    [split_and!; [constructor|by intros rid ?%not_elem_of_nil|auto]|].
  csimpl in Hn. apply NoDup_cons in Hn as [He Hn].
  assert (Hmore : forall d : list (jsstr * js_error),
    (forall rid, rid ∈ d.*1 -> exists e', e' ∈ es /\ pm_requestId e' = rid /\ pm_update e' <> None) ->
    forall rid, rid ∈ d.*1 -> exists e', e' ∈ e :: es /\ pm_requestId e' = rid /\ pm_update e' <> None).
  { intros d Hd rid (e' & ? & ?)%Hd. exists e'. split; [by right|done]. }
  assert (Hsame : forall es', Forall2 replayed es es' -> forall e', e' ∈ es' -> pm_requestId e' <> pm_requestId e).
  { intros es' Hf e' Hin Heq. apply He. apply list_elem_of_lookup in Hin as [i Hi].
    destruct (Forall2_lookup_r _ _ _ _ _ Hf Hi) as (e0 & Hi0 & Hr). apply replayed_id in Hr.
    apply list_elem_of_fmap. exists e0. split; [congruence|]. by eapply list_elem_of_lookup_2. }
  destruct (pm_update e) as [u|] eqn:Hu.
  - destruct (invoke_update subs o n e u) as [f [[]|err]].
    + specialize (IH (uf_next f) (commit_local o (uf_local f) (uf_touched f)) Hn).
      destruct (replay subs es _ _) as [[[n' o'] d] es']. destruct IH as (Hf & Hd & Hk).
      split_and!; [constructor; [right; eauto|done]|by apply Hmore|].
      intros h Hh. destruct (Hk h Hh) as [[Ho|Ht]%commit_local_keys|(e' & Hin & H1 & H2 & H3)]; [by left|right|right].
      * exists (with_touched e (uf_touched f)). split_and!; [left|cbn; congruence| |done]. cbn. intros (e0 & H1 & H2 & _)%Hd.
        apply He. rewrite <-H2. by apply list_elem_of_fmap_2.
      * exists e'. split_and!; [by right|done..].
    + specialize (IH (uf_next f) o Hn). destruct (replay subs es _ _) as [[[n' o'] d] es']. destruct IH as (Hf & Hd & Hk).
      split_and!; [constructor; [by left|done]| |].
      { csimpl. intros rid [->|Hrid]%elem_of_cons; [exists e; split_and!; [by left|done|congruence]|by apply (Hmore d)]. }
      intros h Hh. destruct (Hk h Hh) as [Ho|(e' & Hin & H1 & H2 & H3)]; [by left|right].
      exists e'. split_and!; [by right|done| |done]. csimpl. rewrite not_elem_of_cons. split; [by eapply Hsame|done].
  - specialize (IH n o Hn). destruct (replay subs es n o) as [[[n' o'] d] es']. destruct IH as (Hf & Hd & Hk).
    split_and!; [constructor; [by left|done]|by apply Hmore|].
    intros h Hh. destruct (Hk h Hh) as [Ho|(e' & Hin & H1 & H2 & H3)]; [by left|right].
    exists e'. split_and!; [by right|done..].
Qed.

(** * Composition *)

Lemma compose_one_spec overlay force s :
  let s' := (compose_one overlay force s).1 in
  q_serverValue s' = q_serverValue s /\ q_hash s' = q_hash s /\ same_value (q_composedValue s') (next_value overlay s).
Proof.
  unfold compose_one. destruct (strict_eq_opt _ _) eqn:E; cbn [negb orb]; [case_bool_decide|]; split_and!; cbn; try done;
    [by left|by right|by left].
Qed.

Definition log_frame (k k' : client) : Prop :=
  k_byHash k' = k_byHash k /\ k_log k' = k_log k /\ k_observedTs k' = k_observedTs k /\ k_timers k' = k_timers k /\
  k_nextRequestId k' = k_nextRequestId k.
#[local] Instance log_frame_refl : Reflexive log_frame.
Proof. by intros k. Qed.
#[local] Instance log_frame_trans : Transitive log_frame.
Proof. intros a b c. unfold log_frame. intuition congruence. Qed.

Lemma compose_ref_frame overlay force k r : log_frame k (compose_ref overlay force k r).
Proof. unfold compose_ref. destruct (sub_at k r) as [s|]; [|done]. by destruct (compose_one overlay force s). Qed.

Lemma compose_ref_at overlay force k r r' :
  k_heap (compose_ref overlay force k r) !! r' =
    if decide (r' = r) then (fun s => (compose_one overlay force s).1) <$> k_heap k !! r else k_heap k !! r'.
Proof.
  unfold compose_ref, sub_at. destruct (k_heap k !! r) as [s|] eqn:E.
  - pose proof (lookup_lt_Some _ _ _ E). destruct (compose_one overlay force s) as [s' out] eqn:Ec. cbn.
    case_decide; subst; [by rewrite list_lookup_insert_eq, ?Ec by done|by rewrite list_lookup_insert_ne].
  - case_decide; subst; by rewrite ?E.
Qed.

Lemma compose_fold_spec overlay force rs k : NoDup rs -> let k' := fold_left (compose_ref overlay force) rs k in
  log_frame k k' /\ forall r, k_heap k' !! r =
    if decide (r ∈ rs) then (fun s => (compose_one overlay force s).1) <$> k_heap k !! r else k_heap k !! r.
Proof.
  revert k. induction rs as [|x rs IH]; intros k Hn; cbn [fold_left]; [split; [done|]; intros r; rewrite decide_False; [done|apply not_elem_of_nil]|].
  apply NoDup_cons in Hn as [Hx Hn]. destruct (IH (compose_ref overlay force k x) Hn) as [Hf Hl].
  split; [etrans; [apply compose_ref_frame|exact Hf]|]. intros r. rewrite Hl, !compose_ref_at.
  destruct (decide (r = x)) as [->|Hr]; [rewrite decide_False by done; by rewrite decide_True by set_solver|].
  destruct (decide (r ∈ rs)); [by rewrite decide_True by set_solver|by rewrite decide_False by set_solver].
Qed.

(** * Recompose and rebuild *)

Lemma zip_entries_elem (log : list (jsstr * pending)) es rid e' :
  Forall2 replayed log.*2 es -> (rid, e') ∈ zip_with (fun kv e => (kv.1, e)) log es <->
  exists i e, log !! i = Some (rid, e) /\ es !! i = Some e' /\ replayed e e'.
Proof.
  intros Hf. split.
  - intros [i Hi]%list_elem_of_lookup. apply lookup_zip_with_Some in Hi as ([r e] & e0 & [= -> ->] & H1 & H2).
    exists i, e. split_and!; [done..|]. eapply Forall2_lookup_lr; [exact Hf| |exact H2]. by rewrite list_lookup_fmap, H1.
  - intros (i & e & H1 & H2 & _). apply list_elem_of_lookup. exists i. apply lookup_zip_with_Some.
    exists (rid, e), e'. by rewrite H1, H2.
Qed.

Lemma zip_entries_keys (log : list (jsstr * pending)) es :
  Forall2 replayed log.*2 es -> (zip_with (fun kv e => (kv.1, e)) log es).*1 = log.*1.
Proof.
  intros Hf%Forall2_length. revert es Hf. induction log as [|x log IH]; intros [|e es] Hf; try done. csimpl. f_equal.
  apply IH. by injection Hf.
Qed.

(** The log after a replay. *)
Definition replayed_log (log log' : list (jsstr * pending)) : Prop :=
  log'.*1 = log.*1 /\ forall rid e', (rid, e') ∈ log' -> exists e, (rid, e) ∈ log /\ replayed e e'.

Lemma replayed_log_wf log log' n : replayed_log log log' -> log_wf log n -> log_wf log' n.
Proof.
  intros [Hk Hr] [H1 H2 H3 H4]. split; [unfold jm_keys in *; by rewrite Hk|..|done]; intros rid e' Hin;
    destruct (Hr _ _ Hin) as (e & He & Hre); [|by eapply H3].
  rewrite (replayed_id _ _ Hre). by apply H2.
Qed.

Lemma log_ids log n : log_wf log n -> pm_requestId <$> log.*2 = log.*1.
Proof.
  intros [_ H2 _ _]. rewrite <-list_fmap_compose. apply list_fmap_ext. intros i [rid e] Hi. cbn.
  apply H2. by eapply list_elem_of_lookup_2.
Qed.

Lemma recompose_spec k force : ginv k -> let '(k', dropped) := recompose k force in
  store_wf (k_heap k') (k_byHash k') /\ k_byHash k' = k_byHash k /\ replayed_log (k_log k) (k_log k') /\
  k_observedTs k' = k_observedTs k /\ k_timers k' = k_timers k /\ k_nextRequestId k' = k_nextRequestId k /\
  (forall rid, rid ∈ dropped.*1 -> exists e, (rid, e) ∈ k_log k /\ pm_update e <> None) /\
  forall h r s, (h, r) ∈ k_byHash k' -> k_heap k' !! r = Some s ->
    same_value (q_composedValue s) (q_serverValue s) \/
    exists rid e, (rid, e) ∈ k_log k' /\ rid ∉ dropped.*1 /\ pm_update e <> None /\ h ∈ pm_touched e.
Proof.
  intros [(Hs & Hl & _) _]. unfold recompose.
  pose proof (replay_spec (live_subs k) (client_log_entries k) (k_next k) []) as Hr.
  destruct (replay _ _ _ _) as [[[n o] d] es]. unfold client_log_entries, jm_values in Hr.
  destruct Hr as (Hf & Hd & Ho); [rewrite (log_ids _ _ Hl); apply Hl|].
  set (k1 := with_entries (set_next k n) es).
  assert (Hlog : replayed_log (k_log k) (k_log k1)).
  { split; [by apply zip_entries_keys|]. intros rid e' (i & e & H1 & _ & Hr)%zip_entries_elem; [|done].
    exists e. split; [by eapply list_elem_of_lookup_2|done]. }
  destruct (compose_fold_spec o force (jm_values (k_byHash k1)) k1) as [(F1 & F2 & F3 & F4 & F5) Hh]; [apply Hs|].
  change (k_byHash k1) with (k_byHash k) in *. change (k_heap k1) with (k_heap k) in Hh. rewrite F1, F2, F3, F4, F5.
  assert (Hat : forall h r s', (h, r) ∈ k_byHash k -> 
     k_heap (fold_left (compose_ref o force) (jm_values (k_byHash k)) k1) !! r = Some s' ->
     q_hash s' = h /\ same_value (q_composedValue s') (match jm_get o h with Some v => v | None => q_serverValue s' end)).
  { intros h r s' Hin. rewrite Hh, decide_True by (apply (list_elem_of_fmap_2 snd _ _ Hin)).
    destruct Hs as [_ _ Hs]. destruct (Hs h r Hin) as (s & -> & <-). intros [= <-].
    destruct (compose_one_spec o force s) as (E1 & E2 & E3). rewrite E1. split; [done|exact E3]. }
  split_and!; try done; [split; [apply Hs..|]| |].
  - intros h r Hin. destruct Hs as [_ _ Hs]. destruct (Hs h r Hin) as (s & Es & <-).
    rewrite Hh, Es, decide_True by (apply (list_elem_of_fmap_2 snd _ _ Hin)). eexists. split; [done|].
    apply compose_one_spec.
  - intros rid (e & He & Hid & Hu)%Hd. apply list_elem_of_fmap in He as ([rid' e0] & -> & Hin). cbn in *.
    exists e0. split; [|done]. by rewrite <-Hid, (lo_ids _ _ Hl _ _ Hin).
  - intros h r s Hin Hsr. destruct (Hat h r s Hin Hsr) as [_ Hv]. destruct (jm_get o h) as [v|] eqn:Eo; [right|by left].
    destruct (Ho h) as [?|(e' & H1 & H2 & H3 & H4)]; [unfold jm_has; by rewrite Eo|done|].
    apply list_elem_of_lookup in H1 as [i Hi]. destruct (Forall2_lookup_r _ _ _ _ _ Hf Hi) as (e & He & Hre).
    apply list_lookup_fmap_Some in He as ([rid e0] & -> & Hi0). cbn in *.
    exists rid, e'. split_and!; [apply zip_entries_elem; [done|eauto]| |done..].
    rewrite (replayed_id _ _ Hre) in H3. rewrite <-(lo_ids _ _ Hl rid e0); [done|]. by eapply list_elem_of_lookup_2.
Qed.

Lemma timed_replayed log log' timers : replayed_log log log' -> timed log timers -> timed log' timers.
Proof.
  intros [_ Hr] Ht rid e ts at_ Hin Hst. destruct (Hr _ _ Hin) as (e0 & Hin0 & Hre).
  rewrite (replayed_status _ _ Hre) in Hst. by eapply Ht.
Qed.
Lemma ahead_replayed log log' o : replayed_log log log' -> ahead log o -> ahead log' o.
Proof.
  intros [_ Hr] Ht rid e ts at_ Hin Hst. destruct (Hr _ _ Hin) as (e0 & Hin0 & Hre).
  rewrite (replayed_status _ _ Hre) in Hst. by eapply Ht.
Qed.

(** A recompose, then the drop of what threw, brings the invariant back. *)
Lemma recompose_cinv k force : ginv k -> let '(k', dropped) := recompose k force in
  cinv (fold_left drop_entry dropped.*1 k').
Proof.
  intros Hk. pose proof (recompose_spec k force Hk) as Hr. destruct (recompose k force) as [k' d].
  destruct Hr as (Hs & Hb & Hlog & Ho & Ht & Hn & _ & Hc). pose proof Hk as [(_ & Hl & Htm) Ha].
  assert (Hg : ginv k').
  { split; [split_and!; [done|rewrite Hn; by eapply replayed_log_wf|rewrite Ht; by eapply timed_replayed]|].
    rewrite Ho. by eapply ahead_replayed. }
  split; [by apply ginv_drops|]. destruct (drops_frame d.*1 k') as (-> & -> & _).
  intros h r s Hin Hsr. destruct (Hc h r s Hin Hsr) as [?|(rid & e & H1 & H2 & H3)]; [by left|right].
  exists rid, e. split; [|done]. apply drops_elem. done.
Qed.

(** The log after a rebuild: only entries with an updater can go. *)
Lemma rebuild_log k force : ginv k ->
  (forall rid e', (rid, e') ∈ k_log (rebuild k force) -> exists e, (rid, e) ∈ k_log k /\ replayed e e') /\
  (forall rid e, (rid, e) ∈ k_log k -> pm_update e = None ->
     exists e', (rid, e') ∈ k_log (rebuild k force) /\ replayed e e') /\
  k_observedTs (rebuild k force) = k_observedTs k.
Proof.
  intros Hk. pose proof (recompose_spec k force Hk) as Hr. unfold rebuild. destruct (recompose k force) as [k' d].
  destruct Hr as (_ & _ & [Hkeys Hlog] & Ho & _ & _ & Hd & _). pose proof Hk as [(_ & Hl & _) _].
  split_and!; [|intros rid e Hin Hu|by rewrite (proj2 (proj2 (drops_frame d.*1 k')))].
  - intros rid e' [Hin _]%drops_elem. by apply Hlog.
  - assert (Hrid : rid ∈ (k_log k').*1) by (rewrite Hkeys; apply (list_elem_of_fmap_2 fst _ _ Hin)).
    apply list_elem_of_fmap in Hrid as ([rid' e'] & -> & Hin'). cbn in *. destruct (Hlog _ _ Hin') as (e0 & Hin0 & Hre).
    assert (Huniq : forall e1, (rid', e1) ∈ k_log k -> e1 = e).
    { intros e1 H1. apply jm_in_get in H1; [|apply Hl]. apply jm_in_get in Hin; [|apply Hl]. congruence. }
    exists e'. split; [|by rewrite <-(Huniq _ Hin0)]. apply drops_elem. split; [done|]. cbn.
    intros (e1 & H1%Huniq & Hu1)%Hd. congruence.
Qed.

Lemma rebuild_cinv k force : ginv k -> cinv (rebuild k force).
Proof.
  intros Hk. pose proof (recompose_cinv k force Hk) as Hr. unfold rebuild. by destruct (recompose k force).
Qed.
End replay.
