(* ===== verification/ClientRun.v ===== *)
(** Every event keeps the invariant of a client, but for a server message whose
    handler throws half way through.

    The invariant through the handshake, the ingest of a transition, and every
    event. *)
From Stdlib Require Import ZArith Lia.
From stdpp Require Import base list sets strings.
From S2P Require Import Prelude JsBase JsText Values ValuesJson DocStore StateRes RowDiff ReadIndex SyncProtocol ClientState Reconciler ClientSession ClientInvariant.
#[local] Open Scope stm_scope.

(** * What keeps the invariant *)

Definition kept (k k' : client) : Prop := cinv k -> cinv k'.
#[export] Instance kept_refl : Reflexive kept.
Proof. by intros k Hk. Qed.
#[export] Instance kept_trans : Transitive kept.
Proof. intros a b c Hab Hbc Ha. by apply Hbc, Hab. Qed.

Notation pres f := (forall k, kept k (f k)).
Notation always m := (keeps kept m).
Notation unless_thrown m := (keeps_ok kept m).

Lemma pres_core f : (forall k, core (f k) = core k) -> pres f.
Proof. intros Hf k Hk. by apply (cinv_core k). Qed.

Lemma always_unless {A} (m : stm client A) : always m -> unless_thrown m.
Proof. apply keeps_keeps_ok. Qed.
Lemma always_modify f : pres f -> always (modify f).
Proof. apply keeps_modify. Qed.
Lemma always_ret {A} (x : A) : always (ret x).
Proof. apply keeps_ret, _. Qed.
Lemma always_lift {A} (x : res A) : always (lift x).
Proof. apply keeps_lift, _. Qed.
Lemma always_bind {A B} (m : stm client A) (f : A -> stm client B) :
  always m -> (forall x, always (f x)) -> always (bind m f).
Proof. apply keeps_bind, _. Qed.
(** The continuation of a read sees the state as it is. *)
Lemma always_read {B} (f : client -> stm client B) : (forall k, cinv k -> cinv (f k k).1) -> always (bind (gets (fun k => k)) f).
Proof. intros Hf k Hk. by apply Hf. Qed.
Lemma always_for_each {A} (l : list A) f : (forall x, always (f x)) -> always (for_each l f).
Proof. apply keeps_for_each; apply _. Qed.
Lemma unless_bind {A B} (m : stm client A) (f : A -> stm client B) :
  unless_thrown m -> (forall x, unless_thrown (f x)) -> unless_thrown (bind m f).
Proof. apply keeps_ok_bind, _. Qed.
Lemma pres_fold {A} (f : client -> A -> client) l : (forall x, pres (fun k => f k x)) -> pres (fun k => fold_left f l k).
Proof. intros Hf. induction l as [|x l IH]; intros k Hk; [done|]. by apply IH, (Hf x). Qed.
Lemma pres_comp f g : pres f -> pres g -> pres (fun k => f (g k)).
Proof. intros Hf Hg k Hk. by apply Hf, Hg. Qed.

(** [core (f k) = core k] by looking at the branches of [f]. *)
Ltac core_tac := intros; repeat (cbv zeta; case_match); try done.

Section steps.
Context `{JsHost}.

Lemma core_with_outbox f k : core (with_outbox f k) = core k.
Proof. unfold with_outbox. core_tac. Qed.
Lemma core_outbox_do op k : core (outbox_do op k) = core k.
Proof. unfold outbox_do. core_tac. Qed.
Lemma core_nudge k : core (nudge k) = core k.
Proof. unfold nudge. core_tac. Qed.
Lemma core_resync k : core (resync k) = core k.
Proof. unfold resync. core_tac. Qed.
Lemma core_diffCapability k : core (maybeSendDiffCapability k) = core k.
Proof. unfold maybeSendDiffCapability. core_tac. Qed.
Lemma core_resolve rid v k : core (resolvePending rid v k) = core k.
Proof. unfold resolvePending. core_tac. Qed.
Lemma core_reject rid r k : core (rejectPending rid r k) = core k.
Proof. unfold rejectPending. core_tac. Qed.
Lemma core_notify c q p m code k : core (notifyMutationFailed c q p m code k) = core k.
Proof. unfold notifyMutationFailed. core_tac. Qed.
Lemma core_sendConnect k : core (sendConnect k) = core k.
Proof. unfold sendConnect. core_tac. Qed.

(** * The reconciler *)

Lemma pres_rebuild force : pres (fun k => rebuild k force).
Proof. intros k [Hk _]. by apply rebuild_cinv. Qed.
Lemma pres_drop_rebuild rid force : pres (fun k => rebuild (drop_entry k rid) force).
Proof. intros k [Hk _]. by apply rebuild_cinv, ginv_drop. Qed.
Lemma pres_delete_rebuild rid force : pres (fun k => rebuild (log_delete k rid) force).
Proof. intros k [Hk _]. by apply rebuild_cinv, ginv_delete. Qed.

Lemma pres_verdict rid : pres (onVerdictAfterBaseline rid).
Proof. intros k Hk. unfold onVerdictAfterBaseline. case_match; [by apply pres_drop_rebuild|done]. Qed.
Lemma pres_failure rid : pres (onMutationFailure rid).
Proof. intros k Hk. unfold onMutationFailure. case_match; [by apply pres_drop_rebuild|done]. Qed.

(** Deleting an entry without a layer. *)
Lemma cinv_delete_bare k rid e : log_get k rid = Some e -> has_layer e = false -> cinv k -> cinv (log_delete k rid).
Proof.
  intros Hg Hb [Hk Hc]. split; [by apply ginv_delete|]. intros h r s Hin Hs.
  destruct (Hc h r s Hin Hs) as [?|(rid' & e' & H1 & H2 & H3)]; [by left|right].
  exists rid', e'. split_and!; [|done..]. apply log_delete_elem. split; [done|]. cbn. intros ->.
  destruct Hk as [(_ & Hl & _) _]. apply jm_in_get in H1; [|apply Hl]. unfold log_get in Hg.
  rewrite H1 in Hg. injection Hg as ->. unfold has_layer in Hb. destruct (pm_update e); [|done].
  destruct (pm_touched e); [by apply not_elem_of_nil in H3|done].
Qed.

Lemma not_covered observed ts : (ts <=? 0) || versionCoversCommit observed ts = false -> 0 < ts /\ observed < ts.
Proof. unfold versionCoversCommit. intros [H1 H2]%orb_false_iff. apply andb_false_iff in H2. lia. Qed.

Lemma pres_success rid ts now : pres (onMutationSuccess rid ts now).
Proof.
  intros k Hk. unfold onMutationSuccess. destruct (log_get k rid) as [e|] eqn:Hg; [|done].
  destruct (has_layer e) eqn:Hb; cbn [negb]; [|by eapply cinv_delete_bare].
  destruct ts as [ts|]; [|by apply pres_delete_rebuild].
  destruct (_ || _) eqn:Hc; [by apply pres_delete_rebuild|]. apply not_covered in Hc as [Hts Hahead].
  assert (Hid : pm_requestId e = rid).
  { destruct Hk as [[(_ & Hl & _) _] _]. by eapply log_get_id. }
  set (k1 := set_timers k (base.filter (fun r => r <> rid) (k_timers k) ++ [rid])).
  set (e' := with_status e (Completed ts now)).
  assert (Hcore : core (armGateTimer (log_add k e') rid) = core (log_add k1 e')) by done.
  apply (cinv_core _ _ Hcore). apply (cinv_replace k1 rid e); try done.
  - intros ts' at_ [= <- <-]. right. split_and!; [done..|]. cbn. set_solver.
  - destruct Hk as [[(Hs & Hl & Ht) Ha] Hcp]. split; [split; [split_and!|]|]; try done.
    intros r e0 ts0 at0 Hin Hst. destruct (Ht _ _ _ _ Hin Hst). split; [done|]. cbn.
    rewrite elem_of_app, list_elem_of_filter, list_elem_of_singleton. destruct (decide (r = rid)); auto.
Qed.

Lemma pres_timeout rid : pres (gate_timeout rid).
Proof.
  intros k Hk. unfold gate_timeout. change (log_get (clearTimer k rid) rid) with (log_get k rid).
  pose proof Hk as [[(Hs & Hl & Ht) Ha] Hc].
  assert (Hkeep : (forall e ts at_, (rid, e) ∈ k_log k -> pm_status e <> Completed ts at_) -> cinv (clearTimer k rid)).
  { intros Hno. split; [split; [|done]|done]. by apply sinv_clearTimer. }
  destruct (log_get k rid) as [e|] eqn:Hg.
  - assert (He : forall e', (rid, e') ∈ k_log k -> e' = e).
    { intros e' Hin. apply jm_in_get in Hin; [|apply Hl]. unfold log_get in Hg. congruence. }
    destruct (is_completed (pm_status e)) eqn:Hst; [|apply Hkeep].
    + apply rebuild_cinv. exact (ginv_drop k rid (conj (conj Hs (conj Hl Ht)) Ha)).
    + intros e' ts at_ ->%He E. by rewrite E in Hst.
  - apply Hkeep. intros e ts at_ Hin. apply jm_in_get in Hin; [|apply Hl]. unfold log_get in Hg. congruence.
Qed.

(** A change of status that leaves the layer alone. *)
Lemma cinv_status k rid e st :
  log_get k rid = Some e -> is_completed st = false -> cinv k -> cinv (log_add k (with_status e st)).
Proof. intros Hg Hst. apply (cinv_replace k rid e); try done. intros ts at_ [= ->]. done. Qed.

Lemma pres_send_or_queue rid b : pres (send_or_queue rid b).
Proof.
  intros k Hk. unfold send_or_queue. destruct (log_get k rid) as [e|] eqn:Hg; [|done].
  destruct (_ || _); [exact (cinv_status k rid e Unsent Hg eq_refl Hk)|exact (cinv_status k rid e Inflight Hg eq_refl Hk)].
Qed.
Lemma pres_flush rid : pres (fun k => flush_unsent k rid).
Proof.
  intros k Hk. unfold flush_unsent. destruct (log_get k rid) as [e|] eqn:Hg; [|done].
  exact (cinv_status k rid e Inflight Hg eq_refl Hk).
Qed.
Lemma pres_durable rid : pres (append_resolved rid).
Proof.
  intros k Hk. unfold append_resolved. eapply cinv_core; [apply core_nudge|].
  destruct (log_get k rid) as [e|] eqn:Hg; [|done]. apply (cinv_replace k rid e); try done. by left.
Qed.

Lemma pres_baseline : pres markBaselineAdopted.
Proof.
  intros k Hk. unfold markBaselineAdopted.
  eapply cinv_core; [apply core_nudge|]. eapply cinv_core; [done|].
  apply (pres_fold (fun k rid => onVerdictAfterBaseline rid k)); [intros rid; apply pres_verdict|].
  by eapply cinv_core; [apply core_with_outbox|].
Qed.
Lemma pres_adopted : pres adopted.
Proof. intros k Hk. unfold adopted. case_match; [by apply pres_baseline|done]. Qed.

(** * New entries *)

Lemma fresh_absent k rid : cinv k -> rid = js_string_of (k_nextRequestId k) -> log_get k rid = None.
Proof.
  intros [[(_ & [H1 H2 H3 H4] & _) _] _] ->. apply jm_get_None. unfold jm_keys. intros [[rid e] [E Hin]]%list_elem_of_fmap.
  cbn in E. subst rid. destruct (H3 _ _ Hin) as (n & Hn & E). apply js_string_of_inj in E; lia.
Qed.

(** The next request id is taken. *)
Lemma cinv_next_id k q : cinv k -> cinv (set_ids k q (k_nextRequestId k + 1)).
Proof.
  intros [[(Hs & [H1 H2 H3 H4] & Ht) Ha] Hc]. split; [split; [split_and!; [done|split|done]|done]|done]; cbn.
  - done.
  - done.
  - intros rid e Hin. destruct (H3 _ _ Hin) as (n & Hn & ->). exists n. split; [lia|done].
  - lia.
Qed.

Definition taken (k : client) (rid : jsstr) : Prop := exists n, 0 < n < k_nextRequestId k /\ rid = js_string_of n.

Lemma ginv_add_new k e : taken k (pm_requestId e) -> is_completed (pm_status e) = false -> ginv k -> ginv (log_add k e).
Proof. intros Hn Hst. apply ginv_add; [done|]. intros ts at_ E. by rewrite E in Hst. Qed.

(** A new entry without an updater covers nothing, and hides nothing. *)
Lemma cinv_add_new k e : taken k (pm_requestId e) -> is_completed (pm_status e) = false ->
  log_get k (pm_requestId e) = None -> cinv k -> cinv (log_add k e).
Proof.
  intros Hn Hst Hg [Hk Hc]. split; [by apply ginv_add_new|]. destruct Hk as [(_ & Hl & _) _].
  intros h r s Hin Hs. destruct (Hc h r s Hin Hs) as [?|(rid & e0 & H1 & H2 & H3)]; [by left|right].
  exists rid, e0. split; [|done]. apply (log_add_elem _ _ _ _ Hl). right. split; [done|]. cbn. intros ->.
  apply jm_in_get in H1; [|apply Hl]. unfold log_get in Hg. congruence.
Qed.

Lemma initiate_always e k : taken k (pm_requestId e) -> is_completed (pm_status e) = false ->
  log_get k (pm_requestId e) = None -> cinv k -> cinv (initiate e k).1.
Proof.
  intros Hn Hst Hg Hk. unfold initiate. destruct (pm_update e); [|by apply cinv_add_new].
  pose proof (recompose_cinv (log_add k e) [] (ginv_add_new _ _ Hn Hst (proj1 Hk))) as Hr.
  by destruct (recompose (log_add k e) []).
Qed.

Lemma addHydrated_cinv e k : taken k (pm_requestId e) -> is_completed (pm_status e) = false ->
  log_get k (pm_requestId e) = None -> cinv k -> cinv (addHydrated e k).
Proof.
  intros Hn Hst Hg Hk. unfold addHydrated. destruct (pm_update e); [|by apply cinv_add_new].
  apply rebuild_cinv, ginv_add_new; [done..|apply Hk].
Qed.

(** * Close *)

Lemma ginv_park k rid : ginv k -> ginv (park_entry k rid).
Proof.
  intros Hk. unfold park_entry. destruct (log_get k rid) as [e|] eqn:Hg; [|done]. pose proof Hk as [(_ & Hl & _) _].
  apply ginv_add; [|done|done]. cbn. rewrite (log_get_id _ _ _ _ Hl Hg). by eapply lo_old, log_get_in.
Qed.
Lemma ginv_fold {A} (f : client -> A -> client) l k : (forall k x, ginv k -> ginv (f k x)) -> ginv k -> ginv (fold_left f l k).
Proof. intros Hf. revert k. induction l as [|x l IH]; intros k Hk; [done|]. by apply IH, Hf. Qed.

Lemma closeSession_cinv armed k : cinv k -> cinv (closeSession armed k).1.
Proof.
  intros [Hk _]. unfold closeSession. cbn [fst]. apply rebuild_cinv.
  assert (Hg : ginv (fold_left (close_drop (cd_park (closeDisposition (client_log_entries k) armed)))
                 (cd_drop (closeDisposition (client_log_entries k) armed))
                 (fold_left park_entry (cd_park (closeDisposition (client_log_entries k) armed)) k))).
  { apply ginv_fold; [|by apply ginv_fold; [intros; by apply ginv_park|]].
    intros k0 rid Hk0. unfold close_drop. case_bool_decide; [done|by apply ginv_drop]. }
  destruct Hg as [(Hs & Hl & Ht) Ha]. split; [done|]. intros rid e ts at_ Hin Hst. cbn.
  by destruct (Ht _ _ _ _ Hin Hst).
Qed.

Lemma pres_closed : pres onTransportClosed.
Proof.
  intros k Hk. unfold onTransportClosed. cbv zeta.
  set (k1 := set_resumeSince _ _). assert (Hk1 : cinv k1).
  { eapply cinv_core; [|exact Hk]. etrans; [apply (core_with_outbox _ (set_closed true k))|done]. }
  pose proof (closeSession_cinv (match k_outbox k1 with Some ob => ob_armed ob | None => false end) k1 Hk1) as Hc.
  destruct (closeSession _ k1) as [k2 [rej prk]]. cbn [fst] in Hc. eapply cinv_core; [reflexivity|].
  apply pres_fold; [|apply pres_fold; [|done]].
  - intros rid k0 Hk0. case_match; [|done]. case_match; [|done]. case_match; [|done].
    by eapply cinv_core; [apply core_outbox_do|].
  - intros rid. apply pres_core. intros k0. apply core_reject.
Qed.

Lemma pres_reopened : pres onTransportReopened.
Proof.
  intros k Hk. unfold onTransportReopened. cbv zeta.
  set (k1 := resync _). assert (Hk1 : cinv k1).
  { eapply cinv_core; [|exact Hk]. unfold k1. rewrite core_resync, core_diffCapability. by case_match. }
  destruct (k_outbox k1); [|apply (pres_fold flush_unsent); [intros rid; apply pres_flush|done]].
  eapply cinv_core; [apply core_nudge|]. unfold initiateHandshake. case_match; [|done]. case_match; [done|].
  eapply cinv_core; [apply core_sendConnect|]. unfold beginBaselineAwait.
  assert (Hk2 : cinv (with_outbox (ob_set_awaiting (cn_resyncing (k_conn k1))) (with_outbox (ob_set_connectSent true) k1))).
  { eapply cinv_core; [|exact Hk1]. by rewrite !core_with_outbox. }
  destruct (cn_resyncing (k_conn k1)); [exact Hk2|]. apply pres_baseline. exact Hk2.
Qed.

(** * Subscriptions *)

(** A subscription object changes in what the invariant does not look at. *)
Lemma cinv_set_sub k r s s' :
  sub_at k r = Some s -> q_hash s' = q_hash s -> q_composedValue s' = q_composedValue s ->
  q_serverValue s' = q_serverValue s -> cinv k -> cinv (set_sub k r s').
Proof.
  unfold sub_at. intros Hr Hh Hcv Hsv [[([H1 H2 H3] & Hl & Ht) Ha] Hc]. pose proof (lookup_lt_Some _ _ _ Hr).
  split; [split; [split_and!; [split|..]|]|]; try done; cbn.
  - intros h r' Hin. destruct (H3 h r' Hin) as (s0 & E & Eh). destruct (decide (r' = r)) as [->|Hne].
    + exists s'. rewrite list_lookup_insert_eq by done. split; [done|]. congruence.
    + exists s0. by rewrite list_lookup_insert_ne by done.
  - intros h r' s0 Hin. destruct (decide (r' = r)) as [->|Hne].
    + rewrite list_lookup_insert_eq by done. intros [= <-]. rewrite Hcv, Hsv. by eapply Hc.
    + rewrite list_lookup_insert_ne by done. by eapply Hc.
Qed.

Lemma cinv_remove k hash : cinv k -> cinv (store_remove k hash).
Proof.
  intros Hk. unfold store_remove. destruct (ref_of_hash k hash) as [r0|]; [|done]. destruct (sub_at k r0) as [s0|]; [|done].
  destruct Hk as [[([H1 H2 H3] & Hl & Ht) Ha] Hc].
  assert (Hin : forall hr, hr ∈ jm_delete (k_byHash k) hash -> hr ∈ k_byHash k).
  { intros hr. unfold jm_delete. rewrite list_elem_of_filter. tauto. }
  split; [split; [split_and!; [split|..]|]|]; try done; cbn.
  - by apply jm_nodup_delete.
  - unfold jm_values in *. eapply sublist_NoDup; [exact H2|]. apply fmap_sublist, sublist_filter.
  - intros h r Hhr%Hin. by apply H3.
  - intros h r s Hhr%Hin. by apply Hc.
Qed.

Lemma cinv_create k qid path args hash : ref_of_hash k hash = None -> cinv k -> cinv (store_create k qid path args hash).
Proof.
  unfold ref_of_hash. intros Hno [[([H1 H2 H3] & Hl & Ht) Ha] Hc]. unfold store_create. cbv zeta.
  assert (Hnew : hash ∉ jm_keys (k_byHash k)) by (by apply jm_get_None).
  split; [split; [split_and!; [split|..]|]|]; try done; cbn; rewrite (jm_set_fresh _ _ _ Hnew).
  - unfold jm_keys in *. rewrite fmap_app. apply NoDup_app. split_and!; [done|set_solver|apply NoDup_singleton].
  - unfold jm_values in *. rewrite fmap_app. apply NoDup_app. split_and!; [done| |apply NoDup_singleton].
    intros r [[h r'] [-> Hin]]%list_elem_of_fmap. cbn. rewrite list_elem_of_singleton. intros ->.
    destruct (H3 _ _ Hin) as (s & Hs%lookup_lt_Some & _). lia.
  - intros h r [Hin|Hin]%elem_of_app.
    + destruct (H3 _ _ Hin) as (s & Hs & Hh). exists s. split; [|done]. by apply lookup_app_l_Some.
    + apply list_elem_of_singleton in Hin as [= -> ->]. eexists. by rewrite list_lookup_middle by done.
  - intros h r s [Hin|Hin]%elem_of_app.
    + destruct (H3 _ _ Hin) as (s' & Hs%lookup_lt_Some & _). rewrite lookup_app_l by done. by apply Hc.
    + apply list_elem_of_singleton in Hin as [= -> ->]. rewrite list_lookup_middle by done. intros [= <-]. left. by left.
Qed.

Lemma subscribe_always path args l : always (subscribe path args l).
Proof.
  apply always_bind; [apply always_lift|]. intros j. apply always_bind; [|intros _]; apply always_modify; intros k Hk.
  - destruct (ref_of_hash k _) eqn:Er; [done|]. eapply (cinv_core (maybeSendDiffCapability _)); [done|].
    eapply cinv_core; [apply core_diffCapability|]. apply cinv_create; [exact Er|]. done.
  - destruct (ref_of_hash k _) as [r|]; [|done]. destruct (sub_at k r) as [s|] eqn:Es; [|done].
    eapply (cinv_core (set_sub k r _)); [done|]. by eapply cinv_set_sub.
Qed.

Lemma pres_unsubscribe hash l : pres (unsubscribe hash l).
Proof.
  intros k Hk. unfold unsubscribe. destruct (ref_of_hash k _) as [r|]; [|done].
  destruct (sub_at k r) as [s|] eqn:Es; [|done]. cbv zeta.
  assert (Hs : forall ls, cinv (set_sub k r (with_listeners s ls))) by (intros ls; by eapply cinv_set_sub).
  case_match; [|done]. apply cinv_remove. eapply (cinv_core (set_sub k r _)); [done|]. apply Hs.
Qed.

(** * Mutations *)

Lemma mutation_always busy path args u transient entropy now : always (mutation busy path args u transient entropy now).
Proof.
  apply always_bind; [apply always_lift|]. intros j. apply always_read. intros k Hk. cbv zeta.
  destruct (over_capacity _ _); [done|].
  set (ob := if transient then None else k_outbox k). set (rid := js_string_of (k_nextRequestId k)).
  set (e := match ob with Some b => _ | None => _ end).
  assert (He : pm_requestId e = rid /\ pm_status e = Unsent) by (unfold e; by destruct ob).
  set (k1 := match ob with Some b => set_outbox (set_ids k (k_nextQueryId k) (k_nextRequestId k + 1))
                                        (Some (stamp_outbox now b (Pending rid path j u entropy now [] Unsent None None None false None)).1)
                      | None => set_ids k (k_nextQueryId k) (k_nextRequestId k + 1) end).
  assert (Hk1 : cinv k1).
  { eapply (cinv_core (set_ids k (k_nextQueryId k) (k_nextRequestId k + 1))); [unfold k1; by destruct ob|].
    by apply cinv_next_id. }
  change (cinv ((initiate e;; modify (callback_add rid);; modify (send_or_queue rid (negb (is_none ob) && (busy || hasOutboxBacklog k)));;
    modify (fun k => if is_none ob then k else put k (append_op e))) k1).1).
  assert (Hi : cinv (initiate e k1).1).
  { destruct He as [He1 He2]. apply initiate_always; [|by rewrite He2| |done]; rewrite He1.
    - exists (k_nextRequestId k). split; [|done]. replace (k_nextRequestId k1) with (k_nextRequestId k + 1) by (unfold k1; by destruct ob).
      destruct Hk as [[(_ & Hl & _) _] _]. destruct Hl. lia.
    - replace (log_get k1 rid) with (log_get k rid) by (unfold k1; by destruct ob). by apply fresh_absent. }
  unfold bind at 1. destruct (initiate e k1) as [k2 [[]|err]]; [|done].
  refine (always_bind _ _ _ _ k2 Hi); [|intros _; apply always_bind; [|intros _]]; apply always_modify.
  - by apply pres_core.
  - apply pres_send_or_queue.
  - apply pres_core. intros k3. by destruct (is_none ob).
Qed.

Lemma action_always path args : always (action path args).
Proof.
  apply always_read. intros k Hk. cbv zeta. refine (always_bind _ _ _ _ k Hk).
  - apply always_modify. intros k0 Hk0. by apply (cinv_core (set_ids k0 (k_nextQueryId k0) (k_nextRequestId k0 + 1))), cinv_next_id.
  - intros _. apply always_bind; [apply always_lift|]. intros j. apply always_modify. by apply pres_core.
Qed.

Lemma pres_hydrate e u : pres (addHydratedEntry e u).
Proof.
  intros k Hk. unfold addHydratedEntry. case_match; [by eapply cinv_core; [apply core_outbox_do|]|].
  case_match; [done|]. cbv zeta.
  set (k1 := with_outbox _ k). assert (E : core k1 = core k) by apply core_with_outbox.
  assert (Hk1 : cinv k1) by (by eapply cinv_core).
  apply addHydrated_cinv; [|done| |by apply cinv_next_id]; cbn.
  - exists (k_nextRequestId k1). split; [|done]. cbn. destruct Hk1 as [[(_ & Hl & _) _] _]. destruct Hl. lia.
  - by apply (fresh_absent k1).
Qed.
End steps.
#[local] Open Scope stm_scope.

Section run.
Context `{JsHost}.

(** * The handshake *)

Lemma pres_dropAfterBaseline rid : pres (dropAfterBaseline rid).
Proof.
  intros k Hk. unfold dropAfterBaseline. case_match; [|by apply pres_verdict].
  by eapply cinv_core; [apply core_with_outbox|].
Qed.

Lemma pres_settle_failed v message code : pres (settle_failed v message code).
Proof.
  intros k Hk. unfold settle_failed. cbv zeta. destruct (findOutboxEntry k _ _) as [e|].
  - assert (Hf : cinv (onMutationFailure (pm_requestId e) (outbox_do
        (ObMarkFailed (mr_clientId (cv_ref v)) (mr_seq (cv_ref v)) message code)
        (rejectPending (pm_requestId e) (RejectServer message code) k)))).
    { apply pres_failure. eapply cinv_core; [by rewrite core_outbox_do, core_reject|done]. }
    case_match; [done|]. by eapply cinv_core; [apply core_notify|].
  - eapply cinv_core; [by rewrite core_notify, core_outbox_do|done].
Qed.

Lemma settleVerdict_always v : always (settleVerdict v).
Proof.
  intros k Hk. unfold settleVerdict. cbv zeta.
  destruct (cv_verdict v); [|by apply pres_settle_failed|by apply pres_settle_failed|done].
  destruct (if cv_valueMissing v then _ else _) as [val|e]; [|done].
  destruct (findOutboxEntry k _ _) as [e|]; cbn [fst].
  - apply pres_dropAfterBaseline. eapply cinv_core; [by rewrite core_outbox_do, core_resolve|done].
  - by eapply cinv_core; [apply core_outbox_do|].
Qed.

Lemma pres_reject_parked oldId e : pres (reject_parked oldId e).
Proof.
  intros k Hk. unfold reject_parked. cbv zeta.
  set (k1 := match _ with Some c => match pm_seq e with Some q => outbox_do _ k | None => k end | None => k end).
  assert (Hk1 : cinv k1).
  { eapply cinv_core; [|exact Hk]. unfold k1. destruct (match pm_clientId e with Some _ => _ | None => _ end); [|done].
    destruct (pm_seq e); [apply core_outbox_do|done]. }
  assert (Hf : cinv (onMutationFailure (pm_requestId e) (rejectPending (pm_requestId e) RejectReset k1))).
  { apply pres_failure. by eapply cinv_core; [apply core_reject|]. }
  destruct (has_callback k _); [done|]. by eapply cinv_core; [apply core_notify|].
Qed.

Lemma pres_re_enqueue oldId fresh now e : pres (re_enqueue oldId fresh now e).
Proof.
  intros k Hk. unfold re_enqueue. cbv zeta.
  set (k1 := match _ with Some c => match pm_seq e with Some q => outbox_do _ k | None => k end | None => k end).
  assert (Hk1 : cinv k1).
  { eapply cinv_core; [|exact Hk]. unfold k1. destruct (match pm_clientId e with Some _ => _ | None => _ end); [|done].
    destruct (pm_seq e); [apply core_outbox_do|done]. }
  destruct (k_outbox k1) as [ob|]; [|done].
  set (k2 := set_outbox k1 _). assert (Hk2 : cinv k2) by done.
  destruct (log_get k2 (pm_requestId e)) as [e'|] eqn:Hg; [|done].
  eapply (cinv_core (log_add k2 (with_identity e' fresh (ob_nextSeq ob) (nextOutboxOrder now ob)))); [done|].
  apply (cinv_replace k2 (pm_requestId e) e'); try done. by left.
Qed.

Lemma pres_clientReset fresh now : pres (onClientReset fresh now).
Proof.
  intros k Hk. unfold onClientReset. destruct (k_outbox k) as [ob|]; [|done]. cbv zeta.
  set (k1 := with_outbox _ k). assert (Hk1 : cinv k1) by (by eapply cinv_core; [apply core_with_outbox|]).
  assert (Hf : forall l acc, cinv acc.1 -> cinv (fold_left (reset_entry_ (ob_clientId ob) fresh now) l acc).1).
  { induction l as [|e l IH]; intros [k0 [re rj]] Hk0; [exact Hk0|]. cbn [fold_left]. apply IH. cbn in Hk0.
    unfold reset_entry_. case_match; [by apply pres_reject_parked|]. case_match; [by apply pres_re_enqueue|exact Hk0]. }
  specialize (Hf (client_log_entries k1) (k1, (0, 0)) Hk1). destruct (fold_left _ _ (k1, (0, 0))) as [k2 [re rj]].
  cbn in Hf. eapply cinv_core; [|exact Hf]. by destruct (k_outbox k2) as [ob'|].
Qed.

Lemma connectAck_always known results d fresh now : always (handleConnectAck known results d fresh now).
Proof.
  apply always_bind; [apply always_modify, pres_core; intros; apply core_with_outbox|]. intros _.
  apply always_bind.
  - apply always_modify, pres_core. intros k. case_match; [|done]. case_match; [apply core_outbox_do|done].
  - intros _. destruct known; cbn [negb].
    + apply always_bind; [apply always_for_each; intros; apply settleVerdict_always|]. intros _.
      apply always_modify, pres_core. intros; apply core_nudge.
    + apply always_modify. intros k Hk. eapply cinv_core; [apply core_nudge|]. by apply pres_clientReset.
Qed.

(** * Ingest *)

Lemma sinv_set_sub k r s s' : sub_at k r = Some s -> q_hash s' = q_hash s -> sinv k -> sinv (set_sub k r s').
Proof.
  unfold sub_at. intros Hr Hh ([H1 H2 H3] & Hl & Ht). pose proof (lookup_lt_Some _ _ _ Hr).
  split_and!; [split|..]; try done; cbn. intros h r' Hin. destruct (H3 h r' Hin) as (s0 & E & Eh).
  destruct (decide (r' = r)) as [->|Hne].
  - exists s'. rewrite list_lookup_insert_eq by done. split; [done|]. congruence.
  - exists s0. by rewrite list_lookup_insert_ne by done.
Qed.

Lemma sinv_update_sub r f k : (forall s, q_hash (f s) = q_hash s) -> sinv k -> sinv (update_sub r f k).
Proof. intros Hf Hk. unfold update_sub. destruct (sub_at k r) as [s|] eqn:Es; [|done]. by eapply sinv_set_sub. Qed.

Lemma applyDiff_hash r s changes checksum reset k :
  exists k0 s', (applyDiff r s changes checksum reset k).1 = set_sub k0 r s' /\ core k0 = core k /\ q_hash s' = q_hash s.
Proof.
  unfold applyDiff. cbv zeta.
  assert (Hh : q_hash (apply_reset s reset) = q_hash s) by (by destruct reset as [[]|]).
  destruct (render_rows _ _) as [[v|]|e]; cbn; eexists _, _; (split; [reflexivity|]); by split.
Qed.

Definition skeeps_at {A} (m : stm client A) (k : client) : Prop := sinv (m k).1 /\ k_observedTs (m k).1 = k_observedTs k.
Definition skeeps {A} (m : stm client A) : Prop := forall k, sinv k -> skeeps_at m k.

Lemma skeeps_at_bind {A B} (m : stm client A) (f : A -> stm client B) k :
  skeeps_at m k -> (forall x, skeeps (f x)) -> skeeps_at (bind m f) k.
Proof.
  unfold skeeps_at, bind. intros [Hm Ho] Hf. destruct (m k) as [k' [x|e]]; [|done].
  cbn in Hm, Ho. destruct (Hf x k' Hm) as [? Ho']. split; [done|]. by rewrite Ho', Ho.
Qed.
Lemma skeeps_bind {A B} (m : stm client A) (f : A -> stm client B) :
  skeeps m -> (forall x, skeeps (f x)) -> skeeps (bind m f).
Proof. intros Hm Hf k Hk. apply skeeps_at_bind; auto. Qed.
Lemma skeeps_ret {A} (x : A) : skeeps (ret x).
Proof. by intros k. Qed.
Lemma skeeps_core f : (forall k, core (f k) = core k) -> skeeps (modify f).
Proof. intros Hf k Hk. split; [exact (sinv_core k (f k) (Hf k) Hk)|]. exact (f_equal (fun c => c.1.1.2) (Hf k)). Qed.
Lemma skeeps_update r f : (forall s, q_hash (f s) = q_hash s) -> skeeps (modify (update_sub r f)).
Proof.
  intros Hf k Hk. split; [by apply sinv_update_sub|]. cbn. unfold update_sub. by case_match.
Qed.

Lemma ingest_diff_skeeps qid r s changes checksum reset hash k : sub_at k r = Some s -> sinv k ->
  skeeps_at (ingest_diff (fun _ => resync) qid r s changes checksum reset hash) k.
Proof.
  intros Hs Hk. unfold ingest_diff. destruct (no_render_mode s reset).
  - refine (skeeps_bind _ _ _ _ k Hk); [by apply skeeps_update|]. intros _. apply skeeps_core. intros; apply core_resync.
  - apply skeeps_at_bind.
    + destruct (applyDiff_hash r s changes checksum reset k) as (k0 & s' & E & Hc & Hh). unfold skeeps_at. rewrite E.
      pose proof Hc as Hc'. injection Hc' as Hh0 Hb Hl Ho Ht Hn. split; [|done].
      eapply sinv_set_sub; [|exact Hh|by eapply sinv_core]. unfold sub_at. by rewrite Hh0.
    + intros drift. apply skeeps_bind; [by apply skeeps_update|].
      intros _. destruct drift; [|apply skeeps_ret]. apply skeeps_core. intros; apply core_resync.
Qed.

Lemma ingest_mod_skeeps m u : skeeps (ingest_mod (fun _ => resync) m u).
Proof.
  intros k Hk. unfold skeeps_at, ingest_mod. destruct m as [qid v hash|qid e|qid|qid|qid changes checksum reset hash]; [| |done| |].
  - destruct (jm_get _ qid) as [r|]; [|done]. destruct (jsonToConvex v) as [v'|]; [|done]. cbn.
    split; [by apply sinv_update_sub|]. unfold update_sub. by case_match.
  - destruct (jm_get _ qid) as [r|]; [|done]. cbn [mbind option_bind]. destruct (sub_at k r) as [s|] eqn:Es; [|done]. cbn [mbind option_bind].
    split; [|done]. eapply (sinv_core (set_sub k r (markAnswered s))); [done|]. by eapply sinv_set_sub.
  - destruct (jm_get _ qid) as [r|]; [|done]. cbn [mbind option_bind]. destruct (sub_at k r) as [s|] eqn:Es; [|done].
    split; [|done]. by eapply sinv_set_sub.
  - destruct (jm_get _ qid) as [r|]; [|done]. cbn [mbind option_bind]. destruct (sub_at k r) as [s|] eqn:Es; [|done]. cbn [mbind option_bind].
    apply (skeeps_at_bind (ingest_diff _ _ _ _ _ _ _ _)); [by apply ingest_diff_skeeps|]. intros _. apply skeeps_ret.
Qed.

Lemma ingest_mods_skeeps ms u : skeeps (ingest_mods (fun _ => resync) ms u).
Proof.
  revert u. induction ms as [|m ms IH]; intros u; [apply skeeps_ret|].
  apply skeeps_bind; [apply ingest_mod_skeeps|]. intros u'. apply IH.
Qed.

(** What is left after dropping the covered layers is ahead of the frontier. *)
Lemma drop_covered_elem es k re : re ∈ k_log (fold_left drop_covered es k) ->
  re ∈ k_log k /\ forall e, e ∈ es -> covered (k_observedTs k) e = true -> re.1 <> pm_requestId e.
Proof.
  revert k. induction es as [|e es IH]; intros k; cbn [fold_left]; [intros Hin; split; [done|]; by intros e ?%not_elem_of_nil|].
  assert (Ho : k_observedTs (drop_covered k e) = k_observedTs k) by (unfold drop_covered; by case_match).
  intros [Hin Hc]%IH. rewrite Ho in Hc. unfold drop_covered in Hin.
  destruct (covered (k_observedTs k) e) eqn:E.
  - apply log_delete_elem in Hin as [Hin Hne]. split; [done|]. intros e' [->|He']%elem_of_cons Hc'; [done|by apply Hc].
  - split; [done|]. intros e' [->|He']%elem_of_cons Hc'; [congruence|by apply Hc].
Qed.

Lemma drop_covered_sinv es k : sinv k -> sinv (fold_left drop_covered es k).
Proof.
  revert k. induction es as [|e es IH]; intros k Hk; [done|]. apply IH. unfold drop_covered.
  case_match; [by apply sinv_drop|done].
Qed.
Lemma drop_covered_observed es k : k_observedTs (fold_left drop_covered es k) = k_observedTs k.
Proof. revert k. induction es as [|e es IH]; intros k; [done|]. cbn [fold_left]. rewrite IH. unfold drop_covered. by case_match. Qed.

Lemma drop_covered_ginv k : sinv k -> ginv (fold_left drop_covered (client_log_entries k) k).
Proof.
  intros Hk. split; [by apply drop_covered_sinv|]. rewrite drop_covered_observed.
  intros rid e ts at_ [Hin Hc]%drop_covered_elem Hst. cbn in Hc. destruct Hk as (_ & Hl & Ht).
  destruct (Ht _ _ _ _ Hin Hst) as [Hpos _]. destruct (decide (k_observedTs k < ts)) as [|Hle]; [done|]. exfalso.
  apply (Hc e); [apply (list_elem_of_fmap_2 snd _ _ Hin)| |by rewrite (lo_ids _ _ Hl _ _ Hin)].
  unfold covered, versionCoversCommit. rewrite Hst. apply andb_true_iff. lia.
Qed.

Lemma ingest_unless ms ts : unless_thrown (ingestTransition (fun _ => resync) ms ts).
Proof.
  intros k k' x E [[Hk _] _]. revert E. unfold ingestTransition, bind, modify at 1.
  pose proof (ingest_mods_skeeps ms [] (set_observed k (Z.max (k_observedTs k) ts)) Hk) as [Hs _].
  destruct (ingest_mods _ ms [] _) as [k1 [u|e]]; [|done]. intros [= <-]. by apply rebuild_cinv, drop_covered_ginv.
Qed.

(** * Messages *)

Lemma on_transition_unless st en ms : unless_thrown (on_transition st en ms).
Proof.
  assert (Ha : unless_thrown (adopt en ms)).
  { apply unless_bind; [apply ingest_unless|]. intros _. by apply always_unless, always_modify, pres_core. }
  assert (Hb : unless_thrown (modify adopted)) by (apply always_unless, always_modify, pres_adopted).
  intros k k' x. unfold on_transition. unfold bind at 1. cbn [gets].
  destruct (cn_resyncing _); [|destruct (negb _)].
  - refine (unless_bind _ _ Ha _ k k' x). intros _. apply unless_bind; [|intros _; apply Hb].
    by apply always_unless, always_modify, pres_core.
  - intros [= <-]. apply (pres_core resync). intros; apply core_resync.
  - refine (unless_bind _ _ Ha _ k k' x). intros _. apply Hb.
Qed.

Lemma on_success_always rid v ts now : always (on_success rid v ts now).
Proof.
  apply always_read. intros k Hk. cbv zeta. refine (always_bind _ _ _ _ k Hk); [by apply always_modify, pres_core|].
  intros _. apply always_bind; [|intros _; apply always_bind; [|intros _]].
  - destruct (has_callback k rid); [|apply always_ret]. apply always_bind; [apply always_lift|]. intros val.
    by apply always_modify, pres_core.
  - apply always_modify, pres_success.
  - apply always_modify, pres_core. intros k0. case_match; [|done]. case_match; [|done].
    case_match; [apply core_outbox_do|done].
Qed.

Lemma pres_on_failure rid e code : pres (on_failure rid e code).
Proof.
  intros k Hk. unfold on_failure. cbv zeta. set (k1 := onMutationFailure rid _).
  assert (Hk1 : cinv k1) by (apply pres_failure; by eapply cinv_core; [apply core_reject|]).
  set (k2 := match _ with Some c => match _ with Some q => outbox_do _ k1 | None => k1 end | None => k1 end).
  assert (Hk2 : cinv k2).
  { eapply cinv_core; [|exact Hk1]. unfold k2. destruct (x ← log_get k rid; pm_clientId x); [|done].
    destruct (x ← log_get k rid; pm_seq x); [apply core_outbox_do|done]. }
  destruct (has_callback k rid); [done|]. by eapply cinv_core; [apply core_notify|].
Qed.

Lemma message_unless m fresh now : unless_thrown (onServerMessage m fresh now).
Proof.
  destruct m as [st en ms|rid v ts ? ?|rid e code|rid v|rid e|known results d|topic event]; cbn [onServerMessage].
  - apply on_transition_unless.
  - apply always_unless, on_success_always.
  - apply always_unless, always_modify, pres_on_failure.
  - apply always_unless, always_read. intros k Hk. case_bool_decide; [|by apply always_ret].
    refine (always_bind _ _ _ _ k Hk); [by apply always_modify, pres_core|]. intros _.
    apply always_bind; [apply always_lift|]. intros val. by apply always_modify, pres_core.
  - apply always_unless, always_read. intros k Hk. case_bool_decide; [|by apply always_ret].
    refine (always_bind _ _ _ _ k Hk); [by apply always_modify, pres_core|]. intros _. by apply always_modify, pres_core.
  - apply always_unless, connectAck_always.
  - apply always_unless, always_bind; [apply always_lift|]. intros val. by apply always_modify, pres_core.
Qed.

(** * Events *)

(** No handler of a server message has thrown. *)
Definition handled (k : client) (e : client_event) : Prop :=
  match e with CvMessage _ _ _ => exists x, (client_step k e).2 = Ok x | _ => True end.

Lemma step_cinv k e : handled k e -> cinv k -> cinv (client_step k e).1.
Proof.
  intros Hh Hk. destruct e as [path args l|hash l|path args u tr en now|rid|path args|t|t|l|e u|m fresh now|rid| |]; cbn [client_step fst].
  - by apply subscribe_always.
  - by apply pres_unsubscribe.
  - by apply mutation_always.
  - by apply pres_durable.
  - by apply action_always.
  - eapply cinv_core; [|exact Hk]. unfold setAuth. cbv zeta. case_match; [by rewrite core_with_outbox|done].
  - eapply cinv_core; [|exact Hk]. unfold digest_resolved. case_match; [by rewrite core_with_outbox|done].
  - done.
  - by apply pres_hydrate.
  - cbn in Hh. destruct Hh as [x Hx]. eapply (message_unless m fresh now); [|exact Hk]. by rewrite <-Hx, <-surjective_pairing.
  - case_bool_decide; [by apply pres_timeout|done].
  - by apply pres_closed.
  - by apply pres_reopened.
Qed.
End run.
