(* ===== verification/ClientProperties.v ===== *)
(** What survives a close of the transport, and the rows of a range shown in the
    order of its index. *)
From Stdlib Require Import ZArith Lia.
From stdpp Require Import base list sets strings sorting.
From S2P Require Import Prelude JsBase JsText Values ValuesJson KeyCodec KeyRanges DocStore StateRes RowDiff ReadIndex SyncProtocol ClientState Reconciler ClientSession ClientInvariant ClientRun.

(** * The close disposition *)

Definition is_inflight (s : entry_status) : bool := match s with Inflight => true | _ => false end.
Definition parks (armed : bool) (e : pending) : bool := is_inflight (pm_status e) && (armed && pm_durable e).
Definition rejects (armed : bool) (e : pending) : bool := is_inflight (pm_status e) && negb (armed && pm_durable e).
Definition drops (e : pending) : bool := is_inflight (pm_status e) || is_completed (pm_status e).
Definition ids_of (p : pending -> bool) (es : list pending) : list jsstr := pm_requestId <$> base.filter (fun e => p e = true) es.

Lemma ids_cons p e es : ids_of p (e :: es) = (if p e then [pm_requestId e] else []) ++ ids_of p es.
Proof. unfold ids_of. rewrite filter_cons. destruct (p e); [by rewrite decide_True|by rewrite decide_False]. Qed.

Lemma dispose_fold armed es d :
  let d' := fold_left (dispose_one armed) es d in
  cd_reject d' = cd_reject d ++ ids_of (rejects armed) es /\ cd_drop d' = cd_drop d ++ ids_of drops es /\
  cd_park d' = cd_park d ++ ids_of (parks armed) es.
Proof.
  revert d. induction es as [|e es IH]; intros d; cbn [fold_left]; [by rewrite !app_nil_r|].
  destruct (IH (dispose_one armed d e)) as (-> & -> & ->). rewrite !ids_cons. unfold dispose_one, rejects, parks, drops.
  destruct (pm_status e); try destruct (armed && pm_durable e); cbn; by rewrite <-?(assoc_L (++)).
Qed.

Lemma ids_elem p es rid : rid ∈ ids_of p es <-> exists e, e ∈ es /\ p e = true /\ pm_requestId e = rid.
Proof. unfold ids_of. rewrite list_elem_of_fmap. setoid_rewrite list_elem_of_filter. naive_solver. Qed.

Section close.
Context `{JsHost}.

Definition parked_entry (e : pending) : pending := without_update (with_status e Parked_).

Lemma park_log k rid : log_wf (k_log k) (k_nextRequestId k) ->
  log_wf (k_log (park_entry k rid)) (k_nextRequestId (park_entry k rid)) /\
  forall r e', (r, e') ∈ k_log (park_entry k rid) <->
    exists e, (r, e) ∈ k_log k /\ e' = if decide (r = rid) then parked_entry e else e.
Proof.
  intros Hl. unfold park_entry. destruct (log_get k rid) as [e|] eqn:Hg.
  - pose proof (log_get_id _ _ _ _ Hl Hg) as Hid. pose proof (log_get_in _ _ _ Hg) as Hin.
    assert (Huniq : forall e1, (rid, e1) ∈ k_log k -> e1 = e).
    { intros e1 H1. apply jm_in_get in H1; [|apply Hl]. unfold log_get in Hg. congruence. }
    assert (He : forall re, re ∈ k_log (log_add k (parked_entry e)) <-> re = (rid, parked_entry e) \/ (re ∈ k_log k /\ re.1 <> rid)).
    { intros re. rewrite (log_add_elem _ _ _ _ Hl). cbn. by rewrite Hid. }
    split.
    + split; [apply jm_nodup_set, Hl|..|apply Hl]; intros r e' [[= -> ->]|[Hin' _]]%He; [done|..]; by destruct Hl; eauto.
    + intros r e'. rewrite He. split.
      * intros [[= -> ->]|[Hin' Hne]]; [exists e; by rewrite decide_True|exists e'; by rewrite decide_False].
      * intros (e0 & Hin' & ->). case_decide as Hr; [subst; left; by rewrite (Huniq _ Hin')|by right].
  - split; [done|]. intros r e'. split; [|intros (e & Hin & ->)].
    + intros Hin. exists e'. rewrite decide_False; [done|]. intros ->. apply jm_in_get in Hin; [|apply Hl].
      unfold log_get in Hg. congruence.
    + rewrite decide_False; [done|]. intros ->. apply jm_in_get in Hin; [|apply Hl]. unfold log_get in Hg. congruence.
Qed.

Lemma parks_log rids k : log_wf (k_log k) (k_nextRequestId k) ->
  forall r e', (r, e') ∈ k_log (fold_left park_entry rids k) <->
    exists e, (r, e) ∈ k_log k /\ e' = if decide (r ∈ rids) then parked_entry e else e.
Proof.
  revert k. induction rids as [|rid rids IH]; intros k Hl r e'; cbn [fold_left].
  - split; [intros Hin; exists e'; rewrite decide_False; [done|apply not_elem_of_nil]|].
    intros (e & Hin & ->). rewrite decide_False; [done|apply not_elem_of_nil].
  - destruct (park_log k rid Hl) as [Hl' Hp]. rewrite (IH _ Hl'). setoid_rewrite Hp.
    assert (Hd : forall e, (if decide (r ∈ rid :: rids) then parked_entry e else e) =
      if decide (r ∈ rids) then parked_entry (if decide (r = rid) then parked_entry e else e)
      else if decide (r = rid) then parked_entry e else e).
    { intros e. repeat case_decide; try done; exfalso; set_solver. }
    split; [intros (e1 & (e & Hin & ->) & ->); exists e; by rewrite Hd|].
    intros (e & Hin & ->). eexists. split; [by exists e|apply Hd].
Qed.

Lemma close_drops_log prk rids k re :
  re ∈ k_log (fold_left (close_drop prk) rids k) <-> re ∈ k_log k /\ (re.1 ∈ rids -> re.1 ∈ prk).
Proof.
  revert k. induction rids as [|rid rids IH]; intros k; cbn [fold_left]; [set_solver|].
  rewrite IH. unfold close_drop. case_bool_decide as Hp; [set_solver|].
  change (k_log (drop_entry k rid)) with (k_log (log_delete k rid)). rewrite log_delete_elem.
  rewrite elem_of_cons. destruct (decide (re.1 = rid)) as [->|Hne]; [set_solver|naive_solver].
Qed.

(** The log before the rebuild of a close. *)
Definition closing_log (armed : bool) (k : client) : client :=
  set_observed (fold_left (close_drop (ids_of (parks armed) (client_log_entries k))) (ids_of drops (client_log_entries k))
    (fold_left park_entry (ids_of (parks armed) (client_log_entries k)) k)) 0.

Lemma closeSession_eq armed k :
  closeSession armed k = (rebuild (closing_log armed k) [],
    (ids_of (rejects armed) (client_log_entries k), ids_of (parks armed) (client_log_entries k))).
Proof.
  unfold closeSession, closing_log, closeDisposition.
  by destruct (dispose_fold armed (client_log_entries k) (CloseDisposition [] [] [] [])) as (-> & -> & ->).
Qed.

Lemma entry_ids k p rid e : log_wf (k_log k) (k_nextRequestId k) -> (rid, e) ∈ k_log k ->
  rid ∈ ids_of p (client_log_entries k) <-> p e = true.
Proof.
  intros Hl Hin. rewrite ids_elem. split.
  - intros (e' & He' & Hp & Hid). apply list_elem_of_fmap in He' as ([rid' e0] & -> & Hin0). cbn in *.
    pose proof (lo_ids _ _ Hl _ _ Hin0) as E. assert (rid' = rid) as -> by congruence.
    apply jm_in_get in Hin; [|apply Hl]. apply jm_in_get in Hin0; [|apply Hl]. congruence.
  - intros Hp. exists e. split_and!; [apply (list_elem_of_fmap_2 snd _ _ Hin)|done|by eapply lo_ids].
Qed.

Definition after_close (armed : bool) (e : pending) : option pending :=
  if parks armed e then Some (parked_entry e) else if drops e then None else Some e.

Lemma closing_log_elem armed k rid e' : log_wf (k_log k) (k_nextRequestId k) ->
  (rid, e') ∈ k_log (closing_log armed k) <-> exists e, (rid, e) ∈ k_log k /\ after_close armed e = Some e'.
Proof.
  intros Hl. unfold closing_log. change (k_log (set_observed ?x 0)) with (k_log x).
  rewrite close_drops_log, (parks_log _ _ Hl). cbn [fst]. split.
  - intros [(e & Hin & ->) Hd]. exists e. split; [done|]. rewrite !(entry_ids _ _ _ _ Hl Hin) in Hd. unfold after_close.
    destruct (decide (rid ∈ _)) as [Hp|Hp]; rewrite (entry_ids _ _ _ _ Hl Hin) in Hp.
    + by rewrite Hp.
    + destruct (parks armed e); [done|]. destruct (drops e); [by specialize (Hd eq_refl)|done].
  - intros (e & Hin & Ha). split.
    + exists e. split; [done|]. unfold after_close in Ha.
      destruct (decide (rid ∈ _)) as [Hp|Hp]; rewrite (entry_ids _ _ _ _ Hl Hin) in Hp.
      * rewrite Hp in Ha. by injection Ha.
      * destruct (parks armed e); [done|]. destruct (drops e); [done|]. by injection Ha.
    + rewrite !(entry_ids _ _ _ _ Hl Hin). unfold after_close in Ha. destruct (parks armed e); [done|].
      by destruct (drops e).
Qed.

Lemma closing_ginv armed k : cinv k -> ginv (closing_log armed k).
Proof.
  intros [Hk _]. unfold closing_log.
  assert (Hg : ginv (fold_left (close_drop (ids_of (parks armed) (client_log_entries k))) (ids_of drops (client_log_entries k))
                 (fold_left park_entry (ids_of (parks armed) (client_log_entries k)) k))).
  { apply ginv_fold; [|by apply ginv_fold; [intros; by apply ginv_park|]].
    intros k0 rid Hk0. unfold close_drop. case_bool_decide; [done|by apply ginv_drop]. }
  destruct Hg as [(Hs & Hl & Ht) Ha]. split; [done|]. intros rid e ts at_ Hin Hst. by destruct (Ht _ _ _ _ Hin Hst).
Qed.

(** When the transport closes, the promises rejected are those of the mutations
    in flight that the durable outbox does not hold, and the ones it holds are
    parked, without their optimistic update; what is left on the log are the
    unsent and parked entries and nothing in flight or held, every entry
    without an updater survives, and the frontier starts again from zero. *)
Theorem close_keeps_offline_work armed k : cinv k ->
  let '(k', (rejected, parked)) := closeSession armed k in
  rejected = ids_of (rejects armed) (client_log_entries k) /\ parked = ids_of (parks armed) (client_log_entries k) /\
  (forall rid e', (rid, e') ∈ k_log k' ->
     (pm_status e' = Unsent \/ pm_status e' = Parked_) /\
     exists e e1, (rid, e) ∈ k_log k /\ after_close armed e = Some e1 /\ replayed e1 e') /\
  (forall rid e e1, (rid, e) ∈ k_log k -> after_close armed e = Some e1 -> pm_update e1 = None ->
     exists e', (rid, e') ∈ k_log k' /\ replayed e1 e') /\
  k_observedTs k' = 0.
Proof.
  intros Hk. rewrite closeSession_eq. pose proof Hk as [[(_ & Hl & _) _] _].
  destruct (rebuild_log (closing_log armed k) [] (closing_ginv armed k Hk)) as (H1 & H2 & H3).
  split_and!; [done|done| | |exact H3].
  - intros rid e' (e1 & Hin & Hre)%H1. apply (closing_log_elem _ _ _ _ Hl) in Hin as (e & Hin & Ha). split; [|eauto].
    rewrite (replayed_status _ _ Hre). revert Ha. unfold after_close, parks, drops.
    destruct (pm_status e) eqn:Est; cbn; [intros [= <-]; auto|destruct (_ && _)|done|intros [= <-]; auto]; intros [= <-]. by right.
  - intros rid e e1 Hin Ha Hu. apply H2; [|done]. apply closing_log_elem; [done|eauto].
Qed.
End close.

(** * Rendering *)

Lemma traverse_total {A B} (f : A -> res B) l : (forall x, x ∈ l -> exists y, f x = Ok y) -> exists ys, traverse f l = Ok ys.
Proof.
  induction l as [|x l IH]; intros Hf; [by exists []|]. destruct (Hf x) as [y Hy]; [left|].
  destruct IH as [ys Hys]; [intros z Hz; apply Hf; by right|]. exists (y :: ys). cbn. by rewrite Hy, Hys.
Qed.

Lemma zip_decoded (docs : list (bytes * row_version)) rvs keys :
  (forall p, p ∈ docs -> order_bytes p.2 = Ok p.1) -> rvs ≡ₚ docs.*2 -> traverse order_bytes rvs = Ok keys -> zip keys rvs ≡ₚ docs.
Proof.
  intros Hd Hp Hk%traverse_Forall2.
  set (g := fun rv => match order_bytes rv with Ok k => (k, rv) | Throw _ => ([], rv) end).
  assert (E1 : zip keys rvs = g <$> rvs).
  { clear Hp. induction Hk as [|rv k rvs' keys' Hrk _ IH]; [done|]. csimpl. rewrite IH. f_equal. unfold g. by rewrite Hrk. }
  assert (E2 : docs = g <$> docs.*2).
  { rewrite <-list_fmap_compose. rewrite <-(list_fmap_id docs) at 1. apply list_fmap_ext. intros i [k rv] Hi. cbn. unfold g.
    pose proof (Hd (k, rv) (list_elem_of_lookup_2 _ _ _ Hi)) as E. cbn in E. by rewrite E. }
  rewrite E1, E2 at 1. by rewrite Hp.
Qed.

(** Sorting a permutation of a strictly sorted list gives the list. *)
Lemma js_sort_unique (docs l : list (bytes * row_version)) :
  StronglySorted (fun a b => compareKeyBytes a b = Lt) docs.*1 -> l ≡ₚ docs -> js_sort compare_keyed l = docs.
Proof.
  intros Hs Hp.
  assert (Hn : NoDup docs.*1).
  { clear Hp. induction Hs as [|x xs _ IH Hx]; constructor; [|done]. intros Hin. rewrite Forall_forall in Hx.
    specialize (Hx x Hin). by rewrite cmp_refl in Hx. }
  apply (StronglySorted_unique_strong (fun a b => compareKeyBytes a.1 b.1 = Lt)).
  - intros x y _ _ H1 H2. pose proof (cmp_opp (c := compareKeyBytes) x.1 y.1) as Ho. rewrite H1, H2 in Ho. done.
  - apply (js_sort_strict fst compareKeyBytes); [apply _|]. by rewrite Hp.
  - by apply (StronglySorted_fmap fst (fun a b => compareKeyBytes a b = Lt)).
  - by rewrite js_sort_perm.
Qed.

Definition render_docs (docs : list row_version) : res value :=
  vs ← traverse (fun rv => jsonToConvex (rv_row rv)) docs; Ok (VArray vs).

Lemma strict_reverse (ks : list bytes) :
  StronglySorted (fun a b => compareKeyBytes b a = Lt) ks -> StronglySorted (fun a b => compareKeyBytes a b = Lt) (reverse ks).
Proof.
  induction 1 as [|x xs _ IH Hx]; [constructor|]. rewrite reverse_cons. apply StronglySorted_app. split_and!; [|done|].
  - rewrite Forall_forall in Hx. intros a b Ha ->%list_elem_of_singleton. apply Hx. by rewrite elem_of_reverse in Ha.
  - repeat constructor.
Qed.

(** A range subscription is shown in the order of its index: when a client
    holds the same rows as the server, however its map came about, and the rows
    have the server's order keys, the array is the rows of the query in index
    order, ascending or descending. *)
Theorem range_shown_in_index_order (rows next : row_map) (docs : list (bytes * row_version)) d :
  NoDup (jm_keys rows) -> NoDup (jm_keys next) -> (forall k, jm_get rows k = jm_get next k) ->
  jm_values next ≡ₚ docs.*2 -> (forall p, p ∈ docs -> order_bytes p.2 = Ok p.1) ->
  StronglySorted (fun a b => directed d compareKeyBytes a b = Lt) docs.*1 ->
  renderRangeValue rows d = render_docs docs.*2.
Proof.
  intros Hn1 Hn2 He Hp Hd Hs. pose proof (jm_ext_perm rows next Hn1 Hn2 He) as Hrn.
  assert (Hv : jm_values rows ≡ₚ docs.*2) by (unfold jm_values in *; by rewrite Hrn).
  set (asc := match d with Asc => docs | Desc => reverse docs end).
  assert (Hasc : asc ≡ₚ docs) by (unfold asc; destruct d; [done|apply reverse_Permutation]).
  assert (Hsort : StronglySorted (fun a b => compareKeyBytes a b = Lt) asc.*1).
  { unfold asc. destruct d; [exact Hs|]. rewrite fmap_reverse. by apply strict_reverse. }
  assert (Hsr : sort_rows (jm_values rows) = Ok asc.*2).
  { rewrite <-Hasc in Hv. unfold sort_rows. destruct (jm_values rows) as [|rv1 [|rv2 rvs]].
    - by apply Permutation_nil_l in Hv as <-.
    - by apply Permutation_singleton_l in Hv as <-.
    - assert (exists keys, traverse order_bytes (rv1 :: rv2 :: rvs) = Ok keys) as [keys Hk].
      { apply traverse_total. intros rv Hin. rewrite Hv, Hasc in Hin.
        apply list_elem_of_fmap in Hin as (p & -> & Hin). exists p.1. by apply Hd. }
      rewrite Hk. cbn [mbind res_bind]. f_equal. f_equal. apply js_sort_unique; [done|].
      eapply zip_decoded; [|exact Hv|exact Hk]. intros p Hin. rewrite Hasc in Hin. by apply Hd. }
  unfold renderRangeValue. rewrite Hsr. cbn. unfold render_docs, asc. destruct d; [done|]. by rewrite <-fmap_reverse, reverse_involutive.
Qed.
