(* ===== verification/ClientSettle.v ===== *)
(** The promises of mutations: each request is waited for or settled, and
    settled once. *)
From Stdlib Require Import ZArith Lia.
From stdpp Require Import base list sets strings.
From S2P Require Import Prelude JsBase JsText Values ValuesJson DocStore StateRes RowDiff ReadIndex SyncProtocol ClientState Reconciler ClientSession ClientInvariant ClientRun.
#[local] Open Scope stm_scope.

(** * The accounts *)

(** The request of a settled mutation promise. *)
Definition settles (o : client_out) : option jsstr :=
  match o with OResolve r _ | OReject r _ => Some r | _ => None end.
Definition settled_ids (k : client) : list jsstr := omap settles (k_out k).
(** The promises handed out: those waiting, and those settled. *)
Definition promised (k : client) : list jsstr := k_callbacks k ++ settled_ids k.

Record promise_ok (k : client) : Prop := {
  po_once : NoDup (promised k);
  po_old : forall rid, rid ∈ promised k -> exists n, 0 < n < k_nextRequestId k /\ rid = js_string_of n;
  po_pos : 0 < k_nextRequestId k }.

(** Nothing promised is forgotten. *)
Definition remembers (k k' : client) : Prop :=
  promise_ok k -> promise_ok k' /\ (forall rid, rid ∈ promised k -> rid ∈ promised k').

#[export] Instance remembers_refl : Reflexive remembers.
Proof. by intros k Hk. Qed.
#[export] Instance remembers_trans : Transitive remembers.
Proof. intros a b c Hab Hbc Ha. destruct (Hab Ha) as [Hb H1]. destruct (Hbc Hb) as [Hc H2]. auto. Qed.

(** What the accounts look at. *)
Definition account (k : client) : list jsstr * list jsstr * Z := (k_callbacks k, settled_ids k, k_nextRequestId k).

Lemma remembers_account k k' : account k' = account k -> remembers k k'.
Proof. intros [= Hc Hs Hn] [H1 H2 H3]. split; [split|]; unfold promised in *; by rewrite ?Hc, ?Hs, ?Hn. Qed.

Lemma account_put k o : omap settles o = [] -> account (put k o) = account k.
Proof. intros Ho. unfold account, settled_ids. cbn. by rewrite omap_app, Ho, app_nil_r. Qed.

Lemma account_fold {A} (f : client -> A -> client) l k : (forall k x, account (f k x) = account k) -> account (fold_left f l k) = account k.
Proof. intros Hf. revert k. induction l as [|x l IH]; intros k; [done|]. cbn. by rewrite IH, Hf. Qed.

Section settle.
Context `{JsHost}.

(** ** The store and the reconciler settle nothing *)

Lemma account_compose overlay force k r : account (compose_ref overlay force k r) = account k.
Proof.
  unfold compose_ref. destruct (sub_at k r) as [s|]; [|done]. destruct (compose_one overlay force s) as [s' out] eqn:E.
  apply (account_put (set_sub k r s')). unfold compose_one in E. destruct (_ || _); [|by simplify_eq].
  destruct (next_value overlay s); simplify_eq; [|done]. by induction (q_listeners s).
Qed.

Lemma account_recompose k force : account (recompose k force).1 = account k.
Proof.
  unfold recompose. destruct (replay _ _ _ _) as [[[n o] d] es]. cbn [fst]. rewrite account_fold; [done|]. apply account_compose.
Qed.
Lemma account_drops ds k : account (fold_left drop_entry ds k) = account k.
Proof. by apply account_fold. Qed.
Lemma account_rebuild k force : account (rebuild k force) = account k.
Proof.
  unfold rebuild. pose proof (account_recompose k force) as Hr. destruct (recompose k force). by rewrite account_drops.
Qed.
Lemma account_verdict rid k : account (onVerdictAfterBaseline rid k) = account k.
Proof. unfold onVerdictAfterBaseline. destruct (log_get k rid); [|done]. by rewrite account_rebuild. Qed.
Lemma account_failure rid k : account (onMutationFailure rid k) = account k.
Proof. unfold onMutationFailure. destruct (log_get k rid); [|done]. by rewrite account_rebuild. Qed.
Lemma account_success rid ts now k : account (onMutationSuccess rid ts now k) = account k.
Proof. unfold onMutationSuccess. repeat case_match; rewrite ?account_rebuild; done. Qed.
Lemma account_timeout rid k : account (gate_timeout rid k) = account k.
Proof. unfold gate_timeout. cbv zeta. repeat case_match; rewrite ?account_rebuild; done. Qed.
Lemma account_initiate e k : account (initiate e k).1 = account k.
Proof.
  unfold initiate. destruct (pm_update e); [|done]. pose proof (account_recompose (log_add k e) []) as Hr.
  destruct (recompose _ _) as [k' d]. exact (eq_trans (account_drops _ _) Hr).
Qed.
Lemma account_hydrated e k : account (addHydrated e k) = account k.
Proof. unfold addHydrated. destruct (pm_update e); rewrite ?account_rebuild; done. Qed.
Lemma account_park k rid : account (park_entry k rid) = account k.
Proof. unfold park_entry. by case_match. Qed.
Lemma account_close_drop l k rid : account (close_drop l k rid) = account k.
Proof. unfold close_drop. by case_match. Qed.
Lemma account_close armed k : account (closeSession armed k).1 = account k.
Proof.
  unfold closeSession. cbn [fst]. rewrite account_rebuild. change (account (set_observed ?x 0)) with (account x).
  rewrite !account_fold; [done|apply account_park|apply account_close_drop].
Qed.

(** ** The session's helpers *)

Lemma account_with_outbox f k : account (with_outbox f k) = account k.
Proof. unfold with_outbox. by case_match. Qed.
Lemma account_outbox_do op k : account (outbox_do op k) = account k.
Proof. unfold outbox_do. case_match; [by apply account_put|done]. Qed.
Lemma account_nudge k : account (nudge k) = account k.
Proof. unfold nudge. case_match; [by apply account_put|done]. Qed.
Lemma account_send m k : account (transport_send m k) = account k.
Proof. by apply account_put. Qed.
Lemma account_resync k : account (resync k) = account k.
Proof. unfold resync. cbv zeta. case_match; [done|]. by rewrite account_send. Qed.
Lemma account_capability k : account (maybeSendDiffCapability k) = account k.
Proof. unfold maybeSendDiffCapability. case_match; [done|]. by rewrite account_send. Qed.
Lemma account_notify c q p m code k : account (notifyMutationFailed c q p m code k) = account k.
Proof. unfold notifyMutationFailed. repeat case_match; [by apply account_put|done..]. Qed.
Lemma account_sendConnect k : account (sendConnect k) = account k.
Proof. unfold sendConnect. case_match; [by rewrite account_send|done]. Qed.
Lemma account_baseline k : account (markBaselineAdopted k) = account k.
Proof.
  unfold markBaselineAdopted. rewrite account_nudge, account_put by done.
  rewrite (account_fold (fun k rid => onVerdictAfterBaseline rid k)); [apply account_with_outbox|]. intros; apply account_verdict.
Qed.
Lemma account_adopted k : account (adopted k) = account k.
Proof. unfold adopted. case_match; [apply account_baseline|done]. Qed.
Lemma account_dropAfter rid k : account (dropAfterBaseline rid k) = account k.
Proof. unfold dropAfterBaseline. case_match; [apply account_with_outbox|apply account_verdict]. Qed.
Lemma account_update_sub r f k : account (update_sub r f k) = account k.
Proof. unfold update_sub. by case_match. Qed.
Lemma account_queue rid b k : account (send_or_queue rid b k) = account k.
Proof. unfold send_or_queue. repeat case_match; rewrite ?account_send; done. Qed.
Lemma account_flush k rid : account (flush_unsent k rid) = account k.
Proof. unfold flush_unsent. case_match; rewrite ?account_send; done. Qed.

Lemma account_applyDiff r s changes checksum reset k : account (applyDiff r s changes checksum reset k).1 = account k.
Proof.
  unfold applyDiff. cbv zeta. destruct (render_rows _ _) as [[v|]|]; done.
Qed.

(** ** Settling *)

Lemma settle_remembers rid o k : settles o = Some rid -> rid ∈ k_callbacks k -> remembers k (put (callback_remove rid k) [o]).
Proof.
  intros Ho Hin [H1 H2 H3].
  assert (Hp : promised (put (callback_remove rid k) [o]) ≡ₚ promised k).
  { unfold promised, settled_ids in *. cbn. rewrite omap_app. cbn. rewrite Ho. cbn. apply NoDup_Permutation.
    - apply NoDup_app in H1 as (N1 & N2 & N3). rewrite (assoc_L (++)). apply NoDup_app. split_and!; [apply NoDup_app; split_and!| |apply NoDup_singleton].
      + by apply NoDup_filter.
      + intros x [_ Hx]%list_elem_of_filter. by apply N2.
      + done.
      + intros x Hx ->%list_elem_of_singleton. apply elem_of_app in Hx as [[Hx _]%list_elem_of_filter|Hx]; [done|].
        by eapply N2.
    - done.
    - intros x. rewrite !elem_of_app, list_elem_of_filter, list_elem_of_singleton.
      destruct (decide (x = rid)) as [->|Hne]; naive_solver. }
  split; [split|].
  - by rewrite Hp.
  - intros r Hr. rewrite Hp in Hr. by apply H2.
  - done.
  - intros r Hr. by rewrite Hp.
Qed.

Lemma remembers_resolve rid v k : remembers k (resolvePending rid v k).
Proof. unfold resolvePending, has_callback. case_bool_decide; [by apply settle_remembers|done]. Qed.
Lemma remembers_reject rid r k : remembers k (rejectPending rid r k).
Proof. unfold rejectPending, has_callback. case_bool_decide; [by apply settle_remembers|done]. Qed.

Lemma remembers_fold {A} (f : client -> A -> client) l k : (forall k x, remembers k (f k x)) -> remembers k (fold_left f l k).
Proof. intros Hf. revert k. induction l as [|x l IH]; intros k; [done|]. cbn. etrans; [apply Hf|apply IH]. Qed.

Lemma remembers_ids k q : remembers k (set_ids k q (k_nextRequestId k + 1)).
Proof.
  intros [H1 H2 H3]. split; [split|]; [done| |cbn; lia|done]. intros rid Hin. destruct (H2 _ Hin) as (n & ? & ->).
  exists n. cbn. split; [lia|done].
Qed.

(** A new promise for a request id used for the first time. *)
Lemma remembers_new k n : promise_ok k -> n = k_nextRequestId k - 1 -> 0 < n -> js_string_of n ∉ promised k ->
  promise_ok (callback_add (js_string_of n) k) /\
  (forall rid, rid ∈ promised k -> rid ∈ promised (callback_add (js_string_of n) k)).
Proof.
  intros [H1 H2 H3] Hn Hpos Hno.
  assert (Hp : promised (callback_add (js_string_of n) k) ≡ₚ js_string_of n :: promised k).
  { unfold promised. cbn. rewrite <-(assoc_L (++)). cbn. change (settled_ids _) with (settled_ids k). by rewrite <-Permutation_middle. }
  split; [split|].
  - rewrite Hp. by constructor.
  - intros rid Hin. rewrite Hp in Hin. apply elem_of_cons in Hin as [->|Hin]; [exists n; split; [cbn; lia|done]|by apply H2].
  - done.
  - intros rid Hin. rewrite Hp. by right.
Qed.

Lemma remembers_bind {A B} (m : stm client A) (f : A -> stm client B) :
  keeps remembers m -> (forall x, keeps remembers (f x)) -> keeps remembers (bind m f).
Proof. apply keeps_bind, _. Qed.
Lemma remembers_lift {A} (x : res A) : keeps remembers (lift x).
Proof. apply keeps_lift, _. Qed.
Lemma remembers_read {B} (f : client -> stm client B) : (forall k, remembers k (f k k).1) -> keeps remembers (bind (gets (fun k => k)) f).
Proof. intros Hf k. apply Hf. Qed.
Lemma silent f : (forall k, account (f k) = account k) -> keeps remembers (modify f).
Proof. intros Hf. apply keeps_modify. intros k. by apply remembers_account. Qed.
Lemma effect f : (forall k, remembers k (f k)) -> keeps remembers (modify f).
Proof. apply keeps_modify. Qed.

Lemma subscribe_remembers path args l : keeps remembers (subscribe path args l).
Proof.
  apply remembers_bind; [apply remembers_lift|]. intros j. apply remembers_bind; [|intros _]; apply silent; intros k.
  - case_match; [done|]. cbv zeta. by rewrite account_send, account_capability.
  - case_match; [|done]. case_match; [|done]. rewrite account_put; [done|]. unfold first_delivery. by case_match.
Qed.

Lemma unsubscribe_account hash l k : account (unsubscribe hash l k) = account k.
Proof.
  unfold unsubscribe. case_match; [|done]. case_match; [|done]. cbv zeta. case_match; [|done].
  unfold store_remove. repeat case_match; try change (account (set_maps ?x _ _)) with (account x); by rewrite account_send.
Qed.

Lemma account_append (b : bool) e k : account (if b then k else put k (append_op e)) = account k.
Proof. destruct b; [done|]. apply account_put. unfold append_op. by repeat case_match. Qed.

Lemma mutation_remembers busy path args u transient entropy now : keeps remembers (mutation busy path args u transient entropy now).
Proof.
  apply remembers_bind; [apply remembers_lift|]. intros j. apply remembers_read. intros k. cbv zeta.
  destruct (over_capacity _ _); [apply remembers_account; by apply account_put|].
  set (ob := if transient then None else k_outbox k). set (n := k_nextRequestId k).
  unfold bind at 1. cbn [modify]. unfold bind at 1. cbn [modify].
  set (k1 := match ob with Some b => set_outbox _ _ | None => _ end).
  assert (E1 : account k1 = account (set_ids k (k_nextQueryId k) (n + 1))) by (unfold k1; by destruct ob).
  assert (Hk1 : remembers k k1) by (etrans; [apply (remembers_ids k (k_nextQueryId k))|by apply remembers_account]).
  set (e := match ob with Some b => _ | None => _ end).
  unfold bind at 1. pose proof (account_initiate e k1) as Ei. destruct (initiate e k1) as [k2 [[]|err]]; cbn [fst] in Ei.
  - unfold bind at 1. cbn [modify]. trans (callback_add (js_string_of n) k2).
    + intros Hk. destruct (Hk1 Hk) as [Hk1' _]. destruct (remembers_account k1 k2 Ei Hk1') as [Hk2 _].
      rewrite E1 in Ei. injection Ei as Ec Es En.
      assert (Hp : promised k2 = promised k) by (unfold promised; by rewrite Ec, Es).
      rewrite <-Hp. apply remembers_new; [done|lia|unfold n; apply Hk|]. rewrite Hp.
      destruct Hk as [_ H2 H3]. intros (m & Hm & E)%H2. apply js_string_of_inj in E; lia.
    + refine (remembers_bind _ _ _ (fun _ => silent _ (account_append (is_none ob) e)) _). apply silent, account_queue.
  - etrans; [exact Hk1|]. by apply remembers_account.
Qed.

Lemma action_remembers path args : keeps remembers (action path args).
Proof.
  apply remembers_read. intros k. cbv zeta. refine (remembers_bind _ _ _ _ k).
  - apply effect. intros k0. etrans; [apply (remembers_ids k0 (k_nextQueryId k0))|by apply remembers_account].
  - intros _. apply remembers_bind; [apply remembers_lift|]. intros j. apply silent. intros k0. apply account_send.
Qed.

Lemma hydrate_remembers e u k : remembers k (addHydratedEntry e u k).
Proof.
  unfold addHydratedEntry. case_match; [apply remembers_account, account_outbox_do|]. case_match; [done|]. cbv zeta. set (k1 := with_outbox _ k).
  assert (E1 : account k1 = account k) by apply account_with_outbox. etrans; [apply remembers_account, E1|].
  etrans; [apply (remembers_ids k1 (k_nextQueryId k1))|]. apply remembers_account. by rewrite account_hydrated.
Qed.

Lemma closed_remembers k : remembers k (onTransportClosed k).
Proof.
  unfold onTransportClosed. cbv zeta. set (k1 := set_resumeSince _ _).
  assert (E1 : account k1 = account k) by exact (account_with_outbox (ob_set_connectSent false) (set_closed true k)).
  set (armed := match k_outbox k1 with Some ob => ob_armed ob | None => false end).
  pose proof (account_close armed k1) as E2. destruct (closeSession armed k1) as [k2 [rej prk]]. cbn [fst] in E2.
  etrans; [apply remembers_account; exact (eq_trans E2 E1)|].
  etrans; [apply (remembers_fold (fun k rid => rejectPending rid RejectUndelivered k) rej); intros; apply remembers_reject|].
  set (k3 := fold_left _ rej k2). apply remembers_account.
  change (account (set_actions ?x [])) with (account x). rewrite account_put by by (induction (k_actions _)).
  apply account_fold. intros k0 rid. repeat case_match; [apply account_outbox_do|done..].
Qed.

Lemma reopened_account k : account (onTransportReopened k) = account k.
Proof.
  unfold onTransportReopened. cbv zeta. set (k1 := resync _).
  assert (E1 : account k1 = account k).
  { unfold k1. rewrite account_resync, account_capability. case_match; by rewrite ?account_send. }
  destruct (k_outbox k1); [|by rewrite (account_fold flush_unsent) by apply account_flush].
  rewrite account_nudge. unfold initiateHandshake. case_match; [|done]. case_match; [done|].
  rewrite account_sendConnect. unfold beginBaselineAwait. case_match; by rewrite ?account_baseline, !account_with_outbox.
Qed.

Lemma durable_account rid k : account (append_resolved rid k) = account k.
Proof. unfold append_resolved. rewrite account_nudge. by case_match. Qed.

(** ** Messages *)

Lemma settle_failed_remembers v message code k : remembers k (settle_failed v message code k).
Proof.
  unfold settle_failed. cbv zeta. destruct (findOutboxEntry k _ _) as [e|].
  - etrans; [apply (remembers_reject (pm_requestId e) (RejectServer message code))|]. apply remembers_account.
    case_match; by rewrite ?account_notify, account_failure, account_outbox_do.
  - apply remembers_account. by rewrite account_notify, account_outbox_do.
Qed.

Lemma settleVerdict_remembers v : keeps remembers (settleVerdict v).
Proof.
  intros k. unfold settleVerdict. cbv zeta.
  destruct (cv_verdict v); [|apply settle_failed_remembers|apply settle_failed_remembers|done].
  destruct (if cv_valueMissing v then _ else _) as [val|e]; [|done].
  destruct (findOutboxEntry k _ _) as [e|]; cbn [fst].
  - etrans; [apply (remembers_resolve (pm_requestId e) val)|]. apply remembers_account. by rewrite account_dropAfter, account_outbox_do.
  - apply remembers_account, account_outbox_do.
Qed.

Lemma reject_parked_remembers oldId e k : remembers k (reject_parked oldId e k).
Proof.
  unfold reject_parked. cbv zeta. set (k1 := match _ with Some c => match pm_seq e with Some q => outbox_do _ k | None => k end | None => k end).
  assert (E1 : account k1 = account k) by (unfold k1; repeat case_match; by rewrite ?account_outbox_do).
  etrans; [apply remembers_account, E1|]. etrans; [apply (remembers_reject (pm_requestId e) RejectReset)|].
  apply remembers_account. case_match; by rewrite ?account_notify, account_failure.
Qed.

Lemma re_enqueue_account oldId fresh now e k : account (re_enqueue oldId fresh now e k) = account k.
Proof.
  unfold re_enqueue. cbv zeta. set (k1 := match _ with Some c => match pm_seq e with Some q => outbox_do _ k | None => k end | None => k end).
  assert (E1 : account k1 = account k) by (unfold k1; repeat case_match; by rewrite ?account_outbox_do).
  destruct (k_outbox k1); [|done]. case_match; [|done]. rewrite (account_append false). done.
Qed.

Lemma clientReset_remembers fresh now k : remembers k (onClientReset fresh now k).
Proof.
  unfold onClientReset. destruct (k_outbox k) as [ob|]; [|apply remembers_account; by apply account_put]. cbv zeta.
  set (k1 := with_outbox _ k). assert (E1 : account k1 = account k) by apply account_with_outbox.
  etrans; [apply remembers_account, E1|].
  assert (Hf : forall l acc, remembers acc.1 (fold_left (reset_entry_ (ob_clientId ob) fresh now) l acc).1).
  { induction l as [|e l IH]; intros [k0 [re rj]]; [done|]. cbn [fold_left]. etrans; [|apply IH]. cbn [fst].
    unfold reset_entry_. case_match; [apply reject_parked_remembers|].
    case_match; [apply remembers_account, re_enqueue_account|done]. }
  specialize (Hf (client_log_entries k1) (k1, (0, 0))). destruct (fold_left _ _ (k1, (0, 0))) as [k2 [re rj]].
  etrans; [exact Hf|]. apply remembers_account. rewrite account_put by done. case_match; [by apply account_put|done].
Qed.

Lemma connectAck_remembers known results d fresh now : keeps remembers (handleConnectAck known results d fresh now).
Proof.
  apply remembers_bind; [apply silent; intros; apply account_with_outbox|]. intros _. apply remembers_bind.
  - apply silent. intros k. repeat case_match; [apply account_outbox_do|done..].
  - intros _. destruct known; cbn [negb].
    + apply remembers_bind; [apply keeps_for_each; [apply _..|]; intros; apply settleVerdict_remembers|]. intros _.
      apply silent. intros; apply account_nudge.
    + apply effect. intros k. etrans; [apply clientReset_remembers|]. apply remembers_account, account_nudge.
Qed.

Lemma ingest_mod_remembers m u : keeps remembers (ingest_mod (fun _ => resync) m u).
Proof.
  intros k. apply remembers_account. unfold ingest_mod. destruct m as [qid v hash|qid e|qid|qid|qid changes checksum reset hash].
  - destruct (jm_get _ qid) as [r|]; [|done]. destruct (jsonToConvex v); [|done]. cbn. by rewrite account_update_sub.
  - destruct (jm_get _ qid) as [r|]; [|done]. cbn [mbind option_bind]. destruct (sub_at k r) as [s|]; [|done].
    cbn [mbind option_bind fst]. rewrite account_put; [done|]. unfold error_outputs. by induction (base.filter _ _).
  - done.
  - destruct (jm_get _ qid) as [r|]; [|done]. cbn [mbind option_bind]. by destruct (sub_at k r).
  - destruct (jm_get _ qid) as [r|]; [|done]. cbn [mbind option_bind]. destruct (sub_at k r) as [s|]; [|done].
    cbn [mbind option_bind]. unfold ingest_diff. destruct (no_render_mode s reset).
    + unfold bind, modify. cbn. by rewrite account_resync, account_update_sub.
    + unfold bind, modify. pose proof (account_applyDiff r s changes checksum reset k) as Ea.
      destruct (applyDiff _ _ _ _ _ k) as [k1 [[]|e]]; cbn in *; by rewrite ?account_resync, ?account_update_sub.
Qed.

Lemma ingest_mods_remembers ms u : keeps remembers (ingest_mods (fun _ => resync) ms u).
Proof.
  revert u. induction ms as [|m ms IH]; intros u; [apply keeps_ret, _|].
  apply remembers_bind; [apply ingest_mod_remembers|]. intros u'. apply IH.
Qed.

Lemma transition_remembers st en ms : keeps remembers (on_transition st en ms).
Proof.
  assert (Ha : keeps remembers (adopt en ms)).
  { apply remembers_bind; [|intros _; by apply silent]. apply remembers_bind; [by apply silent|]. intros _.
    apply remembers_bind; [apply ingest_mods_remembers|]. intros u. apply silent. intros k.
    rewrite account_rebuild. apply account_fold. intros k0 e. unfold drop_covered. by case_match. }
  assert (Hb : keeps remembers (modify adopted)) by (apply silent, account_adopted).
  apply remembers_read. intros k. destruct (cn_resyncing _); [|destruct (negb _)].
  - refine (remembers_bind _ _ Ha _ k). intros _. apply remembers_bind; [by apply silent|]. by intros _.
  - apply remembers_account, account_resync.
  - refine (remembers_bind _ _ Ha _ k). by intros _.
Qed.

Lemma failure_remembers rid e code k : remembers k (on_failure rid e code k).
Proof.
  unfold on_failure. cbv zeta. etrans; [apply (remembers_reject rid (RejectServer e code))|]. apply remembers_account.
  set (k1 := onMutationFailure rid _).
  set (k2 := match _ with Some c => match _ with Some q => outbox_do _ k1 | None => k1 end | None => k1 end).
  assert (E2 : account k2 = account k1) by (unfold k2; repeat case_match; by rewrite ?account_outbox_do).
  assert (E1 : account k1 = account (rejectPending rid (RejectServer e code) k)) by apply account_failure.
  case_match; by rewrite ?account_notify, E2, E1.
Qed.

(** Only an answer that does not decode loses a promise, and its handler
    throws. *)
Lemma success_remembers rid v ts now : keeps_ok remembers (on_success rid v ts now).
Proof.
  assert (Hrest : forall e, keeps remembers (modify (onMutationSuccess rid ts now);;
    modify (fun k => match e with
                     | Some e => match pm_clientId e, pm_seq e with Some c, Some q => outbox_do (ObDequeue c q) k | _, _ => k end
                     | None => k
                     end))).
  { intros e. apply remembers_bind; [apply silent, account_success|]. intros _. apply silent. intros k.
    repeat case_match; by rewrite ?account_outbox_do. }
  intros k k' x. unfold on_success. unfold bind at 1. cbn [gets]. cbv zeta. unfold bind at 1. cbn [modify].
  unfold has_callback. case_bool_decide as Hc.
  - unfold bind at 1 2. cbn [lift]. destruct (jsonToConvex (default JNull v)) as [val|e]; [|done]. cbn [modify].
    intros E. etrans; [apply (settle_remembers rid (OResolve rid val) k eq_refl Hc)|].
    by eapply (keeps_keeps_ok _ _ (Hrest (log_get k rid))).
  - unfold bind at 1. cbn [ret]. intros E.
    assert (Ec : account (callback_remove rid k) = account k).
    { unfold account. cbn. f_equal. f_equal. induction (k_callbacks k) as [|c cs IH]; [done|]. rewrite filter_cons.
      rewrite decide_True by (intros ->; apply Hc; by left). f_equal. apply IH. intros Hin. apply Hc. by right. }
    etrans; [apply remembers_account, Ec|]. by eapply (keeps_keeps_ok _ _ (Hrest (log_get k rid))).
Qed.

Lemma message_remembers m fresh now : keeps_ok remembers (onServerMessage m fresh now).
Proof.
  destruct m as [st en ms|rid v ts ? ?|rid e code|rid v|rid e|known results d|topic event]; cbn [onServerMessage].
  - apply keeps_keeps_ok, transition_remembers.
  - apply success_remembers.
  - apply keeps_keeps_ok, effect, failure_remembers.
  - apply keeps_keeps_ok, remembers_read. intros k. case_bool_decide; [|done].
    refine (remembers_bind _ _ _ _ k); [by apply silent|]. intros _. apply remembers_bind; [apply remembers_lift|].
    intros val. apply silent. intros k0. by apply account_put.
  - apply keeps_keeps_ok, remembers_read. intros k. case_bool_decide; [|done].
    refine (remembers_bind _ _ _ _ k); [by apply silent|]. intros _. apply silent. intros k0. by apply account_put.
  - apply keeps_keeps_ok, connectAck_remembers.
  - apply keeps_keeps_ok, remembers_bind; [apply remembers_lift|]. intros val. apply silent. intros k0. apply account_put.
    by induction (k_broadcast k0).
Qed.

(** * Runs *)

Lemma step_remembers k e : handled k e -> remembers k (client_step k e).1.
Proof.
  intros Hh. destruct e as [path args l|hash l|path args u tr en now|rid|path args|t|t|l|e u|m fresh now|rid| |]; cbn [client_step fst].
  - apply subscribe_remembers.
  - apply remembers_account, unsubscribe_account.
  - apply mutation_remembers.
  - apply remembers_account, durable_account.
  - apply action_remembers.
  - apply remembers_account. unfold setAuth. cbv zeta. case_match; by rewrite ?account_with_outbox, account_send.
  - apply remembers_account. unfold digest_resolved. case_match; by rewrite ?account_with_outbox.
  - by apply remembers_account.
  - apply hydrate_remembers.
  - cbn in Hh. destruct Hh as [x Hx]. apply (message_remembers m fresh now k _ x). by rewrite <-Hx, <-surjective_pairing.
  - apply remembers_account. case_bool_decide; [apply account_timeout|done].
  - apply closed_remembers.
  - apply remembers_account, reopened_account.
Qed.
End settle.
