(* ===== verification/OutboxDrain.v ===== *)
(** The drain of the durable outbox: queued mutations go out in chunks, in
    order, one chunk at a time; each unit's answer settles it, and what is not
    answered is queued again: packages/client/src/outbox-drain.ts, with its
    host in client.ts.

    The asynchronous steps of the drain (leadership, the load of the queue, a
    wake-up, the continuation after the baseline, the backoff timer) are events
    of their own, in any order.

    Runs of a client with its drain: the invariants of the client hold over
    them. *)
From Stdlib Require Import ZArith Lia.
From stdpp Require Import base list strings sets.
From S2P Require Import Prelude JsBase JsText Values ValuesJson DocStore StateRes RowDiff ReadIndex SyncProtocol ClientState Reconciler ClientSession ClientInvariant ClientRun ClientSettle.
#[local] Open Scope stm_scope.

(** * The host: client.ts *)

Definition is_drainable (e : pending) : bool :=
  negb (is_none (pm_clientId e)) && negb (is_none (pm_seq e)) && pm_durable e && (is_unsent (pm_status e) || is_parked (pm_status e)).
Definition compare_order (a b : pending) : comparison := default 0 (pm_order a) ?= default 0 (pm_order b).
Definition drainableEntries (k : client) : list pending :=
  js_sort compare_order (base.filter (fun e => is_drainable e = true) (client_log_entries k)).

Definition status_op (e : pending) (inflight : bool) (k : client) : client :=
  match pm_clientId e, pm_seq e with Some c, Some q => outbox_do (ObStatus c q inflight) k | _, _ => k end.
(** The entry object may have left the log. *)
Definition drain_setStatus (inflight : bool) (e : pending) (k : client) : client :=
  let st := if inflight then Inflight else Unsent in
  status_op e inflight (match log_get k (pm_requestId e) with Some e' => log_add k (with_status e' st) | None => k end).

Definition entry_ref (e : option pending) : option (jsstr * Z) :=
  e ← e; c ← pm_clientId e; q ← pm_seq e; Some (c, q).

Definition hasUndeliveredSubscription (k : client) : bool := existsb (fun s => negb (q_answered s)) (subs_by_id k).

Section host.
Context `{JsHost}.

Definition drainSettleApplied (rid : jsstr) (v : value) (replayed : bool) (ts : option Z) (now : Z) (k : client) : client :=
  let e := log_get k rid in
  let k := resolvePending rid v k in
  let k := match entry_ref e with Some (c, q) => outbox_do (ObDequeue c q) k | None => k end in
  match e with
  | None => k
  | Some _ => if replayed then dropAfterBaseline rid k else onMutationSuccess rid ts now k
  end.

Definition drainSettleTerminal (rid : jsstr) (code : option jsstr) (message : jsstr) (k : client) : client :=
  let e := log_get k rid in
  let hadAwaiter := has_callback k rid in
  let k := rejectPending rid (RejectServer message code) k in
  let k := match entry_ref e with Some (c, q) => outbox_do (ObMarkFailed c q message code) k | None => k end in
  let k := onMutationFailure rid k in
  if hadAwaiter then k
  else notifyMutationFailed (x ← e; pm_clientId x) (x ← e; pm_seq x)
         (match e with Some x => pm_udfPath x | None => js "unknown" end) message code k.
End host.

(** * outbox-drain.ts *)

Inductive poison_policy := Skip | Pause.
#[global] Instance poison_policy_eq_dec : EqDecision poison_policy.
Proof. solve_decision. Defined.

(** The units of the chunk in flight; [dr_wait] is the flush waiting for the
    baseline, [Some true] once it is released. *)
Record drain := Drain
  { dr_leader : bool; dr_stopped : bool; dr_paused : bool; dr_hydrated : bool;
    dr_active : option (list (jsstr * pending)); dr_wait : option bool; dr_attempts : Z; dr_backoff : bool }.
Definition drain_new : drain := Drain false false false false None None 0 false.

Definition set_active (d : drain) (a : option (list (jsstr * pending))) : drain :=
  Drain (dr_leader d) (dr_stopped d) (dr_paused d) (dr_hydrated d) a (dr_wait d) (dr_attempts d) (dr_backoff d).
Definition set_wait (d : drain) (w : option bool) : drain :=
  Drain (dr_leader d) (dr_stopped d) (dr_paused d) (dr_hydrated d) (dr_active d) w (dr_attempts d) (dr_backoff d).
Definition set_attempts (d : drain) (n : Z) : drain :=
  Drain (dr_leader d) (dr_stopped d) (dr_paused d) (dr_hydrated d) (dr_active d) (dr_wait d) n (dr_backoff d).
Definition set_backoff (d : drain) (b : bool) : drain :=
  Drain (dr_leader d) (dr_stopped d) (dr_paused d) (dr_hydrated d) (dr_active d) (dr_wait d) (dr_attempts d) b.
Definition set_paused (d : drain) (b : bool) : drain :=
  Drain (dr_leader d) (dr_stopped d) b (dr_hydrated d) (dr_active d) (dr_wait d) (dr_attempts d) (dr_backoff d).
Definition set_leader (d : drain) (b : bool) : drain :=
  Drain b (dr_stopped d) (dr_paused d) (dr_hydrated d) (dr_active d) (dr_wait d) (dr_attempts d) (dr_backoff d).
Definition set_hydrated (d : drain) : drain :=
  Drain (dr_leader d) (dr_stopped d) (dr_paused d) true (dr_active d) (dr_wait d) (dr_attempts d) (dr_backoff d).
Definition set_stopped (d : drain) : drain :=
  Drain false true (dr_paused d) (dr_hydrated d) None (dr_wait d) (dr_attempts d) false.

(** The client and its drain. *)
Record dclient := DClient { dc_client : client; dc_drain : drain }.
Definition on_client (f : client -> client) (s : dclient) : dclient := DClient (f (dc_client s)) (dc_drain s).
Definition on_drain (f : drain -> drain) (s : dclient) : dclient := DClient (dc_client s) (f (dc_drain s)).

Definition transportOpen (k : client) : bool := negb (cn_closed (k_conn k)).
Definition isArmed (k : client) : bool := match k_outbox k with Some ob => ob_armed ob | None => false end.
Definition currentFingerprint (k : client) : jsstr := match k_outbox k with Some ob => ob_fingerprint ob | None => anon end.

Definition canDrain (s : dclient) : bool :=
  let d := dc_drain s in let k := dc_client s in
  dr_leader d && negb (dr_stopped d) && negb (dr_paused d) && is_none (dr_active d) &&
  transportOpen k && isArmed k && (0 <? Z.of_nat (length (drainableEntries k))).

(** [whenBaselineAdopted]: a resolved promise when no baseline is awaited. *)
Definition maybeDrainNext (s : dclient) : dclient :=
  if negb (is_none (dr_wait (dc_drain s))) || negb (canDrain s) then s
  else on_drain (fun d => set_wait d (Some (negb (awaiting_baseline (dc_client s))))) s.

Definition handles (d : drain) (rid : jsstr) : bool :=
  match dr_active d with Some m => jm_has m rid | None => false end.
Definition hasActiveChunk (d : drain) : bool := negb (is_none (dr_active d)).

Definition revertActive (s : dclient) : dclient :=
  match dr_active (dc_drain s) with
  | None => s
  | Some m => DClient (fold_left (fun k e => drain_setStatus false e k) (jm_values m) (dc_client s)) (set_active (dc_drain s) None)
  end.

(** The drain's part in a close of the transport. *)
Definition drain_onTransportClosed (s : dclient) : dclient :=
  on_drain (fun d => set_backoff (set_attempts d 0) false) (revertActive s).

(** A unit settled: an empty chunk is done. *)
Definition onForwardProgress (s : dclient) : dclient :=
  let s := on_drain (fun d => set_attempts d 0) s in
  match dr_active (dc_drain s) with
  | Some [] => on_drain (fun d => set_active d None) s
  | _ => s
  end.

Definition active_delete (rid : jsstr) (s : dclient) : dclient :=
  on_drain (fun d => set_active d ((fun m => jm_delete m rid) <$> dr_active d)) s.

Section drain.
Context `{JsHost} (policy : poison_policy) (chunkSize : nat).

Definition OFFLINE_IDENTITY_CHANGED : jsstr := js "OFFLINE_IDENTITY_CHANGED".
Definition identity_message (e : pending) : jsstr :=
  js "mutation " ++ [34] ++ pm_udfPath e ++ [34] ++ js " dropped: the session identity changed since it was queued".
Definition failed_message (e : pending) : jsstr := js "mutation " ++ [34] ++ pm_udfPath e ++ [34] ++ js " failed".
Definition other_identity (fp : jsstr) (e : pending) : bool :=
  match pm_fingerprint e with Some f => negb (bool_decide (f = fp)) | None => false end.

(** The loop over the queue: the client, and the chunk so far. *)
Fixpoint flush_loop (fp : jsstr) (queue : list pending) (k : client) (chunk : list pending) : client * list pending :=
  match queue with
  | [] => (k, chunk)
  | e :: queue' =>
      if (chunkSize <=? length chunk)%nat then (k, chunk)
      else if other_identity fp e then
        flush_loop fp queue' (drainSettleTerminal (pm_requestId e) (Some OFFLINE_IDENTITY_CHANGED) (identity_message e) k) chunk
      else flush_loop fp queue' (drain_setStatus true e k) (chunk ++ [e])
  end.

Definition chunk_map (chunk : list pending) : list (jsstr * pending) :=
  fold_left (fun m e => jm_set m (pm_requestId e) e) chunk [].

Definition flushChunk (s : dclient) : dclient :=
  let k := dc_client s in
  let '(k, chunk) := flush_loop (currentFingerprint k) (drainableEntries k) k [] in
  match chunk with
  | [] => DClient k (dc_drain s)
  | _ => DClient (transport_send (MMutationBatch (mutationMessage <$> chunk)) k) (set_active (dc_drain s) (Some (chunk_map chunk)))
  end.

(** The continuation after the baseline. *)
Definition drain_continue (s : dclient) : dclient :=
  on_drain (fun d => set_wait d None) (if canDrain s then flushChunk s else s).

(** The value of an answer. *)
Definition resolveResponseValue (v : option json) (valueMissing : bool) : res value :=
  if valueMissing then Ok VNull else match v with Some j => jsonToConvex j | None => Ok VNull end.

(** Decoding comes after the unit has left the chunk. *)
Definition response_ok (rid : jsstr) (v : option json) (ts : option Z) (replayed valueMissing : bool) (now : Z) : stm dclient unit :=
  modify (active_delete rid);;
  let* val := lift (resolveResponseValue v valueMissing) in
  modify (on_client (drainSettleApplied rid val replayed ts now));;
  modify onForwardProgress.

Definition response_failed (rid : jsstr) (code : option jsstr) (s : dclient) : dclient :=
  match m ← dr_active (dc_drain s); jm_get m rid with
  | None => s
  | Some e =>
      match code with
      | Some code =>
          match policy with
          | Pause =>
              let s := on_drain (fun d => set_paused d true) s in
              revertActive (on_client (fun k => put k [OPaused rid (pm_udfPath e) code]) s)
          | Skip =>
              let s := active_delete rid s in
              onForwardProgress (on_client (drainSettleTerminal rid (Some code) (failed_message e)) s)
          end
      | None =>
          let s := on_drain (fun d => set_attempts d (dr_attempts d + 1)) s in
          on_drain (fun d => set_backoff d true) (revertActive s)
      end
  end.

(** Leadership, and the load of the durable queue. *)
Definition drain_hydrate (entries : list (outbox_entry * bool)) (registry : jsstr -> option (value -> updater)) (s : dclient)
    : dclient :=
  if dr_hydrated (dc_drain s) || dr_stopped (dc_drain s) then s
  else
    let s := on_drain set_hydrated s in
    let s := on_client (fun k => fold_left (fun k eb => if eb.2 : bool then addHydratedEntry eb.1 (registry (oe_udfPath eb.1)) k else k)
                          entries k) s in
    let k := dc_client s in
    let s := if transportOpen k && (0 <? Z.of_nat (length (drainableEntries k)))
             then on_client (initiateHandshake (hasUndeliveredSubscription k)) s else s in
    maybeDrainNext s.

Definition drain_resume (s : dclient) : dclient :=
  if dr_paused (dc_drain s) then on_drain (fun d => set_attempts (set_paused d false) 0) s else s.

(** * The client with its drain *)

Definition is_baseline_out (o : client_out) : bool := match o with OBaseline => true | _ => false end.
(** A baseline adopted by the step releases the flush that waits for it. *)
Definition release (s s' : dclient) : dclient :=
  if existsb is_baseline_out (drop (length (k_out (dc_client s))) (k_out (dc_client s'))) then
    on_drain (fun d => set_wait d (match dr_wait d with Some _ => Some true | None => None end)) s'
  else s'.

Definition lift_client {A} (m : stm client A) : stm dclient A := fun s =>
  let '(k, r) := m (dc_client s) in (DClient k (dc_drain s), r).

Definition d_message (m : server_message) (fresh : jsstr) (now : Z) : stm dclient unit := fun s =>
  match m with
  | MutationOk rid v ts replayed valueMissing =>
      if handles (dc_drain s) rid then response_ok rid v ts replayed valueMissing now s
      else lift_client (onServerMessage m fresh now) s
  | MutationFailed rid e code =>
      if handles (dc_drain s) rid then (response_failed rid code s, Ok tt)
      else lift_client (onServerMessage m fresh now) s
  | _ => lift_client (onServerMessage m fresh now) s
  end.

Inductive drain_event :=
  | DvClient (e : client_event)
  | DvLead
  | DvHydrate (entries : list (outbox_entry * bool)) (registry : jsstr -> option (value -> updater))
  | DvWake
  | DvContinue
  | DvBackoff
  | DvResume
  | DvStop.

Definition d_client_step (s : dclient) (e : client_event) : dclient * res unit :=
  match e with
  | CvMutation path args u tr en now =>
      lift_client (mutation (hasActiveChunk (dc_drain s)) path args u tr en now) s
  | CvMessage m fresh now => d_message m fresh now s
  | CvClosed => (on_client onTransportClosed (drain_onTransportClosed s), Ok tt)
  | _ => lift_client (fun k => client_step k e) s
  end.

Definition d_step (s : dclient) (e : drain_event) : dclient * res unit :=
  match e with
  | DvClient e => let '(s', r) := d_client_step s e in (release s s', r)
  | DvLead => (if dr_stopped (dc_drain s) then s else on_drain (fun d => set_leader d true) s, Ok tt)
  | DvHydrate es registry =>
      (if dr_leader (dc_drain s) then release s (drain_hydrate es registry s) else s, Ok tt)
  | DvWake => (if dr_leader (dc_drain s) then maybeDrainNext s else s, Ok tt)
  | DvContinue => (match dr_wait (dc_drain s) with Some true => drain_continue s | _ => s end, Ok tt)
  | DvBackoff => (if dr_backoff (dc_drain s) then maybeDrainNext (on_drain (fun d => set_backoff d false) s) else s, Ok tt)
  | DvResume => (drain_resume s, Ok tt)
  | DvStop => (if dr_stopped (dc_drain s) then s else on_drain set_stopped s, Ok tt)
  end.

Definition d_run (s : dclient) (es : list drain_event) : dclient := fold_left (fun s e => (d_step s e).1) es s.
End drain.
#[local] Open Scope stm_scope.

(** * Both invariants at once *)

(** A step keeps the layers right, and forgets no promise. *)
Definition good (k k' : client) : Prop := kept k k' /\ remembers k k'.
#[export] Instance good_refl : Reflexive good.
Proof. by intros k. Qed.
#[export] Instance good_trans : Transitive good.
Proof. intros a b c [H1 H2] [H3 H4]. split; etrans; eauto. Qed.

Definition dgood (s s' : dclient) : Prop := good (dc_client s) (dc_client s').
#[export] Instance dgood_refl : Reflexive dgood.
Proof. intros s. unfold dgood. done. Qed.
#[export] Instance dgood_trans : Transitive dgood.
Proof. intros a b c H1 H2. unfold dgood in *. by etrans. Qed.

Lemma good_eq k k' : core k' = core k -> account k' = account k -> good k k'.
Proof. intros Hc Ha. split; [intros Hk; by apply (cinv_core k)|by apply remembers_account]. Qed.
Lemma good_fold {A} (f : client -> A -> client) l k : (forall k x, good k (f k x)) -> good k (fold_left f l k).
Proof. intros Hf. revert k. induction l as [|x l IH]; intros k; [done|]. cbn. etrans; [apply Hf|apply IH]. Qed.

Section run.
Context `{JsHost} (policy : poison_policy) (chunkSize : nat).

Lemma good_status_op e b k : good k (status_op e b k).
Proof. unfold status_op. repeat case_match; try done. by apply good_eq; [apply core_outbox_do|apply account_outbox_do]. Qed.

Lemma good_setStatus b e k : good k (drain_setStatus b e k).
Proof.
  unfold drain_setStatus. cbv zeta. etrans; [|apply good_status_op].
  destruct (log_get k (pm_requestId e)) as [e'|] eqn:Hg; [|done]. split; [|by apply remembers_account].
  intros Hk. destruct b; [exact (cinv_status k _ e' Inflight Hg eq_refl Hk)|exact (cinv_status k _ e' Unsent Hg eq_refl Hk)].
Qed.

Lemma good_reject rid r k : good k (rejectPending rid r k).
Proof. split; [apply (pres_core (rejectPending rid r)); intros; apply core_reject|apply remembers_reject]. Qed.
Lemma good_resolve rid v k : good k (resolvePending rid v k).
Proof. split; [apply (pres_core (resolvePending rid v)); intros; apply core_resolve|apply remembers_resolve]. Qed.
Lemma good_outbox op k : good k (outbox_do op k).
Proof. by apply good_eq; [apply core_outbox_do|apply account_outbox_do]. Qed.

Lemma good_settleApplied rid v replayed ts now k : good k (drainSettleApplied rid v replayed ts now k).
Proof.
  unfold drainSettleApplied. cbv zeta. set (k1 := match entry_ref _ with Some (c, q) => _ | None => _ end).
  assert (H1 : good k k1).
  { etrans; [apply (good_resolve rid v)|]. unfold k1. destruct (entry_ref _) as [[c q]|]; [apply good_outbox|done]. }
  etrans; [exact H1|]. destruct (log_get k rid); [|done]. destruct replayed.
  - split; [apply pres_dropAfterBaseline|apply remembers_account, account_dropAfter].
  - split; [apply pres_success|apply remembers_account, account_success].
Qed.

Lemma good_settleTerminal rid code message k : good k (drainSettleTerminal rid code message k).
Proof.
  unfold drainSettleTerminal. cbv zeta. etrans; [apply (good_reject rid (RejectServer message code))|].
  set (k1 := match entry_ref _ with Some (c, q) => _ | None => _ end).
  assert (H1 : good (rejectPending rid (RejectServer message code) k) k1).
  { unfold k1. destruct (entry_ref _) as [[c q]|]; [apply good_outbox|done]. }
  etrans; [exact H1|]. etrans; [split; [apply pres_failure|apply remembers_account, (account_failure rid k1)]|].
  destruct (has_callback k rid); [done|]. apply good_eq; [apply core_notify|apply account_notify].
Qed.

Lemma good_flush_loop fp queue k chunk : good k (flush_loop chunkSize fp queue k chunk).1.
Proof.
  revert k chunk. induction queue as [|e queue IH]; intros k chunk; cbn [flush_loop]; [done|].
  destruct (_ <=? _)%nat; [done|]. destruct (other_identity fp e).
  - etrans; [apply good_settleTerminal|apply IH].
  - etrans; [apply (good_setStatus true e)|apply IH].
Qed.

Lemma good_send m k : good k (transport_send m k).
Proof. apply good_eq; [done|apply account_send]. Qed.

Lemma dgood_flush s : dgood s (flushChunk chunkSize s).
Proof.
  unfold dgood, flushChunk. pose proof (good_flush_loop (currentFingerprint (dc_client s)) (drainableEntries (dc_client s))
    (dc_client s) []) as Hf.
  destruct (flush_loop _ _ _ _ _) as [k chunk]. cbn [fst] in Hf. destruct chunk as [|e chunk]; cbn [dc_client]; [exact Hf|].
  etrans; [exact Hf|apply good_send].
Qed.

Lemma dgood_revert s : dgood s (revertActive s).
Proof.
  unfold dgood, revertActive. destruct (dr_active (dc_drain s)); [|done]. cbn [dc_client].
  apply good_fold. intros k e. apply good_setStatus.
Qed.
Lemma dgood_wake s : dgood s (maybeDrainNext s).
Proof. unfold dgood, maybeDrainNext. by case_match. Qed.
Lemma dgood_progress s : dgood s (onForwardProgress s).
Proof. unfold dgood, onForwardProgress. cbn. by repeat case_match. Qed.
Lemma dgood_drain f s : dgood s (on_drain f s).
Proof. unfold dgood. done. Qed.
Lemma dgood_release s s' : dgood s' (release s s').
Proof. unfold dgood, release. by case_match. Qed.

Lemma dgood_response_failed rid code s : dgood s (response_failed policy rid code s).
Proof.
  unfold response_failed. destruct (m ← _; _) as [e|]; [|done]. destruct code as [code|]; [destruct policy|]; cbv zeta.
  - etrans; [|apply dgood_progress]. unfold dgood. cbn. apply good_settleTerminal.
  - etrans; [|apply dgood_revert]. unfold dgood. cbn. by apply good_eq; [|apply account_put].
  - etrans; [apply dgood_drain|]. etrans; [apply dgood_revert|apply dgood_drain].
Qed.

Lemma dgood_response_ok rid v ts replayed missing now : keeps dgood (response_ok rid v ts replayed missing now).
Proof.
  apply keeps_bind; [apply _|by apply keeps_modify; intros; apply dgood_drain|]. intros _.
  apply keeps_bind; [apply _|apply keeps_lift, _|]. intros val.
  apply keeps_bind; [apply _| |intros _]; apply keeps_modify; intros s; [|apply dgood_progress].
  unfold dgood. cbn. apply good_settleApplied.
Qed.

Lemma good_handshake b k : good k (initiateHandshake b k).
Proof.
  unfold initiateHandshake. destruct (k_outbox k); [|done]. destruct (_ || _); [done|].
  set (k2 := with_outbox (ob_set_awaiting b) (with_outbox (ob_set_connectSent true) k)).
  assert (Hs : good (beginBaselineAwait b (with_outbox (ob_set_connectSent true) k))
                 (sendConnect (beginBaselineAwait b (with_outbox (ob_set_connectSent true) k)))).
  { apply good_eq; [apply core_sendConnect|apply account_sendConnect]. }
  etrans; [|exact Hs]. unfold beginBaselineAwait. fold k2.
  assert (H2 : good k k2) by (apply good_eq; unfold k2; by rewrite ?core_with_outbox, ?account_with_outbox).
  destruct b; [exact H2|]. etrans; [exact H2|]. split; [apply pres_baseline|apply remembers_account, account_baseline].
Qed.

Lemma dgood_hydrate es registry s : dgood s (drain_hydrate es registry s).
Proof.
  unfold drain_hydrate. destruct (_ || _); [done|]. cbv zeta. etrans; [|apply dgood_wake].
  set (s1 := on_client _ _). assert (H1 : dgood s s1).
  { unfold dgood, s1. cbn. apply good_fold. intros k [e b]. cbn. destruct b; [|done].
    split; [apply pres_hydrate|apply hydrate_remembers]. }
  etrans; [exact H1|]. case_match; [|done]. unfold dgood. cbn. apply good_handshake.
Qed.

(** * Steps and runs *)

(** No handler of a server message has thrown. *)
Definition d_handled (s : dclient) (e : drain_event) : Prop :=
  match e with DvClient (CvMessage _ _ _) => exists x, (d_step policy chunkSize s e).2 = Ok x | _ => True end.
Fixpoint d_all_handled (s : dclient) (es : list drain_event) : Prop :=
  match es with [] => True | e :: es' => d_handled s e /\ d_all_handled (d_step policy chunkSize s e).1 es' end.

Lemma lift_client_ok {A} (m : stm client A) s s' x : lift_client m s = (s', Ok x) ->
  m (dc_client s) = (dc_client s', Ok x) /\ dc_drain s' = dc_drain s.
Proof. unfold lift_client. destruct (m (dc_client s)) as [k r] eqn:E. by intros [= <- ->]. Qed.

Lemma d_message_good m fresh now s s' x : d_message policy m fresh now s = (s', Ok x) -> dgood s s'.
Proof.
  assert (Hm : lift_client (onServerMessage m fresh now) s = (s', Ok x) -> dgood s s').
  { intros [E _]%lift_client_ok. split; [by eapply message_unless|by eapply message_remembers]. }
  unfold d_message. destruct m; try exact Hm; (destruct (handles _ _); [|exact Hm]).
  - apply (keeps_keeps_ok _ _ (dgood_response_ok requestId v ts replayed valueMissing now)).
  - intros [= <-]. apply dgood_response_failed.
Qed.

Lemma d_client_step_good s e : (forall m fresh now, e <> CvMessage m fresh now) -> dgood s (d_client_step policy s e).1.
Proof.
  intros He. unfold dgood, d_client_step.
  assert (Hc : handled (dc_client s) e) by (destruct e; try done; by edestruct He).
  assert (Hg : good (dc_client s) (client_step (dc_client s) e).1) by (split; [by intros ?; apply step_cinv|by apply step_remembers]).
  destruct e as [path args l|hash l|path args u tr en now|rid|path args|t|t|l|e u|m fresh now|rid| |];
    try (unfold lift_client; destruct (client_step _ _) as [k r]; exact Hg); cbn [fst].
  - unfold lift_client. pose proof (mutation_always (hasActiveChunk (dc_drain s)) path args u tr en now (dc_client s)) as H1.
    pose proof (mutation_remembers (hasActiveChunk (dc_drain s)) path args u tr en now (dc_client s)) as H2.
    destruct (mutation _ _ _ _ _ _ _ _) as [k r]. by split.
  - by edestruct He.
  - cbn [dc_client on_client drain_onTransportClosed on_drain]. etrans; [apply dgood_revert|].
    split; [apply pres_closed|apply closed_remembers].
Qed.

Lemma d_step_good s e : d_handled s e -> dgood s (d_step policy chunkSize s e).1.
Proof.
  intros Hh. destruct e as [e| |es registry| | | | |]; cbn [d_step fst].
  - assert (Hm : dgood s (d_client_step policy s e).1).
    { destruct e as [| | | | | | | | |m fresh now| | |]; try (apply d_client_step_good; by intros).
      destruct Hh as [x Hx]. apply (d_message_good m fresh now s _ x). revert Hx. cbn [d_step d_client_step].
      destruct (d_message policy m fresh now s) as [s' r]. by intros [= ->]. }
    destruct (d_client_step policy s e) as [s' r]. cbn [fst] in *. etrans; [exact Hm|apply dgood_release].
  - by case_match.
  - case_match; [|done]. etrans; [apply dgood_hydrate|apply dgood_release].
  - case_match; [apply dgood_wake|done].
  - destruct (dr_wait _) as [[]|]; [|done|done]. unfold drain_continue. etrans; [|apply dgood_drain].
    case_match; [apply dgood_flush|done].
  - case_match; [|done]. etrans; [apply dgood_drain|apply dgood_wake].
  - unfold drain_resume. by case_match.
  - by case_match.
Qed.

Lemma d_run_good s es : d_all_handled s es -> dgood s (d_run policy chunkSize s es).
Proof.
  revert s. induction es as [|e es IH]; intros s; [done|]. intros [Hh Ht]. cbn. etrans; [by apply d_step_good|by apply IH].
Qed.

Definition d_new (ob : option outbox) : dclient := DClient (client_new ob) drain_new.

Lemma promise_new ob : promise_ok (client_new ob).
Proof. split; [apply NoDup_nil; exact I|by intros r ?%not_elem_of_nil|done]. Qed.
End run.
