(* ===== verification/DrainProperties.v ===== *)
(** What a client with its drain promises its application: the values shown, the
    layers held back, the promises, and the order of what is sent. *)
From Stdlib Require Import ZArith Lia.
From stdpp Require Import base list sets strings sorting.
From S2P Require Import Prelude JsBase JsText Values ValuesJson KeyRanges DocStore StateRes RowDiff ReadIndex SyncProtocol ClientState Reconciler ClientSession ClientInvariant ClientRun ClientProperties ClientSettle OutboxDrain.

Section promises.
Context `{JsHost} (policy : poison_policy) (chunkSize : nat).
Notation run := (d_run policy chunkSize).
Notation handled := (d_all_handled policy chunkSize).

(** C14: over every run of client and outbox events in which no handler of a
    server message throws, the composed value of each subscription, which is
    what the client renders from, is the value the server sent last, unless the
    optimistic update of a mutation that is still on the log covers its query. *)
Theorem shown_value_from_server ob es h r s :
  let k := dc_client (run (d_new ob) es) in
  handled (d_new ob) es -> (h, r) ∈ k_byHash k -> sub_at k r = Some s ->
  same_value (q_composedValue s) (q_serverValue s) \/ layered (k_log k) h.
Proof. intros k Hh. destruct (d_run_good _ _ _ es Hh) as [Hc _]. destruct (Hc (cinv_new ob)) as [_ Hcomp]. apply Hcomp. Qed.

(** A layer held back for a committed mutation is ahead of every transition
    adopted, so no snapshot that holds the commit is covered by it, and its
    timer is running: when it goes off the layer goes. *)
Theorem held_layer_ahead ob es rid e ts at_ :
  let k := dc_client (run (d_new ob) es) in
  handled (d_new ob) es -> (rid, e) ∈ k_log k -> pm_status e = Completed ts at_ ->
  0 < ts /\ k_observedTs k < ts /\ rid ∈ k_timers k /\ rid ∉ jm_keys (k_log (client_step k (CvTimeout rid)).1).
Proof.
  intros k Hh Hin Hst. destruct (d_run_good _ _ _ es Hh) as [Hgood _]. destruct (Hgood (cinv_new ob)) as [Hg _]. fold k in Hg.
  pose proof Hg as [(Hs & Hl & Ht) Ha]. destruct (Ht _ _ _ _ Hin Hst) as [Hpos Htm].
  split_and!; [done|by eapply Ha|done|]. cbn [client_step fst]. rewrite bool_decide_true by done.
  unfold gate_timeout. change (log_get (clearTimer k rid) rid) with (log_get k rid).
  assert (Hgt : log_get k rid = Some e) by (apply jm_in_get; [apply Hl|done]). rewrite Hgt, Hst. cbn [is_completed].
  destruct (rebuild_log (log_delete (clearTimer k rid) rid) [] (ginv_drop k rid Hg)) as (Hlog & _ & _).
  intros ([r e'] & E & Hin')%list_elem_of_fmap. cbn in E. subst r. apply Hlog in Hin' as (e0 & Hin0 & _).
  by apply (log_delete_elem (clearTimer k rid) rid) in Hin0 as [_ ?].
Qed.

Lemma filter_unique (rid : jsstr) l : NoDup l -> rid ∈ l -> base.filter (fun r => r = rid) l = [rid].
Proof.
  intros Hn Hin. induction l as [|r rs IH]; [by apply not_elem_of_nil in Hin|]. rewrite filter_cons.
  apply NoDup_cons in Hn as [Hr Hn]. case_decide as E; [subst r|apply IH; set_solver].
  f_equal. clear IH Hin Hn. induction rs as [|r rs IH]; [done|]. rewrite filter_cons, decide_False by set_solver.
  apply IH. set_solver.
Qed.

(** C15: the promise of a mutation is settled at most once, and never forgotten:
    once handed out it is at any later time either still waiting and unsettled,
    or settled exactly once, as long as no message handler throws. *)
Theorem promises_settled_once ob es1 es2 rid :
  let s1 := run (d_new ob) es1 in let k1 := dc_client s1 in let k2 := dc_client (run s1 es2) in
  handled (d_new ob) es1 -> handled s1 es2 -> rid ∈ k_callbacks k1 ->
  (rid ∈ k_callbacks k2 /\ rid ∉ settled_ids k2) \/
  (rid ∉ k_callbacks k2 /\ base.filter (fun r => r = rid) (settled_ids k2) = [rid]).
Proof.
  intros s1 k1 k2 H1 H2 Hin.
  destruct (d_run_good _ _ _ _ H1) as [_ Hr1]. destruct (Hr1 (promise_new ob)) as [Hk1 _]. fold s1 k1 in Hk1.
  destruct (d_run_good _ _ _ _ H2) as [_ Hr2]. destruct (Hr2 Hk1) as [[Hn _ _] Hsub]. fold k2 in Hn, Hsub.
  specialize (Hsub rid ltac:(apply elem_of_app; by left)).
  apply NoDup_app in Hn as (_ & Hd & Hs). apply elem_of_app in Hsub as [Hc|Hset]; [left; by split; [|apply Hd]|right].
  split; [intros Hc; by eapply Hd|by apply filter_unique].
Qed.
End promises.

(** * The order of what is sent *)

Definition batch_of (o : client_out) : option (list batch_entry) := match o with OSend (MMutationBatch es) => Some es | _ => None end.
Definition batches (k : client) : list (list batch_entry) := omap batch_of (k_out k).

Lemma batches_put k o : omap batch_of o = [] -> batches (put k o) = batches k.
Proof. intros Ho. unfold batches. cbn. by rewrite omap_app, Ho, app_nil_r. Qed.
Lemma batches_fold {A} (f : client -> A -> client) l k : (forall k x, batches (f k x) = batches k) -> batches (fold_left f l k) = batches k.
Proof. intros Hf. revert k. induction l as [|x l IH]; intros k; [done|]. cbn. by rewrite IH, Hf. Qed.

Section order.
Context `{JsHost} (policy : poison_policy) (chunkSize : nat).

Lemma batches_rebuild k force : batches (rebuild k force) = batches k.
Proof.
  assert (Hr : batches (recompose k force).1 = batches k).
  { unfold recompose. destruct (replay _ _ _ _) as [[[n o] d] es]. cbn [fst]. rewrite batches_fold; [done|].
    intros k0 r. unfold compose_ref. destruct (sub_at k0 r) as [s|]; [|done]. destruct (compose_one o force s) as [s' out] eqn:E.
    apply (batches_put (set_sub k0 r s')). unfold compose_one in E. destruct (_ || _); [|by simplify_eq].
    destruct (next_value o s); simplify_eq; [|done]. by induction (q_listeners s). }
  unfold rebuild. destruct (recompose k force). by rewrite batches_fold.
Qed.
Lemma batches_outbox op k : batches (outbox_do op k) = batches k.
Proof. unfold outbox_do. case_match; [by apply batches_put|done]. Qed.
Lemma batches_setStatus b e k : batches (drain_setStatus b e k) = batches k.
Proof. unfold drain_setStatus, status_op. repeat case_match; rewrite ?batches_outbox; done. Qed.
Lemma batches_settleTerminal rid code message k : batches (drainSettleTerminal rid code message k) = batches k.
Proof.
  unfold drainSettleTerminal. cbv zeta. set (k1 := match entry_ref _ with Some (c, q) => _ | None => _ end).
  assert (E1 : batches k1 = batches k).
  { trans (batches (rejectPending rid (RejectServer message code) k)).
    - unfold k1. destruct (entry_ref _) as [[c q]|]; [apply batches_outbox|done].
    - unfold rejectPending. case_match; [exact (batches_put (callback_remove rid k) [OReject rid (RejectServer message code)] eq_refl)|done]. }
  assert (E2 : batches (onMutationFailure rid k1) = batches k).
  { unfold onMutationFailure. case_match; [by rewrite batches_rebuild|done]. }
  case_match; [done|]. unfold notifyMutationFailed. repeat case_match; rewrite ?batches_put; done.
Qed.

Definition same_identity (fp : jsstr) (e : pending) : Prop := other_identity fp e = false.
#[local] Instance same_identity_dec fp e : Decision (same_identity fp e).
Proof. unfold same_identity. apply _. Defined.

(** The loop takes a prefix of the queue, and the units of it that belong to the
    session's identity. *)
Lemma flush_loop_spec fp queue k chunk : (length chunk <= chunkSize)%nat ->
  exists n, (n <= length queue)%nat /\
    (flush_loop chunkSize fp queue k chunk).2 = chunk ++ base.filter (same_identity fp) (take n queue) /\
    (length (flush_loop chunkSize fp queue k chunk).2 <= chunkSize)%nat /\
    (n = length queue \/ length (flush_loop chunkSize fp queue k chunk).2 = chunkSize) /\
    batches (flush_loop chunkSize fp queue k chunk).1 = batches k.
Proof.
  revert k chunk. induction queue as [|e queue IH]; intros k chunk Hle; cbn [flush_loop].
  - exists 0%nat. rewrite app_nil_r. split_and!; auto.
  - destruct (_ <=? _)%nat eqn:E; [apply Nat.leb_le in E; exists 0%nat; rewrite app_nil_r; split_and!; [lia|done|done|right; cbn; lia|done]|].
    apply Nat.leb_gt in E. destruct (other_identity fp e) eqn:Eo.
    + destruct (IH (drainSettleTerminal (pm_requestId e) (Some OFFLINE_IDENTITY_CHANGED) (identity_message e) k) chunk Hle)
        as (n & H1 & H2 & H3 & H4 & H5). exists (S n). cbn [take length].
      rewrite filter_cons, decide_False by (unfold same_identity; congruence).
      split_and!; [lia|done|done|destruct H4; [left; lia|by right]|by rewrite H5, batches_settleTerminal].
    + destruct (IH (drain_setStatus true e k) (chunk ++ [e])) as (n & H1 & H2 & H3 & H4 & H5); [rewrite length_app; cbn; lia|].
      exists (S n). cbn [take length]. rewrite filter_cons, decide_True by done. rewrite <-(assoc_L (++)) in H2.
      split_and!; [lia|exact H2|done|destruct H4; [left; lia|by right]|by rewrite H5, batches_setStatus].
Qed.

#[local] Instance compare_order_laws : CmpLaws compare_order.
Proof. apply (cmp_on_laws (fun e => default 0 (pm_order e)) Z.compare), _. Qed.

(** The drain sends in order: a flush takes a prefix of the queued mutations,
    sorted by their place in the queue, settles without sending those queued
    under another identity, and sends the others in that order in one batch of
    at most the chunk size; what it leaves is queued behind all of it, and
    something is left only when the batch is full. *)
Theorem drain_sends_in_order s :
  dr_wait (dc_drain s) = Some true -> canDrain s = true ->
  let k := dc_client s in let queue := drainableEntries k in
  let s' := (d_step policy chunkSize s DvContinue).1 in
  StronglySorted (fun a b => default 0 (pm_order a) <= default 0 (pm_order b)) queue /\
  exists n, let chunk := base.filter (same_identity (currentFingerprint k)) (take n queue) in
    (length chunk <= chunkSize)%nat /\ ((n = length queue)%nat \/ (length chunk = chunkSize)%nat) /\
    batches (dc_client s') = batches k ++ (match chunk with [] => [] | _ => [mutationMessage <$> chunk] end) /\
    dr_active (dc_drain s') = match chunk with [] => None | _ => Some (chunk_map chunk) end.
Proof.
  intros Hw Hc. cbv zeta. split.
  - pose proof (js_sort_sorted compare_order (base.filter (fun e => is_drainable e = true) (client_log_entries (dc_client s))) _) as Hs.
    revert Hs. unfold drainableEntries. generalize (js_sort compare_order (base.filter (fun e => is_drainable e = true) (client_log_entries (dc_client s)))).
    intros l Hs. induction Hs as [|x l _ IH Hx]; constructor; [done|]. eapply Forall_impl; [exact Hx|]. intros y Hy.
    cbv beta in Hy. unfold compare_order in Hy. by apply Z.compare_le_iff.
  - cbn [d_step fst]. rewrite Hw. unfold drain_continue. rewrite Hc. unfold flushChunk.
    destruct (flush_loop_spec (currentFingerprint (dc_client s)) (drainableEntries (dc_client s)) (dc_client s) [])
      as (n & _ & H2 & H3 & H4 & H5); [cbn; lia|].
    destruct (flush_loop _ _ _ _ _) as [k' chunk]. cbn [fst snd app] in *. exists n. rewrite <-H2.
    assert (Ha : dr_active (dc_drain s) = None).
    { unfold canDrain in Hc. destruct (dr_active (dc_drain s)); [|done]. exfalso. revert Hc. cbn.
      by rewrite !andb_false_r. }
    split_and!; [done|done|..]; destruct chunk as [|e chunk]; cbn [dc_client dc_drain on_drain dr_active set_wait set_active]; try done.
    + by rewrite app_nil_r.
    + unfold batches. cbn. rewrite omap_app. cbn. unfold batches in H5. by rewrite H5.
Qed.
End order.

(** * A close in the middle of a chunk *)

Definition ids_ok (k : client) : Prop := forall rid e, log_get k rid = Some e -> pm_requestId e = rid.

Lemma log_get_add k e rid : log_get (log_add k e) rid = if decide (rid = pm_requestId e) then Some e else log_get k rid.
Proof. unfold log_get, log_add. cbn. rewrite jm_get_set. repeat case_decide; congruence. Qed.

Lemma outbox_do_log op k : k_log (outbox_do op k) = k_log k.
Proof. unfold outbox_do. by case_match. Qed.

Lemma setStatus_get b e k rid : ids_ok k ->
  log_get (drain_setStatus b e k) rid =
    (fun e' => if decide (rid = pm_requestId e) then with_status e' (if b then Inflight else Unsent) else e') <$> log_get k rid.
Proof.
  intros Hk. unfold drain_setStatus. cbv zeta.
  assert (Hl : forall k0, k_log (status_op e b k0) = k_log k0).
  { intros k0. unfold status_op. repeat case_match; by rewrite ?outbox_do_log. }
  unfold log_get at 1. rewrite Hl. destruct (log_get k (pm_requestId e)) as [e'|] eqn:Hg.
  - fold (log_get (log_add k (with_status e' (if b then Inflight else Unsent))) rid). rewrite log_get_add. cbn [with_status pm_requestId].
    rewrite (Hk _ _ Hg). case_decide as E; [subst; by rewrite Hg|]. by destruct (log_get k rid).
  - fold (log_get k rid). case_decide as E; [subst; by rewrite Hg|]. by destruct (log_get k rid).
Qed.

Lemma setStatus_ids b e k : ids_ok k -> ids_ok (drain_setStatus b e k).
Proof.
  intros Hk rid e'. rewrite setStatus_get by done. destruct (log_get k rid) as [e0|] eqn:Hg; [|done]. cbn. intros [= <-].
  pose proof (Hk _ _ Hg). by case_decide.
Qed.

Lemma reverts_get es k rid : ids_ok k ->
  log_get (fold_left (fun k e => drain_setStatus false e k) es k) rid =
    (fun e' => if decide (rid ∈ pm_requestId <$> es) then with_status e' Unsent else e') <$> log_get k rid.
Proof.
  revert k. induction es as [|e es IH]; intros k Hk; cbn [fold_left].
  - destruct (log_get k rid); [|done]. cbn. by rewrite decide_False by (apply not_elem_of_nil).
  - rewrite IH by (by apply setStatus_ids). rewrite setStatus_get by done. destruct (log_get k rid) as [e0|]; [|done]. cbn.
    f_equal. repeat case_decide; try done; set_solver.
Qed.

Lemma reject_fold_callbacks rs r k rid :
  rid ∉ rs -> rid ∈ k_callbacks k -> rid ∈ k_callbacks (fold_left (fun k rid => rejectPending rid r k) rs k).
Proof.
  revert k. induction rs as [|x rs IH]; intros k Hn Hin; [done|]. cbn. apply IH; [set_solver|].
  unfold rejectPending. case_match; [|done]. cbn. apply list_elem_of_filter. set_solver.
Qed.

Definition park_op (k : client) (rid : jsstr) : client :=
  match log_get k rid with
  | Some e => match pm_clientId e, pm_seq e with Some c, Some q => outbox_do (ObParked c q) k | _, _ => k end
  | None => k
  end.
Lemma park_ops_frame l k : k_log (fold_left park_op l k) = k_log k /\ k_callbacks (fold_left park_op l k) = k_callbacks k.
Proof.
  revert k. induction l as [|x l IH]; intros k; [done|]. cbn. destruct (IH (park_op k x)) as [-> ->]. unfold park_op, outbox_do.
  by repeat case_match.
Qed.
Lemma rejects_log rs r k : k_log (fold_left (fun k rid => rejectPending rid r k) rs k) = k_log k.
Proof. revert k. induction rs as [|x rs IH]; intros k; [done|]. cbn. rewrite IH. unfold rejectPending. by case_match. Qed.

Section close.
Context `{JsHost} (policy : poison_policy) (chunkSize : nat).

Definition active_ids (s : dclient) : Prop :=
  forall m rid e, dr_active (dc_drain s) = Some m -> (rid, e) ∈ m -> pm_requestId e = rid.

Lemma chunk_map_ids chunk rid e : (rid, e) ∈ chunk_map chunk -> pm_requestId e = rid.
Proof.
  unfold chunk_map.
  assert (Hg : forall l m, Forall (fun re : jsstr * pending => pm_requestId re.2 = re.1) m ->
    Forall (fun re : jsstr * pending => pm_requestId re.2 = re.1) (fold_left (fun m e => jm_set m (pm_requestId e) e) l m)).
  { induction l as [|x l IH]; intros m Hm; [done|]. cbn. apply IH. by apply jm_set_Forall. }
  intros Hin. specialize (Hg chunk [] ltac:(constructor)). rewrite Forall_forall in Hg. by apply (Hg _ Hin).
Qed.

Lemma active_ids_same s s' : dr_active (dc_drain s') = dr_active (dc_drain s) -> active_ids s -> active_ids s'.
Proof. intros E Hs m rid e. rewrite E. apply Hs. Qed.
Lemma active_ids_none s' : dr_active (dc_drain s') = None -> active_ids s'.
Proof. intros E m rid e. by rewrite E. Qed.
Lemma active_ids_delete rid s : active_ids s -> active_ids (active_delete rid s).
Proof.
  intros Hs m r e. cbn. destruct (dr_active (dc_drain s)) as [m0|] eqn:E; [|done]. cbn. intros [= <-].
  unfold jm_delete. intros [_ Hin]%list_elem_of_filter. by eapply Hs.
Qed.
Lemma active_ids_progress s : active_ids s -> active_ids (onForwardProgress s).
Proof.
  intros Hs. unfold onForwardProgress. cbv zeta. cbn. destruct (dr_active (dc_drain s)) as [[|x m]|] eqn:E;
    [by apply active_ids_none|apply (active_ids_same s); [by cbn|done]..].
Qed.
Lemma active_ids_wake s : active_ids s -> active_ids (maybeDrainNext s).
Proof. unfold maybeDrainNext. case_match; [done|]. by apply active_ids_same. Qed.
Lemma revert_none s : dr_active (dc_drain (revertActive s)) = None.
Proof. unfold revertActive. by destruct (dr_active (dc_drain s)) eqn:E. Qed.
Lemma active_ids_release s s' : active_ids s' -> active_ids (release s s').
Proof. unfold release. case_match; [|done]. by apply active_ids_same. Qed.

Lemma active_ids_client {A} (m : stm client A) s : active_ids s -> active_ids (lift_client m s).1.
Proof. unfold lift_client. destruct (m (dc_client s)). by apply active_ids_same. Qed.

Lemma active_ids_step s e : active_ids s -> active_ids (d_step policy chunkSize s e).1.
Proof.
  intros Hs. destruct e as [e| |es registry| | | | |]; cbn [d_step fst].
  - assert (Hc : active_ids (d_client_step policy s e).1).
    { destruct e as [| | | | | | | | |m fresh now| | |]; cbn [d_client_step]; try (by apply active_ids_client); cbn [fst].
      - unfold d_message. destruct m; try (by apply active_ids_client); (destruct (handles _ _); [|by apply active_ids_client]).
        + unfold response_ok, bind, modify. cbn [lift]. destruct (resolveResponseValue v valueMissing); cbn [fst].
          * apply active_ids_progress, (active_ids_same (active_delete requestId s)); [done|]. by apply active_ids_delete.
          * by apply active_ids_delete.
        + cbn [fst]. unfold response_failed. destruct (m ← _; _) as [e|]; [|done]. destruct code as [code|]; [destruct policy|].
          * cbv zeta. apply active_ids_progress, (active_ids_same (active_delete requestId s)); [done|]. by apply active_ids_delete.
          * apply active_ids_none, revert_none.
          * apply active_ids_none. exact (revert_none (on_drain _ s)).
      - apply active_ids_none. exact (revert_none s). }
    destruct (d_client_step policy s e) as [s' r]. by apply active_ids_release.
  - case_match; [done|]. by apply (active_ids_same s).
  - case_match; [|done]. apply active_ids_release. unfold drain_hydrate. case_match; [done|]. cbv zeta. apply active_ids_wake.
    case_match; by apply (active_ids_same s).
  - case_match; [|done]. by apply active_ids_wake.
  - destruct (dr_wait _) as [[]|]; [|done|done]. unfold drain_continue.
    destruct (canDrain s); [|by apply (active_ids_same s)]. apply (active_ids_same (flushChunk chunkSize s)); [done|].
    unfold flushChunk. destruct (flush_loop _ _ _ _ _) as [k chunk]. destruct chunk as [|e chunk]; [by apply (active_ids_same s)|].
    intros m rid e'. cbn [dc_drain set_active dr_active]. intros [= <-]. apply chunk_map_ids.
  - case_match; [|done]. apply active_ids_wake. by apply (active_ids_same s).
  - unfold drain_resume. case_match; [|done]. by apply (active_ids_same s).
  - case_match; [done|]. by apply active_ids_none.
Qed.

Lemma active_ids_run s es : active_ids s -> active_ids (d_run policy chunkSize s es).
Proof. revert s. induction es as [|e es IH]; intros s Hs; [done|]. cbn. by apply IH, active_ids_step. Qed.

Definition closing (k : client) : client :=
  set_resumeSince (k_observedTs k) (set_diffSent false (with_outbox (ob_set_connectSent false) (set_closed true k))).
Definition closing_armed (k : client) : bool := match k_outbox (closing k) with Some ob => ob_armed ob | None => false end.

Lemma closing_core k : core (closing k) = core k.
Proof. exact (core_with_outbox (ob_set_connectSent false) (set_closed true k)). Qed.
Lemma closing_account k : account (closing k) = account k.
Proof. exact (account_with_outbox (ob_set_connectSent false) (set_closed true k)). Qed.

Lemma closed_eq k : let k1 := closing k in let armed := closing_armed k in
  exists k4 o, onTransportClosed k = set_actions (put k4 o) [] /\
    k4 = fold_left park_op (ids_of (parks armed) (client_log_entries k1))
           (fold_left (fun k rid => rejectPending rid RejectUndelivered k) (ids_of (rejects armed) (client_log_entries k1))
              (rebuild (closing_log armed k1) [])).
Proof.
  intros k1 armed. eexists _, _. split; [|reflexivity].
  assert (Eo : k_observedTs (set_diffSent false (with_outbox (ob_set_connectSent false) (set_closed true k))) = k_observedTs k).
  { unfold set_diffSent, with_outbox. cbn. by destruct (k_outbox k). }
  unfold onTransportClosed. cbv zeta. rewrite Eo. fold (closing k) (closing_armed k). by rewrite closeSession_eq.
Qed.

Lemma closed_keeps k rid e : cinv k -> log_get k rid = Some e -> pm_status e = Unsent -> pm_update e = None ->
  (exists e', log_get (onTransportClosed k) rid = Some e' /\ replayed e e') /\
  (rid ∈ k_callbacks k -> rid ∈ k_callbacks (onTransportClosed k)).
Proof.
  intros Hk Hg Hst Hu. pose proof (pres_closed k Hk) as Hk'. destruct (closed_eq k) as (k4 & o & E & E4). rewrite E in *.
  assert (Hk1 : cinv (closing k)) by (by apply (cinv_core k), Hk; apply closing_core).
  pose proof Hk1 as [[(_ & Hl1 & _) _] _]. assert (El : k_log (closing k) = k_log k) by exact (f_equal (fun c => c.1.1.1.2) (closing_core k)).
  assert (Hin : (rid, e) ∈ k_log (closing k)) by (rewrite El; by apply jm_get_Some_in).
  set (k2 := rebuild _ _) in E4. set (k3 := fold_left _ _ k2) in E4.
  destruct (park_ops_frame (ids_of (parks (closing_armed k)) (client_log_entries (closing k))) k3) as [F1 F2].
  rewrite <-E4 in F1, F2. split.
  - destruct (rebuild_log (closing_log (closing_armed k) (closing k)) [] (closing_ginv _ _ Hk1)) as (_ & Hsurv & _).
    destruct (Hsurv rid e) as (e' & Hin' & Hre); [apply closing_log_elem; [done|]; exists e; split; [done|]|done|].
    { unfold after_close, parks, drops. by rewrite Hst. }
    exists e'. split; [|done]. apply jm_in_get; [apply Hk'|]. change (k_log (set_actions _ _)) with (k_log k4).
    rewrite F1. unfold k3. by rewrite rejects_log.
  - intros Hcb. change (k_callbacks (set_actions _ _)) with (k_callbacks k4). rewrite F2. apply reject_fold_callbacks.
    + rewrite (entry_ids _ _ _ _ Hl1 Hin). unfold rejects. by rewrite Hst.
    + assert (E3 : account k2 = account (closing k)).
      { pose proof (account_close (closing_armed k) (closing k)) as Ea. by rewrite closeSession_eq in Ea. }
      rewrite closing_account in E3. assert (Ecb : k_callbacks k2 = k_callbacks k) by exact (f_equal (fun c => c.1.1) E3).
      by rewrite Ecb.
Qed.

(** When the transport closes under a chunk, no unit of it is lost: each one
    that is still on the log, and has no updater that could throw, is queued
    again under the identity it had, durable as before, and its promise, if
    somebody waits for it, keeps waiting; and no chunk is in flight any more. *)
Theorem close_requeues_chunk ob es m rid e0 e :
  let s := d_run policy chunkSize (d_new ob) es in let k := dc_client s in
  let s' := (d_step policy chunkSize s (DvClient CvClosed)).1 in let k' := dc_client s' in
  d_all_handled policy chunkSize (d_new ob) es ->
  dr_active (dc_drain s) = Some m -> (rid, e0) ∈ m -> log_get k rid = Some e -> pm_update e = None ->
  dr_active (dc_drain s') = None /\
  (exists e', log_get k' rid = Some e' /\ pm_status e' = Unsent /\ pm_clientId e' = pm_clientId e /\ pm_seq e' = pm_seq e /\
     pm_order e' = pm_order e /\ pm_durable e' = pm_durable e) /\
  (rid ∈ k_callbacks k -> rid ∈ k_callbacks k').
Proof.
  intros s k s' k' Hh Hact Hin Hg Hu.
  destruct (d_run_good _ _ _ _ Hh) as [Hc _]. specialize (Hc (cinv_new ob)). fold s k in Hc.
  pose proof (active_ids_run (d_new ob) es ltac:(by apply active_ids_none) m rid e0 Hact Hin) as Hid.
  split; [unfold s'; cbn [d_step d_client_step]; unfold release; case_match; exact (revert_none s)|].
  set (k0 := dc_client (revertActive s)).
  assert (Hk0 : k0 = fold_left (fun k e => drain_setStatus false e k) (jm_values m) k) by (unfold k0, revertActive; by rewrite Hact).
  assert (Hids : ids_ok k) by (intros r x Hx; destruct Hc as [[(_ & Hl & _) _] _]; by eapply log_get_id).
  assert (Hg0 : log_get k0 rid = Some (with_status e Unsent)).
  { rewrite Hk0, reverts_get, Hg by done. cbn. rewrite decide_True; [done|]. rewrite <-Hid. apply list_elem_of_fmap_2.
    apply (list_elem_of_fmap_2 snd _ _ Hin). }
  assert (Hcb0 : k_callbacks k0 = k_callbacks k).
  { assert (Ha : account k0 = account k); [|by injection Ha]. rewrite Hk0. apply account_fold. intros k1 x.
    unfold drain_setStatus, status_op. repeat case_match; rewrite ?account_outbox_do; done. }
  assert (Ek' : k' = onTransportClosed k0) by (unfold k', s'; cbn [d_step d_client_step]; unfold release; by case_match).
  destruct (closed_keeps k0 rid (with_status e Unsent)) as [(e' & He' & Hre) Hcb]; [by apply (dgood_revert s)|done..|].
  rewrite Ek'. split; [|by rewrite <-Hcb0]. exists e'. split; [done|]. by destruct Hre as [->|[t ->]].
Qed.
End close.
