(* ===== verification/ClientScenarios.v ===== *)
(** Concrete runs of a client: the theorems at work, and the scenarios where the
    code departs from what it says. *)
From Stdlib Require Import ZArith Lia.
From stdpp Require Import base list sets strings sorting.
From S2P Require Import Prelude JsBase JsText Float64 Values ValuesJson KeyCodec KeyRanges DocStore StateRes RowDiff ReadIndex SyncProtocol ClientState Reconciler ClientSession ClientInvariant ClientRun ClientProperties ClientSettle OutboxDrain DrainProperties.

(** * A held layer *)

Definition app_listener := Listener 0 true.
Definition app_query := js "messages:list".
Definition app_hash := @queryHash sample_host app_query (JObject []).
Definition app_write (v : value) : value -> updater :=
  fun _ => UNew v (fun c => USet app_query (VObject []) (Some c) (fun _ => UDone)).

(** A subscription answered at 5; a mutation with an optimistic update; its
    success, committed at 9. *)
Definition app_start : list client_event :=
  [CvSubscribe app_query (VObject []) app_listener;
   CvMessage (Transition INITIAL_VERSION (Ver 1 5) [QueryUpdated 1 (JString (js "old")) None]) [] 0].
Definition app_send : client_event :=
  CvMutation (js "messages:send") (VObject []) (Some (app_write (VString (js "new")))) false (js "e") 0.
Definition app_answer : client_event := CvMessage (MutationOk (js "1") None (Some 9) false false) [] 1.
Definition app_held : list client_event := app_start ++ [app_send; app_answer].
#[local] Existing Instance sample_host.
Notation app_new := (d_new None).
Notation app_state es := (d_run Skip 50%nat app_new (DvClient <$> es)).
Notation app_run es := (dc_client (app_state es)).
Definition app_entry : pending :=
  match log_get (app_run app_held) (js "1") with
  | Some e => e
  | None => Pending [] [] JNull None [] 0 [] Unsent None None None false None
  end.
Definition app_sub : csub := default (sub_new 0 [] JNull []) (sub_at (app_run app_held) 0).

Lemma app_handled : d_all_handled Skip 50%nat app_new (DvClient <$> app_held).
Proof. vm_compute. split_and!; try exact I; by eexists. Defined.

Lemma shown_value_from_server_witness :
  same_value (q_composedValue app_sub) (q_serverValue app_sub) \/ layered (k_log (app_run app_held)) app_hash.
Proof.
  apply (shown_value_from_server Skip 50%nat None (DvClient <$> app_held) app_hash 0%nat app_sub app_handled);
    [apply (jm_get_Some_in _ app_hash 0%nat)|]; vm_compute; reflexivity.
Defined.

Lemma held_layer_ahead_witness :
  0 < 9 /\ k_observedTs (app_run app_held) < 9 /\ js "1" ∈ k_timers (app_run app_held) /\
  js "1" ∉ jm_keys (k_log (client_step (app_run app_held) (CvTimeout (js "1"))).1).
Proof.
  apply (held_layer_ahead Skip 50%nat None (DvClient <$> app_held) (js "1") app_entry 9 1 app_handled);
    [apply (jm_get_Some_in _ (js "1") app_entry)|]; vm_compute; reflexivity.
Defined.

Notation app_inflight := (app_state (app_start ++ [app_send])).
Lemma inflight_handled : d_all_handled Skip 50%nat app_new (DvClient <$> (app_start ++ [app_send])).
Proof. vm_compute. split_and!; try exact I; by eexists. Defined.

Lemma close_keeps_offline_work_witness :
  match closeSession false (dc_client app_inflight) with
  | (k', (rejected, parked)) =>
      rejected = ids_of (rejects false) (client_log_entries (dc_client app_inflight)) /\
      parked = ids_of (parks false) (client_log_entries (dc_client app_inflight)) /\ k_observedTs k' = 0
  end.
Proof.
  pose proof (close_keeps_offline_work false (dc_client app_inflight)
    (proj1 (d_run_good Skip 50%nat app_new (DvClient <$> (app_start ++ [app_send])) inflight_handled) (cinv_new None))) as Hc.
  revert Hc. generalize (closeSession false (dc_client app_inflight)). intros [k' [rej prk]] (H1 & H2 & _ & _ & H3).
  exact (conj H1 (conj H2 H3)).
Defined.

Notation app_answered := (dc_client (d_run Skip 50%nat app_inflight [DvClient app_answer])).
Lemma answer_handled : d_all_handled Skip 50%nat app_inflight [DvClient app_answer].
Proof. vm_compute. split_and!; try exact I; by eexists. Defined.

Lemma answer_settles : settled_ids app_answered = [js "1"].
Proof. vm_compute. reflexivity. Qed.

Lemma promises_settled_once_witness :
  js "1" ∈ k_callbacks (dc_client app_inflight) /\
  base.filter (fun r => r = js "1") (settled_ids app_answered) = [js "1"].
Proof.
  assert (Hin : js "1" ∈ k_callbacks (dc_client app_inflight)) by (vm_compute; left).
  split; [exact Hin|].
  destruct (promises_settled_once Skip 50%nat None (DvClient <$> (app_start ++ [app_send])) [DvClient app_answer] (js "1")
    inflight_handled answer_handled Hin) as [[_ Hc]|[_ Hs]]; [|exact Hs].
  exfalso. change (js "1" ∉ settled_ids app_answered) in Hc.
  rewrite answer_settles in Hc. apply Hc. left.
Defined.

(** * The drain *)

Definition app_outbox : outbox := Outbox (Some (js "c")) 0 0 false 100 None false [] false anon.
Definition queued (rid : jsstr) (args : value) : list drain_event :=
  [DvClient (CvMutation (js "messages:send") args None false (js "e") 0); DvClient (CvDurable rid)].

(** Two mutations queued offline; the connection comes back, the handshake
    proves that the server keeps receipts, and the drain leads. *)
Definition offline_backlog : list drain_event :=
  [DvClient CvClosed] ++ queued (js "1") VNull ++ queued (js "2") VNull ++
  [DvClient CvReopened; DvClient (CvMessage (ConnectAck true [] (js "dep")) [] 0); DvLead; DvWake].
Notation backlog := (d_run Skip 1%nat (d_new (Some app_outbox)) offline_backlog).

Lemma backlog_ready : dr_wait (dc_drain backlog) = Some true /\ canDrain backlog = true.
Proof. vm_compute. by split. Defined.

Definition sent_batches : list (list batch_entry) := batches (dc_client (d_step Skip 1%nat backlog DvContinue).1).
Lemma drain_sends_in_order_witness :
  StronglySorted (fun a b => default 0 (pm_order a) <= default 0 (pm_order b)) (drainableEntries (dc_client backlog)) /\
  map pm_requestId (drainableEntries (dc_client backlog)) = [js "1"; js "2"] /\
  map (map be_requestId) sent_batches = [[js "1"]].
Proof.
  destruct (drain_sends_in_order Skip 1%nat backlog (proj1 backlog_ready) (proj2 backlog_ready)) as [Hs _].
  split; [exact Hs|]. split; vm_compute; reflexivity.
Defined.

Definition in_flight_chunk : list drain_event := offline_backlog ++ [DvContinue].
Notation chunk_state := (d_run Skip 1%nat (d_new (Some app_outbox)) in_flight_chunk).
Definition chunk_entry : pending :=
  match log_get (dc_client chunk_state) (js "1") with
  | Some e => e
  | None => Pending [] [] JNull None [] 0 [] Unsent None None None false None
  end.
Definition chunk_units : list (jsstr * pending) := default [] (dr_active (dc_drain chunk_state)).
Definition chunk_unit : pending := default chunk_entry (jm_get chunk_units (js "1")).

Lemma chunk_handled : d_all_handled Skip 1%nat (d_new (Some app_outbox)) in_flight_chunk.
Proof. vm_compute. split_and!; try exact I; by eexists. Defined.
Lemma chunk_active : dr_active (dc_drain chunk_state) = Some chunk_units.
Proof. vm_compute. reflexivity. Defined.
Lemma chunk_unit_in : (js "1", chunk_unit) ∈ chunk_units.
Proof. apply jm_get_Some_in. vm_compute. reflexivity. Defined.
Lemma chunk_logged : log_get (dc_client chunk_state) (js "1") = Some chunk_entry.
Proof. vm_compute. reflexivity. Defined.
Lemma chunk_plain : pm_update chunk_entry = None.
Proof. vm_compute. reflexivity. Defined.

Lemma close_requeues_chunk_witness : dr_active (dc_drain (d_step Skip 1%nat chunk_state (DvClient CvClosed)).1) = None.
Proof.
  exact (proj1 (close_requeues_chunk Skip 1%nat (Some app_outbox) in_flight_chunk chunk_units (js "1") chunk_unit chunk_entry
    chunk_handled chunk_active chunk_unit_in chunk_logged chunk_plain)).
Defined.

(** * A range in the order of its index *)

Definition row_d1 : row_version := RowVersion (sample_row (js "d1") num_five) 7 (Some (sample_ok (js "d1") num_five)).
Definition row_d3 : row_version := RowVersion (sample_row (js "d3") num_three) 7 (Some (sample_ok (js "d3") num_three)).
Definition rows_as_written : row_map := [(js "d1", row_d1); (js "d3", row_d3)].
Definition rows_as_reset : row_map := [(js "d3", row_d3); (js "d1", row_d1)].
Definition order_key (rv : row_version) : bytes := match order_bytes rv with Ok k => k | Throw _ => [] end.
Definition docs_in_order : list (bytes * row_version) := [(order_key row_d3, row_d3); (order_key row_d1, row_d1)].

Lemma row_d3_key : order_bytes row_d3 = Ok (order_key row_d3).
Proof. vm_compute. reflexivity. Defined.
Lemma row_d1_key : order_bytes row_d1 = Ok (order_key row_d1).
Proof. vm_compute. reflexivity. Defined.
Lemma rows_in_order : compareKeyBytes (order_key row_d3) (order_key row_d1) = Lt.
Proof. vm_compute. reflexivity. Defined.

Lemma rows_agree (k : jsstr) : jm_get rows_as_written k = jm_get rows_as_reset k.
Proof.
  unfold rows_as_written, rows_as_reset. cbn [jm_get]. repeat case_decide; try done.
  exfalso. assert (E : js "d1" = js "d3") by congruence. discriminate E.
Defined.

Lemma range_shown_in_index_order_witness : renderRangeValue rows_as_written Asc = render_docs [row_d3; row_d1].
Proof.
  apply (range_shown_in_index_order rows_as_written rows_as_reset docs_in_order Asc).
  - apply (bool_decide_unpack _). vm_compute. exact I.
  - apply (bool_decide_unpack _). vm_compute. exact I.
  - exact rows_agree.
  - reflexivity.
  - intros p [->|[->|[]%not_elem_of_nil]%elem_of_cons]%elem_of_cons; [exact row_d3_key|exact row_d1_key].
  - constructor; [repeat constructor|]. constructor; [exact rows_in_order|constructor].
Defined.

(** * A deleted document *)

Definition doc_shown : jsstr := js "d1".
Definition doc_row : json := JObject [(js "a", JBool true)].
Definition deleted_query (last : modification) : list client_event :=
  [CvSubscribe app_query (VObject []) app_listener;
   CvMessage (Transition INITIAL_VERSION (Ver 1 5)
     [QueryDiff 1 [ChAdd doc_shown doc_row 5 None] (driftChecksum [(doc_shown, RowVersion doc_row 5 None)])
        (Some ResetById) None]) [] 0;
   CvMessage (Transition (Ver 1 5) (Ver 1 6) [last]) [] 1].
Definition is_update (o : client_out) : option value := match o with OUpdate _ _ c => Some (c_val c) | _ => None end.

(** When the document of a by-id subscription is deleted, the row diff, which
    the client accepts with the server's checksum, delivers nothing, and the
    listener keeps the deleted document; the same answer sent as a plain result
    delivers [null]. *)
Theorem deleted_document_stays_shown :
  let by_diff := client_run (client_new None) (deleted_query (QueryDiff 1 [ChRemove doc_shown] (driftChecksum []) None None)) in
  let by_value := client_run (client_new None) (deleted_query (QueryUpdated 1 JNull None)) in
  cn_version (k_conn by_diff) = Ver 1 6 /\ cn_resyncing (k_conn by_diff) = false /\
  omap is_update (k_out by_diff) = [VObject [(js "a", VBool true)]] /\
  omap is_update (k_out by_value) = [VObject [(js "a", VBool true)]; VNull].
Proof. vm_compute. split_and!; reflexivity. Qed.

(** * A frame in flight during a resync *)

(** The transition that carries the commit at 9 is lost; the gap is noticed on
    the next frame, and one more frame was in flight when the resync began. *)
Definition frames_after_loss : list client_event :=
  [CvMessage (Transition (Ver 1 9) (Ver 1 10) []) [] 2; CvMessage (Transition (Ver 1 10) (Ver 1 11) []) [] 3].

(** The frame that was in flight is adopted as the answer of the resync: the
    layer of the mutation committed at 9 is dropped before its row has arrived,
    and the listener sees the value from before its own mutation again. *)
Theorem resync_drops_layer_early :
  omap is_update (k_out (client_run (client_new None) app_held)) = [VString (js "old"); VString (js "new")] /\
  let k := client_run (client_new None) (app_held ++ frames_after_loss) in
  omap is_update (k_out k) = [VString (js "old"); VString (js "new"); VString (js "old")] /\ k_log k = [] /\
  cn_resyncing (k_conn k) = false.
Proof. vm_compute. split_and!; reflexivity. Qed.

(** * The answer to an identity taken for the baseline *)

Definition reopened_with_auth : list client_event :=
  [CvSubscribe app_query (VObject []) app_listener; CvSetAuth (Some (js "t")); CvClosed; CvReopened].

Definition is_baseline (o : client_out) : bool := match o with OBaseline => true | _ => false end.

(** After a reopen the server answers the identity first, with an empty
    transition: the client takes it for the baseline of its handshake, although
    no subscription has been answered on this connection. *)
Theorem auth_answer_taken_for_baseline :
  let k := client_run (client_new (Some app_outbox)) reopened_with_auth in
  let k' := client_run k [CvMessage (Transition INITIAL_VERSION (Ver 1 0) []) [] 0] in
  awaiting_baseline k = true /\ existsb is_baseline (k_out k) = false /\
  awaiting_baseline k' = false /\ existsb is_baseline (k_out k') = true /\ q_answered <$> k_heap k' = [false].
Proof. vm_compute. split_and!; reflexivity. Qed.
