(* ===== verification/Scheduler.v ===== *)
(** The job table: components/scheduler/src/facade.ts, modules.ts and backoff.ts.

    A job carries its function and arguments as a payload [P] that the scheduler
    only hands on; [C] names a completion callback and [X] is the opaque context
    that is handed back to it.  The [jobs] and [job_args] tables are one list of
    rows in the order of creation; an index scan is a filter and a stable
    sort (jobs created in the same millisecond come in the order of creation,
    where the index uses their random ids).  A mutation is a function on the tables: the engine makes it atomic. *)
From Stdlib Require Import ZArith Lia.
From stdpp Require Import base list sets strings.
From S2P Require Import Prelude JsBase Values.

Inductive job_kind := JMutation | JAction.
Inductive job_state := Pending | InProgress | Succeeded | FailedJob | CanceledJob.
#[global] Instance job_kind_eq_dec : EqDecision job_kind.
Proof. solve_decision. Defined.
#[global] Instance job_state_eq_dec : EqDecision job_state.
Proof. solve_decision. Defined.

Definition job_terminal (s : job_state) : bool := match s with Pending | InProgress => false | _ => true end.

(** [OnCompleteResult], and [JobResult], which the driver reports. *)
Inductive oc_result := OcSuccess (v : value) | OcFailed (error : jsstr) | OcCanceled.
Inductive job_result := JrSuccess (v : value) | JrFailed (error : jsstr) (retryable : bool).

Definition BATCH_CAP : nat := 64.
Definition LEASE_MS : Z := 30000.

(** * backoff.ts

    The jitter is a word of the seeded generator, [k / 2^32]; every operation
    but the final rounding is exact. *)
Definition initialBackoffMs : Z := 250.
Definition backoff_raw (attempts : Z) : Z := initialBackoffMs * 2 ^ (attempts + 1).
Definition computeBackoff (attempts k : Z) : Z := (backoff_raw attempts * (2 ^ 32 + k) * 2 + 2 ^ 33) / 2 ^ 34.

(** * Rows *)

Record job (P C X : Type) := Job
  { jb_payload : P; jb_kind : job_kind; jb_state : job_state; jb_nextTs : Z; jb_attempts : Z; jb_maxFailures : Z;
    jb_leaseExpiresAt : option Z; jb_idempotencyKey : option jsstr; jb_name : option jsstr;
    jb_onComplete : option C; jb_context : option X; jb_parentId : option Z; jb_completedTs : option Z;
    jb_lastError : option jsstr }.
Arguments Job {P C X}.
Arguments jb_payload {P C X}.
Arguments jb_kind {P C X}.
Arguments jb_state {P C X}.
Arguments jb_nextTs {P C X}.
Arguments jb_attempts {P C X}.
Arguments jb_maxFailures {P C X}.
Arguments jb_leaseExpiresAt {P C X}.
Arguments jb_idempotencyKey {P C X}.
Arguments jb_name {P C X}.
Arguments jb_onComplete {P C X}.
Arguments jb_context {P C X}.
Arguments jb_parentId {P C X}.
Arguments jb_completedTs {P C X}.
Arguments jb_lastError {P C X}.

(** [jt_fired] is what [fireOnComplete] was called with, for the theorems. *)
Record jobs (P C X : Type) := Jobs { jt_rows : list (Z * job P C X); jt_next : Z; jt_fired : list (Z * oc_result) }.
Arguments Jobs {P C X}.
Arguments jt_rows {P C X}.
Arguments jt_next {P C X}.
Arguments jt_fired {P C X}.

Record enqueue_opts (C X : Type) := EnqueueOpts
  { eo_runAfter : option Z; eo_runAt : option Z; eo_maxFailures : option Z; eo_name : option jsstr;
    eo_onComplete : option C; eo_context : option X; eo_idempotencyKey : option jsstr }.
Arguments EnqueueOpts {C X}.
Arguments eo_runAfter {C X}.
Arguments eo_runAt {C X}.
Arguments eo_maxFailures {C X}.
Arguments eo_name {C X}.
Arguments eo_onComplete {C X}.
Arguments eo_context {C X}.
Arguments eo_idempotencyKey {C X}.

Section scheduler.
Context {P C X : Type} (callback : C -> Z -> option X -> oc_result -> P).
Notation job := (job P C X).
Notation jobs := (jobs P C X).
Notation enqueue_opts := (enqueue_opts C X).

Definition no_opts : enqueue_opts := EnqueueOpts None None None None None None None.
Definition run_at (ts : Z) : enqueue_opts := EnqueueOpts None (Some ts) None None None None None.

Definition get_job (t : jobs) (id : Z) : option job := jm_get (jt_rows t) id.
Definition put_job (t : jobs) (id : Z) (j : job) : jobs := Jobs (jm_set (jt_rows t) id j) (jt_next t) (jt_fired t).

(** * facade.ts *)

Definition find_idempotent (t : jobs) (key : jsstr) : option Z :=
  match base.filter (fun r => jb_idempotencyKey r.2 = Some key) (jt_rows t) with r :: _ => Some r.1 | [] => None end.

Definition next_ts (now : Z) (o : enqueue_opts) : Z :=
  match eo_runAt o with
  | Some ts => ts
  | None => match eo_runAfter o with Some d => now + Z.max 0 d | None => now end
  end.

Definition default_failures (k : job_kind) : Z := match k with JAction => 1 | JMutation => 4 end.

(** The current job is never known, so the parent is absent and no job is born
    canceled. *)
Definition new_job (now : Z) (payload : P) (o : enqueue_opts) (kind : job_kind) : job :=
  Job payload kind Pending (next_ts now o) 0 (default (default_failures kind) (eo_maxFailures o)) None (eo_idempotencyKey o) (eo_name o)
    (eo_onComplete o) (eo_context o) None None None.

Definition insert_job (t : jobs) (j : job) : jobs * Z := (Jobs (jt_rows t ++ [(jt_next t, j)]) (jt_next t + 1) (jt_fired t), jt_next t).

Definition enqueueInternal (now : Z) (payload : P) (o : enqueue_opts) (kind : job_kind) (t : jobs) : jobs * Z :=
  match match eo_idempotencyKey o with Some key => find_idempotent t key | None => None end with
  | Some id => (t, id)
  | None => insert_job t (new_job now payload o kind)
  end.

(** The callback is always enqueued as a mutation. *)
Definition fireOnComplete (now id : Z) (onComplete : option C) (result : oc_result) (t : jobs) : jobs :=
  let t := Jobs (jt_rows t) (jt_next t) (jt_fired t ++ [(id, result)]) in
  match onComplete with
  | None => t
  | Some c =>
      let context := match get_job t id with Some j => jb_context j | None => None end in
      (enqueueInternal now (callback c id context result) (run_at now) JMutation t).1
  end.

Definition with_state (j : job) (s : job_state) (completedTs : option Z) : job :=
  Job (jb_payload j) (jb_kind j) s (jb_nextTs j) (jb_attempts j) (jb_maxFailures j) (jb_leaseExpiresAt j) (jb_idempotencyKey j) (jb_name j)
    (jb_onComplete j) (jb_context j) (jb_parentId j) completedTs (jb_lastError j).

Definition cancel_one (now id : Z) (t : jobs) : jobs :=
  match get_job t id with
  | Some j =>
      if bool_decide (jb_state j = Pending)
      then fireOnComplete now id (jb_onComplete j) OcCanceled (put_job t id (with_state j CanceledJob (Some now)))
      else t
  | None => t
  end.

Definition children_of (t : jobs) (parent : Z) : list Z := (base.filter (fun r => jb_parentId r.2 = Some parent) (jt_rows t)).*1.

(** The children of one job that were not seen: each is canceled and queued. *)
Fixpoint cancel_children (now : Z) (children queue seen : list Z) (t : jobs) : list Z * list Z * jobs :=
  match children with
  | [] => (queue, seen, t)
  | c :: cs =>
      if bool_decide (c ∈ seen) then cancel_children now cs queue seen t
      else cancel_children now cs (queue ++ [c]) (c :: seen) (cancel_one now c t)
  end.

Fixpoint cancel_walk (fuel : nat) (now : Z) (queue seen : list Z) (t : jobs) : option jobs :=
  match queue with
  | [] => Some t
  | p :: queue' =>
      match fuel with
      | O => None
      | S fuel' => let '(q, s, t') := cancel_children now (children_of t p) queue' seen t in cancel_walk fuel' now q s t'
      end
  end.

(** Every job is visited at most once, the first one included. *)
Definition cancel (now id : Z) (t : jobs) : option jobs :=
  cancel_walk (S (length (jt_rows t))) now [id] [id] (cancel_one now id t).

(** * modules.ts *)

Definition by_next_ts (s : job_state) (t : jobs) : list (Z * job) :=
  js_sort (fun a b => jb_nextTs a.2 ?= jb_nextTs b.2) (base.filter (fun r => jb_state r.2 = s) (jt_rows t)).

Definition peekDue (now : Z) (t : jobs) : list Z * option Z :=
  (take BATCH_CAP (base.filter (fun r => jb_nextTs r.2 <= now) (by_next_ts Pending t)).*1,
   match base.filter (fun r => now < jb_nextTs r.2) (by_next_ts Pending t) with r :: _ => Some (jb_nextTs r.2) | [] => None end).

Definition claimed_job (now : Z) (j : job) : job :=
  Job (jb_payload j) (jb_kind j) InProgress (jb_nextTs j) (jb_attempts j) (jb_maxFailures j) (Some (now + LEASE_MS)) (jb_idempotencyKey j)
    (jb_name j) (jb_onComplete j) (jb_context j) (jb_parentId j) (jb_completedTs j) (jb_lastError j).

Definition claim (now id : Z) (t : jobs) : jobs * option P :=
  match get_job t id with
  | Some j => if bool_decide (jb_state j = Pending) then (put_job t id (claimed_job now j), Some (jb_payload j)) else (t, None)
  | None => (t, None)
  end.

Definition succeeded_job (now : Z) (j : job) : job :=
  Job (jb_payload j) (jb_kind j) Succeeded (jb_nextTs j) (jb_attempts j) (jb_maxFailures j) None (jb_idempotencyKey j) (jb_name j)
    (jb_onComplete j) (jb_context j) (jb_parentId j) (Some now) (jb_lastError j).
Definition dead_job (now attempts : Z) (error : jsstr) (j : job) : job :=
  Job (jb_payload j) (jb_kind j) FailedJob (jb_nextTs j) attempts (jb_maxFailures j) None (jb_idempotencyKey j) (jb_name j)
    (jb_onComplete j) (jb_context j) (jb_parentId j) (Some now) (Some error).
Definition retried_job (nextTs attempts : Z) (error : jsstr) (j : job) : job :=
  Job (jb_payload j) (jb_kind j) Pending nextTs attempts (jb_maxFailures j) None (jb_idempotencyKey j) (jb_name j)
    (jb_onComplete j) (jb_context j) (jb_parentId j) (jb_completedTs j) (Some error).

(** [k] is the next word of the random generator. *)
Definition complete (now k id : Z) (result : job_result) (t : jobs) : jobs :=
  match get_job t id with
  | Some j =>
      if negb (bool_decide (jb_state j = InProgress)) then t
      else
        match result with
        | JrSuccess v => fireOnComplete now id (jb_onComplete j) (OcSuccess v) (put_job t id (succeeded_job now j))
        | JrFailed error retryable =>
            let attempts := jb_attempts j + 1 in
            if (jb_maxFailures j <=? attempts) || negb retryable
            then fireOnComplete now id (jb_onComplete j) (OcFailed error) (put_job t id (dead_job now attempts error j))
            else put_job t id (retried_job (now + computeBackoff attempts k) attempts error j)
        end
  | None => t
  end.

Definition lease_error : jsstr := js "lease expired: driver did not complete the job before its lease deadline (infra kill)".

Definition lease_expired (now : Z) (j : job) : bool := match jb_leaseExpiresAt j with Some l => l <? now | None => false end.

Definition expired_jobs (now : Z) (t : jobs) : list Z :=
  take BATCH_CAP (base.filter (fun r => lease_expired now r.2 = true) (by_next_ts InProgress t)).*1.

Definition reclaim_one (now id : Z) (t : jobs) : jobs :=
  match get_job t id with
  | Some j =>
      let attempts := jb_attempts j + 1 in
      if bool_decide (jb_kind j = JMutation) && (attempts <? jb_maxFailures j) then put_job t id (retried_job now attempts lease_error j)
      else fireOnComplete now id (jb_onComplete j) (OcFailed lease_error) (put_job t id (dead_job now attempts lease_error j))
  | None => t
  end.

Definition reclaim (now : Z) (t : jobs) : jobs := foldl (fun t id => reclaim_one now id t) t (expired_jobs now t).

(** * The jitter stays between a half and the whole *)

Lemma computeBackoff_bounds attempts k : 0 <= attempts -> 0 <= k < 2 ^ 32 ->
  backoff_raw attempts / 2 <= computeBackoff attempts k <= backoff_raw attempts.
Proof.
  intros Ha Hk. unfold computeBackoff. set (r := backoff_raw attempts). assert (Hr : 0 < r) by (unfold r, backoff_raw, initialBackoffMs; lia).
  split.
  - apply Z.div_le_lower_bound; [lia|]. pose proof (Z.mul_div_le r 2 ltac:(lia)). nia.
  - apply Z.lt_succ_r, Z.div_lt_upper_bound; [lia|]. nia.
Qed.
End scheduler.
