(* ===== verification/SchedulerRuns.v ===== *)
(** Runs of the scheduler: the driver's claims, executions and completions, its
    crashes, the sweep, and the transactions that enqueue and cancel.

    A flight is what one driver knows of a job it claimed.  Nothing ties a
    flight to the job's later fate: a driver may complete a job that was
    reclaimed in the meantime, and it may die at any point.

    What the scheduler's operations leave of a job, and where its jobs come from.

    A job keeps its function, its callback and its context for good.  [evolves
    t t' l]: between two tables no job was enqueued but the callbacks of the
    completions [l]. *)
From Stdlib Require Import ZArith Lia.
From stdpp Require Import base list sets strings.
From S2P Require Import Prelude JsBase Values Scheduler.

Section runs.
Context {P C X : Type} (callback : C -> Z -> option X -> oc_result -> P).
Notation job := (job P C X).
Notation jobs := (jobs P C X).
Notation enqueueInternal := (@enqueueInternal P C X).
Notation fireOnComplete := (fireOnComplete callback).
Notation cancel := (cancel callback).
Notation complete := (complete callback).
Notation reclaim := (reclaim callback).

(** * The system *)

Record flight := Flight { fl_job : Z; fl_payload : P; fl_result : option job_result }.

(** [sr_claimed] and [sr_ran] record claims and executions for the theorems. *)
Record srun := SRun
  { sr_jobs : jobs; sr_flights : list (Z * flight); sr_nextFlight : Z; sr_claimed : list Z; sr_ran : list Z }.
Definition srun_empty : srun := SRun (Jobs [] 0 []) [] 0 [] [].

Inductive slabel :=
  | SEnqueue (now : Z) (payload : P) (o : enqueue_opts C X) (kind : job_kind)
  | SCancel (now id : Z)
  | SClaim (now id : Z)
  | SExec (f : Z) (r : job_result)
  | SComplete (now k f : Z)
  | SCrash (f : Z)
  | SReclaim (now : Z).

Definition with_jobs (x : srun) (t : jobs) : srun := SRun t (sr_flights x) (sr_nextFlight x) (sr_claimed x) (sr_ran x).

Definition srun_step (x : srun) (l : slabel) : srun :=
  match l with
  | SEnqueue now p o kind => with_jobs x (enqueueInternal now p o kind (sr_jobs x)).1
  | SCancel now id => match cancel now id (sr_jobs x) with Some t => with_jobs x t | None => x end
  | SClaim now id =>
      match claim now id (sr_jobs x) with
      | (t, Some p) => SRun t (sr_flights x ++ [(sr_nextFlight x, Flight id p None)]) (sr_nextFlight x + 1) (sr_claimed x ++ [id]) (sr_ran x)
      | (t, None) => with_jobs x t
      end
  | SExec f r =>
      match jm_get (sr_flights x) f with
      | Some (Flight id p None) => SRun (sr_jobs x) (jm_set (sr_flights x) f (Flight id p (Some r))) (sr_nextFlight x) (sr_claimed x) (sr_ran x ++ [id])
      | _ => x
      end
  | SComplete now k f =>
      match jm_get (sr_flights x) f with
      | Some (Flight id p (Some r)) => SRun (complete now k id r (sr_jobs x)) (jm_delete (sr_flights x) f) (sr_nextFlight x) (sr_claimed x) (sr_ran x)
      | _ => x
      end
  | SCrash f => SRun (sr_jobs x) (jm_delete (sr_flights x) f) (sr_nextFlight x) (sr_claimed x) (sr_ran x)
  | SReclaim now => with_jobs x (reclaim now (sr_jobs x))
  end.
Definition srun_steps (x : srun) (ls : list slabel) : srun := fold_left srun_step ls x.

(** * The job table *)

Definition times (id : Z) (l : list Z) : Z := Z.of_nat (length (base.filter (fun i => i = id) l)).

(** How often a job may have been claimed. *)
Definition counts_ok (claimed : list Z) (id : Z) (j : job) : Prop :=
  match jb_state j with
  | Pending => times id claimed <= jb_attempts j /\ (jb_attempts j = 0 \/ jb_attempts j < jb_maxFailures j)
  | InProgress => times id claimed <= jb_attempts j + 1 /\ (jb_attempts j = 0 \/ jb_attempts j < jb_maxFailures j)
  | _ => times id claimed <= Z.max 1 (jb_maxFailures j)
  end.

Record jobs_ok (claimed : list Z) (t : jobs) : Prop := {
  jo_nodup : NoDup (jm_keys (jt_rows t));
  jo_next id : id ∈ jm_keys (jt_rows t) -> id < jt_next t;
  jo_counts id j : get_job t id = Some j -> counts_ok claimed id j;
  jo_claimed id : id ∈ claimed -> is_Some (get_job t id)
}.

Definition outcome_state (r : oc_result) : job_state := match r with OcSuccess _ => Succeeded | OcFailed _ => FailedJob | OcCanceled => CanceledJob end.

(** A completion callback: enqueued for the outcome, with the job's context. *)
Definition called_back (t : jobs) (id : Z) (j : job) (r : oc_result) : Prop :=
  forall c, jb_onComplete j = Some c -> exists cid cj, get_job t cid = Some cj /\ jb_payload cj = callback c id (jb_context j) r.

(** [pending] is a job whose callback is about to be fired. *)
Record fired_ok (pending : option Z) (t : jobs) : Prop := {
  fo_nodup : NoDup (jt_fired t).*1;
  fo_fired id r : (id, r) ∈ jt_fired t -> exists j, get_job t id = Some j /\ jb_state j = outcome_state r /\ called_back t id j r;
  fo_terminal id j : get_job t id = Some j -> job_terminal (jb_state j) = true -> pending <> Some id -> id ∈ (jt_fired t).*1;
  fo_pending id : pending = Some id -> id ∉ (jt_fired t).*1
}.

Lemma times_snoc id i l : times id (l ++ [i]) = times id l + (if decide (i = id) then 1 else 0).
Proof.
  unfold times. rewrite filter_app, length_app. cbn. destruct (decide (i = id)); cbn; lia.
Qed.
Lemma times_nonneg id l : 0 <= times id l.
Proof. unfold times. lia. Qed.
Lemma times_absent id l : id ∉ l -> times id l = 0.
Proof.
  intros H. unfold times. replace (base.filter (fun i => i = id) l) with (@nil Z); [done|]. symmetry.
  induction l as [|x l IH]; [done|]. rewrite filter_cons_False; [apply IH; set_solver|set_solver].
Qed.

Lemma counts_bound claimed id j : counts_ok claimed id j -> times id claimed <= Z.max 1 (jb_maxFailures j).
Proof. unfold counts_ok. destruct (jb_state j); lia. Qed.

Lemma get_put (t : jobs) id j id' : get_job (put_job t id j) id' = if decide (id' = id) then Some j else get_job t id'.
Proof. apply jm_get_set. Qed.

Lemma keys_put (t : jobs) id j : is_Some (get_job t id) -> jm_keys (jt_rows (put_job t id j)) = jm_keys (jt_rows t).
Proof.
  intros [j0 Hj]. unfold put_job. cbn [jt_rows]. rewrite jm_keys_set. rewrite decide_True; [done|]. apply jm_get_Some_in in Hj.
  unfold jm_keys. apply list_elem_of_fmap. by exists (id, j0).
Qed.

Lemma get_insert claimed (t : jobs) j id : jobs_ok claimed t ->
  get_job (insert_job t j).1 id = if decide (id = jt_next t) then Some j else get_job t id.
Proof.
  intros HJ. unfold get_job. cbn. rewrite <-jm_set_fresh; [apply jm_get_set|]. intros Hin. apply (jo_next _ _ HJ) in Hin. lia.
Qed.
Lemma get_next claimed (t : jobs) : jobs_ok claimed t -> get_job t (jt_next t) = None.
Proof. intros HJ. apply jm_get_None. intros Hin. apply (jo_next _ _ HJ) in Hin. lia. Qed.

(** ** One row changes *)

Lemma put_jobs_ok claimed (t : jobs) id j j' : jobs_ok claimed t -> get_job t id = Some j -> counts_ok claimed id j' -> jobs_ok claimed (put_job t id j').
Proof.
  intros [H1 H2 H3 H4] Hj Hc. split.
  - by rewrite keys_put.
  - intros i. rewrite keys_put by done. apply H2.
  - intros i ji. rewrite get_put. case_decide; [intros [= <-]; by subst|apply H3].
  - intros i Hi. rewrite get_put. case_decide; [done|by apply H4].
Qed.

Lemma insert_jobs_ok claimed (t : jobs) j : jobs_ok claimed t -> jb_state j = Pending -> jb_attempts j = 0 -> jobs_ok claimed (insert_job t j).1.
Proof.
  intros HJ Hs Ha. pose proof HJ as [H1 H2 H3 H4]. split.
  - cbn. unfold jm_keys in *. rewrite fmap_app. apply NoDup_app. split_and!; [done| |apply NoDup_singleton].
    intros i Hi Hn. apply list_elem_of_singleton in Hn as ->. specialize (H2 _ Hi). cbn in H2. lia.
  - intros i. cbn. unfold jm_keys. rewrite fmap_app. intros [Hi|Hi]%elem_of_app; [specialize (H2 i Hi); lia|].
    apply list_elem_of_singleton in Hi as ->. cbn. lia.
  - intros i ji. erewrite get_insert by done. case_decide; [|apply H3]. intros [= <-]. subst i. unfold counts_ok. rewrite Hs, Ha.
    rewrite times_absent; [lia|]. intros Hin. destruct (H4 _ Hin) as [? Hx]. erewrite get_next in Hx by done. done.
  - intros i Hi. erewrite get_insert by done. case_decide; [done|by apply H4].
Qed.

(** What a callback refers to is kept by such a change. *)
Lemma called_back_put t id j0 j0' i j r : get_job t id = Some j0 -> jb_payload j0' = jb_payload j0 ->
  called_back t i j r -> called_back (put_job t id j0') i j r.
Proof.
  intros Hj0 Hp H c Hc. destruct (H c Hc) as (cid & cj & Hcj & Hpay). destruct (decide (cid = id)) as [->|Hne].
  - exists id, j0'. rewrite get_put, decide_True by done. split; [done|]. rewrite Hp. congruence.
  - exists cid, cj. rewrite get_put, decide_False by done. done.
Qed.
Lemma called_back_insert claimed t j0 i j r : jobs_ok claimed t -> called_back t i j r -> called_back (insert_job t j0).1 i j r.
Proof.
  intros HJ H c Hc. destruct (H c Hc) as (cid & cj & Hcj & Hpay). exists cid, cj. split; [|done].
  erewrite get_insert by done. case_decide; [subst; erewrite get_next in Hcj by done; done|done].
Qed.

Definition same_job (j j' : job) : Prop := jb_payload j' = jb_payload j /\ jb_onComplete j' = jb_onComplete j /\ jb_context j' = jb_context j.

Lemma put_fired_ok t id j j' (term : bool) : get_job t id = Some j -> same_job j j' -> job_terminal (jb_state j) = false ->
  job_terminal (jb_state j') = term -> fired_ok None t -> fired_ok (if term then Some id else None) (put_job t id j').
Proof.
  intros Hj (Hp & Ho & Hx) Hs Hs' [F1 F2 F3 F4]. assert (Hnf : id ∉ (jt_fired t).*1).
  { intros Hin. apply list_elem_of_fmap in Hin as ([i r] & Heq & Hin). cbn in Heq. subst i. destruct (F2 _ _ Hin) as (j2 & Hj2 & Hst & _).
    assert (j2 = j) as -> by congruence. rewrite Hst in Hs. by destruct r. }
  split.
  - exact F1.
  - intros i r Hin. destruct (F2 i r Hin) as (ji & Hji & Hst & Hcb). rewrite get_put. case_decide as E.
    + subst i. exfalso. apply Hnf. apply list_elem_of_fmap. by exists (id, r).
    + exists ji. split_and!; [done|done|]. by eapply called_back_put.
  - intros i ji. rewrite get_put. case_decide as E; intros Hji Ht Hpe; [|apply (F3 i ji); [done|done|]; done].
    injection Hji as <-. subst i. rewrite Hs' in Ht. rewrite Ht in Hpe. done.
  - destruct term; [|done]. by intros i [= <-].
Qed.

Lemma insert_fired_ok claimed t j p : jobs_ok claimed t -> job_terminal (jb_state j) = false -> fired_ok p t -> fired_ok p (insert_job t j).1.
Proof.
  intros HJ Hs [F1 F2 F3 F4]. split.
  - exact F1.
  - intros i r Hin. destruct (F2 i r Hin) as (ji & Hji & Hst & Hcb). exists ji. split_and!; [|done|by eapply called_back_insert].
    erewrite get_insert by done. case_decide; [subst; erewrite get_next in Hji by done; done|done].
  - intros i ji. erewrite get_insert by done. case_decide; [intros [= <-]; congruence|apply F3].
  - exact F4.
Qed.

(** ** Firing *)

Lemma fire_ok claimed (t : jobs) now id j r : jobs_ok claimed t -> fired_ok (Some id) t -> get_job t id = Some j -> jb_state j = outcome_state r ->
  let t' := fireOnComplete now id (jb_onComplete j) r t in jobs_ok claimed t' /\ fired_ok None t'.
Proof.
  intros HJ HF Hj Hs. set (t0 := Jobs (jt_rows t) (jt_next t) (jt_fired t ++ [(id, r)])).
  assert (HJ0 : jobs_ok claimed t0) by (destruct HJ; by split).
  assert (Hnd : NoDup (jt_fired t0).*1).
  { cbn. rewrite fmap_app. apply NoDup_app. split_and!; [apply HF| |apply NoDup_singleton].
    intros i Hi Hn. apply list_elem_of_singleton in Hn as ->. by apply (fo_pending _ _ HF id). }
  assert (Hterm : forall i ji, get_job t0 i = Some ji -> job_terminal (jb_state ji) = true -> None <> Some i -> i ∈ (jt_fired t0).*1).
  { intros i ji Hji Ht _. cbn. rewrite fmap_app. apply elem_of_app. destruct (decide (i = id)) as [->|Hne]; [right; left|left].
    apply (fo_terminal _ _ HF i ji); [done|done|congruence]. }
  unfold fireOnComplete, Scheduler.fireOnComplete. fold t0. destruct (jb_onComplete j) as [c|] eqn:Ec.
  - change (get_job t0 id) with (get_job t id). rewrite Hj. unfold Scheduler.enqueueInternal. cbn [eo_idempotencyKey run_at].
    set (cb := new_job now (callback c id (jb_context j) r) (run_at now) JMutation). split; [by apply insert_jobs_ok|].
    assert (Hget : forall i ji, get_job t0 i = Some ji -> get_job (insert_job t0 cb).1 i = Some ji).
    { intros i ji Hji. erewrite get_insert by done. case_decide; [subst; erewrite get_next in Hji by done; done|done]. }
    split; [exact Hnd| | |done].
    + intros i ri Hin. apply elem_of_app in Hin as [Hin|Hin%list_elem_of_singleton].
      * destruct (fo_fired _ _ HF i ri Hin) as (ji & Hji & Hst & Hcb). exists ji. split_and!; [by apply Hget|done|].
        eapply called_back_insert; [done|]. exact Hcb.
      * injection Hin as -> ->. exists j. split_and!; [by apply Hget|done|]. intros c' Hc'. assert (c' = c) as -> by congruence.
        exists (jt_next t0), cb. split; [|done]. erewrite get_insert by done. by rewrite decide_True.
    + intros i ji. erewrite get_insert by done. case_decide; [intros [= <-]; done|apply Hterm].
  - split; [done|]. split; [exact Hnd| |exact Hterm|done]. intros i ri Hin. apply elem_of_app in Hin as [Hin|Hin%list_elem_of_singleton].
    + exact (fo_fired _ _ HF i ri Hin).
    + injection Hin as -> ->. exists j. split_and!; [done|done|]. intros c' Hc'. congruence.
Qed.

Definition table_ok (claimed : list Z) (t : jobs) : Prop := jobs_ok claimed t /\ fired_ok None t.

(** A job ends: its row, then its callback. *)
Lemma finish_ok claimed (t : jobs) now id j j' r : table_ok claimed t -> get_job t id = Some j -> job_terminal (jb_state j) = false ->
  same_job j j' -> jb_state j' = outcome_state r -> counts_ok claimed id j' ->
  table_ok claimed (fireOnComplete now id (jb_onComplete j) r (put_job t id j')).
Proof.
  intros [HJ HF] Hj Hs Hsame Hs' Hc. replace (jb_onComplete j) with (jb_onComplete j') by apply Hsame.
  apply fire_ok; [by eapply put_jobs_ok| | |done].
  - apply (put_fired_ok t id j j' true); try done. rewrite Hs'. by destruct r.
  - rewrite get_put. by rewrite decide_True.
Qed.

Lemma retry_ok claimed (t : jobs) id j j' : table_ok claimed t -> get_job t id = Some j -> job_terminal (jb_state j) = false ->
  same_job j j' -> job_terminal (jb_state j') = false -> counts_ok claimed id j' -> table_ok claimed (put_job t id j').
Proof.
  intros [HJ HF] Hj Hs Hsame Hs' Hc. split; [by eapply put_jobs_ok|]. by apply (put_fired_ok t id j j' false).
Qed.

(** * Each operation *)

Lemma enqueue_ok claimed now p o kind (t : jobs) : table_ok claimed t -> table_ok claimed (enqueueInternal now p o kind t).1.
Proof.
  intros [HJ HF]. unfold enqueueInternal, Scheduler.enqueueInternal. destruct (match eo_idempotencyKey o with Some _ => _ | None => _ end); [done|].
  split; [by apply insert_jobs_ok|by eapply insert_fired_ok].
Qed.

Lemma complete_ok claimed now k id r (t : jobs) : table_ok claimed t -> table_ok claimed (complete now k id r t).
Proof.
  intros HT. unfold complete, Scheduler.complete. destruct (get_job t id) as [j|] eqn:Ej; [|done].
  destruct (bool_decide (jb_state j = InProgress)) eqn:Es; cbn [negb]; [|done]. apply bool_decide_eq_true in Es.
  pose proof (jo_counts _ _ (proj1 HT) _ _ Ej) as Hc. unfold counts_ok in Hc. rewrite Es in Hc.
  assert (Ht : job_terminal (jb_state j) = false) by by rewrite Es.
  destruct r as [v|e retryable].
  - eapply finish_ok; try done. unfold counts_ok. cbn. lia.
  - destruct ((jb_maxFailures j <=? jb_attempts j + 1) || negb retryable) eqn:Eb.
    + eapply finish_ok; try done. unfold counts_ok. cbn. lia.
    + apply orb_false_iff in Eb as [Eb _]. apply Z.leb_gt in Eb. eapply retry_ok; try done. unfold counts_ok. cbn. lia.
Qed.

Lemma reclaim_one_ok claimed now id (t : jobs) : table_ok claimed t -> (forall j, get_job t id = Some j -> jb_state j = InProgress) ->
  table_ok claimed (reclaim_one callback now id t).
Proof.
  intros HT Hp. unfold reclaim_one. destruct (get_job t id) as [j|] eqn:Ej; [|done]. specialize (Hp j eq_refl).
  pose proof (jo_counts _ _ (proj1 HT) _ _ Ej) as Hc. unfold counts_ok in Hc. rewrite Hp in Hc.
  assert (Ht : job_terminal (jb_state j) = false) by by rewrite Hp.
  destruct (bool_decide (jb_kind j = JMutation) && (jb_attempts j + 1 <? jb_maxFailures j)) eqn:Eb.
  - apply andb_true_iff in Eb as [_ Eb]. apply Z.ltb_lt in Eb. eapply retry_ok; try done. unfold counts_ok. cbn. lia.
  - eapply finish_ok; try done. unfold counts_ok. cbn. lia.
Qed.

(** The other rows stay. *)
Lemma fire_get claimed (t : jobs) now id oc r i j : jobs_ok claimed t -> get_job t i = Some j -> get_job (fireOnComplete now id oc r t) i = Some j.
Proof.
  intros HJ Hj. unfold fireOnComplete, Scheduler.fireOnComplete. destruct oc as [c|]; [|exact Hj].
  unfold Scheduler.enqueueInternal. cbn [eo_idempotencyKey run_at]. set (t0 := Jobs _ _ _). assert (HJ0 : jobs_ok claimed t0) by (destruct HJ; by split).
  erewrite get_insert by done. case_decide; [|exact Hj]. subst i. change (jt_next t0) with (jt_next t) in Hj. erewrite get_next in Hj by exact HJ. done.
Qed.

Lemma reclaim_one_get claimed (t : jobs) now id i j : table_ok claimed t -> (forall j, get_job t id = Some j -> jb_state j = InProgress) ->
  i <> id -> get_job t i = Some j -> get_job (reclaim_one callback now id t) i = Some j.
Proof.
  intros HT Hp Hne Hj. unfold reclaim_one. destruct (get_job t id) as [j0|] eqn:Ej; [|done]. specialize (Hp j0 eq_refl).
  assert (Hput : forall j', get_job (put_job t id j') i = Some j) by (intros; rewrite get_put, decide_False by done; exact Hj).
  destruct (bool_decide _ && _); [apply Hput|]. pose proof (jo_counts _ _ (proj1 HT) _ _ Ej) as Hc. unfold counts_ok in Hc. rewrite Hp in Hc.
  eapply fire_get; [|apply Hput]. eapply put_jobs_ok; [apply HT|done|]. unfold counts_ok. cbn. lia.
Qed.

Lemma expired_in claimed now (t : jobs) : jobs_ok claimed t ->
  NoDup (expired_jobs now t) /\ forall id, id ∈ expired_jobs now t -> exists j, get_job t id = Some j /\ jb_state j = InProgress.
Proof.
  intros HJ. pose proof (jo_nodup _ _ HJ) as Hnd. unfold expired_jobs, by_next_ts. split.
  - eapply sublist_NoDup; [|apply sublist_take]. eapply sublist_NoDup; [|apply fmap_sublist, sublist_filter].
    rewrite js_sort_perm. eapply sublist_NoDup; [exact Hnd|]. apply fmap_sublist, sublist_filter.
  - intros id Hin. apply elem_of_take in Hin as (k & Hin & _). apply list_elem_of_lookup_2 in Hin.
    apply list_elem_of_fmap in Hin as ([i j] & -> & Hin). apply list_elem_of_filter in Hin as [_ Hin].
    rewrite js_sort_perm in Hin. apply list_elem_of_filter in Hin as [Hs Hin]. exists j. split; [|done]. by apply jm_in_get.
Qed.

Lemma reclaim_ok claimed now (t : jobs) : table_ok claimed t -> table_ok claimed (reclaim now t).
Proof.
  intros HT. unfold reclaim, Scheduler.reclaim. destruct (expired_in claimed now t (proj1 HT)) as [Hnd Hp].
  revert t HT Hnd Hp. intros t. generalize (expired_jobs now t) as l. intros l. revert t.
  induction l as [|id l IH]; intros t HT Hnd Hp; [done|]. cbn [foldl]. apply NoDup_cons in Hnd as [Hni Hnd].
  assert (Hid : forall j, get_job t id = Some j -> jb_state j = InProgress).
  { intros j Hj. destruct (Hp id) as (j' & Hj' & Hs); [left|]. congruence. }
  apply IH; [by apply reclaim_one_ok|done|]. intros i Hi. destruct (Hp i) as (j & Hj & Hs); [by right|]. exists j. split; [|done].
  eapply reclaim_one_get; [done|done| |done]. by intros ->.
Qed.

Lemma claim_ok claimed now id (t : jobs) : table_ok claimed t ->
  match claim now id t with (t', Some _) => table_ok (claimed ++ [id]) t' /\ is_Some (get_job t id) | (t', None) => t' = t end.
Proof.
  intros HT. unfold claim. destruct (get_job t id) as [j|] eqn:Ej; [|done]. destruct (bool_decide (jb_state j = Pending)) eqn:Es; [|done].
  apply bool_decide_eq_true in Es. split; [|done]. destruct HT as [HJ HF]. split.
  - pose proof (jo_counts _ _ HJ _ _ Ej) as Hc. unfold counts_ok in Hc. rewrite Es in Hc. split.
    + rewrite keys_put by done. apply HJ.
    + intros i. rewrite keys_put by done. apply HJ.
    + intros i ji. rewrite get_put. case_decide as E.
      * intros [= <-]. subst i. unfold counts_ok. cbn. rewrite times_snoc, decide_True by done. lia.
      * intros Hji. pose proof (jo_counts _ _ HJ _ _ Hji) as Hci. unfold counts_ok in *. rewrite times_snoc, decide_False by congruence.
        by rewrite Z.add_0_r.
    + intros i Hi. rewrite get_put. case_decide; [done|]. apply elem_of_app in Hi as [Hi|Hi%list_elem_of_singleton]; [by apply HJ|done].
  - apply (put_fired_ok t id j _ false); [done| |by rewrite Es|done|done]. by split.
Qed.

(** ** Cancelation *)

Lemma cancel_one_ok claimed now id (t : jobs) : table_ok claimed t -> table_ok claimed (cancel_one callback now id t).
Proof.
  intros HT. unfold cancel_one. destruct (get_job t id) as [j|] eqn:Ej; [|done]. destruct (bool_decide (jb_state j = Pending)) eqn:Es; [|done].
  apply bool_decide_eq_true in Es. pose proof (jo_counts _ _ (proj1 HT) _ _ Ej) as Hc. unfold counts_ok in Hc. rewrite Es in Hc.
  eapply finish_ok; try done; [by rewrite Es|]. unfold counts_ok. cbn. lia.
Qed.

Lemma cancel_children_ok claimed now cs q s (t : jobs) : table_ok claimed t -> table_ok claimed (cancel_children callback now cs q s t).2.
Proof.
  revert q s t. induction cs as [|c cs IH]; intros q s t HT; cbn [cancel_children]; [done|].
  destruct (bool_decide (c ∈ s)); apply IH; [done|by apply cancel_one_ok].
Qed.

Lemma cancel_walk_ok claimed fuel now q s (t t' : jobs) : table_ok claimed t -> cancel_walk callback fuel now q s t = Some t' -> table_ok claimed t'.
Proof.
  revert q s t. induction fuel as [|fuel IH]; intros [|p q] s t HT; cbn [cancel_walk]; try (by intros [= <-]).
  pose proof (cancel_children_ok claimed now (children_of t p) q s t HT) as H. destruct (cancel_children _ _ _ _ _ _) as [[q' s'] t1]. by apply IH.
Qed.

(** The walk ends: every job that has a parent is queued at most once. *)
Definition kids (t : jobs) : list Z := (base.filter (fun r => jb_parentId r.2 <> None) (jt_rows t)).*1.
Definition unseen (K seen : list Z) : nat := length (base.filter (fun i => i ∉ seen) K).

Lemma kids_put (t : jobs) id j j' : get_job t id = Some j -> jb_parentId j' = jb_parentId j -> kids (put_job t id j') = kids t.
Proof.
  unfold get_job, put_job, kids. cbn [jt_rows]. intros Hj Hp. induction (jt_rows t) as [|[i ji] l IH]; [done|]. cbn in *. case_decide as E.
  - subst. injection Hj as ->. rewrite !filter_cons. cbn [snd]. rewrite Hp. by case_decide.
  - rewrite !filter_cons. cbn [snd]. case_decide; csimpl; by rewrite IH.
Qed.
Lemma kids_insert (t : jobs) j : jb_parentId j = None -> kids (insert_job t j).1 = kids t.
Proof.
  intros Hj. unfold kids. cbn. rewrite filter_app, fmap_app. rewrite filter_cons_False; [by rewrite app_nil_r|]. cbn. rewrite Hj. by intros [].
Qed.
Lemma kids_fire (t : jobs) now id oc r : kids (fireOnComplete now id oc r t) = kids t.
Proof. unfold fireOnComplete, Scheduler.fireOnComplete. destruct oc; [|done]. unfold Scheduler.enqueueInternal. cbn [eo_idempotencyKey run_at]. by rewrite kids_insert. Qed.
Lemma kids_cancel (t : jobs) now id : kids (cancel_one callback now id t) = kids t.
Proof.
  unfold cancel_one. destruct (get_job t id) as [j|] eqn:Ej; [|done]. destruct (bool_decide _); [|done].
  etrans; [apply kids_fire|]. by eapply kids_put.
Qed.

Lemma filter_agree (F G : Z -> Prop) `{!forall x, Decision (F x), !forall x, Decision (G x)} (l : list Z) :
  (forall x, x ∈ l -> F x <-> G x) -> base.filter F l = base.filter G l.
Proof.
  induction l as [|x l IH]; intros Hfg; [done|]. rewrite !filter_cons, IH by (intros y Hy; apply Hfg; by right).
  pose proof (Hfg x ltac:(left)). repeat case_decide; tauto.
Qed.

Lemma unseen_cons K seen c : NoDup K -> c ∈ K -> c ∉ seen -> S (unseen K (c :: seen)) = unseen K seen.
Proof.
  unfold unseen. induction K as [|k K IH]; intros Hnd Hc Hs; [by apply not_elem_of_nil in Hc|]. apply NoDup_cons in Hnd as [Hk Hnd].
  apply elem_of_cons in Hc as [<-|Hc].
  - rewrite filter_cons_False by set_solver. rewrite filter_cons_True by done. cbn. f_equal.
    f_equal. apply filter_agree. intros x Hx. assert (x <> c) by (by intros ->). set_solver.
  - rewrite !filter_cons. repeat case_decide; cbn; rewrite ?IH by done; try done; set_solver.
Qed.

Lemma cancel_children_measure now cs q seen (t : jobs) : NoDup (kids t) -> Forall (.∈ kids t) cs ->
  let '(q', seen', t') := cancel_children callback now cs q seen t in
  (length q' + unseen (kids t) seen' = length q + unseen (kids t) seen)%nat /\ kids t' = kids t.
Proof.
  revert q seen t. induction cs as [|c cs IH]; intros q seen t Hnd Hcs; cbn [cancel_children]; [done|]. apply Forall_cons in Hcs as [Hc Hcs].
  destruct (bool_decide (c ∈ seen)) eqn:Es; [by apply IH|]. apply bool_decide_eq_false in Es.
  specialize (IH (q ++ [c]) (c :: seen) (cancel_one callback now c t)). rewrite kids_cancel in IH. specialize (IH Hnd Hcs).
  destruct (cancel_children _ _ _ _ _ _) as [[q' seen'] t']. destruct IH as [IH1 IH2]. split; [|done]. rewrite IH1, length_app. cbn.
  pose proof (unseen_cons (kids t) seen c Hnd Hc Es). lia.
Qed.

Lemma cancel_walk_total fuel now q seen (t : jobs) : NoDup (kids t) -> (length q + unseen (kids t) seen <= fuel)%nat ->
  is_Some (cancel_walk callback fuel now q seen t).
Proof.
  revert q seen t. induction fuel as [|fuel IH]; intros [|p q] seen t Hnd Hf; cbn [cancel_walk]; try done; [cbn in Hf; lia|].
  assert (Hcs : Forall (.∈ kids t) (children_of t p)).
  { apply Forall_forall. intros i Hi. unfold children_of, kids in *. apply list_elem_of_fmap in Hi as (r & -> & Hr). apply list_elem_of_fmap_2.
    apply list_elem_of_filter in Hr as [Hr Hin]. apply list_elem_of_filter. split; [by rewrite Hr|done]. }
  pose proof (cancel_children_measure now (children_of t p) q seen t Hnd Hcs) as H. destruct (cancel_children _ _ _ _ _ _) as [[q' seen'] t'].
  destruct H as [H1 H2]. apply IH; rewrite H2; [done|]. cbn in Hf. lia.
Qed.

Lemma kids_nodup claimed (t : jobs) : jobs_ok claimed t -> NoDup (kids t).
Proof. intros HJ. unfold kids. eapply sublist_NoDup; [exact (jo_nodup _ _ HJ)|]. apply fmap_sublist, sublist_filter. Qed.

Lemma cancel_total claimed now id (t : jobs) : jobs_ok claimed t -> is_Some (cancel now id t).
Proof.
  intros HJ. unfold cancel, Scheduler.cancel. apply cancel_walk_total; rewrite kids_cancel; [by eapply kids_nodup|]. cbn. apply le_n_S.
  unfold unseen. etrans; [apply length_filter|]. unfold kids. rewrite length_fmap. apply length_filter.
Qed.

(** * Runs *)

(** Claims that were not executed yet. *)
Definition waiting (id : Z) (fl : list (Z * flight)) : Z :=
  Z.of_nat (length (base.filter (fun f => fl_job f.2 = id /\ fl_result f.2 = None) fl)).

Lemma waiting_delete id f fl : waiting id (jm_delete fl f) <= waiting id fl.
Proof.
  unfold waiting, jm_delete. apply inj_le. apply sublist_length. induction fl as [|g fl IH]; [done|].
  rewrite !filter_cons. repeat case_decide; rewrite ?filter_cons; repeat case_decide; try done; by constructor.
Qed.
Lemma waiting_run id f fl i p r : jm_get fl f = Some (Flight i p None) ->
  waiting id (jm_set fl f (Flight i p (Some r))) = waiting id fl - (if decide (i = id) then 1 else 0).
Proof.
  unfold waiting. induction fl as [|[g fg] fl IH]; cbn [jm_get jm_set]; [done|]. destruct (decide (f = g)) as [E|E].
  - intros [= ->]. rewrite !filter_cons. cbn [fl_job fl_result snd]. destruct (decide (i = id)).
    + rewrite decide_False by naive_solver. rewrite decide_True by done. cbn. lia.
    + rewrite !decide_False by naive_solver. lia.
  - intros H. specialize (IH H). rewrite !filter_cons. destruct (decide (fl_job (g, fg).2 = id /\ fl_result (g, fg).2 = None)); cbn [length]; lia.
Qed.

Record srun_ok (x : srun) : Prop := {
  so_table : table_ok (sr_claimed x) (sr_jobs x);
  so_ran id : times id (sr_ran x) + waiting id (sr_flights x) <= times id (sr_claimed x)
}.

Lemma srun_empty_ok : srun_ok srun_empty.
Proof.
  split; [|done]. split; split; cbn; try done; [constructor|by intros ? ?%not_elem_of_nil|by intros ? ?%not_elem_of_nil|constructor|by intros ? ? ?%not_elem_of_nil].
Qed.

Lemma srun_step_ok x l : srun_ok x -> srun_ok (srun_step x l).
Proof.
  intros [HT HR]. destruct l as [now p o kind|now id|now id|f r|now k f|f|now]; cbn [srun_step].
  - split; [by apply enqueue_ok|exact HR].
  - destruct (cancel now id (sr_jobs x)) as [t|] eqn:E; [|done]. split; [|exact HR].
    eapply cancel_walk_ok; [|exact E]. by apply cancel_one_ok.
  - pose proof (claim_ok (sr_claimed x) now id (sr_jobs x) HT) as H. destruct (claim now id (sr_jobs x)) as [t [p|]].
    + split; [apply H|]. intros i. specialize (HR i). cbn. rewrite times_snoc. unfold waiting in *. rewrite filter_app, length_app, Nat2Z.inj_add.
      cbn -[Z.of_nat]. repeat case_decide; cbn; try lia; naive_solver.
    + subst t. by split.
  - destruct (jm_get (sr_flights x) f) as [[id p [r'|]]|] eqn:E; try done. split; [done|]. intros i. specialize (HR i). cbn.
    rewrite times_snoc, (waiting_run _ _ _ _ _ _ E). lia.
  - destruct (jm_get (sr_flights x) f) as [[id p [r|]]|] eqn:E; try done. split; [by apply complete_ok|].
    intros i. specialize (HR i). pose proof (waiting_delete i f (sr_flights x)). cbn. lia.
  - split; [done|]. intros i. specialize (HR i). pose proof (waiting_delete i f (sr_flights x)). cbn. lia.
  - split; [by apply reclaim_ok|exact HR].
Qed.

Lemma srun_steps_ok x ls : srun_ok x -> srun_ok (srun_steps x ls).
Proof. revert x. induction ls as [|l ls IH]; intros x H; [done|]. by apply IH, srun_step_ok. Qed.

(** A cancelation always ends. *)
Lemma cancel_ends ls now id : is_Some (cancel now id (sr_jobs (srun_steps srun_empty ls))).
Proof. eapply cancel_total. apply (srun_steps_ok _ ls srun_empty_ok). Qed.
End runs.

Section history.
Context {P C X : Type} (callback : C -> Z -> option X -> oc_result -> P).
Notation job := (job P C X).
Notation jobs := (jobs P C X).
Notation fireOnComplete := (fireOnComplete callback).

Definition job_core (j : job) : P * job_kind * Z * option C * option X := (jb_payload j, jb_kind j, jb_maxFailures j, jb_onComplete j, jb_context j).

(** The jobs that call back when they end, and the pair of one with its callback's job. *)
Definition calls_back (t : jobs) (id : Z) : bool :=
  match get_job t id with Some j => match jb_onComplete j with Some _ => true | None => false end | None => false end.
Definition callback_of (t : jobs) (l : list (Z * oc_result)) (call : Z * Z) : Prop :=
  exists j c r cj, get_job t call.1 = Some j /\ jb_onComplete j = Some c /\ (call.1, r) ∈ l /\
    get_job t call.2 = Some cj /\ jb_payload cj = callback c call.1 (jb_context j) r.

Definition cores_kept (t t' : jobs) : Prop := forall i j, get_job t i = Some j -> exists j', get_job t' i = Some j' /\ job_core j' = job_core j.

Record evolves (t t' : jobs) (l : list (Z * oc_result)) : Prop := {
  ev_keep i j : get_job t i = Some j -> exists j', get_job t' i = Some j' /\ job_core j' = job_core j;
  ev_new i j' : get_job t' i = Some j' -> get_job t i = None ->
    exists src js c r, get_job t' src = Some js /\ jb_onComplete js = Some c /\ jb_payload j' = callback c src (jb_context js) r /\
      jb_onComplete j' = None /\ (src, r) ∈ l;
  ev_fired : jt_fired t' = jt_fired t ++ l;
  ev_known id : id ∈ l.*1 -> is_Some (get_job t' id);
  ev_calls : exists calls, jm_keys (jt_rows t') = jm_keys (jt_rows t) ++ calls.*2 /\
    calls.*1 = base.filter (fun id => calls_back t' id = true) l.*1 /\ Forall (callback_of t' l) calls
}.

Lemma calls_back_keeps t t' id : cores_kept t t' -> is_Some (get_job t id) -> calls_back t' id = calls_back t id.
Proof.
  intros K [j Hj]. destruct (K id j Hj) as (j' & Hj' & E). unfold calls_back. rewrite Hj, Hj'. unfold job_core in E.
  by assert (jb_onComplete j' = jb_onComplete j) as -> by congruence.
Qed.
Lemma calls_back_filter t t' (l : list Z) : cores_kept t t' -> (forall id, id ∈ l -> is_Some (get_job t id)) ->
  base.filter (fun id => calls_back t' id = true) l = base.filter (fun id => calls_back t id = true) l.
Proof. intros K Hl. apply filter_agree. intros id Hid. by rewrite (calls_back_keeps t t' id K (Hl id Hid)). Qed.
Lemma callback_of_keeps t t' l l' call : cores_kept t t' -> l ⊆ l' -> callback_of t l call -> callback_of t' l' call.
Proof.
  intros K Hl (j & c & r & cj & Hj & Hc & Hin & Hcj & Hp). destruct (K _ _ Hj) as (j' & Hj' & E). destruct (K _ _ Hcj) as (cj' & Hcj' & E').
  unfold job_core in *. exists j', c, r, cj'. assert (jb_context j' = jb_context j) as -> by congruence. split_and!; [done|congruence|by apply Hl|done|congruence].
Qed.

Lemma evolves_refl t : evolves t t [].
Proof.
  split; [eauto|congruence|by rewrite app_nil_r|by intros ? ?%not_elem_of_nil|]. exists []. split_and!; [by rewrite app_nil_r|done|constructor].
Qed.

Lemma evolves_trans t1 t2 t3 l1 l2 : evolves t1 t2 l1 -> evolves t2 t3 l2 -> evolves t1 t3 (l1 ++ l2).
Proof.
  intros [K1 N1 F1 M1 (c1 & C1 & D1 & P1)] [K2 N2 F2 M2 (c2 & C2 & D2 & P2)]. assert (K : cores_kept t2 t3) by exact K2. split.
  - intros i j Hj. destruct (K1 i j Hj) as (j2 & Hj2 & E2). destruct (K2 i j2 Hj2) as (j3 & Hj3 & E3). exists j3. split; [done|congruence].
  - intros i j3 Hj3 Hn. destruct (get_job t2 i) as [j2|] eqn:E.
    + destruct (N1 i j2 E Hn) as (src & js & c & r & Hs & Hc & Hp & Ho & Hin). destruct (K2 _ _ E) as (j3' & Hj3' & E3). assert (j3' = j3) as -> by congruence.
      destruct (K2 _ _ Hs) as (js' & Hs' & Es). unfold job_core in *. exists src, js', c, r. simplify_eq. split_and!; try congruence; set_solver.
    + destruct (N2 i j3 Hj3 E) as (src & js & c & r & Hs & Hc & Hp & Ho & Hin). exists src, js, c, r. split_and!; try done. set_solver.
  - by rewrite F2, F1, app_assoc.
  - intros id. rewrite fmap_app. intros [Hid|Hid]%elem_of_app; [|by apply M2]. destruct (M1 id Hid) as [j Hj]. destruct (K2 _ _ Hj) as (j' & Hj' & _). by exists j'.
  - exists (c1 ++ c2). rewrite !fmap_app, filter_app, (calls_back_filter t2 t3 l1.*1 K M1). split_and!; [by rewrite C2, C1, app_assoc|by rewrite D1, D2|].
    apply Forall_app. split; eapply Forall_impl; [exact P1| |exact P2|]; cbn; intros call; [by apply callback_of_keeps; [|apply list_subseteq_app_l]|].
    apply callback_of_keeps; [by intros i j Hj; exists j|by apply list_subseteq_app_r].
Qed.

Lemma put_evolves t id j j' : get_job t id = Some j -> job_core j' = job_core j -> evolves t (put_job t id j') [].
Proof.
  intros Hj Hc. split.
  - intros i ji Hi. rewrite get_put. case_decide; [|by eauto]. subst. exists j'. split; [done|congruence].
  - intros i ji. rewrite get_put. case_decide; congruence.
  - by rewrite app_nil_r.
  - by intros ? ?%not_elem_of_nil.
  - exists []. split_and!; [by rewrite app_nil_r, keys_put|done|constructor].
Qed.

Lemma fire_evolves claimed t now id j r : jobs_ok claimed t -> get_job t id = Some j -> evolves t (fireOnComplete now id (jb_onComplete j) r t) [(id, r)].
Proof.
  intros HJ Hj. unfold fireOnComplete, Scheduler.fireOnComplete. set (t0 := Jobs (jt_rows t) (jt_next t) (jt_fired t ++ [(id, r)])).
  assert (HJ0 : jobs_ok claimed t0) by (destruct HJ; by split). destruct (jb_onComplete j) as [c|] eqn:Ec; cycle 1.
  { split; [intros i ji Hi; by exists ji|intros i ji Hi Hn; change (get_job t i) with (get_job t0 i) in Hn; congruence|done|
      intros i ->%list_elem_of_singleton; by exists j|].
    exists []. split_and!; [by rewrite app_nil_r| |constructor]. change ([(id, r)].*1) with [id]. assert (calls_back t0 id = false) as E; [|by rewrite filter_cons_False by (rewrite E; done)].
    unfold calls_back. change (get_job t0 id) with (get_job t id). by rewrite Hj, Ec. }
  change (get_job t0 id) with (get_job t id). rewrite Hj. unfold Scheduler.enqueueInternal. cbn [eo_idempotencyKey run_at].
  set (cb := new_job _ _ _ _). assert (Hnone : get_job t0 (jt_next t0) = None) by (by eapply get_next).
  assert (Hget : forall i, get_job (insert_job t0 cb).1 i = if decide (i = jt_next t0) then Some cb else get_job t i).
  { intros i. by erewrite get_insert by done. }
  assert (Hid : get_job (insert_job t0 cb).1 id = Some j).
  { rewrite Hget. case_decide as E; [|done]. exfalso. rewrite E in Hj. pose proof (eq_trans (eq_sym Hj) Hnone). done. }
  split.
  - intros i ji Hi. exists ji. split; [|done]. rewrite Hget. case_decide; [|done]. subst i. exfalso. pose proof (eq_trans (eq_sym Hi) Hnone). done.
  - intros i ji Hi Hn. rewrite Hget in Hi. case_decide; [|congruence]. injection Hi as <-. exists id, j, c, r. split_and!; try done. by left.
  - done.
  - intros i ->%list_elem_of_singleton. by exists j.
  - exists [(id, jt_next t0)]. split_and!.
    + unfold jm_keys, insert_job. cbn [fst jt_rows]. by rewrite fmap_app.
    + change ([(id, r)].*1) with [id]. assert (calls_back (insert_job t0 cb).1 id = true) as E; [|by rewrite filter_cons_True by (rewrite E; done)]. unfold calls_back. by rewrite Hid, Ec.
    + repeat constructor. exists j, c, r, cb. cbn [fst snd]. split_and!; [done|done|by left| |done]. rewrite Hget. by rewrite decide_True.
Qed.

(** A job ends: its row, then its callback. *)
Lemma finish_evolves claimed t now id j j' r : jobs_ok claimed t -> get_job t id = Some j -> job_core j' = job_core j -> counts_ok claimed id j' ->
  evolves t (fireOnComplete now id (jb_onComplete j) r (put_job t id j')) [(id, r)].
Proof.
  intros HJ Hj Hc Hcnt. assert (jb_onComplete j = jb_onComplete j') as -> by (unfold job_core in Hc; congruence).
  apply (evolves_trans _ (put_job t id j') _ [] [(id, r)]); [by eapply put_evolves|]. eapply fire_evolves; [by eapply put_jobs_ok|].
  rewrite get_put. by rewrite decide_True.
Qed.

Lemma claim_evolves now id t : evolves t (claim now id t).1 [].
Proof.
  unfold claim. destruct (get_job t id) as [j|] eqn:Ej; [|apply evolves_refl]. case_bool_decide; [|apply evolves_refl]. by eapply put_evolves.
Qed.

Definition reported (r : job_result) : oc_result := match r with JrSuccess v => OcSuccess v | JrFailed e _ => OcFailed e end.

Lemma complete_evolves claimed now k id r t : table_ok callback claimed t ->
  exists l, evolves t (complete callback now k id r t) l /\ (l = [] \/ l = [(id, reported r)]).
Proof.
  intros [HJ HF]. unfold complete. destruct (get_job t id) as [j|] eqn:Ej; [|exists []; split; [apply evolves_refl|by left]].
  destruct (bool_decide (jb_state j = InProgress)) eqn:Es; cbn [negb]; [|exists []; split; [apply evolves_refl|by left]]. apply bool_decide_eq_true in Es.
  pose proof (jo_counts _ _ HJ _ _ Ej) as Hc. unfold counts_ok in Hc. rewrite Es in Hc. destruct r as [v|e retryable].
  - eexists. split; [eapply finish_evolves; try done|by right]. unfold counts_ok. cbn. lia.
  - destruct ((jb_maxFailures j <=? jb_attempts j + 1) || negb retryable).
    + eexists. split; [eapply finish_evolves; try done|by right]. unfold counts_ok. cbn. lia.
    + exists []. split; [by eapply put_evolves|by left].
Qed.

(** Results of another kind than a success. *)
Definition no_success (l : list (Z * oc_result)) : Prop := forall i v, (i, OcSuccess v) ∉ l.
Lemma no_success_nil : no_success [].
Proof. by intros i v ?%not_elem_of_nil. Qed.
Lemma no_success_app l l' : no_success l -> no_success l' -> no_success (l ++ l').
Proof. intros H H' i v [?|?]%elem_of_app; [by eapply H|by eapply H']. Qed.
Lemma no_success_one i r : match r with OcSuccess _ => False | _ => True end -> no_success [(i, r)].
Proof. intros Hr j v H%list_elem_of_singleton. by simplify_eq. Qed.

Lemma reclaim_one_evolves claimed now id t : table_ok callback claimed t -> (forall j, get_job t id = Some j -> jb_state j = InProgress) ->
  exists l, evolves t (reclaim_one callback now id t) l /\ no_success l.
Proof.
  intros [HJ HF] Hp. unfold reclaim_one. destruct (get_job t id) as [j|] eqn:Ej; [|exists []; split; [apply evolves_refl|apply no_success_nil]].
  destruct (bool_decide _ && _); [exists []; split; [by eapply put_evolves|apply no_success_nil]|]. specialize (Hp j eq_refl).
  pose proof (jo_counts _ _ HJ _ _ Ej) as Hc. unfold counts_ok in Hc. rewrite Hp in Hc.
  eexists. split; [eapply finish_evolves; try done|by apply no_success_one]. unfold counts_ok. cbn. lia.
Qed.

Lemma reclaim_evolves claimed now t : table_ok callback claimed t -> exists l, evolves t (reclaim callback now t) l /\ no_success l.
Proof.
  intros HT. unfold reclaim. destruct (expired_in claimed now t (proj1 HT)) as [Hnd Hp]. revert t HT Hnd Hp. intros t. generalize (expired_jobs now t) as ids.
  intros ids. revert t. induction ids as [|id ids IH]; intros t HT Hnd Hp; [exists []; split; [apply evolves_refl|apply no_success_nil]|].
  cbn [foldl]. apply NoDup_cons in Hnd as [Hni Hnd].
  assert (Hid : forall j, get_job t id = Some j -> jb_state j = InProgress).
  { intros j Hj. destruct (Hp id) as (j' & Hj' & Hs); [left|]. congruence. }
  destruct (reclaim_one_evolves claimed now id t HT Hid) as (l1 & E1 & S1).
  destruct (IH (reclaim_one callback now id t)) as (l2 & E2 & S2); [by apply reclaim_one_ok|done| |].
  - intros i Hi. destruct (Hp i) as (j & Hj & Hs); [by right|]. exists j. split; [|done]. eapply reclaim_one_get; [done|done| |done]. by intros ->.
  - exists (l1 ++ l2). split; [by eapply evolves_trans|by apply no_success_app].
Qed.

Lemma cancel_one_evolves claimed now id t : table_ok callback claimed t -> exists l, evolves t (cancel_one callback now id t) l /\ no_success l.
Proof.
  intros [HJ HF]. unfold cancel_one. destruct (get_job t id) as [j|] eqn:Ej; [|exists []; split; [apply evolves_refl|apply no_success_nil]].
  destruct (bool_decide (jb_state j = Pending)) eqn:Es; [|exists []; split; [apply evolves_refl|apply no_success_nil]]. apply bool_decide_eq_true in Es.
  pose proof (jo_counts _ _ HJ _ _ Ej) as Hc. unfold counts_ok in Hc. rewrite Es in Hc.
  eexists. split; [eapply finish_evolves; try done|by apply no_success_one]. unfold counts_ok. cbn. lia.
Qed.

Lemma cancel_children_evolves claimed now cs q s t : table_ok callback claimed t ->
  exists l, evolves t (cancel_children callback now cs q s t).2 l /\ no_success l.
Proof.
  revert q s t. induction cs as [|c cs IH]; intros q s t HT; cbn [cancel_children]; [exists []; split; [apply evolves_refl|apply no_success_nil]|].
  destruct (bool_decide (c ∈ s)); [by apply IH|]. destruct (cancel_one_evolves claimed now c t HT) as (l1 & E1 & S1).
  destruct (IH (q ++ [c]) (c :: s) (cancel_one callback now c t)) as (l2 & E2 & S2); [by apply cancel_one_ok|].
  exists (l1 ++ l2). split; [by eapply evolves_trans|by apply no_success_app].
Qed.

Lemma cancel_evolves claimed now id t t' : table_ok callback claimed t -> cancel callback now id t = Some t' -> exists l, evolves t t' l /\ no_success l.
Proof.
  intros HT. unfold cancel. destruct (cancel_one_evolves claimed now id t HT) as (l0 & E0 & S0). pose proof (cancel_one_ok callback claimed now id t HT) as HT'.
  revert HT' E0. generalize (cancel_one callback now id t) as t1. generalize (S (length (jt_rows t))) as fuel. generalize [id] at 1 as q. generalize [id] as s.
  intros s q fuel. revert q s l0 S0. induction fuel as [|fuel IH]; intros [|p q] s l0 S0 t1 HT1 E1; cbn [cancel_walk]; try (by intros [= <-]; exists l0).
  destruct (cancel_children_evolves claimed now (children_of t1 p) q s t1 HT1) as (l & E & Sl).
  pose proof (cancel_children_ok callback claimed now (children_of t1 p) q s t1 HT1) as HT2. destruct (cancel_children _ _ _ _ _ _) as [[q' s'] t2]. cbn in E, HT2.
  apply (IH q' s' (l0 ++ l)); [by apply no_success_app|done|by eapply evolves_trans].
Qed.

(** What is enqueued without a key is there, and new. *)
Lemma enqueue_new claimed now (p : P) (o : enqueue_opts C X) kind (t : jobs) : jobs_ok claimed t -> eo_idempotencyKey o = None ->
  (enqueueInternal now p o kind t).2 = jt_next t /\ get_job t (jt_next t) = None /\ jt_fired (enqueueInternal now p o kind t).1 = jt_fired t /\
  forall i, get_job (enqueueInternal now p o kind t).1 i = if decide (i = jt_next t) then Some (new_job now p o kind) else get_job t i.
Proof.
  intros HJ Hk. unfold enqueueInternal. rewrite Hk. split_and!; [done|by eapply get_next|done|]. intros i. by eapply get_insert.
Qed.

(** * The jobs of a run *)

Notation srun := (@srun P C X).
Notation slabel := (@slabel P C X).

(** What a step that enqueues nothing leaves of the table. *)
Definition enqueues (l : slabel) : bool := match l with SEnqueue _ _ _ _ => true | _ => false end.

Lemma step_evolves (x : srun) l : srun_ok callback x -> enqueues l = false -> exists fired, evolves (sr_jobs x) (sr_jobs (srun_step callback x l)) fired.
Proof.
  intros [HT _]. destruct l as [now p o kind|now id|now id|f r|now k f|f|now]; intros Hl; cbn [srun_step]; try done.
  - destruct (cancel callback now id (sr_jobs x)) as [t|] eqn:E; [|exists []; apply evolves_refl]. destruct (cancel_evolves _ _ _ _ _ HT E) as (l & ? & _). by exists l.
  - pose proof (claim_evolves now id (sr_jobs x)) as He. destruct (claim now id (sr_jobs x)) as [t [p|]]; exists []; exact He.
  - exists []. destruct (jm_get (sr_flights x) f) as [[id p [r'|]]|]; apply evolves_refl.
  - destruct (jm_get (sr_flights x) f) as [[id p [r|]]|]; try (exists []; apply evolves_refl).
    destruct (complete_evolves (sr_claimed x) now k id r (sr_jobs x) HT) as (l & ? & _). by exists l.
  - exists []. apply evolves_refl.
  - destruct (reclaim_evolves _ now _ HT) as (l & ? & _). by exists l.
Qed.

Lemma enqueue_keeps claimed now p o kind (t : jobs) : jobs_ok claimed t -> cores_kept t (enqueueInternal now p o kind t).1.
Proof.
  intros HJ i j Hj. exists j. split; [|done]. unfold enqueueInternal. destruct (match eo_idempotencyKey o with Some _ => _ | None => _ end); [done|].
  erewrite get_insert by done. case_decide; [|done]. subst. erewrite get_next in Hj by done. done.
Qed.

Lemma step_keeps (x : srun) l : srun_ok callback x -> cores_kept (sr_jobs x) (sr_jobs (srun_step callback x l)).
Proof.
  intros Hx. destruct (enqueues l) eqn:E.
  - destruct l; try done. cbn [srun_step with_jobs sr_jobs]. eapply enqueue_keeps, Hx.
  - destruct (step_evolves x l Hx E) as [fired He]. exact (ev_keep _ _ _ He).
Qed.
Lemma steps_keep (x : srun) ls : srun_ok callback x -> cores_kept (sr_jobs x) (sr_jobs (srun_steps callback x ls)).
Proof.
  revert x. induction ls as [|l ls IH]; intros x Hx; [by intros i j Hj; exists j|]. intros i j Hj.
  destruct (step_keeps x l Hx i j Hj) as (j1 & Hj1 & E1). destruct (IH (srun_step callback x l) (srun_step_ok callback x l Hx) i j1 Hj1) as (j2 & Hj2 & E2).
  exists j2. split; [exact Hj2|congruence].
Qed.

(** The ids that the enqueueing transactions were given for jobs that did not exist yet. *)
Fixpoint created (x : srun) (ls : list slabel) : list Z :=
  match ls with
  | [] => []
  | l :: ls' =>
      match l with
      | SEnqueue now p o kind =>
          let id := (enqueueInternal now p o kind (sr_jobs x)).2 in
          match get_job (sr_jobs x) id with None => [id] | Some _ => [] end
      | _ => []
      end ++ created (srun_step callback x l) ls'
  end.

(** [cs] are the callback jobs so far: all that the table has besides [ids]. *)
Record accounted (ids : list Z) (t : jobs) (cs : list (Z * Z)) : Prop := {
  ac_keys : jm_keys (jt_rows t) ≡ₚ ids ++ cs.*2;
  ac_from : cs.*1 = base.filter (fun id => calls_back t id = true) (jt_fired t).*1;
  ac_pair : Forall (callback_of t (jt_fired t)) cs
}.

Lemma fired_known claimed t id : table_ok callback claimed t -> id ∈ (jt_fired t).*1 -> is_Some (get_job t id).
Proof. intros [_ HF] ([i r] & -> & Hin)%list_elem_of_fmap. destruct (fo_fired _ _ _ HF _ _ Hin) as (j & Hj & _). by exists j. Qed.

Lemma accounted_evolves claimed ids t t' l cs : table_ok callback claimed t -> evolves t t' l -> accounted ids t cs -> exists cs', accounted ids t' cs'.
Proof.
  intros HT [K N F M (c2 & C2 & D2 & P2)] [A1 A2 A3]. exists (cs ++ c2). assert (K' : cores_kept t t') by exact K. split.
  - rewrite C2, A1, fmap_app. by rewrite app_assoc.
  - rewrite F, !fmap_app, filter_app, A2, D2, (calls_back_filter t t' (jt_fired t).*1); [done|exact K|]. intros id. by eapply fired_known.
  - apply Forall_app. rewrite F. split; eapply Forall_impl; [exact A3| |exact P2|]; cbn; intros call.
    + by apply callback_of_keeps; [|apply list_subseteq_app_l].
    + apply callback_of_keeps; [by intros i j Hj; exists j|by apply list_subseteq_app_r].
Qed.

Lemma find_idempotent_known (t : jobs) key id : find_idempotent t key = Some id -> is_Some (get_job t id).
Proof.
  unfold find_idempotent. destruct (base.filter _ (jt_rows t)) as [|[i j] l] eqn:E; [done|]. intros [= <-].
  assert (Hin : (i, j) ∈ base.filter (fun r => jb_idempotencyKey r.2 = Some key) (jt_rows t)) by (rewrite E; left).
  apply list_elem_of_filter in Hin as [_ Hin]. unfold get_job. destruct (jm_get (jt_rows t) i) eqn:Eg; [done|]. exfalso.
  apply jm_get_None in Eg. apply Eg. apply list_elem_of_fmap. by exists (i, j).
Qed.

Lemma accounted_enqueue claimed ids now p o kind t cs : table_ok callback claimed t -> accounted ids t cs ->
  let '(t', id) := enqueueInternal now p o kind t in
  accounted (ids ++ match get_job t id with None => [id] | Some _ => [] end) t' cs.
Proof.
  intros HT [A1 A2 A3]. pose proof (enqueue_keeps claimed now p o kind t (proj1 HT)) as K. revert K. unfold enqueueInternal.
  destruct (match eo_idempotencyKey o with Some _ => _ | None => _ end) as [id|] eqn:E; intros K.
  - assert (is_Some (get_job t id)) as [j ->] by (destruct (eo_idempotencyKey o); [by eapply find_idempotent_known|done]). by rewrite app_nil_r.
  - cbn [insert_job fst] in *. assert (get_job t (jt_next t) = None) as -> by (eapply get_next, HT). split.
    + unfold jm_keys in *. cbn [jt_rows]. rewrite fmap_app, A1. rewrite <-!app_assoc. f_equiv. apply Permutation_app_comm.
    + cbn [jt_fired]. rewrite A2. symmetry. apply calls_back_filter; [exact K|]. intros id. by eapply fired_known.
    + eapply Forall_impl; [exact A3|]. cbn. intros call. by apply callback_of_keeps.
Qed.

Lemma run_accounted (x : srun) ls ids cs : srun_ok callback x -> accounted ids (sr_jobs x) cs ->
  exists cs', accounted (ids ++ created x ls) (sr_jobs (srun_steps callback x ls)) cs'.
Proof.
  revert x ids cs. induction ls as [|l ls IH]; intros x ids cs Hx Ha; [exists cs; by rewrite app_nil_r|]. cbn [created].
  pose proof (srun_step_ok callback x l Hx) as Hx'. destruct (enqueues l) eqn:E.
  - destruct l as [now p o kind| | | | | |]; try done. pose proof (accounted_enqueue _ ids now p o kind (sr_jobs x) cs (so_table _ _ Hx) Ha) as H.
    rewrite app_assoc. apply (IH (srun_step callback x (SEnqueue now p o kind)) _ cs Hx'). cbn [srun_step with_jobs sr_jobs].
    by destruct (enqueueInternal now p o kind (sr_jobs x)) as [t' id].
  - destruct (step_evolves x l Hx E) as [fired He]. destruct (accounted_evolves _ ids _ _ _ cs (so_table _ _ Hx) He Ha) as [cs' Ha'].
    assert ((match l with SEnqueue now p o kind => match get_job (sr_jobs x) (enqueueInternal now p o kind (sr_jobs x)).2 with None => [_] | Some _ => [] end | _ => [] end) = @nil Z) as ->
      by by destruct l.
    by apply (IH (srun_step callback x l) ids cs').
Qed.

(** C24: the retry budget bounds how often a job runs, whatever crashes, late
    completions and sweeps come in between: at most [maxFailures] times, and
    once if that is less.  The budget is the one the job was enqueued with, for
    good: the retry option, or else one for an action, which so runs at most
    once, and four for a mutation. *)
Theorem job_runs_bounded ls id j :
  let x := srun_steps callback srun_empty ls in
  get_job (sr_jobs x) id = Some j ->
  times id (sr_ran x) <= Z.max 1 (jb_maxFailures j) /\
  forall ls1 now p o kind ls2, ls = ls1 ++ SEnqueue now p o kind :: ls2 ->
    let t := sr_jobs (srun_steps callback srun_empty ls1) in
    get_job t id = None -> (enqueueInternal now p o kind t).2 = id ->
    jb_kind j = kind /\ jb_maxFailures j = match eo_maxFailures o, kind with Some n, _ => n | None, JAction => 1 | None, JMutation => 4 end.
Proof.
  intros x Hj. destruct (srun_steps_ok callback _ ls (srun_empty_ok callback)) as [[HJ _] HR]. fold x in HJ, HR. specialize (HR id). split.
  - pose proof (counts_bound _ _ _ (jo_counts _ _ HJ _ _ Hj)). assert (0 <= waiting id (sr_flights x)) by (unfold waiting; lia). lia.
  - intros ls1 now p o kind ls2 Hls t Hnone Hid. set (x1 := srun_steps callback srun_empty ls1) in *.
    pose proof (srun_steps_ok callback _ ls1 (srun_empty_ok callback)) as Hx1. fold x1 in Hx1.
    assert (Hnew : get_job (enqueueInternal now p o kind t).1 id = Some (new_job now p o kind)).
    { revert Hid. unfold enqueueInternal. destruct (match eo_idempotencyKey o with Some _ => _ | None => _ end) as [i|] eqn:E; cbn [snd]; intros <-.
      - exfalso. destruct (eo_idempotencyKey o); [|done]. apply find_idempotent_known in E as [? E]. congruence.
      - erewrite get_insert by apply Hx1. by rewrite decide_True. }
    destruct (steps_keep (srun_step callback x1 (SEnqueue now p o kind)) ls2 (srun_step_ok callback _ _ Hx1) id _ Hnew) as (j' & Hj' & E).
    assert (Hsplit : x = srun_steps callback (srun_step callback x1 (SEnqueue now p o kind)) ls2) by (unfold x, srun_steps; rewrite Hls, fold_left_app; done).
    rewrite <-Hsplit in Hj'. assert (j' = j) as -> by congruence. unfold job_core in E. cbn in E.
    split; [congruence|]. assert (jb_maxFailures j = default (default_failures kind) (eo_maxFailures o)) as -> by congruence.
    by destruct (eo_maxFailures o), kind.
Qed.

(** C25: a job that ends calls back exactly once, with how it ended and with its
    own context; a job that did not end does not.  After any run the jobs of the
    table are those that were enqueued and one callback job for each ended job
    that has a callback, and no other: [calls] pairs every such job with its
    callback's job, enqueued with the outcome the job's state shows. *)
Theorem callbacks_exactly_once ls :
  let t := sr_jobs (srun_steps callback srun_empty ls) in
  exists calls : list (Z * Z),
    NoDup (jm_keys (jt_rows t)) /\ jm_keys (jt_rows t) ≡ₚ created srun_empty ls ++ calls.*2 /\ NoDup calls.*1 /\
    (forall id, id ∈ calls.*1 <-> exists j c, get_job t id = Some j /\ jb_onComplete j = Some c /\ job_terminal (jb_state j) = true) /\
    forall id cid, (id, cid) ∈ calls -> exists j c r cj, get_job t id = Some j /\ jb_onComplete j = Some c /\ jb_state j = outcome_state r /\
      get_job t cid = Some cj /\ jb_payload cj = callback c id (jb_context j) r.
Proof.
  intros t. pose proof (srun_steps_ok callback _ ls (srun_empty_ok callback)) as [[HJ HF] _]. fold t in HJ, HF.
  destruct (run_accounted srun_empty ls [] [] (srun_empty_ok callback)) as (calls & [A1 A2 A3]); [split; [done|done|constructor]|].
  fold t in A1, A2, A3. assert (Hfired : forall id r, (id, r) ∈ jt_fired t -> exists j, get_job t id = Some j /\ jb_state j = outcome_state r).
  { intros id r Hin. destruct (fo_fired _ _ _ HF _ _ Hin) as (j & ? & ? & _). by exists j. }
  exists calls. split_and!; [apply HJ|exact A1| | |].
  - rewrite A2. eapply sublist_NoDup; [exact (fo_nodup _ _ _ HF)|]. apply sublist_filter.
  - intros id. rewrite A2, list_elem_of_filter. unfold calls_back. split.
    + intros [Hc ([i r] & -> & Hin)%list_elem_of_fmap]. cbn [fst] in *. destruct (Hfired _ _ Hin) as (j & Hj & Hs). rewrite Hj in Hc.
      destruct (jb_onComplete j) as [c|] eqn:Ec; [|done]. exists j, c. split_and!; [done|done|]. rewrite Hs. by destruct r.
    + intros (j & c & Hj & Hc & Hs). rewrite Hj, Hc. split; [done|]. by eapply (fo_terminal _ _ _ HF id j).
  - intros id cid Hin. rewrite Forall_forall in A3. destruct (A3 _ Hin) as (j & c & r & cj & Hj & Hc & Hr & Hcj & Hp). cbn [fst snd] in *.
    destruct (Hfired _ _ Hr) as (j' & Hj' & Hs). assert (j' = j) as -> by congruence. by exists j, c, r, cj.
Qed.
End history.

(** * A concrete run

    Payloads, callbacks and contexts are numbers.  A mutation is claimed and its
    driver dies; the sweep puts it back; it runs, fails, is retried, and ends. *)
Definition number_callback (c id : Z) (x : option Z) (r : oc_result) : Z := c * 100 + default 0 x.
Definition retried_opts : enqueue_opts Z Z := EnqueueOpts None None (Some 3) None (Some 7) (Some 5) None.
Definition retried_run : list (@slabel Z Z Z) :=
  [SEnqueue 0 1 retried_opts JMutation; SClaim 0 0; SCrash 0; SReclaim 40000; SClaim 40001 0; SExec 1 (JrFailed (js "boom") true);
   SComplete 40002 0 1; SClaim 50000 0; SExec 2 (JrSuccess VNull); SComplete 50001 0 2; SComplete 50002 0 1].

Lemma job_runs_bounded_witness : exists j,
  get_job (sr_jobs (srun_steps number_callback srun_empty retried_run)) 0 = Some j /\
  times 0 (sr_ran (srun_steps number_callback srun_empty retried_run)) <= Z.max 1 (jb_maxFailures j) /\ jb_maxFailures j = 3.
Proof.
  eexists. split; [vm_compute; reflexivity|].
  destruct (job_runs_bounded number_callback retried_run 0 _ eq_refl) as [H1 H2]. split; [exact H1|].
  apply (H2 [] 0 1 retried_opts JMutation (tail retried_run)); reflexivity.
Defined.

(** The job and its one callback. *)
Example retried_calls_once : jm_keys (jt_rows (sr_jobs (srun_steps number_callback srun_empty retried_run))) = [0; 1] /\
  created number_callback srun_empty retried_run = [0] /\
  (jb_payload <$> get_job (sr_jobs (srun_steps number_callback srun_empty retried_run)) 1) = Some 705.
Proof. vm_compute. done. Qed.
