(* ===== verification/Crons.v ===== *)
(** Recurring jobs: components/scheduler/src/crons.ts and [_cronTick] of
    modules.ts.

    A cron has a row and a cadence job that reschedules itself; every occurrence
    gets a work job of its own.  The third-party parser of cron expressions is a
    parameter: the next occurrence strictly after, and the previous one strictly
    before, a time; so is the JSON text of a value.  Times are integers below 2^53, for which the division of
    the code and its rounding down are exact. *)
From Stdlib Require Import ZArith Lia Sorted.
From stdpp Require Import base list sets strings sorting.
From S2P Require Import Prelude JsBase JsText Values Scheduler SchedulerRuns.

Inductive catch_up := CatchSkip | CatchFireOnce | CatchFireAll.
Inductive cron_spec := SpecInterval (ms : Z) | SpecCron (expr : jsstr).
#[global] Instance catch_up_eq_dec : EqDecision catch_up.
Proof. solve_decision. Defined.
#[global] Instance cron_spec_eq_dec : EqDecision cron_spec.
Proof. solve_decision. Defined.

Definition CATCHUP_CAP : nat := 1000.

(** * The registry: [cronJobs] *)

Record cron_entry := CronEntry
  { ce_name : jsstr; ce_spec : cron_spec; ce_tz : jsstr; ce_catchUp : catch_up; ce_workFnPath : jsstr; ce_workArgs : value }.

Definition AlreadyRegistered : js_error := PlainError "cron is already registered".
Definition NotPositive : js_error := PlainError "interval must resolve to a positive duration".

Definition register (entries : list cron_entry) (e : cron_entry) : res (list cron_entry) :=
  if bool_decide (ce_name e ∈ ce_name <$> entries) then Throw AlreadyRegistered else Ok (entries ++ [e]).

Definition interval_ms (seconds minutes hours : option Z) : Z :=
  default 0 seconds * 1000 + default 0 minutes * 60000 + default 0 hours * 3600000.
Definition cron_interval (entries : list cron_entry) (name : jsstr) (seconds minutes hours : option Z) (tz : option jsstr)
    (catchUp : option catch_up) (fn : jsstr) (args : value) : res (list cron_entry) :=
  let ms := interval_ms seconds minutes hours in
  if ms <=? 0 then Throw NotPositive
  else register entries (CronEntry name (SpecInterval ms) (default (js "UTC") tz) (default CatchSkip catchUp) fn args).
Definition cron_cron (entries : list cron_entry) (name expr : jsstr) (tz : option jsstr) (catchUp : option catch_up) (fn : jsstr) (args : value) :=
  register entries (CronEntry name (SpecCron expr) (default (js "UTC") tz) (default CatchSkip catchUp) fn args).

Fixpoint at_fields (fields : list jsstr) : jsstr :=
  match fields with [] => [] | [f] => f | f :: fs => f ++ [32] ++ at_fields fs end.
Definition cron_daily entries name (hourUTC minuteUTC : Z) := cron_cron entries name (at_fields [js_string_of minuteUTC; js_string_of hourUTC; js "*"; js "*"; js "*"]) None.
Definition cron_hourly entries name (minuteUTC : Z) := cron_cron entries name (at_fields [js_string_of minuteUTC; js "*"; js "*"; js "*"; js "*"]) None.
Definition cron_weekly entries name (day hourUTC minuteUTC : Z) :=
  cron_cron entries name (at_fields [js_string_of minuteUTC; js_string_of hourUTC; js "*"; js "*"; js_string_of day]) None.
Definition cron_monthly entries name (day hourUTC minuteUTC : Z) :=
  cron_cron entries name (at_fields [js_string_of minuteUTC; js_string_of hourUTC; js_string_of day; js "*"; js "*"]) None.

(** * What a tick fires *)

Record plan := Plan { pl_toFire : list Z; pl_next : Z; pl_lastScheduledTs : Z }.

Definition occurrences (anchor period : Z) (n : nat) : list Z := (fun i => anchor + (Z.of_nat i + 1) * period) <$> seq 0 n.

Definition interval_plan (period : Z) (catchUp : catch_up) (anchor now : Z) : plan :=
  let elapsed := now - anchor in
  let n := if 0 <=? elapsed then elapsed / period else 0 in
  if n =? 0 then Plan [] (anchor + period) anchor
  else if n =? 1 then Plan [anchor + period] (anchor + period + period) (anchor + period)
  else
    let last := anchor + n * period in
    Plan match catchUp with
         | CatchFireAll => occurrences anchor period (Nat.min (Z.to_nat n) CATCHUP_CAP)
         | CatchFireOnce => [last]
         | CatchSkip => []
         end (last + period) last.

Section crons.
Context (cronNext cronPrev : jsstr -> jsstr -> Z -> Z) (stringify : value -> jsstr).

Definition computeNextRun (spec : cron_spec) (tz : jsstr) (afterTs : Z) : Z :=
  match spec with SpecInterval ms => afterTs + ms | SpecCron expr => cronNext expr tz afterTs end.
Definition computePrevRun (expr tz : jsstr) (atOrBeforeTs : Z) : Z := cronPrev expr tz (atOrBeforeTs + 1).

(** The loop of [fireAll]: it stops at the cap, which bounds it. *)
Fixpoint fire_all (expr tz : jsstr) (now : Z) (left : nat) (cursor : Z) : list Z :=
  match left with
  | O => []
  | S left' => if cursor <=? now then cursor :: fire_all expr tz now left' (cronNext expr tz cursor) else []
  end.

Definition expr_plan (expr tz : jsstr) (catchUp : catch_up) (anchor now : Z) : plan :=
  let first := cronNext expr tz anchor in
  if now <? first then Plan [] first anchor
  else
    let second := cronNext expr tz first in
    if now <? second then Plan [first] second first
    else
      let last := computePrevRun expr tz now in
      Plan match catchUp with
           | CatchFireAll => fire_all expr tz now CATCHUP_CAP first
           | CatchFireOnce => [last]
           | CatchSkip => []
           end (cronNext expr tz now) last.

Definition cron_plan (spec : cron_spec) (tz : jsstr) (catchUp : catch_up) (anchor now : Z) : plan :=
  match spec with
  | SpecInterval ms => interval_plan ms catchUp anchor now
  | SpecCron expr => expr_plan expr tz catchUp anchor now
  end.

(** * Rows *)

Record cron_row := CronRow
  { cn_name : jsstr; cn_spec : cron_spec; cn_tz : jsstr; cn_catchUp : catch_up; cn_lastScheduledTs : option Z;
    cn_workFnPath : jsstr; cn_workArgs : value; cn_cadenceJobId : option Z }.

Section table.
Context {P C X : Type} (user_payload : jsstr -> value -> P) (cadence_payload : jsstr -> option Z -> P) (functionKind : jsstr -> job_kind).
Notation jobs := (jobs P C X).

Definition occurrence_key (name : jsstr) (fireTs : Z) : jsstr := name ++ [58] ++ js_string_of fireTs.

Definition fire_one (now : Z) (c : cron_row) (t : jobs) (fireTs : Z) : jobs :=
  (enqueueInternal now (user_payload (cn_workFnPath c) (cn_workArgs c))
     (EnqueueOpts None (Some fireTs) None (Some (cn_name c)) None None (Some (occurrence_key (cn_name c) fireTs)))
     (functionKind (cn_workFnPath c)) t).1.

(** The cadence job carries its own id. *)
Definition set_payload (t : jobs) (id : Z) (p : P) : jobs :=
  match get_job t id with
  | Some j => put_job t id (Job p (jb_kind j) (jb_state j) (jb_nextTs j) (jb_attempts j) (jb_maxFailures j) (jb_leaseExpiresAt j) (jb_idempotencyKey j)
      (jb_name j) (jb_onComplete j) (jb_context j) (jb_parentId j) (jb_completedTs j) (jb_lastError j))
  | None => t
  end.
Definition enqueueCadenceJob (now : Z) (cronName : jsstr) (runAt : Z) (t : jobs) : jobs * Z :=
  let '(t, id) := enqueueInternal now (cadence_payload cronName None) (EnqueueOpts None (Some runAt) None (Some cronName) None None None) JMutation t in
  (set_payload t id (cadence_payload cronName (Some id)), id).

Definition find_cron (crons : list cron_row) (name : jsstr) : option cron_row :=
  match base.filter (fun c => cn_name c = name) crons with c :: _ => Some c | [] => None end.

(** [db.replace] of the row that was read. *)
Fixpoint replace_cron (crons : list cron_row) (name : jsstr) (c : cron_row) : list cron_row :=
  match crons with
  | [] => []
  | c' :: cs => if bool_decide (cn_name c' = name) then c :: cs else c' :: replace_cron cs name c
  end.

Definition with_cadence (c : cron_row) (last : option Z) (id : Z) : cron_row :=
  CronRow (cn_name c) (cn_spec c) (cn_tz c) (cn_catchUp c) last (cn_workFnPath c) (cn_workArgs c) (Some id).

(** A cadence job that is not the cron's own any more. *)
Definition stale_cadence (c : cron_row) (jobId : option Z) : bool :=
  match jobId, cn_cadenceJobId c with Some j, Some k => negb (j =? k) | _, _ => false end.

Definition cronTick (now : Z) (cronName : jsstr) (jobId : option Z) (st : list cron_row * jobs) : list cron_row * jobs :=
  let '(crons, t) := st in
  match find_cron crons cronName with
  | None => (crons, t)
  | Some c =>
      if stale_cadence c jobId then (crons, t)
      else
        let p := cron_plan (cn_spec c) (cn_tz c) (cn_catchUp c) (default now (cn_lastScheduledTs c)) now in
        let t := foldl (fire_one now c) t (pl_toFire p) in
        let '(t, id) := enqueueCadenceJob now (cn_name c) (pl_next p) t in
        (replace_cron crons cronName (with_cadence c (Some (pl_lastScheduledTs p)) id), t)
  end.

(** * [reconcileCrons] *)

Definition cancel_pending (now : Z) (id : option Z) (t : jobs) : jobs :=
  match id with
  | Some i =>
      match get_job t i with
      | Some j => if bool_decide (jb_state j = Pending) then put_job t i (with_state j CanceledJob (Some now)) else t
      | None => t
      end
  | None => t
  end.

Definition drop_cron (now : Z) (t : jobs) (c : cron_row) : jobs := cancel_pending now (cn_cadenceJobId c) t.

Definition live_cadence (t : jobs) (id : option Z) : bool :=
  match id with
  | Some i => match get_job t i with Some j => bool_decide (jb_state j = Pending) || bool_decide (jb_state j = InProgress) | None => false end
  | None => false
  end.

Definition row_of_entry (e : cron_entry) (last : Z) (id : Z) : cron_row :=
  CronRow (ce_name e) (ce_spec e) (ce_tz e) (ce_catchUp e) (Some last) (ce_workFnPath e) (ce_workArgs e) (Some id).

Definition spec_changed (c : cron_row) (e : cron_entry) : bool :=
  negb (bool_decide (cn_spec c = ce_spec e)) || negb (bool_decide (cn_tz c = ce_tz e)) ||
  negb (bool_decide (cn_workFnPath c = ce_workFnPath e)) || negb (bool_decide (stringify (cn_workArgs c) = stringify (ce_workArgs e))).

(** The row as it was read at the start: a row whose catch-up policy changed is
    replaced first, and then again, with the old policy, when its cadence is
    dead. *)
Definition set_catchUp (c : cron_row) (k : catch_up) : cron_row :=
  CronRow (cn_name c) (cn_spec c) (cn_tz c) k (cn_lastScheduledTs c) (cn_workFnPath c) (cn_workArgs c) (cn_cadenceJobId c).

Definition reconcile_entry (now : Z) (existing : list cron_row) (st : list cron_row * jobs) (e : cron_entry) : list cron_row * jobs :=
  let '(crons, t) := st in
  match find_cron existing (ce_name e) with
  | None =>
      let '(t, id) := enqueueCadenceJob now (ce_name e) (computeNextRun (ce_spec e) (ce_tz e) now) t in
      (crons ++ [row_of_entry e now id], t)
  | Some c =>
      if spec_changed c e then
        let t := cancel_pending now (cn_cadenceJobId c) t in
        let '(t, id) := enqueueCadenceJob now (ce_name e) (computeNextRun (ce_spec e) (ce_tz e) now) t in
        (replace_cron crons (ce_name e) (row_of_entry e now id), t)
      else
        let crons := if bool_decide (cn_catchUp c = ce_catchUp e) then crons else replace_cron crons (ce_name e) (set_catchUp c (ce_catchUp e)) in
        if live_cadence t (cn_cadenceJobId c) then (crons, t)
        else
          let anchor := default now (cn_lastScheduledTs c) in
          let '(t, id) := enqueueCadenceJob now (ce_name e) (computeNextRun (ce_spec e) (ce_tz e) anchor) t in
          (replace_cron crons (ce_name e) (with_cadence c (cn_lastScheduledTs c) id), t)
  end.

Definition reconcileCrons (now : Z) (desired : list cron_entry) (st : list cron_row * jobs) : list cron_row * jobs :=
  let '(existing, t) := st in
  let gone := base.filter (fun c => cn_name c ∉ ce_name <$> desired) existing in
  let t := foldl (drop_cron now) t gone in
  foldl (reconcile_entry now existing) (base.filter (fun c => cn_name c ∈ ce_name <$> desired) existing, t) desired.
End table.
End crons.

(** * Occurrences of an interval *)

Definition grid (anchor period ts : Z) : Prop := exists k, 1 <= k /\ ts = anchor + k * period.

Lemma occurrences_in anchor period n ts : ts ∈ occurrences anchor period n <-> exists k, 1 <= k <= Z.of_nat n /\ ts = anchor + k * period.
Proof.
  unfold occurrences. rewrite list_elem_of_fmap. split.
  - intros (i & -> & Hi). apply elem_of_seq in Hi. exists (Z.of_nat i + 1). split; [lia|done].
  - intros (k & Hk & ->). exists (Z.to_nat (k - 1)). split; [|apply elem_of_seq; lia]. f_equal. f_equal. lia.
Qed.
Lemma occurrences_S anchor period n : occurrences anchor period (S n) = occurrences anchor period n ++ [anchor + (Z.of_nat n + 1) * period].
Proof. unfold occurrences. by rewrite seq_S, fmap_app. Qed.
Lemma occurrences_app anchor period n m : occurrences anchor period (n + m) = occurrences anchor period n ++ occurrences (anchor + Z.of_nat n * period) period m.
Proof.
  induction m as [|m IH]; [by rewrite Nat.add_0_r, app_nil_r|]. rewrite Nat.add_succ_r, !occurrences_S, IH, app_assoc. f_equal. f_equal. lia.
Qed.

Definition due_count (anchor period now : Z) : Z := if anchor <=? now then (now - anchor) / period else 0.

(** The shape of a plan: where it anchors, when it comes back, what it fires. *)
Lemma interval_plan_spec period catchUp anchor now : 0 < period ->
  let n := due_count anchor period now in
  let p := interval_plan period catchUp anchor now in
  pl_lastScheduledTs p = anchor + n * period /\ pl_next p = anchor + (n + 1) * period /\ 0 <= n /\
  (anchor <= now -> pl_lastScheduledTs p <= now < pl_next p) /\
  pl_toFire p =
    if n <=? 1 then occurrences anchor period (Z.to_nat n)
    else match catchUp with
         | CatchSkip => []
         | CatchFireOnce => [anchor + n * period]
         | CatchFireAll => occurrences anchor period (Nat.min (Z.to_nat n) CATCHUP_CAP)
         end.
Proof.
  intros Hp n p. assert (En : (if 0 <=? now - anchor then (now - anchor) / period else 0) = n).
  { unfold n, due_count. destruct (Z.leb_spec 0 (now - anchor)), (Z.leb_spec anchor now); try lia; done. }
  assert (Hn : 0 <= n /\ (anchor <= now -> anchor + n * period <= now < anchor + (n + 1) * period)).
  { unfold n, due_count. destruct (Z.leb_spec anchor now); [|lia]. pose proof (Z.div_pos (now - anchor) period ltac:(lia) Hp).
    pose proof (Z.mul_div_le (now - anchor) period Hp). pose proof (Z.mul_succ_div_gt (now - anchor) period Hp).
    set (q := (now - anchor) / period) in *. nia. }
  unfold p, interval_plan. rewrite En. clear En p. clearbody n. destruct Hn as [Hn0 Hn]. destruct (Z.eqb_spec n 0) as [E0|E0]; [|destruct (Z.eqb_spec n 1) as [E1|E1]].
  - subst n. cbn [pl_lastScheduledTs pl_next pl_toFire]. split_and!; [lia|lia|lia|intros Ha; specialize (Hn Ha); lia|done].
  - subst n. cbn [pl_lastScheduledTs pl_next pl_toFire]. split_and!; [lia|lia|lia|intros Ha; specialize (Hn Ha); lia|].
    change (1 <=? 1) with true. change (Z.to_nat 1) with 1%nat. unfold occurrences. csimpl. f_equal. lia.
  - cbn [pl_lastScheduledTs pl_next pl_toFire]. rewrite (proj2 (Z.leb_gt n 1)) by lia. split_and!; try lia; done.
Qed.

(** Successive ticks of one cron. *)
Fixpoint interval_ticks (period : Z) (catchUp : catch_up) (anchor : Z) (nows : list Z) : list Z * Z :=
  match nows with
  | [] => ([], anchor)
  | now :: nows' =>
      let p := interval_plan period catchUp anchor now in
      let '(fired, last) := interval_ticks period catchUp (pl_lastScheduledTs p) nows' in (pl_toFire p ++ fired, last)
  end.

(** How many occurrences the ticks have passed: what the latest of them finds
    due on the grid of the first anchor. *)
Definition passed (anchor period : Z) (nows : list Z) : Z := foldr (fun now n => Z.max (due_count anchor period now) n) 0 nows.

(** The largest backlog a policy fires in full. *)
Definition full_backlog (catchUp : catch_up) : Z := match catchUp with CatchFireAll => Z.of_nat CATCHUP_CAP | _ => 1 end.

(** No tick finds more due than its policy fires. *)
Fixpoint within_cap (period : Z) (catchUp : catch_up) (anchor : Z) (nows : list Z) : Prop :=
  match nows with
  | [] => True
  | now :: nows' => due_count anchor period now <= full_backlog catchUp /\
      within_cap period catchUp (anchor + due_count anchor period now * period) nows'
  end.

Lemma due_count_bounds period anchor now : 0 < period ->
  0 <= due_count anchor period now /\ (anchor <= now -> anchor + due_count anchor period now * period <= now) /\
  now < anchor + (due_count anchor period now + 1) * period.
Proof.
  intros Hp. unfold due_count. destruct (Z.leb_spec anchor now); [|lia]. pose proof (Z.div_pos (now - anchor) period ltac:(lia) Hp).
  pose proof (Z.mul_div_le (now - anchor) period Hp). pose proof (Z.mul_succ_div_gt (now - anchor) period Hp).
  set (q := (now - anchor) / period) in *. nia.
Qed.
Lemma due_count_unique period anchor now k : 0 < period -> 0 <= k -> anchor + k * period <= now < anchor + (k + 1) * period ->
  due_count anchor period now = k.
Proof.
  intros Hp Hk Hr. destruct (due_count_bounds period anchor now Hp) as (H0 & H1 & H2). assert (0 <= k * period) by (apply Z.mul_nonneg_nonneg; lia).
  specialize (H1 ltac:(lia)). set (d := due_count anchor period now) in *.
  destruct (Z.lt_trichotomy d k) as [?|[?|?]]; [|done|].
  - pose proof (Z.mul_le_mono_nonneg_r (d + 1) k period ltac:(lia) ltac:(lia)). lia.
  - pose proof (Z.mul_le_mono_nonneg_r (k + 1) d period ltac:(lia) ltac:(lia)). lia.
Qed.

(** Moving the anchor along the grid keeps the grid. *)
Lemma due_count_moved period anchor d now : 0 < period -> 0 <= d ->
  due_count (anchor + d * period) period now = Z.max 0 (due_count anchor period now - d).
Proof.
  intros Hp Hd. destruct (due_count_bounds period anchor now Hp) as (H0 & H1 & H2). assert (0 <= d * period) by (apply Z.mul_nonneg_nonneg; lia).
  destruct (Z.le_gt_cases (anchor + d * period) now) as [Hle|Hgt].
  - specialize (H1 ltac:(lia)). set (q := due_count anchor period now) in *. assert (d <= q).
    { destruct (Z.le_gt_cases d q); [done|]. pose proof (Z.mul_le_mono_nonneg_r (q + 1) d period ltac:(lia) ltac:(lia)). lia. }
    rewrite Z.max_r by lia. apply due_count_unique; [done|lia|]. lia.
  - unfold due_count at 1. rewrite (proj2 (Z.leb_gt _ _)) by lia. rewrite Z.max_l; [done|].
    destruct (Z.le_gt_cases anchor now) as [Ha|Ha]; [|unfold due_count; rewrite (proj2 (Z.leb_gt _ _)) by lia; lia].
    specialize (H1 Ha). set (q := due_count anchor period now) in *. destruct (Z.le_gt_cases q d); [lia|].
    pose proof (Z.mul_le_mono_nonneg_r d q period ltac:(lia) ltac:(lia)). lia.
Qed.
Lemma passed_moved period anchor d nows : 0 < period -> 0 <= d -> d + passed (anchor + d * period) period nows = Z.max d (passed anchor period nows).
Proof.
  intros Hp Hd. induction nows as [|now nows IH]; cbn [passed foldr]; [lia|]. fold (passed (anchor + d * period) period nows). fold (passed anchor period nows).
  rewrite due_count_moved by done. lia.
Qed.
Lemma passed_nonneg anchor period nows : 0 <= passed anchor period nows.
Proof. induction nows as [|now nows IH]; cbn [passed foldr]; [done|]. fold (passed anchor period nows). lia. Qed.

(** What one tick fires: occurrences of the grid after the anchor, in order, up to the new one. *)
Lemma occurrences_sorted anchor period n : 0 < period -> StronglySorted Z.lt (occurrences anchor period n).
Proof.
  intros Hp. induction n as [|n IH]; [constructor|]. rewrite occurrences_S. apply StronglySorted_app_2; [|exact IH|by repeat constructor].
  intros u v Hu Hv. apply occurrences_in in Hu as (k & ? & ->). apply list_elem_of_singleton in Hv as ->. nia.
Qed.
Lemma tick_fires period catchUp anchor now : 0 < period ->
  let d := due_count anchor period now in let l := pl_toFire (interval_plan period catchUp anchor now) in
  StronglySorted Z.lt l /\ (forall u, u ∈ l -> exists k, 1 <= k <= d /\ u = anchor + k * period) /\
  (catchUp <> CatchFireAll -> l = [] \/ l = [anchor + d * period]) /\
  (catchUp = CatchFireOnce -> 0 < d -> l = [anchor + d * period]) /\
  (d <= full_backlog catchUp -> l = occurrences anchor period (Z.to_nat d)).
Proof.
  intros Hp d l. destruct (interval_plan_spec period catchUp anchor now Hp) as (_ & _ & Hd & _ & Hf). fold d in Hd, Hf. subst l.
  assert (Hone : d = 1 -> occurrences anchor period (Z.to_nat d) = [anchor + d * period]).
  { intros ->. change (Z.to_nat 1) with 1%nat. unfold occurrences. csimpl. f_equal. }
  assert (Hocc : forall m, (m <= Z.to_nat d)%nat -> forall u, u ∈ occurrences anchor period m -> exists k, 1 <= k <= d /\ u = anchor + k * period).
  { intros m Hm u (k & ? & ->)%occurrences_in. exists k. split; [lia|done]. }
  rewrite Hf. destruct (Z.leb_spec d 1) as [H1|H1].
  - split_and!; [by apply occurrences_sorted|by apply Hocc| |intros _ ?; apply Hone; lia|done].
    intros _. assert (d = 0 \/ d = 1) as [E|E] by lia; [left; by rewrite E|right; by apply Hone].
  - destruct catchUp; cbn [full_backlog].
    + split_and!; [constructor|by intros ? ?%not_elem_of_nil|by left|done|lia].
    + split_and!; [by repeat constructor|intros u ->%list_elem_of_singleton; exists d; split; [lia|done]|by right|done|lia].
    + split_and!; [by apply occurrences_sorted|apply Hocc; lia|done|done|intros ?; f_equal; lia].
Qed.

(** C27: an interval cron never drifts and never fires an occurrence twice.  At
    whatever times its ticks come and whatever the catch-up policy, the anchor
    they leave is the first anchor plus a whole number of periods, the number
    the latest tick has passed; they fire only occurrences of that grid up to
    it, in order and each at most once.  Under [skip] and [fireOnce] an
    occurrence fires only at a tick within a period of it, and under [fireOnce]
    the newest one passed has always fired.  While no tick finds a backlog
    larger than the policy fires in full (the cap under [fireAll], one occurrence
    under the others) every occurrence passed fires, each exactly once. *)
Theorem interval_ticks_fire_each_once period catchUp anchor nows : 0 < period ->
  let n := passed anchor period nows in
  let fired := (interval_ticks period catchUp anchor nows).1 in
  (interval_ticks period catchUp anchor nows).2 = anchor + n * period /\
  (forall u, u ∈ fired -> exists k, 1 <= k <= n /\ u = anchor + k * period) /\ StronglySorted Z.lt fired /\
  (catchUp <> CatchFireAll -> forall u, u ∈ fired -> exists now, now ∈ nows /\ u <= now < u + period) /\
  (catchUp = CatchFireOnce -> last (anchor :: fired) = Some (anchor + n * period)) /\
  (within_cap period catchUp anchor nows -> fired = occurrences anchor period (Z.to_nat n)).
Proof.
  intros Hp. revert anchor. induction nows as [|now nows IH]; intros anchor; cbn [interval_ticks passed foldr].
  { split_and!; [cbn; lia|by intros ? ?%not_elem_of_nil|constructor|by intros _ ? ?%not_elem_of_nil|cbn; intros _; f_equal; lia|done]. }
  destruct (interval_plan_spec period catchUp anchor now Hp) as (Hlast & _ & Hd & Hin & _). destruct (tick_fires period catchUp anchor now Hp) as (T1 & T2 & T3 & T4 & T5).
  set (d := due_count anchor period now) in *. specialize (IH (anchor + d * period)). pose proof (passed_moved period anchor d nows Hp Hd) as Hmove.
  rewrite Hlast. destruct (interval_ticks period catchUp (anchor + d * period) nows) as [fired lst]. cbn [fst snd] in IH |- *.
  set (l := pl_toFire (interval_plan period catchUp anchor now)) in *. fold (passed anchor period nows). rewrite <-Hmove.
  set (m := passed (anchor + d * period) period nows) in *. assert (Hm : 0 <= m) by apply passed_nonneg.
  destruct IH as (H1 & H2 & H3 & H4 & H5 & H6). split_and!.
  - lia.
  - intros u [Hu|Hu]%elem_of_app; [apply T2 in Hu as (k & ? & ->); exists k; split; [lia|done]|].
    apply H2 in Hu as (k & ? & ->). exists (d + k). split; lia.
  - apply StronglySorted_app_2; [|done|done]. intros u v (k & ? & ->)%T2 (k' & ? & ->)%H2. nia.
  - intros Hc u [Hu|Hu]%elem_of_app; [|destruct (H4 Hc u Hu) as (now' & ? & ?); exists now'; split; [by right|done]].
    exists now. split; [left|]. pose proof (due_count_bounds period anchor now Hp) as (_ & B1 & B2). fold d in B1, B2.
    destruct (T2 u Hu) as (k & Hk & _). destruct (T3 Hc) as [E|E]; rewrite E in Hu; [by apply not_elem_of_nil in Hu|].
    apply list_elem_of_singleton in Hu as ->. assert (anchor <= now); [|lia].
    unfold d, due_count in Hk. destruct (Z.leb_spec anchor now); lia.
  - intros Hc. specialize (H5 Hc). rewrite app_comm_cons, last_app. destruct fired as [|u fired].
    + cbn in H5. injection H5 as H5. assert (Hz : m = 0) by nia. cbn [last]. destruct (decide (d = 0)) as [E|E].
      * assert (l = []) as ->; [|cbn; f_equal; lia]. destruct l as [|u ?]; [done|]. destruct (T2 u ltac:(left)) as (k & ? & _). lia.
      * rewrite (T4 Hc ltac:(lia)). cbn. f_equal. lia.
    + rewrite last_cons_cons in H5. rewrite H5. f_equal. lia.
  - cbn [within_cap]. fold d. intros [Hw1 Hw2]. rewrite (T5 Hw1), (H6 Hw2). rewrite Z2Nat.inj_add, occurrences_app by lia. by rewrite Z2Nat.id by lia.
Qed.

Lemma interval_ticks_fire_each_once_witness :
  (interval_ticks 60 CatchFireAll 0 [65; 310; 330]).1 = occurrences 0 60 5 /\ (interval_ticks 60 CatchFireAll 0 [65; 310; 330]).2 = 300 /\
  last (0 :: (interval_ticks 60 CatchFireOnce 0 [65; 310; 330]).1) = Some 300 /\ (interval_ticks 60 CatchSkip 0 [65; 310; 330]).2 = 300.
Proof.
  split_and!; [|reflexivity| |].
  - apply (interval_ticks_fire_each_once 60 CatchFireAll 0 [65; 310; 330]); [lia|]. vm_compute. repeat split; discriminate.
  - apply (interval_ticks_fire_each_once 60 CatchFireOnce 0 [65; 310; 330]); [lia|reflexivity].
  - apply (interval_ticks_fire_each_once 60 CatchSkip 0 [65; 310; 330]). lia.
Defined.


(** * Occurrences of a cron expression *)

(** What the parser promises: the nearest occurrence on either side. *)
Definition next_law (cronNext : jsstr -> jsstr -> Z -> Z) (expr tz : jsstr) (occ : Z -> Prop) : Prop :=
  forall t, occ (cronNext expr tz t) /\ t < cronNext expr tz t /\ forall u, occ u -> t < u -> cronNext expr tz t <= u.
Definition prev_law (cronPrev : jsstr -> jsstr -> Z -> Z) (expr tz : jsstr) (occ : Z -> Prop) : Prop :=
  forall t, (exists u, occ u /\ u < t) -> occ (cronPrev expr tz t) /\ cronPrev expr tz t < t /\ forall u, occ u -> u < t -> u <= cronPrev expr tz t.

Section expressions.
Context (cronNext cronPrev : jsstr -> jsstr -> Z -> Z) (expr tz : jsstr) (occ : Z -> Prop).
Context (Hnext : next_law cronNext expr tz occ) (Hprev : prev_law cronPrev expr tz occ).

(** Every occurrence in order, from the cursor, up to the cap. *)
Lemma fire_all_spec now left cursor : occ cursor ->
  let l := fire_all cronNext expr tz now left cursor in
  StronglySorted Z.lt l /\ Forall (fun u => occ u /\ cursor <= u <= now) l /\
  forall u, occ u -> cursor <= u <= now -> u ∉ l -> length l = left /\ Forall (fun v => v < u) l.
Proof.
  revert cursor. induction left as [|left IH]; intros cursor Hc; cbn [fire_all]; [split_and!; [constructor|constructor|done]|].
  destruct (Z.leb_spec cursor now) as [Hle|Hgt]; [|split_and!; [constructor|constructor|lia]].
  destruct (Hnext cursor) as (Ho & Hlt & Hleast). destruct (IH _ Ho) as (H1 & H2 & H3). split_and!.
  - constructor; [done|]. eapply Forall_impl; [exact H2|]. cbn. intros; lia.
  - constructor; [split; [done|lia]|]. eapply Forall_impl; [exact H2|]. cbn. intros u [? ?]. split; [done|lia].
  - intros u Hu Hr Hni. apply not_elem_of_cons in Hni as [Hne Hni]. assert (cursor < u) by lia.
    destruct (H3 u Hu) as [E1 E2]; [split; [by apply Hleast|lia]|done|]. cbn. split; [lia|]. by constructor.
Qed.

(** A cron expression's tick comes back at the first occurrence after now
    and anchors at the last one it has passed, and fires only occurrences it
    has passed, in order; under [fireAll] it misses none unless it fires as many as
    the cap allows, and then only later ones. *)
Theorem expr_plan_sound catchUp anchor now : anchor <= now ->
  let p := expr_plan cronNext cronPrev expr tz catchUp anchor now in
  (occ (pl_next p) /\ now < pl_next p /\ forall u, occ u -> now < u -> pl_next p <= u) /\
  (anchor <= pl_lastScheduledTs p <= now /\ (pl_lastScheduledTs p = anchor \/ occ (pl_lastScheduledTs p)) /\
   forall u, occ u -> u <= now -> anchor < u -> u <= pl_lastScheduledTs p) /\
  (StronglySorted Z.lt (pl_toFire p) /\ Forall (fun u => occ u /\ anchor < u <= now) (pl_toFire p)) /\
  (catchUp = CatchFireAll -> forall u, occ u -> anchor < u <= now -> u ∉ pl_toFire p ->
     length (pl_toFire p) = CATCHUP_CAP /\ Forall (fun v => v < u) (pl_toFire p)).
Proof.
  intros Ha p. unfold p, expr_plan. clear p. destruct (Hnext anchor) as (Hf & Hlt & Hleast). set (first := cronNext expr tz anchor) in *.
  destruct (Z.ltb_spec now first) as [Hn|Hn]; cbn [pl_next pl_lastScheduledTs pl_toFire].
  { split; [split_and!; [done|lia|intros u Hu ?; apply Hleast; [done|lia]]|]. split; [split_and!; [lia|lia|by left|intros u Hu ? ?; specialize (Hleast u Hu); lia]|].
    split; [split; constructor|]. intros _ u Hu ? _. specialize (Hleast u Hu). lia. }
  destruct (Hnext first) as (Hs & Hlt2 & Hleast2). set (second := cronNext expr tz first) in *.
  assert (Hsplit : forall u, occ u -> anchor < u -> u = first \/ second <= u).
  { intros u Hu Hau. specialize (Hleast u Hu Hau). destruct (Z.eq_dec u first); [by left|right]. apply Hleast2; [done|lia]. }
  destruct (Z.ltb_spec now second) as [Hn2|Hn2]; cbn [pl_next pl_lastScheduledTs pl_toFire].
  { split; [split_and!; [done|lia|intros u Hu ?; apply Hleast2; [done|lia]]|]. split; [split_and!; [lia|lia|by right|intros u Hu ? ?; destruct (Hsplit u Hu); lia]|].
    split; [split; repeat constructor; done || lia|].
    intros _ u Hu [? ?] Hni. exfalso. destruct (Hsplit u Hu) as [->|]; [done| |lia]. apply Hni. left. }
  destruct (Hnext now) as (Hn3 & Hlt3 & Hleast3). destruct (Hprev (now + 1)) as (Hp1 & Hp2 & Hp3); [exists first; split; [done|lia]|].
  unfold computePrevRun. set (lst := cronPrev expr tz (now + 1)) in *. pose proof (Hp3 first Hf ltac:(lia)) as Hfl.
  destruct (fire_all_spec now CATCHUP_CAP first Hf) as (F1 & F2 & F3).
  split; [split_and!; [done|lia|exact Hleast3]|]. split; [split_and!; [lia|lia|by right|intros u Hu ? _; apply Hp3; [done|lia]]|]. split; [split|].
  - destruct catchUp; [constructor|by repeat constructor|exact F1].
  - destruct catchUp; [constructor|constructor; [split; [done|lia]|constructor]|]. eapply Forall_impl; [exact F2|]. cbn. intros u [? ?]. split; [done|lia].
  - intros -> u Hu [? ?] Hni. apply F3; [done| |done]. split; [by apply Hleast|lia].
Qed.
End expressions.

(** A parser of [every minute]. *)
Definition every_minute (_ _ : jsstr) (t : Z) : Z := 60000 * (t / 60000 + 1).
Definition minute_before (_ _ : jsstr) (t : Z) : Z := 60000 * ((t - 1) / 60000).
Definition whole_minute (t : Z) : Prop := exists k, t = 60000 * k.

Lemma every_minute_law : next_law every_minute [] [] whole_minute.
Proof.
  intros t. unfold every_minute. pose proof (Z.div_mod t 60000 ltac:(lia)). pose proof (Z.mod_pos_bound t 60000 ltac:(lia)).
  split_and!; [by eexists|lia|]. intros u [k ->] Hk. assert (t / 60000 < k); [|lia]. apply Z.div_lt_upper_bound; lia.
Qed.
Lemma minute_before_law : prev_law minute_before [] [] whole_minute.
Proof.
  intros t _. unfold minute_before. pose proof (Z.div_mod (t - 1) 60000 ltac:(lia)). pose proof (Z.mod_pos_bound (t - 1) 60000 ltac:(lia)).
  split_and!; [by eexists|lia|]. intros u [k ->] Hk. assert (k <= (t - 1) / 60000); [|lia]. apply Z.div_le_lower_bound; lia.
Qed.

Lemma expr_plan_sound_witness :
  let p := expr_plan every_minute minute_before [] [] CatchFireAll 0 200000 in
  Forall (fun u => whole_minute u /\ 0 < u <= 200000) (pl_toFire p) /\ pl_toFire p = [60000; 120000; 180000] /\ pl_next p = 240000.
Proof.
  split; [|vm_compute; done].
  apply (expr_plan_sound every_minute minute_before [] [] whole_minute every_minute_law minute_before_law CatchFireAll 0 200000). lia.
Defined.

(** * A catch-up policy that is lost

    At boot the policy of a cron whose cadence job has died was changed.  The row
    is replaced with the new policy, and then, for its new cadence job, with the
    row as it was read: the old policy is back. *)
Section lost_policy.
Let report := CronEntry (js "report") (SpecInterval 60) (js "UTC") CatchFireAll (js "jobs:report") VNull.
Let old_row := CronRow (js "report") (SpecInterval 60) (js "UTC") CatchSkip (Some 0) (js "jobs:report") VNull (Some 0).
Let dead : job Z Z Z := Job 0 JMutation FailedJob 60 4 4 None None (Some (js "report")) None None None (Some 90) (Some (js "boom")).

Lemma changed_catchUp_lost :
  let '(crons, t) := reconcileCrons (P := Z) (C := Z) (X := Z) every_minute (fun _ => []) (fun _ id => default 0 id) 100 [report]
    ([old_row], Jobs [(0, dead)] 1 []) in
  cn_catchUp <$> find_cron crons (js "report") = Some CatchSkip /\ ce_catchUp report = CatchFireAll /\
  live_cadence t (c ← find_cron crons (js "report"); cn_cadenceJobId c) = true.
Proof. vm_compute. done. Qed.
End lost_policy.
