(* ===== verification/SchedulerDriver.v ===== *)
(** The timers a driver gets: [setTimer], [clearTimer] and [fireDueTimers] of
    runtime-embedded/src/runtime.ts.

    A timer is a handle with a time and a callback [C].  Without a wake host
    every timer is a [setTimeout] of its own; with one, the earliest time of all
    is kept on the single alarm the host offers.  [ti_alarm] is that alarm, as
    the host keeps it: it outlives the process' view of it, [ti_armedAt].

    The scheduler's driver: components/scheduler/src/driver.ts.

    Every call of the loop is awaited: its transaction lands at one step and the
    loop goes on at a later one, and commits, their notifications, timers and
    stops come in between.  The job table is that of [SchedulerRuns], so what
    the rest of the system does to it is any step of that system, and its commit
    is published later. *)
From Stdlib Require Import ZArith Lia.
From stdpp Require Import base list sets strings.
From S2P Require Import Prelude JsBase Values Scheduler SchedulerRuns.

Section timers.
Context {C : Type}.

Record driver_timer := DriverTimer { tm_atMs : Z; tm_cb : C }.
Record timers := Timers
  { ti_wakeHost : bool; ti_live : list (Z * driver_timer); ti_seq : Z; ti_armedAt : option Z; ti_alarm : option Z }.

Definition no_timers (wakeHost : bool) : timers := Timers wakeHost [] 0 None None.

(** The earliest time of the live handles. *)
Definition min_atMs (live : list (Z * driver_timer)) : option Z :=
  foldl (fun m t => match m with Some a => Some (if tm_atMs t.2 <? a then tm_atMs t.2 else a) | None => Some (tm_atMs t.2) end) None live.

(** The host is only told when the minimum moves. *)
Definition rearm (s : timers) : timers :=
  if negb (ti_wakeHost s) then s
  else
    let m := min_atMs (ti_live s) in
    if bool_decide (m = ti_armedAt s) then s else Timers (ti_wakeHost s) (ti_live s) (ti_seq s) m m.

Definition setTimer (atMs : Z) (cb : C) (s : timers) : timers * Z :=
  let h := ti_seq s + 1 in
  (rearm (Timers (ti_wakeHost s) (jm_set (ti_live s) h (DriverTimer atMs cb)) h (ti_armedAt s) (ti_alarm s)), h).

Definition with_live (s : timers) (live : list (Z * driver_timer)) : timers :=
  Timers (ti_wakeHost s) live (ti_seq s) (ti_armedAt s) (ti_alarm s).

Definition clearTimer (h : Z) (s : timers) : timers :=
  if jm_has (ti_live s) h then rearm (with_live s (jm_delete (ti_live s) h)) else s.

(** [clearTimer(handle)] of a variable that may hold none. *)
Definition clear_handle (h : option Z) (s : timers) : timers := match h with Some h => clearTimer h s | None => s end.

(** What stopping the drivers does first; the host's alarm is left alone. *)
Definition clear_all (s : timers) : timers := with_live s [].

(** A [setTimeout] goes off: the handle is dropped. *)
Definition timeout_fires (h : Z) (s : timers) : timers * option C :=
  match jm_get (ti_live s) h with
  | Some t => (with_live s (jm_delete (ti_live s) h), Some (tm_cb t))
  | None => (s, None)
  end.

(** The first half of [fireDueTimers]: what was armed is forgotten and every due
    timer dropped; its callbacks run next, and [rearm] last. *)
Definition take_due (now : Z) (s : timers) : timers * list C :=
  (Timers (ti_wakeHost s) (base.filter (fun t => now < tm_atMs t.2) (ti_live s)) (ti_seq s) None (ti_alarm s),
   (fun t => tm_cb t.2) <$> base.filter (fun t => tm_atMs t.2 <= now) (ti_live s)).

(** The alarm goes off: the host has none any more. *)
Definition alarm_fires (s : timers) : timers := Timers (ti_wakeHost s) (ti_live s) (ti_seq s) (ti_armedAt s) None.

(** * The minimum *)

Lemma min_atMs_spec live :
  match min_atMs live with
  | Some m => (exists h t, (h, t) ∈ live /\ tm_atMs t = m) /\ forall h t, (h, t) ∈ live -> m <= tm_atMs t
  | None => live = []
  end.
Proof.
  unfold min_atMs. induction live as [|[h t] live IH] using rev_ind; [done|]. rewrite foldl_app. cbn [foldl snd].
  set (m0 := foldl _ None live) in *. destruct m0 as [a|].
  - destruct IH as [(h0 & t0 & Hin & Ha) Hle]. destruct (Z.ltb_spec (tm_atMs t) a) as [Hlt|Hge].
    + split; [exists h, t; split; [set_solver|done]|]. intros h' t' [Hin'|Hin'%list_elem_of_singleton]%elem_of_app; [|injection Hin' as -> ->; lia].
      specialize (Hle _ _ Hin'). lia.
    + split; [exists h0, t0; split; [set_solver|done]|]. intros h' t' [Hin'|Hin'%list_elem_of_singleton]%elem_of_app; [|injection Hin' as -> ->; lia].
      by apply Hle in Hin'.
  - subst live. split; [exists h, t; split; [set_solver|done]|]. intros h' t' Hin'%list_elem_of_singleton. injection Hin' as -> ->. lia.
Qed.

(** * The state of the timers *)

Record timers_ok (s : timers) : Prop := {
  to_nodup : NoDup (jm_keys (ti_live s));
  to_fresh h : h ∈ jm_keys (ti_live s) -> h <= ti_seq s
}.
(** What the runtime believes to be armed is. *)
Definition mirror_ok (s : timers) : Prop := ti_wakeHost s = true -> ti_armedAt s = None \/ ti_alarm s = ti_armedAt s.
(** The alarm is never missing and never late. *)
Definition alarm_ok (s : timers) : Prop := ti_wakeHost s = true -> ti_live s <> [] -> ti_alarm s = min_atMs (ti_live s).

Lemma rearm_live s : ti_live (rearm s) = ti_live s.
Proof. unfold rearm. destruct (ti_wakeHost s); [|done]. cbn. by case_bool_decide. Qed.
Lemma rearm_seq s : ti_seq (rearm s) = ti_seq s.
Proof. unfold rearm. destruct (ti_wakeHost s); [|done]. cbn. by case_bool_decide. Qed.
Lemma rearm_host s : ti_wakeHost (rearm s) = ti_wakeHost s.
Proof. unfold rearm. destruct (ti_wakeHost s) eqn:E; [|done]. cbn. by case_bool_decide. Qed.

Lemma rearm_ok s : mirror_ok s -> mirror_ok (rearm s) /\ alarm_ok (rearm s).
Proof.
  unfold mirror_ok, alarm_ok, rearm. intros Hm. destruct (ti_wakeHost s) eqn:Eh; cbn [negb]; [|by rewrite Eh].
  case_bool_decide as E; cbn [ti_wakeHost ti_armedAt ti_alarm ti_live]; [|split; [by right|done]].
  specialize (Hm eq_refl). split; [intros _; exact Hm|]. intros _ Hne. pose proof (min_atMs_spec (ti_live s)) as Hs. destruct (min_atMs (ti_live s)); [|done].
  destruct Hm as [Hm|Hm]; congruence.
Qed.

Lemma setTimer_live atMs cb s : timers_ok s -> ti_live (setTimer atMs cb s).1 = ti_live s ++ [(ti_seq s + 1, DriverTimer atMs cb)].
Proof. intros Hs. unfold setTimer. cbn [fst]. rewrite rearm_live. cbn. apply jm_set_fresh. intros Hin%(to_fresh _ Hs). lia. Qed.
Lemma setTimer_ok atMs cb s : timers_ok s -> timers_ok (setTimer atMs cb s).1.
Proof.
  intros Hs. unfold setTimer. cbn [fst]. split; rewrite rearm_live; cbn [ti_live].
  - apply jm_nodup_set, Hs.
  - intros h. rewrite rearm_seq, jm_keys_set. cbn [ti_seq]. case_decide; [intros Hin%(to_fresh _ Hs); lia|].
    intros [Hin%(to_fresh _ Hs)| ->%list_elem_of_singleton]%elem_of_app; lia.
Qed.
Lemma setTimer_mirror atMs cb s : mirror_ok s -> mirror_ok (setTimer atMs cb s).1 /\ alarm_ok (setTimer atMs cb s).1.
Proof. intros Hs. by apply rearm_ok. Qed.

Lemma clearTimer_live h s : ti_live (clearTimer h s) = jm_delete (ti_live s) h.
Proof.
  unfold clearTimer, jm_has. destruct (jm_get (ti_live s) h) eqn:E; [by rewrite rearm_live|]. apply jm_get_None in E. unfold jm_delete.
  symmetry. apply filter_all. apply Forall_forall. intros [i t] Hin Heq. cbn in Heq. subst i. apply E. unfold jm_keys. apply list_elem_of_fmap. by exists (h, t).
Qed.
Lemma clearTimer_seq h s : ti_seq (clearTimer h s) = ti_seq s.
Proof. unfold clearTimer. destruct (jm_has _ _); [by rewrite rearm_seq|done]. Qed.

Lemma delete_subset (live : list (Z * driver_timer)) h h' : h' ∈ jm_keys (jm_delete live h) -> h' ∈ jm_keys live.
Proof. unfold jm_keys, jm_delete. intros (x & -> & Hx%list_elem_of_filter)%list_elem_of_fmap. apply list_elem_of_fmap_2, Hx. Qed.

Lemma clearTimer_ok h s : timers_ok s -> timers_ok (clearTimer h s).
Proof.
  intros Hs. split; rewrite clearTimer_live; [apply jm_nodup_delete, Hs|]. intros h' Hin. rewrite clearTimer_seq. by eapply (to_fresh _ Hs), delete_subset.
Qed.
Lemma clearTimer_mirror h s : mirror_ok s -> mirror_ok (clearTimer h s).
Proof. intros Hs. unfold clearTimer. destruct (jm_has _ _); [by apply rearm_ok|done]. Qed.
Lemma clearTimer_alarm h s : mirror_ok s -> alarm_ok s -> alarm_ok (clearTimer h s).
Proof. intros Hs Ha. unfold clearTimer. destruct (jm_has _ _); [by apply rearm_ok|done]. Qed.

(** * The host's alarm *)

(** A callback is the timer calls it makes. *)
Inductive timer_op := OpSet (atMs : Z) (cb : C) | OpClear (h : Z).
Definition run_op (s : timers) (o : timer_op) : timers := match o with OpSet a c => (setTimer a c s).1 | OpClear h => clearTimer h s end.

Context (ops_of : C -> list timer_op).
Definition fireDueTimers (now : Z) (s : timers) : timers :=
  let '(s, cbs) := take_due now s in rearm (foldl (fun s c => foldl run_op s (ops_of c)) s cbs).

(** A request may ask for due timers at any time; an alarm does when it goes off. *)
Inductive timer_label := TOp (o : timer_op) | TStop | TRequest (now : Z) | TAlarm (now : Z).
Definition timer_step (s : timers) (l : timer_label) : timers :=
  match l with
  | TOp o => run_op s o
  | TStop => clear_all s
  | TRequest now => fireDueTimers now s
  | TAlarm now => fireDueTimers now (alarm_fires s)
  end.

Lemma run_op_mirror s o : mirror_ok s -> mirror_ok (run_op s o).
Proof. destruct o; [apply setTimer_mirror|apply clearTimer_mirror]. Qed.
Lemma run_ops_mirror s os : mirror_ok s -> mirror_ok (foldl run_op s os).
Proof. revert s. induction os as [|o os IH]; intros s Hs; [done|]. by apply IH, run_op_mirror. Qed.
Lemma fire_mirror now s : mirror_ok (fireDueTimers now s) /\ alarm_ok (fireDueTimers now s).
Proof.
  unfold fireDueTimers. destruct (take_due now s) as [s1 cbs] eqn:E. apply rearm_ok. assert (mirror_ok s1) as Hs by (injection E as <- _; by left).
  clear E. revert s1 Hs. induction cbs as [|c cbs IH]; intros s1 Hs; [done|]. by apply IH, run_ops_mirror.
Qed.
Lemma timer_step_ok s l : mirror_ok s /\ alarm_ok s -> mirror_ok (timer_step s l) /\ alarm_ok (timer_step s l).
Proof.
  intros [Hm Ha]. destruct l as [[a c|h]| |now|now]; cbn [timer_step run_op]; try apply fire_mirror.
  - by apply setTimer_mirror.
  - split; [by apply clearTimer_mirror|by apply clearTimer_alarm].
  - split; [exact Hm|]. intros _ []. done.
Qed.

(** Whatever timers are set, cleared, fired early or stopped, the one alarm
    of the host is set to the earliest of them. *)
Theorem host_alarm_is_minimum ls :
  let s := foldl timer_step (no_timers true) ls in ti_live s <> [] -> ti_alarm s = min_atMs (ti_live s).
Proof.
  intros s. assert (mirror_ok s /\ alarm_ok s /\ ti_wakeHost s = true) as (_ & Ha & Hh); [|by apply Ha].
  unfold s. clear s. induction ls as [|l ls (Hm & Ha & Hh)] using rev_ind; [split_and!; [by left|done|done]|]. rewrite foldl_app. cbn [foldl].
  destruct (timer_step_ok _ l (conj Hm Ha)) as [Hm' Ha']. split_and!; [done|done|].
  assert (Hop : forall s o, ti_wakeHost (run_op s o) = ti_wakeHost s).
  { intros s [a c|h]; cbn; [by rewrite rearm_host|]. unfold clearTimer. destruct (jm_has _ _); [by rewrite rearm_host|done]. }
  assert (Hops : forall os s, ti_wakeHost (foldl run_op s os) = ti_wakeHost s).
  { induction os as [|o os IH]; intros s; [done|]. cbn. by rewrite IH. }
  assert (Hf : forall now s, ti_wakeHost (fireDueTimers now s) = ti_wakeHost s).
  { intros now s. unfold fireDueTimers. destruct (take_due now s) as [s1 cbs] eqn:E. rewrite rearm_host. trans (ti_wakeHost s1); [|by injection E as <- _].
    clear E. revert s1. induction cbs as [|c cbs IH]; intros s1; [done|]. cbn [foldl]. by rewrite IH. }
  destruct l as [o| |now|now]; cbn [timer_step]; [by rewrite Hop|exact Hh|by rewrite Hf|by rewrite Hf].
Qed.
End timers.
Arguments driver_timer : clear implicits.
Arguments timers : clear implicits.

Arguments timer_op : clear implicits.
Arguments timer_label : clear implicits.

Lemma host_alarm_is_minimum_witness :
  let s := foldl (timer_step (fun c : Z => [OpSet (c + 100) c])) (no_timers true) [TOp (OpSet 50 1); TOp (OpSet 30 2); TAlarm 30; TStop; TOp (OpSet 90 3)] in
  ti_live s <> [] /\ ti_alarm s = min_atMs (ti_live s).
Proof.
  intros s. split; [by vm_compute|].
  apply (host_alarm_is_minimum (fun c : Z => [OpSet (c + 100) c]) [TOp (OpSet 50 1); TOp (OpSet 30 2); TAlarm 30; TStop; TOp (OpSet 90 3)]). by vm_compute.
Defined.

(** * [setTimeout]

    The platform's timers take a delay of at most [2^31 - 1] milliseconds; a
    larger one is replaced by 1.  [setTimer] passes the delay on as it is. *)
Definition platform_delay (d : Z) : Z := if (2 ^ 31 - 1 <? d) || (d <? 1) then 1 else d.
Definition timeout_at (now atMs : Z) : Z := now + platform_delay (Z.max 0 (atMs - now)).

(** A timer more than 24.8 days ahead goes off at once, and again as often as it
    is set: a driver that arms one for a job of next month polls every
    millisecond until the job comes within range. *)
Lemma far_timer_spins atMs now n : 2 ^ 31 + Z.of_nat n <= atMs - now -> Nat.iter n (fun t => timeout_at t atMs) now = now + Z.of_nat n.
Proof.
  induction n as [|n IH]; intros Hn; [cbn; lia|]. rewrite Nat.iter_succ, IH by lia. unfold timeout_at, platform_delay.
  replace (2 ^ 31 - 1 <? Z.max 0 (atMs - (now + Z.of_nat n))) with true by (symmetry; apply Z.ltb_lt; lia). cbn [orb]. lia.
Qed.

Definition SWEEP_MS : Z := 30000.

Inductive drv_cb := TWake | TSweep.
#[global] Instance drv_cb_eq_dec : EqDecision drv_cb.
Proof. solve_decision. Defined.

Section driver.
Context {P C X : Type} (callback : C -> Z -> option X -> oc_result -> P) (backstopMs : Z -> Z).
Notation srun := (@srun P C X).
Notation srun_step := (@srun_step P C X callback).


(** Where the pass stands: a call that is awaited, the answer the loop has not
    seen yet, or the pass over with its [finally] to come. *)
Inductive pc :=
  | PIdle
  | PPeek | PPeeked (due : list Z) (earliest : option Z)
  | PClaim (id : Z) (rest : list Z) (earliest : option Z) | PClaimed (id : Z) (flight : option Z) (rest : list Z) (earliest : option Z)
  | PRun (flight : Z) (rest : list Z) (earliest : option Z)
  | PComplete (flight : Z) (rest : list Z) (earliest : option Z) | PCompleted (rest : list Z) (earliest : option Z)
  | PErr
  | PSettled.

Record drv := Drv
  { dv_ctx : bool; dv_running : bool; dv_pendingWake : bool; dv_timer : option Z; dv_sweepTimer : option Z; dv_stopped : bool;
    dv_unsubscribe : option Z; dv_pc : pc; dv_sweeps : nat }.
Definition drv_new : drv := Drv false false false None None false None PIdle 0.

(** [sw_notes] counts commits that touched the tables and were not published;
    [sw_peeked] (the time of the last peek) and [sw_broken] (a call of the last
    pass failed) are for the theorems. *)
Record sworld := SWorld
  { sw_run : srun; sw_now : Z; sw_timers : timers drv_cb; sw_subs : list Z; sw_nextSub : Z; sw_notes : nat; sw_drv : drv;
    sw_peeked : Z; sw_broken : bool }.
Definition sworld_new (wakeHost : bool) : sworld := SWorld srun_empty 0 (no_timers wakeHost) [] 0 0 drv_new 0 false.

Definition set_drv (w : sworld) (d : drv) : sworld :=
  SWorld (sw_run w) (sw_now w) (sw_timers w) (sw_subs w) (sw_nextSub w) (sw_notes w) d (sw_peeked w) (sw_broken w).
Definition set_timers (w : sworld) (t : timers drv_cb) (d : drv) : sworld :=
  SWorld (sw_run w) (sw_now w) t (sw_subs w) (sw_nextSub w) (sw_notes w) d (sw_peeked w) (sw_broken w).
Definition commit_run (w : sworld) (x : srun) (wrote : bool) : sworld :=
  SWorld x (sw_now w) (sw_timers w) (sw_subs w) (sw_nextSub w) (if wrote then S (sw_notes w) else sw_notes w) (sw_drv w) (sw_peeked w) (sw_broken w).

Definition set_pass (d : drv) (running pending : bool) (p : pc) : drv :=
  Drv (dv_ctx d) running pending (dv_timer d) (dv_sweepTimer d) (dv_stopped d) (dv_unsubscribe d) p (dv_sweeps d).
Definition set_pc (w : sworld) (p : pc) : sworld := set_drv w (set_pass (sw_drv w) (dv_running (sw_drv w)) (dv_pendingWake (sw_drv w)) p).
Definition set_timer (d : drv) (h : option Z) : drv :=
  Drv (dv_ctx d) (dv_running d) (dv_pendingWake d) h (dv_sweepTimer d) (dv_stopped d) (dv_unsubscribe d) (dv_pc d) (dv_sweeps d).
Definition set_sweep (d : drv) (h : option Z) (sweeps : nat) : drv :=
  Drv (dv_ctx d) (dv_running d) (dv_pendingWake d) (dv_timer d) h (dv_stopped d) (dv_unsubscribe d) (dv_pc d) sweeps.
Definition set_life (d : drv) (ctx stopped : bool) (unsub : option Z) : drv :=
  Drv ctx (dv_running d) (dv_pendingWake d) (dv_timer d) (dv_sweepTimer d) stopped unsub (dv_pc d) (dv_sweeps d).

(** * The loop *)

(** One turn of [do ... while]: the bit is cleared and the peek is called. *)
Definition begin_peek (w : sworld) : sworld :=
  let w := set_drv w (set_pass (sw_drv w) true false PPeek) in
  SWorld (sw_run w) (sw_now w) (sw_timers w) (sw_subs w) (sw_nextSub w) (sw_notes w) (sw_drv w) (sw_peeked w) false.

Definition iterate (w : sworld) : sworld :=
  let d := sw_drv w in
  if dv_running d then set_drv w (set_pass d true true (dv_pc d)) else begin_peek w.

Definition wake (w : sworld) : sworld := if dv_stopped (sw_drv w) then w else iterate w.

(** After the loop: the timer points at the last peek's earliest future job. *)
Definition end_pass (earliest : option Z) (w : sworld) : sworld :=
  let t := clear_handle (dv_timer (sw_drv w)) (sw_timers w) in
  let '(t, h) := match earliest with
                 | Some e => if dv_stopped (sw_drv w) then (t, None) else let '(t, h) := setTimer e TWake t in (t, Some h)
                 | None => (t, None)
                 end in
  set_pc (set_timers w t (set_timer (sw_drv w) h)) PSettled.

Definition next_job (rest : list Z) (earliest : option Z) (w : sworld) : sworld :=
  match rest with
  | id :: rest => set_pc w (PClaim id rest earliest)
  | [] => if dv_pendingWake (sw_drv w) then begin_peek w else end_pass earliest w
  end.

(** The [finally] of [iterate]. *)
Definition settle (w : sworld) : sworld :=
  let d := sw_drv w in
  let w := set_drv w (set_pass d false (dv_pendingWake d) PIdle) in
  if dv_pendingWake d then wake w else w.

(** The loop sees the answer of its call. *)
Definition resume (w : sworld) : sworld :=
  match dv_pc (sw_drv w) with
  | PPeeked due e => next_job due e w
  | PClaimed _ (Some f) rest e => set_pc w (PRun f rest e)
  | PClaimed _ None rest e => next_job rest e w
  | PCompleted rest e => next_job rest e w
  | PErr => set_pc w PSettled
  | PSettled => settle w
  | _ => w
  end.

(** The transaction of the awaited call. *)
Definition in_progress (x : srun) (f : Z) : bool :=
  match jm_get (sr_flights x) f with
  | Some fl => match get_job (sr_jobs x) (fl_job fl) with Some j => bool_decide (jb_state j = InProgress) | None => false end
  | None => false
  end.

Definition land (k : Z) (w : sworld) : sworld :=
  let x := sw_run w in
  match dv_pc (sw_drv w) with
  | PPeek =>
      let '(due, e) := peekDue (sw_now w) (sr_jobs x) in
      let w := set_pc w (PPeeked due e) in
      SWorld (sw_run w) (sw_now w) (sw_timers w) (sw_subs w) (sw_nextSub w) (sw_notes w) (sw_drv w) (sw_now w) (sw_broken w)
  | PClaim id rest e =>
      match (claim (sw_now w) id (sr_jobs x)).2 with
      | Some _ => set_pc (commit_run w (srun_step x (SClaim (sw_now w) id)) true) (PClaimed id (Some (sr_nextFlight x)) rest e)
      | None => set_pc w (PClaimed id None rest e)
      end
  | PComplete f rest e => set_pc (commit_run w (srun_step x (SComplete (sw_now w) k f)) (in_progress x f)) (PCompleted rest e)
  | _ => w
  end.

(** The awaited call rejects; a job's own error is a result, not this. *)
Definition call_fails (w : sworld) : sworld :=
  match dv_pc (sw_drv w) with
  | PPeek | PClaim _ _ _ | PComplete _ _ _ =>
      let w := set_pc w PErr in
      SWorld (sw_run w) (sw_now w) (sw_timers w) (sw_subs w) (sw_nextSub w) (sw_notes w) (sw_drv w) (sw_peeked w) true
  | _ => w
  end.

Definition job_ran (r : job_result) (w : sworld) : sworld :=
  match dv_pc (sw_drv w) with
  | PRun f rest e => set_pc (commit_run w (srun_step (sw_run w) (SExec f r)) false) (PComplete f rest e)
  | _ => w
  end.

(** * The sweep *)

Definition armSweep (w : sworld) : sworld :=
  if dv_stopped (sw_drv w) then w
  else
    let t := clear_handle (dv_sweepTimer (sw_drv w)) (sw_timers w) in
    let '(t, h) := setTimer (sw_now w + backstopMs SWEEP_MS) TSweep t in
    set_timers w t (set_sweep (sw_drv w) (Some h) (dv_sweeps (sw_drv w))).

Definition sweep_starts (w : sworld) : sworld := set_drv w (set_sweep (sw_drv w) (dv_sweepTimer (sw_drv w)) (S (dv_sweeps (sw_drv w)))).

(** A sweep settles, whether it reclaimed or failed. *)
Definition sweep_settles (ok : bool) (w : sworld) : sworld :=
  match dv_sweeps (sw_drv w) with
  | O => w
  | S n =>
      let wrote := negb (bool_decide (expired_jobs (sw_now w) (sr_jobs (sw_run w)) = [])) in
      let w := if ok then commit_run w (srun_step (sw_run w) (SReclaim (sw_now w))) wrote else w in
      armSweep (set_drv w (set_sweep (sw_drv w) (dv_sweepTimer (sw_drv w)) n))
  end.

(** * Timers and commits *)

Definition run_cb (w : sworld) (c : drv_cb) : sworld := match c with TWake => wake w | TSweep => sweep_starts w end.

Definition timeout (h : Z) (w : sworld) : sworld :=
  let '(t, c) := timeout_fires h (sw_timers w) in
  let w := set_timers w t (sw_drv w) in
  match c with Some c => run_cb w c | None => w end.

Definition fire_due (w : sworld) : sworld :=
  let '(t, cbs) := take_due (sw_now w) (sw_timers w) in
  let w := foldl run_cb (set_timers w t (sw_drv w)) cbs in
  set_timers w (rearm (sw_timers w)) (sw_drv w).

Definition set_subs (w : sworld) (subs : list Z) (next : Z) (notes : nat) : sworld :=
  SWorld (sw_run w) (sw_now w) (sw_timers w) subs next notes (sw_drv w) (sw_peeked w) (sw_broken w).

(** [fireCommitSubs]: every subscriber is called. *)
Definition publish (w : sworld) : sworld :=
  match sw_notes w with
  | O => w
  | S n => Nat.iter (length (sw_subs w)) wake (set_subs w (sw_subs w) (sw_nextSub w) n)
  end.

Definition start (w : sworld) : sworld :=
  let n := sw_nextSub w in
  let w := set_subs w (sw_subs w ++ [n]) (n + 1) (sw_notes w) in
  armSweep (wake (set_drv w (set_life (sw_drv w) true false (Some n)))).

(** The runtime drops all timers before it stops a driver. *)
Definition stop (w : sworld) : sworld :=
  let d := sw_drv w in
  let subs := match dv_unsubscribe d with Some u => base.filter (fun s => s <> u) (sw_subs w) | None => sw_subs w end in
  let t := clear_handle (dv_sweepTimer d) (clear_handle (dv_timer d) (clear_all (sw_timers w))) in
  set_timers (set_subs w subs (sw_nextSub w) (sw_notes w)) t (set_sweep (set_timer (set_life d (dv_ctx d) true None) None) None (dv_sweeps d)).

(** The process dies: only what is stored, and the host's alarm, remain. *)
Definition crash (w : sworld) : sworld :=
  SWorld (sw_run w) (sw_now w)
    (Timers (ti_wakeHost (sw_timers w)) [] 0 None (ti_alarm (sw_timers w))) [] 0 0 drv_new 0 false.

(** * Steps *)

(** The flight the pass is working on is its own. *)
Definition own_flight (w : sworld) : option Z :=
  match dv_pc (sw_drv w) with PClaimed _ f _ _ => f | PRun f _ _ | PComplete f _ _ => Some f | _ => None end.
Definition flight_of (l : @slabel P C X) : option Z := match l with SExec f _ | SComplete _ _ f | SCrash f => Some f | _ => None end.

Inductive dlabel :=
  | DStart | DStop | DCrash | DTick
  | DClock (now : Z)
  | DOther (l : @slabel P C X)
  | DPublish
  | DLand (k : Z) | DFails | DRan (r : job_result) | DResume
  | DTimeout (h : Z) | DRequest | DAlarm
  | DSweep (ok : bool).

Definition dstep (w : sworld) (l : dlabel) : sworld :=
  match l with
  | DStart => start w
  | DStop => if dv_ctx (sw_drv w) then stop w else w
  | DCrash => crash w
  | DTick => if dv_ctx (sw_drv w) then iterate w else w
  | DClock now => SWorld (sw_run w) (Z.max now (sw_now w)) (sw_timers w) (sw_subs w) (sw_nextSub w) (sw_notes w) (sw_drv w) (sw_peeked w) (sw_broken w)
  | DOther l =>
      if bool_decide (is_Some (flight_of l) /\ flight_of l = own_flight w) then w else commit_run w (srun_step (sw_run w) l) true
  | DPublish => publish w
  | DLand k => land k w
  | DFails => call_fails w
  | DRan r => job_ran r w
  | DResume => resume w
  | DTimeout h => if ti_wakeHost (sw_timers w) then w else timeout h w
  | DRequest => if ti_wakeHost (sw_timers w) then fire_due w else w
  | DAlarm => if ti_wakeHost (sw_timers w) then fire_due (set_timers w (alarm_fires (sw_timers w)) (sw_drv w)) else w
  | DSweep ok => sweep_settles ok w
  end.
Definition dsteps (w : sworld) (ls : list dlabel) : sworld := fold_left dstep ls w.
End driver.
