(* ===== verification/SchedulerWakes.v ===== *)
(** No wake-up is lost: the invariant of the scheduler's driver. *)
From Stdlib Require Import ZArith Lia Sorted.
From stdpp Require Import base list sets strings.
From S2P Require Import Prelude JsBase Values Scheduler SchedulerRuns SchedulerDriver.

Section wakes.
Context {P C X : Type} (callback : C -> Z -> option X -> oc_result -> P) (backstopMs : Z -> Z).
Notation job := (job P C X).
Notation jobs := (jobs P C X).
Notation sworld := (@sworld P C X).
Notation dstep := (@dstep P C X callback backstopMs).
Notation srun_step := (@srun_step P C X callback).

(** * What a peek sees *)

#[local] Instance nextTs_laws : CmpLaws (fun a b : Z * job => jb_nextTs a.2 ?= jb_nextTs b.2).
Proof. apply (cmp_on_laws (fun a : Z * job => jb_nextTs a.2) Z.compare), _. Qed.

Lemma filter_sorted_head {A} (R : A -> A -> Prop) (Q : A -> Prop) `{!forall x, Decision (Q x)} (l : list A) x : StronglySorted R l -> x ∈ l -> Q x ->
  exists y l', base.filter Q l = y :: l' /\ (y = x \/ R y x).
Proof.
  induction 1 as [|y l Hl IH Hy]; [by intros ?%not_elem_of_nil|]. intros Hin HQ. rewrite filter_cons. destruct (decide (Q y)) as [Hq|Hq].
  - exists y, (base.filter Q l). split; [done|]. apply elem_of_cons in Hin as [->|Hin]; [by left|]. right. rewrite Forall_forall in Hy. by apply Hy.
  - apply IH; [|done]. apply elem_of_cons in Hin as [->|Hin]; done.
Qed.

Lemma peek_spec claimed now (t : jobs) due e : jobs_ok claimed t -> peekDue now t = (due, e) ->
  (forall id, id ∈ due -> exists j, get_job t id = Some j /\ jb_state j = Pending) /\
  (forall id j, get_job t id = Some j -> jb_state j = Pending -> due <> [] \/ exists e', e = Some e' /\ e' <= jb_nextTs j).
Proof.
  intros HJ. unfold peekDue. intros [= <- <-]. split.
  - intros id Hin. apply elem_of_take in Hin as (i & Hin & _). apply list_elem_of_lookup_2 in Hin.
    apply list_elem_of_fmap in Hin as ([i' j] & -> & [_ Hin]%list_elem_of_filter). unfold by_next_ts in Hin.
    rewrite js_sort_perm in Hin. apply list_elem_of_filter in Hin as [Hs Hin]. exists j. split; [|done].
    apply jm_in_get; [apply HJ|done].
  - intros id j Hj Hs. apply jm_get_Some_in in Hj.
    assert (Hin : (id, j) ∈ by_next_ts Pending t) by (unfold by_next_ts; rewrite js_sort_perm; by apply list_elem_of_filter).
    destruct (decide (jb_nextTs j <= now)) as [Hle|Hgt].
    + left. assert (Hf : id ∈ (base.filter (fun r => jb_nextTs r.2 <= now) (by_next_ts Pending t)).*1).
      { apply list_elem_of_fmap. exists (id, j). split; [done|]. by apply list_elem_of_filter. }
      destruct (base.filter (fun r : Z * job => jb_nextTs r.2 <= now) (by_next_ts Pending t)) as [|r l]; [by apply not_elem_of_nil in Hf|done].
    + right. destruct (filter_sorted_head _ (fun r : Z * job => now < jb_nextTs r.2) _ (id, j) (js_sort_sorted _ _ nextTs_laws) Hin ltac:(cbn; lia)) as (y & l' & Heq & Hy).
      fold (by_next_ts Pending t) in Heq. rewrite Heq. exists (jb_nextTs y.2). split; [done|].
      destruct Hy as [->|Hy]; [done|]. cbn in Hy. destruct (Z.compare_spec (jb_nextTs y.2) (jb_nextTs j)); [lia|lia|done].
Qed.

(** * The invariant *)

Definition is_idle (p : pc) : bool := match p with PIdle => true | _ => false end.
Definition awake (w : sworld) : Prop := dv_ctx (sw_drv w) = true /\ dv_stopped (sw_drv w) = false.
Definition pending (w : sworld) (id : Z) (j : job) : Prop := get_job (sr_jobs (sw_run w)) id = Some j /\ jb_state j = Pending.

(** A timer of each kind. *)
Definition live_timer (w : sworld) (c : drv_cb) (h : Z) (t : driver_timer drv_cb) : Prop := (h, t) ∈ ti_live (sw_timers w) /\ tm_cb t = c.
Definition covered (w : sworld) : Prop := forall id j, pending w id j -> exists h t, live_timer w TWake h t /\ tm_atMs t <= jb_nextTs j.
(** A wake-up that the pass has not answered. *)
Definition woken (w : sworld) : Prop :=
  dv_running (sw_drv w) = true /\ (dv_pendingWake (sw_drv w) = true \/ dv_pc (sw_drv w) = PPeek).
(** With every commit published and no wake-up, the tables are as the last peek
    saw them. *)
Definition settled (w : sworld) : Prop :=
  match dv_pc (sw_drv w) with
  | PIdle | PSettled => covered w
  | PPeeked due e => peekDue (sw_peeked w) (sr_jobs (sw_run w)) = (due, e)
  | PClaim id rest e => peekDue (sw_peeked w) (sr_jobs (sw_run w)) = (id :: rest, e)
  | _ => False
  end.
Definition no_lost_wake (w : sworld) : Prop := awake w -> sw_broken w = false -> sw_notes w = 0%nat -> woken w \/ settled w.
Definition sweeping (w : sworld) : Prop := awake w -> (exists h t, live_timer w TSweep h t) \/ (0 < dv_sweeps (sw_drv w))%nat.

Record handles_ok (w : sworld) : Prop := {
  ho_timers : timers_ok (sw_timers w);
  ho_mirror : mirror_ok (sw_timers w);
  ho_live h t : (h, t) ∈ ti_live (sw_timers w) -> match tm_cb t with TWake => dv_timer (sw_drv w) | TSweep => dv_sweepTimer (sw_drv w) end = Some h;
  ho_bound h : dv_timer (sw_drv w) = Some h \/ dv_sweepTimer (sw_drv w) = Some h -> h <= ti_seq (sw_timers w);
  ho_distinct h : dv_timer (sw_drv w) = Some h -> dv_sweepTimer (sw_drv w) <> Some h
}.

Record shape_ok (w : sworld) : Prop := {
  sh_run : srun_ok callback (sw_run w);
  sh_idle : dv_running (sw_drv w) = negb (is_idle (dv_pc (sw_drv w)));
  sh_handles : handles_ok w;
  sh_subs : awake w -> sw_subs w <> []
}.

Record driver_ok (w : sworld) : Prop := { dr_shape : shape_ok w; dr_wake : no_lost_wake w; dr_sweep : sweeping w; dr_alarm : alarm_ok (sw_timers w) }.

(** * Waking *)

(** What [iterate] leaves alone. *)
Record same_rest (w w' : sworld) : Prop := {
  sm_run : sw_run w' = sw_run w;
  sm_timers : sw_timers w' = sw_timers w;
  sm_subs : sw_subs w' = sw_subs w;
  sm_notes : sw_notes w' = sw_notes w;
  sm_ctx : dv_ctx (sw_drv w') = dv_ctx (sw_drv w);
  sm_stopped : dv_stopped (sw_drv w') = dv_stopped (sw_drv w);
  sm_timer : dv_timer (sw_drv w') = dv_timer (sw_drv w);
  sm_sweepTimer : dv_sweepTimer (sw_drv w') = dv_sweepTimer (sw_drv w)
}.

Lemma same_rest_refl w : same_rest w w.
Proof. by split. Qed.
Lemma same_rest_trans w1 w2 w3 : same_rest w1 w2 -> same_rest w2 w3 -> same_rest w1 w3.
Proof. intros [] []. split; congruence. Qed.

Lemma same_shape w w' : same_rest w w' -> dv_running (sw_drv w') = negb (is_idle (dv_pc (sw_drv w'))) -> shape_ok w -> shape_ok w'.
Proof.
  intros [] Hi [H1 H2 [G1 G2 G3 G4 G5] H4]. split; [congruence|done| |].
  - split; rewrite ?sm_timers0, ?sm_timer0, ?sm_sweepTimer0; done.
  - unfold awake in *. rewrite sm_ctx0, sm_stopped0, sm_subs0. done.
Qed.

Lemma begin_peek_same (w : sworld) : same_rest w (begin_peek w).
Proof. by split. Qed.
Lemma begin_peek_woken (w : sworld) : woken (begin_peek w).
Proof. split; [done|by right]. Qed.
Lemma iterate_same (w : sworld) : same_rest w (iterate w).
Proof. unfold iterate. destruct (dv_running (sw_drv w)); by split. Qed.
Lemma iterate_idle (w : sworld) : dv_running (sw_drv w) = negb (is_idle (dv_pc (sw_drv w))) -> dv_running (sw_drv (iterate w)) = negb (is_idle (dv_pc (sw_drv (iterate w)))).
Proof. unfold iterate. intros H. destruct (dv_running (sw_drv w)) eqn:E; cbn; [exact H|done]. Qed.
Lemma iterate_woken (w : sworld) : woken (iterate w).
Proof. unfold iterate. destruct (dv_running (sw_drv w)); split; cbn; auto. Qed.

Lemma wake_same (w : sworld) : same_rest w (wake w).
Proof. unfold wake. destruct (dv_stopped (sw_drv w)); [apply same_rest_refl|apply iterate_same]. Qed.
Lemma wake_shape (w : sworld) : shape_ok w -> shape_ok (wake w).
Proof. intros H. unfold wake. destruct (dv_stopped (sw_drv w)); [done|]. eapply same_shape; [apply iterate_same|apply iterate_idle, H|done]. Qed.
Lemma wake_woken (w : sworld) : dv_stopped (sw_drv w) = false -> woken (wake w).
Proof. intros H. unfold wake. rewrite H. apply iterate_woken. Qed.
Lemma wake_sweeps (w : sworld) : dv_sweeps (sw_drv (wake w)) = dv_sweeps (sw_drv w).
Proof. unfold wake, iterate. by destruct (dv_stopped (sw_drv w)), (dv_running (sw_drv w)). Qed.

Lemma woken_no_lost w : woken w -> no_lost_wake w.
Proof. by left. Qed.
Lemma wake_no_lost (w : sworld) : no_lost_wake (wake w).
Proof. intros [_ Hs]. rewrite (sm_stopped _ _ (wake_same w)) in Hs. intros _ _. left. by apply wake_woken. Qed.

(** Nothing else of a wake-up matters to the sweep. *)
Lemma sweeping_same w w' : sw_timers w' = sw_timers w -> dv_sweeps (sw_drv w') = dv_sweeps (sw_drv w) -> (awake w' -> awake w) -> sweeping w -> sweeping w'.
Proof. intros Ht Hn Ha H Hw. destruct (H (Ha Hw)) as [(h & t & Hl)|Hs]; [left; exists h, t; unfold live_timer in *; by rewrite Ht|right; by rewrite Hn]. Qed.

Lemma wake_ok (w : sworld) : shape_ok w -> sweeping w -> alarm_ok (sw_timers w) -> driver_ok (wake w).
Proof.
  intros Hsh Hsw Hal. split; [by apply wake_shape|apply wake_no_lost| |by rewrite (sm_timers _ _ (wake_same w))].
  eapply sweeping_same; [apply (sm_timers _ _ (wake_same w))|apply wake_sweeps| |done]. unfold awake.
  by rewrite (sm_ctx _ _ (wake_same w)), (sm_stopped _ _ (wake_same w)).
Qed.

(** * Timers *)

Lemma in_delete (live : list (Z * driver_timer drv_cb)) h h' t : (h', t) ∈ jm_delete live h <-> (h', t) ∈ live /\ h' <> h.
Proof. unfold jm_delete. rewrite list_elem_of_filter. cbn. tauto. Qed.

Lemma in_clear h (s : timers drv_cb) h' t : (h', t) ∈ ti_live (clear_handle h s) <-> (h', t) ∈ ti_live s /\ h <> Some h'.
Proof. destruct h as [h|]; cbn [clear_handle]; [rewrite clearTimer_live, in_delete|]; naive_solver. Qed.

Lemma clear_handle_ok h (s : timers drv_cb) : timers_ok s -> mirror_ok s ->
  timers_ok (clear_handle h s) /\ mirror_ok (clear_handle h s) /\ ti_seq (clear_handle h s) = ti_seq s.
Proof. destruct h as [h|]; [|done]. intros H1 H2. split_and!; [by apply clearTimer_ok|by apply clearTimer_mirror|apply clearTimer_seq]. Qed.
Lemma clear_handle_alarm h (s : timers drv_cb) : mirror_ok s -> alarm_ok s -> alarm_ok (clear_handle h s).
Proof. destruct h as [h|]; [|done]. apply clearTimer_alarm. Qed.

Lemma in_set atMs c (s : timers drv_cb) h t : timers_ok s ->
  (h, t) ∈ ti_live (setTimer atMs c s).1 <-> (h, t) ∈ ti_live s \/ h = ti_seq s + 1 /\ t = DriverTimer atMs c.
Proof. intros Hs. rewrite setTimer_live by done. rewrite elem_of_app, list_elem_of_singleton. naive_solver. Qed.
Lemma set_seq atMs c (s : timers drv_cb) : ti_seq (setTimer atMs c s).1 = ti_seq s + 1.
Proof. unfold setTimer. cbn [fst]. by rewrite rearm_seq. Qed.

(** The drivers' two variables. *)
Lemma handles_set w c e s : handles_ok w -> s = clear_handle (match c with TWake => dv_timer (sw_drv w) | TSweep => dv_sweepTimer (sw_drv w) end) (sw_timers w) ->
  let h := Some (ti_seq s + 1) in
  forall w', sw_timers w' = (setTimer e c s).1 ->
  dv_timer (sw_drv w') = match c with TWake => h | TSweep => dv_timer (sw_drv w) end ->
  dv_sweepTimer (sw_drv w') = match c with TWake => dv_sweepTimer (sw_drv w) | TSweep => h end -> handles_ok w'.
Proof.
  intros [G1 G2 G3 G4 G5] -> h w' Ht Hd Hs. set (v := match c with TWake => _ | TSweep => _ end) in *.
  destruct (clear_handle_ok v (sw_timers w) G1 G2) as (K1 & K2 & K3). split; rewrite ?Ht.
  - by apply setTimer_ok.
  - by apply setTimer_mirror.
  - intros h' t. rewrite in_set by done. rewrite in_clear, K3. intros [[Hin Hne]|[-> ->]].
    + specialize (G3 _ _ Hin). destruct c, (tm_cb t); rewrite ?Hd, ?Hs; unfold v in *; congruence.
    + cbn. destruct c; rewrite ?Hd, ?Hs; unfold h; by rewrite K3.
  - intros h'. rewrite set_seq, Hd, Hs, K3. unfold h. rewrite K3. pose proof (G4 h') as Hb.
    destruct c; (intros [H|H]; [|]); try (injection H as <-; lia); [specialize (Hb (or_intror H))|specialize (Hb (or_introl H))]; lia.
  - intros h'. rewrite Hd, Hs. unfold h. rewrite K3. pose proof (G4 h') as Hb. destruct c.
    + intros H1 H2. injection H1 as <-. specialize (Hb (or_intror H2)). lia.
    + intros H1 H2. injection H2 as <-. specialize (Hb (or_introl H1)). lia.
Qed.

Lemma handles_clear w c : handles_ok w -> forall w', sw_timers w' = clear_handle (match c with TWake => dv_timer (sw_drv w) | TSweep => dv_sweepTimer (sw_drv w) end) (sw_timers w) ->
  dv_timer (sw_drv w') = match c with TWake => None | TSweep => dv_timer (sw_drv w) end ->
  dv_sweepTimer (sw_drv w') = match c with TWake => dv_sweepTimer (sw_drv w) | TSweep => None end -> handles_ok w'.
Proof.
  intros [G1 G2 G3 G4 G5] w' Ht Hd Hs. set (v := match c with TWake => _ | TSweep => _ end) in *.
  destruct (clear_handle_ok v (sw_timers w) G1 G2) as (K1 & K2 & K3). split; rewrite ?Ht, ?K3; try done.
  - intros h t. rewrite in_clear. intros [Hin Hne]. specialize (G3 _ _ Hin). destruct c, (tm_cb t); rewrite ?Hd, ?Hs; unfold v in *; congruence.
  - intros h. rewrite Hd, Hs. destruct c; intros [H|H]; try done; apply G4; auto.
  - intros h. rewrite Hd, Hs. destruct c; [done|by intros _].
Qed.

(** ** The end of a pass *)

Lemma end_pass_ok e w : shape_ok w -> sweeping w -> alarm_ok (sw_timers w) -> dv_running (sw_drv w) = true ->
  (awake w -> sw_broken w = false -> sw_notes w = 0%nat -> dv_pendingWake (sw_drv w) = false ->
   forall id j, pending w id j -> exists e', e = Some e' /\ e' <= jb_nextTs j) ->
  driver_ok (end_pass e w).
Proof.
  intros [S1 S2 S3 S4] Hsw Hal Hr Hcov. pose proof S3 as [G1 G2 G3 G4 G5].
  destruct (clear_handle_ok (dv_timer (sw_drv w)) (sw_timers w) G1 G2) as (K1 & K2 & K3).
  assert (Hkeep : forall h t, (h, t) ∈ ti_live (sw_timers w) -> tm_cb t = TSweep -> (h, t) ∈ ti_live (clear_handle (dv_timer (sw_drv w)) (sw_timers w))).
  { intros h t Hin Hc. apply in_clear. split; [done|]. intros Heq. specialize (G3 _ _ Hin). rewrite Hc in G3. by eapply G5. }
  unfold end_pass. set (set := match e with Some e => negb (dv_stopped (sw_drv w)) | None => false end).
  destruct set eqn:Eset; unfold set in Eset.
  - destruct e as [e|]; [|done]. apply negb_true_iff in Eset. rewrite Eset. cbn [setTimer].
    set (t := clear_handle _ _) in *. set (w' := set_pc _ _).
    assert (Ht : sw_timers w' = (setTimer e TWake t).1) by done. assert (Hh : handles_ok w') by (eapply (handles_set w TWake); done).
    split.
    + by split.
    + intros Ha Hb Hn. destruct (dv_pendingWake (sw_drv w)) eqn:Ep; [left; split; [exact Hr|by left]|]. right. unfold settled. cbn.
      intros id j Hp. destruct (Hcov Ha Hb Hn eq_refl id j Hp) as (e' & [= <-] & Hle). exists (ti_seq t + 1), (DriverTimer e TWake). split; [|done].
      split; [|done]. rewrite Ht. apply in_set; [done|]. by right.
    + intros Ha. destruct (Hsw Ha) as [(h & t' & Hin & Hc)|Hs]; [left; exists h, t'; split; [|done]|by right]. rewrite Ht. apply in_set; [done|]. left. by apply Hkeep.
    + rewrite Ht. by apply setTimer_mirror.
  - assert (Heq : match e with Some e0 => if dv_stopped (sw_drv w) then (clear_handle (dv_timer (sw_drv w)) (sw_timers w), None) else let '(t, h) := setTimer e0 TWake (clear_handle (dv_timer (sw_drv w)) (sw_timers w)) in (t, Some h) | None => (clear_handle (dv_timer (sw_drv w)) (sw_timers w), None) end = (clear_handle (dv_timer (sw_drv w)) (sw_timers w), None)).
    { destruct e; [|done]. apply negb_false_iff in Eset. by rewrite Eset. }
    rewrite Heq. clear Heq. set (t := clear_handle _ _) in *. set (w' := set_pc _ _).
    assert (Hh : handles_ok w') by (eapply (handles_clear w TWake); done). split.
    + by split.
    + intros Ha Hb Hn. destruct (dv_pendingWake (sw_drv w)) eqn:Ep; [left; split; [exact Hr|by left]|]. right. unfold settled. cbn.
      intros id j Hp. destruct (Hcov Ha Hb Hn eq_refl id j Hp) as (e' & -> & Hle). apply negb_false_iff in Eset. destruct Ha as [_ Ha]. cbn in Ha. congruence.
    + intros Ha. destruct (Hsw Ha) as [(h & t' & Hin & Hc)|Hs]; [left; exists h, t'; split; [|done]|by right]. by apply Hkeep.
    + by apply clear_handle_alarm.
Qed.

Lemma set_pc_shape p w : shape_ok w -> dv_running (sw_drv w) = negb (is_idle p) -> shape_ok (set_pc w p).
Proof. intros H Hr. eapply same_shape; [|exact Hr|exact H]. by split. Qed.
Lemma begin_peek_ok w : shape_ok w -> sweeping w -> alarm_ok (sw_timers w) -> driver_ok (begin_peek w).
Proof.
  intros H1 H2 H3. split; [|by left; apply begin_peek_woken|exact H2|exact H3]. eapply same_shape; [apply begin_peek_same| |done]. done.
Qed.

Lemma next_job_ok rest e w : shape_ok w -> sweeping w -> alarm_ok (sw_timers w) -> dv_running (sw_drv w) = true ->
  (awake w -> sw_broken w = false -> sw_notes w = 0%nat -> dv_pendingWake (sw_drv w) = false -> peekDue (sw_peeked w) (sr_jobs (sw_run w)) = (rest, e)) ->
  driver_ok (next_job rest e w).
Proof.
  intros Hsh Hsw Hal Hr Hp. destruct rest as [|id rest]; cbn [next_job].
  - destruct (dv_pendingWake (sw_drv w)) eqn:Ep; [by apply begin_peek_ok|]. apply end_pass_ok; [done|done|done|done|].
    intros Ha Hb Hn _ i j [Hi Hs]. destruct (so_table _ _ (sh_run _ Hsh)) as [HJ _].
    destruct (peek_spec _ _ _ _ _ HJ (Hp Ha Hb Hn eq_refl)) as [_ H]. destruct (H i j Hi Hs) as [?|H']; [done|exact H'].
  - split; [by apply set_pc_shape| |exact Hsw|exact Hal]. intros Ha Hb Hn.
    destruct (dv_pendingWake (sw_drv w)) eqn:Ep; [left; split; [exact Hr|by left]|]. right. by apply Hp.
Qed.

(** * Every step *)

Lemma driver_ok_same w w' : same_rest w w' -> dv_sweeps (sw_drv w') = dv_sweeps (sw_drv w) ->
  dv_running (sw_drv w') = negb (is_idle (dv_pc (sw_drv w'))) -> no_lost_wake w' -> driver_ok w -> driver_ok w'.
Proof.
  intros Hsame Hn Hi Hw [D1 D2 D3 D4]. split; [by eapply same_shape|done| |by rewrite (sm_timers _ _ Hsame)].
  eapply sweeping_same; [apply Hsame|done| |done]. unfold awake. by rewrite (sm_ctx _ _ Hsame), (sm_stopped _ _ Hsame).
Qed.

(** A pass that waits for anything but a peek, a claim or its own end has seen a
    commit of its own. *)
Lemma working_pending w : driver_ok w -> match dv_pc (sw_drv w) with PIdle | PSettled | PPeek | PPeeked _ _ | PClaim _ _ _ => False | _ => True end ->
  awake w -> sw_broken w = false -> sw_notes w = 0%nat -> dv_running (sw_drv w) = true /\ dv_pendingWake (sw_drv w) = true.
Proof.
  intros HD Hp Ha Hb Hn. destruct (dr_wake _ HD Ha Hb Hn) as [[Hr [H|H]]|H]; [done| |]; [by rewrite H in Hp|]. unfold settled in H. by destruct (dv_pc (sw_drv w)).
Qed.

(** The pass moves to another point of the kind. *)
Lemma set_pc_ok p w : driver_ok w -> is_idle (dv_pc (sw_drv w)) = false -> is_idle p = false ->
  (awake w -> sw_broken w = false -> sw_notes w = 0%nat -> dv_pendingWake (sw_drv w) = true \/ settled (set_pc w p)) -> driver_ok (set_pc w p).
Proof.
  intros HD Hi Hp H. apply (driver_ok_same w); [by split|done| | |done].
  - cbn. rewrite (sh_idle _ (dr_shape _ HD)), Hi. by rewrite Hp.
  - intros Ha Hb Hn. destruct (H Ha Hb Hn) as [Hpe|Hs]; [|by right]. left. split; [|by left]. cbn. by rewrite (sh_idle _ (dr_shape _ HD)), Hi.
Qed.

(** A commit whose notification is to come. *)
Lemma commit_ok w x wrote : driver_ok w -> srun_ok callback x -> (wrote = false -> sr_jobs x = sr_jobs (sw_run w)) -> driver_ok (commit_run w x wrote).
Proof.
  intros [[S1 S2 S3 S4] D2 D3 D4] Hx Hw. split; [|intros Ha Hb Hn|exact D3|exact D4].
  - split; [done|done|by destruct S3|done].
  - destruct wrote; [done|]. destruct (D2 Ha Hb Hn) as [H|H]; [by left|right]. unfold settled, covered, pending in *. cbn. by rewrite Hw.
Qed.
Lemma commit_noted w x : driver_ok w -> srun_ok callback x -> driver_ok (commit_run w x true).
Proof. intros. by apply commit_ok. Qed.

Lemma resume_ok w : driver_ok w -> driver_ok (resume w).
Proof.
  intros HD. pose proof HD as [Hsh D2 D3 D4]. pose proof (sh_idle _ Hsh) as Hi. unfold resume.
  destruct (dv_pc (sw_drv w)) as [| |due e|id rest e|id [f|] rest e|f rest e|f rest e|rest e| |] eqn:Ep; try done.
  - apply next_job_ok; [done|done|done|done|]. intros Ha Hb Hn Hpe. destruct (D2 Ha Hb Hn) as [[_ [H|H]]|H]; [congruence|congruence|].
    unfold settled in H. by rewrite Ep in H.
  - apply set_pc_ok; [done|by rewrite Ep|done|]. intros Ha Hb Hn. left. apply (working_pending w); try done. by rewrite Ep.
  - apply next_job_ok; [done|done|done|done|]. intros Ha Hb Hn Hpe. destruct (working_pending w HD ltac:(by rewrite Ep) Ha Hb Hn). congruence.
  - apply next_job_ok; [done|done|done|done|]. intros Ha Hb Hn Hpe. destruct (working_pending w HD ltac:(by rewrite Ep) Ha Hb Hn). congruence.
  - apply set_pc_ok; [done|by rewrite Ep|done|]. intros Ha Hb Hn. left. apply (working_pending w); try done. by rewrite Ep.
  - unfold settle. set (w1 := set_drv w _). destruct (dv_pendingWake (sw_drv w)) eqn:Epe.
    + apply wake_ok; [|exact D3|exact D4]. eapply (same_shape w); [by split|done|done].
    + apply (driver_ok_same w); [by split|done|done| |done]. intros Ha Hb Hn. right. destruct (D2 Ha Hb Hn) as [[_ [H|H]]|H]; [congruence|congruence|].
      unfold settled in *. by rewrite Ep in H.
Qed.

Lemma land_ok k w : driver_ok w -> driver_ok (land callback k w).
Proof.
  intros HD. pose proof HD as [Hsh D2 D3 D4]. unfold land. destruct (dv_pc (sw_drv w)) as [| | |id rest e| | |f rest e| | |] eqn:Ep; try done.
  - destruct (peekDue (sw_now w) (sr_jobs (sw_run w))) as [due e] eqn:Epk. apply (driver_ok_same w); [by split|done| |by right|done].
    cbn. rewrite (sh_idle _ Hsh). by rewrite Ep.
  - destruct (claim (sw_now w) id (sr_jobs (sw_run w))).2 eqn:Ec.
    + apply set_pc_ok; [|by cbn; rewrite Ep|done|done]. apply commit_noted; [done|]. apply srun_step_ok, Hsh.
    + apply set_pc_ok; [done|by rewrite Ep|done|]. intros Ha Hb Hn. destruct (D2 Ha Hb Hn) as [[_ [H|H]]|H]; [by left|congruence|]. exfalso.
      unfold settled in H. rewrite Ep in H. destruct (so_table _ _ (sh_run _ Hsh)) as [HJ _]. destruct (peek_spec _ _ _ _ _ HJ H) as [Hd _].
      destruct (Hd id ltac:(left)) as (j & Hj & Hs). unfold claim in Ec. rewrite Hj, bool_decide_eq_true_2 in Ec by done. done.
  - apply set_pc_ok; [|by cbn; rewrite Ep|done|].
    + apply commit_ok; [done|apply srun_step_ok, Hsh|]. cbn [srun_step SchedulerRuns.srun_step]. unfold in_progress.
      destruct (jm_get (sr_flights (sw_run w)) f) as [[id p [r|]]|]; try done. cbn [fl_job sr_jobs]. unfold complete.
      destruct (get_job (sr_jobs (sw_run w)) id) as [j|]; [|done]. intros ->. done.
    + intros Ha Hb Hn. left. destruct (in_progress (sw_run w) f); [done|]. apply (working_pending w); try done. by rewrite Ep.
Qed.

Lemma fails_ok w : driver_ok w -> driver_ok (call_fails w).
Proof.
  intros HD. unfold call_fails. pose proof (sh_idle _ (dr_shape _ HD)) as Hi.
  assert (H : is_idle (dv_pc (sw_drv w)) = false -> forall w', w' = set_pc w PErr -> driver_ok (SWorld (sw_run w') (sw_now w') (sw_timers w') (sw_subs w') (sw_nextSub w') (sw_notes w') (sw_drv w') (sw_peeked w') true)).
  { intros Hne w' ->. apply (driver_ok_same w); [by split|done| |by intros _|done]. cbn. rewrite Hi. by rewrite Hne. }
  destruct (dv_pc (sw_drv w)); try done; by apply H.
Qed.

Lemma job_ran_ok r w : driver_ok w -> driver_ok (job_ran callback r w).
Proof.
  intros HD. unfold job_ran. destruct (dv_pc (sw_drv w)) as [| | | | |f rest e| | | |] eqn:Ep; try done.
  apply set_pc_ok; [|by cbn; rewrite Ep|done|].
  - apply commit_ok; [done|apply srun_step_ok, (dr_shape _ HD)|]. intros _. cbn [SchedulerRuns.srun_step].
    by destruct (jm_get (sr_flights (sw_run w)) f) as [[id p [r'|]]|].
  - intros Ha Hb Hn. left. apply (working_pending w); try done. by rewrite Ep.
Qed.

(** ** The sweep and the timers *)

(** Arming the sweep touches no other timer. *)
Lemma armSweep_ok w : shape_ok w -> no_lost_wake w -> alarm_ok (sw_timers w) -> driver_ok (armSweep backstopMs w).
Proof.
  intros Hsh Hw Hal. unfold armSweep. destruct (dv_stopped (sw_drv w)) eqn:Es.
  - split; [done|done| |done]. intros [_ H]. congruence.
  - destruct Hsh as [S1 S2 S3 S4]. pose proof S3 as [G1 G2 G3 G4 G5].
    destruct (clear_handle_ok (dv_sweepTimer (sw_drv w)) (sw_timers w) G1 G2) as (K1 & K2 & K3).
    cbn [setTimer]. set (t := clear_handle _ _) in *. set (a := sw_now w + backstopMs SWEEP_MS). set (w' := set_timers _ _ _).
    assert (Ht : sw_timers w' = (setTimer a TSweep t).1) by done. split.
    + split; [done|done|by eapply (handles_set w TSweep)|done].
    + intros Ha Hb Hn. destruct (Hw Ha Hb Hn) as [H|H]; [by left|right]. unfold settled in *. cbn.
      assert (Hc : covered w -> covered w'); [|by destruct (dv_pc (sw_drv w)); auto].
      intros Hcov id j Hp. destruct (Hcov id j Hp) as (h & t' & [Hin Hc] & Hle). exists h, t'. split; [|done]. split; [|done]. rewrite Ht.
      apply in_set; [done|]. left. apply in_clear. split; [done|]. specialize (G3 _ _ Hin). rewrite Hc in G3. by apply G5.
    + intros _. left. exists (ti_seq t + 1), (DriverTimer a TSweep). split; [|done]. rewrite Ht. apply in_set; [done|]. by right.
    + rewrite Ht. by apply setTimer_mirror.
Qed.

Lemma sweep_settles_ok ok w : driver_ok w -> driver_ok (sweep_settles callback backstopMs ok w).
Proof.
  intros HD. unfold sweep_settles. destruct (dv_sweeps (sw_drv w)) as [|n]; [done|]. set (w1 := if ok then _ else w).
  assert (H1 : driver_ok w1).
  { unfold w1. destruct ok; [|done]. apply commit_ok; [done|apply srun_step_ok, (dr_shape _ HD)|].
    intros He%negb_false_iff%bool_decide_eq_true. cbn [SchedulerRuns.srun_step with_jobs sr_jobs]. unfold reclaim. by rewrite He. }
  destruct H1 as [[S1 S2 [] S4] D2 D3 D4]. apply armSweep_ok; [|exact D2|exact D4]. split; [done|done|by split|done].
Qed.

Lemma delete_handles w h t : handles_ok w -> timeout_fires h (sw_timers w) = t ->
  forall w', sw_timers w' = t.1 -> dv_timer (sw_drv w') = dv_timer (sw_drv w) -> dv_sweepTimer (sw_drv w') = dv_sweepTimer (sw_drv w) -> handles_ok w'.
Proof.
  intros [G1 G2 G3 G4 G5] <- w' Ht Hd Hs. unfold timeout_fires in Ht. destruct (jm_get (ti_live (sw_timers w)) h) as [t|] eqn:E; cbn in Ht.
  - split; rewrite ?Ht, ?Hd, ?Hs; cbn [ti_seq with_live]; [|done| |intros h'; rewrite ?Hd, ?Hs; apply G4|intros h'; rewrite ?Hd, ?Hs; apply G5].
    + split; [apply jm_nodup_delete, G1|]. intros h' Hin. apply (to_fresh _ G1). eapply delete_subset, Hin.
    + intros h' t'. intros Hin. apply in_delete in Hin as [Hin _]. specialize (G3 _ _ Hin). by rewrite ?Hd, ?Hs.
  - split; rewrite ?Ht; [done|done| | |]; intros h'; rewrite ?Hd, ?Hs; [apply G3|apply G4|apply G5].
Qed.

Lemma timeout_ok h w : ti_wakeHost (sw_timers w) = false -> driver_ok w -> driver_ok (timeout h w).
Proof.
  intros Hh [[S1 S2 S3 S4] D2 D3 D4]. unfold timeout. destruct (timeout_fires h (sw_timers w)) as [t c] eqn:E. set (w1 := set_timers w t (sw_drv w)).
  assert (H1 : shape_ok w1) by (split; [done|done|by eapply (delete_handles w)|done]).
  assert (Hal : alarm_ok t).
  { intros Hw. unfold timeout_fires in E. destruct (jm_get _ _); injection E as <- _; cbn in Hw; congruence. }
  unfold timeout_fires in E. destruct (jm_get (ti_live (sw_timers w)) h) as [tm|] eqn:Eh; injection E as <- <-.
  2:{ split; [done|exact D2|exact D3|exact Hal]. }
  apply jm_get_Some_in in Eh.
  assert (Hkeep : forall c h' t', c <> tm_cb tm -> live_timer w c h' t' -> live_timer w1 c h' t').
  { intros c h' t' Hne [Hin Hc]. split; [|done]. apply in_delete. split; [done|]. intros ->. apply Hne.
    pose proof (jm_in_get _ _ _ (to_nodup _ (ho_timers _ S3)) Hin) as H2. pose proof (jm_in_get _ _ _ (to_nodup _ (ho_timers _ S3)) Eh) as H3. congruence. }
  destruct (tm_cb tm) eqn:Ec; cbn [run_cb].
  - apply wake_ok; [done| |exact Hal]. intros Ha. destruct (D3 Ha) as [(h' & t' & Hl)|Hs]; [|by right]. left. exists h', t'. by apply Hkeep.
  - split; [|intros Ha Hb Hn|intros _; right; cbn; lia|exact Hal].
    + destruct H1 as [? ? [] ?]. split; [done|done|by split|done].
    + destruct (D2 Ha Hb Hn) as [H|H]; [by left|right]. unfold settled in *. cbn.
      assert (Hc : covered w -> covered (sweep_starts w1)); [|by destruct (dv_pc (sw_drv w)); auto].
      intros Hcov id j Hp. destruct (Hcov id j Hp) as (h' & t' & Hl & Hle). exists h', t'. split; [|done]. by apply Hkeep.
Qed.

(** Callbacks run one after the other. *)
Lemma run_cb_same (w : sworld) c : sw_timers (run_cb w c) = sw_timers w /\ sw_run (run_cb w c) = sw_run w /\ sw_notes (run_cb w c) = sw_notes w /\
  dv_ctx (sw_drv (run_cb w c)) = dv_ctx (sw_drv w) /\ dv_stopped (sw_drv (run_cb w c)) = dv_stopped (sw_drv w) /\
  (dv_sweeps (sw_drv w) <= dv_sweeps (sw_drv (run_cb w c)))%nat.
Proof.
  destruct c; cbn [run_cb]; [|cbn; split_and!; try done; lia]. destruct (wake_same w). rewrite wake_sweeps. by split_and!.
Qed.
Lemma run_cb_shape (w : sworld) c : shape_ok w -> shape_ok (run_cb w c).
Proof. destruct c; [apply wake_shape|]. intros [S1 S2 [] S4]. split; [done|done|by split|done]. Qed.

(** Either the pass is woken, or nothing but sweeps happened to it. *)
Definition quiet_or_woken (w w' : sworld) : Prop :=
  woken w' \/ dv_stopped (sw_drv w') = true \/
  dv_pc (sw_drv w') = dv_pc (sw_drv w) /\ dv_running (sw_drv w') = dv_running (sw_drv w) /\ dv_pendingWake (sw_drv w') = dv_pendingWake (sw_drv w) /\
  sw_peeked w' = sw_peeked w /\ sw_broken w' = sw_broken w.

Lemma woken_run_cb (w : sworld) c : woken w -> woken (run_cb w c).
Proof.
  intros [Hr Hp]. destruct c; cbn; [|by split]. unfold wake. destruct (dv_stopped (sw_drv w)); [by split|]. apply iterate_woken.
Qed.

Lemma run_cbs cbs (w w' : sworld) : w' = foldl run_cb w cbs -> shape_ok w ->
  shape_ok w' /\ sw_timers w' = sw_timers w /\ sw_run w' = sw_run w /\ sw_notes w' = sw_notes w /\
  dv_ctx (sw_drv w') = dv_ctx (sw_drv w) /\ dv_stopped (sw_drv w') = dv_stopped (sw_drv w) /\ (dv_sweeps (sw_drv w) <= dv_sweeps (sw_drv w'))%nat /\
  quiet_or_woken w w' /\ (TWake ∈ cbs -> woken w' \/ dv_stopped (sw_drv w') = true) /\ (TSweep ∈ cbs -> (0 < dv_sweeps (sw_drv w'))%nat).
Proof.
  revert w'. induction cbs as [|c cbs IH] using rev_ind; intros w' ->; intros Hsh.
  - cbn. split_and!; try done; [by right; right|by intros ?%not_elem_of_nil|by intros ?%not_elem_of_nil].
  - rewrite foldl_app. cbn [foldl]. destruct (IH _ eq_refl Hsh) as (H1 & H2 & H3 & H4 & H5 & H6 & H7 & H8 & H9 & H10). set (w1 := foldl run_cb w cbs) in *. clearbody w1.
    destruct (run_cb_same w1 c) as (G1 & G2 & G3 & G4 & G5 & G6). split_and!; try congruence; [by apply run_cb_shape|lia| | |].
    + destruct H8 as [H8|[H8|H8]]; [left; by apply woken_run_cb|right; left; congruence|].
      destruct c; cbn [run_cb]; [|right; right; exact H8]. destruct (dv_stopped (sw_drv w1)) eqn:Es; [right; left; by rewrite (sm_stopped _ _ (wake_same w1))|].
      left. by apply wake_woken.
    + intros [Hin|Hin%list_elem_of_singleton]%elem_of_app.
      * destruct (H9 Hin) as [H|H]; [left; by apply woken_run_cb|right; congruence].
      * subst c. cbn. destruct (dv_stopped (sw_drv w1)) eqn:Es; [right; by rewrite (sm_stopped _ _ (wake_same w1))|]. left. by apply wake_woken.
    + intros [Hin|Hin%list_elem_of_singleton]%elem_of_app; [specialize (H10 Hin); lia|]. subst c. cbn. lia.
Qed.

Lemma fire_due_ok w s : driver_ok w -> ti_live s = ti_live (sw_timers w) -> ti_seq s = ti_seq (sw_timers w) ->
  driver_ok (fire_due (set_timers w s (sw_drv w))).
Proof.
  intros [[S1 S2 [G1 G2 G3 G4 G5] S4] D2 D3 D4] Hl Hq. unfold fire_due, take_due. cbn [sw_timers sw_now sw_drv set_timers]. rewrite Hl.
  set (live := base.filter _ _). set (cbs := _ <$> _). set (w1 := set_timers (set_timers w s (sw_drv w)) (Timers _ _ _ _ _) (sw_drv w)). set (w2 := foldl run_cb w1 cbs).
  assert (Hsh : shape_ok w1).
  { split; [done|done| |done]. split; [|by left| | |].
    - split; cbn; [unfold jm_keys, live; eapply sublist_NoDup; [exact (to_nodup _ G1)|apply fmap_sublist, sublist_filter]|]. intros h Hin. rewrite Hq. apply (to_fresh _ G1).
      unfold jm_keys in *. apply list_elem_of_fmap in Hin as (x & -> & [_ Hin]%list_elem_of_filter). by apply list_elem_of_fmap_2.
    - intros h t [_ Hin]%list_elem_of_filter. by apply (G3 h t).
    - intros h Hh. cbn. rewrite Hq. by apply G4.
    - exact G5. }
  destruct (run_cbs cbs w1 w2 eq_refl Hsh) as (H1 & H2 & H3 & H4 & H5 & H6 & H7 & H8 & H9 & H10). clearbody w2.
  change (sw_run w1) with (sw_run w) in H3. change (sw_notes w1) with (sw_notes w) in H4. change (sw_drv w1) with (sw_drv w) in H5, H6, H7.
  assert (Hkept : forall c h t, live_timer w c h t -> c ∈ cbs \/ live_timer (set_timers w2 (rearm (sw_timers w2)) (sw_drv w2)) c h t).
  { intros c h t [Hin Hc]. destruct (decide (sw_now w < tm_atMs t)) as [Hlt|Hge].
    - right. split; [|done]. cbn. rewrite rearm_live, H2. apply list_elem_of_filter. by split.
    - left. apply list_elem_of_fmap. exists (h, t). split; [done|]. apply list_elem_of_filter. split; [cbn; lia|done]. }
  destruct (rearm_ok (sw_timers w2) (ho_mirror _ (sh_handles _ H1))) as [Hm Hal]. split.
  - destruct H1 as [K1 K2 [L1 L2 L3 L4 L5] K4]. split; [done|done| |done]. split; [|done| | |]; cbn.
    + split; rewrite rearm_live; [apply L1|]. intros h Hin. rewrite rearm_seq. by apply L1.
    + intros h t. rewrite rearm_live. apply L3.
    + intros h. rewrite rearm_seq. apply L4.
    + exact L5.
  - intros [Ha1 Ha2] Hb Hn. cbn in Ha1, Ha2, Hb, Hn. assert (Ha : awake w) by (split; congruence).
    destruct H8 as [H8|[H8|(Q1 & Q2 & Q3 & Q4 & Q5)]]; [by left|congruence|]. change (sw_drv w1) with (sw_drv w) in Q1, Q2, Q3.
    change (sw_peeked w1) with (sw_peeked w) in Q4. change (sw_broken w1) with (sw_broken w) in Q5.
    destruct (D2 Ha ltac:(congruence) ltac:(congruence)) as [[Hw1 Hw2]|Hs]; [left; split; cbn; [congruence|]; rewrite Q1, Q3; exact Hw2|].
    unfold settled in Hs |- *. cbn [sw_drv set_timers sw_peeked sw_run]. rewrite Q1, Q4, H3.
    assert (Hc : covered w -> (woken w2 \/ dv_stopped (sw_drv w2) = true) \/ covered (set_timers w2 (rearm (sw_timers w2)) (sw_drv w2))).
    { intros Hcov. destruct (decide (TWake ∈ cbs)) as [Hin|Hni]; [left; by apply H9|right]. intros id j Hp.
      assert (Hp' : pending w id j) by (destruct Hp as [Hp1 Hp2]; split; [|done]; change (get_job (sr_jobs (sw_run w2)) id = Some j) in Hp1; by rewrite H3 in Hp1).
      destruct (Hcov id j Hp') as (h & t & Hlt & Hle). exists h, t. split; [|done]. by destruct (Hkept _ _ _ Hlt). }
    destruct (dv_pc (sw_drv w)); try (by right); (destruct (Hc Hs) as [[H|H]|H]; [by left|congruence|by right]).
  - intros [Ha1 Ha2]. cbn in Ha1, Ha2. assert (Ha : awake w) by (split; congruence). destruct (D3 Ha) as [(h & t & Hlt)|Hs].
    + destruct (Hkept _ _ _ Hlt) as [Hin|Hl']; [right; by apply H10|left; by exists h, t].
    + right. cbn in H7 |- *. lia.
  - exact Hal.
Qed.

(** ** Commits are published; drivers start, stop and die *)

Lemma publish_ok w : driver_ok w -> driver_ok (publish w).
Proof.
  intros [[S1 S2 [] S4] D2 D3 D4]. unfold publish. destruct (sw_notes w) as [|n] eqn:En; [split; [by split|done|done|done]|].
  set (w1 := set_subs _ _ _ _). assert (H1 : shape_ok w1 /\ sweeping w1 /\ alarm_ok (sw_timers w1)) by (split_and!; [split; [done|done|by split|done]|exact D3|exact D4]).
  destruct (length (sw_subs w)) as [|k] eqn:El.
  - cbn. split; [apply H1| |apply H1|apply H1]. intros Ha. exfalso. apply S4; [exact Ha|]. by apply length_zero_iff_nil.
  - clear - H1. destruct H1 as (H1 & H2 & H3). induction k as [|k IH]; [by apply wake_ok|]. change (driver_ok (wake (Nat.iter (S k) wake w1))). apply wake_ok; apply IH.
Qed.

Lemma start_ok w : driver_ok w -> driver_ok (start backstopMs w).
Proof.
  intros [[S1 S2 [G1 G2 G3 G4 G5] S4] D2 D3 D4]. unfold start. set (w1 := set_drv _ _).
  assert (H1 : shape_ok w1) by (split; [done|done|by split|]; intros _ ?%app_nil; naive_solver).
  apply armSweep_ok; [by apply wake_shape|apply wake_no_lost|]. rewrite (sm_timers _ _ (wake_same w1)). exact D4.
Qed.

Lemma cleared_live h (s : timers drv_cb) : ti_live s = [] -> ti_live (clear_handle h s) = [].
Proof. intros Hs. destruct h; [|done]. cbn. by rewrite clearTimer_live, Hs. Qed.

Lemma stop_ok w : driver_ok w -> driver_ok (stop w).
Proof.
  intros [[S1 S2 [G1 G2 G3 G4 G5] S4] D2 D3 D4]. unfold stop. set (t := clear_handle _ (clear_handle _ _)).
  assert (Ht : timers_ok (clear_all (sw_timers w)) /\ mirror_ok (clear_all (sw_timers w))).
  { split; [split; [constructor|by intros h ?%not_elem_of_nil]|exact G2]. }
  destruct (clear_handle_ok (dv_timer (sw_drv w)) _ (proj1 Ht) (proj2 Ht)) as (K1 & K2 & _).
  destruct (clear_handle_ok (dv_sweepTimer (sw_drv w)) _ K1 K2) as (L1 & L2 & _). assert (Hl : ti_live t = []) by (by apply cleared_live, cleared_live).
  split; [|by intros []|by intros []|intros _ H; by destruct H]. split; [done|done| |by intros []]. split; [done|done| |by intros h []|done].
  intros h t'. cbn. rewrite Hl. by intros ?%not_elem_of_nil.
Qed.

Lemma crash_ok w : driver_ok w -> driver_ok (crash w).
Proof.
  intros [[S1 S2 S3 S4] D2 D3 D4]. split; [|by intros []|by intros []|by intros _ []]. split; [done|done| |by intros []].
  split; [split; [constructor|by intros h ?%not_elem_of_nil]|by left|by intros h t ?%not_elem_of_nil|by intros h []|done].
Qed.

Lemma dstep_ok w l : driver_ok w -> driver_ok (dstep w l).
Proof.
  intros HD. destruct l as [| | | |now|l| |k| |r| |h| | |ok]; cbn [SchedulerDriver.dstep].
  - by apply start_ok.
  - destruct (dv_ctx _); [by apply stop_ok|done].
  - by apply crash_ok.
  - destruct (dv_ctx _); [|done]. apply (driver_ok_same w); [apply iterate_same| |apply iterate_idle, (sh_idle _ (dr_shape _ HD))|left; apply iterate_woken|done].
    unfold iterate. by destruct (dv_running _).
  - destruct HD as [[S1 S2 [] S4] D2 D3 D4]. split; [split; [done|done|by split|done]|exact D2|exact D3|exact D4].
  - case_bool_decide; [done|]. apply commit_noted; [done|]. apply srun_step_ok, (dr_shape _ HD).
  - by apply publish_ok.
  - by apply land_ok.
  - by apply fails_ok.
  - by apply job_ran_ok.
  - by apply resume_ok.
  - destruct (ti_wakeHost _) eqn:E; [done|by apply timeout_ok].
  - destruct (ti_wakeHost _); [|done]. exact (fire_due_ok w (sw_timers w) HD eq_refl eq_refl).
  - destruct (ti_wakeHost _); [|done]. by apply fire_due_ok.
  - by apply sweep_settles_ok.
Qed.

Lemma sworld_new_ok b : driver_ok (sworld_new b).
Proof.
  split; [|by intros []|by intros []|by intros _ []]. split; [apply srun_empty_ok|done| |by intros []].
  split; [split; [constructor|by intros h ?%not_elem_of_nil]|by left|by intros h t ?%not_elem_of_nil|by intros h []|done].
Qed.
Lemma dsteps_ok b ls : driver_ok (dsteps callback backstopMs (sworld_new b) ls).
Proof. induction ls as [|l ls IH] using rev_ind; [apply sworld_new_ok|]. unfold dsteps in *. rewrite fold_left_app. by apply dstep_ok. Qed.

(** C26: a started driver never sleeps past a job.  Whatever commits, crashes,
    timers, sweeps, stops and restarts came before: once every commit is
    published and no pass is running, each pending job has a timer that wakes
    the driver no later than the job is due, and the host's alarm is no later
    either; and the sweep is always armed or under way.  The hypothesis
    excludes passes that ended with a failed call of their own. *)
Theorem idle_driver_wakes_in_time wakeHost ls :
  let w := dsteps callback backstopMs (sworld_new wakeHost) ls in
  dv_ctx (sw_drv w) = true -> dv_stopped (sw_drv w) = false ->
  ((exists h t, live_timer w TSweep h t) \/ (0 < dv_sweeps (sw_drv w))%nat) /\
  (sw_broken w = false -> sw_notes w = 0%nat -> dv_running (sw_drv w) = false -> forall id j, pending w id j ->
   (exists h t, live_timer w TWake h t /\ tm_atMs t <= jb_nextTs j) /\
   (ti_wakeHost (sw_timers w) = true -> exists a, ti_alarm (sw_timers w) = Some a /\ a <= jb_nextTs j)).
Proof.
  intros w Hc Hs. pose proof (dsteps_ok wakeHost ls) as [Hsh Hw Hsw Hal]. fold w in Hsh, Hw, Hsw, Hal. split; [by apply Hsw|].
  intros Hb Hn Hr id j Hp. destruct (Hw (conj Hc Hs) Hb Hn) as [[H _]|Hset]; [congruence|].
  pose proof (sh_idle _ Hsh) as Hi. rewrite Hr in Hi. unfold settled in Hset. destruct (dv_pc (sw_drv w)); try done.
  destruct (Hset id j Hp) as (h & t & Hl & Hle). split; [by exists h, t|]. intros Hh. destruct Hl as [Hin _].
  assert (Hne : ti_live (sw_timers w) <> []) by (intros H; rewrite H in Hin; by apply not_elem_of_nil in Hin).
  rewrite (Hal Hh Hne). pose proof (min_atMs_spec (ti_live (sw_timers w))) as Hm. destruct (min_atMs _) as [m|]; [|done].
  exists m. split; [done|]. destruct Hm as [_ Hm]. specialize (Hm _ _ Hin). lia.
Qed.
End wakes.

(** * Runs *)

Notation number_steps := (dsteps number_callback (fun ms => ms)).
Definition later_opts : enqueue_opts Z Z := EnqueueOpts None (Some 100) None None None None None.
Definition timed_run : list (@dlabel Z Z Z) :=
  [DStart; DLand 0; DResume; DOther (SEnqueue 0 1 later_opts JMutation); DPublish; DResume; DLand 0; DResume; DResume].

Lemma idle_driver_wakes_in_time_witness : exists j,
  let w := number_steps (sworld_new true) timed_run in
  dv_ctx (sw_drv w) = true /\ dv_stopped (sw_drv w) = false /\ dv_running (sw_drv w) = false /\ pending w 0 j /\
  ((exists h t, live_timer w TWake h t /\ tm_atMs t <= jb_nextTs j) /\
   (ti_wakeHost (sw_timers w) = true -> exists a, ti_alarm (sw_timers w) = Some a /\ a <= jb_nextTs j)).
Proof.
  eexists. intros w. do 3 (split; [vm_compute; reflexivity|]). split; [split; vm_compute; reflexivity|].
  refine (proj2 (idle_driver_wakes_in_time number_callback (fun ms => ms) true timed_run _ _) _ _ _ 0 _ (conj _ _)); vm_compute; reflexivity.
Defined.

(** A job that is due when a peek fails: the pass ends without a timer, and the
    sweeps that follow write nothing, so nothing ever looks at the job again. *)
Definition stranded_prefix : list (@dlabel Z Z Z) :=
  [DOther (SEnqueue 0 1 no_opts JMutation); DPublish; DStart; DFails; DResume; DResume].
Definition sweep_round (h : Z) : list (@dlabel Z Z Z) := [DClock (30000 * h); DTimeout h; DSweep true].

Definition stranded (w : @sworld Z Z Z) : bool :=
  match get_job (sr_jobs (sw_run w)) 0 with
  | Some j => bool_decide (jb_state j = Pending) && (jb_nextTs j <=? sw_now w) && negb (dv_running (sw_drv w)) && bool_decide (sw_notes w = 0%nat) &&
      forallb (fun t => match tm_cb t.2 with TWake => false | TSweep => true end) (ti_live (sw_timers w))
  | None => false
  end.

Lemma failed_pass_strands_job : forallb (fun n => stranded (number_steps (sworld_new false) (stranded_prefix ++ flat_map sweep_round (seqZ 1 n)))) [0; 1; 2; 50] = true.
Proof. by vm_compute. Qed.
