(* ===== verification/Workflow.v ===== *)
(** Durable workflows: components/workflow/src/replay.ts, modules.ts, events.ts
    and facade.ts, on top of the scheduler.

    A handler is the tree of what it awaits: it issues steps in groups (one step,
    or a [Promise.all] of several) and goes on with their results or with an
    error it may catch.  A poll replays it from the top against the journal.
    Columns that nothing reads (start and completion times, the recovery
    counter) are left out. *)
From Stdlib Require Import ZArith Lia.
From stdpp Require Import base list sets strings.
From S2P Require Import Prelude JsBase JsText Values Scheduler SchedulerRuns.

(** * The step API *)

Inductive step_kind := KMutation | KQuery | KAction | KSleep | KWaitForEvent.
#[global] Instance step_kind_eq_dec : EqDecision step_kind.
Proof. solve_decision. Defined.

(** A call of the step object; [timeout] is a [timeoutMs] that was given. *)
Inductive step_call :=
  | CMutation (path : jsstr) (args : value) (maxAttempts : option Z) (compensate : option jsstr)
  | CQuery (path : jsstr) (args : value)
  | CAction (path : jsstr) (args : value) (maxAttempts : option Z) (compensate : option jsstr)
  | CSleep (ms : Z)
  | CSleepUntil (ts : Z)
  | CWaitForEvent (name : jsstr) (timeout : bool).

(** [None] as a result is [undefined]; [HStuck] awaits something that is not a
    step. *)
Inductive whandler :=
  | HReturn (v : option value)
  | HThrow (e : jsstr)
  | HStuck
  | HAwait (calls : list step_call) (k : jsstr + list value -> whandler).

(** * Rows *)

Inductive step_state := StPending | StSuccess (result : value) | StFailed (error : jsstr).

Record step_row := StepRow
  { st_workflowId : Z; st_stepNumber : nat; st_name : jsstr; st_kind : step_kind; st_args : value; st_state : step_state;
    st_scheduledJobId : option Z; st_compensateFnPath : option jsstr; st_compensated : bool; st_compensationJobId : option Z;
    st_maxAttempts : option Z }.

Inductive wf_state := WRunning | WCompensating | WCompleted | WFailed | WCanceled.
#[global] Instance wf_state_eq_dec : EqDecision wf_state.
Proof. solve_decision. Defined.
Inductive wf_target := TFailed | TCanceled.

Record wf_row := WfRow
  { wf_fnPath : jsstr; wf_args : value; wf_state_of : wf_state; wf_generation : Z; wf_result : option value; wf_error : option jsstr;
    wf_onComplete : option jsstr; wf_context : option value; wf_compensationTarget : option wf_target }.

(** [None] is a waiting event. *)
Record event_row := EventRow { ev_workflowId : Z; ev_name : jsstr; ev_payload : option value }.

Record wdb := Wdb
  { wd_workflows : list (Z * wf_row); wd_nextWf : Z; wd_steps : list (Z * step_row); wd_nextStep : Z; wd_events : list (Z * event_row); wd_nextEvent : Z }.
Definition wdb_empty : wdb := Wdb [] 0 [] 0 [] 0.

Definition set_wf (db : wdb) (id : Z) (r : wf_row) : wdb :=
  Wdb (jm_set (wd_workflows db) id r) (wd_nextWf db) (wd_steps db) (wd_nextStep db) (wd_events db) (wd_nextEvent db).
Definition insert_wf (db : wdb) (r : wf_row) : wdb * Z :=
  (Wdb (wd_workflows db ++ [(wd_nextWf db, r)]) (wd_nextWf db + 1) (wd_steps db) (wd_nextStep db) (wd_events db) (wd_nextEvent db), wd_nextWf db).
Definition set_step (db : wdb) (id : Z) (r : step_row) : wdb :=
  Wdb (wd_workflows db) (wd_nextWf db) (jm_set (wd_steps db) id r) (wd_nextStep db) (wd_events db) (wd_nextEvent db).
Definition insert_step (db : wdb) (r : step_row) : wdb * Z :=
  (Wdb (wd_workflows db) (wd_nextWf db) (wd_steps db ++ [(wd_nextStep db, r)]) (wd_nextStep db + 1) (wd_events db) (wd_nextEvent db), wd_nextStep db).
Definition set_event (db : wdb) (id : Z) (r : event_row) : wdb :=
  Wdb (wd_workflows db) (wd_nextWf db) (wd_steps db) (wd_nextStep db) (jm_set (wd_events db) id r) (wd_nextEvent db).
Definition insert_event (db : wdb) (r : event_row) : wdb :=
  Wdb (wd_workflows db) (wd_nextWf db) (wd_steps db) (wd_nextStep db) (wd_events db ++ [(wd_nextEvent db, r)]) (wd_nextEvent db + 1).

Definition get_wf (db : wdb) (id : Z) : option wf_row := jm_get (wd_workflows db) id.

(** The [by_workflow] index: a workflow's rows, by step number. *)
Definition steps_of (db : wdb) (wf : Z) : list (Z * step_row) :=
  js_sort (fun a b => Nat.compare (st_stepNumber a.2) (st_stepNumber b.2)) (base.filter (fun r => st_workflowId r.2 = wf) (wd_steps db)).
Definition journal_of (db : wdb) (wf : Z) : list step_row := (steps_of db wf).*2.
Definition find_step (db : wdb) (wf : Z) (n : nat) : option (Z * step_row) :=
  match base.filter (fun r => st_stepNumber r.2 = n) (steps_of db wf) with r :: _ => Some r | [] => None end.

Definition with_step_state (r : step_row) (s : step_state) : step_row :=
  StepRow (st_workflowId r) (st_stepNumber r) (st_name r) (st_kind r) (st_args r) s (st_scheduledJobId r) (st_compensateFnPath r) (st_compensated r)
    (st_compensationJobId r) (st_maxAttempts r).
Definition with_job (r : step_row) (job : Z) : step_row :=
  StepRow (st_workflowId r) (st_stepNumber r) (st_name r) (st_kind r) (st_args r) (st_state r) (Some job) (st_compensateFnPath r) (st_compensated r)
    (st_compensationJobId r) (st_maxAttempts r).
Definition with_compensated (r : step_row) : step_row :=
  StepRow (st_workflowId r) (st_stepNumber r) (st_name r) (st_kind r) (st_args r) (st_state r) (st_scheduledJobId r) (st_compensateFnPath r) true
    (st_compensationJobId r) (st_maxAttempts r).
Definition with_compensationJob (r : step_row) (job : Z) : step_row :=
  StepRow (st_workflowId r) (st_stepNumber r) (st_name r) (st_kind r) (st_args r) (st_state r) (st_scheduledJobId r) (st_compensateFnPath r)
    (st_compensated r) (Some job) (st_maxAttempts r).

(** * Replay: replay.ts *)

Record new_step := NewStep
  { ns_stepNumber : nat; ns_name : jsstr; ns_kind : step_kind; ns_args : value; ns_runAt : option Z; ns_maxAttempts : option Z; ns_compensate : option jsstr }.

Inductive outcome := OCompleted (v : option value) | OFailed (e : jsstr) | OSuspended (newSteps : list new_step).

Definition SLEEP_FN : jsstr := js "workflow:_sleep".
Definition timeout_error : jsstr := js "step.waitForEvent's timeoutMs is not implemented yet (Task 6 scope: unbounded wait only)".
Definition empty_args : value := VObject [].

(** What a call asks for; [None] throws. *)
Definition new_step_of (now : Z) (idx : nat) (c : step_call) : option new_step :=
  match c with
  | CMutation p a m u => Some (NewStep idx p KMutation a None m u)
  | CQuery p a => Some (NewStep idx p KQuery a None None None)
  | CAction p a m u => Some (NewStep idx p KAction a None m u)
  | CSleep ms => Some (NewStep idx SLEEP_FN KSleep empty_args (Some (now + ms)) None None)
  | CSleepUntil ts => Some (NewStep idx SLEEP_FN KSleep empty_args (Some ts) None None)
  | CWaitForEvent name true => None
  | CWaitForEvent name false => Some (NewStep idx name KWaitForEvent empty_args None None None)
  end.

Definition kind_text (k : step_kind) : jsstr :=
  match k with KMutation => js "mutation" | KQuery => js "query" | KAction => js "action" | KSleep => js "sleep" | KWaitForEvent => js "waitForEvent" end.
Definition dash : jsstr := [32; 8212; 32].
Definition mismatch_error (r : step_row) (n : new_step) : jsstr :=
  js "Journal entry mismatch at step " ++ js_string_of (Z.of_nat (ns_stepNumber n)) ++ js ": expected " ++ st_name r ++ js "/" ++ kind_text (st_kind r) ++
  js ", got " ++ ns_name n ++ js "/" ++ kind_text (ns_kind n) ++ dash ++
  js "the workflow handler must be deterministic (no random/network/clock calls, no reordering steps).".

Definition deepEqual (a b : value) : bool := valuesEqual a b.

Definition row_matches (r : step_row) (n : new_step) : bool :=
  bool_decide (st_name r = ns_name n) && bool_decide (st_kind r = ns_kind n) && deepEqual (st_args r) (ns_args n).

(** The promise a step returns. *)
Inductive promise := PResolved (v : value) | PRejected (e : jsstr) | PWaiting.

Definition requestStep (journal : list step_row) (n : new_step) (news : list new_step) : (jsstr + promise) * list new_step :=
  match journal !! ns_stepNumber n with
  | Some r =>
      if negb (row_matches r n) then (inl (mismatch_error r n), news)
      else match st_state r with
           | StSuccess v => (inr (PResolved v), news)
           | StFailed e => (inr (PRejected e), news)
           | StPending => (inr PWaiting, news)
           end
  | None => (inr PWaiting, news ++ [n])
  end.

(** The calls of a group, in order; a call that throws ends it. *)
Fixpoint request_all (now : Z) (journal : list step_row) (calls : list step_call) (cursor : nat) (news : list new_step) :
    (jsstr + list promise) * nat * list new_step :=
  match calls with
  | [] => (inr [], cursor, news)
  | c :: cs =>
      match new_step_of now cursor c with
      | None => (inl timeout_error, cursor, news)
      | Some n =>
          match requestStep journal n news with
          | (inl e, news) => (inl e, S cursor, news)
          | (inr p, news) =>
              match request_all now journal cs (S cursor) news with
              | (inr ps, cursor, news) => (inr (p :: ps), cursor, news)
              | r => r
              end
          end
      end
  end.

(** [Promise.all]: the first rejection, or all the results; [None] waits. *)
Fixpoint first_rejection (ps : list promise) : option jsstr :=
  match ps with [] => None | PRejected e :: _ => Some e | _ :: ps => first_rejection ps end.
Fixpoint all_resolved (ps : list promise) : option (list value) :=
  match ps with [] => Some [] | PResolved v :: ps => (v ::.) <$> all_resolved ps | _ :: _ => None end.
Definition promise_all (ps : list promise) : option (jsstr + list value) :=
  match first_rejection ps with Some e => Some (inl e) | None => inr <$> all_resolved ps end.

(** [runReplay]: the microtasks are drained, so the handler runs until it
    settles or blocks. *)
Fixpoint replay (now : Z) (journal : list step_row) (h : whandler) (cursor : nat) (news : list new_step) : outcome :=
  match h with
  | HReturn v => OCompleted v
  | HThrow e => OFailed e
  | HStuck => OSuspended news
  | HAwait calls k =>
      match request_all now journal calls cursor news with
      | (inl e, cursor, news) => replay now journal (k (inl e)) cursor news
      | (inr ps, cursor, news) =>
          match promise_all ps with
          | Some r => replay now journal (k r) cursor news
          | None => OSuspended news
          end
      end
  end.
Definition runReplay (h : whandler) (journal : list step_row) (now : Z) : outcome := replay now journal h 0 [].

(** * Jobs *)

(** The opaque context of a job: of a step, or of the application. *)
Inductive job_context := StepContext (wf : Z) (n : nat) (generation : Z) | UserContext (v : value).
Inductive job_callback := CbStepDone | CbCompensateDone | CbUser (path : jsstr).
Inductive payload :=
  | PCall (path : jsstr) (args : value)
  | PSleep
  | PAdvance (wf : Z)
  | PCompensate (wf : Z)
  | PStepDone (jobId : Z) (context : option job_context) (r : oc_result)
  | PCompensateDone (jobId : Z) (context : option job_context) (r : oc_result)
  | PUserDone (path : jsstr) (jobId : Z) (context : option job_context) (r : oc_result)
  | PWorkflowDone (path : jsstr) (wf : Z) (context : option value) (r : oc_result).

Definition wf_callback (c : job_callback) (jobId : Z) (x : option job_context) (r : oc_result) : payload :=
  match c with
  | CbStepDone => PStepDone jobId x r
  | CbCompensateDone => PCompensateDone jobId x r
  | CbUser path => PUserDone path jobId x r
  end.
Notation wjobs := (jobs payload job_callback job_context).
Notation wopts := (enqueue_opts job_callback job_context).

Section workflow.
Context (workflows : jsstr -> option (value -> whandler)) (maxParallelism : nat) (functionKind : jsstr -> job_kind).
Notation wst := (wdb * wjobs)%type.

(** [scheduler.enqueue(...)] with these options and nothing else. *)
Definition enqueue_plain (now : Z) (p : payload) (t : wjobs) : wjobs := (enqueueInternal now p no_opts JMutation t).1.
Definition enqueue_now (now : Z) (p : payload) (kind : job_kind) (t : wjobs) : wjobs := (enqueueInternal now p (run_at now) kind t).1.

(** * modules.ts *)

Definition set_state (r : wf_row) (s : wf_state) (generation : Z) (result : option value) (error : option jsstr) (target : option wf_target) : wf_row :=
  WfRow (wf_fnPath r) (wf_args r) s generation result error (wf_onComplete r) (wf_context r) target.

Definition fireWorkflowOnComplete (now wfId : Z) (wf : wf_row) (result : oc_result) (t : wjobs) : wjobs :=
  match wf_onComplete wf with
  | Some path => enqueue_now now (PWorkflowDone path wfId (wf_context wf) result) (functionKind path) t
  | None => t
  end.

Definition is_success (s : step_state) : bool := match s with StSuccess _ => true | _ => false end.
Definition is_pending (s : step_state) : bool := match s with StPending => true | _ => false end.

(** [compensateFnPath] is tested for truth: the empty path is none. *)
Definition owes_compensation (r : step_row) : bool :=
  is_success (st_state r) && match st_compensateFnPath r with Some p => negb (bool_decide (p = [])) | None => false end && negb (st_compensated r).

Definition target_state (t : wf_target) : wf_state := match t with TFailed => WFailed | TCanceled => WCanceled end.

Definition failOrCompensate (now wfId : Z) (wf : wf_row) (error : jsstr) (target : wf_target) (s : wst) : wst :=
  let '(db, t) := s in
  if negb (existsb owes_compensation (journal_of db wfId)) then
    (set_wf db wfId (set_state wf (target_state target) (wf_generation wf) (wf_result wf) (Some error) (wf_compensationTarget wf)),
     fireWorkflowOnComplete now wfId wf (match target with TCanceled => OcCanceled | TFailed => OcFailed error end) t)
  else
    (set_wf db wfId (set_state wf WCompensating (wf_generation wf) (wf_result wf) (Some error) (Some target)),
     enqueue_plain now (PCompensate wfId) t).

Definition step_payload (kind : step_kind) (name : jsstr) (args : value) : payload := match kind with KSleep => PSleep | _ => PCall name args end.
Definition step_job_kind (kind : step_kind) (name : jsstr) : job_kind := match kind with KSleep => JMutation | _ => functionKind name end.

Definition row_of (wfId : Z) (n : new_step) : step_row :=
  StepRow wfId (ns_stepNumber n) (ns_name n) (ns_kind n) (ns_args n) StPending None (ns_compensate n) false None (ns_maxAttempts n).

(** A new step is journaled and dispatched; an event is only waited for. *)
Definition dispatch_step (now wfId generation : Z) (n : new_step) (s : wst) : wst :=
  let '(db, t) := s in
  let '(db, stepId) := insert_step db (row_of wfId n) in
  match ns_kind n with
  | KWaitForEvent => (insert_event db (EventRow wfId (ns_name n) None), t)
  | _ =>
      let '(t, jobId) := enqueueInternal now (step_payload (ns_kind n) (ns_name n) (ns_args n))
        (EnqueueOpts None (ns_runAt n) (ns_maxAttempts n) None (Some CbStepDone) (Some (StepContext wfId (ns_stepNumber n) generation)) None)
        (step_job_kind (ns_kind n) (ns_name n)) t in
      (set_step db stepId (with_job (row_of wfId n) jobId), t)
  end.

Definition stall_error : jsstr :=
  js "workflow suspended with no pending step" ++ dash ++ js "the handler likely awaited a non-step promise (determinism violation)".
Definition UnknownWorkflow : js_error := PlainError "unknown workflow".
(** Writing an [undefined] result. *)
Definition CannotEncode : js_error := PlainError "Cannot encode value of type undefined".

(** [_advance].  The row it reads again after the replay is the one it read
    before: a mutation reads one snapshot, and a commit in between conflicts. *)
Definition advance (now wfId : Z) (s : wst) : res wst :=
  let '(db, t) := s in
  match get_wf db wfId with
  | None => Ok s
  | Some wf =>
      if negb (bool_decide (wf_state_of wf = WRunning)) then Ok s
      else
        match workflows (wf_fnPath wf) with
        | None => Throw UnknownWorkflow
        | Some handler =>
            let journal := journal_of db wfId in
            match runReplay (handler (wf_args wf)) journal now with
            | OCompleted None => Throw CannotEncode
            | OCompleted (Some v) =>
                Ok (set_wf db wfId (set_state wf WCompleted (wf_generation wf) (Some v) (wf_error wf) (wf_compensationTarget wf)),
                    fireWorkflowOnComplete now wfId wf (OcSuccess v) t)
            | OFailed e => Ok (failOrCompensate now wfId wf e TFailed s)
            | OSuspended news =>
                if bool_decide (length news = 0%nat) && negb (existsb (fun r => is_pending (st_state r)) journal)
                then Ok (failOrCompensate now wfId wf stall_error TFailed s)
                else Ok (foldl (fun s n => dispatch_step now wfId (wf_generation wf) n s) s (take maxParallelism news))
            end
        end
  end.

Definition canceled_text : jsstr := js "canceled".
Definition outcome_of (r : oc_result) : step_state :=
  match r with OcSuccess v => StSuccess v | OcFailed e => StFailed e | OcCanceled => StFailed canceled_text end.

Definition stepDone (now : Z) (context : option job_context) (r : oc_result) (s : wst) : wst :=
  let '(db, t) := s in
  match context with
  | Some (StepContext wfId n generation) =>
      match get_wf db wfId with
      | None => s
      | Some wf =>
          if negb (wf_generation wf =? generation) then s
          else
            match find_step db wfId n with
            | None => s
            | Some (stepId, row) => (set_step db stepId (with_step_state row (outcome_of r)), enqueue_plain now (PAdvance wfId) t)
            end
      end
  | _ => s
  end.

(** The highest step that still owes its compensation. *)
Definition next_compensation (db : wdb) (wfId : Z) : option (Z * step_row) :=
  match js_sort (fun a b => Nat.compare (st_stepNumber b.2) (st_stepNumber a.2)) (base.filter (fun r => owes_compensation r.2 = true) (steps_of db wfId)) with
  | r :: _ => Some r
  | [] => None
  end.

Definition result_of (s : step_state) : value := match s with StSuccess v => v | _ => VNull end.
Definition undo_args (r : step_row) : value := VObject [(js "args", st_args r); (js "result", result_of (st_state r))].

Definition compensate (now wfId : Z) (s : wst) : wst :=
  let '(db, t) := s in
  match get_wf db wfId with
  | None => s
  | Some wf =>
      if negb (bool_decide (wf_state_of wf = WCompensating)) then s
      else
        match next_compensation db wfId with
        | None =>
            let target := match wf_compensationTarget wf with Some TCanceled => TCanceled | _ => TFailed end in
            (set_wf db wfId (set_state wf (target_state target) (wf_generation wf) (wf_result wf) (wf_error wf) (wf_compensationTarget wf)),
             fireWorkflowOnComplete now wfId wf (match target with TCanceled => OcCanceled | TFailed => OcFailed (default [] (wf_error wf)) end) t)
        | Some (stepId, row) =>
            let path := default [] (st_compensateFnPath row) in
            let '(t, jobId) := enqueueInternal now (PCall path (undo_args row))
              (EnqueueOpts None None (st_maxAttempts row) None (Some CbCompensateDone)
                 (Some (StepContext wfId (st_stepNumber row) (wf_generation wf))) None) (functionKind path) t in
            (set_step db stepId (with_compensationJob row jobId), t)
        end
  end.

Definition halt_text (n : nat) : jsstr := js "compensation failed at step " ++ js_string_of (Z.of_nat n).
Definition halt_error (n : nat) (e original : jsstr) : jsstr := halt_text n ++ js ": " ++ e ++ js "; original workflow error: " ++ original.

Definition compensateDone (now : Z) (context : option job_context) (r : oc_result) (s : wst) : wst :=
  let '(db, t) := s in
  match context with
  | Some (StepContext wfId n generation) =>
      match get_wf db wfId with
      | None => s
      | Some wf =>
          if negb (wf_generation wf =? generation) then s
          else
            match find_step db wfId n with
            | None => s
            | Some (stepId, row) =>
                match r with
                | OcSuccess _ => (set_step db stepId (with_compensated row), enqueue_plain now (PCompensate wfId) t)
                | _ =>
                    let e := match r with OcFailed e => e | _ => canceled_text end in
                    (set_wf db wfId (set_state wf WFailed (wf_generation wf) (wf_result wf) (Some (halt_error n e (default [] (wf_error wf)))) (wf_compensationTarget wf)),
                     fireWorkflowOnComplete now wfId wf (OcFailed (halt_text n)) t)
                end
            end
      end
  | _ => s
  end.

(** * facade.ts and events.ts *)

Definition wf_start (now : Z) (path : jsstr) (args : value) (s : wst) : wst * Z :=
  let '(db, t) := s in
  let '(db, id) := insert_wf db (WfRow path args WRunning 0 None None None None None) in
  ((db, enqueue_now now (PAdvance id) JMutation t), id).

(** The jobs in flight of a workflow's steps. *)
Definition cancel_step (now : Z) (r : step_row) (t : wjobs) : option wjobs :=
  t1 ← match st_scheduledJobId r with
       | Some j => if is_pending (st_state r) then cancel wf_callback now j t else Some t
       | None => Some t
       end;
  match st_compensationJobId r with
  | Some j => if st_compensated r then Some t1 else cancel wf_callback now j t1
  | None => Some t1
  end.
Fixpoint cancel_steps (now : Z) (rs : list step_row) (t : wjobs) : option wjobs :=
  match rs with [] => Some t | r :: rs => t ← cancel_step now r t; cancel_steps now rs t end.

Definition NoSuchWorkflow : js_error := PlainError "ctx.workflow.cancel: no such workflow".
Definition canceled_error : jsstr := js "canceled (by request)".

(** [None] would be a cancelation that does not end. *)
Definition wf_cancel (now wfId : Z) (withCompensation : bool) (s : wst) : option (res wst) :=
  let '(db, t) := s in
  match get_wf db wfId with
  | None => Some (Throw NoSuchWorkflow)
  | Some wf =>
      if negb (bool_decide (wf_state_of wf = WRunning)) then Some (Ok s)
      else
        t ← cancel_steps now (journal_of db wfId) t;
        if negb withCompensation || negb (existsb owes_compensation (journal_of db wfId)) then
          Some (Ok (set_wf db wfId (set_state wf WCanceled (wf_generation wf + 1) (wf_result wf) (wf_error wf) (wf_compensationTarget wf)),
                    fireWorkflowOnComplete now wfId wf OcCanceled t))
        else
          Some (Ok (set_wf db wfId (set_state wf WCompensating (wf_generation wf + 1) (wf_result wf) (Some canceled_error) (Some TCanceled)),
                    enqueue_plain now (PCompensate wfId) t))
  end.

(** The first waiting event of the name; then the first pending step. *)
Definition is_waiting (wfId : Z) (name : jsstr) (e : event_row) : bool :=
  bool_decide (ev_workflowId e = wfId) && bool_decide (ev_name e = name) && match ev_payload e with None => true | Some _ => false end.
Definition awaits_event (name : jsstr) (r : step_row) : bool :=
  bool_decide (st_kind r = KWaitForEvent) && bool_decide (st_name r = name) && is_pending (st_state r).

Definition sendEventImpl (now wfId : Z) (name : jsstr) (payload : value) (s : wst) : wst :=
  let '(db, t) := s in
  match base.filter (fun e => is_waiting wfId name e.2 = true) (wd_events db) with
  | [] => s
  | (eventId, _) :: _ =>
      let db := set_event db eventId (EventRow wfId name (Some payload)) in
      let db := match base.filter (fun r => awaits_event name r.2 = true) (steps_of db wfId) with
                | (stepId, row) :: _ => set_step db stepId (with_step_state row (StSuccess payload))
                | [] => db
                end in
      (db, enqueue_plain now (PAdvance wfId) t)
  end.

Definition status (db : wdb) (runId : Z) : option (wf_state * option value * option jsstr) :=
  (fun wf => (wf_state_of wf, wf_result wf, wf_error wf)) <$> get_wf db runId.

(** * The system *)

Notation wrun := (@srun payload job_callback job_context).

(** [ww_ran] records the successful runs of the application's functions and
    [ww_sent] the events sent, for the theorems. *)
Record wworld := WWorld { ww_db : wdb; ww_run : wrun; ww_ran : list (payload * value); ww_sent : list (Z * jsstr * value) }.
Definition wworld_new : wworld := WWorld wdb_empty srun_empty [] [].

Definition with_state (w : wworld) (s : wst) : wworld := WWorld s.1 (with_jobs (ww_run w) s.2) (ww_ran w) (ww_sent w).
Definition wst_of (w : wworld) : wst := (ww_db w, sr_jobs (ww_run w)).

Inductive wlabel :=
  | WStart (now : Z) (path : jsstr) (args : value)
  | WCancel (now wf : Z) (withCompensation : bool)
  | WSend (now wf : Z) (name : jsstr) (payload : value)
  | WEnqueue (now : Z) (path : jsstr) (args : value) (o : enqueue_opts jsstr value)
  | WCancelJob (now id : Z)
  | WClaim (now id : Z)
  | WExec (now f : Z) (r : job_result)
  | WComplete (now k f : Z)
  | WCrash (f : Z)
  | WReclaim (now : Z).

(** A job of the application's own. *)
Definition user_opts (o : enqueue_opts jsstr value) : wopts :=
  EnqueueOpts (eo_runAfter o) (eo_runAt o) (eo_maxFailures o) (eo_name o) (CbUser <$> eo_onComplete o) (UserContext <$> eo_context o) (eo_idempotencyKey o).

(** The transaction of one of the workflow's own functions. *)
Definition run_internal (now : Z) (p : payload) (s : wst) : option (res wst) :=
  match p with
  | PSleep => Some (Ok s)
  | PAdvance wf => Some (advance now wf s)
  | PCompensate wf => Some (Ok (compensate now wf s))
  | PStepDone _ x r => Some (Ok (stepDone now x r s))
  | PCompensateDone _ x r => Some (Ok (compensateDone now x r s))
  | _ => None
  end.

Definition thrown_text (e : js_error) : jsstr := js "error".

(** A flight runs: an application function does what the label says; one of the
    workflow's own either commits, or fails and leaves nothing behind. *)
Definition exec (now f : Z) (r : job_result) (w : wworld) : wworld :=
  let sexec r := srun_step wf_callback (ww_run w) (SExec f r) in
  match jm_get (sr_flights (ww_run w)) f with
  | Some (Flight _ p None) =>
      match r with
      | JrFailed e b => WWorld (ww_db w) (sexec r) (ww_ran w) (ww_sent w)
      | JrSuccess v =>
          match run_internal now p (wst_of w) with
          | None => WWorld (ww_db w) (sexec r) (ww_ran w ++ [(p, v)]) (ww_sent w)
          | Some (Ok s) => WWorld s.1 (with_jobs (sexec (JrSuccess VNull)) s.2) (ww_ran w ++ [(p, VNull)]) (ww_sent w)
          | Some (Throw e) => WWorld (ww_db w) (sexec (JrFailed (thrown_text e) true)) (ww_ran w) (ww_sent w)
          end
      end
  | _ => w
  end.

Definition wstep (w : wworld) (l : wlabel) : wworld :=
  let sched l := WWorld (ww_db w) (srun_step wf_callback (ww_run w) l) (ww_ran w) (ww_sent w) in
  match l with
  | WStart now path args => with_state w (wf_start now path args (wst_of w)).1
  | WCancel now wf c => match wf_cancel now wf c (wst_of w) with Some (Ok s) => with_state w s | _ => w end
  | WSend now wf name p => let w' := with_state w (sendEventImpl now wf name p (wst_of w)) in WWorld (ww_db w') (ww_run w') (ww_ran w') (ww_sent w' ++ [(wf, name, p)])
  | WEnqueue now path args o => sched (SEnqueue now (PCall path args) (user_opts o) (functionKind path))
  | WCancelJob now id => sched (SCancel now id)
  | WClaim now id => sched (SClaim now id)
  | WExec now f r => exec now f r w
  | WComplete now k f => sched (SComplete now k f)
  | WCrash f => sched (SCrash f)
  | WReclaim now => sched (SReclaim now)
  end.
Definition wsteps (w : wworld) (ls : list wlabel) : wworld := fold_left wstep ls w.
End workflow.
