(* ===== verification/WorkflowReplay.v ===== *)
(** What a replay means: components/workflow/src/replay.ts.

    [follows h n rows]: the journal, from position [n] on, holds what handler [h]
    asks for when it is run with the results the journal has.  It is kept when a
    pending row is resolved and when a poll appends its new steps, and a replay
    of a journal that follows its handler never meets a mismatch: it is a direct
    run of the handler on those results ([direct]). *)
From Stdlib Require Import ZArith Lia.
From stdpp Require Import base list sets strings.
From S2P Require Import Prelude JsBase JsText Values Scheduler SchedulerRuns Workflow.

(** * Calls and rows *)

(** What the journal keeps of a call. *)
Definition call_key (c : step_call) : option (jsstr * step_kind * value) := (fun n => (ns_name n, ns_kind n, ns_args n)) <$> new_step_of 0 0 c.
Definition row_key (r : step_row) : jsstr * step_kind * value := (st_name r, st_kind r, st_args r).

(** The calls of a group up to the first that throws. *)
Fixpoint issued (calls : list step_call) : list step_call :=
  match calls with [] => [] | c :: cs => match call_key c with Some _ => c :: issued cs | None => [] end end.
Fixpoint throws (calls : list step_call) : bool :=
  match calls with [] => false | c :: cs => match call_key c with Some _ => throws cs | None => true end end.

Definition promise_of (s : step_state) : promise := match s with StSuccess v => PResolved v | StFailed e => PRejected e | StPending => PWaiting end.
(** What the journal knows of the step at a position. *)
Definition known (rows : list step_row) (i : nat) : promise := match rows !! i with Some r => promise_of (st_state r) | None => PWaiting end.
Definition group (rows : list step_row) (n len : nat) : list promise := known rows <$> seq n len.

(** A handler whose parallel groups do not look at which error they failed
    with. *)
Fixpoint steady (h : whandler) : Prop :=
  match h with
  | HAwait calls k => ((length calls <= 1)%nat \/ forall e e', k (inl e) = k (inl e')) /\ forall r, steady (k r)
  | _ => True
  end.

Fixpoint follows (h : whandler) (n : nat) (rows : list step_row) : Prop :=
  match h with
  | HAwait calls k =>
      let m := length (issued calls) in
      (forall i c r, issued calls !! i = Some c -> rows !! (n + i)%nat = Some r -> call_key c = Some (row_key r)) /\
      if throws calls then follows (k (inl timeout_error)) (n + m) rows
      else match promise_all (group rows n m) with
           | Some r => follows (k r) (n + m) rows
           | None => (length rows <= n + m)%nat
           end
  | _ => (length rows <= n)%nat
  end.

(** A direct run: [o i c p] says that the [i]th step, which call [c] asked for,
    settled as [p].  A group that succeeds has all its results, one that fails has
    one of the failures. *)
Inductive direct (o : nat -> step_call -> promise -> Prop) : whandler -> nat -> option value + jsstr -> Prop :=
  | direct_return v n : direct o (HReturn v) n (inl v)
  | direct_throw e n : direct o (HThrow e) n (inr e)
  | direct_timeout calls k n r : throws calls = true -> direct o (k (inl timeout_error)) (n + length (issued calls)) r -> direct o (HAwait calls k) n r
  | direct_all calls k n vs r : throws calls = false -> length vs = length calls ->
      (forall i c v, calls !! i = Some c -> vs !! i = Some v -> o (n + i)%nat c (PResolved v)) ->
      direct o (k (inr vs)) (n + length calls) r -> direct o (HAwait calls k) n r
  | direct_one calls k n i c e r : throws calls = false -> calls !! i = Some c -> o (n + i)%nat c (PRejected e) ->
      direct o (k (inl e)) (n + length calls) r -> direct o (HAwait calls k) n r.

(** The outcomes a journal records. *)
Definition recorded (rows : list step_row) (i : nat) (c : step_call) (p : promise) : Prop :=
  exists r, rows !! i = Some r /\ call_key c = Some (row_key r) /\ promise_of (st_state r) = p.

(** * Groups *)

Lemma issued_all calls : throws calls = false -> issued calls = calls.
Proof. induction calls as [|c cs IH]; [done|]. cbn. destruct (call_key c); [|done]. intros H. by rewrite IH. Qed.
Lemma issued_length calls : (length (issued calls) <= length calls)%nat.
Proof. induction calls as [|c cs IH]; [done|]. cbn. destruct (call_key c); cbn; lia. Qed.

Lemma group_lookup rows n len i : (i < len)%nat -> group rows n len !! i = Some (known rows (n + i)).
Proof. intros Hi. unfold group. rewrite list_lookup_fmap, lookup_seq_lt by done. done. Qed.
Lemma group_cons rows n len : group rows n (S len) = known rows n :: group rows (S n) len.
Proof. done. Qed.

Lemma first_rejection_Some ps e : first_rejection ps = Some e -> exists i, ps !! i = Some (PRejected e).
Proof.
  induction ps as [|[v|e'|] ps IH]; cbn; [done| | |]; [|by intros [= ->]; exists 0%nat|]; intros H; destruct (IH H) as [i Hi]; by exists (S i).
Qed.
Lemma first_rejection_is_Some ps i e : ps !! i = Some (PRejected e) -> is_Some (first_rejection ps).
Proof.
  revert i. induction ps as [|p ps IH]; intros [|i]; cbn; [done|done|by intros [= ->]|]. intros H. destruct p; [by eapply IH|done|by eapply IH].
Qed.
Lemma all_resolved_Some ps vs : all_resolved ps = Some vs -> ps = PResolved <$> vs.
Proof.
  revert vs. induction ps as [|[v|e|] ps IH]; cbn; intros vs H; [by injection H as <-| |done|done].
  destruct (all_resolved ps) as [vs0|]; [|done]. injection H as <-. csimpl. f_equal. by apply IH.
Qed.

(** A group that has settled settled for good, up to the error it shows. *)
Definition resolves (p q : promise) : Prop := p = PWaiting \/ p = q.
Lemma promise_all_resolves ps qs r : Forall2 resolves ps qs -> promise_all ps = Some r ->
  match r with inr vs => promise_all qs = Some (inr vs) | inl _ => exists e, promise_all qs = Some (inl e) /\ ((length ps <= 1)%nat -> r = inl e) end.
Proof.
  intros Hf. unfold promise_all. destruct (first_rejection ps) as [e|] eqn:E.
  - intros [= <-]. destruct (first_rejection_Some _ _ E) as [i Hi]. destruct (Forall2_lookup_l _ _ _ _ _ Hf Hi) as (q & Hq & [?|<-]); [done|].
    destruct (first_rejection_is_Some _ _ _ Hq) as [e' He']. rewrite He'. exists e'. split; [done|]. intros Hl.
    destruct Hf as [|p q ps qs Hp Hf]; [done|]. destruct Hf; [|cbn in Hl; lia]. cbn in E, He'. destruct p; try done. destruct Hp as [?|<-]; [done|]. cbn in He'. congruence.
  - destruct (all_resolved ps) as [vs|] eqn:Ev; [|done]. intros [= <-]. apply all_resolved_Some in Ev as ->.
    assert (qs = PResolved <$> vs) as ->.
    { clear E. revert qs Hf. induction vs as [|v vs IH]; intros qs Hf; csimpl in *; [by inversion Hf|]. inversion Hf as [|? q ? qs' [?|Hq] Hf']; subst; [done|]. f_equal. by apply IH. }
    replace (first_rejection (PResolved <$> vs)) with (@None jsstr) by (symmetry; clear; by induction vs).
    replace (all_resolved (PResolved <$> vs)) with (Some vs); [done|]. symmetry. clear. induction vs as [|v vs IH]; [done|]. csimpl. by rewrite IH.
Qed.
Lemma promise_all_waits ps i : ps !! i = Some PWaiting -> first_rejection ps = None -> promise_all ps = None.
Proof.
  intros Hi Hr. unfold promise_all. rewrite Hr. destruct (all_resolved ps) as [vs|] eqn:E; [|done]. apply all_resolved_Some in E as ->.
  by apply list_lookup_fmap_Some in Hi as (v & ? & ?).
Qed.

(** * Nothing journaled yet *)

Lemma known_out rows i : (length rows <= i)%nat -> known rows i = PWaiting.
Proof. intros H. unfold known. by rewrite lookup_ge_None_2. Qed.

Lemma follows_nothing h n rows : (length rows <= n)%nat -> follows h n rows.
Proof.
  revert n. induction h as [v|e| |calls k IH]; intros n Hn; cbn; [done|done|done|]. split.
  - intros i c r _ Hr. apply lookup_lt_Some in Hr. lia.
  - destruct (throws calls); [apply IH; lia|]. destruct (promise_all _); [apply IH; lia|lia].
Qed.

(** * A row is resolved *)

Definition row_resolves (r r' : step_row) : Prop := row_key r' = row_key r /\ (st_state r = StPending \/ st_state r' = st_state r).
Definition journal_resolves (rows rows' : list step_row) : Prop := Forall2 row_resolves rows rows'.

Lemma known_resolves rows rows' i : journal_resolves rows rows' -> resolves (known rows i) (known rows' i).
Proof.
  intros H. unfold known. destruct (rows !! i) as [r|] eqn:E; [|by left]. destruct (Forall2_lookup_l _ _ _ _ _ H E) as (r' & -> & _ & [Hs|Hs]); [left; by rewrite Hs|right; by rewrite Hs].
Qed.
Lemma group_resolves rows rows' n len : journal_resolves rows rows' -> Forall2 resolves (group rows n len) (group rows' n len).
Proof. intros H. unfold group. induction (seq n len); constructor; [by apply known_resolves|done]. Qed.

Lemma follows_resolves h n rows rows' : steady h -> journal_resolves rows rows' -> follows h n rows -> follows h n rows'.
Proof.
  intros Hst Hj. assert (Hl : length rows' = length rows) by (symmetry; by eapply Forall2_length). revert n Hst.
  induction h as [v|e| |calls k IH]; intros n Hst; cbn; [lia|lia|lia|]. destruct Hst as [Hk Hst]. intros [Hf Hrest]. split.
  - intros i c r' Hc Hr'. destruct (Forall2_lookup_r _ _ _ _ _ Hj Hr') as (r & Hr & Hkey & _). rewrite Hkey. by eapply Hf.
  - destruct (throws calls) eqn:Et; [by apply IH|]. pose proof (group_resolves rows rows' n (length (issued calls)) Hj) as Hg.
    destruct (promise_all (group rows n _)) as [r|] eqn:Ep.
    + pose proof (promise_all_resolves _ _ _ Hg Ep) as H. destruct r as [e|vs].
      * destruct H as (e' & -> & Hone). apply IH; [done|]. destruct Hk as [Hlen|Hk].
        { assert (inl e = inl e' :> jsstr + list value) as [= <-]; [|done]. apply Hone. unfold group. rewrite length_fmap, length_seq. pose proof (issued_length calls). lia. }
        by rewrite (Hk e' e).
      * rewrite H. by apply IH.
    + destruct (promise_all (group rows' n _)); [apply follows_nothing|]; lia.
Qed.

Lemma direct_mono (o o' : nat -> step_call -> promise -> Prop) h n r :
  (forall i c p, p <> PWaiting -> o i c p -> o' i c p) -> direct o h n r -> direct o' h n r.
Proof.
  intros Ho. induction 1 as [v n|e n|calls k n r Ht _ IH|calls k n vs r Ht Hl Hv _ IH|calls k n i c e r Ht Hi He _ IH]; [constructor|constructor|by eapply direct_timeout|..].
  - eapply direct_all; [done|exact Hl| |done]. intros i c v Hc Hv'. by apply Ho, Hv.
  - eapply direct_one; [done|exact Hi| |done]. by apply Ho.
Qed.

Lemma recorded_resolves rows rows' i c p : journal_resolves rows rows' -> p <> PWaiting -> recorded rows i c p -> recorded rows' i c p.
Proof.
  intros Hj Hp (r & Hr & Hk & Hs). destruct (Forall2_lookup_l _ _ _ _ _ Hj Hr) as (r' & Hr' & Hk' & [Hs'|Hs']).
  - rewrite Hs' in Hs. by subst.
  - exists r'. split_and!; [done|congruence|congruence].
Qed.

(** * A poll *)

Definition step_key (n : new_step) : jsstr * step_kind * value := (ns_name n, ns_kind n, ns_args n).

Lemma new_step_of_key now idx c : (exists n, new_step_of now idx c = Some n /\ call_key c = Some (step_key n) /\ ns_stepNumber n = idx) \/
  new_step_of now idx c = None /\ call_key c = None.
Proof. destruct c as [p a m u|p a|p a m u|ms|ts|name []]; cbn; try (by right); left; eexists; by split. Qed.

Lemma row_matches_key r n : step_key n = row_key r -> row_matches r n = true.
Proof.
  unfold step_key, row_key, row_matches, deepEqual, valuesEqual. intros [= -> -> ->].
  rewrite !bool_decide_eq_true_2 by done. by rewrite cmp_refl.
Qed.

(** New steps are numbered from the end of the journal. *)
Definition numbered (m : nat) (news : list new_step) : Prop := forall i n, news !! i = Some n -> ns_stepNumber n = (m + i)%nat.

Lemma numbered_snoc m news n : numbered m news -> ns_stepNumber n = (m + length news)%nat -> numbered m (news ++ [n]).
Proof.
  intros H Hn i x [Hx|[Hi Hx]]%lookup_app_Some; [by apply H|]. apply list_lookup_singleton_Some in Hx as [Hi' <-]. lia.
Qed.

Lemma request_all_follows now rows calls n news :
  (forall i c r, issued calls !! i = Some c -> rows !! (n + i)%nat = Some r -> call_key c = Some (row_key r)) ->
  numbered (length rows) news -> length news = (n - length rows)%nat ->
  exists more, request_all now rows calls n news =
      ((if throws calls then inl timeout_error else inr (group rows n (length (issued calls)))), (n + length (issued calls))%nat, news ++ more) /\
    numbered (length rows) (news ++ more) /\ length (news ++ more) = (n + length (issued calls) - length rows)%nat /\
    forall i c x, issued calls !! i = Some c -> (length rows <= n + i)%nat -> (news ++ more) !! (n + i - length rows)%nat = Some x -> call_key c = Some (step_key x).
Proof.
  revert n news. induction calls as [|c cs IH]; intros n news Hfit Hnum Hlen.
  { exists []. cbn. rewrite app_nil_r, Nat.add_0_r. by split_and!. }
  cbn [request_all issued throws] in *. destruct (new_step_of_key now n c) as [(s & -> & Hkey & Hs)|[-> Hkey]]; rewrite Hkey in Hfit |- *; cycle 1.
  { exists []. cbn. rewrite app_nil_r, Nat.add_0_r. by split_and!. }
  unfold requestStep. rewrite Hs. destruct (rows !! n) as [r|] eqn:Er.
  - assert (Hr : step_key s = row_key r) by (specialize (Hfit 0%nat c r eq_refl); rewrite Nat.add_0_r in Hfit; specialize (Hfit Er); congruence).
    rewrite (row_matches_key _ _ Hr). cbn [negb]. pose proof (lookup_lt_Some _ _ _ Er) as Hlt.
    destruct (IH (S n) news) as (more & Hreq & Hnum' & Hlen' & Hkeys); [|done|lia|].
    { intros i c' r' Hc Hr'. apply (Hfit (S i)); [done|]. by replace (n + S i)%nat with (S n + i)%nat by lia. }
    exists more. cbn [length]. rewrite <-Nat.add_succ_comm. split; [|split_and!; [done|done|]].
    + rewrite group_cons. unfold known at 1. rewrite Er. destruct (st_state r); rewrite Hreq; by destruct (throws cs).
    + intros [|i] c' x Hc Hge Hx; [lia|]. apply (Hkeys i); [done|lia|]. by replace (S n + i - length rows)%nat with (n + S i - length rows)%nat by lia.
  - apply lookup_ge_None_1 in Er. destruct (IH (S n) (news ++ [s])) as (more & Hreq & Hnum' & Hlen' & Hkeys).
    { intros i c' r' Hc Hr'. apply lookup_lt_Some in Hr'. lia. }
    { apply numbered_snoc; [done|]. lia. }
    { rewrite length_app. cbn. lia. }
    exists (s :: more). replace (news ++ s :: more) with ((news ++ [s]) ++ more) by (by rewrite <-app_assoc). cbn [length]. rewrite <-Nat.add_succ_comm. split; [|split_and!; [done|lia|]].
    + rewrite group_cons, known_out by done. rewrite Hreq. by destruct (throws cs).
    + intros [|i] c' x Hc Hge Hx.
      * cbn in Hc. injection Hc as <-. rewrite Nat.add_0_r, <-Hlen, <-app_assoc, lookup_app_r, Nat.sub_diag in Hx by done. cbn in Hx. injection Hx as <-. done.
      * apply (Hkeys i); [done|lia|]. by replace (S n + i - length rows)%nat with (n + S i - length rows)%nat by lia.
Qed.

(** The journal with the first new steps appended. *)
Definition journaled (wf : Z) (rows : list step_row) (news : list new_step) : list step_row := rows ++ (row_of wf <$> news).

Lemma journaled_lookup wf rows news i r : journaled wf rows news !! i = Some r ->
  rows !! i = Some r \/ exists x, news !! (i - length rows)%nat = Some x /\ r = row_of wf x /\ (length rows <= i)%nat.
Proof.
  unfold journaled. intros [H|[H1 H2]]%lookup_app_Some; [by left|]. right. apply list_lookup_fmap_Some in H2 as (x & -> & Hx). by exists x.
Qed.
Lemma known_journaled wf rows news i : known (journaled wf rows news) i = known rows i.
Proof.
  unfold known, journaled. destruct (rows !! i) as [r|] eqn:E; [by rewrite (lookup_app_l_Some _ _ _ _ E)|]. apply lookup_ge_None_1 in E.
  rewrite lookup_app_r, list_lookup_fmap by done. by destruct (news !! _).
Qed.
Lemma group_journaled wf rows news n len : group (journaled wf rows news) n len = group rows n len.
Proof. unfold group. apply list_fmap_ext. intros _ i _. apply known_journaled. Qed.

Lemma known_recorded rows (calls : list step_call) n i c p : (forall i c r, calls !! i = Some c -> rows !! (n + i)%nat = Some r -> call_key c = Some (row_key r)) ->
  calls !! i = Some c -> known rows (n + i) = p -> p <> PWaiting -> recorded rows (n + i) c p.
Proof.
  intros Hfit Hc Hk Hp. unfold known in Hk. destruct (rows !! (n + i)%nat) as [r|] eqn:Er; [|by subst]. exists r. split_and!; [done|by eapply Hfit|done].
Qed.

Lemma replay_follows wf now rows h n news : follows h n rows -> numbered (length rows) news -> length news = (n - length rows)%nat ->
  match replay now rows h n news with
  | OCompleted v => direct (recorded rows) h n (inl v)
  | OFailed e => direct (recorded rows) h n (inr e)
  | OSuspended all => numbered (length rows) all /\ news `prefix_of` all /\ forall j, follows h n (journaled wf rows (take j all))
  end.
Proof.
  revert n news. induction h as [v|e| |calls k IH]; intros n news Hf Hnum Hlen; [constructor|constructor| |].
  - cbn in Hf |- *. split_and!; [done|done|]. intros j. unfold journaled. rewrite length_app, length_fmap, length_take. lia.
  - destruct Hf as [Hfit Hrest]. destruct (request_all_follows now rows calls n news Hfit Hnum Hlen) as (more & Hreq & Hnum' & Hlen' & Hkeys).
    cbn [replay]. rewrite Hreq. set (m := length (issued calls)) in *.
    assert (Hhead : forall all j i c r, news ++ more `prefix_of` all -> issued calls !! i = Some c -> journaled wf rows (take j all) !! (n + i)%nat = Some r -> call_key c = Some (row_key r)).
    { intros all j i c r [tl ->] Hc [Hr|(x & Hx & -> & Hge)]%journaled_lookup; [by eapply Hfit|]. change (row_key (row_of wf x)) with (step_key x).
      apply (Hkeys i); [done|done|]. apply lookup_take_Some in Hx as [Hx _]. pose proof (lookup_lt_Some _ _ _ Hc). rewrite lookup_app_l in Hx; [done|]. lia. }
    destruct (throws calls) eqn:Et.
    + specialize (IH (inl timeout_error) _ _ Hrest Hnum' Hlen'). destruct (replay _ _ _ _ _) as [v|e|all]; [by apply direct_timeout|by apply direct_timeout|].
      destruct IH as (H1 & H2 & H3). split_and!; [done|etrans; [by apply prefix_app_r|exact H2]|]. intros j. cbn [follows]. rewrite Et. split; [intros i c r; by apply Hhead|apply H3].
    + destruct (promise_all (group rows n m)) as [r|] eqn:Ep.
      * specialize (IH r _ _ Hrest Hnum' Hlen').
        assert (Hd : forall res, direct (recorded rows) (k r) (n + m) res -> direct (recorded rows) (HAwait calls k) n res).
        { intros res Hd. unfold m in *. rewrite (issued_all _ Et) in *. unfold promise_all in Ep. destruct (first_rejection _) as [e|] eqn:Er.
          - injection Ep as <-. apply first_rejection_Some in Er as [i Hi]. pose proof (lookup_lt_Some _ _ _ Hi) as Hlt. unfold group in Hlt. rewrite length_fmap, length_seq in Hlt.
            rewrite group_lookup in Hi by done. injection Hi as Hi.
            destruct (lookup_lt_is_Some_2 _ _ Hlt) as [c Hc]. eapply direct_one; [done|exact Hc| |exact Hd]. by apply (known_recorded rows calls).
          - destruct (all_resolved _) as [vs|] eqn:Ev; [|done]. injection Ep as <-. apply all_resolved_Some in Ev.
            assert (Hl : length vs = length calls) by (rewrite <-(length_fmap PResolved vs), <-Ev; unfold group; by rewrite length_fmap, length_seq).
            eapply direct_all; [done|done| |done]. intros i c v Hc Hv. pose proof (lookup_lt_Some _ _ _ Hv) as Hlt.
            assert (Hi : group rows n (length calls) !! i = Some (PResolved v)) by (by rewrite Ev, list_lookup_fmap, Hv). rewrite group_lookup in Hi by lia. injection Hi as Hi.
            by apply (known_recorded rows calls). }
        destruct (replay _ _ _ _ _) as [v|e|all]; [by apply Hd|by apply Hd|].
        destruct IH as (H1 & H2 & H3). split_and!; [done|etrans; [by apply prefix_app_r|exact H2]|]. intros j. cbn [follows]. rewrite Et. split; [intros i c r0; by apply Hhead|].
        fold m. rewrite group_journaled, Ep. apply H3.
      * split_and!; [done|by apply prefix_app_r|]. intros j. cbn [follows]. rewrite Et. split; [intros i c r0; by apply Hhead|]. fold m. rewrite group_journaled, Ep.
        unfold journaled. rewrite length_app, length_fmap, length_take. lia.
Qed.
