(* ===== verification/WorkflowLedger.v ===== *)
(** The workflow tables and the job table, one change at a time, and what they
    know of each other.

    [wdb_ok]: the step numbers of a workflow are 0, 1, 2, ...  [rows_inv]: a row
    is resolved only by what its own job came to, or by an event that was sent; a
    success really ran; a completion callback carries the outcome that was fired.
    [jobs_known]: a job of a step is the job that its row names, and a job of a
    compensation is for its row.  [wfs_ok]: the journal of a running workflow
    follows its handler, and a completed one is a direct run of it. *)
From Stdlib Require Import ZArith Lia Sorted.
From stdpp Require Import base list sets strings.
From S2P Require Import Prelude JsBase JsText Values Scheduler SchedulerRuns Workflow WorkflowReplay.

(** * The tables *)

Definition mine (db : wdb) (wf : Z) : list (Z * step_row) := base.filter (fun r => st_workflowId r.2 = wf) (wd_steps db).
Notation numbers l := ((fun r : Z * step_row => st_stepNumber r.2) <$> l).
Definition get_step (db : wdb) (sid : Z) : option step_row := jm_get (wd_steps db) sid.

Record wdb_ok (db : wdb) : Prop := {
  wo_wfs : NoDup (jm_keys (wd_workflows db));
  wo_wf_next id : id ∈ jm_keys (wd_workflows db) -> id < wd_nextWf db;
  wo_steps : NoDup (jm_keys (wd_steps db));
  wo_step_next id : id ∈ jm_keys (wd_steps db) -> id < wd_nextStep db;
  wo_numbers wf : numbers (mine db wf) = seq 0 (length (mine db wf))
}.

Lemma js_sort_id {A} (c : A -> A -> comparison) l : StronglySorted (fun a b => c a b <> Gt) l -> js_sort c l = l.
Proof.
  induction 1 as [|x l Hl IH Hx]; [done|]. cbn. rewrite IH. destruct Hx as [|y l Hxy Hx]; [done|]. cbn. by destruct (c x y).
Qed.

Lemma seq_sorted (l : list (Z * step_row)) n : numbers l = seq n (length l) ->
  StronglySorted (fun a b => Nat.compare (st_stepNumber a.2) (st_stepNumber b.2) <> Gt) l.
Proof.
  revert n. induction l as [|r l IH]; intros n Hn; [constructor|]. csimpl in Hn. injection Hn as Hr Hn. constructor; [by eapply IH|].
  apply Forall_forall. intros r' Hr'. rewrite Nat.compare_gt_iff. assert (st_stepNumber r'.2 ∈ numbers l) as Hin by (apply list_elem_of_fmap; eauto).
  rewrite Hn in Hin. apply elem_of_seq in Hin. lia.
Qed.

Lemma steps_of_mine db wf : wdb_ok db -> steps_of db wf = mine db wf.
Proof. intros H. apply js_sort_id. by eapply seq_sorted, wo_numbers. Qed.
Lemma journal_of_mine db wf : wdb_ok db -> journal_of db wf = (mine db wf).*2.
Proof. intros H. unfold journal_of. by rewrite steps_of_mine. Qed.

Lemma mine_in db wf sid r : wdb_ok db -> (sid, r) ∈ mine db wf <-> get_step db sid = Some r /\ st_workflowId r = wf.
Proof.
  intros H. unfold mine. rewrite list_elem_of_filter. cbn. split; intros [H1 H2]; split; try done; [by apply jm_in_get; [apply H|]|by apply jm_get_Some_in].
Qed.
Lemma mine_number db wf i sid r : wdb_ok db -> mine db wf !! i = Some (sid, r) -> st_stepNumber r = i.
Proof.
  intros H Hi. assert (Hn : numbers (mine db wf) !! i = Some (st_stepNumber r)) by (by rewrite list_lookup_fmap, Hi). rewrite (wo_numbers _ H) in Hn.
  apply lookup_seq in Hn. lia.
Qed.
(** A row is at its number. *)
Lemma mine_get db sid r : wdb_ok db -> get_step db sid = Some r -> mine db (st_workflowId r) !! st_stepNumber r = Some (sid, r).
Proof.
  intros H Hs. assert (Hin : (sid, r) ∈ mine db (st_workflowId r)) by (by apply mine_in). apply list_elem_of_lookup in Hin as [i Hi].
  by rewrite (mine_number _ _ _ _ _ H Hi).
Qed.
Lemma mine_unique db sid r sid' r' : wdb_ok db -> get_step db sid = Some r -> get_step db sid' = Some r' ->
  st_workflowId r = st_workflowId r' -> st_stepNumber r = st_stepNumber r' -> sid = sid' /\ r = r'.
Proof. intros H Hr Hr' E1 E2. apply mine_get in Hr; [|done]. apply mine_get in Hr'; [|done]. rewrite E1, E2, Hr' in Hr. by injection Hr as -> ->. Qed.

Lemma filter_head {A} (P : A -> Prop) `{!forall x, Decision (P x)} (l : list A) x k : base.filter P l = x :: k -> x ∈ l /\ P x.
Proof. intros Hf. assert (Hin : x ∈ base.filter P l) by (rewrite Hf; left). apply list_elem_of_filter in Hin. tauto. Qed.

Lemma find_step_get db wf n sid r : wdb_ok db -> find_step db wf n = Some (sid, r) -> get_step db sid = Some r /\ st_workflowId r = wf /\ st_stepNumber r = n.
Proof.
  intros H. unfold find_step. rewrite steps_of_mine by done. destruct (base.filter _ _) as [|x k] eqn:E; [done|]. intros [= ->].
  apply filter_head in E as [Hin Hn]. apply mine_in in Hin; [|done]. cbn in Hn. tauto.
Qed.

Lemma journal_lookup db wf i r : wdb_ok db -> journal_of db wf !! i = Some r -> exists sid, get_step db sid = Some r /\ st_workflowId r = wf /\ st_stepNumber r = i.
Proof.
  intros H. rewrite journal_of_mine by done. intros ([sid r'] & -> & Hi)%list_lookup_fmap_Some. exists sid. cbn.
  pose proof (mine_number _ _ _ _ _ H Hi) as Hn. apply list_elem_of_lookup_2, mine_in in Hi; [|done]. tauto.
Qed.

(** ** One row changes *)

Lemma jm_set_Forall2 (m : list (Z * step_row)) k r r' : jm_get m k = Some r ->
  Forall2 (fun a b => b.1 = a.1 /\ (b.2 = a.2 \/ a.2 = r /\ b.2 = r')) m (jm_set m k r').
Proof.
  induction m as [|[i ri] m IH]; cbn; [done|]. case_decide as E.
  - intros [= ->]. subst. constructor; [by split; [|right]|]. clear. induction m; constructor; [by split; [|left]|done].
  - intros H. constructor; [by split; [|left]|by apply IH].
Qed.
Lemma Forall2_filter_agree {A} (R : A -> A -> Prop) (P : A -> Prop) `{!forall x, Decision (P x)} (l l' : list A) :
  (forall a b, R a b -> P a <-> P b) -> Forall2 R l l' -> Forall2 R (base.filter P l) (base.filter P l').
Proof.
  intros HP. induction 1 as [|a b l l' Hab _ IH]; [constructor|]. rewrite !filter_cons. specialize (HP a b Hab). repeat case_decide; try tauto. by constructor.
Qed.

Definition same_place (r r' : step_row) : Prop := st_workflowId r' = st_workflowId r /\ st_stepNumber r' = st_stepNumber r.

Lemma set_step_mine db sid r r' wf : get_step db sid = Some r -> same_place r r' ->
  Forall2 (fun a b => b.1 = a.1 /\ (b.2 = a.2 \/ a.2 = r /\ b.2 = r')) (mine db wf) (mine (set_step db sid r') wf).
Proof.
  intros Hs [Hw _]. unfold mine. apply Forall2_filter_agree; [|by apply jm_set_Forall2]. intros a b [_ [->|[-> ->]]]; [done|]. by rewrite Hw.
Qed.

Lemma keys_set_step db sid r r' : get_step db sid = Some r -> jm_keys (wd_steps (set_step db sid r')) = jm_keys (wd_steps db).
Proof.
  intros Hs. unfold set_step. cbn [wd_steps]. rewrite jm_keys_set, decide_True; [done|]. apply jm_get_Some_in in Hs. unfold jm_keys. apply list_elem_of_fmap. by exists (sid, r).
Qed.

Lemma set_step_ok db sid r r' : wdb_ok db -> get_step db sid = Some r -> same_place r r' -> wdb_ok (set_step db sid r').
Proof.
  intros [H1 H2 H3 H4 H5] Hs Hp. split; [done|done|..].
  - by erewrite keys_set_step.
  - intros id. erewrite keys_set_step by done. apply H4.
  - intros wf. pose proof (set_step_mine db sid r r' wf Hs Hp) as Hf. rewrite <-(Forall2_length _ _ _ Hf), <-H5. symmetry.
    apply list_eq_Forall2, Forall2_fmap_2. eapply Forall2_impl; [exact Hf|]. intros a b [_ [->|[-> ->]]]; [done|]. symmetry. apply Hp.
Qed.

Lemma get_set_step db sid r i : get_step (set_step db sid r) i = if decide (i = sid) then Some r else get_step db i.
Proof. apply jm_get_set. Qed.

Lemma set_step_journal db sid r r' wf : wdb_ok db -> get_step db sid = Some r -> same_place r r' -> row_resolves r r' ->
  journal_resolves (journal_of db wf) (journal_of (set_step db sid r') wf).
Proof.
  intros H Hs Hp Hr. pose proof (set_step_ok _ _ _ _ H Hs Hp) as H'. rewrite !journal_of_mine by done. apply Forall2_fmap_2.
  eapply Forall2_impl; [by apply set_step_mine|]. intros a b [_ [->|[-> ->]]]; [|done]. split; [done|by right].
Qed.

(** ** A row is added *)

Lemma get_step_next db : wdb_ok db -> get_step db (wd_nextStep db) = None.
Proof. intros H. apply jm_get_None. intros Hin. apply (wo_step_next _ H) in Hin. lia. Qed.
Lemma get_insert_step db r i : wdb_ok db -> get_step (insert_step db r).1 i = if decide (i = wd_nextStep db) then Some r else get_step db i.
Proof.
  intros H. unfold get_step. cbn. rewrite <-jm_set_fresh; [apply jm_get_set|]. intros Hin. apply (wo_step_next _ H) in Hin. lia.
Qed.
Lemma insert_step_mine db r wf : mine (insert_step db r).1 wf = mine db wf ++ (if decide (st_workflowId r = wf) then [(wd_nextStep db, r)] else []).
Proof. unfold mine. cbn. rewrite filter_app, filter_cons. cbn [snd]. by case_decide. Qed.
Lemma insert_step_ok db r : wdb_ok db -> st_stepNumber r = length (mine db (st_workflowId r)) -> wdb_ok (insert_step db r).1.
Proof.
  intros [H1 H2 H3 H4 H5] Hn. split; [done|done|..].
  - cbn. unfold jm_keys in *. rewrite fmap_app. apply NoDup_app. split_and!; [done| |apply NoDup_singleton].
    intros i Hi ->%list_elem_of_singleton. specialize (H4 _ Hi). cbn in H4. lia.
  - intros i. cbn. unfold jm_keys. rewrite fmap_app. intros [Hi|Hi]%elem_of_app; [specialize (H4 i Hi); lia|]. apply list_elem_of_singleton in Hi as ->. cbn. lia.
  - intros wf. rewrite insert_step_mine. case_decide as E; [|by rewrite app_nil_r]. subst wf.
    rewrite fmap_app, length_app, seq_app, H5. cbn. by rewrite Hn.
Qed.
(** A new row keeps its job from the start. *)
Lemma set_new_step db r r' : wdb_ok db -> set_step (insert_step db r).1 (insert_step db r).2 r' = (insert_step db r').1.
Proof.
  intros H. unfold set_step, insert_step. cbn. f_equal. rewrite <-!jm_set_fresh by (intros Hin; apply (wo_step_next _ H) in Hin; lia).
  induction (wd_steps db) as [|[i ri] m IH]; cbn; [by rewrite decide_True|]. destruct (decide (wd_nextStep db = i)) as [->|E]; cbn; [by rewrite decide_True|].
  rewrite decide_False by done. by rewrite IH.
Qed.

(** ** Workflows *)

Lemma get_set_wf db id r i : get_wf (set_wf db id r) i = if decide (i = id) then Some r else get_wf db i.
Proof. apply jm_get_set. Qed.
Lemma set_wf_ok db id r : wdb_ok db -> is_Some (get_wf db id) -> wdb_ok (set_wf db id r).
Proof.
  intros [H1 H2 H3 H4 H5] [r0 Hr]. assert (Hk : jm_keys (wd_workflows (set_wf db id r)) = jm_keys (wd_workflows db)).
  { unfold set_wf. cbn [wd_workflows]. rewrite jm_keys_set, decide_True; [done|]. apply jm_get_Some_in in Hr. unfold jm_keys. apply list_elem_of_fmap. by exists (id, r0). }
  split; rewrite ?Hk; done.
Qed.
Lemma get_wf_next db : wdb_ok db -> get_wf db (wd_nextWf db) = None.
Proof. intros H. apply jm_get_None. intros Hin. apply (wo_wf_next _ H) in Hin. lia. Qed.
Lemma get_insert_wf db r i : wdb_ok db -> get_wf (insert_wf db r).1 i = if decide (i = wd_nextWf db) then Some r else get_wf db i.
Proof.
  intros H. unfold get_wf. cbn. rewrite <-jm_set_fresh; [apply jm_get_set|]. intros Hin. apply (wo_wf_next _ H) in Hin. lia.
Qed.
Lemma insert_wf_ok db r : wdb_ok db -> wdb_ok (insert_wf db r).1.
Proof.
  intros [H1 H2 H3 H4 H5]. split; [..|done|done|done].
  - cbn. unfold jm_keys in *. rewrite fmap_app. apply NoDup_app. split_and!; [done| |apply NoDup_singleton].
    intros i Hi ->%list_elem_of_singleton. specialize (H2 _ Hi). cbn in H2. lia.
  - intros i. cbn. unfold jm_keys. rewrite fmap_app. intros [Hi|Hi]%elem_of_app; [specialize (H2 i Hi); lia|]. apply list_elem_of_singleton in Hi as ->. cbn. lia.
Qed.

Section ledger.
Context (workflows : jsstr -> option (value -> whandler)) (functionKind : jsstr -> job_kind).
Notation wst := (wdb * wjobs)%type.
Notation step_job_kind := (step_job_kind functionKind).

(** ** Jobs *)

Definition keeps (t t' : wjobs) : Prop := forall i j, get_job t i = Some j -> exists j', get_job t' i = Some j' /\ job_core j' = job_core j.
Lemma keeps_refl t : keeps t t.
Proof. intros i j H. by exists j. Qed.
Lemma keeps_trans t1 t2 t3 : keeps t1 t2 -> keeps t2 t3 -> keeps t1 t3.
Proof. intros K1 K2 i j H. destruct (K1 i j H) as (j2 & H2 & E2). destruct (K2 i j2 H2) as (j3 & H3 & E3). exists j3. split; [done|congruence]. Qed.

(** The completion that a callback reports. *)
Definition called (p : payload) : option (job_callback * Z * option job_context * oc_result) :=
  match p with
  | PStepDone j x r => Some (CbStepDone, j, x, r)
  | PCompensateDone j x r => Some (CbCompensateDone, j, x, r)
  | PUserDone path j x r => Some (CbUser path, j, x, r)
  | _ => None
  end.
Lemma called_callback c j x r : called (wf_callback c j x r) = Some (c, j, x, r).
Proof. by destruct c. Qed.

Definition call_ok (t : wjobs) (p : payload) : Prop :=
  match called p with
  | Some (c, j, x, r) => exists js, get_job t j = Some js /\ jb_onComplete js = Some c /\ jb_context js = x /\ (j, r) ∈ jt_fired t
  | None => True
  end.

(** [(p, v)]: a run of [p] that returned [v]. *)
Definition ran_as (ran : list (payload * value)) (t : wjobs) (j : Z) (v : value) : Prop :=
  exists job, get_job t j = Some job /\ (jb_payload job, v) ∈ ran.

Definition step_job (r : step_row) (g : Z) : payload * job_kind * Z * option job_callback * option job_context :=
  (step_payload (st_kind r) (st_name r) (st_args r), step_job_kind (st_kind r) (st_name r),
   default (default_failures (step_job_kind (st_kind r) (st_name r))) (st_maxAttempts r), Some CbStepDone,
   Some (StepContext (st_workflowId r) (st_stepNumber r) g)).
Definition undo_payload (r : step_row) : payload := PCall (default [] (st_compensateFnPath r)) (undo_args r).

(** A step that succeeded and named a compensation. *)
Definition undoable (r : step_row) : Prop := is_success (st_state r) = true /\ st_compensateFnPath r <> None.

Definition resolved_ok (sent : list (Z * jsstr * value)) (t : wjobs) (r : step_row) : Prop :=
  match st_scheduledJobId r with
  | Some j => st_kind r <> KWaitForEvent /\ (exists job g, get_job t j = Some job /\ job_core job = step_job r g) /\
      (st_state r = StPending \/ exists x, (j, x) ∈ jt_fired t /\ st_state r = outcome_of x)
  | None => st_kind r = KWaitForEvent /\ (st_state r = StPending \/ exists v, st_state r = StSuccess v /\ (st_workflowId r, st_name r, v) ∈ sent)
  end.
Definition compensated_ok (t : wjobs) (r : step_row) : Prop :=
  st_compensated r = true -> undoable r /\
    exists j job v, get_job t j = Some job /\ jb_payload job = undo_payload r /\ (j, OcSuccess v) ∈ jt_fired t.
Definition row_ok (sent : list (Z * jsstr * value)) (db : wdb) (t : wjobs) (r : step_row) : Prop :=
  is_Some (get_wf db (st_workflowId r)) /\ resolved_ok sent t r /\ compensated_ok t r.

Record rows_inv (claimed : list Z) (ran : list (payload * value)) (sent : list (Z * jsstr * value)) (t0 : wjobs) (db : wdb) (t : wjobs) : Prop := {
  ri_table : table_ok wf_callback claimed t;
  ri_db : wdb_ok db;
  ri_keeps : keeps t0 t;
  ri_calls i j : get_job t i = Some j -> call_ok t (jb_payload j);
  ri_ran j v : (j, OcSuccess v) ∈ jt_fired t -> ran_as ran t j v;
  ri_rows sid r : get_step db sid = Some r -> row_ok sent db t r
}.

Definition known_job (db : wdb) (i : Z) (j : job payload job_callback job_context) : Prop :=
  match jb_onComplete j with
  | Some CbStepDone => exists sid r g, get_step db sid = Some r /\ jb_context j = Some (StepContext (st_workflowId r) (st_stepNumber r) g) /\ st_scheduledJobId r = Some i
  | Some CbCompensateDone => exists sid r g, get_step db sid = Some r /\ jb_context j = Some (StepContext (st_workflowId r) (st_stepNumber r) g) /\
      undoable r /\ jb_payload j = undo_payload r
  | _ => True
  end.
Definition jobs_known (db : wdb) (t : wjobs) : Prop := forall i j, get_job t i = Some j -> known_job db i j.

Definition wf_ok (db : wdb) (id : Z) (wf : wf_row) : Prop :=
  forall h, workflows (wf_fnPath wf) = Some h -> steady (h (wf_args wf)) ->
  match wf_state_of wf with
  | WRunning => follows (h (wf_args wf)) 0 (journal_of db id)
  | WCompleted => exists v, wf_result wf = Some v /\ direct (recorded (journal_of db id)) (h (wf_args wf)) 0 (inl (Some v))
  | _ => True
  end.
Definition wfs_ok (db : wdb) : Prop := forall id wf, get_wf db id = Some wf -> wf_ok db id wf.

(** ** The job table changes *)

Definition grows (t t' : wjobs) : Prop := keeps t t' /\ forall f, f ∈ jt_fired t -> f ∈ jt_fired t'.

Lemma call_ok_grows t t' p : grows t t' -> call_ok t p -> call_ok t' p.
Proof.
  intros [K F]. unfold call_ok. destruct (called p) as [[[[c j] x] r]|]; [|done]. intros (js & Hj & Hc & Hx & Hin).
  destruct (K _ _ Hj) as (js' & Hj' & E). unfold job_core in E. exists js'. split_and!; [done|congruence|congruence|by apply F].
Qed.
Lemma ran_as_grows ran t t' j v : grows t t' -> ran_as ran t j v -> ran_as ran t' j v.
Proof. intros [K F] (job & Hj & Hin). destruct (K _ _ Hj) as (job' & Hj' & E). exists job'. split; [done|]. unfold job_core in E. by replace (jb_payload job') with (jb_payload job) by congruence. Qed.
Lemma resolved_ok_grows sent t t' r : grows t t' -> resolved_ok sent t r -> resolved_ok sent t' r.
Proof.
  intros [K F]. unfold resolved_ok. destruct (st_scheduledJobId r) as [j|]; [|done]. intros (Hk & (job & g & Hj & Hc) & Hs). split; [done|]. split.
  - destruct (K _ _ Hj) as (job' & Hj' & E). exists job', g. split; [done|congruence].
  - destruct Hs as [Hs|(x & Hx & Hs)]; [by left|right]. exists x. split; [by apply F|done].
Qed.
Lemma compensated_ok_grows t t' r : grows t t' -> compensated_ok t r -> compensated_ok t' r.
Proof.
  intros [K F] H Hc. destruct (H Hc) as (Hs & j & job & v & Hj & Hp & Hin). split; [done|]. destruct (K _ _ Hj) as (job' & Hj' & E). unfold job_core in E.
  exists j, job', v. split_and!; [done|congruence|by apply F].
Qed.
Lemma row_ok_grows sent db t t' r : grows t t' -> row_ok sent db t r -> row_ok sent db t' r.
Proof. intros G (H1 & H2 & H3). split_and!; [done|by eapply resolved_ok_grows|by eapply compensated_ok_grows]. Qed.

Lemma rows_inv_evolves claimed claimed' ran sent t0 db t t' l :
  evolves wf_callback t t' l -> table_ok wf_callback claimed' t' -> (forall j v, (j, OcSuccess v) ∈ l -> ran_as ran t j v) ->
  rows_inv claimed ran sent t0 db t -> rows_inv claimed' ran sent t0 db t'.
Proof.
  intros [K N F] HT Hl [H1 H2 H3 H4 H5 H6]. assert (G : grows t t') by (split; [exact K|]; intros f Hf; rewrite F; set_solver).
  split; [done|done|by eapply keeps_trans|..].
  - intros i j Hj. destruct (get_job t i) as [j0|] eqn:E.
    + destruct (K _ _ E) as (j' & Hj' & Ec). assert (j' = j) as -> by congruence. unfold job_core in Ec.
      replace (jb_payload j) with (jb_payload j0) by congruence. eapply call_ok_grows; [done|by eapply H4].
    + destruct (N _ _ Hj E) as (src & js & c & r & Hs & Hc & Hp & _ & Hin). rewrite Hp. unfold call_ok. rewrite called_callback.
      exists js. split_and!; [done|done|done|]. rewrite F. set_solver.
  - intros j v Hin. rewrite F in Hin. apply elem_of_app in Hin as [Hin|Hin]; (eapply ran_as_grows; [done|]); [by apply H5|by apply Hl].
  - intros sid r Hr. eapply row_ok_grows; [done|by eapply H6].
Qed.
Lemma jobs_known_evolves db t t' l : evolves wf_callback t t' l -> jobs_known db t -> jobs_known db t'.
Proof.
  intros [K N F] H i j Hj. destruct (get_job t i) as [j0|] eqn:E.
  - destruct (K _ _ E) as (j' & Hj' & Ec). assert (j' = j) as -> by congruence. specialize (H _ _ E). unfold known_job, job_core in *.
    replace (jb_onComplete j) with (jb_onComplete j0) by congruence. replace (jb_context j) with (jb_context j0) by congruence.
    by replace (jb_payload j) with (jb_payload j0) by congruence.
  - destruct (N _ _ Hj E) as (src & js & c & r & Hs & Hc & Hp & Ho & Hin). unfold known_job. by rewrite Ho.
Qed.
Lemma no_success_ran ran t l : no_success l -> forall j v, (j, OcSuccess v) ∈ l -> ran_as ran t j v.
Proof. intros H j v Hin. by destruct (H j v). Qed.

(** A new job that is no callback. *)
Lemma rows_inv_insert claimed ran sent t0 db t j : rows_inv claimed ran sent t0 db t -> called (jb_payload j) = None -> jb_state j = Pending -> jb_attempts j = 0 ->
  rows_inv claimed ran sent t0 db (insert_job t j).1.
Proof.
  intros [[HJ HF] H2 H3 H4 H5 H6] Hp Hs Ha. assert (G : grows t (insert_job t j).1).
  { split; [|done]. intros i ji Hi. exists ji. split; [|done]. erewrite get_insert by done. case_decide; [|done]. subst. erewrite get_next in Hi by done. done. }
  split; [split; [by apply insert_jobs_ok|by eapply insert_fired_ok; [|by rewrite Hs|]]|done|eapply keeps_trans; [exact H3|apply G]|..].
  - intros i ji Hi. erewrite get_insert in Hi by done. case_decide; [|by eapply call_ok_grows; [|by eapply H4]]. injection Hi as <-. unfold call_ok. by rewrite Hp.
  - intros i v Hin. eapply ran_as_grows; [done|]. by apply H5.
  - intros sid r Hr. eapply row_ok_grows; [done|by eapply H6].
Qed.
Lemma jobs_known_insert claimed db t j : jobs_ok claimed t -> jobs_known db t -> known_job db (jt_next t) j -> jobs_known db (insert_job t j).1.
Proof. intros HJ H Hj i ji Hi. erewrite get_insert in Hi by done. case_decide; [|by apply H]. injection Hi as <-. by subst. Qed.

(** ** The workflow tables change *)

Record state_ok (claimed : list Z) (ran : list (payload * value)) (sent : list (Z * jsstr * value)) (t0 : wjobs) (s : wst) : Prop := {
  st_rows : rows_inv claimed ran sent t0 s.1 s.2;
  st_jobs : jobs_known s.1 s.2;
  st_wfs : wfs_ok s.1
}.

Record row_moves (r r' : step_row) : Prop := {
  rm_place : same_place r r';
  rm_resolves : row_resolves r r';
  rm_job : st_scheduledJobId r' = st_scheduledJobId r;
  rm_undo : st_compensateFnPath r' = st_compensateFnPath r
}.

Lemma row_moves_undoable r r' : row_moves r r' -> undoable r -> undoable r' /\ undo_payload r' = undo_payload r.
Proof.
  intros [_ [Hk Hs] _ Hu] [Hr Hc]. assert (Hst : st_state r' = st_state r) by (destruct Hs as [Hs|Hs]; [by rewrite Hs in Hr|done]). unfold undoable. split; [by rewrite Hst, Hu|].
  unfold undo_payload, undo_args, row_key in *. rewrite Hst, Hu. by replace (st_args r') with (st_args r) by congruence.
Qed.

Lemma state_ok_set_step claimed ran sent t0 db t sid r r' : state_ok claimed ran sent t0 (db, t) -> get_step db sid = Some r -> row_moves r r' ->
  resolved_ok sent t r' -> compensated_ok t r' -> state_ok claimed ran sent t0 (set_step db sid r', t).
Proof.
  intros [[H1 H2 H3 H4 H5 H6] HJ HW] Hr Hm Hok Hcok. cbn [fst snd] in *. pose proof (rm_place _ _ Hm) as Hp. split; cbn [fst snd].
  - split; [done|by eapply set_step_ok|done|done|done|]. intros i ri. rewrite get_set_step. case_decide; [|by apply H6]. intros [= <-].
    split_and!; [|done|done]. rewrite (proj1 Hp). by eapply H6.
  - intros i j Hj. specialize (HJ i j Hj). unfold known_job in *. destruct (jb_onComplete j) as [[]|]; [..|done]; [| |done].
    + destruct HJ as (si & ri & g & Hs & Hx & Hsch). destruct (decide (si = sid)) as [->|Hne]; [|exists si, ri, g; by rewrite get_set_step, decide_False].
      assert (ri = r) as -> by congruence. exists sid, r', g. rewrite get_set_step, decide_True by done. destruct Hp as [-> ->]. rewrite (rm_job _ _ Hm). done.
    + destruct HJ as (si & ri & g & Hs & Hx & Hsucc & Hpay). destruct (decide (si = sid)) as [->|Hne]; [|exists si, ri, g; by rewrite get_set_step, decide_False].
      assert (ri = r) as -> by congruence. destruct (row_moves_undoable _ _ Hm Hsucc) as [Hst Hund]. exists sid, r', g. rewrite get_set_step, decide_True by done.
      destruct Hp as [-> ->]. by rewrite Hund.
  - intros id wf Hwf h Hh Hst. specialize (HW id wf Hwf h Hh Hst). pose proof (set_step_journal db sid r r' id H2 Hr Hp (rm_resolves _ _ Hm)) as Hj.
    destruct (wf_state_of wf); try done; [by eapply follows_resolves|]. destruct HW as (v & Hv & Hd). exists v. split; [done|].
    eapply direct_mono; [|exact Hd]. intros i c p Hpw. by apply recorded_resolves.
Qed.

Lemma state_ok_set_wf claimed ran sent t0 db t id wf wf' : state_ok claimed ran sent t0 (db, t) -> get_wf db id = Some wf -> wf_ok db id wf' ->
  state_ok claimed ran sent t0 (set_wf db id wf', t).
Proof.
  intros [[H1 H2 H3 H4 H5 H6] HJ HW] Hwf Hok. cbn [fst snd] in *. split; cbn [fst snd]; [|done|].
  - split; [done|by apply set_wf_ok|done|done|done|]. intros i ri Hi. destruct (H6 i ri Hi) as (Hw & Hrest). split; [|done].
    rewrite get_set_wf. by case_decide.
  - intros i wfi. rewrite get_set_wf. case_decide; [|apply HW]. intros [= <-]. by subst.
Qed.

Lemma state_ok_insert_wf claimed ran sent t0 db t wf : state_ok claimed ran sent t0 (db, t) -> wf_state_of wf = WRunning ->
  state_ok claimed ran sent t0 ((insert_wf db wf).1, t).
Proof.
  intros [[H1 H2 H3 H4 H5 H6] HJ HW] Hrun. cbn [fst snd] in *. split; cbn [fst snd]; [|done|].
  - split; [done|by apply insert_wf_ok|done|done|done|]. intros i ri Hi. destruct (H6 i ri Hi) as (Hw & Hrest). split; [|done].
    rewrite get_insert_wf by done. by case_decide.
  - intros i wfi. rewrite get_insert_wf by done. case_decide as E; [|apply HW]. intros [= <-]. subst i. intros h _ _. rewrite Hrun.
    apply follows_nothing. change (journal_of (insert_wf db wf).1 (wd_nextWf db)) with (journal_of db (wd_nextWf db)).
    rewrite journal_of_mine by done. destruct (mine db (wd_nextWf db)) as [|[sid r] l] eqn:Em; [done|].
    assert (Hin : (sid, r) ∈ mine db (wd_nextWf db)) by (rewrite Em; left). apply mine_in in Hin as [Hs Hw]; [|done].
    destruct (H6 _ _ Hs) as [[w Hg] _]. rewrite Hw, get_wf_next in Hg by done. done.
Qed.

Lemma state_ok_evolves claimed claimed' ran sent t0 db t t' l :
  evolves wf_callback t t' l -> table_ok wf_callback claimed' t' -> (forall j v, (j, OcSuccess v) ∈ l -> ran_as ran t j v) ->
  state_ok claimed ran sent t0 (db, t) -> state_ok claimed' ran sent t0 (db, t').
Proof. intros He HT Hl [H1 H2 H3]. split; [by eapply rows_inv_evolves|by eapply jobs_known_evolves|done]. Qed.

(** A job that is no step, no compensation and no callback. *)
Definition quiet {X} (o : enqueue_opts job_callback X) : Prop := match eo_onComplete o with Some CbStepDone | Some CbCompensateDone => False | _ => True end.
Lemma state_ok_enqueue claimed ran sent t0 db t now p o kind : state_ok claimed ran sent t0 (db, t) -> called p = None -> quiet o ->
  state_ok claimed ran sent t0 (db, (enqueueInternal now p o kind t).1).
Proof.
  intros [H1 H2 H3] Hp Ho. cbn [fst snd] in *. unfold enqueueInternal. destruct (match eo_idempotencyKey o with Some _ => _ | None => _ end); [by split|].
  split; [by apply rows_inv_insert| |done]. eapply jobs_known_insert; [apply (ri_table _ _ _ _ _ _ H1)|done|].
  unfold known_job, new_job. cbn [jb_onComplete]. unfold quiet in Ho. by destruct (eo_onComplete o) as [[]|].
Qed.

Lemma state_ok_cancel claimed ran sent t0 db t now j t' : state_ok claimed ran sent t0 (db, t) -> cancel wf_callback now j t = Some t' ->
  state_ok claimed ran sent t0 (db, t').
Proof.
  intros H Hc. pose proof (ri_table _ _ _ _ _ _ (st_rows _ _ _ _ _ H)) as HT. cbn in HT. destruct (cancel_evolves _ _ _ _ _ _ HT Hc) as (l & He & Hl).
  eapply state_ok_evolves; [exact He| |by apply no_success_ran|done]. eapply cancel_walk_ok; [|exact Hc]. by apply cancel_one_ok.
Qed.
End ledger.
