(* ===== verification/WorkflowTxns.v ===== *)
(** Each workflow transaction keeps the invariant of WorkflowLedger. *)
From Stdlib Require Import ZArith Lia.
From stdpp Require Import base list sets strings.
From S2P Require Import Prelude JsBase JsText Values Scheduler SchedulerRuns Workflow WorkflowReplay WorkflowLedger.

Section txns.
Context (workflows : jsstr -> option (value -> whandler)) (maxParallelism : nat) (functionKind : jsstr -> job_kind).
Notation wst := (wdb * wjobs)%type.
Notation rows_inv := (rows_inv functionKind).
Notation state_ok := (state_ok workflows functionKind).

(** ** Dispatch *)

(** The new steps of any replay are numbered from the end of the journal. *)
Lemma request_all_numbered now rows calls n news : numbered (length rows) news -> length news = (n - length rows)%nat ->
  let '(_, n', news') := request_all now rows calls n news in numbered (length rows) news' /\ length news' = (n' - length rows)%nat.
Proof.
  revert n news. induction calls as [|c cs IH]; intros n news Hn Hl; cbn [request_all]; [done|].
  destruct (new_step_of_key now n c) as [(s & -> & _ & Hs)|[-> _]]; [|done]. unfold requestStep. rewrite Hs. destruct (rows !! n) as [r|] eqn:Er.
  - pose proof (lookup_lt_Some _ _ _ Er). destruct (negb (row_matches r s)); [split; [done|lia]|].
    specialize (IH (S n) news Hn ltac:(lia)). destruct (st_state r); destruct (request_all now rows cs (S n) news) as [[[|] ?] ?]; done.
  - apply lookup_ge_None_1 in Er. specialize (IH (S n) (news ++ [s])). rewrite length_app in IH. cbn in IH.
    specialize (IH ltac:(apply numbered_snoc; [done|lia]) ltac:(lia)). destruct (request_all now rows cs (S n) (news ++ [s])) as [[[|] ?] ?]; done.
Qed.
Lemma replay_numbered now rows h n news all : numbered (length rows) news -> length news = (n - length rows)%nat ->
  replay now rows h n news = OSuspended all -> numbered (length rows) all.
Proof.
  revert n news. induction h as [v|e| |calls k IH]; intros n news Hn Hl; cbn [replay]; [done|done|by intros [= <-]|].
  pose proof (request_all_numbered now rows calls n news Hn Hl) as H. destruct (request_all now rows calls n news) as [[[e|ps] n'] news']; destruct H as [Hn' Hl'].
  - by apply IH.
  - destruct (promise_all ps); [by apply IH|by intros [= <-]].
Qed.
Lemma numbered_take m k news : numbered m news -> numbered m (take k news).
Proof. intros H i n [Hi _]%lookup_take_Some. by apply H. Qed.

Lemma rows_inv_add claimed ran sent t0 db t r : rows_inv claimed ran sent t0 db t -> is_Some (get_wf db (st_workflowId r)) ->
  st_stepNumber r = length (mine db (st_workflowId r)) -> resolved_ok functionKind sent t r -> st_compensated r = false ->
  rows_inv claimed ran sent t0 (insert_step db r).1 t.
Proof.
  intros [H1 H2 H3 H4 H5 H6] Hw Hn Hr Hc. split; [done|by apply insert_step_ok|done|done|done|]. intros i ri. rewrite get_insert_step by done. case_decide; [|by apply H6].
  intros [= <-]. split_and!; [done|done|]. intros Hx. by rewrite Hc in Hx.
Qed.
Lemma jobs_known_add db t r : wdb_ok db -> jobs_known db t -> jobs_known (insert_step db r).1 t.
Proof.
  intros Hdb H i j Hj. specialize (H i j Hj). unfold known_job in *.
  assert (Hk : forall si ri, get_step db si = Some ri -> get_step (insert_step db r).1 si = Some ri).
  { intros si ri Hs. rewrite get_insert_step by done. case_decide; [subst; by rewrite get_step_next in Hs|done]. }
  destruct (jb_onComplete j) as [[]|]; [..|done]; [| |done]; destruct H as (si & ri & g & Hs & H); exists si, ri, g; (split; [by apply Hk|done]).
Qed.

Definition new_row (wfId : Z) (n : new_step) (t : wjobs) : step_row := match ns_kind n with KWaitForEvent => row_of wfId n | _ => with_job (row_of wfId n) (jt_next t) end.
Definition step_job_opts (wfId g : Z) (n : new_step) : enqueue_opts job_callback job_context :=
  EnqueueOpts None (ns_runAt n) (ns_maxAttempts n) None (Some CbStepDone) (Some (StepContext wfId (ns_stepNumber n) g)) None.

Definition step_new_job (now wfId g : Z) (n : new_step) : job payload job_callback job_context :=
  new_job now (step_payload (ns_kind n) (ns_name n) (ns_args n)) (step_job_opts wfId g n) (Workflow.step_job_kind functionKind (ns_kind n) (ns_name n)).

Lemma dispatch_step_eq now wfId g n db t : wdb_ok db -> dispatch_step functionKind now wfId g n (db, t) =
  if decide (ns_kind n = KWaitForEvent) then (insert_event (insert_step db (row_of wfId n)).1 (EventRow wfId (ns_name n) None), t)
  else ((insert_step db (with_job (row_of wfId n) (jt_next t))).1, (insert_job t (step_new_job now wfId g n)).1).
Proof.
  intros Hdb. rewrite <-(set_new_step db (row_of wfId n) (with_job (row_of wfId n) (jt_next t))) by done. unfold dispatch_step, step_new_job.
  case_decide as E; [by rewrite E|by destruct (ns_kind n)].
Qed.

Lemma dispatch_ok claimed ran sent t0 now wfId g n db t : rows_inv claimed ran sent t0 db t -> jobs_known db t -> is_Some (get_wf db wfId) ->
  ns_stepNumber n = length (mine db wfId) ->
  let s := dispatch_step functionKind now wfId g n (db, t) in
  rows_inv claimed ran sent t0 s.1 s.2 /\ jobs_known s.1 s.2 /\ (forall id, get_wf s.1 id = get_wf db id) /\
  forall id, journal_of s.1 id = journal_of (insert_step db (new_row wfId n t)).1 id.
Proof.
  intros HR HJ Hw Hn. pose proof (ri_db _ _ _ _ _ _ _ HR) as Hdb. pose proof (proj1 (ri_table _ _ _ _ _ _ _ HR)) as HJo.
  rewrite dispatch_step_eq by done. unfold new_row. case_decide as E; cbn [fst snd].
  - rewrite E. set (r := row_of wfId n).
    assert (HR' : rows_inv claimed ran sent t0 (insert_step db r).1 t) by (apply rows_inv_add; [done|done|done|split; [done|by left]|done]).
    split_and!; [|by apply (jobs_known_add db t r)|done|done]. destruct HR' as [? [] ? ? ? ?]. by split; [|split|..].
  - set (j := step_new_job now wfId g n). set (r := with_job (row_of wfId n) (jt_next t)).
    assert (HR' : rows_inv claimed ran sent t0 db (insert_job t j).1).
    { apply rows_inv_insert; [done| |done|done]. cbn. by destruct (ns_kind n). }
    assert (Hget : get_job (insert_job t j).1 (jt_next t) = Some j) by (erewrite get_insert by done; by rewrite decide_True).
    split_and!.
    + apply rows_inv_add; [done|done|done| |done]. cbn. split; [done|]. split; [|by left]. exists j, g. by split.
    + eapply jobs_known_insert; [done|by apply jobs_known_add|]. unfold known_job. exists (wd_nextStep db), r, g. split_and!; [|done|done].
      rewrite get_insert_step by done. by rewrite decide_True.
    + done.
    + intros id. by destruct (ns_kind n).
Qed.

Lemma insert_step_journal db r id : wdb_ok db -> st_stepNumber r = length (mine db (st_workflowId r)) ->
  journal_of (insert_step db r).1 id = journal_of db id ++ (if decide (st_workflowId r = id) then [r] else []).
Proof.
  intros H Hn. rewrite !journal_of_mine by (done || by apply insert_step_ok). rewrite insert_step_mine, fmap_app. by case_decide.
Qed.

Lemma journal_resolves_refl rows : journal_resolves rows rows.
Proof. unfold journal_resolves. induction rows; constructor; [|done]. split; [done|by right]. Qed.

Lemma journal_resolves_trans l1 l2 l3 : journal_resolves l1 l2 -> journal_resolves l2 l3 -> journal_resolves l1 l3.
Proof.
  apply Forall2_trans. intros a b c [K1 S1] [K2 S2]. split; [congruence|]. destruct S1 as [?|E1]; [by left|]. destruct S2 as [?|E2]; [left|right]; congruence.
Qed.

Lemma dispatch_all_ok claimed ran sent t0 now wfId g news db t : rows_inv claimed ran sent t0 db t -> jobs_known db t -> is_Some (get_wf db wfId) ->
  numbered (length (journal_of db wfId)) news ->
  let s := foldl (fun s n => dispatch_step functionKind now wfId g n s) (db, t) news in
  rows_inv claimed ran sent t0 s.1 s.2 /\ jobs_known s.1 s.2 /\ (forall id, get_wf s.1 id = get_wf db id) /\
  journal_resolves (journaled wfId (journal_of db wfId) news) (journal_of s.1 wfId) /\ forall id, id <> wfId -> journal_of s.1 id = journal_of db id.
Proof.
  revert db t. induction news as [|n news IH]; intros db t HR HJ Hw Hnum; cbn [foldl].
  { cbn [fst snd]. split_and!; try done. unfold journaled. rewrite fmap_nil, app_nil_r. apply journal_resolves_refl. }
  pose proof (ri_db _ _ _ _ _ _ _ HR) as Hdb. assert (Hn : ns_stepNumber n = length (mine db wfId)).
  { rewrite (Hnum 0%nat n eq_refl), journal_of_mine, length_fmap by done. lia. }
  assert (Hrow : st_workflowId (new_row wfId n t) = wfId /\ st_stepNumber (new_row wfId n t) = length (mine db wfId)) by (unfold new_row; by destruct (ns_kind n)).
  destruct Hrow as [Hrw Hrn].
  assert (Hj : forall id, journal_of (insert_step db (new_row wfId n t)).1 id = journal_of db id ++ (if decide (wfId = id) then [new_row wfId n t] else [])).
  { intros id. rewrite insert_step_journal by (done || by rewrite Hrw). by rewrite Hrw. }
  destruct (dispatch_ok claimed ran sent t0 now wfId g n db t HR HJ Hw Hn) as (HR' & HJ' & Hw' & Hj').
  destruct (dispatch_step functionKind now wfId g n (db, t)) as [db' t']. cbn [fst snd] in *. setoid_rewrite Hj in Hj'.
  pose proof (Hj' wfId) as Hjw. rewrite decide_True in Hjw by done.
  destruct (IH db' t') as (HR2 & HJ2 & Hw2 & Hres & Hoth); [done|done|by rewrite Hw'| |].
  { rewrite Hjw, length_app. intros i x Hi. rewrite (Hnum (S i) x Hi). cbn. lia. }
  split_and!; [done|done| | |].
  - intros id. by rewrite Hw2.
  - eapply journal_resolves_trans; [|exact Hres].
    rewrite Hjw. unfold journaled. rewrite <-app_assoc. apply Forall2_app; [apply journal_resolves_refl|]. cbn. constructor; [|apply journal_resolves_refl].
    unfold new_row. destruct (ns_kind n); (split; [done|by right]).
  - intros id Hid. rewrite Hoth by done. rewrite Hj', decide_False by done. by rewrite app_nil_r.
Qed.

(** ** modules.ts *)

Lemma state_ok_plain claimed ran sent t0 db t now p o kind : state_ok claimed ran sent t0 (db, t) -> called p = None -> eo_onComplete o = None ->
  state_ok claimed ran sent t0 (db, (enqueueInternal now p o kind t).1).
Proof. intros H Hp Ho. apply state_ok_enqueue; [done|done|]. unfold quiet. by rewrite Ho. Qed.

Lemma fire_wf_ok claimed ran sent t0 db t now wfId wf r : state_ok claimed ran sent t0 (db, t) ->
  state_ok claimed ran sent t0 (db, fireWorkflowOnComplete functionKind now wfId wf r t).
Proof. intros H. unfold fireWorkflowOnComplete. destruct (wf_onComplete wf); [|done]. by apply state_ok_plain. Qed.

(** A workflow that ends in another way than with a result. *)
Lemma state_ok_end claimed ran sent t0 db t id wf s g res e tg : state_ok claimed ran sent t0 (db, t) -> get_wf db id = Some wf ->
  s <> WRunning -> s <> WCompleted -> state_ok claimed ran sent t0 (set_wf db id (set_state wf s g res e tg), t).
Proof. intros H Hw H1 H2. eapply state_ok_set_wf; [done|done|]. intros h _ _. cbn. by destruct s. Qed.

Lemma fail_or_compensate_ok claimed ran sent t0 s now wfId wf e tg : state_ok claimed ran sent t0 s -> get_wf s.1 wfId = Some wf ->
  state_ok claimed ran sent t0 (failOrCompensate functionKind now wfId wf e tg s).
Proof.
  destruct s as [db t]. intros H Hw. unfold failOrCompensate. destruct (negb _).
  - apply fire_wf_ok. apply state_ok_end; [done|done|by destruct tg..].
  - apply (state_ok_plain _ _ _ _ _ t); [|done|done]. by apply state_ok_end.
Qed.

Lemma advance_ok claimed ran sent t0 now wfId s s' : state_ok claimed ran sent t0 s -> advance workflows maxParallelism functionKind now wfId s = Ok s' ->
  state_ok claimed ran sent t0 s'.
Proof.
  destruct s as [db t]. intros H. unfold advance. destruct (get_wf db wfId) as [wf|] eqn:Hw; [|by intros [= <-]].
  destruct (bool_decide (wf_state_of wf = WRunning)) eqn:Hs; cbn [negb]; [|by intros [= <-]]. apply bool_decide_eq_true in Hs.
  destruct (workflows (wf_fnPath wf)) as [h|] eqn:Hh; [|done]. set (journal := journal_of db wfId).
  assert (Hf : steady (h (wf_args wf)) -> follows (h (wf_args wf)) 0 journal).
  { intros Hst. pose proof (st_wfs _ _ _ _ _ _ _ H wfId wf Hw h Hh Hst) as Hok. by rewrite Hs in Hok. }
  assert (Hnum0 : numbered (length journal) []) by done.
  assert (Hrep := fun Hst => replay_follows wfId now journal (h (wf_args wf)) 0 [] (Hf Hst) Hnum0).
  unfold runReplay. destruct (replay now journal (h (wf_args wf)) 0 []) as [[v|]|e|all] eqn:Er.
  - intros [= <-]. apply fire_wf_ok. eapply state_ok_set_wf; [done|done|]. intros h' Hh' Hst. cbn in *. assert (h' = h) as -> by congruence.
    exists v. split; [done|]. by apply Hrep.
  - done.
  - intros [= <-]. exact (fail_or_compensate_ok _ _ _ _ (db, t) now wfId wf e TFailed H Hw).
  - destruct (bool_decide (length all = 0%nat) && _); intros [= <-]; [exact (fail_or_compensate_ok _ _ _ _ (db, t) now wfId wf stall_error TFailed H Hw)|].
    assert (Hnum : numbered (length journal) (take maxParallelism all)) by (by apply numbered_take, (replay_numbered now journal (h (wf_args wf)) 0 [] all)).
    destruct H as [HR HJ HW]. cbn [fst snd] in *.
    destruct (dispatch_all_ok claimed ran sent t0 now wfId (wf_generation wf) (take maxParallelism all) db t HR HJ) as (HR' & HJ' & Hw' & Hres & Hoth); [done|done|].
    split; [done|done|]. intros id wfi. rewrite Hw'. intros Hwi h' Hh' Hst. specialize (HW id wfi Hwi h' Hh' Hst).
    destruct (decide (id = wfId)) as [->|Hne]; [|by rewrite Hoth]. assert (wfi = wf) as -> by congruence. rewrite Hs in *. assert (h' = h) as -> by congruence.
    eapply follows_resolves; [done|exact Hres|]. by apply Hrep.
Qed.

(** *** Completions *)

Lemma compensated_ok_moves t r r' : compensated_ok t r -> row_moves r r' -> st_compensated r' = st_compensated r -> compensated_ok t r'.
Proof.
  intros H Hm Hc Hc'. rewrite Hc in Hc'. destruct (H Hc') as (Hs & j & job & v & Hj & Hp & Hin). destruct (row_moves_undoable _ _ Hm Hs) as [Hs' Hu].
  split; [done|]. exists j, job, v. by rewrite Hu.
Qed.

(** The callback of a step names its row. *)
Lemma called_row claimed ran sent t0 db t c j x r : state_ok claimed ran sent t0 (db, t) -> call_ok t (wf_callback c j x r) -> c = CbStepDone \/ c = CbCompensateDone ->
  forall wfId n g, x = Some (StepContext wfId n g) -> forall sid row, find_step db wfId n = Some (sid, row) ->
  exists js, get_job t j = Some js /\ (j, r) ∈ jt_fired t /\ get_step db sid = Some row /\ row_ok functionKind sent db t row /\
    match c with CbStepDone => st_scheduledJobId row = Some j | _ => undoable row /\ jb_payload js = undo_payload row end.
Proof.
  intros [[H1 H2 H3 H4 H5 H6] HJ HW] Hc Hcc wfId n g -> sid row Hfind. cbn [fst snd] in *.
  unfold call_ok in Hc. rewrite called_callback in Hc. destruct Hc as (js & Hjs & Honc & Hctx & Hin). pose proof (HJ j js Hjs) as Hk. unfold known_job in Hk. rewrite Honc in Hk.
  apply find_step_get in Hfind as (Hg & Hw & Hn); [|done].
  destruct Hcc as [-> | ->]; destruct Hk as (si & ri & gi & Hs & Hx & Hk); rewrite Hctx in Hx; injection Hx as Hx1 Hx2 _;
    (destruct (mine_unique db si ri sid row H2 Hs Hg) as [-> ->]; [congruence|congruence|]); exists js; (do 3 (split; [done|])); (split; [by eapply H6|exact Hk]).
Qed.

Lemma fired_unique claimed t j r r' : table_ok wf_callback claimed t -> (j, r) ∈ jt_fired t -> (j, r') ∈ jt_fired t -> r = r'.
Proof.
  intros [_ HF] H1 H2. pose proof (fo_nodup _ _ _ HF) as Hnd. apply (jm_in_get (jt_fired t)) in H1; [|done]. apply (jm_in_get (jt_fired t)) in H2; [|done]. congruence.
Qed.

Lemma step_done_ok claimed ran sent t0 now j x r s : state_ok claimed ran sent t0 s -> call_ok s.2 (PStepDone j x r) ->
  state_ok claimed ran sent t0 (stepDone now x r s).
Proof.
  destruct s as [db t]. intros H Hc. unfold stepDone. destruct x as [[wfId n g|]|]; try done. destruct (get_wf db wfId) as [wf|]; [|done].
  destruct (negb _); [done|]. destruct (find_step db wfId n) as [[sid row]|] eqn:Ef; [|done].
  destruct (called_row claimed ran sent t0 db t CbStepDone j _ r H Hc (or_introl eq_refl) wfId n g eq_refl sid row Ef) as (js & Hjs & Hin & Hg & (Hw & Hres & Hcomp) & Hsch).
  cbn in Hsch. apply state_ok_plain; [|done|done]. pose proof Hres as Hres'. unfold resolved_ok in Hres'. rewrite Hsch in Hres'. destruct Hres' as (Hk & Hjob & Hst).
  assert (Hm : row_moves row (with_step_state row (outcome_of r))).
  { split; [done| |done|done]. split; [done|]. destruct Hst as [Hst|(r' & Hin' & Hst)]; [by left|right].
    pose proof (ri_table _ _ _ _ _ _ _ (st_rows _ _ _ _ _ _ _ H)) as HT. cbn in HT. by rewrite (fired_unique _ _ _ _ _ HT Hin Hin'). }
  eapply state_ok_set_step; [done|done|done| |by eapply compensated_ok_moves]. unfold resolved_ok. cbn [st_scheduledJobId with_step_state]. rewrite Hsch.
  split; [done|]. split; [exact Hjob|]. right. by exists r.
Qed.

Lemma compensate_done_ok claimed ran sent t0 now j x r s : state_ok claimed ran sent t0 s -> call_ok s.2 (PCompensateDone j x r) ->
  state_ok claimed ran sent t0 (compensateDone functionKind now x r s).
Proof.
  destruct s as [db t]. intros H Hc. unfold compensateDone. destruct x as [[wfId n g|]|]; try done. destruct (get_wf db wfId) as [wf|] eqn:Hwf; [|done].
  destruct (negb _); [done|]. destruct (find_step db wfId n) as [[sid row]|] eqn:Ef; [|done].
  destruct (called_row claimed ran sent t0 db t CbCompensateDone j _ r H Hc (or_intror eq_refl) wfId n g eq_refl sid row Ef) as (js & Hjs & Hin & Hg & (Hw & Hres & Hcomp) & Hsucc & Hpay).
  assert (Hhalt : forall e, state_ok claimed ran sent t0 (set_wf db wfId (set_state wf WFailed (wf_generation wf) (wf_result wf) (Some e) (wf_compensationTarget wf)), t)) by (intros; by apply state_ok_end).
  destruct r as [v|e|]; [|apply fire_wf_ok, Hhalt..]. apply state_ok_plain; [|done|done]. eapply state_ok_set_step; [done|done|by split; [|split; [|right]|..]|exact Hres|].
  intros _. split; [done|]. by exists j, js, v.
Qed.

Lemma next_compensation_in db wfId sid row : wdb_ok db -> next_compensation db wfId = Some (sid, row) -> get_step db sid = Some row /\ st_workflowId row = wfId /\ owes_compensation row = true.
Proof.
  intros Hdb. unfold next_compensation. rewrite steps_of_mine by done. match goal with |- context [js_sort ?c ?l] => pose proof (js_sort_perm c l) as Hp; destruct (js_sort c l) as [|x k] end; [done|].
  intros [= ->]. assert (Hin : (sid, row) ∈ (sid, row) :: k) by left. rewrite Hp in Hin. apply list_elem_of_filter in Hin as [Ho Hin]. apply mine_in in Hin; [|done]. tauto.
Qed.

Lemma compensate_ok claimed ran sent t0 now wfId s : state_ok claimed ran sent t0 s -> state_ok claimed ran sent t0 (compensate functionKind now wfId s).
Proof.
  destruct s as [db t]. intros H. unfold compensate. destruct (get_wf db wfId) as [wf|] eqn:Hwf; [|done]. destruct (negb _); [done|].
  pose proof (ri_db _ _ _ _ _ _ _ (st_rows _ _ _ _ _ _ _ H)) as Hdb. cbn in Hdb.
  destruct (next_compensation db wfId) as [[sid row]|] eqn:En.
  - apply next_compensation_in in En as (Hg & Hw & Ho); [|done]. assert (Hs : undoable row) by (unfold undoable, owes_compensation in *; destruct (is_success (st_state row)), (st_compensateFnPath row); done).
    unfold enqueueInternal. cbn [eo_idempotencyKey]. set (j := new_job _ _ _ _). destruct (insert_job t j) as [t' jid] eqn:Ei.
    assert (Ht' : t' = (insert_job t j).1) by by rewrite Ei.
    assert (H' : state_ok claimed ran sent t0 (db, t')).
    { destruct H as [HR HJ HW]. cbn [fst snd] in *. rewrite Ht'. split; [by apply rows_inv_insert| |done].
      eapply jobs_known_insert; [apply (ri_table _ _ _ _ _ _ _ HR)|done|]. exists sid, row, (wf_generation wf). cbn [jb_context j new_job eo_context jb_payload]. rewrite Hw. by split_and!. }
    assert (Hm : row_moves row (with_compensationJob row jid)) by (by split; [|split; [|right]|..]).
    pose proof (ri_rows _ _ _ _ _ _ _ (st_rows _ _ _ _ _ _ _ H') sid row Hg) as (_ & Hres & Hcomp).
    eapply state_ok_set_step; [done|done|done|exact Hres|by eapply compensated_ok_moves].
  - apply fire_wf_ok. apply state_ok_end; [done|done|by destruct (wf_compensationTarget wf) as [[]|]..].
Qed.

(** ** facade.ts and events.ts *)

Lemma wf_start_ok claimed ran sent t0 now path args s : state_ok claimed ran sent t0 s -> state_ok claimed ran sent t0 (wf_start now path args s).1.
Proof.
  destruct s as [db t]. intros H. unfold wf_start. set (wf := WfRow _ _ _ _ _ _ _ _ _). pose proof (state_ok_insert_wf _ _ _ _ _ _ _ _ wf H eq_refl) as H'.
  destruct (insert_wf db wf) as [db' id]. by apply (state_ok_plain _ _ _ _ _ t).
Qed.

Lemma cancel_steps_ok claimed ran sent t0 now db rs t t' : state_ok claimed ran sent t0 (db, t) -> cancel_steps now rs t = Some t' -> state_ok claimed ran sent t0 (db, t').
Proof.
  revert t. induction rs as [|r rs IH]; intros t H; cbn [cancel_steps]; [by intros [= <-]|].
  intros (t1 & H1 & H2)%bind_Some. apply (IH t1); [|done]. unfold cancel_step in H1. apply bind_Some in H1 as (t2 & Ha & Hb).
  assert (H' : state_ok claimed ran sent t0 (db, t2)).
  { destruct (st_scheduledJobId r); [|by injection Ha as <-]. destruct (is_pending _); [by eapply state_ok_cancel|by injection Ha as <-]. }
  destruct (st_compensationJobId r); [|by injection Hb as <-]. destruct (st_compensated r); [by injection Hb as <-|by eapply state_ok_cancel].
Qed.

Lemma wf_cancel_ok claimed ran sent t0 now wfId c s s' : state_ok claimed ran sent t0 s -> wf_cancel functionKind now wfId c s = Some (Ok s') ->
  state_ok claimed ran sent t0 s'.
Proof.
  destruct s as [db t]. intros H. unfold wf_cancel. destruct (get_wf db wfId) as [wf|] eqn:Hwf; [|done]. destruct (negb (bool_decide _)); [by intros [= <-]|].
  intros (t1 & H1 & H2)%bind_Some. assert (H' : state_ok claimed ran sent t0 (db, t1)) by (by eapply cancel_steps_ok).
  destruct (_ || _); injection H2 as <-.
  - apply fire_wf_ok. by apply state_ok_end.
  - apply (state_ok_plain _ _ _ _ _ t1); [|done|done]. by apply state_ok_end.
Qed.

Lemma state_ok_sent claimed ran sent sent' t0 s : state_ok claimed ran sent t0 s -> (forall x, x ∈ sent -> x ∈ sent') -> state_ok claimed ran sent' t0 s.
Proof.
  intros [[H1 H2 H3 H4 H5 H6] HJ HW] Hs. split; [split|done|done]; try done. intros sid r Hr. destruct (H6 sid r Hr) as (Hw & Hres & Hc). split_and!; [done| |done].
  unfold resolved_ok in *. destruct (st_scheduledJobId r); [done|]. destruct Hres as [Hk [Hp|(v & Hv & Hin)]]; (split; [done|]); [by left|right]. exists v. split; [done|by apply Hs].
Qed.

Lemma state_ok_set_event claimed ran sent t0 db t id e : state_ok claimed ran sent t0 (db, t) -> state_ok claimed ran sent t0 (set_event db id e, t).
Proof. intros [[H1 [] H3 H4 H5 H6] HJ HW]. by split; [split; [|split|..]|..]. Qed.

Lemma send_event_ok claimed ran sent t0 now wfId name p s : state_ok claimed ran sent t0 s -> (wfId, name, p) ∈ sent ->
  state_ok claimed ran sent t0 (sendEventImpl now wfId name p s).
Proof.
  destruct s as [db t]. intros H Hin. unfold sendEventImpl. destruct (base.filter _ (wd_events db)) as [|[eid e] es]; [done|].
  set (db1 := set_event db eid _). assert (H1 : state_ok claimed ran sent t0 (db1, t)) by (by apply state_ok_set_event).
  apply (state_ok_plain _ _ _ _ _ t); [|done|done]. destruct (base.filter _ (steps_of db1 wfId)) as [|[sid row] rs] eqn:Ef; [done|].
  pose proof (st_rows _ _ _ _ _ _ _ H1) as HR. cbn [fst snd] in HR. pose proof (ri_db _ _ _ _ _ _ _ HR) as Hdb.
  rewrite steps_of_mine in Ef by done. apply filter_head in Ef as [Hm Haw]. apply mine_in in Hm as [Hg Hw]; [|done]. cbn [snd] in Haw.
  apply andb_true_iff in Haw as [[Hk Hn]%andb_true_iff Hp]. apply bool_decide_eq_true in Hk, Hn. destruct (ri_rows _ _ _ _ _ _ _ HR sid row Hg) as (Hwf & Hres & Hc).
  assert (Hpend : st_state row = StPending) by (by destruct (st_state row)).
  assert (Hmv : row_moves row (with_step_state row (StSuccess p))) by (by split; [|split; [|left]|..]).
  eapply state_ok_set_step; [done|done|done| |by eapply compensated_ok_moves]. unfold resolved_ok in *. cbn [st_scheduledJobId with_step_state st_kind st_state st_workflowId st_name] in *.
  destruct (st_scheduledJobId row); [by destruct Hres|]. split; [done|right]. exists p. split; [done|]. by rewrite Hw, Hn.
Qed.

Lemma internal_ok claimed ran sent t0 now p s s' : state_ok claimed ran sent t0 s -> call_ok s.2 p ->
  run_internal workflows maxParallelism functionKind now p s = Some (Ok s') -> state_ok claimed ran sent t0 s'.
Proof.
  intros H Hc. destruct p; cbn [run_internal]; try done; intros [= <-] || intros [= Ha].
  - done.
  - by eapply advance_ok.
  - by apply compensate_ok.
  - by eapply step_done_ok.
  - by eapply compensate_done_ok.
Qed.
End txns.
