(* ===== verification/WorkflowRuns.v ===== *)
(** What any run of the workflow system comes to, whatever claims, crashes, late
    completions, sweeps, cancelations and events come in between. *)
From Stdlib Require Import ZArith Lia.
From stdpp Require Import base list sets strings.
From S2P Require Import Prelude JsBase JsText Values Scheduler SchedulerRuns Workflow WorkflowReplay WorkflowLedger WorkflowTxns.

Section runs.
Context (workflows : jsstr -> option (value -> whandler)) (maxParallelism : nat) (functionKind : jsstr -> job_kind).
Notation state_ok := (state_ok workflows functionKind).
Notation wstep := (wstep workflows maxParallelism functionKind).
Notation wsteps := (wsteps workflows maxParallelism functionKind).

Definition flight_ok (ran : list (payload * value)) (t : wjobs) (fl : @flight payload) : Prop :=
  exists job, get_job t (fl_job fl) = Some job /\ jb_payload job = fl_payload fl /\ forall v, fl_result fl = Some (JrSuccess v) -> (fl_payload fl, v) ∈ ran.

Record winv (w : wworld) : Prop := {
  wi_run : srun_ok wf_callback (ww_run w);
  wi_state : state_ok (sr_claimed (ww_run w)) (ww_ran w) (ww_sent w) (sr_jobs (ww_run w)) (wst_of w);
  wi_flights f fl : jm_get (sr_flights (ww_run w)) f = Some fl -> flight_ok (ww_ran w) (sr_jobs (ww_run w)) fl
}.

Lemma state_ok_base claimed ran sent t0 t1 s : state_ok claimed ran sent t0 s -> keeps t1 s.2 -> state_ok claimed ran sent t1 s.
Proof. intros [[] HJ HW] Hk. split; [by split|done|done]. Qed.
Lemma state_ok_rebase claimed ran sent t0 s : state_ok claimed ran sent t0 s -> state_ok claimed ran sent s.2 s.
Proof. intros H. eapply state_ok_base; [done|apply keeps_refl]. Qed.
Lemma state_ok_keeps claimed ran sent t0 s : state_ok claimed ran sent t0 s -> keeps t0 s.2.
Proof. intros H. apply H. Qed.
Lemma state_ok_ran claimed ran ran' sent t0 s : state_ok claimed ran sent t0 s -> (forall x, x ∈ ran -> x ∈ ran') -> state_ok claimed ran' sent t0 s.
Proof.
  intros [[] HJ HW] Hr. split; [split|done|done]; try done. intros j v Hin. destruct (ri_ran j v Hin) as (job & Hj & Hx). exists job. split; [done|by apply Hr].
Qed.

Lemma flight_ok_keeps ran t t' fl : keeps t t' -> flight_ok ran t fl -> flight_ok ran t' fl.
Proof. intros K (job & Hj & Hp & Hr). destruct (K _ _ Hj) as (job' & Hj' & E). exists job'. unfold job_core in E. split_and!; [done|congruence|done]. Qed.
Lemma flight_ok_ran ran ran' t fl : (forall x, x ∈ ran -> x ∈ ran') -> flight_ok ran t fl -> flight_ok ran' t fl.
Proof. intros H (job & Hj & Hp & Hr). exists job. split_and!; [done|done|]. intros v Hv. by apply H, Hr. Qed.

(** A transaction: only the tables change. *)
Lemma winv_txn w s sent : winv w -> (forall x, x ∈ ww_sent w -> x ∈ sent) ->
  state_ok (sr_claimed (ww_run w)) (ww_ran w) sent (sr_jobs (ww_run w)) s ->
  winv (WWorld s.1 (with_jobs (ww_run w) s.2) (ww_ran w) sent).
Proof.
  intros [Hrun Hst Hfl] Hs H. split; cbn.
  - split; [apply H|apply Hrun].
  - apply state_ok_rebase in H. by destruct s.
  - intros f fl Hf. eapply flight_ok_keeps; [by eapply state_ok_keeps|by eapply Hfl].
Qed.

(** A step of the scheduler: the rows stay. *)
Lemma winv_sched w x : winv w -> srun_ok wf_callback x ->
  state_ok (sr_claimed x) (ww_ran w) (ww_sent w) (sr_jobs (ww_run w)) (ww_db w, sr_jobs x) ->
  (forall f fl, jm_get (sr_flights x) f = Some fl -> jm_get (sr_flights (ww_run w)) f = Some fl \/ flight_ok (ww_ran w) (sr_jobs x) fl) ->
  winv (WWorld (ww_db w) x (ww_ran w) (ww_sent w)).
Proof.
  intros [Hrun Hst Hfl] Hx H Hf. split; cbn; [done|by apply state_ok_rebase in H|].
  intros f fl Hg. destruct (Hf f fl Hg) as [Ho|]; [|done]. eapply flight_ok_keeps; [apply (state_ok_keeps _ _ _ _ _ H)|by eapply Hfl].
Qed.

Lemma jm_get_snoc {V} (m : list (Z * V)) k v i x : jm_get (m ++ [(k, v)]) i = Some x -> jm_get m i = Some x \/ x = v.
Proof. induction m as [|[a b] m IH]; cbn; case_decide; [intros [= ->]; by right|done|by left|done]. Qed.

Lemma claim_winv w now id : winv w -> winv (wstep w (WClaim now id)).
Proof.
  intros H. pose proof H as [Hrun Hst Hfl]. pose proof (srun_step_ok wf_callback (ww_run w) (SClaim now id) Hrun) as Hrun'. apply winv_sched; [done|done|..].
  - pose proof (claim_evolves wf_callback now id (sr_jobs (ww_run w))) as He. cbn [srun_step]. pose proof (so_table _ _ Hrun') as HT. cbn [srun_step] in HT.
    destruct (claim now id (sr_jobs (ww_run w))) as [t [p|]]; cbn in *; (eapply state_ok_evolves; [exact He|exact HT|by intros ? ? ?%not_elem_of_nil|exact Hst]).
  - intros f fl. pose proof (claim_evolves wf_callback now id (sr_jobs (ww_run w))) as [K _ _]. cbn [srun_step]. destruct (claim now id (sr_jobs (ww_run w))) as [t [p|]] eqn:Ec; cbn; [|by left].
    intros [Hg | ->]%jm_get_snoc; [by left|right]. unfold claim in Ec. destruct (get_job (sr_jobs (ww_run w)) id) as [j|] eqn:Ej; [|done].
    destruct (bool_decide _); [|done]. injection Ec as <- <-. destruct (K _ _ Ej) as (j' & Hj' & E). exists j'. unfold job_core in E. cbn in *. split_and!; [done|congruence|done].
Qed.

Lemma complete_winv w now k f : winv w -> winv (wstep w (WComplete now k f)).
Proof.
  intros H. pose proof H as [Hrun Hst Hfl]. pose proof (srun_step_ok wf_callback (ww_run w) (SComplete now k f) Hrun) as Hrun'. apply winv_sched; [done|done|..].
  - pose proof (so_table _ _ Hrun') as HT. cbn [srun_step] in *. destruct (jm_get (sr_flights (ww_run w)) f) as [[id p [r|]]|] eqn:Ef; [|exact Hst..].
    destruct (complete_evolves wf_callback (sr_claimed (ww_run w)) now k id r (sr_jobs (ww_run w)) (so_table _ _ Hrun)) as (l & He & Hl).
    cbn in *. eapply state_ok_evolves; [exact He|exact HT| |exact Hst]. intros j v Hin. destruct Hl as [-> | ->]; [by apply not_elem_of_nil in Hin|].
    apply list_elem_of_singleton in Hin. injection Hin as -> Hr. destruct r as [v'|]; [|done]. injection Hr as ->.
    destruct (Hfl f _ Ef) as (job & Hj & Hp & Hran). exists job. cbn in *. split; [done|]. rewrite Hp. by apply Hran.
  - intros g fl. cbn [srun_step]. destruct (jm_get (sr_flights (ww_run w)) f) as [[id p [r|]]|] eqn:Ef; [|by left..]. cbn. rewrite jm_get_delete. case_decide; [done|by left].
Qed.

Lemma reclaim_winv w now : winv w -> winv (wstep w (WReclaim now)).
Proof.
  intros H. pose proof H as [Hrun Hst Hfl]. pose proof (srun_step_ok wf_callback (ww_run w) (SReclaim now) Hrun) as Hrun'. apply winv_sched; [done|done| |by left].
  destruct (reclaim_evolves wf_callback (sr_claimed (ww_run w)) now (sr_jobs (ww_run w)) (so_table _ _ Hrun)) as (l & He & Hl).
  eapply state_ok_evolves; [exact He|apply Hrun'|by apply no_success_ran|exact Hst].
Qed.

Lemma exec_winv w now f r : winv w -> winv (wstep w (WExec now f r)).
Proof.
  intros H. pose proof H as [Hrun Hst Hfl]. cbn [Workflow.wstep]. unfold exec. destruct (jm_get (sr_flights (ww_run w)) f) as [[id p [r'|]]|] eqn:Ef; [done| |done].
  destruct (Hfl f _ Ef) as (job & Hj & Hp & _). cbn in Hj, Hp.
  assert (Hok : forall res ran', (forall x, x ∈ ww_ran w -> x ∈ ran') -> (forall v, res = JrSuccess v -> (p, v) ∈ ran') -> forall s,
    state_ok (sr_claimed (ww_run w)) (ww_ran w) (ww_sent w) (sr_jobs (ww_run w)) s ->
    winv (WWorld s.1 (with_jobs (srun_step wf_callback (ww_run w) (SExec f res)) s.2) ran' (ww_sent w))).
  { intros res ran' Hran Hres s Hs. pose proof (srun_step_ok wf_callback (ww_run w) (SExec f res) Hrun) as Hrun'. cbn [srun_step] in *. rewrite Ef in *. split; cbn.
    - split; [apply Hs|apply Hrun'].
    - destruct s. exact (state_ok_rebase _ _ _ _ _ (state_ok_ran _ _ ran' _ _ _ Hs Hran)).
    - intros g fl. rewrite jm_get_set. pose proof (state_ok_keeps _ _ _ _ _ Hs) as Hk. case_decide.
      + intros [= <-]. destruct (Hk _ _ Hj) as (job' & Hj' & E). unfold job_core in E. exists job'. cbn. split_and!; [done|congruence|]. intros v [= ->]. by apply Hres.
      + intros Hg. eapply flight_ok_keeps, flight_ok_ran; [done|done|by eapply Hfl]. }
  assert (Hsame : forall res ran', (forall x, x ∈ ww_ran w -> x ∈ ran') -> (forall v, res = JrSuccess v -> (p, v) ∈ ran') ->
    winv (WWorld (ww_db w) (srun_step wf_callback (ww_run w) (SExec f res)) ran' (ww_sent w))).
  { intros res ran' H1 H2. specialize (Hok res ran' H1 H2 _ Hst). cbn [srun_step] in *. by rewrite Ef in *. }
  destruct r as [v|e b]; [|by apply Hsame]. destruct (run_internal _ _ _ now p (wst_of w)) as [[s|e]|] eqn:Er.
  - apply Hok; [set_solver|intros v' [= <-]; set_solver|]. eapply internal_ok; [exact Hst| |exact Er].
    pose proof (ri_calls _ _ _ _ _ _ _ (st_rows _ _ _ _ _ _ _ Hst) id job Hj) as Hc. by rewrite Hp in Hc.
  - by apply Hsame.
  - apply Hsame; [set_solver|]. intros v' [= <-]. set_solver.
Qed.

Lemma wstep_inv w l : winv w -> winv (wstep w l).
Proof.
  intros H. pose proof H as [Hrun Hst Hfl]. destruct l as [now path args|now wf c|now wf name p|now path args o|now id|now id|now f r|now k f|f|now].
  - cbn [Workflow.wstep]. apply (winv_txn w); [done|done|]. by apply wf_start_ok.
  - cbn [Workflow.wstep]. destruct (wf_cancel functionKind now wf c (wst_of w)) as [[s|]|] eqn:E; [|done..]. apply (winv_txn w); [done|done|]. by eapply wf_cancel_ok.
  - cbn [Workflow.wstep]. apply (winv_txn w); [done|set_solver|]. apply send_event_ok; [|set_solver]. eapply state_ok_sent; [done|set_solver].
  - cbn [Workflow.wstep]. apply winv_sched; [done|by apply srun_step_ok| |by left]. cbn. apply state_ok_enqueue; [done|done|]. unfold quiet. cbn. by destruct (eo_onComplete o).
  - cbn [Workflow.wstep]. apply winv_sched; [done|by apply srun_step_ok|..]; cbn [srun_step]; destruct (cancel wf_callback now id (sr_jobs (ww_run w))) eqn:E; try (by left); [eapply state_ok_cancel; [exact Hst|exact E]|done].
  - by apply claim_winv.
  - by apply exec_winv.
  - by apply complete_winv.
  - cbn [Workflow.wstep]. apply winv_sched; [done|by apply srun_step_ok|done|]. intros g fl. cbn. rewrite jm_get_delete. case_decide; [done|by left].
  - by apply reclaim_winv.
Qed.

Lemma winv_new : winv wworld_new.
Proof.
  assert (HT : table_ok wf_callback [] (Jobs [] 0 [] : wjobs)) by apply (srun_empty_ok wf_callback). split; [apply srun_empty_ok| |done]. split; [|done|done].
  split; [exact HT| |apply keeps_refl|done|by intros ? ? ?%not_elem_of_nil|done]. split; try done; try constructor; by intros ? ?%not_elem_of_nil.
Qed.
Lemma wsteps_inv w ls : winv w -> winv (wsteps w ls).
Proof. revert w. induction ls as [|l ls IH]; intros w H; [done|]. by apply IH, wstep_inv. Qed.

(** * What a run comes to *)

Definition call_payload (c : step_call) : payload :=
  match c with CMutation p a _ _ | CQuery p a | CAction p a _ _ => PCall p a | CSleep _ | CSleepUntil _ => PSleep | CWaitForEvent _ _ => PSleep end.

(** Job [j] was enqueued for the [i]th step of workflow [id], to run [p]. *)
Definition job_of_step (t : wjobs) (id : Z) (i : nat) (j : Z) (p : payload) : Prop :=
  exists job g, get_job t j = Some job /\ jb_onComplete job = Some CbStepDone /\ jb_context job = Some (StepContext id i g) /\ jb_payload job = p.

(** The [i]th step of workflow [id], which call [c] asks for, came to [p]: its job
    ran the function of the call and reported what it returned, or ended without
    a result; an event was sent. *)
Definition performed (w : wworld) (id : Z) (i : nat) (c : step_call) (p : promise) : Prop :=
  let t := sr_jobs (ww_run w) in
  match p with
  | PWaiting => False
  | PResolved v =>
      match c with
      | CWaitForEvent name _ => (id, name, v) ∈ ww_sent w
      | _ => (call_payload c, v) ∈ ww_ran w /\ exists j, job_of_step t id i j (call_payload c) /\ (j, OcSuccess v) ∈ jt_fired t
      end
  | PRejected e => exists j r, job_of_step t id i j (call_payload c) /\ (j, r) ∈ jt_fired t /\ outcome_of r = StFailed e
  end.

Lemma call_key_payload c r : call_key c = Some (row_key r) ->
  match c with
  | CWaitForEvent name _ => st_kind r = KWaitForEvent /\ st_name r = name
  | _ => st_kind r <> KWaitForEvent /\ step_payload (st_kind r) (st_name r) (st_args r) = call_payload c
  end.
Proof. unfold row_key. destruct c as [p a m u|p a|p a m u|ms|ts|name []]; cbn; intros [= H1 H2 H3]; rewrite <-H2, <-?H1, <-?H3; by split. Qed.

Lemma recorded_performed w id i c p : winv w -> p <> PWaiting -> recorded (journal_of (ww_db w) id) i c p -> performed w id i c p.
Proof.
  intros [Hrun [HR _ _] _] Hp (r & Hr & Hk & Hs). cbn [fst snd wst_of] in HR. apply journal_lookup in Hr as (sid & Hg & Hw & Hn); [|apply HR].
  destruct (ri_rows _ _ _ _ _ _ _ HR sid r Hg) as (_ & Hres & _). apply call_key_payload in Hk. unfold resolved_ok in Hres. destruct (st_scheduledJobId r) as [j|].
  - destruct Hres as (Hkind & (job & g & Hj & Hc) & Hst). assert (Hc' : step_payload (st_kind r) (st_name r) (st_args r) = call_payload c) by (by destruct c; destruct Hk).
    destruct Hst as [Hst|(x & Hx & Hst)]; [rewrite Hst in Hs; by subst p|]. unfold job_core, step_job in Hc. injection Hc as Hc1 Hc2 Hc3 Hc4 Hc5.
    assert (Hjob : job_of_step (sr_jobs (ww_run w)) id i j (call_payload c)) by (exists job, g; split_and!; congruence). rewrite Hst in Hs. destruct x as [v|e|]; cbn in Hs; subst p; cbn.
    + destruct (ri_ran _ _ _ _ _ _ _ HR j v Hx) as (job' & Hj' & Hran). assert (job' = job) as -> by congruence. rewrite Hc1, Hc' in Hran. destruct c; try (split; [done|by exists j]). by destruct Hk.
    + by exists j, (OcFailed e).
    + by exists j, OcCanceled.
  - destruct Hres as (Hkind & [Hst|(v & Hst & Hin)]); rewrite Hst in Hs; subst p; [done|]. cbn. destruct c; try (by destruct Hk). destruct Hk as [_ <-]. by subst id.
Qed.

(** C17: a workflow that completed is a direct run of its handler: every step it
    took has the outcome that the job of that very step had, a result being what
    a run of the function returned for the arguments the handler gave, or the
    payload of an event that was sent; and the workflow's result is what the
    handler makes of them.  Crashes, repeated polls, late completions, sweeps and
    cancelations do not show.  The handler is deterministic, and where steps run
    in parallel it does not look at which of their errors it got. *)
Theorem completed_workflow_is_direct_run ls id wf h v :
  let w := wsteps wworld_new ls in
  get_wf (ww_db w) id = Some wf -> workflows (wf_fnPath wf) = Some h -> steady (h (wf_args wf)) ->
  wf_state_of wf = WCompleted -> wf_result wf = Some v ->
  direct (performed w id) (h (wf_args wf)) 0 (inl (Some v)).
Proof.
  intros w Hwf Hh Hst Hc Hv. pose proof (wsteps_inv _ ls winv_new) as Hinv. fold w in Hinv. pose proof (st_wfs _ _ _ _ _ _ _ (wi_state _ Hinv) id wf Hwf h Hh Hst) as Hok.
  rewrite Hc in Hok. destruct Hok as (v' & Hv' & Hd). assert (v' = v) as -> by congruence. eapply direct_mono; [|exact Hd]. intros i c p Hp. by apply recorded_performed.
Qed.

(** A step has one job, however often the handler is replayed, and the job
    runs at most as often as the step's [maxAttempts] allows: an action without
    one runs at most once. *)
Theorem step_job_runs_bounded ls sid r j p :
  let w := wsteps wworld_new ls in
  get_step (ww_db w) sid = Some r -> job_of_step (sr_jobs (ww_run w)) (st_workflowId r) (st_stepNumber r) j p ->
  st_scheduledJobId r = Some j /\
  times j (sr_ran (ww_run w)) <= Z.max 1 (default (default_failures (step_job_kind functionKind (st_kind r) (st_name r))) (st_maxAttempts r)).
Proof.
  intros w Hg (job & g & Hj & Ho & Hx & Hp). pose proof (wsteps_inv _ ls winv_new) as [Hrun [HR HJ _] _]. fold w in Hrun, HR, HJ. cbn [fst snd wst_of] in *.
  pose proof (HJ j job Hj) as Hk. unfold known_job in Hk. rewrite Ho in Hk. destruct Hk as (sid' & r' & g' & Hg' & Hx' & Hsch). rewrite Hx in Hx'. injection Hx' as E1 E2 _.
  destruct (mine_unique _ sid' r' sid r (ri_db _ _ _ _ _ _ _ HR) Hg' Hg) as [-> ->]; [done|done|]. split; [done|].
  destruct (ri_rows _ _ _ _ _ _ _ HR sid r Hg) as (_ & Hres & _). unfold resolved_ok in Hres. rewrite Hsch in Hres. destruct Hres as (_ & (job' & g2 & Hj' & Hc) & _).
  assert (job' = job) as -> by congruence. unfold job_core, step_job in Hc. injection Hc as _ _ <- _ _.
  destruct Hrun as [[HJo _] HRan]. specialize (HRan j). pose proof (counts_bound _ _ _ (jo_counts _ _ HJo _ _ Hj)). assert (0 <= waiting j (sr_flights (ww_run w))) by (unfold waiting; lia). lia.
Qed.

(** C19: a step that counts as compensated succeeded, and its compensation ran to
    the end with the step's own arguments and result. *)
Theorem compensated_step_was_undone ls sid r :
  let w := wsteps wworld_new ls in
  get_step (ww_db w) sid = Some r -> st_compensated r = true ->
  exists v u, st_state r = StSuccess v /\ st_compensateFnPath r <> None /\
    (PCall (default [] (st_compensateFnPath r)) (VObject [(js "args", st_args r); (js "result", v)]), u) ∈ ww_ran w.
Proof.
  intros w Hg Hc. pose proof (wsteps_inv _ ls winv_new) as [_ [HR _ _] _]. fold w in HR. cbn [fst snd wst_of] in HR.
  destruct (ri_rows _ _ _ _ _ _ _ HR sid r Hg) as (_ & _ & Hcomp). destruct (Hcomp Hc) as ([Hs Hpath] & j & job & u & Hj & Hp & Hin).
  destruct (st_state r) as [|v|e] eqn:Est; try done. exists v, u. split_and!; [done|done|].
  destruct (ri_ran _ _ _ _ _ _ _ HR j u Hin) as (job' & Hj' & Hran). assert (job' = job) as -> by congruence. rewrite Hp in Hran. unfold undo_payload, undo_args in Hran.
  by rewrite Est in Hran.
Qed.
End runs.

(** * Concrete runs *)

(** Charges, then reserves and sleeps in parallel, then waits for a go. *)
Definition order_handler (args : value) : whandler :=
  HAwait [CAction (js "charge") args None (Some (js "refund"))] (fun r =>
  match r with
  | inr [receipt] =>
      HAwait [CMutation (js "reserve") receipt None None; CSleep 1000] (fun r =>
      match r with
      | inr _ => HAwait [CWaitForEvent (js "go") false] (fun r => match r with inr [v] => HReturn (Some v) | _ => HThrow (js "no go") end)
      | inl _ => HThrow (js "not reserved")
      end)
  | _ => HThrow (js "not charged")
  end).
(** Books, then gives up. *)
Definition trip_handler (args : value) : whandler :=
  HAwait [CAction (js "book") args None (Some (js "unbook"))] (fun _ => HThrow (js "changed my mind")).

Definition shop (path : jsstr) : option (value -> whandler) :=
  if decide (path = js "order") then Some order_handler else if decide (path = js "trip") then Some trip_handler else None.
Definition shop_kind (path : jsstr) : job_kind := if decide (path = js "reserve") then JMutation else JAction.

(** Job [id] is claimed, runs and is completed, as flight [f]. *)
Definition run_job (now id f : Z) (v : value) : list wlabel := [WClaim now id; WExec now f (JrSuccess v); WComplete now 0 f].

(** The first poll dies after its transaction, and is swept and repeated. *)
Definition order_run : list wlabel :=
  [WStart 0 (js "order") (VBigint 0); WClaim 0 0; WExec 0 0 (JrSuccess VNull); WCrash 0; WReclaim 40000] ++ run_job 40001 0 1 VNull ++
  run_job 40002 1 2 (VBigint 7) ++ run_job 40003 2 3 VNull ++ run_job 40004 3 4 VNull ++ run_job 40005 4 5 (VBool true) ++ run_job 41005 5 6 VNull ++
  run_job 41006 6 7 VNull ++ run_job 41007 7 8 VNull ++ run_job 41008 8 9 VNull ++ [WSend 50000 0 (js "go") (VBool false)] ++ run_job 50001 10 10 VNull.
Definition trip_run : list wlabel :=
  [WStart 0 (js "trip") (VBigint 0)] ++ run_job 1 0 0 VNull ++ run_job 2 1 1 (VBigint 7) ++ run_job 3 2 2 VNull ++ run_job 4 3 3 VNull ++ run_job 5 4 4 VNull ++
  run_job 6 5 5 (VBool true) ++ run_job 7 6 6 VNull ++ run_job 8 7 7 VNull.
Notation shop_world ls := (wsteps shop 16 shop_kind wworld_new ls).

Lemma completed_workflow_is_direct_run_witness : exists wf,
  let w := shop_world order_run in
  get_wf (ww_db w) 0 = Some wf /\ shop (wf_fnPath wf) = Some order_handler /\ steady (order_handler (wf_args wf)) /\
  wf_state_of wf = WCompleted /\ wf_result wf = Some (VBool false) /\
  direct (performed w 0) (order_handler (wf_args wf)) 0 (inl (Some (VBool false))).
Proof.
  assert (Hst : forall args, steady (order_handler args)).
  { intros args. cbn. split; [by left|]. intros [e|[|v [|]]]; cbn; try done. split; [by right|]. intros [e|vs]; cbn; [done|]. split; [by left|]. by intros [e|[|? [|]]]. }
  set (wf := WfRow (js "order") (VBigint 0) WCompleted 0 (Some (VBool false)) None None None None).
  assert (Hwf : get_wf (ww_db (shop_world order_run)) 0 = Some wf) by (vm_compute; reflexivity).
  exists wf. intros w. split; [exact Hwf|]. split; [reflexivity|]. split; [apply Hst|]. split; [reflexivity|]. split; [reflexivity|].
  apply (completed_workflow_is_direct_run shop 16 shop_kind order_run 0 wf order_handler); [exact Hwf|reflexivity|apply Hst|reflexivity|reflexivity].
Defined.

(** The charge, which is an action, has a budget of one run. *)
Lemma step_job_runs_bounded_witness : exists r,
  let w := shop_world order_run in
  get_step (ww_db w) 0 = Some r /\ job_of_step (sr_jobs (ww_run w)) 0 0 1 (PCall (js "charge") (VBigint 0)) /\ st_scheduledJobId r = Some 1 /\
  times 1 (sr_ran (ww_run w)) <= Z.max 1 (default (default_failures (step_job_kind shop_kind (st_kind r) (st_name r))) (st_maxAttempts r)).
Proof.
  assert (Hj : job_of_step (sr_jobs (ww_run (shop_world order_run))) 0 0 1 (PCall (js "charge") (VBigint 0))).
  { eexists _, _. split; [vm_compute; reflexivity|]. do 2 (split; [reflexivity|]). reflexivity. }
  eexists. intros w. split; [vm_compute; reflexivity|]. split; [exact Hj|].
  eapply (step_job_runs_bounded shop 16 shop_kind order_run 0); [vm_compute; reflexivity|exact Hj].
Defined.

Lemma compensated_step_was_undone_witness : exists r v u,
  let w := shop_world trip_run in
  get_step (ww_db w) 0 = Some r /\ st_compensated r = true /\
  st_state r = StSuccess v /\ st_compensateFnPath r <> None /\
    (PCall (default [] (st_compensateFnPath r)) (VObject [(js "args", st_args r); (js "result", v)]), u) ∈ ww_ran w.
Proof.
  edestruct (compensated_step_was_undone shop 16 shop_kind trip_run 0) as (v & u & H); [vm_compute; reflexivity|reflexivity|].
  eexists _, v, u. intros w. split; [vm_compute; reflexivity|]. split; [reflexivity|]. exact H.
Defined.

(** ** Findings *)

(** A fan-out fails on one step while another is still in flight: that one
    succeeds after the workflow has failed, and its compensation never runs. *)
Definition pair_handler (args : value) : whandler :=
  HAwait [CAction (js "a") args None (Some (js "undo a")); CAction (js "b") args None (Some (js "undo b"))] (fun r =>
    match r with inr _ => HReturn (Some VNull) | inl e => HThrow e end).
Definition fail_job (now id f : Z) (e : jsstr) : list wlabel := [WClaim now id; WExec now f (JrFailed e true); WComplete now 0 f].
Definition pair_world (ls : list wlabel) : wworld := wsteps (fun _ => Some pair_handler) 16 shop_kind wworld_new ls.
Definition straggler_run : list wlabel :=
  [WStart 0 (js "pair") VNull] ++ run_job 1 0 0 VNull ++ fail_job 2 2 1 (js "out of stock") ++ run_job 3 3 2 VNull ++ run_job 4 4 3 VNull ++
  run_job 5 1 4 (VBigint 1) ++ run_job 6 5 5 VNull ++ run_job 7 6 6 VNull.

Lemma straggler_is_not_compensated :
  let w := pair_world straggler_run in
  wf_state_of <$> get_wf (ww_db w) 0 = Some WFailed /\
  (exists r, get_step (ww_db w) 0 = Some r /\ owes_compensation r = true /\ st_compensationJobId r = None) /\
  forallb (fun r => job_terminal (jb_state r.2)) (jt_rows (sr_jobs (ww_run w))) = true.
Proof. vm_compute. split; [done|]. split; [eexists; split; [reflexivity|split; reflexivity]|done]. Qed.

(** A fan-out cap of zero is accepted: the first poll dispatches none of its new
    steps, succeeds and asks for no other poll, and the workflow stays running
    with no step and no job that has not ended. *)
Lemma zero_cap_strands_workflow :
  let w := wsteps (fun _ => Some pair_handler) 0 shop_kind wworld_new ([WStart 0 (js "pair") VNull] ++ run_job 1 0 0 VNull) in
  wf_state_of <$> get_wf (ww_db w) 0 = Some WRunning /\ wd_steps (ww_db w) = [] /\
  forallb (fun r => bool_decide (jb_state r.2 = Succeeded)) (jt_rows (sr_jobs (ww_run w))) = true /\ length (jt_rows (sr_jobs (ww_run w))) = 1%nat.
Proof. vm_compute. done. Qed.

(** The driver dies between the transaction of [_compensate] and its completion:
    the repeated [_compensate] does not look at [compensationJobId], and the
    compensation runs twice. *)
Definition twice_run : list wlabel :=
  [WStart 0 (js "trip") (VBigint 0)] ++ run_job 1 0 0 VNull ++ run_job 2 1 1 (VBigint 7) ++ run_job 3 2 2 VNull ++ run_job 4 3 3 VNull ++
  [WClaim 5 4; WExec 5 4 (JrSuccess VNull); WCrash 4; WReclaim 40000] ++ run_job 40001 4 5 VNull ++ run_job 40002 5 6 VNull ++ run_job 40003 6 7 VNull.

Definition calls (path : jsstr) (p : payload) : bool := match p with PCall q _ => bool_decide (q = path) | _ => false end.
Lemma compensation_runs_twice :
  let w := shop_world twice_run in
  length (base.filter (fun r => calls (js "unbook") r.1 = true) (ww_ran w)) = 2%nat.
Proof. vm_compute. reflexivity. Qed.

(** A handler that returns nothing: its poll can not write the result, dies after
    its retries, and leaves the workflow running with no job. *)
Definition silent_world (ls : list wlabel) : wworld := wsteps (fun _ => Some (fun _ => HReturn None)) 16 shop_kind wworld_new ls.
Definition silent_run : list wlabel :=
  [WStart 0 (js "silent") VNull] ++ run_job 1 0 0 VNull ++ run_job 1000 0 1 VNull ++ run_job 3000 0 2 VNull ++ run_job 9000 0 3 VNull.

Lemma undefined_workflow_result_stalls :
  let w := silent_world silent_run in
  wf_state_of <$> get_wf (ww_db w) 0 = Some WRunning /\ (jb_state ∘ snd) <$> jt_rows (sr_jobs (ww_run w)) = [FailedJob].
Proof. vm_compute. by split. Qed.

(** Two parallel steps fail in different polls: the handler, which looks at the
    error, sees another error at the second poll, and its next step does not
    match the journal. *)
Definition cause_handler (args : value) : whandler :=
  HAwait [CAction (js "a") args None None; CAction (js "b") args None None] (fun r =>
    match r with inr _ => HReturn (Some VNull) | inl e => HAwait [CMutation (js "reserve") (VString e) None None] (fun r => match r with inl e => HThrow e | inr _ => HReturn (Some VNull) end) end).
Definition cause_world (ls : list wlabel) : wworld := wsteps (fun _ => Some cause_handler) 16 shop_kind wworld_new ls.
Definition cause_run : list wlabel :=
  [WStart 0 (js "cause") VNull] ++ run_job 1 0 0 VNull ++ fail_job 2 2 1 (js "b failed") ++ run_job 3 3 2 VNull ++ run_job 4 4 3 VNull ++
  fail_job 5 1 4 (js "a failed") ++ run_job 6 6 5 VNull ++ run_job 7 7 6 VNull.

Lemma later_failure_breaks_replay :
  exists r n, status (ww_db (cause_world cause_run)) 0 = Some (WFailed, None, Some (mismatch_error r n)).
Proof.
  exists (StepRow 0 2 (js "reserve") KMutation (VString (js "b failed")) StPending None None false None None), (NewStep 2 (js "reserve") KMutation (VString (js "a failed")) None None None).
  vm_compute. reflexivity.
Qed.
