(* ===== verification/WorkflowWakes.v ===== *)
(** A running workflow is not forgotten.

    [done]: the jobs whose transaction has committed, reported or not.  A running
    workflow has a pending step, or a poll that is not done ([lv_wake]); a
    step whose callback is done is not pending ([lv_done]). *)
From Stdlib Require Import ZArith Lia.
From stdpp Require Import base list sets strings.
From S2P Require Import Prelude JsBase JsText Values Scheduler SchedulerRuns Workflow WorkflowReplay WorkflowLedger WorkflowTxns WorkflowRuns.

Section wakes.
Context (workflows : jsstr -> option (value -> whandler)) (maxParallelism : nat) (functionKind : jsstr -> job_kind).
Hypothesis parallel : (0 < maxParallelism)%nat.
Notation wst := (wdb * wjobs)%type.
Notation state_ok := (state_ok workflows functionKind).
Notation wstep := (wstep workflows maxParallelism functionKind).
Notation wsteps := (wsteps workflows maxParallelism functionKind).

Definition running (db : wdb) (id : Z) : Prop := exists wf, get_wf db id = Some wf /\ wf_state_of wf = WRunning.
Definition has_pending (db : wdb) (id : Z) : Prop := exists sid r, get_step db sid = Some r /\ st_workflowId r = id /\ st_state r = StPending.
Definition has_poll (done : Z -> Prop) (t : wjobs) (id : Z) : Prop := exists j job, get_job t j = Some job /\ jb_payload job = PAdvance id /\ ~ done j.
Definition settled (db : wdb) (id : Z) (n : nat) : Prop :=
  running db id -> forall sid r, get_step db sid = Some r -> st_workflowId r = id -> st_stepNumber r = n -> st_state r <> StPending.

Record lively (done : Z -> Prop) (t0 : wjobs) (s : wst) : Prop := {
  lv_gen id wf : get_wf s.1 id = Some wf -> wf_state_of wf = WRunning -> wf_generation wf = 0;
  lv_ctx j job id n g : get_job s.2 j = Some job -> jb_onComplete job = Some CbStepDone -> jb_context job = Some (StepContext id n g) -> g = 0;
  lv_wake id : running s.1 id -> has_pending s.1 id \/ has_poll done s.2 id;
  lv_done cj job jr id n g r : get_job s.2 cj = Some job -> jb_payload job = PStepDone jr (Some (StepContext id n g)) r -> done cj -> settled s.1 id n;
  lv_dom j : done j -> is_Some (get_job s.2 j);
  lv_fired j v : (j, OcSuccess v) ∈ jt_fired s.2 -> (j, OcSuccess v) ∈ jt_fired t0
}.

(** ** The job table changes *)

Lemma lively_insert claimed done t0 db t j : lively done t0 (db, t) -> jobs_ok claimed t -> called (jb_payload j) = None ->
  (forall id n g, jb_onComplete j = Some CbStepDone -> jb_context j = Some (StepContext id n g) -> g = 0) -> lively done t0 (db, (insert_job t j).1).
Proof.
  intros [H1 H2 H3 H4 H5 H6] HJ Hp Hc. cbn [fst snd] in *.
  assert (Hk : forall i ji, get_job t i = Some ji -> get_job (insert_job t j).1 i = Some ji).
  { intros i ji Hi. erewrite get_insert by done. case_decide; [|done]. subst. erewrite get_next in Hi by done. done. }
  split; cbn [fst snd]; [done| | | | |done].
  - intros i ji id n g. erewrite get_insert by done. case_decide; [intros [= <-]; apply Hc|apply H2].
  - intros id Hr. destruct (H3 id Hr) as [?|(i & ji & Hi & Hx)]; [by left|right]. exists i, ji. split; [by apply Hk|done].
  - intros cj job jr id n g r. erewrite get_insert by done. case_decide; [|apply H4]. intros [= <-] E. rewrite E in Hp. done.
  - intros i Hi. destruct (H5 i Hi) as [ji Hji]. eauto.
Qed.
Lemma lively_enqueue claimed done t0 db t now p o kind : lively done t0 (db, t) -> jobs_ok claimed t -> called p = None -> quiet o ->
  lively done t0 (db, (enqueueInternal now p o kind t).1).
Proof.
  intros H HJ Hp Ho. unfold enqueueInternal. destruct (match eo_idempotencyKey o with Some _ => _ | None => _ end); [done|].
  eapply lively_insert; [done|done|done|]. intros id n g E. unfold quiet in Ho. cbn in E. by rewrite E in Ho.
Qed.
Lemma lively_fire claimed done t0 db t now wfId wf r : lively done t0 (db, t) -> jobs_ok claimed t ->
  lively done t0 (db, fireWorkflowOnComplete functionKind now wfId wf r t).
Proof. intros H HJ. unfold fireWorkflowOnComplete. destruct (wf_onComplete wf); [|done]. by eapply lively_enqueue. Qed.

Lemma enqueued_poll claimed done t0 db t now id (o : enqueue_opts job_callback job_context) kind : lively done t0 (db, t) -> jobs_ok claimed t -> eo_idempotencyKey o = None ->
  has_poll done (enqueueInternal now (PAdvance id) o kind t).1 id.
Proof.
  intros H HJ Ho. destruct (enqueue_new claimed now (PAdvance id) o kind t HJ Ho) as (_ & Hn & _ & Hget). eexists (jt_next t), _. split; [rewrite Hget; by rewrite decide_True|].
  split; [done|]. intros Hd. destruct (lv_dom _ _ _ H _ Hd) as [x Hx]. cbn in Hx. congruence.
Qed.

Lemma lively_evolves done done' t0 t1 db t t' l : lively done t0 (db, t) -> evolves wf_callback t t' l -> (forall j, done' j -> done j) ->
  (forall j v, (j, OcSuccess v) ∈ jt_fired t' -> (j, OcSuccess v) ∈ jt_fired t1) -> lively done' t1 (db, t').
Proof.
  intros [H1 H2 H3 H4 H5 H6] [K N F] Hd Hf. cbn [fst snd] in *.
  assert (Hback : forall i j', get_job t' i = Some j' -> is_Some (get_job t i) -> exists j, get_job t i = Some j /\ job_core j' = job_core j).
  { intros i j' Hj' [j Hj]. destruct (K _ _ Hj) as (j2 & Hj2 & E). exists j. split; [done|congruence]. }
  split; cbn [fst snd]; [done| | | | |done].
  - intros j job id n g Hj Ho Hx. destruct (get_job t j) as [j0|] eqn:E.
    + destruct (Hback _ _ Hj ltac:(by rewrite E)) as (j1 & Hj1 & Ec). unfold job_core in Ec. apply (H2 j j1 id n g); [done|congruence|congruence].
    + destruct (N _ _ Hj E) as (? & ? & ? & ? & _ & _ & _ & Hn & _). congruence.
  - intros id Hr. destruct (H3 id Hr) as [?|(j & job & Hj & Hp & Hnd)]; [by left|right]. destruct (K _ _ Hj) as (j' & Hj' & E). unfold job_core in E.
    exists j, j'. split_and!; [done|congruence|]. intros ?. by apply Hnd, Hd.
  - intros cj job jr id n g r Hj Hp Hdone. apply Hd in Hdone. destruct (Hback _ _ Hj (H5 _ Hdone)) as (j1 & Hj1 & Ec). unfold job_core in Ec.
    eapply (H4 cj j1); [done|by replace (jb_payload j1) with (jb_payload job) by congruence|done].
  - intros j Hj. apply Hd in Hj. destruct (H5 j Hj) as [x Hx]. destruct (K _ _ Hx) as (x' & Hx' & _). eauto.
Qed.
Lemma no_success_fired t t' l : evolves wf_callback t t' l -> no_success l -> forall j v, (j, OcSuccess v) ∈ jt_fired t' -> (j, OcSuccess v) ∈ jt_fired t.
Proof. intros He Hl j v. rewrite (ev_fired _ _ _ _ He). intros [?|?]%elem_of_app; [done|]. by destruct (Hl j v). Qed.
Lemma lively_cancel claimed done t0 db t now j t' : lively done t0 (db, t) -> table_ok wf_callback claimed t -> cancel wf_callback now j t = Some t' -> lively done t0 (db, t').
Proof.
  intros H HT Hc. destruct (cancel_evolves _ _ _ _ _ _ HT Hc) as (l & He & Hl). eapply lively_evolves; [done|done|done|].
  intros i v Hi. eapply (lv_fired _ _ _ H), no_success_fired; done.
Qed.

(** A job commits. *)
Lemma lively_commit done t0 s j job : lively done t0 s -> get_job s.2 j = Some job ->
  (forall id, jb_payload job = PAdvance id -> running s.1 id -> has_pending s.1 id) ->
  (forall jr id n g r, jb_payload job = PStepDone jr (Some (StepContext id n g)) r -> settled s.1 id n) ->
  lively (fun i => done i \/ i = j) t0 s.
Proof.
  intros [H1 H2 H3 H4 H5 H6] Hj Ha Hs. split; [done|done| | | |done].
  - intros id Hr. destruct (H3 id Hr) as [?|(i & ji & Hi & Hp & Hnd)]; [by left|]. destruct (decide (i = j)) as [->|Hne].
    + left. apply Ha; [congruence|done].
    + right. exists i, ji. split_and!; [done|done|]. by intros [?|?].
  - intros cj jc jr id n g r Hc Hp [Hd| ->]; [by eapply H4|]. assert (jc = job) as -> by congruence. by eapply Hs.
  - intros i [Hi| ->]; eauto.
Qed.

(** ** The workflow tables change *)

Lemma lively_set_wf done t0 db t id wf : lively done t0 (db, t) -> wf_state_of wf <> WRunning -> lively done t0 (set_wf db id wf, t).
Proof.
  intros [H1 H2 H3 H4 H5 H6] Hwf. cbn [fst snd] in *.
  assert (Hr : forall i, running (set_wf db id wf) i -> running db i).
  { intros i (w & Hw & Hs). rewrite get_set_wf in Hw. case_decide; [congruence|by exists w]. }
  split; cbn [fst snd]; [|done| | |done|done].
  - intros i wfi. rewrite get_set_wf. case_decide; [by intros [= <-]|apply H1].
  - intros i Hi. by apply (H3 i), Hr.
  - intros cj job jr i n g r Hj Hp Hd Hi. by apply (H4 cj job jr i n g r Hj Hp Hd), Hr.
Qed.

Lemma lively_set_step done t0 db t sid r r' : lively done t0 (db, t) -> get_step db sid = Some r -> same_place r r' ->
  (st_state r' = st_state r \/ st_state r' <> StPending /\ has_poll done t (st_workflowId r)) -> lively done t0 (set_step db sid r', t).
Proof.
  intros [H1 H2 H3 H4 H5 H6] Hr [Hw Hn] Hst. cbn [fst snd] in *. split; cbn [fst snd]; [done|done| | |done|done].
  - intros id Hi. destruct (H3 id Hi) as [(si & ri & Hs & Hwi & Hp)|?]; [|by right]. destruct (decide (si = sid)) as [->|Hne].
    + assert (ri = r) as -> by congruence. destruct Hst as [Hst|[_ Hpoll]]; [|right; by rewrite <-Hwi].
      left. exists sid, r'. rewrite get_set_step, decide_True by done. split_and!; [done|congruence|congruence].
    + left. exists si, ri. rewrite get_set_step, decide_False by done. done.
  - intros cj job jr id n g x Hj Hp Hd Hi si ri. specialize (H4 cj job jr id n g x Hj Hp Hd Hi). rewrite get_set_step. case_decide; [|apply H4].
    intros [= <-] E1 E2. destruct Hst as [->|[? _]]; [|done]. eapply H4; [done|congruence|congruence].
Qed.

Lemma lively_insert_wf done t0 db t wf : wdb_ok db -> lively done t0 (db, t) -> wf_generation wf = 0 -> has_poll done t (wd_nextWf db) ->
  (forall sid r, get_step db sid = Some r -> is_Some (get_wf db (st_workflowId r))) -> lively done t0 ((insert_wf db wf).1, t).
Proof.
  intros Hdb [H1 H2 H3 H4 H5 H6] Hg Hpoll Hown. cbn [fst snd] in *.
  assert (Hr : forall i, running (insert_wf db wf).1 i -> i = wd_nextWf db \/ running db i).
  { intros i (w & Hw & Hs). rewrite get_insert_wf in Hw by done. case_decide; [by left|right; by exists w]. }
  split; cbn [fst snd]; [|done| | |done|done].
  - intros i wfi. rewrite get_insert_wf by done. case_decide; [by intros [= <-]|apply H1].
  - intros i Hi. destruct (Hr i Hi) as [->|?]; [by right|by apply (H3 i)].
  - intros cj job jr i n g r Hj Hp Hd Hi sid row Hs Hw. destruct (Hr i Hi) as [->|Hi'].
    + destruct (Hown sid row Hs) as [x Hx]. rewrite Hw, get_wf_next in Hx; done.
    + by eapply (H4 cj job jr i n g r).
Qed.

Lemma insert_step_keeps db r sid row : wdb_ok db -> get_step db sid = Some row -> get_step (insert_step db r).1 sid = Some row.
Proof. intros H Hs. rewrite get_insert_step by done. case_decide; [|done]. subst. by rewrite get_step_next in Hs. Qed.

(** A new row: no callback of its place is there yet. *)
Lemma lively_insert_step claimed ran sent t1 done t0 db t r : rows_inv functionKind claimed ran sent t1 db t -> jobs_known db t -> lively done t0 (db, t) ->
  st_stepNumber r = length (mine db (st_workflowId r)) -> lively done t0 ((insert_step db r).1, t).
Proof.
  intros HR HJ [H1 H2 H3 H4 H5 H6] Hn. cbn [fst snd] in *. pose proof (ri_db _ _ _ _ _ _ _ HR) as Hdb. split; cbn [fst snd]; [done|done| | |done|done].
  - intros id Hi. destruct (H3 id Hi) as [(si & ri & Hs & Hx)|?]; [left|by right]. exists si, ri. split; [by apply insert_step_keeps|done].
  - intros cj job jr id n g x Hj Hp Hd Hi si ri. specialize (H4 cj job jr id n g x Hj Hp Hd Hi). rewrite get_insert_step by done. case_decide; [|apply H4].
    intros [= <-] E1 E2. exfalso. pose proof (ri_calls _ _ _ _ _ _ _ HR cj job Hj) as Hcall. rewrite Hp in Hcall. destruct Hcall as (js & Hjs & Ho & Hx & _).
    pose proof (HJ jr js Hjs) as Hk. unfold known_job in Hk. rewrite Ho in Hk. destruct Hk as (s' & r' & g' & Hs' & Hx' & _). rewrite Hx in Hx'. injection Hx' as F1 F2 _.
    pose proof (mine_get _ _ _ Hdb Hs') as Hm. rewrite <-F1, <-F2, <-E1, <-E2, Hn in Hm. apply lookup_lt_Some in Hm. lia.
Qed.

(** ** Transactions *)

Lemma lively_dispatch claimed ran sent t1 done t0 now wfId n db t : rows_inv functionKind claimed ran sent t1 db t -> jobs_known db t -> is_Some (get_wf db wfId) ->
  ns_stepNumber n = length (mine db wfId) -> lively done t0 (db, t) ->
  let s := dispatch_step functionKind now wfId 0 n (db, t) in
  lively done t0 s /\ has_pending s.1 wfId /\ forall sid row, get_step db sid = Some row -> get_step s.1 sid = Some row.
Proof.
  intros HR HJ Hw Hn H. pose proof (ri_db _ _ _ _ _ _ _ HR) as Hdb. pose proof (proj1 (ri_table _ _ _ _ _ _ _ HR)) as HJo. rewrite dispatch_step_eq by done.
  assert (Hrow : forall r, st_workflowId r = wfId -> st_stepNumber r = ns_stepNumber n -> st_state r = StPending ->
    lively done t0 ((insert_step db r).1, t) /\ has_pending (insert_step db r).1 wfId /\ forall sid row, get_step db sid = Some row -> get_step (insert_step db r).1 sid = Some row).
  { intros r E1 E2 E3. split_and!.
    - eapply lively_insert_step; [done|done|done|]. by rewrite E2, E1.
    - exists (wd_nextStep db), r. rewrite get_insert_step by done. by rewrite decide_True.
    - intros sid row. by apply insert_step_keeps. }
  case_decide; cbn [fst snd].
  - destruct (Hrow (row_of wfId n)) as (H' & Hp & Hk); [done..|]. split_and!; [|exact Hp|exact Hk]. destruct H'. by split.
  - destruct (Hrow (with_job (row_of wfId n) (jt_next t))) as (H' & Hp & Hk); [done..|]. split_and!; [|exact Hp|exact Hk].
    eapply lively_insert; [done|done| |]; [cbn; by destruct (ns_kind n)|]. by intros id m g _ [= _ _ <-].
Qed.

Lemma lively_dispatch_all claimed ran sent t1 done t0 now wfId news db t : rows_inv functionKind claimed ran sent t1 db t -> jobs_known db t -> is_Some (get_wf db wfId) ->
  numbered (length (journal_of db wfId)) news -> lively done t0 (db, t) -> (news = [] -> has_pending db wfId) ->
  let s := foldl (fun s n => dispatch_step functionKind now wfId 0 n s) (db, t) news in
  lively done t0 s /\ has_pending s.1 wfId.
Proof.
  intros HR HJ Hw Hnum H Hp. assert (Hex : news = [] -> has_pending db wfId) by done. clear Hp. revert db t HR HJ Hw Hnum H Hex.
  induction news as [|n news IH]; intros db t HR HJ Hw Hnum H Hex; cbn [foldl]; [split; [done|by apply Hex]|].
  pose proof (ri_db _ _ _ _ _ _ _ HR) as Hdb. assert (Hn : ns_stepNumber n = length (mine db wfId)).
  { rewrite (Hnum 0%nat n eq_refl), journal_of_mine, length_fmap by done. lia. }
  destruct (dispatch_ok functionKind claimed ran sent t1 now wfId 0 n db t HR HJ Hw Hn) as (HR' & HJ' & Hw' & Hj').
  destruct (lively_dispatch claimed ran sent t1 done t0 now wfId n db t HR HJ Hw Hn H) as (H' & Hp & Hk).
  destruct (dispatch_step functionKind now wfId 0 n (db, t)) as [db' t']. cbn [fst snd] in *. apply IH; [done|done|by rewrite Hw'| |done|done].
  rewrite Hj', insert_step_journal, decide_True, length_app; [|by unfold new_row; destruct (ns_kind n)|done|by unfold new_row; destruct (ns_kind n)].
  intros i x Hi. rewrite (Hnum (S i) x Hi). cbn. lia.
Qed.

Lemma not_running_set db id wf : wf_state_of wf <> WRunning -> running (set_wf db id wf) id -> has_pending (set_wf db id wf) id.
Proof. intros Hs (w & Hw & Hr). rewrite get_set_wf, decide_True in Hw by done. congruence. Qed.

Lemma lively_fail claimed done t0 db t now wfId wf e tg : lively done t0 (db, t) -> jobs_ok claimed t ->
  let s := failOrCompensate functionKind now wfId wf e tg (db, t) in lively done t0 s /\ (running s.1 wfId -> has_pending s.1 wfId).
Proof.
  intros H HJ. unfold failOrCompensate. destruct (negb _); cbn [fst].
  - split; [|by apply not_running_set; destruct tg]. eapply lively_fire; [|done]. apply lively_set_wf; [done|by destruct tg].
  - split; [|by apply not_running_set]. eapply lively_enqueue; [by apply lively_set_wf|done|done|done].
Qed.

Lemma advance_lively claimed ran sent t1 done t0 now wfId s s' : state_ok claimed ran sent t1 s -> lively done t0 s ->
  advance workflows maxParallelism functionKind now wfId s = Ok s' -> lively done t0 s' /\ (running s'.1 wfId -> has_pending s'.1 wfId).
Proof.
  destruct s as [db t]. intros [HR HJ HW] H. cbn [fst snd] in *. pose proof (proj1 (ri_table _ _ _ _ _ _ _ HR)) as HJo. unfold advance.
  destruct (get_wf db wfId) as [wf|] eqn:Hw; [|intros [= <-]; split; [done|]; intros (w & Hw' & _); cbn in Hw'; congruence].
  destruct (bool_decide (wf_state_of wf = WRunning)) eqn:Hs; cbn [negb]; [apply bool_decide_eq_true in Hs|apply bool_decide_eq_false in Hs; intros [= <-]; split; [done|]; intros (w & Hw' & Hr); cbn in Hw'; congruence].
  destruct (workflows (wf_fnPath wf)) as [h|]; [|done]. set (journal := journal_of db wfId). assert (Hnum0 : numbered (length journal) []) by done.
  unfold runReplay. destruct (replay now journal (h (wf_args wf)) 0 []) as [[v|]|e|all] eqn:Er.
  - intros [= <-]. split; [|by apply not_running_set]. eapply lively_fire; [|done]. by apply lively_set_wf.
  - done.
  - intros [= <-]. exact (lively_fail claimed done t0 db t now wfId wf e TFailed H HJo).
  - destruct (bool_decide (length all = 0%nat) && negb (existsb (fun r => is_pending (st_state r)) journal)) eqn:Estall; intros [= <-];
      [exact (lively_fail claimed done t0 db t now wfId wf stall_error TFailed H HJo)|].
    rewrite (lv_gen _ _ _ H wfId wf Hw Hs). assert (Himp : forall P Q : Prop, P /\ Q -> P /\ (running (foldl (fun s n => dispatch_step functionKind now wfId 0 n s) (db, t) (take maxParallelism all)).1 wfId -> Q)) by tauto.
    apply Himp. eapply lively_dispatch_all; [done|done|done| |done|].
    + by apply numbered_take, (replay_numbered now journal (h (wf_args wf)) 0 [] all).
    + intros Hnil. assert (all = []) as -> by (destruct all, maxParallelism; done || lia). cbn in Estall. apply negb_false_iff in Estall.
      apply existsb_exists in Estall as (r & Hin & Hp). apply list_elem_of_In, list_elem_of_lookup in Hin as [i Hi].
      apply journal_lookup in Hi as (sid & Hg & Hwi & _); [|apply HR]. exists sid, r. split_and!; [done|done|by destruct (st_state r)].
Qed.

(** The callback of a step settles it. *)
Lemma find_step_none db wf n sid r : wdb_ok db -> find_step db wf n = None -> get_step db sid = Some r -> st_workflowId r = wf -> st_stepNumber r <> n.
Proof.
  intros Hdb Hf Hg Hw Hn. unfold find_step in Hf. rewrite steps_of_mine in Hf by done. destruct (base.filter _ _) eqn:E; [|done].
  assert (Hin : (sid, r) ∈ base.filter (fun x : Z * step_row => st_stepNumber x.2 = n) (mine db wf)) by (apply list_elem_of_filter; split; [done|by apply mine_in]).
  rewrite E in Hin. by apply not_elem_of_nil in Hin.
Qed.

Lemma step_done_lively claimed ran sent t1 done t0 now j x r s : state_ok claimed ran sent t1 s -> lively done t0 s -> call_ok s.2 (PStepDone j x r) ->
  lively done t0 (stepDone now x r s) /\ forall id n g, x = Some (StepContext id n g) -> settled (stepDone now x r s).1 id n.
Proof.
  destruct s as [db t]. intros [HR HJ HW] H Hc. cbn [fst snd] in *. pose proof (ri_db _ _ _ _ _ _ _ HR) as Hdb. pose proof (proj1 (ri_table _ _ _ _ _ _ _ HR)) as HJo.
  unfold stepDone. destruct x as [[wfId n g|]|]; try (split; [done|by intros ? ? ? [=]]). destruct (get_wf db wfId) as [wf|] eqn:Hw; cycle 1.
  { split; [done|]. intros id m g' [= <- <- <-] (w & Hw' & _). cbn in Hw'. congruence. }
  destruct (wf_generation wf =? g) eqn:Eg; cbn [negb]; cycle 1.
  { split; [done|]. intros id m g' [= <- <- <-] (w & Hw' & Hs). cbn in Hw'. assert (w = wf) as -> by congruence. apply Z.eqb_neq in Eg. destruct Hc as (js & Hjs & Ho & Hx & _).
    rewrite (lv_gen _ _ _ H wfId wf Hw Hs), (lv_ctx _ _ _ H j js wfId n g Hjs Ho Hx) in Eg. done. }
  destruct (find_step db wfId n) as [[sid row]|] eqn:Ef; cycle 1.
  { split; [done|]. intros id m g' [= <- <- <-] _ sid row Hs Hwi Hn. by destruct (find_step_none db wfId n sid row Hdb Ef Hs Hwi). }
  destruct (find_step_get _ _ _ _ _ Hdb Ef) as (Hg & Hwi & Hn). assert (Hnp : st_state (with_step_state row (outcome_of r)) <> StPending) by (by destruct r). split.
  - apply (lively_set_step done t0 db (enqueue_plain now (PAdvance wfId) t) sid row); [by eapply lively_enqueue|done|done|]. right. split; [done|]. rewrite Hwi. by eapply enqueued_poll.
  - intros id m g' [= <- <- <-] _ sid' row'. cbn [fst]. rewrite get_set_step. case_decide as E; [by intros [= <-]|]. intros Hg' Hw' Hn'.
    destruct (mine_unique db sid' row' sid row Hdb Hg' Hg) as [? _]; [congruence|congruence|done].
Qed.

Lemma compensate_lively claimed ran sent t1 done t0 now wfId s : state_ok claimed ran sent t1 s -> lively done t0 s -> lively done t0 (compensate functionKind now wfId s).
Proof.
  destruct s as [db t]. intros [HR HJ HW] H. cbn [fst snd] in *. pose proof (ri_db _ _ _ _ _ _ _ HR) as Hdb. pose proof (proj1 (ri_table _ _ _ _ _ _ _ HR)) as HJo.
  unfold compensate. destruct (get_wf db wfId) as [wf|]; [|done]. destruct (negb _); [done|]. destruct (next_compensation db wfId) as [[sid row]|] eqn:En.
  - apply next_compensation_in in En as (Hg & _ & _); [|done]. unfold enqueueInternal. cbn [eo_idempotencyKey]. set (j := new_job _ _ _ _).
    destruct (insert_job t j) as [t' jid] eqn:Ei. assert (t' = (insert_job t j).1) as -> by by rewrite Ei.
    eapply lively_set_step; [|exact Hg|done|by left]. by eapply lively_insert.
  - eapply lively_fire; [|done]. apply lively_set_wf; [done|]. by destruct (wf_compensationTarget wf) as [[]|].
Qed.

Lemma compensate_done_lively claimed ran sent t1 done t0 now x r s : state_ok claimed ran sent t1 s -> lively done t0 s -> lively done t0 (compensateDone functionKind now x r s).
Proof.
  destruct s as [db t]. intros [HR HJ HW] H. cbn [fst snd] in *. pose proof (ri_db _ _ _ _ _ _ _ HR) as Hdb. pose proof (proj1 (ri_table _ _ _ _ _ _ _ HR)) as HJo.
  unfold compensateDone. destruct x as [[wfId n g|]|]; try done. destruct (get_wf db wfId) as [wf|]; [|done]. destruct (negb _); [done|].
  destruct (find_step db wfId n) as [[sid row]|] eqn:Ef; [|done]. destruct (find_step_get _ _ _ _ _ Hdb Ef) as (Hg & _ & _).
  assert (Hhalt : forall e res, lively done t0 (set_wf db wfId (set_state wf WFailed (wf_generation wf) (wf_result wf) (Some e) (wf_compensationTarget wf)),
    fireWorkflowOnComplete functionKind now wfId wf res t)) by (intros e res; eapply lively_fire; [by apply lively_set_wf|done]).
  destruct r; [|apply Hhalt..]. eapply lively_enqueue; [|done|done|done]. eapply lively_set_step; [done|exact Hg|done|by left].
Qed.

Lemma start_lively claimed ran sent t1 done t0 now path args s : state_ok claimed ran sent t1 s -> lively done t0 s -> lively done t0 (wf_start now path args s).1.
Proof.
  destruct s as [db t]. intros [HR HJ HW] H. cbn [fst snd] in *. pose proof (proj1 (ri_table _ _ _ _ _ _ _ HR)) as HJo. unfold wf_start. set (wf := WfRow _ _ _ _ _ _ _ _ _).
  apply (lively_insert_wf done t0 db (enqueue_now now (PAdvance (wd_nextWf db)) JMutation t) wf); [apply HR|by eapply lively_enqueue|done|by eapply enqueued_poll|].
  intros sid r Hg. by apply (ri_rows _ _ _ _ _ _ _ HR sid r).
Qed.

Lemma cancel_steps_lively claimed ran sent t1 done t0 now db rs t t' : state_ok claimed ran sent t1 (db, t) -> lively done t0 (db, t) -> cancel_steps now rs t = Some t' ->
  lively done t0 (db, t').
Proof.
  revert t. induction rs as [|r rs IH]; intros t Hok H; cbn [cancel_steps]; [by intros [= <-]|].
  intros (ta & H1 & H2)%bind_Some. assert (Hc : forall u j u', state_ok claimed ran sent t1 (db, u) /\ lively done t0 (db, u) -> cancel wf_callback now j u = Some u' ->
    state_ok claimed ran sent t1 (db, u') /\ lively done t0 (db, u')).
  { intros u j u' [Ha Hb] Hcu. split; [by eapply state_ok_cancel|]. eapply lively_cancel; [done| |done]. apply (ri_table _ _ _ _ _ _ _ (st_rows _ _ _ _ _ _ _ Ha)). }
  unfold cancel_step in H1. apply bind_Some in H1 as (tb & Ha & Hb). assert (Htb : state_ok claimed ran sent t1 (db, tb) /\ lively done t0 (db, tb)).
  { destruct (st_scheduledJobId r); [|by injection Ha as <-]. destruct (is_pending _); [by eapply Hc|by injection Ha as <-]. }
  assert (Hta : state_ok claimed ran sent t1 (db, ta) /\ lively done t0 (db, ta)).
  { destruct (st_compensationJobId r); [|by injection Hb as <-]. destruct (st_compensated r); [by injection Hb as <-|by eapply Hc]. }
  destruct Hta. by apply (IH ta).
Qed.

Lemma wf_cancel_lively claimed ran sent t1 done t0 now wfId c s s' : state_ok claimed ran sent t1 s -> lively done t0 s -> wf_cancel functionKind now wfId c s = Some (Ok s') ->
  lively done t0 s'.
Proof.
  destruct s as [db t]. intros Hok H. unfold wf_cancel. destruct (get_wf db wfId) as [wf|]; [|done]. destruct (negb (bool_decide _)); [by intros [= <-]|].
  intros (ta & H1 & H2)%bind_Some. assert (Ha : state_ok claimed ran sent t1 (db, ta)) by (by eapply cancel_steps_ok). assert (Hl : lively done t0 (db, ta)) by (eapply cancel_steps_lively; [exact Hok|exact H|exact H1]).
  pose proof (proj1 (ri_table _ _ _ _ _ _ _ (st_rows _ _ _ _ _ _ _ Ha))) as HJo. cbn [snd] in HJo. destruct (_ || _); injection H2 as <-.
  - eapply lively_fire; [by apply lively_set_wf|done].
  - eapply lively_enqueue; [by apply lively_set_wf|done|done|done].
Qed.

Lemma lively_set_event done t0 db t id e : lively done t0 (db, t) -> lively done t0 (set_event db id e, t).
Proof. intros []. by split. Qed.

Lemma send_event_lively claimed ran sent t1 done t0 now wfId name p s : state_ok claimed ran sent t1 s -> lively done t0 s -> lively done t0 (sendEventImpl now wfId name p s).
Proof.
  destruct s as [db t]. intros Hok H. unfold sendEventImpl. destruct (base.filter _ (wd_events db)) as [|[eid e] es]; [done|].
  pose proof (state_ok_set_event _ _ _ _ _ _ _ _ eid (EventRow wfId name (Some p)) Hok) as Hok'. apply (lively_set_event _ _ _ _ eid (EventRow wfId name (Some p))) in H.
  revert Hok' H. generalize (set_event db eid (EventRow wfId name (Some p))) as db1. intros db1 [HR HJ HW] H. cbn [fst snd] in *. pose proof (proj1 (ri_table _ _ _ _ _ _ _ HR)) as HJo.
  assert (He : lively done t0 (db1, enqueue_plain now (PAdvance wfId) t)) by (by eapply lively_enqueue).
  destruct (base.filter _ (steps_of db1 wfId)) as [|[sid row] rs] eqn:Ef; [done|]. rewrite steps_of_mine in Ef by apply HR. apply filter_head in Ef as [Hm _]. apply mine_in in Hm as [Hg Hw]; [|apply HR].
  eapply lively_set_step; [exact He|exact Hg|done|]. right. split; [done|]. rewrite Hw. by eapply enqueued_poll.
Qed.

(** ** Runs *)

Definition done_of (x : @srun payload job_callback job_context) (j : Z) : Prop :=
  (exists v, (j, OcSuccess v) ∈ jt_fired (sr_jobs x)) \/ exists f fl v, jm_get (sr_flights x) f = Some fl /\ fl_job fl = j /\ fl_result fl = Some (JrSuccess v).
Record wlive (w : wworld) : Prop := { wl_inv : winv workflows functionKind w; wl_lively : lively (done_of (ww_run w)) (sr_jobs (ww_run w)) (wst_of w) }.

Lemma lively_rebase done done' t0 db t : lively done t0 (db, t) -> (forall j, done' j -> done j) -> lively done' t (db, t).
Proof. intros H Hd. eapply lively_evolves; [done|apply evolves_refl|done|done]. Qed.

Lemma lively_txn w s sent : lively (done_of (ww_run w)) (sr_jobs (ww_run w)) s ->
  let w' := WWorld s.1 (with_jobs (ww_run w) s.2) (ww_ran w) sent in lively (done_of (ww_run w')) (sr_jobs (ww_run w')) (wst_of w').
Proof.
  destruct s as [db t]. intros H. apply (lively_rebase _ _ _ _ _ H). intros j [(v & Hv)|Hf]; [left|by right]. exists v. by apply (lv_fired _ _ _ H).
Qed.

Lemma lively_sched w x l : lively (done_of (ww_run w)) (sr_jobs (ww_run w)) (wst_of w) -> evolves wf_callback (sr_jobs (ww_run w)) (sr_jobs x) l ->
  (forall j, done_of x j -> done_of (ww_run w) j) -> lively (done_of x) (sr_jobs x) (ww_db w, sr_jobs x).
Proof. intros H He Hd. by eapply lively_evolves. Qed.
(** Nothing succeeds, no flight comes back with a success. *)
Lemma done_quiet (x x' : @srun payload job_callback job_context) l : evolves wf_callback (sr_jobs x) (sr_jobs x') l -> no_success l ->
  (forall f fl v, jm_get (sr_flights x') f = Some fl -> fl_result fl = Some (JrSuccess v) -> jm_get (sr_flights x) f = Some fl) -> forall j, done_of x' j -> done_of x j.
Proof.
  intros He Hl Hf j [(v & Hv)|(f & fl & v & H1 & H2 & H3)]; [left|right]; [exists v; by eapply no_success_fired|]. exists f, fl, v. by split; [eapply Hf|].
Qed.

Lemma exec_live w now f r : wlive w -> wlive (wstep w (WExec now f r)).
Proof.
  intros [Hinv H]. pose proof (wi_state _ _ _ Hinv) as Hok. split; [by apply exec_winv|]. cbn [Workflow.wstep]. unfold exec.
  destruct (jm_get (sr_flights (ww_run w)) f) as [[id p [r'|]]|] eqn:Ef; [done| |done]. destruct (wi_flights _ _ _ Hinv f _ Ef) as (job & Hj & Hp & _). cbn in Hj, Hp.
  assert (Hdone : forall res t, (forall j v, (j, OcSuccess v) ∈ jt_fired t -> (j, OcSuccess v) ∈ jt_fired (sr_jobs (ww_run w))) ->
    forall j, done_of (with_jobs (srun_step wf_callback (ww_run w) (SExec f res)) t) j -> done_of (ww_run w) j \/ j = id /\ exists v, res = JrSuccess v).
  { intros res t Ht j. cbn [srun_step]. rewrite Ef. intros [(v & Hv)|(g & fl & v & H1 & H2 & H3)]; cbn in *; [left; left; exists v; by apply Ht|].
    rewrite jm_get_set in H1. case_decide; [injection H1 as <-; right; cbn in *; split; [done|by exists v; congruence]|left; right; by exists g, fl, v]. }
  assert (Hsame : forall res ran, (forall v, res = JrSuccess v -> lively (fun i => done_of (ww_run w) i \/ i = id) (sr_jobs (ww_run w)) (wst_of w)) ->
    let w' := WWorld (ww_db w) (srun_step wf_callback (ww_run w) (SExec f res)) ran (ww_sent w) in lively (done_of (ww_run w')) (sr_jobs (ww_run w')) (wst_of w')).
  { intros res ran Hres. specialize (Hdone res (sr_jobs (ww_run w)) (fun _ _ x => x)). cbn [srun_step] in *. rewrite Ef in *. destruct res as [v|e b].
    - apply (lively_rebase _ _ _ _ _ (Hres v eq_refl)). intros j Hd. destruct (Hdone j Hd) as [?|[? _]]; [by left|by right].
    - apply (lively_rebase _ _ _ _ _ H). intros j Hd. destruct (Hdone j Hd) as [?|[_ [v [=]]]]. done. }
  destruct r as [v|e b]; [|by apply Hsame]. destruct (run_internal _ _ _ now p (wst_of w)) as [[s|e]|] eqn:Er; [|by apply Hsame|].
  - assert (Hc : call_ok (sr_jobs (ww_run w)) p) by (rewrite <-Hp; by apply (ri_calls _ _ _ _ _ _ _ (st_rows _ _ _ _ _ _ _ Hok) id job)).
    assert (Hs : lively (fun i => done_of (ww_run w) i \/ i = id) (sr_jobs (ww_run w)) s).
    { pose proof (internal_ok _ _ _ _ _ _ _ now p _ s Hok Hc Er) as Hok'. destruct (state_ok_keeps _ _ _ _ _ _ _ Hok' id job Hj) as (job' & Hj' & Ej). unfold job_core in Ej.
      assert (Hp' : jb_payload job' = p) by congruence. destruct p; cbn [run_internal] in Er; try done;
        match type of Er with Some (Ok ?a) = _ => assert (a = s) as <- by congruence | Some ?a = _ => assert (a = Ok s) as Er' by congruence end.
      - eapply lively_commit; [exact H|exact Hj'|by rewrite Hp'|by rewrite Hp'].
      - destruct (advance_lively _ _ _ _ _ _ now wf _ s Hok H Er') as [Hl Hpend]. eapply lively_commit; [exact Hl|exact Hj'| |by rewrite Hp']. rewrite Hp'. by intros ? [= <-].
      - eapply lively_commit; [by eapply compensate_lively|exact Hj'|by rewrite Hp'|by rewrite Hp'].
      - destruct (step_done_lively _ _ _ _ _ _ now jobId context r _ Hok H Hc) as [Hl Hset]. eapply lively_commit; [exact Hl|exact Hj'|by rewrite Hp'|]. rewrite Hp'.
        intros jr i n g x [= <- -> <-]. by eapply Hset.
      - eapply lively_commit; [by eapply compensate_done_lively|exact Hj'|by rewrite Hp'|by rewrite Hp']. }
    specialize (Hdone (JrSuccess VNull) s.2 (fun j v x => lv_fired _ _ _ Hs j v x)). destruct s as [db t]. cbn [srun_step fst snd] in *. rewrite Ef in *.
    apply (lively_rebase _ _ _ _ _ Hs). intros j Hd. destruct (Hdone j Hd) as [?|[? _]]; [by left|by right].
  - apply Hsame. intros v' _. eapply lively_commit; [exact H|exact Hj|..]; rewrite Hp; intros; match goal with E : p = _ |- _ => by rewrite E in Er end.
Qed.

Lemma claim_live w now id : wlive w -> let w' := wstep w (WClaim now id) in lively (done_of (ww_run w')) (sr_jobs (ww_run w')) (wst_of w').
Proof.
  intros [Hinv H]. pose proof (claim_evolves wf_callback now id (sr_jobs (ww_run w))) as He. cbn [Workflow.wstep srun_step].
  destruct (claim now id (sr_jobs (ww_run w))) as [t [p|]]; cbn [fst] in He.
  - eapply (lively_sched w); [done|exact He|]. eapply done_quiet; [exact He|apply no_success_nil|]. cbn. intros f fl v [Hf| ->]%jm_get_snoc Hr; [done|]. done.
  - eapply (lively_sched w); [done|exact He|]. eapply done_quiet; [exact He|apply no_success_nil|done].
Qed.

Lemma complete_live w now k f : wlive w -> let w' := wstep w (WComplete now k f) in lively (done_of (ww_run w')) (sr_jobs (ww_run w')) (wst_of w').
Proof.
  intros [Hinv H]. cbn [Workflow.wstep srun_step]. destruct (jm_get (sr_flights (ww_run w)) f) as [[id p [r|]]|] eqn:Ef; [|exact H..].
  destruct (complete_evolves wf_callback (sr_claimed (ww_run w)) now k id r (sr_jobs (ww_run w)) (so_table _ _ (wi_run _ _ _ Hinv))) as (l & He & Hl).
  eapply (lively_sched w); [exact H|exact He|]. cbn. intros j [(v & Hv)|(g & fl & v & H1 & H2 & H3)]; cbn in *.
  - rewrite (ev_fired _ _ _ _ He) in Hv. apply elem_of_app in Hv as [Hv|Hv]; [left; by exists v|]. destruct Hl as [-> | ->]; [by apply not_elem_of_nil in Hv|].
    apply list_elem_of_singleton in Hv. injection Hv as -> Hr. destruct r as [v'|]; [|done]. right. by exists f, (Flight id p (Some (JrSuccess v'))), v'.
  - rewrite jm_get_delete in H1. case_decide; [done|]. right. by exists g, fl, v.
Qed.

Lemma wstep_live w l : wlive w -> wlive (wstep w l).
Proof.
  intros Hw. pose proof Hw as [Hinv H]. pose proof (wi_state _ _ _ Hinv) as Hok. pose proof (so_table _ _ (wi_run _ _ _ Hinv)) as HT.
  destruct l as [now path args|now wf c|now wf name p|now path args o|now id|now id|now f r|now k f|f|now]; try (by apply exec_live);
    (split; [by apply wstep_inv|]); [..|by apply claim_live|by apply complete_live| |]; cbn [Workflow.wstep].
  - apply (lively_txn w). by eapply start_lively.
  - destruct (wf_cancel functionKind now wf c (wst_of w)) as [[s|]|] eqn:E; [|done..]. apply (lively_txn w). by eapply wf_cancel_lively.
  - apply (lively_txn w). by eapply send_event_lively.
  - apply (lively_txn w (ww_db w, _)). eapply lively_enqueue; [exact H|apply HT|done|]. unfold quiet. cbn. by destruct (eo_onComplete o).
  - cbn [srun_step]. destruct (cancel wf_callback now id (sr_jobs (ww_run w))) as [t|] eqn:E; [|done]. apply (lively_txn w (ww_db w, t)). by eapply lively_cancel.
  - eapply (lively_sched w); [exact H|apply evolves_refl|]. eapply done_quiet; [apply evolves_refl|apply no_success_nil|]. cbn. intros g fl v. rewrite jm_get_delete. by case_decide.
  - destruct (reclaim_evolves wf_callback (sr_claimed (ww_run w)) now (sr_jobs (ww_run w)) HT) as (l & He & Hl).
    eapply (lively_sched w); [exact H|exact He|]. by eapply done_quiet.
Qed.

Lemma wlive_new : wlive wworld_new.
Proof.
  split; [apply winv_new|]. split; cbn; try done; [by intros id (wf & Hw & _)|..].
  - intros j [(v & Hv)|(f & fl & v & Hf & _)]; [by apply not_elem_of_nil in Hv|done].
Qed.
Lemma wsteps_live w ls : wlive w -> wlive (wsteps w ls).
Proof. revert w. induction ls as [|l ls IH]; intros w H; [done|]. by apply IH, wstep_live. Qed.

(** C18: when the fan-out cap [maxParallelism] is positive, a running workflow is
    not forgotten: it has a poll that has not succeeded, or a step that is
    pending.  Such a step waits for an event, or its job has not ended, or the
    callback of its job has not succeeded.  So it goes on unless one of these jobs
    fails for good or is canceled.  (With a cap of zero, which nothing rejects, it
    is forgotten at its first poll: [WorkflowRuns.zero_cap_strands_workflow].) *)
Theorem running_workflow_goes_on ls id wf :
  let w := wsteps wworld_new ls in let t := sr_jobs (ww_run w) in
  get_wf (ww_db w) id = Some wf -> wf_state_of wf = WRunning ->
  (exists j job, get_job t j = Some job /\ jb_payload job = PAdvance id /\ jb_state job <> Succeeded) \/
  (exists sid r, get_step (ww_db w) sid = Some r /\ st_workflowId r = id /\ st_state r = StPending /\
    match st_scheduledJobId r with
    | None => st_kind r = KWaitForEvent
    | Some j => exists job, get_job t j = Some job /\
        (job_terminal (jb_state job) = false \/
         exists c cj x, get_job t c = Some cj /\ jb_payload cj = PStepDone j (jb_context job) x /\ jb_state cj <> Succeeded)
    end).
Proof.
  intros w t Hwf Hrun. destruct (wsteps_live _ ls wlive_new) as [Hinv H]. fold w in Hinv, H. fold t in H. pose proof (wi_state _ _ _ Hinv) as [HR _ _]. cbn [fst snd wst_of] in HR. fold t in HR.
  destruct (ri_table _ _ _ _ _ _ _ HR) as [HJo HF].
  assert (Hsucc : forall j job, get_job t j = Some job -> jb_state job = Succeeded -> done_of (ww_run w) j).
  { intros j job Hj Hs. pose proof (fo_terminal _ _ _ HF j job Hj ltac:(by rewrite Hs) ltac:(done)) as Hin. apply list_elem_of_fmap in Hin as ([i r] & Heq & Hin). cbn in Heq. subst i.
    destruct (fo_fired _ _ _ HF j r Hin) as (j' & Hj' & Hst & _). assert (j' = job) as -> by congruence. rewrite Hs in Hst. destruct r as [v| |]; [|done..]. left. by exists v. }
  destruct (lv_wake _ _ _ H id) as [(sid & r & Hg & Hw & Hp)|(j & job & Hj & Hp & Hnd)]; [by exists wf| |].
  - right. exists sid, r. do 3 (split; [done|]). destruct (ri_rows _ _ _ _ _ _ _ HR sid r Hg) as (_ & Hres & _). unfold resolved_ok in Hres.
    destruct (st_scheduledJobId r) as [j|]; [|by destruct Hres]. destruct Hres as (_ & (job & g & Hj & Hc) & _). exists job. split; [done|]. unfold job_core, step_job in Hc. injection Hc as _ _ _ Ho Hx.
    destruct (job_terminal (jb_state job)) eqn:Et; [right|by left]. pose proof (fo_terminal _ _ _ HF j job Hj Et ltac:(done)) as Hin. apply list_elem_of_fmap in Hin as ([i x] & Heq & Hin). cbn in Heq. subst i.
    destruct (fo_fired _ _ _ HF j x Hin) as (j' & Hj' & _ & Hcb). assert (j' = job) as -> by congruence. destruct (Hcb _ Ho) as (c & cj & Hcj & Hpay). exists c, cj, x. split_and!; [done|done|].
    intros Hs. cbn [wf_callback] in Hpay. rewrite Hx in Hpay. eapply (lv_done _ _ _ H c cj); [exact Hcj|exact Hpay|by apply (Hsucc c cj)|rewrite Hw; by exists wf|exact Hg|done|done|done].
  - left. exists j, job. split_and!; [done|done|]. intros Hs. by apply Hnd, (Hsucc j job).
Qed.
End wakes.

(** The charge of an order is in flight. *)
Lemma running_workflow_goes_on_witness :
  let ls := [WStart 0 (js "order") (VBigint 0)] ++ run_job 1 0 0 VNull ++ [WClaim 2 1] in
  let w := shop_world ls in let t := sr_jobs (ww_run w) in
  exists wf, get_wf (ww_db w) 0 = Some wf /\ wf_state_of wf = WRunning /\
  ((exists j job, get_job t j = Some job /\ jb_payload job = PAdvance 0 /\ jb_state job <> Succeeded) \/
   (exists sid r, get_step (ww_db w) sid = Some r /\ st_workflowId r = 0 /\ st_state r = StPending /\
    match st_scheduledJobId r with
    | None => st_kind r = KWaitForEvent
    | Some j => exists job, get_job t j = Some job /\
        (job_terminal (jb_state job) = false \/
         exists c cj x, get_job t c = Some cj /\ jb_payload cj = PStepDone j (jb_context job) x /\ jb_state cj <> Succeeded)
    end)).
Proof.
  intros ls w t. assert (Hwf : get_wf (ww_db w) 0 = Some (WfRow (js "order") (VBigint 0) WRunning 0 None None None None None)) by (vm_compute; reflexivity).
  eexists. split; [exact Hwf|]. split; [reflexivity|]. eapply (running_workflow_goes_on shop 16 shop_kind ltac:(lia) ls 0); [exact Hwf|reflexivity].
Defined.
