(* ===== verification/TriggerLog.v ===== *)
(** The log as a trigger reads it: [readLog] of
    packages/runtime-embedded/src/runtime.ts, over any store whose log can be
    loaded by timestamp, and [cutToByteBudget] of components/triggers/src/driver.ts.

    A call answers exactly the changes between two cursors, makes progress, and
    never stops inside a commit; the cut keeps whole commits. *)
From Stdlib Require Import ZArith Lia Sorted.
From stdpp Require Import base list sets strings sorting.
From S2P Require Import Prelude JsBase JsText Values ValuesJson IdCodec Sharding DocStore SqliteDocStore.

(** * The store *)

(** What [readLog] asks of a store: a range of the log in ascending order, at most
    [limit] entries; the newest timestamp; one revision. *)
Class LogStore (S : Type) := {
  log_load : S -> Z -> Z -> option nat -> res (list log_entry);
  log_max : S -> Z;
  log_get : S -> doc_id -> Z -> res (option latest_document)
}.

Definition log_limit {A} (limit : option nat) (l : list A) : list A := match limit with None => l | Some n => take n l end.
Definition ts_within (a b : Z) (e : log_entry) : Prop := a <= le_ts e < b.
#[global] Instance ts_within_dec a b e : Decision (ts_within a b e).
Proof. unfold ts_within. apply _. Defined.

Class LogLaws (S : Type) `{LogStore S} (valid : S -> Prop) (log : S -> list log_entry) : Prop := {
  log_sorted s : valid s -> StronglySorted (fun a b => le_ts a <= le_ts b) (log s);
  log_loads s a b limit : valid s -> log_load s a b limit = Ok (log_limit limit (base.filter (ts_within a b) (log s)))
}.

(** * readLog *)

Inductive change_op := OpInsert | OpUpdate | OpDelete.
Record log_change := LogChange
  { lc_table : jsstr; lc_id : jsstr; lc_op : change_op; lc_newDoc : option json; lc_oldDoc : option json; lc_ts : Z; lc_changeId : jsstr }.

Section log.
Context {S : Type} `{!LogStore S} (tableNumberToName : Z -> option jsstr).

(** Component tables and system tables of the application are not shown. *)
Definition hidden_table (name : jsstr) : bool := bool_decide (47 ∈ name) || starts_with [95] name.
Definition shown_table (tables : option (list jsstr)) (e : log_entry) : option jsstr :=
  match tableNumberToName (tableNumber (le_id e)) with
  | Some name => if hidden_table name || match tables with Some ts => negb (bool_decide (name ∈ ts)) | None => false end then None else Some name
  | None => None
  end.

Definition change_of (s : S) (name : jsstr) (e : log_entry) : res log_change :=
  let op := match le_value e, le_prev e with None, _ => OpDelete | _, None => OpInsert | _, _ => OpUpdate end in
  newDoc ← match le_value e with None => Ok None | Some d => Some <$> convexToJson (rd_value d) end;
  oldDoc ← match le_prev e with
           | None => Ok None
           | Some prev =>
               d ← log_get s (le_id e) prev;
               match d with None => Ok None | Some d => Some <$> convexToJson (rd_value (ld_value d)) end
           end;
  id ← encodeInternalDocumentId (le_id e);
  Ok (LogChange name id op newDoc oldDoc (le_ts e) (name ++ js ":" ++ id ++ js ":" ++ js_string_of (le_ts e))).

Fixpoint changes_of (s : S) (tables : option (list jsstr)) (es : list log_entry) : res (list log_change) :=
  match es with
  | [] => Ok []
  | e :: es =>
      match shown_table tables e with
      | None => changes_of s tables es
      | Some name => c ← change_of s name e; cs ← changes_of s tables es; Ok (c :: cs)
      end
  end.

(** [stable] is the frontier of a fleet. *)
Definition log_bound (s : S) (stable : option Z) : Z := default (log_max s) stable.

Definition scan_log (s : S) (afterTs bound : Z) (limit : option nat) : res (list log_entry * Z) :=
  scanned ← log_load s (afterTs + 1) (bound + 1) limit;
  if negb (bool_decide (limit = Some (length scanned))) then Ok (scanned, bound)
  else
    match last scanned with
    | None => Throw TypeError
    | Some e =>
        let lastTs := le_ts e in
        if afterTs + 1 <? lastTs then Ok (base.filter (fun e => le_ts e < lastTs) scanned, lastTs - 1)
        else rows ← log_load s lastTs (lastTs + 1) None; Ok (rows, lastTs)
    end.

Definition readLog (s : S) (stable : option Z) (afterTs : Z) (tables : option (list jsstr)) (limit : option nat) : res (list log_change * Z) :=
  let bound := log_bound s stable in
  if bound <=? afterTs then Ok ([], afterTs)
  else if bool_decide (limit = Some 0%nat) then Ok ([], bound)
  else
    '(rows, maxScannedTs) ← scan_log s afterTs bound limit;
    changes ← changes_of s tables rows;
    Ok (changes, maxScannedTs).

(** * cutToByteBudget *)

Definition BYTE_BUDGET : Z := 1000000.
Context (change_size : log_change -> Z).

(** The first index that does not fit; the length when all do. *)
Fixpoint cut_index (first : bool) (size : Z) (changes : list log_change) : nat :=
  match changes with
  | [] => 0
  | c :: cs => if negb first && (BYTE_BUDGET <? size + change_size c) then 0%nat else Datatypes.S (cut_index false (size + change_size c) cs)
  end.

(** [groupStart]: back from [i] over the changes of the same timestamp. *)
Fixpoint group_start (changes : list log_change) (cutTs : Z) (i : nat) : nat :=
  match i with
  | O => O
  | Datatypes.S i' => match changes !! i' with Some c => if lc_ts c =? cutTs then group_start changes cutTs i' else i | None => i end
  end.
(** [groupEnd]: the length of the first group. *)
Fixpoint group_length (changes : list log_change) (ts : Z) : nat :=
  match changes with c :: cs => if lc_ts c =? ts then Datatypes.S (group_length cs ts) else 0%nat | [] => 0%nat end.

Definition cutToByteBudget (changes : list log_change) (maxScannedTs : Z) : list log_change * Z :=
  match changes !! cut_index true 0 changes with
  | None => (changes, maxScannedTs)
  | Some c =>
      let groupStart := group_start changes (lc_ts c) (cut_index true 0 changes) in
      match groupStart, changes with
      | O, first :: _ => (take (group_length changes (lc_ts first)) changes, lc_ts first)
      | _, _ => let batch := take groupStart changes in (batch, match last batch with Some e => lc_ts e | None => maxScannedTs end)
      end
  end.
End log.

(** * What a call answers *)

Lemma sorted_filter {A} (R : A -> A -> Prop) (P : A -> Prop) `{!forall x, Decision (P x)} l : StronglySorted R l -> StronglySorted R (base.filter P l).
Proof.
  induction 1 as [|x l Hl IH Hx]; [constructor|]. rewrite filter_cons. case_decide; [|done]. constructor; [done|].
  apply Forall_forall. intros y [_ Hy]%list_elem_of_filter. rewrite Forall_forall in Hx. by apply Hx.
Qed.

Lemma filter_take_drop {A} (P : A -> Prop) `{!forall x, Decision (P x)} (n : nat) (l : list A) :
  Forall P (take n l) -> Forall (fun x => ~ P x) (drop n l) -> base.filter P l = take n l.
Proof. intros H1 H2. rewrite <-(take_drop n l) at 1. by rewrite filter_app, (filter_all P), (filter_none P), app_nil_r. Qed.

Lemma sorted_take_drop {A} (f : A -> Z) (l : list A) n x y :
  StronglySorted (fun a b => f a <= f b) l -> x ∈ take n l -> y ∈ drop n l -> f x <= f y.
Proof.
  intros Hs Hx Hy. rewrite <-(take_drop n l) in Hs. apply StronglySorted_app in Hs as [Hs _]. by apply Hs.
Qed.

Section facts.
Context {S : Type} `{!LogStore S} {valid : S -> Prop} {log : S -> list log_entry} `{!LogLaws S valid log} (tableNumberToName : Z -> option jsstr).
Notation changes_of := (changes_of tableNumberToName).
Notation shown_table := (shown_table tableNumberToName).

Lemma within_filter a b c (l : list log_entry) : c <= b -> base.filter (fun e => le_ts e < c) (base.filter (ts_within a b) l) = base.filter (ts_within a c) l.
Proof. intros H. rewrite list_filter_filter. apply list_filter_iff. intros e. unfold ts_within. lia. Qed.

Lemma scan_log_exact s c b limit : valid s -> c < b -> limit <> Some 0%nat ->
  exists rows m, scan_log s c b limit = Ok (rows, m) /\ c < m <= b /\ rows = base.filter (ts_within (c + 1) (m + 1)) (log s).
Proof.
  intros Hv Hcb Hlim. unfold scan_log. rewrite log_loads, bind_Ok by done. set (F := base.filter (ts_within (c + 1) (b + 1)) (log s)).
  assert (HF : StronglySorted (fun x y => le_ts x <= le_ts y) F) by (by apply sorted_filter, log_sorted).
  destruct limit as [n|]; cbn [log_limit]; [|by exists F, b].
  destruct (decide (n = length (take n F))) as [Hn|Hn]; cycle 1.
  { rewrite bool_decide_eq_false_2 by congruence. cbn [negb]. rewrite length_take in Hn. rewrite take_ge by lia. by exists F, b. }
  rewrite bool_decide_eq_true_2 by congruence. cbn [negb]. destruct (last (take n F)) as [e|] eqn:El; [|apply last_None in El; rewrite El in Hn; by subst n].
  assert (Hin : e ∈ take n F) by (apply last_Some in El as [l' ->]; set_solver). assert (HeF : e ∈ F) by (eapply elem_of_take in Hin as (i & Hi & _); by eapply list_elem_of_lookup_2).
  apply list_elem_of_filter in HeF as [Hw _]. unfold ts_within in Hw.
  assert (Hle : forall x, x ∈ take n F -> le_ts x <= le_ts e).
  { intros x Hx. apply last_Some in El as [l' El]. rewrite El in Hx. apply elem_of_app in Hx as [Hx|Hx%list_elem_of_singleton]; [|by subst].
    assert (Hs : StronglySorted (fun x y => le_ts x <= le_ts y) (l' ++ [e])) by (rewrite <-El; rewrite <-(take_drop n F) in HF; by apply StronglySorted_app in HF as (_ & ? & _)).
    apply StronglySorted_app in Hs as (Hs & _ & _). apply Hs; [done|left]. }
  destruct (Z.ltb_spec (c + 1) (le_ts e)).
  - exists (base.filter (fun x => le_ts x < le_ts e) (take n F)), (le_ts e - 1). split; [done|]. split; [lia|].
    replace (le_ts e - 1 + 1) with (le_ts e) by lia. rewrite <-(within_filter (c + 1) (b + 1)) by lia. fold F.
    rewrite <-(take_drop n F) at 2. rewrite filter_app, (filter_none _ (drop n F)); [by rewrite app_nil_r|]. apply Forall_forall. intros y Hy.
    pose proof (sorted_take_drop le_ts F n e y HF Hin Hy). lia.
  - assert (le_ts e = c + 1) as E by lia. rewrite log_loads, bind_Ok by done. cbn [log_limit]. eexists _, (le_ts e). split; [done|]. split; [lia|]. by rewrite E.
Qed.

(** The changes between two cursors: from [c] (exclusive) to [m]. *)
Definition changes_between (s : S) (tables : option (list jsstr)) (c m : Z) : res (list log_change) :=
  changes_of s tables (base.filter (ts_within (c + 1) (m + 1)) (log s)).

Lemma readLog_exact s stable c tables limit changes m : valid s -> readLog tableNumberToName s stable c tables limit = Ok (changes, m) ->
  if log_bound s stable <=? c then changes = [] /\ m = c
  else c < m <= log_bound s stable /\ (limit <> Some 0%nat -> changes_between s tables c m = Ok changes) /\ (limit = Some 0%nat -> m = log_bound s stable /\ changes = []).
Proof.
  intros Hv. unfold readLog. destruct (Z.leb_spec (log_bound s stable) c); [by intros [= <- <-]|]. destruct (decide (limit = Some 0%nat)) as [->|Hl].
  - rewrite bool_decide_eq_true_2 by done. intros [= <- <-]. split; [lia|]. by split.
  - rewrite bool_decide_eq_false_2 by done. destruct (scan_log_exact s c (log_bound s stable) limit) as (rows & m' & -> & Hm & ->); [done|lia|done|]. rewrite bind_Ok.
    intros (cs & Hcs & [= <- <-])%bind_res_ok. split; [lia|]. by split.
Qed.

Lemma change_of_ts s name e c : change_of s name e = Ok c -> lc_ts c = le_ts e /\ lc_table c = name.
Proof. unfold change_of. repeat (intros (? & _ & H)%bind_res_ok; revert H). by intros [= <-]. Qed.

Lemma changes_of_in s tables es cs : changes_of s tables es = Ok cs ->
  forall c, c ∈ cs <-> exists e name, e ∈ es /\ shown_table tables e = Some name /\ change_of s name e = Ok c.
Proof.
  revert cs. induction es as [|e es IH]; intros cs; cbn [TriggerLog.changes_of]; [intros [= <-] c; set_solver|]. destruct (shown_table tables e) as [name|] eqn:En.
  - intros (c0 & H0 & (cs' & H1 & [= <-])%bind_res_ok)%bind_res_ok c. rewrite elem_of_cons, (IH cs' H1). split.
    + intros [->|(e' & n' & He & H)]; [exists e, name|exists e', n']; (split; [set_solver|done]).
    + intros (e' & n' & [->|He]%elem_of_cons & Hn & Hc); [left; congruence|right; by exists e', n'].
  - intros H c. rewrite (IH cs H). split; intros (e' & n' & He & Hn & Hc); exists e', n'; (split; [|done]); [set_solver|].
    apply elem_of_cons in He as [->|He]; [congruence|done].
Qed.
Lemma changes_of_sorted s tables es cs : StronglySorted (fun a b => le_ts a <= le_ts b) es -> changes_of s tables es = Ok cs ->
  StronglySorted (fun a b => lc_ts a <= lc_ts b) cs.
Proof.
  intros Hs. revert cs. induction Hs as [|e es Hs IH He]; intros cs; cbn [TriggerLog.changes_of]; [intros [= <-]; constructor|]. destruct (shown_table tables e) as [name|]; [|apply IH].
  intros (c0 & H0 & (cs' & H1 & [= <-])%bind_res_ok)%bind_res_ok. constructor; [by apply IH|]. apply Forall_forall. intros c Hc.
  apply (changes_of_in _ _ _ _ H1) in Hc as (e' & n' & He' & _ & Hc). rewrite Forall_forall in He. specialize (He e' He').
  apply change_of_ts in H0 as [-> _]. apply change_of_ts in Hc as [-> _]. done.
Qed.

End facts.

(** * What the cut keeps *)

Notation lc_sorted := (StronglySorted (fun a b => lc_ts a <= lc_ts b)).

Lemma group_start_spec l t k : let g := group_start l t k in
  (g <= k)%nat /\ (forall i c, (g <= i < k)%nat -> l !! i = Some c -> lc_ts c = t) /\ (forall g' c, g = Datatypes.S g' -> l !! g' = Some c -> lc_ts c <> t).
Proof.
  induction k as [|k IH]; cbn [group_start]; [split; [done|split; [lia|done]]|]. destruct (l !! k) as [c|] eqn:E.
  - destruct (Z.eqb_spec (lc_ts c) t) as [Ht|Ht].
    + cbn in IH. destruct IH as (H1 & H2 & H3). split; [lia|]. split; [|done]. intros i ci Hi Hc. destruct (decide (i = k)) as [->|]; [congruence|]. apply (H2 i ci); [lia|done].
    + split; [done|]. split; [lia|]. intros g' c' [= <-]. congruence.
  - split; [done|]. split; [lia|]. intros g' c' [= <-]. congruence.
Qed.

Lemma group_length_spec l t : lc_sorted l -> (forall c, c ∈ l -> t <= lc_ts c) -> take (group_length l t) l = base.filter (fun c => lc_ts c <= t) l.
Proof.
  induction 1 as [|c l Hl IH Hc]; intros Ht; [done|]. cbn [group_length]. destruct (Z.eqb_spec (lc_ts c) t) as [E|E].
  - rewrite filter_cons_True by lia. cbn [take]. f_equal. apply IH. set_solver.
  - pose proof (Ht c ltac:(left)). symmetry. apply (filter_none (fun c => lc_ts c <= t)). constructor; [lia|]. eapply Forall_impl; [exact Hc|]. cbn. intros; lia.
Qed.

Lemma cut_spec size changes c m : changes <> [] -> lc_sorted changes -> Forall (fun x => c < lc_ts x <= m) changes -> c < m ->
  let '(batch, adv) := cutToByteBudget size changes m in c < adv <= m /\ batch = base.filter (fun x => lc_ts x <= adv) changes /\ batch <> [].
Proof.
  intros Hne Hs Hr Hcm. rewrite Forall_forall in Hr. unfold cutToByteBudget. set (k := cut_index size true 0 changes).
  assert (Hall : forall x i, changes !! i = Some x -> c < lc_ts x <= m) by (intros x i Hx; by eapply Hr, list_elem_of_lookup_2).
  destruct (changes !! k) as [ck|] eqn:Ek; cycle 1.
  { split; [lia|]. split; [|done]. symmetry. apply filter_all. apply Forall_forall. intros x Hx. by apply Hr. }
  destruct (group_start_spec changes (lc_ts ck) k) as (Hg & Hin & Hout). destruct (group_start changes (lc_ts ck) k) as [|g].
  - destruct changes as [|x l]; [done|]. pose proof (Hall x 0%nat eq_refl). split; [lia|]. inversion Hs as [|? ? Hs' Hx]; subst. rewrite Forall_forall in Hx. split.
    + apply group_length_spec; [done|]. intros y [->|Hy]%elem_of_cons; [lia|by apply Hx].
    + cbn [group_length]. by rewrite Z.eqb_refl.
  - pose proof (lookup_lt_Some _ _ _ Ek) as Hk. destruct (lookup_lt_is_Some_2 changes g ltac:(lia)) as [e He]. erewrite take_S_r by done.
    rewrite last_snoc. pose proof (Hall e g He). split; [by destruct changes|]. erewrite <-take_S_r by done.
    assert (Hlt : lc_ts e < lc_ts ck).
    { pose proof (Hout g e eq_refl He). enough (lc_ts e <= lc_ts ck) by lia. apply (sorted_take_drop lc_ts changes (Datatypes.S g)); [done| |].
      - erewrite take_S_r by done. set_solver.
      - apply list_elem_of_lookup. exists (k - Datatypes.S g)%nat. rewrite lookup_drop. by replace (Datatypes.S g + (k - Datatypes.S g))%nat with k by lia. }
    split; [|by erewrite take_S_r by done; destruct (take g changes)].
    symmetry. apply filter_take_drop; apply Forall_forall; intros x Hx.
    + erewrite take_S_r in Hx by done. apply elem_of_app in Hx as [Hx|Hx%list_elem_of_singleton]; [|by subst].
      apply (sorted_take_drop lc_ts changes g); [done|done|]. apply list_elem_of_lookup. exists 0%nat. rewrite lookup_drop. by rewrite Nat.add_0_r.
    + apply list_elem_of_lookup in Hx as [i Hi]. rewrite lookup_drop in Hi. destruct (decide (Datatypes.S g + i < k)%nat).
      * rewrite (Hin (Datatypes.S g + i)%nat x ltac:(lia) Hi). lia.
      * enough (lc_ts ck <= lc_ts x) by lia. destruct (decide (Datatypes.S g + i = k)%nat) as [E|E]; [rewrite E in Hi; replace x with ck by congruence; lia|].
        apply (sorted_take_drop lc_ts changes (Datatypes.S k)); [done|erewrite take_S_r by done; set_solver|].
        apply list_elem_of_lookup. exists (Datatypes.S g + i - Datatypes.S k)%nat. rewrite lookup_drop. by replace (Datatypes.S k + (Datatypes.S g + i - Datatypes.S k))%nat with (Datatypes.S g + i)%nat by lia.
Qed.

(** * The SQLite store meets the contract *)

#[global] Instance sqlite_log_store : LogStore sqlite_store := {
  log_load s a b limit := sq_load_documents s a b Asc (Z.of_nat <$> limit);
  log_max := sq_maxTimestamp;
  log_get s id ts := sq_get s id (Some ts)
}.

Definition row_entry (r : doc_row) : res log_entry := id ← row_doc_id r; entry_of_row id r.
Definition sorted_rows (s : sqlite_store) : list doc_row := js_sort row_order (db_documents (ss_db s)).
(** Every row can be read. *)
Definition sq_readable (s : sqlite_store) : Prop := exists es, traverse row_entry (sorted_rows s) = Ok es.
Definition sq_log (s : sqlite_store) : list log_entry := match traverse row_entry (sorted_rows s) with Ok es => es | Throw _ => [] end.

Lemma row_entry_ts r e : row_entry r = Ok e -> le_ts e = dr_ts r.
Proof. unfold row_entry, entry_of_row. intros (id & _ & (v & _ & [= <-])%bind_res_ok)%bind_res_ok. done. Qed.

Lemma Forall2_filter_both {A B} (R : A -> B -> Prop) (P : A -> Prop) (Q : B -> Prop) `{!forall x, Decision (P x), !forall x, Decision (Q x)} l k :
  (forall a b, R a b -> P a <-> Q b) -> Forall2 R l k -> Forall2 R (base.filter P l) (base.filter Q k).
Proof.
  intros HPQ. induction 1 as [|a b l k Hab _ IH]; [constructor|]. rewrite !filter_cons. specialize (HPQ a b Hab). repeat case_decide; try tauto. by constructor.
Qed.

#[global] Instance sqlite_log_laws : LogLaws sqlite_store sq_readable sq_log.
Proof.
  split.
  - intros s [es Hes]. unfold sq_log. rewrite Hes. apply traverse_Forall2 in Hes. pose proof (js_sort_sorted row_order (db_documents (ss_db s)) _) as Hs.
    fold (sorted_rows s) in Hs. revert Hs. induction Hes as [|r e rs es Hr Hes IH]; [constructor|]. intros Hs0; inversion Hs0 as [|? ? Hs Hall]; subst. constructor; [by apply IH|].
    apply Forall_forall. intros e' He'. apply list_elem_of_lookup in He' as [i Hi]. destruct (Forall2_lookup_r _ _ _ _ _ Hes Hi) as (r' & Hr' & He').
    rewrite Forall_forall in Hall. specialize (Hall r' ltac:(by eapply list_elem_of_lookup_2)). rewrite (row_entry_ts _ _ Hr), (row_entry_ts _ _ He').
    unfold row_order in Hall. destruct (Z.compare_spec (dr_ts r) (dr_ts r')); try lia. done.
  - intros s a b limit [es Hes]. unfold sq_log. rewrite Hes. apply traverse_Forall2 in Hes. cbn [log_load sqlite_log_store]. unfold sq_load_documents. cbn [directed].
    rewrite js_sort_filter by apply _. fold (sorted_rows s). apply traverse_Forall2.
    assert (Hf : Forall2 (fun r e => row_entry r = Ok e) (base.filter (fun r => (a <=? dr_ts r) && (dr_ts r <? b) = true) (sorted_rows s)) (base.filter (ts_within a b) es)).
    { apply Forall2_filter_both; [|done]. intros r e Hre. unfold ts_within. rewrite (row_entry_ts _ _ Hre), andb_true_iff, Z.leb_le, Z.ltb_lt. done. }
    destruct limit as [n|]; cbn [fmap option_fmap option_map sql_limit log_limit]; [|exact Hf]. rewrite Nat2Z.id. by apply Forall2_take.
Qed.
