(* ===== verification/Triggers.v ===== *)
(** Triggers: components/triggers/src/modules.ts, boot.ts and driver.ts.

    The driver keeps one independent loop per trigger, so the model has one
    trigger.  An instance of the driver is at the call it awaits ([tpc]); a call
    is one transaction and what follows it up to the next call.  Any number of
    instances may share the cursor row: a stale one may still be in its pass when
    its successor has started, and any of them may die.

    Over a store that keeps its stable prefix (the SQLite store does) a trigger
    misses nothing and its cursor never moves back; a pass that nothing disturbs
    delivers every change once, in order, and ends. *)
From Stdlib Require Import ZArith Lia Sorted.
From stdpp Require Import base list sets strings sorting.
From S2P Require Import Prelude JsBase JsText Values ValuesJson IdCodec DocStore SqliteDocStore Scheduler TriggerLog.

(** * modules.ts: the row of the trigger *)

Inductive trigger_state := TrRunning | TrPaused.
#[global] Instance trigger_state_eq_dec : EqDecision trigger_state.
Proof. solve_decision. Defined.

Record cursor_row := CursorRow
  { cu_cursorTs : Z; cu_state : trigger_state; cu_failureCount : Z; cu_lastError : option jsstr; cu_pausedReason : option jsstr }.

Definition MAX_CONSECUTIVE_FAILURES : Z := 8.

Definition initCursor (cursorTs : Z) (row : option cursor_row) : cursor_row :=
  match row with Some c => c | None => CursorRow cursorTs TrRunning 0 None None end.

Definition advanceCursor (newCursorTs expectedPrev : Z) (row : option cursor_row) : option cursor_row :=
  match row with
  | None => None
  | Some c => if negb (cu_cursorTs c =? expectedPrev) then Some c else Some (CursorRow newCursorTs (cu_state c) 0 None (cu_pausedReason c))
  end.

(** [k] is the next word of the random generator. *)
Definition recordFailure (k : Z) (error : jsstr) (row : option cursor_row) : option cursor_row * (bool * Z) :=
  match row with
  | None => (None, (false, 0))
  | Some c =>
      let failureCount := cu_failureCount c + 1 in
      if MAX_CONSECUTIVE_FAILURES <=? failureCount
      then (Some (CursorRow (cu_cursorTs c) TrPaused failureCount (Some error) (Some (js "max-failures"))), (true, 0))
      else (Some (CursorRow (cu_cursorTs c) (cu_state c) failureCount (Some error) (cu_pausedReason c)), (false, computeBackoff failureCount k))
  end.

Definition pause (reason : jsstr) (row : option cursor_row) : option cursor_row :=
  match row with
  | Some (CursorRow ts TrRunning n e _) => Some (CursorRow ts TrPaused n e (Some reason))
  | _ => row
  end.

Definition resume (row : option cursor_row) : option cursor_row :=
  match row with Some c => Some (CursorRow (cu_cursorTs c) TrRunning 0 None None) | None => None end.

(** * driver.ts *)

Definition DEFAULT_BATCH_SIZE : nat := 64.
Definition DEFAULT_MAX_DELIVERIES_PER_WINDOW : Z := 1000.
Definition BREAKER_WINDOW_MS : Z := 10000.
Definition BEAT_MS : Z := 30000.

(** The call that is awaited: the peek of the bound, [_getCursor], [_initCursor],
    [readLog], the advance over a quiet stretch, [_pause], the handler,
    [_recordFailure], the advance after a delivery. *)
Inductive tpc :=
  | TIdle
  | TPeek
  | TGet (targetBound : Z)
  | TInit (targetBound cursorTs : Z)
  | TRead (targetBound cursorTs : Z)
  | TQuiet (targetBound cursorTs maxScannedTs : Z)
  | TPause
  | TDeliver (targetBound cursorTs : Z) (batch : list log_change) (advanceTs : Z)
  | TFail (error : jsstr)
  | TAdvance (targetBound cursorTs advanceTs : Z).

(** [td_retryTimer] and [td_beatTimer] are the times the timers are armed for. *)
Record tdrv := TDrv
  { td_stopped : bool; td_pc : tpc; td_pendingWake : bool; td_iterations : Z; td_retryTimer : option Z; td_breaker : option (Z * Z);
    td_nextAttemptAt : option Z; td_beatTimer : option Z }.
Definition tdrv_new : tdrv := TDrv false TIdle false 0 None None None None.

Definition set_tpc (d : tdrv) (pc : tpc) : tdrv :=
  TDrv (td_stopped d) pc (td_pendingWake d) (td_iterations d) (td_retryTimer d) (td_breaker d) (td_nextAttemptAt d) (td_beatTimer d).
Definition set_wake (d : tdrv) (pending : bool) (iterations : Z) : tdrv :=
  TDrv (td_stopped d) (td_pc d) pending iterations (td_retryTimer d) (td_breaker d) (td_nextAttemptAt d) (td_beatTimer d).
Definition set_gate (d : tdrv) (gate : option Z) : tdrv :=
  TDrv (td_stopped d) (td_pc d) (td_pendingWake d) (td_iterations d) (td_retryTimer d) (td_breaker d) gate (td_beatTimer d).
Definition set_breaker (d : tdrv) (w : Z * Z) : tdrv :=
  TDrv (td_stopped d) (td_pc d) (td_pendingWake d) (td_iterations d) (td_retryTimer d) (Some w) (td_nextAttemptAt d) (td_beatTimer d).
Definition set_timers (d : tdrv) (retry beat : option Z) : tdrv :=
  TDrv (td_stopped d) (td_pc d) (td_pendingWake d) (td_iterations d) retry (td_breaker d) (td_nextAttemptAt d) beat.
Definition set_stopped (d : tdrv) (b : bool) : tdrv :=
  TDrv b (td_pc d) (td_pendingWake d) (td_iterations d) (td_retryTimer d) (td_breaker d) (td_nextAttemptAt d) (td_beatTimer d).

Definition is_idle (d : tdrv) : bool := match td_pc d with TIdle => true | _ => false end.
Definition backing_off (now : Z) (d : tdrv) : bool := match td_nextAttemptAt d with Some t => now <? t | None => false end.

(** A pass begins: an attempt that is still backing off returns at once, and
    nothing has woken the pass since. *)
Definition begin_attempt (now : Z) (d : tdrv) : tdrv := if backing_off now d then set_wake (set_tpc d TIdle) false 0 else set_tpc d TPeek.
Definition start_pass (now : Z) (d : tdrv) : tdrv := begin_attempt now (set_wake d false 0).

(** The [finally] of [iterate]. *)
Definition finish_pass (now : Z) (d : tdrv) : tdrv :=
  if td_pendingWake d then if td_stopped d then set_wake (set_tpc d TIdle) false 0 else start_pass now d else set_wake (set_tpc d TIdle) false 0.

(** The end of an attempt, and the loop of [runPass]. *)
Definition end_attempt (now : Z) (d : tdrv) : tdrv :=
  if 1000 <? td_iterations d + 1 then finish_pass now d
  else if td_pendingWake d then begin_attempt now (set_wake d false (td_iterations d + 1)) else finish_pass now d.

Definition iterate (now : Z) (d : tdrv) : tdrv := if is_idle d then start_pass now d else set_wake d true (td_iterations d).
Definition wake (now : Z) (d : tdrv) : tdrv := if td_stopped d then d else iterate now d.

(** [true]: the breaker trips. *)
Definition recordDeliveryAndCheckBreaker (now maxPerWindow : Z) (d : tdrv) : tdrv * bool :=
  let '(windowStart, count) :=
    match td_breaker d with Some (t, n) => if BREAKER_WINDOW_MS <=? now - t then (now, 0) else (t, n) | None => (now, 0) end in
  (set_breaker d (windowStart, count + 1), maxPerWindow <? count + 1).

Definition armRetryTimer (at_ : Z) (d : tdrv) : tdrv := set_timers d (Some at_) (td_beatTimer d).

(** ** boot.ts *)

Inductive function_kind := FkQuery | FkMutation | FkAction | FkHttpAction.
Definition isInternalPath (path : jsstr) : bool := existsb (starts_with [95]) (js_split 58 path).
Definition check_handler (functionKind : jsstr -> option function_kind) (handler : jsstr) : res unit :=
  match functionKind handler with
  | None => Throw (PlainError "unknown handler path")
  | Some kind =>
      if negb (isInternalPath handler) then Throw (PlainError "must be an internal function")
      else match kind with FkMutation | FkAction => Ok tt | _ => Throw (PlainError "not a mutation or action") end
  end.
(** The handlers in the order of the configuration. *)
Fixpoint validateHandlers (functionKind : jsstr -> option function_kind) (handlers : list jsstr) : res unit :=
  match handlers with [] => Ok tt | h :: hs => _ ← check_handler functionKind h; validateHandlers functionKind hs end.

Section driver.
Context (functionKind : jsstr -> option function_kind) (handlers : list jsstr).
Context {S : Type} `{!LogStore S} (tableNumberToName : Z -> option jsstr) (stable : S -> option Z) (change_size : log_change -> Z).
Context (name : jsstr) (fromStart : bool) (batchSize : nat) (maxPerWindow : Z) (backstopMs : Z -> Z).

Definition armBeat (now : Z) (d : tdrv) : tdrv := if td_stopped d then d else set_timers d (td_retryTimer d) (Some (now + backstopMs BEAT_MS)).

(** A handler that is not valid leaves the driver without its listener, its wake
    and its beat. *)
Definition start (now : Z) (d : tdrv) : tdrv :=
  let d := set_stopped d false in
  match validateHandlers functionKind handlers with Ok _ => armBeat now (wake now d) | Throw _ => d end.
Definition stop (d : tdrv) : tdrv := set_timers (set_stopped d true) None None.
(** The beat and the retry timer go off. *)
Definition beat (now : Z) (d : tdrv) : tdrv := armBeat now (wake now d).
Definition retry (now : Z) (d : tdrv) : tdrv := wake now (set_timers d None (td_beatTimer d)).

(** The head of the loop of an attempt. *)
Definition loop (now targetBound cursorTs : Z) (d : tdrv) : tdrv :=
  if cursorTs <? targetBound then set_tpc d (TRead targetBound cursorTs) else end_attempt now d.
Definition with_cursor (now targetBound : Z) (c : cursor_row) (d : tdrv) : tdrv :=
  match cu_state c with TrRunning => loop now targetBound (cu_cursorTs c) d | TrPaused => end_attempt now d end.

Definition read (s : S) (afterTs : Z) (tables : list jsstr) (limit : nat) : res (list log_change * Z) :=
  readLog tableNumberToName s (stable s) afterTs (Some tables) (Some limit).

(** What follows a scan. *)
Definition scanned (now targetBound cursorTs : Z) (changes : list log_change) (maxScannedTs : Z) (d : tdrv) : tdrv :=
  match changes with
  | [] => if maxScannedTs <=? cursorTs then end_attempt now d else set_tpc d (TQuiet targetBound cursorTs maxScannedTs)
  | _ =>
      let '(batch, advanceTs) := cutToByteBudget change_size changes maxScannedTs in
      let '(d, tripped) := recordDeliveryAndCheckBreaker now maxPerWindow d in
      if tripped then set_tpc d TPause else set_tpc d (TDeliver targetBound cursorTs batch advanceTs)
  end.

(** The awaited call succeeds.  [k] is the random word of its transaction; the
    last part of the answer is what was delivered. *)
Definition call (now k : Z) (s : S) (row : option cursor_row) (d : tdrv) : tdrv * option cursor_row * list (list log_change) :=
  match td_pc d with
  | TIdle => (d, row, [])
  | TPeek => match read s 0 [] 0 with Ok (_, targetBound) => (set_tpc d (TGet targetBound), row, []) | Throw _ => (finish_pass now d, row, []) end
  | TGet b =>
      match row with
      | Some c => (with_cursor now b c d, row, [])
      | None => (set_tpc d (TInit b (if fromStart then 0 else b)), row, [])
      end
  | TInit b ts => let c := initCursor ts row in (with_cursor now b c d, Some c, [])
  | TRead b ts =>
      match read s ts [name] batchSize with
      | Ok (changes, maxScannedTs) => (scanned now b ts changes maxScannedTs d, row, [])
      | Throw _ => (finish_pass now d, row, [])
      end
  | TQuiet b ts new => (loop now b new d, advanceCursor new ts row, [])
  | TPause => (end_attempt now d, pause (js "circuit-breaker") row, [])
  | TDeliver b ts batch new => (set_tpc d (TAdvance b ts new), row, [batch])
  | TFail e =>
      let '(row', (paused, retryDelayMs)) := recordFailure k e row in
      let d := if paused then set_gate d None else let retryAt := now + retryDelayMs in armRetryTimer retryAt (set_gate d (Some retryAt)) in
      (end_attempt now d, row', [])
  | TAdvance b ts new => (loop now b new (set_gate d None), advanceCursor new ts row, [])
  end.

(** The awaited call fails and leaves nothing behind. *)
Definition call_fails (now : Z) (e : jsstr) (d : tdrv) : tdrv :=
  match td_pc d with
  | TIdle => d
  | TDeliver _ _ _ _ => set_tpc d (TFail e)
  | _ => finish_pass now d
  end.

(** * The system *)

(** [tw_start] is the cursor the row was created with, [tw_delivered] the batches
    that a handler took, for the theorems. *)
Record tworld := TWorld
  { tw_store : S; tw_row : option cursor_row; tw_drivers : list (Z * tdrv); tw_start : option Z; tw_delivered : list (list log_change) }.

Inductive tlabel :=
  | TlStore (s : S)
  | TlSpawn (i : Z)
  | TlDie (i : Z)
  | TlStart (now i : Z)
  | TlStop (i : Z)
  | TlWake (now i : Z)
  | TlBeat (now i : Z)
  | TlRetry (now i : Z)
  | TlCall (now k i : Z)
  | TlFail (now i : Z) (e : jsstr)
  | TlLost (now k i : Z) (e : jsstr)
  | TlResume.

Definition on_driver (f : tdrv -> tdrv) (i : Z) (w : tworld) : tworld :=
  match jm_get (tw_drivers w) i with
  | Some d => TWorld (tw_store w) (tw_row w) (jm_set (tw_drivers w) i (f d)) (tw_start w) (tw_delivered w)
  | None => w
  end.

(** [lost]: the call commits and its answer is lost, which its caller takes for a failure. *)
Definition do_call (lost : option jsstr) (now k i : Z) (w : tworld) : tworld :=
  match jm_get (tw_drivers w) i with
  | Some d =>
      let '(d', row, out) := call now k (tw_store w) (tw_row w) d in
      TWorld (tw_store w) row (jm_set (tw_drivers w) i (match lost with None => d' | Some e => call_fails now e d end))
        (match tw_row w, row with None, Some c => Some (cu_cursorTs c) | _, _ => tw_start w end) (tw_delivered w ++ out)
  | None => w
  end.

Definition tstep (w : tworld) (l : tlabel) : tworld :=
  match l with
  | TlStore s => TWorld s (tw_row w) (tw_drivers w) (tw_start w) (tw_delivered w)
  | TlSpawn i => TWorld (tw_store w) (tw_row w) (jm_set (tw_drivers w) i tdrv_new) (tw_start w) (tw_delivered w)
  | TlDie i => TWorld (tw_store w) (tw_row w) (jm_delete (tw_drivers w) i) (tw_start w) (tw_delivered w)
  | TlStart now i => on_driver (start now) i w
  | TlStop i => on_driver stop i w
  | TlWake now i => on_driver (wake now) i w
  | TlBeat now i => on_driver (beat now) i w
  | TlRetry now i => on_driver (retry now) i w
  | TlCall now k i => do_call None now k i w
  | TlFail now i e => on_driver (call_fails now e) i w
  | TlLost now k i e => do_call (Some e) now k i w
  | TlResume => TWorld (tw_store w) (resume (tw_row w)) (tw_drivers w) (tw_start w) (tw_delivered w)
  end.
Definition tsteps (w : tworld) (ls : list tlabel) : tworld := fold_left tstep ls w.
Definition tworld_new (s : S) : tworld := TWorld s None [] None [].
End driver.

(** * A trigger misses nothing *)

(** [e] is the revision that the change [c] reports. *)
Definition op_of (e : log_entry) : change_op := match le_value e, le_prev e with None, _ => OpDelete | _, None => OpInsert | _, _ => OpUpdate end.
Definition reports (name : jsstr) (e : log_entry) (c : log_change) : Prop :=
  lc_table c = name /\ lc_ts c = le_ts e /\ encodeInternalDocumentId (le_id e) = Ok (lc_id c) /\ lc_op c = op_of e.

Lemma change_of_reports {S} `{!LogStore S} (s : S) name e c : change_of s name e = Ok c -> reports name e c.
Proof.
  unfold change_of. intros (nd & _ & (od & _ & (id & Hid & [= <-])%bind_res_ok)%bind_res_ok)%bind_res_ok. by repeat split.
Qed.

Lemma end_attempt_pc now d : td_pc (end_attempt now d) = TIdle \/ td_pc (end_attempt now d) = TPeek.
Proof. unfold end_attempt, finish_pass, start_pass, begin_attempt. repeat case_match; auto. Qed.
Lemma finish_pass_pc now d : td_pc (finish_pass now d) = TIdle \/ td_pc (finish_pass now d) = TPeek.
Proof. unfold finish_pass, start_pass, begin_attempt. repeat case_match; auto. Qed.
Lemma wake_pc now d : td_pc (wake now d) = td_pc d \/ td_pc (wake now d) = TIdle \/ td_pc (wake now d) = TPeek.
Proof. unfold wake, iterate, start_pass, begin_attempt. repeat case_match; auto. Qed.

Section facts.
Context (functionKind : jsstr -> option function_kind) (handlers : list jsstr).
Context {S : Type} `{!LogStore S} {valid : S -> Prop} {log : S -> list log_entry} `{!LogLaws S valid log}.
Context (tableNumberToName : Z -> option jsstr) (stable : S -> option Z) (change_size : log_change -> Z).
Context (name : jsstr) (fromStart : bool) (batchSize : nat) (maxPerWindow : Z) (backstopMs : Z -> Z).
Notation tstep := (tstep functionKind handlers tableNumberToName stable change_size name fromStart batchSize maxPerWindow backstopMs).
Notation tsteps := (tsteps functionKind handlers tableNumberToName stable change_size name fromStart batchSize maxPerWindow backstopMs).
Notation call := (call tableNumberToName stable change_size name fromStart batchSize maxPerWindow).
Notation tworld := (tworld (S := S)).
Notation tlabel := (tlabel (S := S)).

(** The entries of the watched table. *)
Definition watched (e : log_entry) : Prop := shown_table tableNumberToName (Some [name]) e = Some name.

(** The bound a pass would see now. *)
Definition reach (s : S) : Z := Z.max 0 (log_bound s (stable s)).

(** The stable prefix only grows: below the bound nothing appears any more. *)
Definition grows (s s' : S) : Prop :=
  valid s' /\ reach s <= reach s' /\ base.filter (fun e => le_ts e <= reach s) (log s') = base.filter (fun e => le_ts e <= reach s) (log s).
Fixpoint stores_grow (s : S) (ls : list tlabel) : Prop :=
  match ls with
  | [] => True
  | TlStore s' :: ls => grows s s' /\ stores_grow s' ls
  | _ :: ls => stores_grow s ls
  end.

(** Every entry of the watched table in (a, b] is in a batch of [out]. *)
Definition delivers (s : S) (out : list (list log_change)) (a b : Z) : Prop :=
  forall e, e ∈ log s -> watched e -> a < le_ts e <= b -> exists batch c, batch ∈ out /\ c ∈ batch /\ reports name e c.

Definition covered (w : tworld) (c : Z) : Prop :=
  exists st, tw_start w = Some st /\ (fromStart = true -> st = 0) /\ st <= c <= reach (tw_store w) /\ delivers (tw_store w) (tw_delivered w) st c.

Definition pc_ok (w : tworld) (pc : tpc) : Prop :=
  match pc with
  | TGet b => b <= reach (tw_store w) /\ 0 <= b
  | TInit b ts => ts <= reach (tw_store w) /\ (fromStart = true -> ts = 0)
  | TRead b c => covered w c
  | TQuiet b c m => c < m /\ covered w m
  | TDeliver b c batch adv => c < adv <= reach (tw_store w) /\ covered w c /\ delivers (tw_store w) [batch] c adv
  | TAdvance b c adv => c < adv /\ covered w adv
  | _ => True
  end.
Definition row_ok (w : tworld) : Prop := match tw_row w with Some c => covered w (cu_cursorTs c) | None => tw_start w = None end.
Definition trigger_inv (w : tworld) : Prop :=
  valid (tw_store w) /\ row_ok w /\ forall i d, jm_get (tw_drivers w) i = Some d -> pc_ok w (td_pc d).

(** What never breaks what has been covered. *)
Definition extends (w w' : tworld) : Prop :=
  (tw_store w' = tw_store w \/ grows (tw_store w) (tw_store w')) /\ (tw_start w = None \/ tw_start w' = tw_start w) /\
  (forall batch, batch ∈ tw_delivered w -> batch ∈ tw_delivered w').

Lemma grows_reach w w' : extends w w' -> reach (tw_store w) <= reach (tw_store w').
Proof. intros ([->|(_ & H & _)] & _); lia. Qed.
Lemma delivers_grows w w' out out' a b : extends w w' -> (forall batch, batch ∈ out -> batch ∈ out') -> b <= reach (tw_store w) ->
  delivers (tw_store w) out a b -> delivers (tw_store w') out' a b.
Proof.
  intros (Hs & _ & _) Ho Hb H e He Hw Hr. assert (e ∈ log (tw_store w)) as He'.
  { destruct Hs as [<-|(_ & _ & Hf)]; [done|]. assert (e ∈ base.filter (fun e => le_ts e <= reach (tw_store w)) (log (tw_store w'))) as Hin by (apply list_elem_of_filter; split; [lia|done]).
    rewrite Hf in Hin. by apply list_elem_of_filter in Hin as [_ ?]. }
  destruct (H e He' Hw Hr) as (batch & c & ? & ?). exists batch, c. auto.
Qed.
Lemma covered_extends w w' c : extends w w' -> covered w c -> covered w' c.
Proof.
  intros He (st & Hst & Hz & Hc & Hd). pose proof (grows_reach _ _ He). exists st. split; [destruct He as (_ & [E|E] & _); congruence|]. split; [done|]. split; [lia|].
  eapply delivers_grows; [done| |lia|done]. apply He.
Qed.
Lemma pc_ok_extends w w' pc : extends w w' -> pc_ok w pc -> pc_ok w' pc.
Proof.
  intros He. pose proof (grows_reach _ _ He). destruct pc; cbn [pc_ok]; try done; try lia; try (by apply covered_extends);
    try (intros [? ?]; split; [lia||done|done||by eapply covered_extends]).
  intros (? & Hc & Hd). split; [lia|]. split; [by eapply covered_extends|]. eapply delivers_grows; [done|done|lia|done].
Qed.

Lemma fresh_pc w pc : pc = TIdle \/ pc = TPeek -> pc_ok w pc.
Proof. by intros [-> | ->]. Qed.
Lemma loop_ok w now b c d : covered w c -> pc_ok w (td_pc (loop now b c d)).
Proof. intros H. unfold loop. destruct (c <? b); [done|]. apply fresh_pc, end_attempt_pc. Qed.
Lemma with_cursor_ok w now b c d : covered w (cu_cursorTs c) -> pc_ok w (td_pc (with_cursor now b c d)).
Proof. intros H. unfold with_cursor. destruct (cu_state c); [by apply loop_ok|]. apply fresh_pc, end_attempt_pc. Qed.

Lemma delivers_join s out out' a b c : (forall batch, batch ∈ out -> batch ∈ out') -> delivers s out a b -> delivers s out' b c -> delivers s out' a c.
Proof.
  intros Ho H1 H2 e He Hw Hr. destruct (decide (le_ts e <= b)) as [E|E]; [|apply H2; [done|done|lia]].
  destruct (H1 e He Hw ltac:(lia)) as (batch & ch & ? & ?). exists batch, ch. auto.
Qed.
Lemma covered_forward w c m : covered w c -> c <= m <= reach (tw_store w) -> delivers (tw_store w) (tw_delivered w) c m -> covered w m.
Proof. intros (st & Hst & Hz & Hc & Hd) Hm H. exists st. split; [done|]. split; [done|]. split; [lia|]. by apply (delivers_join _ (tw_delivered w) _ st c m). Qed.

(** A scan shows every entry of its range, and the cut every entry up to its end. *)
Lemma changes_between_shows s c m changes e : changes_between (log := log) tableNumberToName s (Some [name]) c m = Ok changes ->
  e ∈ log s -> watched e -> c < le_ts e <= m -> exists ch, ch ∈ changes /\ reports name e ch.
Proof.
  intros Hc He Hw Hr. unfold changes_between in Hc. set (es := base.filter (ts_within (c + 1) (m + 1)) (log s)) in *.
  assert (He' : e ∈ es) by (apply list_elem_of_filter; unfold ts_within; split; [lia|done]).
  assert (exists ch, ch ∈ changes /\ change_of s name e = Ok ch) as (ch & ? & ?%change_of_reports); [|eauto]. clear He Hr.
  revert changes Hc He'. generalize es. clear es. intros es. induction es as [|x es IH]; intros changes Hc He; [set_solver|]. cbn [changes_of] in Hc.
  apply elem_of_cons in He as [<-|He].
  - rewrite Hw in Hc. apply bind_res_ok in Hc as (ch & H0 & (cs & H1 & [= <-])%bind_res_ok). exists ch. split; [left|done].
  - destruct (shown_table _ _ x).
    + apply bind_res_ok in Hc as (c0 & H0 & (cs & H1 & [= <-])%bind_res_ok). destruct (IH cs H1 He) as (ch & ? & ?). exists ch. split; [by right|done].
    + by apply IH.
Qed.
Lemma changes_between_range s c m changes : valid s -> changes_between (log := log) tableNumberToName s (Some [name]) c m = Ok changes ->
  StronglySorted (fun a b => lc_ts a <= lc_ts b) changes /\ Forall (fun x => c < lc_ts x <= m) changes.
Proof.
  intros Hv Hc. unfold changes_between in Hc. split; [eapply changes_of_sorted; [|exact Hc]; by apply sorted_filter, log_sorted|].
  apply Forall_forall. intros x Hx. apply (changes_of_in _ _ _ _ _ Hc) in Hx as (e & n & He & _ & [-> _]%change_of_ts).
  apply list_elem_of_filter in He as [Hw _]. unfold ts_within in Hw. lia.
Qed.

Hypothesis batch_pos : batchSize <> 0%nat.

Lemma scanned_ok w now b c changes m d : valid (tw_store w) -> covered w c -> read tableNumberToName stable (tw_store w) c [name] batchSize = Ok (changes, m) ->
  pc_ok w (td_pc (scanned change_size maxPerWindow now b c changes m d)).
Proof.
  intros Hv Hc Hr. unfold read in Hr. apply readLog_exact in Hr; [|done]. destruct (Z.leb_spec (log_bound (tw_store w) (stable (tw_store w))) c) as [Hb|Hb].
  - destruct Hr as [-> ->]. cbn [scanned]. destruct (Z.leb_spec c c); [|lia]. apply fresh_pc, end_attempt_pc.
  - destruct Hr as (Hm & Hch & _). specialize (Hch ltac:(congruence)). assert (Hmr : m <= reach (tw_store w)) by (unfold reach; lia).
    destruct (changes_between_range _ _ _ _ Hv Hch) as [Hs Hall]. destruct changes as [|ch changes]; cbn [scanned].
    + destruct (Z.leb_spec m c); [lia|]. split; [lia|]. eapply covered_forward; [done|lia|]. intros e He Hw Hr. destruct (changes_between_shows _ _ _ _ _ Hch He Hw Hr) as (? & ? & _). set_solver.
    + pose proof (cut_spec change_size (ch :: changes) c m ltac:(discriminate) Hs Hall ltac:(lia)) as Hcut. destruct (cutToByteBudget change_size (ch :: changes) m) as [batch adv].
      destruct (recordDeliveryAndCheckBreaker now maxPerWindow d) as [d' []]; [done|]. destruct Hcut as (Ha & -> & _). cbn [set_tpc td_pc pc_ok]. split; [lia|]. split; [done|].
      intros e He Hw Hr. destruct (changes_between_shows _ _ _ _ _ Hch He Hw ltac:(lia)) as (x & Hx & Hrep). eexists _, x. split; [left|]. split; [|done].
      apply list_elem_of_filter. destruct Hrep as (_ & -> & _). split; [lia|done].
Qed.

(** The world after a call, for the instance that made it. *)
Definition after_call (w : tworld) (row : option cursor_row) (drivers : list (Z * tdrv)) (out : list (list log_change)) : tworld :=
  TWorld (tw_store w) row drivers (match tw_row w, row with None, Some c => Some (cu_cursorTs c) | _, _ => tw_start w end) (tw_delivered w ++ out).
Definition row_le (row row' : option cursor_row) : Prop := forall c, row = Some c -> exists c', row' = Some c' /\ cu_cursorTs c <= cu_cursorTs c'.

Lemma after_call_extends w row ds out : row_ok w -> extends w (after_call w row ds out).
Proof.
  intros Hr. split; [by left|]. split; [|intros batch H; cbn; set_solver]. unfold row_ok in Hr. cbn. destruct (tw_row w); [by right|by left].
Qed.
Lemma row_le_refl row : row_le row row.
Proof. intros c ->. exists c. split; [done|lia]. Qed.
Lemma row_unchanged w row ds out : row_ok w -> (forall c c', tw_row w = Some c -> row = Some c' -> cu_cursorTs c' = cu_cursorTs c) ->
  (tw_row w = None <-> row = None) -> row_ok (after_call w row ds out) /\ row_le (tw_row w) row.
Proof.
  intros Hr Hc Hn. pose proof (after_call_extends w row ds out Hr) as He. unfold row_ok in *. unfold after_call at 1. cbn [tw_row]. destruct (tw_row w) as [c|] eqn:Er, row as [c'|].
  - split; [rewrite (Hc c c') by done; by eapply covered_extends|]. intros x [= <-]. exists c'. split; [done|]. rewrite (Hc c c') by done. lia.
  - by pose proof (proj2 Hn eq_refl).
  - by pose proof (proj1 Hn eq_refl).
  - unfold after_call. cbn. rewrite Er. split; [done|intros x [=]].
Qed.
Lemma trigger_advance_ok w new ts ds out : row_ok w -> ts < new -> covered w new ->
  row_ok (after_call w (advanceCursor new ts (tw_row w)) ds out) /\ row_le (tw_row w) (advanceCursor new ts (tw_row w)).
Proof.
  intros Hr Hn Hc. pose proof (after_call_extends w (advanceCursor new ts (tw_row w)) ds out Hr) as He. destruct (tw_row w) as [c|] eqn:Er; cbn [advanceCursor] in *.
  - destruct (Z.eqb_spec (cu_cursorTs c) ts) as [E|E]; cbn [negb] in *.
    + split; [by apply (covered_extends _ _ _ He)|]. intros x [= <-]. eexists. split; [done|]. cbn. lia.
    + split; [|apply row_le_refl]. unfold row_ok in Hr. rewrite Er in Hr. by apply (covered_extends _ _ _ He).
  - split; [|apply row_le_refl]. unfold row_ok, after_call in *. cbn. by rewrite Er in *.
Qed.

Lemma peek_reach s b changes : valid s -> read tableNumberToName stable s 0 [] 0 = Ok (changes, b) -> b = reach s.
Proof.
  intros Hv Hr. unfold read in Hr. apply readLog_exact in Hr; [|done]. unfold reach. destruct (Z.leb_spec (log_bound s (stable s)) 0); [destruct Hr; lia|].
  destruct Hr as (_ & _ & Hr). destruct (Hr eq_refl). lia.
Qed.

Lemma call_fails_pc w now e d : pc_ok w (td_pc (call_fails now e d)).
Proof. unfold call_fails. destruct (td_pc d) eqn:E; try (by rewrite E); try (by apply fresh_pc, finish_pass_pc); done. Qed.

Lemma call_ok w now k d d' row out ds : valid (tw_store w) -> row_ok w -> pc_ok w (td_pc d) -> call now k (tw_store w) (tw_row w) d = (d', row, out) ->
  let w' := after_call w row ds out in row_ok w' /\ row_le (tw_row w) row /\ pc_ok w' (td_pc d').
Proof.
  intros Hv Hr Hp Hc w'. assert (He : extends w w') by (by apply after_call_extends).
  assert (Hsame : row = tw_row w -> row_ok w' /\ row_le (tw_row w) row).
  { intros ->. apply row_unchanged; [done|congruence|done]. }
  unfold Triggers.call in Hc. destruct (td_pc d) as [| |b|b ts|b ts|b ts new| |b ts batch new|e|b ts new] eqn:Epc; cbn [pc_ok] in Hp.
  - injection Hc as <- <- <-. rewrite Epc. destruct Hsame; done.
  - destruct (read _ _ _ 0 [] 0) as [[ch b]|x] eqn:Ep; injection Hc as <- <- <-; (split; [by apply Hsame|split; [by apply Hsame|]]).
    + apply peek_reach in Ep; [|done]. cbn. subst b. unfold reach. lia.
    + apply fresh_pc, finish_pass_pc.
  - destruct (tw_row w) as [c|] eqn:Er; injection Hc as <- <- <-; (split; [by apply Hsame|split; [by apply Hsame|]]).
    + apply with_cursor_ok. eapply covered_extends; [done|]. unfold row_ok in Hr. by rewrite Er in Hr.
    + cbn. destruct fromStart; [unfold reach|]; split; lia.
  - injection Hc as <- <- <-. assert (Hcov : covered w' (cu_cursorTs (initCursor ts (tw_row w)))).
    { unfold row_ok in Hr. destruct (tw_row w) as [c|] eqn:Er; [by eapply covered_extends|]. exists ts. subst w'. unfold after_call. rewrite Er. cbn. split; [done|]. split; [apply Hp|]. split; [lia|]. intros e _ _ ?. lia. }
    split; [done|]. split; [|by apply with_cursor_ok]. unfold initCursor. destruct (tw_row w); [apply row_le_refl|by intros ? [=]].
  - destruct (read _ _ _ ts [name] batchSize) as [[ch m]|x] eqn:Ep; injection Hc as <- <- <-; (split; [by apply Hsame|split; [by apply Hsame|]]).
    + eapply pc_ok_extends; [done|]. by eapply scanned_ok.
    + apply fresh_pc, finish_pass_pc.
  - injection Hc as <- <- <-. destruct Hp as [Hlt Hcov]. destruct (trigger_advance_ok w new ts ds [] Hr Hlt Hcov) as [H1 H2]. split; [done|]. split; [done|]. apply loop_ok. by eapply covered_extends.
  - injection Hc as <- <- <-. destruct (row_unchanged w (pause (js "circuit-breaker") (tw_row w)) ds [] Hr) as [H1 H2].
    + intros [ts [] n e p] c' -> [= <-]; done.
    + destruct (tw_row w) as [[ts [] n e p]|]; done.
    + split; [done|]. split; [done|]. apply fresh_pc, end_attempt_pc.
  - injection Hc as <- <- <-. destruct Hp as (Hlt & Hcov & Hd). split; [by apply Hsame|split; [by apply Hsame|]]. cbn. split; [lia|].
    apply (covered_forward w' ts new); [by eapply covered_extends|cbn; lia|]. eapply delivers_grows; [done| |lia|done]. intros x Hx. cbn. set_solver.
  - destruct (recordFailure k e (tw_row w)) as [row' [paused delay]] eqn:Ef. injection Hc as <- <- <-. destruct (row_unchanged w row' ds [] Hr) as [H1 H2].
    + intros c c' Er ->. rewrite Er in Ef. cbn [recordFailure] in Ef. destruct (_ <=? _); by injection Ef as <- _ _.
    + destruct (tw_row w); cbn [recordFailure] in Ef; [destruct (_ <=? _)|]; by injection Ef as <- _ _.
    + split; [done|]. split; [done|]. apply fresh_pc, end_attempt_pc.
  - injection Hc as <- <- <-. destruct Hp as [Hlt Hcov]. destruct (trigger_advance_ok w new ts ds [] Hr Hlt Hcov) as [H1 H2]. split; [done|]. split; [done|]. apply loop_ok. by eapply covered_extends.
Qed.

Lemma drivers_after w w' (ds : list (Z * tdrv)) i d' : extends w w' -> tw_drivers w' = jm_set ds i d' -> (forall j d, jm_get ds j = Some d -> pc_ok w (td_pc d)) ->
  pc_ok w' (td_pc d') -> forall j d, jm_get (tw_drivers w') j = Some d -> pc_ok w' (td_pc d).
Proof.
  intros He Hds Hall Hd j d. rewrite Hds, jm_get_set. destruct (decide (j = i)) as [->|Hj]; [by intros [= <-]|].
  intros Hj'. eapply pc_ok_extends; [done|]. by eapply Hall.
Qed.

Lemma on_driver_inv f i w : (forall d, pc_ok w (td_pc d) -> pc_ok w (td_pc (f d))) -> trigger_inv w -> trigger_inv (on_driver f i w).
Proof.
  intros Hf (Hv & Hr & Hd). unfold on_driver. destruct (jm_get (tw_drivers w) i) as [d|] eqn:Ed; [|done]. split; [done|]. split; [done|].
  eapply (drivers_after w); [|done|exact Hd|].
  - split; [by left|]. by split; [right|].
  - apply Hf. by eapply Hd.
Qed.
Lemma trigger_wake_ok w now d : pc_ok w (td_pc d) -> pc_ok w (td_pc (wake now d)).
Proof. intros H. destruct (wake_pc now d) as [->|H']; [done|by apply fresh_pc]. Qed.
Lemma beat_ok w now d : pc_ok w (td_pc d) -> pc_ok w (td_pc (beat backstopMs now d)).
Proof. intros H. apply (trigger_wake_ok w now) in H. unfold beat, armBeat. by destruct (td_stopped _). Qed.
Lemma trigger_start_ok w now d : pc_ok w (td_pc d) -> pc_ok w (td_pc (start functionKind handlers backstopMs now d)).
Proof.
  intros H. unfold start. destruct (validateHandlers _ _); [|done]. unfold armBeat.
  pose proof (trigger_wake_ok w now (set_stopped d false) H). by destruct (td_stopped _).
Qed.

Lemma do_call_inv lost now k i w : trigger_inv w ->
  let w' := do_call tableNumberToName stable change_size name fromStart batchSize maxPerWindow lost now k i w in trigger_inv w' /\ row_le (tw_row w) (tw_row w').
Proof.
  intros (Hv & Hr & Hd). unfold do_call. destruct (jm_get (tw_drivers w) i) as [d|] eqn:Ed; [|split; [done|apply row_le_refl]].
  destruct (call now k (tw_store w) (tw_row w) d) as [[d' row] out] eqn:Ec. set (ds := jm_set _ _ _).
  destruct (call_ok w now k d d' row out ds Hv Hr (Hd i d Ed) Ec) as (H1 & H2 & H3). fold (after_call w row ds out). split; [|done]. split; [done|]. split; [done|].
  eapply (drivers_after w); [by apply after_call_extends|done|exact Hd|]. destruct lost; [apply call_fails_pc|done].
Qed.

Definition grows_by (s : S) (l : tlabel) : Prop := match l with TlStore s' => grows s s' | _ => True end.
Lemma tstep_inv w l : trigger_inv w -> grows_by (tw_store w) l -> trigger_inv (tstep w l) /\ row_le (tw_row w) (tw_row (tstep w l)).
Proof.
  intros Hi Hg. assert (Hon : forall f i, (forall d, pc_ok w (td_pc d) -> pc_ok w (td_pc (f d))) -> trigger_inv (on_driver f i w) /\ row_le (tw_row w) (tw_row (on_driver f i w))).
  { intros f i Hf. split; [by apply on_driver_inv|]. unfold on_driver. destruct (jm_get _ _); apply row_le_refl. }
  destruct l as [s'|i|i|now i|i|now i|now i|now i|now k i|now i e|now k i e|]; cbn [Triggers.tstep]; try (by apply do_call_inv); try (apply Hon; intros d Hd; cbn [td_pc]).
  - destruct Hi as (Hv & Hr & Hd). cbn in Hg. assert (He : extends w (TWorld s' (tw_row w) (tw_drivers w) (tw_start w) (tw_delivered w))) by (split; [by right|by split; [right|]]).
    split; [|apply row_le_refl]. split; [apply Hg|]. split.
    + unfold row_ok in *. cbn [tw_row]. destruct (tw_row w); [by eapply covered_extends|done].
    + intros i d Hi. eapply pc_ok_extends; [done|]. by eapply Hd.
  - destruct Hi as (Hv & Hr & Hd). split; [|apply row_le_refl]. split; [done|]. split; [done|]. by eapply (drivers_after w); [split; [by left|by split; [right|]]|done|exact Hd|].
  - destruct Hi as (Hv & Hr & Hd). split; [|apply row_le_refl]. split; [done|]. split; [done|]. intros j d. cbn [tw_drivers]. rewrite jm_get_delete. destruct (decide _); [done|]. apply Hd.
  - by apply trigger_start_ok.
  - exact Hd.
  - by apply trigger_wake_ok.
  - by apply beat_ok.
  - unfold retry. by apply (trigger_wake_ok w now (set_timers d None (td_beatTimer d))).
  - apply call_fails_pc.
  - destruct Hi as (Hv & Hr & Hd). assert (Hle : row_le (tw_row w) (resume (tw_row w))) by (intros c ->; eexists; split; [done|cbn; lia]). split; [|done]. split; [done|]. split; [|done].
    unfold row_ok in *. cbn. by destruct (tw_row w).
Qed.

Lemma row_le_trans r1 r2 r3 : row_le r1 r2 -> row_le r2 r3 -> row_le r1 r3.
Proof. intros H1 H2 c Hc. destruct (H1 c Hc) as (c' & Hc' & ?). destruct (H2 c' Hc') as (c'' & ? & ?). exists c''. split; [done|lia]. Qed.

Lemma tstep_store w l : tw_store (tstep w l) = match l with TlStore s' => s' | _ => tw_store w end.
Proof. destruct l; try done; cbn [Triggers.tstep]; unfold on_driver, do_call; destruct (jm_get _ _); try done; by destruct (call _ _ _ _ _) as [[??]?]. Qed.

Lemma tsteps_inv w ls : trigger_inv w -> stores_grow (tw_store w) ls -> trigger_inv (tsteps w ls) /\ row_le (tw_row w) (tw_row (tsteps w ls)).
Proof.
  revert w. induction ls as [|l ls IH]; intros w Hi Hg; [split; [done|apply row_le_refl]|]. destruct (tstep_inv w l Hi) as [H1 H2]; [by destruct l; [apply Hg|..]|].
  destruct (IH (tstep w l) H1) as [H3 H4]; [rewrite tstep_store; by destruct l; [apply Hg|..]|]. split; [done|]. by eapply row_le_trans.
Qed.
Lemma tsteps_app w ls ls' : tsteps w (ls ++ ls') = tsteps (tsteps w ls) ls'.
Proof. apply fold_left_app. Qed.
Lemma stores_grow_app w ls ls' : stores_grow (tw_store w) (ls ++ ls') <-> stores_grow (tw_store w) ls /\ stores_grow (tw_store (tsteps w ls)) ls'.
Proof.
  revert w. induction ls as [|l ls IH]; intros w; [cbn; tauto|]. specialize (IH (tstep w l)). rewrite tstep_store in IH. change (tsteps w (l :: ls)) with (tsteps (tstep w l) ls).
  destruct l; cbn [app stores_grow]; tauto.
Qed.
Lemma trigger_inv_new s : valid s -> trigger_inv (tworld_new s).
Proof. intros Hv. by split; [|split]. Qed.

(** C23: a trigger with a positive batch size misses nothing, whatever
    interleaving of wakes, calls, failures, lost answers, stops, crashes and
    other instances of its driver the run has, as long as the store keeps its
    stable prefix: when its cursor row exists, every entry of the watched table
    after the cursor it started from (0 for a trigger from the start) and up to
    the cursor is reported by a change of a batch that its handler took, and its
    cursor never moves back.  (With batch size 0 it skips what it has not
    delivered: [empty_batches_skip_everything].) *)
Theorem trigger_misses_nothing s ls ls' : valid s -> stores_grow s (ls ++ ls') ->
  let w := tsteps (tworld_new s) ls in let w' := tsteps w ls' in
  (forall c, tw_row w = Some c -> exists c', tw_row w' = Some c' /\ cu_cursorTs c <= cu_cursorTs c') /\
  (forall c', tw_row w' = Some c' -> exists st, tw_start w' = Some st /\ (fromStart = true -> st = 0) /\
    forall e, e ∈ log (tw_store w') -> watched e -> st < le_ts e <= cu_cursorTs c' -> exists batch ch, batch ∈ tw_delivered w' /\ ch ∈ batch /\ reports name e ch).
Proof.
  intros Hv Hg w w'. apply (stores_grow_app (tworld_new s)) in Hg as [Hg Hg']. destruct (tsteps_inv _ ls (trigger_inv_new s Hv) Hg) as [Hi _].
  destruct (tsteps_inv _ ls' Hi Hg') as ((_ & Hr & _) & Hle). split; [exact Hle|]. intros c' Hc'. unfold row_ok in Hr. fold w w' in Hr. rewrite Hc' in Hr.
  destruct Hr as (st & Hst & Hz & _ & Hd). by exists st.
Qed.
End facts.

(** * A quiet pass delivers everything once *)

(** An instance makes call after call and nothing else happens. *)
Section quiet.
Context {S : Type} `{!LogStore S} {valid : S -> Prop} {log : S -> list log_entry} `{!LogLaws S valid log}.
Context (tableNumberToName : Z -> option jsstr) (stable : S -> option Z) (change_size : log_change -> Z).
Context (name : jsstr) (fromStart : bool) (batchSize : nat) (maxPerWindow : Z).
Notation call := (call tableNumberToName stable change_size name fromStart batchSize maxPerWindow).
Notation between := (changes_between (log := log) tableNumberToName).
Notation reach := (reach stable).

Fixpoint calls (ts : list (Z * Z)) (s : S) (row : option cursor_row) (d : tdrv) : tdrv * option cursor_row * list (list log_change) :=
  match ts with
  | [] => (d, row, [])
  | (now, k) :: ts => let '(d, row, out) := call now k s row d in let '(d', row', out') := calls ts s row d in (d', row', out ++ out')
  end.

Definition breaker_count (d : tdrv) : Z := match td_breaker d with Some (_, n) => Z.max 0 n | None => 0 end.

Lemma within_split a b c (l : list log_entry) : StronglySorted (fun x y => le_ts x <= le_ts y) l -> a <= c <= b ->
  base.filter (ts_within a b) l = base.filter (ts_within a c) l ++ base.filter (ts_within c b) l.
Proof.
  intros Hs Hc. induction Hs as [|e l Hs IH He]; [done|]. rewrite !filter_cons. unfold ts_within in *. repeat case_decide; try lia; rewrite IH; try done.
  rewrite (filter_none (fun e => a <= le_ts e < c)); [done|]. eapply Forall_impl; [exact He|]. cbn. lia.
Qed.
Lemma changes_of_app s tables es es' all : changes_of tableNumberToName s tables (es ++ es') = Ok all ->
  exists l r, changes_of tableNumberToName s tables es = Ok l /\ changes_of tableNumberToName s tables es' = Ok r /\ all = l ++ r.
Proof.
  revert all. induction es as [|e es IH]; intros all; [intros H; by exists [], all|]. cbn [app changes_of]. destruct (shown_table _ _ e) as [n|]; [|apply IH].
  intros (c & Hc & (cs & Hcs & [= <-])%bind_res_ok)%bind_res_ok. destruct (IH cs Hcs) as (l & r & -> & Hr & ->). exists (c :: l), r. by rewrite Hc, !bind_Ok.
Qed.
Lemma between_split s tables c m b all : valid s -> c <= m <= b -> between s tables c b = Ok all ->
  exists l r, between s tables c m = Ok l /\ between s tables m b = Ok r /\ all = l ++ r.
Proof. intros Hv Hm. unfold changes_between. rewrite (within_split _ _ (m + 1)) by (by apply log_sorted || lia). apply changes_of_app. Qed.
Lemma between_empty s tables c : between s tables c c = Ok [].
Proof. unfold changes_between. rewrite filter_none; [done|]. apply Forall_forall. unfold ts_within. lia. Qed.

Hypothesis batch_pos : batchSize <> 0%nat.

Lemma read_step s c all : valid s -> c < log_bound s (stable s) -> between s (Some [name]) c (log_bound s (stable s)) = Ok all ->
  exists m l r, read tableNumberToName stable s c [name] batchSize = Ok (l, m) /\ c < m <= log_bound s (stable s) /\
    between s (Some [name]) c m = Ok l /\ between s (Some [name]) m (log_bound s (stable s)) = Ok r /\ all = l ++ r.
Proof.
  intros Hv Hc Hall. destruct (scan_log_exact tableNumberToName s c (log_bound s (stable s)) (Some batchSize) Hv Hc ltac:(congruence)) as (rows & m & Hs & Hm & ->).
  assert (Hm' : c <= m <= log_bound s (stable s)) by lia. destruct (between_split s _ c m (log_bound s (stable s)) _ Hv Hm' Hall) as (l & r & Hl & Hr & ->). exists m, l, r. split; [|done]. unfold read, readLog.
  destruct (Z.leb_spec (log_bound s (stable s)) c); [lia|]. rewrite bool_decide_eq_false_2 by congruence. rewrite Hs, bind_Ok. unfold changes_between in Hl. by rewrite Hl, bind_Ok.
Qed.

(** The batch of a cut is everything up to where the cut advances. *)
Lemma cut_between s c m l : valid s -> l <> [] -> c < m -> between s (Some [name]) c m = Ok l ->
  exists adv batch rest, cutToByteBudget change_size l m = (batch, adv) /\ c < adv <= m /\ batch <> [] /\
    between s (Some [name]) c adv = Ok batch /\ between s (Some [name]) adv m = Ok rest /\ l = batch ++ rest.
Proof.
  intros Hv Hne Hm Hl. destruct (changes_between_range tableNumberToName name s c m l Hv Hl) as [Hs Hr].
  pose proof (cut_spec change_size l c m Hne Hs Hr Hm) as Hcut. destruct (cutToByteBudget change_size l m) as [batch adv]. destruct Hcut as (Ha & Hb & Hb').
  destruct (between_split s _ c adv m l Hv ltac:(lia) Hl) as (x & rest & Hx & Hrest & ->). exists adv, batch, rest.
  destruct (changes_between_range tableNumberToName name s c adv x Hv Hx) as [_ Hxr]. destruct (changes_between_range tableNumberToName name s adv m rest Hv Hrest) as [_ Hrr].
  rewrite filter_app, (filter_all _ x), (filter_none _ rest), app_nil_r in Hb.
  - subst batch. done.
  - eapply Forall_impl; [exact Hrr|]. cbn. lia.
  - eapply Forall_impl; [exact Hxr|]. cbn. lia.
Qed.

Lemma calls_idle ts s row d : td_pc d = TIdle -> calls ts s row d = (d, row, []).
Proof. intros Hd. induction ts as [|[now k] ts IH]; [done|]. cbn [calls]. unfold Triggers.call. by rewrite Hd, IH. Qed.
Lemma end_attempt_idle now d : td_pendingWake d = false -> end_attempt now d = set_wake (set_tpc d TIdle) false 0.
Proof. intros Hd. unfold end_attempt, finish_pass. rewrite Hd. by destruct (_ <? _). Qed.
Lemma loop_done now c d : td_pendingWake d = false -> loop now c c d = set_wake (set_tpc d TIdle) false 0.
Proof. intros Hd. unfold loop. rewrite Z.ltb_irrefl. by apply end_attempt_idle. Qed.
Lemma loop_more now b c d : c < b -> loop now b c d = set_tpc d (TRead b c).
Proof. intros Hd. unfold loop. by destruct (Z.ltb_spec c b); [|lia]. Qed.

Lemma breaker_quiet now d : breaker_count d < maxPerWindow ->
  exists d', recordDeliveryAndCheckBreaker now maxPerWindow d = (d', false) /\ breaker_count d' <= breaker_count d + 1 /\ td_pendingWake d' = td_pendingWake d.
Proof.
  intros H. unfold recordDeliveryAndCheckBreaker, breaker_count in *. destruct (td_breaker d) as [[t n]|]; [destruct (_ <=? _)|];
    (eexists; split; [f_equal; apply Z.ltb_ge; lia|split; [cbn; lia|done]]).
Qed.

(** The rest of a pass whose head is at the loop with cursor [c]. *)
Definition drained (b : Z) (all : list log_change) (r : tdrv * option cursor_row * list (list log_change)) : Prop :=
  let '(d, row, out) := r in td_pc d = TIdle /\ concat out = all /\ exists c, row = Some c /\ cu_cursorTs c = b /\ cu_state c = TrRunning.

(** A call of the loop that is not its last, and the calls left over. *)
Lemma calls_3 (ts : list (Z * Z)) : (3 <= length ts)%nat -> exists n1 k1 n2 k2 n3 k3 ts', ts = (n1, k1) :: (n2, k2) :: (n3, k3) :: ts'.
Proof. destruct ts as [|[n1 k1] [|[n2 k2] [|[n3 k3] ts']]]; cbn; intros; try lia. by eauto 10. Qed.

Lemma drained_cons b all (out : list (list log_change)) now k ts s row d (d' : tdrv) (row' : option cursor_row) all' : call now k s row d = (d', row', out) -> drained b all (calls ts s row' d') ->
  all' = concat out ++ all -> drained b all' (calls ((now, k) :: ts) s row d).
Proof.
  intros Hc Hd ->. cbn [calls]. rewrite Hc. destruct (calls ts s row' d') as [[d2 row2] out2]. destruct Hd as (? & <- & ?). split; [done|]. split; [apply concat_app|done].
Qed.
Lemma advance_row cr new c : cu_cursorTs cr = c -> advanceCursor new c (Some cr) = Some (CursorRow new (cu_state cr) 0 None (cu_pausedReason cr)).
Proof. intros <-. cbn. by rewrite Z.eqb_refl. Qed.
Lemma scanned_cut now b c l m d : l <> [] -> scanned change_size maxPerWindow now b c l m d =
  let '(batch, adv) := cutToByteBudget change_size l m in
  let '(d, tripped) := recordDeliveryAndCheckBreaker now maxPerWindow d in if tripped then set_tpc d TPause else set_tpc d (TDeliver b c batch adv).
Proof. by destruct l. Qed.
Lemma between_join s tables c m b l r : valid s -> c <= m <= b -> between s tables c m = Ok l -> between s tables m b = Ok r -> between s tables c b = Ok (l ++ r).
Proof.
  intros Hv Hm Hl Hr. unfold changes_between in *. rewrite (within_split _ _ (m + 1)) by (by apply log_sorted || lia).
  revert l Hl. generalize (base.filter (ts_within (c + 1) (m + 1)) (log s)). intros es. induction es as [|e es IH]; intros l Hl; cbn [app changes_of] in *; [by injection Hl as <-|].
  destruct (shown_table _ _ e); [|by apply IH]. apply bind_res_ok in Hl as (x & -> & (xs & Hxs & [= <-])%bind_res_ok). by rewrite bind_Ok, (IH xs Hxs), bind_Ok.
Qed.

Lemma drain s b (fuel : nat) : valid s -> b = log_bound s (stable s) -> forall c all ts now d cr, (Z.to_nat (b - c) <= fuel)%nat -> c <= b ->
  between s (Some [name]) c b = Ok all -> (3 * Z.to_nat (b - c) <= length ts)%nat -> td_pendingWake d = false -> cu_cursorTs cr = c -> cu_state cr = TrRunning ->
  breaker_count d + Z.of_nat (length all) <= maxPerWindow -> drained b all (calls ts s (Some cr) (loop now b c d)).
Proof.
  intros Hv Hb. induction fuel as [|fuel IH]; intros c all ts now d cr Hf Hc Hall Hts Hp Hcr Hst Hbr.
  all: destruct (decide (c = b)) as [->|Hne];
    [rewrite between_empty in Hall; injection Hall as <-; rewrite loop_done, calls_idle by done; by (split; [|split; [|exists cr]])|]; try lia.
  destruct (calls_3 ts ltac:(lia)) as (n1 & k1 & n2 & k2 & n3 & k3 & ts' & ->). cbn [length] in Hts. rewrite loop_more by lia. subst b.
  destruct (read_step s c all Hv ltac:(lia) Hall) as (m & l & r & Hread & Hm & Hl & Hr & ->). set (b := log_bound s (stable s)) in *. rewrite length_app in Hbr.
  destruct (decide (l = [])) as [->|Hl0].
  - eapply (drained_cons _ _ []); [|  |reflexivity]; [unfold Triggers.call; cbn [td_pc set_tpc]; rewrite Hread; cbn [scanned]; destruct (Z.leb_spec m c); [lia|reflexivity]|].
    eapply (drained_cons _ _ []); [|  |reflexivity]; [unfold Triggers.call; cbn [td_pc set_tpc]; rewrite (advance_row cr) by done; reflexivity|].
    apply IH; try done; cbn [length]; lia.
  - destruct (cut_between s c m l Hv Hl0 ltac:(lia) Hl) as (adv & batch & rest & Hcut & Ha & Hb0 & Hb1 & Hb2 & ->).
    destruct (breaker_quiet n1 (set_tpc d (TRead b c))) as (d' & Hd & Hd1 & Hd2); [change (breaker_count (set_tpc d (TRead b c))) with (breaker_count d); destruct batch; [done|]; cbn in Hbr; lia|].
    change (breaker_count (set_tpc d (TRead b c))) with (breaker_count d) in Hd1. change (td_pendingWake (set_tpc d (TRead b c))) with (td_pendingWake d) in Hd2.
    rewrite <-app_assoc. rewrite length_app in Hbr.
    eapply (drained_cons _ _ []); [|  |reflexivity]; [unfold Triggers.call; cbn [td_pc set_tpc]; rewrite Hread; rewrite scanned_cut by done; rewrite Hcut, Hd; reflexivity|].
    eapply (drained_cons _ (rest ++ r) [batch]); [reflexivity| |cbn; by rewrite app_nil_r].
    eapply (drained_cons _ _ []); [|  |reflexivity]; [unfold Triggers.call; cbn [td_pc set_tpc]; rewrite (advance_row cr) by done; reflexivity|].
    apply IH; try done.
    + lia.
    + lia.
    + apply (between_join s _ adv m b); try done; lia.
    + cbn [length]. lia.
    + by rewrite <-Hp.
    + change (breaker_count (set_gate _ None)) with (breaker_count d'). rewrite length_app. destruct batch; [done|]. cbn [length] in *. lia.
Qed.

(** A pass that nothing disturbs, of a trigger with a positive batch size,
    delivers every change between the cursor and the newest timestamp of the log
    exactly once and in order, moves the cursor there, and stops: after the
    peek, the read of the cursor and at most three calls per timestamp, when the
    trigger is running and not backing off, the breaker has room and every call
    succeeds. *)
Theorem quiet_pass_drains s now d cr all ts : valid s -> is_idle d = true -> td_stopped d = false -> backing_off now d = false -> cu_state cr = TrRunning ->
  0 <= cu_cursorTs cr <= reach s -> between s (Some [name]) (cu_cursorTs cr) (reach s) = Ok all -> breaker_count d + Z.of_nat (length all) <= maxPerWindow ->
  (2 + 3 * Z.to_nat (reach s - cu_cursorTs cr) <= length ts)%nat ->
  exists d' cr' batches, calls ts s (Some cr) (wake now d) = (d', Some cr', batches) /\ is_idle d' = true /\
    concat batches = all /\ cu_cursorTs cr' = reach s /\ cu_state cr' = TrRunning.
Proof.
  intros Hv Hi Hns Hb Hst Hc Hall Hbr Hts. destruct ts as [|[n1 k1] [|[n2 k2] ts]]; cbn [length] in Hts; try lia.
  assert (Hw : wake now d = set_tpc (set_wake d false 0) TPeek) by (unfold wake, iterate, start_pass, begin_attempt; rewrite Hns, Hi; change (backing_off now (set_wake d false 0)) with (backing_off now d); by rewrite Hb).
  assert (Hpeek : exists x, read tableNumberToName stable s 0 [] 0 = Ok (x, reach s)).
  { unfold read, readLog, Triggers.reach. destruct (Z.leb_spec (log_bound s (stable s)) 0); [eexists; do 2 f_equal; lia|]. rewrite bool_decide_eq_true_2 by done. eexists. do 2 f_equal. lia. }
  destruct Hpeek as [x Hpeek]. assert (Hd : drained (reach s) all (calls ((n1, k1) :: (n2, k2) :: ts) s (Some cr) (wake now d))).
  { rewrite Hw. eapply (drained_cons _ _ []); [|  |reflexivity]; [unfold Triggers.call; cbn [td_pc set_tpc]; rewrite Hpeek; reflexivity|].
    eapply (drained_cons _ _ []); [|  |reflexivity]; [unfold Triggers.call; cbn [td_pc set_tpc]; unfold with_cursor; rewrite Hst; reflexivity|].
    destruct (decide (cu_cursorTs cr = reach s)) as [E|E].
    - rewrite E in *. rewrite between_empty in Hall. injection Hall as <-. rewrite loop_done, calls_idle by done. split; [done|]. split; [done|]. by exists cr.
    - assert (Hr : reach s = log_bound s (stable s)) by (unfold Triggers.reach in *; lia). eapply drain; [done|done|reflexivity|lia|done|lia|done|done|done|exact Hbr]. }
  destruct (calls _ s (Some cr) (wake now d)) as [[d' row'] out]. destruct Hd as (Hd & Ho & cr' & -> & Hcr & Hs'). exists d', cr', out. unfold is_idle. rewrite Hd. done.
Qed.
End quiet.

(** * The SQLite store keeps its prefix *)

Definition documents_kept (g : commit_guard) : Prop := forall db gus shard db' b, g db gus shard = Ok (db', b) -> db_documents db' = db_documents db.

Lemma run_guards_documents guards gus shard db db' : Forall documents_kept guards -> run_guards guards gus shard db = Ok db' -> db_documents db' = db_documents db.
Proof.
  intros Hg. revert db. induction Hg as [|g guards Hg _ IH]; intros db; cbn [run_guards]; [by intros [= <-]|].
  intros ([db1 b] & H1 & H)%bind_res_ok. destruct b; [done|]. rewrite (IH _ H). by eapply Hg.
Qed.

Lemma sq_log_below s (m : Z) : sq_readable s ->
  Forall2 (fun r e => row_entry r = Ok e) (js_sort row_order (base.filter (fun r => dr_ts r <= m) (db_documents (ss_db s)))) (base.filter (fun e => le_ts e <= m) (sq_log s)).
Proof.
  intros [es Hes]. unfold sq_log. rewrite Hes. apply traverse_Forall2 in Hes. rewrite js_sort_filter by apply _. fold (sorted_rows s).
  apply Forall2_filter_both; [|done]. intros r e Hre. by rewrite (row_entry_ts _ _ Hre).
Qed.

Lemma sqlite_commit_grows s units shard tss s' : sq_readable s -> sq_readable s' -> 0 <= sq_maxTimestamp s -> Forall documents_kept (ss_guards s) ->
  sq_commitWriteBatch s units shard = Ok (tss, s') -> grows (valid := sq_readable) (log := sq_log) (fun _ => None) s s'.
Proof.
  intros Hr Hr' H0 Hg. unfold sq_commitWriteBatch, in_transaction.
  intros ([out db] & ([[o gus] db1] & H1 & (db2 & H2 & [= -> ->])%bind_res_ok)%bind_res_ok & [= <- <-])%bind_res_ok.
  apply (commit_units_spec _ _ _ _ _ _ (default 0 (max_ts (db_documents (ss_db s))))) in H1 as (_ & _ & (new & Hd & Hn) & _); [|lia].
  assert (Hdocs : db_documents db = db_documents (ss_db s) ++ new).
  { rewrite <-Hd. destruct gus; [by injection H2 as <-|]. by eapply run_guards_documents. }
  unfold sq_maxTimestamp in H0. assert (Hre : reach (fun _ : sqlite_store => None) s = default 0 (max_ts (db_documents (ss_db s)))).
  { unfold reach, log_bound. cbn [default log_max sqlite_log_store]. unfold sq_maxTimestamp. lia. }
  split; [done|]. split.
  - rewrite Hre. unfold reach, log_bound. cbn [default log_max sqlite_log_store]. unfold sq_maxTimestamp. cbn [ss_db]. rewrite Hdocs.
    destruct (max_ts (db_documents (ss_db s))) as [m|] eqn:Em; cbn [default] in *; [|lia]. destruct (db_documents (ss_db s)) as [|r rows]; [done|]. injection Em as <-.
    cbn [app max_ts default]. rewrite fold_left_app. eapply Z.le_trans; [|apply Z.le_max_r]. apply max_ts_fold.
  - rewrite Hre. set (m := default 0 _) in *. pose proof (sq_log_below s m Hr) as F1. pose proof (sq_log_below _ m Hr') as F2. cbn [ss_db] in F2. rewrite Hdocs, filter_app in F2.
    rewrite (filter_none _ new), app_nil_r in F2 by (eapply Forall_impl; [exact Hn|]; cbn; lia).
    revert F1 F2. generalize (js_sort row_order (base.filter (fun r => dr_ts r <= m) (db_documents (ss_db s)))) as rs.
    generalize (base.filter (fun e => le_ts e <= m) (sq_log s)), (base.filter (fun e => le_ts e <= m) (sq_log (SqliteStore db (ss_guards s)))).
    intros l l' rs F1. revert l'. induction F1 as [|r e rs l Hre1 _ IH]; intros l' F2; inversion F2; subst; [done|]. f_equal; [congruence|by apply IH].
Qed.

(** * Concrete runs *)

Definition messages (n : Z) : option jsstr := if n =? 10001 then Some (js "messages") else None.
Definition sample_unit (c : Z) : commit_unit :=
  let id := DocId 10001 (replicate 15 0 ++ [c]) in CommitUnit [LogEntry 0 id (Some (ResolvedDocument id (VObject [(js "a", VString [c])]))) None] [] None.
Definition commit_all (s : sqlite_store) (us : list commit_unit) : sqlite_store := match sq_commitWriteBatch s us None with Ok (_, s) => s | Throw _ => s end.
(** One message, then two more. *)
Definition store_1 : sqlite_store := commit_all empty_store [sample_unit 120].
Definition store_3 : sqlite_store := commit_all store_1 [sample_unit 121; sample_unit 122].
Notation trigger_run batchSize := (tsteps (fun _ => Some FkMutation) [js "m:_on"] messages (fun _ : sqlite_store => None) (fun _ => 100) (js "messages") true batchSize 1000 (fun ms => ms)).

Definition row_cursor {S} (w : tworld (S := S)) : option Z := option_map cu_cursorTs (tw_row w).

Lemma readable_empty : sq_readable empty_store.
Proof. by exists []. Qed.
Lemma readable_1 : sq_readable store_1.
Proof. eexists. vm_compute. reflexivity. Qed.
Lemma readable_3 : sq_readable store_3.
Proof. eexists. vm_compute. reflexivity. Qed.
Lemma grows_01 : grows (valid := sq_readable) (log := sq_log) (fun _ => None) empty_store store_1.
Proof. eapply (sqlite_commit_grows _ [sample_unit 120] None [1]); [apply readable_empty|apply readable_1|done|constructor|by vm_compute]. Qed.
Lemma grows_13 : grows (valid := sq_readable) (log := sq_log) (fun _ => None) store_1 store_3.
Proof. eapply (sqlite_commit_grows _ [sample_unit 121; sample_unit 122] None [2; 3]); [apply readable_1|apply readable_3|by vm_compute|constructor|by vm_compute]. Qed.

(** An instance creates the row and delivers the first message; the answer of its
    advance is lost and a second instance takes over while two messages arrive;
    its first delivery fails. *)
Notation call_times n i := (replicate n (TlCall 1000 7 i)).
Notation first_part := ([TlStore store_1; TlSpawn 1; TlStart 1000 1] ++ call_times 5 1 ++ [TlLost 1000 7 1 []]).
Notation second_part := ([TlStore store_3; TlSpawn 2; TlStart 1001 2] ++ call_times 3 2 ++ [TlFail 1002 2 (js "no"); TlCall 1002 7 2; TlRetry 9000 2] ++ replicate 10 (TlCall 9000 7 2)).

Lemma trigger_misses_nothing_witness :
  let w := trigger_run 1%nat (tworld_new empty_store) first_part in let w' := trigger_run 1%nat w second_part in
  row_cursor w = Some 1 /\ row_cursor w' = Some 3 /\ map (map lc_ts) (tw_delivered w') = [[1]; [2]; [3]] /\
  (forall c', tw_row w' = Some c' -> exists st, tw_start w' = Some st /\ (true = true -> st = 0) /\
    forall e, e ∈ sq_log (tw_store w') -> watched messages (js "messages") e -> st < le_ts e <= cu_cursorTs c' ->
      exists batch ch, batch ∈ tw_delivered w' /\ ch ∈ batch /\ reports (js "messages") e ch).
Proof.
  intros w w'. split; [vm_compute; reflexivity|]. split; [vm_compute; reflexivity|]. split; [vm_compute; reflexivity|].
  assert (H1 : (1 <> 0)%nat) by discriminate.
  assert (H2 : stores_grow (valid := sq_readable) (log := sq_log) (fun _ => None) empty_store (first_part ++ second_part)) by (cbn; split; [exact grows_01|split; [exact grows_13|exact I]]).
  exact (proj2 (trigger_misses_nothing (fun _ => Some FkMutation) [js "m:_on"] messages (fun _ => None) (fun _ => 100) (js "messages") true 1%nat 1000 (fun ms => ms) H1
    empty_store first_part second_part readable_empty H2)).
Defined.

Lemma quiet_pass_drains_witness : exists d' cr' batches,
  calls messages (fun _ => None) (fun _ => 400000) (js "messages") true 64 1000 (replicate 11 (2000, 7)) store_3 (Some (CursorRow 0 TrRunning 2 (Some (js "no")) None)) (wake 2000 tdrv_new) = (d', Some cr', batches) /\
  is_idle d' = true /\ map lc_ts (concat batches) = [1; 2; 3] /\ cu_cursorTs cr' = 3 /\ cu_state cr' = TrRunning.
Proof.
  destruct (changes_between (log := sq_log) messages store_3 (Some [js "messages"]) 0 3) as [all|] eqn:Hall; [|vm_compute in Hall; discriminate Hall].
  assert (H1 : (64 <> 0)%nat) by discriminate.
  assert (Hr : reach (fun _ : sqlite_store => None) store_3 = 3) by (vm_compute; reflexivity).
  assert (Hl : map lc_ts all = [1; 2; 3]) by (vm_compute in Hall; injection Hall as <-; reflexivity).
  assert (Hn : length all = 3%nat) by (rewrite <-(length_map lc_ts), Hl; reflexivity).
  destruct (quiet_pass_drains messages (fun _ => None) (fun _ => 400000) (js "messages") true 64%nat 1000 H1 store_3 2000 tdrv_new
    (CursorRow 0 TrRunning 2 (Some (js "no")) None) all (replicate 11 (2000, 7)) readable_3 eq_refl eq_refl eq_refl eq_refl) as (d' & cr' & batches & H & Hi & Hc & Hcr & Hs).
  - split; vm_compute; discriminate.
  - rewrite Hr. exact Hall.
  - rewrite Hn. vm_compute. discriminate.
  - vm_compute. lia.
  - exists d', cr', batches. rewrite Hr in Hcr. rewrite Hc. split; [exact H|]. split; [exact Hi|]. split; [exact Hl|]. split; [exact Hcr|exact Hs].
Defined.

(** With a batch size of 0 the pass takes the whole log for a quiet stretch: the
    cursor moves to its end and no message is ever delivered. *)
Theorem empty_batches_skip_everything :
  let w := trigger_run 0%nat (tworld_new store_3) ([TlSpawn 1; TlStart 1000 1] ++ call_times 20 1) in
  row_cursor w = Some 3 /\ tw_delivered w = [] /\ length (sq_log store_3) = 3%nat.
Proof. vm_compute. done. Qed.

(** After a failed delivery, a stop and a start, the instance has the gate of its
    backoff and no retry timer: only its beat wakes it. *)
Theorem restart_loses_the_retry_timer :
  let w := trigger_run 1%nat (tworld_new store_1) ([TlSpawn 1; TlStart 1000 1] ++ call_times 4 1 ++ [TlFail 1000 1 (js "no"); TlCall 1000 7 1; TlStop 1; TlStart 1001 1] ++ call_times 5 1) in
  exists d t, jm_get (tw_drivers w) 1 = Some d /\ is_idle d = true /\ td_stopped d = false /\ td_retryTimer d = None /\ td_nextAttemptAt d = Some t /\ t < 31001 /\ td_beatTimer d = Some 31001 /\ tw_delivered w = [].
Proof. eexists _, _. vm_compute. done. Qed.

(** [resume] does not reset the window of the breaker: the trigger pauses again at
    its next delivery. *)
Theorem resume_keeps_the_breaker_window :
  let run := tsteps (fun _ => Some FkMutation) [js "m:_on"] messages (fun _ : sqlite_store => None) (fun _ => 100) (js "messages") true 2%nat 0 (fun ms => ms) in
  let w := run (tworld_new store_1) ([TlSpawn 1; TlStart 1000 1] ++ call_times 5 1 ++ [TlResume; TlWake 2000 1] ++ replicate 5 (TlCall 2000 7 1)) in
  option_map cu_pausedReason (tw_row w) = Some (Some (js "circuit-breaker")) /\ tw_delivered w = [].
Proof. vm_compute. done. Qed.
