(* ===== verification/Authz.v ===== *)
(** Authorization: components/authz.

    The configuration, the expansion of a role over its parents, the index of
    effective permissions, the context facade, the modules, and the relation
    tuples.  The four tables are maps from document ids to rows; a write is seen
    by the queries that follow it, as in a transaction of the engine; the rows of
    a query come in the order of its index, and [order] stands for any order.

    In every state that calls can reach the index holds exactly what the assigned
    roles grant, so [can] answers what the roles say; whoever changes the
    permissions of a scope may manage it; [objectsWith] lists exactly the objects
    that [hasRelation] confirms. *)
From Stdlib Require Import ZArith Lia.
From stdpp Require Import base list gmap sets strings relations.
From S2P Require Import Prelude JsBase JsText Values ValuesJson IntervalIndex RowDiff.

(** * roles.ts *)

(** An entry of a role: the actions of a resource, or what is not an array. *)
Inductive role_entry := RActions (actions : list jsstr) | RString (s : jsstr) | RUndefined.
Definition role_def := list (jsstr * role_entry).
Record authz_config := AuthzConfig { ac_permissions : list (jsstr * list jsstr); ac_roles : list (jsstr * role_def) }.

Definition inherits_of (def : role_def) : list jsstr :=
  match jm_get def (js "inherits") with
  | Some (RActions l) => l
  | Some (RString []) => []
  | Some (RString s) => [s]
  | _ => []
  end.
Definition pattern (resource action : jsstr) : jsstr := resource ++ 58 :: action.
Definition own_patterns (def : role_def) : list jsstr :=
  def ≫= fun kv => if bool_decide (kv.1 = js "inherits") then [] else match kv.2 with RActions l => pattern kv.1 <$> l | _ => [] end.

(** A set in the order of insertion. *)
Definition set_add (l : list jsstr) (x : jsstr) : list jsstr := if bool_decide (x ∈ l) then l else l ++ [x].
Definition add_all (l xs : list jsstr) : list jsstr := fold_left set_add xs l.

(** The roles seen are shared by all calls.  Each call that does not return at
    once sees one more role, so the number of roles bounds the depth. *)
Fixpoint expandRole (fuel : nat) (c : authz_config) (role : jsstr) (seen : list jsstr) : list jsstr * list jsstr :=
  match fuel with
  | O => ([], seen)
  | S fuel =>
      match jm_get (ac_roles c) role with
      | None => ([], seen)
      | Some def =>
          if bool_decide (role ∈ seen) then ([], seen)
          else
            let '(out, seen) :=
              fold_left (fun st parent => let '(ps, seen) := expandRole fuel c parent st.2 in (add_all st.1 ps, seen)) (inherits_of def) ([], role :: seen) in
            (add_all out (own_patterns def), seen)
      end
  end.
Definition expand (c : authz_config) (role : jsstr) : list jsstr := (expandRole (S (length (ac_roles c))) c role []).1.

(** [pr] and [pa] of [p.split(":")]: further parts are dropped. *)
Definition split_pattern (p : jsstr) : jsstr * option jsstr := match js_split 58 p with [] => ([], None) | [r] => (r, None) | r :: a :: _ => (r, Some a) end.
Definition roleGrants (c : authz_config) (role permission : jsstr) : bool :=
  let '(res, act) := split_pattern permission in
  existsb (fun p =>
    let '(pr, pa) := split_pattern p in
    (bool_decide (pr = res) || bool_decide (pr = js "*")) && (bool_decide (pa = act) || bool_decide (pa = Some (js "*")))) (expand c role).

(** * effective-permissions.ts *)

Definition MAX_PATTERNS_PER_ROLE : nat := 1000.
Definition expandRolePatterns (c : authz_config) (role : jsstr) : res (list jsstr) :=
  if (MAX_PATTERNS_PER_ROLE <? length (expand c role))%nat then Throw (PlainError "too many permission patterns") else Ok (expand c role).

Definition split_permission (permission : jsstr) : jsstr * jsstr := match split_first 58 permission with None => (permission, []) | Some (r, a) => (r, a) end.
Definition candidateKeys (permission : jsstr) : list jsstr :=
  let '(res, act) := split_permission permission in
  add_all [] [pattern res act; pattern res (js "*"); pattern (js "*") act; pattern (js "*") (js "*")].

(** [stableStringify]: keys sorted, arrays in order. *)
Section stringify.
Context {host : JsHost}.
Definition quoted (s : jsstr) : jsstr := JSON_stringify (JString s).
Definition join_commas (l : list jsstr) : jsstr := match l with [] => [] | x :: l => fold_left (fun acc y => acc ++ 44 :: y) l x end.
Definition stable_array (l : list jsstr) : jsstr := 91 :: join_commas (quoted <$> l) ++ [93].
Definition stable_object {A} (f : A -> jsstr) (o : list (jsstr * A)) : jsstr :=
  123 :: join_commas ((fun kv => quoted kv.1 ++ 58 :: f kv.2) <$> js_sort (fun a b => str_compare a.1 b.1) o) ++ [125].
(** An undefined entry is printed as [undefined]. *)
Definition stable_entry (e : role_entry) : jsstr := match e with RActions l => stable_array l | RString s => quoted s | RUndefined => js "undefined" end.
Definition canonical (c : authz_config) : jsstr :=
  js "{" ++ quoted (js "permissions") ++ js ":" ++ stable_object stable_array (ac_permissions c) ++ js "," ++
  quoted (js "roles") ++ js ":" ++ stable_object (stable_object stable_entry) (ac_roles c) ++ js "}".
Definition configHash (c : authz_config) : jsstr :=
  num_to_string 16 (to_uint32 (fold_left (fun h x => imul32 (xor32 h x) 16777619) (canonical c) 2166136261)).
End stringify.

(** * The tables *)

Record assignment := Assignment { as_userId : jsstr; as_role : jsstr; as_scopeType : jsstr; as_scopeId : jsstr }.
Record grant := Grant { gr_userId : jsstr; gr_scopeType : jsstr; gr_scopeId : jsstr; gr_permission : jsstr }.
Record relation_tuple := RelationTuple
  { rl_objectType : jsstr; rl_objectId : jsstr; rl_relation : jsstr; rl_subjectType : jsstr; rl_subjectId : jsstr; rl_subjectRelation : jsstr }.
#[global] Instance assignment_eq_dec : EqDecision assignment.
Proof. solve_decision. Defined.
#[global] Instance grant_eq_dec : EqDecision grant.
Proof. solve_decision. Defined.
#[global] Instance relation_tuple_eq_dec : EqDecision relation_tuple.
Proof. solve_decision. Defined.

Record authz_db := AuthzDb { az_assignments : gmap Z assignment; az_grants : gmap Z grant; az_meta : gmap Z jsstr; az_relations : gmap Z relation_tuple }.
Definition authz_empty : authz_db := AuthzDb ∅ ∅ ∅ ∅.

Definition with_assignments (m : gmap Z assignment) (db : authz_db) : authz_db := AuthzDb m (az_grants db) (az_meta db) (az_relations db).
Definition with_grants (m : gmap Z grant) (db : authz_db) : authz_db := AuthzDb (az_assignments db) m (az_meta db) (az_relations db).
Definition with_meta (m : gmap Z jsstr) (db : authz_db) : authz_db := AuthzDb (az_assignments db) (az_grants db) m (az_relations db).
Definition with_relations (m : gmap Z relation_tuple) (db : authz_db) : authz_db := AuthzDb (az_assignments db) (az_grants db) (az_meta db) m.

(** [db.insert] mints an id that no row has. *)
Definition add_row {A} (x : A) (m : gmap Z A) : gmap Z A := <[fresh (dom m) := x]> m.
Definition delete_rows {A} (ids : list Z) (m : gmap Z A) : gmap Z A := fold_left (fun m id => delete id m) ids m.

Definition scope := (jsstr * jsstr)%type.
Definition the_scope (s : option scope) : scope := default ([], []) s.

Section component.
Context {host : JsHost} (order : forall A, list (Z * A) -> list (Z * A)) (config : authz_config).

Definition rows {A} (P : A -> bool) (m : gmap Z A) : list (Z * A) := order A (base.filter (fun kv => P kv.2 = true) (map_to_list m)).

Definition of_user_scope (u : jsstr) (s : scope) (g : grant) : bool :=
  bool_decide (gr_scopeType g = s.1) && bool_decide (gr_scopeId g = s.2) && bool_decide (gr_userId g = u).
Definition assigned_in (u : jsstr) (s : scope) (a : assignment) : bool :=
  bool_decide (as_userId a = u) && bool_decide (as_scopeType a = s.1) && bool_decide (as_scopeId a = s.2).

Definition add_grants (u : jsstr) (s : scope) (have ps : list jsstr) (m : gmap Z grant) : gmap Z grant :=
  fold_left (fun m p => if bool_decide (p ∈ have) then m else add_row (Grant u s.1 s.2 p) m) ps m.

Definition upsertPatterns (u role : jsstr) (s : scope) (db : authz_db) : res authz_db :=
  let have := (fun kv => gr_permission kv.2) <$> rows (of_user_scope u s) (az_grants db) in
  ps ← expandRolePatterns config role;
  Ok (with_grants (add_grants u s have ps (az_grants db)) db).

Fixpoint desired_patterns (acc : list jsstr) (roles : list jsstr) : res (list jsstr) :=
  match roles with [] => Ok acc | r :: rs => ps ← expandRolePatterns config r; desired_patterns (add_all acc ps) rs end.

Definition reconcileScope (u : jsstr) (s : scope) (remainingRoles : list jsstr) (db : authz_db) : res authz_db :=
  desired ← desired_patterns [] remainingRoles;
  let found := rows (of_user_scope u s) (az_grants db) in
  let keep := base.filter (fun kv => gr_permission kv.2 ∈ desired) found in
  let drop := base.filter (fun kv => gr_permission kv.2 ∉ desired) found in
  Ok (with_grants (add_grants u s ((fun kv => gr_permission kv.2) <$> keep) desired (delete_rows drop.*1 (az_grants db))) db).

(** The key of a user and a scope, with NUL between the parts. *)
Definition scope_key (u st si : jsstr) : jsstr := u ++ 0 :: st ++ 0 :: si.
Definition scope_map := list (jsstr * (jsstr * scope * list jsstr)).
Definition group_assignment (m : scope_map) (a : assignment) : scope_map :=
  let key := scope_key (as_userId a) (as_scopeType a) (as_scopeId a) in
  match jm_get m key with
  | Some (u, s, roles) => jm_set m key (u, s, roles ++ [as_role a])
  | None => jm_set m key (as_userId a, (as_scopeType a, as_scopeId a), [as_role a])
  end.

Fixpoint reconcile_all (l : list (jsstr * scope * list jsstr)) (db : authz_db) : res authz_db :=
  match l with [] => Ok db | (u, s, roles) :: l => db ← reconcileScope u s roles db; reconcile_all l db end.

Definition reconcileEffectivePermissions (db : authz_db) : res authz_db :=
  let meta := head (rows (fun _ => true) (az_meta db)) in
  let current := configHash config in
  if match meta with Some (_, h) => bool_decide (h = current) | None => false end then Ok db
  else
    let scopeMap := fold_left group_assignment (snd <$> rows (fun _ => true) (az_assignments db)) [] in
    let orphans := rows (fun e => negb (jm_has scopeMap (scope_key (gr_userId e) (gr_scopeType e) (gr_scopeId e)))) (az_grants db) in
    db ← reconcile_all (jm_values scopeMap) (with_grants (delete_rows orphans.*1 (az_grants db)) db);
    Ok (with_meta (match meta with Some (id, _) => <[id := current]> (az_meta db) | None => add_row current (az_meta db) end) db).

(** * context.ts *)

(** The caller, as [auth.getUserId] answers; the empty id is no user. *)
Definition uid (user : option jsstr) : option jsstr := match user with Some (_ :: _) => user | _ => None end.

Definition held (db : authz_db) (s : scope) (u : jsstr) (keys : list jsstr) : bool :=
  existsb (fun key => negb (bool_decide (rows (fun g => of_user_scope u s g && bool_decide (gr_permission g = key)) (az_grants db) = []))) keys.

Definition can (db : authz_db) (user : option jsstr) (permission : jsstr) (sc : option scope) : bool :=
  match uid user with
  | None => false
  | Some u =>
      let keys := candidateKeys permission in
      if held db (the_scope sc) u keys then true
      else if negb (bool_decide (the_scope sc = ([], []))) then held db ([], []) u keys else false
  end.

Definition Forbidden : js_error := PlainError "Forbidden".
Definition require (db : authz_db) (user : option jsstr) (permission : jsstr) (sc : option scope) : res unit :=
  if can db user permission sc then Ok tt else Throw Forbidden.

Definition assigned_roles (db : authz_db) (user : option jsstr) (sc : option scope) : list jsstr :=
  match uid user with
  | None => []
  | Some u =>
      let found := snd <$> rows (fun a => bool_decide (as_userId a = u)) (az_assignments db) in
      as_role <$> base.filter (fun a => (as_scopeType a, as_scopeId a) = ([], []) \/ (as_scopeType a, as_scopeId a) = the_scope sc) found
  end.

Definition scopesWith (db : authz_db) (user : option jsstr) (permission : jsstr) (type : option jsstr) : list jsstr :=
  match uid user with
  | None => []
  | Some u =>
      let found := snd <$> rows (fun g => bool_decide (gr_userId g = u)) (az_grants db) in
      add_all [] (gr_scopeId <$> base.filter (fun g => match type with Some t => bool_decide (gr_scopeType g = t) | None => true end && bool_decide (gr_permission g ∈ candidateKeys permission) = true) found)
  end.

(** * relations.ts *)

Record rel_subject := RelSubject { rs_type : jsstr; rs_id : jsstr; rs_relation : option jsstr }.
Definition rel_object := (jsstr * jsstr)%type.
Definition subj (s : rel_subject) : jsstr * jsstr * jsstr := (rs_type s, rs_id s, default [] (rs_relation s)).

Definition tuple_of (o : rel_object) (relation : jsstr) (s : jsstr * jsstr * jsstr) : relation_tuple := RelationTuple o.1 o.2 relation s.1.1 s.1.2 s.2.
Definition tupleRows (db : authz_db) (o : rel_object) (relation : jsstr) (s : jsstr * jsstr * jsstr) : list (Z * relation_tuple) :=
  rows (fun t => bool_decide (t = tuple_of o relation s)) (az_relations db).
Definition subject_of (t : relation_tuple) : jsstr * jsstr * jsstr := (rl_subjectType t, rl_subjectId t, rl_subjectRelation t).

Definition addRelationTuple (db : authz_db) (s : rel_subject) (relation : jsstr) (o : rel_object) : authz_db :=
  match tupleRows db o relation (subj s) with [] => with_relations (add_row (tuple_of o relation (subj s)) (az_relations db)) db | _ => db end.
Definition removeRelationTuple (db : authz_db) (s : rel_subject) (relation : jsstr) (o : rel_object) : authz_db :=
  with_relations (delete_rows (tupleRows db o relation (subj s)).*1 (az_relations db)) db.

Definition memberships (db : authz_db) (type id : jsstr) : list (jsstr * jsstr * jsstr) :=
  (fun kv => (rl_objectType kv.2, rl_objectId kv.2, rl_relation kv.2)) <$> rows (fun t => bool_decide (subject_of t = (type, id, []))) (az_relations db).

Definition hasRelation (db : authz_db) (s : rel_subject) (relation : jsstr) (o : rel_object) : bool :=
  let has s := negb (bool_decide (tupleRows db o relation s = [])) in
  if has (subj s) then true
  else if negb (bool_decide ((subj s).2 = [])) then false
  else existsb has (memberships db (rs_type s) (rs_id s)).

Definition objects_of (db : authz_db) (s : jsstr * jsstr * jsstr) (relation objectType : jsstr) : list jsstr :=
  rl_objectId <$> base.filter (fun t => rl_objectType t = objectType) (snd <$> rows (fun t => bool_decide (subject_of t = s) && bool_decide (rl_relation t = relation)) (az_relations db)).
Definition rel_objectsWith (db : authz_db) (userId relation objectType : jsstr) : list jsstr :=
  fold_left (fun out g => add_all out (objects_of db g relation objectType)) (memberships db (js "user") userId)
    (add_all [] (objects_of db (js "user", userId, []) relation objectType)).
Definition objectsWith (db : authz_db) (user : option jsstr) (relation objectType : jsstr) : list jsstr :=
  match uid user with None => [] | Some u => rel_objectsWith db u relation objectType end.

(** * functions.ts *)

Definition MANAGE_PERMISSION : jsstr := js "authz:manage".

Definition assertScope (sc : option scope) : res unit :=
  match sc with
  | Some (t, i) => if bool_decide (t = []) || bool_decide (i = []) then Throw (PlainError "scope must be non-empty") else Ok tt
  | None => Ok tt
  end.

Inductive authz_call :=
  | AssignRole (userId role : jsstr) (sc : option scope)
  | RevokeRole (userId role : jsstr) (sc : option scope)
  | Rebuild
  | BootstrapFirstAdmin (userId role : jsstr)
  | AddRelation (subject : rel_subject) (relation : jsstr) (object : rel_object)
  | RemoveRelation (subject : rel_subject) (relation : jsstr) (object : rel_object).

Definition assign (u role : jsstr) (s : scope) (db : authz_db) : authz_db :=
  if bool_decide (role ∈ (fun kv => as_role kv.2) <$> rows (assigned_in u s) (az_assignments db)) then db
  else with_assignments (add_row (Assignment u role s.1 s.2) (az_assignments db)) db.

Definition assignRole (user : option jsstr) (u role : jsstr) (sc : option scope) (db : authz_db) : res authz_db :=
  _ ← assertScope sc; _ ← require db user MANAGE_PERMISSION sc;
  upsertPatterns u role (the_scope sc) (assign u role (the_scope sc) db).

Definition revokeRole (user : option jsstr) (u role : jsstr) (sc : option scope) (db : authz_db) : res authz_db :=
  _ ← assertScope sc; _ ← require db user MANAGE_PERMISSION sc;
  let found := rows (assigned_in u (the_scope sc)) (az_assignments db) in
  let remainingRoles := (fun kv => as_role kv.2) <$> base.filter (fun kv => as_role kv.2 <> role) found in
  let db := with_assignments (delete_rows (base.filter (fun kv => as_role kv.2 = role) found).*1 (az_assignments db)) db in
  reconcileScope u (the_scope sc) remainingRoles db.

Definition rebuild (user : option jsstr) (db : authz_db) : res authz_db := _ ← require db user MANAGE_PERMISSION None; reconcileEffectivePermissions db.

Definition bootstrapFirstAdmin (u role : jsstr) (db : authz_db) : res authz_db :=
  if negb (roleGrants config role MANAGE_PERMISSION) then Throw (PlainError "role does not grant authz:manage")
  else if existsb (fun kv => bool_decide (gr_permission kv.2 ∈ candidateKeys MANAGE_PERMISSION)) (rows (fun _ => true) (az_grants db))
  then Throw (PlainError "an admin already exists; use assignRole")
  else upsertPatterns u role ([], []) (assign u role ([], []) db).

Definition run_call (user : option jsstr) (c : authz_call) (db : authz_db) : res authz_db :=
  match c with
  | AssignRole u role sc => assignRole user u role sc db
  | RevokeRole u role sc => revokeRole user u role sc db
  | Rebuild => rebuild user db
  | BootstrapFirstAdmin u role => bootstrapFirstAdmin u role db
  | AddRelation s r o => _ ← require db user (pattern o.1 (js "share")) (Some o); Ok (addRelationTuple db s r o)
  | RemoveRelation s r o => _ ← require db user (pattern o.1 (js "share")) (Some o); Ok (removeRelationTuple db s r o)
  end.

(** A call that throws leaves nothing behind. *)
Definition authz_step (db : authz_db) (c : option jsstr * authz_call) : authz_db := match run_call c.1 c.2 db with Ok db => db | Throw _ => db end.
Definition authz_steps (db : authz_db) (cs : list (option jsstr * authz_call)) : authz_db := fold_left authz_step cs db.
End component.

(** * What a role grants *)

Definition parent_of (c : authz_config) (a b : jsstr) : Prop := exists def, jm_get (ac_roles c) a = Some def /\ b ∈ inherits_of def.
(** The patterns of a role and of all the roles it inherits from, directly or not. *)
Definition granted (c : authz_config) (role p : jsstr) : Prop :=
  exists x def, rtc (parent_of c) role x /\ jm_get (ac_roles c) x = Some def /\ p ∈ own_patterns def.

Lemma elem_set_add l x y : y ∈ set_add l x <-> y ∈ l \/ y = x.
Proof. unfold set_add. case_bool_decide; [set_solver|]. rewrite elem_of_app, list_elem_of_singleton. done. Qed.
Lemma elem_add_all l xs y : y ∈ add_all l xs <-> y ∈ l \/ y ∈ xs.
Proof.
  unfold add_all. revert l. induction xs as [|x xs IH]; intros l; cbn [fold_left]; [set_solver|]. rewrite IH, elem_set_add, elem_of_cons. tauto.
Qed.

Section expand.
Context (c : authz_config).
Notation defined r := (is_Some (jm_get (ac_roles c) r)).

Definition unseen (seen : list jsstr) : nat := length (base.filter (fun r => r ∉ seen) (jm_keys (ac_roles c))).

Lemma filter_length_le {A} (P Q : A -> Prop) `{!forall x, Decision (P x), !forall x, Decision (Q x)} (l : list A) :
  (forall x, P x -> Q x) -> (length (base.filter P l) <= length (base.filter Q l))%nat.
Proof. intros HPQ. induction l as [|x l IH]; [done|]. rewrite !filter_cons. repeat case_decide; cbn; try lia. exfalso; auto. Qed.
Lemma unseen_mono seen seen' : seen ⊆ seen' -> (unseen seen' <= unseen seen)%nat.
Proof. intros H. apply filter_length_le. set_solver. Qed.
Lemma unseen_role_less role seen : defined role -> role ∉ seen -> (unseen (role :: seen) < unseen seen)%nat.
Proof.
  intros Hd Hs. assert (Hk : role ∈ jm_keys (ac_roles c)).
  { destruct (decide (role ∈ jm_keys (ac_roles c))) as [|Hn]; [done|]. apply jm_get_None in Hn. rewrite Hn in Hd. by destruct Hd. }
  unfold unseen. induction (jm_keys (ac_roles c)) as [|k l IH]; [set_solver|]. rewrite !filter_cons. apply elem_of_cons in Hk as [<-|Hk].
  - rewrite decide_False by set_solver. rewrite decide_True by done. cbn. apply le_n_S, filter_length_le. set_solver.
  - specialize (IH Hk). repeat case_decide; cbn; try lia. set_solver.
Qed.

(** A role that a call has seen is done: its patterns are out, its parents seen. *)
Definition done_with (seen seen' out : list jsstr) : Prop :=
  forall x def, x ∈ seen' -> x ∉ seen -> jm_get (ac_roles c) x = Some def ->
    own_patterns def ⊆ out /\ forall b, b ∈ inherits_of def -> defined b -> b ∈ seen'.

Definition expands (role : jsstr) (seen : list jsstr) (r : list jsstr * list jsstr) : Prop :=
  seen ⊆ r.2 /\ (defined role -> role ∈ r.2) /\ done_with seen r.2 r.1 /\ forall p, p ∈ r.1 -> granted c role p.

Lemma expand_parents (step : jsstr -> list jsstr -> list jsstr * list jsstr) bound parents out seen :
  (forall role seen, (unseen seen <= bound)%nat -> expands role seen (step role seen)) -> (unseen seen <= bound)%nat ->
  let r := fold_left (fun st parent => let '(ps, seen) := step parent st.2 in (add_all st.1 ps, seen)) parents (out, seen) in
  seen ⊆ r.2 /\ out ⊆ r.1 /\ (forall b, b ∈ parents -> defined b -> b ∈ r.2) /\ done_with seen r.2 r.1 /\
  forall p, p ∈ r.1 -> p ∈ out \/ exists b, b ∈ parents /\ granted c b p.
Proof.
  intros Hstep. revert out seen. induction parents as [|b parents IH]; intros out seen Hb; cbn [fold_left].
  - cbn. split; [done|]. split; [done|]. split; [set_solver|]. split; [by intros x def|by left].
  - cbn [snd fst]. destruct (step b seen) as [ps seen1] eqn:Es. destruct (Hstep b seen Hb) as (H1 & H2 & H3 & H4). rewrite Es in *. cbn [fst snd] in *.
    assert (Hb1 : (unseen seen1 <= bound)%nat) by (pose proof (unseen_mono _ _ H1); lia).
    specialize (IH (add_all out ps) seen1 Hb1). cbv zeta in IH. destruct (fold_left _ parents (add_all out ps, seen1)) as [out' seen']. cbn [fst snd] in *. destruct IH as (I1 & I2 & I3 & I4 & I5).
    assert (Hsub : out ⊆ out' /\ ps ⊆ out') by (split; intros p Hp; apply I2, elem_add_all; auto). destruct Hsub as [Ho Hps].
    split; [set_solver|]. split; [done|]. split; [|split].
    + intros x [->|Hx]%elem_of_cons Hd; [by apply I1, H2|by apply I3].
    + intros x def Hx Hns Hdef. destruct (decide (x ∈ seen1)) as [E|E]; [|exact (I4 x def Hx E Hdef)].
      destruct (H3 x def E Hns Hdef) as [Ha Hc]. split; [set_solver|]. intros y Hy Hd. by apply I1, Hc.
    + intros p Hp. destruct (I5 p Hp) as [[Hq|Hq]%elem_add_all|(y & Hy & Hg)]; [by left|right; exists b; split; [left|by apply H4]|right; exists y; split; [by right|done]].
Qed.

Lemma expandRole_expands fuel role seen : (unseen seen < fuel)%nat -> expands role seen (expandRole fuel c role seen).
Proof.
  revert role seen. induction fuel as [|fuel IH]; intros role seen Hf; [lia|]. cbn [expandRole]. destruct (jm_get (ac_roles c) role) as [def|] eqn:Ed.
  - case_bool_decide as Hs; [split; [done|split; [done|split; [by intros x def' ? ?|set_solver]]]|].
    pose proof (unseen_role_less role seen (ltac:(by rewrite Ed) : defined role) Hs) as Hu.
    epose proof (expand_parents (expandRole fuel c) (unseen (role :: seen)) (inherits_of def) [] (role :: seen)
      ltac:(intros r s Hle; apply IH; lia) ltac:(lia)) as H. cbv zeta in H.
    destruct (fold_left _ (inherits_of def) ([], role :: seen)) as [out seen']. cbn [fst snd] in H. destruct H as (H1 & _ & H3 & H4 & H5). split; cbn [fst snd]; [set_solver|]. split; [set_solver|]. split.
    + intros x d Hx Hns Hdx. destruct (decide (x = role)) as [->|Hne].
      * replace d with def by congruence. split; [intros p Hp; apply elem_add_all; by right|]. intros b Hb Hd. by apply H3.
      * destruct (H4 x d Hx ltac:(set_solver) Hdx) as [Ha Hc]. split; [intros p Hp; apply elem_add_all; left; by apply Ha|done].
    + intros p [Hp|Hp]%elem_add_all.
      * destruct (H5 p Hp) as [?|(b & Hb & x & dx & Hr & Hx & Hpx)]; [set_solver|]. exists x, dx. split; [|done]. eapply rtc_l; [|done]. by exists def.
      * exists role, def. split; [apply rtc_refl|done].
  - split; [done|]. split; [intros [? He]; congruence|]. split; [by intros x def ? ?|set_solver].
Qed.

(** The expansion is exact, cyclic roles and shared parents included. *)
Lemma expand_granted role p : p ∈ expand c role <-> granted c role p.
Proof.
  unfold expand. destruct (expandRole_expands (S (length (ac_roles c))) role []) as (_ & H2 & H3 & H4).
  { unfold unseen. pose proof (length_filter (fun r => r ∉ []) (jm_keys (ac_roles c))) as H. unfold jm_keys in *. rewrite length_fmap in H. lia. }
  split; [apply H4|]. intros (x & def & Hr & Hx & Hp). set (r := expandRole _ c role []) in *.
  enough (Hs : x ∈ r.2) by (by apply (H3 x def Hs (not_elem_of_nil x) Hx)).
  assert (Hd : defined x) by (by rewrite Hx). clear def Hx Hp. revert x Hr Hd. apply (rtc_ind_r (fun x => defined x -> x ∈ r.2)); [exact H2|].
  intros y z _ (def & Hy & Hz) IH Hdz. apply (H3 y def); [by apply IH; rewrite Hy|apply not_elem_of_nil|done|done|done].
Qed.
End expand.

(** * Rows *)

Definition has {A} (m : gmap Z A) (x : A) : Prop := exists id, m !! id = Some x.

Lemma has_add {A} (x : A) m y : has (add_row x m) y <-> y = x \/ has m y.
Proof.
  unfold has, add_row. assert (Hf : m !! fresh (dom m) = None) by (apply not_elem_of_dom, is_fresh). split.
  - intros [id Hid]. apply lookup_insert_Some in Hid as [[_ ->]|[_ H]]; eauto.
  - intros [->|[id Hid]]; [exists (fresh (dom m)); by rewrite lookup_insert_eq|]. exists id. rewrite lookup_insert_ne; [done|]. congruence.
Qed.
Lemma lookup_delete_rows {A} ids (m : gmap Z A) id : delete_rows ids m !! id = if decide (id ∈ ids) then None else m !! id.
Proof.
  unfold delete_rows. revert m. induction ids as [|i ids IH]; intros m; cbn [fold_left]; [by rewrite decide_False by set_solver|].
  rewrite IH. destruct (decide (id ∈ ids)) as [E|E]; [by rewrite decide_True by set_solver|]. destruct (decide (id = i)) as [->|Hi].
  - rewrite decide_True by set_solver. apply lookup_delete_eq.
  - rewrite decide_False by set_solver. by apply lookup_delete_ne.
Qed.
Lemma has_delete {A} (D : A -> Prop) ids (m : gmap Z A) y : (forall id x, m !! id = Some x -> id ∈ ids <-> D x) -> has (delete_rows ids m) y <-> has m y /\ ~ D y.
Proof.
  intros H. unfold has. setoid_rewrite lookup_delete_rows. split.
  - intros [id Hid]. destruct (decide (id ∈ ids)) as [E|E]; [done|]. split; [by exists id|]. by rewrite <-(H id y Hid).
  - intros [[id Hid] Hn]. exists id. rewrite decide_False; [done|]. by rewrite (H id y Hid).
Qed.

Section facts.
Context {host : JsHost} (order : forall A, list (Z * A) -> list (Z * A)) (order_perm : forall A (l : list (Z * A)), order A l ≡ₚ l).

Lemma rows_elem {A} (P : A -> bool) (m : gmap Z A) id x : (id, x) ∈ rows order P m <-> m !! id = Some x /\ P x = true.
Proof. unfold rows. rewrite order_perm, list_elem_of_filter, elem_of_map_to_list. cbn. tauto. Qed.
Lemma rows_has {A B} (P : A -> bool) (f : A -> B) (m : gmap Z A) y : y ∈ (fun kv => f kv.2) <$> rows order P m <-> exists x, has m x /\ P x = true /\ y = f x.
Proof.
  rewrite list_elem_of_fmap. split.
  - intros ([id x] & -> & [Hid HP]%rows_elem). exists x. split; [by exists id|done].
  - intros (x & [id Hid] & HP & ->). exists (id, x). split; [done|]. by apply rows_elem.
Qed.
Lemma rows_nil {A} (P : A -> bool) (m : gmap Z A) : rows order P m = [] <-> ~ exists x, has m x /\ P x = true.
Proof.
  split.
  - intros H (x & [id Hid] & HP). assert ((id, x) ∈ rows order P m) as Hin by (by apply rows_elem). rewrite H in Hin. set_solver.
  - intros H. destruct (rows order P m) as [|[id x] l] eqn:E; [done|]. destruct H. exists x. assert ((id, x) ∈ rows order P m) as [Hid HP]%rows_elem by (rewrite E; left). split; [by exists id|done].
Qed.
Lemma rows_some {A} (P : A -> bool) (m : gmap Z A) : negb (bool_decide (rows order P m = [])) = true <-> exists x, has m x /\ P x = true.
Proof.
  rewrite negb_true_iff, bool_decide_eq_false, rows_nil. split; [|tauto]. intros H. destruct (rows order P m) as [|[id x] l] eqn:E; [by apply rows_nil in E|].
  exists x. assert ((id, x) ∈ rows order P m) as [Hid HP]%rows_elem by (rewrite E; left). split; [by exists id|done].
Qed.
(** Deleting the rows of a query that satisfy [Q]. *)
Lemma has_delete_found {A} (P : A -> bool) (Q : A -> Prop) `{!forall x : Z * A, Decision (Q x.2)} (m : gmap Z A) y :
  has (delete_rows (base.filter (fun kv => Q kv.2) (rows order P m)).*1 m) y <-> has m y /\ ~ (P y = true /\ Q y).
Proof.
  apply (has_delete (fun x => P x = true /\ Q x)). intros id x Hid. rewrite list_elem_of_fmap. split.
  - intros ([id' x'] & -> & [HQ [Hid' HP]%rows_elem]%list_elem_of_filter). cbn in *. replace x with x' by congruence. done.
  - intros [HP HQ]. exists (id, x). split; [done|]. apply list_elem_of_filter. split; [done|]. by apply rows_elem.
Qed.
Lemma has_delete_rows {A} (P : A -> bool) (m : gmap Z A) y : has (delete_rows (rows order P m).*1 m) y <-> has m y /\ P y <> true.
Proof.
  apply (has_delete (fun x => P x = true)). intros id x Hid. rewrite list_elem_of_fmap. split.
  - intros ([id' x'] & -> & [Hid' HP]%rows_elem). cbn in *. by replace x with x' by congruence.
  - intros HP. exists (id, x). split; [done|]. by apply rows_elem.
Qed.

Lemma of_user_scope_true u s g : of_user_scope u s g = true <-> gr_userId g = u /\ (gr_scopeType g, gr_scopeId g) = s.
Proof. unfold of_user_scope. rewrite !andb_true_iff, !bool_decide_eq_true. destruct s. cbn. split; [intros [[-> ->] ->]; done|intros [-> [= -> ->]]; done]. Qed.
Lemma assigned_in_true u s a : assigned_in u s a = true <-> as_userId a = u /\ (as_scopeType a, as_scopeId a) = s.
Proof. unfold assigned_in. rewrite !andb_true_iff, !bool_decide_eq_true. destruct s. cbn. split; [intros [[-> ->] ->]; done|intros [-> [= -> ->]]; done]. Qed.

Lemma has_add_grants u s have ps m g : has (add_grants u s have ps m) g <-> has m g \/ exists p, p ∈ ps /\ p ∉ have /\ g = Grant u s.1 s.2 p.
Proof.
  unfold add_grants. revert m. induction ps as [|p ps IH]; intros m; cbn [fold_left]; [set_solver|]. rewrite IH. case_bool_decide as E.
  - setoid_rewrite elem_of_cons. split; [intros [?|(q & ? & ? & ?)]; eauto 8|]. intros [?|(q & [->|?] & ? & ?)]; eauto 8. done.
  - rewrite has_add. setoid_rewrite elem_of_cons. split; [intros [[->|?]|(q & ? & ? & ?)]; eauto 8|]. intros [?|(q & [->|?] & ? & ?)]; eauto 8.
Qed.

Context (config : authz_config).
Notation upsertPatterns := (upsertPatterns order config).
Notation reconcileScope := (reconcileScope order config).

(** What a write may leave alone. *)
Definition same_rest (db db' : authz_db) : Prop := az_assignments db' = az_assignments db /\ az_meta db' = az_meta db /\ az_relations db' = az_relations db.

Lemma expandRolePatterns_granted role ps : expandRolePatterns config role = Ok ps -> forall p, p ∈ ps <-> granted config role p.
Proof. unfold expandRolePatterns. destruct (_ <? _)%nat; [done|]. intros [= <-] p. apply expand_granted. Qed.

Lemma grant_eta g u s : gr_userId g = u -> (gr_scopeType g, gr_scopeId g) = s -> g = Grant u s.1 s.2 (gr_permission g).
Proof. by intros <- <-; destruct g. Qed.

Lemma upsert_grants u role s db db' : upsertPatterns u role s db = Ok db' ->
  same_rest db db' /\ forall g, has (az_grants db') g <-> has (az_grants db) g \/ (gr_userId g = u /\ (gr_scopeType g, gr_scopeId g) = s /\ granted config role (gr_permission g)).
Proof.
  unfold Authz.upsertPatterns. intros (ps & Hps & [= <-])%bind_res_ok. split; [done|]. intros g. cbn [with_grants az_grants]. rewrite has_add_grants.
  pose proof (expandRolePatterns_granted role ps Hps) as Hg. split.
  - intros [?|(p & Hp & _ & ->)]; [by left|right]. destruct s. cbn. split; [done|]. split; [done|]. by apply Hg.
  - intros [?|(Hu & Hs & Hp)]; [by left|]. destruct (decide (gr_permission g ∈ (fun kv => gr_permission kv.2) <$> rows order (of_user_scope u s) (az_grants db))) as [E|E].
    + apply (rows_has _ gr_permission) in E as (g' & Hh & [Hu' Hs']%of_user_scope_true & Hpe). left. rewrite (grant_eta g u s) by done. rewrite Hpe, <-(grant_eta g' u s) by done. done.
    + right. exists (gr_permission g). split; [by apply Hg|]. split; [done|]. by apply grant_eta.
Qed.

Lemma desired_granted acc roles desired : desired_patterns config acc roles = Ok desired -> forall p, p ∈ desired <-> p ∈ acc \/ exists r, r ∈ roles /\ granted config r p.
Proof.
  revert acc. induction roles as [|r roles IH]; intros acc; cbn [desired_patterns]; [intros [= <-]; set_solver|].
  intros (ps & Hps & H)%bind_res_ok p. rewrite (IH _ H), elem_add_all, (expandRolePatterns_granted r ps Hps). setoid_rewrite elem_of_cons. split.
  - intros [[?|?]|(x & ? & ?)]; eauto 6.
  - intros [?|(x & [->|?] & ?)]; eauto 6.
Qed.

Lemma reconcileScope_grants u s roles db db' : reconcileScope u s roles db = Ok db' ->
  same_rest db db' /\ forall g, has (az_grants db') g <->
    if decide (gr_userId g = u /\ (gr_scopeType g, gr_scopeId g) = s) then exists r, r ∈ roles /\ granted config r (gr_permission g) else has (az_grants db) g.
Proof.
  unfold Authz.reconcileScope. intros (desired & Hd & [= <-])%bind_res_ok. split; [done|]. intros g. cbn [with_grants az_grants].
  assert (Hdes : forall p, p ∈ desired <-> exists r, r ∈ roles /\ granted config r p) by (intros p; rewrite (desired_granted _ _ _ Hd); set_solver).
  rewrite has_add_grants, (has_delete_found (of_user_scope u s) (fun g => gr_permission g ∉ desired)), of_user_scope_true. destruct (decide _) as [E|E].
  - rewrite <-Hdes. split.
    + intros [[Hh Hn]|(p & Hp & _ & ->)]; [|done]. destruct (decide (gr_permission g ∈ desired)); [done|]. by destruct Hn.
    + intros Hp. set (have := (fun kv => gr_permission kv.2) <$> _). destruct (decide (gr_permission g ∈ have)) as [Ha|Ha].
      * apply list_elem_of_fmap in Ha as ([id g'] & Hpe & [_ [Hid [Hu Hs]%of_user_scope_true]%rows_elem]%list_elem_of_filter). cbn in *.
        left. split; [|intros [_ ?]; done]. exists id. destruct E as [E1 E2]. rewrite (grant_eta g u s) by done. rewrite Hpe, <-(grant_eta g' u s) by done. done.
      * right. exists (gr_permission g). split; [done|]. split; [done|]. by apply grant_eta; apply E.
  - split; [intros [[? _]|(p & _ & _ & ->)]; [done|destruct E; by destruct s]|]. intros Hh. left. split; [done|]. tauto.
Qed.

(** * The index of the grants *)

(** The rows are what the assigned roles grant. *)
Definition in_step (db : authz_db) : Prop :=
  forall g, has (az_grants db) g <-> exists role, has (az_assignments db) (Assignment (gr_userId g) role (gr_scopeType g) (gr_scopeId g)) /\ granted config role (gr_permission g).

Lemma assign_has u role s db a : has (az_assignments (assign order u role s db)) a <-> a = Assignment u role s.1 s.2 \/ has (az_assignments db) a.
Proof.
  unfold assign. case_bool_decide as E; [|apply has_add]. split; [by right|]. intros [->|?]; [|done].
  apply (rows_has _ as_role) in E as (b & Hb & [Hu Hs]%assigned_in_true & ->). destruct b; cbn in *. by subst.
Qed.

Lemma assign_in_step u role s db db' : in_step db -> upsertPatterns u role s (assign order u role s db) = Ok db' -> in_step db'.
Proof.
  intros Hi H. apply upsert_grants in H as [(Ha & _) Hg]. intros g. rewrite Hg, Ha. assert (az_grants (assign order u role s db) = az_grants db) as -> by (unfold assign; by case_bool_decide).
  rewrite (Hi g). setoid_rewrite assign_has. split.
  - intros [(r & ? & ?)|(Hu & Hs & ?)]; [eauto|]. exists role. split; [left|done]. rewrite <-Hu, <-Hs. done.
  - intros (r & [[= Hu -> Ht Hsi]|?] & ?); [right|left; eauto]. split; [done|]. split; [|done]. rewrite Ht, Hsi. by destruct s.
Qed.

Lemma revoke_has u role s db a :
  let found := rows order (assigned_in u s) (az_assignments db) in
  has (delete_rows (base.filter (fun kv => as_role kv.2 = role) found).*1 (az_assignments db)) a <->
  has (az_assignments db) a /\ a <> Assignment u role s.1 s.2.
Proof.
  cbv zeta. rewrite (has_delete_found (assigned_in u s) (fun a => as_role a = role)), assigned_in_true. destruct a as [au ar at_ ai], s as [st si]. cbn.
  split; intros [? Hn]; (split; [done|]); [intros [= -> -> -> ->]|intros [[-> [= -> ->]] ->]]; by apply Hn.
Qed.

Lemma revoke_in_step u role s db db' :
  let found := rows order (assigned_in u s) (az_assignments db) in
  in_step db ->
  reconcileScope u s ((fun kv => as_role kv.2) <$> base.filter (fun kv => as_role kv.2 <> role) found)
    (with_assignments (delete_rows (base.filter (fun kv => as_role kv.2 = role) found).*1 (az_assignments db)) db) = Ok db' -> in_step db'.
Proof.
  cbv zeta. intros Hi H. apply reconcileScope_grants in H as [(Ha & _) Hg]. intros g. rewrite Hg, Ha. cbn [with_assignments az_assignments az_grants]. setoid_rewrite revoke_has. destruct (decide _) as [[Hu Hs]|E].
  - split.
    + intros (r & Hr & Hp). exists r. split; [|done]. apply list_elem_of_fmap in Hr as ([id a] & -> & [Hne [Hid [Hau Has]%assigned_in_true]%rows_elem]%list_elem_of_filter). cbn in *.
      replace (Assignment (gr_userId g) (as_role a) (gr_scopeType g) (gr_scopeId g)) with a by (destruct a, s; cbn in *; congruence). split; [by exists id|]. intros ->. done.
    + intros (r & [[id Hid] Hne] & Hp). exists r. split; [|done]. apply list_elem_of_fmap. eexists (id, _). split; [|apply list_elem_of_filter; split; [|apply rows_elem; split; [exact Hid|]]]; [done| |by apply assigned_in_true].
      cbn. intros ->. apply Hne. rewrite <-Hu, <-Hs. done.
  - rewrite (Hi g). split; intros (r & Hr & Hp); exists r; (split; [|done]); [split; [done|]|apply Hr]. intros [= Hu -> Ht Hsi]. apply E. split; [done|]. rewrite Ht, Hsi. by destruct s.
Qed.
(** ** The rebuild *)

Definition clean (s : jsstr) : Prop := 0 ∉ s.
Definition clean_row (u : jsstr) (s : scope) : Prop := clean u /\ clean s.1 /\ clean s.2.
Definition clean_db (db : authz_db) : Prop := forall a, has (az_assignments db) a -> clean_row (as_userId a) (as_scopeType a, as_scopeId a).

Lemma clean_split a b a' b' : clean a -> clean a' -> a ++ 0 :: b = a' ++ 0 :: b' -> a = a' /\ b = b'.
Proof.
  unfold clean. revert a'. induction a as [|x a IH]; intros [|y a'] Ha Ha'; cbn; [by intros [= ->]|intros [= <- _]; set_solver|intros [= -> _]; set_solver|].
  intros [= -> H]. destruct (IH a' ltac:(set_solver) ltac:(set_solver) H) as [-> ->]. done.
Qed.
Lemma scope_key_inj u s u' s' : clean_row u s -> clean_row u' s' -> scope_key u s.1 s.2 = scope_key u' s'.1 s'.2 -> u = u' /\ s = s'.
Proof.
  intros (H1 & H2 & H3) (H1' & H2' & H3') H. apply clean_split in H as [-> H]; [|done|done]. apply clean_split in H as [Ht Hi]; [|done|done].
  split; [done|]. destruct s, s'; cbn in *; congruence.
Qed.

(** The roles that a list of assignments gives to a user in a scope. *)
Definition gives (l : list assignment) (u : jsstr) (s : scope) (r : jsstr) : Prop := Assignment u r s.1 s.2 ∈ l.
Definition groups (l : list assignment) (m : scope_map) : Prop :=
  NoDup (jm_keys m) /\
  (forall k u s roles, jm_get m k = Some (u, s, roles) -> k = scope_key u s.1 s.2 /\ clean_row u s /\ forall r, r ∈ roles <-> gives l u s r) /\
  (forall a, a ∈ l -> jm_has m (scope_key (as_userId a) (as_scopeType a) (as_scopeId a)) = true).

Lemma jm_has_true {V} (m : list (jsstr * V)) k : jm_has m k = true <-> is_Some (jm_get m k).
Proof. unfold jm_has. destruct (jm_get m k); split; intros Hx; [by eexists|done|done|by destruct Hx]. Qed.

Lemma group_one l m a : groups l m -> clean_row (as_userId a) (as_scopeType a, as_scopeId a) -> groups (l ++ [a]) (group_assignment m a).
Proof.
  intros (Hn & Hg & Ha) Hc. unfold group_assignment. set (key := scope_key _ _ _). destruct (jm_get m key) as [[[u s] roles]|] eqn:Ek.
  - destruct (Hg _ _ _ _ Ek) as (Hk & Hcu & Hr). apply (scope_key_inj _ (as_scopeType a, as_scopeId a)) in Hk as [Hu Hs]; [|done|done].
    split; [by apply jm_nodup_set|]. split.
    + intros k u' s' roles'. rewrite jm_get_set. destruct (decide (k = key)) as [->|Hne].
      * intros [= <- <- <-]. split; [subst; done|]. split; [done|]. intros r. unfold gives. rewrite !elem_of_app, Hr, !list_elem_of_singleton. unfold gives.
        rewrite <-Hu, <-Hs. destruct a; cbn. split; [intros [?| ->]; auto|intros [?|[= ->]]; auto].
      * intros Hk'. destruct (Hg _ _ _ _ Hk') as (Hkey & Hcu' & Hr'). split; [done|]. split; [done|]. intros r. rewrite Hr'. unfold gives. rewrite elem_of_app, list_elem_of_singleton.
        split; [by left|intros [?|<-]; [done|]]. exfalso. apply Hne. rewrite Hkey. done.
    + intros b [Hb| ->%list_elem_of_singleton]%elem_of_app; apply jm_has_true; rewrite jm_get_set; (destruct (decide _) as [E|E]; [by eexists|]); [apply jm_has_true; by apply Ha|done].
  - split; [by apply jm_nodup_set|]. split.
    + intros k u' s' roles'. rewrite jm_get_set. destruct (decide (k = key)) as [->|Hne].
      * intros [= <- <- <-]. split; [done|]. split; [done|]. intros r. unfold gives. rewrite elem_of_app, !list_elem_of_singleton. cbn [fst snd]. split.
        -- intros ->. right. by destruct a.
        -- intros [Hin|Heq]; [exfalso; assert (Hs : is_Some (jm_get m key)) by (apply jm_has_true; exact (Ha _ Hin)); rewrite Ek in Hs; by destruct Hs|]. destruct a; cbn in *; congruence.
      * intros Hk'. destruct (Hg _ _ _ _ Hk') as (Hkey & Hcu' & Hr'). split; [done|]. split; [done|]. intros r. rewrite Hr'. unfold gives. rewrite elem_of_app, list_elem_of_singleton.
        split; [by left|intros [?|<-]; [done|]]. exfalso. apply Hne. rewrite Hkey. done.
    + intros b [Hb| ->%list_elem_of_singleton]%elem_of_app; apply jm_has_true; rewrite jm_get_set; (destruct (decide _) as [E|E]; [by eexists|]); [apply jm_has_true; by apply Ha|done].
Qed.

Lemma group_all l l' m : groups l m -> (forall a, a ∈ l' -> clean_row (as_userId a) (as_scopeType a, as_scopeId a)) -> groups (l ++ l') (fold_left group_assignment l' m).
Proof.
  revert l m. induction l' as [|a l' IH]; intros l m Hg Hc; [by rewrite app_nil_r|]. cbn [fold_left]. replace (l ++ a :: l') with ((l ++ [a]) ++ l') by (by rewrite <-app_assoc).
  apply IH; [apply group_one; [done|apply Hc; left]|intros b Hb; apply Hc; by right].
Qed.
Lemma groups_nil : groups [] [].
Proof. split; [constructor|]. split; [done|set_solver]. Qed.

(** Every user and scope of the list is reconciled, the others are left alone. *)
Lemma reconcile_all_grants l db db' : NoDup l.*1 -> reconcile_all order config l db = Ok db' ->
  same_rest db db' /\ forall g, has (az_grants db') g <->
    (exists u s roles r, (u, s, roles) ∈ l /\ gr_userId g = u /\ (gr_scopeType g, gr_scopeId g) = s /\ r ∈ roles /\ granted config r (gr_permission g)) \/
    ((gr_userId g, (gr_scopeType g, gr_scopeId g)) ∉ l.*1 /\ has (az_grants db) g).
Proof.
  revert db. induction l as [|[[u s] roles] l IH]; intros db Hn; cbn [reconcile_all].
  - intros [= <-]. split; [done|]. intros g. split; [intros ?; right; split; [set_solver|done]|intros [(? & ? & ? & ? & ? & _)|[_ ?]]; [set_solver|done]].
  - intros (db1 & H1 & H)%bind_res_ok. apply reconcileScope_grants in H1 as [(Ha1 & Hm1 & Hr1) H1]. csimpl in Hn. apply NoDup_cons in Hn as [Hnin Hn].
    destruct (IH db1 Hn H) as [(Ha & Hm & Hr) Hg]. split; [split; [congruence|split; congruence]|]. intros g. rewrite Hg, H1. csimpl. destruct (decide _) as [[Hu Hs]|E].
    + rewrite Hu, Hs. split.
      * intros [(u' & s' & ro & r & Hin & Hu' & Hs' & Hrr)|[_ (r & ? & ?)]]; left; [exists u', s', ro, r; split; [by right|]; done|exists u, s, roles, r; split; [left|done]].
      * intros [(u' & s' & ro & r & Hin & <- & <- & ? & ?)|[Hno _]]; [|exfalso; set_solver]. apply elem_of_cons in Hin as [[= ->]|Hin]; [right; split; [done|eauto]|].
        left. exists u, s, ro, r. done.
    + split.
      * intros [(u' & s' & ro & r & Hin & ?)|[Hno ?]]; [left; exists u', s', ro, r; split; [by right|done]|right; split; [|done]].
        intros [Heq|?]%elem_of_cons; [|done]. apply E. by injection Heq as -> ->.
      * intros [(u' & s' & ro & r & Hin & Hu' & Hs' & ?)|[Hno ?]]; [|right; split; [set_solver|done]]. apply elem_of_cons in Hin as [[= -> -> ->]|Hin]; [by destruct E|].
        left. exists u', s', ro, r. done.
Qed.

Definition stamped (db : authz_db) : Prop := exists id, az_meta db = {[id := configHash config]}.
(** The stamp is the only row of its table. *)
Definition one_stamp (db : authz_db) : Prop := az_meta db = ∅ \/ exists id h, az_meta db = {[id := h]}.

Lemma rows_singleton {A} id (h : A) : rows order (fun _ => true) ({[id := h]} : gmap Z A) = [(id, h)].
Proof. apply Permutation_singleton_r. unfold rows. rewrite order_perm, map_to_list_singleton. done. Qed.
Lemma rows_empty {A} : rows order (fun _ => true) (∅ : gmap Z A) = [].
Proof. apply Permutation_nil_r. unfold rows. by rewrite order_perm, map_to_list_empty. Qed.

Lemma rebuild_in_step db db' : clean_db db -> one_stamp db -> (forall g, has (az_grants db) g -> clean_row (gr_userId g) (gr_scopeType g, gr_scopeId g)) ->
  reconcileEffectivePermissions order config db = Ok db' -> ~ stamped db -> in_step db' /\ stamped db' /\ az_assignments db' = az_assignments db.
Proof.
  intros Hc Hone Hcg H Hns. unfold reconcileEffectivePermissions in H. destruct (match head _ with Some _ => _ | None => _ end) eqn:Em in H.
  { exfalso. destruct Hone as [E|(id & h & E)]; rewrite E in Em; [by rewrite rows_empty in Em|]. rewrite rows_singleton in Em. cbn in Em. apply bool_decide_eq_true in Em as ->. apply Hns. by exists id. }
  clear Em Hns. apply bind_res_ok in H as (db1 & H & [= <-]). set (l := (rows order (fun _ => true) (az_assignments db)).*2) in H.
  assert (Hl : forall a, a ∈ l <-> has (az_assignments db) a).
  { intros a. unfold l. rewrite (rows_has (fun _ => true) (fun x => x)). split; [intros (x & ? & _ & ->); done|eauto]. }
  pose proof (group_all [] l [] groups_nil (fun a Ha => Hc a (proj1 (Hl a) Ha))) as (Hn & Hg & Hin). set (m := fold_left group_assignment l []) in *. cbn [app] in *.
  assert (Hval : forall u s roles, (u, s, roles) ∈ jm_values m <-> jm_get m (scope_key u s.1 s.2) = Some (u, s, roles)).
  { intros u s roles. unfold jm_values. rewrite list_elem_of_fmap. split.
    - intros ([k v] & Hv & Hk). cbn in Hv. subst v. apply jm_in_get in Hk; [|done]. by destruct (Hg _ _ _ _ Hk) as [<- _].
    - intros Hk. exists (scope_key u s.1 s.2, (u, s, roles)). split; [done|]. by apply jm_get_Some_in. }
  apply reconcile_all_grants in H as [(Ha & Hm & _) Hgr].
  - split; [|split; [|done]].
    + intros g. cbn [with_meta az_grants az_assignments]. rewrite Hgr, Ha. cbn [with_grants az_grants az_assignments]. rewrite has_delete_rows, negb_true_iff.
      set (s := (gr_scopeType g, gr_scopeId g)). split.
      * intros [(u & s' & roles & r & Hv & <- & <- & Hr & Hp)|[Hno [Hh Hk]]].
        -- exists r. split; [|done]. apply Hval in Hv. destruct (Hg _ _ _ _ Hv) as (_ & _ & Hrr). apply Hl. by apply Hrr.
        -- exfalso. apply Hno. rewrite not_false_iff_true in Hk. apply jm_has_true in Hk as [[[u s'] roles] Hk]. destruct (Hg _ _ _ _ Hk) as (Hkey & Hcu & _).
           apply (scope_key_inj _ s) in Hkey as [Hu Hs]; [|by apply Hcg|done]. rewrite <-Hu, <-Hs in Hk. apply list_elem_of_fmap. exists (gr_userId g, s, roles). split; [done|]. apply Hval. exact Hk.
      * intros (r & Hr & Hp). left. apply Hl in Hr as Hr'. pose proof (Hin _ Hr') as Hk. cbn [as_userId as_scopeType as_scopeId] in Hk.
        apply jm_has_true in Hk as [[[u s'] roles] Hk]. destruct (Hg _ _ _ _ Hk) as (Hkey & Hcu & Hrr).
        apply (scope_key_inj _ s) in Hkey as [Hu Hs]; [|apply (Hc _ Hr)|done]. exists u, s', roles, r. split; [apply Hval; etrans; [|exact Hk]; f_equal; by rewrite <-Hu, <-Hs|].
        split; [done|]. split; [done|]. split; [|done]. apply Hrr. unfold gives. rewrite <-Hu, <-Hs. done.
    + unfold stamped. cbn [with_meta az_meta]. destruct Hone as [E|(id & h & E)]; rewrite Hm; cbn [with_grants az_meta]; rewrite E.
      * rewrite rows_empty. cbn. eexists. reflexivity.
      * rewrite rows_singleton. cbn. exists id. apply insert_singleton_eq.
  - apply (NoDup_fmap_1 (fun us : jsstr * scope => scope_key us.1 us.2.1 us.2.2)). replace (_ <$> _) with (jm_keys m); [done|].
    unfold jm_keys, jm_values. rewrite <-!list_fmap_compose. apply list_fmap_ext. intros i [k [[u s] roles]] Hi. cbn.
    apply list_elem_of_lookup_2, jm_in_get in Hi; [|done]. by destruct (Hg _ _ _ _ Hi) as [-> _].
Qed.
End facts.

(** * Who may do what *)

(** A pattern covers a permission part by part. *)
Definition covers (pat permission : jsstr) : Prop :=
  exists r a, pat = pattern r a /\ (r = (split_permission permission).1 \/ r = js "*") /\ (a = (split_permission permission).2 \/ a = js "*").

Lemma candidate_keys_cover pat permission : pat ∈ candidateKeys permission <-> covers pat permission.
Proof.
  unfold candidateKeys, covers. destruct (split_permission permission) as [res act]. cbn [fst snd]. rewrite elem_add_all, !elem_of_cons. split.
  - intros [?|[->|[->|[->|[->|?]]]]]; try set_solver; eauto 10.
  - intros (r & a & -> & [-> | ->] & [-> | ->]); tauto.
Qed.

(** The roles assigned to [u], in the scope or globally, grant the permission. *)
Definition entitled (config : authz_config) (db : authz_db) (u permission : jsstr) (s : scope) : Prop :=
  exists role s' pat, (s' = s \/ s' = ([], [])) /\ has (az_assignments db) (Assignment u role s'.1 s'.2) /\ granted config role pat /\ covers pat permission.

Section system.
Context {host : JsHost} (order : forall A, list (Z * A) -> list (Z * A)) (order_perm : forall A (l : list (Z * A)), order A l ≡ₚ l).
Notation can := (can order).

Lemma held_true db s u keys : held order db s u keys = true <-> exists key, key ∈ keys /\ has (az_grants db) (Grant u s.1 s.2 key).
Proof.
  unfold held. rewrite existsb_exists. setoid_rewrite rows_some; [|exact order_perm]. split.
  - intros (key & Hk & g & Hg & [Hs Hp%bool_decide_eq_true]%andb_true_iff). apply of_user_scope_true in Hs as [Hu Hs]. exists key. split; [by apply list_elem_of_In|].
    rewrite <-Hp, <-(grant_eta g u s) by done. done.
  - intros (key & Hk & Hg). exists key. split; [by apply list_elem_of_In|]. eexists. split; [done|]. apply andb_true_iff. split; [|by apply bool_decide_eq_true].
    apply of_user_scope_true. by destruct s.
Qed.
Lemma can_true db user permission sc : can db user permission sc = true <->
  exists u key s, uid user = Some u /\ (s = the_scope sc \/ s = ([], [])) /\ key ∈ candidateKeys permission /\ has (az_grants db) (Grant u s.1 s.2 key).
Proof.
  unfold Authz.can. destruct (uid user) as [u|]; [|split; [done|by intros (? & ? & ? & ? & _)]]. destruct (held order db (the_scope sc) u _) eqn:E1.
  - split; [intros _|done]. apply held_true in E1 as (key & ? & ?). exists u, key, (the_scope sc). auto.
  - assert (Hn : forall key, key ∈ candidateKeys permission -> ~ has (az_grants db) (Grant u (the_scope sc).1 (the_scope sc).2 key)).
    { intros key Hk Hh. assert (held order db (the_scope sc) u (candidateKeys permission) = true) by (apply held_true; eauto). congruence. }
    case_bool_decide as Eg; cbn [negb].
    + split; [done|]. intros (u' & key & s & [= <-] & [->|Hs] & Hk & Hh); [by destruct (Hn key Hk)|]. rewrite Hs, <-Eg in Hh. by destruct (Hn key Hk).
    + rewrite held_true. split.
      * intros (key & ? & ?). exists u, key, ([], []). auto.
      * intros (u' & key & s & [= <-] & [-> | ->] & Hk & Hh); [by destruct (Hn key Hk)|eauto].
Qed.

Lemma can_entitled config db user permission sc : in_step config db -> can db user permission sc = true <-> exists u, uid user = Some u /\ entitled config db u permission (the_scope sc).
Proof.
  intros Hi. rewrite can_true. split.
  - intros (u & key & s & Hu & Hs & Hk & Hh). exists u. split; [done|]. apply Hi in Hh as (role & Ha & Hg). exists role, s, key. split; [done|]. split; [done|]. split; [done|]. by apply candidate_keys_cover.
  - intros (u & Hu & role & s & pat & Hs & Ha & Hg & Hc). exists u, pat, s. split; [done|]. split; [done|]. split; [by apply candidate_keys_cover|]. apply Hi. by exists role.
Qed.

(** ** Every call keeps the index in step *)

Definition clean_call (c : authz_call) : Prop :=
  match c with
  | AssignRole u _ sc => clean_row u (the_scope sc)
  | BootstrapFirstAdmin u _ => clean u
  | _ => True
  end.
Definition settled_in (config : authz_config) (db : authz_db) : Prop := in_step config db /\ stamped config db /\ clean_db db.

Lemma require_true db user permission sc : require order db user permission sc = Ok tt <-> can db user permission sc = true.
Proof. unfold require. by destruct (can db user permission sc). Qed.
Lemma stamped_rebuild config db : stamped config db -> reconcileEffectivePermissions order config db = Ok db.
Proof. intros [id E]. unfold reconcileEffectivePermissions. rewrite E, rows_singleton by done. cbn. by rewrite bool_decide_eq_true_2. Qed.
Lemma assign_rest u role s db : az_meta (assign order u role s db) = az_meta db /\ az_grants (assign order u role s db) = az_grants db.
Proof. unfold assign. by case_bool_decide. Qed.

(** What a call does to the assignments. *)
Definition assigns (user : option jsstr) (c : authz_call) (db db' : authz_db) : Prop :=
  match c with
  | AssignRole u role sc => forall a, has (az_assignments db') a <-> a = Assignment u role (the_scope sc).1 (the_scope sc).2 \/ has (az_assignments db) a
  | RevokeRole u role sc => forall a, has (az_assignments db') a <-> has (az_assignments db) a /\ a <> Assignment u role (the_scope sc).1 (the_scope sc).2
  | BootstrapFirstAdmin u role => forall a, has (az_assignments db') a <-> a = Assignment u role [] [] \/ has (az_assignments db) a
  | _ => az_assignments db' = az_assignments db /\ az_grants db' = az_grants db
  end.

Lemma run_call_ok config user c db db' : in_step config db -> stamped config db -> run_call order config user c db = Ok db' ->
  in_step config db' /\ az_meta db' = az_meta db /\ assigns user c db db' /\
  match c with
  | AssignRole _ _ sc | RevokeRole _ _ sc => can db user MANAGE_PERMISSION sc = true
  | BootstrapFirstAdmin _ _ => forall u sc, can db u MANAGE_PERMISSION sc = false
  | _ => True
  end.
Proof.
  intros Hi Hs. destruct c as [u role sc|u role sc| |u role|s r o|s r o]; cbn [run_call assigns].
  - unfold assignRole. intros ([] & _ & ([] & Hr%require_true & H)%bind_res_ok)%bind_res_ok. split; [by eapply assign_in_step|].
    destruct (upsert_grants _ order_perm _ _ _ _ _ _ H) as [(Ha & Hm & _) _]. rewrite Hm, Ha. split; [apply assign_rest|]. split; [|done]. intros a. by apply assign_has.
  - unfold revokeRole. intros ([] & _ & ([] & Hr%require_true & H)%bind_res_ok)%bind_res_ok. split; [by eapply revoke_in_step|].
    destruct (reconcileScope_grants _ order_perm _ _ _ _ _ _ H) as [(Ha & Hm & _) _]. rewrite Hm, Ha. split; [done|]. split; [|done]. intros a. cbn [with_assignments az_assignments]. by apply revoke_has.
  - unfold rebuild. intros ([] & _ & H)%bind_res_ok. rewrite stamped_rebuild in H by done. by injection H as <-.
  - unfold bootstrapFirstAdmin. destruct (negb _); [done|]. destruct (existsb _ _) eqn:Ee; [done|]. intros H. split; [by eapply assign_in_step|].
    destruct (upsert_grants _ order_perm _ _ _ _ _ _ H) as [(Ha & Hm & _) _]. rewrite Hm, Ha. split; [apply assign_rest|]. split; [intros a; by apply (assign_has order order_perm u role ([], []))|].
    intros v sc. destruct (can db v MANAGE_PERMISSION sc) eqn:Ec; [|done]. apply can_true in Ec as (w & key & s & _ & _ & Hk & [id Hid]). exfalso.
    enough (existsb (fun kv => bool_decide (gr_permission kv.2 ∈ candidateKeys MANAGE_PERMISSION)) (rows order (fun _ : grant => true) (az_grants db)) = true) by congruence.
    apply existsb_exists. exists (id, Grant w s.1 s.2 key). split; [apply list_elem_of_In; by apply rows_elem|]. by apply bool_decide_eq_true.
  - intros ([] & _ & [= <-])%bind_res_ok. unfold addRelationTuple. by destruct (tupleRows _ _ _ _ _).
  - intros ([] & _ & [= <-])%bind_res_ok. done.
Qed.

Lemma run_call_clean config user c db db' : settled_in config db -> clean_call c -> run_call order config user c db = Ok db' -> settled_in config db'.
Proof.
  intros (Hi & Hs & Hc) Hcc H. destruct (run_call_ok _ _ _ _ _ Hi Hs H) as (Hi' & Hm & Ha & _). split; [done|]. split; [unfold stamped; by rewrite Hm|].
  intros a Hh. destruct c as [u role sc|u role sc| |u role|s r o|s r o]; cbn [assigns clean_call] in *.
  - apply Ha in Hh as [->|Hh]; [destruct (the_scope sc); exact Hcc|by apply Hc].
  - apply Ha in Hh as [Hh _]. by apply Hc.
  - rewrite (proj1 Ha) in Hh. by apply Hc.
  - apply Ha in Hh as [->|Hh]; [|by apply Hc]. split; [done|]. split; apply not_elem_of_nil.
  - rewrite (proj1 Ha) in Hh. by apply Hc.
  - rewrite (proj1 Ha) in Hh. by apply Hc.
Qed.
Lemma steps_settled config db cs : settled_in config db -> Forall (fun c => clean_call c.2) cs -> settled_in config (authz_steps order config db cs).
Proof.
  intros Hs Hcs. revert db Hs. induction Hcs as [|[user c] cs Hc _ IH]; intros db Hs; [done|]. apply IH. unfold authz_step. cbn [fst snd].
  destruct (run_call order config user c db) eqn:E; [|done]. by eapply run_call_clean.
Qed.

(** ** Deployments *)

(** A deployment boots with its configuration, then serves its calls; one that
    fails to boot serves none. *)
Definition deploy (db : authz_db) (d : authz_config * list (option jsstr * authz_call)) : authz_db :=
  match reconcileEffectivePermissions order d.1 db with Ok db => authz_steps order d.1 db d.2 | Throw _ => db end.

(** Configurations with the same hash grant the same. *)
Definition no_collision (configs : list authz_config) : Prop :=
  forall c c', c ∈ configs -> c' ∈ configs -> configHash c = configHash c' -> forall r p, granted c r p <-> granted c' r p.

Definition deployed (configs : list authz_config) (db : authz_db) : Prop := db = authz_empty \/ exists c, c ∈ configs /\ settled_in c db.

Lemma boot_settles configs c db db' : no_collision configs -> c ∈ configs -> deployed configs db -> reconcileEffectivePermissions order c db = Ok db' -> settled_in c db'.
Proof.
  intros Hno Hc Hd H. assert (Hboot : ~ stamped c db -> clean_db db -> one_stamp db -> (forall g, has (az_grants db) g -> clean_row (gr_userId g) (gr_scopeType g, gr_scopeId g)) -> settled_in c db').
  { intros Hns Hcl Ho Hg. destruct (rebuild_in_step _ order_perm _ _ _ Hcl Ho Hg H Hns) as (Hi & Hs & Ha). split; [done|]. split; [done|]. intros a. rewrite Ha. apply Hcl. }
  destruct Hd as [->|(c' & Hc' & Hi & [id Hid] & Hcl)].
  - apply Hboot; [intros [id Hid]; symmetry in Hid; exact (map_non_empty_singleton _ _ Hid)|intros a [id Hid]; done|by left|intros g [id Hid]; done].
  - destruct (decide (configHash c' = configHash c)) as [E|E].
    + assert (Hst : stamped c db) by (exists id; by rewrite Hid, E). rewrite stamped_rebuild in H by done. injection H as <-. split; [|done].
      intros g. rewrite (Hi g). by setoid_rewrite (Hno c' c Hc' Hc E).
    + apply Hboot; [|done|right; eauto|].
      * intros [id' Hid']. rewrite Hid in Hid'. apply (f_equal (fun m => m !! id)) in Hid'. rewrite lookup_singleton_eq in Hid'. symmetry in Hid'. apply lookup_singleton_Some in Hid' as [_ ?]. done.
      * intros g (role & Ha & _)%Hi. exact (Hcl _ Ha).
Qed.
Lemma deploy_deployed configs db ds : no_collision configs -> ds.*1 ⊆ configs -> Forall (fun d => Forall (fun c => clean_call c.2) d.2) ds -> deployed configs db ->
  deployed configs (fold_left deploy ds db).
Proof.
  intros Hno Hsub Hcl. revert db. induction Hcl as [|[c cs] ds Hcs _ IH]; intros db Hd; [done|]. cbn [fold_left]. csimpl in Hsub. apply IH; [set_solver|]. unfold deploy. cbn [fst snd].
  destruct (reconcileEffectivePermissions order c db) as [db1|] eqn:E; [|done]. right. exists c. split; [set_solver|]. apply steps_settled; [|done]. by apply (boot_settles configs _ db); [|set_solver|..].
Qed.

(** ** What the roles say is what holds *)

Section deployed.
Context (ds : list (authz_config * list (option jsstr * authz_call))) (c : authz_config) (cs : list (option jsstr * authz_call)) (db1 : authz_db).
Hypothesis (distinct : no_collision (c :: ds.*1)) (clean_ds : Forall (fun d => Forall (fun c => clean_call c.2) d.2) ds) (clean_cs : Forall (fun c => clean_call c.2) cs).
Hypothesis boots : reconcileEffectivePermissions order c (fold_left deploy ds authz_empty) = Ok db1.
Notation db := (authz_steps order c db1 cs).

Lemma served_settled : settled_in c db.
Proof.
  apply steps_settled; [|done]. eapply boot_settles; [exact distinct|left| |exact boots].
  apply deploy_deployed; [exact distinct|set_solver|done|by left].
Qed.

(** C20: authorization is exact.  Whatever configurations were deployed and
    whatever calls were made before, failed boots and failed calls included: when
    two configurations with the same 32-bit hash always grant the same, and the
    user and scope names of the assignments hold no NUL, then after the last
    boot [can] answers yes exactly when a role assigned to the user, in the scope
    asked for or globally, grants a pattern that covers the permission, the
    role's parents at any distance included, cyclic or not.  (With colliding
    hashes it is not exact: [hash_collision_keeps_old_grants].) *)
Theorem can_is_entitled user permission sc :
  can db user permission sc = true <-> exists u, uid user = Some u /\ entitled c db u permission (the_scope sc).
Proof. apply can_entitled. apply served_settled. Qed.

Lemma can_in_scope db0 user permission sc sc' : can db0 user permission sc = true -> the_scope sc = the_scope sc' \/ the_scope sc = ([], []) -> can db0 user permission sc' = true.
Proof.
  rewrite !can_true. intros (u & key & s & Hu & Hs & Hk & Hh) Hsc. exists u, key, s. split; [done|]. split; [|done].
  destruct Hs as [Hs|Hs]; [|by right]. destruct Hsc as [E|E]; [left; congruence|right; congruence].
Qed.
Lemma can_ext db0 db' v permission sc : in_step c db0 -> in_step c db' ->
  (forall u role s, s = the_scope sc \/ s = ([], []) -> has (az_assignments db') (Assignment u role s.1 s.2) <-> has (az_assignments db0) (Assignment u role s.1 s.2)) ->
  can db' v permission sc = can db0 v permission sc.
Proof.
  intros Hi Hi' H. apply eq_true_iff_eq. rewrite !can_entitled by done. unfold entitled. split; intros (u & Hu & role & s & pat & Hs & Ha & Hg); exists u; (split; [done|]); exists role, s, pat; (split; [done|]); (split; [by apply H|done]).
Qed.

(** C21: nobody gains or loses access through someone who may not manage it. When a call changes what any user can do in a scope, its caller can manage role assignments in that scope, or the call is the bootstrap of the first administrator and nobody could manage assignments anywhere. *)
Theorem only_managers_change_access user call db' v permission sc :
  run_call order c user call db = Ok db' -> can db' v permission sc <> can db v permission sc ->
  can db user MANAGE_PERMISSION sc = true \/ ((exists u role, call = BootstrapFirstAdmin u role) /\ forall w sc', can db w MANAGE_PERMISSION sc' = false).
Proof.
  intros H Hne. destruct served_settled as (Hi & Hs & _). destruct (run_call_ok _ _ _ _ _ Hi Hs H) as (Hi' & _ & Ha & Hc).
  assert (Hfar : forall u role sc0, can db user MANAGE_PERMISSION sc0 = true ->
    (forall a, a <> Assignment u role (the_scope sc0).1 (the_scope sc0).2 -> has (az_assignments db') a <-> has (az_assignments db) a) -> can db user MANAGE_PERMISSION sc = true).
  { intros u role sc0 Hm Hoth. destruct (decide (the_scope sc0 = the_scope sc \/ the_scope sc0 = ([], []))) as [E|E]; [by eapply can_in_scope|].
    destruct Hne. apply can_ext; [done|done|]. intros w r s Hs'. apply Hoth. destruct (the_scope sc0) as [t i], s as [t' i']. cbn. intros [= _ _ -> ->].
    apply E. destruct Hs' as [<-|Hs']; [by left|by right]. }
  destruct call as [u role sc0|u role sc0| |u role|s r o|s r o]; cbn [assigns] in Ha.
  - left. apply (Hfar u role sc0 Hc). intros a Hna. rewrite Ha. tauto.
  - left. apply (Hfar u role sc0 Hc). intros a Hna. rewrite Ha. tauto.
  - destruct Hne. apply can_ext; [done|done|]. intros. by rewrite (proj1 Ha).
  - right. split; [by exists u, role|done].
  - destruct Hne. apply can_ext; [done|done|]. intros. by rewrite (proj1 Ha).
  - destruct Hne. apply can_ext; [done|done|]. intros. by rewrite (proj1 Ha).
Qed.
End deployed.

(** * Relations *)

Lemma tupleRows_some db o relation s : negb (bool_decide (tupleRows order db o relation s = [])) = true <-> has (az_relations db) (tuple_of o relation s).
Proof.
  unfold tupleRows. rewrite rows_some by done. split; [intros (t & Ht & ->%bool_decide_eq_true); done|]. intros Ht. eexists. split; [done|]. by apply bool_decide_eq_true.
Qed.
Lemma objects_of_elem db s relation ty id : id ∈ objects_of order db s relation ty <-> has (az_relations db) (tuple_of (ty, id) relation s).
Proof.
  unfold objects_of. rewrite list_elem_of_fmap. setoid_rewrite list_elem_of_filter. setoid_rewrite (rows_has order order_perm _ (fun t => t)). split.
  - intros (t & -> & Hty & t' & Ht & [Hs%bool_decide_eq_true Hr%bool_decide_eq_true]%andb_true_iff & ->). destruct t'; cbn in *. subst. exact Ht.
  - intros Ht. eexists. split; [|split; [|eexists; split; [exact Ht|split; [|reflexivity]]]]; [done|done|]. apply andb_true_iff. split; apply bool_decide_eq_true; [by destruct s as [[??]?]|done].
Qed.
Lemma fold_objects db gs relation ty out id :
  id ∈ fold_left (fun out g => add_all out (objects_of order db g relation ty)) gs out <-> id ∈ out \/ exists g, g ∈ gs /\ has (az_relations db) (tuple_of (ty, id) relation g).
Proof.
  revert out. induction gs as [|g gs IH]; intros out; cbn [fold_left]; [set_solver|]. rewrite IH, elem_add_all, objects_of_elem. setoid_rewrite elem_of_cons. split.
  - intros [[?|?]|(x & ? & ?)]; eauto 6.
  - intros [?|(x & [->|?] & ?)]; eauto 6.
Qed.

Lemma hasRelation_direct db type id relation o : hasRelation order db (RelSubject type id None) relation o = true <->
  has (az_relations db) (tuple_of o relation (type, id, [])) \/ exists g, g ∈ memberships order db type id /\ has (az_relations db) (tuple_of o relation g).
Proof.
  unfold hasRelation. change (subj (RelSubject type id None)) with (type, id, [] : jsstr). cbn [rs_type rs_id snd]. rewrite (bool_decide_eq_true_2 (@nil Z = [])) by done. cbn [negb].
  setoid_rewrite <-tupleRows_some. destruct (negb (bool_decide (tupleRows order db o relation (type, id, []) = []))); [tauto|]. rewrite existsb_exists. setoid_rewrite list_elem_of_In.
  split; [by right|by intros [?|?]].
Qed.

(** C22: the objects listed for a user are exactly those to which the relation is confirmed, directly or through a group the user belongs to. *)
Theorem objectsWith_hasRelation db user relation ty id :
  id ∈ objectsWith order db user relation ty <-> exists u, uid user = Some u /\ hasRelation order db (RelSubject (js "user") u None) relation (ty, id) = true.
Proof.
  unfold objectsWith. destruct (uid user) as [u|]; [|split; [set_solver|by intros (? & ? & _)]]. unfold rel_objectsWith. rewrite fold_objects, elem_add_all, objects_of_elem. split.
  - intros H. exists u. split; [done|]. apply hasRelation_direct. destruct H as [[?|?]|?]; [set_solver|by left|by right].
  - intros (u' & [= <-] & [?|?]%hasRelation_direct); auto.
Qed.
End system.

(** * Concrete runs *)

Definition plain_host : JsHost := {| JSON_stringify := fun j => match j with JString s => 34 :: s ++ [34] | _ => [] end; js_String := fun _ => []; error_message := fun _ => []; sha256_hex := fun s => s |}.
Definition in_order : forall A, list (Z * A) -> list (Z * A) := fun _ l => l.
Lemma in_order_perm A (l : list (Z * A)) : in_order A l ≡ₚ l.
Proof. done. Qed.

Definition admins : authz_config := AuthzConfig [] [(js "admin", [(js "authz", RActions [js "manage"])])].
(** The editor and the viewer inherit from each other. *)
Definition editors : authz_config :=
  AuthzConfig [] [(js "admin", [(js "authz", RActions [js "manage"])]);
                  (js "editor", [(js "inherits", RActions [js "viewer"]); (js "posts", RActions [js "edit"])]);
                  (js "viewer", [(js "inherits", RString (js "editor")); (js "posts", RActions [js "read"])])].
Notation team := (js "team", js "t1").
Notation first_deploy := [(admins, [(Some (js "eve"), AssignRole (js "eve") (js "admin") None); (None, BootstrapFirstAdmin (js "ann") (js "admin")); (Some (js "eve"), BootstrapFirstAdmin (js "eve") (js "admin"));
                                    (Some (js "ann"), AssignRole (js "bob") (js "editor") (Some team))])].
Notation more_calls := [(Some (js "bob"), RevokeRole (js "ann") (js "admin") None)].
Notation booted := (match @reconcileEffectivePermissions plain_host in_order editors (fold_left (@deploy plain_host in_order) first_deploy authz_empty) with Ok db => db | Throw _ => authz_empty end).
Notation served := (@authz_steps plain_host in_order editors booted more_calls).

Lemma no_collision_two {host : JsHost} a b : configHash a <> configHash b -> no_collision [a; b].
Proof.
  intros Hne c c' Hc Hc' E r p. apply elem_of_cons in Hc as [-> | ->%list_elem_of_singleton]; apply elem_of_cons in Hc' as [-> | ->%list_elem_of_singleton]; (tauto || congruence).
Qed.
Lemma no_collision_sample : @no_collision plain_host [editors; admins].
Proof. apply no_collision_two. vm_compute. discriminate. Qed.
Lemma clean_sample : Forall (fun d : authz_config * list (option jsstr * authz_call) => Forall (fun c => clean_call c.2) d.2) first_deploy.
Proof. repeat constructor; apply (bool_decide_unpack _); by vm_compute. Qed.

Lemma can_is_entitled_witness :
  @can in_order served (Some (js "bob")) (js "posts:read") (Some team) = true /\ @can in_order served (Some (js "bob")) (js "posts:read") None = false /\
  exists u, uid (Some (js "bob")) = Some u /\ entitled editors served u (js "posts:read") team.
Proof.
  assert (H : @can in_order served (Some (js "bob")) (js "posts:read") (Some team) = true) by (vm_compute; reflexivity).
  assert (Hb : @reconcileEffectivePermissions plain_host in_order editors (fold_left (@deploy plain_host in_order) first_deploy authz_empty) = Ok booted) by (vm_compute; reflexivity).
  split; [exact H|]. split; [vm_compute; reflexivity|].
  assert (Hc : Forall (fun c : option jsstr * authz_call => clean_call c.2) more_calls) by (repeat constructor).
  exact (proj1 (@can_is_entitled plain_host in_order in_order_perm first_deploy editors more_calls booted no_collision_sample clean_sample Hc Hb (Some (js "bob")) (js "posts:read") (Some team)) H).
Defined.

Lemma only_managers_change_access_witness :
  let db := served in
  let db' := match @run_call plain_host in_order editors (Some (js "ann")) (RevokeRole (js "bob") (js "editor") (Some team)) db with Ok db => db | Throw _ => db end in
  can in_order db' (Some (js "bob")) (js "posts:read") (Some team) = false /\
  (can in_order db (Some (js "ann")) MANAGE_PERMISSION (Some team) = true \/
    ((exists u role, RevokeRole (js "bob") (js "editor") (Some team) = BootstrapFirstAdmin u role) /\ forall w sc', can in_order db w MANAGE_PERMISSION sc' = false)).
Proof.
  intros db db'. assert (H : can in_order db' (Some (js "bob")) (js "posts:read") (Some team) = false) by (vm_compute; reflexivity). split; [exact H|].
  assert (Hb : @reconcileEffectivePermissions plain_host in_order editors (fold_left (@deploy plain_host in_order) first_deploy authz_empty) = Ok booted) by (vm_compute; reflexivity).
  assert (Hc : Forall (fun c : option jsstr * authz_call => clean_call c.2) more_calls) by (repeat constructor).
  apply (@only_managers_change_access plain_host in_order in_order_perm first_deploy editors more_calls booted no_collision_sample clean_sample Hc Hb
    (Some (js "ann")) (RevokeRole (js "bob") (js "editor") (Some team)) db' (Some (js "bob")) (js "posts:read") (Some team)).
  - vm_compute. reflexivity.
  - rewrite H. vm_compute. discriminate.
Defined.

(** Ann is in a group that may view a document. *)
Notation with_group := (addRelationTuple in_order (addRelationTuple in_order authz_empty (RelSubject (js "user") (js "ann") None) (js "member") (js "group", js "g"))
  (RelSubject (js "group") (js "g") (Some (js "member"))) (js "viewer") (js "doc", js "d")).
Lemma objectsWith_hasRelation_witness :
  objectsWith in_order with_group (Some (js "ann")) (js "viewer") (js "doc") = [js "d"] /\
  exists u, uid (Some (js "ann")) = Some u /\ hasRelation in_order with_group (RelSubject (js "user") u None) (js "viewer") (js "doc", js "d") = true.
Proof.
  assert (H : objectsWith in_order with_group (Some (js "ann")) (js "viewer") (js "doc") = [js "d"]) by (vm_compute; reflexivity). split; [exact H|].
  apply (objectsWith_hasRelation in_order in_order_perm with_group (Some (js "ann")) (js "viewer") (js "doc") (js "d")). rewrite H. left.
Defined.

(** [roleGrants] drops what follows a second colon: a role that manages users only
    passes for one that manages assignments, and the bootstrap leaves an
    administrator that can not manage. *)
Theorem bootstrap_of_a_powerless_admin :
  let c := AuthzConfig [] [(js "helper", [(js "authz", RActions [js "manage:users"])])] in
  roleGrants c (js "helper") MANAGE_PERMISSION = true /\
  exists db, @run_call plain_host in_order c None (BootstrapFirstAdmin (js "ann") (js "helper")) authz_empty = Ok db /\ can in_order db (Some (js "ann")) MANAGE_PERMISSION None = false.
Proof. split; [vm_compute; reflexivity|]. eexists. split; vm_compute; reflexivity. Qed.

(** Two configurations with the same 32-bit hash: the second boot changes nothing,
    so the permission that it took away still holds. *)
Theorem hash_collision_keeps_old_grants :
  let role action := AuthzConfig [] [(js "r", [(js "posts", RActions [action])])] in
  let old := role (js "adkzehp") in let new := role (js "javanon") in
  exists db db', @upsertPatterns in_order old (js "ann") (js "r") ([], []) (assign in_order (js "ann") (js "r") ([], []) authz_empty) = Ok db /\
    @reconcileEffectivePermissions plain_host in_order new (with_meta {[0 := @configHash plain_host old]} db) = Ok db' /\
    can in_order db' (Some (js "ann")) (js "posts:adkzehp") None = true /\ can in_order db' (Some (js "ann")) (js "posts:javanon") None = false.
Proof. eexists _, _. split; [vm_compute; reflexivity|]. split; [vm_compute; reflexivity|]. split; vm_compute; reflexivity. Qed.
