(* ===== verification/FleetLease.v ===== *)
(** The fenced frontier of a fleet: ee/packages/fleet/src/lease.ts, the commit guard,
    the relinquish dispatcher and the frontier beat of node.ts, and the commit
    transaction of packages/docstore-postgres under READ COMMITTED.

    Nodes share one database. A step is one statement of one session; a
    transaction of a commit is a node's own rows until it commits. A row that an uncommitted
    guard has updated is locked: a statement that would touch it does not step. *)
From Stdlib Require Import ZArith Lia Sorted.
From stdpp Require Import base list gmap sets strings.
From S2P Require Import Prelude JsBase JsText Values ValuesJson IdCodec Sharding DocStore SqliteDocStore PostgresStore.

(** * The rows *)

Record lease_row := LeaseRow
  { lr_epoch : Z; lr_writer : option jsstr; lr_app : option jsstr; lr_expires : Z; lr_frontier : Z; lr_prev : Z }.
Notation leases := (gmap jsstr lease_row).

Record idempotency_row := IdempotencyRow { id_commit_ts : Z; id_value : option json; id_oversized : bool; id_created : Z }.
Notation idempotency := (gmap jsstr idempotency_row).

(** [UPDATE shard_leases SET ... WHERE ...]. *)
Definition update_rows (P : jsstr -> lease_row -> bool) (f : lease_row -> lease_row) (ls : leases) : leases :=
  map_imap (fun s r => Some (if P s r then f r else r)) ls.

Definition set_frontier (f : Z) (r : lease_row) : lease_row := LeaseRow (lr_epoch r) (lr_writer r) (lr_app r) (lr_expires r) f (lr_prev r).
(** [frontier_ts = GREATEST(frontier_ts, n)]. *)
Definition raise_frontier (n : Z) (r : lease_row) : lease_row := set_frontier (Z.max (lr_frontier r) n) r.

(** Eviction and a graceful release: the epoch moves, the shard is nobody's. *)
Definition fence_row (nextval : Z) (r : lease_row) : lease_row :=
  LeaseRow (lr_epoch r + 1) None None (lr_expires r) (Z.max (lr_frontier r) nextval) (lr_prev r).

(** The guard's update: the row's frontier becomes the previous link. *)
Definition commit_row (tsN : Z) (r : lease_row) : lease_row :=
  LeaseRow (lr_epoch r) (lr_writer r) (lr_app r) (lr_expires r) (Z.max (lr_frontier r) tsN) (lr_frontier r).

Definition frontierSeedExpr (documentsExist : bool) (db : sqlite_db) : Z := if documentsExist then max_document_ts db else 0.

(** [setup]: a row for every shard that has none, acquired by nobody. *)
Definition setup (shardIds : list jsstr) (documentsExist : bool) (now : Z) (db : sqlite_db) (ls : leases) : leases :=
  fold_left (fun ls s => match ls !! s with Some _ => ls | None => <[s := LeaseRow 0 None None now (frontierSeedExpr documentsExist db) 0]> ls end) shardIds ls.

(** The upsert of [tryAcquire]. *)
Definition acquire_row (url : jsstr) (app : option jsstr) (expires seed : Z) (old : option lease_row) : lease_row :=
  match old with
  | None => LeaseRow 1 (Some url) app expires seed 0
  | Some r => LeaseRow (lr_epoch r + 1) (Some url) app expires (lr_frontier r) (lr_prev r)
  end.

Definition isExpired (now : Z) (ls : leases) (s : jsstr) : bool := match ls !! s with Some r => lr_expires r <? now | None => false end.

(** [readAllFrontiers], and the minimum that [readFrontier] of the tailer takes
    once every shard has its row. *)
Definition frontiers (ls : leases) : list Z := lr_frontier <$> (map_to_list ls).*2.
Definition min_list (l : list Z) : Z := match l with [] => 0 | x :: l => fold_left Z.min l x end.
Definition readFrontier (numShards : nat) (ls : leases) : Z := if (size ls <? numShards)%nat then 0 else min_list (frontiers ls).

(** * The nodes *)

(** A commit on its way: the units without a timestamp yet, the timestamp drawn
    for the first of them, the units with their rows inserted, and the
    transaction's own rows. *)
Record commit_txn := CommitTxn
  { ct_left : list commit_unit; ct_ts : option Z; ct_units : list guard_unit;
    ct_docs : list doc_row; ct_ixs : list index_row; ct_keys : list (jsstr * Z); ct_guarded : bool }.

(** A beat of the frontier monitor: the pairs [closeIdleFrontiers] has still to
    visit, and its ceiling once drawn. *)
Record beat := Beat { bt_pairs : list (jsstr * Z); bt_ceiling : option Z }.

(** [fn_epochs] is [lastEpochByShard]; [fn_wanting] are acquisitions whose slot lock is
    taken, with the epoch that the upsert returned; [fn_max] is the timestamp read for
    [seedFrontierAll]. *)
Record fleet_node := FleetNode
  { fn_epochs : gmap jsstr Z; fn_txns : gmap jsstr commit_txn; fn_wanting : gmap jsstr (option Z);
    fn_beat : option beat; fn_max : option Z }.
Definition idle_node : fleet_node := FleetNode ∅ ∅ ∅ None None.

(** [fl_slots]: the session-level advisory locks; [fl_rowlocks]: the rows that
    uncommitted guards have updated. *)
Record fleet := Fleet
  { fl_now : Z; fl_seq : Z; fl_db : sqlite_db; fl_leases : leases; fl_idem : idempotency;
    fl_slots : gmap jsstr jsstr; fl_rowlocks : gmap jsstr jsstr; fl_nodes : gmap jsstr fleet_node }.

Definition node_of (w : fleet) (n : jsstr) : fleet_node := default idle_node (fl_nodes w !! n).
Definition currentEpoch (w : fleet) (n s : jsstr) : option Z := fn_epochs (node_of w n) !! s.
Definition heldPairs (nd : fleet_node) : list (jsstr * Z) := map_to_list (fn_epochs nd).

Definition with_node (w : fleet) (n : jsstr) (nd : fleet_node) : fleet :=
  Fleet (fl_now w) (fl_seq w) (fl_db w) (fl_leases w) (fl_idem w) (fl_slots w) (fl_rowlocks w) (<[n := nd]> (fl_nodes w)).
Definition with_leases (w : fleet) (seq : Z) (ls : leases) : fleet :=
  Fleet (fl_now w) seq (fl_db w) ls (fl_idem w) (fl_slots w) (fl_rowlocks w) (fl_nodes w).
Definition with_slots (w : fleet) (slots : gmap jsstr jsstr) : fleet :=
  Fleet (fl_now w) (fl_seq w) (fl_db w) (fl_leases w) (fl_idem w) slots (fl_rowlocks w) (fl_nodes w).
Definition with_rowlocks (w : fleet) (locks : gmap jsstr jsstr) : fleet :=
  Fleet (fl_now w) (fl_seq w) (fl_db w) (fl_leases w) (fl_idem w) (fl_slots w) locks (fl_nodes w).

Definition with_epochs (nd : fleet_node) m : fleet_node := FleetNode m (fn_txns nd) (fn_wanting nd) (fn_beat nd) (fn_max nd).
Definition with_txns (nd : fleet_node) m : fleet_node := FleetNode (fn_epochs nd) m (fn_wanting nd) (fn_beat nd) (fn_max nd).
Definition with_wanting (nd : fleet_node) m : fleet_node := FleetNode (fn_epochs nd) (fn_txns nd) m (fn_beat nd) (fn_max nd).
Definition with_beat (nd : fleet_node) b : fleet_node := FleetNode (fn_epochs nd) (fn_txns nd) (fn_wanting nd) b (fn_max nd).
Definition with_max (nd : fleet_node) m : fleet_node := FleetNode (fn_epochs nd) (fn_txns nd) (fn_wanting nd) (fn_beat nd) m.

(** An UPDATE of the lease rows waits for the rows that are locked. *)
Definition rows_free (w : fleet) (P : jsstr -> lease_row -> bool) : Prop := map_Forall (fun s r => P s r = true -> fl_rowlocks w !! s = None) (fl_leases w).
#[global] Instance rows_free_dec w P : Decision (rows_free w P).
Proof. unfold rows_free. apply map_Forall_dec. intros s r. apply _. Defined.

Definition update_leases (w : fleet) (seq : Z) (P : jsstr -> lease_row -> bool) (f : lease_row -> lease_row) : option fleet :=
  if decide (rows_free w P) then Some (with_leases w seq (update_rows P f (fl_leases w))) else None.

Definition at_epoch (s : jsstr) (e : Z) (s' : jsstr) (r : lease_row) : bool := bool_decide (s' = s) && (lr_epoch r =? e).
Definition among (pairs : list (jsstr * Z)) (s : jsstr) (r : lease_row) : bool := bool_decide ((s, lr_epoch r) ∈ pairs).

(** Some row meets the condition: the subquery that draws from the sequence runs. *)
Definition any_row (P : jsstr -> lease_row -> bool) (ls : leases) : bool := existsb (fun sr => P sr.1 sr.2) (map_to_list ls).

(** * Statements and steps *)

Section fleet.
(** The shard list (a slot is a position), the lease TTL, the name under which a node connects. *)
Context (shards : list jsstr) (ttl : Z) (appName : jsstr -> option jsstr).

(** [tryAcquireShardLock]: the advisory lock of the shard's slot, which its own
    session may take again. *)
Definition try_lock (n s : jsstr) (w : fleet) : option fleet :=
  if negb (bool_decide (s ∈ shards)) then None
  else match fl_slots w !! s with
       | Some n' => if bool_decide (n' = n) then Some (with_node w n (with_wanting (node_of w n) (<[s := None]> (fn_wanting (node_of w n))))) else Some w
       | None => Some (with_node (with_slots w (<[s := n]> (fl_slots w))) n (with_wanting (node_of w n) (<[s := None]> (fn_wanting (node_of w n)))))
       end.

Definition acquire (n s : jsstr) (seedFrontierFromDocuments : bool) (w : fleet) : option fleet :=
  match fn_wanting (node_of w n) !! s, fl_rowlocks w !! s with
  | Some None, None =>
      let r := acquire_row n (appName n) (fl_now w + ttl) (frontierSeedExpr seedFrontierFromDocuments (fl_db w)) (fl_leases w !! s) in
      Some (with_node (with_leases w (fl_seq w) (<[s := r]> (fl_leases w))) n (with_wanting (node_of w n) (<[s := Some (lr_epoch r)]> (fn_wanting (node_of w n)))))
  | _, _ => None
  end.

(** The answer arrives: [lastEpochByShard.set]. *)
Definition granted (n s : jsstr) (w : fleet) : option fleet :=
  let nd := node_of w n in
  match fn_wanting nd !! s with
  | Some (Some e) => Some (with_node w n (with_wanting (with_epochs nd (<[s := e]> (fn_epochs nd))) (delete s (fn_wanting nd))))
  | _ => None
  end.

Definition heartbeatAll (n : jsstr) (w : fleet) : option fleet :=
  update_leases w (fl_seq w) (among (heldPairs (node_of w n)))
    (fun r => LeaseRow (lr_epoch r) (lr_writer r) (lr_app r) (fl_now w + ttl) (lr_frontier r) (lr_prev r)).

(** [relinquish], but for the unlock it fires: [forgetShard]. *)
Definition relinquish (n s : jsstr) (w : fleet) : fleet :=
  match currentEpoch w n s with
  | None => w
  | Some _ => with_node w n (with_epochs (node_of w n) (delete s (fn_epochs (node_of w n))))
  end.
(** [releaseShardLock]. Postgres counts how often a session took a lock; here one unlock
    frees it, so more nodes can take the slot, never fewer. *)
Definition releaseShardLock (n s : jsstr) (w : fleet) : fleet := if bool_decide (fl_slots w !! s = Some n) then with_slots w (delete s (fl_slots w)) else w.

(** [evictExpired]: the lock timeout of a locked row changes nothing. *)
Definition evictExpired (s : jsstr) (w : fleet) : option fleet :=
  if isExpired (fl_now w) (fl_leases w) s
  then match fl_rowlocks w !! s with
       | Some _ => Some w
       | None => Some (with_leases w (fl_seq w + 1) (update_rows (fun s' _ => bool_decide (s' = s)) (fence_row (fl_seq w + 1)) (fl_leases w)))
       end
  else Some w.

(** [tryRunExclusiveOnShard]: no commit of this node is on its way on the shard. *)
Definition shard_idle (w : fleet) (n s : jsstr) : bool := match fn_txns (node_of w n) !! s with None => true | Some _ => false end.

Definition selfFence (n s : jsstr) (w : fleet) : option fleet :=
  if negb (shard_idle w n s) then Some w
  else match currentEpoch w n s with
       | None => Some w
       | Some e =>
           let P := at_epoch s e in
           update_leases w (if any_row P (fl_leases w) then fl_seq w + 1 else fl_seq w) P (fence_row (fl_seq w + 1))
       end.

(** [seedFrontierAll(await pgStore.maxTimestamp())]. *)
Definition read_max (n : jsstr) (w : fleet) : fleet := with_node w n (with_max (node_of w n) (Some (max_document_ts (fl_db w)))).
Definition seedFrontierAll (n : jsstr) (w : fleet) : option fleet :=
  match fn_max (node_of w n) with
  | None => None
  | Some m => update_leases w (fl_seq w) (among (heldPairs (node_of w n))) (raise_frontier m)
  end.

(** A beat: the held pairs, the ceiling, each idle shard under its mutex, then the orphans. *)
Definition beat_start (n : jsstr) (w : fleet) : option fleet :=
  let nd := node_of w n in
  match fn_beat nd with Some _ => None | None => Some (with_node w n (with_beat nd (Some (Beat (heldPairs nd) None)))) end.
Definition beat_draw (n : jsstr) (w : fleet) : option fleet :=
  let nd := node_of w n in
  match fn_beat nd with
  | Some (Beat ps None) => Some (with_node (with_leases w (fl_seq w + 1) (fl_leases w)) n (with_beat nd (Some (Beat ps (Some (fl_seq w + 1))))))
  | _ => None
  end.
Definition closeIdleFrontiers (n : jsstr) (w : fleet) : option fleet :=
  let nd := node_of w n in
  match fn_beat nd with
  | Some (Beat ((s, e) :: ps) (Some c)) =>
      let next w := with_node w n (with_beat (node_of w n) (Some (Beat ps (Some c)))) in
      if shard_idle w n s
      then next <$> update_leases w (fl_seq w) (fun s' r => at_epoch s e s' r && (lr_frontier r <? c)) (raise_frontier c)
      else Some (next w)
  | _ => None
  end.
Definition orphan (c : Z) (s : jsstr) (r : lease_row) : bool := match lr_writer r with None => lr_frontier r <? c | Some _ => false end.
Definition bumpOrphanFrontiers (n : jsstr) (w : fleet) : option fleet :=
  let nd := node_of w n in
  match fn_beat nd with
  | Some (Beat [] (Some c)) => (fun w => with_node w n (with_beat (node_of w n) None)) <$> update_leases w (fl_seq w) (orphan c) (raise_frontier c)
  | _ => None
  end.

(** ** A commit *)

Definition put_txn (w : fleet) (n s : jsstr) (tx : commit_txn) : fleet := with_node w n (with_txns (node_of w n) (<[s := tx]> (fn_txns (node_of w n)))).
(** ROLLBACK, or the end of the session: the row locks go with the transaction. *)
Definition unlock_row (w : fleet) (n s : jsstr) : fleet := if bool_decide (fl_rowlocks w !! s = Some n) then with_rowlocks w (delete s (fl_rowlocks w)) else w.
Definition end_txn (w : fleet) (n s : jsstr) : fleet :=
  let w1 := unlock_row w n s in with_node w1 n (with_txns (node_of w1 n) (delete s (fn_txns (node_of w1 n)))).

Definition txn_begin (n s : jsstr) (units : list commit_unit) (w : fleet) : option fleet :=
  if shard_idle w n s then Some (put_txn w n s (CommitTxn units None [] [] [] [] false)) else None.

(** The transaction sees the committed rows and its own. *)
Definition txn_view (w : fleet) (tx : commit_txn) : sqlite_db := with_documents (fl_db w) (db_documents (fl_db w) ++ ct_docs tx).

Definition txn_draw (n s : jsstr) (w : fleet) : option fleet :=
  match fn_txns (node_of w n) !! s with
  | Some (CommitTxn (u :: us) None units docs ixs keys false as tx) =>
      let ts := draw_ts (fl_seq w) (txn_view w tx) in
      Some (put_txn (with_leases w (fl_seq w + 1) (fl_leases w)) n s (CommitTxn (u :: us) (Some ts) units docs ixs keys false))
  | _ => None
  end.

Definition txn_insert (n s : jsstr) (w : fleet) : option fleet :=
  match fn_txns (node_of w n) !! s with
  | Some (CommitTxn (u :: us) (Some ts) units docs ixs keys false as tx) =>
      match written_rows (stamp_doc ts <$> cu_documents u) (stamp_index ts <$> cu_indexUpdates u) s with
      | Throw _ => Some (end_txn w n s)
      | Ok (new, newIxs) =>
          match pg_insert_documents OnConflictError new (db_documents (txn_view w tx)) with
          | Throw _ => Some (end_txn w n s)
          | Ok _ => Some (put_txn w n s (CommitTxn us None (units ++ [GuardUnit ts (cu_meta u)]) (docs ++ new) (fold_left upsert_index newIxs ixs) keys false))
          end
      end
  | _ => None
  end.

(** [unit.meta?.idempotencyKey], when it is not empty. *)
Definition idempotencyKey (u : guard_unit) : option jsstr :=
  m ← gu_meta u; k ← jm_get m (js "idempotencyKey"); if bool_decide (k = []) then None else Some k.
Fixpoint keyed (units : list guard_unit) : list (jsstr * Z) :=
  match units with
  | [] => []
  | u :: units' => match idempotencyKey u with Some k => (k, gu_ts u) :: keyed units' | None => keyed units' end
  end.

(** The INSERTs of the guard: a key that is taken, or used twice in the batch, is a
    [CommitGuardRejection]. *)
Fixpoint claim_keys (taken : gset jsstr) (keys : list (jsstr * Z)) : bool :=
  match keys with
  | [] => true
  | (k, _) :: keys' => if bool_decide (k ∈ taken) then false else claim_keys ({[k]} ∪ taken) keys'
  end.

(** Keys that other transactions have inserted and not yet committed: an INSERT of one waits. *)
Definition pending_keys (w : fleet) (n s : jsstr) : list jsstr :=
  nd ← (map_to_list (fl_nodes w)); stx ← (map_to_list (fn_txns nd.2));
  if bool_decide ((nd.1, stx.1) = (n, s)) then [] else (ct_keys stx.2).*1.

(** [installCommitGuard]: the epoch is read live; the row is updated where it has that
    epoch, or the commit is fenced and the shard relinquished. *)
Definition txn_guard (n s : jsstr) (w : fleet) : option fleet :=
  match fn_txns (node_of w n) !! s with
  | Some (CommitTxn [] None (gu :: gus) docs ixs keys false) =>
      let fenced := relinquish n s (end_txn w n s) in
      match currentEpoch w n s with
      | None => Some fenced
      | Some e =>
          match fl_leases w !! s, fl_rowlocks w !! s with
          | Some r, Some _ => if lr_epoch r =? e then None else Some fenced
          | Some r, None =>
              if lr_epoch r =? e
              then
                let ks := keyed (gu :: gus) in
                if existsb (fun k => bool_decide (k ∈ pending_keys w n s)) ks.*1 then None
                else if claim_keys (dom (fl_idem w)) ks
                then Some (put_txn (with_rowlocks w (<[s := n]> (fl_rowlocks w))) n s (CommitTxn [] None (gu :: gus) docs ixs ks true))
                else Some (end_txn w n s)
              else Some fenced
          | None, _ => Some fenced
          end
      end
  | _ => None
  end.

(** COMMIT: the rows, the frontier and the keys become visible together. *)
Definition last_ts (units : list guard_unit) : Z := default 0 (gu_ts <$> last units).
Definition land_keys (now : Z) (ks : list (jsstr * Z)) (m : idempotency) : idempotency :=
  fold_left (fun m k => <[k.1 := IdempotencyRow k.2 None false now]> m) ks m.
Definition txn_commit (n s : jsstr) (w : fleet) : option fleet :=
  match fn_txns (node_of w n) !! s with
  | Some (CommitTxn [] None units docs ixs keys true) =>
      let db := with_indexes (with_documents (fl_db w) (db_documents (fl_db w) ++ docs)) (fold_left upsert_index ixs (db_indexes (fl_db w))) in
      let ls := update_rows (fun s' _ => bool_decide (s' = s)) (commit_row (last_ts units)) (fl_leases w) in
      Some (end_txn (Fleet (fl_now w) (fl_seq w) db ls (land_keys (fl_now w) keys (fl_idem w)) (fl_slots w) (fl_rowlocks w) (fl_nodes w)) n s)
  | Some (CommitTxn [] None [] docs ixs keys false) => Some (end_txn w n s)
  | _ => None
  end.

(** The commit connection of a shard dies, by itself or by [terminateBackend]. *)
Definition connection_lost (n s : jsstr) (w : fleet) : fleet := releaseShardLock n s (end_txn w n s).

(** The process dies with all its sessions. *)
Definition node_dies (n : jsstr) (w : fleet) : fleet :=
  Fleet (fl_now w) (fl_seq w) (fl_db w) (fl_leases w) (fl_idem w)
    (base.filter (fun kv => kv.2 <> n) (fl_slots w)) (base.filter (fun kv => kv.2 <> n) (fl_rowlocks w)) (delete n (fl_nodes w)).

(** ** Idempotency *)

Definition lookupIdempotency (k : jsstr) (w : fleet) : option idempotency_row := fl_idem w !! k.
Definition with_idem (w : fleet) (m : idempotency) : fleet := Fleet (fl_now w) (fl_seq w) (fl_db w) (fl_leases w) m (fl_slots w) (fl_rowlocks w) (fl_nodes w).
Definition IDEMPOTENCY_VALUE_CAP_BYTES : Z := 64 * 1024.
Definition recordIdempotencyValue (k : jsstr) (v : json) (byteLength : Z) (w : fleet) : fleet :=
  match fl_idem w !! k with
  | None => w
  | Some r => with_idem w (<[k := if IDEMPOTENCY_VALUE_CAP_BYTES <? byteLength then IdempotencyRow (id_commit_ts r) None true (id_created r)
                                  else IdempotencyRow (id_commit_ts r) (Some v) false (id_created r)]> (fl_idem w))
  end.
(** Rows of the last hour stay. *)
Definition sweepIdempotency (w : fleet) : fleet := with_idem w (base.filter (fun kr => fl_now w - 3600000 <= id_created kr.2) (fl_idem w)).

Inductive flabel :=
  | LSetup (documentsExist : bool)
  | LPass (d : nat)
  | LTryLock (n s : jsstr)
  | LAcquire (n s : jsstr) (seed : bool)
  | LGranted (n s : jsstr)
  | LHeartbeat (n : jsstr)
  | LRelinquish (n s : jsstr)
  | LUnlock (n s : jsstr)
  | LEvict (s : jsstr)
  | LSelfFence (n s : jsstr)
  | LReadMax (n : jsstr)
  | LSeedAll (n : jsstr)
  | LBeat (n : jsstr)
  | LBeatDraw (n : jsstr)
  | LCloseIdle (n : jsstr)
  | LBumpOrphans (n : jsstr)
  | LBegin (n s : jsstr) (units : list commit_unit)
  | LDraw (n s : jsstr)
  | LInsert (n s : jsstr)
  | LGuard (n s : jsstr)
  | LCommit (n s : jsstr)
  | LAbort (n s : jsstr)
  | LConnectionLost (n s : jsstr)
  | LDie (n : jsstr)
  | LRecordValue (k : jsstr) (v : json) (byteLength : Z)
  | LSweep.

(** [None]: the statement waits, or the node has nothing of the kind to do. *)
Definition fstep (w : fleet) (l : flabel) : option fleet :=
  match l with
  | LSetup documentsExist => Some (with_leases w (fl_seq w) (setup shards documentsExist (fl_now w) (fl_db w) (fl_leases w)))
  | LPass d => Some (Fleet (fl_now w + Z.of_nat d) (fl_seq w) (fl_db w) (fl_leases w) (fl_idem w) (fl_slots w) (fl_rowlocks w) (fl_nodes w))
  | LTryLock n s => try_lock n s w
  | LAcquire n s seed => acquire n s seed w
  | LGranted n s => granted n s w
  | LHeartbeat n => heartbeatAll n w
  | LRelinquish n s => Some (relinquish n s w)
  | LUnlock n s => Some (releaseShardLock n s w)
  | LEvict s => evictExpired s w
  | LSelfFence n s => selfFence n s w
  | LReadMax n => Some (read_max n w)
  | LSeedAll n => seedFrontierAll n w
  | LBeat n => beat_start n w
  | LBeatDraw n => beat_draw n w
  | LCloseIdle n => closeIdleFrontiers n w
  | LBumpOrphans n => bumpOrphanFrontiers n w
  | LBegin n s units => txn_begin n s units w
  | LDraw n s => txn_draw n s w
  | LInsert n s => txn_insert n s w
  | LGuard n s => txn_guard n s w
  | LCommit n s => txn_commit n s w
  | LAbort n s => Some (end_txn w n s)
  | LConnectionLost n s => Some (connection_lost n s w)
  | LDie n => Some (node_dies n w)
  | LRecordValue k v b => Some (recordIdempotencyValue k v b w)
  | LSweep => Some (sweepIdempotency w)
  end.

Fixpoint frun (w : fleet) (ls : list flabel) : option fleet :=
  match ls with [] => Some w | l :: ls => w' ← fstep w l; frun w' ls end.

(** A shard is taken, and its frontier seeded, while this node has no commit on its way there. *)
Definition calm (w : fleet) (l : flabel) : Prop :=
  match l with
  | LGranted n s => fn_txns (node_of w n) !! s = None
  | LSeedAll n => fn_txns (node_of w n) = ∅
  | _ => True
  end.
Fixpoint calm_run (w : fleet) (ls : list flabel) : Prop :=
  match ls with [] => True | l :: ls => calm w l /\ match fstep w l with Some w' => calm_run w' ls | None => True end end.
End fleet.
