(* ===== verification/FleetFrontier.v ===== *)
(** The stable prefix of a fleet: the invariant of its leases, transactions and
    beats, that every statement keeps it, and what it gives: the fleet-wide frontier never moves
    back, and no commit lands at or below a frontier that could have been read. *)
From Stdlib Require Import ZArith Lia Sorted.
From stdpp Require Import base list gmap sets strings.
From S2P Require Import Prelude JsBase JsText Values ValuesJson IdCodec Sharding DocStore SqliteDocStore PostgresStore FleetLease.

Section frontier.
Context (shards : list jsstr) (ttl : Z) (appName : jsstr -> option jsstr).
Notation fstep := (fstep shards ttl appName).
Notation frun := (frun shards ttl appName).
Notation calm_run := (calm_run shards ttl appName).

(** * The invariant *)

(** An epoch that node [n] was given on [s]: while it is the row's, the row is [n]'s. *)
Definition held (ls : leases) (n s : jsstr) (e : Z) : Prop :=
  exists r, ls !! s = Some r /\ e <= lr_epoch r /\ (e = lr_epoch r -> lr_writer r = Some n).

Definition drawn (tx : commit_txn) : list Z := (gu_ts <$> ct_units tx) ++ option_list (ct_ts tx).

(** Timestamps that may still land are above the shard's frontier: those of a
    transaction that passed its guard, or that would pass it. *)
Definition above (ls : leases) (epoch : option Z) (s : jsstr) (tx : commit_txn) : Prop :=
  forall r, ls !! s = Some r -> ct_guarded tx = true \/ epoch = Some (lr_epoch r) -> forall t, t ∈ drawn tx -> lr_frontier r < t.

Record txn_ok (seq : Z) (ls : leases) (locks : gmap jsstr jsstr) (n s : jsstr) (epoch : option Z) (tx : commit_txn) : Prop := {
  to_drawn t : t ∈ drawn tx -> 0 < t <= seq;
  to_docs r : r ∈ ct_docs tx -> dr_ts r ∈ drawn tx;
  to_ixs r : r ∈ ct_ixs tx -> ir_ts r ∈ drawn tx;
  to_guarded : ct_guarded tx = true -> locks !! s = Some n /\ exists r, ls !! s = Some r /\ lr_writer r = Some n;
  to_above : above ls epoch s tx
}.

Record node_ok (seq : Z) (ls : leases) (locks : gmap jsstr jsstr) (n : jsstr) (nd : fleet_node) : Prop := {
  no_epochs s e : fn_epochs nd !! s = Some e -> held ls n s e;
  no_wanting s x : fn_wanting nd !! s = Some x -> s ∈ shards /\ forall e, x = Some e -> held ls n s e;
  no_pairs b s e : fn_beat nd = Some b -> (s, e) ∈ bt_pairs b -> held ls n s e;
  no_ceiling b c : fn_beat nd = Some b -> bt_ceiling b = Some c -> c <= seq;
  no_max m : fn_max nd = Some m -> m <= seq;
  no_txns s tx : fn_txns nd !! s = Some tx -> txn_ok seq ls locks n s (fn_epochs nd !! s) tx
}.

Record fleet_inv (w : fleet) : Prop := {
  fi_docs r : r ∈ db_documents (fl_db w) -> 0 < dr_ts r <= fl_seq w;
  fi_seq : 0 <= fl_seq w;
  fi_rows s r : fl_leases w !! s = Some r -> s ∈ shards /\ 0 <= lr_frontier r <= fl_seq w;
  fi_nodes n : node_ok (fl_seq w) (fl_leases w) (fl_rowlocks w) n (node_of w n)
}.

(** The rows of a statement's effect: epochs and frontiers do not go back, and a
    shard changes hands with its epoch. *)
Definition rows_le (ls ls' : leases) : Prop :=
  forall s r, ls !! s = Some r -> exists r', ls' !! s = Some r' /\ lr_epoch r <= lr_epoch r' /\
    (lr_epoch r' = lr_epoch r -> lr_writer r' = lr_writer r) /\ lr_frontier r <= lr_frontier r'.

#[local] Instance rows_le_refl : Reflexive rows_le.
Proof. intros ls s r H. exists r. split_and!; [done|lia|done|lia]. Qed.

Lemma held_le ls ls' n s e : rows_le ls ls' -> held ls n s e -> held ls' n s e.
Proof.
  intros Hle (r & Hr & He & Hw). destruct (Hle s r Hr) as (r' & Hr' & He' & Hw' & _). exists r'. split_and!; [done|lia|].
  intros Heq. assert (lr_epoch r' = lr_epoch r) as Hs by lia. rewrite Hw' by done. apply Hw. lia.
Qed.

Lemma idle_node_ok seq ls locks n : node_ok seq ls locks n idle_node.
Proof. split; cbn; intros *; rewrite ?lookup_empty; done. Qed.

Lemma node_of_with w n nd n' : node_of (with_node w n nd) n' = if decide (n' = n) then nd else node_of w n'.
Proof. unfold node_of. cbn. destruct (decide (n' = n)) as [->|Hn]; [by rewrite lookup_insert_eq|by rewrite lookup_insert_ne]. Qed.

Lemma with_node_inv w n nd : fleet_inv w -> node_ok (fl_seq w) (fl_leases w) (fl_rowlocks w) n nd -> fleet_inv (with_node w n nd).
Proof.
  intros [H0 H1 H2 H3] Hn. split; [done..|]. intros n'. rewrite node_of_with. destruct (decide (n' = n)) as [->|]; [done|]. apply H3.
Qed.

(** Rows move on under a node: its transactions are still above the frontier. *)
Lemma node_ok_rows seq seq' ls ls' locks n nd :
  node_ok seq ls locks n nd -> seq <= seq' -> rows_le ls ls' ->
  (forall s tx, fn_txns nd !! s = Some tx -> above ls' (fn_epochs nd !! s) s tx /\ (ct_guarded tx = true -> ls' !! s = ls !! s)) ->
  node_ok seq' ls' locks n nd.
Proof.
  intros [H1 H2 H3 H4 H5 H6] Hs Hle Ht. split.
  - intros s e H. by eapply held_le, H1.
  - intros s x H. destruct (H2 s x H) as [? Hh]. split; [done|]. intros e He. by eapply held_le, Hh.
  - intros b s e Hb Hin. by eapply held_le, (H3 b).
  - intros b c Hb Hc. specialize (H4 b c Hb Hc). lia.
  - intros m Hm. specialize (H5 m Hm). lia.
  - intros s tx Htx. destruct (Ht s tx Htx) as [Ha Hg]. destruct (H6 s tx Htx) as [T1 T2 T3 T4 _]. split; [|done|done| |done].
    + intros t Hin. specialize (T1 t Hin). lia.
    + intros G. rewrite (Hg G). by apply T4.
Qed.

Lemma update_rows_lookup (P : jsstr -> lease_row -> bool) (f : lease_row -> lease_row) (ls : leases) s : update_rows P f ls !! s = (fun r => if P s r then f r else r) <$> ls !! s.
Proof. unfold update_rows. rewrite map_lookup_imap. by destruct (ls !! s). Qed.

(** Nobody can land a commit on the shard under the row's epoch. *)
Definition quiet (w : fleet) (s : jsstr) (r : lease_row) : Prop :=
  forall n tx, fn_txns (node_of w n) !! s = Some tx -> fn_epochs (node_of w n) !! s <> Some (lr_epoch r).

(** What an UPDATE of the lease rows does to a row. *)
Definition row_update (w : fleet) (seq' : Z) (s : jsstr) (r r' : lease_row) : Prop :=
  lr_frontier r <= lr_frontier r' <= seq' /\
  (lr_epoch r' = lr_epoch r + 1 \/
   lr_epoch r' = lr_epoch r /\ lr_writer r' = lr_writer r /\ (lr_frontier r' = lr_frontier r \/ quiet w s r)).

(** Statements that change the lease rows: an unlocked row may change, and rows may appear. *)
Definition rows_change (w : fleet) (seq' : Z) (ls' : leases) : Prop :=
  (forall s r, fl_leases w !! s = Some r -> exists r', ls' !! s = Some r' /\ (r' = r \/ fl_rowlocks w !! s = None /\ row_update w seq' s r r')) /\
  (forall s r', fl_leases w !! s = None -> ls' !! s = Some r' -> s ∈ shards /\ 0 <= lr_frontier r' <= seq').

Lemma rows_change_le w seq' ls' : rows_change w seq' ls' -> rows_le (fl_leases w) ls'.
Proof.
  intros [Hc _] s r Hr. destruct (Hc s r Hr) as (r' & Hr' & [->|[_ [Hf [He|(He & Hw & _)]]]]); (eexists; split; [exact Hr'|]).
  - split_and!; lia || done.
  - split_and!; [lia|intros; lia|lia].
  - split_and!; [lia|done|lia].
Qed.

Lemma rows_change_inv w seq' ls' :
  fleet_inv w -> fl_seq w <= seq' -> rows_change w seq' ls' -> fleet_inv (with_leases w seq' ls').
Proof.
  intros [H0 H1 H2 H3] Hs Hc. pose proof (rows_change_le w seq' ls' Hc) as Hle. destruct Hc as [Hc Hnew]. split.
  - intros r Hr. specialize (H0 r Hr). cbn. lia.
  - cbn. lia.
  - cbn. intros s r' Hr'. destruct (fl_leases w !! s) as [r|] eqn:Er; [|by apply Hnew]. destruct (H2 s r Er) as [Hin Hf]. split; [done|].
    destruct (Hc s r Er) as (r2 & Hr2 & Hu). rewrite Hr' in Hr2. injection Hr2 as <-. destruct Hu as [->|[_ [Hfr _]]]; lia.
  - intros n. apply (node_ok_rows (fl_seq w) seq' (fl_leases w)); [apply H3|done|done|]. intros s tx Htx.
    pose proof (no_txns _ _ _ _ _ (H3 n) s tx Htx) as [_ _ _ Hg Ha]. cbn. split.
    + intros r' Hr' Hpre. destruct (fl_leases w !! s) as [r|] eqn:Er.
      * destruct (Hc s r Er) as (r2 & Hr2 & Hu). rewrite Hr' in Hr2. injection Hr2 as <-. destruct Hu as [->|[Hfree [_ Hu]]]; [by apply Ha|].
        destruct Hpre as [G|He]; [destruct (Hg G) as [Hl _]; by rewrite Hfree in Hl|].
        destruct (no_epochs _ _ _ _ _ (H3 n) s _ He) as (r0 & Hr0 & Hle0 & _). rewrite Er in Hr0. injection Hr0 as <-.
        destruct Hu as [Hb|(Hb & _ & [Hf|Hq])]; [lia| |].
        -- intros t Ht. rewrite Hf. apply (Ha r Er); [right; by rewrite <- Hb|done].
        -- exfalso. apply (Hq n tx Htx). by rewrite <- Hb.
      * exfalso. destruct Hpre as [G|He]; [destruct (Hg G) as (_ & r0 & Hr0 & _); congruence|].
        destruct (no_epochs _ _ _ _ _ (H3 n) s _ He) as (r0 & Hr0 & _). congruence.
    + intros G. destruct (Hg G) as (Hl & r & Hr & _). destruct (Hc s r Hr) as (r' & Hr' & [->|[Hfree _]]); [congruence|congruence].
Qed.

Lemma update_change w seq' (P : jsstr -> lease_row -> bool) (f : lease_row -> lease_row) :
  rows_free w P -> (forall s r, fl_leases w !! s = Some r -> P s r = true -> row_update w seq' s r (f r)) ->
  rows_change w seq' (update_rows P f (fl_leases w)).
Proof.
  intros Hfree Hu. split.
  - intros s r Hr. rewrite update_rows_lookup, Hr. cbn. eexists. split; [done|]. destruct (P s r) eqn:EP; [right|by left].
    split; [by apply (Hfree s r Hr)|by apply Hu].
  - intros s r' Hn. by rewrite update_rows_lookup, Hn.
Qed.

(** * Steps *)

(** Rows that land are above the frontier of their shard. *)
Definition landed (w w' : fleet) : Prop :=
  fl_db w' = fl_db w \/
  exists s r docs ixs, fl_leases w !! s = Some r /\
    db_documents (fl_db w') = db_documents (fl_db w) ++ docs /\ db_indexes (fl_db w') = fold_left upsert_index ixs (db_indexes (fl_db w)) /\
    Forall (fun d => 0 < dr_ts d /\ lr_frontier r < dr_ts d) docs /\ Forall (fun x => 0 < ir_ts x /\ lr_frontier r < ir_ts x) ixs.

Definition step_ok (w w' : fleet) : Prop := fleet_inv w' /\ rows_le (fl_leases w) (fl_leases w') /\ landed w w'.

Lemma node_step w n nd : fleet_inv w -> node_ok (fl_seq w) (fl_leases w) (fl_rowlocks w) n nd -> step_ok w (with_node w n nd).
Proof. intros Hi Hn. split; [by apply with_node_inv|]. split; [cbn; reflexivity|by left]. Qed.

Lemma rows_step w seq' ls' : fleet_inv w -> fl_seq w <= seq' -> rows_change w seq' ls' -> step_ok w (with_leases w seq' ls').
Proof. intros Hi Hs Hc. split; [by apply rows_change_inv|]. split; [by eapply rows_change_le|by left]. Qed.

(** Fields the invariant does not look at. *)
Lemma same_step w w' :
  fleet_inv w -> fl_seq w' = fl_seq w -> fl_db w' = fl_db w -> fl_leases w' = fl_leases w -> fl_rowlocks w' = fl_rowlocks w -> fl_nodes w' = fl_nodes w -> step_ok w w'.
Proof.
  intros [H0 H1 H2 H3] E1 E2 E3 E4 E5. split; [|split; [rewrite E3; reflexivity|by left]].
  split; rewrite ?E1, ?E2, ?E3, ?E4; [done..|]. intros n. unfold node_of. rewrite E5. apply H3.
Qed.

Lemma then_step w w1 w2 : step_ok w w1 -> fl_db w1 = fl_db w -> (fleet_inv w1 -> step_ok w1 w2) -> fl_db w2 = fl_db w1 -> step_ok w w2.
Proof.
  intros (Hi1 & Hr1 & _) Hdb H Hdb2. destruct (H Hi1) as (Hi2 & Hr2 & _). split; [done|]. split; [|left; congruence].
  intros s r Hr. destruct (Hr1 s r Hr) as (r1 & Hr1' & He1 & Hw1 & Hf1). destruct (Hr2 s r1 Hr1') as (r2 & Hr2' & He2 & Hw2 & Hf2).
  exists r2. split_and!; [done|lia| |lia]. intros He. rewrite Hw2 by lia. apply Hw1. lia.
Qed.

Lemma max_document_bounds w : fleet_inv w -> 0 <= max_document_ts (fl_db w) <= fl_seq w.
Proof.
  intros [H0 H1 _ _]. unfold max_document_ts. destruct (db_documents (fl_db w)) as [|x rows]; cbn; [lia|].
  destruct (max_ts_fold_eq rows (dr_ts x)) as [->|(r & Hr & ->)]; [specialize (H0 x ltac:(left))|specialize (H0 r ltac:(by right))]; lia.
Qed.

Lemma setup_lookup ids ex now db ls s :
  setup ids ex now db ls !! s = match ls !! s with Some r => Some r | None => if decide (s ∈ ids) then Some (LeaseRow 0 None None now (frontierSeedExpr ex db) 0) else None end.
Proof.
  unfold setup. revert ls. induction ids as [|i ids IH]; intros ls; cbn [fold_left].
  - destruct (ls !! s); [done|]. by rewrite decide_False by (by intros ?%not_elem_of_nil).
  - rewrite IH. destruct (ls !! i) as [ri|] eqn:Ei.
    + destruct (ls !! s) eqn:Es; [done|]. assert (s <> i) by congruence. destruct (decide (s ∈ ids)).
      * by rewrite decide_True by by right.
      * by rewrite decide_False by set_solver.
    + destruct (decide (s = i)) as [->|Hne].
      * rewrite lookup_insert_eq, Ei. by rewrite decide_True by left.
      * rewrite lookup_insert_ne by done. destruct (ls !! s); [done|]. destruct (decide (s ∈ ids)).
        -- by rewrite decide_True by by right.
        -- by rewrite decide_False by set_solver.
Qed.

Lemma setup_ok w ex : fleet_inv w -> step_ok w (with_leases w (fl_seq w) (setup shards ex (fl_now w) (fl_db w) (fl_leases w))).
Proof.
  intros Hi. pose proof (max_document_bounds w Hi) as Hm. apply rows_step; [done|lia|]. split.
  - intros s r Hr. rewrite setup_lookup, Hr. eauto.
  - intros s r' Hn. rewrite setup_lookup, Hn. destruct (decide (s ∈ shards)); [|done]. intros [= <-]. cbn. split; [done|].
    pose proof (fi_seq w Hi). unfold frontierSeedExpr. destruct ex; lia.
Qed.

Lemma wanting_ok seq ls locks n nd s x :
  node_ok seq ls locks n nd -> s ∈ shards -> (forall e, x = Some e -> held ls n s e) -> node_ok seq ls locks n (with_wanting nd (<[s := x]> (fn_wanting nd))).
Proof.
  intros [H1 H2 H3 H4 H5 H6] Hin Hx. split; cbn; [done| |done..]. intros s' x'. destruct (decide (s' = s)) as [->|Hn].
  - rewrite lookup_insert_eq. by intros [= <-].
  - rewrite lookup_insert_ne by done. apply H2.
Qed.

Lemma try_lock_ok n s w w' : fleet_inv w -> try_lock shards n s w = Some w' -> step_ok w w'.
Proof.
  intros Hi. unfold try_lock. case_bool_decide as Hin; cbn; [|done].
  assert (Hnd : forall w, fleet_inv w -> step_ok w (with_node w n (with_wanting (node_of w n) (<[s:=None]> (fn_wanting (node_of w n)))))).
  { intros w0 Hi0. apply node_step; [done|]. apply wanting_ok; [apply (fi_nodes w0 Hi0)|done|done]. }
  destruct (fl_slots w !! s) as [n'|].
  - case_bool_decide; intros [= <-]; [by apply Hnd|by apply same_step].
  - intros [= <-]. apply (then_step w (with_slots w (<[s := n]> (fl_slots w)))); [by apply same_step|done|apply Hnd|done].
Qed.

Lemma acquire_ok n s seed w w' : fleet_inv w -> acquire ttl appName n s seed w = Some w' -> step_ok w w'.
Proof.
  intros Hi. unfold acquire. destruct (fn_wanting (node_of w n) !! s) as [[e|]|] eqn:Ew; [done| |done].
  destruct (fl_rowlocks w !! s) eqn:El; [done|]. set (r := acquire_row _ _ _ _ _). intros [= <-].
  destruct (no_wanting _ _ _ _ _ (fi_nodes w Hi n) s _ Ew) as [Hin _]. pose proof (max_document_bounds w Hi) as Hm. pose proof (fi_seq w Hi) as Hs.
  set (w1 := with_leases w (fl_seq w) (<[s := r]> (fl_leases w))). assert (H1 : step_ok w w1).
  { apply rows_step; [done|lia|]. split.
    - intros s' r0 Hr0. destruct (decide (s' = s)) as [->|Hn]; [|rewrite lookup_insert_ne by done; eauto].
      rewrite lookup_insert_eq. eexists. split; [done|]. right. split; [done|]. subst r. rewrite Hr0. destruct (fi_rows w Hi s r0 Hr0) as [_ Hf].
      split; cbn; [lia|by left].
    - intros s' r'. destruct (decide (s' = s)) as [->|Hn]; [|rewrite lookup_insert_ne by done; congruence].
      intros Hnone. rewrite lookup_insert_eq. intros [= <-]. split; [done|]. subst r. rewrite Hnone. cbn. unfold frontierSeedExpr. destruct seed; lia. }
  apply (then_step w w1); [done|done| |done]. intros Hi1.
  change (node_of w n) with (node_of w1 n). apply node_step; [done|]. apply wanting_ok; [apply (fi_nodes w1 Hi1)|done|].
  intros e [= <-]. exists r. split_and!; [cbn; by rewrite lookup_insert_eq|lia|]. intros _. subst r. by destruct (fl_leases w !! s).
Qed.

Lemma granted_ok n s w w' : fleet_inv w -> fn_txns (node_of w n) !! s = None -> granted n s w = Some w' -> step_ok w w'.
Proof.
  intros Hi Hcalm. unfold granted. destruct (fn_wanting (node_of w n) !! s) as [[e|]|] eqn:Ew; [|done..]. intros [= <-].
  apply node_step; [done|]. pose proof (fi_nodes w Hi n) as [H1 H2 H3 H4 H5 H6]. split; cbn; [| |done..|].
  - intros s' e'. destruct (decide (s' = s)) as [->|Hn]; [rewrite lookup_insert_eq; intros [= <-]; by apply (H2 s _ Ew)|rewrite lookup_insert_ne by done; apply H1].
  - intros s' x. rewrite lookup_delete_Some. intros [_ Hx]. by apply H2.
  - intros s' tx Htx. assert (s' <> s) by congruence. rewrite lookup_insert_ne by done. by apply H6.
Qed.

Lemma relinquish_ok n s w : fleet_inv w -> step_ok w (relinquish n s w).
Proof.
  intros Hi. unfold relinquish. destruct (currentEpoch w n s); [|by apply same_step].
  apply node_step; [done|]. pose proof (fi_nodes w Hi n) as [H1 H2 H3 H4 H5 H6]. split; cbn; [|done..|].
  - intros s' e'. rewrite lookup_delete_Some. intros [_ He]. by apply H1.
  - intros s' tx Htx. destruct (H6 s' tx Htx) as [T1 T2 T3 T4 T5]. split; [done..|]. intros r Hr Hpre. apply T5; [done|].
    destruct Hpre as [G|He]; [by left|right]. apply lookup_delete_Some in He. by destruct He.
Qed.

Lemma update_step w seq' (P : jsstr -> lease_row -> bool) (f : lease_row -> lease_row) w' :
  fleet_inv w -> fl_seq w <= seq' -> (forall s r, fl_leases w !! s = Some r -> P s r = true -> row_update w seq' s r (f r)) ->
  update_leases w seq' P f = Some w' -> step_ok w w' /\ fl_db w' = fl_db w.
Proof.
  intros Hi Hs Hu. unfold update_leases. destruct (decide (rows_free w P)); [|done]. intros [= <-]. split; [|done].
  apply rows_step; [done|done|]. by apply update_change.
Qed.

Lemma row_same w s r r' seq' : fleet_inv w -> fl_seq w <= seq' -> fl_leases w !! s = Some r ->
  lr_epoch r' = lr_epoch r -> lr_writer r' = lr_writer r -> lr_frontier r' = lr_frontier r -> row_update w seq' s r r'.
Proof. intros Hi Hs Hr He Hw Hf. destruct (fi_rows w Hi s r Hr) as [_ Hb]. split; [lia|]. right. split_and!; [done|done|by left]. Qed.

Lemma row_raised w s r m : fleet_inv w -> m <= fl_seq w -> fl_leases w !! s = Some r -> quiet w s r -> row_update w (fl_seq w) s r (raise_frontier m r).
Proof. intros Hi Hm Hr Hq. destruct (fi_rows w Hi s r Hr) as [_ Hb]. split; [cbn; lia|]. right. split_and!; [done|done|by right]. Qed.

Lemma row_fenced w s r : fleet_inv w -> fl_leases w !! s = Some r -> row_update w (fl_seq w + 1) s r (fence_row (fl_seq w + 1) r).
Proof. intros Hi Hr. destruct (fi_rows w Hi s r Hr) as [_ Hb]. split; [cbn; lia|by left]. Qed.

Lemma evictExpired_ok s w w' : fleet_inv w -> evictExpired s w = Some w' -> step_ok w w'.
Proof.
  intros Hi. unfold evictExpired. destruct (isExpired _ _ s); [|intros [= <-]; by apply same_step].
  destruct (fl_rowlocks w !! s) eqn:El; intros [= <-]; [by apply same_step|]. apply rows_step; [done|lia|]. apply update_change.
  - intros s' r Hr Hb. apply bool_decide_eq_true in Hb as ->. done.
  - intros s' r Hr _. by apply row_fenced.
Qed.

Lemma selfFence_ok n s w w' : fleet_inv w -> selfFence n s w = Some w' -> step_ok w w'.
Proof.
  intros Hi. unfold selfFence. destruct (negb _); [intros [= <-]; by apply same_step|].
  destruct (currentEpoch w n s) as [e|]; [|intros [= <-]; by apply same_step]. intros H. destruct (any_row (at_epoch s e) (fl_leases w)) eqn:Ea.
  - apply update_step in H; [apply H|done|lia|]. intros s' r Hr _. by apply row_fenced.
  - apply update_step in H; [apply H|done|lia|]. intros s' r Hr HP. exfalso. apply not_true_iff_false in Ea. apply Ea.
    apply existsb_exists. exists (s', r). split; [|done]. by apply list_elem_of_In, elem_of_map_to_list.
Qed.

(** A shard that an epoch was given on, while it is the row's, is nobody else's. *)
Lemma current_holder w n s e r n' : fleet_inv w -> held (fl_leases w) n s e -> fl_leases w !! s = Some r -> lr_epoch r = e ->
  fn_epochs (node_of w n') !! s = Some (lr_epoch r) -> n' = n.
Proof.
  intros Hi (r0 & Hr0 & _ & Hw) Hr He He'. rewrite Hr in Hr0. injection Hr0 as <-.
  destruct (no_epochs _ _ _ _ _ (fi_nodes w Hi n') s _ He') as (r1 & Hr1 & _ & Hw'). rewrite Hr in Hr1. injection Hr1 as <-.
  specialize (Hw (eq_sym He)). specialize (Hw' eq_refl). congruence.
Qed.

Lemma seedFrontierAll_ok n w w' : fleet_inv w -> fn_txns (node_of w n) = ∅ -> seedFrontierAll n w = Some w' -> step_ok w w'.
Proof.
  intros Hi Hcalm. unfold seedFrontierAll. destruct (fn_max (node_of w n)) as [m|] eqn:Em; [|done]. intros H.
  pose proof (no_max _ _ _ _ _ (fi_nodes w Hi n) m Em) as Hm. apply update_step in H; [apply H|done|lia|]. intros s r Hr HP.
  apply bool_decide_eq_true, elem_of_map_to_list in HP. apply row_raised; [done|done|done|]. intros n' tx Htx He.
  assert (n' = n) as ->. { by apply (current_holder w n s (lr_epoch r) r); [|apply (no_epochs _ _ _ _ _ (fi_nodes w Hi n))|..]. }
  by rewrite Hcalm, lookup_empty in Htx.
Qed.

Lemma fleet_beat_ok seq ls locks n nd b :
  node_ok seq ls locks n nd -> (forall b', b = Some b' -> (forall s e, (s, e) ∈ bt_pairs b' -> held ls n s e) /\ (forall c, bt_ceiling b' = Some c -> c <= seq)) ->
  node_ok seq ls locks n (with_beat nd b).
Proof.
  intros [H1 H2 H3 H4 H5 H6] Hb. split; cbn; [done|done| | |done|done].
  - intros b' s e Hb'. by apply (Hb b').
  - intros b' c Hb'. by apply (Hb b').
Qed.

Lemma beat_start_ok n w w' : fleet_inv w -> beat_start n w = Some w' -> step_ok w w'.
Proof.
  intros Hi. unfold beat_start. destruct (fn_beat _); [done|]. intros [= <-]. pose proof (fi_nodes w Hi n) as Hn. apply node_step; [done|]. apply fleet_beat_ok; [done|].
  intros b' [= <-]. cbn. split; [|done]. intros s e He%elem_of_map_to_list. by apply Hn.
Qed.

Lemma draw_seq_ok w : fleet_inv w -> step_ok w (with_leases w (fl_seq w + 1) (fl_leases w)).
Proof.
  intros Hi. apply rows_step; [done|lia|]. split; [intros s r Hr; eauto|congruence].
Qed.

Lemma beat_draw_ok n w w' : fleet_inv w -> beat_draw n w = Some w' -> step_ok w w'.
Proof.
  intros Hi. unfold beat_draw. destruct (fn_beat (node_of w n)) as [[ps [c|]]|] eqn:Eb; try done. intros [= <-].
  set (w1 := with_leases w (fl_seq w + 1) (fl_leases w)). apply (then_step w w1); [by apply draw_seq_ok|done| |done]. intros Hi1.
  change (node_of w n) with (node_of w1 n). apply node_step; [done|]. apply fleet_beat_ok; [apply (fi_nodes w1 Hi1)|]. intros b' [= <-]. cbn. split; [|by intros c [= <-]].
  intros s e He. by apply (no_pairs _ _ _ _ _ (fi_nodes w Hi n) _ s e Eb).
Qed.

Lemma with_beat_step w n b :
  fleet_inv w -> (forall b', b = Some b' -> exists b0, fn_beat (node_of w n) = Some b0 /\ (forall x, x ∈ bt_pairs b' -> x ∈ bt_pairs b0) /\ bt_ceiling b' = bt_ceiling b0) ->
  step_ok w (with_node w n (with_beat (node_of w n) b)).
Proof.
  intros Hi Hb. apply node_step; [done|]. pose proof (fi_nodes w Hi n) as Hn. apply fleet_beat_ok; [done|]. intros b' Hb'. destruct (Hb b' Hb') as (b0 & Hb0 & Hp & Hc). split.
  - intros s e Hin. apply (no_pairs _ _ _ _ _ Hn b0); [done|by apply Hp].
  - intros c Hc'. apply (no_ceiling _ _ _ _ _ Hn b0); [done|congruence].
Qed.

Lemma closeIdle_ok n w w' : fleet_inv w -> closeIdleFrontiers n w = Some w' -> step_ok w w'.
Proof.
  intros Hi. unfold closeIdleFrontiers. destruct (fn_beat (node_of w n)) as [[[|[s e] ps] [c|]]|] eqn:Eb; try done.
  assert (Hnext : forall w1, fleet_inv w1 -> fn_beat (node_of w1 n) = Some (Beat ((s, e) :: ps) (Some c)) -> step_ok w1 (with_node w1 n (with_beat (node_of w1 n) (Some (Beat ps (Some c)))))).
  { intros w1 Hi1 Hb1. apply with_beat_step; [done|]. intros b' [= <-]. eexists. split; [done|]. cbn. split; [|done]. intros x Hx. by right. }
  destruct (shard_idle w n s) eqn:Eidle; [|intros [= <-]; by apply Hnext].
  destruct (update_leases _ _ _ _) as [w1|] eqn:Eu; [|done]. intros [= <-].
  assert (Hn1 : node_of w1 n = node_of w n) by (unfold update_leases in Eu; destruct (decide _); [|done]; by injection Eu as <-).
  apply update_step in Eu as [Hs1 Hdb]; [|done|lia|].
  - apply (then_step w w1); [done|done| |done]. intros Hi1. apply Hnext; [done|]. by rewrite Hn1.
  - intros s' r Hr HP. apply andb_true_iff in HP as [HP _]. unfold at_epoch in HP. apply andb_true_iff in HP as [HP1 HP2].
    apply bool_decide_eq_true in HP1 as ->. apply Z.eqb_eq in HP2.
    apply row_raised; [done|by apply (no_ceiling _ _ _ _ _ (fi_nodes w Hi n) _ c Eb)|done|]. intros n' tx Htx He.
    assert (n' = n) as ->. { apply (current_holder w n s e r); [done|apply (no_pairs _ _ _ _ _ (fi_nodes w Hi n) _ s e Eb); left|done..]. }
    unfold shard_idle in Eidle. by rewrite Htx in Eidle.
Qed.

Lemma bumpOrphans_ok n w w' : fleet_inv w -> bumpOrphanFrontiers n w = Some w' -> step_ok w w'.
Proof.
  intros Hi. unfold bumpOrphanFrontiers. destruct (fn_beat (node_of w n)) as [[[|] [c|]]|] eqn:Eb; try done.
  destruct (update_leases _ _ _ _) as [w1|] eqn:Eu; [|done]. intros [= <-]. apply update_step in Eu as [Hs1 Hdb]; [|done|lia|].
  - apply (then_step w w1); [done|done| |done]. intros Hi1. by apply with_beat_step.
  - intros s r Hr HP. apply row_raised; [done|by apply (no_ceiling _ _ _ _ _ (fi_nodes w Hi n) _ c Eb)|done|]. intros n' tx Htx He.
    destruct (no_epochs _ _ _ _ _ (fi_nodes w Hi n') s _ He) as (r1 & Hr1 & _ & Hw). rewrite Hr in Hr1. injection Hr1 as <-.
    unfold orphan in HP. by rewrite (Hw eq_refl) in HP.
Qed.

Lemma heartbeatAll_ok n w w' : fleet_inv w -> heartbeatAll ttl n w = Some w' -> step_ok w w'.
Proof.
  intros Hi H. unfold heartbeatAll in H. apply update_step in H; [apply H|done|lia|]. intros s r Hr _. by apply row_same.
Qed.

Lemma read_max_ok n w : fleet_inv w -> step_ok w (read_max n w).
Proof.
  intros Hi. apply node_step; [done|]. pose proof (fi_nodes w Hi n) as [H1 H2 H3 H4 H5 H6]. pose proof (max_document_bounds w Hi).
  split; cbn; [done..| |done]. intros m [= <-]. lia.
Qed.

(** ** Commits *)

Lemma put_txn_step w n s tx :
  fleet_inv w -> txn_ok (fl_seq w) (fl_leases w) (fl_rowlocks w) n s (fn_epochs (node_of w n) !! s) tx -> step_ok w (put_txn w n s tx).
Proof.
  intros Hi Ht. apply node_step; [done|]. pose proof (fi_nodes w Hi n) as [H1 H2 H3 H4 H5 H6]. split; cbn; [done..|].
  intros s' tx'. destruct (decide (s' = s)) as [->|Hn]; [rewrite lookup_insert_eq; by intros [= <-]|rewrite lookup_insert_ne by done; apply H6].
Qed.

(** Dropping a transaction, with its row lock. *)
Lemma unlocked_nodes w n s :
  (forall n', node_ok (fl_seq w) (fl_leases w) (fl_rowlocks w) n' (node_of w n')) ->
  forall n' nd', nd' = (if decide (n' = n) then with_txns (node_of w n) (delete s (fn_txns (node_of w n))) else node_of w n') ->
  node_ok (fl_seq w) (fl_leases w) (fl_rowlocks (unlock_row w n s)) n' nd'.
Proof.
  intros Hall n' nd' ->. pose proof (Hall n') as [H1 H2 H3 H4 H5 H6].
  assert (Hl : forall s' n0, fl_rowlocks w !! s' = Some n0 -> n0 <> n \/ s' <> s -> fl_rowlocks (unlock_row w n s) !! s' = Some n0).
  { intros s' n0 Hl Hd. unfold unlock_row. case_bool_decide as Hb; [|done]. cbn. rewrite lookup_delete_ne; [done|]. intros ->. rewrite Hl in Hb. injection Hb as ->. by destruct Hd. }
  destruct (decide (n' = n)) as [->|Hne].
  - split; cbn; [done..|]. intros s' tx. rewrite lookup_delete_Some. intros [Hs Htx]. destruct (H6 s' tx Htx) as [T1 T2 T3 T4 T5]. split; [done..| |done].
    intros G. destruct (T4 G) as [Hlk Hr]. split; [|done]. apply Hl; [done|by right].
  - split; [done..|]. intros s' tx Htx. destruct (H6 s' tx Htx) as [T1 T2 T3 T4 T5]. split; [done..| |done].
    intros G. destruct (T4 G) as [Hlk Hr]. split; [|done]. apply Hl; [done|by left].
Qed.

Lemma end_txn_nodes w n s n' :
  node_of (end_txn w n s) n' = if decide (n' = n) then with_txns (node_of w n) (delete s (fn_txns (node_of w n))) else node_of w n'.
Proof.
  unfold end_txn. rewrite node_of_with. assert (Hu : forall n0, node_of (unlock_row w n s) n0 = node_of w n0) by (intros n0; unfold unlock_row; by case_bool_decide). by rewrite !Hu.
Qed.

Lemma unlock_row_fields w n s :
  fl_seq (unlock_row w n s) = fl_seq w /\ fl_db (unlock_row w n s) = fl_db w /\ fl_leases (unlock_row w n s) = fl_leases w.
Proof. unfold unlock_row. by case_bool_decide. Qed.

Lemma end_txn_ok w n s : fleet_inv w -> step_ok w (end_txn w n s).
Proof.
  intros Hi. destruct (unlock_row_fields w n s) as (E1 & E2 & E3). pose proof Hi as [H0 H1 H2 H3].
  split; [|split; [cbn; rewrite E3; reflexivity|left; cbn; by rewrite E2]].
  split; [cbn; by rewrite E1, E2|cbn; by rewrite E1|cbn; rewrite E1, E3; done|]. intros n'.
  pose proof (unlocked_nodes w n s H3 n' _ eq_refl) as Hok. rewrite end_txn_nodes. cbn. by rewrite E1, E3.
Qed.

Lemma end_txn_db w n s : fl_db (end_txn w n s) = fl_db w.
Proof. cbn. by destruct (unlock_row_fields w n s) as (_ & -> & _). Qed.

Lemma relinquish_db n s w : fl_db (relinquish n s w) = fl_db w.
Proof. unfold relinquish. by destruct (currentEpoch _ _ _). Qed.

Lemma fenced_ok n s w : fleet_inv w -> step_ok w (relinquish n s (end_txn w n s)).
Proof.
  intros Hi. apply (then_step w (end_txn w n s)); [by apply end_txn_ok|apply end_txn_db|intros; by apply relinquish_ok|apply relinquish_db].
Qed.

Lemma txn_begin_ok n s us w w' : fleet_inv w -> txn_begin n s us w = Some w' -> step_ok w w'.
Proof.
  intros Hi. unfold txn_begin. destruct (shard_idle w n s); [|done]. intros [= <-]. apply put_txn_step; [done|].
  split; cbn; [set_solver..|done|]. intros r _ _ t Ht. by apply not_elem_of_nil in Ht.
Qed.

(** With a sequence that is not behind the log, the timestamp drawn is the sequence's. *)
Lemma draw_is_next w tx :
  fleet_inv w -> (forall r, r ∈ ct_docs tx -> dr_ts r <= fl_seq w) -> draw_ts (fl_seq w) (txn_view w tx) = fl_seq w + 1.
Proof.
  intros Hi Hd. unfold draw_ts. pose proof (max_document_bounds w Hi) as Hm.
  assert (max_document_ts (txn_view w tx) <= fl_seq w); [|lia].
  apply (max_document_ts_app (fl_db w) _ (ct_docs tx)); [done|by apply Forall_forall|lia].
Qed.

Lemma txn_draw_ok n s w w' : fleet_inv w -> txn_draw n s w = Some w' -> step_ok w w'.
Proof.
  intros Hi. unfold txn_draw. destruct (fn_txns (node_of w n) !! s) as [[[|u us] [ts|] units docs ixs keys [|]]|] eqn:Et; try done.
  pose proof (no_txns _ _ _ _ _ (fi_nodes w Hi n) s _ Et) as [T1 T2 T3 T4 T5]. unfold above, drawn in *. cbn in *. rewrite app_nil_r in *.
  set (tx := CommitTxn _ None units docs ixs keys false). assert (Hts : draw_ts (fl_seq w) (txn_view w tx) = fl_seq w + 1).
  { apply draw_is_next; [done|]. intros r Hr. destruct (T1 (dr_ts r) (T2 r Hr)). lia. }
  rewrite Hts. intros [= <-]. set (w1 := with_leases w (fl_seq w + 1) (fl_leases w)). apply (then_step w w1); [by apply draw_seq_ok|done| |done]. intros Hi1.
  pose proof (fi_seq w Hi) as Hs. apply put_txn_step; [done|]. split; unfold above, drawn; cbn.
  - intros t [Ht|Ht%list_elem_of_singleton]%elem_of_app; [specialize (T1 t Ht)|]; lia.
  - intros r Hr. apply elem_of_app. left. by apply T2.
  - intros r Hr. apply elem_of_app. left. by apply T3.
  - done.
  - intros r Hr Hpre t [Ht|Ht%list_elem_of_singleton]%elem_of_app; [by apply (T5 r Hr)|]. destruct (fi_rows w Hi s r Hr) as [_ Hf]. lia.
Qed.

Lemma txn_insert_ok n s w w' : fleet_inv w -> txn_insert n s w = Some w' -> step_ok w w'.
Proof.
  intros Hi. unfold txn_insert. destruct (fn_txns (node_of w n) !! s) as [[[|u us] [ts|] units docs ixs keys [|]]|] eqn:Et; try done.
  destruct (written_rows _ _ _) as [[new newIxs]|] eqn:Ew; [|intros [= <-]; by apply end_txn_ok].
  destruct (pg_insert_documents _ _ _); [|intros [= <-]; by apply end_txn_ok]. intros [= <-].
  pose proof (no_txns _ _ _ _ _ (fi_nodes w Hi n) s _ Et) as [T1 T2 T3 T4 T5]. unfold above, drawn in *. cbn in *.
  apply written_rows_stamped in Ew as (Hnew & _ & Hix). rewrite Forall_forall in Hnew. rewrite Forall_forall in Hix.
  assert (Hin : forall t, t ∈ (gu_ts <$> units) ++ [ts] <-> t ∈ (gu_ts <$> units ++ [GuardUnit ts (cu_meta u)]) ++ []).
  { intros t. by rewrite app_nil_r, fmap_app. }
  apply put_txn_step; [done|]. split; unfold above, drawn; cbn.
  - intros t Ht. by apply T1, Hin.
  - intros r [Hr|Hr]%elem_of_app; apply Hin; [by apply T2|]. destruct (Hnew r Hr) as [-> _]. apply elem_of_app. right. left.
  - intros r Hr. apply Hin. assert (Hel : r ∈ ixs \/ r ∈ newIxs).
    { revert Hr. clear. revert ixs. induction newIxs as [|x xs IH]; intros ixs; [by left|]. cbn [fold_left]. intros [Hr|Hr]%IH; [|right; by right].
      apply upsert_row_elem in Hr as [->|Hr]; [right; left|by left]. }
    destruct Hel as [Hr'|Hr']; [by apply T3|]. rewrite (Hix r Hr'). apply elem_of_app. right. left.
  - done.
  - intros r Hr Hpre t Ht. apply (T5 r Hr Hpre), Hin, Ht.
Qed.

Lemma txn_guard_ok n s w w' : fleet_inv w -> txn_guard n s w = Some w' -> step_ok w w'.
Proof.
  intros Hi. unfold txn_guard. destruct (fn_txns (node_of w n) !! s) as [[[|u us] [ts|] [|gu gus] docs ixs keys [|]]|] eqn:Et; try done.
  destruct (currentEpoch w n s) as [e|] eqn:Ee; [|intros [= <-]; by apply fenced_ok].
  destruct (fl_leases w !! s) as [r|] eqn:Er; [|intros [= <-]; by apply fenced_ok]. destruct (fl_rowlocks w !! s) as [l|] eqn:El.
  { destruct (lr_epoch r =? e); [done|intros [= <-]; by apply fenced_ok]. }
  destruct (Z.eqb_spec (lr_epoch r) e) as [He|He]; [|intros [= <-]; by apply fenced_ok].
  destruct (existsb _ _); [done|]. destruct (claim_keys _ _); [|intros [= <-]; by apply end_txn_ok]. intros [= <-].
  pose proof (no_txns _ _ _ _ _ (fi_nodes w Hi n) s _ Et) as [T1 T2 T3 T4 T5]. unfold currentEpoch in Ee.
  destruct (no_epochs _ _ _ _ _ (fi_nodes w Hi n) s e Ee) as (r0 & Hr0 & _ & Hw). rewrite Er in Hr0. injection Hr0 as <-.
  set (w1 := with_rowlocks w (<[s := n]> (fl_rowlocks w))).
  assert (Hi1 : fleet_inv w1).
  { pose proof Hi as [H0 H1 H2 H3]. split; [done..|]. intros n'. specialize (H3 n') as [N1 N2 N3 N4 N5 N6]. split; [done..|].
    intros s' tx' Htx'. destruct (N6 s' tx' Htx') as [U1 U2 U3 U4 U5]. split; [done..| |done]. intros G. destruct (U4 G) as [Hl Hrow]. split; [|done].
    cbn. rewrite lookup_insert_ne; [done|]. intros ->. congruence. }
  apply (then_step w w1); [split; [done|split; [cbn; reflexivity|by left]]|done| |done]. intros _. apply put_txn_step; [done|].
  split; unfold above, drawn in *; cbn in *; [done..| |].
  - intros _. rewrite lookup_insert_eq. split; [done|]. exists r. split; [done|]. apply Hw. done.
  - intros r' Hr' _ t Ht. apply (T5 r' Hr'); [right; congruence|done].
Qed.

Lemma txn_commit_ok n s w w' : fleet_inv w -> txn_commit n s w = Some w' -> step_ok w w'.
Proof.
  intros Hi. unfold txn_commit. destruct (fn_txns (node_of w n) !! s) as [[[|u us] [ts|] units docs ixs keys [|]]|] eqn:Et; try done; cycle 1.
  { destruct units; [|done]. intros [= <-]. by apply end_txn_ok. }
  assert (Hall : forall X : option fleet, match units with [] => X | _ => X end = X) by (by destruct units).
  pose proof (no_txns _ _ _ _ _ (fi_nodes w Hi n) s _ Et) as [T1 T2 T3 T4 T5]. unfold drawn in T1, T2, T3, T5. unfold above, drawn in T5. cbn in *. rewrite app_nil_r in *.
  destruct (T4 eq_refl) as (Hl & r & Hr & Hw). set (db := with_indexes _ _). set (ls := update_rows _ _ _).
  set (w1 := Fleet (fl_now w) (fl_seq w) db ls (land_keys (fl_now w) keys (fl_idem w)) (fl_slots w) (fl_rowlocks w) (fl_nodes w)).
  intros H. assert (w' = end_txn w1 n s) as -> by (destruct units; by injection H as <-). clear H Hall.
  assert (Hlast : 0 <= last_ts units <= fl_seq w).
  { pose proof (fi_seq w Hi). unfold last_ts. destruct (last units) as [gu|] eqn:Elast; cbn; [|lia]. apply last_Some in Elast as [pre ->].
    assert (0 < gu_ts gu <= fl_seq w) by (apply T1; rewrite fmap_app; apply elem_of_app; right; left). lia. }
  assert (Hls : forall s', ls !! s' = if decide (s' = s) then Some (commit_row (last_ts units) r) else fl_leases w !! s').
  { intros s'. subst ls. rewrite update_rows_lookup. destruct (decide (s' = s)) as [->|Hne].
    - rewrite Hr. cbn. by rewrite bool_decide_true.
    - rewrite bool_decide_false by done. by destruct (fl_leases w !! s'). }
  assert (Hle : rows_le (fl_leases w) ls).
  { intros s' r0 Hr0. rewrite Hls. destruct (decide (s' = s)) as [->|_]; [|exists r0; split_and!; lia || done].
    rewrite Hr in Hr0. injection Hr0 as <-. eexists. split; [done|]. cbn. split_and!; [lia|done|lia]. }
  pose proof Hi as [H0 H1 H2 H3]. destruct (unlock_row_fields w1 n s) as (E1 & E2 & E3). split; [|split].
  - split.
    + cbn. rewrite E1, E2. cbn. intros d [Hd|Hd]%elem_of_app; [by apply H0|]. by apply T1, T2.
    + cbn. by rewrite E1.
    + cbn. rewrite E1, E3. cbn. intros s' r'. rewrite Hls. destruct (decide (s' = s)) as [->|_]; [|apply H2]. intros [= <-].
      destruct (H2 s r Hr) as [Hin Hf]. split; [done|]. cbn. lia.
    + intros n'. cbn. rewrite E1, E3. cbn. rewrite end_txn_nodes. change (node_of w1) with (node_of w).
      apply (node_ok_rows (fl_seq w) (fl_seq w) (fl_leases w)); [|lia|done|].
      * change (fl_rowlocks (unlock_row w1 n s)) with (fl_rowlocks (unlock_row w1 n s)).
        assert (Hlk : fl_rowlocks (unlock_row w1 n s) = fl_rowlocks (unlock_row w n s)) by (unfold unlock_row; cbn; by case_bool_decide).
        rewrite Hlk. by apply unlocked_nodes.
      * intros s' tx Htx. assert (Hold : fn_txns (node_of w n') !! s' = Some tx /\ (n' = n -> s' <> s)).
        { destruct (decide (n' = n)) as [->|Hne]; [|by split]. cbn in Htx. apply lookup_delete_Some in Htx as [? ?]. by split. }
        destruct Hold as [Hold Hne]. destruct (no_txns _ _ _ _ _ (H3 n') s' tx Hold) as [_ _ _ U4 U5].
        assert (Hep : fn_epochs (if decide (n' = n) then with_txns (node_of w n) (delete s (fn_txns (node_of w n))) else node_of w n') = fn_epochs (node_of w n')) by (by destruct (decide (n' = n)) as [->|]).
        rewrite Hep. destruct (decide (s' = s)) as [->|Hs].
        -- assert (Hnn : n' <> n) by (intros ->; by apply (Hne eq_refl)).
           assert (Hng : ct_guarded tx <> true) by (intros G; destruct (U4 G) as [Hl' _]; congruence).
           split; [|intros G; by destruct (Hng G)]. intros r'. rewrite Hls, decide_True by done. intros [= <-] [G|Hcur]; [by destruct (Hng G)|]. cbn in Hcur.
           destruct (no_epochs _ _ _ _ _ (H3 n') s _ Hcur) as (r1 & Hr1 & _ & Hw1). rewrite Hr in Hr1. injection Hr1 as <-. specialize (Hw1 eq_refl). congruence.
        -- split; [|by rewrite Hls, decide_False]. intros r'. rewrite Hls, decide_False by done. apply U5.
  - cbn. by rewrite E3.
  - right. exists s, r, docs, ixs. cbn. rewrite E2. cbn. split_and!; [done..| |].
    + apply Forall_forall. intros d Hd. split; [by apply T1, T2|]. apply (T5 r Hr); [by left|by apply T2].
    + apply Forall_forall. intros d Hd. split; [by apply T1, T3|]. apply (T5 r Hr); [by left|by apply T3].
Qed.

Lemma node_dies_ok n w : fleet_inv w -> step_ok w (node_dies n w).
Proof.
  intros Hi. pose proof Hi as [H0 H1 H2 H3]. split; [|split; [cbn; reflexivity|by left]]. split; [done..|]. intros n'. cbn.
  assert (Hnode : node_of (node_dies n w) n' = if decide (n' = n) then idle_node else node_of w n').
  { unfold node_of. cbn. destruct (decide (n' = n)) as [->|]; [by rewrite lookup_delete_eq|by rewrite lookup_delete_ne]. }
  rewrite Hnode. destruct (decide (n' = n)) as [->|Hne]; [apply idle_node_ok|]. destruct (H3 n') as [N1 N2 N3 N4 N5 N6]. split; [done..|].
  intros s tx Htx. destruct (N6 s tx Htx) as [T1 T2 T3 T4 T5]. split; [done..| |done]. intros G. destruct (T4 G) as [Hl Hr]. split; [|done].
  by apply map_lookup_filter_Some.
Qed.

Lemma connection_lost_ok n s w : fleet_inv w -> step_ok w (connection_lost n s w).
Proof.
  intros Hi. apply (then_step w (end_txn w n s)); [by apply end_txn_ok|apply end_txn_db| |].
  - intros Hi1. unfold connection_lost, releaseShardLock. case_bool_decide; by apply same_step.
  - unfold connection_lost, releaseShardLock. by case_bool_decide.
Qed.

Lemma fstep_ok w l w' : fleet_inv w -> calm w l -> fstep w l = Some w' -> step_ok w w'.
Proof.
  intros Hi Hc. destruct l; cbn [FleetLease.fstep].
  - intros [= <-]. by apply setup_ok.
  - intros [= <-]. by apply same_step.
  - by apply try_lock_ok.
  - by apply acquire_ok.
  - by apply granted_ok.
  - by apply heartbeatAll_ok.
  - intros [= <-]. by apply relinquish_ok.
  - intros [= <-]. unfold releaseShardLock. case_bool_decide; by apply same_step.
  - by apply evictExpired_ok.
  - by apply selfFence_ok.
  - intros [= <-]. by apply read_max_ok.
  - by apply seedFrontierAll_ok.
  - by apply beat_start_ok.
  - by apply beat_draw_ok.
  - by apply closeIdle_ok.
  - by apply bumpOrphans_ok.
  - by apply txn_begin_ok.
  - by apply txn_draw_ok.
  - by apply txn_insert_ok.
  - by apply txn_guard_ok.
  - by apply txn_commit_ok.
  - intros [= <-]. by apply end_txn_ok.
  - intros [= <-]. by apply connection_lost_ok.
  - intros [= <-]. by apply node_dies_ok.
  - intros [= <-]. unfold recordIdempotencyValue. destruct (fl_idem w !! k); by apply same_step.
  - intros [= <-]. by apply same_step.
Qed.

(** * The frontier *)

Notation F w := (readFrontier (length shards) (fl_leases w)).

Lemma min_list_le l x : x ∈ l -> min_list l <= x.
Proof.
  destruct l as [|y l]; [by intros ?%not_elem_of_nil|]. cbn.
  assert (Hm : forall l m, fold_left Z.min l m <= m /\ forall x, x ∈ l -> fold_left Z.min l m <= x).
  { clear. induction l as [|y l IH]; intros m; cbn; [split; [lia|set_solver]|]. destruct (IH (Z.min m y)) as [H1 H2]. split; [lia|].
    intros x [->|Hx]%elem_of_cons; [lia|by apply H2]. }
  destruct (Hm l y) as [H1 H2]. intros [->|Hx]%elem_of_cons; [done|by apply H2].
Qed.

Lemma min_list_elem l : l <> [] -> min_list l ∈ l.
Proof.
  destruct l as [|y l]; [done|]. intros _. cbn.
  assert (Hm : forall l m, fold_left Z.min l m = m \/ fold_left Z.min l m ∈ l).
  { clear. induction l as [|y l IH]; intros m; cbn; [by left|]. destruct (IH (Z.min m y)) as [->|H]; [|right; by right].
    destruct (Z.min_spec m y) as [[_ ->]|[_ ->]]; [by left|right; left]. }
  destruct (Hm l y) as [->|H]; [left|by right].
Qed.

Lemma elem_of_frontiers ls x : x ∈ frontiers ls <-> exists s r, ls !! s = Some r /\ x = lr_frontier r.
Proof.
  unfold frontiers. rewrite list_elem_of_fmap. split.
  - intros (r & -> & Hr). apply list_elem_of_fmap in Hr as ([s r'] & -> & Hr). exists s, r'. split; [by apply elem_of_map_to_list|done].
  - intros (s & r & Hr & ->). exists r. split; [done|]. apply list_elem_of_fmap. exists (s, r). split; [done|]. by apply elem_of_map_to_list.
Qed.

(** With all rows there, no row appears. *)
Lemma all_rows w w' s r : NoDup shards -> fleet_inv w -> fleet_inv w' -> (length shards <= size (fl_leases w))%nat ->
  fl_leases w' !! s = Some r -> is_Some (fl_leases w !! s).
Proof.
  intros Hn Hi Hi' Hsz Hr. apply elem_of_dom. destruct (fi_rows w' Hi' s r Hr) as [Hin _].
  assert (Hsub : dom (fl_leases w) ⊆ list_to_set (C := gset jsstr) shards).
  { intros x [rx Hx]%elem_of_dom. apply elem_of_list_to_set. by apply (fi_rows w Hi x rx). }
  assert (Heq : dom (fl_leases w) = list_to_set (C := gset jsstr) shards).
  { apply set_subseteq_size_eq; [done|]. rewrite size_list_to_set, size_dom by done. lia. }
  rewrite Heq. by apply elem_of_list_to_set.
Qed.

Lemma frontier_nonneg w : fleet_inv w -> 0 <= F w.
Proof.
  intros Hi. unfold readFrontier. destruct (_ <? _)%nat; [lia|]. destruct (frontiers (fl_leases w)) as [|x l] eqn:E; [done|].
  assert (Hm : min_list (frontiers (fl_leases w)) ∈ frontiers (fl_leases w)) by (apply min_list_elem; by rewrite E). rewrite E in Hm at 2. rewrite <- E in Hm.
  apply elem_of_frontiers in Hm as (s & r & Hr & Heq). destruct (fi_rows w Hi s r Hr) as [_ Hf]. rewrite <- E. lia.
Qed.

Lemma frontier_below w s r : fleet_inv w -> fl_leases w !! s = Some r -> F w <= lr_frontier r.
Proof.
  intros Hi Hr. unfold readFrontier. destruct (_ <? _)%nat; [destruct (fi_rows w Hi s r Hr); lia|]. apply min_list_le, elem_of_frontiers. eauto.
Qed.

Lemma frontier_grows w w' : NoDup shards -> fleet_inv w -> fleet_inv w' -> rows_le (fl_leases w) (fl_leases w') -> F w <= F w'.
Proof.
  intros Hn Hi Hi' Hle. unfold readFrontier at 1. destruct (Nat.ltb_spec (size (fl_leases w)) (length shards)) as [|Hsz]; [by apply frontier_nonneg|].
  assert (Hdom : dom (fl_leases w) ⊆ dom (fl_leases w')).
  { intros s [r Hr]%elem_of_dom. destruct (Hle s r Hr) as (r' & Hr' & _). apply elem_of_dom. eauto. }
  assert (Hsz' : (length shards <= size (fl_leases w'))%nat) by (rewrite <- (size_dom (fl_leases w')); apply subseteq_size in Hdom; rewrite !size_dom in Hdom; rewrite size_dom; lia).
  unfold readFrontier. rewrite (proj2 (Nat.ltb_ge _ _)) by done. destruct (decide (frontiers (fl_leases w') = [])) as [He|He].
  - assert (frontiers (fl_leases w) = []) as ->; [|by rewrite He]. destruct (frontiers (fl_leases w)) as [|x l] eqn:E; [done|]. exfalso.
    assert (Hx : x ∈ frontiers (fl_leases w)) by (rewrite E; left). apply elem_of_frontiers in Hx as (s & r & Hr & _).
    destruct (Hle s r Hr) as (r' & Hr' & _). assert (Hx : lr_frontier r' ∈ frontiers (fl_leases w')) by (apply elem_of_frontiers; eauto).
    rewrite He in Hx. by apply not_elem_of_nil in Hx.
  - apply min_list_elem, elem_of_frontiers in He as (s & r' & Hr' & ->). destruct (all_rows w w' s r' Hn Hi Hi' Hsz Hr') as [r Hr].
    destruct (Hle s r Hr) as (r2 & Hr2 & _ & _ & Hf). rewrite Hr' in Hr2. injection Hr2 as <-.
    etrans; [apply min_list_le, elem_of_frontiers; by exists s, r|done].
Qed.

(** What a reader at [f] sees stays as it is. *)
Definition frozen (f : Z) (w w' : fleet) : Prop :=
  base.filter (fun d => dr_ts d <= f) (db_documents (fl_db w')) = base.filter (fun d => dr_ts d <= f) (db_documents (fl_db w)) /\
  old_indexes f (db_indexes (fl_db w')) = old_indexes f (db_indexes (fl_db w)).

Lemma landed_frozen w w' f : fleet_inv w -> f <= F w -> landed w w' -> frozen f w w'.
Proof.
  intros Hi Hf [Hl|(s & r & docs & ixs & Hr & Hd & Hx & Hdf & Hxf)]; [unfold frozen; by rewrite Hl|].
  pose proof (frontier_below w s r Hi Hr) as Hb. split.
  - rewrite Hd, filter_app, (filter_none _ docs), app_nil_r; [done|]. eapply Forall_impl; [exact Hdf|]. intros d [_ Hlt]. cbv beta. lia.
  - rewrite Hx. apply upsert_indexes_old. eapply Forall_impl; [exact Hxf|]. intros d [_ Hlt]. cbv beta. lia.
Qed.

Lemma frun_grows w ls w' :
  NoDup shards -> fleet_inv w -> calm_run w ls -> frun w ls = Some w' -> fleet_inv w' /\ F w <= F w' /\ forall f, f <= F w -> frozen f w w'.
Proof.
  intros Hn. revert w. induction ls as [|l ls IH]; intros w Hi; cbn [FleetLease.frun FleetLease.calm_run].
  - intros _ [= <-]. split; [done|]. split; [lia|]. intros f _. by split.
  - intros [Hc Hcr]. destruct (fstep w l) as [w1|] eqn:E; [|done]. cbn. intros Hr. destruct (fstep_ok w l w1 Hi Hc E) as (Hi1 & Hle & Hland).
    destruct (IH w1 Hi1 Hcr Hr) as (Hi' & Hg & Hfr). pose proof (frontier_grows w w1 Hn Hi Hi1 Hle) as Hg1. split; [done|]. split; [lia|].
    intros f Hf. destruct (landed_frozen w w1 f Hi Hf Hland) as [A1 A2]. destruct (Hfr f ltac:(lia)) as [B1 B2]. split; [by rewrite B1|by rewrite B2].
Qed.

(** A fleet before any of its nodes runs, on a database whose sequence is not behind
    its log, as [setupSchema] leaves it. *)
Record fleet_start (w : fleet) : Prop := {
  fs_docs r : r ∈ db_documents (fl_db w) -> 0 < dr_ts r <= fl_seq w;
  fs_seq : 0 <= fl_seq w;
  fs_rows s r : fl_leases w !! s = Some r -> s ∈ shards /\ 0 <= lr_frontier r <= fl_seq w;
  fs_nodes : fl_nodes w = ∅
}.

Lemma fleet_start_inv w : fleet_start w -> fleet_inv w.
Proof.
  intros [H1 H2 H3 H4]. split; [done..|]. intros n. unfold node_of. rewrite H4, lookup_empty. apply idle_node_ok.
Qed.

(** C5: the frontier of a fleet is a stable prefix of the log, in a calm run: a node gets
    an epoch on a shard while it has no commit of its own on its way there, and seeds
    frontiers while it has none at all. The fleet starts on a log whose timestamps the
    sequence has reached, with no shard listed twice. Whatever nodes acquire, lose, release,
    evict and take over shards, however the statements of their commits, heartbeats and
    beats interleave, and whichever transactions, sessions and processes die on the way:
    from any state of the run on, the least frontier [F] never goes back, and the
    documents and index entries up to [F] stay exactly what they are, so no commit lands
    at or below [F]. *)
Theorem fleet_prefix_grows w0 before w after w' :
  NoDup shards -> fleet_start w0 -> calm_run w0 before -> frun w0 before = Some w ->
  calm_run w after -> frun w after = Some w' -> F w <= F w' /\ frozen (F w) w w'.
Proof.
  intros Hn Hs Hc Hr Hc' Hr'. destruct (frun_grows w0 before w Hn (fleet_start_inv w0 Hs) Hc Hr) as (Hi & _).
  destruct (frun_grows w after w' Hn Hi Hc' Hr') as (_ & Hg & Hf). split; [done|]. by apply Hf.
Qed.

(** * Timestamps and keys are unique *)

Notation txns w n := (fn_txns (node_of w n)).

Record unique_inv (w : fleet) : Prop := {
  ui_docs : NoDup (doc_key <$> db_documents (fl_db w));
  ui_ixs : NoDup (index_key <$> db_indexes (fl_db w));
  ui_own n s tx : txns w n !! s = Some tx -> NoDup (doc_key <$> ct_docs tx);
  ui_fresh n s tx t r : txns w n !! s = Some tx -> t ∈ drawn tx -> r ∈ db_documents (fl_db w) -> dr_ts r <> t;
  ui_apart n s tx n' s' tx' t : txns w n !! s = Some tx -> txns w n' !! s' = Some tx' -> t ∈ drawn tx -> t ∈ drawn tx' -> n = n' /\ s = s'
}.

(** Steps that leave the tables alone and start no transaction. *)
Definition txns_kept (w w' : fleet) : Prop := fl_db w' = fl_db w /\ forall n s tx, txns w' n !! s = Some tx -> txns w n !! s = Some tx.

#[local] Instance txns_kept_preorder : PreOrder txns_kept.
Proof. split; [by intros w|]. intros w1 w2 w3 [H1 H2] [H3 H4]. split; [congruence|auto]. Qed.

Lemma kept_unique w w' : unique_inv w -> txns_kept w w' -> unique_inv w'.
Proof.
  intros [U1 U2 U3 U4 U5] [Hdb Hk]. split; rewrite ?Hdb; [done|done| | |].
  - intros n s tx Htx. by eapply U3, Hk.
  - intros n s tx t r Htx Ht Hr. by eapply U4; [apply Hk, Htx|..].
  - intros n s tx n' s' tx' t Htx Htx'. by apply U5; apply Hk.
Qed.

Lemma same_nodes_kept w w' : fl_db w' = fl_db w -> fl_nodes w' = fl_nodes w -> txns_kept w w'.
Proof. intros Hdb Hn. split; [done|]. intros n s tx. unfold node_of. by rewrite Hn. Qed.

Lemma node_kept w n nd : fn_txns nd = txns w n -> txns_kept w (with_node w n nd).
Proof. intros He. split; [done|]. intros n' s tx. rewrite node_of_with. destruct (decide (n' = n)) as [->|]; [by rewrite He|done]. Qed.

Lemma node_kept_on w w1 n nd : fl_db w1 = fl_db w -> fl_nodes w1 = fl_nodes w -> fn_txns nd = txns w n -> txns_kept w (with_node w1 n nd).
Proof. intros Hdb Hn He. etrans; [by apply (same_nodes_kept w w1)|]. apply node_kept. rewrite He. unfold node_of. by rewrite Hn. Qed.

Lemma end_txn_kept w n s : txns_kept w (end_txn w n s).
Proof.
  split; [apply end_txn_db|]. intros n' s' tx. rewrite end_txn_nodes. destruct (decide (n' = n)) as [->|]; [|done]. cbn. rewrite lookup_delete_Some. by intros [_ H].
Qed.

Lemma relinquish_kept n s w : txns_kept w (relinquish n s w).
Proof. unfold relinquish. destruct (currentEpoch w n s); [by apply node_kept|reflexivity]. Qed.

Lemma update_leases_kept w seq P f w' : update_leases w seq P f = Some w' -> txns_kept w w'.
Proof. unfold update_leases. destruct (decide _); [|done]. intros [= <-]. by apply same_nodes_kept. Qed.

Lemma put_txn_nodes w n s tx n' : fn_txns (node_of (put_txn w n s tx) n') = if decide (n' = n) then <[s := tx]> (txns w n) else txns w n'.
Proof. unfold put_txn. rewrite node_of_with. by destruct (decide (n' = n)). Qed.

(** A transaction goes on: its own rows stay distinct, and what it has drawn is new. *)
Lemma put_txn_unique w n s tx :
  unique_inv w -> NoDup (doc_key <$> ct_docs tx) ->
  (forall t, t ∈ drawn tx -> (forall r, r ∈ db_documents (fl_db w) -> dr_ts r <> t) /\
     forall n' s' tx', txns w n' !! s' = Some tx' -> t ∈ drawn tx' -> n' = n /\ s' = s) ->
  unique_inv (put_txn w n s tx).
Proof.
  intros [U1 U2 U3 U4 U5] Hn Ht.
  assert (Hlook : forall n' s' tx', txns (put_txn w n s tx) n' !! s' = Some tx' -> n' = n /\ s' = s /\ tx' = tx \/ txns w n' !! s' = Some tx').
  { intros n' s' tx'. rewrite put_txn_nodes. destruct (decide (n' = n)) as [->|]; [|by right].
    destruct (decide (s' = s)) as [->|]; [rewrite lookup_insert_eq; intros [= <-]; by left|rewrite lookup_insert_ne by done; by right]. }
  split; [done|done|..].
  - intros n' s' tx' [(-> & -> & ->)|H]%Hlook; [done|by eapply U3].
  - intros n' s' tx' t r [(-> & -> & ->)|H]%Hlook Hin; [by apply Ht|by eapply U4].
  - intros n1 s1 tx1 n2 s2 tx2 t [(-> & -> & ->)|H1]%Hlook [(-> & -> & ->)|H2]%Hlook I1 I2.
    + done.
    + destruct (Ht t I1) as [_ Hs]. by destruct (Hs n2 s2 tx2 H2 I2) as [-> ->].
    + destruct (Ht t I2) as [_ Hs]. by destruct (Hs n1 s1 tx1 H1 I1) as [-> ->].
    + by eapply U5.
Qed.

Lemma own_rows_apart w n s tx : fleet_inv w -> unique_inv w -> txns w n !! s = Some tx -> NoDup (doc_key <$> db_documents (fl_db w) ++ ct_docs tx).
Proof.
  intros Hi [U1 U2 U3 U4 U5] Ht. rewrite fmap_app. apply NoDup_app. split_and!; [done| |by eapply U3].
  intros k (r & -> & Hr)%list_elem_of_fmap (r' & Hk & Hr')%list_elem_of_fmap.
  apply (U4 n s tx (dr_ts r') r Ht); [by apply (to_docs _ _ _ _ _ _ _ (no_txns _ _ _ _ _ (fi_nodes w Hi n) s tx Ht))|done|].
  by injection Hk.
Qed.

Lemma txn_draw_unique n s w w' : fleet_inv w -> unique_inv w -> txn_draw n s w = Some w' -> unique_inv w'.
Proof.
  intros Hi Hu. unfold txn_draw. destruct (txns w n !! s) as [[[|u us] [ts|] units docs ixs keys [|]]|] eqn:Et; try done.
  set (tx := CommitTxn _ None units docs ixs keys false). pose proof (no_txns _ _ _ _ _ (fi_nodes w Hi n) s _ Et) as [T1 T2 T3 T4 T5].
  assert (Hts : draw_ts (fl_seq w) (txn_view w tx) = fl_seq w + 1).
  { apply draw_is_next; [done|]. intros r Hr. destruct (T1 (dr_ts r) (T2 r Hr)). lia. }
  rewrite Hts. intros [= <-]. apply put_txn_unique.
  - by apply (kept_unique w); [|apply same_nodes_kept].
  - by apply (ui_own w Hu n s tx).
  - unfold drawn. cbn. intros t [Ht|Ht%list_elem_of_singleton]%elem_of_app.
    + assert (Hin : t ∈ drawn tx) by (unfold drawn; cbn; by rewrite app_nil_r). split; [intros r Hr; by apply (ui_fresh w Hu n s tx t r Et Hin)|].
      intros n' s' tx' H' Ht'. by destruct (ui_apart w Hu n' s' tx' n s tx t H' Et Ht' Hin).
    + subst t. split; [intros r Hr; pose proof (fi_docs w Hi r Hr); lia|]. intros n' s' tx' H' Ht'.
      pose proof (to_drawn _ _ _ _ _ _ _ (no_txns _ _ _ _ _ (fi_nodes w Hi n') s' tx' H') _ Ht'). lia.
Qed.

Lemma txn_insert_unique n s w w' : fleet_inv w -> unique_inv w -> txn_insert n s w = Some w' -> unique_inv w'.
Proof.
  intros Hi Hu. unfold txn_insert. destruct (txns w n !! s) as [[[|u us] [ts|] units docs ixs keys [|]]|] eqn:Et; try done.
  assert (Hend : unique_inv (end_txn w n s)) by (eapply kept_unique; [done|apply end_txn_kept]).
  destruct (written_rows _ _ _) as [[new newIxs]|] eqn:Ew; [|by intros [= <-]].
  set (tx := CommitTxn (u :: us) (Some ts) units docs ixs keys false) in *.
  destruct (pg_insert_documents _ _ _) as [rows|] eqn:Ei; [|by intros [= <-]]. intros [= <-].
  apply pg_insert_error in Ei as [-> Hn]. specialize (Hn (own_rows_apart w n s tx Hi Hu Et)). cbn in Hn. rewrite <- app_assoc, fmap_app in Hn.
  apply NoDup_app in Hn as (_ & _ & Hn). apply put_txn_unique; [done|done|]. intros t Ht.
  assert (Hin : t ∈ drawn tx) by (revert Ht; unfold drawn; cbn; by rewrite app_nil_r, fmap_app).
  split; [intros r Hr; by apply (ui_fresh w Hu n s tx t r Et Hin)|]. intros n' s' tx' H' Ht'. by destruct (ui_apart w Hu n' s' tx' n s tx t H' Et Ht' Hin).
Qed.

Lemma txn_guard_unique n s w w' : unique_inv w -> txn_guard n s w = Some w' -> unique_inv w'.
Proof.
  intros Hu. unfold txn_guard. destruct (txns w n !! s) as [[[|u us] [ts|] [|gu gus] docs ixs keys [|]]|] eqn:Et; try done.
  assert (Hend : unique_inv (end_txn w n s)) by (eapply kept_unique; [done|apply end_txn_kept]).
  assert (Hf : unique_inv (relinquish n s (end_txn w n s))) by (eapply kept_unique; [done|apply relinquish_kept]).
  destruct (currentEpoch w n s); [|by intros [= <-]]. destruct (fl_leases w !! s); [|by intros [= <-]].
  destruct (fl_rowlocks w !! s); [destruct (_ =? _); [done|by intros [= <-]]|]. destruct (_ =? _); [|by intros [= <-]].
  destruct (existsb _ _); [done|]. destruct (claim_keys _ _); [|by intros [= <-]]. intros [= <-].
  set (tx := CommitTxn [] None (gu :: gus) docs ixs keys false) in *. apply put_txn_unique.
  - by apply (kept_unique w); [|apply same_nodes_kept].
  - by apply (ui_own w Hu n s tx).
  - intros t Hin. change (t ∈ drawn tx) in Hin. split; [intros r Hr; by apply (ui_fresh w Hu n s tx t r Et Hin)|].
    intros n' s' tx' H' Ht'. by destruct (ui_apart w Hu n' s' tx' n s tx t H' Et Ht' Hin).
Qed.

Lemma txn_commit_unique n s w w' : fleet_inv w -> unique_inv w -> txn_commit n s w = Some w' -> unique_inv w'.
Proof.
  intros Hi Hu. unfold txn_commit. destruct (txns w n !! s) as [[[|u us] [ts|] units docs ixs keys [|]]|] eqn:Et; try done; cycle 1.
  { destruct units; [|done]. intros [= <-]. eapply kept_unique; [done|apply end_txn_kept]. }
  set (db := with_indexes _ _). set (ls := update_rows _ _ _).
  set (w1 := Fleet (fl_now w) (fl_seq w) db ls (land_keys (fl_now w) keys (fl_idem w)) (fl_slots w) (fl_rowlocks w) (fl_nodes w)).
  intros H. assert (w' = end_txn w1 n s) as -> by (destruct units; by injection H as <-). clear H.
  set (tx := CommitTxn [] None units docs ixs keys true) in *.
  assert (Hk : forall n' s' tx', txns (end_txn w1 n s) n' !! s' = Some tx' -> txns w n' !! s' = Some tx' /\ ~ (n' = n /\ s' = s)).
  { intros n' s' tx'. rewrite end_txn_nodes. change (node_of w1) with (node_of w). destruct (decide (n' = n)) as [->|]; [|by intros; split; [|intros []]].
    cbn. rewrite lookup_delete_Some. intros [Hs H]. split; [done|]. by intros [_ ->]. }
  split; rewrite ?end_txn_db; cbn.
  - by apply (own_rows_apart w n s tx).
  - generalize (ui_ixs w Hu). generalize (db_indexes (fl_db w)) as rows. clear. induction ixs as [|r ixs IH]; intros rows Hn; [done|]. cbn [fold_left]. apply IH. by apply upsert_index_nodup.
  - intros n' s' tx' [H _]%Hk. by eapply (ui_own w Hu).
  - intros n' s' tx' t r [H Hne]%Hk Ht [Hr|Hr]%elem_of_app; [by eapply (ui_fresh w Hu)|]. intros <-. apply Hne.
    apply (ui_apart w Hu n' s' tx' n s tx (dr_ts r) H Et Ht). apply (to_docs _ _ _ _ _ _ _ (no_txns _ _ _ _ _ (fi_nodes w Hi n) s tx Et)). done.
  - intros n1 s1 tx1 n2 s2 tx2 t [H1 _]%Hk [H2 _]%Hk. by eapply (ui_apart w Hu).
Qed.

Lemma fstep_unique w l w' : fleet_inv w -> unique_inv w -> fstep w l = Some w' -> unique_inv w'.
Proof.
  intros Hi Hu. assert (Hkeep : txns_kept w w' -> unique_inv w') by (by apply kept_unique). destruct l; cbn [FleetLease.fstep].
  - intros [= <-]. by apply Hkeep, same_nodes_kept.
  - intros [= <-]. by apply Hkeep, same_nodes_kept.
  - unfold try_lock. case_bool_decide; cbn; [|done]. destruct (fl_slots w !! s); [case_bool_decide|]; intros [= <-]; apply Hkeep; [by apply node_kept|reflexivity|].
    by apply node_kept_on.
  - unfold acquire. destruct (fn_wanting _ !! s) as [[e|]|]; [done| |done]. destruct (fl_rowlocks w !! s); [done|]. intros [= <-]. apply Hkeep.
    by apply node_kept_on.
  - unfold granted. destruct (fn_wanting _ !! s) as [[e|]|]; [|done..]. intros [= <-]. by apply Hkeep, node_kept.
  - intros H. eapply Hkeep, update_leases_kept, H.
  - intros [= <-]. apply Hkeep, relinquish_kept.
  - intros [= <-]. unfold releaseShardLock in *. apply Hkeep. case_bool_decide; [by apply same_nodes_kept|reflexivity].
  - unfold evictExpired. destruct (isExpired _ _ _); [destruct (fl_rowlocks w !! s)|]; intros [= <-]; apply Hkeep; by apply same_nodes_kept.
  - unfold selfFence. destruct (negb _); [intros [= <-]; by apply Hkeep, same_nodes_kept|]. destruct (currentEpoch w n s); [|intros [= <-]; by apply Hkeep, same_nodes_kept].
    intros H. eapply Hkeep, update_leases_kept, H.
  - intros [= <-]. by apply Hkeep, node_kept.
  - unfold seedFrontierAll. destruct (fn_max _); [|done]. intros H. eapply Hkeep, update_leases_kept, H.
  - unfold beat_start. destruct (fn_beat _); [done|]. intros [= <-]. by apply Hkeep, node_kept.
  - unfold beat_draw. destruct (fn_beat _) as [[ps [c|]]|]; [done| |done]. intros [= <-]. apply Hkeep.
    by apply node_kept_on.
  - unfold closeIdleFrontiers. destruct (fn_beat _) as [[[|[s e] ps] [c|]]|]; [done..| |done|done]. destruct (shard_idle w n s); [|intros [= <-]; by apply Hkeep, node_kept].
    destruct (update_leases _ _ _ _) as [w1|] eqn:Eu; [|done]. intros [= <-]. apply Hkeep. etrans; [by eapply update_leases_kept|by apply node_kept].
  - unfold bumpOrphanFrontiers. destruct (fn_beat _) as [[[|] [c|]]|]; try done.
    destruct (update_leases _ _ _ _) as [w1|] eqn:Eu; [|done]. intros [= <-]. apply Hkeep. etrans; [by eapply update_leases_kept|by apply node_kept].
  - unfold txn_begin. destruct (shard_idle w n s); [|done]. intros [= <-]. apply put_txn_unique; [done|constructor|]. intros t Ht. by apply not_elem_of_nil in Ht.
  - by apply txn_draw_unique.
  - by apply txn_insert_unique.
  - by apply txn_guard_unique.
  - by apply txn_commit_unique.
  - intros [= <-]. apply Hkeep, end_txn_kept.
  - intros [= <-]. apply Hkeep. unfold connection_lost, releaseShardLock. etrans; [apply end_txn_kept|]. case_bool_decide; [by apply same_nodes_kept|reflexivity].
  - intros [= <-]. apply Hkeep. split; [done|]. intros n' s tx. unfold node_of. cbn. destruct (decide (n' = n)) as [->|]; [by rewrite lookup_delete_eq|by rewrite lookup_delete_ne].
  - intros [= <-]. apply Hkeep. unfold recordIdempotencyValue. destruct (fl_idem w !! k); by apply same_nodes_kept.
  - intros [= <-]. by apply Hkeep, same_nodes_kept.
Qed.
(** From a start without duplicate keys, the shared tables never have one: no two nodes
    draw the same timestamp for what they land. *)
Lemma fleet_keys_unique w0 ls w' :
  fleet_start w0 -> NoDup (doc_key <$> db_documents (fl_db w0)) -> NoDup (index_key <$> db_indexes (fl_db w0)) ->
  calm_run w0 ls -> frun w0 ls = Some w' ->
  NoDup (doc_key <$> db_documents (fl_db w')) /\ NoDup (index_key <$> db_indexes (fl_db w')).
Proof.
  intros Hs Hd Hx. assert (Hu : unique_inv w0).
  { split; [done|done|..]; intros n s tx; unfold node_of; rewrite (fs_nodes w0 Hs), lookup_empty; cbn; by rewrite lookup_empty. }
  pose proof (fleet_start_inv w0 Hs) as Hi. clear Hs Hd Hx. revert w0 Hi Hu.
  induction ls as [|l ls IH]; intros w Hi Hu; cbn [FleetLease.frun FleetLease.calm_run].
  - intros _ [= <-]. by split; apply Hu.
  - intros [Hc Hcr]. destruct (fstep w l) as [w1|] eqn:E; [|done]. cbn. destruct (fstep_ok w l w1 Hi Hc E) as (Hi1 & _).
    by apply IH; [| eapply (fstep_unique w)|].
Qed.
End frontier.

(** * Concrete runs *)

Section runs.
Definition two_shards : list jsstr := [js "default"; js "s1"].
Definition nodeA : jsstr := js "http://a".
Definition nodeB : jsstr := js "http://b".
Definition app_of (n : jsstr) : option jsstr := Some (js "fleet-" ++ n).
Definition new_fleet : fleet := Fleet 0 0 (SqliteDb [] [] [] [] []) ∅ ∅ ∅ ∅ ∅.
Definition one_doc (b : Z) : commit_unit :=
  let id := DocId 7 [b] in
  CommitUnit [LogEntry 0 id (Some (ResolvedDocument id (VObject []))) None]
    [IndexWrite 0 (IndexUpdate (js "7/by_id") [b] (IxNonClustered id))] None.
Definition take_shard (n s : jsstr) : list flabel := [LTryLock n s; LAcquire n s true; LGranted n s].
Definition commit_one (n s : jsstr) (b : Z) : list flabel := [LBegin n s [one_doc b]; LDraw n s; LInsert n s; LGuard n s; LCommit n s].

(** A holds both shards and commits; it stalls with a commit on its way; B evicts it,
    takes the shard over and commits; A's straggler is fenced, then B closes the idle shard. *)
Definition boot : list flabel := LSetup false :: take_shard nodeA (js "default") ++ take_shard nodeA (js "s1") ++ commit_one nodeA (js "default") 1.
Definition failover : list flabel :=
  [LBegin nodeA (js "default") [one_doc 2]; LDraw nodeA (js "default"); LInsert nodeA (js "default"); LPass 20000; LEvict (js "default"); LUnlock nodeA (js "default")]
  ++ take_shard nodeB (js "default") ++ commit_one nodeB (js "default") 3 ++ [LGuard nodeA (js "default")]
  ++ [LBeat nodeA; LBeatDraw nodeA; LCloseIdle nodeA; LBumpOrphans nodeA].

Definition fleet_of (o : option fleet) : fleet := default new_fleet o.
Notation run w ls := (frun two_shards 15000 app_of w ls).
Notation prefix w := (readFrontier 2 (fl_leases w)).

Definition booted : fleet := fleet_of (run new_fleet boot).
Definition failed_over : fleet := fleet_of (run booted failover).

Example failover_fences :
  run new_fleet boot = Some booted /\ run booted failover = Some failed_over /\
  prefix booted = 0 /\ prefix failed_over = 4 /\
  (dr_ts <$> db_documents (fl_db booted)) = [1] /\ (dr_ts <$> db_documents (fl_db failed_over)) = [1; 4].
Proof. split_and!; vm_compute; reflexivity. Qed.

(** A commit that draws its timestamp between a release's fence and its relinquish, and
    reaches its guard after the node has taken the shard back: the guard reads the new
    epoch, and the commit lands below a frontier that was read meanwhile. *)
Definition straggle : list flabel :=
  take_shard nodeA (js "default") ++ take_shard nodeB (js "s1") ++
  [LSelfFence nodeA (js "default"); LBegin nodeA (js "default") [one_doc 1]; LDraw nodeA (js "default"); LRelinquish nodeA (js "default"); LUnlock nodeA (js "default");
   LBeat nodeB; LBeatDraw nodeB; LCloseIdle nodeB; LBumpOrphans nodeB].
Definition come_back : list flabel := take_shard nodeA (js "default") ++ [LInsert nodeA (js "default"); LGuard nodeA (js "default"); LCommit nodeA (js "default")].
Definition straggling : fleet := fleet_of (run new_fleet straggle).
Definition straggled : fleet := fleet_of (run straggling come_back).

Lemma live_epoch_lets_a_straggler_land :
  run new_fleet straggle = Some straggling /\ run straggling come_back = Some straggled /\ prefix straggling = 3 /\
  db_documents (fl_db straggling) = [] /\ (dr_ts <$> db_documents (fl_db straggled)) = [2].
Proof. split_and!; vm_compute; reflexivity. Qed.

Lemma new_fleet_start : fleet_start two_shards new_fleet.
Proof. split; cbn; [by intros r ?%not_elem_of_nil|lia|intros s r; by rewrite lookup_empty|done]. Qed.

Lemma fleet_prefix_grows_witness :
  run new_fleet boot = Some booted /\ run booted failover = Some failed_over /\ prefix booted <= prefix failed_over /\ frozen (prefix booted) booted failed_over.
Proof.
  assert (H1 : run new_fleet boot = Some booted) by (vm_compute; reflexivity).
  assert (H2 : run booted failover = Some failed_over) by (vm_compute; reflexivity).
  split; [exact H1|]. split; [exact H2|].
  apply (fleet_prefix_grows two_shards 15000 app_of new_fleet boot booted failover failed_over).
  - apply (bool_decide_eq_true_1 (NoDup two_shards)). vm_compute. reflexivity.
  - exact new_fleet_start.
  - vm_compute. repeat split.
  - exact H1.
  - vm_compute. repeat split.
  - exact H2.
Defined.
End runs.
